(* ===== verification/_CoqProject ===== *)
-Q . S2P
Prelude.v
Lines.v
Privilege.v
Bed.v
Netip.v
Volumes.v
Manager.v
ManagerSteps.v
ManagerInv.v
ManagerSafety.v
ManagerTheorems.v
Execution.v
Policy.v
PortAlloc.v
PortMappings.v
Pillow.v
PillowInv.v
PillowTheorems.v
PillowSpec.v
Objects.v
TarStore.v
CasStore.v
PackStore.v
ResticStore.v
AutoStore.v
StageIn.v
Pool.v
Shell.v
BedFS.v
BedFSPaths.v
BedFSTheorems.v
BedFSReader.v
BedNetwork.v
Supervisor.v
Executor.v
Environment.v
Realms.v
LocalExecutor.v
Admission.v
LocalIdentity.v
Transfers.v
Copies.v
CdpFilter.v
Browser.v
BrowserSafety.v
Amenities.v
Failures.v
McpProxy.v
McpSafety.v
Luggage.v
