(* ===== verification/Prelude.v ===== *)
(** * Hostel: a verification development of the sandbox daemon

    Hostel runs sandboxes ("beds") on one host.  A daemon keeps every bed's
    lifecycle, restores its files from a snapshot store and persists them back,
    runs its declared processes ("pillows") and ad-hoc commands ("executions"),
    gives it ports, an egress policy and a Unix identity, and takes all of it back
    when the bed is evicted, purged or retired.  This library models the Go code
    of those parts and proves what they promise.

    ** Parts, files and sources (under src/internal unless stated)

    - [Prelude]: errors as values ([result]), Go strings, 64-bit wrap-around,
      counting in maps, loops over a growing prefix, tactics.
    - [Bed]: declarations and status (bed/bed.go, status.go, room.go, pillows.go,
      protocol/*.go) and the resumable lifecycle [Sequence] (bed/lifecycle.go).
    - [Volumes]: path.Clean, overlap of directories, normalisation of volumes and
      mounts (bed/paths.go, bed/volumes.go).
    - [Manager], [ManagerSteps], [ManagerInv], [ManagerSafety],
      [ManagerTheorems]: the bed manager (bed/manager/*.go).  [Manager] has the
      locked collections as a record and one function per critical section;
      [ManagerSteps] interleaves the sections of all goroutines, with the tokens a
      goroutine holds between two of its sections (operation handles, evictions,
      initialisations, purges); [ManagerInv] and [ManagerSafety] hold the
      invariants; [ManagerTheorems] the properties.
    - [Execution]: terminal causes, output window and history of executions
      (bed/manager/execution.go, execution_log.go).
    - [Policy]: egress rules, their mutation and the learning of addresses from
      DNS answers (host/network/policy.go, policy_dns.go), on the addresses and
      prefixes of [Netip] (package net/netip, and host:port strings of package net).
    - [PortAlloc]: the daemon-wide port allocator (host/network/ports.go).
    - [PortMappings]: the ports of a bed (bed/network/port_mappings.go), on top of
      [PortAlloc].
    - [Pillow], [PillowInv], [PillowTheorems]: supervision of pillows
      (bed/pillow/manager.go, supervision.go, readiness.go, ports.go), on top of
      [PortMappings].
    - [PillowSpec]: validation of pillow declarations (bed/pillow/spec.go,
      probe_spec.go, bed/configuration/spec.go).
    - [Privilege]: UID allocation (bed/privilege).
    - [LocalIdentity]: what a bed has on the local disk, its removal and its recovery
      after a crash (bed/manager/local_identity.go, luggage.go).
    - [Environment]: resolution of declared configuration and the environment of a
      process (bed/configuration/manager.go, bed/manager/env.go).
    - [Pool], [BedNetwork]: the pool of network endpoints (host/network/pool.go) and the
      network of one bed (bed/network/lifecycle.go).
    - [Lines], [Shell]: lines of a stream; sessions over a shell, the framing of commands
      and quoting (bed/manager/shell.go).
    - [BedFS], [BedFSPaths], [BedFSTheorems], [BedFSReader]: the file system of a bed, its
      mounts, process views and reads (bed/filesystem/bedfs/*.go).  Operations are
      programs of calls on anchored directories; a host answers the calls.
    - [Supervisor], [Executor], [LocalExecutor], [Realms]: the process supervisor and its
      wire format (bed/executor/supervisor), the daemon's side of it, processes without
      one and the choice between them, and the executor of each bed with its
      replacement (bed/executor/*.go).
    - [Admission]: carrier pressure and admission in binary64 arithmetic
      (bed/resource/admission.go, cpu_window.go).
    - [Objects]: the snapshot filter, the bucket and the contract of a snapshot
      layout ([Layout] with its laws, class [Lawful]); [TarStore], [CasStore],
      [PackStore], [ResticStore]: the four layouts with the proof that they are
      [Lawful], the last with the commands it runs and the staged copies of trees
      (restic.go, restic_command.go, restic_transfer.go, and transfer_tree.go of
      bed/filesystem/bedfs); [AutoStore]: the router over the layouts, proved against
      the contract and instantiated with them (bed/store/sync/*.go).
    - [StageIn]: choice and publication of the local copy (bed/store/stage.go).
    - [Transfers]: requests and registry of copies to and from object storage
      (bed/store/transfer.go, bed/store/sync/transfer.go); [Copies]: the keys and paths
      such a copy uses (bed/store/sync/copy.go).
    - [Luggage]: cold local copies, their collection by watermarks, and the inventory
      (bed/manager/luggage.go).
    - [Amenities]: facilities shared by beds and their tenants (amenity/manager.go,
      lifecycle.go); [Browser], [BrowserSafety]: the shared browser, launched or external
      (attach mode), its gates, contexts, restarts, lost connections and shutdown
      (amenity/chromium.go, chromium_runtime.go, chromium_tenant.go);
      [CdpFilter]: the filter between a bed and the browser's debugging protocol
      (amenity/chromium_cdp_proxy.go).
    - [McpProxy], [McpSafety]: configurations and the connection pool of a bed's MCP proxy
      (src/pkg/mcpproxy).
    - [Failures]: errors with their causes (error.go, error_cause.go) and what the HTTP API
      answers for a bed (api/apiv1/handler: errors.go, handler.go, beds.go, bed_renew.go,
      network_policy.go and the error answers of transfers.go and mcp.go).

    ** How the code is modelled

    A Go function with an error result returns [result].  A type with a mutex is a
    record; each critical section is a function on it, and an inductive step
    relation interleaves the sections of all callers, so that a theorem about
    reachable states is about every schedule.  A goroutine that owns something
    between two sections is a token or a program counter in the state.  Pointers
    are identifiers drawn from a counter.  What the kernel, the network, a clock
    or a process answers is an argument of the step that asks for it, so a theorem
    holds for every answer; failing answers are included.  Integers are [Z], with
    the wrap-around written out where the code can reach it (log cursors, cache and
    pack sizes, FNV-1a at 32 bits).  Maps are [gmap]; lists keep order where the
    code has order.

    ** What the theorems show

    - Lifecycle: eviction never drops unsaved activity, the bed limit and the
      capacity counters are exact under every interleaving, the collections of a
      name exclude each other, admission and the eviction fence, retention, single
      flight initialisation, observability of declared beds.
    - Storage: a persisted snapshot is what a later restore returns, whatever
      layout the router chose and whatever requests failed before, for names that
      every layout separates and trees the chosen layout accepts; purging removes
      every copy and, for such names, no other bed's; keys of different beds are
      separate (with the exception recorded as a finding); the pack cache is
      transparent; staging in is atomic.
    - Pillows: a stopped bed holds no process and no port, a ready pillow with ports
      in a group that is not stopping serves the ports of its current execution,
      cancellation terminates, the restart
      budget holds, readiness never ends a run, the tracker is the hysteresis its
      thresholds describe, declarations are well formed and stable.
    - Ports and network: allocations that could receive the same connection are
      disjoint, for plainly spelled hosts; published ports are unique,
      released beds own no port, DNS learning is sound for every interleaving with
      policy updates, policies are canonical, mutations exact.
    - Executions: the first cause of an end wins, output windows are bounded and
      reads exact, pruning keeps what runs.
    - Identities and volumes: UIDs are injective and allocation complete; accepted
      mounts are isolated; the overlap test is containment; removal of local data
      survives failures and crashes at every point.
    - Bed networks: every call on the pool is, label by label, the call of the same name on
      a map from networks to owners; the status of a bed's
      network is true and a released network is not touched again.
    - Files: every call of every operation stays in the directories of the bed and
      writes only to writable ones, whatever the client passes and the host answers;
      client and carrier paths correspond; what is written is read back.
    - Processes: signals reach only the processes they are meant for, although the kernel
      reuses identifiers; exits are reported as they were; a retried start runs once;
      executors of one bed never overlap, except one that a failed creation could not
      clean up, and the published status is theirs; the
      environment of a process is exactly the composition of its sources.
    - Shells: the text of a directory is inert, outputs of commands that run to their end
      do not mix (after a cancelled one they do, a finding), no shell is left without owner.
    - Admission and transfers: the verdict follows from the whole history of samples;
      transfers run once, bounded, and are over when they say so; a directory copied to
      object storage and back keeps its names and stays below its destination.
    - Amenities: tenants are bound under one bed, stay bound while one of them could not be
      closed, and end with it; browser contexts of different beds never mix, closing is
      final and an external browser is never stopped; the filter hides what belongs to other
      beds (with the exceptions recorded as findings); a call of the MCP proxy talks only to
      the server it selected, and a closed proxy leaves no client behind.
    - Failures: a request for a bed is refused exactly for the recorded reasons, each with
      its status, code and cause, and causes survive wrapping.
    - Inventory: each name has one row; collection of cold copies stops at its watermark,
      in its order, and takes no more than it needs.

    ** Bounds and fuel

    Loops of the code are structural recursions or carry a fuel the code itself
    has: the number of candidate ports, of UID slots, of attempts.  The fuel of
    [Bed.runLoop], [Netip.parseGroups], [Policy.trimWith], [TarStore.Tar.validUTF8]
    and [Pillow.replaceFuel] is the length of what they consume, one element a
    round at least; [Netip.Itoa] has the twenty digits of a 64-bit number.
    The fuel of [BedFS.searchWalk] and [BedFSReader.readerWalk] is the depth of the tree
    they walk, that of [Transfers.makeRoom] the number of runs kept, that of
    [McpProxy.expandLoop] the length of the text.
    Termination of a supervisor is a theorem with an explicit bound.

    ** Parameters

    desync (chunking), SHA-256 and the JSON encoding of manifests, gzip and tar
    encodings, and the restic program (the classes [ResticTool] and [ResticLaws] of
    [ResticStore]) are parameters with the laws the code relies on; [AutoStore.Demo]
    instantiates them.  The digest of a pillow declaration is
    a parameter without any law.  A host that answers file calls satisfies the class
    [RootLaws] where contents matter; path.Match, the JSON and digest of start
    specifications, the interpreter behind a shell, and the files configuration is read
    from are parameters too, as are url.Parse, the test of bed names against Unicode
    classes, and the JSON decoding of request bodies.  The digest of an MCP configuration
    has no collisions.

    ** Not modelled

    Mount and user namespaces, landlock, ptrace and the isolation programs
    (bed/filesystem/isolation, host/filesystem), netlink, nftables and the DNS transport
    (host/network backends), control groups (host/cgroup), the S3 client
    (bed/store/backend/s3.go), the handlers of files, commands,
    sessions and browser actions and the JSON of successful answers (api), the actions of
    the browser and the messages of the MCP client, flags, wiring and tracing: they are
    calls into the kernel or into other programs, or rendering around the operations above.
    The transfers of single files (bed/filesystem/bedfs/transfer.go) and the daemon's
    background loops (bed/manager/daemon.go) are left out as well.  One interleaving of an
    eviction with the rollback of an initialisation is left out of [ManagerSteps.step],
    which says which.  Log lines, metrics and change callbacks are left out everywhere. *)

From stdpp Require Export base tactics list gmap strings fin_maps sets sorting.
From Stdlib Require Export ZArith Lia Ascii.

Declare Scope hostel_scope.
Delimit Scope hostel_scope with hostel.
#[global] Open Scope Z_scope.
#[global] Open Scope hostel_scope.

(** ** Errors as values

    A Go function returning [(T, error)] becomes a function into [result E T],
    with [E] an inductive type naming the error paths of the component. *)

Inductive result (E A : Type) : Type :=
| Ok (a : A)
| Err (e : E).
Arguments Ok {E A} a.
Arguments Err {E A} e.

Definition res_bind {E A B} (r : result E A) (k : A → result E B) : result E B :=
  match r with Ok a => k a | Err e => Err e end.

Notation "x <-! r ; k" := (res_bind r (λ x, k))
  (at level 100, r at next level, k at level 200, right associativity) : hostel_scope.
Notation "'check!' c 'else' e ; k" := (if c then k else Err e)
  (at level 100, c at next level, e at next level, k at level 200,
   right associativity) : hostel_scope.

Definition is_ok {E A} (r : result E A) : bool :=
  match r with Ok _ => true | Err _ => false end.

#[export] Instance result_fmap {E} : FMap (result E) := λ A B f r,
  match r with Ok a => Ok (f a) | Err e => Err e end.

Fixpoint res_map {E A B} (f : A → result E B) (l : list A) : result E (list B) :=
  match l with
  | [] => Ok []
  | x :: l => y <-! f x; ys <-! res_map f l; Ok (y :: ys)
  end.

#[export] Instance result_eq_dec {E A} `{!EqDecision E, !EqDecision A} :
  EqDecision (result E A).
Proof. solve_decision. Defined.

(** ** Go strings: byte sequences

    A Go string is a sequence of bytes; a Rocq [string] of [ascii] is one too.
    These are the functions of package [strings] that the modelled code calls. *)

Definition has_prefix (s pre : string) : bool := String.prefix pre s.

Fixpoint to_list (s : string) : list ascii :=
  match s with EmptyString => [] | String a s => a :: to_list s end.
Fixpoint of_list (l : list ascii) : string :=
  match l with [] => EmptyString | a :: l => String a (of_list l) end.

Definition str_rev (s : string) : string := of_list (reverse (to_list s)).
Definition has_suffix (s suf : string) : bool := has_prefix (str_rev s) (str_rev suf).

Definition byte (a : ascii) : Z := Z.of_N (N_of_ascii a).
Definition contains_byte (b : Z) (s : string) : bool :=
  existsb (λ a, byte a =? b) (to_list s).
Definition trim_suffix (s suf : string) : string :=
  if has_suffix s suf then String.substring 0 (String.length s - String.length suf) s
  else s.
Definition trim_prefix (s pre : string) : string :=
  if has_prefix s pre
  then String.substring (String.length pre) (String.length s - String.length pre) s
  else s.

Lemma to_list_substring n m s : to_list (String.substring n m s) = take m (drop n (to_list s)).
Proof.
  revert n m. induction s as [|c s IH]; intros [|n] [|m]; simpl; rewrite ?take_nil; try done; rewrite IH; done.
Qed.

Definition in_range (lo hi : Z) (a : ascii) : bool := (lo <=? byte a) && (byte a <=? hi).
Definition is_digit (a : ascii) : bool := in_range 48 57 a.
Definition is_upper (a : ascii) : bool := in_range 65 90 a.
Definition is_lower (a : ascii) : bool := in_range 97 122 a.
Definition is_alnum (a : ascii) : bool := is_digit a || is_upper a || is_lower a.

(** ** Signed 64-bit arithmetic *)

Definition wrap64 (z : Z) : Z := (z + 2 ^ 63) mod 2 ^ 64 - 2 ^ 63.

Lemma wrap64_id z : - 2 ^ 63 <= z < 2 ^ 63 → wrap64 z = z.
Proof. intros Hz. unfold wrap64. rewrite Z.mod_small; lia. Qed.

(** ** Counting entries of a map *)

Definition b2z (b : bool) : Z := if b then 1 else 0.

Section counting.
Context `{Countable K} {A : Type}.
Implicit Types (m : gmap K A) (f g : A → bool).

Definition map_count (f : A → bool) (m : gmap K A) : Z :=
  Z.of_nat (size (filter (λ kv : K * A, f kv.2 = true) m)).

Lemma map_count_empty f : map_count f ∅ = 0.
Proof. unfold map_count. by rewrite map_filter_empty, map_size_empty. Qed.

Lemma map_count_nonneg f m : 0 <= map_count f m.
Proof. unfold map_count. lia. Qed.

Lemma map_count_insert_new f m k x :
  m !! k = None → map_count f (<[k:=x]> m) = map_count f m + b2z (f x).
Proof.
  intros Hk. unfold map_count. rewrite map_filter_insert.
  case_decide as Hfx; simpl in Hfx.
  - rewrite Hfx, map_size_insert_None; [simpl; lia|].
    apply map_lookup_filter_None. by left.
  - apply not_true_is_false in Hfx. rewrite Hfx, delete_id by done. simpl. lia.
Qed.

Lemma map_count_delete f m k x :
  m !! k = Some x → map_count f (delete k m) = map_count f m - b2z (f x).
Proof.
  intros Hk. rewrite <-(insert_delete_id m k x Hk) at 2.
  rewrite map_count_insert_new by apply lookup_delete_eq. lia.
Qed.

Lemma map_count_delete_None f m k :
  m !! k = None → map_count f (delete k m) = map_count f m.
Proof. intros Hk. by rewrite delete_id. Qed.

Lemma map_count_insert f m k x :
  map_count f (<[k:=x]> m) = map_count f (delete k m) + b2z (f x).
Proof. rewrite <-insert_delete_eq. apply map_count_insert_new, lookup_delete_eq. Qed.

Lemma map_count_ext f g m :
  (∀ k x, m !! k = Some x → f x = g x) → map_count f m = map_count g m.
Proof.
  intros Hfg. unfold map_count. do 2 f_equal.
  apply map_filter_ext. intros k x Hx. simpl. by rewrite (Hfg k x Hx).
Qed.

Lemma map_count_true m : map_count (λ _, true) m = Z.of_nat (size m).
Proof. unfold map_count. by rewrite map_filter_id by done. Qed.

(** Changing the predicate at one key only moves the count by that entry. *)
Lemma map_count_change f g m k x :
  m !! k = Some x →
  (∀ k' x', k' ≠ k → m !! k' = Some x' → f x' = g x') →
  map_count g m = map_count f m - b2z (f x) + b2z (g x).
Proof.
  intros Hk Hfg.
  pose proof (map_count_delete f m k x Hk). pose proof (map_count_delete g m k x Hk).
  enough (map_count f (delete k m) = map_count g (delete k m)) by lia.
  apply map_count_ext. intros k' x' Hx'.
  apply lookup_delete_Some in Hx' as [??]. by apply (Hfg k').
Qed.
End counting.

(** ** Finite pigeonhole: a strictly larger range has a free point *)

Lemma size_le_seqZ (s : gset Z) (lo n : Z) :
  0 <= n → (∀ z, z ∈ s → lo <= z < lo + n) → (Z.of_nat (size s) <= n).
Proof.
  intros Hn Hs.
  assert (s ⊆ list_to_set (seqZ lo n)) as Hsub.
  { intros z Hz. apply elem_of_list_to_set, elem_of_seqZ. specialize (Hs z Hz). lia. }
  apply subseteq_size in Hsub.
  rewrite size_list_to_set in Hsub by apply NoDup_seqZ.
  rewrite length_seqZ in Hsub. lia.
Qed.

Lemma seqZ_covered_size (s : gset Z) (lo n : Z) :
  0 <= n → (∀ z, lo <= z < lo + n → z ∈ s) → n <= Z.of_nat (size s).
Proof.
  intros Hn Hs.
  assert (list_to_set (seqZ lo n) ⊆ s) as Hsub.
  { intros z Hz%elem_of_list_to_set%elem_of_seqZ. apply Hs. lia. }
  apply subseteq_size in Hsub.
  rewrite size_list_to_set in Hsub by apply NoDup_seqZ.
  rewrite length_seqZ in Hsub. lia.
Qed.

(** ** Adjacent windows of a list *)

Lemma windows_adjacent {A} (l : list A) (i j k : nat) :
  (i <= j)%nat → (j <= k)%nat →
  take (j - i) (drop i l) ++ take (k - j) (drop j l) = take (k - i) (drop i l).
Proof.
  intros Hij Hjk. replace (drop j l) with (drop (j - i) (drop i l))
    by (rewrite drop_drop; f_equal; lia).
  rewrite take_take_drop. f_equal. lia.
Qed.

(** ** Pairwise relations and loops over a growing prefix *)

Fixpoint pairwise {A} (R : A → A → Prop) (l : list A) : Prop :=
  match l with [] => True | x :: l => Forall (R x) l ∧ pairwise R l end.

Lemma pairwise_app {A} (R : A → A → Prop) l1 l2 :
  pairwise R (l1 ++ l2) ↔
  pairwise R l1 ∧ pairwise R l2 ∧ Forall (λ x, Forall (R x) l2) l1.
Proof.
  induction l1 as [|x l1 IH]; simpl; [rewrite Forall_nil; tauto|].
  rewrite IH, Forall_app, Forall_cons. tauto.
Qed.

Lemma pairwise_Permutation {A} (R : A → A → Prop) l1 l2 :
  (∀ x y, R x y → R y x) → l1 ≡ₚ l2 → pairwise R l1 → pairwise R l2.
Proof.
  intros Hsym. induction 1 as [|x l1 l2 Hp IH|x y l|l1 l2 l3 _ IH1 _ IH2]; simpl; [done|..].
  - intros [Hx Hl]. split; [by rewrite <-Hp|auto].
  - rewrite !Forall_cons. intros [[Hyx Hy] [Hx Hl]]. split_and!; auto.
  - auto.
Qed.

Lemma pairwise_elem {A} (R : A → A → Prop) l x y :
  (∀ x y, R x y → R y x) → pairwise R l → x ∈ l → y ∈ l → x ≠ y → R x y.
Proof.
  intros Hsym. induction l as [|z l IH]; simpl; [by intros _ ?%elem_of_nil|].
  rewrite !elem_of_cons, Forall_forall. intros [Hz Hl] [->|Hx] [->|Hy] Hne; [done|auto..].
Qed.

(** The loops [for i := range out] that compare [out[i]] with [out[:i]]. *)
Fixpoint accumulate {E A} (f : list A → A → result E A) (prev l : list A) : result E (list A) :=
  match l with
  | [] => Ok prev
  | x :: l => y <-! f prev x; accumulate f (prev ++ [y]) l
  end.

Lemma accumulate_spec {E A} (f : list A → A → result E A) (g : A → A) (good : A → Prop)
    (R : A → A → Prop) :
  (∀ prev x y, f prev x = Ok y ↔ y = g x ∧ good (g x) ∧ Forall (λ o, R o (g x)) prev) →
  ∀ l prev out, pairwise R prev →
  accumulate f prev l = Ok out ↔
  out = prev ++ (g <$> l) ∧ Forall good (g <$> l) ∧ pairwise R (prev ++ (g <$> l)).
Proof.
  intros Hf l. induction l as [|x l IH]; intros prev out Hprev; simpl.
  { rewrite app_nil_r. split; [intros [= ->]|intros (->&_)]; by auto using Forall_nil. }
  assert (∀ y, pairwise R (prev ++ [y]) ↔ Forall (λ o, R o y) prev) as Hsnoc.
  { intros y. rewrite pairwise_app. simpl. rewrite Forall_nil.
    setoid_rewrite Forall_singleton. tauto. }
  rewrite cons_middle, app_assoc, Forall_cons.
  destruct (f prev x) as [y|e] eqn:Hy; simpl.
  - apply Hf in Hy as (->&Hg&HR). rewrite IH by (by apply Hsnoc). tauto.
  - split; [done|]. intros (_&[Hg _]&Hp). exfalso.
    apply pairwise_app in Hp as (Hp&_&_). apply Hsnoc in Hp.
    assert (f prev x = Ok (g x)) by (by apply Hf). congruence.
Qed.

(** A loop that keeps what it once returned keeps its result. *)
Lemma accumulate_stable {E A} (f : list A → A → result E A) :
  (∀ prev x y, f prev x = Ok y → f prev y = Ok y) →
  ∀ l prev out, accumulate f prev l = Ok out → ∃ l', out = prev ++ l' ∧ accumulate f prev l' = Ok out.
Proof.
  intros Hf l. induction l as [|x l IH]; intros prev out; simpl.
  { intros [= <-]. exists []. by rewrite app_nil_r. }
  destruct (f prev x) as [y|e] eqn:Hy; [|done]. simpl. intros (l'&->&H')%IH. exists (y :: l').
  rewrite <-app_assoc in *. split; [done|]. simpl. by rewrite (Hf _ _ _ Hy).
Qed.

Lemma accumulate_length {E A} (f : list A → A → result E A) l prev out :
  accumulate f prev l = Ok out → length out = (length prev + length l)%nat.
Proof.
  revert prev. induction l as [|x l IH]; intros prev; simpl; [intros [= <-]; lia|].
  destruct (f prev x) as [y|e]; [|done]. simpl. intros ->%IH. rewrite length_app. simpl. lia.
Qed.

(** What every accepted element satisfies. *)
Lemma accumulate_forall {E A} (f : list A → A → result E A) (P : A → Prop) :
  (∀ prev x y, f prev x = Ok y → P y) →
  ∀ l prev out, Forall P prev → accumulate f prev l = Ok out → Forall P out.
Proof.
  intros Hf l. induction l as [|x l IH]; intros prev out Hp; simpl; [by intros [= <-]|].
  destruct (f prev x) as [y|e] eqn:Hy; [|done]. simpl. apply IH. apply Forall_app. split; [done|]. apply Forall_singleton. eauto.
Qed.

(** The elements [res_map] accepts. *)
Lemma res_map_forall {E A B} (f : A → result E B) (P : B → Prop) l out :
  (∀ x y, f x = Ok y → P y) → res_map f l = Ok out → Forall P out.
Proof.
  intros Hf. revert out. induction l as [|x l IH]; intros out; simpl; [by intros [= <-]|].
  destruct (f x) as [y|] eqn:Hy; [|done]. simpl. destruct (res_map f l) as [ys|]; [|done]. intros [= <-].
  constructor; eauto.
Qed.
Lemma res_map_stable {E A} (f : A → result E A) l out :
  (∀ x y, f x = Ok y → f y = Ok y) → res_map f l = Ok out → res_map f out = Ok out.
Proof.
  intros Hf. revert out. induction l as [|x l IH]; intros out; simpl; [by intros [= <-]|].
  destruct (f x) as [y|] eqn:Hy; [|done]. simpl. destruct (res_map f l) as [ys|]; [|done]. intros [= <-]. simpl.
  rewrite (Hf _ _ Hy). simpl. by rewrite (IH ys).
Qed.

(** ** Automation *)

Create HintDb hostel.
#[export] Hint Resolve map_count_nonneg : hostel.

(** Split the conjunctions and existentials of the context. *)
Ltac split_hyps :=
  repeat match goal with
  | H : _ ∧ _ |- _ => destruct H
  | H : ∃ _, _ |- _ => destruct H
  end.

(** Turn the boolean tests of the code into propositions. *)
Ltac reflect_bools :=
  repeat match goal with
  | H : (_ && _) = true |- _ => apply andb_true_iff in H as [? ?]
  | H : (_ || _) = false |- _ => apply orb_false_iff in H as [? ?]
  | H : (_ && _) = false |- _ => apply andb_false_iff in H
  | H : (_ || _) = true |- _ => apply orb_true_iff in H
  | H : negb _ = true |- _ => apply negb_true_iff in H
  | H : negb _ = false |- _ => apply negb_false_iff in H
  | H : (_ <? _) = true |- _ => apply Z.ltb_lt in H
  | H : (_ <? _) = false |- _ => apply Z.ltb_ge in H
  | H : (_ <=? _) = true |- _ => apply Z.leb_le in H
  | H : (_ <=? _) = false |- _ => apply Z.leb_gt in H
  | H : (_ =? _) = true |- _ => apply Z.eqb_eq in H
  | H : (_ =? _) = false |- _ => apply Z.eqb_neq in H
  | H : bool_decide _ = true |- _ => apply bool_decide_eq_true_1 in H
  | H : bool_decide _ = false |- _ => apply bool_decide_eq_false_1 in H
  end.
