(* ===== verification/Lines.v ===== *)
(** * Lines: splitting a byte stream at newlines

    What [bufio.Reader.ReadString] and [strings.SplitAfter] make of a text: shared by
    the reader of a shell's output and by the line windows of the file operations. *)

From S2P Require Import Prelude.

Abbreviation text := (list ascii).
Definition newline : ascii := "010"%char.

(** The complete lines, delimiter included, and the bytes after the last of them. *)
Fixpoint splitLines (s : text) : list text * text :=
  match s with
  | [] => ([], [])
  | c :: s' =>
      let '(ls, rest) := splitLines s' in
      if bool_decide (c = newline) then ([c] :: ls, rest)
      else match ls with
           | l :: ls' => ((c :: l) :: ls', rest)
           | [] => ([], c :: rest)
           end
  end.
(** What reaches the channel: the last fragment only when the pipe has ended. *)
Definition readLines (s : text) (eof : bool) : list text :=
  let '(ls, rest) := splitLines s in
  ls ++ (if eof && negb (bool_decide (rest = [])) then [rest] else []).

Lemma splitLines_app s t :
  splitLines (s ++ t) = ((splitLines s).1 ++ (splitLines ((splitLines s).2 ++ t)).1, (splitLines ((splitLines s).2 ++ t)).2).
Proof.
  induction s as [|c s IH]; [simpl; by destruct (splitLines t)|]. simpl. rewrite IH. destruct (splitLines s) as [ls r]. simpl.
  destruct (splitLines (r ++ t)) as [ls2 r2] eqn:E. simpl. case_bool_decide as Hc; [by simpl; rewrite E|].
  destruct ls as [|l ls]; simpl; [|by rewrite E]. rewrite E, bool_decide_false by done. by destruct ls2.
Qed.

Lemma splitLines_concat s : concat (splitLines s).1 ++ (splitLines s).2 = s.
Proof.
  induction s as [|c s IH]; [done|]. simpl. destruct (splitLines s) as [ls r]. simpl in IH.
  case_bool_decide; [simpl; by rewrite IH|]. destruct ls; simpl in *; by rewrite IH.
Qed.

Lemma splitLines_rest s : newline ∉ (splitLines s).2.
Proof.
  induction s as [|c s IH]; [apply not_elem_of_nil|]. simpl. destruct (splitLines s) as [ls r]. simpl in IH.
  case_bool_decide as Hc; [done|]. destruct ls; [|done]. simpl. rewrite not_elem_of_cons. auto.
Qed.

Lemma splitLines_one l : newline ∉ l → splitLines (l ++ [newline]) = ([l ++ [newline]], []).
Proof.
  induction l as [|c l IH]; [done|]. rewrite not_elem_of_cons. intros [Hc Hl]. simpl. rewrite IH by done.
  by rewrite bool_decide_false by done.
Qed.

