(* ===== verification/Privilege.v ===== *)
(** * Privilege: Unix identities of Beds

    Models [internal/bed/privilege]: [NewBedUser] and the capability check of
    [bed_user.go], the per-Bed UID allocator of [bed_user_allocator.go] and
    [bed_user_reservation_linux.go], and the identity bookkeeping of
    [manager.go].  The allocator is shown to keep an injective Bed-to-UID
    assignment and to find a free UID whenever there is one. *)

From S2P Require Import Prelude.

(** ** bed_user.go *)

Record BedUser := mkBedUser { uid : Z; gid : Z }.

#[export] Instance BedUser_eq_dec : EqDecision BedUser.
Proof. solve_decision. Defined.

Inductive perr :=
| ErrRootUser (uid gid : Z)                     (* bed user must be non-root *)
| ErrBadRange (uidMin uidMax : Z)               (* invalid bed user range *)
| ErrConflictingUIDs (bed : string) (a b : Z)   (* bed has conflicting uids *)
| ErrUIDOwned (uid : Z) (owner bed : string)    (* uid owned by both *)
| ErrNoAllocator                                (* nil allocator *)
| ErrExhausted (uidMin uidMax : Z).             (* bed user range exhausted *)

Definition NewBedUser (uid gid : Z) : result perr BedUser :=
  if (uid <=? 0) || (gid <=? 0) then Err (ErrRootUser uid gid)
  else Ok (mkBedUser uid gid).

Record CapabilityRequirement := mkCap { Bit : Z; CapName : string }.

Definition bedIdentityCapabilities : list CapabilityRequirement :=
  [ mkCap 0 "CAP_CHOWN"; mkCap 1 "CAP_DAC_OVERRIDE"; mkCap 3 "CAP_FOWNER";
    mkCap 5 "CAP_KILL"; mkCap 6 "CAP_SETGID"; mkCap 7 "CAP_SETUID";
    mkCap 8 "CAP_SETPCAP" ].

(** [effectiveCaps] is a uint64; the shift amounts are below 9, so [1 << Bit]
    never leaves 64 bits. *)
Definition MissingBedIdentityCapabilities (effectiveCaps : Z) : list string :=
  CapName <$> filter
    (λ c, Z.land effectiveCaps (Z.shiftl 1 (Bit c)) = 0) bedIdentityCapabilities.

(** ** bed_user_allocator.go *)

Record BedUserAllocator := mkAllocator {
  fixed    : option BedUser;
  uidMin   : Z;
  uidMax   : Z;
  byBed    : gmap string BedUser;
  ownerUID : gmap Z string;
}.

Definition set_maps (a : BedUserAllocator) (b : gmap string BedUser) (o : gmap Z string) :=
  mkAllocator (fixed a) (uidMin a) (uidMax a) b o.

Definition NewFixedBedUserAllocator (user : BedUser) : BedUserAllocator :=
  mkAllocator (Some user) 0 0 ∅ ∅.

Definition NewPerBedUserAllocator (uidMin uidMax : Z) : result perr BedUserAllocator :=
  if (uidMin <=? 0) || (uidMax <? uidMin) then Err (ErrBadRange uidMin uidMax)
  else Ok (mkAllocator None uidMin uidMax ∅ ∅).

Definition reserveLocked (a : BedUserAllocator) (bedID : string) (u : Z)
  : result perr BedUserAllocator :=
  match fixed a with
  | Some _ => Ok a
  | None =>
    if (u <? uidMin a) || (uidMax a <? u) then Ok a
    else match byBed a !! bedID with
    | Some user =>
        if negb (uid user =? u) then Err (ErrConflictingUIDs bedID (uid user) u) else Ok a
    | None =>
        match ownerUID a !! u with
        | Some owner =>
            if negb (String.eqb owner bedID) then Err (ErrUIDOwned u owner bedID)
            else user <-! NewBedUser u u;
                 Ok (set_maps a (<[bedID:=user]> (byBed a)) (<[u:=bedID]> (ownerUID a)))
        | None =>
            user <-! NewBedUser u u;
            Ok (set_maps a (<[bedID:=user]> (byBed a)) (<[u:=bedID]> (ownerUID a)))
        end
    end
  end.

(** [hash/fnv] New32a: xor the byte in, then multiply by the FNV prime, in
    uint32 arithmetic. *)
Definition fnv32a (s : string) : Z :=
  fold_left (λ h a, (Z.lxor h (byte a) * 16777619) mod 2 ^ 32) (to_list s) 2166136261.

Definition stableBedUserSlot (bedID : string) (slots : Z) : Z :=
  fnv32a bedID mod (slots mod 2 ^ 32).

(** The probing loop of [Acquire]: [n] iterations remain, at [offset]. *)
Fixpoint probeSlots (a : BedUserAllocator) (bedID : string) (slots start offset : Z)
    (n : nat) : result perr (BedUser * BedUserAllocator) :=
  match n with
  | O => Err (ErrExhausted (uidMin a) (uidMax a))
  | S n =>
      let u := uidMin a + (start + offset) mod slots in
      match ownerUID a !! u with
      | Some _ => probeSlots a bedID slots start (offset + 1) n
      | None =>
          user <-! NewBedUser u u;
          Ok (user, set_maps a (<[bedID:=user]> (byBed a)) (<[u:=bedID]> (ownerUID a)))
      end
  end.

(** [None] is the nil receiver. *)
Definition Acquire (a : option BedUserAllocator) (bedID : string)
  : result perr (BedUser * BedUserAllocator) :=
  match a with
  | None => Err ErrNoAllocator
  | Some a =>
    match fixed a with
    | Some u => Ok (u, a)
    | None =>
      match byBed a !! bedID with
      | Some user => Ok (user, a)
      | None =>
        let slots := uidMax a - uidMin a + 1 in
        probeSlots a bedID slots (stableBedUserSlot bedID slots) 0 (Z.to_nat slots)
      end
    end
  end.

Definition Release (a : BedUserAllocator) (bedID : string) : BedUserAllocator :=
  match fixed a with
  | Some _ => a
  | None =>
    match byBed a !! bedID with
    | Some user => set_maps a (delete bedID (byBed a)) (delete (uid user) (ownerUID a))
    | None => a
    end
  end.

(** *** Invariant: the two maps are inverse to each other *)

Record alloc_wf (a : BedUserAllocator) : Prop := {
  wf_min  : 0 < uidMin a;
  wf_max  : uidMin a <= uidMax a;
  wf_bed  : ∀ b u, byBed a !! b = Some u →
              gid u = uid u ∧ uidMin a <= uid u <= uidMax a ∧ ownerUID a !! uid u = Some b;
  wf_own  : ∀ n b, ownerUID a !! n = Some b → byBed a !! b = Some (mkBedUser n n);
}.

Lemma alloc_wf_new lo hi a : NewPerBedUserAllocator lo hi = Ok a → alloc_wf a.
Proof.
  unfold NewPerBedUserAllocator. intros H. case_match; simplify_eq. reflect_bools.
  split; simpl; try done; lia.
Qed.

Lemma NewBedUser_Ok u g x : NewBedUser u g = Ok x → x = mkBedUser u g ∧ 0 < u ∧ 0 < g.
Proof.
  unfold NewBedUser. intros H. case_match; simplify_eq. reflect_bools. split; [done|lia].
Qed.

Lemma NewBedUser_pos u : 0 < u → NewBedUser u u = Ok (mkBedUser u u).
Proof.
  intros Hu. unfold NewBedUser. destruct (Z.leb_spec u 0); [lia|]. done.
Qed.

(** Binding a Bed without a user to a free UID of the range keeps the invariant. *)
Lemma alloc_wf_bind a b u :
  alloc_wf a → uidMin a <= u <= uidMax a → byBed a !! b = None → ownerUID a !! u = None →
  alloc_wf (set_maps a (<[b:=mkBedUser u u]> (byBed a)) (<[u:=b]> (ownerUID a))).
Proof.
  intros [Hmin Hmax Hb Ho] Hu Hnb Hno. split; simpl; [done|done| |].
  - intros b' u' [[<- <-]|[Hne Hl]]%lookup_insert_Some; simpl.
    + rewrite lookup_insert_eq. auto.
    + destruct (Hb _ _ Hl) as (? & ? & Hl'). split_and!; [done|lia|lia|].
      rewrite lookup_insert_ne; [done|]. intros ->. congruence.
  - intros n b' [[<- <-]|[Hne Hl]]%lookup_insert_Some.
    + by rewrite lookup_insert_eq.
    + apply Ho in Hl. rewrite lookup_insert_ne; [done|]. intros ->. congruence.
Qed.

Lemma alloc_wf_release a b : alloc_wf a → alloc_wf (Release a b).
Proof.
  intros [Hmin Hmax Hb Ho]. unfold Release. destruct (fixed a); [done|].
  destruct (byBed a !! b) as [u|] eqn:Hl; [|done]. split; simpl; [done|done| |].
  - intros b' u' [Hne Hl']%lookup_delete_Some. destruct (Hb _ _ Hl') as (?&?&Hl'').
    split_and!; [done|lia|lia|]. rewrite lookup_delete_ne; [done|].
    destruct (Hb _ _ Hl) as (?&?&Hl3). intros E. rewrite E in Hl3. congruence.
  - intros n b' [Hne Hl']%lookup_delete_Some. apply Ho in Hl'.
    rewrite lookup_delete_ne; [done|]. intros <-. rewrite Hl in Hl'. by simplify_eq.
Qed.

Lemma alloc_wf_reserve a b u a' :
  alloc_wf a → reserveLocked a b u = Ok a' → alloc_wf a'.
Proof.
  intros Hwf. unfold reserveLocked. destruct (fixed a); [by intros [= <-]|].
  destruct (_ || _) eqn:Hr; [by intros [= <-]|]. reflect_bools.
  destruct (byBed a !! b) as [usr|] eqn:Hb.
  { case_match; [done|by intros [= <-]]. }
  assert (ownerUID a !! u = None → (user <-! NewBedUser u u;
     Ok (set_maps a (<[b:=user]> (byBed a)) (<[u:=b]> (ownerUID a)))) = Ok a' → alloc_wf a')
    as Hbind.
  { intros Ho. destruct Hwf. rewrite NewBedUser_pos by lia. simpl. intros [= <-].
    apply alloc_wf_bind; [by split|lia|done|done]. }
  destruct (ownerUID a !! u) as [o|] eqn:Ho; [|by apply Hbind].
  destruct (String.eqb_spec o b); [|done]. subst. simpl.
  apply (wf_own _ Hwf) in Ho. congruence.
Qed.

(** *** The probing loop *)

Section probe.
Context (a : BedUserAllocator) (bedID : string).
Hypothesis Hwf : alloc_wf a.
Let slots := uidMax a - uidMin a + 1.

Lemma slots_pos : 0 < slots.
Proof. destruct Hwf. unfold slots. lia. Qed.

Lemma probe_in_range start offset :
  uidMin a <= uidMin a + (start + offset) mod slots <= uidMax a.
Proof.
  pose proof slots_pos. pose proof (Z.mod_pos_bound (start + offset) slots).
  unfold slots in *. lia.
Qed.

Lemma probeSlots_Ok start n : ∀ offset user a',
  probeSlots a bedID slots start offset n = Ok (user, a') →
  uidMin a <= uid user <= uidMax a ∧ user = mkBedUser (uid user) (uid user) ∧
  ownerUID a !! uid user = None ∧
  a' = set_maps a (<[bedID:=user]> (byBed a)) (<[uid user:=bedID]> (ownerUID a)).
Proof.
  induction n as [|n IH]; intros offset user a' H; [done|]. simpl in H.
  case_match eqn:Ho; [by apply IH in H|].
  pose proof (probe_in_range start offset) as Hr. destruct Hwf.
  rewrite NewBedUser_pos in H by lia. simpl in H. simplify_eq. simpl. by auto.
Qed.

Lemma probeSlots_Err start n : ∀ offset e,
  probeSlots a bedID slots start offset n = Err e →
  e = ErrExhausted (uidMin a) (uidMax a) ∧
  ∀ i, offset <= i < offset + Z.of_nat n →
    is_Some (ownerUID a !! (uidMin a + (start + i) mod slots)).
Proof.
  induction n as [|n IH]; intros offset e H; simpl in H.
  { simplify_eq. split; [done|]. intros. lia. }
  case_match eqn:Ho.
  - apply IH in H as [-> Hall]. split; [done|]. intros i Hi.
    destruct (decide (i = offset)) as [->|]; [eauto|]. apply Hall. lia.
  - pose proof (probe_in_range start offset). destruct Hwf.
    rewrite NewBedUser_pos in H by lia. done.
Qed.

(** Every UID of the range is visited by a full sweep from any start. *)
Lemma probe_covers start u :
  uidMin a <= u <= uidMax a →
  ∃ i, 0 <= i < slots ∧ uidMin a + (start + i) mod slots = u.
Proof.
  intros Hu. pose proof slots_pos as Hs.
  exists ((u - uidMin a - start) mod slots).
  split; [apply Z.mod_pos_bound; lia|].
  rewrite Z.add_mod_idemp_r by lia.
  replace (start + (u - uidMin a - start)) with (u - uidMin a) by lia.
  rewrite Z.mod_small; unfold slots; lia.
Qed.
End probe.

Lemma alloc_wf_acquire a b u a' : alloc_wf a → Acquire (Some a) b = Ok (u, a') → alloc_wf a'.
Proof.
  intros Hwf. unfold Acquire. destruct (fixed a); [by intros [= <- <-]|].
  destruct (byBed a !! b) eqn:Hb; [by intros [= <- <-]|].
  intros (Hr & Hu & Ho & ->)%probeSlots_Ok; [|done].
  rewrite Hu at 1. simpl. by apply alloc_wf_bind.
Qed.

(** *** The contract, as a step relation over the allocator's operations *)

Inductive alloc_step : BedUserAllocator → BedUserAllocator → Prop :=
| step_acquire a b u a' : Acquire (Some a) b = Ok (u, a') → alloc_step a a'
| step_reserve a b u a' : reserveLocked a b u = Ok a' → alloc_step a a'
| step_release a b : alloc_step a (Release a b).

Inductive alloc_reachable (lo hi : Z) : BedUserAllocator → Prop :=
| reach_new a : NewPerBedUserAllocator lo hi = Ok a → alloc_reachable lo hi a
| reach_step a a' : alloc_reachable lo hi a → alloc_step a a' → alloc_reachable lo hi a'.

Lemma alloc_reachable_wf lo hi a : alloc_reachable lo hi a → alloc_wf a.
Proof.
  induction 1 as [a H|a a' _ IH Hs]; [by eapply alloc_wf_new|].
  destruct Hs; eauto using alloc_wf_acquire, alloc_wf_reserve, alloc_wf_release.
Qed.

Lemma alloc_reachable_range lo hi a :
  alloc_reachable lo hi a → uidMin a = lo ∧ uidMax a = hi ∧ fixed a = None.
Proof.
  induction 1 as [a H|a a' Hr IH Hs].
  { unfold NewPerBedUserAllocator in H. case_match; by simplify_eq. }
  destruct IH as (<- & <- & Hf), Hs as [a b u a' H|a b u a' H|a b].
  - unfold Acquire in H. rewrite Hf in H. case_match; [by simplify_eq|].
    apply probeSlots_Ok in H; [|by eapply alloc_reachable_wf].
    by destruct H as (?&?&?&->).
  - unfold reserveLocked, NewBedUser in H. rewrite Hf in H.
    repeat case_match; simpl in *; by simplify_eq.
  - unfold Release. rewrite Hf. by case_match.
Qed.

(** ** Properties *)

(** In every state the allocator can reach by acquiring, reserving and
    releasing identities, two Beds never hold the same Unix UID, every held UID
    lies in the configured range, is non-root and equals its GID. *)
Lemma bed_uids_injective (lo hi : Z) (a : BedUserAllocator) :
  alloc_reachable lo hi a →
  (∀ b1 b2 u1 u2, byBed a !! b1 = Some u1 → byBed a !! b2 = Some u2 →
     uid u1 = uid u2 → b1 = b2) ∧
  (∀ b u, byBed a !! b = Some u → lo <= uid u <= hi ∧ 0 < uid u ∧ gid u = uid u).
Proof.
  intros Hr. pose proof (alloc_reachable_wf _ _ _ Hr) as Hwf.
  apply alloc_reachable_range in Hr as (<- & <- & _). split.
  - intros b1 b2 u1 u2 H1 H2 E. apply (wf_bed _ Hwf) in H1 as (_&_&H1).
    apply (wf_bed _ Hwf) in H2 as (_&_&H2). rewrite E in H1. congruence.
  - intros b u H. apply (wf_bed _ Hwf) in H as (?&?&?). destruct Hwf. lia.
Qed.

(** A two-slot allocator holding Beds ["a"] and ["b"]. *)
Definition demo_run (bedID : string) (a : BedUserAllocator) : BedUserAllocator :=
  match Acquire (Some a) bedID with Ok (_, a') => a' | Err _ => a end.
Definition demo_alloc0 : BedUserAllocator := mkAllocator None 200000 200001 ∅ ∅.
Definition demo_alloc : BedUserAllocator := demo_run "b" (demo_run "a" demo_alloc0).

Lemma demo_run_step bedID a :
  is_ok (Acquire (Some a) bedID) = true → alloc_step a (demo_run bedID a).
Proof.
  unfold demo_run. destruct (Acquire (Some a) bedID) as [[u a']|] eqn:E; [|done].
  intros _. by eapply step_acquire.
Qed.

Lemma demo_alloc_reachable : alloc_reachable 200000 200001 demo_alloc.
Proof.
  apply reach_step with (demo_run "a" demo_alloc0).
  - apply reach_step with demo_alloc0; [by apply reach_new|].
    apply demo_run_step. vm_compute. reflexivity.
  - apply demo_run_step. vm_compute. reflexivity.
Qed.

(** [Acquire] for a Bed without an identity succeeds exactly when some UID
    of the configured range is unowned, despite hash collisions of the start
    slot; it then returns an unowned UID of the range and records it for that
    Bed only.  The only other outcome is the exhaustion error. *)
Lemma acquire_complete (a : BedUserAllocator) (b : string) :
  alloc_wf a → fixed a = None → byBed a !! b = None →
  (∀ u a', Acquire (Some a) b = Ok (u, a') →
     uidMin a <= uid u <= uidMax a ∧ ownerUID a !! uid u = None ∧
     byBed a' !! b = Some u ∧ ∀ b', b' ≠ b → byBed a' !! b' = byBed a !! b') ∧
  ((∃ u a', Acquire (Some a) b = Ok (u, a')) ↔
   ∃ n, uidMin a <= n <= uidMax a ∧ ownerUID a !! n = None) ∧
  (∀ e, Acquire (Some a) b = Err e → e = ErrExhausted (uidMin a) (uidMax a)).
Proof.
  intros Hwf Hf Hb. unfold Acquire. rewrite Hf, Hb.
  set (start := stableBedUserSlot _ _). split_and!.
  - intros u a' (Hr & Hu & Ho & ->)%probeSlots_Ok; [|done]. simpl.
    rewrite lookup_insert_eq. split_and!; try done; [lia|lia|].
    intros b' Hne. by rewrite lookup_insert_ne.
  - split.
    + intros (u & a' & (Hr & _ & Ho & _)%probeSlots_Ok); eauto.
    + intros (n & Hn & Ho). destruct (probeSlots _ _ _ _ _ _) as [[u a']|e] eqn:Hp; [eauto|].
      apply probeSlots_Err in Hp as [_ Hall]; [|done].
      destruct (probe_covers a Hwf start n Hn) as (i & Hi & Hin).
      destruct (Hall i) as [o Ho']; [lia|]. rewrite Hin in Ho'. congruence.
  - intros e Hp. by apply probeSlots_Err in Hp as [-> _].
Qed.

