(* ===== verification/Bed.v ===== *)
(** * Bed: the shared data model and the lifecycle contract

    Models [internal/bed] and the [protocol] types it aliases: the declaration
    ([Spec], pillows, volumes), the status sections, room grading ([room.go])
    and the resumable lifecycle cursor ([lifecycle.go], [Sequence]). *)

From S2P Require Import Prelude.

(** ** Declarations ([protocol/pillow_spec.go], [protocol/probe.go]) *)

Record ManagedVolume := mkManaged { Persistence : string }.
Record HostPathVolume := mkHostPath { HostPathPath : string }.

Record VolumeSpec := mkVolume {
  VolName  : string;
  Managed  : option ManagedVolume;
  HostPath : option HostPathVolume;
}.

Record VolumeMount := mkMount { MountVolume : string; MountPath : string; ReadOnly : bool }.

Record ConfigurationKeyRef := mkKeyRef { RefSource : string; RefKey : string }.

Record PillowPort := mkPort {
  PortName : string; ContainerPort : Z; PortProtocol : string;
  Dynamic : bool; PortPublish : bool;
}.

Record HTTPGetAction := mkHTTPGet { HTTPPath : string; HTTPPort : string }.
Record TCPSocketAction := mkTCP { TCPPort : string }.

Record Probe := mkProbe {
  HTTPGet : option HTTPGetAction;
  TCPSocket : option TCPSocketAction;
  InitialDelaySeconds : Z; TimeoutSeconds : Z; PeriodSeconds : Z;
  SuccessThreshold : Z; FailureThreshold : Z;
}.

(** [Command] keeps the difference between a nil and an empty slice, which
    [pillow.Normalize] inspects. *)
Record PillowSpec := mkPillow {
  Ports : list PillowPort;
  ReadinessProbe : option Probe;
  Mounts : list VolumeMount;
  PillowName : string;
  Args : list string;
  Command : option (list string);
  Workdir : string;
  Env : gmap string string;
  EnvFiles : gmap string string;
  EnvFrom : list string;
  EnvValueFrom : gmap string ConfigurationKeyRef;
  Required : bool;
  RestartPolicy : string;
  MaxRestarts : Z;
  StopSeconds : Z;
  SpecDigest : string;
}.

#[export] Instance ManagedVolume_eq_dec : EqDecision ManagedVolume.
Proof. solve_decision. Defined.
#[export] Instance HostPathVolume_eq_dec : EqDecision HostPathVolume.
Proof. solve_decision. Defined.
#[export] Instance VolumeSpec_eq_dec : EqDecision VolumeSpec.
Proof. solve_decision. Defined.
#[export] Instance VolumeMount_eq_dec : EqDecision VolumeMount.
Proof. solve_decision. Defined.
#[export] Instance ConfigurationKeyRef_eq_dec : EqDecision ConfigurationKeyRef.
Proof. solve_decision. Defined.
#[export] Instance PillowPort_eq_dec : EqDecision PillowPort.
Proof. solve_decision. Defined.
#[export] Instance HTTPGetAction_eq_dec : EqDecision HTTPGetAction.
Proof. solve_decision. Defined.
#[export] Instance TCPSocketAction_eq_dec : EqDecision TCPSocketAction.
Proof. solve_decision. Defined.
#[export] Instance Probe_eq_dec : EqDecision Probe.
Proof. solve_decision. Defined.
#[export] Instance PillowSpec_eq_dec : EqDecision PillowSpec.
Proof. solve_decision. Defined.

(** The zero value [PillowSpec{}]. *)
Definition zeroPillow : PillowSpec :=
  mkPillow [] None [] "" [] None "" ∅ ∅ [] ∅ false "" 0 0 "".

Definition commandOf (p : PillowSpec) : list string := default [] (Command p).

(** ** Store kinds ([internal/bed/sync.go]) *)

Inductive SyncKind := SyncNoop | SyncAuto | SyncCAS | SyncPack | SyncTar | SyncRestic | SyncCopy.
#[export] Instance SyncKind_eq_dec : EqDecision SyncKind.
Proof. solve_decision. Defined.

(** ** The desired state of one Bed ([bed.go], type Spec)

    The fields that the modelled operations read: volumes, pillows and the
    resolved Store implementation. *)
Record Spec := mkSpec {
  Volumes : option (list VolumeSpec);   (* nil when not declared *)
  Pillows : list PillowSpec;
  StoreKind : SyncKind;
  LocalPresent : bool;
  LocalGeneration : Z;
}.

Definition DefaultPillow (s : Spec) : PillowSpec :=
  match Pillows s with [] => zeroPillow | p :: _ => p end.

Definition HasMainProcesses (s : Spec) : bool :=
  existsb (λ p, bool_decide (0 < length (commandOf p))%nat) (Pillows s).

Definition NetworkPorts (s : Spec) : list PillowPort :=
  p ← Pillows s; Ports p.

(** ** Persistent volumes ([volumes.go]) *)

Definition isPersistent (v : VolumeSpec) : bool :=
  match Managed v with
  | Some x => bool_decide (Persistence x = "sync"%string)
  | None => false
  end.

Definition PersistentVolumes (volumes : list VolumeSpec) : list VolumeSpec :=
  filter (λ v, isPersistent v = true) volumes.

Definition HasVolume (volumes : list VolumeSpec) (name : string) : bool :=
  existsb (λ v, bool_decide (VolName v = name)) volumes.

Definition PersistentVolumeRoots (volumes : list VolumeSpec) : list string :=
  (λ v, "volumes/" +:+ VolName v)%string <$> PersistentVolumes volumes.

(** ** Lifecycle status ([status.go], [protocol/lifecycle.go])

    Times are nanoseconds since the zero [time.Time]; [0] is the zero time, so
    [t.IsZero()] is [t =? 0] and [a.After(b)] is [b <? a]. *)
Inductive LifecyclePhase :=
| PhaseInitializing | PhaseResident | PhaseEvicting | PhasePurging | PhaseDormant | PhaseFailed.
#[export] Instance LifecyclePhase_eq_dec : EqDecision LifecyclePhase.
Proof. solve_decision. Defined.

Record LifecycleStatus := mkLifecycle {
  KeepaliveAt : Z;
  Phase : LifecyclePhase;
  Ready : bool;
  Reason : string;
  Message : string;
  UpdatedAt : Z;
}.

Definition zeroLifecycle : LifecycleStatus :=
  mkLifecycle 0 PhaseDormant false "" "" 0.

(** ** Room grading ([room.go]) *)

Inductive RoomType := NoRoom | Dorm | Room | Suite.
#[export] Instance RoomType_eq_dec : EqDecision RoomType.
Proof. solve_decision. Defined.

Definition Rank (r : RoomType) : Z :=
  match r with Suite => 3 | Room => 2 | Dorm => 1 | NoRoom => 0 end.

Definition SummarizeRoom (files network : RoomType) : RoomType :=
  if Rank network <? Rank files then network else files.

(** ** The resumable lifecycle cursor ([lifecycle.go]) *)

Inductive HookPhase := Recover | Prepare | Stop | Release | Forget | UnknownPhase.

Inductive seq_err :=
| ErrForeignBed                       (* sequence belongs to a different Bed *)
| ErrCtx                              (* ctx.Err() *)
| ErrUnknownPhase
| ErrHook (name : string).            (* lifecycle <phase> <name>: ... *)

Record Sequence := mkSequence {
  sq_phase : HookPhase;
  participants : list string;
  next : nat;
  sq_bed : option N;                  (* the *Bed the cursor is bound to *)
}.

Definition NewSequence (phase : HookPhase) (ps : list string) : Sequence :=
  mkSequence phase ps 0 None.

(** What the environment answers during one call: whether the context is done
    before participant [i], and whether its hook succeeds. *)
Record hook_env := mkHookEnv { ctx_done : nat → bool; hook_ok : nat → bool }.

(** The loop of [Run]: [fuel] participants remain.  The second component is the
    list of participants whose hook was invoked, in order. *)
Fixpoint runLoop (env : hook_env) (s : Sequence) (fuel : nat)
  : result seq_err unit * Sequence * list string :=
  match fuel with
  | O => (Ok tt, s, [])
  | S fuel =>
      match participants s !! next s with
      | None => (Ok tt, s, [])
      | Some p =>
          if ctx_done env (next s) then (Err ErrCtx, s, [])
          else match sq_phase s with
          | UnknownPhase => (Err ErrUnknownPhase, s, [])
          | _ =>
              if hook_ok env (next s) then
                let '(r, s', called) :=
                  runLoop env (mkSequence (sq_phase s) (participants s) (S (next s)) (sq_bed s))
                    fuel in
                (r, s', p :: called)
              else (Err (ErrHook p), s, [p])
          end
      end
  end.

Definition Run (env : hook_env) (s : Sequence) (b : N)
  : result seq_err unit * Sequence * list string :=
  if match sq_bed s with Some b' => negb (N.eqb b' b) | None => false end
  then (Err ErrForeignBed, s, [])
  else
    let s := mkSequence (sq_phase s) (participants s) (next s) (Some b) in
    runLoop env s (length (participants s) - next s).

(** ** Properties of the cursor *)

Definition cursor_wf (s : Sequence) : Prop := (next s <= length (participants s))%nat.

(** One call: the invoked hooks are the participants from the old cursor up to
    the new one, plus the failing one if the call ended in a hook error. *)
Lemma runLoop_spec env fuel : ∀ s r s' called,
  runLoop env s fuel = (r, s', called) →
  (fuel = length (participants s) - next s)%nat → cursor_wf s →
  participants s' = participants s ∧ sq_phase s' = sq_phase s ∧ sq_bed s' = sq_bed s ∧
  (next s <= next s' <= length (participants s))%nat ∧
  match r with
  | Ok _ => next s' = length (participants s) ∧ called = drop (next s) (participants s)
  | Err (ErrHook p) =>
      participants s !! next s' = Some p ∧
      called = take (S (next s') - next s) (drop (next s) (participants s))
  | Err _ =>
      (next s' < length (participants s))%nat ∧
      called = take (next s' - next s) (drop (next s) (participants s))
  end.
Proof.
  induction fuel as [|fuel IH]; intros s r s' called H Hfuel Hwf; simpl in H; unfold cursor_wf in *.
  { simplify_eq. split_and!; try done; try lia. by rewrite drop_ge by lia. }
  destruct (participants s !! next s) as [p|] eqn:Hp.
  2:{ apply lookup_ge_None in Hp. lia. }
  pose proof (lookup_lt_Some _ _ _ Hp) as Hlt.
  assert (∀ n, take n (p :: drop (S (next s)) (participants s)) =
    take n (drop (next s) (participants s))) as Hdrop by (intros; by rewrite (drop_S _ _ _ Hp)).
  destruct (ctx_done env (next s)).
  { simplify_eq. by rewrite Nat.sub_diag. }
  assert (sq_phase s = UnknownPhase ∨
    (if hook_ok env (next s) then
       let '(r, s', called) := runLoop env
          (mkSequence (sq_phase s) (participants s) (S (next s)) (sq_bed s)) fuel in
       (r, s', p :: called)
     else (Err (ErrHook p), s, [p])) = (r, s', called)) as [Hu|H'].
  { destruct (sq_phase s); auto. }
  { rewrite Hu in H. simplify_eq. by rewrite Nat.sub_diag. }
  clear H. destruct (hook_ok env (next s)).
  2:{ simplify_eq. split_and!; try done; try lia.
      replace (S (next s') - next s')%nat with 1%nat by lia. by rewrite <-Hdrop. }
  destruct (runLoop env _ fuel) as [[r0 s0] c0] eqn:Hrun. simplify_eq.
  apply IH in Hrun as (E1 & E2 & E3 & Hle & Hr); simpl in *; [|lia|lia].
  split_and!; try done; try lia.
  destruct r as [|[]]; destruct Hr as [Hn ->]; (split; [done|]).
  1: by rewrite (drop_S _ _ _ Hp).
  all: rewrite <-Hdrop.
  all: match goal with |- _ = take ?n _ => destruct n as [|k] eqn:Hk; [lia|] end.
  all: simpl; f_equal; f_equal; lia.
Qed.

(** A history of calls on one cursor, with the successful hooks of each call. *)
Inductive runs (b : N) : Sequence → list string → Sequence → Prop :=
| runs_nil s : runs b s [] s
| runs_call s env r s' called s'' done :
    Run env s b = (r, s', called) →
    runs b s' done s'' →
    runs b s (match r with Err (ErrHook _) => removelast called | _ => called end ++ done) s''.

Lemma removelast_take {A} (l : list A) n x :
  l !! n = Some x → removelast (take (S n) l) = take n l.
Proof.
  intros H. rewrite (take_S_r _ _ _ H). apply removelast_last.
Qed.

Lemma Run_spec env s b r s' called :
  Run env s b = (r, s', called) → cursor_wf s → sq_bed s = None ∨ sq_bed s = Some b →
  participants s' = participants s ∧ sq_bed s' = Some b ∧ cursor_wf s' ∧
  (next s <= next s')%nat ∧
  match r with Err (ErrHook _) => removelast called | _ => called end =
    take (next s' - next s) (drop (next s) (participants s)) ∧
  (is_ok r = true ↔ next s' = length (participants s)).
Proof.
  unfold Run. intros H Hwf Hb.
  assert (match sq_bed s with Some b' => negb (N.eqb b' b) | None => false end = false) as Hf.
  { destruct Hb as [->| ->]; [done|]. by rewrite N.eqb_refl. }
  rewrite Hf in H. apply runLoop_spec in H as (E1 & E2 & E3 & Hle & Hr); simpl in *; [|done|done].
  split_and!; try done; unfold cursor_wf; [rewrite E1; lia|lia| |].
  - destruct r as [|[]]; destruct Hr as [Hn ->]; try done.
    + rewrite take_ge; [done|]. rewrite length_drop. lia.
    + assert (drop (next s) (participants s) !! (next s' - next s)%nat = Some name) as Hl.
      { rewrite lookup_drop. rewrite <-Hn. f_equal. lia. }
      replace (S (next s') - next s)%nat with (S (next s' - next s)) by lia.
      by erewrite removelast_take.
  - destruct r as [|[]]; simpl; destruct Hr as [Hn _]; split; try done; try lia.
    intros ?. apply lookup_lt_Some in Hn. lia.
Qed.

(** C37: however often the calls of a lifecycle sequence are interrupted by a
    cancelled context or a failing hook and retried, the hooks that succeed are
    exactly the declared participants, in declared order, each exactly once: the
    successes so far are the first [next] participants, and a call reports
    success only when all of them have run. *)
Theorem sequence_each_hook_once (phase : HookPhase) (ps : list string) (b : N)
    (done_hooks : list string) (s : Sequence) :
  runs b (NewSequence phase ps) done_hooks s →
  done_hooks = take (next s) ps ∧ (next s <= length ps)%nat ∧
  ∀ env r s' called, Run env s b = (r, s', called) →
    is_ok r = true ↔ next s' = length ps.
Proof.
  intros Hruns.
  assert (∀ s0, runs b s0 done_hooks s → cursor_wf s0 → sq_bed s0 = None ∨ sq_bed s0 = Some b →
    participants s = participants s0 ∧ cursor_wf s ∧ (sq_bed s = None ∨ sq_bed s = Some b) ∧
    (next s0 <= next s)%nat ∧
    done_hooks = take (next s - next s0) (drop (next s0) (participants s0))) as Hgen.
  { clear. intros s0 H. induction H as [s|s env r s' called s'' d HR Hd IH]; intros Hwf Hb.
    - rewrite Nat.sub_diag. simpl. auto.
    - apply Run_spec in HR as (E1 & E2 & E3 & E4 & E5 & _); [|done|done].
      destruct IH as (F1 & F2 & F3 & F4 & F5); [done|by right|].
      rewrite E1 in *. split_and!; try done; [lia|].
      rewrite E5, F5. apply windows_adjacent; lia. }
  destruct (Hgen _ Hruns) as (E1 & E2 & E3 & E4 & E5); [unfold cursor_wf; simpl; lia|by left|].
  simpl in *. rewrite drop_0, Nat.sub_0_r in E5. unfold cursor_wf in E2. rewrite E1 in E2.
  split_and!; [done|lia|]. intros env r s' called HR.
  apply Run_spec in HR as (_&_&_&_&_&Hiff); [|unfold cursor_wf; rewrite E1; lia|done].
  by rewrite E1 in Hiff.
Qed.

Definition retry_env1 : hook_env := mkHookEnv (λ _, false) (λ i, negb (Nat.eqb i 1)).
Definition retry_env2 : hook_env := mkHookEnv (λ _, false) (λ _, true).
Definition demo_seq : Sequence := NewSequence Release ["pillow"; "executor"; "store"]%string.

Lemma sequence_each_hook_once_witness :
  ∃ s, runs 7 demo_seq ["pillow"; "executor"; "store"]%string s ∧
       ["pillow"; "executor"; "store"]%string = take (next s) ["pillow"; "executor"; "store"]%string.
Proof.
  exists (mkSequence Release ["pillow"; "executor"; "store"]%string 3 (Some 7%N)).
  assert (runs 7 demo_seq ["pillow"; "executor"; "store"]%string
    (mkSequence Release ["pillow"; "executor"; "store"]%string 3 (Some 7%N))) as H.
  { refine (runs_call 7 demo_seq retry_env1 (Err (ErrHook "executor"))
      (mkSequence Release ["pillow"; "executor"; "store"]%string 1 (Some 7%N))
      ["pillow"; "executor"]%string _ ["executor"; "store"]%string eq_refl _).
    refine (runs_call 7
      (mkSequence Release ["pillow"; "executor"; "store"]%string 1 (Some 7%N))
      retry_env2 (Ok tt)
      (mkSequence Release ["pillow"; "executor"; "store"]%string 3 (Some 7%N))
      ["executor"; "store"]%string _ [] eq_refl _).
    apply runs_nil. }
  split; [exact H|]. exact (proj1 (sequence_each_hook_once _ _ _ _ _ H)).
Defined.

(** The reported room is the minimum of the two subsystem grades: it is one of
    them, and its rank is the smaller rank. *)
Lemma summarize_room_min (files network : RoomType) :
  Rank (SummarizeRoom files network) = Z.min (Rank files) (Rank network) ∧
  (SummarizeRoom files network = files ∨ SummarizeRoom files network = network).
Proof.
  unfold SummarizeRoom. destruct (Z.ltb_spec (Rank network) (Rank files)); split; auto; lia.
Qed.
