(* ===== verification/Netip.v ===== *)
(** * Netip: the network values of Go's standard library

    The parts of packages [net], [net/netip] and [strconv] that
    [internal/host/network] calls: literal IP addresses and prefixes with their
    parsers and printers, [SplitHostPort]/[JoinHostPort] and [Atoi]/[Itoa].
    Strings are byte lists here; [ParseAddr] and its siblings are the scanning
    loops of the library.  The main result is that printing an address or a
    prefix and parsing it again is the identity. *)

From S2P Require Import Prelude.

Definition dot : ascii := "."%char.
Definition colon : ascii := ":"%char.
Definition percent : ascii := "%"%char.
Definition slash_char : ascii := "/"%char.

Definition digit (n : Z) : ascii := ascii_of_N (Z.to_N (48 + n)).
Definition hexDigit (n : Z) : ascii := ascii_of_N (Z.to_N (if n <? 10 then 48 + n else 87 + n)).

Definition hexVal (a : ascii) : option Z :=
  if in_range 48 57 a then Some (byte a - 48)
  else if in_range 97 102 a then Some (byte a - 87)
  else if in_range 65 70 a then Some (byte a - 55)
  else None.

(** ** Addresses *)

(** [AddrZero] is the zero [Addr]; the payloads are the 32-bit and 128-bit
    numbers of the address. *)
Inductive Addr := AddrZero | Addr4 (n : Z) | Addr6 (n : Z) (zone : string).
#[export] Instance Addr_eq_dec : EqDecision Addr.
Proof. solve_decision. Defined.
#[export] Instance Addr_countable : Countable Addr.
Proof.
  apply (inj_countable'
    (λ a, match a with AddrZero => None | Addr4 n => Some (inl n) | Addr6 n z => Some (inr (n, z)) end)
    (λ x, match x with None => AddrZero | Some (inl n) => Addr4 n | Some (inr (n, z)) => Addr6 n z end)).
  by intros [| |].
Defined.

Definition fromBytes (l : list Z) : Z := foldl (λ n b, n * 256 + b) 0 l.
Definition fromGroups (l : list Z) : Z := foldl (λ n g, n * 65536 + g) 0 l.
Definition group (n : Z) (i : Z) : Z := n / 65536 ^ (7 - i) mod 65536.
Definition groups (n : Z) : list Z := group n <$> seqZ 0 8.
Definition bytes4 (n : Z) : list Z :=
  [n / 16777216 mod 256; n / 65536 mod 256; n / 256 mod 256; n mod 256].

Definition Is4 (a : Addr) : bool := match a with Addr4 _ => true | _ => false end.
Definition Is6 (a : Addr) : bool := match a with Addr6 _ _ => true | _ => false end.
Definition Zone (a : Addr) : string := match a with Addr6 _ z => z | _ => ""%string end.
Definition IsValid (a : Addr) : bool := negb (bool_decide (a = AddrZero)).
Definition BitLen (a : Addr) : Z := match a with AddrZero => 0 | Addr4 _ => 32 | Addr6 _ _ => 128 end.
Definition Is4In6 (a : Addr) : bool :=
  match a with Addr6 n _ => n / 2 ^ 32 =? 65535 | _ => false end.
Definition Unmap (a : Addr) : Addr :=
  match a with Addr6 n _ => if Is4In6 a then Addr4 (n mod 2 ^ 32) else a | _ => a end.
Definition IsUnspecified (a : Addr) : bool :=
  bool_decide (a = Addr4 0) || bool_decide (a = Addr6 0 ""%string).

(** Values that the constructors of the library can build. *)
Definition addr_wf (a : Addr) : Prop :=
  match a with AddrZero => True | Addr4 n => 0 <= n < 2 ^ 32 | Addr6 n _ => 0 <= n < 2 ^ 128 end.

(** ** Parsing *)

(** [parseIPv4Fields]: [val], [digLen] and the fields read so far. *)
Fixpoint parseIPv4Fields (s : list ascii) (val digLen : Z) (fields : list Z) : option (list Z) :=
  match s with
  | [] => if Z.of_nat (length fields) <? 3 then None else Some (fields ++ [val])
  | c :: s' =>
      if is_digit c then
        if (digLen =? 1) && (val =? 0) then None
        else let val := val * 10 + (byte c - 48) in
             if 255 <? val then None else parseIPv4Fields s' val (digLen + 1) fields
      else if bool_decide (c = dot) then
        if (digLen =? 0) || bool_decide (s' = []) then None
        else if Z.of_nat (length fields) =? 3 then None
        else parseIPv4Fields s' 0 0 (fields ++ [val])
      else None
  end.

(** The inner loop of [parseIPv6] over one hexadecimal group. *)
Fixpoint hexField (off acc : Z) (s : list ascii) : option (Z * Z * list ascii) :=
  match s with
  | [] => Some (off, acc, [])
  | c :: s' =>
      match hexVal c with
      | None => Some (off, acc, s)
      | Some d => let acc := acc * 16 + d in
          if (3 <? off) || (65535 <? acc) then None else hexField (off + 1) acc s'
      end
  end.

(** The outer loop: [fuel] is the number of groups left, [8 - length gs]. *)
Fixpoint parseGroups (fuel : nat) (gs : list Z) (ellipsis : option nat) (s : list ascii)
  : option (list Z * option nat * list ascii) :=
  match fuel with
  | O => Some (gs, ellipsis, s)
  | S fuel =>
      match hexField 0 0 s with
      | None => None
      | Some (off, acc, rest) =>
          if off =? 0 then None else
          match rest with
          | [] => Some (gs ++ [acc], ellipsis, [])
          | c :: rest' =>
              if bool_decide (c = dot) then
                if bool_decide (ellipsis = None) && negb (Z.of_nat (length gs) =? 6) then None
                else if 8 <? Z.of_nat (length gs) + 2 then None
                else match parseIPv4Fields s 0 0 [] with
                     | Some [a; b; c; d] => Some (gs ++ [a * 256 + b; c * 256 + d], ellipsis, [])
                     | _ => None
                     end
              else if bool_decide (c = colon) then
                match rest' with
                | [] => None
                | c' :: rest'' =>
                    if bool_decide (c' = colon) then
                      match ellipsis with
                      | Some _ => None
                      | None =>
                          let ellipsis := Some (S (length gs)) in
                          match rest'' with
                          | [] => Some (gs ++ [acc], ellipsis, [])
                          | _ => parseGroups fuel (gs ++ [acc]) ellipsis rest''
                          end
                      end
                    else parseGroups fuel (gs ++ [acc]) ellipsis rest'
                end
              else None
          end
      end
  end.

(** Expansion of the ellipsis once the string is consumed. *)
Definition expandGroups (gs : list Z) (ellipsis : option nat) : option (list Z) :=
  if Z.of_nat (length gs) <? 8 then
    match ellipsis with
    | None => None
    | Some e => Some (take e gs ++ replicate (8 - length gs) 0 ++ drop e gs)
    end
  else match ellipsis with None => Some gs | Some _ => None end.

(** Split at the first occurrence of a byte. *)
Fixpoint cut (a : ascii) (s : list ascii) : option (list ascii * list ascii) :=
  match s with
  | [] => None
  | c :: s => if bool_decide (c = a) then Some ([], s)
              else match cut a s with Some (x, y) => Some (c :: x, y) | None => None end
  end.
(** Split at the last occurrence of a byte. *)
Definition cutLast (a : ascii) (s : list ascii) : option (list ascii * list ascii) :=
  match cut a (reverse s) with Some (x, y) => Some (reverse y, reverse x) | None => None end.

Definition leadingEllipsis (s : list ascii) : option nat * list ascii :=
  match s with
  | a :: b :: s' => if bool_decide (a = colon) && bool_decide (b = colon) then (Some 0%nat, s') else (None, s)
  | _ => (None, s)
  end.

Definition parseIPv6Groups (s : list ascii) : option (list Z) :=
  let '(ellipsis, s) := leadingEllipsis s in
  if bool_decide (ellipsis = Some 0%nat) && bool_decide (s = []) then Some (replicate 8 0)
  else match parseGroups 8 [] ellipsis s with
       | Some (gs, ellipsis, []) => expandGroups gs ellipsis
       | _ => None
       end.

Definition parseIPv6 (s : list ascii) : option Addr :=
  match cut percent s with
  | Some (_, []) => None
  | Some (s, zone) => match parseIPv6Groups s with
                      | Some gs => Some (Addr6 (fromGroups gs) (of_list zone)) | None => None end
  | None => match parseIPv6Groups s with
            | Some gs => Some (Addr6 (fromGroups gs) ""%string) | None => None end
  end.

Definition parseIPv4 (s : list ascii) : option Addr :=
  match parseIPv4Fields s 0 0 [] with Some l => Some (Addr4 (fromBytes l)) | None => None end.

(** [ParseAddr] dispatches on the first separator. *)
Fixpoint dispatch (s whole : list ascii) : option Addr :=
  match s with
  | [] => None
  | c :: s =>
      if bool_decide (c = dot) then parseIPv4 whole
      else if bool_decide (c = colon) then parseIPv6 whole
      else if bool_decide (c = percent) then None
      else dispatch s whole
  end.
Definition ParseAddr (s : string) : option Addr := dispatch (to_list s) (to_list s).

(** ** Printing *)

Definition appendDecimal (x : Z) : list ascii :=
  (if 100 <=? x then [digit (x / 100)] else []) ++
  (if 10 <=? x then [digit (x / 10 mod 10)] else []) ++ [digit (x mod 10)].

Definition appendHex (x : Z) : list ascii :=
  (if 4096 <=? x then [hexDigit (x / 4096)] else []) ++
  (if 256 <=? x then [hexDigit (x / 256 mod 16)] else []) ++
  (if 16 <=? x then [hexDigit (x / 16 mod 16)] else []) ++ [hexDigit (x mod 16)].

Fixpoint joinWith (sep : list ascii) (l : list (list ascii)) : list ascii :=
  match l with [] => [] | [x] => x | x :: l => x ++ sep ++ joinWith sep l end.

Definition string4 (n : Z) : list ascii := joinWith [dot] (appendDecimal <$> bytes4 n).

Fixpoint zeroRun (l : list Z) : nat :=
  match l with 0 :: l => S (zeroRun l) | _ => O end.

(** The run of zero groups that is elided: the first one of maximal length, at
    least two. *)
Fixpoint longestRun (i : nat) (l : list Z) (best : nat * nat) : nat * nat :=
  match l with
  | [] => best
  | _ :: l' =>
      let n := zeroRun l in
      longestRun (S i) l'
        (if (2 <=? n)%nat && (best.2 - best.1 <? n)%nat then (i, (i + n)%nat) else best)
  end.

Definition joinHex (l : list Z) : list ascii := joinWith [colon] (appendHex <$> l).

Definition string6 (gs : list Z) : list ascii :=
  let '(zs, ze) := longestRun 0 gs (255, 255)%nat in
  if (zs =? 255)%nat then joinHex gs
  else joinHex (take zs gs) ++ [colon; colon] ++ joinHex (drop ze gs).

(** [Addr.String]; a zone is not printed because the callers exclude it. *)
Definition addrString (a : Addr) : list ascii :=
  match a with
  | AddrZero => to_list "invalid IP"
  | Addr4 n => string4 n
  | Addr6 n _ =>
      if Is4In6 a then to_list "::ffff:" ++ string4 (n mod 2 ^ 32) else string6 (groups n)
  end.
Definition AddrString (a : Addr) : string := of_list (addrString a).

Example parse_v4 : ParseAddr "10.0.3.255" = Some (Addr4 167773183). Proof. by vm_compute. Qed.
Example parse_v4_zero : ParseAddr "10.00.3.255" = None. Proof. by vm_compute. Qed.
Example parse_v6 : AddrString <$> ParseAddr "2001:DB8:0:0:1:0:0:1" = Some "2001:db8::1:0:0:1"%string.
Proof. by vm_compute. Qed.
Example parse_mapped : Unmap <$> ParseAddr "::FFFF:10.0.0.1" = Some (Addr4 167772161).
Proof. by vm_compute. Qed.
Example parse_mapped_print : AddrString <$> ParseAddr "::FFFF:10.0.0.1" = Some "::ffff:10.0.0.1"%string.
Proof. by vm_compute. Qed.
Example parse_any : AddrString <$> ParseAddr "::" = Some "::"%string. Proof. by vm_compute. Qed.

(** ** Prefixes *)

Record Prefix := mkPrefix { prefixIP : Addr; prefixBits : Z }.

Definition withoutZone (a : Addr) : Addr := match a with Addr6 n _ => Addr6 n ""%string | _ => a end.
(** [PrefixFrom] on a valid address and a length in range. *)
Definition PrefixFrom (a : Addr) (bits : Z) : Prefix := mkPrefix (withoutZone a) bits.

Definition digitsValue (l : list ascii) : option Z :=
  if bool_decide (l = []) || negb (forallb is_digit l) then None
  else Some (foldl (λ n c, n * 10 + (byte c - 48)) 0 l).

Definition minus_char : ascii := "-"%char.
Definition plus_char : ascii := "+"%char.

(** [strconv.Atoi] on 64-bit integers. *)
Definition Atoi (l : list ascii) : option Z :=
  let v := match l with
           | c :: l' => if bool_decide (c = minus_char) then Z.opp <$> digitsValue l'
                        else if bool_decide (c = plus_char) then digitsValue l' else digitsValue l
           | [] => None
           end in
  match v with Some n => if (- 2 ^ 63 <=? n) && (n <? 2 ^ 63) then Some n else None | None => None end.

Fixpoint itoaAux (fuel : nat) (n : Z) (acc : list ascii) : list ascii :=
  match fuel with
  | O => acc
  | S fuel => let acc := digit (n mod 10) :: acc in
      if n <? 10 then acc else itoaAux fuel (n / 10) acc
  end.
(** [strconv.Itoa]; twenty digits hold every 64-bit integer. *)
Definition Itoa (n : Z) : list ascii :=
  if n <? 0 then minus_char :: itoaAux 20 (- n) [] else itoaAux 20 n [].

Definition ParsePrefix (s : string) : option Prefix :=
  match cutLast slash_char (to_list s) with
  | None => None
  | Some (addr, bitsStr) =>
      match ParseAddr (of_list addr) with
      | None => None
      | Some ip =>
          if Is6 ip && negb (bool_decide (Zone ip = ""%string)) then None
          else if match bitsStr with c :: _ :: _ => negb (in_range 49 57 c) | _ => false end then None
          else match Atoi bitsStr with
               | None => None
               | Some bits => if (bits <? 0) || (BitLen ip <? bits) then None else Some (PrefixFrom ip bits)
               end
      end
  end.

Definition maskTo (len n bits : Z) : Z := n / 2 ^ (len - bits) * 2 ^ (len - bits).
Definition Masked (p : Prefix) : Prefix :=
  mkPrefix (match prefixIP p with
            | Addr4 n => Addr4 (maskTo 32 n (prefixBits p))
            | Addr6 n _ => Addr6 (maskTo 128 n (prefixBits p)) ""%string
            | AddrZero => AddrZero end) (prefixBits p).
Definition PrefixString (p : Prefix) : string :=
  of_list (addrString (prefixIP p) ++ [slash_char] ++ Itoa (prefixBits p)).

Definition Contains (p : Prefix) (a : Addr) : bool :=
  match prefixIP p, a with
  | Addr4 n, Addr4 k => Z.shiftr (Z.lxor k n) (32 - prefixBits p) =? 0
  | Addr6 n _, Addr6 k z => bool_decide (z = ""%string) && (Z.shiftr (Z.lxor k n) (128 - prefixBits p) =? 0)
  | _, _ => false
  end.

Definition prefix_wf (p : Prefix) : Prop :=
  addr_wf (prefixIP p) ∧ prefixIP p ≠ AddrZero ∧ Zone (prefixIP p) = ""%string ∧
  0 <= prefixBits p <= BitLen (prefixIP p).

(** ** Host and port *)

Definition SplitHostPort (s : string) : option (string * string) :=
  let l := to_list s in
  match cutLast colon l with
  | None => None
  | Some (before, port) =>
      let open := "["%char in let close := "]"%char in
      match l with
      | c :: rest =>
          if bool_decide (c = open) then
            match cut close rest with
            | None => None
            | Some (host, after) =>
                if bool_decide (after = colon :: port)
                   && negb (bool_decide (open ∈ rest)) && negb (bool_decide (close ∈ after))
                then Some (of_list host, of_list port) else None
            end
          else if bool_decide (colon ∈ before) || bool_decide (open ∈ l) || bool_decide (close ∈ l)
          then None else Some (of_list before, of_list port)
      | [] => None
      end
  end.

Definition JoinHostPort (host port : string) : string :=
  if bool_decide (colon ∈ to_list host) then "[" +:+ host +:+ "]:" +:+ port else host +:+ ":" +:+ port.

Example split_v4 : SplitHostPort "127.0.0.1:80" = Some ("127.0.0.1", "80")%string. Proof. by vm_compute. Qed.
Example split_v6 : SplitHostPort "[::1]:80" = Some ("::1", "80")%string. Proof. by vm_compute. Qed.
Example split_bad : SplitHostPort "::1:80" = None. Proof. by vm_compute. Qed.
Example split_empty : SplitHostPort ":80" = Some ("", "80")%string. Proof. by vm_compute. Qed.
Example prefix_masked : PrefixString <$> (Masked <$> ParsePrefix "10.1.2.3/8") = Some "10.0.0.0/8"%string.
Proof. by vm_compute. Qed.

(** ** Lemmas on digits *)

Lemma list_all_lt (P : Z → Prop) (n : Z) :
  Forall P (seqZ 0 n) → ∀ k, 0 <= k < n → P k.
Proof. intros H k Hk. rewrite Forall_forall in H. apply H, elem_of_seqZ. lia. Qed.

Lemma digit_byte k : 0 <= k < 10 → is_digit (digit k) = true ∧ byte (digit k) = 48 + k.
Proof. revert k. apply list_all_lt. repeat constructor; by vm_compute. Qed.

Lemma hexVal_hexDigit k : 0 <= k < 16 → hexVal (hexDigit k) = Some k.
Proof. revert k. apply list_all_lt. repeat constructor; by vm_compute. Qed.

Lemma hexVal_digit k : 0 <= k < 10 → hexVal (digit k) = Some k.
Proof. revert k. apply list_all_lt. repeat constructor; by vm_compute. Qed.

(** Characters of a printed field: they never separate the parts of an address
    and are lower-case. *)
Definition plain (c : ascii) : Prop := hexVal c ≠ None ∧ is_upper c = false.

Lemma plain_not c a : plain c → hexVal a = None → c ≠ a.
Proof. intros [Hc _] Ha ->. done. Qed.

Lemma plain_hexDigit k : 0 <= k < 16 → plain (hexDigit k).
Proof. revert k. apply list_all_lt. repeat constructor; by vm_compute. Qed.
Lemma plain_digit k : 0 <= k < 10 → plain (digit k).
Proof. revert k. apply list_all_lt. repeat constructor; by vm_compute. Qed.

Lemma appendHex_plain x : 0 <= x < 65536 → Forall plain (appendHex x) ∧ appendHex x ≠ [].
Proof.
  intros Hx. unfold appendHex.
  assert (0 <= x / 4096 < 16) by (split; [apply Z.div_pos; lia|apply Z.div_lt_upper_bound; lia]).
  split; [|by repeat case_match].
  repeat rewrite Forall_app; repeat split; repeat case_match; repeat constructor; apply plain_hexDigit;
    try apply Z.mod_pos_bound; lia.
Qed.

Lemma appendDecimal_plain x : 0 <= x < 256 → Forall plain (appendDecimal x) ∧ appendDecimal x ≠ [].
Proof.
  intros Hx. unfold appendDecimal.
  assert (0 <= x / 100 < 10) by (split; [apply Z.div_pos; lia|apply Z.div_lt_upper_bound; lia]).
  split; [|by repeat case_match].
  repeat rewrite Forall_app; repeat split; repeat case_match; repeat constructor; apply plain_digit;
    try apply Z.mod_pos_bound; lia.
Qed.

(** ** Reading back one field *)

Definition stops (s : list ascii) : Prop := match s with [] => True | c :: _ => hexVal c = None end.

Lemma hexField_stop off acc s : stops s → hexField off acc s = Some (off, acc, s).
Proof. destruct s as [|c s]; simpl; [done|]. by intros ->. Qed.

Lemma hexField_digit off acc k s :
  0 <= k < 16 → off <= 3 → acc * 16 + k <= 65535 →
  hexField off acc (hexDigit k :: s) = hexField (off + 1) (acc * 16 + k) s.
Proof.
  intros Hk Ho Ha. cbn [hexField]. rewrite hexVal_hexDigit by done.
  destruct (Z.ltb_spec 3 off); [lia|]. by destruct (Z.ltb_spec 65535 (acc * 16 + k)); [lia|].
Qed.

Lemma hexField_appendHex x s :
  0 <= x < 65536 → stops s →
  ∃ off, 0 < off ∧ hexField 0 0 (appendHex x ++ s) = Some (off, x, s).
Proof.
  intros Hx Hs. unfold appendHex.
  pose proof (Z.div_mod x 16 ltac:(lia)). pose proof (Z.mod_pos_bound x 16 ltac:(lia)).
  pose proof (Z.div_mod (x / 16) 16 ltac:(lia)). pose proof (Z.mod_pos_bound (x / 16) 16 ltac:(lia)).
  pose proof (Z.div_mod (x / 256) 16 ltac:(lia)). pose proof (Z.mod_pos_bound (x / 256) 16 ltac:(lia)).
  assert (x / 16 / 16 = x / 256) by (by rewrite Z.div_div by lia).
  assert (x / 256 / 16 = x / 4096) by (by rewrite Z.div_div by lia).
  assert (0 <= x / 4096) by (apply Z.div_pos; lia).
  destruct (Z.leb_spec 4096 x), (Z.leb_spec 256 x), (Z.leb_spec 16 x); try lia; simpl app;
    repeat rewrite hexField_digit by lia; rewrite hexField_stop by done; eexists; (split; [|do 3 f_equal]); lia.
Qed.

Lemma fields_digit k v d f s :
  0 <= k < 10 → (d = 1 → v ≠ 0) → v * 10 + k <= 255 →
  parseIPv4Fields (digit k :: s) v d f = parseIPv4Fields s (v * 10 + k) (d + 1) f.
Proof.
  intros Hk Hd Hv. cbn [parseIPv4Fields]. destruct (digit_byte k Hk) as [-> ->].
  replace (v * 10 + (48 + k - 48)) with (v * 10 + k) by lia.
  destruct (Z.eqb_spec d 1), (Z.eqb_spec v 0); simpl; try (by exfalso; apply Hd);
    by destruct (Z.ltb_spec 255 (v * 10 + k)); [lia|].
Qed.

Lemma fields_decimal x f s :
  0 <= x < 256 → ∃ d, 0 < d ∧ parseIPv4Fields (appendDecimal x ++ s) 0 0 f = parseIPv4Fields s x d f.
Proof.
  intros Hx. unfold appendDecimal.
  pose proof (Z.div_mod x 10 ltac:(lia)). pose proof (Z.mod_pos_bound x 10 ltac:(lia)).
  pose proof (Z.div_mod (x / 10) 10 ltac:(lia)). pose proof (Z.mod_pos_bound (x / 10) 10 ltac:(lia)).
  assert (x / 10 / 10 = x / 100) by (by rewrite Z.div_div by lia).
  assert (0 <= x / 100) by (apply Z.div_pos; lia).
  destruct (Z.leb_spec 100 x), (Z.leb_spec 10 x); try lia; simpl app;
    repeat rewrite fields_digit by lia; eexists; (split; [|f_equal]); lia.
Qed.

Lemma fields_dot v d f s :
  0 < d → s ≠ [] → (length f < 3)%nat →
  parseIPv4Fields (dot :: s) v d f = parseIPv4Fields s 0 0 (f ++ [v]).
Proof.
  intros Hd Hs Hf. cbn [parseIPv4Fields]. change (is_digit dot) with false. simpl.
  destruct (Z.eqb_spec d 0); [lia|]. rewrite bool_decide_false by done. simpl.
  by destruct (Z.eqb_spec (Z.of_nat (length f)) 3); [lia|].
Qed.

Lemma bytes4_bound n : Forall (λ b, 0 <= b < 256) (bytes4 n).
Proof. repeat constructor; apply Z.mod_pos_bound; lia. Qed.

Lemma fields_string4 n : parseIPv4Fields (string4 n) 0 0 [] = Some (bytes4 n).
Proof.
  unfold string4. pose proof (bytes4_bound n) as Hb. unfold bytes4 in *.
  repeat match goal with H : Forall _ (_ :: _) |- _ => apply Forall_cons in H as [? H] end.
  set (a := n / 16777216 mod 256) in *. set (b := n / 65536 mod 256) in *.
  set (c := n / 256 mod 256) in *. set (d := n mod 256) in *.
  change (joinWith _ _) with
    (appendDecimal a ++ dot :: appendDecimal b ++ dot :: appendDecimal c ++ dot :: appendDecimal d).
  destruct (fields_decimal a [] (dot :: appendDecimal b ++ dot :: appendDecimal c ++ dot :: appendDecimal d))
    as (d1&?&->); [done|]. rewrite fields_dot by (simpl; try lia; by destruct (appendDecimal b)).
  change ([] ++ [a]) with [a].
  destruct (fields_decimal b [a] (dot :: appendDecimal c ++ dot :: appendDecimal d)) as (d2&?&->); [done|].
  rewrite fields_dot by (simpl; try lia; by destruct (appendDecimal c)).
  change ([a] ++ [b]) with [a; b].
  destruct (fields_decimal c [a; b] (dot :: appendDecimal d)) as (d3&?&->); [done|].
  rewrite fields_dot by (simpl; try lia; by destruct (appendDecimal_plain d)).
  destruct (fields_decimal d [a; b; c] []) as (d4&?&Hd); [done|]. rewrite app_nil_r in Hd.
  change ([a; b] ++ [c]) with [a; b; c]. rewrite Hd.
  done.
Qed.

Lemma fromBytes_bytes4 n : 0 <= n < 2 ^ 32 → fromBytes (bytes4 n) = n.
Proof.
  intros Hn. unfold fromBytes, bytes4. cbn [foldl].
  pose proof (Z.div_mod n 256 ltac:(lia)). pose proof (Z.div_mod (n / 256) 256 ltac:(lia)).
  pose proof (Z.div_mod (n / 65536) 256 ltac:(lia)).
  assert (n / 256 / 256 = n / 65536) by (by rewrite Z.div_div by lia).
  assert (n / 65536 / 256 = n / 16777216) by (by rewrite Z.div_div by lia).
  rewrite (Z.mod_small (n / 16777216)); [lia|].
  split; [apply Z.div_pos; lia|apply Z.div_lt_upper_bound; lia].
Qed.

Lemma dispatch_plain l s w : Forall plain l → dispatch (l ++ s) w = dispatch s w.
Proof.
  induction 1 as [|c l Hc _ IH]; [done|]. simpl.
  rewrite !bool_decide_false; [done|by apply plain_not..].
Qed.

Lemma string4_head n : ∃ b s, 0 <= b < 256 ∧ string4 n = appendDecimal b ++ dot :: s.
Proof.
  unfold string4, bytes4. cbn [fmap list_fmap joinWith]. eexists (n / 16777216 mod 256), _.
  split; [apply Z.mod_pos_bound; lia|done].
Qed.

Lemma to_of_list l : to_list (of_list l) = l.
Proof. induction l; simpl; congruence. Qed.
Lemma of_to_list s : of_list (to_list s) = s.
Proof. induction s; simpl; congruence. Qed.

Lemma parse_string4 n : 0 <= n < 2 ^ 32 → ParseAddr (of_list (string4 n)) = Some (Addr4 n).
Proof.
  intros Hn. unfold ParseAddr. rewrite to_of_list.
  destruct (string4_head n) as (a&s&Hb&E). rewrite E at 1.
  rewrite dispatch_plain by (by apply appendDecimal_plain).
  cbn [dispatch]. rewrite bool_decide_true by done. unfold parseIPv4.
  by rewrite fields_string4, fromBytes_bytes4.
Qed.

(** ** Reading back groups *)

Lemma stops_colon s : stops (colon :: s).
Proof. done. Qed.

Lemma joinHex_cons g l : joinHex (g :: l) = appendHex g ++ match l with [] => [] | _ => colon :: joinHex l end.
Proof. unfold joinHex. destruct l; simpl; [by rewrite app_nil_r|done]. Qed.

Lemma joinHex_nonempty l : Forall (λ g, 0 <= g < 65536) l → l ≠ [] → ∃ c s, joinHex l = c :: s ∧ c ≠ colon.
Proof.
  intros Hl Hn. destruct l as [|g l]; [done|]. rewrite joinHex_cons. apply Forall_cons in Hl as [Hg _].
  destruct (appendHex_plain g Hg) as [Hp Hne]. destruct (appendHex g) as [|c a]; [done|].
  simpl. eexists _, _. split; [done|]. apply Forall_cons in Hp as [Hc _]. by apply (plain_not c colon).
Qed.

Lemma parseGroups_next fuel gs ell g c s :
  0 <= g < 65536 → c ≠ colon →
  parseGroups (S fuel) gs ell (appendHex g ++ colon :: c :: s) = parseGroups fuel (gs ++ [g]) ell (c :: s).
Proof.
  intros Hg Hc. cbn [parseGroups].
  destruct (hexField_appendHex g (colon :: c :: s) Hg) as (off&Ho&->); [done|].
  destruct (Z.eqb_spec off 0); [lia|]. rewrite bool_decide_false by done.
  rewrite bool_decide_true by done. by rewrite bool_decide_false.
Qed.

Lemma parseGroups_elide fuel gs g s :
  0 <= g < 65536 →
  parseGroups (S fuel) gs None (appendHex g ++ colon :: colon :: s) =
    match s with
    | [] => Some (gs ++ [g], Some (S (length gs)), [])
    | _ => parseGroups fuel (gs ++ [g]) (Some (S (length gs))) s
    end.
Proof.
  intros Hg. cbn [parseGroups].
  destruct (hexField_appendHex g (colon :: colon :: s) Hg) as (off&Ho&->); [done|].
  destruct (Z.eqb_spec off 0); [lia|]. by rewrite bool_decide_false, !bool_decide_true.
Qed.

Lemma parseGroups_last fuel gs ell g :
  0 <= g < 65536 → parseGroups (S fuel) gs ell (appendHex g) = Some (gs ++ [g], ell, []).
Proof.
  intros Hg. cbn [parseGroups]. destruct (hexField_appendHex g [] Hg) as (off&Ho&E); [done|].
  rewrite app_nil_r in E. rewrite E. by destruct (Z.eqb_spec off 0); [lia|].
Qed.

(** The groups up to the end of the string, or up to an ellipsis. *)
Lemma parseGroups_end fuel gs ell l :
  Forall (λ g, 0 <= g < 65536) l → l ≠ [] → (length l <= fuel)%nat →
  parseGroups fuel gs ell (joinHex l) = Some (gs ++ l, ell, []).
Proof.
  revert fuel gs. induction l as [|g l IH]; intros fuel gs Hl Hn Hf; [done|].
  destruct fuel as [|fuel]; [simpl in Hf; lia|]. apply Forall_cons in Hl as [Hg Hl].
  rewrite joinHex_cons. destruct l as [|g' l]; [by rewrite app_nil_r, parseGroups_last|].
  destruct (joinHex_nonempty (g' :: l) Hl) as (c&s&E&Hc); [done|].
  rewrite E, parseGroups_next, <-E, IH by (first [done|simpl in *; lia]). by rewrite <-(assoc_L app).
Qed.

Lemma parseGroups_ellipsis fuel gs l r :
  Forall (λ g, 0 <= g < 65536) (l ++ r) → l ≠ [] → (length l + length r <= fuel)%nat →
  parseGroups fuel gs None (joinHex l ++ [colon; colon] ++ joinHex r) =
    Some (gs ++ l ++ r, Some (length gs + length l)%nat, []).
Proof.
  revert fuel gs. induction l as [|g l IH]; intros fuel gs Hl Hn Hf; [done|].
  destruct fuel as [|fuel]; [simpl in Hf; lia|]. rewrite <-app_comm_cons in Hl. apply Forall_cons in Hl as [Hg Hl].
  rewrite joinHex_cons, <-(assoc_L app). destruct l as [|g' l].
  - cbn [app]. rewrite parseGroups_elide by done. rewrite Nat.add_1_r. destruct r as [|g' r]; [done|].
    destruct (joinHex_nonempty (g' :: r) Hl) as (c&s&E&Hc); [done|]. rewrite E, <-E.
    rewrite parseGroups_end by (first [done|simpl in *; lia]). by rewrite <-(assoc_L app).
  - destruct (joinHex_nonempty (g' :: l)) as (c&s&E&Hc); [by apply Forall_app in Hl as [? _]|done|].
    rewrite E. cbn [app]. rewrite parseGroups_next by done.
    change (c :: s ++ colon :: colon :: joinHex r) with ((c :: s) ++ [colon; colon] ++ joinHex r).
    rewrite <-E, (IH fuel); [|exact Hl|done|simpl in *; lia].
    rewrite length_app, <-(assoc_L app), <-Nat.add_assoc. done.
Qed.

(** ** The elided run *)

Lemma zeroRun_spec l : l = replicate (zeroRun l) 0 ++ drop (zeroRun l) l ∧ (zeroRun l <= length l)%nat.
Proof.
  induction l as [|x l [IH1 IH2]]; [done|]. destruct x; simpl; try (split; [done|lia]).
  split; [by rewrite <-IH1|lia].
Qed.

(** A run of at least two zeros of [gs], or none. *)
Definition run_of (gs : list Z) (r : nat * nat) : Prop :=
  r = (255, 255)%nat ∨
  (r.1 + 2 <= r.2 <= length gs)%nat ∧ gs = take r.1 gs ++ replicate (r.2 - r.1) 0 ++ drop r.2 gs.

Lemma longestRun_spec gs i l best :
  l = drop i gs → run_of gs best → run_of gs (longestRun i l best).
Proof.
  revert i best. induction l as [|x l IH]; intros i best Hl Hb; [done|]. cbn [longestRun].
  apply IH; [by rewrite <-Nat.add_1_r, <-drop_drop, <-Hl|].
  destruct (_ && _) eqn:E; [|done]. apply andb_true_iff in E as [E _]. apply Nat.leb_le in E. right.
  destruct (zeroRun_spec (x :: l)) as [H1 H2]. set (n := zeroRun (x :: l)) in *. rewrite Hl in H2, H1.
  rewrite length_drop in H2. cbn [fst snd].
  replace (i + n - i)%nat with n by lia. split; [lia|].
  rewrite <-(take_drop i gs) at 1. f_equal. rewrite drop_drop in H1. by rewrite H1 at 1.
Qed.

Lemma groups_bound n : Forall (λ g, 0 <= g < 65536) (groups n).
Proof. unfold groups. apply Forall_fmap, Forall_forall. intros i _. apply Z.mod_pos_bound. lia. Qed.

Lemma groups_length n : length (groups n) = 8%nat.
Proof. done. Qed.

Lemma Forall_take_drop {A} (P : A → Prop) i j l : Forall P l → Forall P (take i l ++ drop j l).
Proof. intros H. apply Forall_app. split; [by apply Forall_take|by apply Forall_drop]. Qed.

Lemma leadingEllipsis_none c s : c ≠ colon → leadingEllipsis (c :: s) = (None, c :: s).
Proof. intros Hc. destruct s; [done|]. simpl. by rewrite bool_decide_false. Qed.

Lemma expand_run gs zs ze :
  length gs = 8%nat → (zs + 2 <= ze <= length gs)%nat →
  gs = take zs gs ++ replicate (ze - zs) 0 ++ drop ze gs →
  expandGroups (take zs gs ++ drop ze gs) (Some zs) = Some gs.
Proof.
  intros Hlen Hb Heq. unfold expandGroups. rewrite length_app, length_take, length_drop.
  destruct (Z.ltb_spec (Z.of_nat (zs `min` length gs + (length gs - ze))) 8); [|lia].
  rewrite take_app_length', drop_app_length' by (rewrite length_take; lia).
  replace (8 - _)%nat with (ze - zs)%nat by lia. by rewrite <-Heq.
Qed.

(** [string6] reads back as the groups it printed. *)
Lemma parse_string6_groups gs :
  length gs = 8%nat → Forall (λ g, 0 <= g < 65536) gs → parseIPv6Groups (string6 gs) = Some gs.
Proof.
  intros Hlen Hgs. unfold string6.
  pose proof (longestRun_spec gs 0 gs (255, 255)%nat eq_refl (or_introl eq_refl)) as Hrun.
  destruct (longestRun 0 gs (255, 255)%nat) as [zs ze]. destruct Hrun as [[= -> ->]|[Hb Heq]].
  - simpl. unfold parseIPv6Groups.
    destruct (joinHex_nonempty gs Hgs) as (c&s&E&Hc); [by destruct gs|].
    rewrite E, leadingEllipsis_none, <-E by done. rewrite bool_decide_false by done. cbn [andb].
    rewrite parseGroups_end by (try done; (by destruct gs) || lia).
    unfold expandGroups. cbn [app]. by rewrite Hlen.
  - cbn [fst snd] in Hb, Heq. destruct (Nat.eqb_spec zs 255); [lia|].
    pose proof (expand_run gs zs ze Hlen Hb Heq) as Hx. unfold parseIPv6Groups.
    destruct (take zs gs) as [|g l] eqn:El.
    + assert (zs = 0%nat) as ->.
      { apply (f_equal length) in El. rewrite length_take in El. simpl in El. lia. }
      change (joinHex []) with (@nil ascii). cbn [app leadingEllipsis]. rewrite (bool_decide_true (colon = colon)) by done. cbn [andb].
      rewrite (bool_decide_true (Some _ = _)) by done. cbn [andb].
      destruct (drop ze gs) as [|g r] eqn:Er; [exact Hx|].
      assert (Forall (λ g, 0 <= g < 65536) (g :: r)) as Hr by (rewrite <-Er; by apply Forall_drop).
      destruct (joinHex_nonempty (g :: r) Hr) as (c&s&E&Hc); [done|].
      rewrite (bool_decide_false (joinHex _ = [])) by (by rewrite E).
      rewrite parseGroups_end; [exact Hx|done|done|rewrite <-Er, length_drop; lia].
    + assert (Forall (λ g, 0 <= g < 65536) ((g :: l) ++ drop ze gs)) as Hr
        by (rewrite <-El; by apply Forall_take_drop).
      destruct (joinHex_nonempty (g :: l)) as (c&s&E&Hc); [by apply Forall_app in Hr as [? _]|done|].
      rewrite E. cbn [app]. rewrite leadingEllipsis_none by done. rewrite bool_decide_false by done. cbn [andb].
      change (c :: s ++ colon :: colon :: joinHex (drop ze gs))
        with ((c :: s) ++ [colon; colon] ++ joinHex (drop ze gs)). rewrite <-E.
      rewrite parseGroups_ellipsis; [|done|done|rewrite <-El, length_take, length_drop; lia].
      rewrite <-El, length_take, Nat.min_l by lia. rewrite El. exact Hx.
Qed.

Lemma split_group n k : 0 <= k → n / 65536 ^ (k + 1) * 65536 + n / 65536 ^ k mod 65536 = n / 65536 ^ k.
Proof.
  intros Hk. rewrite Z.pow_add_r, Z.pow_1_r, <-Z.div_div by (try apply Z.pow_nonzero; lia).
  pose proof (Z.div_mod (n / 65536 ^ k) 65536 ltac:(lia)). lia.
Qed.

Lemma fromGroups_groups n : 0 <= n < 2 ^ 128 → fromGroups (groups n) = n.
Proof.
  intros Hn. unfold fromGroups.
  assert (∀ k : nat, (k <= 8)%nat →
    foldl (λ n g, n * 65536 + g) 0 (group n <$> seqZ 0 (Z.of_nat k)) = n / 65536 ^ (8 - Z.of_nat k)) as H.
  { induction k as [|k IH]; intros Hk.
    - change (8 - Z.of_nat 0) with 8. rewrite Z.div_small; [done|]. lia.
    - rewrite Nat2Z.inj_succ, <-Z.add_1_r, seqZ_app, fmap_app, foldl_app by lia.
      rewrite IH by lia. change (seqZ (0 + _) 1) with [0 + Z.of_nat k]. cbn [fmap list_fmap foldl].
      unfold group. replace (8 - Z.of_nat k) with (7 - (0 + Z.of_nat k) + 1) by lia.
      rewrite split_group by lia. do 2 f_equal. lia. }
  unfold groups. change 8 with (Z.of_nat 8). rewrite (H 8%nat) by done. apply Z.div_1_r.
Qed.

(** ** Reading back addresses *)

Definition addr_chars (l : list ascii) : Prop := Forall (λ c, plain c ∨ c = colon ∨ c = dot) l.

Lemma plain_chars l : Forall plain l → addr_chars l.
Proof. intros H. eapply Forall_impl; [exact H|]. by left. Qed.

Lemma joinHex_chars l : Forall (λ g, 0 <= g < 65536) l → addr_chars (joinHex l).
Proof.
  induction 1 as [|g l Hg Hl IH]; [constructor|]. rewrite joinHex_cons. apply Forall_app.
  split; [by apply plain_chars, appendHex_plain|]. destruct l; [constructor|]. constructor; [auto|exact IH].
Qed.

Lemma string4_chars n : addr_chars (string4 n).
Proof.
  unfold string4. assert (Forall (λ b, 0 <= b < 256) (bytes4 n)) as Hb by apply bytes4_bound.
  induction (bytes4 n) as [|b l IH]; [constructor|]. apply Forall_cons in Hb as [Hb Hl].
  pose proof (plain_chars _ (proj1 (appendDecimal_plain b Hb))) as Hp. destruct l; [exact Hp|].
  apply Forall_app. split; [exact Hp|]. constructor; [auto|]. by apply IH.
Qed.

Lemma string6_chars gs : Forall (λ g, 0 <= g < 65536) gs → addr_chars (string6 gs).
Proof.
  intros H. unfold string6. destruct (longestRun _ _ _) as [zs ze]. destruct (_ =? _)%nat.
  - by apply joinHex_chars.
  - apply Forall_app. split; [by apply joinHex_chars, Forall_take|].
    do 2 (constructor; [auto|]). by apply joinHex_chars, Forall_drop.
Qed.

Lemma chars_not a l : addr_chars l → hexVal a = None → a ≠ colon → a ≠ dot → a ∉ l.
Proof.
  intros Hl Ha Hc Hd Hin. unfold addr_chars in Hl. rewrite Forall_forall in Hl.
  destruct (Hl a Hin) as [[Hp _]|[?|?]]; done.
Qed.

Lemma cut_none a l : a ∉ l → cut a l = None.
Proof.
  induction l as [|c l IH]; [done|]. rewrite not_elem_of_cons. intros [Hc Hl]. simpl.
  rewrite bool_decide_false by done. by rewrite IH.
Qed.

Lemma cut_first a x y : a ∉ x → cut a (x ++ a :: y) = Some (x, y).
Proof.
  induction x as [|c x IH]; simpl; [by rewrite bool_decide_true|].
  rewrite not_elem_of_cons. intros [Hc Hx]. rewrite bool_decide_false by done. by rewrite IH.
Qed.

Lemma cutLast_last a x y : a ∉ y → cutLast a (x ++ a :: y) = Some (x, y).
Proof.
  intros Hy. unfold cutLast. rewrite reverse_app, reverse_cons, <-(assoc_L app). cbn [app].
  rewrite cut_first by (by rewrite elem_of_reverse). by rewrite !reverse_involutive.
Qed.

(** The first separator of a printed IPv6 address is a colon. *)
Lemma string6_head gs : length gs = 8%nat → Forall (λ g, 0 <= g < 65536) gs →
  ∃ a s, Forall plain a ∧ string6 gs = a ++ colon :: s.
Proof.
  intros Hlen Hgs. destruct gs as [|g [|g' gs]]; try done. unfold string6.
  apply Forall_cons in Hgs as [Hg Hgs]. pose proof (proj1 (appendHex_plain g Hg)) as Hp.
  destruct (longestRun _ _ _) as [zs ze]. destruct (_ =? _)%nat.
  { exists (appendHex g), (joinHex (g' :: gs)). by rewrite joinHex_cons. }
  destruct zs as [|zs]; [exists [], (colon :: joinHex (drop ze (g :: g' :: gs))); by split|].
  cbn [take]. rewrite joinHex_cons, <-(assoc_L app).
  destruct (take zs (g' :: gs)); eexists (appendHex g), _; by split.
Qed.

Lemma fromGroups_mapped n :
  0 <= n < 2 ^ 128 → n / 2 ^ 32 = 65535 →
  fromGroups (replicate 5 0 ++ [65535; n / 16777216 mod 256 * 256 + n / 65536 mod 256;
    n / 256 mod 256 * 256 + n mod 256]) = n.
Proof.
  intros Hn H. unfold fromGroups. cbn [replicate app foldl].
  pose proof (Z.div_mod n 256 ltac:(lia)). pose proof (Z.div_mod (n / 256) 256 ltac:(lia)).
  pose proof (Z.div_mod (n / 65536) 256 ltac:(lia)). pose proof (Z.div_mod (n / 16777216) 256 ltac:(lia)).
  assert (n / 256 / 256 = n / 65536) by (by rewrite Z.div_div by lia).
  assert (n / 65536 / 256 = n / 16777216) by (by rewrite Z.div_div by lia).
  assert (n / 16777216 / 256 = n / 2 ^ 32) by (by rewrite Z.div_div by lia).
  lia.
Qed.

Lemma bytes4_mod n : 0 <= n → bytes4 (n mod 2 ^ 32) = bytes4 n.
Proof.
  intros Hn. unfold bytes4. assert (∀ k, 0 <= k <= 24 → n mod 2 ^ 32 / 2 ^ k mod 256 = n / 2 ^ k mod 256) as H.
  { intros k Hk. assert (2 ^ 32 = 2 ^ (24 - k) * 256 * 2 ^ k) as E.
    { change 256 with (2 ^ 8). rewrite <- !Z.pow_add_r by lia. f_equal. lia. }
    assert (n mod 2 ^ 32 = n + - (n / 2 ^ 32) * 2 ^ (24 - k) * 256 * 2 ^ k) as ->.
    { pose proof (Z.div_mod n (2 ^ 32) ltac:(lia)). rewrite <- !Z.mul_assoc, (Z.mul_assoc (2 ^ (24 - k))), <-E. lia. }
    rewrite Z.div_add by (apply Z.pow_nonzero; lia). by rewrite Z.mod_add by lia. }
  pose proof (H 0 ltac:(lia)) as H0. rewrite Z.pow_0_r, !Z.div_1_r in H0.
  pose proof (H 8 ltac:(lia)). pose proof (H 16 ltac:(lia)). pose proof (H 24 ltac:(lia)).
  change (2 ^ 8) with 256 in *. change (2 ^ 16) with 65536 in *. change (2 ^ 24) with 16777216 in *.
  congruence.
Qed.

(** The mapped form ["::ffff:a.b.c.d"]. *)
Lemma hexField_decimal b s :
  0 <= b < 256 → ∃ off acc, 0 < off ∧ hexField 0 0 (appendDecimal b ++ dot :: s) = Some (off, acc, dot :: s).
Proof.
  intros Hb. unfold appendDecimal.
  assert (0 <= b / 100 < 10) by (split; [apply Z.div_pos; lia|apply Z.div_lt_upper_bound; lia]).
  pose proof (Z.mod_pos_bound b 10 ltac:(lia)). pose proof (Z.mod_pos_bound (b / 10) 10 ltac:(lia)).
  assert (∀ k, 0 <= k < 10 → digit k = hexDigit k) as Hd.
  { intros k Hk. unfold hexDigit. by destruct (Z.ltb_spec k 10); [|lia]. }
  destruct (100 <=? b), (10 <=? b); simpl app; rewrite ?Hd by done;
    repeat rewrite hexField_digit by lia; rewrite hexField_stop by done; eexists _, _; (split; [|done]); lia.
Qed.

Lemma parseGroups_v4 fuel gs e s off acc rest a b c d :
  hexField 0 0 s = Some (off, acc, dot :: rest) → 0 < off → (length gs + 2 <= 8)%nat →
  parseIPv4Fields s 0 0 [] = Some [a; b; c; d] →
  parseGroups (S fuel) gs (Some e) s = Some (gs ++ [a * 256 + b; c * 256 + d], Some e, []).
Proof.
  intros Hh Ho Hl Hf. cbn [parseGroups]. rewrite Hh, Hf. destruct (Z.eqb_spec off 0); [lia|].
  rewrite bool_decide_true by done. rewrite bool_decide_false by done. cbn [andb].
  by destruct (Z.ltb_spec 8 (Z.of_nat (length gs) + 2)); [lia|].
Qed.

Lemma parse_mapped_groups n :
  parseIPv6Groups (to_list "::ffff:" ++ string4 n) =
    Some (replicate 5 0 ++ [65535; n / 16777216 mod 256 * 256 + n / 65536 mod 256;
      n / 256 mod 256 * 256 + n mod 256]).
Proof.
  change (to_list "::ffff:" ++ string4 n) with (colon :: colon :: appendHex 65535 ++ colon :: string4 n).
  unfold parseIPv6Groups, leadingEllipsis. rewrite (bool_decide_true (colon = colon)) by done. cbn [andb].
  rewrite (bool_decide_false (_ ++ _ = [])) by done. rewrite andb_false_r.
  destruct (string4_head n) as (b&s&Hb&E).
  destruct (hexField_decimal b s Hb) as (off&acc&Ho&Hh). rewrite <-E in Hh.
  destruct (appendDecimal_plain b Hb) as [Hp Hne]. destruct (appendDecimal b) as [|c a]; [done|].
  destruct (string4 n) as [|c' l] eqn:E4; [done|]. injection E as <- _.
  rewrite parseGroups_next; [|done|apply Forall_cons in Hp as [Hc _]; by apply (plain_not c' colon)].
  rewrite <-E4 in *. rewrite (parseGroups_v4 _ _ _ _ off acc s
    (n / 16777216 mod 256) (n / 65536 mod 256) (n / 256 mod 256) (n mod 256));
    [done|done|done|simpl; lia|apply fields_string4].
Qed.

Lemma colon_percent l : addr_chars l → cut percent l = None.
Proof. intros H. by apply cut_none, chars_not. Qed.

(** Printing an address without a zone and parsing it is the identity. *)
Theorem parse_addr_string a :
  addr_wf a → a ≠ AddrZero → Zone a = ""%string → ParseAddr (AddrString a) = Some a.
Proof.
  intros Hw Hz Hzone. destruct a as [|n|n z]; [done|by apply parse_string4|]. simpl in Hzone. subst z.
  unfold AddrString, addrString. simpl in Hw. destruct (Is4In6 (Addr6 n "")) eqn:E.
  - unfold ParseAddr. rewrite to_of_list.
    change (dispatch (to_list "::ffff:" ++ string4 (n mod 2 ^ 32)) (to_list "::ffff:" ++ string4 (n mod 2 ^ 32)))
      with (parseIPv6 (to_list "::ffff:" ++ string4 (n mod 2 ^ 32))).
    unfold parseIPv6. rewrite colon_percent.
    2:{ apply Forall_app. split; [|apply string4_chars]. do 7 (apply Forall_cons; split; [first [by right; left|left; by split; vm_compute]|]). by apply Forall_nil. }
    assert (string4 (n mod 2 ^ 32) = string4 n) as -> by (unfold string4; by rewrite bytes4_mod by lia).
    rewrite parse_mapped_groups. simpl in E. apply Z.eqb_eq in E. by rewrite fromGroups_mapped.
  - unfold ParseAddr. rewrite to_of_list.
    destruct (string6_head (groups n)) as (a&s&Ha&Hs); [done|apply groups_bound|]. rewrite Hs at 1.
    rewrite dispatch_plain by done. cbn [dispatch]. rewrite bool_decide_false by done.
    rewrite bool_decide_true by done. unfold parseIPv6.
    rewrite colon_percent by (apply string6_chars, groups_bound).
    rewrite parse_string6_groups by (done || apply groups_bound). by rewrite fromGroups_groups.
Qed.

(** ** Parsed addresses are well formed *)

Lemma is_digit_bound c : is_digit c = true → 48 <= byte c <= 57.
Proof. unfold is_digit, in_range. intros. reflect_bools. lia. Qed.

Lemma hexVal_bound c d : hexVal c = Some d → 0 <= d < 16.
Proof.
  unfold hexVal, in_range. repeat case_match; intros; simplify_eq; reflect_bools; lia.
Qed.

Lemma fields_wf s val dl f l :
  0 <= val <= 255 → Forall (λ b, 0 <= b < 256) f → (length f <= 3)%nat →
  parseIPv4Fields s val dl f = Some l → length l = 4%nat ∧ Forall (λ b, 0 <= b < 256) l.
Proof.
  revert val dl f. induction s as [|c s IH]; intros val dl f Hv Hf Hl; simpl.
  - destruct (Z.ltb_spec (Z.of_nat (length f)) 3); [done|]. intros [= <-].
    rewrite length_app. split; [simpl; lia|]. apply Forall_app. split; [done|]. repeat constructor; lia.
  - destruct (is_digit c) eqn:Ed.
    + apply is_digit_bound in Ed. destruct (_ && _); [done|].
      destruct (Z.ltb_spec 255 (val * 10 + (byte c - 48))); [done|]. apply IH; [lia|done|done].
    + destruct (bool_decide _); [|done]. destruct (_ || _); [done|].
      destruct (Z.eqb_spec (Z.of_nat (length f)) 3); [done|]. apply IH; [lia| |rewrite length_app; simpl; lia].
      apply Forall_app. split; [done|]. repeat constructor; lia.
Qed.

Lemma hexField_wf off acc s o a r :
  0 <= acc <= 65535 → hexField off acc s = Some (o, a, r) → 0 <= a <= 65535.
Proof.
  revert off acc. induction s as [|c s IH]; intros off acc Ha; simpl; [by intros [= _ <- _]|].
  destruct (hexVal c) as [d|] eqn:Ed; [|by intros [= _ <- _]]. apply hexVal_bound in Ed.
  destruct (_ || _) eqn:E; [done|]. reflect_bools. apply IH. lia.
Qed.

Definition groups_ok (gs : list Z) : Prop := Forall (λ g, 0 <= g < 65536) gs ∧ (length gs <= 8)%nat.

Lemma groups_ok_snoc gs g : groups_ok gs → 0 <= g <= 65535 → (length gs < 8)%nat → groups_ok (gs ++ [g]).
Proof.
  intros [H1 H2] Hg Hl. split; [apply Forall_app; split; [done|by repeat constructor; lia]|].
  rewrite length_app. simpl. lia.
Qed.

Lemma parseGroups_wf fuel gs ell s gs' ell' rest :
  groups_ok gs → (length gs + fuel = 8)%nat → (∀ e, ell = Some e → (e <= length gs)%nat) →
  parseGroups fuel gs ell s = Some (gs', ell', rest) →
  groups_ok gs' ∧ (∀ e, ell' = Some e → (e <= length gs')%nat).
Proof.
  revert gs ell s. induction fuel as [|fuel IH]; intros gs ell s Hgs Hl He; simpl; [by intros [= <- <- <-]|].
  destruct (hexField 0 0 s) as [[[off acc] r]|] eqn:Eh; [|done].
  apply hexField_wf in Eh; [|lia]. destruct (_ =? _); [done|].
  assert (groups_ok (gs ++ [acc])) as Hg' by (apply groups_ok_snoc; [done|done|lia]).
  assert (length (gs ++ [acc]) = S (length gs)) as Hl' by (rewrite length_app; simpl; lia).
  assert (∀ e, ell = Some e → (e <= length (gs ++ [acc]))%nat) as He' by (intros e H; apply He in H; lia).
  destruct r as [|c r]; [by intros [= <- <- <-]|]. destruct (bool_decide (c = dot)).
  - destruct (_ && _); [done|]. destruct (Z.ltb_spec 8 (Z.of_nat (length gs) + 2)); [done|].
    destruct (parseIPv4Fields s 0 0 []) as [l|] eqn:Ef; [|done].
    apply fields_wf in Ef as [_ Hf]; [|lia|by constructor|simpl; lia].
    destruct l as [|b1 [|b2 [|b3 [|b4 [|]]]]]; try done. intros [= <- <- <-].
    rewrite !Forall_cons in Hf. destruct Hf as (?&?&?&?&_).
    change [b1 * 256 + b2; b3 * 256 + b4] with ([b1 * 256 + b2] ++ [b3 * 256 + b4]).
    rewrite (assoc_L app). split; [apply groups_ok_snoc; [apply groups_ok_snoc; [done|lia|lia]|lia|]|].
    + rewrite length_app. simpl. lia.
    + intros e H'. apply He in H'. rewrite !length_app. lia.
  - destruct (bool_decide (c = colon)); [|done]. destruct r as [|c' r]; [done|].
    destruct (bool_decide (c' = colon)); [destruct ell; [done|destruct r]|].
    + intros [= <- <- <-]. split; [done|]. intros e [= <-]. lia.
    + apply IH; [done|lia|]. intros e [= <-]. lia.
    + apply IH; [done|lia|done].
Qed.

Lemma parseIPv6Groups_wf s gs :
  parseIPv6Groups s = Some gs → length gs = 8%nat ∧ Forall (λ g, 0 <= g < 65536) gs.
Proof.
  unfold parseIPv6Groups. destruct (leadingEllipsis s) as [ell s'] eqn:El.
  destruct (_ && _); [intros [= <-]; split; [done|by repeat constructor]|].
  destruct (parseGroups _ _ _ _) as [[[gs' ell'] rest]|] eqn:E; [|done]. destruct rest; [|done].
  apply parseGroups_wf in E as [[Hg Hl] He]; [|by split; [constructor|simpl; lia]|done|].
  2:{ intros e ->. unfold leadingEllipsis in El. repeat case_match; simplify_eq; simpl; lia. }
  unfold expandGroups. destruct (Z.ltb_spec (Z.of_nat (length gs')) 8).
  - destruct ell' as [e|]; [|done]. intros [= <-]. specialize (He e eq_refl). split.
    + rewrite !length_app, length_replicate, length_take, length_drop. lia.
    + rewrite !Forall_app. split_and!; [by apply Forall_take| |by apply Forall_drop].
      apply Forall_replicate. lia.
  - destruct ell'; [done|]. intros [= <-]. split; [lia|done].
Qed.

Lemma fold_digits_bound (base : Z) l n k :
  0 < base → Forall (λ g, 0 <= g < base) l → 0 <= n < base ^ k → 0 <= k →
  0 <= foldl (λ n g, n * base + g) n l < base ^ (k + Z.of_nat (length l)).
Proof.
  intros Hb. revert n k. induction l as [|g l IH]; intros n k Hl Hn Hk; simpl; [by rewrite Z.add_0_r|].
  apply Forall_cons in Hl as [Hg Hl]. replace (k + _) with ((k + 1) + Z.of_nat (length l)) by lia.
  apply IH; [done| |lia]. rewrite Z.pow_add_r, Z.pow_1_r by lia. nia.
Qed.

Lemma parse_addr_wf s a : ParseAddr s = Some a → addr_wf a ∧ a ≠ AddrZero.
Proof.
  unfold ParseAddr. generalize (to_list s) at 2 as w. intros w.
  induction (to_list s) as [|c l IH]; simpl; [done|]. repeat destruct (bool_decide _); try done.
  - unfold parseIPv4. destruct (parseIPv4Fields w 0 0 []) as [f|] eqn:E; [|done]. intros [= <-].
    apply fields_wf in E as [Hl Hf]; [|lia|constructor|simpl; lia]. split; [|done].
    apply (fold_digits_bound 256 f 0 0) in Hf; [|lia..]. rewrite Hl in Hf. exact Hf.
  - assert (∀ l' z, parseIPv6Groups l' = Some z → 0 <= fromGroups z < 2 ^ 128) as H.
    { intros l' z [Hl Hz]%parseIPv6Groups_wf. apply (fold_digits_bound 65536 z 0 0) in Hz; [|lia..].
      rewrite Hl in Hz. exact Hz. }
    unfold parseIPv6. destruct (cut percent w) as [[x y]|].
    + destruct y; [done|]. destruct (parseIPv6Groups x) eqn:E; [|done]. intros [= <-]. apply H in E. done.
    + destruct (parseIPv6Groups w) eqn:E; [|done]. intros [= <-]. apply H in E. done.
Qed.

(** ** Decimal numbers and prefixes *)

Lemma itoaAux_spec fuel n acc :
  0 <= n < 10 ^ Z.of_nat fuel →
  ∃ l, itoaAux fuel n acc = l ++ acc ∧ Forall (λ c, is_digit c = true) l ∧
    (fuel ≠ O → l ≠ []) ∧
    (∀ m, foldl (λ n c, n * 10 + (byte c - 48)) m l = m * 10 ^ Z.of_nat (length l) + n) ∧
    (∀ c l', l = c :: l' → n ≠ 0 → byte c ≠ 48).
Proof.
  revert n acc. induction fuel as [|fuel IH]; intros n acc Hn; cbn [itoaAux].
  { exists []. simpl in Hn. split_and!; [done|by constructor|done| |done]. intros m. simpl. lia. }
  pose proof (Z.mod_pos_bound n 10 ltac:(lia)) as Hm. destruct (digit_byte (n mod 10) Hm) as [Hd Hb].
  destruct (Z.ltb_spec n 10) as [Hlt|Hge].
  - exists [digit (n mod 10)]. rewrite Z.mod_small in * by lia. split_and!; [done|by repeat constructor|done| |].
    + intros m. simpl. rewrite Hb. lia.
    + intros c l' [= <- <-]. rewrite Hb. lia.
  - destruct (IH (n / 10) (digit (n mod 10) :: acc)) as (l&E&Hl&Hne&Hf&Hc).
    { rewrite Nat2Z.inj_succ, Z.pow_succ_r in Hn by lia.
      split; [apply Z.div_pos; lia|apply Z.div_lt_upper_bound; lia]. }
    exists (l ++ [digit (n mod 10)]). rewrite E, <-(assoc_L app). split_and!; [done| |by destruct l| |].
    + apply Forall_app. split; [done|by repeat constructor].
    + intros m. rewrite foldl_app, Hf. cbn [foldl]. rewrite Hb, length_app. simpl length.
      rewrite Nat.add_1_r, Nat2Z.inj_succ, Z.pow_succ_r by lia. pose proof (Z.div_mod n 10 ltac:(lia)). lia.
    + intros c l' El Hn0. destruct l as [|c0 l0]; [|injection El as -> _; apply (Hc c l0); [done|]].
      * injection El as <- _. destruct fuel; [|by destruct Hne]. simpl in Hn. lia.
      * assert (1 <= n / 10) by (apply Z.div_le_lower_bound; lia). lia.
Qed.

Lemma digits_not_sign c : is_digit c = true → c ≠ minus_char ∧ c ≠ plus_char ∧ c ≠ slash_char.
Proof. intros H. split_and!; by intros ->. Qed.

(** What [Itoa] prints. *)
Lemma Itoa_spec n : 0 <= n < 2 ^ 63 →
  Atoi (Itoa n) = Some n ∧ Forall (λ c, is_digit c = true) (Itoa n) ∧
  match Itoa n with c :: _ :: _ => in_range 49 57 c = true | _ => True end.
Proof.
  intros Hn. unfold Itoa. destruct (Z.ltb_spec n 0); [lia|].
  destruct (itoaAux_spec 20 n []) as (l&E&Hl&Hne&Hf&Hc); [simpl; lia|]. rewrite app_nil_r in E. rewrite E.
  destruct l as [|c l]; [by destruct Hne|]. apply Forall_cons in Hl as Hl'. destruct Hl' as [Hcd Hl'].
  split_and!; [|done|].
  - unfold Atoi. destruct (digits_not_sign c Hcd) as (?&?&_). rewrite !bool_decide_false by done.
    unfold digitsValue. rewrite bool_decide_false by done.
    assert (forallb is_digit (c :: l) = true) as -> by (apply forallb_forall; intros x Hx; rewrite Forall_forall in Hl; apply Hl; by apply list_elem_of_In).
    cbn [negb orb]. rewrite Hf. replace (0 * _ + n) with n by lia.
    destruct (Z.leb_spec (- 2 ^ 63) n), (Z.ltb_spec n (2 ^ 63)); try lia. done.
  - destruct l as [|c2 l]; [done|]. apply is_digit_bound in Hcd.
    assert (n ≠ 0) as Hn0.
    { intros ->. specialize (Hf 1). vm_compute in E. by injection E. }
    specialize (Hc c _ eq_refl Hn0). unfold in_range. apply andb_true_iff. rewrite !Z.leb_le. lia.
Qed.

Lemma prefixString_cut p :
  0 <= prefixBits p < 2 ^ 63 →
  cutLast slash_char (to_list (PrefixString p)) = Some (addrString (prefixIP p), Itoa (prefixBits p)).
Proof.
  intros Hb. unfold PrefixString. rewrite to_of_list. apply cutLast_last.
  destruct (Itoa_spec _ Hb) as (_&Hd&_). intros Hin. rewrite Forall_forall in Hd.
  by destruct (digits_not_sign slash_char (Hd _ Hin)) as (_&_&?).
Qed.

(** Printing a prefix and parsing it is the identity. *)
Theorem parse_prefix_string p : prefix_wf p → ParsePrefix (PrefixString p) = Some p.
Proof.
  intros (Hw&Hz&Hzone&Hb). destruct p as [a bits]. cbn [prefixIP prefixBits] in *.
  assert (bits <= 128) by (destruct a; simpl in Hb; lia).
  unfold ParsePrefix. rewrite prefixString_cut by (simpl; lia). cbn [prefixIP prefixBits].
  change (of_list (addrString a)) with (AddrString a). rewrite parse_addr_string by done.
  rewrite Hzone, bool_decide_true, andb_false_r by done.
  destruct (Itoa_spec bits ltac:(lia)) as (Ha&_&Hh). rewrite Ha.
  assert (match Itoa bits with c :: _ :: _ => negb (in_range 49 57 c) | _ => false end = false) as ->
    by (destruct (Itoa bits) as [|? [|]]; [done|done|by rewrite Hh]).
  destruct (Z.ltb_spec bits 0); [lia|]. destruct (Z.ltb_spec (BitLen a) bits); [lia|]. simpl.
  unfold PrefixFrom. f_equal. f_equal. destruct a; simpl in *; by subst.
Qed.

Lemma parse_prefix_wf s p : ParsePrefix s = Some p → prefix_wf p.
Proof.
  unfold ParsePrefix. destruct (cutLast _ _) as [[x y]|]; [|done].
  destruct (ParseAddr _) as [a|] eqn:Ea; [|done]. apply parse_addr_wf in Ea as [Hw Hz].
  destruct (_ && _); [done|]. destruct (match y with [] => _ | _ => _ end); [done|].
  destruct (Atoi y) as [b|]; [|done]. destruct (_ || _) eqn:E; [done|]. intros [= <-]. reflect_bools.
  unfold prefix_wf, PrefixFrom. simpl. destruct a; [done|..]; simpl in *; split_and!; try done; lia.
Qed.

Lemma maskTo_bound len n bits : 0 <= bits <= len → 0 <= n < 2 ^ len → 0 <= maskTo len n bits < 2 ^ len.
Proof.
  intros Hb Hn. unfold maskTo. assert (0 < 2 ^ (len - bits)) by (apply Z.pow_pos_nonneg; lia).
  pose proof (Z.mul_div_le n (2 ^ (len - bits)) ltac:(lia)). pose proof (Z.div_pos n (2 ^ (len - bits))). nia.
Qed.

Lemma masked_wf p : prefix_wf p → prefix_wf (Masked p).
Proof.
  intros (Hw&Hz&Hzone&Hb). unfold prefix_wf, Masked.
  destruct (prefixIP p); simpl in *; split_and!; try done; try (apply maskTo_bound; lia); lia.
Qed.

Lemma masked_masked p : prefix_wf p → Masked (Masked p) = Masked p.
Proof.
  intros (Hw&Hz&Hzone&Hb). unfold Masked. simpl. f_equal. destruct (prefixIP p); [done|..]; simpl in *;
    unfold maskTo; rewrite Z.div_mul by (apply Z.pow_nonzero; lia); done.
Qed.

(** ** A slash never occurs in an address *)

Lemma fields_no_slash s v d f l : parseIPv4Fields s v d f = Some l → slash_char ∉ s.
Proof.
  revert v d f. induction s as [|c s IH]; intros v d f; simpl; [set_solver|].
  rewrite not_elem_of_cons. destruct (is_digit c) eqn:Ed.
  - destruct (_ && _); [done|]. destruct (_ <? _); [done|]. intros H. split; [|by eapply IH].
    intros <-. done.
  - destruct (bool_decide (c = dot)) eqn:Ec; [|done]. destruct (_ || _); [done|]. destruct (_ =? _); [done|].
    intros H. split; [|by eapply IH]. apply bool_decide_eq_true in Ec. by subst.
Qed.

Lemma hexField_no_slash o a s o' a' r :
  hexField o a s = Some (o', a', r) → ∃ x, s = x ++ r ∧ slash_char ∉ x.
Proof.
  revert o a. induction s as [|c s IH]; intros o a; simpl.
  { intros [= _ _ <-]. exists []. split; [done|set_solver]. }
  destruct (hexVal c) eqn:Ec; [|intros [= _ _ <-]; exists []; split; [done|set_solver]].
  destruct (_ || _); [done|]. intros (x&->&Hx)%IH. exists (c :: x). split; [done|].
  apply not_elem_of_cons. split; [|done]. by intros <-.
Qed.

Lemma parseGroups_no_slash fuel gs ell s gs' ell' :
  parseGroups fuel gs ell s = Some (gs', ell', []) → slash_char ∉ s.
Proof.
  revert gs ell s. induction fuel as [|fuel IH]; intros gs ell s; simpl; [intros [= _ _ ->]; set_solver|].
  destruct (hexField 0 0 s) as [[[off acc] r]|] eqn:Eh; [|done]. apply hexField_no_slash in Eh as (x&->&Hx).
  destruct (_ =? _); [done|]. destruct r as [|c r]; [intros _; set_solver|].
  destruct (bool_decide (c = dot)) eqn:Ec.
  - destruct (_ && _); [done|]. destruct (_ <? _); [done|].
    destruct (parseIPv4Fields _ 0 0 []) eqn:Ef; [|done]. intros _. by apply fields_no_slash in Ef.
  - destruct (bool_decide (c = colon)) eqn:Ec'; [|done]. apply bool_decide_eq_true in Ec' as ->.
    destruct r as [|c' r]; [done|]. assert (slash_char ≠ colon) by done.
    destruct (bool_decide (c' = colon)) eqn:Ec'; [apply bool_decide_eq_true in Ec' as ->; destruct ell; [done|]|].
    + destruct r; [intros _; set_solver|]. intros H'%IH. set_solver.
    + intros H'%IH. set_solver.
Qed.

Lemma parse_addr_no_slash s a :
  ParseAddr s = Some a → percent ∉ to_list s → slash_char ∉ to_list s.
Proof.
  unfold ParseAddr. generalize (to_list s) at 1 as l. intros l Hp Hn. revert Hp.
  induction l as [|c l IH]; simpl; [done|]. destruct (bool_decide (c = dot)); [|destruct (bool_decide (c = colon))].
  - unfold parseIPv4. destruct (parseIPv4Fields _ _ _ _) eqn:E; [|done]. intros _. by apply fields_no_slash in E.
  - unfold parseIPv6. rewrite cut_none by done. destruct (parseIPv6Groups _) eqn:E; [|done]. intros _.
    unfold parseIPv6Groups in E. destruct (leadingEllipsis (to_list s)) as [ell s'] eqn:El.
    assert (slash_char ∈ to_list s → slash_char ∈ s') as Hs.
    { clear -El. unfold leadingEllipsis in El. destruct (to_list s) as [|x [|y r]]; [by simplify_eq..|].
      destruct (_ && _) eqn:Eb; simplify_eq; [|done]. reflect_bools. subst.
      rewrite !elem_of_cons. by intros [?|[?|?]]. }
    intros Hin%Hs. destruct (bool_decide _ && _) eqn:Eb; [reflect_bools; subst; by apply elem_of_nil in Hin|].
    destruct (parseGroups _ _ _ _) as [[[gs ell'] [|]]|] eqn:Eg; try done. by apply parseGroups_no_slash in Eg.
  - destruct (bool_decide _); [done|]. apply IH.
Qed.

(** ** Joining and splitting *)

Lemma itoaAux_chars fuel n acc :
  Forall (λ c, is_digit c = true) acc → Forall (λ c, is_digit c = true) (itoaAux fuel n acc).
Proof.
  revert n acc. induction fuel as [|fuel IH]; intros n acc Hacc; cbn [itoaAux]; [done|].
  pose proof (digit_byte (n mod 10) (Z.mod_pos_bound n 10 ltac:(lia))) as [Hd _].
  destruct (_ <? _); [|apply IH]; by constructor.
Qed.

Lemma Itoa_chars n c : c ∈ Itoa n → is_digit c = true ∨ c = minus_char.
Proof.
  assert (∀ k, c ∈ itoaAux 20 k [] → is_digit c = true) as H.
  { intros k Hc. pose proof (itoaAux_chars 20 k [] (Forall_nil_2 _)) as Hf. rewrite Forall_forall in Hf. auto. }
  unfold Itoa. destruct (n <? 0); [|by left; eapply H].
  intros [->|Hc]%elem_of_cons; [by right|left; by eapply H].
Qed.

Lemma to_list_app s t : to_list (s +:+ t) = to_list s ++ to_list t.
Proof. induction s; simpl; [done|]. by f_equal. Qed.

(** Splitting what was joined, for a host without colons or brackets. *)
Lemma split_join_host_port host n :
  host ≠ ""%string → (∀ c, c ∈ to_list host → c ≠ colon ∧ c ≠ "["%char ∧ c ≠ "]"%char) →
  SplitHostPort (JoinHostPort host (of_list (Itoa n))) = Some (host, of_list (Itoa n)).
Proof.
  intros Hne Hh. unfold JoinHostPort. rewrite bool_decide_false by (intros Hc; by destruct (Hh _ Hc)).
  unfold SplitHostPort. rewrite !to_list_app, to_of_list. cbn [to_list app].
  assert (∀ c, c ∈ Itoa n → c ≠ colon ∧ c ≠ "["%char ∧ c ≠ "]"%char) as Hp.
  { intros c [Hc|Hc]%Itoa_chars; [|by subst]. split_and!; by intros ->. }
  assert (cutLast colon (to_list host ++ colon :: Itoa n) = Some (to_list host, Itoa n)) as E
    by (apply cutLast_last; intros Hc; by destruct (Hp _ Hc)).
  assert (∀ c, c = "["%char ∨ c = "]"%char → c ∉ to_list host ++ colon :: Itoa n) as Hb.
  { intros c Hc [Hin|Hin]%elem_of_app; [destruct (Hh _ Hin); naive_solver|].
    apply elem_of_cons in Hin as [->|Hin]; [by destruct Hc|]. destruct (Hp _ Hin); naive_solver. }
  change (":"%char) with colon. rewrite E. destruct host as [|c host]; [done|]. cbn [to_list app] in *.
  rewrite (bool_decide_false (c = _)) by (intros ->; by destruct (Hh _ (list_elem_of_here _ _)) as (_&?&_)).
  rewrite (bool_decide_false (colon ∈ _)) by (intros Hc; by destruct (Hh _ Hc)).
  rewrite !bool_decide_false by auto. cbn [orb]. by rewrite <-(of_to_list (String c host)).
Qed.
