(* ===== verification/Volumes.v ===== *)
(** * Volumes: volume and mount declarations

    Models [internal/bed/paths.go], [internal/bed/volumes.go] and the volume
    contract of [internal/bed/manager/volume_contract.go]: path normalization,
    the overlap test, and the normalization of volume and mount declarations. *)

From S2P Require Import Prelude Bed.

(** ** Path components

    [split] and [join] relate a slash-separated path to its components. *)

Definition slash : ascii := "/"%char.

Fixpoint split (s : string) : list string :=
  match s with
  | EmptyString => [""%string]
  | String a s =>
      if decide (a = slash) then ""%string :: split s
      else match split s with
           | h :: t => String a h :: t
           | [] => [String a ""]
           end
  end.

Fixpoint join (l : list string) : string :=
  match l with
  | [] => ""
  | [x] => x
  | x :: l => x +:+ "/" +:+ join l
  end.

(** [path.Clean] and, on the daemon's platform, [filepath.Clean]: drop empty
    and "." components, let ".." cancel the component before it, keep leading
    ".." only in relative paths.  The components are kept in reverse. *)
Definition clean_step (rooted : bool) (acc : list string) (c : string) : list string :=
  if decide (c = "" ∨ c = ".")%string then acc
  else if decide (c = "..")%string then
    match acc with
    | [] => if rooted then [] else [".."%string]
    | h :: t => if decide (h = "..")%string then ".."%string :: acc else t
    end
  else c :: acc.

Definition rootedPath (p : string) : bool := has_prefix p "/".
Definition IsAbs (p : string) : bool := rootedPath p.

Definition cleanComps (p : string) : list string :=
  reverse (foldl (clean_step (rootedPath p)) [] (split p)).

Definition Clean (p : string) : string :=
  if rootedPath p then "/" +:+ join (cleanComps p)
  else match cleanComps p with [] => "." | l => join l end.

(** ** Overlap ([paths.go]) *)

Definition PathsOverlap (a b : string) : bool :=
  bool_decide (a = b) || bool_decide (a = "/"%string) || bool_decide (b = "/"%string) ||
  has_prefix a (b +:+ "/") || has_prefix b (a +:+ "/").

Inductive path_err :=
| MountNotAbsolute | MountReserved (reserved : string)
| BadVolume (name : string) | HostPathInvalid (name : string)
| HostPathsOverlap (name other : string) | BadPersistence (name : string)
| BadMount (volume : string) | MountPathsOverlap
| UnknownVolume (pillow volume : string) | ContractDiffers.
#[export] Instance path_err_eq_dec : EqDecision path_err.
Proof. solve_decision. Defined.

Definition reservedPaths : list string := ["/dev"; "/proc"; "/sys"; "/.hostel"]%string.

Definition validateMountPath (p : string) : result path_err unit :=
  if negb (IsAbs p) || bool_decide (p = "/"%string) then Err MountNotAbsolute
  else match find (PathsOverlap p) reservedPaths with
       | Some r => Err (MountReserved r)
       | None => Ok tt
       end.

(** ** Volumes ([volumes.go]) *)

Definition volume_char (a : ascii) : bool :=
  is_alnum a || bool_decide (a = "_"%char) || bool_decide (a = "."%char) || bool_decide (a = "-"%char).

(** [volumeName.MatchString]: [^[a-zA-Z0-9][a-zA-Z0-9_.-]{0,63}$]. *)
Definition volumeName (s : string) : bool :=
  match s with
  | EmptyString => false
  | String a s => is_alnum a && bool_decide (String.length s <= 63)%nat && forallb volume_char (to_list s)
  end.

Definition str_le (a b : string) : Prop := String.leb a b = true.
#[export] Instance str_le_dec a b : Decision (str_le a b).
Proof. unfold str_le. apply _. Defined.

Definition vol_le (a b : VolumeSpec) : Prop := str_le (VolName a) (VolName b).
#[export] Instance vol_le_dec a b : Decision (vol_le a b).
Proof. unfold vol_le. apply _. Defined.

(** The body of the loop of [NormalizeVolumes] for the volume [v], [prev] being
    the volumes already normalized ([out[:i]]). *)
Definition normalizeVolume (prev : list VolumeSpec) (v : VolumeSpec) : result path_err VolumeSpec :=
  if negb (volumeName (VolName v)) || HasVolume prev (VolName v) ||
     Bool.eqb (bool_decide (Managed v = None)) (bool_decide (HostPath v = None))
  then Err (BadVolume (VolName v))
  else
    v <-! match HostPath v with
      | None => Ok v
      | Some h =>
          let p := Clean (HostPathPath h) in
          if negb (IsAbs p) || bool_decide (p = "/"%string) then Err (HostPathInvalid (VolName v))
          else match find (λ o, match HostPath o with
                                | Some h' => PathsOverlap p (HostPathPath h')
                                | None => false end) prev with
               | Some o => Err (HostPathsOverlap (VolName v) (VolName o))
               | None => Ok (mkVolume (VolName v) (Managed v) (Some (mkHostPath p)))
               end
      end;
    match Managed v with
    | Some x => if bool_decide (Persistence x = "none" ∨ Persistence x = "sync")%string
                then Ok v else Err (BadPersistence (VolName v))
    | None => Ok v
    end.

(** [slices.SortFunc] by name: the names are distinct here, so every sorting
    algorithm gives the same list. *)
Definition NormalizeVolumes (volumes : list VolumeSpec) : result path_err (list VolumeSpec) :=
  out <-! accumulate normalizeVolume [] volumes; Ok (merge_sort vol_le out).

(** ** Mounts *)

Definition mount_le (a b : VolumeMount) : Prop := str_le (MountPath a) (MountPath b).
#[export] Instance mount_le_dec a b : Decision (mount_le a b).
Proof. unfold mount_le. apply _. Defined.

Definition normalizeMount (prev : list VolumeMount) (x : VolumeMount) : result path_err VolumeMount :=
  let p := Clean (MountPath x) in
  if negb (volumeName (MountVolume x)) ||
     existsb (λ o, bool_decide (MountVolume o = MountVolume x)) prev
  then Err (BadMount (MountVolume x))
  else
    _ <-! validateMountPath p;
    if existsb (λ o, PathsOverlap p (MountPath o)) prev then Err MountPathsOverlap
    else Ok (mkMount (MountVolume x) p (ReadOnly x)).

Definition NormalizeMounts (mounts : list VolumeMount) : result path_err (list VolumeMount) :=
  out <-! accumulate normalizeMount [] mounts; Ok (merge_sort mount_le out).

Definition checkMounts (volumes : list VolumeSpec) (p : PillowSpec) : option path_err :=
  match find (λ x, negb (HasVolume volumes (MountVolume x))) (Mounts p) with
  | Some x => Some (UnknownVolume (PillowName p) (MountVolume x))
  | None => None
  end.

Definition ValidateVolumeMounts (s : Spec) : option path_err :=
  head (omap (checkMounts (default [] (Volumes s))) (Pillows s)).

(** ** Strings and components *)

Lemma string_app_nil_r (s : string) : s +:+ "" = s.
Proof. induction s; [done|]. change (String a (s +:+ "") = String a s). by rewrite IHs. Qed.

Lemma string_app_assoc (a b c : string) : (a +:+ b) +:+ c = a +:+ (b +:+ c).
Proof.
  induction a as [|x a IH]; [done|].
  change (String x ((a +:+ b) +:+ c) = String x (a +:+ (b +:+ c))). by rewrite IH.
Qed.

Lemma has_prefix_spec (s pre : string) : has_prefix s pre = true ↔ ∃ r, s = pre +:+ r.
Proof.
  unfold has_prefix. revert s. induction pre as [|a pre IH]; intros s.
  { split; [by exists s|]. by destruct s. }
  destruct s as [|b s]; simpl.
  { split; [done|]. by intros [r Hr]. }
  destruct (ascii_dec a b) as [->|Hne].
  - rewrite IH. split; intros [r Hr]; exists r; [by subst s|]. by injection Hr.
  - split; [done|]. intros [r Hr]. injection Hr as Hr _. congruence.
Qed.

Definition no_slash (c : string) : Prop := slash ∉ to_list c.

Lemma split_not_nil s : split s ≠ [].
Proof. destruct s as [|a s]; simpl; [done|]. case_decide; [done|]. by destruct (split s). Qed.

Lemma split_app s r : split (s +:+ "/" +:+ r) = split s ++ split r.
Proof.
  induction s as [|a s IH]; [done|].
  change (split (String a (s +:+ "/" +:+ r)) = split (String a s) ++ split r).
  simpl. case_decide; [by rewrite IH|]. rewrite IH.
  pose proof (split_not_nil s). by destruct (split s).
Qed.

Lemma split_no_slash c : no_slash c → split c = [c].
Proof.
  unfold no_slash. induction c as [|a c IH]; [done|]. simpl. rewrite not_elem_of_cons.
  intros [Ha Hc]. rewrite decide_False by congruence. by rewrite (IH Hc).
Qed.

Lemma split_forall s : Forall no_slash (split s).
Proof.
  unfold no_slash. induction s as [|a s IH]; simpl; [constructor; [apply not_elem_of_nil|done]|].
  case_decide; [constructor; [apply not_elem_of_nil|done]|].
  destruct (split s) as [|h t] eqn:E; [by apply split_not_nil in E|].
  inversion IH; subst. constructor; [|done]. simpl. rewrite not_elem_of_cons. done.
Qed.

Lemma split_join l : l ≠ [] → Forall no_slash l → split (join l) = l.
Proof.
  induction l as [|x l IH]; [done|]. intros _ Hl. inversion Hl as [|? ? Hx Hl']; subst.
  destruct l as [|y l]; [by apply split_no_slash|].
  change (join (x :: y :: l)) with (x +:+ "/" +:+ join (y :: l)).
  by rewrite split_app, split_no_slash, IH.
Qed.

Lemma join_split s : join (split s) = s.
Proof.
  induction s as [|a s IH]; [done|]. simpl. case_decide as Ha.
  - subst a. pose proof (split_not_nil s). destruct (split s) as [|h t]; [done|].
    change (join (""%string :: h :: t)) with ("" +:+ "/" +:+ join (h :: t)). by rewrite IH.
  - pose proof (split_not_nil s). destruct (split s) as [|h [|h' t]]; [done|..].
    + simpl in *. by rewrite IH.
    + change (String a (h +:+ "/" +:+ join (h' :: t)) = String a s). by rewrite <-IH.
Qed.

Lemma join_app l1 l2 : l1 ≠ [] → l2 ≠ [] → join (l1 ++ l2) = join l1 +:+ "/" +:+ join l2.
Proof.
  intros H1 H2. induction l1 as [|x l1 IH]; [done|]. destruct l1 as [|y l1].
  - simpl. destruct l2; [done|]. by destruct l2.
  - change (join ((x :: y :: l1) ++ l2)) with (x +:+ "/" +:+ join ((y :: l1) ++ l2)).
    rewrite IH by done. change (join (x :: y :: l1)) with (x +:+ "/" +:+ join (y :: l1)).
    by rewrite !string_app_assoc.
Qed.

(** A component that [Clean] keeps as it is. *)
Definition normal (c : string) : Prop :=
  c ≠ ""%string ∧ c ≠ "."%string ∧ c ≠ ".."%string ∧ no_slash c.

(** The reversed components [Clean] can produce. *)
Fixpoint stack_ok (rooted : bool) (acc : list string) : Prop :=
  match acc with
  | [] => True
  | h :: t => stack_ok rooted t ∧
      (normal h ∨ h = ".."%string ∧ rooted = false ∧ Forall (λ c, c = ".."%string) t)
  end.

Lemma clean_step_ok rooted acc c :
  stack_ok rooted acc → no_slash c → stack_ok rooted (clean_step rooted acc c).
Proof.
  intros Hacc Hc. unfold clean_step. case_decide as H1; [done|]. case_decide as H2.
  - subst c. destruct acc as [|h t].
    + destruct rooted; simpl; [done|]. split; [done|]. right. auto.
    + destruct Hacc as [Ht Hh]. case_decide as H3; [|done]. subst h.
      destruct Hh as [(_&_&?&_)|(_&Hr&Hall)]; [done|].
      split; [split; [done|right; auto]|]. right. auto.
  - split; [done|]. left. unfold normal. tauto.
Qed.

Lemma clean_fold_ok rooted l acc :
  stack_ok rooted acc → Forall no_slash l → stack_ok rooted (foldl (clean_step rooted) acc l).
Proof.
  revert acc. induction l as [|c l IH]; intros acc Ha Hl; [done|].
  inversion Hl; subst. simpl. apply IH; [|done]. by apply clean_step_ok.
Qed.

Lemma clean_fold_stack rooted acc :
  stack_ok rooted acc → foldl (clean_step rooted) [] (reverse acc) = acc.
Proof.
  induction acc as [|h t IH]; [done|]. intros [Ht Hh]. rewrite reverse_cons, foldl_app, IH by done.
  simpl. unfold clean_step. destruct Hh as [(?&?&?&_)|(->&->&Hall)].
  - rewrite decide_False by tauto. by rewrite decide_False.
  - rewrite decide_False by (intros [|]; done). rewrite decide_True by done.
    destruct Hall as [|h' t' -> _]; [done|]. by rewrite decide_True.
Qed.

Lemma stack_ok_rooted acc : stack_ok true acc → Forall normal acc.
Proof.
  induction acc as [|h t IH]; [done|]. intros [Ht [Hh|(_&?&_)]]; [|done]. auto.
Qed.

Lemma stack_ok_no_slash rooted acc : stack_ok rooted acc → Forall no_slash acc ∧ ""%string ∉ acc.
Proof.
  induction acc as [|h t IH]; [split; [done|apply not_elem_of_nil]|].
  intros [Ht Hh]. destruct (IH Ht) as [H1 H2]. rewrite not_elem_of_cons.
  destruct Hh as [(?&?&?&?)|(->&_&_)].
  - split; [by constructor|]. done.
  - split; [constructor; [|done]|]; [|done]. unfold no_slash. simpl.
    rewrite !not_elem_of_cons. split_and!; [done|done|apply not_elem_of_nil].
Qed.

(** ** What [Clean] produces *)

Definition absPath (l : list string) : string := "/" +:+ join l.

Lemma rooted_absPath l : rootedPath (absPath l) = true.
Proof. apply has_prefix_spec. by exists (join l). Qed.

Lemma cleanComps_ok p : stack_ok (rootedPath p) (reverse (cleanComps p)).
Proof.
  unfold cleanComps. rewrite reverse_involutive. apply clean_fold_ok; [done|apply split_forall].
Qed.

Lemma cleanComps_no_slash p : Forall no_slash (cleanComps p) ∧ ""%string ∉ cleanComps p.
Proof.
  destruct (stack_ok_no_slash _ _ (cleanComps_ok p)) as [H1 H2].
  rewrite Forall_reverse in H1. by rewrite elem_of_reverse in H2.
Qed.

Lemma normal_no_slash l : Forall normal l → Forall no_slash l.
Proof. intros H. eapply Forall_impl; [done|]. by intros c (_&_&_&?). Qed.

Lemma split_absPath l : Forall no_slash l → l ≠ [] → split (absPath l) = ""%string :: l.
Proof.
  intros Hl Hne. unfold absPath. change (split ("" +:+ "/" +:+ join l) = ""%string :: l).
  rewrite split_app, split_join by done. done.
Qed.

Lemma cleanComps_absPath l : Forall normal l → cleanComps (absPath l) = l.
Proof.
  intros Hl. unfold cleanComps. rewrite rooted_absPath. destruct (decide (l = [])) as [->|Hne]; [done|].
  rewrite split_absPath by auto using normal_no_slash. simpl.
  change (clean_step true [] "") with (@nil string).
  rewrite <-(reverse_involutive l) at 2. f_equal.
  rewrite <-(reverse_involutive l) at 1. apply clean_fold_stack.
  apply Forall_reverse in Hl. generalize dependent (reverse l). clear. intros l Hl.
  induction Hl; simpl; auto.
Qed.

Lemma clean_absolute p :
  rootedPath p = true → ∃ l, Forall normal l ∧ Clean p = absPath l ∧ cleanComps p = l.
Proof.
  intros Hp. exists (cleanComps p). unfold Clean. rewrite Hp. split_and!; [|done|done].
  pose proof (cleanComps_ok p) as Hok. rewrite Hp in Hok.
  apply stack_ok_rooted in Hok. by rewrite Forall_reverse in Hok.
Qed.

Lemma rooted_join l : l ≠ [] → Forall no_slash l → ""%string ∉ l → rootedPath (join l) = false.
Proof.
  intros Hne Hl Hnil. destruct (rootedPath (join l)) eqn:E; [|done].
  apply has_prefix_spec in E as [r Hr]. apply (f_equal split) in Hr.
  rewrite split_join in Hr by done. simpl in Hr. subst l. by destruct Hnil; left.
Qed.

Lemma is_abs_clean p : IsAbs (Clean p) = IsAbs p.
Proof.
  unfold IsAbs. destruct (rootedPath p) eqn:E.
  - destruct (clean_absolute p E) as (l&_&->&_). apply rooted_absPath.
  - unfold Clean. rewrite E. destruct (cleanComps_no_slash p).
    destruct (cleanComps p) as [|h t] eqn:Ec; [done|]. by apply rooted_join.
Qed.

Lemma absPath_inj a b : Forall normal a → Forall normal b → absPath a = absPath b → a = b.
Proof.
  intros Ha Hb E. rewrite <-(cleanComps_absPath a Ha), <-(cleanComps_absPath b Hb). by rewrite E.
Qed.

Lemma absPath_under a b :
  Forall normal a → Forall normal b → b ≠ [] →
  has_prefix (absPath a) (absPath b +:+ "/") = true ↔ ∃ c, c ≠ [] ∧ a = b ++ c.
Proof.
  intros Ha Hb Hne. rewrite has_prefix_spec. split.
  - intros [r Hr]. rewrite string_app_assoc in Hr. apply (f_equal split) in Hr.
    rewrite split_app, (split_absPath b) in Hr by auto using normal_no_slash.
    exists (split r). split; [apply split_not_nil|].
    destruct (decide (a = [])) as [->|Hna].
    + change (split (absPath [])) with [""%string; ""%string] in Hr. injection Hr as Hr.
      destruct b as [|x b]; [done|]. injection Hr as <- Hr. inversion Hb as [|? ? (?&_)]; subst. done.
    + rewrite split_absPath in Hr by auto using normal_no_slash. by injection Hr.
  - intros (c&Hc&->). exists (join c). unfold absPath. rewrite join_app by done.
    by rewrite !string_app_assoc.
Qed.

Lemma absPath_root l : Forall normal l → absPath l = "/"%string ↔ l = [].
Proof.
  intros Hl. split; [|by intros ->]. intros E. by apply (absPath_inj l []).
Qed.

Lemma overlap_components a b :
  Forall normal a → Forall normal b →
  PathsOverlap (absPath a) (absPath b) = true ↔ a `prefix_of` b ∨ b `prefix_of` a.
Proof.
  intros Ha Hb. unfold PathsOverlap. rewrite !orb_true_iff, !bool_decide_eq_true.
  rewrite !absPath_root by done. split.
  - intros [[[[E|E]|E]|E]|E].
    + left. exists []. rewrite app_nil_r. symmetry. by apply absPath_inj.
    + left. rewrite E. apply prefix_nil.
    + right. rewrite E. apply prefix_nil.
    + destruct (decide (b = [])) as [->|]; [right; apply prefix_nil|].
      apply absPath_under in E as (c&_&->); [|done..]. right. by exists c.
    + destruct (decide (a = [])) as [->|]; [left; apply prefix_nil|].
      apply absPath_under in E as (c&_&->); [|done..]. left. by exists c.
  - intros [[c ->]|[c ->]].
    + destruct (decide (a = [])) as [->|Hne]; [tauto|].
      destruct (decide (c = [])) as [->|Hc]; [rewrite app_nil_r; tauto|].
      right. apply absPath_under; eauto.
    + destruct (decide (b = [])) as [->|Hne]; [tauto|].
      destruct (decide (c = [])) as [->|Hc]; [rewrite app_nil_r; tauto|].
      left; right. apply absPath_under; eauto.
Qed.

Lemma clean_normal p : Clean (Clean p) = Clean p.
Proof.
  destruct (rootedPath p) eqn:E.
  - destruct (clean_absolute p E) as (l&Hl&->&_). unfold Clean. rewrite rooted_absPath.
    by rewrite cleanComps_absPath.
  - unfold Clean at 2 3. rewrite E. destruct (cleanComps_no_slash p) as [H1 H2].
    destruct (cleanComps p) as [|h t] eqn:Ec; [done|].
    assert (rootedPath (join (h :: t)) = false) as Hr by (by apply rooted_join).
    unfold Clean. rewrite Hr. unfold cleanComps. rewrite Hr, split_join by done.
    pose proof (cleanComps_ok p) as Hok. rewrite E, Ec in Hok.
    rewrite <-(reverse_involutive (h :: t)) at 1 2.
    rewrite clean_fold_stack by done. by rewrite reverse_involutive.
Qed.

(** The string test for overlap is exactly containment of directories:
    two cleaned absolute paths overlap when and only when the components of one
    are a prefix of the components of the other, so "/data" overlaps "/data/x"
    and not "/database". *)
Lemma paths_overlap_is_containment a b :
  IsAbs a = true → IsAbs b = true →
  PathsOverlap (Clean a) (Clean b) = true ↔
  cleanComps a `prefix_of` cleanComps b ∨ cleanComps b `prefix_of` cleanComps a.
Proof.
  intros Ha Hb. destruct (clean_absolute a Ha) as (la&Hla&->&->).
  destruct (clean_absolute b Hb) as (lb&Hlb&->&->). by apply overlap_components.
Qed.

(** ** Volumes: what a normalized declaration satisfies *)

Definition cleanVolume (v : VolumeSpec) : VolumeSpec :=
  mkVolume (VolName v) (Managed v) ((λ h, mkHostPath (Clean (HostPathPath h))) <$> HostPath v).

(** Borrowed directories: absolute, cleaned and not the root. *)
Definition host_ok (p : string) : Prop := IsAbs p = true ∧ p ≠ "/"%string.

Definition volume_ok (v : VolumeSpec) : Prop :=
  volumeName (VolName v) = true ∧
  match Managed v, HostPath v with
  | Some x, None => Persistence x = "none"%string ∨ Persistence x = "sync"%string
  | None, Some h => host_ok (HostPathPath h)
  | _, _ => False
  end.

Definition overlaps (a b : VolumeSpec) : bool :=
  match HostPath a, HostPath b with
  | Some x, Some y => PathsOverlap (HostPathPath x) (HostPathPath y)
  | _, _ => false
  end.

(** Two volumes of one declaration. *)
Definition disjoint_volumes (a b : VolumeSpec) : Prop :=
  VolName a ≠ VolName b ∧ overlaps b a = false.

Lemma PathsOverlap_sym a b : PathsOverlap a b = PathsOverlap b a.
Proof.
  unfold PathsOverlap. apply eq_true_iff_eq. rewrite !orb_true_iff, !bool_decide_eq_true.
  rewrite (eq_comm a b). tauto.
Qed.

Lemma disjoint_volumes_sym a b : disjoint_volumes a b → disjoint_volumes b a.
Proof.
  intros [H1 H2]. split; [done|]. unfold overlaps in *.
  destruct (HostPath a), (HostPath b); try done. by rewrite PathsOverlap_sym.
Qed.

Lemma find_none_forall {A} (f : A → bool) l : find f l = None ↔ Forall (λ x, f x = false) l.
Proof.
  induction l as [|x l IH]; simpl; [done|]. rewrite Forall_cons, <-IH.
  destruct (f x); split; try done; by intros [].
Qed.

Lemma existsb_false_forall {A} (f : A → bool) l : existsb f l = false ↔ Forall (λ x, f x = false) l.
Proof.
  induction l as [|x l IH]; simpl; [done|]. rewrite Forall_cons, <-IH, orb_false_iff. done.
Qed.

Lemma normalizeVolume_spec prev v y :
  normalizeVolume prev v = Ok y ↔
  y = cleanVolume v ∧ volume_ok (cleanVolume v) ∧
  Forall (λ o, disjoint_volumes o (cleanVolume v)) prev.
Proof.
  unfold normalizeVolume, disjoint_volumes. rewrite Forall_and.
  assert (HasVolume prev (VolName v) = false ↔
    Forall (λ o, VolName o ≠ VolName (cleanVolume v)) prev) as Hnames.
  { unfold HasVolume. rewrite existsb_false_forall. apply Forall_proper; [|done].
    intros o. simpl. by rewrite bool_decide_eq_false. }
  rewrite <-Hnames. clear Hnames. unfold volume_ok, overlaps.
  destruct v as [n mgd host]. simpl.
  destruct (volumeName n), (HasVolume prev n); simpl; try (split; [done|]; intros; by split_hyps).
  destruct mgd as [x|], host as [h|]; simpl; try (split; [done|]; intros; by split_hyps).
  - case_bool_decide; (split; [|intros; split_hyps; try done]).
    + intros [= <-]. split_and!; auto. apply Forall_true. done.
    + by subst.
    + done.
  - unfold host_ok. set (p := Clean (HostPathPath h)).
    destruct (IsAbs p), (bool_decide (p = "/"%string)) eqn:Er; simpl;
      try (split; [done|]; intros; split_hyps; by reflect_bools).
    reflect_bools.
    destruct (find _ prev) as [o|] eqn:Ef; simpl.
    + split; [done|]. intros (_&_&_&Hall). exfalso.
      assert (find (λ o, match HostPath o with Some h' => PathsOverlap p (HostPathPath h')
        | None => false end) prev = None) as Hn; [|congruence].
      apply find_none_forall. eapply Forall_impl; [exact Hall|]. intros o' Ho'. simpl in *.
      by destruct (HostPath o').
    + apply find_none_forall in Ef. split; [|by intros (->&_)].
      intros [= <-]. split_and!; auto.
Qed.

Lemma normalize_volumes_iff volumes out :
  NormalizeVolumes volumes = Ok out ↔
  Forall volume_ok (cleanVolume <$> volumes) ∧ pairwise disjoint_volumes (cleanVolume <$> volumes) ∧
  out = merge_sort vol_le (cleanVolume <$> volumes).
Proof.
  unfold NormalizeVolumes.
  pose proof (accumulate_spec normalizeVolume cleanVolume volume_ok disjoint_volumes
    normalizeVolume_spec volumes []) as Hspec.
  destruct (accumulate normalizeVolume [] volumes) as [l|e]; simpl.
  - destruct (proj1 (Hspec l I) eq_refl) as (->&?&?). simpl in *.
    split; [by intros [= <-]|by intros (_&_&->)].
  - split; [done|]. intros (H1&H2&_). by assert (Err e = Ok (cleanVolume <$> volumes)) by (by apply Hspec).
Qed.

(** *** Sorting by name *)

#[export] Instance str_le_total : Total str_le.
Proof. intros a b. apply String.leb_total. Qed.

#[export] Instance str_le_antisymm : AntiSymm (=) str_le.
Proof. intros a b. apply String.leb_antisym. Qed.

Lemma str_le_cons x a y b :
  str_le (String x a) (String y b) ↔
  (N_of_ascii x < N_of_ascii y)%N ∨ x = y ∧ str_le a b.
Proof.
  unfold str_le, String.leb. simpl. unfold Ascii.compare.
  destruct (N.compare_spec (N_of_ascii x) (N_of_ascii y)) as [E|E|E].
  - assert (x = y) as -> by (by rewrite <-(ascii_N_embedding x), <-(ascii_N_embedding y), E).
    split; [by right|]. intros [?|[_ ?]]; [lia|done].
  - split; [by left|done].
  - split; [done|]. intros [?|[-> _]]; lia.
Qed.

#[export] Instance str_le_trans : Transitive str_le.
Proof.
  intros a. induction a as [|x a IH]; intros b c Hab Hbc; [by destruct c|].
  destruct b as [|y b]; [done|]. destruct c as [|z c]; [done|].
  rewrite str_le_cons in *. destruct Hab as [?|[-> ?]], Hbc as [?|[-> ?]]; [left; lia|by left..|].
  right. split; [done|]. by eapply IH.
Qed.

#[export] Instance vol_le_total : Total vol_le.
Proof. intros a b. apply str_le_total. Qed.
#[export] Instance vol_le_trans : Transitive vol_le.
Proof. intros a b c. apply str_le_trans. Qed.
#[export] Instance mount_le_total : Total mount_le.
Proof. intros a b. apply str_le_total. Qed.
#[export] Instance mount_le_trans : Transitive mount_le.
Proof. intros a b c. apply str_le_trans. Qed.

Lemma fmap_fixed {A} (f : A → A) l : Forall (λ x, f x = x) l → f <$> l = l.
Proof. induction 1 as [|x l Hx _ IH]; [done|]. by rewrite fmap_cons, Hx, IH. Qed.

(** A list that is sorted and has distinct keys is what sorting it gives. *)
Lemma merge_sort_fixed {A} (R : relation A) `{!∀ x y, Decision (R x y), !Total R, !Transitive R} l :
  (∀ x y, x ∈ l → y ∈ l → R x y → R y x → x = y) → Sorted R l → merge_sort R l = l.
Proof.
  intros Hanti Hs. apply (Sorted_unique_strong R); [|apply (Sorted_merge_sort _)|done|apply merge_sort_Permutation].
  intros x y Hx Hy. apply Hanti; [|done]. by rewrite merge_sort_Permutation in Hx.
Qed.

Lemma cleanVolume_idem v : cleanVolume (cleanVolume v) = cleanVolume v.
Proof. destruct v as [n m [h|]]; [|done]. unfold cleanVolume. simpl. by rewrite clean_normal. Qed.

(** Normalizing volumes accepts exactly the well-formed declarations
    (valid distinct names, one source each, borrowed directories absolute,
    non-root and not containing each other, persistence none or sync), and the
    result is the same volumes with cleaned host paths, strictly sorted by
    name. *)
Lemma normalize_volumes_exact volumes out :
  NormalizeVolumes volumes = Ok out ↔
  Forall volume_ok (cleanVolume <$> volumes) ∧
  pairwise disjoint_volumes (cleanVolume <$> volumes) ∧
  out ≡ₚ cleanVolume <$> volumes ∧ Sorted vol_le out.
Proof.
  rewrite normalize_volumes_iff. split.
  - intros (?&?&->). split_and!; [done|done|apply merge_sort_Permutation|apply (Sorted_merge_sort _)].
  - intros (H1&H2&Hp&Hs). split_and!; [done|done|].
    apply (Sorted_unique_strong vol_le); [|done|apply (Sorted_merge_sort _)|
      etrans; [exact Hp|symmetry; apply merge_sort_Permutation]].
    intros x y Hx Hy Hxy Hyx. rewrite merge_sort_Permutation in Hy. rewrite Hp in Hx.
    destruct (decide (x = y)) as [?|Hne]; [done|].
    destruct (pairwise_elem _ _ x y disjoint_volumes_sym H2 Hx Hy Hne) as [Hnames _].
    destruct Hnames. by apply (anti_symm str_le).
Qed.

(** Normalization is stable: normalizing an accepted declaration again
    accepts it and returns it unchanged, so a declaration recovered from the
    local record or the snapshot compares equal to the one that was stored. *)
Lemma normalize_volumes_stable volumes out :
  NormalizeVolumes volumes = Ok out → NormalizeVolumes out = Ok out.
Proof.
  rewrite !normalize_volumes_iff. intros (H1&H2&->).
  assert (cleanVolume <$> merge_sort vol_le (cleanVolume <$> volumes) =
    merge_sort vol_le (cleanVolume <$> volumes)) as Hc.
  { apply fmap_fixed, Forall_forall. intros v Hv. rewrite merge_sort_Permutation in Hv.
    apply list_elem_of_fmap in Hv as (v'&->&_). apply cleanVolume_idem. }
  rewrite Hc. split_and!.
  - by rewrite merge_sort_Permutation.
  - eapply pairwise_Permutation; [apply disjoint_volumes_sym|symmetry; apply merge_sort_Permutation|done].
  - symmetry. refine (merge_sort_fixed vol_le _ _ _); [|apply (Sorted_merge_sort _)].
    intros x y. rewrite !merge_sort_Permutation. intros Hx Hy Hxy Hyx.
    destruct (decide (x = y)) as [?|Hne]; [done|].
    destruct (pairwise_elem _ _ x y disjoint_volumes_sym H2 Hx Hy Hne) as [Hnames _].
    destruct Hnames. by apply (anti_symm str_le).
Qed.

(** ** Mounts *)

Definition cleanMount (x : VolumeMount) : VolumeMount :=
  mkMount (MountVolume x) (Clean (MountPath x)) (ReadOnly x).

Definition mount_ok (x : VolumeMount) : Prop :=
  volumeName (MountVolume x) = true ∧ host_ok (MountPath x) ∧
  Forall (λ r, PathsOverlap (MountPath x) r = false) reservedPaths.

Definition disjoint_mounts (a b : VolumeMount) : Prop :=
  MountVolume a ≠ MountVolume b ∧ PathsOverlap (MountPath b) (MountPath a) = false.

Lemma disjoint_mounts_sym a b : disjoint_mounts a b → disjoint_mounts b a.
Proof. intros [H1 H2]. split; [done|]. by rewrite PathsOverlap_sym. Qed.

Lemma validateMountPath_spec p :
  validateMountPath p = Ok tt ↔ host_ok p ∧ Forall (λ r, PathsOverlap p r = false) reservedPaths.
Proof.
  unfold validateMountPath, host_ok. rewrite <-find_none_forall.
  destruct (IsAbs p), (bool_decide (p = "/"%string)) eqn:E; reflect_bools; simpl;
    try (split; [done|]; intros; by split_hyps).
  repeat case_match; split; try done; by intros [_ [=]].
Qed.

Lemma normalizeMount_spec prev x y :
  normalizeMount prev x = Ok y ↔
  y = cleanMount x ∧ mount_ok (cleanMount x) ∧
  Forall (λ o, disjoint_mounts o (cleanMount x)) prev.
Proof.
  unfold normalizeMount, disjoint_mounts, mount_ok. rewrite Forall_and.
  rewrite <-validateMountPath_spec.
  assert (existsb (λ o, bool_decide (MountVolume o = MountVolume x)) prev = false ↔
    Forall (λ o, MountVolume o ≠ MountVolume (cleanMount x)) prev) as Hnames.
  { rewrite existsb_false_forall. apply Forall_proper; [|done].
    intros o. simpl. by rewrite bool_decide_eq_false. }
  rewrite <-Hnames, <-existsb_false_forall. clear Hnames. simpl.
  destruct (volumeName _), (existsb _ prev); simpl; try (split; [done|]; intros; by split_hyps).
  destruct (validateMountPath _) as [[]|]; simpl; [|split; [done|]; intros; by split_hyps].
  destruct (existsb _ prev); simpl; [split; [done|]; intros; by split_hyps|].
  split; [by intros [= <-]|by intros (->&_)].
Qed.

Lemma normalize_mounts_ok mounts out :
  NormalizeMounts mounts = Ok out →
  Forall mount_ok out ∧ pairwise disjoint_mounts out ∧ out ≡ₚ cleanMount <$> mounts ∧
  Sorted mount_le out.
Proof.
  unfold NormalizeMounts. destruct (accumulate _ _ _) as [l|e] eqn:E; [|done].
  intros [= <-]. apply (accumulate_spec normalizeMount cleanMount mount_ok disjoint_mounts
    normalizeMount_spec) in E as (->&H1&H2); [|done]. simpl in *. split_and!.
  - by rewrite merge_sort_Permutation.
  - eapply pairwise_Permutation; [apply disjoint_mounts_sym|symmetry; apply merge_sort_Permutation|done].
  - apply merge_sort_Permutation.
  - apply (Sorted_merge_sort _).
Qed.

Lemma overlap_false_comps a b :
  IsAbs a = true → IsAbs b = true → PathsOverlap (Clean a) (Clean b) = false →
  ¬ cleanComps a `prefix_of` cleanComps b ∧ ¬ cleanComps b `prefix_of` cleanComps a.
Proof.
  intros Ha Hb Ho. destruct (clean_absolute a Ha) as (la&Hla&Ea&->).
  destruct (clean_absolute b Hb) as (lb&Hlb&Eb&->). rewrite Ea, Eb in Ho.
  pose proof (overlap_components la lb Hla Hlb) as Hiff.
  split; intros Hp; (rewrite (proj2 Hiff) in Ho; [done|auto]).
Qed.

(** Accepted mounts are isolated.  After normalization every mount target
    is an absolute non-root directory that neither lies inside nor contains
    /dev, /proc, /sys or the daemon's /.hostel, no two mounts of a Pillow lie
    inside one another, and no volume is mounted twice; the accepted mounts are
    the requested ones with cleaned targets. *)
Lemma accepted_mounts_isolated mounts out :
  NormalizeMounts mounts = Ok out →
  (∀ x r, x ∈ out → r ∈ reservedPaths →
     ¬ cleanComps (MountPath x) `prefix_of` cleanComps r ∧
     ¬ cleanComps r `prefix_of` cleanComps (MountPath x)) ∧
  (∀ x y, x ∈ out → y ∈ out → x ≠ y → MountVolume x ≠ MountVolume y ∧
     ¬ cleanComps (MountPath x) `prefix_of` cleanComps (MountPath y)) ∧
  out ≡ₚ cleanMount <$> mounts.
Proof.
  intros (Hok&Hpair&Hperm&_)%normalize_mounts_ok.
  assert (∀ x, x ∈ out → MountPath x = Clean (MountPath x) ∧ mount_ok x) as Hx.
  { intros x Hx. split; [|by eapply Forall_forall in Hok].
    rewrite Hperm in Hx. apply list_elem_of_fmap in Hx as (x'&->&_). simpl. by rewrite clean_normal. }
  split_and!; [| |done].
  - intros x r Hin Hr. destruct (Hx x Hin) as [Hc (_&[Habs _]&Hres)].
    assert (IsAbs r = true ∧ Clean r = r) as [Hra Hrc].
    { unfold reservedPaths in Hr. repeat (apply elem_of_cons in Hr as [->|Hr]; [done|]).
      by apply elem_of_nil in Hr. }
    apply overlap_false_comps; [done|done|]. rewrite <-Hc, Hrc.
    by eapply Forall_forall in Hres.
  - intros x y Hix Hiy Hne. destruct (Hx x Hix) as [Hcx (_&[Hax _]&_)].
    destruct (Hx y Hiy) as [Hcy (_&[Hay _]&_)].
    destruct (pairwise_elem _ _ y x disjoint_mounts_sym Hpair Hiy Hix) as [Hv Ho]; [done|].
    split; [done|]. apply overlap_false_comps; [done|done|]. rewrite <-Hcx, <-Hcy. by rewrite PathsOverlap_sym.
Qed.

