(* ===== verification/Manager.v ===== *)
(** * Manager: the Bed Manager's state and its critical sections

    Models [internal/bed/manager]: the lifecycle collections of [Manager] and
    the operations that change them ([manager.go], [bed.go], [operation.go],
    [session.go], [renew.go], [lifecycle_state.go], [eviction.go],
    [initialization.go], [purge.go], [component_lifecycle.go], [pillows.go]).

    Each definition is one critical section of the code (the code between
    taking and releasing [m.mu] and [b.mu]), so that an execution of the daemon
    is an interleaving of these definitions; the interleavings are the subject
    of the next file.  The clock reading of a section ([time.Now()]), the cached
    admission verdict and the readiness of the pillows are arguments.
    [RequestStoreSync] posts a wake-up to the Store loop and changes no state
    modelled here. *)

From S2P Require Import Prelude Bed.

(** ** Pointers

    [model.Bed] has an immutable name and a unique generated ID: its pointer is
    the pair.  A [managedBed] and a [bedInitialization] hold an immutable
    pointer to their model; their own pointers are that pointer and a serial.
    A [localIdentity] is created with its model and shares its pointer. *)
Abbreviation mref := (string * N)%type.
Abbreviation bref := (mref * N)%type.
Abbreviation iref := (mref * N)%type.

Definition nameOf (p : mref * N) : string := p.1.1.

(** ** Kinds *)

Inductive OperationKind :=
| OpExec | OpFile | OpBrowser | OpMCP | OpCheckpoint | OpControl | OpPillow.
#[export] Instance OperationKind_eq_dec : EqDecision OperationKind.
Proof. solve_decision. Defined.
#[export] Instance OperationKind_countable : Countable OperationKind.
Proof.
  refine (inj_countable'
    (λ k, match k with OpExec => 0 | OpFile => 1 | OpBrowser => 2 | OpMCP => 3
          | OpCheckpoint => 4 | OpControl => 5 | OpPillow => 6 end%nat)
    (λ n, match n with 0 => OpExec | 1 => OpFile | 2 => OpBrowser | 3 => OpMCP
          | 4 => OpCheckpoint | 5 => OpControl | _ => OpPillow end%nat) _).
  by intros [].
Defined.

Inductive SessionKind := SessionKindShell | SessionKindCDP.

(** ** Objects *)

Record Usage := mkUsage {
  CmdCount : Z; CmdTotalMs : Z; LastPersistMs : Z; LastRestoreMs : Z }.

Record managedBed := mkManagedBed {
  runtimeClosed : bool;
  lastActiveAt : Z;
  idleTTL : Z;
  inflight : Z;
  inflightByKind : gmap OperationKind Z;
  activitySeq : Z;          (* a uint64 counter; 2^64 activities are out of reach *)
  generation : Z;
  persistedAt : Z;
  purging : bool;
  sessions : gmap string SessionKind;
  usage : Usage;
}.

Definition zeroBed : managedBed :=
  mkManagedBed false 0 0 0 ∅ 0 0 0 false ∅ (mkUsage 0 0 0 0).

Record modelBed := mkModel { m_spec : Spec; m_lifecycle : LifecycleStatus }.
Definition zeroModel : modelBed := mkModel (mkSpec None [] SyncNoop false 0) zeroLifecycle.

Record Manager := mkManager {
  closed : bool;
  maxBeds : Z;
  maxPinnedBeds : Z;
  pressurePercent : Z;
  bedIdleTTL : Z;
  beds : gmap string bref;
  initializations : gmap string iref;
  purges : gmap string N;
  retirements : gmap string bref;
  localIdentities : gmap string mref;
  residentBeds : Z;
  pinnedBeds : Z;
  h_beds : gmap bref managedBed;
  h_models : gmap mref modelBed;
}.

(** *** Setters *)

Definition with_closed (m : Manager) (x : bool) : Manager :=
  mkManager x (maxBeds m) (maxPinnedBeds m) (pressurePercent m) (bedIdleTTL m) (beds m)
    (initializations m) (purges m) (retirements m) (localIdentities m) (residentBeds m)
    (pinnedBeds m) (h_beds m) (h_models m).
Definition with_beds (m : Manager) x : Manager :=
  mkManager (closed m) (maxBeds m) (maxPinnedBeds m) (pressurePercent m) (bedIdleTTL m) x
    (initializations m) (purges m) (retirements m) (localIdentities m) (residentBeds m)
    (pinnedBeds m) (h_beds m) (h_models m).
Definition with_initializations (m : Manager) x : Manager :=
  mkManager (closed m) (maxBeds m) (maxPinnedBeds m) (pressurePercent m) (bedIdleTTL m) (beds m)
    x (purges m) (retirements m) (localIdentities m) (residentBeds m)
    (pinnedBeds m) (h_beds m) (h_models m).
Definition with_purges (m : Manager) x : Manager :=
  mkManager (closed m) (maxBeds m) (maxPinnedBeds m) (pressurePercent m) (bedIdleTTL m) (beds m)
    (initializations m) x (retirements m) (localIdentities m) (residentBeds m)
    (pinnedBeds m) (h_beds m) (h_models m).
Definition with_retirements (m : Manager) x : Manager :=
  mkManager (closed m) (maxBeds m) (maxPinnedBeds m) (pressurePercent m) (bedIdleTTL m) (beds m)
    (initializations m) (purges m) x (localIdentities m) (residentBeds m)
    (pinnedBeds m) (h_beds m) (h_models m).
Definition with_localIdentities (m : Manager) x : Manager :=
  mkManager (closed m) (maxBeds m) (maxPinnedBeds m) (pressurePercent m) (bedIdleTTL m) (beds m)
    (initializations m) (purges m) (retirements m) x (residentBeds m)
    (pinnedBeds m) (h_beds m) (h_models m).
Definition with_residentBeds (m : Manager) x : Manager :=
  mkManager (closed m) (maxBeds m) (maxPinnedBeds m) (pressurePercent m) (bedIdleTTL m) (beds m)
    (initializations m) (purges m) (retirements m) (localIdentities m) x
    (pinnedBeds m) (h_beds m) (h_models m).
Definition with_pinnedBeds (m : Manager) x : Manager :=
  mkManager (closed m) (maxBeds m) (maxPinnedBeds m) (pressurePercent m) (bedIdleTTL m) (beds m)
    (initializations m) (purges m) (retirements m) (localIdentities m) (residentBeds m)
    x (h_beds m) (h_models m).
Definition with_h_beds (m : Manager) x : Manager :=
  mkManager (closed m) (maxBeds m) (maxPinnedBeds m) (pressurePercent m) (bedIdleTTL m) (beds m)
    (initializations m) (purges m) (retirements m) (localIdentities m) (residentBeds m)
    (pinnedBeds m) x (h_models m).
Definition with_h_models (m : Manager) x : Manager :=
  mkManager (closed m) (maxBeds m) (maxPinnedBeds m) (pressurePercent m) (bedIdleTTL m) (beds m)
    (initializations m) (purges m) (retirements m) (localIdentities m) (residentBeds m)
    (pinnedBeds m) (h_beds m) x.

(** *** Reading and writing through pointers *)

Definition getBed (m : Manager) (p : bref) : managedBed := default zeroBed (h_beds m !! p).
Definition getModel (m : Manager) (q : mref) : modelBed := default zeroModel (h_models m !! q).
Definition setBed (m : Manager) (p : bref) (b : managedBed) : Manager :=
  with_h_beds m (<[p:=b]> (h_beds m)).
Definition setModel (m : Manager) (q : mref) (x : modelBed) : Manager :=
  with_h_models m (<[q:=x]> (h_models m)).

Definition specOf (m : Manager) (q : mref) : Spec := m_spec (getModel m q).
Definition lifeOf (m : Manager) (q : mref) : LifecycleStatus := m_lifecycle (getModel m q).
Definition phaseOf (m : Manager) (q : mref) : LifecyclePhase := Phase (lifeOf m q).
Definition setLife (m : Manager) (q : mref) (l : LifecycleStatus) : Manager :=
  setModel m q (mkModel (specOf m q) l).

(** [current, ok := m.beds[b.Name]; ok && current == b] *)
Definition isCurrent (m : Manager) (p : bref) : bool :=
  bool_decide (beds m !! nameOf p = Some p).

(** ** Errors *)

Inductive merr :=
| ErrBedUnavailable | ErrResourcePressure | ErrBedLimit | ErrBedPurging
| ErrInvalidExpiration | ErrPillowsConflict | ErrSyncInvalid | ErrCanceled
| ErrBecameResident | ErrNotFound | ErrSaveMeta.
#[export] Instance merr_eq_dec : EqDecision merr.
Proof. solve_decision. Defined.

(** ** Retention clock ([lifecycle_state.go]) *)

Definition setLifecycle (m : Manager) (q : mref) (next : LifecycleStatus) : Manager :=
  setLife m q (mkLifecycle (KeepaliveAt (lifeOf m q)) (Phase next) (Ready next)
    (Reason next) (Message next) (UpdatedAt next)).

Definition keepaliveLocked (m : Manager) (q : mref) (base : Z) : Manager :=
  let s := lifeOf m q in
  if KeepaliveAt s <? base
  then setLife m q (mkLifecycle base (Phase s) (Ready s) (Reason s) (Message s) (UpdatedAt s))
  else setLife m q s.

Definition retentionDeadline (base ttl : Z) : Z :=
  if (ttl <=? 0) || (base =? 0) then 0 else base + ttl.

Definition retainedUntilLocked (m : Manager) (p : bref) : Z :=
  retentionDeadline (KeepaliveAt (lifeOf m p.1)) (idleTTL (getBed m p)).

Definition beginEvictionLocked (m : Manager) (p : bref) (cutoff : option Z)
    (stopPillows : bool) (now : Z) : result merr (bool * Manager) :=
  if closed m || negb (isCurrent m p) || purging (getBed m p) then Err ErrBedUnavailable
  else if negb (bool_decide (phaseOf m p.1 = PhaseResident)) || (0 <? inflight (getBed m p))
  then Ok (false, m)
  else
    let until := retainedUntilLocked m p in
    if match cutoff with Some c => (until =? 0) || (c <? until) | None => false end
    then Ok (false, m)
    else
      let status := mkLifecycle 0 PhaseEvicting (negb stopPillows)
        (if stopPillows then "StoppingPillows" else "Evicting")%string "" now in
      Ok (true, setLifecycle m p.1 status).

(** ** Derived facts ([bed.go]) *)

Inductive OperationActivity := ActivityActive | ActivityIdle.

Definition activityLocked (m : Manager) (p : bref) : OperationActivity :=
  if 0 <? inflight (getBed m p) then ActivityActive else ActivityIdle.

Definition dataSyncedLocked (m : Manager) (p : bref) : bool :=
  bool_decide (StoreKind (specOf m p.1) = SyncNoop) ||
  negb (persistedAt (getBed m p) <? lastActiveAt (getBed m p)).

Definition pinnedLocked (m : Manager) (p : bref) : bool :=
  (0 <? inflight (getBed m p)) || negb (dataSyncedLocked m p).

Definition estimatedRestoreBytes (generation snapshotGeneration snapshotBytes : Z)
    (dataSynced : bool) : Z :=
  if (snapshotBytes <=? 0) || (dataSynced && (snapshotGeneration <=? generation)) then 0
  else snapshotBytes.

Definition setActivity (b : managedBed) (now : Z) : managedBed :=
  mkManagedBed (runtimeClosed b) now (idleTTL b) (inflight b) (inflightByKind b)
    (activitySeq b + 1) (generation b) (persistedAt b) (purging b) (sessions b) (usage b).

Definition touchLocked (m : Manager) (p : bref) (now : Z) : Manager :=
  keepaliveLocked (setBed m p (setActivity (getBed m p) now)) p.1 now.

Definition RecordCommand (m : Manager) (p : bref) (ms : Z) : Manager :=
  let b := getBed m p in let u := usage b in
  setBed m p (mkManagedBed (runtimeClosed b) (lastActiveAt b) (idleTTL b) (inflight b)
    (inflightByKind b) (activitySeq b) (generation b) (persistedAt b) (purging b) (sessions b)
    (mkUsage (CmdCount u + 1) (CmdTotalMs u + ms) (LastPersistMs u) (LastRestoreMs u))).

(** ** Capacity ([manager.go]) *)

Definition bedPressureThreshold (limit percent : Z) : Z :=
  if (limit <=? 0) || (percent <=? 0) then 0 else (limit * percent + 99) / 100.

Definition bedPressureForCounts (m : Manager) (occupied pinned : Z) : bool :=
  if pressurePercent m <=? 0 then false
  else
    let pinnedThreshold := bedPressureThreshold (maxPinnedBeds m) (pressurePercent m) in
    if (0 <? pinnedThreshold) && (pinnedThreshold <=? pinned) then true
    else
      let occupiedThreshold := bedPressureThreshold (maxBeds m) (pressurePercent m) in
      (0 <? occupiedThreshold) && (occupiedThreshold <=? occupied).

(** [allowed] is the verdict of [m.admission.Check()]. *)
Definition resourceAdmissionErrorLocked (allowed : bool) : option merr :=
  if allowed then None else Some ErrResourcePressure.

Definition adjustPinnedLocked (m : Manager) (p : bref) (wasPinned : bool) : Manager :=
  let isPinned := pinnedLocked m p in
  if negb wasPinned && isPinned then with_pinnedBeds m (pinnedBeds m + 1)
  else if wasPinned && negb isPinned then with_pinnedBeds m (pinnedBeds m - 1)
  else m.

(** An entry of [initializations] that occupies a slot: it is initializing and
    its name is not already counted among the retirements. *)
Definition initOccupies (m : Manager) (i : iref) : bool :=
  bool_decide (retirements m !! nameOf i = None) &&
  bool_decide (phaseOf m i.1 = PhaseInitializing).

Definition occupiedBedsLocked (m : Manager) : Z :=
  Z.of_nat (size (beds m)) + Z.of_nat (size (retirements m)) +
  map_count (initOccupies m) (initializations m).

(** ** Operations ([operation.go]) *)

Definition minute : Z := 60 * 10 ^ 9.
Definition DefaultOperationTimeout : Z := 5 * minute.
Definition MaxOperationTimeout : Z := 120 * minute.

Definition clampTimeout (timeout : Z) : Z :=
  let timeout := if timeout <=? 0 then DefaultOperationTimeout else timeout in
  if MaxOperationTimeout <? timeout then MaxOperationTimeout else timeout.

Definition touchBed (m : Manager) (p : bref) (now : Z) : Manager :=
  if isCurrent m p then
    let wasPinned := pinnedLocked m p in
    adjustPinnedLocked (touchLocked m p now) p wasPinned
  else m.

Definition kindCount (b : managedBed) (kind : OperationKind) : Z :=
  default 0 (inflightByKind b !! kind).

Definition startOp (b : managedBed) (kind : OperationKind) (now : Z) : managedBed :=
  mkManagedBed (runtimeClosed b) now (idleTTL b) (inflight b + 1)
    (<[kind := kindCount b kind + 1]> (inflightByKind b))
    (activitySeq b + 1) (generation b) (persistedAt b) (purging b) (sessions b) (usage b).

Definition BeginOperation (m : Manager) (p : bref) (kind : OperationKind) (timeout : Z)
    (now : Z) (allowed : bool) : result merr Manager :=
  let timeout := clampTimeout timeout in
  if negb (isCurrent m p) || closed m then Err ErrBedUnavailable
  else if negb (bool_decide (phaseOf m p.1 = PhaseResident)) then Err ErrBedUnavailable
  else if HasMainProcesses (specOf m p.1) && negb (Ready (lifeOf m p.1)) &&
          negb (bool_decide (kind = OpControl)) then Err ErrBedUnavailable
  else
    let wasPinned := pinnedLocked m p in
    match (if wasPinned then None else resourceAdmissionErrorLocked allowed) with
    | Some e => Err e
    | None =>
        let m := setBed m p (startOp (getBed m p) kind now) in
        let m := adjustPinnedLocked m p wasPinned in
        Ok (keepaliveLocked m p.1 (now + timeout))
    end.

Definition endOp (b : managedBed) (kind : OperationKind) (now : Z) : managedBed :=
  let n := kindCount b kind in
  mkManagedBed (runtimeClosed b)
    (if decide (kind = OpCheckpoint) then lastActiveAt b else now)
    (idleTTL b)
    (if 0 <? inflight b then inflight b - 1 else inflight b)
    (if 1 <? n then <[kind := n - 1]> (inflightByKind b) else delete kind (inflightByKind b))
    (if decide (kind = OpCheckpoint) then activitySeq b else activitySeq b + 1)
    (generation b) (persistedAt b) (purging b) (sessions b) (usage b).

(** The closure returned by [BeginOperation]; [once.Do] makes it run at most
    once per admitted operation. *)
Definition finishOperation (m : Manager) (p : bref) (kind : OperationKind) (now : Z) : Manager :=
  let wasPinned := pinnedLocked m p in
  let m := setBed m p (endOp (getBed m p) kind now) in
  let m := keepaliveLocked m p.1 now in
  if isCurrent m p then adjustPinnedLocked m p wasPinned else m.

(** ** Sessions ([session.go]) *)

Definition setSessions (b : managedBed) (s : gmap string SessionKind) : managedBed :=
  mkManagedBed (runtimeClosed b) (lastActiveAt b) (idleTTL b) (inflight b) (inflightByKind b)
    (activitySeq b) (generation b) (persistedAt b) (purging b) s (usage b).

Definition OpenSession (m : Manager) (p : bref) (sid : string) (kind : SessionKind)
    (now : Z) (allowed : bool) : result merr Manager :=
  if negb (isCurrent m p) || closed m then Err ErrBedUnavailable
  else if HasMainProcesses (specOf m p.1) &&
          (negb (bool_decide (phaseOf m p.1 = PhaseResident)) || negb (Ready (lifeOf m p.1)))
  then Err ErrBedUnavailable
  else
    let wasPinned := pinnedLocked m p in
    match (if wasPinned then None else resourceAdmissionErrorLocked allowed) with
    | Some e => Err e
    | None =>
        let m := touchLocked m p now in
        let m := setBed m p (setSessions (getBed m p) (<[sid:=kind]> (sessions (getBed m p)))) in
        Ok (adjustPinnedLocked m p wasPinned)
    end.

Definition CloseSession (m : Manager) (p : bref) (sid : string) : Manager :=
  setBed m p (setSessions (getBed m p) (delete sid (sessions (getBed m p)))).

(** ** Renewal ([renew.go])

    [expiresAt] carries its zone offset, because [Year()] is read in it. *)
Definition year10000 : Z := 3652059 * 86400 * 10 ^ 9.

Definition RenewExpiration (m : Manager) (p : option bref) (expiresAt : option (Z * Z))
    (now : Z) : result merr (Z * Manager) :=
  match p with
  | None => Err ErrBedUnavailable
  | Some p =>
    if closed m || negb (isCurrent m p) || purging (getBed m p) ||
       negb (bool_decide (phaseOf m p.1 = PhaseResident))
    then Err ErrBedUnavailable
    else if match expiresAt with
            | Some (t, zone) => (t <=? now) || (year10000 <=? t + zone)
            | None => false end
    then Err ErrInvalidExpiration
    else
      let base := match expiresAt with
                  | Some (t, _) => if 0 <? idleTTL (getBed m p) then t - idleTTL (getBed m p) else now
                  | None => now end in
      let m := keepaliveLocked m p.1 base in
      Ok (retainedUntilLocked m p, m)
  end.

(** ** Persistence ([manager.go], persistBed)

    [persistFenced] is the test made once [persistMu] is held; [persistPrepare]
    is the [prepare_snapshot] stage: it bumps the generation ([metaGeneration]
    is the one read from [meta.json], [saved] whether the metadata write
    succeeds) and captures the activity watermark.  [persistCommit] is
    [commit_watermark], reached only after the Store accepted the snapshot. *)
Definition persistFenced (m : Manager) (p : bref) : option merr :=
  if purging (getBed m p) then Some ErrBedPurging else None.

Definition setGeneration (b : managedBed) (g : Z) : managedBed :=
  mkManagedBed (runtimeClosed b) (lastActiveAt b) (idleTTL b) (inflight b) (inflightByKind b)
    (activitySeq b) g (persistedAt b) (purging b) (sessions b) (usage b).

Definition persistPrepare (m : Manager) (p : bref) (metaGeneration : Z) (saved : bool)
  : result merr (Z * Manager) :=
  if negb saved then Err ErrSaveMeta
  else
    let m := setBed m p (setGeneration (getBed m p) (metaGeneration + 1)) in
    Ok (lastActiveAt (getBed m p), m).

Definition setPersisted (b : managedBed) (watermark ms : Z) : managedBed :=
  let u := usage b in
  mkManagedBed (runtimeClosed b) (lastActiveAt b) (idleTTL b) (inflight b) (inflightByKind b)
    (activitySeq b) (generation b) watermark (purging b) (sessions b)
    (mkUsage (CmdCount u) (CmdTotalMs u) ms (LastRestoreMs u)).

Definition persistCommit (m : Manager) (p : bref) (watermark ms : Z) : Manager :=
  let wasPinned := pinnedLocked m p in
  let m := setBed m p (setPersisted (getBed m p) watermark ms) in
  if isCurrent m p then adjustPinnedLocked m p wasPinned else m.

(** The [dirty] test of [persistDirty]. *)
Definition dirtyLocked (m : Manager) (p : bref) : bool :=
  (persistedAt (getBed m p) <? lastActiveAt (getBed m p)) &&
  (inflight (getBed m p) =? 0) &&
  negb (bool_decide (phaseOf m p.1 = PhaseEvicting)) && negb (purging (getBed m p)).

(** ** Pillow readiness ([pillows.go], pillowsChanged) *)
Definition pillowsChanged (m : Manager) (q : mref) (ready : bool) (now : Z) : Manager :=
  let s := lifeOf m q in
  if bool_decide (Phase s = PhaseResident) then
    setLife m q (mkLifecycle (KeepaliveAt s) (Phase s) ready
      (if ready then "Initialized" else "RequiredPillowUnavailable")%string (Message s) now)
  else setLife m q s.

(** ** Eviction ([eviction.go], [manager.go]) *)

(** The deferred recovery of [evictResidentBed]: the test made under the lock,
    and the status write that follows once the pillows were released and
    prepared again ([ready] is what they then report). *)
Definition evictResumable (m : Manager) (p : bref) : bool := negb (closed m) && isCurrent m p.

Definition evictResume (m : Manager) (p : bref) (ready : bool) (now : Z) : Manager :=
  pillowsChanged (setLifecycle m p.1 (mkLifecycle 0 PhaseResident false "" "" now)) p.1 ready now.

(** The atomic recheck before local data is given up; [None] is the refusal. *)
Definition evictCommit (m : Manager) (p : bref) (sequence : Z) : option Manager :=
  if closed m || negb (isCurrent m p) || (0 <? inflight (getBed m p)) ||
     negb (activitySeq (getBed m p) =? sequence)
  then None
  else
    let m := with_retirements m (<[nameOf p := p]> (retirements m)) in
    let m := with_beds m (delete (nameOf p) (beds m)) in
    Some (with_residentBeds m (residentBeds m - 1)).

(** The final section of [finishRetirement]. *)
Definition retirementDone (m : Manager) (p : bref) : Manager :=
  if bool_decide (retirements m !! nameOf p = Some p)
  then with_retirements m (delete (nameOf p) (retirements m)) else m.

(** The scan of [CollectExpired]. *)
Definition staleBeds (m : Manager) (now : Z) : list string :=
  (filter (λ kv : string * bref,
     negb (retainedUntilLocked m kv.2 =? 0) && (retainedUntilLocked m kv.2 <=? now) = true)
     (map_to_list (beds m))).*1.

(** ** Teardown ([component_lifecycle.go]) *)

Definition setRuntimeClosed (b : managedBed) : managedBed :=
  mkManagedBed true (lastActiveAt b) (idleTTL b) (inflight b) (inflightByKind b)
    (activitySeq b) (generation b) (persistedAt b) (purging b) (sessions b) (usage b).

(** Up to the first hook; [initializing] is the phase test made on entry.
    [None] is the early return of an allocation that is already released. *)
Definition teardownStart (m : Manager) (p : bref) (now : Z) : option (Manager * bool) :=
  if runtimeClosed (getBed m p) then None
  else
    let initializing := bool_decide (phaseOf m p.1 = PhaseInitializing) in
    Some (if initializing then m
          else setLifecycle m p.1 (mkLifecycle 0 PhaseEvicting false "RuntimeCleanup" "" now),
          initializing).

(** After the Stop and Release sequences: [failure] carries their error. *)
Definition teardownEnd (m : Manager) (p : bref) (initializing : bool)
    (failure : option string) (now : Z) : Manager :=
  match failure with
  | Some msg =>
      if initializing then m
      else setLifecycle m p.1 (mkLifecycle 0 PhaseEvicting false "CleanupPending" msg now)
  | None =>
      let m := setBed m p (setRuntimeClosed (getBed m p)) in
      if initializing then m
      else
        let retiring := bool_decide (retirements m !! nameOf p = Some p) in
        setLifecycle m p.1
          (if retiring then mkLifecycle 0 PhaseEvicting false "CleanupPending" "" now
           else mkLifecycle 0 PhaseDormant false "RuntimeReleased" "" now)
  end.

(** ** Initialization ([initialization.go], [local_identity.go]) *)

Definition failedInitializationRetention : Z := 10 * minute.

Definition pruneFailedInitializationsLocked (m : Manager) (now : Z) : Manager :=
  with_initializations m (filter (λ ki : string * iref,
    ¬ (phaseOf m ki.2.1 = PhaseFailed ∧
       failedInitializationRetention <= now - UpdatedAt (lifeOf m ki.2.1)))
    (initializations m)).

(** [localIdentityLocked]: the identity of [id], created with the fresh model
    pointer [fresh] when there is none. *)
Definition localIdentityLocked (m : Manager) (id : string) (fresh : N) : mref * Manager :=
  match localIdentities m !! id with
  | Some q => (q, m)
  | None =>
      let q := (id, fresh) in
      (q, with_localIdentities (setModel m q zeroModel) (<[id:=q]> (localIdentities m)))
  end.

Inductive begin_outcome :=
| Began (i : iref)          (* a new initialization was registered *)
| Joined (i : iref)         (* an initialization is already in flight *)
| IsResident (p : bref).    (* the Bed is resident *)

(** The part of [beginInitialization] that runs when the name is neither
    resident nor initializing: the retirement fence, the Store selection, the
    recovered declaration, the retry of a failed attempt, the two admission
    limits, and the registration of the new attempt.  [conflict] compares the
    request with a recovered declaration, whose Pillows are resolved again by
    [resolve] ([m.pillows.Resolve]). *)
Definition beginFresh (m : Manager) (id : string) (spec : Spec)
    (conflict : Spec → option merr) (resolve : list PillowSpec → result merr (list PillowSpec))
    (selection : option merr) (allowed : bool)
    (fresh serial : N) (now : Z) : Manager * result merr begin_outcome :=
  match retirements m !! id with
  | Some _ => (m, Err ErrBedUnavailable)
  | None =>
  match selection with
  | Some e => (m, Err e)
  | None =>
  if bool_decide (0 < length (PersistentVolumeRoots (default [] (Volumes spec))))%nat &&
     bool_decide (StoreKind spec = SyncNoop)
  then (m, Err ErrSyncInvalid)
  else
  let recovered := match localIdentities m !! id with
    | Some q => if bool_decide (Pillows (specOf m q) = []) then None else Some (specOf m q)
    | None => None end in
  match (match recovered with Some actual => conflict actual | None => None end) with
  | Some e => (m, Err e)
  | None =>
  match (match recovered with
         | Some actual =>
             pillows <-! resolve (Pillows actual);
             Ok (mkSpec (match Volumes spec with None => Volumes actual | v => v end)
                   pillows (StoreKind spec) (LocalPresent spec) (LocalGeneration spec))
         | None => Ok spec end) with
  | Err e => (m, Err e)
  | Ok spec =>
  let m := with_initializations m (delete id (initializations m)) in
  if (0 <? maxBeds m) && (maxBeds m <=? occupiedBedsLocked m) then (m, Err ErrBedLimit)
  else match resourceAdmissionErrorLocked allowed with
  | Some e => (m, Err e)
  | None =>
      let '(q, m) := localIdentityLocked m id fresh in
      let m := setModel m q (mkModel spec (lifeOf m q)) in
      let m := setLifecycle m q (mkLifecycle 0 PhaseInitializing false "InitializationQueued" "" now) in
      let i := (q, serial) in
      (with_initializations m (<[id:=i]> (initializations m)), Ok (Began i))
  end end end end end.

(** The locked part of [beginInitialization].  [mismatch] and [conflict] compare
    the request with the declaration of a resident or initializing Bed
    ([checkInitialPolicy], [checkPillows], [checkBedPaths]) and of a recovered
    one ([checkPillows], [checkBedPaths]); [spec] is assembled from the request
    and the local metadata; [selection] is the error of Store selection. *)
Definition beginInitialization (m : Manager) (id : string) (spec : Spec)
    (mismatch conflict : Spec → option merr)
    (resolve : list PillowSpec → result merr (list PillowSpec))
    (selection : option merr) (allowed : bool)
    (fresh serial : N) (now : Z) : Manager * result merr begin_outcome :=
  if closed m then (m, Err ErrBedUnavailable)
  else
    let m := pruneFailedInitializationsLocked m now in
    if bool_decide (is_Some (purges m !! id)) then (m, Err ErrBedPurging)
    else match beds m !! id with
    | Some p =>
        (m, match mismatch (specOf m p.1) with Some e => Err e | None => Ok (IsResident p) end)
    | None =>
        match initializations m !! id with
        | Some i =>
            if bool_decide (phaseOf m i.1 = PhaseInitializing)
            then (m, match mismatch (specOf m i.1) with Some e => Err e | None => Ok (Joined i) end)
            else beginFresh m id spec conflict resolve selection allowed fresh serial now
        | None => beginFresh m id spec conflict resolve selection allowed fresh serial now
        end
    end.

Definition updateInitialization (m : Manager) (i : iref) (reason message : string) (now : Z)
  : Manager :=
  if bool_decide (initializations m !! nameOf i = Some i) &&
     bool_decide (phaseOf m i.1 = PhaseInitializing)
  then setLifecycle m i.1 (mkLifecycle 0 PhaseInitializing false reason message now)
  else m.

(** The declaration write of [preparePaths], made while the attempt prepares:
    [spec] carries the resolved volumes and pillows. *)
Definition setSpec (m : Manager) (q : mref) (spec : Spec) : Manager :=
  setModel m q (mkModel spec (lifeOf m q)).

(** The values [initializeResidentBed] gives the new allocation: [idleTTL] of
    the daemon, activity now, and the watermarks read from the metadata.
    [restored] says whether the local copy was just restored. *)
Definition residentBed (m : Manager) (now metaPersisted metaGeneration : Z) (u : Usage)
    (restored : bool) : managedBed :=
  mkManagedBed false now (bedIdleTTL m) 0 ∅ 0 metaGeneration
    (if restored || (metaPersisted =? 0) then now else metaPersisted) false ∅ u.

Definition publishInitializedBed (m : Manager) (i : iref) (p : bref) (ready : bool) (now : Z)
  : result merr Manager :=
  if closed m || negb (bool_decide (initializations m !! nameOf i = Some i)) ||
     negb (bool_decide (phaseOf m i.1 = PhaseInitializing))
  then Err ErrCanceled
  else match beds m !! nameOf p with
  | Some _ => Err ErrBecameResident
  | None =>
      let m := keepaliveLocked m p.1 now in
      let m := setLifecycle m p.1 (mkLifecycle 0 PhaseResident ready
        (if ready then "Initialized" else "RequiredPillowUnavailable")%string "" now) in
      let m := with_beds m (<[nameOf p := p]> (beds m)) in
      let m := with_initializations m (delete (nameOf p) (initializations m)) in
      let m := with_residentBeds m (residentBeds m + 1) in
      Ok (if pinnedLocked m p then with_pinnedBeds m (pinnedBeds m + 1) else m)
  end.

(** [runInitialization]'s rollback claims the name among the retirements before
    it releases anything, and gives it up when the rollback succeeded. *)
Definition rollbackClaim (m : Manager) (p : bref) : Manager :=
  with_retirements m (<[nameOf p := p]> (retirements m)).
Definition rollbackDone (m : Manager) (p : bref) : Manager :=
  with_retirements m (delete (nameOf p) (retirements m)).

Definition failedReadinessReason (current : string) : string :=
  if bool_decide (current = "InspectingSnapshot" ∨ current = "SelectingBedFSSource")%string
  then "SnapshotInspectionFailed"
  else if bool_decide (current = "RestoringSnapshot")%string then "SnapshotRestoreFailed"
  else if bool_decide (current = "PreparingBedFS")%string then "BedFSPreparationFailed"
  else if bool_decide (current = "PreparingNetwork")%string then "NetworkPreparationFailed"
  else if bool_decide (current = "PreparingResources")%string then "ResourcePreparationFailed"
  else if bool_decide (current = "PublishingResident")%string then "ResidentPublicationFailed"
  else "InitializationFailed".

(** The last section of [finishInitialization].  [failure] is [None] for
    success, [Some (canceled, message)] otherwise; [failedReason] was derived
    from the readiness reason on entry. *)
Definition finishInitialization (m : Manager) (i : iref) (failure : option (bool * string))
    (failedReason : string) (now : Z) : Manager :=
  if bool_decide (initializations m !! nameOf i = Some i) then
    match failure with
    | None => with_initializations m (delete (nameOf i) (initializations m))
    | Some (canceled, msg) =>
        if bool_decide (is_Some (retirements m !! nameOf i)) then
          let m := setLifecycle m i.1 (mkLifecycle 0 PhaseEvicting false "CleanupPending" msg now) in
          with_initializations m (delete (nameOf i) (initializations m))
        else if negb canceled then
          setLifecycle m i.1 (mkLifecycle 0 PhaseFailed false failedReason msg now)
        else with_initializations m (delete (nameOf i) (initializations m))
    end
  else m.

(** The registry part of [cancelInitialization]: a finished attempt is dropped,
    a running one is only signalled (its owner removes it). *)
Definition cancelInitialization (m : Manager) (id : string) : Manager :=
  match initializations m !! id with
  | Some i =>
      if bool_decide (phaseOf m i.1 = PhaseInitializing) then m
      else with_initializations m (delete id (initializations m))
  | None => m
  end.

(** The last section of [removeIdentityTrees], once the privilege hook has
    forgotten the identity and its record is removed. *)
Definition forgetIdentity (m : Manager) (q : mref) (now : Z) : Manager :=
  if bool_decide (localIdentities m !! q.1 = Some q) then
    setLifecycle (with_localIdentities m (delete q.1 (localIdentities m))) q
      (mkLifecycle 0 PhaseDormant false "Forgotten" "" now)
  else m.

(** ** Purge ([purge.go]) *)

Definition beginPurge (m : Manager) (id : string) (token : N) : Manager * N * bool :=
  match purges m !! id with
  | Some current => (m, current, false)
  | None => (with_purges m (<[id:=token]> (purges m)), token, true)
  end.

Definition finishPurge (m : Manager) (id : string) (token : N) : Manager :=
  if bool_decide (purges m !! id = Some token)
  then with_purges m (delete id (purges m)) else m.

Definition setPurging (b : managedBed) : managedBed :=
  mkManagedBed (runtimeClosed b) (lastActiveAt b) (idleTTL b) (inflight b) (inflightByKind b)
    (activitySeq b) (generation b) (persistedAt b) true (sessions b) (usage b).

(** [purgeOwned] takes the Bed out of the resident set. *)
Definition purgeClaim (m : Manager) (id : string) : Manager * option bref :=
  match beds m !! id with
  | None => (m, retirements m !! id)
  | Some p =>
      let m := setBed m p (setPurging (getBed m p)) in
      let m := with_retirements m (<[id:=p]> (retirements m)) in
      let m := with_beds m (delete id (beds m)) in
      let m := with_residentBeds m (residentBeds m - 1) in
      (if pinnedLocked m p then with_pinnedBeds m (pinnedBeds m - 1) else m, Some p)
  end.

(** [purgeOwned]'s last section. *)
Definition purgeDone (m : Manager) (id : string) : Manager :=
  with_retirements m (delete id (retirements m)).

(** ** Access ([initialization.go], Ensure; [status.go], ObserveBed) *)

Inductive ensure_outcome := EnsureResident (p : bref) | EnsureWait (i : iref).

Definition Ensure (m : Manager) (id : string) : result merr ensure_outcome :=
  if closed m then Err ErrBedUnavailable
  else if bool_decide (is_Some (purges m !! id)) then Err ErrBedPurging
  else match beds m !! id with
  | Some p => Ok (EnsureResident p)
  | None =>
      if bool_decide (is_Some (retirements m !! id)) then Err ErrBedUnavailable
      else match initializations m !! id with
      | None => Err ErrNotFound
      | Some i => Ok (EnsureWait i)
      end
  end.

Definition bedModelLocked (m : Manager) (name : string) : option mref :=
  match beds m !! name with
  | Some p => Some p.1
  | None => match retirements m !! name with
            | Some p => Some p.1
            | None => fst <$> initializations m !! name
            end
  end.

(** [initializationLocked] prunes first; [ObserveBed] resolves a name across the
    lifecycle collections in one critical section. *)
Inductive observation :=
| ObsResident (p : bref)
| ObsPurging (token : N) (model : option mref)
| ObsRetiring (p : bref) (model : option mref)
| ObsInitialization (i : iref) (model : option mref).

Definition initializationLocked (m : Manager) (id : string) (now : Z)
  : Manager * option (option mref → observation) :=
  let m := pruneFailedInitializationsLocked m now in
  (m, match purges m !! id with
      | Some t => Some (ObsPurging t)
      | None => match retirements m !! id with
                | Some p => Some (ObsRetiring p)
                | None => ObsInitialization <$> initializations m !! id
                end
      end).

Definition ObserveBed (m : Manager) (name : string) (now : Z) : Manager * option observation :=
  match beds m !! name with
  | Some p => (m, Some (ObsResident p))
  | None =>
      let '(m, o) := initializationLocked m name now in
      (m, (λ mk, mk (bedModelLocked m name)) <$> o)
  end.

Definition bedIdentityInUseLocked (m : Manager) (id : string) : bool :=
  bool_decide (is_Some (beds m !! id)) ||
  match initializations m !! id with
  | Some i => bool_decide (phaseOf m i.1 = PhaseInitializing) | None => false end ||
  bool_decide (is_Some (retirements m !! id)) || bool_decide (is_Some (purges m !! id)).

(** ** A new daemon ([NewManager]) *)
Definition NewManager (maxBeds ttl : Z) : Manager :=
  mkManager false maxBeds maxBeds 80 ttl ∅ ∅ ∅ ∅ ∅ 0 0 ∅ ∅.
