(* ===== verification/ManagerSteps.v ===== *)
(** * ManagerSteps: the daemon as interleaved critical sections

    The goroutines of the Bed Manager (requests, the eviction and persistence
    paths, initialization, purge, shutdown) interleave at the granularity of the
    critical sections of [Manager.v].  [World] adds to the manager the local
    state those goroutines carry between sections; [step] is one section of one
    of them. *)

From S2P Require Import Prelude Bed Manager.

(** What the holder of an allocation's [cleanupMu] is doing: an eviction, whose
    [seq] is the activity sequence read when admission closed, or a teardown
    with the phase test it made on entry. *)
Inductive cleanup_state :=
| EvStarted (seq : Z)             (* admission closed, snapshot not yet committed *)
| EvPersisted (seq : Z)           (* its snapshot is committed *)
| EvResuming                      (* decided to make the Bed resident again *)
| TearingDown (initializing : bool).

(** Where an initialization goroutine stands. *)
Inductive init_stage :=
| Running                     (* preparing the allocation *)
| Prepared (p : bref)         (* [resident] is prepared and not published *)
| RollingBack (p : bref)      (* claimed among the retirements for rollback *)
| Failing                     (* about to publish its failure *)
| Published                   (* resident, about to wake its waiters *)
| Finished.

Definition unfinished (s : init_stage) : bool :=
  match s with Running | Prepared _ | RollingBack _ => true | _ => false end.

Record World := mkWorld {
  mg : Manager;
  handles : list (bref * OperationKind);   (* admitted, unfinished operations *)
  evs : gmap bref cleanup_state;           (* holders of cleanupMu *)
  prs : gmap bref (Z * bool);              (* holders of persistMu: watermark, by evict *)
  stages : gmap iref init_stage;
}.

Definition w_mg (w : World) (m : Manager) : World :=
  mkWorld m (handles w) (evs w) (prs w) (stages w).
Definition w_evs (w : World) x : World := mkWorld (mg w) (handles w) x (prs w) (stages w).
Definition w_prs (w : World) x : World := mkWorld (mg w) (handles w) (evs w) x (stages w).
Definition w_stages (w : World) x : World := mkWorld (mg w) (handles w) (evs w) (prs w) x.
Definition w_handles (w : World) x : World := mkWorld (mg w) x (evs w) (prs w) (stages w).

Definition allocated (m : Manager) (p : bref) : Prop := is_Some (h_beds m !! p).

(** Who may tear an allocation down: the owner of its retirement entry, the
    shutdown path for a resident Bed, and the rollback of its initialization. *)
Definition may_teardown (w : World) (p : bref) : Prop :=
  retirements (mg w) !! nameOf p = Some p ∨
  (closed (mg w) = true ∧ beds (mg w) !! nameOf p = Some p) ∨
  (∃ i, stages w !! i = Some (RollingBack p)).

(** No unfinished initialization is registered under the name. *)
Definition no_unfinished (w : World) (k : string) : Prop :=
  ∀ i s, initializations (mg w) !! k = Some i → stages w !! i = Some s → unfinished s = false.

(** A persistence may prepare at any later time once it passed [persistFenced],
    so preparation carries no condition on [purging].  Forgetting an identity is
    reached only behind the cleanup fence of [cleanLocalIdentity], which keeps
    requests for the name out: its premises are what that fence excludes.  They
    exclude one more interleaving, which the code has and the runs of this relation
    do not: an eviction that finds the retirement entered by a rollback, finishes
    it ([finishRetirement]) and forgets the identity before the rolling back
    goroutine has taken [cleanupMu].  There the rollback finds the runtime closed
    and does nothing more. *)
Inductive step (w : World) : World → Prop :=
(* operations, sessions, renewal *)
| st_begin_op p kind timeout now allowed m' :
    BeginOperation (mg w) p kind timeout now allowed = Ok m' →
    step w (w_handles (w_mg w m') ((p, kind) :: handles w))
| st_finish_op p kind now h1 h2 :
    handles w = h1 ++ (p, kind) :: h2 →
    step w (w_handles (w_mg w (finishOperation (mg w) p kind now)) (h1 ++ h2))
| st_touch p now : step w (w_mg w (touchBed (mg w) p now))
| st_open_session p sid kind now allowed m' :
    OpenSession (mg w) p sid kind now allowed = Ok m' → step w (w_mg w m')
| st_close_session p sid :
    allocated (mg w) p → step w (w_mg w (CloseSession (mg w) p sid))
| st_renew p e now t m' : RenewExpiration (mg w) p e now = Ok (t, m') → step w (w_mg w m')
| st_record p ms : allocated (mg w) p → step w (w_mg w (RecordCommand (mg w) p ms))
| st_pillows q ready now : step w (w_mg w (pillowsChanged (mg w) q ready now))
(* background and checkpoint persistence *)
| st_persist_prepare p g saved t m' :
    allocated (mg w) p → prs w !! p = None →
    persistPrepare (mg w) p g saved = Ok (t, m') →
    step w (w_prs (w_mg w m') (<[p:=(t, false)]> (prs w)))
| st_persist_commit p t ms :
    prs w !! p = Some (t, false) →
    step w (w_prs (w_mg w (persistCommit (mg w) p t ms)) (delete p (prs w)))
| st_persist_fail p x : prs w !! p = Some x → step w (w_prs w (delete p (prs w)))
(* eviction *)
| st_evict_start p cutoff now m' :
    evs w !! p = None →
    beginEvictionLocked (mg w) p cutoff true now = Ok (true, m') →
    step w (w_evs (w_mg w m') (<[p:=EvStarted (activitySeq (getBed (mg w) p))]> (evs w)))
| st_evict_prepare p seq g saved t m' :
    evs w !! p = Some (EvStarted seq) → prs w !! p = None →
    persistPrepare (mg w) p g saved = Ok (t, m') →
    step w (w_prs (w_mg w m') (<[p:=(t, true)]> (prs w)))
| st_evict_persisted p seq t ms :
    evs w !! p = Some (EvStarted seq) → prs w !! p = Some (t, true) →
    step w (w_evs (w_prs (w_mg w (persistCommit (mg w) p t ms)) (delete p (prs w)))
              (<[p:=EvPersisted seq]> (evs w)))
| st_evict_commit p seq m' :
    evs w !! p = Some (EvPersisted seq) → evictCommit (mg w) p seq = Some m' →
    step w (w_evs (w_mg w m') (delete p (evs w)))
| st_evict_giveup p seq :
    evs w !! p = Some (EvStarted seq) ∨ evs w !! p = Some (EvPersisted seq) →
    (∀ t, prs w !! p ≠ Some (t, true)) →
    step w (w_evs w (if evictResumable (mg w) p then <[p:=EvResuming]> (evs w)
                     else delete p (evs w)))
| st_evict_resume p ready now :
    evs w !! p = Some EvResuming →
    step w (w_evs (w_mg w (evictResume (mg w) p ready now)) (delete p (evs w)))
| st_retirement_done p :
    evs w !! p = None → step w (w_mg w (retirementDone (mg w) p))
(* teardown *)
| st_teardown_start p now m' b :
    evs w !! p = None → may_teardown w p → teardownStart (mg w) p now = Some (m', b) →
    step w (w_evs (w_mg w m') (<[p:=TearingDown b]> (evs w)))
| st_teardown_end p b failure now :
    evs w !! p = Some (TearingDown b) →
    step w (w_evs (w_mg w (teardownEnd (mg w) p b failure now)) (delete p (evs w)))
(* initialization *)
| st_begin_init id spec mismatch conflict resolve selection allowed fresh serial now m' i :
    h_models (mg w) !! (id, fresh) = None →
    beginInitialization (mg w) id spec mismatch conflict resolve selection allowed fresh serial now =
      (m', Ok (Began i)) →
    stages w !! i = None →
    step w (w_stages (w_mg w m') (<[i:=Running]> (stages w)))
| st_begin_other id spec mismatch conflict resolve selection allowed fresh serial now m' r :
    beginInitialization (mg w) id spec mismatch conflict resolve selection allowed fresh serial now =
      (m', r) →
    (∀ i, r ≠ Ok (Began i)) → step w (w_mg w m')
| st_update_init i reason msg now :
    step w (w_mg w (updateInitialization (mg w) i reason msg now))
| st_prepare_paths i spec :
    stages w !! i = Some Running → step w (w_mg w (setSpec (mg w) i.1 spec))
| st_prepared i serial now mp g u restored :
    stages w !! i = Some Running → h_beds (mg w) !! (i.1, serial) = None →
    step w (w_stages (w_mg w (setBed (mg w) (i.1, serial) (residentBed (mg w) now mp g u restored)))
              (<[i:=Prepared (i.1, serial)]> (stages w)))
| st_prepare_failed i : stages w !! i = Some Running →
    step w (w_stages w (<[i:=Failing]> (stages w)))
| st_prepare_retired i serial now mp g u restored :
    (* preparation and its rollback both failed: the allocation stays owned *)
    stages w !! i = Some Running → h_beds (mg w) !! (i.1, serial) = None →
    step w (w_stages (w_mg w (rollbackClaim
               (setBed (mg w) (i.1, serial) (residentBed (mg w) now mp g u restored)) (i.1, serial)))
              (<[i:=Failing]> (stages w)))
| st_publish i p ready now m' :
    stages w !! i = Some (Prepared p) → publishInitializedBed (mg w) i p ready now = Ok m' →
    step w (w_stages (w_mg w m') (<[i:=Published]> (stages w)))
| st_rollback_claim i p :
    stages w !! i = Some (Prepared p) →
    step w (w_stages (w_mg w (rollbackClaim (mg w) p)) (<[i:=RollingBack p]> (stages w)))
| st_rollback_done i p :
    stages w !! i = Some (RollingBack p) → evs w !! p = None →
    step w (w_stages (w_mg w (rollbackDone (mg w) p)) (<[i:=Failing]> (stages w)))
| st_rollback_failed i p :
    stages w !! i = Some (RollingBack p) → evs w !! p = None →
    step w (w_stages w (<[i:=Failing]> (stages w)))
| st_finish_init i (failure : option (bool * string)) reason now :
    stages w !! i = Some (match failure with Some _ => Failing | None => Published end) →
    step w (w_stages (w_mg w (finishInitialization (mg w) i failure reason now))
              (<[i:=Finished]> (stages w)))
| st_cancel_init id : step w (w_mg w (cancelInitialization (mg w) id))
| st_prune now : step w (w_mg w (pruneFailedInitializationsLocked (mg w) now))
| st_forget q now :
    beds (mg w) !! q.1 = None → no_unfinished w q.1 →
    step w (w_mg w (forgetIdentity (mg w) q now))
(* purge and shutdown *)
| st_begin_purge id token m' t o :
    beginPurge (mg w) id token = (m', t, o) → step w (w_mg w m')
| st_finish_purge id token : step w (w_mg w (finishPurge (mg w) id token))
| st_purge_local id fresh q m' :
    h_models (mg w) !! (id, fresh) = None →
    localIdentityLocked (mg w) id fresh = (q, m') → step w (w_mg w m')
| st_observe name now m' o : ObserveBed (mg w) name now = (m', o) → step w (w_mg w m')
| st_purge_claim id m' p : purgeClaim (mg w) id = (m', p) → step w (w_mg w m')
| st_purge_done id :
    (∀ p, retirements (mg w) !! id = Some p → evs w !! p = None) →
    step w (w_mg w (purgeDone (mg w) id))
| st_close : step w (w_mg w (with_closed (mg w) true)).

(** A daemon that has started: local identities and their models may have been
    recovered from disk, nothing is resident or in transition. *)
Record initial (w : World) : Prop := {
  init_beds : beds (mg w) = ∅;
  init_inits : initializations (mg w) = ∅;
  init_purges : purges (mg w) = ∅;
  init_rets : retirements (mg w) = ∅;
  init_locals : ∀ k q, localIdentities (mg w) !! k = Some q → q.1 = k;
  init_resident : residentBeds (mg w) = 0;
  init_pinned : pinnedBeds (mg w) = 0;
  init_max : 0 <= maxBeds (mg w);
  init_alloc : h_beds (mg w) = ∅;
  init_handles : handles w = [];
  init_evs : evs w = ∅;
  init_prs : prs w = ∅;
  init_stages : stages w = ∅;
}.

Inductive steps : World → World → Prop :=
| steps_refl w : steps w w
| steps_step w1 w2 w3 : steps w1 w2 → step w2 w3 → steps w1 w3.

Definition reachable (w : World) : Prop := ∃ w0, initial w0 ∧ steps w0 w.

(** ** Reading a written object *)

Section views.
Context (m : Manager).

Lemma getBed_setBed p b p' :
  getBed (setBed m p b) p' = if decide (p = p') then b else getBed m p'.
Proof. unfold getBed, setBed. simpl. rewrite lookup_insert. by case_decide. Qed.

Lemma getModel_setModel q x q' :
  getModel (setModel m q x) q' = if decide (q = q') then x else getModel m q'.
Proof. unfold getModel, setModel. simpl. rewrite lookup_insert. by case_decide. Qed.

Lemma lifeOf_setLife q l q' :
  lifeOf (setLife m q l) q' = if decide (q = q') then l else lifeOf m q'.
Proof. unfold lifeOf, setLife. rewrite getModel_setModel. by case_decide. Qed.

Lemma specOf_setLife q l q' : specOf (setLife m q l) q' = specOf m q'.
Proof.
  unfold specOf, setLife. rewrite getModel_setModel. case_decide; [by subst|done].
Qed.

Lemma specOf_setLifecycle q l q' : specOf (setLifecycle m q l) q' = specOf m q'.
Proof. apply specOf_setLife. Qed.

Lemma specOf_keepalive q t q' : specOf (keepaliveLocked m q t) q' = specOf m q'.
Proof. unfold keepaliveLocked. case_match; apply specOf_setLife. Qed.

Lemma phaseOf_setLifecycle q l q' :
  phaseOf (setLifecycle m q l) q' = if decide (q = q') then Phase l else phaseOf m q'.
Proof. unfold phaseOf, setLifecycle. rewrite lifeOf_setLife. by case_decide. Qed.

Lemma phaseOf_keepalive q t q' : phaseOf (keepaliveLocked m q t) q' = phaseOf m q'.
Proof.
  unfold phaseOf, keepaliveLocked.
  case_match; rewrite lifeOf_setLife; case_decide; by subst.
Qed.

Lemma phaseOf_pillows q r now q' : phaseOf (pillowsChanged m q r now) q' = phaseOf m q'.
Proof.
  unfold phaseOf, pillowsChanged. case_bool_decide; rewrite lifeOf_setLife; case_decide; by subst.
Qed.

Lemma specOf_pillows q r now q' : specOf (pillowsChanged m q r now) q' = specOf m q'.
Proof. unfold pillowsChanged. case_match; apply specOf_setLife. Qed.

Lemma keep_setLifecycle q l q' : KeepaliveAt (lifeOf (setLifecycle m q l) q') = KeepaliveAt (lifeOf m q').
Proof. unfold setLifecycle. rewrite lifeOf_setLife. case_decide; by subst. Qed.

Lemma keep_pillows q r now q' :
  KeepaliveAt (lifeOf (pillowsChanged m q r now) q') = KeepaliveAt (lifeOf m q').
Proof.
  unfold pillowsChanged. destruct (bool_decide _); rewrite lifeOf_setLife; simpl;
    destruct (decide (q = q')); by subst.
Qed.

Lemma keep_keepalive q t q' :
  KeepaliveAt (lifeOf (keepaliveLocked m q t) q') =
    if decide (q = q') then Z.max (KeepaliveAt (lifeOf m q')) t else KeepaliveAt (lifeOf m q').
Proof.
  unfold keepaliveLocked. destruct (Z.ltb_spec (KeepaliveAt (lifeOf m q)) t);
    rewrite lifeOf_setLife; case_decide; subst; simpl; lia.
Qed.
End views.

(** Collections and counters are untouched by writes to objects. *)
Lemma frame_keepalive m q t :
  beds (keepaliveLocked m q t) = beds m ∧
  initializations (keepaliveLocked m q t) = initializations m ∧
  retirements (keepaliveLocked m q t) = retirements m ∧
  h_beds (keepaliveLocked m q t) = h_beds m ∧
  pinnedBeds (keepaliveLocked m q t) = pinnedBeds m ∧
  residentBeds (keepaliveLocked m q t) = residentBeds m ∧
  closed (keepaliveLocked m q t) = closed m ∧
  maxBeds (keepaliveLocked m q t) = maxBeds m ∧
  localIdentities (keepaliveLocked m q t) = localIdentities m.
Proof. unfold keepaliveLocked. by case_match. Qed.

Lemma frame_pillows m q r now :
  beds (pillowsChanged m q r now) = beds m ∧
  initializations (pillowsChanged m q r now) = initializations m ∧
  retirements (pillowsChanged m q r now) = retirements m ∧
  h_beds (pillowsChanged m q r now) = h_beds m ∧
  pinnedBeds (pillowsChanged m q r now) = pinnedBeds m ∧
  residentBeds (pillowsChanged m q r now) = residentBeds m ∧
  closed (pillowsChanged m q r now) = closed m ∧
  maxBeds (pillowsChanged m q r now) = maxBeds m ∧
  localIdentities (pillowsChanged m q r now) = localIdentities m.
Proof. unfold pillowsChanged. by case_match. Qed.
