(* ===== verification/ManagerInv.v ===== *)
(** * ManagerInv: what every interleaving of the Bed Manager preserves

    Invariants of the step relation of [ManagerSteps.v] by rule induction, and
    the safety theorems they give: exact capacity counters, the bed-count limit,
    exclusive lifecycle collections, durability of eviction, monotone
    retention. *)

From S2P Require Import Prelude Bed Manager ManagerSteps.

(** ** Retention never moves backwards *)

Lemma keep_setBed m p b q : lifeOf (setBed m p b) q = lifeOf m q.
Proof. done. Qed.

Lemma lifeOf_adjust m p was q : lifeOf (adjustPinnedLocked m p was) q = lifeOf m q.
Proof. unfold adjustPinnedLocked. by repeat case_match. Qed.

Lemma lifeOf_setSpec m q s q' : lifeOf (setModel m q (mkModel s (lifeOf m q))) q' = lifeOf m q'.
Proof.
  unfold lifeOf. rewrite getModel_setModel. case_decide; by subst.
Qed.

Lemma keep_local m id fresh q m' q' :
  h_models m !! (id, fresh) = None → localIdentityLocked m id fresh = (q, m') →
  lifeOf m' q' = lifeOf m q'.
Proof.
  unfold localIdentityLocked. intros Hf H. destruct (localIdentities m !! id); simplify_eq; [done|].
  change (lifeOf (setModel m (id, fresh) zeroModel) q' = lifeOf m q').
  unfold lifeOf. rewrite getModel_setModel. case_decide; [|done]. subst.
  unfold getModel. by rewrite Hf.
Qed.

Definition keep_le (m m' : Manager) : Prop :=
  ∀ q, KeepaliveAt (lifeOf m q) <= KeepaliveAt (lifeOf m' q).

Section keep_le.
Context (m m1 : Manager).
Hypothesis Hle : keep_le m m1.

Lemma kl_setLifecycle q l : keep_le m (setLifecycle m1 q l).
Proof. intros q'. rewrite keep_setLifecycle. apply Hle. Qed.
Lemma kl_keepalive q t : keep_le m (keepaliveLocked m1 q t).
Proof. intros q'. specialize (Hle q'). rewrite keep_keepalive. case_decide; lia. Qed.
Lemma kl_pillows q r now : keep_le m (pillowsChanged m1 q r now).
Proof. intros q'. rewrite keep_pillows. apply Hle. Qed.
Lemma kl_adjust p was : keep_le m (adjustPinnedLocked m1 p was).
Proof. intros q'. rewrite lifeOf_adjust. apply Hle. Qed.
Lemma kl_setSpec q s : keep_le m (setModel m1 q (mkModel s (lifeOf m1 q))).
Proof. intros q'. rewrite lifeOf_setSpec. apply Hle. Qed.
Lemma kl_setBed p b : keep_le m (setBed m1 p b).
Proof. exact Hle. Qed.
Lemma kl_beds x : keep_le m (with_beds m1 x).
Proof. exact Hle. Qed.
Lemma kl_inits x : keep_le m (with_initializations m1 x).
Proof. exact Hle. Qed.
Lemma kl_rets x : keep_le m (with_retirements m1 x).
Proof. exact Hle. Qed.
Lemma kl_purges x : keep_le m (with_purges m1 x).
Proof. exact Hle. Qed.
Lemma kl_locals x : keep_le m (with_localIdentities m1 x).
Proof. exact Hle. Qed.
Lemma kl_resident x : keep_le m (with_residentBeds m1 x).
Proof. exact Hle. Qed.
Lemma kl_pinned x : keep_le m (with_pinnedBeds m1 x).
Proof. exact Hle. Qed.
Lemma kl_closed x : keep_le m (with_closed m1 x).
Proof. exact Hle. Qed.
End keep_le.

Lemma kl_refl m : keep_le m m.
Proof. intros q. lia. Qed.

Create HintDb keep.
#[export] Hint Resolve kl_refl kl_setLifecycle kl_keepalive kl_pillows kl_adjust kl_setSpec
  kl_setBed kl_beds kl_inits kl_rets kl_purges kl_locals kl_resident kl_pinned kl_closed : keep.

(** Unfold the sections of the code down to the primitive writes. *)
Ltac unfold_ops :=
  unfold BeginOperation, finishOperation, OpenSession, touchBed, touchLocked, CloseSession,
    RenewExpiration, RecordCommand, persistPrepare, persistCommit, beginEvictionLocked,
    evictResume, evictCommit, retirementDone, teardownStart, teardownEnd,
    updateInitialization, setSpec, publishInitializedBed, rollbackClaim, rollbackDone,
    finishInitialization, cancelInitialization, pruneFailedInitializationsLocked,
    forgetIdentity, ObserveBed, initializationLocked, localIdentityLocked, beginPurge, finishPurge, purgeClaim, purgeDone in *.

(** Follow the branches of a section. *)
Ltac run_section :=
  repeat match goal with
  | H : context [match ?x with _ => _ end] |- _ => destruct x eqn:?; simplify_eq
  | |- context [match ?x with _ => _ end] => destruct x eqn:?; simplify_eq
  end.

(** The manager just before a new attempt is registered: failed attempts past
    their retention are gone, and so is the previous attempt of this name. *)
Definition cleared (m : Manager) (id : string) (now : Z) : Manager :=
  let m := pruneFailedInitializationsLocked m now in
  with_initializations m (delete id (initializations m)).

Definition not_initializing (m : Manager) (id : string) : Prop :=
  ∀ i, initializations m !! id = Some i → phaseOf m i.1 ≠ PhaseInitializing.

(** What a call of [beginInitialization] can do. *)
Inductive begin_spec (m : Manager) (id : string) (fresh serial : N) (now : Z)
  : Manager → result merr begin_outcome → Prop :=
| bs_refused r : (∀ i, r ≠ Ok (Began i)) → begin_spec m id fresh serial now m r
| bs_pruned r : (∀ i, r ≠ Ok (Began i)) →
    begin_spec m id fresh serial now (pruneFailedInitializationsLocked m now) r
| bs_cleared r : (∀ i, r ≠ Ok (Began i)) →
    not_initializing (pruneFailedInitializationsLocked m now) id →
    begin_spec m id fresh serial now (cleared m id now) r
| bs_began q m1 spec :
    closed m = false → purges m !! id = None → beds m !! id = None →
    retirements m !! id = None →
    not_initializing (pruneFailedInitializationsLocked m now) id →
    (maxBeds m <= 0 ∨ occupiedBedsLocked (cleared m id now) < maxBeds m) →
    localIdentityLocked (cleared m id now) id fresh = (q, m1) →
    begin_spec m id fresh serial now
      (with_initializations
         (setLifecycle (setModel m1 q (mkModel spec (lifeOf m1 q))) q
            (mkLifecycle 0 PhaseInitializing false "InitializationQueued" "" now))
         (<[id:=(q, serial)]> (initializations m1)))
      (Ok (Began (q, serial))).

Lemma beginFresh_spec m id spec conf res sel allowed fresh serial now m' r :
  closed m = false → purges m !! id = None → beds m !! id = None →
  not_initializing (pruneFailedInitializationsLocked m now) id →
  beginFresh (pruneFailedInitializationsLocked m now) id spec conf res sel allowed fresh serial now
    = (m', r) →
  begin_spec m id fresh serial now m' r.
Proof.
  intros Hc Hp Hb Hni. unfold beginFresh. fold (cleared m id now).
  destruct (retirements _ !! id) eqn:Hr; [intros [= <- <-]; by constructor|].
  destruct sel; [intros [= <- <-]; by constructor|].
  destruct (_ && _); [intros [= <- <-]; by constructor|].
  set (rec := match localIdentities _ !! id with Some _ => _ | None => _ end).
  destruct (match rec with Some _ => _ | None => _ end); [intros [= <- <-]; by constructor|].
  destruct (match rec with Some _ => _ | None => _ end) as [spec'|]; [|intros [= <- <-]; by constructor].
  destruct ((0 <? _) && _) eqn:Hcap; [intros [= <- <-]; by constructor|].
  destruct allowed; simpl; [|intros [= <- <-]; by constructor].
  destruct (localIdentityLocked _ id fresh) as [q m1] eqn:Hl. intros [= <- <-].
  apply bs_began; auto.
  apply andb_false_iff in Hcap as [Hcap|Hcap]; reflect_bools; [left|right]; done.
Qed.

Lemma beginInitialization_spec m id spec mis conf res sel allowed fresh serial now m' r :
  beginInitialization m id spec mis conf res sel allowed fresh serial now = (m', r) →
  begin_spec m id fresh serial now m' r.
Proof.
  unfold beginInitialization.
  destruct (closed m) eqn:Hc; [intros [= <- <-]; by constructor|].
  case_bool_decide as Hp; [intros [= <- <-]; by constructor|].
  apply eq_None_not_Some in Hp.
  destruct (beds _ !! id) eqn:Hb.
  { intros [= <- <-]. apply bs_pruned. by destruct (mis _). }
  destruct (initializations _ !! id) as [i|] eqn:Hi.
  - case_bool_decide as Hph.
    { intros [= <- <-]. apply bs_pruned. by destruct (mis _). }
    intros H. eapply beginFresh_spec; try done. intros i' Hi'. rewrite Hi in Hi'. by simplify_eq.
  - intros H. eapply beginFresh_spec; try done. intros i' Hi'. by rewrite Hi in Hi'.
Qed.

Lemma kl_begin m id fresh serial now m' r :
  h_models m !! (id, fresh) = None ∨ (∀ i, r ≠ Ok (Began i)) →
  begin_spec m id fresh serial now m' r → keep_le m m'.
Proof.
  intros Hf. destruct 1 as [r|r|r|q m1 spec]; unfold cleared, pruneFailedInitializationsLocked;
    eauto with keep.
  destruct Hf as [Hf|Hf]; [|by edestruct Hf].
  assert (keep_le m m1) as Hk; [|eauto with keep].
  intros q'. rewrite (keep_local (cleared m id now) id fresh q m1 q' Hf) by done.
  apply Z.le_refl.
Qed.

(** An observation only prunes failed attempts. *)
Lemma observe_inv m name now m' o :
  ObserveBed m name now = (m', o) → m' = m ∨ m' = pruneFailedInitializationsLocked m now.
Proof. unfold ObserveBed. destruct (beds m !! name); intros [= <- _]; auto. Qed.

Lemma step_keep w w' : step w w' → keep_le (mg w) (mg w').
Proof.
  destruct 1; simpl; try (unfold_ops; run_section; eauto 12 with keep; fail).
  - eapply kl_begin; [|by eapply beginInitialization_spec]. by left.
  - eapply kl_begin; [|by eapply beginInitialization_spec]. by right.
  - intros q'. rewrite (keep_local _ _ _ _ _ q' H H0). lia.
Qed.

(** ** Sections that leave the lifecycle collections and phases alone *)

Record quiet (m m' : Manager) : Prop := {
  qt_beds : beds m' = beds m;
  qt_inits : initializations m' = initializations m;
  qt_rets : retirements m' = retirements m;
  qt_closed : closed m' = closed m;
  qt_max : maxBeds m' = maxBeds m;
  qt_locals : localIdentities m' = localIdentities m;
  qt_resident : residentBeds m' = residentBeds m;
  qt_phase : ∀ q, phaseOf m' q = phaseOf m q;
  qt_alloc : ∀ p, allocated m p → allocated m' p;
}.

Lemma quiet_refl m : quiet m m.
Proof. by split. Qed.

Lemma alloc_setBed m p b p' : allocated m p' → allocated (setBed m p b) p'.
Proof. unfold allocated, setBed. simpl. rewrite lookup_insert_is_Some. destruct (decide (p = p')); auto. Qed.

Section quiet.
Context (m m1 : Manager).
Hypothesis Hq : quiet m m1.

Lemma quiet_setBed p b : quiet m (setBed m1 p b).
Proof. destruct Hq. split; try done. auto using alloc_setBed. Qed.
Lemma quiet_pinned x : quiet m (with_pinnedBeds m1 x).
Proof. destruct Hq. by split. Qed.
Lemma quiet_purges x : quiet m (with_purges m1 x).
Proof. destruct Hq. by split. Qed.
Lemma quiet_adjust p was : quiet m (adjustPinnedLocked m1 p was).
Proof. unfold adjustPinnedLocked. by repeat case_match; try apply quiet_pinned. Qed.
Lemma quiet_keepalive q t : quiet m (keepaliveLocked m1 q t).
Proof.
  destruct Hq, (frame_keepalive m1 q t) as (?&?&?&?&?&?&?&?&?).
  split; try congruence; unfold allocated in *.
  - intros q'. rewrite phaseOf_keepalive. auto.
  - intros p. rewrite H2. auto.
Qed.
Lemma quiet_pillows q r now : quiet m (pillowsChanged m1 q r now).
Proof.
  destruct Hq, (frame_pillows m1 q r now) as (?&?&?&?&?&?&?&?&?).
  split; try congruence; unfold allocated in *.
  - intros q'. rewrite phaseOf_pillows. auto.
  - intros p. rewrite H2. auto.
Qed.
Lemma quiet_setSpec q s : quiet m (setModel m1 q (mkModel s (lifeOf m1 q))).
Proof.
  destruct Hq. split; try done. intros q'. unfold phaseOf. rewrite lifeOf_setSpec.
  by apply qt_phase0.
Qed.
Lemma quiet_same_phase q l : Phase l = phaseOf m1 q → quiet m (setLifecycle m1 q l).
Proof.
  intros Hl. destruct Hq. split; try done. intros q'. rewrite phaseOf_setLifecycle.
  case_decide; subst; [by rewrite Hl|done].
Qed.
End quiet.

Create HintDb quiet.
#[export] Hint Resolve quiet_refl quiet_setBed quiet_pinned quiet_purges quiet_adjust quiet_keepalive
  quiet_pillows quiet_setSpec : quiet.

(** ** Structure of the lifecycle collections *)

Definition residentPhase (m : Manager) (q : mref) : Prop :=
  closed m = true ∨ phaseOf m q = PhaseResident ∨ phaseOf m q = PhaseEvicting.

(** What holds of an initialization goroutine that has not ended its attempt. *)
Definition stage_ok (w : World) (i : iref) (s : init_stage) : Prop :=
  initializations (mg w) !! nameOf i = Some i ∧ phaseOf (mg w) i.1 = PhaseInitializing ∧
  match s with
  | Prepared p => retirements (mg w) !! nameOf i = None ∧ p.1 = i.1 ∧ allocated (mg w) p
  | RollingBack p =>
      (retirements (mg w) !! nameOf i = None ∨ retirements (mg w) !! nameOf i = Some p) ∧
      p.1 = i.1 ∧ allocated (mg w) p
  | _ => retirements (mg w) !! nameOf i = None
  end.

(** No attempt that has not ended holds the allocation. *)
Definition unattempted (w : World) (p : bref) : Prop :=
  ∀ i, stages w !! i ≠ Some (Prepared p) ∧ stages w !! i ≠ Some (RollingBack p).

(** What holds of the allocation whose cleanup lock is taken. *)
Definition cleanup_ok (w : World) (p : bref) (c : cleanup_state) : Prop :=
  allocated (mg w) p ∧
  match c with
  | EvResuming =>
      (beds (mg w) !! nameOf p = Some p ∨ retirements (mg w) !! nameOf p = Some p) ∧
      unattempted w p
  | TearingDown b =>
      may_teardown w p ∧ (b = false → phaseOf (mg w) p.1 ≠ PhaseInitializing)
  | _ => True
  end.

Record struct_inv (w : World) : Prop := {
  sv_bed : ∀ k p, beds (mg w) !! k = Some p →
    nameOf p = k ∧ allocated (mg w) p ∧ retirements (mg w) !! k = None ∧ residentPhase (mg w) p.1;
  sv_ret : ∀ k p, retirements (mg w) !! k = Some p → nameOf p = k ∧ allocated (mg w) p;
  sv_init : ∀ k i, initializations (mg w) !! k = Some i →
    nameOf i = k ∧ beds (mg w) !! k = None ∧ is_Some (stages w !! i);
  sv_run : ∀ i s, stages w !! i = Some s → unfinished s = true → stage_ok w i s;
  sv_clean : ∀ p c, evs w !! p = Some c → cleanup_ok w p c;
  sv_prs : ∀ p x, prs w !! p = Some x → allocated (mg w) p;
  sv_loc : ∀ k q, localIdentities (mg w) !! k = Some q → q.1 = k;
}.

(** *** Sections that only shrink the collections

    [shrinks] is what a section may do without moving a Bed between
    collections: drop finished attempts and released retirements, change the
    phase of a model no unfinished attempt holds, end an attempt. *)
Record shrinks (w w' : World) : Prop := {
  sh_beds : beds (mg w') = beds (mg w);
  sh_inits : initializations (mg w') ⊆ initializations (mg w);
  sh_rets : retirements (mg w') ⊆ retirements (mg w);
  sh_closed : closed (mg w) = true → closed (mg w') = true;
  sh_locals : (∀ k q, localIdentities (mg w) !! k = Some q → q.1 = k) →
    ∀ k q, localIdentities (mg w') !! k = Some q → q.1 = k;
  sh_alloc : ∀ p, allocated (mg w) p → allocated (mg w') p;
  sh_bed_phase : ∀ k p, beds (mg w) !! k = Some p → residentPhase (mg w') p.1;
  sh_not_init : ∀ q, phaseOf (mg w) q ≠ PhaseInitializing → phaseOf (mg w') q ≠ PhaseInitializing;
  sh_stage : ∀ i s, stages w' !! i = Some s → unfinished s = true →
    stages w !! i = Some s ∧ initializations (mg w') !! nameOf i = Some i ∧
    phaseOf (mg w') i.1 = PhaseInitializing;
  sh_dom : ∀ i, is_Some (stages w !! i) → is_Some (stages w' !! i);
  sh_held : ∀ p c, evs w' !! p = Some c →
    (retirements (mg w) !! nameOf p = Some p → retirements (mg w') !! nameOf p = Some p) ∧
    (∀ i, stages w !! i = Some (RollingBack p) → stages w' !! i = Some (RollingBack p));
  sh_evs : ∀ p c, evs w' !! p = Some c → evs w !! p = Some c ∨
    allocated (mg w) p ∧
    match c with
    | EvStarted _ | EvPersisted _ => True
    | EvResuming => beds (mg w) !! nameOf p = Some p
    | TearingDown b => may_teardown w p ∧ (b = false → phaseOf (mg w') p.1 ≠ PhaseInitializing)
    end;
  sh_prs : ∀ p x, prs w' !! p = Some x → allocated (mg w) p;
}.

Lemma subseteq_lookup `{Countable K} {A} (m1 m2 : gmap K A) k x :
  m1 ⊆ m2 → m1 !! k = Some x → m2 !! k = Some x.
Proof. intros. by eapply lookup_weaken. Qed.

Lemma subseteq_lookup_None `{Countable K} {A} (m1 m2 : gmap K A) k :
  m1 ⊆ m2 → m2 !! k = None → m1 !! k = None.
Proof. intros. by eapply lookup_weaken_None. Qed.

Lemma subseteq_lookup_or `{Countable K} {A} (m1 m2 : gmap K A) k x :
  m1 ⊆ m2 → m2 !! k = Some x → m1 !! k = None ∨ m1 !! k = Some x.
Proof.
  intros Hs Hx. destruct (m1 !! k) as [y|] eqn:E; [right|by left].
  eapply subseteq_lookup in E; [|done]. congruence.
Qed.

Lemma may_teardown_shrinks w w' p c :
  shrinks w w' → evs w' !! p = Some c → may_teardown w p → may_teardown w' p.
Proof.
  intros Hs Hp [Hr|[[Hc Hb]|[i Hi]]]; destruct (sh_held _ _ Hs p c Hp) as [H1 H2].
  - left. auto.
  - right; left. rewrite (sh_beds _ _ Hs). split; [by apply (sh_closed _ _ Hs)|done].
  - right; right. exists i. auto.
Qed.

(** No attempt that has not ended holds the model. *)
Definition no_attempt (w : World) (q : mref) : Prop :=
  ∀ i s, stages w !! i = Some s → unfinished s = true → i.1 ≠ q.

Lemma no_attempt_bed w k p : struct_inv w → beds (mg w) !! k = Some p → no_attempt w p.1.
Proof.
  intros Hw Hb i s Hs Hu Hq. destruct (sv_run w Hw i s Hs Hu) as (Hi&_).
  destruct (sv_bed w Hw _ _ Hb) as (Hk&_). destruct (sv_init w Hw _ _ Hi) as (_&Hn&_).
  unfold nameOf in *. rewrite Hq, Hk in Hn. congruence.
Qed.

Lemma unattempted_bed w p :
  struct_inv w → beds (mg w) !! nameOf p = Some p → unattempted w p.
Proof.
  intros Hw Hb i. pose proof (no_attempt_bed w _ p Hw Hb i) as Hno.
  split; intros Hs; apply (Hno _ Hs eq_refl);
    destruct (sv_run w Hw i _ Hs eq_refl) as (_&_&_&?&_); done.
Qed.

Lemma unattempted_shrinks w w' p : shrinks w w' → unattempted w p → unattempted w' p.
Proof.
  intros Hs Hun i. destruct (Hun i) as [H1 H2].
  split; intros Hst; destruct (sh_stage _ _ Hs i _ Hst eq_refl) as [? _]; auto.
Qed.

Lemma struct_shrinks w w' : struct_inv w → shrinks w w' → struct_inv w'.
Proof.
  intros Hw Hs. pose proof Hw as [Hb Hr Hi Hrun Hcl Hp Hl].
  pose proof Hs as [Eb Ei Er Ec El Ea Eph Eni Est Ed Eh Eev Epr].
  split; rewrite ?Eb.
  - intros k p Hk. destruct (Hb k p Hk) as (?&?&?&_).
    split_and!; eauto using subseteq_lookup_None.
  - intros k p Hk. destruct (Hr k p) as [??]; eauto using subseteq_lookup.
  - intros k i Hk. destruct (Hi k i) as (?&?&?); eauto using subseteq_lookup.
  - intros i s Hst Hu. destruct (Est i s Hst Hu) as (Hst'&?&?).
    destruct (Hrun i s Hst' Hu) as (_&_&Hm). split_and!; [done|done|].
    destruct s as [| |p| | |]; try done; [by eapply subseteq_lookup_None|..];
      destruct Hm as (Hm&?&?); split_and!; auto.
    + by eapply subseteq_lookup_None.
    + destruct Hm as [Hm|Hm]; [left; by eapply subseteq_lookup_None|].
      by eapply subseteq_lookup_or.
  - intros p c Hc. unfold cleanup_ok. rewrite Eb.
    destruct (Eev p c Hc) as [Hold|[Hal Hm]].
    + destruct (Hcl p c Hold) as [Hal Hm]. split; [auto|].
      destruct c; try done.
      * destruct Hm as [Hm Hun]. split.
        -- destruct Hm; [by left|right]. by apply (Eh p _ Hc).
        -- by apply (unattempted_shrinks w).
      * destruct Hm as [Ht Hph]. split; [by eapply may_teardown_shrinks|auto].
    + split; [auto|]. destruct c; auto.
      { split; [auto|]. apply (unattempted_shrinks w); [done|]. by apply unattempted_bed. }
      destruct Hm. split; [by eapply may_teardown_shrinks|auto].
  - eauto.
  - by apply El.
Qed.

Lemma isCurrent_spec m p : isCurrent m p = true ↔ beds m !! nameOf p = Some p.
Proof. unfold isCurrent. apply bool_decide_eq_true. Qed.

Lemma shrinks_refl w : struct_inv w → shrinks w w.
Proof.
  intros Hw. split; try done; [..|auto|by apply sv_prs].
  - intros k p Hk. by apply (sv_bed w Hw k).
  - intros i s Hs Hu. by destruct (sv_run w Hw i s Hs Hu) as (?&?&_).
Qed.

Lemma shrinks_same w : struct_inv w → shrinks w (w_mg w (mg w)).
Proof. intros Hw. destruct w. by apply shrinks_refl. Qed.

(** A quiet section, possibly registering a persistence or an eviction. *)
Lemma shr_quiet w m' h' evs' prs' :
  struct_inv w → quiet (mg w) m' →
  (∀ p c, evs' !! p = Some c → evs w !! p = Some c ∨
    allocated (mg w) p ∧
    match c with
    | EvStarted _ | EvPersisted _ => True
    | EvResuming => beds (mg w) !! nameOf p = Some p
    | TearingDown b => may_teardown w p ∧ (b = false → phaseOf (mg w) p.1 ≠ PhaseInitializing)
    end) →
  (∀ p x, prs' !! p = Some x → allocated (mg w) p) →
  shrinks w (mkWorld m' h' evs' prs' (stages w)).
Proof.
  intros Hw [Eb Ei Er Ec Em El Ere Eph Ea] Hev Hpr. 
  split; simpl; rewrite ?Eb, ?Ei, ?Er, ?El; try done.
  - congruence.
  - intros k p Hk. unfold residentPhase. rewrite Ec, Eph. by apply (sv_bed w Hw k).
  - intros q. by rewrite Eph.
  - intros i s Hs Hu. rewrite Eph. destruct (sv_run w Hw i s Hs Hu) as (?&?&_). done.
  - intros p c Hc. rewrite Eph. auto.
Qed.

Definition others_phase (m m' : Manager) (q : mref) : Prop :=
  ∀ q', q' ≠ q → phaseOf m' q' = phaseOf m q'.

Lemma others_setLifecycle m q l : others_phase m (setLifecycle m q l) q.
Proof. intros q' Hq. rewrite phaseOf_setLifecycle. by case_decide. Qed.

Lemma no_attempt_phase w q :
  struct_inv w → phaseOf (mg w) q ≠ PhaseInitializing → no_attempt w q.
Proof. intros Hw Hq i s Hs Hu <-. by destruct (sv_run w Hw i s Hs Hu) as (_&?&_). Qed.

(** A section that writes the phase of one model, and may register a cleanup. *)
Lemma shr_phase w m' q h' evs' prs' :
  struct_inv w →
  beds m' = beds (mg w) → initializations m' = initializations (mg w) →
  retirements m' = retirements (mg w) → (closed (mg w) = true → closed m' = true) →
  localIdentities m' = localIdentities (mg w) →
  (∀ p, allocated (mg w) p → allocated m' p) →
  others_phase (mg w) m' q → phaseOf m' q ≠ PhaseInitializing →
  no_attempt w q →
  (∀ k p, beds (mg w) !! k = Some p → p.1 = q → residentPhase m' q) →
  (∀ p c, evs' !! p = Some c → evs w !! p = Some c ∨
    allocated (mg w) p ∧
    match c with
    | EvStarted _ | EvPersisted _ => True
    | EvResuming => beds (mg w) !! nameOf p = Some p
    | TearingDown b => may_teardown w p ∧ (b = false → phaseOf m' p.1 ≠ PhaseInitializing)
    end) →
  (∀ p x, prs' !! p = Some x → allocated (mg w) p) →
  shrinks w (mkWorld m' h' evs' prs' (stages w)).
Proof.
  intros Hw Eb Ei Er Ec El Ea Eph Hni Hno Hbed Hev Hpr. 
  split; simpl; rewrite ?Eb, ?Ei, ?Er, ?El; try done.
  - intros k p Hk. destruct (decide (p.1 = q)) as [Hq|Hq]; [rewrite Hq; eauto|].
    destruct (sv_bed w Hw k p Hk) as (_&_&_&Hres). unfold residentPhase in *.
    rewrite Eph by done. destruct Hres as [?|?]; [left; auto|by right].
  - intros q' Hq'. destruct (decide (q' = q)) as [->|Hq]; [done|]. by rewrite Eph.
  - intros i s Hs Hu. destruct (sv_run w Hw i s Hs Hu) as (?&?&_).
    rewrite Eph; eauto.
Qed.

Lemma evs_insert w p c (P : bref → cleanup_state → Prop) :
  P p c → ∀ p' c', <[p:=c]> (evs w) !! p' = Some c' → evs w !! p' = Some c' ∨ P p' c'.
Proof. intros Hp p' c' [[-> ->]|[_ ?]]%lookup_insert_Some; auto. Qed.

Lemma evs_delete w p (P : bref → cleanup_state → Prop) :
  ∀ p' c', delete p (evs w) !! p' = Some c' → evs w !! p' = Some c' ∨ P p' c'.
Proof. intros p' c' [_ ?]%lookup_delete_Some; auto. Qed.

Lemma prs_insert w p x :
  struct_inv w → allocated (mg w) p →
  ∀ p' x', <[p:=x]> (prs w) !! p' = Some x' → allocated (mg w) p'.
Proof. intros Hw Hp p' x' [[-> ->]|[_ ?]]%lookup_insert_Some; [done|by eapply sv_prs]. Qed.

Lemma prs_delete w p :
  struct_inv w → ∀ p' x', delete p (prs w) !! p' = Some x' → allocated (mg w) p'.
Proof. intros Hw p' x' [_ ?]%lookup_delete_Some. by eapply sv_prs. Qed.

#[export] Hint Resolve sv_prs prs_insert prs_delete : quiet.

(** What a granted eviction found under the locks. *)
Lemma evict_begun m p cutoff stop now m' :
  beginEvictionLocked m p cutoff stop now = Ok (true, m') →
  closed m = false ∧ beds m !! nameOf p = Some p ∧ purging (getBed m p) = false ∧
  phaseOf m p.1 = PhaseResident ∧ inflight (getBed m p) <= 0 ∧
  (∀ c, cutoff = Some c → retainedUntilLocked m p ≠ 0 ∧ retainedUntilLocked m p <= c) ∧
  ∃ l, Phase l = PhaseEvicting ∧ m' = setLifecycle m p.1 l.
Proof.
  unfold beginEvictionLocked.
  destruct (closed m || _ || _) eqn:E1; [done|].
  destruct (negb _ || _) eqn:E2; [done|].
  destruct (match cutoff with Some _ => _ | None => _ end) eqn:E3; [done|].
  intros [= <-]. reflect_bools. rewrite isCurrent_spec in *.
  split_and!; auto; [|by eexists; split; [|reflexivity]].
  intros c ->. by reflect_bools.
Qed.

Section struct_steps.
Context (w : World).
Hypothesis Hw : struct_inv w.

Lemma evs_allocated p c : evs w !! p = Some c → allocated (mg w) p.
Proof. intros Hc. by destruct (sv_clean w Hw p c Hc). Qed.

Lemma bed_allocated k p : beds (mg w) !! k = Some p → allocated (mg w) p.
Proof. intros Hc. by destruct (sv_bed w Hw _ _ Hc) as (_&?&_). Qed.

Lemma shr_evict_start p cutoff stop now m' h seq :
  beginEvictionLocked (mg w) p cutoff stop now = Ok (true, m') →
  shrinks w (mkWorld m' h (<[p:=EvStarted seq]> (evs w)) (prs w) (stages w)).
Proof.
  intros (_&Hb&_&_&_&_&l&Hl&->)%evict_begun.
  apply (shr_phase w _ p.1); simpl; eauto using no_attempt_bed, others_setLifecycle with quiet.
  - rewrite phaseOf_setLifecycle, decide_True, Hl; done.
  - intros k p' _ _. right; right. by rewrite phaseOf_setLifecycle, decide_True.
  - apply evs_insert. eauto using bed_allocated.
Qed.

(** An eviction that gives up resumes a Bed that is still its own. *)
Lemma shr_evict_giveup p c :
  evs w !! p = Some c →
  shrinks w (w_evs w (if evictResumable (mg w) p then <[p:=EvResuming]> (evs w)
                       else delete p (evs w))).
Proof.
  intros Hc. apply (shr_quiet w); eauto with quiet.
  destruct (evictResumable _ _) eqn:E; [|apply evs_delete].
  apply evs_insert. unfold evictResumable in E. reflect_bools.
  split; [by eapply evs_allocated|by apply isCurrent_spec].
Qed.

Lemma shr_evict_resume p ready now :
  evs w !! p = Some EvResuming →
  shrinks w (w_evs (w_mg w (evictResume (mg w) p ready now)) (delete p (evs w))).
Proof.
  intros Hc. destruct (sv_clean w Hw _ _ Hc) as [Ha [Hm Hun]].
  unfold evictResume. set (m1 := setLifecycle _ _ _).
  destruct (frame_pillows m1 p.1 ready now) as (?&?&?&Eh&?&?&?&?&?).
  assert (phaseOf (pillowsChanged m1 p.1 ready now) p.1 = PhaseResident) as Hph.
  { rewrite phaseOf_pillows. unfold m1. by rewrite phaseOf_setLifecycle, decide_True. }
  apply (shr_phase w _ p.1); simpl; eauto with quiet; try congruence.
  - intros p'. unfold allocated. by rewrite Eh.
  - intros q Hq. rewrite phaseOf_pillows. unfold m1. by apply others_setLifecycle.
  - destruct Hm as [Hb|Hr]; [by eapply no_attempt_bed|].
    intros i s Hs Hu Hq. destruct (sv_run w Hw i s Hs Hu) as (Hi&_&Hs').
    unfold nameOf in *. rewrite Hq in Hs'.
    destruct s; simplify_eq/=; try congruence; destruct Hs' as [Hs' _]; [congruence|].
    destruct Hs' as [?|?]; [congruence|]. simplify_eq. by apply (Hun i).
  - intros. right; by left.
  - apply evs_delete.
Qed.

Lemma shr_teardown_start p now m' b :
  evs w !! p = None → may_teardown w p → teardownStart (mg w) p now = Some (m', b) →
  shrinks w (w_evs (w_mg w m') (<[p:=TearingDown b]> (evs w))).
Proof.
  unfold teardownStart. intros Hn Hm H. destruct (runtimeClosed _); [done|].
  assert (allocated (mg w) p) as Ha.
  { destruct Hm as [Hr|[[_ Hb]|[i Hi]]].
    - by apply (sv_ret w Hw _ _ Hr).
    - by eapply bed_allocated.
    - by destruct (sv_run w Hw i _ Hi eq_refl) as (_&_&_&_&?). }
  case_bool_decide as Hph; simplify_eq.
  - apply (shr_quiet w); eauto with quiet. by apply evs_insert.
  - apply (shr_phase w _ p.1); simpl;
      eauto using no_attempt_phase, others_setLifecycle with quiet.
    + by rewrite phaseOf_setLifecycle, decide_True.
    + intros. right; right. by rewrite phaseOf_setLifecycle, decide_True.
    + apply evs_insert. split_and!; [done..|]. intros _.
      by rewrite phaseOf_setLifecycle, decide_True.
Qed.

Lemma retired_no_bed k p q :
  retirements (mg w) !! k = Some p → p.1 = q → ∀ k' p', beds (mg w) !! k' = Some p' → p'.1 ≠ q.
Proof.
  intros Hr Hq k' p' Hb Hq'. destruct (sv_ret w Hw _ _ Hr) as [Hk _].
  destruct (sv_bed w Hw _ _ Hb) as (Hk'&_&Hno&_). unfold nameOf in *. congruence.
Qed.

Lemma shr_teardown_end p b failure now :
  evs w !! p = Some (TearingDown b) →
  shrinks w (w_evs (w_mg w (teardownEnd (mg w) p b failure now)) (delete p (evs w))).
Proof.
  intros Hc. destruct (sv_clean w Hw _ _ Hc) as [Ha [Hm Hb]].
  destruct b.
  { assert (quiet (mg w) (teardownEnd (mg w) p true failure now))
      by (destruct failure; simpl; eauto with quiet).
    apply (shr_quiet w); eauto with quiet. apply evs_delete. }
  assert (∃ m1 l, quiet (mg w) m1 ∧ teardownEnd (mg w) p false failure now = setLifecycle m1 p.1 l
      ∧ Phase l ≠ PhaseInitializing ∧
      (Phase l ≠ PhaseEvicting → retirements (mg w) !! nameOf p ≠ Some p ∧ Phase l = PhaseDormant))
    as (m1&l&Hq&->&Hl&Hl').
  { destruct failure; simpl; [by eexists _, _; split; [apply quiet_refl|]|].
    eexists _, _. split; [apply quiet_setBed, quiet_refl|]. split; [done|].
    by case_bool_decide. }
  destruct Hq as [Eb Ei Er Ec _ El _ Eph Eal].
  apply (shr_phase w _ p.1); simpl; eauto using no_attempt_phase with quiet; try apply evs_delete.
  - intros q Hq. rewrite others_setLifecycle; auto.
  - by rewrite phaseOf_setLifecycle, decide_True.
  - intros k p' Hk Hp'. destruct (decide (Phase l = PhaseEvicting)) as [?|Hne].
    { right; right. by rewrite phaseOf_setLifecycle, decide_True. }
    destruct (Hl' Hne) as [Hnr _]. left. simpl.
    destruct Hm as [Hr|[[Hcl _]|[i Hi]]]; [done|congruence|].
    destruct (sv_run w Hw i _ Hi eq_refl) as (?&_&_&Hpi&_).
    by edestruct (no_attempt_bed w k p' Hw Hk i _ Hi eq_refl); rewrite Hp'.
Qed.

(** A resident Bed moves to the retirements (eviction commit, purge). *)
Lemma struct_retire p m' h' evs' :
  beds (mg w) !! nameOf p = Some p →
  beds m' = delete (nameOf p) (beds (mg w)) →
  retirements m' = <[nameOf p := p]> (retirements (mg w)) →
  initializations m' = initializations (mg w) → closed m' = closed (mg w) →
  localIdentities m' = localIdentities (mg w) →
  (∀ p', allocated (mg w) p' → allocated m' p') → (∀ q, phaseOf m' q = phaseOf (mg w) q) →
  evs' ⊆ evs w →
  struct_inv (mkWorld m' h' evs' (prs w) (stages w)).
Proof.
  intros Hp Eb Er Ei Ec El Ea Eph Eev. pose proof Hw as [Hb Hr Hi Hrun Hcl Hpr Hl].
  split; simpl; rewrite ?Ei, ?El; try done; [..|eauto].
  - intros k p'. rewrite Eb. intros [Hne Hk]%lookup_delete_Some.
    destruct (Hb k p' Hk) as (?&?&?&Hres). rewrite Er, lookup_insert_ne by done.
    split_and!; auto. unfold residentPhase. by rewrite Ec, Eph.
  - intros k p'. rewrite Er. intros [[<- <-]|[_ Hk]]%lookup_insert_Some.
    + split; [done|]. eauto using bed_allocated.
    + destruct (Hr k p' Hk). auto.
  - intros k i Hk. destruct (Hi k i Hk) as (?&Hn&?). split_and!; try done.
    rewrite Eb. apply lookup_delete_None. by right.
  - intros i s Hs Hu. destruct (Hrun i s Hs Hu) as (Hini&?&Hm).
    assert (nameOf i ≠ nameOf p) as Hne.
    { intros E. destruct (Hi _ _ Hini) as (_&Hn&_). rewrite E in Hn. congruence. }
    unfold stage_ok. simpl. rewrite Ei, Eph, Er, lookup_insert_ne by done.
    split_and!; [done|done|]. destruct s; try done; destruct Hm as (?&?&?); auto.
  - intros p' c Hc. destruct (Hcl p' c) as [Hal Hm]; [by eapply subseteq_lookup|].
    unfold cleanup_ok, may_teardown. simpl. rewrite Eb, Er, Ec, Eph. split; [auto|].
    assert (beds (mg w) !! nameOf p' = Some p' ∨ retirements (mg w) !! nameOf p' = Some p' →
      delete (nameOf p) (beds (mg w)) !! nameOf p' = Some p' ∨
      <[nameOf p:=p]> (retirements (mg w)) !! nameOf p' = Some p') as Hmv.
    { destruct (decide (nameOf p = nameOf p')) as [E|E].
      - rewrite E in Hp |- *. rewrite lookup_insert_eq, lookup_delete_eq.
        destruct (Hb _ _ Hp) as (_&_&?&_). intros [?|?]; right; congruence.
      - rewrite lookup_insert_ne, lookup_delete_ne by done. done. }
    destruct c; try done; [destruct Hm; auto|].
    destruct Hm as [Hm Hph]. split; [|done].
    destruct Hm as [Hm|[[Hclo Hm]|Hm]]; [|..|auto];
      (destruct Hmv as [Hv|Hv]; [auto|..]; [|by left]).
    + apply lookup_delete_Some in Hv as [_ Hv].
      destruct (Hb _ _ Hv) as (_&_&?&_). congruence.
    + auto.
Qed.

Lemma struct_evict_commit p seq m' :
  evictCommit (mg w) p seq = Some m' → struct_inv (w_evs (w_mg w m') (delete p (evs w))).
Proof.
  unfold evictCommit. destruct (_ || _) eqn:E; [done|]. intros [= <-]. reflect_bools.
  apply (struct_retire p); try done; [by apply isCurrent_spec|apply delete_subseteq].
Qed.

Lemma struct_purge_claim id m' p :
  purgeClaim (mg w) id = (m', p) → struct_inv (w_mg w m').
Proof.
  unfold purgeClaim. destruct (beds (mg w) !! id) as [p0|] eqn:Hb; intros H; simplify_eq.
  2:{ by destruct w. }
  destruct (sv_bed w Hw _ _ Hb) as (<-&_).
  by apply (struct_retire p0); try done; destruct (pinnedLocked _ _); try done; intros p' ?;
    apply (alloc_setBed (mg w)).
Qed.

(** An attempt that leaves [Prepared] or [Running] claims its retirement. *)
Lemma struct_claim i s p s' m' :
  stages w !! i = Some s → unfinished s = true → p.1 = i.1 →
  retirements (mg w) !! nameOf i = None →
  beds m' = beds (mg w) → retirements m' = <[nameOf p := p]> (retirements (mg w)) →
  initializations m' = initializations (mg w) → closed m' = closed (mg w) →
  localIdentities m' = localIdentities (mg w) →
  (∀ p', allocated (mg w) p' → allocated m' p') → (∀ q, phaseOf m' q = phaseOf (mg w) q) →
  allocated m' p → s' = RollingBack p ∨ s' = Failing → (∀ p', s ≠ RollingBack p') →
  (∀ p', s = Prepared p' → p' = p) →
  struct_inv (w_stages (w_mg w m') (<[i:=s']> (stages w))).
Proof.
  intros Hst Hu Hpi Hnone Eb Er Ei Ec El Ea Eph Hal Hs' Hnr Hpr'.
  pose proof Hw as [Hb Hr Hi Hrun Hcl Hpr Hl].
  destruct (Hrun i s Hst Hu) as (Hini&Hphi&_).
  assert (nameOf p = nameOf i) as Hname by (unfold nameOf; by rewrite Hpi).
  split; simpl; rewrite ?Ei, ?El, ?Eb; try done; [..|eauto].
  - intros k p' Hk. destruct (Hb k p' Hk) as (?&?&?&Hres).
    destruct (Hi _ _ Hini) as (_&Hnb&_).
    rewrite Er, lookup_insert_ne by (intros <-; congruence).
    split_and!; auto. unfold residentPhase. by rewrite Ec, Eph.
  - intros k p'. rewrite Er. intros [[<- <-]|[_ Hk]]%lookup_insert_Some; [done|].
    destruct (Hr k p' Hk). auto.
  - intros k i' Hk. destruct (Hi k i' Hk) as (?&?&?). split_and!; try done.
    apply lookup_insert_is_Some. destruct (decide (i = i')); auto.
  - intros i' s1 [[<- <-]|[Hne Hs1]]%lookup_insert_Some Hu1; unfold stage_ok; simpl;
      rewrite Ei, Eph, Er.
    + split_and!; [done|done|]. destruct Hs' as [->| ->]; [|done].
      rewrite Hname, lookup_insert_eq. auto.
    + destruct (Hrun i' s1 Hs1 Hu1) as (Hini'&?&Hm).
      rewrite lookup_insert_ne by (intros E; congruence).
      split_and!; [done|done|]. destruct s1; try done; destruct Hm as (?&?&?); auto.
  - intros p' c Hc. destruct (Hcl p' c Hc) as [Hal' Hm].
    unfold cleanup_ok. simpl. rewrite Eb, Er, Eph. split; [auto|].
    destruct c; try done.
    + destruct Hm as [Hm Hun].
      assert (nameOf p ≠ nameOf p') as Hne.
      { destruct (Hi _ _ Hini) as (_&Hnb&_). intros E.
        destruct Hm; congruence. }
      rewrite lookup_insert_ne by done. split; [done|].
      intros j. simpl. destruct (decide (i = j)) as [<-|?].
      * rewrite lookup_insert_eq. destruct Hs' as [->| ->]; split; congruence.
      * rewrite lookup_insert_ne by done. apply Hun.
    + destruct Hm as [Hm Hph]. split; [|done]. unfold may_teardown. simpl. rewrite Eb, Er, Ec.
      destruct Hm as [Hm|[Hm|[j Hj]]]; [left|auto|right; right].
      * rewrite lookup_insert_ne; [done|]. congruence.
      * exists j. rewrite lookup_insert_ne; [done|]. intros <-. apply (Hnr p'). congruence.
Qed.

Lemma struct_rollback_claim i p :
  stages w !! i = Some (Prepared p) →
  struct_inv (w_stages (w_mg w (rollbackClaim (mg w) p)) (<[i:=RollingBack p]> (stages w))).
Proof.
  intros Hs. destruct (sv_run w Hw i _ Hs eq_refl) as (_&_&?&?&?).
  apply (struct_claim i (Prepared p) p); try done; [by left|by intros p' [= ->]].
Qed.

Lemma struct_prepare_retired i serial b :
  stages w !! i = Some Running → h_beds (mg w) !! (i.1, serial) = None →
  struct_inv (w_stages (w_mg w (rollbackClaim (setBed (mg w) (i.1, serial) b) (i.1, serial)))
                (<[i:=Failing]> (stages w))).
Proof.
  intros Hs Hn. destruct (sv_run w Hw i _ Hs eq_refl) as (_&_&?).
  apply (struct_claim i Running (i.1, serial)); try done; [apply alloc_setBed| |by right].
  unfold allocated. simpl. by rewrite lookup_insert_eq.
Qed.

(** Releasing a retirement whose cleanup lock is free. *)
Lemma shr_release m' k stages' :
  beds m' = beds (mg w) → retirements m' = delete k (retirements (mg w)) →
  initializations m' = initializations (mg w) → closed m' = closed (mg w) →
  localIdentities m' = localIdentities (mg w) → h_beds m' = h_beds (mg w) →
  h_models m' = h_models (mg w) →
  (∀ p, retirements (mg w) !! k = Some p → evs w !! p = None) →
  (∀ i s, stages' !! i = Some s → unfinished s = true → stages w !! i = Some s) →
  (∀ i, is_Some (stages w !! i) → is_Some (stages' !! i)) →
  (∀ i p, stages w !! i = Some (RollingBack p) → is_Some (evs w !! p) →
     stages' !! i = Some (RollingBack p)) →
  shrinks w (w_stages (w_mg w m') stages').
Proof.
  intros Eb Er Ei Ec El Eh Em Hfree Hst Hdom Hroll. 
  assert (∀ q, phaseOf m' q = phaseOf (mg w) q) as Eph.
  { intros q. unfold phaseOf, lifeOf, getModel. by rewrite Em. }
  split; simpl; rewrite ?Eb, ?Er, ?Ei, ?El; try done.
  - apply delete_subseteq.
  - congruence.
  - intros p. unfold allocated. by rewrite Eh.
  - intros k' p Hk. unfold residentPhase. rewrite Ec, Eph. by apply (sv_bed w Hw k').
  - intros q. by rewrite Eph.
  - intros i s Hs Hu. pose proof (Hst i s Hs Hu) as Hs'.
    destruct (sv_run w Hw i s Hs' Hu) as (?&?&_). by rewrite Eph.
  - intros p c Hc. split; [|eauto]. intros Hr. apply lookup_delete_Some. split; [|done].
    intros ->. specialize (Hfree _ Hr). congruence.
  - auto.
  - by apply sv_prs.
Qed.

Lemma shr_retirement_done p :
  evs w !! p = None → shrinks w (w_mg w (retirementDone (mg w) p)).
Proof.
  intros He. unfold retirementDone. case_bool_decide as Hr; [|by apply shrinks_same].
  apply (shr_release _ (nameOf p) (stages w)); try done. intros p' ?. congruence.
Qed.

Lemma shr_purge_done id :
  (∀ p, retirements (mg w) !! id = Some p → evs w !! p = None) →
  shrinks w (w_mg w (purgeDone (mg w) id)).
Proof. intros He. by apply (shr_release _ id (stages w)). Qed.

(** Ending an attempt. *)
Lemma ended_stages i s s' :
  stages w !! i = Some s → unfinished s' = false →
  (∀ p, s = RollingBack p → evs w !! p = None) →
  (∀ j t, <[i:=s']> (stages w) !! j = Some t → unfinished t = true → stages w !! j = Some t) ∧
  (∀ j, is_Some (stages w !! j) → is_Some (<[i:=s']> (stages w) !! j)) ∧
  (∀ j p, stages w !! j = Some (RollingBack p) → is_Some (evs w !! p) →
     <[i:=s']> (stages w) !! j = Some (RollingBack p)).
Proof.
  intros Hs Hs' Hev. split_and!.
  - intros j t [[<- <-]|[_ ?]]%lookup_insert_Some ?; congruence.
  - intros j ?. apply lookup_insert_is_Some. destruct (decide (i = j)); auto.
  - intros j p Hj [c Hc]. rewrite lookup_insert_ne; [done|]. intros <-.
    rewrite (Hev p) in Hc; congruence.
Qed.

Lemma shr_rollback_done i p :
  stages w !! i = Some (RollingBack p) → evs w !! p = None →
  shrinks w (w_stages (w_mg w (rollbackDone (mg w) p)) (<[i:=Failing]> (stages w))).
Proof.
  intros Hs He. destruct (sv_run w Hw i _ Hs eq_refl) as (_&_&Hr&Hp&_).
  destruct (ended_stages i _ Failing Hs eq_refl) as (?&?&?); [by intros ? [= ->]|].
  apply (shr_release _ (nameOf p)); try done.
  intros p' Hp'. unfold nameOf in *. rewrite Hp in Hp'. destruct Hr; congruence.
Qed.

(** The attempt gives up; its retirement, if any, stays. *)
Lemma shr_stage_end i s s' :
  stages w !! i = Some s → unfinished s' = false →
  (∀ p, s = RollingBack p → evs w !! p = None) →
  shrinks w (w_stages w (<[i:=s']> (stages w))).
Proof.
  intros Hs Hs' He. destruct (ended_stages i s s' Hs Hs' He) as (H1&H2&H3).
   split; simpl; try done.
  - intros k p Hk. by apply (sv_bed w Hw k).
  - intros j t Hj Hu. pose proof (H1 j t Hj Hu) as Hj'.
    by destruct (sv_run w Hw j t Hj' Hu) as (?&?&_).
  - intros p c Hc. eauto.
  - auto.
  - by apply sv_prs.
Qed.

(** Dropping attempts that have ended. *)
Lemma shr_inits x :
  x ⊆ initializations (mg w) →
  (∀ i s, stages w !! i = Some s → unfinished s = true → x !! nameOf i = Some i) →
  shrinks w (w_mg w (with_initializations (mg w) x)).
Proof.
  intros Hx Hk.  split; simpl; try done.
  - intros k p ?. by apply (sv_bed w Hw k).
  - intros i s Hs Hu. destruct (sv_run w Hw i s Hs Hu) as (_&?&_). eauto.
  - auto.
  - by apply sv_prs.
Qed.

Lemma prune_keeps now i :
  initializations (mg w) !! nameOf i = Some i → phaseOf (mg w) i.1 = PhaseInitializing →
  initializations (pruneFailedInitializationsLocked (mg w) now) !! nameOf i = Some i.
Proof.
  intros Hi Hp. simpl. apply map_lookup_filter_Some. split; [done|]. simpl.
  intros [Hf _]. congruence.
Qed.

Lemma prune_subseteq now :
  initializations (pruneFailedInitializationsLocked (mg w) now) ⊆ initializations (mg w).
Proof. apply map_filter_subseteq. Qed.

Lemma shr_prune now : shrinks w (w_mg w (pruneFailedInitializationsLocked (mg w) now)).
Proof.
  apply shr_inits; [apply prune_subseteq|]. intros i s Hs Hu.
  destruct (sv_run w Hw i s Hs Hu) as (?&?&_). by apply (prune_keeps now).
Qed.

Lemma cleared_keeps id now i s :
  not_initializing (pruneFailedInitializationsLocked (mg w) now) id →
  stages w !! i = Some s → unfinished s = true →
  nameOf i ≠ id ∧ initializations (cleared (mg w) id now) !! nameOf i = Some i.
Proof.
  intros Hni Hs Hu. destruct (sv_run w Hw i s Hs Hu) as (Hi&Hp&_).
  pose proof (prune_keeps now i Hi Hp) as Hpr.
  assert (nameOf i ≠ id) as Hne by (intros <-; by apply (Hni i)).
  split; [done|]. unfold cleared. simpl. rewrite lookup_delete_ne by done. apply Hpr.
Qed.

Lemma shr_cleared id now :
  not_initializing (pruneFailedInitializationsLocked (mg w) now) id →
  shrinks w (w_mg w (cleared (mg w) id now)).
Proof.
  intros Hni. apply shr_inits.
  - etrans; [apply delete_subseteq|apply prune_subseteq].
  - intros i s Hs Hu. by apply (cleared_keeps id now i s).
Qed.

Lemma shr_begin_other id fresh serial now m' r :
  begin_spec (mg w) id fresh serial now m' r → (∀ i, r ≠ Ok (Began i)) → shrinks w (w_mg w m').
Proof.
  intros [?|?|? _ ?|] Hr; [by apply shrinks_same|apply shr_prune|by apply shr_cleared|].
  by edestruct Hr.
Qed.

Lemma shr_cancel id : shrinks w (w_mg w (cancelInitialization (mg w) id)).
Proof.
  unfold cancelInitialization. destruct (initializations _ !! id) as [i|] eqn:Hi; [|by apply shrinks_same].
  case_bool_decide as Hp; [by apply shrinks_same|]. apply shr_inits; [apply delete_subseteq|].
  intros j s Hs Hu. destruct (sv_run w Hw j s Hs Hu) as (?&?&_).
  rewrite lookup_delete_ne; [done|]. congruence.
Qed.

Lemma shr_forget q now :
  beds (mg w) !! q.1 = None → no_unfinished w q.1 →
  shrinks w (w_mg w (forgetIdentity (mg w) q now)).
Proof.
  intros Hb Hno. unfold forgetIdentity. case_bool_decide as Hq; [|by apply shrinks_same].
  assert (no_attempt w q) as Hna.
  { intros i s Hs Hu <-. destruct (sv_run w Hw i s Hs Hu) as (Hi&_).
    specialize (Hno i s Hi Hs). congruence. }
  assert (∀ k p, beds (mg w) !! k = Some p → p.1 ≠ q) as Hnb.
  { intros k p Hk Hpq. destruct (sv_bed w Hw k p Hk) as (<-&_).
    unfold nameOf in Hk. rewrite Hpq in Hk. congruence. }
   set (m' := setLifecycle _ _ _).
  assert (∀ q', phaseOf m' q' = if decide (q = q') then PhaseDormant else phaseOf (mg w) q') as Eph.
  { intros q'. unfold m'. rewrite phaseOf_setLifecycle. by case_decide. }
  split; simpl; try done.
  - intros Hl k q' [_ ?]%lookup_delete_Some. auto.
  - intros k p Hk. destruct (sv_bed w Hw k p Hk) as (_&_&_&Hres).
    unfold residentPhase. rewrite Eph, decide_False by (intros E; by apply (Hnb k p Hk)). done.
  - intros q'. rewrite Eph. by case_decide.
  - intros i s Hs Hu. destruct (sv_run w Hw i s Hs Hu) as (?&?&_).
    rewrite Eph, decide_False by (intros E; by apply (Hna i s Hs Hu)). done.
  - auto.
  - by apply sv_prs.
Qed.

(** An identity created for a purge. *)
Lemma shr_local id fresh q m' :
  h_models (mg w) !! (id, fresh) = None → localIdentityLocked (mg w) id fresh = (q, m') →
  shrinks w (w_mg w m').
Proof.
  intros Hf Hl. assert (∀ q', phaseOf m' q' = phaseOf (mg w) q') as Eph.
  { intros q'. unfold phaseOf. by rewrite (keep_local _ _ _ _ _ q' Hf Hl). }
  unfold localIdentityLocked in Hl. destruct (localIdentities (mg w) !! id) as [q0|]; simplify_eq;
    [by apply shrinks_same|].
  split; simpl; try done.
  - intros Hl k q [[<- <-]|[_ ?]]%lookup_insert_Some; [done|auto].
  - intros k p Hk. unfold residentPhase. simpl. rewrite Eph. by apply (sv_bed w Hw k).
  - intros q'. by rewrite Eph.
  - intros i s Hs Hu. rewrite Eph. by destruct (sv_run w Hw i s Hs Hu) as (?&?&_).
  - auto.
  - by apply sv_prs.
Qed.

Lemma shr_close : shrinks w (w_mg w (with_closed (mg w) true)).
Proof.
   split; simpl; try done.
  - intros. by left.
  - intros i s Hs Hu. by destruct (sv_run w Hw i s Hs Hu) as (?&?&_).
  - auto.
  - by apply sv_prs.
Qed.

Lemma struct_prepared i serial b :
  stages w !! i = Some Running → h_beds (mg w) !! (i.1, serial) = None →
  struct_inv (w_stages (w_mg w (setBed (mg w) (i.1, serial) b))
                (<[i:=Prepared (i.1, serial)]> (stages w))).
Proof.
  intros Hst Hnew. pose proof Hw as [Hb Hr Hi Hrun Hcl Hpr Hl].
  destruct (Hrun i _ Hst eq_refl) as (Hini&Hph&Hnone).
  assert (∀ p, allocated (mg w) p → p ≠ (i.1, serial)) as Hne.
  { intros p [x Hx] ->. congruence. }
  split; simpl; try done.
  - intros k p Hk. destruct (Hb k p Hk) as (?&?&?&?). eauto using alloc_setBed.
  - intros k p Hk. destruct (Hr k p Hk). eauto using alloc_setBed.
  - intros k j Hk. destruct (Hi k j Hk) as (?&?&?). split_and!; try done.
    apply lookup_insert_is_Some. destruct (decide (i = j)); auto.
  - intros j s [[<- <-]|[_ Hs]]%lookup_insert_Some Hu.
    + split_and!; try done. unfold allocated. simpl. by rewrite lookup_insert_eq.
    + destruct (Hrun j s Hs Hu) as (?&?&Hm). split_and!; try done.
      destruct s; try done; destruct Hm as (?&?&?); split_and!; try done; by apply alloc_setBed.
  - intros p c Hc. destruct (Hcl p c Hc) as [Hal Hm]. split; [by apply alloc_setBed|].
    destruct c; try done.
    + destruct Hm as [Hm Hun]. split; [done|]. intros j. specialize (Hun j). simpl.
      rewrite lookup_insert. case_decide; [|done]. split; [|done].
      intros [= <-]. by apply (Hne _ Hal).
    + destruct Hm as [Hm ?]. split; [|done]. destruct Hm as [?|[?|[j Hj]]]; [by left|by right; left|].
      right; right. exists j. simpl. rewrite lookup_insert_ne; [done|]. intros <-. congruence.
  - intros p x Hx. apply alloc_setBed. eauto.
Qed.

Lemma publish_inv m i p ready now m' :
  publishInitializedBed m i p ready now = Ok m' →
  closed m = false ∧ initializations m !! nameOf i = Some i ∧
  phaseOf m i.1 = PhaseInitializing ∧ beds m !! nameOf p = None ∧
  beds m' = <[nameOf p := p]> (beds m) ∧
  initializations m' = delete (nameOf p) (initializations m) ∧
  retirements m' = retirements m ∧ closed m' = closed m ∧
  localIdentities m' = localIdentities m ∧ h_beds m' = h_beds m ∧
  phaseOf m' p.1 = PhaseResident ∧ others_phase m m' p.1.
Proof.
  unfold publishInitializedBed. destruct (_ || _) eqn:E; [done|].
  destruct (beds m !! nameOf p) eqn:Hb; [done|]. intros [= <-]. reflect_bools.
  set (l := mkLifecycle 0 PhaseResident _ _ _ _).
  destruct (frame_keepalive m p.1 now) as (Eb&Ei&Er&Eh&?&?&Ec&?&El).
  assert (phaseOf (setLifecycle (keepaliveLocked m p.1 now) p.1 l) p.1 = PhaseResident) as Hph.
  { by rewrite phaseOf_setLifecycle, decide_True. }
  assert (others_phase m (setLifecycle (keepaliveLocked m p.1 now) p.1 l) p.1) as Hoth.
  { intros q Hq. rewrite others_setLifecycle by done. apply phaseOf_keepalive. }
  destruct (pinnedLocked _ _); split_and!; try done; simpl; congruence.
Qed.

Lemma struct_publish i p ready now m' :
  stages w !! i = Some (Prepared p) → publishInitializedBed (mg w) i p ready now = Ok m' →
  struct_inv (w_stages (w_mg w m') (<[i:=Published]> (stages w))).
Proof.
  intros Hst (Hclo&_&_&Hnb&Eb&Ei&Er&Ec&El&Eh&Ephr&Eph)%publish_inv.
  pose proof Hw as [Hb Hr Hi Hrun Hcl Hpr Hl].
  destruct (Hrun i _ Hst eq_refl) as (Hini&Hph&Hnone&Hpi&Hal).
  assert (nameOf p = nameOf i) as Hname by (unfold nameOf; by rewrite Hpi).
  rewrite Hname in *.
  assert (∀ p', allocated (mg w) p' ↔ allocated m' p') as Ea.
  { intros p'. unfold allocated. by rewrite Eh. }
  assert (∀ k p', beds (mg w) !! k = Some p' → p'.1 ≠ p.1) as Hother.
  { intros k p' Hk E. destruct (Hb k p' Hk) as (<-&_). unfold nameOf in *. congruence. }
  split; simpl; rewrite ?Er, ?El; try done.
  - intros k p'. rewrite Eb. intros [[<- <-]|[Hne Hk]]%lookup_insert_Some.
    + split_and!; [done|by apply Ea|done|]. right; by left.
    + destruct (Hb k p' Hk) as (?&?&?&Hres). split_and!; [done|by apply Ea|done|].
      unfold residentPhase. rewrite Ec, Eph by eauto. done.
  - intros k p' Hk. destruct (Hr k p' Hk). split; [done|by apply Ea].
  - intros k j. rewrite Ei. intros [Hne Hk]%lookup_delete_Some.
    destruct (Hi k j Hk) as (?&?&?). rewrite Eb, lookup_insert_ne by done. split_and!; try done.
    apply lookup_insert_is_Some. destruct (decide (i = j)); auto.
  - intros j s [[<- <-]|[Hij Hs]]%lookup_insert_Some Hu; [done|].
    destruct (Hrun j s Hs Hu) as (Hj&?&Hm).
    assert (nameOf j ≠ nameOf i) by (intros E; congruence).
    assert (j.1 ≠ p.1) by (unfold nameOf in *; congruence).
    unfold stage_ok. simpl. rewrite Ei, Er, Eph, lookup_delete_ne by done.
    split_and!; try done. destruct s; try done; destruct Hm as (?&?&?); split_and!; try done;
      by apply Ea.
  - intros p' c Hc. destruct (Hcl p' c Hc) as [Hal' Hm]. split; [by apply Ea|].
    destruct c; try done; simpl; rewrite ?Eb, ?Er.
    + destruct Hm as [Hm Hun]. split.
      * destruct Hm as [Hm|Hm]; [left|by right]. rewrite lookup_insert_ne; [done|]. congruence.
      * intros j. simpl. rewrite lookup_insert. case_decide; [done|apply Hun].
    + destruct Hm as [Hm Hph']. split.
      * destruct Hm as [Hm|[[Hm _]|[j Hj]]]; [left; simpl; congruence|congruence|].
        right; right. exists j. simpl. rewrite lookup_insert_ne; [done|]. congruence.
      * intros Hbf. destruct (decide (p'.1 = p.1)) as [->|?]; [congruence|].
        rewrite Eph by done. auto.
  - intros p' x Hx. apply Ea. eauto.
Qed.

(** The outcome of an attempt that is still registered writes only the phase of
    its own model, which no other attempt and no resident Bed shares. *)
Lemma shr_finish i failure reason now s :
  stages w !! i = Some s → unfinished s = false →
  shrinks w (w_stages (w_mg w (finishInitialization (mg w) i failure reason now))
                (<[i:=Finished]> (stages w))).
Proof.
  intros Hs Hu.
  assert (∀ p, s = RollingBack p → evs w !! p = None) as Hnr by (intros ? ->; done).
  destruct (ended_stages i s Finished Hs eq_refl Hnr) as (H1&H2&H3).
  unfold finishInitialization. case_bool_decide as Hi.
  2:{ by apply (shr_stage_end i s). }
  assert (∀ j t, <[i:=Finished]> (stages w) !! j = Some t → unfinished t = true →
    nameOf j ≠ nameOf i ∧ stages w !! j = Some t ∧
    initializations (mg w) !! nameOf j = Some j ∧ phaseOf (mg w) j.1 = PhaseInitializing) as Hj.
  { intros j t Hj Hut. specialize (H1 j t Hj Hut).
    destruct (sv_run w Hw j t H1 Hut) as (?&?&_). split_and!; try done.
    intros E. assert (i = j) by congruence. subst. congruence. }
  assert (∀ k p, beds (mg w) !! k = Some p → p.1 ≠ i.1) as Hnb.
  { intros k p Hk E. destruct (sv_bed w Hw _ _ Hk) as (<-&_).
    destruct (sv_init w Hw _ _ Hi) as (_&?&_). unfold nameOf in *. congruence. }
  assert (∀ m' x, beds m' = beds (mg w) → retirements m' = retirements (mg w) →
    closed m' = closed (mg w) → localIdentities m' = localIdentities (mg w) →
    h_beds m' = h_beds (mg w) → others_phase (mg w) m' i.1 →
    (phaseOf (mg w) i.1 ≠ PhaseInitializing → phaseOf m' i.1 ≠ PhaseInitializing) →
    initializations m' = x → x ⊆ initializations (mg w) →
    (∀ k, k ≠ nameOf i → x !! k = initializations (mg w) !! k) →
    shrinks w (w_stages (w_mg w m') (<[i:=Finished]> (stages w)))) as Hend.
  { intros m' x Eb Er Ec El Eh Eph Eni Ei Hx Hxk. 
    split; simpl; rewrite ?Eb, ?Er, ?El, ?Ei; try done.
    - congruence.
    - intros p. unfold allocated. by rewrite Eh.
    - intros k p Hk. destruct (sv_bed w Hw _ _ Hk) as (_&_&_&Hres). unfold residentPhase.
      rewrite Ec, Eph by eauto. done.
    - intros q Hq. destruct (decide (q = i.1)) as [->|?]; [auto|by rewrite Eph].
    - intros j t Hjt Hut. destruct (Hj j t Hjt Hut) as (Hne&?&?&?).
      rewrite Hxk, Eph by (unfold nameOf in *; congruence). done.
    - intros p c Hc. eauto.
    - auto.
    - by apply sv_prs. }
  destruct failure as [[canceled msg]|]; [|by eapply Hend; try done;
    [apply delete_subseteq|intros; simpl; by rewrite lookup_delete_ne]].
  case_bool_decide; [|destruct (negb canceled)]; eapply Hend; try done;
    try apply others_setLifecycle; try apply delete_subseteq;
    try (intros; simpl; by rewrite lookup_delete_ne).
  - intros _. change (phaseOf (setLifecycle (mg w) i.1
      (mkLifecycle 0 PhaseEvicting false "CleanupPending" msg now)) i.1 ≠ PhaseInitializing).
    by rewrite phaseOf_setLifecycle, decide_True.
  - by rewrite phaseOf_setLifecycle, decide_True.
Qed.

Lemma local_spec m id fresh q m' :
  (∀ k q, localIdentities m !! k = Some q → q.1 = k) →
  localIdentityLocked m id fresh = (q, m') →
  q.1 = id ∧ localIdentities m' !! id = Some q ∧
  (∀ k q, localIdentities m' !! k = Some q → q.1 = k) ∧
  beds m' = beds m ∧ initializations m' = initializations m ∧ retirements m' = retirements m ∧
  closed m' = closed m ∧ h_beds m' = h_beds m ∧ maxBeds m' = maxBeds m ∧
  pinnedBeds m' = pinnedBeds m ∧ residentBeds m' = residentBeds m ∧
  (∀ q', q' ≠ q → getModel m' q' = getModel m q').
Proof.
  intros Hl. unfold localIdentityLocked. destruct (localIdentities m !! id) as [q'|] eqn:E;
    intros [= <- <-]; split_and!; try done; eauto; simpl.
  - by rewrite lookup_insert_eq.
  - intros k q [[<- <-]|[_ ?]]%lookup_insert_Some; auto.
  - intros q' Hq. change (getModel (setModel m (id, fresh) zeroModel) q' = getModel m q').
    by rewrite getModel_setModel, decide_False.
Qed.

(** Registering an attempt: the name was free. *)
Lemma struct_register q serial m' :
  beds (mg w) !! q.1 = None → retirements (mg w) !! q.1 = None →
  (∀ i s, stages w !! i = Some s → unfinished s = true → nameOf i ≠ q.1) →
  beds m' = beds (mg w) → retirements m' = retirements (mg w) → closed m' = closed (mg w) →
  (∀ k q', localIdentities m' !! k = Some q' → q'.1 = k) →
  h_beds m' = h_beds (mg w) →
  initializations m' = <[q.1 := (q, serial)]> (initializations (mg w)) →
  others_phase (mg w) m' q → phaseOf m' q = PhaseInitializing →
  stages w !! (q, serial) = None →
  struct_inv (w_stages (w_mg w m') (<[(q, serial):=Running]> (stages w))).
Proof.
  intros Hnb Hnr Hfree Eb Er Ec El Eh Ei Eph Hph Hst.
  pose proof Hw as [Hb Hr Hi Hrun Hcl Hpr _].
  assert (∀ p, allocated (mg w) p ↔ allocated m' p) as Ea.
  { intros p. unfold allocated. by rewrite Eh. }
  split; simpl; rewrite ?Eb, ?Er; try done.
  - intros k p Hk. destruct (Hb k p Hk) as (Hn&?&?&Hres). split_and!; [done|by apply Ea|done|].
    unfold residentPhase. rewrite Ec, Eph; [done|].
    intros E. unfold nameOf in Hn. congruence.
  - intros k p Hk. destruct (Hr k p Hk). split; [done|by apply Ea].
  - intros k i. rewrite Ei. intros [[<- <-]|[Hne Hk]]%lookup_insert_Some.
    + by rewrite lookup_insert_eq.
    + destruct (Hi k i Hk) as (?&?&?). split_and!; try done.
      rewrite lookup_insert. by case_decide.
  - intros i s [[<- <-]|[Hne Hs]]%lookup_insert_Some Hu; unfold stage_ok; simpl; rewrite Ei, Er.
    + by rewrite lookup_insert_eq.
    + destruct (Hrun i s Hs Hu) as (?&?&Hm). specialize (Hfree i s Hs Hu).
      rewrite lookup_insert_ne, Eph by (unfold nameOf in *; congruence).
      split_and!; try done. destruct s; try done; destruct Hm as (?&?&?); split_and!; try done;
        by apply Ea.
  - intros p c Hc. destruct (Hcl p c Hc) as [Hal Hm]. split; [by apply Ea|].
    destruct c; try done; simpl; rewrite ?Eb, ?Er.
    + destruct Hm as [Hm Hun]. split; [done|]. intros j. simpl. rewrite lookup_insert.
      case_decide; [done|apply Hun].
    + destruct Hm as [Hm Hph']. split; [|].
      * unfold may_teardown. simpl. rewrite Eb, Er, Ec.
        destruct Hm as [?|[?|[j Hj]]]; [auto|auto|right; right]. exists j.
        rewrite lookup_insert_ne; [done|]. congruence.
      * intros Hbf. rewrite Eph; [auto|]. intros Hpq.
        unfold may_teardown, nameOf in Hm. rewrite Hpq in Hm.
        destruct Hm as [?|[[_ ?]|[j Hj]]]; [congruence|congruence|].
        destruct (Hrun j _ Hj eq_refl) as (_&_&_&Hpj&_).
        apply (Hfree j _ Hj eq_refl). unfold nameOf. congruence.
  - intros p x Hx. apply Ea. eauto.
Qed.

End struct_steps.

Lemma struct_begin w id fresh serial now m' i :
  struct_inv w →
  begin_spec (mg w) id fresh serial now m' (Ok (Began i)) → stages w !! i = None →
  struct_inv (w_stages (w_mg w m') (<[i:=Running]> (stages w))).
Proof.
  intros Hw.
  inversion 1 as [r Hr|r Hr|r Hr|q m1 spec Hclo Hpur Hnb Hnr Hni Hcap Hloc]; subst;
    try by edestruct Hr.
  intros Hst. pose proof (struct_shrinks _ _ Hw (shr_cleared w Hw id now Hni)) as Hw1.
  apply local_spec in Hloc as (<-&_&Hl&Eb&Ei&Er&Ec&Eh&_&_&_&Em); [|apply (sv_loc _ Hw1)].
  set (l := mkLifecycle 0 PhaseInitializing false _ _ _).
  set (m2 := setLifecycle _ q l).
  assert (∀ q', phaseOf m2 q' = if decide (q = q') then PhaseInitializing else
      phaseOf (mg w) q') as Hph.
  { intros q'. unfold m2. rewrite phaseOf_setLifecycle. case_decide; [done|].
    unfold phaseOf, lifeOf. rewrite getModel_setModel, decide_False by done. by rewrite Em. }
  apply (struct_register _ Hw1 q); try done; simpl; try congruence.
  - intros i s Hs Hu. by apply (cleared_keeps w Hw q.1 now i s).
  - by rewrite Ei.
  - intros q' Hq. change (phaseOf m2 q' = phaseOf (mg w) q'). by rewrite Hph, decide_False.
  - change (phaseOf m2 q = PhaseInitializing). by rewrite Hph, decide_True.
Qed.

Lemma quiet_persistPrepare m p g saved t m' :
  persistPrepare m p g saved = Ok (t, m') → quiet m m'.
Proof. unfold persistPrepare. intros. run_section. eauto with quiet. Qed.

Lemma quiet_persistCommit m p t ms : quiet m (persistCommit m p t ms).
Proof. unfold persistCommit. destruct (isCurrent _ _); eauto with quiet. Qed.
#[export] Hint Resolve quiet_persistPrepare quiet_persistCommit : quiet.

(** A quiet section of a request. *)
Lemma shr_request w m' h' : struct_inv w → quiet (mg w) m' →
  shrinks w (mkWorld m' h' (evs w) (prs w) (stages w)).
Proof. intros. apply (shr_quiet w); eauto with quiet. Qed.

Lemma shr_persist w p c m' x :
  struct_inv w → quiet (mg w) m' → allocated (mg w) p →
  (c = evs w ∨ ∃ seq, c = <[p:=EvPersisted seq]> (evs w)) →
  (x = delete p (prs w) ∨ ∃ y, x = <[p:=y]> (prs w)) →
  shrinks w (mkWorld m' (handles w) c x (stages w)).
Proof.
  intros Hw Hq Hp [->|[seq ->]] Hx; (apply (shr_quiet w); [done|done|..]).
  1,3: auto. 1: by apply evs_insert.
  all: destruct Hx as [->|[y ->]]; eauto with quiet.
Qed.

(** The steps that move a name between collections. *)
Definition moves (w w' : World) : Prop :=
  (∃ p, beds (mg w) !! nameOf p = Some p ∧ beds (mg w') = delete (nameOf p) (beds (mg w)) ∧
    retirements (mg w') = <[nameOf p := p]> (retirements (mg w)) ∧
    initializations (mg w') = initializations (mg w) ∧
    (∀ q, phaseOf (mg w') q = phaseOf (mg w) q)) ∨
  (∃ i p, initializations (mg w) !! nameOf i = Some i ∧
    phaseOf (mg w) i.1 = PhaseInitializing ∧ nameOf p = nameOf i ∧ beds (mg w') = beds (mg w) ∧
    (retirements (mg w') = retirements (mg w) ∨
     retirements (mg w') = <[nameOf p := p]> (retirements (mg w))) ∧
    initializations (mg w') = initializations (mg w) ∧
    (∀ q, phaseOf (mg w') q = phaseOf (mg w) q)) ∨
  (∃ i p, initializations (mg w) !! nameOf i = Some i ∧
    phaseOf (mg w) i.1 = PhaseInitializing ∧ nameOf p = nameOf i ∧
    beds (mg w') = <[nameOf p := p]> (beds (mg w)) ∧
    initializations (mg w') = delete (nameOf p) (initializations (mg w)) ∧
    retirements (mg w') = retirements (mg w) ∧ phaseOf (mg w') p.1 = PhaseResident ∧
    others_phase (mg w) (mg w') p.1) ∨
  (∃ id fresh serial now i, begin_spec (mg w) id fresh serial now (mg w') (Ok (Began i))).

Lemma step_effect w w' :
  struct_inv w → step w w' → shrinks w w' ∨ struct_inv w' ∧ moves w w'.
Proof.
  intros Hw. destruct 1;
    try (left; apply (shr_request w); [done|simpl; unfold_ops; run_section; eauto 10 with quiet; fail]).
  - left. apply (shr_persist w p); simpl; eauto with quiet.
  - left. apply (shr_persist w p); simpl; eauto using sv_prs with quiet.
  - left. apply (shr_persist w p); simpl; eauto using sv_prs with quiet.
  - left. by eapply (shr_evict_start w Hw).
  - left. apply (shr_persist w p); simpl; eauto using evs_allocated with quiet.
  - left. apply (shr_persist w p); simpl; eauto using evs_allocated with quiet.
  - right. split; [by eapply (struct_evict_commit w Hw)|]. left. exists p.
    unfold evictCommit in *. run_section. reflect_bools. by rewrite <-isCurrent_spec.
  - left. by destruct H; eapply (shr_evict_giveup w Hw).
  - left. by apply (shr_evict_resume w Hw).
  - left. by apply (shr_retirement_done w Hw).
  - left. by eapply (shr_teardown_start w Hw).
  - left. by apply (shr_teardown_end w Hw).
  - apply beginInitialization_spec in H0. right. split; [by eapply (struct_begin w)|].
    do 3 right. by eexists _, _, _, _, _.
  - left. eapply (shr_begin_other w Hw); [|done]. by eapply beginInitialization_spec.
  - left. apply (shr_request w); [done|]. simpl. unfold updateInitialization.
    destruct (_ && _) eqn:E; [|apply quiet_refl]. reflect_bools.
    apply quiet_same_phase; [apply quiet_refl|done].
  - right. split; [by apply (struct_prepared w Hw)|]. right; left.
    destruct (sv_run w Hw i _ H eq_refl) as (?&?&_).
    exists i, (i.1, serial). split_and!; try done. by left.
  - left. by eapply (shr_stage_end w Hw).
  - right. split; [by apply (struct_prepare_retired w Hw)|]. right; left.
    destruct (sv_run w Hw i _ H eq_refl) as (?&?&_).
    exists i, (i.1, serial). split_and!; try done. by right.
  - right. split; [by eapply (struct_publish w Hw)|].
    apply publish_inv in H0 as (?&?&?&?&?&?&?&?&?&?&?&?).
    destruct (sv_run w Hw i _ H eq_refl) as (?&?&_&Hpi&_).
    right; right; left. exists i, p. split_and!; try done. unfold nameOf. by rewrite Hpi.
  - right. split; [by apply (struct_rollback_claim w Hw)|]. right; left.
    destruct (sv_run w Hw i _ H eq_refl) as (?&?&_&Hpi&_).
    exists i, p. split_and!; try done; [unfold nameOf; by rewrite Hpi|by right].
  - left. by apply (shr_rollback_done w Hw).
  - left. eapply (shr_stage_end w Hw); try done. by intros ? [= ->].
  - left. eapply (shr_finish w Hw); [done|]. by destruct failure.
  - left. by apply (shr_cancel w Hw).
  - left. by apply (shr_prune w Hw).
  - left. by apply (shr_forget w Hw).
  - left. by eapply (shr_local w Hw).
  - left. apply observe_inv in H as [->| ->]; [by apply shrinks_same|by apply (shr_prune w Hw)].
  - unfold purgeClaim in *. destruct (beds (mg w) !! id) as [p0|] eqn:Hb.
    + right. split; [eapply (struct_purge_claim w Hw id); unfold purgeClaim; by rewrite Hb|].
      left. exists p0. destruct (sv_bed w Hw _ _ Hb) as (<-&_). simplify_eq.
      destruct (pinnedLocked _ _); by split_and!.
    + left. simplify_eq. by apply shrinks_same.
  - left. by apply (shr_purge_done w Hw).
  - left. by apply (shr_close w Hw).
Qed.

Lemma struct_step w w' : struct_inv w → step w w' → struct_inv w'.
Proof.
  intros Hw Hs. destruct (step_effect w w' Hw Hs) as [?|[? _]]; [|done].
  by eapply struct_shrinks.
Qed.

Lemma struct_initial w : initial w → struct_inv w.
Proof.
  intros [Hb Hi _ Hr Hl _ _ _ _ _ He Hp Hs].
  split; rewrite ?Hb, ?Hr, ?Hi, ?He, ?Hp, ?Hs; try done;
    intros *; rewrite lookup_empty; done.
Qed.

Lemma reachable_ind_step (P : World → Prop) :
  (∀ w, initial w → P w) →
  (∀ w w', reachable w → P w → step w w' → P w') →
  ∀ w, reachable w → P w.
Proof.
  intros H0 HS w (w0&Hi&Hs). induction Hs as [w|w1 w2 w3 H12 IH H23]; [auto|].
  eapply HS; [by exists w1|auto|done].
Qed.

Lemma struct_reachable w : reachable w → struct_inv w.
Proof. apply reachable_ind_step; eauto using struct_initial, struct_step. Qed.
