(* ===== verification/ManagerSafety.v ===== *)
(** * ManagerSafety: capacity, durability and retention of the Bed Manager

    Theorems about every reachable state of the interleaved daemon: the
    bed-count limit, the exact incremental counters, the pairing of operations
    with their handles, the durability of an eviction that commits, and the
    retention an admitted operation buys. *)

From S2P Require Import Prelude Bed Manager ManagerSteps ManagerInv.

(** ** Occupied slots

    A name occupies one slot while it is resident, retiring or initializing;
    [occupiedBedsLocked] counts those names. *)

Definition initializing (m : Manager) : gmap string iref :=
  filter (λ ki : string * iref, phaseOf m ki.2.1 = PhaseInitializing) (initializations m).

Definition occSet (m : Manager) : gset string :=
  dom (beds m) ∪ dom (retirements m) ∪ dom (initializing m).

Lemma elem_of_occSet m k :
  k ∈ occSet m ↔ is_Some (beds m !! k) ∨ is_Some (retirements m !! k) ∨
    ∃ i, initializations m !! k = Some i ∧ phaseOf m i.1 = PhaseInitializing.
Proof.
  unfold occSet, initializing. rewrite !elem_of_union, !elem_of_dom. unfold is_Some at 3.
  setoid_rewrite map_lookup_filter_Some. simpl. tauto.
Qed.

Lemma initOccupies_count w :
  struct_inv w →
  map_count (initOccupies (mg w)) (initializations (mg w)) =
  Z.of_nat (size (dom (initializing (mg w)) ∖ dom (retirements (mg w)) : gset string)).
Proof.
  intros Hw. unfold map_count. rewrite <-size_dom. do 2 f_equal. apply set_eq. intros k.
  rewrite elem_of_difference, not_elem_of_dom, !elem_of_dom. unfold initializing, is_Some.
  setoid_rewrite map_lookup_filter_Some. simpl. unfold initOccupies.
  split.
  - intros (i&Hi&Ho). destruct (sv_init w Hw k i Hi) as (<-&_). reflect_bools. eauto.
  - intros [(i&Hi&Hp) Hr]. exists i. destruct (sv_init w Hw k i Hi) as (<-&_).
    split; [done|]. apply andb_true_iff; split; by apply bool_decide_eq_true.
Qed.

Lemma occupied_spec w :
  struct_inv w → occupiedBedsLocked (mg w) = Z.of_nat (size (occSet (mg w))).
Proof.
  intros Hw. unfold occupiedBedsLocked, occSet. rewrite (initOccupies_count w Hw).
  assert ((dom (beds (mg w)) : gset string) ## dom (retirements (mg w))) as HBR.
  { intros k [p Hp]%elem_of_dom Hr%elem_of_dom.
    destruct (sv_bed w Hw k p Hp) as (_&_&Hn&_). rewrite Hn in Hr. by destruct Hr. }
  assert ((dom (beds (mg w)) : gset string) ## dom (initializing (mg w))) as HBI.
  { intros k Hb%elem_of_dom [i Hi]%elem_of_dom. apply map_lookup_filter_Some in Hi as [Hi _].
    destruct (sv_init w Hw k i Hi) as (_&Hn&_). rewrite Hn in Hb. by destruct Hb. }
  rewrite <-(size_dom (beds (mg w))), <-(size_dom (retirements (mg w))).
  generalize dependent (dom (beds (mg w)) : gset string). intros B HBR HBI.
  generalize dependent (dom (retirements (mg w)) : gset string). intros R HBR.
  generalize dependent (dom (initializing (mg w)) : gset string). intros I HBI.
  pose proof (size_union_alt (B ∪ R) I) as E1. pose proof (size_union B R HBR) as E2.
  assert (I ∖ (B ∪ R) = I ∖ R) as E3 by set_solver. rewrite E3, E2 in E1. lia.
Qed.

(** *** A step occupies a new slot only where admission counted it *)

Lemma occ_shrinks w w' : shrinks w w' → occSet (mg w') ⊆ occSet (mg w).
Proof.
  intros Hs k. rewrite !elem_of_occSet, (sh_beds _ _ Hs).
  intros [?|[[p Hp]|(i&Hi&Hp)]]; [by left|..]; right.
  - left. exists p. eapply subseteq_lookup; [apply (sh_rets _ _ Hs)|done].
  - right. exists i. split; [eapply subseteq_lookup; [apply (sh_inits _ _ Hs)|done]|].
    destruct (decide (phaseOf (mg w) i.1 = PhaseInitializing)) as [?|Hn]; [done|].
    by destruct (sh_not_init _ _ Hs _ Hn).
Qed.

Lemma occ_retire w w' p :
  struct_inv w → beds (mg w) !! nameOf p = Some p →
  beds (mg w') = delete (nameOf p) (beds (mg w)) →
  retirements (mg w') = <[nameOf p := p]> (retirements (mg w)) →
  initializations (mg w') = initializations (mg w) →
  (∀ q, phaseOf (mg w') q = phaseOf (mg w) q) → occSet (mg w') ⊆ occSet (mg w).
Proof.
  intros Hw Hp Eb Er Ei Eph k. rewrite !elem_of_occSet, Eb, Er, Ei. setoid_rewrite Eph.
  rewrite lookup_delete, lookup_insert. repeat case_decide; subst; try done; eauto.
Qed.

Lemma occ_begin w id fresh serial now m' i :
  struct_inv w → begin_spec (mg w) id fresh serial now m' (Ok (Began i)) →
  maxBeds (mg w) <= 0 ∨
  occSet m' ⊆ {[id]} ∪ occSet (cleared (mg w) id now) ∧
  Z.of_nat (size (occSet (cleared (mg w) id now))) < maxBeds (mg w).
Proof.
  intros Hw. inversion 1 as [r Hr|r Hr|r Hr|q m1 spec Hclo Hpur Hnb Hnr Hni Hc Hloc]; subst;
    try by edestruct Hr.
  destruct Hc as [?|Hc]; [by left|right].
  pose proof (struct_shrinks _ _ Hw (shr_cleared w Hw id now Hni)) as Hw1.
  pose proof (occupied_spec _ Hw1) as Ho. simpl in Ho. rewrite Ho in Hc. split; [|done].
  apply local_spec in Hloc as (<-&_&Hl&Eb&Ei&Er&Ec&Eh&_&_&_&Em); [|apply (sv_loc _ Hw1)].
  set (l := mkLifecycle 0 PhaseInitializing false _ _ _). set (m2 := setLifecycle _ q l).
  intros k. rewrite elem_of_union, elem_of_singleton, !elem_of_occSet. simpl.
  rewrite Eb, Er, Ei. simpl.
  destruct (decide (k = q.1)) as [?|Hk]; [by left|]. intros Hin. right.
  destruct Hin as [?|[?|(j&Hj&Hp)]]; [auto|auto|]. right; right.
  rewrite lookup_insert_ne in Hj by done. exists j. split; [done|].
  apply (subseteq_lookup _ (initializations (mg w))) in Hj;
    [|etrans; [apply delete_subseteq|apply map_filter_subseteq]].
  destruct (sv_init w Hw _ _ Hj) as (Hn&_).
  assert (q ≠ j.1) by (intros ->; by unfold nameOf in Hn).
  change (phaseOf m2 j.1 = PhaseInitializing) in Hp. unfold m2 in Hp.
  rewrite phaseOf_setLifecycle, decide_False in Hp by done.
  unfold phaseOf, lifeOf in Hp |- *. rewrite getModel_setModel, decide_False in Hp by done.
  by rewrite Em in Hp by done.
Qed.

Lemma occ_moves w w' :
  struct_inv w → moves w w' → maxBeds (mg w) <= 0 ∨ occupiedBedsLocked (mg w) <= maxBeds (mg w) →
  maxBeds (mg w) <= 0 ∨ Z.of_nat (size (occSet (mg w'))) <= maxBeds (mg w).
Proof.
  intros Hw Hm Hcap. destruct Hcap as [?|Hcap]; [by left|].
  rewrite (occupied_spec w Hw) in Hcap.
  destruct Hm as [(p&?&?&?&?&?)|[(i&p&Hi&Hph&Hn&Eb&Er&Ei&Eph)|[(i&p&Hi&Hph&Hn&Eb&Ei&Er&_&Eph)
    |(id&fresh&serial&now&i&Hb)]]].
  - right. pose proof (subseteq_size _ _ (occ_retire w w' p Hw ltac:(done) ltac:(done)
      ltac:(done) ltac:(done) ltac:(done))). lia.
  - right. assert (occSet (mg w') ⊆ occSet (mg w)) as Hsub; [|apply subseteq_size in Hsub; lia].
    intros k. rewrite !elem_of_occSet, Eb, Ei. setoid_rewrite Eph.
    destruct Er as [->| ->]; [done|]. rewrite lookup_insert. case_decide; subst; [|done].
    intros _. right; right. exists i. by rewrite Hn.
  - right. assert (occSet (mg w') ⊆ occSet (mg w)) as Hsub; [|apply subseteq_size in Hsub; lia].
    intros k. rewrite !elem_of_occSet, Eb, Ei, Er.
    rewrite lookup_insert. case_decide as Hk; subst.
    { intros _. right; right. exists i. by rewrite Hn. }
    rewrite lookup_delete_ne by done.
    intros [?|[?|(j&Hj&Hp)]]; [auto|auto|]. right; right. exists j. split; [done|].
    rewrite Eph in Hp; [done|]. intros E. destruct (sv_init w Hw _ _ Hj) as (<-&_).
    unfold nameOf in Hk. by rewrite E in Hk.
  - destruct (occ_begin w id fresh serial now (mg w') i Hw Hb) as [?|[Hsub Hc]]; [by left|right].
    apply subseteq_size in Hsub.
    pose proof (size_union_alt ({[id]} : gset string) (occSet (cleared (mg w) id now))) as Hu.
    rewrite size_singleton in Hu.
    pose proof (subseteq_size (occSet (cleared (mg w) id now) ∖ {[id]})
      (occSet (cleared (mg w) id now)) ltac:(set_solver)). lia.
Qed.

(** The configured limit never changes. *)
Lemma max_keepalive m q t : maxBeds (keepaliveLocked m q t) = maxBeds m.
Proof. by apply frame_keepalive. Qed.
Lemma max_pillows m q r now : maxBeds (pillowsChanged m q r now) = maxBeds m.
Proof. by apply frame_pillows. Qed.
Lemma max_adjust m p was : maxBeds (adjustPinnedLocked m p was) = maxBeds m.
Proof. unfold adjustPinnedLocked. by repeat case_match. Qed.

Lemma max_begin m id fresh serial now m' r :
  begin_spec m id fresh serial now m' r → maxBeds m' = maxBeds m.
Proof.
  destruct 1 as [| | |q m1 spec]; try done.
  unfold localIdentityLocked in *. simpl. by run_section.
Qed.

Lemma step_max w w' : step w w' → maxBeds (mg w') = maxBeds (mg w).
Proof.
  destruct 1; simpl; try (unfold_ops; run_section;
    repeat first [rewrite max_keepalive|rewrite max_pillows|rewrite max_adjust|progress simpl];
    done).
  all: by eapply max_begin, beginInitialization_spec.
Qed.

Lemma occ_step w w' :
  struct_inv w → step w w' →
  maxBeds (mg w) <= 0 ∨ occupiedBedsLocked (mg w) <= maxBeds (mg w) →
  maxBeds (mg w') <= 0 ∨ occupiedBedsLocked (mg w') <= maxBeds (mg w').
Proof.
  intros Hw Hs Hcap. rewrite (step_max w w' Hs), (occupied_spec w' (struct_step w w' Hw Hs)).
  destruct (step_effect w w' Hw Hs) as [Hsh|[_ Hm]]; [|by apply occ_moves].
  rewrite (occupied_spec w Hw) in Hcap. pose proof (subseteq_size _ _ (occ_shrinks _ _ Hsh)). lia.
Qed.

Lemma occ_reachable w :
  reachable w → maxBeds (mg w) <= 0 ∨ occupiedBedsLocked (mg w) <= maxBeds (mg w).
Proof.
  revert w. apply reachable_ind_step.
  - intros w Hw. right. rewrite (occupied_spec w (struct_initial w Hw)).
    destruct Hw as [Hb Hi _ Hr _ _ _ Hm _ _ _ _ _].
    assert (occSet (mg w) = ∅) as ->; [|rewrite size_empty; lia].
    apply elem_of_equiv_empty_L. intros k. rewrite elem_of_occSet, Hb, Hi, Hr.
    setoid_rewrite lookup_empty. by intros [[]|[[]|(?&?&?)]].
  - intros w w' Hr Hc Hs. eapply occ_step; eauto using struct_reachable.
Qed.

(** ** The incremental counters *)

Definition count_ok (m : Manager) : Prop :=
  residentBeds m = Z.of_nat (size (beds m)) ∧
  pinnedBeds m = map_count (pinnedLocked m) (beds m).

Definition names_ok (m : Manager) : Prop := ∀ k p, beds m !! k = Some p → nameOf p = k.

Lemma names_struct w : struct_inv w → names_ok (mg w).
Proof. intros Hw k p Hk. by destruct (sv_bed w Hw k p Hk). Qed.

(** A section that counts the same Beds as pinned. *)
Record pin_same (m m' : Manager) : Prop := {
  ps_beds : beds m' = beds m;
  ps_resident : residentBeds m' = residentBeds m;
  ps_pinnedBeds : pinnedBeds m' = pinnedBeds m;
  ps_pinned : ∀ k p, beds m !! k = Some p → pinnedLocked m' p = pinnedLocked m p;
}.

Lemma count_same m m' : pin_same m m' → count_ok m → count_ok m'.
Proof.
  intros [Eb Er Ep Hp] [H1 H2]. split; rewrite Eb; [congruence|].
  rewrite Ep, H2. apply map_count_ext. intros k p Hk. by rewrite (Hp k p Hk).
Qed.

Lemma pinned_ext m m' p :
  getBed m' p = getBed m p → specOf m' p.1 = specOf m p.1 → pinnedLocked m' p = pinnedLocked m p.
Proof. intros E1 E2. unfold pinnedLocked, dataSyncedLocked. by rewrite E1, E2. Qed.

Section pin_same.
Context (m m1 : Manager).
Hypothesis Hp : pin_same m m1.

Lemma ps_setBed p b :
  inflight b = inflight (getBed m1 p) → lastActiveAt b = lastActiveAt (getBed m1 p) →
  persistedAt b = persistedAt (getBed m1 p) → pin_same m (setBed m1 p b).
Proof.
  intros E1 E2 E3. destruct Hp as [Eb Er Ep Hpin]. split; try done.
  intros k p' Hk. rewrite <-(Hpin k p' Hk). unfold pinnedLocked, dataSyncedLocked.
  rewrite getBed_setBed. case_decide; [subst; by rewrite E1, E2, E3|done].
Qed.
Lemma ps_setBed_other p b :
  beds m1 !! nameOf p ≠ Some p → names_ok m1 → pin_same m (setBed m1 p b).
Proof.
  intros Hcur Hn. destruct Hp as [Eb Er Ep Hpin]. split; try done.
  intros k p' Hk. rewrite <-(Hpin k p' Hk). apply pinned_ext; [|done].
  rewrite getBed_setBed. case_decide; [subst|done].
  rewrite <-Eb in Hk. by rewrite (Hn k p' Hk) in Hcur.
Qed.
Lemma ps_models m2 :
  beds m2 = beds m1 → residentBeds m2 = residentBeds m1 → pinnedBeds m2 = pinnedBeds m1 →
  h_beds m2 = h_beds m1 →
  (∀ k p, beds m1 !! k = Some p → specOf m2 p.1 = specOf m1 p.1) → pin_same m m2.
Proof.
  intros E1 E2 E3 E4 E5. destruct Hp as [Eb Er Ep Hpin]. split; try congruence.
  intros k p Hk. rewrite <-(Hpin k p Hk). rewrite <-Eb in Hk.
  apply pinned_ext; [|eauto]. unfold getBed. by rewrite E4.
Qed.
Lemma ps_setLifecycle q l : pin_same m (setLifecycle m1 q l).
Proof. apply ps_models; try done. intros. apply specOf_setLifecycle. Qed.
Lemma ps_keepalive q t : pin_same m (keepaliveLocked m1 q t).
Proof.
  destruct (frame_keepalive m1 q t) as (?&?&?&?&?&?&?&?&?).
  apply ps_models; try done. intros. apply specOf_keepalive.
Qed.
Lemma ps_pillows q r now : pin_same m (pillowsChanged m1 q r now).
Proof.
  destruct (frame_pillows m1 q r now) as (?&?&?&?&?&?&?&?&?).
  apply ps_models; try done. intros. apply specOf_pillows.
Qed.
Lemma ps_inits x : pin_same m (with_initializations m1 x).
Proof. by apply ps_models. Qed.
Lemma ps_rets x : pin_same m (with_retirements m1 x).
Proof. by apply ps_models. Qed.
Lemma ps_purges x : pin_same m (with_purges m1 x).
Proof. by apply ps_models. Qed.
Lemma ps_locals x : pin_same m (with_localIdentities m1 x).
Proof. by apply ps_models. Qed.
Lemma ps_closed x : pin_same m (with_closed m1 x).
Proof. by apply ps_models. Qed.
End pin_same.

Lemma ps_refl m : pin_same m m.
Proof. by split. Qed.

Create HintDb pin.
#[export] Hint Resolve ps_refl ps_setLifecycle ps_keepalive ps_pillows ps_inits ps_rets
  ps_purges ps_locals ps_closed : pin.
#[export] Hint Extern 2 (pin_same _ (setBed _ _ _)) => apply ps_setBed; [|done..] : pin.

(** A section that compares the pinned state of the current allocation before
    and after its writes keeps the counter exact. *)
Lemma count_adjust m m1 p :
  names_ok m → count_ok m → beds m !! nameOf p = Some p →
  beds m1 = beds m → residentBeds m1 = residentBeds m → pinnedBeds m1 = pinnedBeds m →
  (∀ p', p' ≠ p → pinnedLocked m1 p' = pinnedLocked m p') →
  count_ok (adjustPinnedLocked m1 p (pinnedLocked m p)).
Proof.
  intros Hn [H1 H2] Hcur Eb Er Ep Ho.
  assert (map_count (pinnedLocked m1) (beds m) = pinnedBeds m
    - b2z (pinnedLocked m p) + b2z (pinnedLocked m1 p)) as Hc.
  { rewrite H2. apply (map_count_change _ _ _ (nameOf p)); [done|].
    intros k p' Hk Hp'. symmetry. apply Ho. intros ->. by rewrite (Hn k p Hp') in Hk. }
  unfold adjustPinnedLocked, count_ok.
  destruct (pinnedLocked m p), (pinnedLocked m1 p) eqn:E; simpl in *; rewrite ?Eb;
    change (pinnedLocked (with_pinnedBeds m1 _)) with (pinnedLocked m1); rewrite ?Hc; lia.
Qed.

Lemma count_write m m1 p b :
  names_ok m → count_ok m → beds m !! nameOf p = Some p →
  beds m1 = beds m → residentBeds m1 = residentBeds m → pinnedBeds m1 = pinnedBeds m →
  h_beds m1 = <[p:=b]> (h_beds m) → (∀ q, specOf m1 q = specOf m q) →
  count_ok (adjustPinnedLocked m1 p (pinnedLocked m p)).
Proof.
  intros Hn Hc Hcur Eb Er Ep Eh Es. apply count_adjust; try done.
  intros p' Hp. apply pinned_ext; [|done].
  unfold getBed. by rewrite Eh, lookup_insert_ne.
Qed.

(** What an admitted operation and an opened session found under the locks. *)
Lemma begin_op_inv m p kind timeout now allowed m' :
  BeginOperation m p kind timeout now allowed = Ok m' →
  beds m !! nameOf p = Some p ∧ closed m = false ∧ phaseOf m p.1 = PhaseResident ∧
  (HasMainProcesses (specOf m p.1) = true → Ready (lifeOf m p.1) = true ∨ kind = OpControl) ∧
  (pinnedLocked m p = true ∨ allowed = true) ∧
  m' = keepaliveLocked (adjustPinnedLocked (setBed m p (startOp (getBed m p) kind now)) p
         (pinnedLocked m p)) p.1 (now + clampTimeout timeout).
Proof.
  unfold BeginOperation.
  destruct (negb (isCurrent m p) || closed m) eqn:E1; [done|].
  destruct (negb (bool_decide (phaseOf m p.1 = PhaseResident))) eqn:E2; [done|].
  destruct (HasMainProcesses (specOf m p.1) && negb (Ready (lifeOf m p.1)) && _) eqn:E3; [done|].
  intros H. reflect_bools. rewrite isCurrent_spec in *.
  assert (HasMainProcesses (specOf m p.1) = true →
    Ready (lifeOf m p.1) = true ∨ kind = OpControl) as Hready.
  { intros Hm. rewrite Hm in E3. destruct (Ready (lifeOf m p.1)); [by left|right].
    destruct E3 as [E3|E3]; [done|]. by reflect_bools. }
  destruct (pinnedLocked m p), allowed; simpl in H; simplify_eq; split_and!; auto.
Qed.

Lemma open_session_inv m p sid kind now allowed m' :
  OpenSession m p sid kind now allowed = Ok m' →
  beds m !! nameOf p = Some p ∧ closed m = false ∧
  (pinnedLocked m p = true ∨ allowed = true) ∧
  m' = (let m1 := touchLocked m p now in
        let m2 := setBed m1 p (setSessions (getBed m1 p) (<[sid:=kind]> (sessions (getBed m1 p)))) in
        adjustPinnedLocked m2 p (pinnedLocked m p)).
Proof.
  unfold OpenSession.
  destruct (negb (isCurrent m p) || closed m) eqn:E1; [done|].
  destruct (HasMainProcesses (specOf m p.1) && _) eqn:E2; [done|].
  intros H. reflect_bools. rewrite isCurrent_spec in *.
  destruct (pinnedLocked m p), allowed; simpl in H; simplify_eq; split_and!; auto.
Qed.

Section count_ops.
Context (m : Manager).
Hypothesis Hn : names_ok m.
Hypothesis Hc : count_ok m.

Lemma count_touch p now : count_ok (touchBed m p now).
Proof.
  unfold touchBed. destruct (isCurrent m p) eqn:E; [|done]. apply isCurrent_spec in E.
  unfold touchLocked.
  destruct (frame_keepalive (setBed m p (setActivity (getBed m p) now)) p.1 now)
    as (?&?&?&?&?&?&?&?&?).
  eapply (count_write _ _ _ (setActivity (getBed m p) now)); try done. intros q. by rewrite specOf_keepalive.
Qed.

Lemma count_begin_op p kind timeout now allowed m' :
  BeginOperation m p kind timeout now allowed = Ok m' → count_ok m'.
Proof.
  intros (?&_&_&_&_&->)%begin_op_inv.
  eapply count_same; [apply ps_keepalive, ps_refl|]. by eapply count_write.
Qed.

Lemma count_finish_op p kind now : count_ok (finishOperation m p kind now).
Proof.
  unfold finishOperation. set (m1 := keepaliveLocked _ _ _).
  destruct (frame_keepalive (setBed m p (endOp (getBed m p) kind now)) p.1 now)
    as (Eb&?&?&?&?&?&?&?&?).
  destruct (isCurrent m1 p) eqn:E.
  - apply isCurrent_spec in E. unfold m1 in E. rewrite Eb in E.
    eapply (count_write _ _ _ (endOp (getBed m p) kind now)); try done.
    intros q. unfold m1. by rewrite specOf_keepalive.
  - eapply count_same; [|done]. unfold m1. apply ps_keepalive, ps_setBed_other; auto using ps_refl.
    intros Hcur. unfold isCurrent, m1 in E. rewrite Eb in E. by apply bool_decide_eq_false in E.
Qed.

Lemma count_open_session p sid kind now allowed m' :
  OpenSession m p sid kind now allowed = Ok m' → count_ok m'.
Proof.
  intros (?&_&_&->)%open_session_inv. simpl. unfold touchLocked.
  destruct (frame_keepalive (setBed m p (setActivity (getBed m p) now)) p.1 now)
    as (?&?&?&Eh&?&?&?&?&?).
  eapply count_write; try done.
  - simpl. rewrite Eh. simpl. by rewrite insert_insert_eq.
  - intros q. exact (specOf_keepalive (setBed m p (setActivity (getBed m p) now)) p.1 now q).
Qed.

Lemma count_persist_commit p t ms : count_ok (persistCommit m p t ms).
Proof.
  unfold persistCommit. destruct (isCurrent _ p) eqn:E.
  - apply isCurrent_spec in E. by eapply count_write.
  - eapply count_same; [|done]. apply ps_setBed_other; auto using ps_refl.
    intros Hcur. by apply bool_decide_eq_false in E.
Qed.

Lemma count_publish i p ready now m' :
  publishInitializedBed m i p ready now = Ok m' → count_ok m'.
Proof.
  unfold publishInitializedBed. destruct (_ || _); [done|].
  destruct (beds m !! nameOf p) eqn:Hb; [done|]. intros [= <-].
  set (l := mkLifecycle 0 PhaseResident _ _ _ _).
  set (m1 := setLifecycle (keepaliveLocked m p.1 now) p.1 l).
  assert (pin_same m m1) as Hps by (unfold m1; auto with pin).
  pose proof (count_same _ _ Hps Hc) as [Hr Hp]. destruct Hps as [Eb Er Ep _].
  set (m2 := with_residentBeds _ _). change (pinnedLocked m2 p) with (pinnedLocked m1 p).
  assert (map_count (pinnedLocked m1) (<[nameOf p:=p]> (beds m1)) =
    pinnedBeds m1 + b2z (pinnedLocked m1 p)) as Hcount.
  { rewrite Hp. apply map_count_insert_new. by rewrite Eb. }
  assert (Z.of_nat (size (<[nameOf p:=p]> (beds m1))) = residentBeds m1 + 1) as Hsize.
  { rewrite map_size_insert_None by (by rewrite Eb). rewrite Hr. lia. }
  destruct (pinnedLocked m1 p); split; [done| |done|];
    (etrans; [|symmetry; exact Hcount]); simpl; lia.
Qed.

Lemma count_delete p :
  beds m !! nameOf p = Some p →
  Z.of_nat (size (delete (nameOf p) (beds m))) = residentBeds m - 1 ∧
  map_count (pinnedLocked m) (delete (nameOf p) (beds m)) = pinnedBeds m - b2z (pinnedLocked m p).
Proof.
  intros Hb. destruct Hc as [Hr Hp]. split.
  - rewrite map_size_delete_Some by done. rewrite Hr.
    assert (size (beds m) ≠ 0%nat) by (eapply map_size_ne_0_lookup_2; eauto).
    lia.
  - rewrite Hp. by apply map_count_delete.
Qed.

(** Leaving the resident set: an eviction commits only an unpinned Bed. *)
Lemma count_evict_commit p seq m' :
  pinnedLocked m p = false → evictCommit m p seq = Some m' → count_ok m'.
Proof.
  intros Hpin. unfold evictCommit. destruct (_ || _) eqn:E; [done|]. intros [= <-]. reflect_bools.
  rewrite isCurrent_spec in *. destruct (count_delete p) as [Hd1 Hd2]; [done|].
  rewrite Hpin in Hd2. split; simpl; [lia|].
  etrans; [|symmetry; exact Hd2]. simpl. lia.
Qed.

Lemma count_purge_claim id m' p : purgeClaim m id = (m', p) → count_ok m'.
Proof.
  unfold purgeClaim. destruct (beds m !! id) as [p0|] eqn:Hb; intros H; simplify_eq; [|done].
  pose proof (Hn _ _ Hb) as <-. destruct (count_delete p0) as [H1 H2]; [done|].
  set (m1 := with_residentBeds _ _).
  assert (∀ p', pinnedLocked m1 p' = pinnedLocked m p') as Hpin.
  { intros p'. unfold pinnedLocked, dataSyncedLocked, m1.
    change (getBed (with_residentBeds ?y _) p') with (getBed (setBed m p0 (setPurging (getBed m p0))) p').
    rewrite getBed_setBed. by case_decide; subst. }
  rewrite Hpin.
  assert (map_count (pinnedLocked m1) (beds m1) = pinnedBeds m - b2z (pinnedLocked m p0)) as Hcount.
  { rewrite <-H2. apply map_count_ext. intros. by rewrite Hpin. }
  destruct (pinnedLocked m p0); (split; [simpl; lia|]);
    (etrans; [|symmetry; exact Hcount]); simpl; lia.
Qed.
End count_ops.

Lemma publish_beds m i p ready now m' :
  publishInitializedBed m i p ready now = Ok m' → h_beds m' = h_beds m.
Proof. by intros (?&?&?&?&?&?&?&?&?&?&?&?)%publish_inv. Qed.

(** ** Operations and their handles, evictions and their snapshots *)

Definition handlesOf (w : World) (p : bref) : Z :=
  Z.of_nat (length (filter (λ h : bref * OperationKind, h.1 = p) (handles w))).

Definition handle_inv (w : World) : Prop :=
  ∀ p, inflight (getBed (mg w) p) = handlesOf w p.

(** An eviction remembers the activity sequence it started from; while nothing
    has happened since, the watermark of its own snapshot is the last activity,
    and so is every watermark committed after it. *)
Record ev_inv (w : World) : Prop := {
  ei_own : ∀ p t, prs w !! p = Some (t, true) → ∃ seq, evs w !! p = Some (EvStarted seq);
  ei_started : ∀ p seq, evs w !! p = Some (EvStarted seq) →
    seq <= activitySeq (getBed (mg w) p) ∧
    (activitySeq (getBed (mg w) p) = seq →
     ∀ t, prs w !! p = Some (t, true) → t = lastActiveAt (getBed (mg w) p));
  ei_persisted : ∀ p seq, evs w !! p = Some (EvPersisted seq) →
    seq <= activitySeq (getBed (mg w) p) ∧
    (activitySeq (getBed (mg w) p) = seq →
     persistedAt (getBed (mg w) p) = lastActiveAt (getBed (mg w) p) ∧
     ∀ x, prs w !! p = Some x → x.1 = lastActiveAt (getBed (mg w) p));
}.

(** A write that is not an activity leaves the watermarks alone. *)
Definition bed_step (b b' : managedBed) : Prop :=
  idleTTL b' = idleTTL b ∧
  ((activitySeq b' = activitySeq b ∧ lastActiveAt b' = lastActiveAt b ∧
    persistedAt b' = persistedAt b) ∨ activitySeq b < activitySeq b').

Definition act_le (m m' : Manager) : Prop :=
  ∀ p, allocated m p → allocated m' p ∧ bed_step (getBed m p) (getBed m' p).
Definition infl_same (m m' : Manager) : Prop :=
  ∀ p, inflight (getBed m' p) = inflight (getBed m p).

Lemma bed_step_refl b : bed_step b b.
Proof. split; [done|by left]. Qed.

Lemma bed_step_trans b1 b2 b3 : bed_step b1 b2 → bed_step b2 b3 → bed_step b1 b3.
Proof. unfold bed_step. lia. Qed.

Lemma bed_step_same b b' :
  idleTTL b' = idleTTL b → activitySeq b' = activitySeq b → lastActiveAt b' = lastActiveAt b →
  persistedAt b' = persistedAt b → bed_step b b'.
Proof. split; [done|by left]. Qed.

Lemma bed_step_activity b b' :
  idleTTL b' = idleTTL b → activitySeq b' = activitySeq b + 1 → bed_step b b'.
Proof. split; [done|right; lia]. Qed.

Lemma bed_step_endOp b kind now : bed_step b (endOp b kind now).
Proof. unfold endOp, bed_step. simpl. case_decide; lia. Qed.

Section act_le.
Context (m m1 : Manager).
Hypothesis Ha : act_le m m1.
Hypothesis Hi : infl_same m m1.

Lemma al_frame m2 : h_beds m2 = h_beds m1 → act_le m m2.
Proof. intros E p. unfold getBed, allocated at 2. rewrite E. apply Ha. Qed.
Lemma al_setBed p b : bed_step (getBed m1 p) b → act_le m (setBed m1 p b).
Proof.
  intros Hb p' Hp. destruct (Ha p' Hp) as [Hal Hst]. split; [by apply alloc_setBed|].
  rewrite getBed_setBed. case_decide; [|done]. subst. by eapply bed_step_trans.
Qed.
Lemma al_keepalive q t : act_le m (keepaliveLocked m1 q t).
Proof. apply al_frame. by apply frame_keepalive. Qed.
Lemma al_pillows q r now : act_le m (pillowsChanged m1 q r now).
Proof. apply al_frame. by apply frame_pillows. Qed.
Lemma al_adjust p was : act_le m (adjustPinnedLocked m1 p was).
Proof. apply al_frame. unfold adjustPinnedLocked. by repeat case_match. Qed.

Lemma is_frame m2 : h_beds m2 = h_beds m1 → infl_same m m2.
Proof. intros E p. unfold getBed at 1. rewrite E. apply Hi. Qed.
Lemma is_setBed p b : inflight b = inflight (getBed m1 p) → infl_same m (setBed m1 p b).
Proof. intros Hb p'. rewrite getBed_setBed. case_decide; [subst|]; rewrite ?Hb; apply Hi. Qed.
Lemma is_keepalive q t : infl_same m (keepaliveLocked m1 q t).
Proof. apply is_frame. by apply frame_keepalive. Qed.
Lemma is_pillows q r now : infl_same m (pillowsChanged m1 q r now).
Proof. apply is_frame. by apply frame_pillows. Qed.
Lemma is_adjust p was : infl_same m (adjustPinnedLocked m1 p was).
Proof. apply is_frame. unfold adjustPinnedLocked. by repeat case_match. Qed.
End act_le.

Lemma al_refl m : act_le m m.
Proof. intros p Hp. split; [done|apply bed_step_refl]. Qed.
Lemma is_refl m : infl_same m m.
Proof. by intros p. Qed.

Create HintDb act.
#[export] Hint Resolve al_refl al_keepalive al_pillows al_adjust is_refl is_keepalive is_pillows
  is_adjust bed_step_endOp : act.
#[export] Hint Extern 2 (act_le _ (setBed _ _ _)) => apply al_setBed : act.
#[export] Hint Extern 2 (infl_same _ (setBed _ _ _)) => apply is_setBed; [|reflexivity] : act.
#[export] Hint Extern 1 (bed_step _ _) => apply bed_step_same; reflexivity : act.
#[export] Hint Extern 2 (bed_step _ _) => apply bed_step_activity; reflexivity : act.
#[export] Hint Extern 3 (act_le _ (setLifecycle ?x _ _)) => apply (al_frame _ x); [|reflexivity] : act.
#[export] Hint Extern 3 (infl_same _ (setLifecycle ?x _ _)) => apply (is_frame _ x); [|reflexivity] : act.
#[export] Hint Extern 9 (act_le ?m _) => apply (al_frame m m (al_refl m)); reflexivity : act.
#[export] Hint Extern 9 (infl_same ?m _) => apply (is_frame m m (is_refl m)); reflexivity : act.

Lemma begin_beds m id fresh serial now m' r :
  begin_spec m id fresh serial now m' r → h_beds m' = h_beds m.
Proof.
  destruct 1 as [| | |q m1 spec]; try done.
  unfold localIdentityLocked in *. simpl. by run_section.
Qed.

Lemma purge_claim_act m id m' p :
  purgeClaim m id = (m', p) → act_le m m' ∧ infl_same m m'.
Proof.
  unfold purgeClaim. destruct (beds m !! id) as [p0|]; intros H; simplify_eq; [|auto with act].
  set (m1 := setBed m p0 _). assert (act_le m m1 ∧ infl_same m m1) as [??] by (unfold m1; auto with act).
  destruct (pinnedLocked _ _); split; [eapply al_frame|eapply is_frame|eapply al_frame|
    eapply is_frame]; done.
Qed.

Lemma al_new m p b : h_beds m !! p = None → act_le m (setBed m p b).
Proof.
  intros Hn p' Hp. split; [by apply alloc_setBed|]. destruct Hp as [x Hx].
  rewrite getBed_setBed. case_decide; [subst; congruence|apply bed_step_refl].
Qed.

Lemma is_new m p b : h_beds m !! p = None → inflight b = 0 → infl_same m (setBed m p b).
Proof.
  intros Hn Hb p'. rewrite getBed_setBed. case_decide; [|done]. subst. unfold getBed.
  by rewrite Hn.
Qed.

Lemma ev_act w m' h' s' :
  struct_inv w → ev_inv w → act_le (mg w) m' → ev_inv (mkWorld m' h' (evs w) (prs w) s').
Proof.
  intros Hw [H1 H2 H3] Ha. split; simpl; [done|..].
  - intros p seq Hp. destruct (H2 p seq Hp) as [Hle Ht].
    destruct (Ha p) as [_ [_ [(->&->&_)|?]]]; [by eapply evs_allocated|done|]. split; [lia|]. lia.
  - intros p seq Hp. destruct (H3 p seq Hp) as [Hle Ht].
    destruct (Ha p) as [_ [_ [(->&->&->)|?]]]; [by eapply evs_allocated|done|]. split; [lia|]. lia.
Qed.

Lemma handle_same w m' e' x' s' :
  handle_inv w → infl_same (mg w) m' → handle_inv (mkWorld m' (handles w) e' x' s').
Proof. intros Hh Hi p. simpl. rewrite Hi. apply Hh. Qed.

Lemma handle_begin w p kind m' :
  handle_inv w → infl_same (setBed (mg w) p (startOp (getBed (mg w) p) kind 0)) m' →
  handle_inv (w_handles (w_mg w m') ((p, kind) :: handles w)).
Proof.
  intros Hh Hi p'. simpl. rewrite Hi, getBed_setBed. unfold handlesOf. simpl.
  rewrite filter_cons. simpl. specialize (Hh p'). unfold handlesOf in Hh.
  repeat case_decide; subst; simpl; try done; lia.
Qed.

Lemma handle_finish w p kind now h1 h2 m' :
  handle_inv w → handles w = h1 ++ (p, kind) :: h2 →
  infl_same (setBed (mg w) p (endOp (getBed (mg w) p) kind now)) m' →
  handle_inv (w_handles (w_mg w m') (h1 ++ h2)).
Proof.
  intros Hh Hl Hi p'. simpl. rewrite Hi, getBed_setBed. specialize (Hh p').
  unfold handlesOf in *. rewrite Hl in Hh. simpl.
  rewrite filter_app, filter_cons in Hh. rewrite filter_app. simpl in Hh.
  rewrite length_app in *. repeat case_decide; subst; simpl in *; try done; try lia.
  destruct (Z.ltb_spec 0 (inflight (getBed (mg w) p'))); lia.
Qed.

Lemma handle_step w w' : handle_inv w → step w w' → handle_inv w'.
Proof.
  intros Hh. destruct 1; try (apply (handle_same w); [done|]; simpl;
    first [by unfold_ops; run_section; auto 8 with act | by apply is_new
      | eapply is_frame; [apply is_refl|]; by eapply begin_beds, beginInitialization_spec]).
  - apply handle_begin; [done|]. apply begin_op_inv in H as (_&_&_&_&_&->).
    intros p'. rewrite (is_keepalive _ _ (is_adjust _ _ (is_refl _) _ _)).
    rewrite !getBed_setBed. by case_decide.
  - eapply handle_finish; [done|done|]. unfold finishOperation. run_section; auto with act.
  - apply (handle_same w); [done|]. eapply is_frame; [apply is_refl|]. by eapply publish_beds.
  - apply (handle_same w); [done|]. by eapply purge_claim_act.
Qed.

Lemma handle_initial w : initial w → handle_inv w.
Proof.
  intros [_ _ _ _ _ _ _ _ Hb Hh _ _ _] p. unfold handlesOf, getBed. by rewrite Hb, Hh, lookup_empty.
Qed.

Lemma handle_reachable w : reachable w → handle_inv w.
Proof. apply reachable_ind_step; eauto using handle_initial, handle_step. Qed.

(** *** Steps of an eviction and of a persistence *)

Section ev_steps.
Context (w : World).
Hypothesis Hw : struct_inv w.
Hypothesis He : ev_inv w.

(** Another holder takes or leaves the cleanup lock of [p]. *)
Lemma ev_clear m' h' evs' p :
  act_le (mg w) m' → (∀ p', p' ≠ p → evs' !! p' = evs w !! p') →
  (∀ s, evs' !! p ≠ Some (EvStarted s) ∧ evs' !! p ≠ Some (EvPersisted s)) →
  (∀ t, prs w !! p ≠ Some (t, true)) → ev_inv (mkWorld m' h' evs' (prs w) (stages w)).
Proof.
  intros Ha Ho Hp Ht. pose proof (ev_act w m' h' (stages w) Hw He Ha) as [H1 H2 H3].
  simpl in *. split; simpl.
  - intros p' t Hp'. destruct (decide (p' = p)) as [->|Hne]; [by apply Ht in Hp'|].
    rewrite Ho by done. eauto.
  - intros p' s Hs. apply H2. rewrite <-Ho; [done|]. intros ->. by apply (Hp s) in Hs.
  - intros p' s Hs. apply H3. rewrite <-Ho; [done|]. intros ->. by apply (Hp s) in Hs.
Qed.

Lemma ev_delete m' h' p :
  act_le (mg w) m' → (∀ s, evs w !! p ≠ Some (EvStarted s)) →
  ev_inv (mkWorld m' h' (delete p (evs w)) (prs w) (stages w)).
Proof.
  intros Ha Hp. apply (ev_clear _ _ _ p); [done|..].
  - intros p' ?. by rewrite lookup_delete_ne.
  - intros s. by rewrite lookup_delete_eq.
  - intros t Ht. destruct (ei_own w He p t Ht) as [s Hs]. by apply Hp in Hs.
Qed.

(** A snapshot is prepared: its watermark is the last activity. *)
Lemma ev_prepare m' p own :
  act_le (mg w) m' →
  (own = true → ∃ s, evs w !! p = Some (EvStarted s)) →
  activitySeq (getBed m' p) = activitySeq (getBed (mg w) p) →
  ev_inv (mkWorld m' (handles w) (evs w)
            (<[p:=(lastActiveAt (getBed m' p), own)]> (prs w)) (stages w)).
Proof.
  intros Ha Hown Hseq. pose proof (ev_act w m' (handles w) (stages w) Hw He Ha) as [H1 H2 H3].
  simpl in *. split; simpl.
  - intros p' t [[-> [= _ Ho]]|[_ ?]]%lookup_insert_Some; eauto.
  - intros p' s Hs. destruct (H2 p' s Hs) as [Hle Hx]. split; [done|].
    intros E t [[-> [= <- _]]|[_ ?]]%lookup_insert_Some; eauto.
  - intros p' s Hs. destruct (H3 p' s Hs) as [Hle Hx]. split; [done|]. intros E.
    destruct (Hx E) as [Hp Hy]. split; [done|].
    intros x [[-> <-]|[_ ?]]%lookup_insert_Some; eauto.
Qed.

Lemma ev_release p : ev_inv (w_prs w (delete p (prs w))).
Proof.
  destruct He as [H1 H2 H3]. split; simpl.
  - intros p' t [_ ?]%lookup_delete_Some; eauto.
  - intros p' s Hs. destruct (H2 p' s Hs) as [Hle Hx]. split; [done|].
    intros E t [_ ?]%lookup_delete_Some; eauto.
  - intros p' s Hs. destruct (H3 p' s Hs) as [Hle Hx]. split; [done|]. intros E.
    destruct (Hx E). split; [done|]. intros x [_ ?]%lookup_delete_Some; eauto.
Qed.

Lemma commit_bed p t ms :
  getBed (persistCommit (mg w) p t ms) p = setPersisted (getBed (mg w) p) t ms.
Proof.
  unfold persistCommit, adjustPinnedLocked. set (m1 := setBed _ _ _).
  assert (getBed m1 p = setPersisted (getBed (mg w) p) t ms) as E.
  { unfold m1. by rewrite getBed_setBed, decide_True. }
  rewrite <-E. by repeat case_match.
Qed.

Lemma commit_other p t ms p' :
  p' ≠ p → getBed (persistCommit (mg w) p t ms) p' = getBed (mg w) p'.
Proof.
  intros Hp. unfold persistCommit, adjustPinnedLocked. set (m1 := setBed _ _ _).
  assert (getBed m1 p' = getBed (mg w) p') as E.
  { unfold m1. by rewrite getBed_setBed, decide_False. }
  rewrite <-E. by repeat case_match.
Qed.

(** A committed snapshot: the watermark it carries becomes the durable one. *)
Lemma ev_commit p t ms evs' own :
  prs w !! p = Some (t, own) →
  (evs' = evs w ∧ own = false ∨
   ∃ s, own = true ∧ evs w !! p = Some (EvStarted s) ∧ evs' = <[p:=EvPersisted s]> (evs w)) →
  ev_inv (mkWorld (persistCommit (mg w) p t ms) (handles w) evs' (delete p (prs w)) (stages w)).
Proof.
  intros Hp Hcase. destruct He as [H1 H2 H3].
  assert (∀ p', p' ≠ p → evs' !! p' = evs w !! p') as Ho.
  { intros p' ?. destruct Hcase as [[-> _]|(s&_&_&->)]; [done|]. by rewrite lookup_insert_ne. }
  split; simpl.
  - intros p' t' [Hne Ht]%lookup_delete_Some. rewrite Ho by done. eauto.
  - intros p' s Hs. destruct (decide (p' = p)) as [->|Hne].
    + rewrite commit_bed, lookup_delete_eq. destruct Hcase as [[-> _]|(s'&_&_&->)].
      * destruct (H2 p s Hs). by split.
      * by rewrite lookup_insert_eq in Hs.
    + rewrite commit_other, lookup_delete_ne by done. rewrite Ho in Hs by done. auto.
  - intros p' s Hs. destruct (decide (p' = p)) as [->|Hne].
    + rewrite commit_bed, lookup_delete_eq. simpl.
      destruct Hcase as [[-> ->]|(s'&->&Hs'&->)].
      * destruct (H3 p s Hs) as [Hle Hx]. split; [done|]. intros E.
        split; [apply (proj2 (Hx E) _ Hp)|done].
      * rewrite lookup_insert_eq in Hs. simplify_eq. destruct (H2 p s Hs') as [Hle Hx].
        split; [done|]. intros E. split; [eauto|done].
    + rewrite commit_other, lookup_delete_ne by done. rewrite Ho in Hs by done. auto.
Qed.

Lemma ev_start p m' :
  evs w !! p = None → h_beds m' = h_beds (mg w) →
  ev_inv (mkWorld m' (handles w) (<[p:=EvStarted (activitySeq (getBed (mg w) p))]> (evs w))
            (prs w) (stages w)).
Proof.
  intros Hn Eh. destruct He as [H1 H2 H3].
  assert (∀ p', getBed m' p' = getBed (mg w) p') as Eb by (intros; unfold getBed; by rewrite Eh).
  split; simpl; try setoid_rewrite Eb.
  - intros p' t Ht. destruct (H1 p' t Ht) as [s Hs]. exists s.
    rewrite lookup_insert_ne; [done|]. congruence.
  - intros p' s [[-> [= <-]]|[Hne Hs]]%lookup_insert_Some; [|auto].
    split; [lia|]. intros _ t Ht. destruct (H1 p' t Ht). congruence.
  - intros p' s [[-> [=]]|[Hne Hs]]%lookup_insert_Some. auto.
Qed.
End ev_steps.

Lemma prepare_inv m p g saved t m' :
  persistPrepare m p g saved = Ok (t, m') →
  m' = setBed m p (setGeneration (getBed m p) (g + 1)) ∧ t = lastActiveAt (getBed m' p).
Proof. unfold persistPrepare. intros. by run_section. Qed.

Lemma ev_prepared w p g saved t m' own :
  struct_inv w → ev_inv w → persistPrepare (mg w) p g saved = Ok (t, m') →
  (own = true → ∃ s, evs w !! p = Some (EvStarted s)) →
  ev_inv (w_prs (w_mg w m') (<[p:=(t, own)]> (prs w))).
Proof.
  intros Hw He [-> ->]%prepare_inv Hown. apply (ev_prepare w); auto with act.
  by rewrite getBed_setBed, decide_True.
Qed.

Lemma teardown_act m p b failure now : act_le m (teardownEnd m p b failure now).
Proof. unfold teardownEnd. run_section; auto with act. Qed.

Lemma ev_step w w' : struct_inv w → ev_inv w → step w w' → ev_inv w'.
Proof.
  intros Hw He. destruct 1; try (apply (ev_act w); [done|done|]; simpl;
    first [by unfold_ops; run_section; auto 8 with act | by apply al_new
      | eapply al_frame; [apply al_refl|]; by eapply begin_beds, beginInitialization_spec]).
  - by eapply (ev_prepared w).
  - eapply (ev_commit w); eauto.
  - by apply (ev_release w).
  - apply evict_begun in H0 as (_&_&_&_&_&_&l&_&->). by apply (ev_start w).
  - eapply (ev_prepared w); eauto.
  - eapply (ev_commit w); [done|done|]. right. eauto.
  - apply (ev_delete w); [done|done|..]; [|congruence].
    unfold evictCommit in *. run_section. auto with act.
  - apply (ev_clear w Hw He _ _ _ p); auto with act.
    + intros p' ?. destruct (evictResumable _ _); by rewrite ?lookup_insert_ne, ?lookup_delete_ne.
    + intros s. destruct (evictResumable _ _); by rewrite ?lookup_insert_eq, ?lookup_delete_eq.
  - apply (ev_delete w); [done|done|..]; [|congruence]. simpl. unfold evictResume. auto with act.
  - apply (ev_clear w Hw He _ _ _ p).
    + simpl. unfold teardownStart in *. run_section; auto with act.
    + intros p' ?. by rewrite lookup_insert_ne.
    + intros s. by rewrite lookup_insert_eq.
    + intros t Ht. destruct (ei_own w He p t Ht). congruence.
  - apply (ev_delete w); [done|done|apply teardown_act|congruence].
  - apply (ev_act w); [done|done|]. eapply al_frame; [apply al_refl|]. by eapply publish_beds.
  - apply (ev_act w); [done|done|]. by eapply purge_claim_act.
Qed.

Lemma ev_initial w : initial w → ev_inv w.
Proof.
  intros [_ _ _ _ _ _ _ _ _ _ He Hp _]. split; rewrite ?He, ?Hp; intros *; by rewrite lookup_empty.
Qed.

Lemma ev_reachable w : reachable w → ev_inv w.
Proof.
  apply reachable_ind_step; eauto using ev_initial.
  intros w0 w' Hr He Hs. eapply ev_step; eauto using struct_reachable.
Qed.

(** A Bed whose eviction commits is not pinned. *)
Lemma evict_commit_synced w p seq m' :
  ev_inv w → evs w !! p = Some (EvPersisted seq) → evictCommit (mg w) p seq = Some m' →
  beds (mg w) !! nameOf p = Some p ∧ inflight (getBed (mg w) p) <= 0 ∧
  persistedAt (getBed (mg w) p) = lastActiveAt (getBed (mg w) p) ∧
  retirements m' !! nameOf p = Some p ∧ beds m' !! nameOf p = None ∧
  getBed m' p = getBed (mg w) p.
Proof.
  intros He Hp. unfold evictCommit. destruct (_ || _) eqn:E; [done|]. intros [= <-]. reflect_bools.
  destruct (ei_persisted w He p seq Hp) as [_ Hs]. rewrite isCurrent_spec in *.
  split_and!; auto; [by apply Hs|by simpl; rewrite lookup_insert_eq|by simpl; rewrite lookup_delete_eq].
Qed.

Lemma evict_commit_unpinned w p seq m' :
  ev_inv w → evs w !! p = Some (EvPersisted seq) → evictCommit (mg w) p seq = Some m' →
  pinnedLocked (mg w) p = false.
Proof.
  intros He Hp Hc. destruct (evict_commit_synced w p seq m' He Hp Hc) as (_&Hi&Hs&_).
  unfold pinnedLocked, dataSyncedLocked. rewrite Hs, Z.ltb_irrefl, orb_true_r. simpl.
  destruct (Z.ltb_spec 0 (inflight (getBed (mg w) p))); [lia|done].
Qed.

(** ** The counters are exact *)

Lemma begin_pin w id fresh serial now m' r :
  struct_inv w → begin_spec (mg w) id fresh serial now m' r → pin_same (mg w) m'.
Proof.
  intros Hw. destruct 1 as [| | |q m1 spec Hclo Hpur Hnb Hnr Hni Hc Hloc];
    unfold cleared, pruneFailedInitializationsLocked; auto with pin.
  pose proof (struct_shrinks _ _ Hw (shr_cleared w Hw id now Hni)) as Hw1.
  apply local_spec in Hloc as (Hq&_&Hl&Eb&Ei&Er&Ec&Eh&_&Ep&Ers&Em); [|apply (sv_loc _ Hw1)].
  apply ps_inits, ps_setLifecycle.
  apply (ps_models _ _ (ps_refl (mg w))); simpl; try done.
  intros k p Hk. unfold specOf. rewrite getModel_setModel, decide_False, Em; [done|..];
    intros E; destruct (sv_bed w Hw k p Hk) as (Hn&_); unfold nameOf in Hn; congruence.
Qed.

(** Creating an identity for a name changes no declaration. *)
Lemma local_pin m id fresh q m' :
  h_models m !! (id, fresh) = None → localIdentityLocked m id fresh = (q, m') → pin_same m m'.
Proof.
  unfold localIdentityLocked. intros Hf H. destruct (localIdentities m !! id); simplify_eq;
    [apply ps_refl|].
  apply (ps_models _ _ (ps_refl m)); try done. intros k p _.
  change (specOf (setModel m (id, fresh) zeroModel) p.1 = specOf m p.1).
  unfold specOf. rewrite getModel_setModel. case_decide as E; [|done].
  rewrite <-E. unfold getModel. by rewrite Hf.
Qed.

Lemma new_not_current w p : struct_inv w → h_beds (mg w) !! p = None → beds (mg w) !! nameOf p ≠ Some p.
Proof. intros Hw Hn Hb. destruct (sv_bed w Hw _ _ Hb) as (_&[x Hx]&_). congruence. Qed.

Lemma count_step w w' :
  struct_inv w → ev_inv w → count_ok (mg w) → step w w' → count_ok (mg w').
Proof.
  intros Hw He Hc. pose proof (names_struct w Hw) as Hn.
  destruct 1; simpl; try (eapply count_same; [|exact Hc];
    first [by unfold_ops; run_section; auto 8 with pin | eapply begin_pin; [done|];
      by eapply beginInitialization_spec]); auto.
  - by eapply count_begin_op.
  - by apply count_finish_op.
  - by apply count_touch.
  - by eapply count_open_session.
  - by apply count_persist_commit.
  - by apply count_persist_commit.
  - eapply count_evict_commit; [done..| |done]. by eapply evict_commit_unpinned.
  - eapply count_same; [|exact Hc]. apply (ps_models _ _ (ps_refl _)); try done.
    intros k p Hk. unfold setSpec, specOf. rewrite getModel_setModel, decide_False; [done|].
    intros E. by apply (no_attempt_bed w k p Hw Hk i _ H eq_refl).
  - eapply count_same; [|exact Hc]. apply ps_setBed_other; auto using ps_refl, new_not_current.
  - eapply count_same; [|exact Hc]. apply ps_rets, ps_setBed_other;
      auto using ps_refl, new_not_current.
  - by eapply count_publish.
  - eapply count_same; [|exact Hc]. by eapply local_pin.
  - by eapply count_purge_claim.
Qed.

Lemma count_initial w : initial w → count_ok (mg w).
Proof.
  intros [Hb _ _ _ _ Hr Hp _ _ _ _ _ _]. split; rewrite Hb; [by rewrite map_size_empty|].
  by rewrite map_count_empty.
Qed.

Lemma count_reachable w : reachable w → count_ok (mg w).
Proof.
  apply (reachable_ind_step (λ w, count_ok (mg w))); [apply count_initial|].
  intros w0 w' Hr Hc Hs. eapply count_step; eauto using struct_reachable, ev_reachable.
Qed.

(** ** Retention along a run *)

(** An allocation stays, and its retention period never changes. *)
Lemma step_idle w w' p :
  step w w' → allocated (mg w) p →
  allocated (mg w') p ∧ idleTTL (getBed (mg w') p) = idleTTL (getBed (mg w) p).
Proof.
  intros Hs Hp.
  assert (act_le (mg w) (mg w') ∨ ∃ p' t ms, mg w' = persistCommit (mg w) p' t ms) as [Ha|Hc].
  - destruct Hs; simpl; try (left; first [by unfold_ops; run_section; auto 8 with act | by apply al_new
      | eapply al_frame; [apply al_refl|]; by eapply begin_beds, beginInitialization_spec]); eauto.
    + left. eapply al_frame; [apply al_refl|]. by eapply publish_beds.
    + left. by eapply purge_claim_act.
  - by destruct (Ha p Hp) as [? [? _]].
  - destruct Hc as (p'&t&ms&->). split; [by apply (quiet_persistCommit (mg w))|].
    destruct (decide (p = p')) as [->|Hne]; [by rewrite commit_bed|by rewrite commit_other].
Qed.

Lemma steps_retention w w' p :
  steps w w' → allocated (mg w) p →
  allocated (mg w') p ∧ idleTTL (getBed (mg w') p) = idleTTL (getBed (mg w) p) ∧
  KeepaliveAt (lifeOf (mg w) p.1) <= KeepaliveAt (lifeOf (mg w') p.1).
Proof.
  induction 1 as [w|w1 w2 w3 H12 IH H23]; intros Hp; [by split_and!|].
  destruct (IH Hp) as (Ha&Hi&Hk). destruct (step_idle _ _ _ H23 Ha) as [Ha' Hi'].
  pose proof (step_keep _ _ H23 p.1). split_and!; [done|congruence|lia].
Qed.

(** ** The eviction fence *)

Definition evicting (w : World) (p : bref) : Prop :=
  ∃ s, evs w !! p = Some (EvStarted s) ∨ evs w !! p = Some (EvPersisted s).

(** While an eviction holds a resident allocation, its phase is [Evicting]; an
    allocation being evicted is no longer one an attempt may publish. *)
Definition fence_inv (w : World) : Prop :=
  ∀ p, evicting w p → unattempted w p ∧
    (beds (mg w) !! nameOf p = Some p → phaseOf (mg w) p.1 = PhaseEvicting).

(** A section in which no eviction starts and no phase of a resident Bed that
    is being evicted changes. *)
Lemma fence_frame w w' :
  struct_inv w → fence_inv w →
  (∀ p, evicting w' p → evicting w p) →
  (∀ p, beds (mg w') !! nameOf p = Some p → unattempted w p → beds (mg w) !! nameOf p = Some p) →
  (∀ p, evicting w p → beds (mg w) !! nameOf p = Some p →
     phaseOf (mg w') p.1 = phaseOf (mg w) p.1) →
  (∀ i s p, stages w' !! i = Some s → s = Prepared p ∨ s = RollingBack p →
     stages w !! i = Some (Prepared p) ∨ stages w !! i = Some (RollingBack p) ∨
     ¬ allocated (mg w) p) →
  fence_inv w'.
Proof.
  intros Hw Hf Hev Hb Hph Hst p Hp. destruct (Hf p (Hev p Hp)) as [Hun Hphase]. split.
  - assert (allocated (mg w) p) as Ha.
    { destruct (Hev p Hp) as [s [Hs|Hs]]; by eapply evs_allocated. }
    intros i. destruct (Hun i) as [H1 H2].
    split; intros Hs; destruct (Hst i _ p Hs) as [?|[?|?]]; auto.
  - intros Hb'. pose proof (Hb p Hb' Hun) as Hb0. rewrite Hph; auto.
Qed.

Lemma fence_shrinks w w' :
  struct_inv w → fence_inv w → shrinks w w' →
  (∀ p, evicting w' p → evicting w p) →
  (∀ p, evicting w p → beds (mg w) !! nameOf p = Some p →
     phaseOf (mg w') p.1 = phaseOf (mg w) p.1) → fence_inv w'.
Proof.
  intros Hw Hf Hsh Hev Hph. apply (fence_frame w); try done.
  - intros p. by rewrite (sh_beds _ _ Hsh).
  - intros i s p Hs Hcase.
    assert (unfinished s = true) as Hu by (by destruct Hcase; subst).
    destruct (sh_stage _ _ Hsh i s Hs Hu) as [? _]. destruct Hcase; subst; auto.
Qed.

Lemma evicting_insert w p c h m x s p' :
  evicting (mkWorld m h (<[p:=c]> (evs w)) x s) p' →
  (∀ n, c ≠ EvStarted n) → (∀ n, c = EvPersisted n → evicting w p) → evicting w p'.
Proof.
  intros [n Hn] Hns Hnp. simpl in Hn. rewrite lookup_insert in Hn. case_decide as E; [subst|by exists n].
  destruct Hn as [[= ->]|[= ->]]; [by destruct (Hns n)|eauto].
Qed.

Lemma evicting_delete w p h m x s p' :
  evicting (mkWorld m h (delete p (evs w)) x s) p' → evicting w p' ∧ p' ≠ p.
Proof.
  intros [n Hn]. simpl in Hn. rewrite lookup_delete in Hn. case_decide as E; [by destruct Hn|].
  split; [by exists n|done].
Qed.

(** Two allocations of one model cannot both hold the name. *)
Lemma holds_unique w p p' :
  struct_inv w → p.1 = p'.1 → beds (mg w) !! nameOf p = Some p →
  beds (mg w) !! nameOf p' = Some p' ∨ retirements (mg w) !! nameOf p' = Some p' → p' = p.
Proof.
  intros Hw E Hb Hp'. destruct (sv_bed w Hw _ _ Hb) as (_&_&Hn&_).
  unfold nameOf in *. rewrite <-E in Hp'. destruct Hp'; congruence.
Qed.

Lemma fence_quiet w m' h' evs' prs' :
  struct_inv w → fence_inv w → quiet (mg w) m' →
  (∀ p, evicting (mkWorld m' h' evs' prs' (stages w)) p → evicting w p) →
  fence_inv (mkWorld m' h' evs' prs' (stages w)).
Proof.
  intros Hw Hf Hq Hev. apply (fence_frame w); try done; simpl.
  - intros p. by rewrite (qt_beds _ _ Hq).
  - intros p _ _. apply (qt_phase _ _ Hq).
  - intros i s p Hs [->| ->]; auto.
Qed.

Lemma fence_start w p l h seq :
  struct_inv w → fence_inv w → Phase l = PhaseEvicting → beds (mg w) !! nameOf p = Some p →
  fence_inv (mkWorld (setLifecycle (mg w) p.1 l) h (<[p:=EvStarted seq]> (evs w)) (prs w) (stages w)).
Proof.
  intros Hw Hf Hl Hb p' [n Hn]. simpl in *. rewrite phaseOf_setLifecycle.
  rewrite lookup_insert in Hn. case_decide as E.
  - subst p'. rewrite decide_True by done. split; [by apply (unattempted_bed w)|done].
  - destruct (Hf p') as [Hun Hph]; [by exists n|]. split; [done|]. intros Hb'.
    case_decide; [done|auto].
Qed.

Lemma fence_resume w p m' :
  struct_inv w → fence_inv w → evs w !! p = Some EvResuming →
  shrinks w (mkWorld m' (handles w) (delete p (evs w)) (prs w) (stages w)) →
  others_phase (mg w) m' p.1 →
  fence_inv (mkWorld m' (handles w) (delete p (evs w)) (prs w) (stages w)).
Proof.
  intros Hw Hf Hp Hsh Hoth. apply (fence_shrinks w); try done.
  - intros p' Hp'. by apply evicting_delete in Hp' as [? _].
  - intros p' Hev Hb. apply Hoth. intros E.
    destruct (sv_clean w Hw _ _ Hp) as (_&Hm&_).
    rewrite (holds_unique w p' p Hw E Hb Hm) in Hp. destruct Hev as [n [?|?]]; congruence.
Qed.

(** A teardown writes the phase of a model whose name it owns. *)
Lemma fence_teardown w p m' evs' :
  struct_inv w → fence_inv w → may_teardown w p → ¬ evicting w p →
  shrinks w (mkWorld m' (handles w) evs' (prs w) (stages w)) →
  (others_phase (mg w) m' p.1) →
  (∀ p', evicting (mkWorld m' (handles w) evs' (prs w) (stages w)) p' → evicting w p') →
  fence_inv (mkWorld m' (handles w) evs' (prs w) (stages w)).
Proof.
  intros Hw Hf Hm Hne Hsh Hoth Hev. apply (fence_shrinks w); try done.
  intros p' Hev' Hb. apply Hoth. intros E. destruct Hm as [Hm|[[_ Hm]|[i Hi]]].
  - by rewrite (holds_unique w p' p Hw E Hb) in Hne by auto.
  - by rewrite (holds_unique w p' p Hw E Hb) in Hne by auto.
  - destruct (sv_run w Hw i _ Hi eq_refl) as (_&_&_&Hpi&_).
    apply (no_attempt_bed w _ p' Hw Hb i _ Hi eq_refl). congruence.
Qed.

Lemma teardown_start_others m p now m' b :
  teardownStart m p now = Some (m', b) → others_phase m m' p.1.
Proof.
  unfold teardownStart. intros. run_section; [by intros q ?|apply others_setLifecycle].
Qed.

Lemma teardown_end_others m p b failure now : others_phase m (teardownEnd m p b failure now) p.1.
Proof.
  unfold teardownEnd. destruct failure, b; try by intros q ?; try apply others_setLifecycle.
  intros q Hq. by rewrite others_setLifecycle.
Qed.

(** An attempt moves on; phases and residents are as before. *)
Lemma fence_stage w m' i s :
  struct_inv w → fence_inv w → beds m' = beds (mg w) →
  (∀ q, phaseOf m' q = phaseOf (mg w) q) →
  (∀ p, s = Prepared p ∨ s = RollingBack p →
     stages w !! i = Some (Prepared p) ∨ ¬ allocated (mg w) p) →
  fence_inv (w_stages (w_mg w m') (<[i:=s]> (stages w))).
Proof.
  intros Hw Hf Eb Eph Hs. apply (fence_frame w); try done; simpl.
  - intros p. by rewrite Eb.
  - intros j t p [[<- <-]|[_ Ht]]%lookup_insert_Some Hc.
    + destruct (Hs p Hc); auto.
    + destruct Hc; subst; auto.
Qed.

Lemma fence_publish w i p ready now m' :
  struct_inv w → fence_inv w → stages w !! i = Some (Prepared p) →
  publishInitializedBed (mg w) i p ready now = Ok m' →
  fence_inv (w_stages (w_mg w m') (<[i:=Published]> (stages w))).
Proof.
  intros Hw Hf Hs (_&_&_&_&Eb&_&_&_&_&_&_&Eph)%publish_inv. apply (fence_frame w); try done; simpl.
  - intros p' Hb Hun. rewrite Eb, lookup_insert in Hb. case_decide; [|done]. simplify_eq.
    by destruct (Hun i).
  - intros p' _ Hb. apply Eph. intros E. destruct (sv_run w Hw i _ Hs eq_refl) as (_&_&_&Hpi&_).
    apply (no_attempt_bed w _ p' Hw Hb i _ Hs eq_refl). congruence.
  - intros j t p' [[_ <-]|[_ Ht]]%lookup_insert_Some Hc; destruct Hc; subst; auto; done.
Qed.

Lemma begin_others w id fresh serial now m' i :
  struct_inv w → begin_spec (mg w) id fresh serial now m' (Ok (Began i)) →
  beds m' = beds (mg w) ∧ ∀ k p, beds (mg w) !! k = Some p → phaseOf m' p.1 = phaseOf (mg w) p.1.
Proof.
  intros Hw. inversion 1 as [r Hr|r Hr|r Hr|q m1 spec Hclo Hpur Hnb Hnr Hni Hc Hloc]; subst;
    try by edestruct Hr.
  pose proof (struct_shrinks _ _ Hw (shr_cleared w Hw id now Hni)) as Hw1.
  apply local_spec in Hloc as (Hq&_&Hl&Eb&Ei&Er&Ec&Eh&_&_&_&Em); [|apply (sv_loc _ Hw1)].
  split; [done|]. intros k p Hk. set (l := mkLifecycle 0 PhaseInitializing false _ _ _).
  set (m2 := setLifecycle _ q l). change (phaseOf m2 p.1 = phaseOf (mg w) p.1).
  assert (p.1 ≠ q) as Hne.
  { intros E. destruct (sv_bed w Hw k p Hk) as (Hn&_). unfold nameOf in Hn. congruence. }
  unfold m2. rewrite others_setLifecycle by done. unfold phaseOf, lifeOf.
  rewrite getModel_setModel, decide_False, Em; done.
Qed.

(** A resident Bed's phase is not written by the end of an attempt. *)
Lemma finish_others w i failure reason now k p :
  struct_inv w → beds (mg w) !! k = Some p →
  phaseOf (finishInitialization (mg w) i failure reason now) p.1 = phaseOf (mg w) p.1.
Proof.
  intros Hw Hb. unfold finishInitialization. case_bool_decide as Hi; [|done].
  assert (p.1 ≠ i.1) as Hne.
  { intros E. destruct (sv_init w Hw _ _ Hi) as (_&Hn&_).
    destruct (sv_bed w Hw _ _ Hb) as (Hk&_). unfold nameOf in *. congruence. }
  destruct failure as [[c msg]|]; [|done].
  case_bool_decide; [|destruct (negb c)]; try done; [|by apply others_setLifecycle].
  exact (others_setLifecycle (mg w) i.1 _ p.1 Hne).
Qed.

Lemma not_evicting w p c :
  evs w !! p = c → (∀ n, c ≠ Some (EvStarted n) ∧ c ≠ Some (EvPersisted n)) → ¬ evicting w p.
Proof. intros Hc Hn [n Hv]. destruct (Hn n). rewrite Hc in Hv. destruct Hv; auto. Qed.

Lemma fence_step w w' : struct_inv w → fence_inv w → step w w' → fence_inv w'.
Proof.
  intros Hw Hf. destruct 1;
    try (apply (fence_quiet w); [done|done|simpl; unfold_ops; run_section;
           eauto 10 with quiet; fail|done]).
  - apply evict_begun in H0 as (_&?&_&_&_&_&l&?&->). by apply (fence_start w).
  - apply (fence_quiet w); simpl; eauto with quiet. intros p' Hp'.
    apply evicting_insert in Hp'; [done|done|]. intros n _. exists seq. auto.
  - apply (fence_frame w); try done; simpl.
    + intros p' Hp'. by apply evicting_delete in Hp' as [? _].
    + intros p'. unfold evictCommit in *. run_section. simpl. by intros [_ ?]%lookup_delete_Some.
    + unfold evictCommit in *. by run_section.
    + intros j t p' Hj [->| ->]; auto.
  - apply (fence_quiet w); simpl; eauto with quiet. intros p' Hp'.
    destruct (evictResumable _ _); [by apply evicting_insert in Hp'|].
    by apply evicting_delete in Hp' as [? _].
  - apply (fence_resume w p); try done; [by apply shr_evict_resume|].
    intros q Hq. simpl. unfold evictResume. rewrite phaseOf_pillows. by apply others_setLifecycle.
  - apply (fence_shrinks w); try done; [by apply shr_retirement_done|].
    unfold retirementDone. by case_bool_decide.
  - apply (fence_teardown w p); try done; [by eapply not_evicting|by eapply shr_teardown_start|
      by eapply teardown_start_others|]. intros p' Hp'. by apply evicting_insert in Hp'.
  - destruct (sv_clean w Hw _ _ H) as (_&Hm&_).
    apply (fence_teardown w p); try done; [by eapply not_evicting|by apply shr_teardown_end|
      apply teardown_end_others|]. intros p' Hp'. by apply evicting_delete in Hp' as [? _].
  - apply beginInitialization_spec in H0. destruct (begin_others w _ _ _ _ _ _ Hw H0) as [Eb Eph].
    apply (fence_frame w); try done; simpl; [by rewrite Eb|by eauto|].
    intros j t p' [[_ <-]|[_ Ht]]%lookup_insert_Some Hc; destruct Hc; subst; auto; done.
  - apply beginInitialization_spec in H. apply (fence_shrinks w); try done;
      [by eapply shr_begin_other|]. intros p _ _.
    inversion H; subst; try done. by edestruct H0.
  - apply (fence_quiet w); try done. simpl. unfold updateInitialization.
    destruct (_ && _) eqn:E; [|apply quiet_refl]. reflect_bools.
    apply quiet_same_phase; [apply quiet_refl|done].
  - apply (fence_stage w); try done. intros p [[= <-]|[=]]. right. intros [x Hx]. congruence.
  - apply (fence_stage w (mg w)); try done. by intros p [|].
  - apply (fence_stage w); try done. by intros p [|].
  - by eapply fence_publish.
  - apply (fence_stage w); try done. intros p' [[=]|[= ->]]. by left.
  - apply (fence_stage w); try done. by intros p' [|].
  - apply (fence_stage w (mg w)); try done. by intros p' [|].
  - apply (fence_shrinks w); try done; [eapply shr_finish; [done|done|by destruct failure]|].
    intros p' _ Hb. by eapply finish_others.
  - apply (fence_shrinks w); try done; [by apply shr_cancel|]. unfold cancelInitialization.
    by repeat case_match.
  - apply (fence_shrinks w); try done; by apply shr_prune.
  - apply (fence_shrinks w); try done; [by apply shr_forget|]. intros p _ Hb.
    simpl. unfold forgetIdentity. case_bool_decide; [|done]. rewrite others_setLifecycle; [done|].
    intros E. unfold nameOf in Hb. congruence.
  - apply (fence_shrinks w); try done; [by eapply shr_local|]. intros p _ _. unfold phaseOf. simpl.
    by rewrite (keep_local _ _ _ _ _ p.1 H H0).
  - apply observe_inv in H as [->| ->]; [done|].
    apply (fence_shrinks w); try done; by apply shr_prune.
  - unfold purgeClaim in *. destruct (beds (mg w) !! id) as [p0|] eqn:Hb; simplify_eq; [|done].
    apply (fence_frame w); try done; simpl.
    + intros p'. destruct (pinnedLocked _ _); simpl; by intros [_ ?]%lookup_delete_Some.
    + by destruct (pinnedLocked _ _).
    + intros j t p' Hj [->| ->]; auto.
  - by apply (fence_shrinks w); try done; apply shr_purge_done.
  - by apply (fence_shrinks w); try done; apply shr_close.
Qed.

Lemma fence_initial w : initial w → fence_inv w.
Proof. intros [_ _ _ _ _ _ _ _ _ _ He _ _] p [n Hn]. rewrite He in Hn. by destruct Hn. Qed.

Lemma fence_reachable w : reachable w → fence_inv w.
Proof.
  apply reachable_ind_step; [apply fence_initial|].
  intros w0 w' Hr Hf Hs. eapply fence_step; eauto using struct_reachable.
Qed.
