(* ===== verification/ManagerTheorems.v ===== *)
(** * ManagerTheorems: what the Bed Manager guarantees

    The properties of the interleaved daemon ([ManagerSteps.v]) and of its
    admission, renewal and capacity decisions ([Manager.v]), each with a
    concrete run of the daemon that satisfies its hypotheses. *)

From S2P Require Import Prelude Bed Manager ManagerSteps ManagerInv ManagerSafety.

(** ** A run of the daemon

    One durable Bed on a daemon with two slots: initialized, published, used by
    one operation, then evicted. *)

Module Demo.
Definition spec : Spec := mkSpec None [] SyncCAS false 0.
Definition q : mref := ("a"%string, 1%N).
Definition i : iref := (q, 1%N).
Definition p : bref := (q, 2%N).
Definition no_conflict (s : Spec) : option merr := None.

Definition ok {A} (d : A) (r : result merr A) : A := match r with Ok a => a | Err _ => d end.

Definition w0 : World := mkWorld (NewManager 2 100) [] ∅ ∅ ∅.
Definition w1 : World :=
  w_stages (w_mg w0 (beginInitialization (mg w0) "a" spec no_conflict no_conflict Ok None true 1 1 1000).1)
    (<[i:=Running]> (stages w0)).
Definition w2 : World :=
  w_stages (w_mg w1 (setBed (mg w1) p (residentBed (mg w1) 1010 0 0 (mkUsage 0 0 0 0) false)))
    (<[i:=Prepared p]> (stages w1)).
Definition w3 : World :=
  w_stages (w_mg w2 (ok (mg w2) (publishInitializedBed (mg w2) i p true 1010)))
    (<[i:=Published]> (stages w2)).
Definition w4 : World :=
  w_handles (w_mg w3 (ok (mg w3) (BeginOperation (mg w3) p OpExec 50 1020 true)))
    [(p, OpExec)].
Definition w5 : World := w_handles (w_mg w4 (finishOperation (mg w4) p OpExec 1030)) [].
Definition w6 : World :=
  w_evs (w_mg w5 (ok (false, mg w5) (beginEvictionLocked (mg w5) p None true 2000)).2)
    (<[p:=EvStarted 2]> (evs w5)).
Definition w7 : World :=
  w_prs (w_mg w6 (ok (0, mg w6) (persistPrepare (mg w6) p 0 true)).2) (<[p:=(1030, true)]> (prs w6)).
Definition w8 : World :=
  w_evs (w_prs (w_mg w7 (persistCommit (mg w7) p 1030 5)) (delete p (prs w7)))
    (<[p:=EvPersisted 2]> (evs w7)).

Lemma initial_w0 : initial w0.
Proof. by split. Qed.

Lemma steps_w3 : steps w0 w3.
Proof.
  eapply steps_step; [eapply steps_step; [eapply steps_step; [apply steps_refl|]|]|].
  - eapply (st_begin_init w0 "a" spec no_conflict no_conflict Ok None true 1 1 1000); by vm_compute.
  - apply (st_prepared w1 i 2 1010 0 0 (mkUsage 0 0 0 0) false); by vm_compute.
  - apply (st_publish w2 i p true 1010); by vm_compute.
Qed.

Lemma steps_w5 : steps w0 w5.
Proof.
  eapply steps_step; [eapply steps_step; [apply steps_w3|]|].
  - apply (st_begin_op w3 p OpExec 50 1020 true); by vm_compute.
  - by apply (st_finish_op w4 p OpExec 1030 [] []).
Qed.

Lemma steps_w8 : steps w0 w8.
Proof.
  eapply steps_step; [eapply steps_step; [eapply steps_step; [apply steps_w5|]|]|].
  - apply (st_evict_start w5 p None 2000); by vm_compute.
  - apply (st_evict_prepare w6 p 2 0 true 1030); by vm_compute.
  - apply (st_evict_persisted w7 p 2 1030 5); by vm_compute.
Qed.

Lemma reachable_w3 : reachable w3.
Proof. exists w0. split; [apply initial_w0|apply steps_w3]. Qed.
Lemma reachable_w5 : reachable w5.
Proof. exists w0. split; [apply initial_w0|apply steps_w5]. Qed.
Lemma reachable_w8 : reachable w8.
Proof. exists w0. split; [apply initial_w0|apply steps_w8]. Qed.
End Demo.

(** ** Capacity *)

(** C2: In every reachable state of the daemon, under any interleaving of
    initialization, eviction, purge and rollback, the slots counted by
    [occupiedBedsLocked] (resident, retiring and initializing names) never
    exceed a configured bed limit: the admission test and the registration of
    the attempt are one critical section, and no later section of any lifecycle
    path takes a second slot. *)
Theorem bed_limit_respected w :
  reachable w → 0 < maxBeds (mg w) → occupiedBedsLocked (mg w) <= maxBeds (mg w).
Proof. intros Hr Hpos. destruct (occ_reachable w Hr); lia. Qed.

Lemma bed_limit_respected_witness : occupiedBedsLocked (mg Demo.w3) <= maxBeds (mg Demo.w3).
Proof. apply (bed_limit_respected Demo.w3); [exact Demo.reachable_w3|by vm_compute]. Defined.

(** C3: The counters the daemon keeps incrementally are exact in every
    reachable state: [residentBeds] is the number of resident Beds and
    [pinnedBeds] the number of resident Beds that are in use or hold data not
    yet persisted, although operations, sessions, persistence, publication,
    eviction and purge each adjust them by one from different goroutines. *)
Theorem capacity_counters_exact w :
  reachable w →
  residentBeds (mg w) = Z.of_nat (size (beds (mg w))) ∧
  pinnedBeds (mg w) = map_count (pinnedLocked (mg w)) (beds (mg w)).
Proof. apply count_reachable. Qed.

Lemma capacity_counters_exact_witness :
  residentBeds (mg Demo.w5) = 1 ∧
  pinnedBeds (mg Demo.w5) = map_count (pinnedLocked (mg Demo.w5)) (beds (mg Demo.w5)).
Proof.
  split; [by vm_compute|]. apply (capacity_counters_exact Demo.w5). exact Demo.reachable_w5.
Defined.

(** The pressure signal is the ceiling test it documents: with a positive
    percentage, pressure is reported exactly when the pinned Beds reach
    [percent]% of a configured pinned limit or the occupied Beds reach
    [percent]% of a configured bed limit, computed without rounding down. *)
Lemma bed_pressure_spec m occupied pinned :
  bedPressureForCounts m occupied pinned = true ↔
  0 < pressurePercent m ∧
  (0 < maxPinnedBeds m ∧ maxPinnedBeds m * pressurePercent m <= 100 * pinned ∨
   0 < maxBeds m ∧ maxBeds m * pressurePercent m <= 100 * occupied).
Proof.
  assert (∀ limit percent n, 0 < percent →
    (0 <? bedPressureThreshold limit percent) && (bedPressureThreshold limit percent <=? n) = true
    ↔ 0 < limit ∧ limit * percent <= 100 * n) as Hth.
  { intros limit percent n Hp. unfold bedPressureThreshold.
    destruct (Z.leb_spec limit 0) as [Hl|Hl]; [simpl; split; [done|lia]|].
    destruct (Z.leb_spec percent 0); [lia|]. simpl.
    rewrite andb_true_iff, Z.ltb_lt, Z.leb_le.
    pose proof (Z.div_mod (limit * percent + 99) 100 ltac:(lia)).
    pose proof (Z.mod_pos_bound (limit * percent + 99) 100 ltac:(lia)). nia. }
  unfold bedPressureForCounts. destruct (Z.leb_spec (pressurePercent m) 0) as [Hp|Hp].
  { split; [done|lia]. }
  pose proof (Hth (maxPinnedBeds m) (pressurePercent m) pinned Hp) as H1.
  pose proof (Hth (maxBeds m) (pressurePercent m) occupied Hp) as H2.
  destruct (_ && _); [tauto|]. rewrite H2. assert (false = true ↔ False) by done. tauto.
Qed.

(** ** Lifecycle collections *)

(** In every reachable state a name is held by at most one of the resident
    Beds and the retirements, a resident name has no registered initialization,
    every entry is filed under its own name, and, until shutdown, a resident
    Bed's model is in phase Resident or Evicting. *)
Lemma lifecycle_collections_exclusive w name p :
  reachable w → beds (mg w) !! name = Some p →
  nameOf p = name ∧ retirements (mg w) !! name = None ∧ initializations (mg w) !! name = None ∧
  (closed (mg w) = false →
   phaseOf (mg w) p.1 = PhaseResident ∨ phaseOf (mg w) p.1 = PhaseEvicting).
Proof.
  intros Hr Hb. pose proof (struct_reachable w Hr) as Hw.
  destruct (sv_bed w Hw _ _ Hb) as (?&_&?&Hres). split_and!; [done|done|..].
  - destruct (initializations (mg w) !! name) as [i|] eqn:Hi; [|done].
    destruct (sv_init w Hw _ _ Hi) as (_&?&_). congruence.
  - intros Hc. destruct Hres as [?|?]; [congruence|done].
Qed.

(** In every reachable state the in-flight count of an allocation is the
    number of admitted operations that have not ended: no interleaving loses a
    completion or counts one twice, so a Bed is idle exactly when no admitted
    operation is outstanding. *)
Lemma inflight_counts_handles w p :
  reachable w → inflight (getBed (mg w) p) = handlesOf w p.
Proof. intros Hr. apply (handle_reachable w Hr). Qed.

(** ** Eviction *)

(** C1: Eviction gives up local data only when nothing would be lost.  When the
    final recheck of an eviction succeeds, in any reachable state, the Bed has
    no outstanding operation, its durable watermark is its last activity
    (whatever sessions, touches or checkpoints ran since admission closed), and
    the name moves from the resident set to the retirements in that section. *)
Theorem eviction_commits_durable_state w p seq m' :
  reachable w → evs w !! p = Some (EvPersisted seq) → evictCommit (mg w) p seq = Some m' →
  handlesOf w p = 0 ∧
  persistedAt (getBed (mg w) p) = lastActiveAt (getBed (mg w) p) ∧
  dataSyncedLocked (mg w) p = true ∧
  beds m' !! nameOf p = None ∧ retirements m' !! nameOf p = Some p.
Proof.
  intros Hr Hp Hc.
  destruct (evict_commit_synced w p seq m' (ev_reachable w Hr) Hp Hc) as (_&Hi&Hs&?&?&_).
  rewrite (handle_reachable w Hr p) in Hi. unfold handlesOf in *. split_and!; try done; [lia|].
  unfold dataSyncedLocked. by rewrite Hs, Z.ltb_irrefl, orb_true_r.
Qed.

Lemma eviction_commits_durable_state_witness :
  is_Some (evictCommit (mg Demo.w8) Demo.p 2) ∧ dataSyncedLocked (mg Demo.w8) Demo.p = true.
Proof.
  split; [by vm_compute; eauto|].
  destruct (evictCommit (mg Demo.w8) Demo.p 2) as [m'|] eqn:E; [|by vm_compute in E].
  apply (eviction_commits_durable_state Demo.w8 Demo.p 2 m' Demo.reachable_w8);
    [by vm_compute|exact E].
Defined.

(** An eviction that has closed admission keeps it closed: while the
    eviction owns the Bed, from the fence until its recheck or its resumption,
    no operation is admitted, no renewal succeeds and no second eviction
    starts, in any reachable state and for every argument. *)
Lemma eviction_fence_holds w p :
  reachable w → evicting w p →
  (∀ kind timeout now allowed,
     BeginOperation (mg w) p kind timeout now allowed = Err ErrBedUnavailable) ∧
  (∀ e now, RenewExpiration (mg w) (Some p) e now = Err ErrBedUnavailable) ∧
  (∀ cutoff stop now m', beginEvictionLocked (mg w) p cutoff stop now ≠ Ok (true, m')).
Proof.
  intros Hr Hev. destruct (fence_reachable w Hr p Hev) as [_ Hph].
  assert (isCurrent (mg w) p = true → phaseOf (mg w) p.1 = PhaseEvicting) as Hc.
  { intros Hc. by apply Hph, isCurrent_spec. }
  split_and!.
  - intros. unfold BeginOperation. destruct (isCurrent (mg w) p); [|done].
    rewrite (Hc eq_refl). by destruct (closed (mg w)).
  - intros. unfold RenewExpiration. destruct (isCurrent (mg w) p); [|by rewrite !orb_true_r].
    by rewrite (Hc eq_refl), !orb_true_r.
  - intros * (_&Hb&_&Hres&_)%evict_begun. apply isCurrent_spec, Hc in Hb. congruence.
Qed.

(** ** Retention *)

Lemma clampTimeout_pos timeout : 0 < clampTimeout timeout.
Proof.
  unfold clampTimeout. assert (0 < DefaultOperationTimeout) by done.
  assert (0 < MaxOperationTimeout) by done.
  destruct (Z.leb_spec timeout 0); case_match; lia.
Qed.

(** An admitted operation buys retention that nothing takes back.  From any
    state reached after an operation was admitted at [now] with budget
    [timeout], along every later interleaving, an automatic eviction whose
    cutoff lies before [now + budget + idle period] is refused, even if the
    operation ended long before. *)
Lemma operation_extends_retention w w' p kind timeout now allowed m' cutoff stop t m'' :
  reachable w →
  BeginOperation (mg w) p kind timeout now allowed = Ok m' →
  steps (w_handles (w_mg w m') ((p, kind) :: handles w)) w' →
  0 <= now → 0 < idleTTL (getBed (mg w) p) →
  cutoff < now + clampTimeout timeout + idleTTL (getBed (mg w) p) →
  beginEvictionLocked (mg w') p (Some cutoff) stop t ≠ Ok (true, m'').
Proof.
  intros Hr Hop Hsteps Hnow Httl Hcut Hev. pose proof (clampTimeout_pos timeout) as Hclamp.
  apply evict_begun in Hev as (_&_&_&_&_&Hret&_). destruct (Hret cutoff eq_refl) as [Hnz Hle].
  apply begin_op_inv in Hop as (Hb&_&_&_&_&->). revert Hcut Hclamp Hsteps.
  generalize (clampTimeout timeout) as budget. intros budget Hcut Hclamp Hsteps.
  set (m1 := adjustPinnedLocked _ _ _) in *.
  assert (allocated (mg w) p) as Ha by (eapply bed_allocated; eauto using struct_reachable).
  assert (act_le (mg w) (keepaliveLocked m1 p.1 (now + budget))) as Hact
    by (unfold m1; auto with act).
  destruct (Hact p Ha) as [Ha1 [Hi1 _]].
  destruct (steps_retention _ _ p Hsteps Ha1) as (_&Hi&Hk).
  cbn [mg w_handles w_mg] in Hi, Hk. rewrite keep_keepalive, decide_True in Hk by done.
  unfold retainedUntilLocked, retentionDeadline in *. rewrite Hi, Hi1 in *.
  destruct (Z.leb_spec (idleTTL (getBed (mg w) p)) 0); [lia|].
  destruct (Z.eqb_spec (KeepaliveAt (lifeOf (mg w') p.1)) 0); cbn in Hnz, Hle; lia.
Qed.

(** Retention only moves forward: along every run, the retention base of
    every model never decreases, across operations, renewals, evictions,
    purges, re-initializations and recoveries. *)
Lemma retention_is_monotone w w' q :
  steps w w' → KeepaliveAt (lifeOf (mg w) q) <= KeepaliveAt (lifeOf (mg w') q).
Proof.
  induction 1 as [w|w1 w2 w3 H12 IH H23]; [lia|]. pose proof (step_keep _ _ H23 q). lia.
Qed.

(** Renewal grants exactly the later of the old deadline and the requested
    expiry.  For a Bed with a retention period, a renewal to expiry [t]
    succeeds exactly when the Bed is resident, current, not being purged, the
    daemon is open and [t] is in the future and representable; it then reports
    and installs the deadline [max old t], and no other Bed's retention moves. *)
Lemma renew_expiration_spec m p t zone now :
  0 < idleTTL (getBed m p) → 0 < KeepaliveAt (lifeOf m p.1) →
  ((∃ d m', RenewExpiration m (Some p) (Some (t, zone)) now = Ok (d, m')) ↔
   closed m = false ∧ beds m !! nameOf p = Some p ∧ purging (getBed m p) = false ∧
   phaseOf m p.1 = PhaseResident ∧ now < t ∧ t + zone < year10000) ∧
  (∀ d m', RenewExpiration m (Some p) (Some (t, zone)) now = Ok (d, m') →
   d = Z.max (retainedUntilLocked m p) t ∧ retainedUntilLocked m' p = d ∧
   ∀ q, q ≠ p.1 → lifeOf m' q = lifeOf m q).
Proof.
  intros Httl Hkeep. unfold RenewExpiration. generalize year10000 as y. intros y. split.
  - destruct (closed m || _ || _ || _) eqn:E1.
    { split; [by intros (?&?&?)|]. intros (H1&H2&H3&H4&_). apply isCurrent_spec in H2.
      by rewrite H1, H2, H3, H4 in E1. }
    reflect_bools. rewrite isCurrent_spec in *.
    destruct ((t <=? now) || (y <=? t + zone)) eqn:E2.
    + split; [by intros (?&?&?)|]. intros (_&_&_&_&?&?). reflect_bools. lia.
    + reflect_bools. split; [intros _; by split_and!|eauto].
  - intros d m'. destruct (closed m || _ || _ || _); [done|]. destruct (_ || _) eqn:E; [done|].
    apply orb_false_iff in E as [E _]. apply Z.leb_gt in E.
    destruct (Z.ltb_spec 0 (idleTTL (getBed m p))); [|lia]. intros [= <- <-].
    unfold retainedUntilLocked, retentionDeadline. rewrite keep_keepalive, decide_True by done.
    assert (getBed (keepaliveLocked m p.1 (t - idleTTL (getBed m p))) p = getBed m p) as Hb.
    { unfold getBed at 1. destruct (frame_keepalive m p.1 (t - idleTTL (getBed m p)))
        as (_&_&_&->&_). done. }
    rewrite Hb. destruct (Z.leb_spec (idleTTL (getBed m p)) 0); [lia|]. simpl.
    destruct (Z.eqb_spec (Z.max (KeepaliveAt (lifeOf m p.1)) (t - idleTTL (getBed m p))) 0); [lia|].
    destruct (Z.eqb_spec (KeepaliveAt (lifeOf m p.1)) 0); [lia|]. split_and!; [lia|done|].
    intros q Hq. unfold keepaliveLocked. case_match; by rewrite lifeOf_setLife, decide_False.
Qed.

(** Operation admission.  An operation is admitted exactly when its Bed is
    the current resident one on an open daemon, a Bed with main processes is
    ready (unless this is a control operation), and the host admits more work
    or the Bed is already pinned; host pressure is reported only when it is the
    remaining reason.  Admission counts the operation, pins the Bed and extends
    its retention by the clamped budget. *)
Lemma operation_admission_spec m p kind timeout now allowed :
  ((∃ m', BeginOperation m p kind timeout now allowed = Ok m') ↔
   beds m !! nameOf p = Some p ∧ closed m = false ∧ phaseOf m p.1 = PhaseResident ∧
   (HasMainProcesses (specOf m p.1) = true → Ready (lifeOf m p.1) = true ∨ kind = OpControl) ∧
   (pinnedLocked m p = true ∨ allowed = true)) ∧
  (BeginOperation m p kind timeout now allowed = Err ErrResourcePressure →
   allowed = false ∧ pinnedLocked m p = false) ∧
  (∀ m', BeginOperation m p kind timeout now allowed = Ok m' → 0 <= inflight (getBed m p) →
   inflight (getBed m' p) = inflight (getBed m p) + 1 ∧ pinnedLocked m' p = true ∧
   KeepaliveAt (lifeOf m' p.1) =
     Z.max (KeepaliveAt (lifeOf m p.1)) (now + clampTimeout timeout)).
Proof.
  split_and!.
  - split; [intros [m' (?&?&?&?&?&_)%begin_op_inv]; by split_and!|].
    intros (Hb&Hc&Hp&Hm&Ha). unfold BeginOperation. apply isCurrent_spec in Hb.
    rewrite Hb, Hc, Hp. simpl.
    destruct (HasMainProcesses (specOf m p.1) && _ && _) eqn:E.
    { reflect_bools. destruct Hm; congruence. }
    destruct (pinnedLocked m p), allowed; eauto. by destruct Ha.
  - unfold BeginOperation. destruct (_ || _); [done|]. destruct (negb _); [done|].
    destruct (_ && _ && _); [done|]. by destruct (pinnedLocked m p), allowed.
  - intros m' (_&_&_&_&_&->)%begin_op_inv Hi.
    assert (∀ x, getBed (keepaliveLocked (adjustPinnedLocked (setBed m p (startOp (getBed m p)
      kind now)) p (pinnedLocked m p)) p.1 x) p = startOp (getBed m p) kind now) as Hb.
    { intros x. set (m1 := setBed _ _ _).
      assert (getBed m1 p = startOp (getBed m p) kind now) as Hb1
        by (unfold m1; by rewrite getBed_setBed, decide_True).
      rewrite <-Hb1. unfold keepaliveLocked, adjustPinnedLocked. by repeat case_match. }
    rewrite keep_keepalive, lifeOf_adjust, decide_True by done.
    unfold pinnedLocked at 2. rewrite Hb. cbn [startOp inflight].
    split_and!; [reflexivity| |reflexivity].
    destruct (Z.ltb_spec 0 (inflight (getBed m p) + 1)); [reflexivity|lia].
Qed.

Lemma local_purges m id fresh q m' :
  localIdentityLocked m id fresh = (q, m') → purges m' = purges m.
Proof. unfold localIdentityLocked. intros. by run_section. Qed.

(** One initialization per name.  When a request registers a new attempt,
    every further request for that name, whatever it carries, registers none
    while the attempt runs: it joins that attempt or is refused for a
    declaration mismatch, and the recorded declaration is not replaced. *)
Lemma initialization_is_single_flight m id spec mismatch conflict resolve selection allowed
    fresh serial now m' i spec2 mismatch2 conflict2 resolve2 selection2 allowed2 fresh2 serial2 now2 :
  (∀ k q, localIdentities m !! k = Some q → q.1 = k) →
  beginInitialization m id spec mismatch conflict resolve selection allowed fresh serial now
    = (m', Ok (Began i)) →
  ∃ m'', beginInitialization m' id spec2 mismatch2 conflict2 resolve2 selection2 allowed2 fresh2 serial2 now2
    = (m'', match mismatch2 (specOf m' i.1) with Some e => Err e | None => Ok (Joined i) end) ∧
  initializations m'' !! id = Some i ∧ specOf m'' i.1 = specOf m' i.1.
Proof.
  intros Hloc H. apply beginInitialization_spec in H.
  inversion H as [r Hr|r Hr|r Hr|q m1 sp Hclo Hpur Hnb Hnr Hni Hc Hl]; subst; try by edestruct Hr.
  clear H. set (m' := with_initializations _ _).
  pose proof (local_purges _ _ _ _ _ Hl) as Ep.
  apply local_spec in Hl as (Hq&_&_&Eb&Ei&Er&Ec&Eh&_&_&_&_); [|done].
  assert (phaseOf m' q = PhaseInitializing) as Hph.
  { unfold m'. set (m2 := setLifecycle _ _ _). change (phaseOf m2 q = PhaseInitializing).
    unfold m2. by rewrite phaseOf_setLifecycle, decide_True. }
  assert (initializations m' !! id = Some (q, serial)) as Hi by (by simpl; rewrite lookup_insert_eq).
  assert (initializations (pruneFailedInitializationsLocked m' now2) !! id = Some (q, serial)) as Hi2.
  { simpl. apply map_lookup_filter_Some. split; [done|]. simpl. intros [Hf _]. congruence. }
  exists (pruneFailedInitializationsLocked m' now2). split; [|done].
  unfold beginInitialization.
  assert (closed m' = false) as -> by (simpl; by rewrite Ec).
  assert (purges (pruneFailedInitializationsLocked m' now2) !! id = None) as ->
    by (simpl; by rewrite Ep).
  assert (beds (pruneFailedInitializationsLocked m' now2) !! id = None) as ->
    by (simpl; by rewrite Eb).
  rewrite Hi2. assert (bool_decide (is_Some (None : option N)) = false) as -> by done. simpl.
  change (phaseOf (pruneFailedInitializationsLocked m' now2) q) with (phaseOf m' q).
  by rewrite bool_decide_true.
Qed.

(** ** Observation and collection *)

(** A declared Bed stays observable.  In every reachable state, a name that
    is resident, retiring or initializing, or whose attempt is still running,
    prepared or rolling back, is resolved by one observation: it never falls
    between the collections while it moves from initializing to resident or
    back, and a resident name is reported as its resident Bed. *)
Lemma declared_bed_observable w name now :
  reachable w →
  name ∈ occSet (mg w) ∨
  (∃ i s, nameOf i = name ∧ stages w !! i = Some s ∧ unfinished s = true) →
  ∃ m' o, ObserveBed (mg w) name now = (m', Some o) ∧
    (∀ p, beds (mg w) !! name = Some p → o = ObsResident p).
Proof.
  intros Hr Hin. pose proof (struct_reachable w Hr) as Hw.
  assert (is_Some (beds (mg w) !! name) ∨ is_Some (retirements (mg w) !! name) ∨
    ∃ i, initializations (mg w) !! name = Some i ∧ phaseOf (mg w) i.1 = PhaseInitializing) as Hocc.
  { destruct Hin as [Hin|(i&s&<-&Hs&Hu)]; [by apply elem_of_occSet|].
    destruct (sv_run w Hw i s Hs Hu) as (?&?&_). eauto. }
  unfold ObserveBed. destruct (beds (mg w) !! name) as [p|] eqn:Hb.
  { eexists _, _. split; [done|]. by intros ? [= ->]. }
  assert (is_Some (initializationLocked (mg w) name now).2) as [o Ho].
  { unfold initializationLocked. simpl. destruct (purges (mg w) !! name); [done|].
    destruct (retirements (mg w) !! name) eqn:Hret; [done|].
    destruct Hocc as [[]|[[]|(i&Hi&Hp)]]; try done.
    destruct (sv_init w Hw _ _ Hi) as (<-&_).
    pose proof (prune_keeps w now i Hi Hp) as Hk. simpl in Hk. by rewrite Hk. }
  destruct (initializationLocked (mg w) name now) as [m1 o1]. simpl in Ho. subst o1.
  eexists _, _. split; [done|]. done.
Qed.

(** Idle collection is exact.  The scan selects the resident names whose
    retention deadline is set and has passed, and no others; and evicting a
    selected Bed with the scan's time as cutoff is granted exactly when the Bed
    is still resident, idle and not being purged on an open daemon. *)
Lemma idle_collection_exact m now name :
  (name ∈ staleBeds m now ↔ ∃ p, beds m !! name = Some p ∧
     retainedUntilLocked m p ≠ 0 ∧ retainedUntilLocked m p <= now) ∧
  (∀ p stop t, names_ok m → beds m !! name = Some p → name ∈ staleBeds m now →
     (∃ m', beginEvictionLocked m p (Some now) stop t = Ok (true, m')) ↔
     closed m = false ∧ purging (getBed m p) = false ∧
     phaseOf m p.1 = PhaseResident ∧ inflight (getBed m p) <= 0).
Proof.
  assert (name ∈ staleBeds m now ↔ ∃ p, beds m !! name = Some p ∧
     retainedUntilLocked m p ≠ 0 ∧ retainedUntilLocked m p <= now) as Hst.
  { unfold staleBeds. rewrite list_elem_of_fmap. split.
    - intros ([k p]&->&Hin). apply list_elem_of_filter in Hin as [Ht Hin].
      apply elem_of_map_to_list in Hin. exists p. simpl in *. by reflect_bools.
    - intros (p&Hb&H1&H2). exists (name, p). split; [done|].
      apply list_elem_of_filter. split; [|by apply elem_of_map_to_list]. simpl.
      apply andb_true_iff. split; [by apply negb_true_iff, Z.eqb_neq|by apply Z.leb_le]. }
  split; [done|]. intros p stop t Hn Hb Hin. apply Hst in Hin as (p'&Hb'&Hnz&Hle). simplify_eq.
  split.
  - by intros [m' (?&?&?&?&?&_)%evict_begun].
  - intros (Hc&Hp&Hph&Hi). unfold beginEvictionLocked.
    assert (isCurrent m p = true) as -> by (apply isCurrent_spec; by rewrite (Hn _ _ Hb)).
    rewrite Hc, Hp, Hph. simpl. destruct (Z.ltb_spec 0 (inflight (getBed m p))); [lia|].
    apply Z.eqb_neq in Hnz. rewrite Hnz. destruct (Z.ltb_spec now (retainedUntilLocked m p)); [lia|].
    simpl. eauto.
Qed.

