(* ===== verification/Execution.v ===== *)
(** * Execution: command lifetimes, output windows and history

    Models [internal/bed/manager/execution.go] and [execution_log.go]: the
    terminal transition of one execution, the bounded output window with its
    absolute cursor, and the registry that prunes history.  Each definition is
    one critical section under [e.mu] or [r.mu]; clock readings and the outcome
    of file removal are arguments. *)

From S2P Require Import Prelude.

(** ** Data *)

Inductive ExecutionMode := ExecutionForeground | ExecutionBackground | ExecutionSession | ExecutionMain.
#[export] Instance ExecutionMode_eq_dec : EqDecision ExecutionMode.
Proof. solve_decision. Defined.

Inductive TerminationCause :=
| CausePreparationFailed | CauseOutputFailure | CauseNatural | CauseTimeout
| CauseClientCanceled | CauseInterrupted | CauseMainStop | CauseBedTeardown
| CauseDaemonShutdown | CauseExternalSignal | CauseOOM | CauseExecutorLost.
#[export] Instance TerminationCause_eq_dec : EqDecision TerminationCause.
Proof. solve_decision. Defined.

Inductive ProcessOutcomeKind := ProcessExited | ProcessSignaled | ProcessLost.
Inductive OutputStream := StreamStdout | StreamStderr.

Record ExecutionOutput := mkOutput { Sequence : Z; Stream : OutputStream; Text : string }.

(** [Process] is nil when the command did not start; [failed] says whether a
    preparation error is recorded. *)
Record ExecutionResult := mkResult {
  FinishedAt : Z; Duration : Z;
  Process : option ProcessOutcomeKind; failed : bool; Cause : TerminationCause }.

Record executionLog := mkLog { writing : bool; log_err : bool }.

Record Execution := mkExecution {
  BedID : string;
  Mode : ExecutionMode;
  finishing : bool;
  startedAt : Z;
  finishedAt : option Z;
  result : option ExecutionResult;
  stopCause : option TerminationCause;   (* "" is None *)
  output : list ExecutionOutput;
  outputBytes : Z;
  truncated : bool;
  nextOutput : Z;
  dropped : Z;
  log : option executionLog;
}.

Definition executionOutputBytes : Z := 65536.
Definition executionOutputFragments : Z := 1024.
Definition executionHistoryLimit : Z := 1024.

Definition newExecution (bedID : string) (mode : ExecutionMode) (l : option executionLog) (now : Z)
  : Execution :=
  mkExecution bedID mode false now None None None [] 0 false 0 0 l.

Definition withTerminal (e : Execution) fin fat res stop l : Execution :=
  mkExecution (BedID e) (Mode e) fin (startedAt e) fat res stop (output e) (outputBytes e)
    (truncated e) (nextOutput e) (dropped e) l.

Definition withOutput (e : Execution) out bytes trunc next drop : Execution :=
  mkExecution (BedID e) (Mode e) (finishing e) (startedAt e) (finishedAt e) (result e) (stopCause e)
    out bytes trunc next drop (log e).

(** ** The terminal transition *)

Definition requestStop (e : Execution) (cause : TerminationCause) : bool * Execution :=
  if bool_decide (is_Some (result e)) || finishing e || bool_decide (is_Some (stopCause e))
  then (false, e)
  else (true, withTerminal e (finishing e) (finishedAt e) (result e) (Some cause) (log e)).

Definition claimFinish (e : Execution) : option TerminationCause * Execution :=
  match stopCause e with
  | None => (None, withTerminal e true (finishedAt e) (result e) (stopCause e) (log e))
  | Some c => (Some c, e)
  end.

(** The cause published by [finishResult], from the claimed stop cause, the
    preparation failure and the process outcome. *)
Definition terminalCause (claimed : option TerminationCause) (failure : bool)
    (outcome : option ProcessOutcomeKind) : TerminationCause :=
  match claimed with
  | Some c => c
  | None =>
      if failure then CausePreparationFailed
      else match outcome with
           | Some ProcessExited => CauseNatural
           | Some ProcessSignaled => CauseExternalSignal
           | _ => CauseExecutorLost
           end
  end.

(** The publication section of [finishResult]; [closeFails] is the error of
    closing the log writer. *)
Definition publishResult (e : Execution) (claimed : option TerminationCause) (failure : bool)
    (outcome : option ProcessOutcomeKind) (closeFails : bool) (now : Z) : Execution :=
  let r := mkResult now (now - startedAt e) outcome failure (terminalCause claimed failure outcome) in
  let l := (λ x, mkLog false (log_err x || closeFails)) <$> log e in
  withTerminal e false (Some now) (Some r) (stopCause e) l.

Definition Running (e : Execution) : bool := negb (bool_decide (is_Some (result e))).

(** ** The output window *)

Definition textLen (o : ExecutionOutput) : Z := Z.of_nat (String.length (Text o)).

(** The eviction loop; [None] is the index panic of an empty slice. *)
Fixpoint trimOutput (bytes drop : Z) (trunc : bool) (out : list ExecutionOutput)
  : option (list ExecutionOutput * Z * Z * bool) :=
  if (executionOutputBytes <? bytes) || (executionOutputFragments <? Z.of_nat (length out))
  then match out with
       | [] => None
       | o :: out => trimOutput (bytes - textLen o) (drop + 1) true out
       end
  else Some (out, bytes, drop, trunc).

Definition suffix (n : Z) (s : string) : string :=
  String.substring (String.length s - Z.to_nat n) (Z.to_nat n) s.

Definition retain (o : ExecutionOutput) : ExecutionOutput * bool :=
  if executionOutputBytes <? textLen o
  then (mkOutput (Sequence o) (Stream o) (suffix executionOutputBytes (Text o)), true)
  else (o, false).

Definition appendOutput (e : Execution) (stream : OutputStream) (text : string)
  : option (ExecutionOutput * Execution) :=
  let o := mkOutput (nextOutput e) stream text in
  let '(retained, cut) := retain o in
  match trimOutput (outputBytes e + textLen retained) (dropped e) (truncated e || cut)
          (output e ++ [retained]) with
  | None => None
  | Some (out, bytes, drop, trunc) =>
      Some (o, withOutput e out bytes trunc (nextOutput e + 1) drop)
  end.

Definition Logs (e : Execution) (cursor : Z) : list ExecutionOutput * Z * bool * bool :=
  let start := if cursor <? 0 then 0 else wrap64 (cursor + 1) in
  let gap := start <? dropped e in
  let start := if gap then dropped e else start in
  (if start <? nextOutput e then drop (Z.to_nat (start - dropped e)) (output e) else [],
   nextOutput e - 1, Running e, gap || truncated e).

Definition releaseOutput (e : Execution) : Execution :=
  withOutput e [] 0 (truncated e || (0 <? nextOutput e)) (nextOutput e) (nextOutput e).

(** [removable] is the outcome of [os.Remove] on a closed log. *)
Definition removeLog (e : Execution) (removable : bool) : bool :=
  match log e with
  | None => true
  | Some l => if writing l then false else removable
  end.

(** Bounds of a background log read: [size] is the file size. *)
Definition OpenBackgroundLog (e : Execution) (cursor size : Z) : option (Z * Z) :=
  if cursor <? 0 then None
  else match log e with
  | None => None
  | Some l => if log_err l then None
              else Some (if size <? cursor then size else cursor, size)
  end.

(** ** The registry *)

Record ExecutionRegistry := mkRegistry {
  executions : gmap string Execution; order : list string }.

Definition newExecutionRegistry : ExecutionRegistry := mkRegistry ∅ [].

Definition track (r : ExecutionRegistry) (id : string) (e : Execution) : ExecutionRegistry :=
  mkRegistry (<[id:=e]> (executions r)) (order r ++ [id]).

Definition day : Z := 24 * 3600 * 10 ^ 9.

(** One iteration of the loop of [prune], from the newest id to the oldest. *)
Definition pruneOne (now : Z) (removable : string → bool)
    (st : gmap string Execution * list string * Z * Z) (id : string)
  : gmap string Execution * list string * Z * Z :=
  let '(m, kept, native, hot) := st in
  match m !! id with
  | None => st
  | Some e =>
      if Running e then (m, id :: kept, native, hot)
      else
        let expired := match finishedAt e with Some t => day <=? now - t | None => false end in
        let background := bool_decide (Mode e = ExecutionBackground) in
        let native := if negb background && negb expired then native + 1 else native in
        let evict := expired || (negb background && (executionHistoryLimit <? native)) in
        if evict && removeLog e (removable id) then (delete id m, kept, native, hot)
        else
          let hot := hot + 1 in
          let m := if executionHistoryLimit <? hot then <[id:=releaseOutput e]> m else m in
          (m, id :: kept, native, hot)
  end.

(** [kept] is consed, so the final [slices.Reverse] is built in. *)
Definition prune (r : ExecutionRegistry) (now : Z) (removable : string → bool) : ExecutionRegistry :=
  let '(m, kept, _, _) := foldl (pruneOne now removable) (executions r, [], 0, 0) (reverse (order r)) in
  mkRegistry m kept.

Definition killBed (r : ExecutionRegistry) (bedID : string) (cause : TerminationCause)
  : ExecutionRegistry :=
  mkRegistry ((λ e, if bool_decide (BedID e = bedID) && negb (bool_decide (Mode e = ExecutionMain))
                    then (requestStop e cause).2 else e) <$> executions r) (order r).

Definition forgetOne (name : string) (st : gmap string Execution * list string) (id : string)
  : gmap string Execution * list string :=
  let '(m, kept) := st in
  match m !! id with
  | None => st
  | Some e => if bool_decide (BedID e = name) then (delete id m, kept) else (m, kept ++ [id])
  end.

Definition forgetBed (r : ExecutionRegistry) (name : string) : ExecutionRegistry :=
  let '(m, kept) := foldl (forgetOne name) (executions r, []) (order r) in mkRegistry m kept.

(** ** The output window is contiguous and bounded *)

Definition sumLen (l : list ExecutionOutput) : Z := foldr (λ o n, textLen o + n) 0 l.

Record window_inv (e : Execution) : Prop := {
  wi_dropped : 0 <= dropped e;
  wi_next : nextOutput e = dropped e + Z.of_nat (length (output e));
  wi_seq : ∀ i o, output e !! i = Some o → Sequence o = dropped e + Z.of_nat i;
  wi_bytes : outputBytes e = sumLen (output e);
  wi_limit : outputBytes e <= executionOutputBytes;
  wi_count : Z.of_nat (length (output e)) <= executionOutputFragments;
  wi_trunc : 0 < dropped e → truncated e = true;
}.

Lemma sumLen_app l1 l2 : sumLen (l1 ++ l2) = sumLen l1 + sumLen l2.
Proof.
  unfold sumLen. induction l1 as [|o l1 IH]; [done|]. simpl. unfold sumLen in IH. rewrite IH. lia.
Qed.

Lemma sumLen_nonneg l : 0 <= sumLen l.
Proof. induction l; simpl; [lia|]. unfold textLen at 1. lia. Qed.

(** The loop stops, without indexing an empty slice, at the first suffix that
    fits. *)
Lemma trim_spec out bytes drp trunc :
  bytes = sumLen out →
  ∃ k, (k <= length out)%nat ∧
    trimOutput bytes drp trunc out =
      Some (drop k out, sumLen (drop k out), drp + Z.of_nat k, trunc || bool_decide (0 < k)%nat) ∧
    sumLen (drop k out) <= executionOutputBytes ∧
    Z.of_nat (length (drop k out)) <= executionOutputFragments.
Proof.
  revert bytes drp trunc. induction out as [|o out IH]; intros bytes drp trunc Hb.
  { exists 0%nat. subst. simpl. rewrite Z.add_0_r, orb_false_r. by split_and!. }
  simpl in Hb. cbn [trimOutput]. destruct (_ || _) eqn:E.
  - destruct (IH (bytes - textLen o) (drp + 1) true) as (k&Hk&->&H1&H2); [lia|].
    exists (S k). simpl. split_and!; [lia| |done|done]. do 2 f_equal; [f_equal; lia|].
    by rewrite orb_true_r.
  - exists 0%nat. rewrite drop_0, Z.add_0_r, orb_false_r. apply orb_false_iff in E as [E1 E2].
    apply Z.ltb_ge in E1, E2. split_and!; [lia| |simpl; lia|done]. by rewrite Hb.
Qed.

Lemma suffix_length n s : 0 <= n <= Z.of_nat (String.length s) →
  Z.of_nat (String.length (suffix n s)) = n.
Proof.
  intros Hn. unfold suffix.
  enough (∀ k t, (k + Z.to_nat n <= String.length t)%nat →
    String.length (String.substring k (Z.to_nat n) t) = Z.to_nat n) as Hlen
    by (rewrite Hlen; lia).
  intros k t. revert k. generalize (Z.to_nat n) as c. clear.
  intros c. induction t as [|a t IH] in c |- *; intros k Hk; simpl in *.
  - destruct k, c; simpl; lia.
  - destruct k as [|k].
    + destruct c as [|c]; simpl; [done|]. f_equal. apply (IH c 0%nat). lia.
    + apply IH. lia.
Qed.

Lemma retain_spec o :
  Sequence (retain o).1 = Sequence o ∧ textLen (retain o).1 <= executionOutputBytes.
Proof.
  unfold retain. destruct (Z.ltb_spec executionOutputBytes (textLen o)); [|done]. split; [done|].
  unfold textLen at 1. simpl Text. rewrite suffix_length; [done|].
  unfold textLen in *. unfold executionOutputBytes in *. lia.
Qed.

Lemma append_window e stream text :
  window_inv e →
  ∃ e', appendOutput e stream text = Some (mkOutput (nextOutput e) stream text, e') ∧
    window_inv e' ∧ nextOutput e' = nextOutput e + 1 ∧ dropped e <= dropped e' ∧
    (truncated e = true → truncated e' = true).
Proof.
  intros [Hd Hn Hs Hb Hl Hc Ht]. unfold appendOutput.
  set (o := mkOutput _ _ _). destruct (retain o) as [o' cut] eqn:Er.
  pose proof (retain_spec o) as [Hseq Hlen]. rewrite Er in Hseq, Hlen. simpl in Hseq, Hlen.
  destruct (trim_spec (output e ++ [o']) (outputBytes e + textLen o') (dropped e) (truncated e || cut))
    as (k&Hk&->&H1&H2).
  { rewrite sumLen_app, Hb. simpl. lia. }
  eexists. split; [done|].
  rewrite length_app in Hk. simpl in Hk.
  split_and!; simpl; [|lia|lia|intros ->; done].
  split; simpl; try done.
  - lia.
  - rewrite length_drop, length_app. simpl. lia.
  - intros i x. rewrite lookup_drop. intros Hx.
    destruct (decide (k + i < length (output e))%nat) as [Hi|Hi].
    + rewrite lookup_app_l in Hx by done. rewrite (Hs _ _ Hx). lia.
    + rewrite lookup_app_r in Hx by lia.
      destruct (k + i - length (output e))%nat as [|j] eqn:Ej; [|by destruct j].
      injection Hx as <-. rewrite Hseq. simpl. lia.
  - intros Hpos. destruct (decide (0 < k)%nat) as [Hk0|Hk0].
    + by rewrite bool_decide_true, orb_true_r.
    + rewrite Ht by lia. done.
Qed.

Lemma release_window e : window_inv e → window_inv (releaseOutput e).
Proof.
  intros [Hd Hn Hs Hb Hl Hc Ht]. split; simpl; try done; try lia.
Qed.

Lemma new_window bed mode l now : window_inv (newExecution bed mode l now).
Proof. split; simpl; try done; lia. Qed.

(** The output operations of one execution. *)
Inductive output_op := OpAppend (s : OutputStream) (text : string) | OpRelease.

Fixpoint runOutput (e : Execution) (ops : list output_op) : option Execution :=
  match ops with
  | [] => Some e
  | OpAppend s t :: ops => r ← appendOutput e s t; runOutput r.2 ops
  | OpRelease :: ops => runOutput (releaseOutput e) ops
  end.

Fixpoint appends (ops : list output_op) : Z :=
  match ops with [] => 0 | OpAppend _ _ :: ops => 1 + appends ops | OpRelease :: ops => appends ops end.

Lemma run_window e ops :
  window_inv e → ∃ e', runOutput e ops = Some e' ∧ window_inv e' ∧
    nextOutput e' = nextOutput e + appends ops.
Proof.
  revert e. induction ops as [|[s t|] ops IH]; intros e He; simpl.
  - exists e. split_and!; [done|done|lia].
  - destruct (append_window e s t He) as (e'&->&He'&Hn&_). simpl.
    destruct (IH e' He') as (e''&?&?&?). exists e''. split_and!; [done|done|lia].
  - destruct (IH (releaseOutput e) (release_window e He)) as (e''&?&?&?).
    exists e''. split_and!; [done|done|]. simpl in *. lia.
Qed.

(** The output window never panics and stays bounded.  Whatever a command
    writes, and however often its cache is released, the eviction loop never
    indexes an empty slice; the retained fragments carry exactly the sequence
    numbers from [dropped] to [nextOutput - 1] in order, their byte count is the
    one the execution accounts for, and they fit in 64 KiB and 1024 fragments. *)
Lemma output_window_bounded bed mode l now ops :
  ∃ e, runOutput (newExecution bed mode l now) ops = Some e ∧
    nextOutput e = appends ops ∧
    Sequence <$> output e = seqZ (dropped e) (nextOutput e - dropped e) ∧
    outputBytes e = sumLen (output e) ∧ outputBytes e <= 65536 ∧ (length (output e) <= 1024)%nat ∧
    (truncated e = false → dropped e = 0).
Proof.
  destruct (run_window _ ops (new_window bed mode l now)) as (e&Hrun&[Hd Hn Hs Hb Hl Hc Ht]&Hnext).
  exists e. simpl in Hnext. unfold executionOutputBytes, executionOutputFragments in *.
  split_and!; try done; try lia.
  - apply list_eq. intros i. rewrite list_lookup_fmap.
    destruct (output e !! i) as [o|] eqn:Ho; simpl.
    + rewrite (Hs i o Ho). apply lookup_lt_Some in Ho. symmetry. apply lookup_seqZ_lt. lia.
    + symmetry. apply lookup_seqZ_ge. apply lookup_ge_None in Ho. lia.
  - intros Hf. destruct (decide (0 < dropped e)) as [Hp|]; [|lia]. rewrite (Ht Hp) in Hf. done.
Qed.

(** ** Reading from a cursor *)

Lemma filter_drop base l c :
  (∀ i o, l !! i = Some o → Sequence o = base + Z.of_nat i) →
  filter (λ o, c < Sequence o) l = drop (Z.to_nat (c + 1 - base)) l.
Proof.
  revert base. induction l as [|o l IH]; intros base Hl; [by rewrite drop_nil|].
  pose proof (Hl 0%nat o eq_refl) as Ho. rewrite filter_cons.
  assert (∀ i x, l !! i = Some x → Sequence x = (base + 1) + Z.of_nat i) as Hl'.
  { intros i x Hx. rewrite (Hl (S i) x Hx). lia. }
  rewrite (IH (base + 1) Hl'). case_decide as Hc.
  - replace (Z.to_nat (c + 1 - base)) with 0%nat by lia.
    replace (Z.to_nat (c + 1 - (base + 1))) with 0%nat by lia. done.
  - replace (Z.to_nat (c + 1 - base)) with (S (Z.to_nat (c + 1 - (base + 1)))) by lia. done.
Qed.

Lemma logs_filter e cursor :
  window_inv e → cursor < 2 ^ 63 - 1 →
  (Logs e cursor).1.1.1 = filter (λ o, cursor < Sequence o) (output e).
Proof.
  intros [Hd Hn Hs _ _ _ _] Hc. unfold Logs. simpl.
  rewrite (filter_drop (dropped e)) by done.
  assert (∃ s, s = (if cursor <? 0 then 0 else wrap64 (cursor + 1)) ∧
    (cursor < 0 ∧ s = 0 ∨ 0 <= cursor ∧ s = cursor + 1)) as (s&<-&Hstart).
  { destruct (Z.ltb_spec cursor 0); [exists 0; lia|]. exists (cursor + 1).
    rewrite wrap64_id by lia. lia. }
  destruct (Z.ltb_spec s (dropped e)) as [Hg|Hg].
  - replace (Z.to_nat (cursor + 1 - dropped e)) with 0%nat by lia.
    rewrite Z.sub_diag, drop_0. destruct (Z.ltb_spec (dropped e) (nextOutput e)) as [?|Hge]; [done|].
    assert (length (output e) = 0%nat) as Hlen by lia. by destruct (output e).
  - destruct (Z.ltb_spec s (nextOutput e)) as [Hlt|Hge].
    + f_equal. lia.
    + symmetry. apply drop_ge. lia.
Qed.

(** A cursor read is exact.  For an execution that has produced any output
    history, reading after [cursor] returns precisely the retained fragments
    with a larger sequence number, in order; the returned cursor is the last
    sequence produced; and when the read is not flagged as truncated, no
    fragment after the cursor is missing. *)
Lemma log_read_exact bed mode l now ops e cursor :
  runOutput (newExecution bed mode l now) ops = Some e → cursor < 2 ^ 63 - 1 →
  ∃ t, Logs e cursor =
    (filter (λ o, cursor < Sequence o) (output e), nextOutput e - 1, Running e, t) ∧
    (t = false →
     Sequence <$> filter (λ o, cursor < Sequence o) (output e) =
     seqZ (Z.max 0 (cursor + 1)) (nextOutput e - Z.max 0 (cursor + 1))).
Proof.
  intros Hrun Hc. destruct (run_window _ ops (new_window bed mode l now)) as (e'&Hrun'&Hw&_).
  assert (e' = e) as -> by congruence. exists (Logs e cursor).2. split.
  { rewrite <-(logs_filter e cursor) by done. done. }
  pose proof Hw as [Hd Hn Hs _ _ _ Ht]. unfold Logs. simpl.
  intros [_ Htr]%orb_false_iff.
  assert (dropped e = 0) as Hd0.
  { destruct (decide (0 < dropped e)) as [Hp|]; [|lia]. rewrite (Ht Hp) in Htr. done. }
  rewrite (filter_drop 0) by (intros; rewrite <-Hd0; auto).
  apply list_eq. intros i. rewrite list_lookup_fmap, lookup_drop.
  destruct (output e !! _) as [o|] eqn:Ho; simpl.
  - rewrite (Hs _ o Ho). apply lookup_lt_Some in Ho. symmetry. rewrite lookup_seqZ_lt; [f_equal|]; lia.
  - symmetry. apply lookup_seqZ_ge. apply lookup_ge_None in Ho. lia.
Qed.

Definition demo_execution : Execution :=
  default (newExecution "a" ExecutionForeground None 0)
    (runOutput (newExecution "a" ExecutionForeground None 0)
       [OpAppend StreamStdout "one"; OpAppend StreamStderr "two"; OpAppend StreamStdout "three"]).

(** The largest 64-bit cursor wraps: a read after it replays the retained
    history instead of returning nothing. *)
Lemma log_read_max_cursor_replays :
  (Logs demo_execution (2 ^ 63 - 1)).1.1.1 = output demo_execution ∧ output demo_execution ≠ [].
Proof. by vm_compute. Qed.

(** ** First cause wins

    The owner of the process claims the end and publishes it; any goroutine may
    ask for a stop at any time.  [fin] is where the owner stands. *)

Inductive fin_stage := NotClaimed | Claimed (c : option TerminationCause) | Finished.

Inductive exec_step : Execution * fin_stage → Execution * fin_stage → Prop :=
| es_stop e f cause : exec_step (e, f) ((requestStop e cause).2, f)
| es_claim e : exec_step (e, NotClaimed) ((claimFinish e).2, Claimed (claimFinish e).1)
| es_publish e c failure outcome closeFails now :
    exec_step (e, Claimed c) (publishResult e c failure outcome closeFails now, Finished)
| es_append e f s t o e' : appendOutput e s t = Some (o, e') → exec_step (e, f) (e', f)
| es_release e f : exec_step (e, f) (releaseOutput e, f).

Inductive exec_steps : Execution * fin_stage → Execution * fin_stage → Prop :=
| ess_refl x : exec_steps x x
| ess_step x y z : exec_steps x y → exec_step y z → exec_steps x z.

Definition terminal_inv (x : Execution * fin_stage) : Prop :=
  let '(e, f) := x in
  match f with
  | NotClaimed => finishing e = false ∧ result e = None
  | Claimed c => result e = None ∧ stopCause e = c ∧ (c = None → finishing e = true)
  | Finished => ∃ r, result e = Some r ∧ Cause r = terminalCause (stopCause e) (failed r) (Process r)
  end.

Lemma append_terminal e s t o e' :
  appendOutput e s t = Some (o, e') →
  finishing e' = finishing e ∧ result e' = result e ∧ stopCause e' = stopCause e.
Proof.
  unfold appendOutput. destruct (retain _). destruct (trimOutput _ _ _ _) as [[[[??]?]?]|]; [|done].
  by intros [= _ <-].
Qed.

Lemma terminal_step x y : terminal_inv x → exec_step x y → terminal_inv y.
Proof.
  intros Hx Hs. destruct Hs as [e f cause|e|e c failure outcome cf now|e f s t o e' Ha|e f]; simpl in *.
  - unfold requestStop. destruct (_ || _) eqn:E; [done|]. reflect_bools. destruct f as [|c|]; simpl.
    + by destruct Hx.
    + destruct Hx as (?&?&Hc). destruct c as [c|].
      * exfalso. apply H0. eauto.
      * rewrite Hc in H1 by done. done.
    + destruct Hx as (r&Hr&_). exfalso. apply H. eauto.
  - unfold claimFinish. destruct (stopCause e) eqn:E; simpl; by destruct Hx.
  - destruct Hx as (_&<-&_). eexists. split; [done|]. done.
  - apply append_terminal in Ha as (E1&E2&E3). destruct f; rewrite ?E1, ?E2, ?E3; done.
  - destruct f; done.
Qed.

Lemma terminal_steps x y : exec_steps x y → terminal_inv x → terminal_inv y.
Proof. induction 1; eauto using terminal_step. Qed.

(** A recorded stop cause, a claimed natural end and a published result are
    never overwritten. *)
Definition settled (x y : Execution * fin_stage) : Prop :=
  (∀ c, stopCause x.1 = Some c → stopCause y.1 = Some c) ∧
  (∀ r, result x.1 = Some r → result y.1 = Some r) ∧
  (stopCause x.1 = None → (x.2 = Claimed None ∨ x.2 = Finished) →
   stopCause y.1 = None ∧ (y.2 = Claimed None ∨ y.2 = Finished)).

Lemma settled_step x y : terminal_inv x → exec_step x y → settled x y.
Proof.
  intros Hx Hs. destruct Hs as [e f cause|e|e c failure outcome cf now|e f s t o e' Ha|e f];
    unfold settled; simpl in *.
  - unfold requestStop. destruct (_ || _) eqn:E; [by split_and!|]. reflect_bools. simpl.
    split_and!; [intros c Hc; exfalso; apply H0; eauto|done|].
    intros _ [->| ->]; simpl in Hx.
    + destruct Hx as (_&_&Hf). rewrite Hf in H1; done.
    + destruct Hx as (r&Hr&_). exfalso. apply H. eauto.
  - unfold claimFinish. destruct (stopCause e) eqn:E; simpl; split_and!; naive_solver.
  - destruct Hx as (Hr&_&_). split_and!; [done|congruence|auto].
  - apply append_terminal in Ha as (E1&E2&E3). rewrite E2, E3. by split_and!.
  - by split_and!.
Qed.

Lemma settled_steps x y : exec_steps x y → terminal_inv x → settled x y.
Proof.
  induction 1 as [x|x y z Hxy IH Hyz]; intros Hx; [by split_and!|].
  destruct (IH Hx) as (H1&H2&H3).
  destruct (settled_step y z) as (G1&G2&G3); [by eapply terminal_steps|done|].
  split_and!; auto. intros Hn Hf. destruct (H3 Hn Hf). auto.
Qed.

(** C40: The first actor to decide the end of an execution owns its cause, under
    every interleaving of stop requests with the end of the process.  A result
    carries the recorded stop cause, or the natural cause when none was
    recorded before the end was claimed; once a stop is recorded no other
    replaces it, once a natural end is claimed no later stop is recorded, and a
    published result never changes. *)
Theorem first_cause_wins bed mode l now e f :
  exec_steps (newExecution bed mode l now, NotClaimed) (e, f) →
  (∀ r, result e = Some r → Cause r = terminalCause (stopCause e) (failed r) (Process r)) ∧
  (∀ e2 f2, exec_steps (e, f) (e2, f2) → settled (e, f) (e2, f2)).
Proof.
  intros Hs. assert (terminal_inv (e, f)) as Hi by (eapply terminal_steps; [done|by split]).
  split; [|intros e2 f2 H2; by eapply settled_steps].
  intros r Hr. destruct f as [|c|]; simpl in Hi.
  - by destruct Hi as [_ ?]; congruence.
  - by destruct Hi as [? _]; congruence.
  - destruct Hi as (r'&Hr'&Hc). congruence.
Qed.

Definition demo_stopped : Execution :=
  publishResult (requestStop (newExecution "a" ExecutionForeground None 0) CauseTimeout).2
    (Some CauseTimeout) false (Some ProcessSignaled) false 9.

Lemma first_cause_wins_witness :
  (∀ r, result demo_stopped = Some r →
     Cause r = terminalCause (stopCause demo_stopped) (failed r) (Process r)) ∧
  result demo_stopped = Some (mkResult 9 9 (Some ProcessSignaled) false CauseTimeout).
Proof.
  split; [|by vm_compute].
  apply (first_cause_wins "a" ExecutionForeground None 0 demo_stopped Finished).
  eapply ess_step; [eapply ess_step; [eapply ess_step; [apply ess_refl|apply (es_stop _ _ CauseTimeout)]|
    apply es_claim]|]. apply es_publish.
Defined.

(** ** History *)

Record registry_wf (r : ExecutionRegistry) : Prop := {
  rw_nodup : NoDup (order r);
  rw_dom : ∀ id, id ∈ order r ↔ is_Some (executions r !! id);
}.

Lemma track_wf r id e : registry_wf r → executions r !! id = None → registry_wf (track r id e).
Proof.
  intros [Hn Hd] Hid. split; simpl.
  - apply NoDup_app. split_and!; [done| |apply NoDup_singleton].
    intros x Hx ->%list_elem_of_singleton. apply Hd in Hx as [? Hx]. congruence.
  - intros x. rewrite elem_of_app, list_elem_of_singleton, Hd, lookup_insert_is_Some.
    destruct (decide (id = x)); naive_solver.
Qed.

Definition expired (now : Z) (e : Execution) : bool :=
  match finishedAt e with Some t => day <=? now - t | None => false end.

(** A finished native record that counts against the history limit and whose
    log, if any, can be removed. *)
Definition evictable_native (now : Z) (removable : string → bool) (id : string) (e : Execution) : bool :=
  negb (Running e) && negb (bool_decide (Mode e = ExecutionBackground)) && negb (expired now e) &&
  removeLog e (removable id).

(** A finished record that still holds output fragments in memory. *)
Definition holds_output (id : string) (e : Execution) : bool :=
  negb (Running e) && bool_decide (output e ≠ []).

Definition counted (P : string → Execution → bool) (m : gmap string Execution) (ids : list string) : Z :=
  Z.of_nat (length (filter (λ id, match m !! id with Some e => P id e | None => false end = true) ids)).

(** What [prune] may do to one record. *)
Definition pruned (now : Z) (removable : string → bool) (id : string) (e : Execution)
    (after : option Execution) : Prop :=
  match after with
  | Some e' => e' = e ∨ (Running e = false ∧ e' = releaseOutput e)
  | None => Running e = false ∧ removeLog e (removable id) = true ∧
      (expired now e = true ∨ Mode e ≠ ExecutionBackground)
  end.

Record prune_inv now removable (m : gmap string Execution) (seen : list string)
    (st : gmap string Execution * list string * Z * Z) : Prop := {
  pi_fresh : ∀ x, x ∉ seen → st.1.1.1 !! x = m !! x;
  pi_sub : sublist st.1.1.2 (reverse seen);
  pi_kept : ∀ x, x ∈ st.1.1.2 ↔ x ∈ seen ∧ is_Some (st.1.1.1 !! x);
  pi_rec : ∀ x e, x ∈ seen → m !! x = Some e → pruned now removable x e (st.1.1.1 !! x);
  pi_gone : ∀ x, m !! x = None → st.1.1.1 !! x = None;
  pi_native : counted (evictable_native now removable) st.1.1.1 st.1.1.2 <=
    Z.min st.1.2 executionHistoryLimit;
  pi_hot : counted holds_output st.1.1.1 st.1.1.2 <= Z.min st.2 executionHistoryLimit;
}.

Lemma counted_ext P m m' ids :
  (∀ x, x ∈ ids → m' !! x = m !! x) → counted P m' ids = counted P m ids.
Proof.
  intros H. unfold counted. f_equal. induction ids as [|x ids IH]; [done|].
  rewrite !filter_cons, (H x) by left. repeat case_decide; simpl; rewrite ?IH; auto with set_solver;
    intros; apply H; by right.
Qed.

Lemma counted_cons P m id e ids :
  m !! id = Some e → counted P m (id :: ids) = (if P id e then 1 else 0) + counted P m ids.
Proof.
  intros H. unfold counted. rewrite filter_cons, H. case_decide as E; destruct (P id e); simpl; [lia|done|done|lia].
Qed.

Section PruneStep.
Context (now : Z) (removable : string → bool) (m : gmap string Execution).
Context (seen kept : list string) (m1 : gmap string Execution) (native hot : Z) (id : string).
Context (Hinv : prune_inv now removable m seen (m1, kept, native, hot)) (Hid : id ∉ seen).

Lemma id_fresh : m1 !! id = m !! id.
Proof using Hinv Hid. exact (pi_fresh _ _ _ _ _ Hinv id Hid). Qed.

Lemma id_not_kept : id ∉ kept.
Proof using Hinv Hid. intros Hk. by apply (pi_kept _ _ _ _ _ Hinv) in Hk as [? _]. Qed.

Lemma prune_inv_keep e e' native' hot' :
  m !! id = Some e → pruned now removable id e (Some e') →
  native <= native' → hot <= hot' →
  (evictable_native now removable id e' = true → native' = native + 1 ∧ native' <= executionHistoryLimit) →
  (holds_output id e' = true → hot' = hot + 1 ∧ hot' <= executionHistoryLimit) →
  prune_inv now removable m (seen ++ [id]) (<[id:=e']> m1, id :: kept, native', hot').
Proof using Hinv Hid.
  intros He Hp Hn Hh Hev Hho. pose proof id_not_kept as Hk. destruct Hinv as [H1 H2 H3 H4 H5 H6 H7].
  simpl in *.
  assert (∀ P, counted P (<[id:=e']> m1) kept = counted P m1 kept) as Hc.
  { intros P. apply counted_ext. intros x Hx. apply lookup_insert_ne. by intros ->. }
  split; simpl.
  - intros x Hx. rewrite lookup_insert_ne by set_solver. apply H1. set_solver.
  - rewrite reverse_snoc. by constructor.
  - intros x. rewrite elem_of_cons, elem_of_app, list_elem_of_singleton, H3, lookup_insert_is_Some.
    destruct (decide (id = x)); naive_solver.
  - intros x ex. rewrite elem_of_app, list_elem_of_singleton. destruct (decide (x = id)) as [->|Hx].
    + intros _ ?. simplify_eq. by rewrite lookup_insert_eq.
    + rewrite lookup_insert_ne by done. intros [?|?]; [by apply H4|done].
  - intros x Hx. rewrite lookup_insert_ne by congruence. auto.
  - rewrite (counted_cons _ _ id e') by apply lookup_insert_eq. rewrite Hc.
    destruct (evictable_native _ _ _ _); [destruct Hev; [done|]|]; lia.
  - rewrite (counted_cons _ _ id e') by apply lookup_insert_eq. rewrite Hc.
    destruct (holds_output _ _); [destruct Hho; [done|]|]; lia.
Qed.

Lemma prune_inv_drop native' :
  native <= native' →
  (∀ e, m !! id = Some e → pruned now removable id e None) →
  prune_inv now removable m (seen ++ [id]) (delete id m1, kept, native', hot).
Proof using Hinv Hid.
  intros Hn Hp. pose proof id_not_kept as Hk. destruct Hinv as [H1 H2 H3 H4 H5 H6 H7].
  simpl in *.
  assert (∀ P, counted P (delete id m1) kept = counted P m1 kept) as Hc.
  { intros P. apply counted_ext. intros x Hx. apply lookup_delete_ne. by intros ->. }
  split; simpl; rewrite ?Hc; try lia.
  - intros x Hx. rewrite lookup_delete_ne by set_solver. apply H1. set_solver.
  - rewrite reverse_snoc. by apply sublist_cons.
  - intros x. rewrite elem_of_app, list_elem_of_singleton, H3, lookup_delete_is_Some.
    destruct (decide (id = x)); naive_solver.
  - intros x ex. rewrite elem_of_app, list_elem_of_singleton. destruct (decide (x = id)) as [->|Hx].
    + intros _ ?. rewrite lookup_delete_eq. by apply Hp.
    + rewrite lookup_delete_ne by done. intros [?|?]; [by apply H4|done].
  - intros x Hx. apply lookup_delete_None. auto.
Qed.

Lemma prune_inv_step :
  prune_inv now removable m (seen ++ [id]) (pruneOne now removable (m1, kept, native, hot) id).
Proof using Hinv Hid.
  unfold pruneOne. rewrite id_fresh.
  destruct (m !! id) as [e|] eqn:He.
  2:{ rewrite <-(delete_id m1 id) by (by rewrite id_fresh).
      apply prune_inv_drop; [lia|congruence]. }
  assert (m1 = <[id:=e]> m1) as Hm1.
  { symmetry. apply insert_id. by rewrite id_fresh. }
  destruct (Running e) eqn:Hr.
  { rewrite Hm1. eapply prune_inv_keep; try done; [by left| |].
    all: unfold evictable_native, holds_output; by rewrite Hr. }
  fold (expired now e). set (bg := bool_decide (Mode e = ExecutionBackground)).
  set (native' := if negb bg && _ then _ else _).
  assert (native <= native') as Hn by (unfold native'; destruct (_ && _); lia).
  destruct (_ && removeLog e (removable id)) eqn:Ev.
  { apply prune_inv_drop; [done|]. intros e0 ?. simplify_eq. apply andb_true_iff in Ev as [Ev Hl].
    split_and!; [done..|]. apply orb_true_iff in Ev as [?|Ev]; [by left|right].
    apply andb_true_iff in Ev as [Ev _]. unfold bg in Ev. by case_bool_decide. }
  assert (∀ e', Running e' = Running e → Mode e' = Mode e → finishedAt e' = finishedAt e →
    log e' = log e → evictable_native now removable id e' = true →
    native' = native + 1 ∧ native' <= executionHistoryLimit) as Hev.
  { intros e' E1 E2 E3 E4. unfold evictable_native, expired, removeLog, native', bg in *.
    rewrite E1, E2, E3, E4, Hr. simpl. intros H. apply andb_true_iff in H as [H Hl].
    apply andb_true_iff in H as [Hb Hx]. rewrite Hl, Hb in Ev. rewrite Hb.
    fold (expired now e) in *. rewrite Hx in *. apply negb_true_iff in Hx. unfold expired in *.
    rewrite Hx in Ev. simpl in *. rewrite andb_true_r in Ev. apply Z.ltb_ge in Ev. lia. }
  destruct (Z.ltb_spec executionHistoryLimit (hot + 1)) as [Hlim|Hlim].
  - apply (prune_inv_keep e); [done|by right|done|lia|by apply Hev|].
    unfold holds_output. simpl. by rewrite andb_false_r.
  - rewrite Hm1. apply (prune_inv_keep e); [done|by left|done|lia|by apply Hev|lia].
Qed.
End PruneStep.

Lemma prune_inv_fold now removable m l seen st :
  NoDup (seen ++ l) → prune_inv now removable m seen st →
  prune_inv now removable m (seen ++ l) (foldl (pruneOne now removable) st l).
Proof.
  revert seen st. induction l as [|id l IH]; intros seen st Hnd Hi; simpl.
  - by rewrite app_nil_r.
  - rewrite cons_middle, (assoc_L app). apply IH; [by rewrite <-(assoc_L app)|].
    destruct st as [[[m1 kept] native] hot]. apply prune_inv_step; [done|].
    apply NoDup_app in Hnd as (_&Hd&_). intros Hin. apply (Hd id Hin). by left.
Qed.

Lemma prune_result r now removable :
  registry_wf r →
  ∃ native hot, prune_inv now removable (executions r) (reverse (order r))
    (executions (prune r now removable), order (prune r now removable), native, hot).
Proof.
  intros [Hnd Hd]. unfold prune.
  pose proof (prune_inv_fold now removable (executions r) (reverse (order r)) []
    (executions r, [], 0, 0)) as Hf. simpl in Hf.
  destruct (foldl _ _ _) as [[[m kept] native] hot] eqn:E. exists native, hot. apply Hf.
  - by rewrite reverse_Permutation.
  - split; simpl; try done; set_solver.
Qed.

Lemma prune_wf r now removable : registry_wf r → registry_wf (prune r now removable).
Proof.
  intros Hwf. destruct (prune_result r now removable Hwf) as (native&hot&Hi).
  destruct Hwf as [Hnd Hd]. destruct Hi as [_ H2 H3 _ H5 _ _]. simpl in *. rewrite reverse_involutive in H2.
  split.
  - by eapply sublist_NoDup.
  - intros id. rewrite H3, elem_of_reverse, Hd. split; [by intros [_ ?]|]. intros Hs. split; [|done].
    destruct (executions r !! id) eqn:E; [done|]. rewrite (H5 _ E) in Hs. by destruct Hs.
Qed.

(** [forgetBed] keeps exactly the records of the other beds. *)
Definition belongs (name : string) (m : gmap string Execution) (id : string) : bool :=
  match m !! id with Some e => bool_decide (BedID e = name) | None => true end.

Lemma forget_fold name l m kept :
  NoDup l →
  (∀ x, (foldl (forgetOne name) (m, kept) l).1 !! x =
     if bool_decide (x ∈ l) && belongs name m x then None else m !! x) ∧
  (foldl (forgetOne name) (m, kept) l).2 = kept ++ filter (λ x, belongs name m x = false) l.
Proof.
  revert m kept. induction l as [|id l IH]; intros m kept Hnd.
  { split; [done|]. by rewrite app_nil_r. }
  apply NoDup_cons in Hnd as [Hid Hnd]. cbn [foldl]. rewrite filter_cons.
  destruct (forgetOne name (m, kept) id) as [m' kept'] eqn:E.
  assert ((∀ x, x ≠ id → m' !! x = m !! x) ∧
    m' !! id = (if belongs name m id then None else m !! id) ∧
    kept' = kept ++ (if belongs name m id then [] else [id])) as (Hx&Hi&->).
  { unfold forgetOne, belongs in *. destruct (m !! id) as [e|] eqn:He; [case_bool_decide|]; simplify_eq.
    - split_and!; [intros; by rewrite lookup_delete_ne|by rewrite lookup_delete_eq|by rewrite app_nil_r].
    - by split_and!.
    - split_and!; [done|done|by rewrite app_nil_r]. }
  destruct (IH m' (kept ++ (if belongs name m id then [] else [id])) Hnd) as [IH1 IH2]. split.
  - intros x. rewrite IH1. destruct (decide (x = id)) as [->|Hne].
    + rewrite (bool_decide_false (id ∈ l)) by done. rewrite bool_decide_true by left. by rewrite Hi.
    + unfold belongs. rewrite (Hx x Hne).
      rewrite (bool_decide_ext (x ∈ l) (x ∈ id :: l)) by set_solver. done.
  - rewrite IH2, <-(assoc_L app). f_equal.
    assert (filter (λ x, belongs name m' x = false) l = filter (λ x, belongs name m x = false) l) as ->.
    { clear -Hx Hid. induction l as [|y l IHl]; [done|]. rewrite !filter_cons.
      assert (belongs name m' y = belongs name m y) as -> by (unfold belongs; rewrite Hx; set_solver).
      rewrite IHl by set_solver. done. }
    destruct (belongs name m id); by case_decide.
Qed.

Lemma forget_spec r name :
  registry_wf r →
  (∀ x, executions (forgetBed r name) !! x =
     match executions r !! x with
     | Some e => if bool_decide (BedID e = name) then None else Some e | None => None end) ∧
  order (forgetBed r name) = filter (λ x, belongs name (executions r) x = false) (order r).
Proof.
  intros [Hnd Hd]. unfold forgetBed.
  destruct (forget_fold name (order r) (executions r) [] Hnd) as [H1 H2].
  destruct (foldl _ _ _) as [m kept]. simpl in *. split; [|done].
  intros x. rewrite H1. unfold belongs. destruct (executions r !! x) as [e|] eqn:E.
  - rewrite (bool_decide_true (x ∈ _)) by (apply Hd; eauto). simpl. done.
  - by destruct (_ && _).
Qed.

Lemma forget_wf r name : registry_wf r → registry_wf (forgetBed r name).
Proof.
  intros Hwf. destruct (forget_spec r name Hwf) as [H1 H2]. destruct Hwf as [Hnd Hd]. split.
  - rewrite H2. by apply NoDup_filter.
  - intros id. rewrite H2, list_elem_of_filter, Hd, H1. unfold belongs.
    destruct (executions r !! id) as [e|]; [case_bool_decide|];
      (split; [intros [? ?]|intros [? ?]]; try split; done || eauto).
Qed.

Lemma kill_wf r bed cause : registry_wf r → registry_wf (killBed r bed cause).
Proof.
  intros [Hnd Hd]. split; simpl; [done|]. intros id. by rewrite Hd, lookup_fmap, fmap_is_Some.
Qed.

(** Registries reached by the operations of the daemon; [id] is a fresh
    execution id. *)
Inductive registry_reach : ExecutionRegistry → Prop :=
| rr_new : registry_reach newExecutionRegistry
| rr_track r id e : registry_reach r → executions r !! id = None → registry_reach (track r id e)
| rr_update r id e e' : registry_reach r → executions r !! id = Some e →
    registry_reach (mkRegistry (<[id:=e']> (executions r)) (order r))
| rr_kill r bed cause : registry_reach r → registry_reach (killBed r bed cause)
| rr_prune r now removable : registry_reach r → registry_reach (prune r now removable)
| rr_forget r name : registry_reach r → registry_reach (forgetBed r name).

Lemma reach_wf r : registry_reach r → registry_wf r.
Proof.
  induction 1 as [| r id e _ IH Hid | r id e e' _ IH Hid | | |];
    eauto using track_wf, kill_wf, prune_wf, forget_wf.
  - split; simpl; [constructor|]. intros id. rewrite lookup_empty. split; [set_solver|by intros [? ?]].
  - destruct IH as [Hnd Hd]. split; simpl; [done|]. intros x. rewrite Hd, lookup_insert_is_Some.
    destruct (decide (id = x)) as [->|]; naive_solver.
Qed.

(** Collection of execution history, on every registry the daemon can reach.
    The index and the order stay in step and the surviving order is a
    subsequence of the old one; a running execution is never touched; a record
    disappears only when it is finished, its log is gone, and it is a day old or
    a native record beyond the limit; every other record is unchanged or has only
    lost its cached output.  At most 1024 unexpired native records with a
    removable log remain, and at most 1024 finished records still hold output. *)
Lemma prune_keeps_live_and_bounds_history r now removable :
  registry_reach r →
  let r' := prune r now removable in
  NoDup (order r') ∧ sublist (order r') (order r) ∧
  (∀ id, id ∈ order r' ↔ is_Some (executions r' !! id)) ∧
  (∀ id e, executions r !! id = Some e → Running e = true → executions r' !! id = Some e) ∧
  (∀ id e, executions r !! id = Some e → pruned now removable id e (executions r' !! id)) ∧
  (∀ id, executions r !! id = None → executions r' !! id = None) ∧
  counted (evictable_native now removable) (executions r') (order r') <= 1024 ∧
  counted holds_output (executions r') (order r') <= 1024.
Proof.
  intros Hr%reach_wf. destruct (prune_wf r now removable Hr) as [Hn Hd].
  destruct (prune_result r now removable Hr) as (native&hot&[_ H2 _ H4 H5 H6 H7]). simpl in *.
  rewrite reverse_involutive in H2. unfold executionHistoryLimit in *.
  assert (∀ id e, executions r !! id = Some e →
    pruned now removable id e (executions (prune r now removable) !! id)) as Hp.
  { intros id e He. apply H4; [|done]. apply elem_of_reverse, (rw_dom _ Hr). eauto. }
  split_and!; try done; try lia.
  intros id e He Hrun. specialize (Hp id e He). unfold pruned in Hp.
  destruct (executions _ !! id); [|by destruct Hp; congruence].
  destruct Hp as [->|[? _]]; congruence.
Qed.

Definition demo_registry : ExecutionRegistry :=
  track (track newExecutionRegistry "x" demo_execution) "y" demo_stopped.

(** Forgetting a removed bed drops exactly the records of that bed and keeps
    every other record, in order. *)
Lemma forget_bed_exact r name :
  registry_reach r →
  (∀ id, executions (forgetBed r name) !! id =
     match executions r !! id with
     | Some e => if bool_decide (BedID e = name) then None else Some e | None => None end) ∧
  sublist (order (forgetBed r name)) (order r) ∧
  registry_reach (forgetBed r name) ∧
  (∀ id, id ∈ order (forgetBed r name) ↔ is_Some (executions (forgetBed r name) !! id)).
Proof.
  intros Hr. pose proof (reach_wf r Hr) as Hwf. destruct (forget_spec r name Hwf) as [H1 H2].
  split_and!; [done| |by apply rr_forget|apply forget_wf, Hwf].
  rewrite H2. apply sublist_filter.
Qed.
