(* ===== verification/Policy.v ===== *)
(** * Policy: egress rules and DNS learning of an isolated network

    Models [internal/host/network/policy.go] and [policy_dns.go]: validation and
    normalisation of rules, the decision on a domain name, policy mutation, and
    the control object whose lock orders policy updates with DNS answers.  DNS
    messages arrive decoded ([dnsmessage] is a third-party codec); the two kernel
    callbacks [apply] and [learn] are represented by whether they succeed. *)

From S2P Require Import Prelude Netip.

(** ** Strings *)

Definition ascii_of (n : Z) : ascii := ascii_of_N (Z.to_N n).

(** Length of the white-space rune at the head of a UTF-8 byte list: the code
    points of [unicode.IsSpace]. *)
Definition spaceLen (l : list Z) : nat :=
  match l with
  | 194 :: b :: _ => if (b =? 133) || (b =? 160) then 2%nat else 0%nat
  | 225 :: 154 :: 128 :: _ => 3%nat
  | 226 :: 128 :: b :: _ =>
      if ((128 <=? b) && (b <=? 138)) || (b =? 168) || (b =? 169) || (b =? 175) then 3%nat else 0%nat
  | 226 :: 129 :: 159 :: _ => 3%nat
  | 227 :: 128 :: 128 :: _ => 3%nat
  | b :: _ => if ((9 <=? b) && (b <=? 13)) || (b =? 32) then 1%nat else 0%nat
  | [] => 0%nat
  end.
(** The same at the end, on the reversed list. *)
Definition spaceLenRev (l : list Z) : nat :=
  if bool_decide (spaceLen (take 1 l) = 1%nat) then 1%nat
  else if bool_decide (spaceLen (reverse (take 2 l)) = 2%nat) then 2%nat
  else if bool_decide (spaceLen (reverse (take 3 l)) = 3%nat) then 3%nat else 0%nat.

Fixpoint trimWith (len : list Z → nat) (fuel : nat) (l : list ascii) : list ascii :=
  match fuel with
  | O => l
  | S fuel => match len (byte <$> l) with O => l | n => trimWith len fuel (drop n l) end
  end.
Definition TrimSpace (l : list ascii) : list ascii :=
  let l := trimWith spaceLen (length l) l in
  reverse (trimWith spaceLenRev (length l) (reverse l)).

(** [strings.ToLower].  Besides the ASCII letters, U+0130 and U+212A are the only
    letters whose lower case is ASCII; every other rune maps to non-ASCII bytes,
    which no target may contain, and is left alone. *)
Definition lowerByte (a : ascii) : ascii := if is_upper a then ascii_of (byte a + 32) else a.
Fixpoint ToLower (l : list ascii) : list ascii :=
  match l with
  | [] => []
  | a :: l1 =>
      match l1 with
      | [] => [lowerByte a]
      | b :: l2 =>
          if (byte a =? 196) && (byte b =? 176) then "i"%char :: ToLower l2
          else match l2 with
               | c :: l3 => if (byte a =? 226) && (byte b =? 132) && (byte c =? 170) then "k"%char :: ToLower l3
                            else lowerByte a :: ToLower l1
               | [] => lowerByte a :: ToLower l1
               end
      end
  end.

Definition trimDot (l : list ascii) : list ascii :=
  match reverse l with c :: r => if bool_decide (c = dot) then reverse r else l | [] => l end.

Fixpoint splitOn (a : ascii) (l : list ascii) : list (list ascii) :=
  match l with
  | [] => [[]]
  | c :: l => if bool_decide (c = a) then [] :: splitOn a l
              else match splitOn a l with x :: r => (c :: x) :: r | [] => [[c]] end
  end.

(** ** Rules *)

Inductive policy_err := BadDefaultAction | TooManyRules | BadAction | BadTarget | BadDNSTarget.

Record Rule := mkRule { Action : string; Target : string }.
Record Policy := mkPolicy { DefaultAction : string; Egress : list Rule }.
Record PolicyMutation := mkMutation {
  Replace : option Policy; Merge : option (list Rule); Remove : option (list string) }.

#[export] Instance Rule_eq_dec : EqDecision Rule.
Proof. solve_decision. Defined.
#[export] Instance policy_err_eq_dec : EqDecision policy_err.
Proof. solve_decision. Defined.

Definition label_char (c : ascii) : bool := is_lower c || is_digit c || (byte c =? 45).
Definition labelOk (label : list ascii) : bool :=
  match label with
  | [] => false
  | c :: _ =>
      (Z.of_nat (length label) <=? 63) && negb (byte c =? 45) &&
      negb (match last label with Some d => byte d =? 45 | None => false end) &&
      forallb label_char label
  end.

Definition star : list ascii := to_list "*.".
Definition stripStar (l : list ascii) : list ascii :=
  match l with a :: b :: l' => if bool_decide ([a; b] = star) then l' else l | _ => l end.

Definition canonical (target : string) : list ascii := ToLower (trimDot (TrimSpace (to_list target))).

(** The literal form of an address without a zone. *)
Definition literalTarget (t : string) : option string :=
  match ParseAddr t with
  | Some ip => if bool_decide (Zone ip = ""%string) then Some (AddrString (Unmap ip)) else None
  | None => None
  end.

Definition normalizeTarget (target : string) : result policy_err string :=
  let t := canonical target in
  match literalTarget (of_list t) with
  | Some ip => Ok ip
  | None =>
      match ParsePrefix (of_list t) with
      | Some p => Ok (PrefixString (Masked p))
      | None =>
          let name := stripStar t in
          if bool_decide (name = []) || (253 <? Z.of_nat (length name)) then Err BadTarget
          else if forallb labelOk (splitOn dot name) then Ok (of_list t) else Err BadDNSTarget
      end
  end.

Definition isAction (a : string) : bool := bool_decide (a = "allow"%string) || bool_decide (a = "deny"%string).

Definition normalizeRule (r : Rule) : result policy_err Rule :=
  check! isAction (Action r) else BadAction;
  t <-! normalizeTarget (Target r);
  Ok (mkRule (Action r) t).

Definition NormalizePolicy (p : Policy) : result policy_err Policy :=
  let default :=
    if bool_decide (DefaultAction p = ""%string)
    then (if bool_decide (Egress p = []) then "allow" else "deny")%string else DefaultAction p in
  check! isAction default else BadDefaultAction;
  check! Z.of_nat (length (Egress p)) <=? 1024 else TooManyRules;
  rules <-! res_map normalizeRule (Egress p);
  Ok (mkPolicy default rules).

Definition targetPrefix (target : string) : option Prefix :=
  match ParseAddr target with
  | Some ip => Some (PrefixFrom ip (BitLen ip))
  | None => ParsePrefix target
  end.

Definition hasSuffix (l suf : list ascii) : bool :=
  bool_decide (drop (length l - length suf) l = suf).

(** Whether a rule is about [name], already lower-cased. *)
Definition matches (target : string) (name : list ascii) : bool :=
  match to_list target with
  | a :: b :: l => if bool_decide ([a; b] = star) then hasSuffix name (b :: l)
                   else bool_decide (to_list target = name)
  | _ => bool_decide (to_list target = name)
  end.

Definition lowerName (name : string) : list ascii := ToLower (trimDot (to_list name)).

Fixpoint domainLoop (name : list ascii) (action : string) (rules : list Rule) : string :=
  match rules with
  | [] => action
  | r :: rules =>
      if bool_decide (is_Some (targetPrefix (Target r))) then domainLoop name action rules
      else if matches (Target r) name then
        if bool_decide (Action r = "deny"%string) then "deny"%string
        else domainLoop name "allow"%string rules
      else domainLoop name action rules
  end.
Definition domainAction (p : Policy) (name : string) : string :=
  domainLoop (lowerName name) (DefaultAction p) (Egress p).

Definition deniesIP (p : Policy) (ip : Addr) : bool :=
  existsb (λ r, match targetPrefix (Target r) with
                | Some prefix => bool_decide (Action r = "deny"%string) && Contains prefix ip
                | None => false end) (Egress p).

(** ** Mutation *)

Definition mergeRule (egress : result policy_err (list Rule)) (r : Rule) : result policy_err (list Rule) :=
  rules <-! egress;
  t <-! normalizeTarget (Target r);
  Ok (filter (λ old, Target old ≠ t) rules ++ [mkRule (Action r) t]).

Definition ApplyMutation (current : Policy) (mutation : PolicyMutation) : result policy_err Policy :=
  let next := default current (Replace mutation) in
  next <-! match Merge mutation with
           | None => Ok next
           | Some rules => egress <-! foldl mergeRule (Ok (Egress next)) rules;
                           Ok (mkPolicy (DefaultAction next) egress)
           end;
  next <-! match Remove mutation with
           | None => Ok next
           | Some targets => remove <-! res_map normalizeTarget targets;
               Ok (mkPolicy (DefaultAction next) (filter (λ r, Target r ∉ remove) (Egress current)))
           end;
  NormalizePolicy next.

Example normalize_dns : normalizeTarget " *.Example.COM. " = Ok "*.example.com"%string.
Proof. by vm_compute. Qed.
Example normalize_mapped : normalizeTarget "::FFFF:10.0.0.1" = Ok "10.0.0.1"%string.
Proof. by vm_compute. Qed.
Example normalize_prefix : normalizeTarget "10.1.2.3/8" = Ok "10.0.0.0/8"%string.
Proof. by vm_compute. Qed.
Example normalize_bad : normalizeTarget "-a.example" = Err BadDNSTarget.
Proof. by vm_compute. Qed.

(** ** Normalisation is canonical *)

(** Characters that trimming and lower-casing leave alone. *)
Definition target_char (c : ascii) : Prop := 33 <= byte c < 128 ∧ is_upper c = false.

Lemma spaceLen_none b l : 33 <= b < 128 → spaceLen (b :: l) = 0%nat.
Proof.
  intros Hb. assert (∀ k, 0 <= k < 128 → 33 <= k → ∀ l, spaceLen (k :: l) = 0%nat) as H.
  { apply (list_all_lt (λ k, 33 <= k → ∀ l, spaceLen (k :: l) = 0%nat)).
    repeat constructor; intros; try reflexivity; lia. }
  apply H; lia.
Qed.

Lemma spaceLen_safe l : Forall (λ b, 33 <= b < 128) l → spaceLen l = 0%nat.
Proof. destruct 1; [done|]. by apply spaceLen_none. Qed.

Lemma target_bytes l : Forall target_char l → Forall (λ b, 33 <= b < 128) (byte <$> l).
Proof. intros H. apply Forall_fmap. eapply Forall_impl; [exact H|]. by intros c [? _]. Qed.

Lemma trimWith_safe len fuel l : len (byte <$> l) = 0%nat → trimWith len fuel l = l.
Proof. intros H. destruct fuel; simpl; [done|]. by rewrite H. Qed.

Lemma trimSpace_safe l : Forall target_char l → TrimSpace l = l.
Proof.
  intros H. unfold TrimSpace. rewrite (trimWith_safe spaceLen) by (by apply spaceLen_safe, target_bytes).
  rewrite trimWith_safe; [by rewrite reverse_involutive|].
  assert (Forall (λ b, 33 <= b < 128) (byte <$> reverse l)) as Hr by (by apply target_bytes, Forall_reverse).
  unfold spaceLenRev. assert (∀ n, spaceLen (reverse (take n (byte <$> reverse l))) = 0%nat) as Hn.
  { intros n. apply spaceLen_safe, Forall_reverse. by apply Forall_take. }
  rewrite !Hn. rewrite (spaceLen_safe (take 1 _)) by (by apply Forall_take). done.
Qed.

Lemma toLower_safe l : Forall target_char l → ToLower l = l.
Proof.
  induction 1 as [|a l [Ha Hu] Hl IH]; [done|]. assert (lowerByte a = a) as Hb by (unfold lowerByte; by rewrite Hu).
  cbn [ToLower]. destruct l as [|b l]; [by rewrite Hb|].
  destruct (Z.eqb_spec (byte a) 196); [lia|]. destruct (Z.eqb_spec (byte a) 226); [lia|]. simpl andb.
  cbv iota. rewrite Hb. by destruct l; rewrite IH.
Qed.

Lemma trimDot_safe l : last l ≠ Some dot → trimDot l = l.
Proof.
  intros H. unfold trimDot. rewrite <-(reverse_involutive l) in H. rewrite last_reverse in H.
  destruct (reverse l) as [|c r]; [done|]. rewrite bool_decide_false; [done|]. intros ->. done.
Qed.

Lemma canonical_fix l : Forall target_char l → last l ≠ Some dot → canonical (of_list l) = l.
Proof.
  intros H Hd. unfold canonical. rewrite to_of_list, trimSpace_safe, trimDot_safe by done. by apply toLower_safe.
Qed.

Lemma hexVal_byte c : hexVal c ≠ None → 33 <= byte c < 128.
Proof. unfold hexVal, in_range. intros H. repeat case_match; reflect_bools; (lia || done). Qed.

Lemma plain_target c : plain c → target_char c.
Proof. intros [Hh Hu]. split; [by apply hexVal_byte|done]. Qed.

Lemma addr_chars_target l : addr_chars l → Forall target_char l.
Proof.
  intros H. eapply Forall_impl; [exact H|]. intros c [Hc|[->| ->]]; [by apply plain_target|by split..].
Qed.

Lemma digit_target c : is_digit c = true → target_char c.
Proof.
  intros H. split; [apply is_digit_bound in H; lia|]. apply is_digit_bound in H.
  unfold is_upper, in_range. destruct (Z.leb_spec 65 (byte c)); [lia|done].
Qed.

Lemma last_app_plain x y : y ≠ [] → Forall (λ c, c ≠ dot) y → last (x ++ y) ≠ Some dot.
Proof.
  intros Hy Hd. destruct (exists_last Hy) as (y'&c&->). rewrite (assoc_L app), last_snoc.
  apply Forall_app in Hd as [_ Hd]. apply Forall_cons in Hd as [Hd _]. intros [= ->]. by apply Hd.
Qed.

Lemma plain_no_dot l : Forall plain l → Forall (λ c, c ≠ dot) l.
Proof. intros H. eapply Forall_impl; [exact H|]. intros c Hc. by apply (plain_not c dot). Qed.

Lemma joinHex_no_dot l : Forall (λ g, 0 <= g < 65536) l → Forall (λ c, c ≠ dot) (joinHex l).
Proof.
  induction 1 as [|g l Hg Hl IH]; [constructor|]. rewrite joinHex_cons. apply Forall_app.
  split; [by apply plain_no_dot, appendHex_plain|]. destruct l; [constructor|]. by constructor.
Qed.

Lemma string4_last n : last (string4 n) ≠ Some dot.
Proof.
  unfold string4, bytes4. cbn [fmap list_fmap joinWith]. rewrite !(assoc_L app).
  destruct (appendDecimal_plain (n mod 256)) as [Hp Hn]; [apply Z.mod_pos_bound; lia|].
  apply last_app_plain; [done|by apply plain_no_dot].
Qed.

Lemma string6_last gs : gs ≠ [] → Forall (λ g, 0 <= g < 65536) gs → last (string6 gs) ≠ Some dot.
Proof.
  intros Hne H. assert (Forall (λ c, c ≠ dot) (string6 gs)) as Hd.
  { unfold string6. destruct (longestRun _ _ _) as [zs ze]. destruct (_ =? _)%nat; [by apply joinHex_no_dot|].
    apply Forall_app. split; [by apply joinHex_no_dot, Forall_take|]. do 2 (constructor; [done|]).
    by apply joinHex_no_dot, Forall_drop. }
  destruct (last (string6 gs)) as [c|] eqn:E; [|done]. intros [= ->]. apply last_Some in E as [l' E].
  rewrite E in Hd. apply Forall_app in Hd as [_ Hd]. by apply Forall_cons in Hd as [Hd _].
Qed.

Lemma addrString_chars a : a ≠ AddrZero → addr_chars (addrString a) ∧ last (addrString a) ≠ Some dot.
Proof.
  intros Hz. destruct a as [|n|n z]; [done|split; [apply string4_chars|apply string4_last]|].
  unfold addrString. destruct (Is4In6 _).
  - split; [|rewrite last_app; pose proof (string4_last (n mod 2 ^ 32)); by destruct (last (string4 _))].
    apply Forall_app. split; [|apply string4_chars].
    do 7 (apply Forall_cons; split; [first [by right; left|left; by split; vm_compute]|]). by apply Forall_nil.
  - split; [apply string6_chars, groups_bound|apply string6_last; [done|apply groups_bound]].
Qed.

Lemma canonical_addr a : a ≠ AddrZero → of_list (canonical (AddrString a)) = AddrString a.
Proof.
  intros Hz. destruct (addrString_chars a Hz) as [Hc Hl].
  unfold AddrString. rewrite canonical_fix; [done|by apply addr_chars_target|done].
Qed.

Lemma prefix_chars p :
  prefix_wf p → Forall target_char (to_list (PrefixString p)) ∧ last (to_list (PrefixString p)) ≠ Some dot ∧
  percent ∉ to_list (PrefixString p) ∧ slash_char ∈ to_list (PrefixString p).
Proof.
  intros (Hw&Hz&Hzone&Hb). assert (prefixBits p < 2 ^ 63) by (destruct (prefixIP p); simpl in Hb; lia).
  destruct (addrString_chars _ Hz) as [Hc _]. destruct (Itoa_spec (prefixBits p)) as (Ha&Hd&_); [lia|].
  unfold PrefixString. rewrite to_of_list. split_and!.
  - rewrite !Forall_app. split_and!; [by apply addr_chars_target|by repeat constructor|].
    eapply Forall_impl; [exact Hd|]. apply digit_target.
  - rewrite (assoc_L app). apply last_app_plain.
    + intros E. by rewrite E in Ha.
    + eapply Forall_impl; [exact Hd|]. by intros c Hc' ->.
  - rewrite !elem_of_app. intros [H'|[H'|H']].
    + by apply (chars_not percent _ Hc) in H'.
    + set_solver.
    + rewrite Forall_forall in Hd. by apply Hd in H'.
  - set_solver.
Qed.

Lemma canonical_prefix p : prefix_wf p → of_list (canonical (PrefixString p)) = PrefixString p.
Proof.
  intros Hp. destruct (prefix_chars p Hp) as (Hc&Hl&_). rewrite <-(of_to_list (PrefixString p)) at 1.
  rewrite canonical_fix by done. apply of_to_list.
Qed.

Lemma literal_prefix p : prefix_wf p → literalTarget (PrefixString p) = None.
Proof.
  intros Hp. destruct (prefix_chars p Hp) as (_&_&Hn&Hs). unfold literalTarget.
  destruct (ParseAddr _) eqn:E; [|done]. by apply parse_addr_no_slash in E.
Qed.

Lemma unmap_wf a : addr_wf a → a ≠ AddrZero → Zone a = ""%string →
  addr_wf (Unmap a) ∧ Unmap a ≠ AddrZero ∧ Zone (Unmap a) = ""%string ∧ Unmap (Unmap a) = Unmap a.
Proof.
  intros Hw Hz Hzone. destruct a as [|n|n z]; [done|done|]. unfold Unmap. destruct (Is4In6 _) eqn:E.
  - split_and!; try done. apply Z.mod_pos_bound. lia.
  - by rewrite E.
Qed.

Lemma splitOn_chars (P : ascii → Prop) a l : Forall (Forall P) (splitOn a l) → Forall (λ c, c = a ∨ P c) l.
Proof.
  induction l as [|c l IH]; simpl; [constructor|]. destruct (bool_decide (c = a)) eqn:E.
  - intros H. apply Forall_cons in H as [_ H]. constructor; [left; by apply bool_decide_eq_true in E|auto].
  - destruct (splitOn a l) as [|x r] eqn:Es.
    + intros H. apply Forall_cons in H as [H _]. apply Forall_cons in H as [H _].
      constructor; [by right|]. apply IH. constructor.
    + intros H. apply Forall_cons in H as [H Hr]. apply Forall_cons in H as [H Hx].
      constructor; [by right|]. apply IH. by constructor.
Qed.

(** A trailing separator leaves an empty piece. *)
Lemma splitOn_last a l : last l = Some a → ∃ x r, splitOn a l = x :: r ++ [[]].
Proof.
  induction l as [|c l IH]; [done|]. destruct l as [|d l].
  - intros [= ->]. exists [], []. simpl. by rewrite bool_decide_true.
  - intros Hl. destruct (IH Hl) as (x&r&E). remember (d :: l) as l'. cbn [splitOn]. rewrite E.
    destruct (bool_decide _); [by exists [], (x :: r)|by exists (c :: x), r].
Qed.

(** An accepted name, wild card included, is made of target characters and does
    not end in a dot. *)
Lemma labels_target t :
  stripStar t ≠ [] → forallb labelOk (splitOn dot (stripStar t)) = true →
  Forall target_char t ∧ last t ≠ Some dot.
Proof.
  intros Hne H. assert (Forall (λ x, labelOk x = true) (splitOn dot (stripStar t))) as Hf.
  { apply Forall_forall. intros x Hx. rewrite forallb_forall in H. by apply H, list_elem_of_In. }
  assert (Forall target_char (stripStar t)) as Hc.
  { eapply Forall_impl; [apply (splitOn_chars target_char)|].
    - eapply Forall_impl; [exact Hf|]. intros [|c x]; [done|]. unfold labelOk. intros Hx. reflect_bools.
      apply Forall_forall. intros d Hd. apply list_elem_of_In in Hd.
      match goal with H : forallb label_char _ = true |- _ => rewrite forallb_forall in H; specialize (H d Hd) end.
      unfold label_char, target_char, is_lower, is_digit, is_upper, in_range in *.
      repeat match goal with H : (_ || _) = true |- _ => apply orb_true_iff in H as [H|H] end; reflect_bools;
        (split; [lia|]); destruct (Z.leb_spec 65 (byte d)); simpl; try done; apply Z.leb_gt; lia.
    - intros c [->|?]; [by split|done]. }
  assert (last (stripStar t) ≠ Some dot) as Hl.
  { intros (x&r&E)%splitOn_last. rewrite E in Hf. apply Forall_cons in Hf as [_ Hf].
    apply Forall_app in Hf as [_ Hf]. by apply Forall_cons in Hf as [Hf _]. }
  unfold stripStar in *. destruct t as [|a [|b t]]; [done|done|].
  destruct (bool_decide ([a; b] = star)) eqn:E; [|done]. apply bool_decide_eq_true in E. injection E as -> ->.
  split; [by repeat constructor|]. by destruct t.
Qed.

Lemma normalizeTarget_stable t t' : normalizeTarget t = Ok t' → normalizeTarget t' = Ok t'.
Proof.
  unfold normalizeTarget at 1. destruct (literalTarget (of_list (canonical t))) as [ip|] eqn:El.
  - intros [= ->]. unfold literalTarget in El. destruct (ParseAddr _) as [a|] eqn:Ea; [|done].
    apply parse_addr_wf in Ea as [Hw Hz]. case_bool_decide as Hzone; [|done]. injection El as <-.
    destruct (unmap_wf a Hw Hz Hzone) as (Hw'&Hz'&Hzone'&Huu). unfold normalizeTarget.
    rewrite canonical_addr by done. unfold literalTarget. rewrite parse_addr_string by done.
    rewrite bool_decide_true by done. by rewrite Huu.
  - destruct (ParsePrefix (of_list (canonical t))) as [p|] eqn:Ep.
    + intros [= <-]. apply parse_prefix_wf in Ep. pose proof (masked_wf p Ep) as Hm. unfold normalizeTarget.
      rewrite canonical_prefix, literal_prefix, parse_prefix_string by done. by rewrite masked_masked.
    + cbv zeta. destruct (bool_decide (stripStar (canonical t) = []) || _) eqn:Eb; [done|].
      destruct (forallb _ _) eqn:Ef; [|done]. intros [= <-]. apply orb_false_iff in Eb as Eb'. destruct Eb' as [Hne _].
      apply bool_decide_eq_false in Hne. destruct (labels_target _ Hne Ef) as [Hc Hl].
      unfold normalizeTarget. rewrite canonical_fix by done. rewrite El, Ep. cbv zeta. by rewrite Eb, Ef.
Qed.

(** Normalisation is canonical: accepting a policy fixes an action for the
    default, at most 1024 rules, and for every rule a target that normalises to
    itself, so that a stored policy passes validation unchanged and two spellings
    of one target are compared by equality. *)
Lemma normalize_policy_canonical p q :
  NormalizePolicy p = Ok q →
  NormalizePolicy q = Ok q ∧ isAction (DefaultAction q) = true ∧
  length (Egress q) = length (Egress p) ∧ (length (Egress q) <= 1024)%nat ∧
  Forall (λ r, isAction (Action r) = true ∧ normalizeTarget (Target r) = Ok (Target r)) (Egress q).
Proof.
  unfold NormalizePolicy at 1. set (d := if bool_decide (DefaultAction p = ""%string) then _ else DefaultAction p).
  destruct (isAction d) eqn:Hd; [|done]. destruct (Z.leb_spec (Z.of_nat (length (Egress p))) 1024); [|done].
  destruct (res_map _ _) as [rules|] eqn:Er; [|done]. intros [= <-].
  assert (length rules = length (Egress p) ∧ res_map normalizeRule rules = Ok rules ∧
    Forall (λ r, isAction (Action r) = true ∧ normalizeTarget (Target r) = Ok (Target r)) rules) as (Hl&Hm&Hf).
  { clear -Er. revert rules Er. induction (Egress p) as [|r l IH]; intros rules; simpl; [by intros [= <-]|].
    unfold normalizeRule at 1. destruct (isAction (Action r)) eqn:Ea; [|done].
    destruct (normalizeTarget (Target r)) as [t|] eqn:Et; [|done]. simpl.
    destruct (res_map _ l) as [rs|] eqn:El; [|done]. intros [= <-]. destruct (IH rs eq_refl) as (H1&H2&H3).
    apply normalizeTarget_stable in Et. simpl. unfold normalizeRule at 1. simpl. rewrite Ea, Et. simpl.
    rewrite H2. simpl. split_and!; [congruence|done|by constructor]. }
  unfold NormalizePolicy. cbn [DefaultAction Egress]. rewrite (bool_decide_false (d = ""%string)) by (intros E; by rewrite E in Hd).
  rewrite Hd, Hm, Hl. destruct (Z.leb_spec (Z.of_nat (length (Egress p))) 1024); [|lia].
  split_and!; (done || lia).
Qed.

Definition demo_policy : Policy :=
  mkPolicy "" [mkRule "allow" "*.Example.com."; mkRule "deny" "10.1.2.3/8"; mkRule "deny" "::ffff:192.0.2.1"].

(** ** The decision on a name *)

Definition about (name : list ascii) (r : Rule) : bool :=
  negb (bool_decide (is_Some (targetPrefix (Target r)))) && matches (Target r) name.

Lemma domainLoop_spec name action rules :
  domainLoop name action rules =
    if existsb (λ r, about name r && bool_decide (Action r = "deny"%string)) rules then "deny"%string
    else if existsb (about name) rules then "allow"%string else action.
Proof.
  revert action. induction rules as [|r rules IH]; intros action; [done|]. cbn [domainLoop existsb]. unfold about at 1 3.
  destruct (bool_decide (is_Some _)); [apply IH|]. destruct (matches _ _); [|apply IH].
  destruct (bool_decide (Action r = _)); [done|]. cbn [andb orb negb]. rewrite IH.
  destruct (existsb _ rules); [done|]. by destruct (existsb (about name) rules).
Qed.

Lemma hasSuffix_spec l suf : hasSuffix l suf = true ↔ ∃ pre, l = pre ++ suf.
Proof.
  unfold hasSuffix. rewrite bool_decide_eq_true. split.
  - intros H. exists (take (length l - length suf) l). rewrite <-H at 2. by rewrite take_drop.
  - intros [pre ->]. rewrite length_app, Nat.add_sub. apply drop_app_length.
Qed.

(** The verdict on a DNS name.  An address rule never decides a name; a deny
    rule about the name wins over every allow rule whatever their order, an allow
    rule wins over the default, and the default decides otherwise.  A rule
    [*.zone] is about exactly the names that end in [.zone], never about [zone]
    itself; any other rule only about the name it spells. *)
Lemma domain_action_spec p name :
  domainAction p name =
    (if existsb (λ r, about (lowerName name) r && bool_decide (Action r = "deny"%string)) (Egress p)
     then "deny"%string
     else if existsb (about (lowerName name)) (Egress p) then "allow"%string else DefaultAction p) ∧
  (∀ zone l, matches (of_list (star ++ zone)) l = true ↔ ∃ pre, l = pre ++ dot :: zone) ∧
  (∀ target l, take 2 (to_list target) ≠ star → matches target l = true ↔ to_list target = l).
Proof.
  split_and!; [apply domainLoop_spec| |].
  - intros zone l. unfold matches. rewrite to_of_list. cbn [star to_list app]. apply hasSuffix_spec.
  - intros target l Ht. unfold matches. destruct (to_list target) as [|a [|b t]]; try apply bool_decide_eq_true.
    rewrite (bool_decide_false ([a; b] = star)) by done. apply bool_decide_eq_true.
Qed.

(** ** Mutations *)

(** The rules about target [t], in order. *)
Definition rulesFor (t : string) (rules : list Rule) : list Rule := filter (λ r, Target r = t) rules.

Definition lastMerged (t : string) (acc : option Rule) (rules : list Rule) : option Rule :=
  foldl (λ acc r, if bool_decide (normalizeTarget (Target r) = Ok t) then Some r else acc) acc rules.

Lemma merge_err rules e : foldl mergeRule (Err e) rules = Err e.
Proof. by induction rules. Qed.

Lemma merge_fold rules egress out t :
  foldl mergeRule (Ok egress) rules = Ok out →
  rulesFor t out = match lastMerged t None rules with
                   | Some r => [mkRule (Action r) t]
                   | None => rulesFor t egress end.
Proof.
  revert out. induction rules as [|r rules IH] using rev_ind; intros out; simpl; [by intros [= <-]|].
  rewrite foldl_app. unfold lastMerged. rewrite foldl_app. fold (lastMerged t None rules). cbn [foldl].
  destruct (foldl mergeRule (Ok egress) rules) as [mid|]; [|done]. specialize (IH mid eq_refl). simpl.
  destruct (normalizeTarget (Target r)) as [t'|] eqn:Et; [|done]. intros [= <-].
  unfold rulesFor in *. rewrite filter_app, filter_cons, filter_nil. cbn [Target]. case_decide as Ht; [subst t'|].
  - rewrite bool_decide_true by done.
    assert (filter (λ x, Target x = t) (filter (λ old, Target old ≠ t) mid) = []) as ->; [|done].
    clear. induction mid as [|x mid IH]; [done|]. rewrite filter_cons. case_decide; [|done].
    by rewrite filter_cons, decide_False.
  - rewrite bool_decide_false by congruence. rewrite app_nil_r, <-IH. apply list_filter_filter_l. congruence.
Qed.

(** Rules whose actions are valid and whose targets are canonical. *)
Definition canonical_rules (rules : list Rule) : Prop :=
  Forall (λ r, isAction (Action r) = true ∧ normalizeTarget (Target r) = Ok (Target r)) rules.

Lemma res_map_canonical l : canonical_rules l → res_map normalizeRule l = Ok l.
Proof.
  induction 1 as [|r l [Ha Ht] _ IH]; [done|]. simpl. unfold normalizeRule at 1. rewrite Ha, Ht. simpl.
  rewrite IH. simpl. by destruct r.
Qed.

Lemma res_map_targets f rules out :
  (∀ r r', f r = Ok r' → r' = mkRule (Action r) (Target r') ∧ normalizeTarget (Target r) = Ok (Target r')) →
  Forall (λ r, normalizeTarget (Target r) = Ok (Target r)) rules →
  res_map (E:=policy_err) f rules = Ok out → out = rules.
Proof.
  intros Hf Hr. revert out. induction Hr as [|r l Ht _ IH]; intros out; simpl; [by intros [= <-]|].
  destruct (f r) as [r'|] eqn:E; [|done]. simpl. destruct (res_map f l) as [l'|]; [|done]. intros [= <-].
  apply Hf in E as [E1 E2]. rewrite (IH l' eq_refl). f_equal. rewrite E1. rewrite Ht in E2. injection E2 as <-.
  by destruct r.
Qed.

Lemma normalizeRule_spec r r' :
  normalizeRule r = Ok r' → r' = mkRule (Action r) (Target r') ∧ normalizeTarget (Target r) = Ok (Target r').
Proof.
  unfold normalizeRule. destruct (isAction _); [|done]. destruct (normalizeTarget _) eqn:E; [|done]. by intros [= <-].
Qed.

Lemma normalize_keeps p q :
  Forall (λ r, normalizeTarget (Target r) = Ok (Target r)) (Egress p) →
  NormalizePolicy p = Ok q → Egress q = Egress p.
Proof.
  intros Hp. unfold NormalizePolicy. destruct (isAction _); [|done]. destruct (_ <=? _); [|done].
  destruct (res_map _ _) as [l|] eqn:E; [|done]. intros [= <-]. simpl.
  eapply res_map_targets; [apply normalizeRule_spec|done|done].
Qed.

Lemma Forall_list_filter {A} (P Q : A → Prop) `{!∀ x, Decision (Q x)} l : Forall P l → Forall P (filter Q l).
Proof. rewrite !Forall_forall. intros Hl x Hx. apply list_elem_of_filter in Hx as [_ Hx]. auto. Qed.

Lemma merge_canonical rules egress out :
  Forall (λ r, normalizeTarget (Target r) = Ok (Target r)) egress →
  foldl mergeRule (Ok egress) rules = Ok out → Forall (λ r, normalizeTarget (Target r) = Ok (Target r)) out.
Proof.
  intros He. revert out. induction rules as [|r rules IH] using rev_ind; intros out; simpl; [by intros [= <-]|].
  rewrite foldl_app. cbn [foldl]. destruct (foldl mergeRule (Ok egress) rules) as [mid|]; [|done].
  specialize (IH mid eq_refl). simpl. destruct (normalizeTarget (Target r)) as [t|] eqn:Et; [|done].
  intros [= <-]. apply normalizeTarget_stable in Et. apply Forall_app. split; [by apply Forall_list_filter|].
  by repeat constructor.
Qed.

(** The three mutations of a stored policy.  Replacing installs the
    normalised replacement.  Merging gives every merged target exactly one rule,
    the last one merged, and leaves the rules of every other target alone.
    Removing drops exactly the rules of the removed targets. *)
Lemma mutation_spec current q :
  canonical_rules (Egress current) →
  (∀ p, ApplyMutation current (mkMutation (Some p) None None) = NormalizePolicy p) ∧
  (∀ rules, ApplyMutation current (mkMutation None (Some rules) None) = Ok q →
     ∀ t, rulesFor t (Egress q) = match lastMerged t None rules with
                                  | Some r => [mkRule (Action r) t]
                                  | None => rulesFor t (Egress current) end) ∧
  (∀ targets, ApplyMutation current (mkMutation None None (Some targets)) = Ok q →
     ∃ removed, res_map normalizeTarget targets = Ok removed ∧
       Egress q = filter (λ r, Target r ∉ removed) (Egress current)).
Proof.
  intros Hc. assert (Forall (λ r, normalizeTarget (Target r) = Ok (Target r)) (Egress current)) as Ht
    by (eapply Forall_impl; [exact Hc|]; by intros r [_ ?]).
  split_and!; [done|..].
  - intros rules. unfold ApplyMutation. simpl. destruct (foldl _ _ _) as [egress|] eqn:E; [|done]. simpl.
    intros Hq%normalize_keeps; [|by eapply merge_canonical]. intros t. rewrite Hq. by apply merge_fold.
  - intros targets. unfold ApplyMutation. simpl. destruct (res_map _ targets) as [removed|] eqn:E; [|done].
    simpl. intros Hq%normalize_keeps; [|by apply Forall_list_filter]. by exists removed.
Qed.

Definition demo_stored : Policy :=
  mkPolicy "deny" [mkRule "allow" "*.example.com"; mkRule "deny" "10.0.0.0/8"].

(** A mutation that merges and removes at once loses the merged rules: the
    removal starts from the policy before the merge. *)
Lemma merge_with_remove_drops_merge :
  ApplyMutation demo_stored (mkMutation None (Some [mkRule "allow" "a.test"]) (Some ["10.0.0.0/8"%string])) =
    Ok (mkPolicy "deny" [mkRule "allow" "*.example.com"]).
Proof. by vm_compute. Qed.

(** ** The control object *)

Inductive Body := CNAME (name : string) | ARecord (n : Z) | AAAARecord (n : Z) | OtherRecord.
Record Resource := mkResource { RecordTTL : Z; RecordBody : Body }.
Record Question := mkQuestion { QName : string; QType : Z; QClass : Z }.
#[export] Instance Question_eq_dec : EqDecision Question.
Proof. solve_decision. Defined.
Record Message := mkMessage {
  Response : bool; MessageID : Z; Questions : list Question; Answers : list Resource }.

Record dnsAddress := mkAddress { IP : Addr; TTL : Z }.

(** [learned] holds expiry times in nanoseconds; [apply] and [learn] are the
    outcomes passed to the operations. *)
Record policyControl := mkControl {
  current : Policy; revision : Z; closed : bool; learned : gmap Addr Z }.

Inductive update_err := Unavailable | Invalid (e : policy_err) | ApplyFailed.
Inductive PolicyMode := Enforcing | AllowAll | DenyAll.

Definition mutates (m : PolicyMutation) : bool :=
  bool_decide (is_Some (Replace m)) || bool_decide (is_Some (Merge m)) || bool_decide (is_Some (Remove m)).

Definition policyMode (p : Policy) : PolicyMode :=
  if bool_decide (Egress p = []) then
    if bool_decide (DefaultAction p = "allow"%string) then AllowAll else DenyAll
  else Enforcing.

Definition update (c : policyControl) (mutation : PolicyMutation) (applied : bool)
  : result update_err (Policy * PolicyMode) * policyControl :=
  if closed c then (Err Unavailable, c)
  else if mutates mutation then
    match ApplyMutation (current c) mutation with
    | Err e => (Err (Invalid e), c)
    | Ok p => if applied
              then (Ok (p, policyMode p), mkControl p ((revision c + 1) mod 2 ^ 64) (closed c) ∅)
              else (Err ApplyFailed, c)
    end
  else (Ok (current c, policyMode (current c)), c).

Inductive reply := Refused | Relayed | Failed.

(** The section of [exchange] before the upstream call: the revision to compare
    later, or an immediate reply. *)
Definition exchangeBegin (c : policyControl) (query : Message) : reply + Z :=
  match Response query, Questions query with
  | false, [q] =>
      if negb (closed c) && bool_decide (domainAction (current c) (QName q) = "allow"%string)
      then inr (revision c) else inl Refused
  | _, _ => inl Failed
  end.

(** The loop over the answers: [None] refuses the whole reply. *)
Fixpoint collect (p : Policy) (answers : list Resource) : option (list dnsAddress) :=
  match answers with
  | [] => Some []
  | r :: answers =>
      let keep (ip : Addr) :=
        if deniesIP p ip then None
        else let ttl := Z.min (RecordTTL r) 300 in
             let ttl := if ttl =? 0 then 1 else ttl in
             match collect p answers with Some l => Some (mkAddress ip ttl :: l) | None => None end in
      match RecordBody r with
      | CNAME name =>
          if bool_decide (domainAction p name = "deny"%string) &&
             bool_decide (domainAction (mkPolicy "allow" (Egress p)) name = "deny"%string)
          then None else collect p answers
      | ARecord n => keep (Addr4 n)
      | AAAARecord n => keep (Unmap (Addr6 n ""))
      | OtherRecord => collect p answers
      end
  end.

Definition second : Z := 10 ^ 9.

Definition learnedAfter (old : gmap Addr Z) (now : Z) (addresses : list dnsAddress) : gmap Addr Z :=
  foldl (λ m a, <[IP a := now + TTL a * second]> m) (filter (λ kv, now < kv.2) old) addresses.

(** Entries handed to the kernel set: whole seconds left, at least one. *)
Definition learnEntries (l : gmap Addr Z) (now : Z) : list dnsAddress :=
  (λ kv : Addr * Z, mkAddress kv.1 (Z.max 1 ((kv.2 - now) / second))) <$> map_to_list l.

Definition answers_match (query answer : Message) : bool :=
  Response answer && (MessageID answer =? MessageID query) &&
  match Questions answer, Questions query with
  | [q], q' :: _ => bool_decide (q = q') | _, _ => false end.

(** The section of [exchange] after the upstream call. *)
Definition exchangeFinish (c : policyControl) (query : Message) (rev : Z) (answer : Message)
    (now : Z) (kernelOk : bool) : reply * policyControl :=
  if negb (answers_match query answer) then (Failed, c)
  else if closed c || negb (revision c =? rev) then (Refused, c)
  else match collect (current c) (Answers answer) with
  | None => (Refused, c)
  | Some addresses =>
      if bool_decide (DefaultAction (current c) = "deny"%string) && negb (bool_decide (addresses = [])) then
        let l := learnedAfter (learned c) now addresses in
        if (4096 <? size l)%nat then (Failed, c)
        else if kernelOk then (Relayed, mkControl (current c) (revision c) (closed c) l)
        else (Failed, c)
      else (Relayed, c)
  end.

(** Interleavings of the sections.  [pending] are the exchanges waiting for the
    upstream, with the number of updates at their start; [granted] records for
    which question an address was learned; [version] counts the updates. *)
Record dns_state := mkDns {
  control : policyControl; clock : Z; version : Z;
  pending : gmap nat (Message * Z); granted : list (Addr * string) }.

Definition questionName (m : Message) : string :=
  match Questions m with q :: _ => QName q | [] => ""%string end.

Inductive dns_step : dns_state → dns_state → Prop :=
| ds_tick s t : clock s <= t →
    dns_step s (mkDns (control s) t (version s) (pending s) (granted s))
| ds_update s mutation applied res c :
    update (control s) mutation applied = (Ok res, c) → mutates mutation = true →
    dns_step s (mkDns c (clock s) (version s + 1) (pending s) [])
| ds_query s id query rev :
    exchangeBegin (control s) query = inr rev → pending s !! id = None →
    dns_step s (mkDns (control s) (clock s) (version s) (<[id:=(query, version s)]> (pending s)) (granted s))
| ds_answer s id query v answer kernelOk rep c :
    pending s !! id = Some (query, v) →
    Forall (λ r, 0 <= RecordTTL r < 2 ^ 32) (Answers answer) →
    exchangeFinish (control s) query (v mod 2 ^ 64) answer (clock s) kernelOk = (rep, c) →
    dns_step s (mkDns c (clock s) (version s) (delete id (pending s))
      (granted s ++ match rep, collect (current (control s)) (Answers answer) with
                    | Relayed, Some l => (λ a, (IP a, questionName query)) <$> l | _, _ => [] end))
| ds_close s : dns_step s (mkDns (mkControl (current (control s)) (revision (control s)) true
    (learned (control s))) (clock s) (version s) (pending s) (granted s)).

Inductive dns_reach : dns_state → Prop :=
| dr_init p now : dns_reach (mkDns (mkControl p 0 false ∅) now 0 ∅ [])
| dr_step s s' : dns_reach s → dns_step s s' → dns_reach s'.

Lemma collect_spec p answers l :
  Forall (λ r, 0 <= RecordTTL r < 2 ^ 32) answers → collect p answers = Some l →
  Forall (λ a, deniesIP p (IP a) = false ∧ 1 <= TTL a <= 300) l.
Proof.
  intros Ht. revert l. induction Ht as [|r answers Hr _ IH]; intros l; simpl; [by intros [= <-]; constructor|].
  assert (∀ ip, (if deniesIP p ip then None else match collect p answers with
    | Some l => Some (mkAddress ip (if Z.min (RecordTTL r) 300 =? 0 then 1 else Z.min (RecordTTL r) 300) :: l)
    | None => None end) = Some l → Forall (λ a, deniesIP p (IP a) = false ∧ 1 <= TTL a <= 300) l) as Hk.
  { intros ip. destruct (deniesIP p ip) eqn:Ed; [done|]. destruct (collect p answers) as [l'|]; [|done].
    intros [= <-]. constructor; [|by apply IH]. simpl. split; [done|].
    destruct (Z.eqb_spec (Z.min (RecordTTL r) 300) 0); lia. }
  destruct (RecordBody r); [destruct (_ && _); [done|auto]|apply Hk|apply Hk|auto].
Qed.

Lemma learnedAfter_lookup old now l ip t :
  learnedAfter old now l !! ip = Some t →
  (∃ a, a ∈ l ∧ IP a = ip ∧ t = now + TTL a * second) ∨ (old !! ip = Some t ∧ now < t).
Proof.
  unfold learnedAfter. induction l as [|a l IH] using rev_ind.
  - simpl. intros H%map_lookup_filter_Some. by right.
  - rewrite foldl_app. cbn [foldl]. rewrite lookup_insert_Some. intros [[<- <-]|[_ H]].
    + left. exists a. set_solver.
    + destruct (IH H) as [(b&Hb&?&?)|?]; [left; exists b; set_solver|by right].
Qed.

Record dns_inv (s : dns_state) : Prop := {
  di_version : 0 <= version s;
  di_revision : revision (control s) = version s mod 2 ^ 64;
  di_pending : ∀ id q v, pending s !! id = Some (q, v) → 0 <= v <= version s ∧
    (v = version s → domainAction (current (control s)) (questionName q) = "allow"%string);
  di_granted : ∀ ip name, (ip, name) ∈ granted s →
    domainAction (current (control s)) name = "allow"%string ∧ deniesIP (current (control s)) ip = false;
  di_learned : ∀ ip t, learned (control s) !! ip = Some t →
    (∃ name, (ip, name) ∈ granted s) ∧ t <= clock s + 300 * second;
  di_size : (size (learned (control s)) <= 4096)%nat;
  di_deny : learned (control s) ≠ ∅ → DefaultAction (current (control s)) = "deny"%string;
}.

Lemma finish_spec c query rev answer now k rep c' :
  exchangeFinish c query rev answer now k = (rep, c') →
  current c' = current c ∧ revision c' = revision c ∧ closed c' = closed c ∧
  (c' = c ∨ (∃ l, rep = Relayed ∧ collect (current c) (Answers answer) = Some l ∧
     learned c' = learnedAfter (learned c) now l ∧ (size (learned c') <= 4096)%nat ∧
     DefaultAction (current c) = "deny"%string)) ∧
  (rep = Relayed → revision c = rev).
Proof.
  unfold exchangeFinish. destruct (negb _); [intros [= <- <-]; split_and!; auto; done|].
  destruct (closed c || _) eqn:Er; [intros [= <- <-]; split_and!; auto; done|]. reflect_bools.
  destruct (collect _ _) as [l|]; [|intros [= <- <-]; split_and!; auto; done].
  destruct (_ && _) eqn:Eb; [|intros [= <- <-]; split_and!; auto; done]. cbv zeta.
  destruct (Nat.ltb_spec 4096 (size (learnedAfter (learned c) now l))) as [|Hs]; [intros [= <- <-]; split_and!; auto; done|].
  destruct k; intros [= <- <-]; split_and!; auto; try done. right. exists l. reflect_bools. by split_and!.
Qed.

Lemma update_spec c m applied res c' :
  update c m applied = (Ok res, c') → mutates m = true →
  revision c' = (revision c + 1) mod 2 ^ 64 ∧ learned c' = ∅.
Proof.
  unfold update. intros H Hm. rewrite Hm in H. destruct (closed c); [done|].
  destruct (ApplyMutation _ _); [|done]. destruct applied; [|done]. by injection H as <- <-.
Qed.

Lemma begin_spec c query rev :
  exchangeBegin c query = inr rev → domainAction (current c) (questionName query) = "allow"%string.
Proof.
  unfold exchangeBegin, questionName. destruct (Response query); [done|].
  destruct (Questions query) as [|q [|]]; [done| |done]. destruct (_ && _) eqn:E; [|done].
  by reflect_bools.
Qed.

Lemma answer_inv s id query v answer k rep c :
  dns_inv s → version s < 2 ^ 64 → pending s !! id = Some (query, v) →
  Forall (λ r, 0 <= RecordTTL r < 2 ^ 32) (Answers answer) →
  exchangeFinish (control s) query (v mod 2 ^ 64) answer (clock s) k = (rep, c) →
  dns_inv (mkDns c (clock s) (version s) (delete id (pending s))
      (granted s ++ match rep, collect (current (control s)) (Answers answer) with
                    | Relayed, Some l => (λ a, (IP a, questionName query)) <$> l | _, _ => [] end)).
Proof.
  intros [Hv Hr Hp Hg Hl Hs Hd] Hlt Hid Htt Hf.
  destruct (finish_spec _ _ _ _ _ _ _ _ Hf) as (Ec&Er&_&Hcase&Hrel).
  destruct (Hp _ _ _ Hid) as [Hvb Hallow].
  split; cbn [control clock version pending granted]; rewrite ?Ec, ?Er; try done.
  - intros id' q' v' [_ H]%lookup_delete_Some. by eapply Hp.
  - intros ip name [Hin|Hin]%elem_of_app; [by apply Hg|].
    destruct rep; [by apply elem_of_nil in Hin| |by apply elem_of_nil in Hin].
    destruct (collect _ _) as [l|] eqn:El; [|by apply elem_of_nil in Hin].
    apply list_elem_of_fmap in Hin as (a&[= -> ->]&Ha). split.
    + apply Hallow. specialize (Hrel eq_refl). rewrite Hr, !Z.mod_small in Hrel by lia. lia.
    + apply collect_spec in El; [|done]. rewrite Forall_forall in El. by destruct (El a Ha).
  - intros ip t Ht. destruct Hcase as [->|(l&->&El&E&_)].
    + destruct (Hl ip t Ht) as [[name Hn] ?]. split; [exists name; set_solver|done].
    + rewrite E in Ht. apply collect_spec in El as Hspec; [|done]. rewrite Forall_forall in Hspec. rewrite El.
      apply learnedAfter_lookup in Ht as [(a&Ha&<-&->)|[Ht _]].
      * destruct (Hspec a Ha) as [_ ?]. split; [|unfold second in *; nia].
        exists (questionName query). apply elem_of_app. right. apply list_elem_of_fmap. eauto.
      * destruct (Hl ip t Ht) as [[name Hn] ?]. split; [exists name; set_solver|done].
  - destruct Hcase as [->|(l&_&_&_&?&_)]; done.
  - destruct Hcase as [->|(l&_&_&_&_&?)]; [done|]. congruence.
Qed.

Lemma dns_inv_step s s' : dns_inv s → version s < 2 ^ 64 → dns_step s s' → dns_inv s'.
Proof.
  intros Hi Hlt Hstep.
  destruct Hstep as [s t Ht|s m applied res c Hu Hm|s id q rev Hq Hid|s id q v a k rep c Hid Htt Hf|s].
  - destruct Hi as [Hv Hr Hp Hg Hl Hs Hd]. split; simpl; try done. intros ip x Hx.
    destruct (Hl ip x Hx). split; [done|]. lia.
  - destruct Hi as [Hv Hr Hp Hg Hl Hs Hd]. destruct (update_spec _ _ _ _ _ Hu Hm) as [Er El].
    split; cbn [control clock version pending granted]; rewrite ?El, ?Er; try done; try lia.
    + rewrite Hr. by rewrite Zplus_mod_idemp_l.
    + intros id q v H. destruct (Hp id q v H). lia.
    + by intros ip name ?%elem_of_nil.
    + by rewrite map_size_empty; lia.
  - destruct Hi as [Hv Hr Hp Hg Hl Hs Hd]. split; simpl; try done. intros id' q' v'.
    rewrite lookup_insert_Some. intros [[<- [= <- <-]]|[_ H]]; [|by eapply Hp].
    split; [lia|]. intros _. by eapply begin_spec.
  - by eapply answer_inv.
  - destruct Hi as [Hv Hr Hp Hg Hl Hs Hd]. by split.
Qed.

Lemma dns_step_version s s' : dns_step s s' → version s <= version s'.
Proof. destruct 1; simpl; lia. Qed.

Lemma dns_reach_inv s : dns_reach s → version s < 2 ^ 64 → dns_inv s.
Proof.
  induction 1 as [p now|s s' _ IH Hs]; intros Hlt.
  - split; cbn [control clock version pending granted learned]; try done.
    + by intros ip name ?%elem_of_nil.
    + rewrite map_size_empty. lia.
  - pose proof (dns_step_version s s' Hs). apply (dns_inv_step s); [apply IH; lia|lia|done].
Qed.

(** C39: DNS learning never widens an egress policy, under every interleaving of
    policy updates, closing and in-flight exchanges (fewer than 2^64 updates, the
    width of the revision).  An address is only learned under a default-deny
    policy; the question it answered is allowed by the policy now in force, the
    policy denies neither the address nor the name, an exchange that began under
    an older policy teaches nothing; at most 4096 addresses are held and none
    outlives its answer by more than 300 seconds. *)
Theorem dns_learning_sound s :
  dns_reach s → version s < 2 ^ 64 →
  (size (learned (control s)) <= 4096)%nat ∧
  ∀ ip expiry, learned (control s) !! ip = Some expiry →
    DefaultAction (current (control s)) = "deny"%string ∧
    deniesIP (current (control s)) ip = false ∧
    expiry <= clock s + 300 * second ∧
    ∃ name, (ip, name) ∈ granted s ∧ domainAction (current (control s)) name = "allow"%string.
Proof.
  intros Hr Hv. destruct (dns_reach_inv s Hr Hv) as [_ _ _ Hg Hl Hs Hd]. split; [done|].
  intros ip t Ht. destruct (Hl ip t Ht) as [[name Hn] ?]. destruct (Hg ip name Hn) as [Ha Hde].
  split_and!; [|done|done|by exists name].
  apply Hd. intros E. rewrite E in Ht. by rewrite lookup_empty in Ht.
Qed.

Definition demo_query : Message := mkMessage false 7 [mkQuestion "www.example.com." 1 1] [].
Definition demo_answer : Message :=
  mkMessage true 7 [mkQuestion "www.example.com." 1 1] [mkResource 60 (ARecord 3221225985)].
Definition demo_dns0 : dns_state := mkDns (mkControl demo_stored 0 false ∅) 0 0 ∅ [].
Definition demo_dns1 : dns_state :=
  mkDns (control demo_dns0) 0 0 (<[0%nat:=(demo_query, 0)]> (pending demo_dns0)) [].
Definition demo_dns : dns_state :=
  mkDns (exchangeFinish (control demo_dns1) demo_query 0 demo_answer 0 true).2 0 0
    (delete 0%nat (pending demo_dns1))
    ([] ++ match Relayed, collect demo_stored (Answers demo_answer) with
           | Relayed, Some l => (λ a, (IP a, questionName demo_query)) <$> l | _, _ => [] end).

Lemma dns_learning_sound_witness :
  learned (control demo_dns) !! Addr4 3221225985 = Some (60 * second) ∧
  deniesIP (current (control demo_dns)) (Addr4 3221225985) = false ∧
  ∃ name, (Addr4 3221225985, name) ∈ granted demo_dns ∧
    domainAction (current (control demo_dns)) name = "allow"%string.
Proof.
  assert (dns_reach demo_dns) as Hr.
  { apply (dr_step demo_dns1); [apply (dr_step demo_dns0); [apply (dr_init demo_stored 0)|]|].
    - apply (ds_query demo_dns0 0%nat demo_query 0); by vm_compute.
    - apply (ds_answer demo_dns1 0%nat demo_query 0 demo_answer true Relayed); [done| |by vm_compute].
      repeat constructor; simpl; lia. }
  split; [by vm_compute|].
  destruct (dns_learning_sound demo_dns Hr ltac:(by vm_compute)) as [_ H].
  destruct (H (Addr4 3221225985) (60 * second) ltac:(by vm_compute)) as (_&Hd&_&Hn).
  exact (conj Hd Hn).
Defined.
