(* ===== verification/PortAlloc.v ===== *)
(** * PortAlloc: the daemon-wide TCP port allocator

    Models [internal/host/network/ports.go].  A pointer [*PortAllocation] is an
    identifier drawn from a counter.  What the kernel answers to a bind attempt
    and to closing a listener are arguments; [net.Listen] is attempted on the
    address of the candidate. *)

From S2P Require Import Prelude Netip.

Inductive port_err := PortClosed | BadAddress | NotLiteralIP | InvalidPortRequest
  | PortsExhausted | CheckListener | ListenFailed | BadPortRange.
#[export] Instance port_err_eq_dec : EqDecision port_err.
Proof. solve_decision. Defined.

Inductive PortState := PortReserved | PortListening.

Record PortAllocation := mkAllocation {
  allocOwner : string; allocScope : string; allocAddress : string; allocState : PortState;
  allocHost : string; allocPort : Z; allocListener : bool }.

Record PortManager := mkPortManager {
  first : Z; last : Z; next : Z; closed : bool;
  allocations : gmap Z PortAllocation; freshAllocation : Z }.

Definition NewPortManager (first last : Z) : result port_err PortManager :=
  if (first <? 1) || (65535 <? last) || (last <? first) then Err BadPortRange
  else Ok (mkPortManager first last first false ∅ 0).

Definition zeroOr (o : option Addr) : Addr := default AddrZero o.

Definition overlappingHosts (a b : string) : bool :=
  if bool_decide (a = ""%string) || bool_decide (b = ""%string) ||
     bool_decide (a = "::"%string) || bool_decide (b = "::"%string) then true
  else
    let x := Unmap (zeroOr (ParseAddr a)) in
    let y := Unmap (zeroOr (ParseAddr b)) in
    bool_decide (x = y) || (Bool.eqb (Is4 x) (Is4 y) && (IsUnspecified x || IsUnspecified y)).

Definition portConflict (m : PortManager) (scope host : string) (candidate : Z) : bool :=
  existsb (λ kv : Z * PortAllocation,
    bool_decide (allocScope kv.2 = scope) && (allocPort kv.2 =? candidate) &&
    overlappingHosts (allocHost kv.2) host) (map_to_list (allocations m)).

Definition withNext (m : PortManager) (n : Z) : PortManager :=
  mkPortManager (first m) (last m) n (closed m) (allocations m) (freshAllocation m).
Definition withAllocations (m : PortManager) (a : gmap Z PortAllocation) : PortManager :=
  mkPortManager (first m) (last m) (next m) (closed m) a (freshAllocation m).

Definition advance (m : PortManager) : PortManager :=
  withNext m (if last m <? next m + 1 then first m else next m + 1).

Definition addAllocation (m : PortManager) (owner scope host : string) (port : Z) : PortManager :=
  mkPortManager (first m) (last m) (next m) (closed m)
    (<[freshAllocation m := mkAllocation owner scope (JoinHostPort host (of_list (Itoa port))) PortReserved host port false]>
      (allocations m)) (freshAllocation m + 1).

(** The search loop of [reserve]: [count] candidates are left. *)
Fixpoint reserveLoop (count : nat) (m : PortManager) (owner scope host : string) (port : Z)
  : option Z * PortManager :=
  match count with
  | O => (None, m)
  | S count =>
      let candidate := if port =? 0 then next m else port in
      let m := if port =? 0 then advance m else m in
      if portConflict m scope host candidate then reserveLoop count m owner scope host port
      else (Some (freshAllocation m), addAllocation m owner scope host candidate)
  end.

Definition poolSize (m : PortManager) : nat := Z.to_nat (last m - first m + 1).

Definition reserve (m : PortManager) (owner scope address : string) : result port_err Z * PortManager :=
  if closed m then (Err PortClosed, m)
  else match SplitHostPort address with
  | None => (Err BadAddress, m)
  | Some (host, rawPort) =>
      if negb (bool_decide (host = ""%string)) && bool_decide (ParseAddr host = None) then (Err NotLiteralIP, m)
      else match Atoi (to_list rawPort) with
      | None => (Err InvalidPortRequest, m)
      | Some port =>
          if (port <? 0) || (65535 <? port) || bool_decide (owner = ""%string) then (Err InvalidPortRequest, m)
          else
            let count := if port =? 0 then poolSize m else 1%nat in
            match reserveLoop count m owner scope host port with
            | (Some id, m) => (Ok id, m)
            | (None, m) => (Err PortsExhausted, m)
            end
      end
  end.

Inductive listen_outcome := Bound | AddrInUse | BindError.

Definition dropAllocation (m : PortManager) (id : Z) : PortManager :=
  withAllocations m (delete id (allocations m)).

Definition addressOf (m : PortManager) (id : Z) : string :=
  match allocations m !! id with Some a => allocAddress a | None => ""%string end.

(** [Reserve]; [probe i address] answers the [i]-th trial listen. *)
Fixpoint ReserveLoop (attempts : nat) (m : PortManager) (owner scope address : string)
    (probe : nat → string → listen_outcome) : result port_err Z * PortManager :=
  match attempts with
  | O => (Err PortsExhausted, m)
  | S attempts =>
      match reserve m owner scope address with
      | (Err e, m) => (Err e, m)
      | (Ok id, m) =>
          if negb (bool_decide (scope = ""%string)) then (Ok id, m)
          else match probe attempts (addressOf m id) with
               | Bound => (Ok id, m)
               | AddrInUse => ReserveLoop attempts (dropAllocation m id) owner scope address probe
               | BindError => (Err CheckListener, dropAllocation m id)
               end
      end
  end.

Definition isZeroPort (address : string) : bool :=
  match SplitHostPort address with Some (_, port) => bool_decide (port = "0"%string) | None => false end.

Definition Reserve (m : PortManager) (owner scope address : string)
    (probe : nat → string → listen_outcome) : result port_err Z * PortManager :=
  ReserveLoop (if isZeroPort address then poolSize m else 1%nat) m owner scope address probe.

Definition setListening (a : PortAllocation) (listener : bool) : PortAllocation :=
  mkAllocation (allocOwner a) (allocScope a) (allocAddress a) PortListening (allocHost a) (allocPort a) listener.
Definition setReserved (a : PortAllocation) : PortAllocation :=
  mkAllocation (allocOwner a) (allocScope a) (allocAddress a) PortReserved (allocHost a) (allocPort a) (allocListener a).

(** [Listen] on an already resolved address. *)
Fixpoint ListenLoop (attempts : nat) (m : PortManager) (owner address : string) (dynamic : bool)
    (bind : nat → string → listen_outcome) : result port_err Z * PortManager :=
  match attempts with
  | O => (Err PortsExhausted, m)
  | S attempts =>
      match reserve m owner "" address with
      | (Err e, m) => (Err e, m)
      | (Ok id, m) =>
          match bind attempts (addressOf m id) with
          | Bound => (Ok id, withAllocations m (alter (λ a, setListening a true) id (allocations m)))
          | _ => if dynamic then ListenLoop attempts (dropAllocation m id) owner address dynamic bind
                 else (Err ListenFailed, dropAllocation m id)
          end
      end
  end.

Definition Listen (m : PortManager) (owner address : string) (bind : nat → string → listen_outcome)
  : result port_err Z * PortManager :=
  match SplitHostPort address with
  | None => (Err BadAddress, m)
  | Some (_, port) =>
      let dynamic := bool_decide (port = "0"%string) in
      ListenLoop (if dynamic then poolSize m else 1%nat) m owner address dynamic bind
  end.

Definition Confirm (m : PortManager) (id : Z) : result port_err unit * PortManager :=
  match allocations m !! id with
  | None => (Err PortClosed, m)
  | Some a => (Ok tt, withAllocations m (<[id := setListening a (allocListener a)]> (allocations m)))
  end.

Definition Unconfirm (m : PortManager) (id : Z) : PortManager :=
  match allocations m !! id with
  | Some a => if allocListener a then m else withAllocations m (<[id := setReserved a]> (allocations m))
  | None => m
  end.

(** [closes] tells whether closing the listener succeeds. *)
Definition ReleasePort (m : PortManager) (id : Z) (closes : bool) : bool * PortManager :=
  match allocations m !! id with
  | None => (true, m)
  | Some a => if allocListener a && negb closes then (false, m) else (true, dropAllocation m id)
  end.

Definition ClosePorts (m : PortManager) : PortManager :=
  mkPortManager (first m) (last m) (next m) true ∅ (freshAllocation m).

(** ** Overlap of listening hosts *)

Lemma overlap_sym a b : overlappingHosts a b = overlappingHosts b a.
Proof.
  unfold overlappingHosts. set (x := Unmap (zeroOr (ParseAddr a))). set (y := Unmap (zeroOr (ParseAddr b))).
  assert (bool_decide (x = y) = bool_decide (y = x)) as -> by (apply bool_decide_ext; naive_solver).
  rewrite (orb_comm (IsUnspecified x)). assert (Bool.eqb (Is4 x) (Is4 y) = Bool.eqb (Is4 y) (Is4 x)) as ->
    by (by destruct (Is4 x), (Is4 y)).
  by destruct (bool_decide (a = ""%string)), (bool_decide (b = ""%string)),
    (bool_decide (a = "::"%string)), (bool_decide (b = "::"%string)).
Qed.

Lemma overlap_refl a : overlappingHosts a a = true.
Proof.
  unfold overlappingHosts. destruct (_ || _); [done|]. cbv zeta. by rewrite bool_decide_true.
Qed.

(** ** The invariant *)

(** Two allocations compete when a socket of one would take the other's place. *)
Definition compete (a b : PortAllocation) : Prop :=
  allocScope a = allocScope b ∧ allocPort a = allocPort b ∧ overlappingHosts (allocHost a) (allocHost b) = true.

Record ports_inv (m : PortManager) : Prop := {
  po_range : 1 <= first m ∧ first m <= last m ∧ last m <= 65535;
  po_next : first m <= next m <= last m;
  po_fresh : ∀ i a, allocations m !! i = Some a → i < freshAllocation m;
  po_port : ∀ i a, allocations m !! i = Some a → 1 <= allocPort a <= 65535;
  po_address : ∀ i a, allocations m !! i = Some a →
    allocAddress a = JoinHostPort (allocHost a) (of_list (Itoa (allocPort a)));
  po_disjoint : ∀ i j a b, allocations m !! i = Some a → allocations m !! j = Some b →
    compete a b → i = j;
  po_closed : closed m = true → allocations m = ∅;
}.

Lemma conflict_spec m scope host candidate :
  portConflict m scope host candidate = false ↔
  ∀ i a, allocations m !! i = Some a →
    ~ (allocScope a = scope ∧ allocPort a = candidate ∧ overlappingHosts (allocHost a) host = true).
Proof.
  unfold portConflict. rewrite <-not_true_iff_false, existsb_exists. split.
  - intros H i a Ha (Hs&Hp&Ho). apply H. exists (i, a). split; [by apply list_elem_of_In, elem_of_map_to_list|].
    simpl. rewrite bool_decide_true, Ho by done. subst. by rewrite Z.eqb_refl.
  - intros H ([i a]&Hin&Hx). apply list_elem_of_In, elem_of_map_to_list in Hin. apply (H i a Hin).
    simpl in Hx. by reflect_bools.
Qed.

Lemma advance_inv m : ports_inv m → ports_inv (advance m).
Proof.
  intros [H1 H2 H3 H4 H5 H6 H7]. split; simpl; try done. destruct (Z.ltb_spec (last m) (next m + 1)); lia.
Qed.

Lemma drop_inv m id : ports_inv m → ports_inv (dropAllocation m id).
Proof.
  intros [H1 H2 H3 H4 H5 H6 H7]. split; simpl; try done.
  - intros i a [_ ?]%lookup_delete_Some. eauto.
  - intros i a [_ ?]%lookup_delete_Some. eauto.
  - intros i a [_ ?]%lookup_delete_Some. eauto.
  - intros i j a b [_ ?]%lookup_delete_Some [_ ?]%lookup_delete_Some. eauto.
  - intros Hc. rewrite (H7 Hc). apply delete_empty.
Qed.

Lemma add_inv m owner scope host port :
  ports_inv m → closed m = false → 1 <= port <= 65535 → portConflict m scope host port = false →
  ports_inv (addAllocation m owner scope host port).
Proof.
  intros [H1 H2 H3 H4 H5 H6 H7] Hc Hp Hconf. rewrite conflict_spec in Hconf.
  split; simpl; try done; try congruence.
  - intros i a [[<- <-]|[_ Ha]]%lookup_insert_Some; [lia|]. apply H3 in Ha. lia.
  - intros i a [[<- <-]|[_ Ha]]%lookup_insert_Some; [done|eauto].
  - intros i a [[<- <-]|[_ Ha]]%lookup_insert_Some; [done|eauto].
  - intros i j a b [[<- <-]|[_ Ha]]%lookup_insert_Some [[<- <-]|[_ Hb]]%lookup_insert_Some (Hs&Hpo&Ho); simpl in *.
    + done.
    + exfalso. apply (Hconf j b Hb). split_and!; [done|done|]. by rewrite overlap_sym.
    + exfalso. by apply (Hconf i a Ha).
    + by apply (H6 i j a b).
Qed.

Lemma alter_inv m id f :
  ports_inv m →
  (∀ a, allocScope (f a) = allocScope a ∧ allocPort (f a) = allocPort a ∧ allocHost (f a) = allocHost a ∧
    allocAddress (f a) = allocAddress a) →
  ports_inv (withAllocations m (alter f id (allocations m))).
Proof.
  intros [H1 H2 H3 H4 H5 H6 H7] Hf.
  assert (∀ i a, alter f id (allocations m) !! i = Some a → ∃ a', allocations m !! i = Some a' ∧
    allocScope a = allocScope a' ∧ allocPort a = allocPort a' ∧ allocHost a = allocHost a' ∧
    allocAddress a = allocAddress a') as Hl.
  { intros i a. rewrite lookup_alter_Some. intros [(_&a'&Ha&->)|[_ Ha]]; [exists a'|exists a]; by split_and!; try apply Hf. }
  split; simpl; try done.
  - intros i a (a'&Ha&_)%Hl. eauto.
  - intros i a (a'&Ha&_&->&_)%Hl. eauto.
  - intros i a (a'&Ha&_&->&->&->)%Hl. eauto.
  - intros i j a b (a'&Ha&Es&Ep&Eh&_)%Hl (b'&Hb&Fs&Fp&Fh&_)%Hl. unfold compete. rewrite Es, Ep, Eh, Fs, Fp, Fh. eauto.
  - intros Hc. rewrite (H7 Hc). apply map_eq. intros i. by rewrite lookup_alter, lookup_empty; destruct (decide _).
Qed.

(** ** The search *)

(** The candidate examined [k] iterations from now. *)
Definition candidateAt (m : PortManager) (port k : Z) : Z :=
  if port =? 0 then first m + (next m - first m + k) mod (last m - first m + 1) else port.

Lemma candidate_now m port : ports_inv m → candidateAt m port 0 = if port =? 0 then next m else port.
Proof.
  intros H. pose proof (po_next _ H). unfold candidateAt. destruct (port =? 0); [|done].
  rewrite Z.mod_small; lia.
Qed.

Lemma candidate_advance m port k :
  ports_inv m → 0 <= k →
  candidateAt (if port =? 0 then advance m else m) port k = candidateAt m port (k + 1).
Proof.
  intros H Hk. pose proof (po_next _ H). pose proof (po_range _ H). unfold candidateAt.
  destruct (port =? 0); [|done]. simpl. f_equal. destruct (Z.ltb_spec (last m) (next m + 1)).
  - replace (next m - first m + (k + 1)) with (first m - first m + k + 1 * (last m - first m + 1)) by lia.
    by rewrite Z.mod_add by lia.
  - f_equal. lia.
Qed.

Lemma conflict_advance m b scope host c :
  portConflict (if b : bool then advance m else m) scope host c = portConflict m scope host c.
Proof. by destruct b. Qed.

Definition sameShape (m m' : PortManager) : Prop :=
  first m' = first m ∧ last m' = last m ∧ closed m' = closed m.

(** What a successful search adds. *)
Definition granted (m m' : PortManager) (id : Z) (owner scope host : string) (port : Z) : Prop :=
  id = freshAllocation m ∧ portConflict m scope host port = false ∧ 1 <= port <= 65535 ∧
  allocations m' = <[id := mkAllocation owner scope (JoinHostPort host (of_list (Itoa port)))
                             PortReserved host port false]> (allocations m).

Lemma reserveLoop_spec count m owner scope host port r m' :
  ports_inv m → closed m = false → 0 <= port <= 65535 →
  reserveLoop count m owner scope host port = (r, m') →
  ports_inv m' ∧ sameShape m m' ∧
  match r with
  | Some id => ∃ c, granted m m' id owner scope host c ∧
      (if port =? 0 then first m <= c <= last m else c = port)
  | None => allocations m' = allocations m ∧
      ∀ k, 0 <= k < Z.of_nat count → portConflict m scope host (candidateAt m port k) = true
  end.
Proof.
  intros Hi Hc Hp. revert m Hi Hc. induction count as [|count IH]; intros m Hi Hc; cbn [reserveLoop].
  { intros [= <- <-]. split_and!; [done|by split_and!|done|lia]. }
  set (m1 := if port =? 0 then advance m else m).
  assert (ports_inv m1) as Hi1 by (unfold m1; destruct (port =? 0); [by apply advance_inv|done]).
  assert (sameShape m m1 ∧ allocations m1 = allocations m ∧ freshAllocation m1 = freshAllocation m) as (Hsh&Ea&Ef)
    by (unfold m1, sameShape; by destruct (port =? 0)).
  pose proof (candidate_now m port Hi) as Hnow. rewrite <-Hnow.
  destruct (portConflict m1 scope host (candidateAt m port 0)) eqn:Ec; unfold m1 in Ec; rewrite conflict_advance in Ec.
  - intros H. apply IH in H as (H1&H2&H3); [|done|by destruct Hsh as (_&_&->)].
    split_and!; [done|destruct Hsh as (?&?&?), H2 as (?&?&?); split_and!; congruence|].
    destruct r as [id|].
    + destruct H3 as (c&(Hid&Hcf&Hb&Hal)&Hr). exists c. destruct Hsh as (E1&E2&_). rewrite E1, E2 in Hr.
      split; [|done]. unfold m1 in Hcf. rewrite conflict_advance in Hcf. split_and!; [congruence|done|lia|lia|congruence].
    + destruct H3 as [H3 H4]. split; [congruence|]. intros k Hk. destruct (decide (k = 0)) as [->|]; [done|].
      specialize (H4 (k - 1) ltac:(lia)). unfold m1 in H4. rewrite conflict_advance, candidate_advance in H4 by (done || lia).
      by replace (k - 1 + 1) with k in H4 by lia.
  - intros [= <- <-].
    assert (1 <= candidateAt m port 0 <= 65535 ∧
      (if port =? 0 then first m <= candidateAt m port 0 <= last m else candidateAt m port 0 = port)) as [Hb Hr].
    { rewrite Hnow. pose proof (po_next _ Hi). pose proof (po_range _ Hi). destruct (Z.eqb_spec port 0); lia. }
    split_and!.
    + apply add_inv; [done|by destruct Hsh as (_&_&->)|done|]. unfold m1. by rewrite conflict_advance.
    + done.
    + exists (candidateAt m port 0). split; [|done]. split_and!; [done|done|lia|lia|]. simpl. by rewrite Ef, Ea.
Qed.

(** Every port of the pool is a candidate of a full round. *)
Lemma candidates_cover m p :
  ports_inv m → first m <= p <= last m →
  ∃ k, 0 <= k < Z.of_nat (poolSize m) ∧ candidateAt m 0 k = p.
Proof.
  intros Hi Hp. pose proof (po_next _ Hi). pose proof (po_range _ Hi). set (n := last m - first m + 1).
  exists ((p - next m) mod n). pose proof (Z.mod_pos_bound (p - next m) n ltac:(lia)).
  unfold poolSize, candidateAt. fold n. split; [lia|]. rewrite Z.eqb_refl, Zplus_mod_idemp_r.
  rewrite Z.mod_small; lia.
Qed.

(** The request a [reserve] call makes once its arguments are accepted. *)
Definition accepts (m : PortManager) (owner address host : string) (port : Z) : Prop :=
  closed m = false ∧ owner ≠ ""%string ∧ 0 <= port <= 65535 ∧
  (host = ""%string ∨ is_Some (ParseAddr host)) ∧
  ∃ raw, SplitHostPort address = Some (host, raw) ∧ Atoi (to_list raw) = Some port.

Lemma reserve_accepts m owner scope address host port :
  accepts m owner address host port →
  reserve m owner scope address =
    match reserveLoop (if port =? 0 then poolSize m else 1%nat) m owner scope host port with
    | (Some id, m) => (Ok id, m)
    | (None, m) => (Err PortsExhausted, m)
    end.
Proof.
  intros (Hc&Ho&Hp&Hh&raw&Hs&Ha). unfold reserve. rewrite Hc, Hs, Ha.
  assert (negb (bool_decide (host = ""%string)) && bool_decide (ParseAddr host = None) = false) as ->.
  { destruct Hh as [->|[x ->]]; [done|]. by rewrite (bool_decide_false (Some _ = None)), andb_false_r. }
  rewrite (bool_decide_false (owner = ""%string)) by done.
  destruct (Z.ltb_spec port 0), (Z.ltb_spec 65535 port); try lia. done.
Qed.

Lemma reserve_cases m owner scope address :
  (∃ host port, accepts m owner address host port) ∨
  (∃ e, reserve m owner scope address = (Err e, m) ∧ e ≠ PortsExhausted).
Proof.
  unfold reserve, accepts. destruct (closed m); [right; by eexists|].
  destruct (SplitHostPort address) as [[host raw]|]; [|right; by eexists].
  destruct (_ && _) eqn:Eh; [right; by eexists|].
  destruct (Atoi (to_list raw)) as [port|] eqn:Ea; [|right; by eexists].
  destruct (_ || _) eqn:Ep; [right; by eexists|]. reflect_bools. left. exists host, port.
  split_and!; [done|done|lia|lia| |by exists raw].
  destruct (decide (host = ""%string)); [by left|right].
  destruct Eh as [Eh|Eh]; reflect_bools; [done|]. destruct (ParseAddr host); [eauto|done].
Qed.

Lemma reserve_inv m owner scope address :
  ports_inv m → ports_inv (reserve m owner scope address).2 ∧ sameShape m (reserve m owner scope address).2.
Proof.
  intros Hi. destruct (reserve_cases m owner scope address) as [(host&port&Ha)|(e&->&_)]; [|by split].
  rewrite (reserve_accepts _ _ _ _ _ _ Ha). destruct (reserveLoop _ _ _ _ _ _) as [r m'] eqn:E.
  apply reserveLoop_spec in E as (H1&H2&_); [|done|by destruct Ha|by destruct Ha as (_&_&?&_)]. by destruct r.
Qed.

Lemma reserveLoop_fresh count m owner scope host port r m' :
  reserveLoop count m owner scope host port = (r, m') → freshAllocation m <= freshAllocation m'.
Proof.
  revert m. induction count as [|count IH]; intros m; cbn [reserveLoop]; [by intros [= _ <-]|].
  assert (freshAllocation (if port =? 0 then advance m else m) = freshAllocation m) as E by (by destruct (port =? 0)).
  destruct (portConflict _ _ _ _).
  - intros H%IH. lia.
  - intros [= _ <-]. simpl. lia.
Qed.

(** What [reserve] leaves behind. *)
Lemma reserve_frame m owner scope address r m' :
  ports_inv m → reserve m owner scope address = (r, m') →
  match r with
  | Ok id => ∃ host port raw, granted m m' id owner scope host port ∧ SplitHostPort address = Some (host, raw)
  | Err _ => allocations m' = allocations m
  end ∧ freshAllocation m <= freshAllocation m'.
Proof.
  intros Hi. destruct (reserve_cases m owner scope address) as [(host&port&Ha)|(e&->&_)]; [|by intros [= <- <-]].
  rewrite (reserve_accepts _ _ _ _ _ _ Ha). destruct (reserveLoop _ _ _ _ _ _) as [r' m1] eqn:E.
  pose proof (reserveLoop_fresh _ _ _ _ _ _ _ _ E).
  apply reserveLoop_spec in E as (_&_&H'); [|done|by destruct Ha|by destruct Ha as (_&_&?&_)].
  destruct Ha as (_&_&_&_&raw&Hs&_).
  destruct r' as [id|]; intros [= <- <-]; [|by destruct H']. destruct H' as (c&Hg&_). split; [by exists host, c, raw|done].
Qed.

Lemma granted_lookup m m' id owner scope host port :
  granted m m' id owner scope host port →
  allocations m' !! id = Some (mkAllocation owner scope (JoinHostPort host (of_list (Itoa port))) PortReserved host port false).
Proof. intros (_&_&_&->). apply lookup_insert_eq. Qed.

Lemma granted_drop m m' id owner scope host port :
  ports_inv m → granted m m' id owner scope host port → allocations (dropAllocation m' id) = allocations m.
Proof.
  intros Hi (->&_&_&E). simpl. rewrite E, delete_insert_eq, delete_id; [done|].
  destruct (allocations m !! freshAllocation m) eqn:Hf; [|done]. apply (po_fresh _ Hi) in Hf. lia.
Qed.

(** The outcome of a call that either adds one allocation or leaves none. *)
Definition one_or_none (m m' : PortManager) (r : result port_err Z) (good : PortAllocation → Prop) : Prop :=
  ports_inv m' ∧ sameShape m m' ∧ freshAllocation m <= freshAllocation m' ∧
  match r with
  | Ok id => freshAllocation m <= id ∧
      ∃ a, allocations m' = <[id := a]> (allocations m) ∧ good a
  | Err _ => allocations m' = allocations m
  end.

Lemma fresh_none m i : ports_inv m → freshAllocation m <= i → allocations m !! i = None.
Proof.
  intros Hi Hle. destruct (allocations m !! i) eqn:E; [|done]. apply (po_fresh _ Hi) in E. lia.
Qed.

Lemma one_or_none_drop m m1 id owner scope host port m' r good :
  ports_inv m → granted m m1 id owner scope host port → sameShape m m1 → freshAllocation m <= freshAllocation m1 →
  one_or_none (dropAllocation m1 id) m' r good → one_or_none m m' r good.
Proof.
  intros Hi Hg Hs Hf (H1&H2&H3&H4). pose proof (granted_drop _ _ _ _ _ _ _ Hi Hg) as E. split; [done|].
  destruct Hs as (?&?&?), H2 as (?&?&?). split; [split_and!; simpl in *; congruence|]. simpl in *.
  split; [lia|]. destruct r; [|congruence]. destruct H4 as [Hle Ha]. rewrite E in Ha. split; [lia|done].
Qed.

(** The host of an allocation is the host of the requested address. *)
Definition fromAddress (address : string) (a : PortAllocation) : Prop :=
  ∃ raw, SplitHostPort address = Some (allocHost a, raw).

Lemma ReserveLoop_spec attempts m owner scope address probe r m' :
  ports_inv m → ReserveLoop attempts m owner scope address probe = (r, m') →
  one_or_none m m' r (λ a, allocScope a = scope ∧ allocOwner a = owner ∧ allocListener a = false ∧
    fromAddress address a ∧ (scope = ""%string → ∃ i, probe i (allocAddress a) = Bound)).
Proof.
  revert m. induction attempts as [|n IH]; intros m Hi; cbn [ReserveLoop].
  { intros [= <- <-]. split_and!; done. }
  destruct (reserve m owner scope address) as [r1 m1] eqn:E.
  destruct (reserve_inv m owner scope address Hi) as [Hi1 Hs1]. rewrite E in Hi1, Hs1. cbn [snd] in Hi1, Hs1.
  pose proof (reserve_frame _ _ _ _ _ _ Hi E) as [Hf Hfr]. destruct r1 as [id|e].
  2:{ intros [= <- <-]. split_and!; done. }
  destruct Hf as (host&port&raw&Hg&Hsp). pose proof (granted_lookup _ _ _ _ _ _ _ Hg) as Hl.
  assert (∀ i, (scope = ""%string → probe i (addressOf m1 id) = Bound) → one_or_none m m1 (Ok id)
    (λ a, allocScope a = scope ∧ allocOwner a = owner ∧ allocListener a = false ∧
      fromAddress address a ∧ (scope = ""%string → ∃ i, probe i (allocAddress a) = Bound))) as Hok.
  { intros i Hb. split; [done|split; [done|split; [done|]]]. destruct Hg as (->&_&_&Ea). split; [lia|].
    eexists. split; [exact Ea|]. split_and!; try done; [by exists raw|]. intros Hsc. exists i. rewrite <-Hb by done. unfold addressOf. by rewrite Hl. }
  case_bool_decide as Hsc; cbn [negb].
  2:{ intros [= <- <-]. by apply (Hok 0%nat). }
  destruct (probe n (addressOf m1 id)) eqn:Ep.
  - intros [= <- <-]. by apply (Hok n).
  - intros H. eapply one_or_none_drop; [done|done|done|done|]. apply IH; [by apply drop_inv|done].
  - intros [= <- <-]. eapply one_or_none_drop; [done|done|done|done|]. split; [by apply drop_inv|done].
Qed.

Lemma ListenLoop_spec attempts m owner address dynamic bind r m' :
  ports_inv m → ListenLoop attempts m owner address dynamic bind = (r, m') →
  one_or_none m m' r (λ a, allocScope a = ""%string ∧ allocOwner a = owner ∧ allocListener a = true ∧
    allocState a = PortListening ∧ fromAddress address a ∧ ∃ i, bind i (allocAddress a) = Bound).
Proof.
  revert m. induction attempts as [|n IH]; intros m Hi; cbn [ListenLoop].
  { intros [= <- <-]. split_and!; done. }
  destruct (reserve m owner "" address) as [r1 m1] eqn:E.
  destruct (reserve_inv m owner "" address Hi) as [Hi1 Hs1]. rewrite E in Hi1, Hs1. cbn [snd] in Hi1, Hs1.
  pose proof (reserve_frame _ _ _ _ _ _ Hi E) as [Hf Hfr]. destruct r1 as [id|e].
  2:{ intros [= <- <-]. split_and!; done. }
  destruct Hf as (host&port&raw&Hg&Hsp). pose proof (granted_lookup _ _ _ _ _ _ _ Hg) as Hl.
  assert ((if dynamic then ListenLoop n (dropAllocation m1 id) owner address dynamic bind
           else (Err ListenFailed, dropAllocation m1 id)) = (r, m') →
    one_or_none m m' r (λ a, allocScope a = ""%string ∧ allocOwner a = owner ∧ allocListener a = true ∧
    allocState a = PortListening ∧ fromAddress address a ∧ ∃ i, bind i (allocAddress a) = Bound)) as Hretry.
  { intros H. eapply one_or_none_drop; [done|done|done|done|]. destruct dynamic; [apply IH; [by apply drop_inv|done]|].
    injection H as <- <-. split; [by apply drop_inv|done]. }
  destruct (bind n (addressOf m1 id)) eqn:Eb; try done. intros [= <- <-].
  split; [by apply alter_inv|split; [done|split; [done|]]]. destruct Hg as (->&_&_&Ea). split; [lia|].
  eexists. split; [simpl; rewrite Ea; apply alter_insert_eq|]. split_and!; try done; [by exists raw|].
  exists n. unfold addressOf in Eb. by rewrite Hl in Eb.
Qed.

(** ** Reachable allocators *)

Inductive ports_reach : PortManager → Prop :=
| pr_new lo hi m : NewPortManager lo hi = Ok m → ports_reach m
| pr_reserve m owner scope address probe :
    ports_reach m → ports_reach (Reserve m owner scope address probe).2
| pr_listen m owner address bind : ports_reach m → ports_reach (Listen m owner address bind).2
| pr_confirm m id : ports_reach m → ports_reach (Confirm m id).2
| pr_unconfirm m id : ports_reach m → ports_reach (Unconfirm m id)
| pr_release m id closes : ports_reach m → ports_reach (ReleasePort m id closes).2
| pr_close m : ports_reach m → ports_reach (ClosePorts m).

Lemma new_ports_inv lo hi m : NewPortManager lo hi = Ok m → ports_inv m.
Proof.
  unfold NewPortManager. destruct (_ || _) eqn:E; [done|]. intros [= <-]. reflect_bools. split; simpl; try done; lia.
Qed.

Lemma Reserve_spec m owner scope address probe r m' :
  ports_inv m → Reserve m owner scope address probe = (r, m') →
  one_or_none m m' r (λ a, allocScope a = scope ∧ allocOwner a = owner ∧ allocListener a = false ∧
    fromAddress address a ∧ (scope = ""%string → ∃ i, probe i (allocAddress a) = Bound)).
Proof. intros. by eapply ReserveLoop_spec. Qed.

Lemma Listen_spec m owner address bind r m' :
  ports_inv m → Listen m owner address bind = (r, m') →
  one_or_none m m' r (λ a, allocScope a = ""%string ∧ allocOwner a = owner ∧ allocListener a = true ∧
    allocState a = PortListening ∧ fromAddress address a ∧ ∃ i, bind i (allocAddress a) = Bound).
Proof.
  intros Hi. unfold Listen. destruct (SplitHostPort address) as [[h p]|]; [by apply ListenLoop_spec|].
  intros [= <- <-]. split_and!; done.
Qed.

Lemma insert_as_alter {A} (m : gmap Z A) i x (f : A → A) : m !! i = Some x → <[i := f x]> m = alter f i m.
Proof.
  intros H. apply map_eq. intros j. destruct (decide (i = j)) as [->|].
  - by rewrite lookup_insert_eq, lookup_alter_eq, H.
  - by rewrite lookup_insert_ne, lookup_alter_ne.
Qed.

Lemma Confirm_inv m id : ports_inv m → ports_inv (Confirm m id).2.
Proof.
  intros Hi. unfold Confirm. destruct (_ !! id) as [a|] eqn:E; [|done]. simpl.
  rewrite (insert_as_alter _ _ _ (λ a, setListening a (allocListener a)) E). by apply alter_inv.
Qed.

Lemma Unconfirm_inv m id : ports_inv m → ports_inv (Unconfirm m id).
Proof.
  intros Hi. unfold Unconfirm. destruct (_ !! id) as [a|] eqn:E; [|done]. destruct (allocListener a); [done|].
  rewrite (insert_as_alter _ _ _ setReserved E). by apply alter_inv.
Qed.

Lemma ReleasePort_inv m id closes : ports_inv m → ports_inv (ReleasePort m id closes).2.
Proof.
  intros Hi. unfold ReleasePort. destruct (_ !! id) as [a|]; [|done]. destruct (_ && _); [done|]. by apply drop_inv.
Qed.

Lemma ClosePorts_inv m : ports_inv m → ports_inv (ClosePorts m).
Proof. intros [H1 H2 H3 H4 H5 H6 H7]. split; simpl; done. Qed.

Lemma ports_reach_inv m : ports_reach m → ports_inv m.
Proof.
  induction 1; eauto using new_ports_inv, Confirm_inv, Unconfirm_inv, ReleasePort_inv, ClosePorts_inv.
  - destruct (Reserve m owner scope address probe) eqn:E. apply Reserve_spec in E; [|done]. apply E.
  - destruct (Listen m owner address bind) eqn:E. apply Listen_spec in E; [|done]. apply E.
Qed.

(** ** Which connections a listener gets

    Independently of the test above: a socket on no host or on the unspecified IPv6
    address accepts connections to every address (it is dual-stack), one on the
    unspecified IPv4 address to every IPv4 address, and any other only to its own. *)
Definition receives (host : string) (dest : Addr) : Prop :=
  if bool_decide (host = ""%string) then True
  else match Unmap <$> ParseAddr host with
  | Some (Addr6 0 _) => True
  | Some (Addr4 0) => Is4 dest = true
  | Some a => dest = a
  | None => False
  end.
(** The unspecified IPv6 address is written as [::]. *)
Definition plainHost (host : string) : Prop :=
  host = "::"%string ∨ ∀ z, Unmap <$> ParseAddr host ≠ Some (Addr6 0 z).

Lemma receives_overlap a b dest : plainHost a → plainHost b → receives a dest → receives b dest → overlappingHosts a b = true.
Proof.
  unfold receives, plainHost, overlappingHosts, zeroOr. intros Ha Hb.
  destruct (bool_decide (a = ""%string)) eqn:Ea; [done|]. destruct (bool_decide (b = ""%string)) eqn:Eb; [done|].
  destruct (bool_decide (a = "::"%string)) eqn:Ea6; [done|]. destruct (bool_decide (b = "::"%string)) eqn:Eb6; [done|]. reflect_bools.
  destruct Ha as [?|Ha]; [done|]. destruct Hb as [?|Hb]; [done|]. simpl.
  destruct (ParseAddr a) as [x|]; [|done]. destruct (ParseAddr b) as [y|]; [|done]. simpl in *.
  destruct (Unmap x) as [|n|n z], (Unmap y) as [|m|m z']; simpl;
    repeat match goal with H : ∀ z, Some (Addr6 ?n ?z') ≠ _ |- _ => assert (n ≠ 0) by (intros ->; by eapply H); clear H end;
    intros H1 H2; repeat match goal with n : Z |- _ => destruct n end; simplify_eq/=; try done; by rewrite bool_decide_true.
Qed.

(** C38: No two live allocations compete for a connection: in one network scope and on one
    port, at most one allocation's listener gets the connections to any given address, after
    any sequence of reservations, listens, confirmations, releases and closing, as long as
    the unspecified IPv6 address is written [::] (other spellings escape the
    allocator, which is recorded as a finding); every allocated port is a valid TCP port
    and a closed allocator holds nothing. *)
Theorem port_allocations_disjoint m :
  ports_reach m →
  (∀ i j a b dest, allocations m !! i = Some a → allocations m !! j = Some b →
     allocScope a = allocScope b → allocPort a = allocPort b →
     plainHost (allocHost a) → plainHost (allocHost b) →
     receives (allocHost a) dest → receives (allocHost b) dest → i = j) ∧
  (∀ i a, allocations m !! i = Some a → 1 <= allocPort a <= 65535 ∧
     allocAddress a = JoinHostPort (allocHost a) (of_list (Itoa (allocPort a)))) ∧
  (closed m = true → allocations m = ∅).
Proof.
  intros Hi%ports_reach_inv. split_and!.
  - intros i j a b dest Ha Hb Hs Hp Pa Pb Ra Rb. apply (po_disjoint _ Hi i j a b); [done..|]. split_and!; [done..|by eapply receives_overlap].
  - intros i a Ha. split; [by apply (po_port _ Hi i)|by apply (po_address _ Hi i)].
  - apply (po_closed _ Hi).
Qed.

Definition demo_ports : PortManager := mkPortManager 20000 20001 20000 false ∅ 0.
Definition demo_ports2 : PortManager :=
  (Reserve (Reserve demo_ports "a" "" "0.0.0.0:0" (λ _ _, Bound)).2 "b" "" "127.0.0.1:0" (λ _ _, Bound)).2.

Lemma demo_ports2_reach : ports_reach demo_ports2.
Proof. apply pr_reserve, pr_reserve, (pr_new 20000 20001). by vm_compute. Qed.
Lemma port_allocations_disjoint_witness :
  allocPort <$> allocations demo_ports2 = {[0 := 20000; 1 := 20001]} ∧
  ∀ i j a b, allocations demo_ports2 !! i = Some a → allocations demo_ports2 !! j = Some b →
     allocScope a = allocScope b → allocPort a = allocPort b → allocHost a = "0.0.0.0"%string → allocHost b = "127.0.0.1"%string → i = j.
Proof.
  split; [by vm_compute|]. intros i j a b Ha Hb Hs Hp E1 E2.
  apply (proj1 (port_allocations_disjoint demo_ports2 demo_ports2_reach) i j a b (Addr4 2130706433)); try done; rewrite ?E1, ?E2.
  - right. intros z. by vm_compute.
  - right. intros z. by vm_compute.
  - by vm_compute.
  - by vm_compute.
Defined.

(** The unspecified IPv6 address under another spelling escapes the test: its listener and
    that of the loopback address are given the same port, and both get the
    connections to the loopback address. *)
Lemma wildcard_spelling_escapes :
  let m := (Reserve (Reserve demo_ports "a" "" "[::0]:20000" (λ _ _, Bound)).2 "b" "" "127.0.0.1:20000" (λ _ _, Bound)).2 in
  ports_reach m ∧ ∃ a b, allocations m !! 0 = Some a ∧ allocations m !! 1 = Some b ∧
    allocScope a = allocScope b ∧ allocPort a = allocPort b ∧
    receives (allocHost a) (Addr4 2130706433) ∧ receives (allocHost b) (Addr4 2130706433).
Proof.
  intros m. split; [apply pr_reserve, pr_reserve, (pr_new 20000 20001); by vm_compute|].
  do 2 eexists. split_and!; [vm_compute; reflexivity|vm_compute; reflexivity|..]; by vm_compute.
Qed.

(** A reservation fails for lack of ports only when there is none.  For an
    accepted request the search ends with an allocation of a port that conflicts
    with no live allocation (from the configured range for port 0, the requested
    one otherwise), or it reports exhaustion, and then every port it could have
    given conflicts with a live allocation; the rest of the table is unchanged
    either way. *)
Lemma reserve_complete m owner scope address host port :
  ports_reach m → accepts m owner address host port →
  (∃ id c m', reserve m owner scope address = (Ok id, m') ∧
     portConflict m scope host c = false ∧
     (if port =? 0 then first m <= c <= last m else c = port) ∧
     allocations m' = <[id := mkAllocation owner scope (JoinHostPort host (of_list (Itoa c)))
                                PortReserved host c false]> (allocations m) ∧
     allocations m !! id = None) ∨
  (∃ m', reserve m owner scope address = (Err PortsExhausted, m') ∧ allocations m' = allocations m ∧
     ∀ c, (if port =? 0 then first m <= c <= last m else c = port) → portConflict m scope host c = true).
Proof.
  intros Hi%ports_reach_inv Ha. rewrite (reserve_accepts _ _ _ _ _ _ Ha).
  destruct (reserveLoop _ _ _ _ _ _) as [r m'] eqn:E.
  apply reserveLoop_spec in E as (_&_&H); [|done|by destruct Ha|by destruct Ha as (_&_&?&_)].
  destruct r as [id|].
  - destruct H as (c&(->&Hc&_&Hal)&Hr). left. exists (freshAllocation m), c, m'. split_and!; try done.
    by apply fresh_none.
  - destruct H as [Hal Hall]. right. exists m'. split_and!; [done|done|]. intros c Hc.
    destruct (Z.eqb_spec port 0) as [->|Hne].
    + destruct (candidates_cover m c Hi Hc) as (k&Hk&<-). by apply Hall.
    + subst c. specialize (Hall 0 ltac:(lia)). unfold candidateAt in Hall. by destruct (Z.eqb_spec port 0).
Qed.

(** Reserving and listening leave exactly one allocation or none.  A
    successful call adds one entry under a fresh handle: in the carrier's own
    scope its address was free when tried, and a listener returned by [Listen] is
    bound on the address of its allocation.  A failed call, whatever failed and
    after however many candidates, leaves the table as it was. *)
Lemma reservation_never_leaks m owner scope address probe :
  ports_reach m →
  (let '(r, m') := Reserve m owner scope address probe in
   match r with
   | Ok id => allocations m !! id = None ∧ ∃ a, allocations m' = <[id := a]> (allocations m) ∧
       allocScope a = scope ∧ (scope = ""%string → ∃ i, probe i (allocAddress a) = Bound)
   | Err _ => allocations m' = allocations m end) ∧
  (let '(r, m') := Listen m owner address probe in
   match r with
   | Ok id => allocations m !! id = None ∧ ∃ a, allocations m' = <[id := a]> (allocations m) ∧
       allocListener a = true ∧ allocState a = PortListening ∧ ∃ i, probe i (allocAddress a) = Bound
   | Err _ => allocations m' = allocations m end).
Proof.
  intros Hi%ports_reach_inv. split.
  - destruct (Reserve m owner scope address probe) as [r m'] eqn:E.
    apply Reserve_spec in E as (_&_&_&H); [|done]. destruct r as [id|]; [|done].
    destruct H as (H1&a&H2&H3&_&_&_&H4). split; [by apply fresh_none|eauto].
  - destruct (Listen m owner address probe) as [r m'] eqn:E.
    apply Listen_spec in E as (_&_&_&H); [|done]. destruct r as [id|]; [|done].
    destruct H as (H1&a&H2&_&_&H3&H4&_&H5). split; [by apply fresh_none|eauto 7].
Qed.

