(* ===== verification/PortMappings.v ===== *)
(** * PortMappings: the ports of a bed's pillows

    Models [internal/bed/network/port_mappings.go] with the part of
    [internal/host/network/forward.go] that owns a port.  Beds and mappings are
    pointers, hence identifiers; [beds] flattens the map of maps by bed and
    name.  The three critical sections of [Release] are separate steps, so
    concurrent callers interleave between them.  The port manager is present (a
    daemon without one never gets past [Available]). *)

From S2P Require Import Prelude Netip Bed PortAlloc.

Inductive MappingState := MapReserved | MapListening | MapStopping | MapReleased.
#[export] Instance MappingState_eq_dec : EqDecision MappingState.
Proof. solve_decision. Defined.

Inductive mapping_err := Undeclared | AlreadyAllocated | NotReserved | PortError (e : port_err) | CloseFailed.

Record PortMapping := mkMapping {
  mapBed : Z; mapBedID : string; mapSpec : PillowPort; mapPillow : string; mapExecution : string;
  mapAlloc : Z; mapForward : option Z; mapPrivate : bool; mapProbe : string;
  mapState : MappingState; BedPort : Z; HostPort : Z }.

Definition mapName (p : PortMapping) : string := PortName (mapSpec p).

(** [releasing] and [forgetting] hold the mappings whose [Release] has passed its
    first and its second critical section. *)
Record PortMappings := mkPortMappings {
  ports : PortManager; mappings : gmap Z PortMapping; beds : gmap (Z * string) Z;
  freshMapping : Z; releasing : gset Z; forgetting : gset Z }.

Definition withPorts (m : PortMappings) (p : PortManager) : PortMappings :=
  mkPortMappings p (mappings m) (beds m) (freshMapping m) (releasing m) (forgetting m).
Definition withMapping (m : PortMappings) (id : Z) (p : PortMapping) : PortMappings :=
  mkPortMappings (ports m) (<[id:=p]> (mappings m)) (beds m) (freshMapping m) (releasing m) (forgetting m).
Definition withTokens (m : PortMappings) (r f : gset Z) : PortMappings :=
  mkPortMappings (ports m) (mappings m) (beds m) (freshMapping m) r f.

Definition findPort (specs : list PillowPort) (name : string) : option PillowPort :=
  match filter (λ p, PortName p = name) specs with
  | p :: _ => if bool_decide (PortName p = ""%string) then None else Some p
  | [] => None
  end.

Definition portOf (m : PortManager) (id : Z) : Z :=
  match allocations m !! id with Some a => allocPort a | None => 0 end.

Definition listenHost (scope : string) (publish : bool) : string :=
  if bool_decide (scope = ""%string) && negb publish then "127.0.0.1"%string else "0.0.0.0"%string.

Definition reserveMapping (m : PortMappings) (b : Z) (bedID : string) (spec : Spec) (name pillow scope host : string)
    (probe : nat → string → listen_outcome) : result mapping_err Z * PortMappings :=
  match findPort (NetworkPorts spec) name with
  | None => (Err Undeclared, m)
  | Some sp =>
      if bool_decide (is_Some (beds m !! (b, name))) then (Err AlreadyAllocated, m)
      else
        let address := JoinHostPort (listenHost scope (PortPublish sp)) (of_list (Itoa (ContainerPort sp))) in
        match Reserve (ports m) (bedID +:+ "/port/" +:+ name) scope address probe with
        | (Err e, pm) => (Err (PortError e), withPorts m pm)
        | (Ok a, pm) =>
            let port := portOf pm a in
            let p := mkMapping b bedID sp pillow "" a None (negb (bool_decide (scope = ""%string)))
                       (JoinHostPort host (of_list (Itoa port))) MapReserved port 0 in
            (Ok (freshMapping m),
             mkPortMappings pm (<[freshMapping m := p]> (mappings m)) (<[(b, name) := freshMapping m]> (beds m))
               (freshMapping m + 1) (releasing m) (forgetting m))
        end
  end.

Definition setMapping (p : PortMapping) (forward : option Z) (st : MappingState) (hostPort : Z) : PortMapping :=
  mkMapping (mapBed p) (mapBedID p) (mapSpec p) (mapPillow p) (mapExecution p) (mapAlloc p) forward (mapPrivate p)
    (mapProbe p) st (BedPort p) hostPort.

Definition Bind (p : PortMapping) (execution : string) : PortMapping :=
  mkMapping (mapBed p) (mapBedID p) (mapSpec p) (mapPillow p) execution (mapAlloc p) (mapForward p) (mapPrivate p)
    (mapProbe p) (mapState p) (BedPort p) (HostPort p).

(** [Publish]; [bind] answers the bind attempts of the forwarder's listener. *)
Definition Publish (pm : PortManager) (p : PortMapping) (bind : nat → string → listen_outcome)
  : option mapping_err * PortManager * PortMapping :=
  if negb (bool_decide (mapState p = MapReserved)) then (Some NotReserved, pm, p)
  else match Confirm pm (mapAlloc p) with
  | (Err e, pm) => (Some (PortError e), pm, p)
  | (Ok _, pm) =>
      if PortPublish (mapSpec p) then
        let port := portOf pm (mapAlloc p) in
        if mapPrivate p then
          match Listen pm (mapBedID p +:+ "/port/" +:+ mapName p +:+ "/publish") "0.0.0.0:0" bind with
          | (Err e, pm) => (Some (PortError e), pm, p)
          | (Ok f, pm) => (None, pm, setMapping p (Some f) MapListening (portOf pm f))
          end
        else (None, pm, setMapping p (mapForward p) MapListening port)
      else (None, pm, setMapping p (mapForward p) MapListening (HostPort p))
  end.

(** [closes]: whether closing the forwarder's listener succeeds. *)
Definition Withdraw (pm : PortManager) (p : PortMapping) (closes : bool) : bool * PortManager * PortMapping :=
  if bool_decide (mapState p = MapReleased) then (true, pm, p)
  else match mapForward p with
  | None => (true, pm, setMapping p None MapStopping 0)
  | Some f => match ReleasePort pm f closes with
      | (true, pm) => (true, pm, setMapping p None MapStopping 0)
      | (false, pm) => (false, pm, setMapping p (Some f) MapStopping 0)
      end
  end.

(** The second critical section of [Release]. *)
Definition releaseAllocation (pm : PortManager) (p : PortMapping) (closes : bool) : bool * PortManager * PortMapping :=
  match ReleasePort pm (mapAlloc p) closes with
  | (true, pm) => (true, pm, setMapping p (mapForward p) MapReleased (HostPort p))
  | (false, pm) => (false, pm, p)
  end.

(** The third: unregister exactly this mapping. *)
Definition forgetMapping (m : PortMappings) (id : Z) (p : PortMapping) : PortMappings :=
  mkPortMappings (ports m) (mappings m)
    (if bool_decide (beds m !! (mapBed p, mapName p) = Some id) then delete (mapBed p, mapName p) (beds m) else beds m)
    (freshMapping m) (releasing m) (forgetting m).

Definition CheckReleased (m : PortMappings) (b : Z) : bool :=
  forallb (λ kv : (Z * string) * Z, negb (kv.1.1 =? b)) (map_to_list (beds m)).

(** ** Interleavings *)

Definition held (m : PortMappings) (a : Z) : Prop :=
  ∃ i p, mappings m !! i = Some p ∧ (mapAlloc p = a ∨ mapForward p = Some a).

Inductive map_step : PortMappings → PortMappings → Prop :=
| mp_reserve m b bedID spec name pillow scope host probe :
    map_step m (reserveMapping m b bedID spec name pillow scope host probe).2
| mp_bind m id p execution : mappings m !! id = Some p → map_step m (withMapping m id (Bind p execution))
| mp_publish m id p bind e pm p' : mappings m !! id = Some p → Publish (ports m) p bind = (e, pm, p') →
    map_step m (withMapping (withPorts m pm) id p')
| mp_withdraw m id p closes ok pm p' : mappings m !! id = Some p → Withdraw (ports m) p closes = (ok, pm, p') →
    map_step m (withMapping (withPorts m pm) id p')
| mp_release_withdraw m id p closes pm p' : mappings m !! id = Some p →
    Withdraw (ports m) p closes = (true, pm, p') →
    map_step m (withTokens (withMapping (withPorts m pm) id p') ({[id]} ∪ releasing m) (forgetting m))
| mp_release_allocation m id p closes ok pm p' : mappings m !! id = Some p → id ∈ releasing m →
    releaseAllocation (ports m) p closes = (ok, pm, p') →
    map_step m (withTokens (withMapping (withPorts m pm) id p') (releasing m)
      (if ok : bool then {[id]} ∪ forgetting m else forgetting m))
| mp_release_forget m id p : mappings m !! id = Some p → id ∈ forgetting m → map_step m (forgetMapping m id p)
| mp_other_reserve m owner scope address probe :
    map_step m (withPorts m (Reserve (ports m) owner scope address probe).2)
| mp_other_listen m owner address bind : map_step m (withPorts m (Listen (ports m) owner address bind).2)
| mp_other_release m a closes : ~ held m a → map_step m (withPorts m (ReleasePort (ports m) a closes).2).

Inductive map_reach : PortMappings → Prop :=
| mr_new lo hi pm : NewPortManager lo hi = Ok pm → map_reach (mkPortMappings pm ∅ ∅ 0 ∅ ∅)
| mr_step m m' : map_reach m → map_step m m' → map_reach m'.

(** ** What a step changes in the port manager *)

Definition view (a : PortAllocation) : string * string * Z * bool :=
  (allocScope a, allocHost a, allocPort a, allocListener a).
Definition viewAt (pm : PortManager) (a : Z) : option (string * string * Z * bool) := view <$> allocations pm !! a.

(** The allocations in [P] keep their identity. *)
Definition port_frame (pm pm' : PortManager) (P : Z → Prop) : Prop :=
  ports_inv pm' ∧ freshAllocation pm <= freshAllocation pm' ∧
  ∀ a, a < freshAllocation pm → P a → viewAt pm' a = viewAt pm a.

Lemma frame_refl pm P : ports_inv pm → port_frame pm pm P.
Proof. intros H. split_and!; (done || lia). Qed.

Lemma one_or_none_frame pm pm' r good : ports_inv pm → one_or_none pm pm' r good → port_frame pm pm' (λ _, True).
Proof.
  intros Hi (H1&_&H2&H3). split_and!; [done|done|]. intros a Ha _. unfold viewAt. destruct r as [id|].
  - destruct H3 as (Hid&x&->&_). by rewrite lookup_insert_ne by lia.
  - by rewrite H3.
Qed.

Lemma Reserve_frame pm owner scope address probe :
  ports_inv pm → port_frame pm (Reserve pm owner scope address probe).2 (λ _, True).
Proof.
  intros Hi. destruct (Reserve _ _ _ _ _) eqn:E. apply Reserve_spec in E; [|done]. by eapply one_or_none_frame.
Qed.

Lemma Listen_frame pm owner address bind :
  ports_inv pm → port_frame pm (Listen pm owner address bind).2 (λ _, True).
Proof.
  intros Hi. destruct (Listen _ _ _ _) eqn:E. apply Listen_spec in E; [|done]. by eapply one_or_none_frame.
Qed.

Lemma Confirm_frame pm id : ports_inv pm → port_frame pm (Confirm pm id).2 (λ _, True).
Proof.
  intros Hi. split; [by apply Confirm_inv|]. unfold Confirm. destruct (_ !! id) as [x|] eqn:E; simpl; [|done].
  split; [lia|]. intros a _ _. unfold viewAt. simpl. destruct (decide (id = a)) as [->|].
  - rewrite lookup_insert_eq, E. done.
  - by rewrite lookup_insert_ne.
Qed.

Lemma ReleasePort_frame pm id closes : ports_inv pm → port_frame pm (ReleasePort pm id closes).2 (λ a, a ≠ id).
Proof.
  intros Hi. split; [by apply ReleasePort_inv|]. unfold ReleasePort. destruct (_ !! id) as [x|] eqn:E; simpl; [|done].
  destruct (_ && _); simpl; [done|]. split; [lia|]. intros a _ Ha. unfold viewAt. simpl. by rewrite lookup_delete_ne.
Qed.

Lemma ReleasePort_gone pm id closes pm' : ReleasePort pm id closes = (true, pm') → allocations pm' !! id = None.
Proof.
  unfold ReleasePort. destruct (_ !! id) as [x|] eqn:E; [|by intros [= <-]].
  destruct (_ && _); [done|]. intros [= <-]. simpl. apply lookup_delete_eq.
Qed.

(** ** The invariant of one mapping *)

Definition resources (p : PortMapping) : list Z := mapAlloc p :: option_list (mapForward p).

(** The listening socket of a mapping, seen from the port manager. *)
Definition endpoint_ok (pm : PortManager) (p : PortMapping) : Prop :=
  ∃ scope, viewAt pm (mapAlloc p) = Some (scope, listenHost scope (PortPublish (mapSpec p)), BedPort p, false) ∧
    mapPrivate p = negb (bool_decide (scope = ""%string)).
Definition forward_ok (pm : PortManager) (f port : Z) : Prop :=
  viewAt pm f = Some (""%string, "0.0.0.0"%string, port, true).

Record mapping_ok (pm : PortManager) (p : PortMapping) : Prop := {
  mo_old : ∀ a, a ∈ resources p → a < freshAllocation pm;
  mo_nodup : mapForward p ≠ Some (mapAlloc p);
  mo_port : 1 <= BedPort p;
  mo_live : mapState p ≠ MapReleased → endpoint_ok pm p;
  mo_gone : mapState p = MapReleased → viewAt pm (mapAlloc p) = None ∧ mapForward p = None;
  mo_forward : ∀ f, mapForward p = Some f → mapPrivate p = true ∧ ∃ port, forward_ok pm f port;
  mo_reserved : mapState p = MapReserved → mapForward p = None ∧ HostPort p = 0;
  mo_host : HostPort p ≠ 0 → mapState p = MapListening ∧ PortPublish (mapSpec p) = true ∧
    match mapForward p with
    | Some f => forward_ok pm f (HostPort p)
    | None => mapPrivate p = false ∧ HostPort p = BedPort p
    end;
}.

Lemma mapping_ok_frame pm pm' P p :
  port_frame pm pm' P → (∀ a, a ∈ resources p → P a) → mapping_ok pm p → mapping_ok pm' p.
Proof.
  intros (_&Hf&Hv) Hr [H1 H2 H2' H3 H4 H5 H6 H7].
  assert (∀ a, a ∈ resources p → viewAt pm' a = viewAt pm a) as Hv' by (intros a Ha; apply Hv; auto).
  assert (viewAt pm' (mapAlloc p) = viewAt pm (mapAlloc p)) as Ea by (apply Hv'; left).
  assert (∀ f, mapForward p = Some f → viewAt pm' f = viewAt pm f) as Ef.
  { intros f Hff. apply Hv'. unfold resources. rewrite Hff. right. left. }
  split; try done.
  - intros a Ha. specialize (H1 a Ha). lia.
  - intros Hs. unfold endpoint_ok. rewrite Ea. by apply H3.
  - rewrite Ea. done.
  - intros f Hff. unfold forward_ok. rewrite (Ef f Hff). by apply H5.
  - intros Hh. destruct (H7 Hh) as (A&B&C). split_and!; [done|done|].
    destruct (mapForward p) as [f|]; [|done]. unfold forward_ok. by rewrite (Ef f eq_refl).
Qed.

Record mappings_inv (m : PortMappings) : Prop := {
  mi_ports : ports_inv (ports m);
  mi_fresh : ∀ i p, mappings m !! i = Some p → i < freshMapping m;
  mi_ok : ∀ i p, mappings m !! i = Some p → mapping_ok (ports m) p;
  mi_apart : ∀ i j p q a, mappings m !! i = Some p → mappings m !! j = Some q →
    a ∈ resources p → a ∈ resources q → i = j;
  mi_registered : ∀ i p, mappings m !! i = Some p → mapState p ≠ MapReleased →
    beds m !! (mapBed p, mapName p) = Some i;
  mi_releasing : ∀ i p, mappings m !! i = Some p → i ∈ releasing m →
    mapState p ≠ MapReserved ∧ mapState p ≠ MapListening ∧ mapForward p = None;
  mi_forgetting : ∀ i p, mappings m !! i = Some p → i ∈ forgetting m → mapState p = MapReleased;
  mi_tokens : ∀ i, i ∈ releasing m ∨ i ∈ forgetting m → i < freshMapping m;
  mi_names : ∀ b n i, beds m !! (b, n) = Some i → ∃ p, mappings m !! i = Some p ∧ mapBed p = b ∧ mapName p = n;
}.

(** Replacing one mapping and the port manager around it: the other mappings
    keep their resources, and the new resources of this one are its old ones or
    fresh. *)
Lemma update_mapping m id p p' pm rel forg :
  mappings_inv m → mappings m !! id = Some p → mapping_ok pm p' →
  port_frame (ports m) pm (λ a, a ∉ resources p) →
  (∀ a, a ∈ resources p' → a ∈ resources p ∨ freshAllocation (ports m) <= a) →
  mapBed p' = mapBed p → mapName p' = mapName p → (mapState p = MapReleased → mapState p' = MapReleased) →
  (∀ i, i ∈ rel → i ∈ releasing m ∨ i = id) →
  (∀ i, i ∈ forg → i ∈ forgetting m ∨ i = id) →
  (id ∈ rel → mapState p' ≠ MapReserved ∧ mapState p' ≠ MapListening ∧ mapForward p' = None) →
  (id ∈ forg → mapState p' = MapReleased) →
  mappings_inv (withTokens (withMapping (withPorts m pm) id p') rel forg).
Proof.
  intros [H1 H2 H3 H4 H5 H6 H7 H9 H8] Hid Hok Hframe Hres Hb Hn Hst Hrel Hforg Hr Hf.
  assert (∀ j q a, mappings m !! j = Some q → j ≠ id → a ∈ resources q → a ∉ resources p') as Hapart.
  { intros j q a Hq Hj Ha Ha'. destruct (Hres a Ha') as [Hp|Hp].
    - apply Hj. by eapply (H4 j id q p a).
    - apply (mo_old _ _ (H3 j q Hq)) in Ha. lia. }
  split; cbn [ports mappings beds freshMapping releasing forgetting withTokens withMapping withPorts].
  - apply Hframe.
  - intros i q [[<- _]|[_ Hq]]%lookup_insert_Some; eauto.
  - intros i q [[<- <-]|[Hne Hq]]%lookup_insert_Some; [done|].
    eapply mapping_ok_frame; [exact Hframe| |eauto]. intros a Ha Hp. apply Hne. by eapply (H4 id i p q a).
  - intros i j q1 q2 a [[<- <-]|[Hi Hq1]]%lookup_insert_Some [[<- <-]|[Hj Hq2]]%lookup_insert_Some Ha1 Ha2; [done|..].
    + exfalso. by apply (Hapart j q2 a).
    + exfalso. by apply (Hapart i q1 a).
    + by eapply (H4 i j q1 q2 a).
  - intros i q [[<- <-]|[_ Hq]]%lookup_insert_Some; [|by eauto]. intros Hs. rewrite Hb, Hn. apply H5; [done|auto].
  - intros i q [[<- <-]|[Hne Hq]]%lookup_insert_Some Hi; [auto|]. apply Hrel in Hi as [Hi|Hi]; [eauto|done].
  - intros i q [[<- <-]|[Hne Hq]]%lookup_insert_Some Hi; [auto|]. apply Hforg in Hi as [Hi|Hi]; [eauto|done].
  - intros i [Hi|Hi]; [apply Hrel in Hi as [Hi| ->]|apply Hforg in Hi as [Hi| ->]]; eauto.
  - intros b n i Hi. destruct (H8 b n i Hi) as (q&Hq&Eb&En). destruct (decide (i = id)) as [->|].
    + exists p'. rewrite lookup_insert_eq. simplify_eq. split_and!; congruence.
    + exists q. by rewrite lookup_insert_ne.
Qed.

(** ** The operations on one mapping *)

Lemma frame_trans pm1 pm2 pm3 P Q :
  port_frame pm1 pm2 P → port_frame pm2 pm3 Q → port_frame pm1 pm3 (λ a, P a ∧ Q a).
Proof.
  intros (_&Hf1&Hv1) (Hi&Hf2&Hv2). split_and!; [done|lia|]. intros a Ha [Hp Hq].
  rewrite Hv2 by (done || lia). by apply Hv1.
Qed.

Lemma frame_weaken pm pm' (P Q : Z → Prop) : (∀ a, Q a → P a) → port_frame pm pm' P → port_frame pm pm' Q.
Proof. intros H (H1&H2&H3). split_and!; auto. Qed.

Lemma portOf_view pm a scope host port l : viewAt pm a = Some (scope, host, port, l) → portOf pm a = port.
Proof. unfold viewAt, portOf. destruct (_ !! a); [|done]. by intros [= _ _ <- _]. Qed.

(** What every operation on a mapping guarantees, for [update_mapping]. *)
Record effect (pm : PortManager) (p : PortMapping) (pm' : PortManager) (p' : PortMapping) : Prop := {
  ef_ok : mapping_ok pm' p';
  ef_frame : port_frame pm pm' (λ a, a ∉ resources p);
  ef_res : ∀ a, a ∈ resources p' → a ∈ resources p ∨ freshAllocation pm <= a;
  ef_bed : mapBed p' = mapBed p;
  ef_name : mapName p' = mapName p;
  ef_released : mapState p = MapReleased → mapState p' = MapReleased;
}.

Lemma effect_refl pm p : ports_inv pm → mapping_ok pm p → effect pm p pm p.
Proof. intros Hi Hok. split; auto. by apply frame_refl. Qed.

(** An operation that keeps the mapping and every allocation. *)
Lemma effect_same pm p pm' : mapping_ok pm p → port_frame pm pm' (λ _, True) → effect pm p pm' p.
Proof.
  intros Hok Hf. split; auto; [by eapply mapping_ok_frame|]. by eapply frame_weaken; [|exact Hf].
Qed.

(** Moving to [MapListening] with the published port in place. *)
Lemma listening_ok pm p forward host :
  mapping_ok pm p → mapState p = MapReserved → PortPublish (mapSpec p) = true →
  match forward with
  | Some f => mapPrivate p = true ∧ f < freshAllocation pm ∧ f ≠ mapAlloc p ∧ forward_ok pm f host
  | None => mapPrivate p = false ∧ host = BedPort p
  end →
  mapping_ok pm (setMapping p forward MapListening host).
Proof.
  intros [H1 H2 H2' H3 H4 H5 H6 H7] Hs Hp Hf. split; simpl; try done.
  - unfold resources. simpl. intros a [->|Ha]%elem_of_cons; [apply H1; left|].
    destruct forward as [f|]; simpl in Ha; [|by apply elem_of_nil in Ha].
    apply list_elem_of_singleton in Ha as ->. by destruct Hf as (_&?&_).
  - destruct forward; [|done]. destruct Hf as (_&_&?&_). congruence.
  - intros _. apply H3. congruence.
  - intros f ->. destruct Hf as (?&_&_&?). eauto.
  - intros _. split_and!; [done|done|]. destruct forward; [by destruct Hf as (_&_&_&?)|done].
Qed.

Lemma Publish_effect pm p bind e pm' p' :
  ports_inv pm → mapping_ok pm p → Publish pm p bind = (e, pm', p') →
  effect pm p pm' p' ∧ (p' = p ∨ mapState p = MapReserved).
Proof.
  intros Hi Hok. unfold Publish. case_bool_decide as Hs; cbn [negb].
  2:{ intros [= <- <- <-]. auto using effect_refl. }
  pose proof (Confirm_frame pm (mapAlloc p) Hi) as Hcf. destruct (Confirm pm (mapAlloc p)) as [rc pm1] eqn:Ec.
  cbn [snd] in Hcf. pose proof (effect_same _ _ _ Hok Hcf) as Hsame.
  destruct rc as [u|err]; [|intros [= <- <- <-]; auto].
  pose proof (ef_ok _ _ _ _ Hsame) as Hok1. destruct (mo_reserved _ _ Hok1 Hs) as [Hnf Hh0].
  assert (∀ pm2 forward host, port_frame pm1 pm2 (λ _, True) → mapping_ok pm2 (setMapping p forward MapListening host) →
    (∀ f, forward = Some f → freshAllocation pm1 <= f) →
    effect pm p pm2 (setMapping p forward MapListening host)) as Hmk.
  { intros pm2 forward host Hfr Hok2 Hff. destruct Hcf as (Ha&Hb&Hc). split; try done.
    - eapply frame_weaken; [|eapply frame_trans; [split_and!; [exact Ha|exact Hb|exact Hc]|exact Hfr]]. done.
    - unfold resources. simpl. intros a [->|Hin]%elem_of_cons; [left; left|right].
      destruct forward as [f|]; [|by apply elem_of_nil in Hin]. apply list_elem_of_singleton in Hin as ->.
      specialize (Hff f eq_refl). lia.
    - simpl. congruence. }
  destruct (PortPublish (mapSpec p)) eqn:Ep.
  - destruct (mapPrivate p) eqn:Epr.
    + destruct (Listen pm1 _ _ bind) as [rl pm2] eqn:El. pose proof (proj1 Hcf) as Hi1.
      apply Listen_spec in El; [|done]. pose proof (one_or_none_frame _ _ _ _ Hi1 El) as Hfr.
      destruct rl as [f|err]; intros [= <- <- <-].
      * split; [|by right]. destruct El as (Hi2&_&Hle&Hfid&x&Ha&Hsc&_&Hl&_&(raw&Hraw)&_).
        assert (viewAt pm2 f = Some (""%string, "0.0.0.0"%string, portOf pm2 f, true)) as Hv.
        { unfold viewAt, portOf. rewrite Ha, lookup_insert_eq. simpl. unfold view.
          change (SplitHostPort "0.0.0.0:0") with (Some ("0.0.0.0"%string, "0"%string)) in Hraw.
          injection Hraw as <- _. by rewrite Hsc, Hl. }
        apply Hmk; [done| |by intros ? [= <-]]. apply listening_ok; [|done|done|].
        -- eapply mapping_ok_frame; [exact Hfr|done|done].
        -- split_and!; [done| | |done].
           ++ apply (po_fresh _ Hi2 f x). rewrite Ha. apply lookup_insert_eq.
           ++ intros ->. pose proof (mo_old _ _ Hok1 (mapAlloc p) ltac:(left)). lia.
      * split; [|by left]. apply effect_same; [done|]. destruct Hfr as (A&B&C), Hcf as (A'&B'&C').
        split_and!; [done|lia|]. intros a Ha _. rewrite C, C' by (done || lia). done.
    + intros [= <- <- <-]. split; [|by right]. rewrite Hnf. apply Hmk; [by apply frame_refl; apply Hcf| |done].
      apply listening_ok; [done|done|done|]. split; [done|].
      destruct (mo_live _ _ Hok1) as (scope&Hv&_); [congruence|]. by eapply portOf_view.
  - intros [= <- <- <-]. split; [|by right]. rewrite Hnf, Hh0. apply Hmk; [by apply frame_refl; apply Hcf| |done].
    destruct Hok1 as [H1 H2 H2' H3 H4 H5 H6 H7]. split; simpl; try done; [|intros _; apply H3; congruence].
    intros a Ha. apply H1. unfold resources in *. rewrite Hnf. exact Ha.
Qed.

Lemma stopping_ok pm p pm' forward :
  mapping_ok pm p → mapState p ≠ MapReleased → port_frame pm pm' (λ a, Some a ≠ mapForward p) →
  (forward = None ∨ forward = mapForward p ∧ pm' = pm) →
  mapping_ok pm' (setMapping p forward MapStopping 0).
Proof.
  intros [H1 H2 H2' H3 H4 H5 H6 H7] Hs (Hi&Hle&Hv) Hf.
  assert (viewAt pm' (mapAlloc p) = viewAt pm (mapAlloc p)) as Ea by (apply Hv; [apply H1; left|congruence]).
  split; simpl; try done.
  - unfold resources. simpl. intros a Ha. assert (a ∈ resources p) as Hr; [|specialize (H1 a Hr); lia].
    unfold resources. apply elem_of_cons in Ha as [->|Ha]; [left|right].
    destruct Hf as [->|[-> _]]; [by apply elem_of_nil in Ha|done].
  - destruct Hf as [->|[-> _]]; done.
  - intros _. unfold endpoint_ok. simpl. rewrite Ea. by apply H3.
  - intros f ->. destruct Hf as [?|[Hf ->]]; [done|]. by apply H5.
Qed.

Lemma resources_stop p forward host st :
  forward = None ∨ forward = mapForward p →
  ∀ a, a ∈ resources (setMapping p forward st host) → a ∈ resources p ∨ False.
Proof.
  unfold resources. simpl. intros Hf a [->|Ha]%elem_of_cons; left; [left|right].
  destruct Hf as [->| ->]; [by apply elem_of_nil in Ha|done].
Qed.

Lemma Withdraw_effect pm p closes ok pm' p' :
  ports_inv pm → mapping_ok pm p → Withdraw pm p closes = (ok, pm', p') →
  effect pm p pm' p' ∧ (ok = true → mapState p' ≠ MapReserved ∧ mapState p' ≠ MapListening ∧ mapForward p' = None) ∧
  mapState p' ≠ MapReserved ∧ mapState p' ≠ MapListening ∧ (mapForward p = None → mapForward p' = None).
Proof.
  intros Hi Hok. unfold Withdraw. case_bool_decide as Hs.
  { intros [= <- <- <-]. destruct (mo_gone _ _ Hok Hs) as [_ Hf]. split; [by apply effect_refl|].
    split; [intros _; split_and!; congruence|split_and!; congruence]. }
  assert (∀ pm' forward, port_frame pm pm' (λ a, Some a ≠ mapForward p) →
    (forward = None ∨ forward = mapForward p ∧ pm' = pm) →
    effect pm p pm' (setMapping p forward MapStopping 0)) as Hmk.
  { intros pm2 forward Hfr Hf. split; try done.
    - by eapply stopping_ok.
    - eapply frame_weaken; [|exact Hfr]. intros a Ha E. apply Ha. unfold resources. rewrite <-E. right. left.
    - intros a Ha. left. destruct (resources_stop p forward 0 MapStopping) with a; [naive_solver|done|done|done]. }
  destruct (mapForward p) as [f|] eqn:Ef.
  - pose proof (ReleasePort_frame pm f closes Hi) as Hfr. destruct (ReleasePort pm f closes) as [okr pm1] eqn:Er.
    cbn [snd] in Hfr. destruct okr; intros [= <- <- <-].
    + split; [|by split_and!]. apply Hmk; [|by left]. eapply frame_weaken; [|exact Hfr]. congruence.
    + split; [|by split_and!]. unfold ReleasePort in Er. destruct (_ !! f); [|done].
      destruct (_ && _); [|done]. injection Er as <-. apply Hmk; [by apply frame_refl|by right].
  - intros [= <- <- <-]. split; [|by split_and!]. apply Hmk; [by apply frame_refl|by left].
Qed.

Lemma release_effect pm p closes ok pm' p' :
  ports_inv pm → mapping_ok pm p → mapState p ≠ MapReserved → mapState p ≠ MapListening → mapForward p = None →
  releaseAllocation pm p closes = (ok, pm', p') →
  effect pm p pm' p' ∧ mapState p' ≠ MapReserved ∧ mapState p' ≠ MapListening ∧ mapForward p' = None ∧
  (ok = true → mapState p' = MapReleased).
Proof.
  intros Hi Hok Hr Hl Hf. unfold releaseAllocation. pose proof (ReleasePort_frame pm (mapAlloc p) closes Hi) as Hfr.
  destruct (ReleasePort pm (mapAlloc p) closes) as [okr pm1] eqn:Er. cbn [snd] in Hfr.
  assert (HostPort p = 0) as Hh.
  { destruct (decide (HostPort p = 0)) as [|Hne]; [done|]. by destruct (mo_host _ _ Hok Hne). }
  destruct okr; intros [= <- <- <-].
  - split; [|by split_and!]. apply ReleasePort_gone in Er. destruct Hok as [H1 H2 H2' H3 H4 H5 H6 H7].
    destruct Hfr as (A&B&C). split; try done.
    + split; simpl; try done.
      * intros a Ha. specialize (H1 a Ha). lia.
      * intros _. split; [|done]. unfold viewAt. by rewrite Er.
      * intros f E. congruence.
    + split_and!; [done|done|]. intros a Ha Hn. apply C; [done|]. intros ->. apply Hn. left.
    + intros a Ha. by left.
  - split_and!; try done. unfold ReleasePort in Er. destruct (_ !! mapAlloc p); [|done].
    destruct (_ && _); [|done]. injection Er as <-. by apply effect_refl.
Qed.

Lemma bind_effect pm p execution : ports_inv pm → mapping_ok pm p → effect pm p pm (Bind p execution).
Proof.
  intros Hi Hok. split; try done; [|by auto].
  destruct Hok as [H1 H2 H2' H3 H4 H5 H6 H7]. by split.
Qed.

(** Steps of other owners of ports. *)
Lemma frame_ports m pm (P : Z → Prop) :
  mappings_inv m → port_frame (ports m) pm P →
  (∀ i p a, mappings m !! i = Some p → a ∈ resources p → P a) → mappings_inv (withPorts m pm).
Proof.
  intros [H1 H2 H3 H4 H5 H6 H7 H9 H8] Hfr HP. split; simpl; try done; [apply Hfr|].
  intros i p Hp. eapply mapping_ok_frame; [exact Hfr|eauto|eauto].
Qed.

Lemma listenHost_clean scope publish :
  listenHost scope publish ≠ ""%string ∧
  ∀ c, c ∈ to_list (listenHost scope publish) → c ≠ colon ∧ c ≠ "["%char ∧ c ≠ "]"%char.
Proof.
  unfold listenHost. destruct (_ && _); (split; [done|]); intros c Hc;
    repeat (apply elem_of_cons in Hc as [->|Hc]; [done|]); by apply elem_of_nil in Hc.
Qed.

Lemma findPort_name specs name sp : findPort specs name = Some sp → PortName sp = name.
Proof.
  unfold findPort. destruct (filter _ specs) as [|x l] eqn:E; [done|]. case_bool_decide; [done|]. intros [= <-].
  assert (x ∈ filter (λ p, PortName p = name) specs) as [Hx _]%list_elem_of_filter by (rewrite E; left). done.
Qed.

Lemma reserve_mappings_inv m b bedID spec name pillow scope host probe :
  mappings_inv m → mappings_inv (reserveMapping m b bedID spec name pillow scope host probe).2.
Proof.
  intros Hm. unfold reserveMapping. destruct (findPort _ name) as [sp|] eqn:Hsp; [|done].
  case_bool_decide as Hb; [done|]. pose proof (mi_ports _ Hm) as Hi.
  destruct (Reserve _ _ _ _ _) as [r pm] eqn:E. apply Reserve_spec in E; [|done].
  pose proof (one_or_none_frame _ _ _ _ Hi E) as Hfr. destruct r as [a|e].
  2:{ eapply frame_ports; [done|exact Hfr|done]. }
  destruct E as (Hi2&_&Hle&Hfa&x&Ha&Hscope&_&Hl&(raw&Hraw)&_). apply findPort_name in Hsp as Hname.
  destruct (listenHost_clean scope (PortPublish sp)) as [Hne Hcl]. rewrite split_join_host_port in Hraw by done.
  injection Hraw as Hhost _.
  assert (a < freshAllocation pm) as Ha2 by (apply (po_fresh _ Hi2 a x); rewrite Ha; apply lookup_insert_eq).
  assert (1 <= portOf pm a) as Hport.
  { unfold portOf. rewrite Ha, lookup_insert_eq. apply (po_port _ Hi2 a x). rewrite Ha. apply lookup_insert_eq. }
  set (p := mkMapping _ _ _ _ _ _ _ _ _ _ _ _).
  assert (mapping_ok pm p) as Hok.
  { split; simpl; try done.
    - intros a' [->|Hn]%elem_of_cons; [done|by apply elem_of_nil in Hn].
    - intros _. exists scope. split; [|done]. simpl. unfold viewAt, portOf. rewrite Ha, lookup_insert_eq. simpl.
      unfold view. by rewrite Hscope, Hl, <-Hhost. }
  destruct Hm as [H1 H2 H3 H4 H5 H6 H7 H9 H8].
  assert (∀ i q a', mappings m !! i = Some q → a' ∈ resources q → a' ∉ resources p) as Hap.
  { intros i q a' Hq Hin [->|Hn]%elem_of_cons; [|by apply elem_of_nil in Hn].
    apply (mo_old _ _ (H3 i q Hq)) in Hin. simpl in Hin. lia. }
  split; cbn [ports mappings beds freshMapping releasing forgetting snd]; [done|..].
  - intros i q [[<- _]|[_ Hq]]%lookup_insert_Some; [lia|]. apply H2 in Hq. lia.
  - intros i q [[<- <-]|[_ Hq]]%lookup_insert_Some; [done|]. by eapply mapping_ok_frame; [exact Hfr|done|eauto].
  - intros i j q1 q2 a' [[<- <-]|[_ Hq1]]%lookup_insert_Some [[<- <-]|[_ Hq2]]%lookup_insert_Some Ha1 Ha2'; [done|..].
    + exfalso. by eapply Hap.
    + exfalso. by eapply Hap.
    + by eapply H4.
  - intros i q [[<- <-]|[Hi' Hq]]%lookup_insert_Some Hs; [unfold mapName; simpl; rewrite Hname; apply lookup_insert_eq|].
    rewrite lookup_insert_ne; [by apply H5|]. intros E. apply Hb. rewrite E. rewrite (H5 i q Hq Hs). eauto.
  - intros i q [[<- <-]|[_ Hq]]%lookup_insert_Some Hin; [|by eauto]. specialize (H9 _ (or_introl Hin)). lia.
  - intros i q [[<- <-]|[_ Hq]]%lookup_insert_Some Hin; [|by eauto]. specialize (H9 _ (or_intror Hin)). lia.
  - intros i Hin. apply H9 in Hin. lia.
  - intros b' n i [[[= <- <-] <-]|[_ Hi']]%lookup_insert_Some.
    + exists p. by rewrite lookup_insert_eq.
    + destruct (H8 b' n i Hi') as (q&Hq&?&?). exists q. rewrite lookup_insert_ne; [done|].
      apply H2 in Hq. lia.
Qed.

Lemma effect_step m id p pm p' rel forg :
  mappings_inv m → mappings m !! id = Some p → effect (ports m) p pm p' →
  (∀ i, i ∈ rel → i ∈ releasing m ∨ i = id) →
  (∀ i, i ∈ forg → i ∈ forgetting m ∨ i = id) →
  (id ∈ rel → mapState p' ≠ MapReserved ∧ mapState p' ≠ MapListening ∧ mapForward p' = None) →
  (id ∈ forg → mapState p' = MapReleased) →
  mappings_inv (withTokens (withMapping (withPorts m pm) id p') rel forg).
Proof. intros Hm Hp [H1 H2 H3 H4 H5 H6] ????. by eapply update_mapping. Qed.

(** The tokens of a mapping that a step leaves where it was. *)
Lemma same_tokens m id p p' :
  mappings_inv m → mappings m !! id = Some p →
  (mapState p ≠ MapReserved → mapState p ≠ MapListening → mapForward p = None →
    mapState p' ≠ MapReserved ∧ mapState p' ≠ MapListening ∧ mapForward p' = None) →
  (mapState p = MapReleased → mapState p' = MapReleased) →
  (id ∈ releasing m → mapState p' ≠ MapReserved ∧ mapState p' ≠ MapListening ∧ mapForward p' = None) ∧
  (id ∈ forgetting m → mapState p' = MapReleased).
Proof.
  intros Hm Hp H1 H2. split.
  - intros Hin. destruct (mi_releasing _ Hm id p Hp Hin) as (?&?&?). auto.
  - intros Hin. apply H2. by eapply mi_forgetting.
Qed.

Lemma map_step_inv m m' : mappings_inv m → map_step m m' → mappings_inv m'.
Proof.
  intros Hm Hs. pose proof (mi_ports _ Hm) as Hi.
  destruct Hs as [m b bedID spec name pillow scope host probe|m id p ex Hp|m id p bind e pm p' Hp Hpub
    |m id p closes ok pm p' Hp Hw|m id p closes pm p' Hp Hw|m id p closes ok pm p' Hp Hin Hr
    |m id p Hp Hin|m owner scope address probe|m owner address bind|m a closes Hh].
  - by apply reserve_mappings_inv.
  - destruct (same_tokens m id p (Bind p ex) Hm Hp) as [T1 T2]; [done|done|].
    apply (effect_step m id p (ports m) (Bind p ex) (releasing m) (forgetting m)); auto.
    apply bind_effect; [done|by eapply mi_ok].
  - apply Publish_effect in Hpub as [He Hc]; [|done|by eapply mi_ok].
    destruct (same_tokens m id p p' Hm Hp) as [T1 T2]; [destruct Hc as [->|?]; done|apply He|].
    apply (effect_step m id p pm p' (releasing m) (forgetting m)); auto.
  - apply Withdraw_effect in Hw as (He&_&Hr&Hl&Hf); [|done|by eapply mi_ok].
    destruct (same_tokens m id p p' Hm Hp) as [T1 T2]; [auto|apply He|].
    apply (effect_step m id p pm p' (releasing m) (forgetting m)); auto.
  - apply Withdraw_effect in Hw as (He&Ht&Hr&Hl&Hf); [|done|by eapply mi_ok].
    destruct (same_tokens m id p p' Hm Hp) as [T1 T2]; [auto|apply He|].
    apply (effect_step m id p pm p'); auto. intros i [->%elem_of_singleton|?]%elem_of_union; auto.
  - destruct (mi_releasing _ Hm id p Hp Hin) as (A&B&C).
    apply release_effect in Hr as (He&Hr&Hl&Hf&Ht); [|done|by eapply mi_ok|done..].
    destruct (same_tokens m id p p' Hm Hp) as [T1 T2]; [auto|apply He|].
    apply (effect_step m id p pm p'); auto.
    + intros i. destruct ok; [|auto]. rewrite elem_of_union, elem_of_singleton. tauto.
    + destruct ok; auto.
  - destruct Hm as [H1 H2 H3 H4 H5 H6 H7 H9 H8]. unfold forgetMapping. case_bool_decide as Hb.
    2:{ by split. }
    split; simpl; try done.
    + intros i q Hq Hs. rewrite lookup_delete_ne; [by apply H5|]. intros E.
      pose proof (H5 i q Hq Hs) as Hr. rewrite <-E, Hb in Hr. injection Hr as <-. simplify_eq.
      by rewrite (H7 id p Hp Hin) in Hs.
    + intros b n i [_ ?]%lookup_delete_Some. eauto.
  - eapply frame_ports; [done|by apply Reserve_frame|done].
  - eapply frame_ports; [done|by apply Listen_frame|done].
  - eapply frame_ports; [done|by apply ReleasePort_frame|]. intros i p x Hp Hx ->. apply Hh. exists i, p.
    split; [done|]. unfold resources in Hx. apply elem_of_cons in Hx as [->|Hx]; [by left|right].
    destruct (mapForward p); [|by apply elem_of_nil in Hx]. apply list_elem_of_singleton in Hx. congruence.
Qed.

Lemma map_reach_inv m : map_reach m → mappings_inv m.
Proof.
  induction 1 as [lo hi pm Hn|m m' _ IH Hs]; [|by eapply map_step_inv].
  split; simpl; try done; [by eapply new_ports_inv|set_solver].
Qed.

(** The allocation behind a published port. *)
Lemma published_view m i p :
  mappings_inv m → mappings m !! i = Some p → HostPort p ≠ 0 →
  ∃ a l, a ∈ resources p ∧ viewAt (ports m) a = Some (""%string, "0.0.0.0"%string, HostPort p, l).
Proof.
  intros Hm Hp Hh. pose proof (mi_ok _ Hm i p Hp) as Hok. destruct (mo_host _ _ Hok Hh) as (Hs&Hpub&Hf).
  destruct (mapForward p) as [f|] eqn:Ef.
  - exists f, true. split; [|done]. unfold resources. rewrite Ef. right. left.
  - destruct Hf as [Hpr E]. destruct (mo_live _ _ Hok) as (scope&Hv&Hsc); [congruence|].
    exists (mapAlloc p), false. split; [left|]. rewrite Hv, E, Hpub. rewrite Hpr in Hsc.
    apply eq_sym, negb_false_iff, bool_decide_eq_true in Hsc. by subst.
Qed.

(** Two beds never publish on the same carrier port.  After any interleaving
    of reservations, publications, withdrawals, releases and the port activity of
    other components, a published mapping is listening and declared for
    publication, its carrier port is backed by a live allocation, and no other
    mapping is published on that port. *)
Lemma published_ports_unique m i p :
  map_reach m → mappings m !! i = Some p → HostPort p ≠ 0 →
  mapState p = MapListening ∧ PortPublish (mapSpec p) = true ∧
  (∃ a x, a ∈ resources p ∧ allocations (ports m) !! a = Some x ∧ allocPort x = HostPort p) ∧
  (∀ j q, mappings m !! j = Some q → HostPort q = HostPort p → j = i).
Proof.
  intros Hm%map_reach_inv Hp Hh. destruct (mo_host _ _ (mi_ok _ Hm i p Hp) Hh) as (Hs&Hpub&_).
  destruct (published_view m i p Hm Hp Hh) as (a&l&Ha&Hv). unfold viewAt in Hv.
  destruct (allocations (ports m) !! a) as [x|] eqn:Ex; [|done]. injection Hv as Hx1 Hx2 Hx3 Hx4.
  split_and!; [done|done|by exists a, x|]. intros j q Hq Hhq.
  destruct (published_view m j q Hm Hq ltac:(congruence)) as (b&l'&Hb&Hv'). unfold viewAt in Hv'.
  destruct (allocations (ports m) !! b) as [y|] eqn:Ey; [|done]. injection Hv' as Hy1 Hy2 Hy3 Hy4.
  assert (b = a) as ->.
  { apply (po_disjoint _ (mi_ports _ Hm) b a y x Ey Ex). split_and!; [congruence|congruence|].
    rewrite Hy2, Hx2. apply overlap_refl. }
  by eapply (mi_apart _ Hm j i q p a).
Qed.

Definition demo_port : PillowPort := mkPort "http" 8080 "TCP" false true.
Definition demo_mapping_spec : Spec :=
  mkSpec None [mkPillow [demo_port] None [] "main" [] None "" ∅ ∅ [] ∅ false "" 0 0 ""] SyncNoop false 0.
Definition demo_m0 : PortMappings := mkPortMappings (mkPortManager 20000 20010 20000 false ∅ 0) ∅ ∅ 0 ∅ ∅.
Definition demo_m1 : PortMappings :=
  (reserveMapping demo_m0 1 "bed" demo_mapping_spec "http" "main" "ns" "10.0.0.2" (λ _ _, Bound)).2.
Definition demo_p1 : PortMapping :=
  mkMapping 1 "bed" demo_port "main" "" 0 None true "10.0.0.2:8080" MapReserved 8080 0.
Definition demo_m2 : PortMappings :=
  let '(_, pm, p) := Publish (ports demo_m1) demo_p1 (λ _ _, Bound) in withMapping (withPorts demo_m1 pm) 0 p.
Definition demo_p2 : PortMapping := setMapping demo_p1 (Some 1) MapListening 20000.

Lemma demo_m2_reach : map_reach demo_m2.
Proof.
  apply (mr_step demo_m1); [apply (mr_step demo_m0); [by apply (mr_new 20000 20010)|apply mp_reserve]|].
  unfold demo_m2. destruct (Publish _ _ _) as [[e pm] p] eqn:E.
  apply (mp_publish demo_m1 0 demo_p1 (λ _ _, Bound) e pm p); [by vm_compute|done].
Qed.

(** A bed whose network may be torn down owns no port.  When the check before
    network release passes, every mapping the bed ever had is released: its
    allocation and its forwarder are gone from the port table and it publishes
    nothing, even while other calls of [Release] are still in progress. *)
Lemma released_bed_owns_no_port m b i p :
  map_reach m → CheckReleased m b = true → mappings m !! i = Some p → mapBed p = b →
  mapState p = MapReleased ∧ allocations (ports m) !! mapAlloc p = None ∧ mapForward p = None ∧ HostPort p = 0.
Proof.
  intros Hm%map_reach_inv Hc Hp Hb. pose proof (mi_ok _ Hm i p Hp) as Hok.
  assert (mapState p = MapReleased) as Hs.
  { destruct (decide (mapState p = MapReleased)) as [|Hs]; [done|]. exfalso.
    pose proof (mi_registered _ Hm i p Hp Hs) as Hr. unfold CheckReleased in Hc. rewrite forallb_forall in Hc.
    specialize (Hc ((mapBed p, mapName p), i)). rewrite <-list_elem_of_In, elem_of_map_to_list in Hc.
    specialize (Hc Hr). simpl in Hc. apply negb_true_iff, Z.eqb_neq in Hc. done. }
  destruct (mo_gone _ _ Hok Hs) as [Hv Hf]. split_and!; [done| |done|].
  - unfold viewAt in Hv. by destruct (_ !! mapAlloc p).
  - destruct (decide (HostPort p = 0)) as [|Hne]; [done|]. destruct (mo_host _ _ Hok Hne). congruence.
Qed.

(** The mapping of [demo_m2], released by the three sections of [Release]. *)
Definition demo_m3 : PortMappings :=
  let '(_, pm, p) := Withdraw (ports demo_m2) demo_p2 true in
  withTokens (withMapping (withPorts demo_m2 pm) 0 p) ({[0]} ∪ releasing demo_m2) (forgetting demo_m2).
Definition demo_p3 : PortMapping := setMapping demo_p2 None MapStopping 0.
Definition demo_m4 : PortMappings :=
  let '(ok, pm, p) := releaseAllocation (ports demo_m3) demo_p3 true in
  withTokens (withMapping (withPorts demo_m3 pm) 0 p) (releasing demo_m3)
    (if ok : bool then {[0]} ∪ forgetting demo_m3 else forgetting demo_m3).
Definition demo_p4 : PortMapping := setMapping demo_p3 None MapReleased 0.
Definition demo_m5 : PortMappings := forgetMapping demo_m4 0 demo_p4.

Lemma demo_m5_reach : map_reach demo_m5.
Proof.
  apply (mr_step demo_m4); [apply (mr_step demo_m3); [apply (mr_step demo_m2); [apply demo_m2_reach|]|]|].
  - apply (mp_release_withdraw demo_m2 0 demo_p2 true (Withdraw (ports demo_m2) demo_p2 true).1.2 demo_p3);
      by vm_compute.
  - apply (mp_release_allocation demo_m3 0 demo_p3 true true (releaseAllocation (ports demo_m3) demo_p3 true).1.2 demo_p4);
      [by vm_compute|by apply elem_of_union_l, elem_of_singleton|by vm_compute].
  - apply (mp_release_forget demo_m4 0 demo_p4); [by vm_compute|by apply elem_of_union_l, elem_of_singleton].
Qed.

