(* ===== verification/Pillow.v ===== *)
(** * Pillow: supervision of the processes a bed declares

    Models [internal/bed/pillow]: the manager and its groups ([manager.go]), the
    goroutine that supervises one pillow ([supervision.go]), readiness checks
    ([readiness.go]) and the use of port mappings ([ports.go]).

    The goroutine of [supervise] is a state machine: a [pc] for every point where
    it touches shared state or waits, and [sup_step], the transition taken when
    the environment answers with an [event] ([None] when the goroutine is not
    waiting for that answer).  Local computation is joined with the next shared
    action.  Groups, beds, processes and mappings are pointers, hence
    identifiers.  The port mappings are those of [PortMappings], shared by every
    supervisor and changed one critical section at a time. *)

From S2P Require Import Prelude Netip Bed PortAlloc PortMappings.

(** ** Processes and their outcome ([executor.ProcessOutcome]) *)

Inductive ProcessOutcomeKind := KindNone | ProcessExited | ProcessSignaled | ProcessLost.
#[export] Instance ProcessOutcomeKind_eq_dec : EqDecision ProcessOutcomeKind.
Proof. solve_decision. Defined.

Record ProcessOutcome := mkOutcome {
  Kind : ProcessOutcomeKind; ExitCode : Z; Signal : Z; CoreDumped : bool; OutcomeError : string; Detail : string }.
Definition zeroOutcome : ProcessOutcome := mkOutcome KindNone 0 0 false "" "".

(** ** Errors

    [errors.Join] collects errors, so an [error] is a list of causes and nil the
    empty list. *)

Inductive cause :=
| Canceled | ConfigurationError (text : string) | NetworkError (text : string) | ReserveError (e : mapping_err)
| StartError (text : string) | ProbeUnallocated (port : string) | PortConflict (port : string)
| InvalidInspection (state : string) | PublishError (e : mapping_err) | WithdrawError (id : Z).
Notation error := (list cause).

(** The text of [Reason]: a constant, or the text of an error. *)
Inductive reason := Because (text : string) | ErrorText (e : error).
Definition noReason : reason := Because "".

(** [retryPortConflict]; [errors.As] finds the first conflict among the causes. *)
Definition conflictIn (err : error) : option string :=
  head (omap (λ c, match c with PortConflict n => Some n | _ => None end) err).
Definition retryPortConflict (err : error) (spec : PillowSpec) : bool :=
  match conflictIn err with
  | None => false
  | Some name => match filter (λ p, PortName p = name) (Ports spec) with p :: _ => Dynamic p | [] => false end
  end.

(** ** Readiness ([readiness.go] and [readinessTracker]) *)

Inductive ListenerState := ListenerOwned | ListenerForeign | ListenerAbsent | ListenerUnavailable | ListenerOther (s : string).
#[export] Instance ListenerState_eq_dec : EqDecision ListenerState.
Proof. solve_decision. Defined.
Record ListenerInspection := mkInspection { lState : ListenerState; lMethod : string; lReason : string }.

Record readinessResult := mkReadiness { resReady : bool; resReason : reason }.
Definition readyNow : readinessResult := mkReadiness true noReason.
Definition notReady (text : string) : readinessResult := mkReadiness false (Because text).

(** What the network answers to a probe; the slot is one of [probeSlots]. *)
Inductive http_answer := HTTPNoSlot | HTTPInvalid | HTTPFailed | HTTPStatus (code : Z).
Inductive tcp_answer := TCPNoSlot | TCPFailed | TCPConnected.

Definition probeHTTP (a : http_answer) : readinessResult :=
  match a with
  | HTTPNoSlot => notReady "ReadinessProbeUnavailable"
  | HTTPInvalid => notReady "ReadinessProbeInvalid"
  | HTTPFailed => notReady "ReadinessProbeFailed"
  | HTTPStatus code =>
      if (code <? 200) || (400 <=? code) then notReady ("ReadinessHTTPStatus" +:+ of_list (Itoa code)) else readyNow
  end.
Definition probeTCP (a : tcp_answer) : readinessResult :=
  match a with
  | TCPNoSlot => notReady "ReadinessProbeUnavailable"
  | TCPFailed => notReady "ReadinessTCPFailed"
  | TCPConnected => readyNow
  end.

(** The port a probe refers to, by name or by fixed number ([probe_spec.go]). *)
Definition probeReference (probe : Probe) : string :=
  match TCPSocket probe with
  | Some t => TCPPort t
  | None => match HTTPGet probe with Some h => HTTPPort h | None => "" end
  end.
Definition probePortName (s : PillowSpec) : string :=
  match ReadinessProbe s with
  | None => ""
  | Some probe =>
      let reference := probeReference probe in
      let matches (p : PillowPort) : bool :=
        bool_decide (PortName p = reference) ||
        match Atoi (to_list reference) with
        | Some number => negb (Dynamic p) && (ContainerPort p =? number)
        | None => false
        end in
      match List.filter matches (Ports s) with p :: _ => PortName p | [] => "" end
  end.

(** The answers one readiness check receives: a listener inspection, a second one
    asked for when the first finds a foreign listener, and a probe. *)
Record check_answers := mkAnswers {
  inspect1 : result string ListenerInspection; inspect2 : result string ListenerInspection;
  httpAnswer : http_answer; tcpAnswer : tcp_answer }.

(** A failed inspection carries the method that failed. *)
Definition inspection (a : check_answers) : result string ListenerInspection :=
  match inspect1 a with
  | Ok i => if bool_decide (lState i = ListenerForeign) then inspect2 a else Ok i
  | Err e => Err e
  end.

Definition failedInspection (method : string) : ListenerInspection :=
  mkInspection ListenerUnavailable method "inspection_failed".

(** [readinessCheck]: the listener evidence it records, if any, and its result.
    [names] are the names of the mappings. *)
Definition readinessCheck (spec : PillowSpec) (names : list string) (a : check_answers)
  : option ListenerInspection * result cause readinessResult :=
  match ReadinessProbe spec with
  | None => (None, Ok readyNow)
  | Some probe =>
      if negb (bool_decide (probePortName spec ∈ names)) then (None, Err (ProbeUnallocated (probePortName spec)))
      else match inspection a with
      | Err method => (Some (failedInspection method), Ok (notReady "ListenerInspectionFailed"))
      | Ok i =>
          let probed := match HTTPGet probe with Some _ => probeHTTP (httpAnswer a) | None => probeTCP (tcpAnswer a) end in
          (Some i, match lState i with
                   | ListenerForeign => Err (PortConflict (probePortName spec))
                   | ListenerAbsent => Ok (notReady "ListenerAbsent")
                   | ListenerUnavailable | ListenerOwned => Ok probed
                   | ListenerOther s => Err (InvalidInspection s)
                   end)
      end
  end.

Record readinessTracker := mkTracker { trReady : bool; successes : Z; failures : Z }.
Definition newTracker : readinessTracker := mkTracker false 0 0.

Definition thresholds (probe : option Probe) : Z * Z :=
  match probe with Some p => (SuccessThreshold p, FailureThreshold p) | None => (1, 1) end.

Definition observe (t : readinessTracker) (res : readinessResult) (probe : option Probe)
  : readinessResult * readinessTracker :=
  let '(success, failure) := thresholds probe in
  let t :=
    if resReady res then
      let n := Z.min (successes t + 1) success in mkTracker (if success <=? n then true else trReady t) n 0
    else
      let n := Z.min (failures t + 1) failure in mkTracker (if failure <=? n then false else trReady t) 0 n in
  (if trReady t then readyNow
   else if resReady res then notReady "ReadinessSuccessThresholdPending" else res, t).

(** ** Status *)

Inductive PillowPhase := PStarting | PRunning | PStopping | PBackoff | PFailed | PCompleted | PStopped | PPrepared.
#[export] Instance PillowPhase_eq_dec : EqDecision PillowPhase.
Proof. solve_decision. Defined.

Record Status := mkStatus {
  stName : string; stPorts : list string; stRequired : bool; stPrepared : bool; stPhase : PillowPhase; stReady : bool;
  stExecution : string; stExecutor : string; stRestarts : Z; stReason : reason;
  stListener : option ListenerInspection; stOutcome : option ProcessOutcome }.

Definition setPhase (ph : PillowPhase) (s : Status) : Status :=
  mkStatus (stName s) (stPorts s) (stRequired s) (stPrepared s) ph (stReady s) (stExecution s) (stExecutor s)
    (stRestarts s) (stReason s) (stListener s) (stOutcome s).
Definition setReady (b : bool) (s : Status) : Status :=
  mkStatus (stName s) (stPorts s) (stRequired s) (stPrepared s) (stPhase s) b (stExecution s) (stExecutor s)
    (stRestarts s) (stReason s) (stListener s) (stOutcome s).
Definition setPrepared (b : bool) (s : Status) : Status :=
  mkStatus (stName s) (stPorts s) (stRequired s) b (stPhase s) (stReady s) (stExecution s) (stExecutor s)
    (stRestarts s) (stReason s) (stListener s) (stOutcome s).
Definition setExecution (execution executor : string) (s : Status) : Status :=
  mkStatus (stName s) (stPorts s) (stRequired s) (stPrepared s) (stPhase s) (stReady s) execution executor
    (stRestarts s) (stReason s) (stListener s) (stOutcome s).
Definition setRestarts (n : Z) (s : Status) : Status :=
  mkStatus (stName s) (stPorts s) (stRequired s) (stPrepared s) (stPhase s) (stReady s) (stExecution s) (stExecutor s)
    n (stReason s) (stListener s) (stOutcome s).
Definition setReason (r : reason) (s : Status) : Status :=
  mkStatus (stName s) (stPorts s) (stRequired s) (stPrepared s) (stPhase s) (stReady s) (stExecution s) (stExecutor s)
    (stRestarts s) r (stListener s) (stOutcome s).
Definition setListener (l : option ListenerInspection) (s : Status) : Status :=
  mkStatus (stName s) (stPorts s) (stRequired s) (stPrepared s) (stPhase s) (stReady s) (stExecution s) (stExecutor s)
    (stRestarts s) (stReason s) l (stOutcome s).
Definition setOutcome (o : option ProcessOutcome) (s : Status) : Status :=
  mkStatus (stName s) (stPorts s) (stRequired s) (stPrepared s) (stPhase s) (stReady s) (stExecution s) (stExecutor s)
    (stRestarts s) (stReason s) (stListener s) o.

(** [update]: only a running pillow can be ready. *)
Definition update (fn : Status → Status) (s : Status) : Status :=
  let s := fn s in if bool_decide (stPhase s = PRunning) then s else setReady false s.

(** ** The command of a launch ([portCommand])

    [strings.NewReplacer]: at each position the first pair, in argument order,
    whose key starts there is replaced; replacements do not overlap. *)

Definition startsWith (l k : list ascii) : option (list ascii) :=
  if bool_decide (take (length k) l = k) then Some (drop (length k) l) else None.

Fixpoint firstMatch (pairs : list (list ascii * list ascii)) (l : list ascii) : option (list ascii * list ascii) :=
  match pairs with
  | [] => None
  | (k, v) :: pairs => match startsWith l k with Some rest => Some (v, rest) | None => firstMatch pairs l end
  end.

Fixpoint replaceFuel (fuel : nat) (pairs : list (list ascii * list ascii)) (l : list ascii) : list ascii :=
  match fuel, l with
  | O, _ | _, [] => l
  | S fuel, c :: l' =>
      match firstMatch pairs l with
      | Some (v, rest) => v ++ replaceFuel fuel pairs rest
      | None => c :: replaceFuel fuel pairs l'
      end
  end.
(** Every key is non-empty, so each round consumes a byte. *)
Definition replace (pairs : list (string * string)) (s : string) : string :=
  of_list (replaceFuel (String.length s) ((λ kv, (to_list kv.1, to_list kv.2)) <$> pairs) (to_list s)).

Definition listenAddress (m : PortMappings) (p : PortMapping) : string := addressOf (ports m) (mapAlloc p).
Definition placeholders (m : PortMappings) (ps : list PortMapping) : list (string * string) :=
  (p ← ps;
   [("${PORT_" +:+ mapName p +:+ "}", of_list (Itoa (BedPort p))); ("${LISTEN_ADDR_" +:+ mapName p +:+ "}", listenAddress m p)])%string
  ++ match ps with
     | [p] => [("${PORT}", of_list (Itoa (BedPort p))); ("${LISTEN_ADDR}", listenAddress m p)]%string
     | _ => []
     end.

Definition resolveMaps (m : PortMappings) (ids : list Z) : list PortMapping := omap (λ i, mappings m !! i) ids.
Definition portCommand (m : PortMappings) (spec : PillowSpec) (ids : list Z) : list string :=
  replace (placeholders m (resolveMaps m ids)) <$> (commandOf spec ++ Args spec).

(** ** The goroutine of [supervise] *)

(** The results of [run]. *)
Record ret := mkRet { explicit : bool; retOutcome : ProcessOutcome; retErr : error }.

(** Where the goroutine stands.  [PcNetwork] to [PcLaunch] prepare a run,
    [PcSelect] is its wait, [PcWithdraw] and [PcStop] the deferred cleanup,
    [PcRelease] the deferred [releasePorts] with the critical section of
    [Release] it has reached, [PcReturn] the code of [supervise] after a run. *)
Inductive pcs :=
| PcLoop
| PcRun
| PcNetwork
| PcReserve (scope host : string) (todo : list PillowPort)
| PcLaunch
| PcBind (proc : Z) (todo : list Z)
| PcSelect (proc : Z) (t : readinessTracker) (published : bool)
| PcChecked (proc : Z) (t : readinessTracker) (published : bool) (res : readinessResult)
| PcPublish (proc : Z) (t : readinessTracker) (res : readinessResult) (todo : list Z)
| PcWithdraw (proc : Z) (todo : list Z) (r : ret)
| PcStop (proc : Z) (r : ret)
| PcRelease (stage : nat) (r : ret)
| PcReturn (r : ret)
| PcBackoff (seconds : Z)
| PcIdle
| PcDone.

(** The record of a pillow with the state of its goroutine: [rRestart] is the
    token in its channel of capacity one, [rCancelled] whether its context is
    cancelled, [rMaps] the field [mappings] (read by [Access]), [lMaps] the local
    variable [mappings] of [run], less the mappings already released.
    [lLaunches] counts the processes started since the last explicit restart; the
    code does not keep it. *)
Record record := mkRecord {
  rSpec : PillowSpec; rStatus : Status; rRestart : bool; rCancelled : bool; rMaps : list Z;
  rPc : pcs; lMaps : list Z; lRestarts : Z; lAttempt : Z; lLaunches : Z }.

(** A started process group that has not been stopped yet. *)
Record process := mkProcess {
  pExecution : string; pExecutor : string; pCommand : list string; pExit : option ProcessOutcome }.

Definition goto (pc : pcs) (r : record) : record :=
  mkRecord (rSpec r) (rStatus r) (rRestart r) (rCancelled r) (rMaps r) pc (lMaps r) (lRestarts r) (lAttempt r) (lLaunches r).
Definition withStatus (fn : Status → Status) (r : record) : record :=
  mkRecord (rSpec r) (update fn (rStatus r)) (rRestart r) (rCancelled r) (rMaps r) (rPc r) (lMaps r) (lRestarts r) (lAttempt r) (lLaunches r).
Definition withToken (b : bool) (r : record) : record :=
  mkRecord (rSpec r) (rStatus r) b (rCancelled r) (rMaps r) (rPc r) (lMaps r) (lRestarts r) (lAttempt r) (lLaunches r).
Definition withCancel (r : record) : record :=
  mkRecord (rSpec r) (rStatus r) (rRestart r) true (rMaps r) (rPc r) (lMaps r) (lRestarts r) (lAttempt r) (lLaunches r).
Definition withShared (ids : list Z) (r : record) : record :=
  mkRecord (rSpec r) (rStatus r) (rRestart r) (rCancelled r) ids (rPc r) (lMaps r) (lRestarts r) (lAttempt r) (lLaunches r).
Definition withLocal (ids : list Z) (r : record) : record :=
  mkRecord (rSpec r) (rStatus r) (rRestart r) (rCancelled r) (rMaps r) (rPc r) ids (lRestarts r) (lAttempt r) (lLaunches r).
Definition withBudget (restarts attempt launches : Z) (r : record) : record :=
  mkRecord (rSpec r) (rStatus r) (rRestart r) (rCancelled r) (rMaps r) (rPc r) (lMaps r) restarts attempt launches.

(** What the goroutine may be answered. *)
Inductive event :=
| EvGo
| EvConfigured (r : result string unit)
| EvNetwork (r : result string (string * string))
| EvReserve (bedSpec : Spec) (probe : nat → string → listen_outcome)
| EvStarted (r : result string (string * string))
| EvCancelled
| EvRestart
| EvExited
| EvTick (a : check_answers)
| EvListen (bind : nat → string → listen_outcome)
| EvClose (closes : bool)
| EvStopped (r : option ProcessOutcome)
| EvTimer.

(** The time to the next automatic restart, in seconds. *)
Definition backoffSeconds (restarts : Z) : Z := Z.min (Z.shiftl 1 (Z.min (restarts - 1) 5)) 30.

(** [supervise] after the loop over attempts. *)
Definition isFailure (x : ret) : bool :=
  negb (bool_decide (retErr x = [])) || negb (bool_decide (Kind (retOutcome x) = ProcessExited))
  || negb (ExitCode (retOutcome x) =? 0).
Definition isAutomatic (spec : PillowSpec) (x : ret) : bool :=
  bool_decide (RestartPolicy spec = "always"%string)
  || (bool_decide (RestartPolicy spec = "on-failure"%string) && isFailure x)
  || bool_decide (Kind (retOutcome x) = ProcessLost).

Definition afterRun (x : ret) (r : record) : record :=
  let attempt := lAttempt r + 1 in
  if retryPortConflict (retErr x) (rSpec r) && (attempt <? 3) then
    goto PcRun (withBudget (lRestarts r) attempt (lLaunches r) r)
  else if rCancelled r then goto PcDone (withStatus (setPhase PStopped) r)
  else if explicit x then goto PcLoop (withBudget 0 (lAttempt r) 0 r)
  else if isAutomatic (rSpec r) x && (lRestarts r <? MaxRestarts (rSpec r)) then
    let restarts := lRestarts r + 1 in
    goto (PcBackoff (backoffSeconds restarts)) (withBudget restarts (lAttempt r) (lLaunches r)
      (withStatus (setReason (Because "RestartScheduled") ∘ setRestarts restarts ∘ setPhase PBackoff) r))
  else
    goto PcIdle (withStatus (setOutcome (Some (retOutcome x))
      ∘ setReason (if bool_decide (retErr x = []) then Because "ProcessExited" else ErrorText (retErr x))
      ∘ setPhase (if isFailure x then PFailed else PCompleted)) r).

(** Leaving the wait of [run]: the deferred cleanup begins. *)
Definition cleanup (proc : Z) (x : ret) (r : record) : record :=
  goto (PcWithdraw proc (lMaps r) x) (withStatus (setPhase PStopping) r).
Definition failRun (e : cause) : ret := mkRet false zeroOutcome [e].

(** The shared state of all supervisors: the port mappings and the process groups. *)
Record shared := mkShared { net : PortMappings; procs : gmap Z process; freshProc : Z }.
Definition withNet (s : shared) (m : PortMappings) : shared := mkShared m (procs s) (freshProc s).

(** An operation on one mapping. *)
Definition setNet (s : shared) (id : Z) (pm : PortManager) (p : PortMapping) : shared :=
  withNet s (withMapping (withPorts (net s) pm) id p).
Definition setTokens (s : shared) (rel forg : gset Z) : shared := withNet s (withTokens (net s) rel forg).

Definition exitOf (s : shared) (proc : Z) : option ProcessOutcome :=
  match procs s !! proc with Some p => pExit p | None => None end.

(** Preparing a run: [run] up to [reservePorts], and [reservePorts]. *)
Definition stepRun (s : shared) (r : record) (ev : event) : option (shared * record) :=
  if rCancelled r then
    match ev with EvCancelled => Some (s, goto (PcReturn (failRun Canceled)) r) | _ => None end
  else match ev with
  | EvConfigured c =>
      let r := withStatus (setListener None ∘ setPhase PStarting) r in
      Some (s, match c with
               | Err e => goto (PcReturn (failRun (ConfigurationError e))) r
               | Ok _ => goto PcNetwork r
               end)
  | _ => None
  end.

Definition stepNetwork (s : shared) (r : record) (ev : event) : option (shared * record) :=
  if bool_decide (Ports (rSpec r) = []) then
    match ev with EvGo => Some (s, goto PcLaunch r) | _ => None end
  else match ev with
  | EvNetwork (Err e) => Some (s, goto (PcRelease 0 (failRun (NetworkError e))) r)
  | EvNetwork (Ok (scope, host)) => Some (s, goto (PcReserve scope host (Ports (rSpec r))) r)
  | _ => None
  end.

Definition stepReserve (b : Z) (bedID : string) (s : shared) (r : record) (scope host : string)
    (todo : list PillowPort) (ev : event) : option (shared * record) :=
  match todo, ev with
  | [], EvGo => Some (s, goto PcLaunch (withShared (lMaps r) r))
  | p :: todo, EvReserve spec probe =>
      match reserveMapping (net s) b bedID spec (PortName p) (PillowName (rSpec r)) scope host probe with
      | (Err e, m) => Some (withNet s m, goto (PcRelease 0 (failRun (ReserveError e))) r)
      | (Ok id, m) => Some (withNet s m, goto (PcReserve scope host todo) (withLocal (lMaps r ++ [id]) r))
      end
  | _, _ => None
  end.

(** [Runtime.Start], [Bind] and the update to running. *)
Definition stepLaunch (s : shared) (r : record) (ev : event) : option (shared * record) :=
  match ev with
  | EvStarted (Err e) => Some (s, goto (PcRelease 0 (failRun (StartError e))) r)
  | EvStarted (Ok (execution, executor)) =>
      let p := mkProcess execution executor (portCommand (net s) (rSpec r) (lMaps r)) None in
      Some (mkShared (net s) (<[freshProc s := p]> (procs s)) (freshProc s + 1),
            goto (PcBind (freshProc s) (lMaps r)) (withBudget (lRestarts r) (lAttempt r) (lLaunches r + 1) r))
  | _ => None
  end.

Definition stepBind (s : shared) (r : record) (proc : Z) (todo : list Z) (ev : event) : option (shared * record) :=
  match procs s !! proc, todo, ev with
  | Some p, [], EvGo =>
      Some (s, goto (PcSelect proc newTracker false)
        (withStatus (setOutcome None ∘ setExecution (pExecution p) (pExecutor p) ∘ setPhase PRunning) r))
  | Some p, id :: todo, EvGo =>
      match mappings (net s) !! id with
      | Some mp => Some (withNet s (withMapping (net s) id (Bind mp (pExecution p))), goto (PcBind proc todo) r)
      | None => None
      end
  | _, _, _ => None
  end.

(** The [select] of [run]. *)
Definition stepSelect (s : shared) (r : record) (proc : Z) (t : readinessTracker) (published : bool) (ev : event)
  : option (shared * record) :=
  match ev with
  | EvCancelled => if rCancelled r then Some (s, cleanup proc (failRun Canceled) r) else None
  | EvRestart => if rRestart r then Some (s, cleanup proc (mkRet true zeroOutcome []) (withToken false r)) else None
  | EvExited => match exitOf s proc with Some o => Some (s, cleanup proc (mkRet false o []) r) | None => None end
  | EvTick a =>
      let '(evidence, res) := readinessCheck (rSpec r) (mapName <$> resolveMaps (net s) (lMaps r)) a in
      let r := match evidence with Some i => withStatus (setListener (Some i)) r | None => r end in
      Some (s, match res with
               | Err e => cleanup proc (failRun e) r
               | Ok res => goto (PcChecked proc t published res) r
               end)
  | _ => None
  end.

Definition finishCheck (proc : Z) (t : readinessTracker) (published : bool) (res : readinessResult) (r : record) : record :=
  goto (PcSelect proc t published) (withStatus (setReason (resReason res) ∘ setReady (resReady res)) r).

(** After a probe: the second [select], the tracker and [Publish]. *)
Definition stepChecked (s : shared) (r : record) (proc : Z) (t : readinessTracker) (published : bool)
    (res : readinessResult) (ev : event) : option (shared * record) :=
  match ev with
  | EvCancelled => if rCancelled r then Some (s, cleanup proc (failRun Canceled) r) else None
  | EvExited => match exitOf s proc with Some o => Some (s, cleanup proc (mkRet false o []) r) | None => None end
  | EvGo =>
      if rCancelled r || bool_decide (is_Some (exitOf s proc)) then None
      else
        let '(res, t) := observe t res (ReadinessProbe (rSpec r)) in
        Some (s, if resReady res && negb published then goto (PcPublish proc t res (lMaps r)) r
                 else finishCheck proc t published res r)
  | _ => None
  end.

Definition stepPublish (s : shared) (r : record) (proc : Z) (t : readinessTracker) (res : readinessResult)
    (todo : list Z) (ev : event) : option (shared * record) :=
  match todo, ev with
  | [], EvGo => Some (s, finishCheck proc t true res r)
  | id :: todo, EvListen bind =>
      match mappings (net s) !! id with
      | Some mp =>
          let '(e, pm, mp) := Publish (ports (net s)) mp bind in
          Some (setNet s id pm mp, match e with
                                   | Some e => cleanup proc (failRun (PublishError e)) r
                                   | None => goto (PcPublish proc t res todo) r
                                   end)
      | None => None
      end
  | _, _ => None
  end.

(** The deferred cleanup: [Withdraw] every mapping, then stop the process group,
    retrying until it is gone. *)
Definition addErr (x : ret) (e : error) : ret := mkRet (explicit x) (retOutcome x) (retErr x ++ e).
Definition stepWithdraw (s : shared) (r : record) (proc : Z) (todo : list Z) (x : ret) (ev : event)
  : option (shared * record) :=
  match todo, ev with
  | [], EvGo => Some (s, goto (PcStop proc x) r)
  | id :: todo, EvClose closes =>
      match mappings (net s) !! id with
      | Some mp =>
          let '(ok, pm, mp) := Withdraw (ports (net s)) mp closes in
          Some (setNet s id pm mp, goto (PcWithdraw proc todo (if ok : bool then x else addErr x [WithdrawError id])) r)
      | None => None
      end
  | _, _ => None
  end.

Definition stepStop (s : shared) (r : record) (proc : Z) (x : ret) (ev : event) : option (shared * record) :=
  match ev with
  | EvStopped None => Some (s, withStatus (setReason (Because "ProcessCleanupPending")) r)
  | EvStopped (Some o) =>
      let o := default o (exitOf s proc) in
      Some (mkShared (net s) (delete proc (procs s)) (freshProc s),
            goto (PcRelease 0 (mkRet (explicit x) o (retErr x))) (withStatus (setOutcome (Some o)) r))
  | _ => None
  end.

(** [releasePorts]: [Release] of each mapping, section by section, from the start
    again when a section fails. *)
Definition stepRelease (s : shared) (r : record) (stage : nat) (x : ret) (ev : event) : option (shared * record) :=
  let retry := withStatus (setReason (Because "PortCleanupPending")) (goto (PcRelease 0 x) r) in
  match lMaps r, stage, ev with
  | [], _, EvGo => Some (s, goto (PcReturn x) (withShared [] r))
  | id :: ids, _, _ =>
      match mappings (net s) !! id, stage, ev with
      | Some mp, O, EvClose closes =>
          let '(ok, pm, mp) := Withdraw (ports (net s)) mp closes in
          let s := setNet s id pm mp in
          Some (if ok : bool
                then (setTokens s ({[id]} ∪ releasing (net s)) (forgetting (net s)), goto (PcRelease 1 x) r)
                else (s, retry))
      | Some mp, S O, EvClose closes =>
          let '(ok, pm, mp) := releaseAllocation (ports (net s)) mp closes in
          let s := setNet s id pm mp in
          Some (if ok : bool
                then (setTokens s (releasing (net s)) ({[id]} ∪ forgetting (net s)), goto (PcRelease 2 x) r)
                else (s, retry))
      | Some mp, S (S _), EvGo => Some (withNet s (forgetMapping (net s) id mp), goto (PcRelease 0 x) (withLocal ids r))
      | _, _, _ => None
      end
  | _, _, _ => None
  end.

Definition stepBackoff (s : shared) (r : record) (ev : event) : option (shared * record) :=
  match ev with
  | EvCancelled => if rCancelled r then Some (s, goto PcLoop r) else None
  | EvRestart => if rRestart r then Some (s, goto PcLoop (withBudget 0 (lAttempt r) 0 (withToken false r))) else None
  | EvTimer => Some (s, goto PcLoop r)
  | _ => None
  end.

Definition stepIdle (s : shared) (r : record) (ev : event) : option (shared * record) :=
  match ev with
  | EvCancelled => if rCancelled r then Some (s, goto PcDone (withStatus (setPhase PStopped) r)) else None
  | EvRestart => if rRestart r then Some (s, goto PcLoop (withBudget 0 (lAttempt r) 0 (withToken false r))) else None
  | _ => None
  end.

(** The top of the loop. *)
Definition stepLoop (s : shared) (r : record) (ev : event) : option (shared * record) :=
  match ev with
  | EvGo => Some (s, goto PcRun (withBudget (lRestarts r) 0 (lLaunches r)
      (withStatus (setRestarts (lRestarts r) ∘ setReason noReason ∘ setPhase PStarting) r)))
  | _ => None
  end.

Definition sup_step (b : Z) (bedID : string) (s : shared) (r : record) (ev : event) : option (shared * record) :=
  match rPc r with
  | PcLoop => stepLoop s r ev
  | PcRun => stepRun s r ev
  | PcNetwork => stepNetwork s r ev
  | PcReserve scope host todo => stepReserve b bedID s r scope host todo ev
  | PcLaunch => stepLaunch s r ev
  | PcBind proc todo => stepBind s r proc todo ev
  | PcSelect proc t published => stepSelect s r proc t published ev
  | PcChecked proc t published res => stepChecked s r proc t published res ev
  | PcPublish proc t res todo => stepPublish s r proc t res todo ev
  | PcWithdraw proc todo x => stepWithdraw s r proc todo x ev
  | PcStop proc x => stepStop s r proc x ev
  | PcRelease stage x => stepRelease s r stage x ev
  | PcReturn x => match ev with EvGo => Some (s, afterRun x r) | _ => None end
  | PcBackoff _ => stepBackoff s r ev
  | PcIdle => stepIdle s r ev
  | PcDone => None
  end.

(** ** Groups and the manager ([manager.go]) *)

Record group := mkGroup { gBed : Z; gBedID : string; gRecords : list record; gStopped : bool }.

(** [gHeap] holds every group ever prepared, [gGroups] the one registered for a bed. *)
Record Manager := mkManager {
  gShared : shared; gHeap : gmap Z group; gGroups : gmap Z Z; freshGroup : Z; gClosed : bool }.

Inductive pillow_err := ManagerClosed | AlreadyPrepared | RequiredFailed (name : string) | PillowNotFound
  | PillowsStopping | NoMainProcess (name : string) | PortsUnavailable.

Definition newStatus (s : PillowSpec) : Status :=
  mkStatus (PillowName s) (PortName <$> Ports s) (Required s) false PStarting false "" "" 0 noReason None None.

(** One record of [PrepareBed]: a pillow without a command is prepared and done at
    once, any other gets its goroutine. *)
Definition newRecord (s : PillowSpec) : record :=
  if bool_decide (commandOf s = []) then
    mkRecord s (setPrepared true (setReady true (setPhase PPrepared (newStatus s)))) false false [] PcDone [] 0 0 0
  else mkRecord s (setPrepared true (newStatus s)) false false [] PcLoop [] 0 0 0.

(** [PrepareBed] up to its wait; [specs] are the resolved declarations. *)
Definition PrepareBed (m : Manager) (b : Z) (bedID : string) (specs : list PillowSpec) : result pillow_err Z * Manager :=
  if gClosed m then (Err ManagerClosed, m)
  else if bool_decide (is_Some (gGroups m !! b)) then (Err AlreadyPrepared, m)
  else (Ok (freshGroup m),
        mkManager (gShared m) (<[freshGroup m := mkGroup b bedID (newRecord <$> specs) false]> (gHeap m))
          (<[b := freshGroup m]> (gGroups m)) (freshGroup m + 1) false).

Definition hasEnded (s : Status) : bool :=
  match stPhase s with PFailed | PStopped | PCompleted => true | _ => false end.
Fixpoint readinessLoop (rs : list record) (ready : bool) : bool * string :=
  match rs with
  | [] => (ready, "")
  | r :: rs =>
      if Required (rSpec r) && negb (stReady (rStatus r)) then
        if hasEnded (rStatus r) then (false, PillowName (rSpec r)) else readinessLoop rs false
      else readinessLoop rs ready
  end.
Definition groupReadiness (g : group) : bool * string := readinessLoop (gRecords g) (negb (gStopped g)).

(** One round of the wait of [PrepareBed]: [None] waits for a change. *)
Definition prepareWait (g : group) : option (result pillow_err unit) :=
  let '(ready, failed) := groupReadiness g in
  if negb (bool_decide (failed = ""%string)) then Some (Err (RequiredFailed failed))
  else if ready then Some (Ok tt) else None.

Definition groupOf (m : Manager) (b : Z) : option group := gGroups m !! b ≫= λ gid, gHeap m !! gid.
Definition Ready (m : Manager) (b : Z) : bool :=
  match groupOf m b with None => false | Some g => (groupReadiness g).1 end.

(** [Access]: the ports of the first ready pillow of that name that has mappings. *)
Fixpoint accessPorts (n : PortMappings) (execution : string) (ids : list Z) : result pillow_err (list PortMapping) :=
  match ids with
  | [] => Ok []
  | id :: ids =>
      match mappings n !! id with
      | Some p =>
          if bool_decide (mapState p = MapListening) && bool_decide (mapExecution p = execution)
          then ps <-! accessPorts n execution ids; Ok (p :: ps) else Err PortsUnavailable
      | None => Err PortsUnavailable
      end
  end.
Fixpoint accessLoop (n : PortMappings) (stopped : bool) (name : string) (rs : list record) : result pillow_err (list PortMapping) :=
  match rs with
  | [] => Err PortsUnavailable
  | r :: rs =>
      if negb (bool_decide (PillowName (rSpec r) = name)) || stopped || negb (stReady (rStatus r)) || bool_decide (rMaps r = [])
      then accessLoop n stopped name rs
      else accessPorts n (stExecution (rStatus r)) (rMaps r)
  end.
Definition Access (m : Manager) (b : Z) (name : string) : result pillow_err (list PortMapping) :=
  match groupOf m b with
  | None => Err PillowNotFound
  | Some g => accessLoop (net (gShared m)) (gStopped g) name (gRecords g)
  end.

(** [Restart]: leave a token in the channel of the first pillow of that name. *)
Fixpoint restartLoop (name : string) (rs : list record) : result pillow_err (list record) :=
  match rs with
  | [] => Err PillowNotFound
  | r :: rs =>
      if bool_decide (PillowName (rSpec r) = name) then
        if bool_decide (commandOf (rSpec r) = []) then Err (NoMainProcess name) else Ok (withToken true r :: rs)
      else rs <-! restartLoop name rs; Ok (r :: rs)
  end.
Definition setGroup (m : Manager) (gid : Z) (g : group) : Manager :=
  mkManager (gShared m) (<[gid:=g]> (gHeap m)) (gGroups m) (freshGroup m) (gClosed m).
Definition withRecords (g : group) (rs : list record) : group := mkGroup (gBed g) (gBedID g) rs (gStopped g).
Definition Restart (m : Manager) (b : Z) (name : string) : result pillow_err unit * Manager :=
  match gGroups m !! b with
  | None => (Err PillowNotFound, m)
  | Some gid =>
      match gHeap m !! gid with
      | None => (Err PillowNotFound, m)
      | Some g =>
          if gStopped g then (Err PillowsStopping, m)
          else match restartLoop name (gRecords g) with
          | Err e => (Err e, m)
          | Ok rs => (Ok tt, setGroup m gid (withRecords g rs))
          end
      end
  end.

(** [stopGroup]: its critical section, and the condition it waits for.  The
    cancel function of a pillow without a command does nothing. *)
Definition isDone (r : record) : bool := match rPc r with PcDone => true | _ => false end.
Definition cancelRecord (r : record) : record :=
  if bool_decide (commandOf (rSpec r) = []) then r else withCancel r.
Definition stopGroup (g : group) : group := mkGroup (gBed g) (gBedID g) (cancelRecord <$> gRecords g) true.
Definition groupDone (g : group) : bool := forallb isDone (gRecords g).

(** The last section of [Release], after [stopGroup] returned. *)
Definition releaseGroup (m : Manager) (b gid : Z) : Manager :=
  if bool_decide (gGroups m !! b = Some gid)
  then mkManager (gShared m) (gHeap m) (delete b (gGroups m)) (freshGroup m) (gClosed m) else m.

(** [Close] refuses new groups, then releases those registered. *)
Definition closeManager (m : Manager) : Manager := mkManager (gShared m) (gHeap m) (gGroups m) (freshGroup m) true.

(** ** Interleavings *)

Definition withGShared (m : Manager) (s : shared) : Manager := mkManager s (gHeap m) (gGroups m) (freshGroup m) (gClosed m).
Definition exitProcess (o : ProcessOutcome) (p : process) : process :=
  mkProcess (pExecution p) (pExecutor p) (pCommand p) (Some (default o (pExit p))).

Inductive pillow_step : Manager → Manager → Prop :=
| ps_supervise m gid g i r ev s' r' :
    gHeap m !! gid = Some g → gRecords g !! i = Some r → sup_step (gBed g) (gBedID g) (gShared m) r ev = Some (s', r') →
    pillow_step m (setGroup (withGShared m s') gid (withRecords g (<[i := r']> (gRecords g))))
| ps_exit m o id : pillow_step m (withGShared m
    (mkShared (net (gShared m)) (alter (exitProcess o) id (procs (gShared m))) (freshProc (gShared m))))
| ps_prepare m b bedID specs : pillow_step m (PrepareBed m b bedID specs).2
| ps_restart m b name : pillow_step m (Restart m b name).2
| ps_stop m gid g : gHeap m !! gid = Some g → pillow_step m (setGroup m gid (stopGroup g))
| ps_release m b gid g : gHeap m !! gid = Some g → gStopped g = true → groupDone g = true → pillow_step m (releaseGroup m b gid)
| ps_close m : pillow_step m (closeManager m)
| ps_other_reserve m owner scope address probe : let n := net (gShared m) in
    pillow_step m (withGShared m (withNet (gShared m) (withPorts n (Reserve (ports n) owner scope address probe).2)))
| ps_other_listen m owner address bind : let n := net (gShared m) in
    pillow_step m (withGShared m (withNet (gShared m) (withPorts n (Listen (ports n) owner address bind).2)))
| ps_other_release m a closes : let n := net (gShared m) in ~ held n a →
    pillow_step m (withGShared m (withNet (gShared m) (withPorts n (ReleasePort (ports n) a closes).2))).

Inductive pillow_reach : Manager → Prop :=
| pr_new n : map_reach n → mappings n = ∅ → pillow_reach (mkManager (mkShared n ∅ 0) ∅ ∅ 0 false)
| pr_step m m' : pillow_reach m → pillow_step m m' → pillow_reach m'.
