(* ===== verification/PillowInv.v ===== *)
(** * PillowInv: the invariant of supervision

    What a record owns at every point of its goroutine ([rec_ok]), that one step
    keeps it and disturbs no other record ([effect]), and the invariant of the
    whole manager under every interleaving ([pillow_inv]). *)

From S2P Require Import Prelude Netip Bed PortAlloc PortMappings Pillow.

(** ** What a point of the goroutine owns *)

Definition pcProc (pc : pcs) : option Z :=
  match pc with
  | PcBind p _ | PcSelect p _ _ | PcChecked p _ _ _ | PcPublish p _ _ _ | PcWithdraw p _ _ | PcStop p _ => Some p
  | _ => None
  end.

(** The mappings a loop has not reached yet. *)
Definition pcTodo (pc : pcs) : option (list Z) :=
  match pc with PcBind _ todo | PcPublish _ _ _ todo | PcWithdraw _ todo _ => Some todo | _ => None end.

(** Points that hold no mapping. *)
Definition pcFree (pc : pcs) : bool :=
  match pc with PcLoop | PcRun | PcNetwork | PcReturn _ | PcBackoff _ | PcIdle | PcDone => true | _ => false end.

(** Points where the field [mappings] shows the mappings of the run. *)
Definition pcShared (pc : pcs) : bool :=
  match pc with
  | PcLaunch | PcBind _ _ | PcSelect _ _ _ | PcChecked _ _ _ _ | PcPublish _ _ _ _ | PcWithdraw _ _ _ | PcStop _ _ => true
  | _ => false
  end.

(** The declared ports still to be reserved, once reservation has begun. *)
Definition pcRest (pc : pcs) : option (list PillowPort) :=
  match pc with
  | PcReserve _ _ todo => Some todo
  | PcLaunch | PcBind _ _ | PcSelect _ _ _ | PcChecked _ _ _ _ | PcPublish _ _ _ _ => Some []
  | _ => None
  end.

(** Points of a running process. *)
Definition pcRunning (pc : pcs) : option Z :=
  match pc with PcSelect p _ _ | PcChecked p _ _ _ | PcPublish p _ _ _ => Some p | _ => None end.
Definition pcServing (pc : pcs) : bool :=
  match pc with PcSelect _ _ b | PcChecked _ _ b _ => b | _ => false end.

Definition execOf (s : shared) (proc : Z) : string :=
  match procs s !! proc with Some p => pExecution p | None => "" end.

(** The state of mapping [id] at a point. *)
Definition want (s : shared) (pc : pcs) (id : Z) (p : PortMapping) : Prop :=
  match pc with
  | PcReserve _ _ _ | PcLaunch => mapState p = MapReserved
  | PcBind proc todo => mapState p = MapReserved ∧ (id ∉ todo → mapExecution p = execOf s proc)
  | PcSelect proc _ published | PcChecked proc _ published _ =>
      mapState p = (if published then MapListening else MapReserved) ∧ mapExecution p = execOf s proc
  | PcPublish proc _ _ todo =>
      (id ∈ todo → mapState p = MapReserved) ∧ (id ∉ todo → mapState p = MapListening) ∧ mapExecution p = execOf s proc
  | _ => True
  end.

Definition staged (s : shared) (pc : pcs) (ids : list Z) : Prop :=
  match pc, ids with
  | PcRelease 1 _, id :: _ => id ∈ releasing (net s)
  | PcRelease (S (S _)) _, id :: _ => id ∈ forgetting (net s)
  | _, _ => True
  end.

Record rec_ok (s : shared) (b : Z) (r : record) : Prop := {
  ro_maps : ∀ id, id ∈ lMaps r → ∃ p, mappings (net s) !! id = Some p ∧ mapBed p = b ∧ want s (rPc r) id p;
  ro_nodup : NoDup (lMaps r);
  ro_todo : ∀ todo, pcTodo (rPc r) = Some todo → ∃ past, lMaps r = past ++ todo;
  ro_free : pcFree (rPc r) = true → lMaps r = [] ∧ rMaps r = [];
  ro_names : ∀ rest, pcRest (rPc r) = Some rest →
    (mapName <$> resolveMaps (net s) (lMaps r)) ++ (PortName <$> rest) = PortName <$> Ports (rSpec r);
  ro_shared : pcShared (rPc r) = true → rMaps r = lMaps r;
  ro_unshared : ∀ sc h todo, rPc r = PcReserve sc h todo → rMaps r = [];
  ro_proc : ∀ proc, pcProc (rPc r) = Some proc → is_Some (procs s !! proc);
  ro_running : ∀ proc, pcRunning (rPc r) = Some proc → stPhase (rStatus r) = PRunning ∧ stExecution (rStatus r) = execOf s proc;
  ro_ready : stReady (rStatus r) = true → pcServing (rPc r) = true ∨ (rPc r = PcDone ∧ commandOf (rSpec r) = []);
  ro_staged : staged s (rPc r) (lMaps r);
}.

(** ** One step of one goroutine *)

Record effect (b : Z) (s : shared) (r : record) (s' : shared) (r' : record) : Prop := {
  fx_reach : map_reach (net s');
  fx_ok : rec_ok s' b r';
  fx_spec : rSpec r' = rSpec r;
  fx_frame : ∀ id, id < freshMapping (net s) → id ∉ lMaps r → mappings (net s') !! id = mappings (net s) !! id;
  fx_maps : ∀ id, id ∈ lMaps r' → id ∈ lMaps r ∨ freshMapping (net s) <= id;
  fx_fresh : freshMapping (net s) <= freshMapping (net s');
  fx_tokens : releasing (net s) ⊆ releasing (net s') ∧ forgetting (net s) ⊆ forgetting (net s');
  fx_beds : ∀ k id, beds (net s') !! k = Some id → (id ∈ lMaps r' ∧ k.1 = b) ∨ (beds (net s) !! k = Some id ∧ id ∉ lMaps r);
  fx_procs : ∀ id, id < freshProc s → pcProc (rPc r) ≠ Some id → procs s' !! id = procs s !! id;
  fx_proc : ∀ id, pcProc (rPc r') = Some id → pcProc (rPc r) = Some id ∨ id = freshProc s;
  fx_live : ∀ id, is_Some (procs s' !! id) → pcProc (rPc r') = Some id ∨ (is_Some (procs s !! id) ∧ pcProc (rPc r) ≠ Some id);
  fx_freshp : freshProc s <= freshProc s' ∧ (∀ id, is_Some (procs s !! id) → id < freshProc s) →
    ∀ id, is_Some (procs s' !! id) → id < freshProc s';
  fx_freshm : freshProc s <= freshProc s';
}.

(** Update never leaves a pillow ready outside of running. *)
Lemma update_ready fn s : stReady (update fn s) = true → stPhase (fn s) = PRunning ∧ stReady (fn s) = true.
Proof. unfold update. case_bool_decide; simpl; done. Qed.
Lemma update_running fn s : stPhase (fn s) = PRunning → update fn s = fn s.
Proof. intros H. unfold update. by rewrite bool_decide_true. Qed.

Lemma beds_owned s b r k id :
  map_reach (net s) → rec_ok s b r → beds (net s) !! k = Some id → id ∈ lMaps r → k.1 = b.
Proof.
  intros Hn%map_reach_inv Hr Hk Hid. destruct (ro_maps _ _ _ Hr id Hid) as (p&Hp&Hb&_).
  destruct k as [b' n]. destruct (mi_names _ Hn b' n id Hk) as (q&Hq&Eb&_). simpl. congruence.
Qed.

(** A step that leaves the shared state alone. *)
Lemma effect_pure s b r r' :
  map_reach (net s) → rec_ok s b r → rec_ok s b r' → rSpec r' = rSpec r → lMaps r' = lMaps r →
  pcProc (rPc r') = pcProc (rPc r) → effect b s r s r'.
Proof.
  intros Hn Hr Hr' Hs Hm Hp. split; auto; try lia.
  - intros id. rewrite Hm. auto.
  - intros k id Hk. destruct (decide (id ∈ lMaps r)) as [Hid|]; [left|by right]. rewrite Hm. split; [done|].
    by eapply (beds_owned s b r).
  - intros id. rewrite Hp. auto.
  - intros id Hid. rewrite Hp. destruct (decide (pcProc (rPc r) = Some id)); auto.
  - intros [_ H]. done.
Qed.

(** [rec_ok] when only the point and the status change, mapping by mapping. *)
Ltac rec_pure :=
  match goal with
  | H : rec_ok _ _ ?r, Hpc : rPc ?r = _ |- rec_ok _ _ _ =>
      destruct H as [? ? ? ? ? ? ? ? ? ? ?]; rewrite Hpc in *; simpl in *;
      split; simpl in *; rewrite ?Hpc in *; simpl in *
  end; try done; auto;
  try match goal with
  | H : stReady _ = true → _ |- stReady _ = true → _ =>
      let E := fresh in intros E; destruct (H E) as [?|[? ?]]; by auto
  | H : ∀ id, id ∈ lMaps _ → ∃ p, _ |- ∀ id, id ∈ lMaps _ → ∃ p, _ =>
      let i := fresh "i" in let Hi := fresh in let p := fresh "p" in
      intros i Hi; destruct (H i Hi) as (p&?&?&?); exists p; split_and!; intuition eauto; done
  | H : stReady _ = true → _ |- stReady (update _ _) = true → _ =>
      let E := fresh in intros [? E]%update_ready; simpl in E; (done || (destruct (H E) as [?|[? ?]]; by auto))
  end.

(** ** Operations on a mapping keep its identity *)

Lemma Bind_same p ex : mapBed (Bind p ex) = mapBed p ∧ mapName (Bind p ex) = mapName p ∧
  mapState (Bind p ex) = mapState p ∧ mapExecution (Bind p ex) = ex.
Proof. done. Qed.

Lemma Publish_same pm p bind e pm' p' : Publish pm p bind = (e, pm', p') →
  mapBed p' = mapBed p ∧ mapName p' = mapName p ∧ mapExecution p' = mapExecution p ∧ (e = None → mapState p' = MapListening).
Proof.
  unfold Publish. destruct (negb _); [by intros [= <- <- <-]|]. destruct (Confirm _ _) as [[|] ?]; [|by intros [= <- <- <-]].
  destruct (PortPublish _); [|by intros [= <- <- <-]]. destruct (mapPrivate p); [|by intros [= <- <- <-]].
  destruct (Listen _ _ _ _) as [[|] ?]; by intros [= <- <- <-].
Qed.

Lemma Withdraw_same pm p closes ok pm' p' : Withdraw pm p closes = (ok, pm', p') → mapBed p' = mapBed p ∧ mapName p' = mapName p.
Proof.
  unfold Withdraw. case_bool_decide; [by intros [= <- <- <-]|]. destruct (mapForward p); [|by intros [= <- <- <-]].
  destruct (ReleasePort _ _ _) as [[] ?]; by intros [= <- <- <-].
Qed.

Lemma releaseAllocation_same pm p closes ok pm' p' :
  releaseAllocation pm p closes = (ok, pm', p') → mapBed p' = mapBed p ∧ mapName p' = mapName p.
Proof. unfold releaseAllocation. destruct (ReleasePort _ _ _) as [[] ?]; by intros [= <- <- <-]. Qed.

Lemma resolve_insert (m m' : PortMappings) id p p' ids :
  mappings m' = <[id := p']> (mappings m) → mappings m !! id = Some p → mapName p' = mapName p →
  mapName <$> resolveMaps m' ids = mapName <$> resolveMaps m ids.
Proof.
  intros Hm Hp Hname. unfold resolveMaps. induction ids as [|j ids IH]; csimpl; [done|]. rewrite Hm in *.
  destruct (decide (id = j)) as [->|Hj].
  - rewrite lookup_insert_eq, Hp. csimpl. by rewrite Hname, IH.
  - rewrite lookup_insert_ne by done. destruct (_ !! j); csimpl; by rewrite IH.
Qed.

Lemma resolve_frame (m m' : PortMappings) ids :
  (∀ id, id ∈ ids → mappings m' !! id = mappings m !! id) → resolveMaps m' ids = resolveMaps m ids.
Proof.
  unfold resolveMaps. induction ids as [|j ids IH]; csimpl; [done|]. intros H. rewrite H by left.
  rewrite IH; [done|]. intros id Hid. apply H. by right.
Qed.

(** A step on one mapping of the record. *)
Lemma effect_map s b r id p' s' r' :
  map_reach (net s) → rec_ok s b r → map_reach (net s') → rec_ok s' b r' → rSpec r' = rSpec r →
  id ∈ lMaps r → mappings (net s') = <[id := p']> (mappings (net s)) → beds (net s') = beds (net s) →
  freshMapping (net s') = freshMapping (net s) →
  releasing (net s) ⊆ releasing (net s') → forgetting (net s) ⊆ forgetting (net s') →
  procs s' = procs s → freshProc s' = freshProc s → lMaps r' = lMaps r → pcProc (rPc r') = pcProc (rPc r) →
  effect b s r s' r'.
Proof.
  intros Hn Hr Hn' Hr' Hs Hid Hm Hb Hf Ht1 Ht2 Hps Hfp Hl Hp.
  split; rewrite ?Hb, ?Hm, ?Hps, ?Hfp, ?Hl, ?Hp, ?Hf; auto; try lia.
  - intros j _ Hj. apply lookup_insert_ne. by intros ->.
  - intros k j Hk. destruct (decide (j ∈ lMaps r)) as [Hj|]; [left|by right]. split; [done|]. by eapply (beds_owned s b r).
  - intros j Hj. destruct (decide (pcProc (rPc r) = Some j)); auto.
  - intros [_ H]. done.
Qed.

(** What [ro_maps] asks of the mappings after a change of one of them. *)
Lemma maps_insert s b r id p p' s' pc' :
  rec_ok s b r → mappings (net s) !! id = Some p → id ∈ lMaps r →
  mappings (net s') = <[id := p']> (mappings (net s)) → mapBed p' = mapBed p → want s' pc' id p' →
  (∀ j q, j ∈ lMaps r → j ≠ id → want s (rPc r) j q → want s' pc' j q) →
  ∀ j, j ∈ lMaps r → ∃ q, mappings (net s') !! j = Some q ∧ mapBed q = b ∧ want s' pc' j q.
Proof.
  intros Hr Hp Hid Hm Hb Hw Hrest j Hj. destruct (ro_maps _ _ _ Hr j Hj) as (q&Hq&Hqb&Hqw). rewrite Hm.
  destruct (decide (j = id)) as [->|Hne].
  - exists p'. rewrite lookup_insert_eq. simplify_eq. auto.
  - exists q. rewrite lookup_insert_ne by done. auto.
Qed.

(** Entering the deferred cleanup, and recording listener evidence. *)
Lemma cleanup_ok s s' b r proc x :
  rec_ok s b r → pcRunning (rPc r) = Some proc → procs s' = procs s →
  (∀ id, id ∈ lMaps r → ∃ p, mappings (net s') !! id = Some p ∧ mapBed p = b ∧ True) → rec_ok s' b (cleanup proc x r).
Proof.
  intros Hr Hp Hps Hm.
  assert (pcShared (rPc r) = true ∧ pcProc (rPc r) = Some proc) as [Hs Hq] by (destruct (rPc r); simplify_eq/=; done).
  split; simpl; try done.
  - apply Hr.
  - intros todo [= <-]. by exists [].
  - intros _. by apply Hr.
  - intros q [= <-]. rewrite Hps. by apply Hr.
Qed.
Lemma cleanup_same s b r proc x : rec_ok s b r → pcRunning (rPc r) = Some proc → rec_ok s b (cleanup proc x r).
Proof.
  intros Hr Hp. apply (cleanup_ok s); try done. intros id Hid. destruct (ro_maps _ _ _ Hr id Hid) as (p&?&?&_). eauto.
Qed.

Lemma listener_ok s b r proc l : rec_ok s b r → pcRunning (rPc r) = Some proc → rec_ok s b (withStatus (setListener l) r).
Proof.
  intros Hr Hp. destruct (ro_running _ _ _ Hr proc Hp) as [Hph He].
  destruct Hr as [H1 H2 H3 H4 H5 H6 H7 H8 H9 H10 H11]. unfold withStatus. rewrite update_running by done.
  by split.
Qed.

(** What [Reserve] changes. *)
Lemma reserveMapping_change m b bedID spec name pillow scope host probe res m' :
  reserveMapping m b bedID spec name pillow scope host probe = (res, m') →
  releasing m' = releasing m ∧ forgetting m' = forgetting m ∧
  match res with
  | Err _ => mappings m' = mappings m ∧ beds m' = beds m ∧ freshMapping m' = freshMapping m
  | Ok id => id = freshMapping m ∧ beds m' = <[(b, name) := id]> (beds m) ∧ freshMapping m' = freshMapping m + 1 ∧
      ∃ p, mappings m' = <[id := p]> (mappings m) ∧ mapBed p = b ∧ mapName p = name ∧ mapState p = MapReserved
  end.
Proof.
  unfold reserveMapping. destruct (findPort _ name) as [sp|] eqn:Hf; [|by intros [= <- <-]].
  apply findPort_name in Hf. case_bool_decide; [by intros [= <- <-]|].
  destruct (Reserve _ _ _ _ _) as [[a|e] pm]; intros [= <- <-]; [|done]. do 5 (split; [done|]). eexists. done.
Qed.

Section steps.
Variables (b : Z) (bedID : string) (s : shared) (r : record).
Hypothesis Hn : map_reach (net s).
Hypothesis Hr : rec_ok s b r.
Implicit Types (ev : event).

Lemma loop_effect ev (s' : shared) (r' : record) : rPc r = PcLoop → stepLoop s r ev = Some (s', r') → effect b s r s' r'.
Proof using Hn Hr.
  intros Hpc. unfold stepLoop. destruct ev; try done. intros [= <- <-].
  apply effect_pure; simpl; auto; [|by rewrite Hpc]. rec_pure.
Qed.

Lemma run_effect ev (s' : shared) (r' : record) : rPc r = PcRun → stepRun s r ev = Some (s', r') → effect b s r s' r'.
Proof using Hn Hr.
  intros Hpc. unfold stepRun. destruct (rCancelled r), ev as [|[]| | | | | | | | | | |]; try done; intros [= <- <-];
    (apply effect_pure; simpl; auto; [|by rewrite Hpc]); rec_pure.
Qed.

Lemma network_effect ev (s' : shared) (r' : record) : rPc r = PcNetwork → stepNetwork s r ev = Some (s', r') → effect b s r s' r'.
Proof using Hn Hr.
  intros Hpc. unfold stepNetwork. destruct (ro_free _ _ _ Hr) as [El Es]; [by rewrite Hpc|]. case_bool_decide as Hp.
  - destruct ev; try done. intros [= <- <-]. apply effect_pure; simpl; auto; [|by rewrite Hpc].
    rec_pure; rewrite ?El, ?Es; auto.
    + by intros ? ?%elem_of_nil.
    + intros rest [= <-]. simpl. by rewrite Hp.
  - destruct ev as [| |[[scope host]|e]| | | | | | | | | |]; try done; intros [= <- <-];
      (apply effect_pure; simpl; auto; [|by rewrite Hpc]); rec_pure; rewrite ?El, ?Es; auto.
    + by intros ? ?%elem_of_nil.
    + intros rest [= <-]. done.
Qed.

Lemma launch_effect ev (s' : shared) (r' : record) : rPc r = PcLaunch → stepLaunch s r ev = Some (s', r') →
  (∀ id, is_Some (procs s !! id) → id < freshProc s) → effect b s r s' r'.
Proof using Hn Hr.
  intros Hpc. unfold stepLaunch. destruct ev as [| | | |[[execution executor]|e]| | | | | | | |]; try done; intros [= <- <-] Hfp.
  2:{ apply effect_pure; simpl; auto; [|by rewrite Hpc]. rec_pure. }
  assert (∀ id, id ∈ lMaps r → is_Some (mappings (net s) !! id)) as Hx
    by (intros id Hid; destruct (ro_maps _ _ _ Hr id Hid) as (p&Hp&_); eauto).
  split; simpl; auto; try lia.
  - rec_pure.
    + intros todo [= <-]. by exists [].
    + intros proc [= <-]. rewrite lookup_insert_eq. eauto.
  - intros k id Hk. destruct (decide (id ∈ lMaps r)) as [Hj|]; [left|by right]. split; [done|]. by eapply (beds_owned s b r).
  - intros id Hid _. by rewrite lookup_insert_ne by lia.
  - intros id [= <-]. auto.
  - intros id. rewrite Hpc. simpl. destruct (decide (id = freshProc s)) as [->|]; [by left|].
    rewrite lookup_insert_ne by done. auto.
  - intros _ id. destruct (decide (id = freshProc s)) as [->|]; [lia|]. rewrite lookup_insert_ne by done.
    intros Hi%Hfp. lia.
Qed.

Lemma backoff_effect n ev (s' : shared) (r' : record) : rPc r = PcBackoff n → stepBackoff s r ev = Some (s', r') → effect b s r s' r'.
Proof using Hn Hr.
  intros Hpc. unfold stepBackoff. destruct ev; try done; repeat case_match; try done; intros [= <- <-];
    (apply effect_pure; simpl; auto; [|by rewrite Hpc]); rec_pure.
Qed.

Lemma idle_effect ev (s' : shared) (r' : record) : rPc r = PcIdle → stepIdle s r ev = Some (s', r') → effect b s r s' r'.
Proof using Hn Hr.
  intros Hpc. unfold stepIdle. destruct ev; try done; repeat case_match; try done; intros [= <- <-];
    (apply effect_pure; simpl; auto; [|by rewrite Hpc]); rec_pure.
Qed.

Lemma return_effect x : rPc r = PcReturn x → effect b s r s (afterRun x r).
Proof using Hn Hr.
  intros Hpc. unfold afterRun. repeat case_match; (apply effect_pure; simpl; auto; [|by rewrite Hpc]); rec_pure;
    intros [Hph _]%update_ready; repeat case_match; done.
Qed.

Lemma select_effect proc t published ev (s' : shared) (r' : record) :
  rPc r = PcSelect proc t published → stepSelect s r proc t published ev = Some (s', r') → effect b s r s' r'.
Proof using Hn Hr.
  intros Hpc. assert (pcRunning (rPc r) = Some proc) as Hp by (by rewrite Hpc).
  assert (pcProc (rPc r) = Some proc) as Hq by (by rewrite Hpc). unfold stepSelect. destruct ev; try done.
  - case_match; [|done]. intros [= <- <-]. apply effect_pure; simpl; auto. by apply cleanup_same.
  - case_match; [|done]. intros [= <- <-]. apply effect_pure; simpl; auto. apply cleanup_same; [|done]. by destruct Hr.
  - case_match; [|done]. intros [= <- <-]. apply effect_pure; simpl; auto. by apply cleanup_same.
  - destruct (readinessCheck _ _ _) as [evidence res]. intros [= <- <-].
    set (r1 := match evidence with Some _ => _ | None => _ end).
    assert (rec_ok s b r1 ∧ rSpec r1 = rSpec r ∧ lMaps r1 = lMaps r ∧ rPc r1 = rPc r) as (H1&H2&H3&H4).
    { unfold r1. destruct evidence; split_and!; auto. by eapply listener_ok. }
    clearbody r1. destruct res as [res|e]; (apply effect_pure; simpl; auto); [|apply cleanup_same; [done|congruence]].
    rewrite Hpc in H4. clear Hr Hpc Hp Hq. rec_pure.
Qed.

Lemma finish_ok r1 proc t published res :
  rec_ok s b r1 → pcRunning (rPc r1) = Some proc →
  (∀ id p, id ∈ lMaps r1 → want s (rPc r1) id p → want s (PcSelect proc t published) id p) →
  (resReady res = true → published = true) → rec_ok s b (finishCheck proc t published res r1).
Proof using Type.
  intros H1 Hp Hw Hpub. destruct (ro_running _ _ _ H1 proc Hp) as [Hph He].
  assert (pcShared (rPc r1) = true ∧ pcProc (rPc r1) = Some proc ∧ pcRest (rPc r1) = Some []) as (Hs&Hq&Hre)
    by (destruct (rPc r1); simplify_eq/=; done).
  unfold finishCheck, withStatus. rewrite update_running by done. split; simpl; try done.
  - intros id Hid. destruct (ro_maps _ _ _ H1 id Hid) as (p&?&?&?). exists p. do 2 (split; [done|]). by apply (Hw id p).
  - apply H1.
  - intros rest [= <-]. by apply H1.
  - intros _. by apply H1.
  - intros q [= <-]. by apply H1.
  - intros q [= <-]. done.
  - auto.
Qed.

Lemma checked_effect proc t published res ev (s' : shared) (r' : record) :
  rPc r = PcChecked proc t published res → stepChecked s r proc t published res ev = Some (s', r') → effect b s r s' r'.
Proof using Hn Hr.
  intros Hpc. assert (pcRunning (rPc r) = Some proc) as Hp by (by rewrite Hpc).
  assert (pcProc (rPc r) = Some proc) as Hq by (by rewrite Hpc). unfold stepChecked. destruct ev; try done.
  - case_match; [done|]. destruct (observe t res _) as [res' t']. intros [= <- <-].
    destruct (resReady res' && negb published) eqn:E.
    + apply andb_true_iff in E as [_ E]. apply negb_true_iff in E as ->. apply effect_pure; simpl; auto. rec_pure.
      intros todo [= <-]. by exists [].
    + apply effect_pure; simpl; auto. apply finish_ok; [done|done|by rewrite Hpc|].
      intros E'. rewrite E' in E. by destruct published.
  - case_match; [|done]. intros [= <- <-]. apply effect_pure; simpl; auto. by apply cleanup_same.
  - case_match; [|done]. intros [= <- <-]. apply effect_pure; simpl; auto. by apply cleanup_same.
Qed.

Lemma stop_effect proc x ev (s' : shared) (r' : record) :
  rPc r = PcStop proc x → stepStop s r proc x ev = Some (s', r') → effect b s r s' r'.
Proof using Hn Hr.
  intros Hpc. unfold stepStop. destruct ev as [| | | | | | | | | | |[o|]|]; try done; intros [= <- <-].
  2:{ apply effect_pure; simpl; auto. rec_pure. }
  split; simpl; auto; try lia.
  - rec_pure.
  - intros k id Hk. destruct (decide (id ∈ lMaps r)) as [Hj|]; [left|by right]. split; [done|]. by eapply (beds_owned s b r).
  - intros id _ Hid. apply lookup_delete_ne. intros ->. by rewrite Hpc in Hid.
  - done.
  - intros id [Hne ?]%lookup_delete_is_Some. rewrite Hpc. right. split; [done|]. simpl. congruence.
  - intros [_ H] id [_ ?]%lookup_delete_is_Some. auto.
Qed.

(** The head of a loop over the mappings. *)
Lemma todo_head todo id rest :
  pcTodo (rPc r) = Some todo → todo = id :: rest →
  id ∈ lMaps r ∧ id ∉ rest ∧ ∃ past, lMaps r = past ++ rest ∧ ∀ j, j ∈ lMaps r → j ≠ id → (j ∈ rest ↔ j ∈ id :: rest).
Proof using Hr.
  intros Ht ->. destruct (ro_todo _ _ _ Hr _ Ht) as [past E]. pose proof (ro_nodup _ _ _ Hr) as Hnd. rewrite E in *.
  split_and!.
  - apply elem_of_app. right. left.
  - apply NoDup_app in Hnd as (_&_&Hnd). by apply NoDup_cons in Hnd as [? _].
  - exists (past ++ [id]). split; [by rewrite <-app_assoc|]. intros j _ Hj. rewrite elem_of_cons. naive_solver.
Qed.

Lemma pillow_bind_effect proc todo ev (s' : shared) (r' : record) :
  rPc r = PcBind proc todo → stepBind s r proc todo ev = Some (s', r') → effect b s r s' r'.
Proof using Hn Hr.
  intros Hpc. unfold stepBind. destruct (procs s !! proc) as [q|] eqn:Hq; [|done].
  assert (execOf s proc = pExecution q) as He by (unfold execOf; by rewrite Hq).
  destruct todo as [|id todo], ev; try done.
  - intros [= <- <-]. apply effect_pure; simpl; auto; [|by rewrite Hpc]. rec_pure.
    + intros id Hid. destruct (ro_maps0 id Hid) as (p&?&?&?&Hx). exists p. split_and!; auto. apply Hx. by apply not_elem_of_nil.
    + intros proc' [= <-]. unfold execOf. by rewrite Hq.
  - destruct (mappings (net s) !! id) as [mp|] eqn:Hmp; [|done]. intros [= <- <-].
    destruct (todo_head (id :: todo) id todo) as (Hid&Hnot&(past&Hpast&Hiff)); [by rewrite Hpc|done|].
    destruct (ro_maps _ _ _ Hr id Hid) as (p&Hp&Hb&Hw). rewrite Hpc in Hw. rewrite Hmp in Hp. injection Hp as <-.
    destruct Hw as [Hst _]. set (mp' := Bind mp (pExecution q)). set (s1 := withNet s (withMapping (net s) id mp')).
    apply (effect_map _ _ _ id mp'); simpl; auto; [| |by rewrite Hpc].
    + apply (mr_step (net s)); [done|]. by apply mp_bind.
    + pose proof (maps_insert s b r id mp mp' s1 (PcBind proc todo) Hr Hmp Hid eq_refl eq_refl (conj Hst (λ _, eq_sym He))) as Hmaps.
      pose proof (resolve_insert (net s) (net s1) id mp mp' (lMaps r) eq_refl Hmp eq_refl) as Hres.
      assert (∀ j p, j ∈ lMaps r → j ≠ id → want s (rPc r) j p → want s1 (PcBind proc todo) j p) as Hrest.
      { intros j p Hj Hne. rewrite Hpc. simpl. intros [? Hx]. split; [done|]. intros Hj'. apply Hx. by rewrite <-Hiff. }
      specialize (Hmaps Hrest). rec_pure; [|by rewrite Hres].
      intros todo' [= <-]. eauto.
Qed.

Lemma publish_effect proc t res todo ev (s' : shared) (r' : record) :
  rPc r = PcPublish proc t res todo → stepPublish s r proc t res todo ev = Some (s', r') → effect b s r s' r'.
Proof using Hn Hr.
  intros Hpc. assert (pcRunning (rPc r) = Some proc) as Hrun by (by rewrite Hpc). unfold stepPublish.
  destruct todo as [|id todo], ev; try done.
  - intros [= <- <-]. apply effect_pure; simpl; auto; [|by rewrite Hpc]. apply finish_ok; auto.
    intros id p _. rewrite Hpc. simpl. intros (_&Hx&?). split; [|done]. apply Hx. by apply not_elem_of_nil.
  - destruct (mappings (net s) !! id) as [mp|] eqn:Hmp; [|done].
    destruct (Publish _ _ _) as [[e pm] mp'] eqn:Hpub. intros [= <- <-].
    destruct (todo_head (id :: todo) id todo) as (Hid&Hnot&(past&Hpast&Hiff)); [by rewrite Hpc|done|].
    destruct (Publish_same _ _ _ _ _ _ Hpub) as (Hb'&Hn'&Hx'&Hl').
    destruct (ro_maps _ _ _ Hr id Hid) as (p&Hp&Hb&Hw). rewrite Hpc in Hw. rewrite Hmp in Hp. injection Hp as <-.
    destruct Hw as (_&_&Hexec). set (s1 := setNet s id pm mp').
    pose proof (resolve_insert (net s) (net s1) id mp mp' (lMaps r) eq_refl Hmp Hn') as Hres.
    apply (effect_map _ _ _ id mp'); simpl; auto.
    + apply (mr_step (net s)); [done|]. by eapply mp_publish.
    + destruct e as [e|].
      { apply (cleanup_ok s); auto. by apply (maps_insert s b r id mp mp' s1 (PcWithdraw proc [] (failRun Canceled))). }
      pose proof (maps_insert s b r id mp mp' s1 (PcPublish proc t res todo) Hr Hmp Hid eq_refl Hb') as Hmaps.
      assert (want s1 (PcPublish proc t res todo) id mp') as Hw by (split_and!; [done|auto|by rewrite Hx']).
      assert (∀ j p, j ∈ lMaps r → j ≠ id → want s (rPc r) j p → want s1 (PcPublish proc t res todo) j p) as Hrest.
      { intros j p Hj Hne. rewrite Hpc. simpl. rewrite <-(Hiff j Hj Hne). done. }
      specialize (Hmaps Hw Hrest). rec_pure; [|by rewrite Hres]. intros todo' [= <-]. eauto.
    + by destruct e.
    + by destruct e.
    + rewrite Hpc. by destruct e.
Qed.

Lemma withdraw_effect proc todo x ev (s' : shared) (r' : record) :
  rPc r = PcWithdraw proc todo x → stepWithdraw s r proc todo x ev = Some (s', r') → effect b s r s' r'.
Proof using Hn Hr.
  intros Hpc. unfold stepWithdraw. destruct todo as [|id todo], ev; try done.
  { intros [= <- <-]. apply effect_pure; simpl; auto; [|by rewrite Hpc]. rec_pure. }
  destruct (mappings (net s) !! id) as [mp|] eqn:Hmp; [|done].
  destruct (Withdraw _ _ _) as [[ok pm] mp'] eqn:Hw. intros [= <- <-].
  destruct (todo_head (id :: todo) id todo) as (Hid&_&(past&Hpast&_)); [by rewrite Hpc|done|].
  destruct (Withdraw_same _ _ _ _ _ _ Hw) as (Hb'&Hn').
  apply (effect_map _ _ _ id mp'); simpl; auto; [| |by rewrite Hpc].
  - apply (mr_step (net s)); [done|]. by eapply mp_withdraw.
  - pose proof (maps_insert s b r id mp mp' (setNet s id pm mp') (PcStop proc x) Hr Hmp Hid eq_refl Hb' I (λ _ _ _ _ _, I)) as Hmaps.
    rec_pure. intros todo' [= <-]. eauto.
Qed.

Lemma reserve_effect scope host todo ev (s' : shared) (r' : record) :
  rPc r = PcReserve scope host todo → stepReserve b bedID s r scope host todo ev = Some (s', r') → effect b s r s' r'.
Proof using Hn Hr.
  intros Hpc. unfold stepReserve. destruct todo as [|port todo], ev; try done.
  { intros [= <- <-]. apply effect_pure; simpl; auto; [|by rewrite Hpc]. rec_pure. }
  destruct (reserveMapping _ _ _ _ _ _ _ _ _) as [res m] eqn:Hres.
  assert (map_reach m) as Hm.
  { apply (mr_step (net s)); [done|]. replace m with (reserveMapping (net s) b bedID bedSpec (PortName port)
      (PillowName (rSpec r)) scope host probe).2 by (by rewrite Hres). apply mp_reserve. }
  apply reserveMapping_change in Hres as (Ht1&Ht2&Hc). destruct res as [id|e]; intros [= <- <-].
  2:{ destruct Hc as (Em&Eb&Ef). split; simpl; auto; try lia.
    - rec_pure. rewrite Em. intros id Hid. destruct (ro_maps0 id Hid) as (p&?&?&?). eauto.
    - intros id _ _. by rewrite Em.
    - by rewrite Ht1, Ht2.
    - rewrite Eb. intros k id Hk. destruct (decide (id ∈ lMaps r)); [left; split; [done|by eapply (beds_owned s b r)]|by right].
    - done.
    - rewrite Hpc. naive_solver.
    - intros [_ ?]. done. }
  destruct Hc as (Hid&Eb&Ef&p&Em&Hpb&Hpn&Hps).
  assert (∀ j, j ∈ lMaps r → j < freshMapping (net s)) as Hold.
  { intros j Hj. destruct (ro_maps _ _ _ Hr j Hj) as (q&Hq&_). by eapply mi_fresh; [apply map_reach_inv|]. }
  assert (∀ j, j ∈ lMaps r → mappings m !! j = mappings (net s) !! j) as Hsame.
  { intros j Hj. rewrite Em. apply lookup_insert_ne. specialize (Hold j Hj). lia. }
  split; simpl; auto; try lia.
  - assert (∀ j, j ∈ lMaps r ++ [id] → ∃ q, mappings m !! j = Some q ∧ mapBed q = b ∧ mapState q = MapReserved) as Hmaps.
    { intros j [Hj|Hj%list_elem_of_singleton]%elem_of_app.
      - rewrite Hsame by done. destruct (ro_maps _ _ _ Hr j Hj) as (q&?&?&Hw). rewrite Hpc in Hw. eauto.
      - subst j. exists p. by rewrite Em, lookup_insert_eq. }
    assert (NoDup (lMaps r ++ [id])) as Hnd.
    { apply NoDup_app. split_and!; [apply Hr| |apply NoDup_singleton]. intros j Hj ->%list_elem_of_singleton.
      apply Hold in Hj. lia. }
    assert (resolveMaps m (lMaps r ++ [id]) = resolveMaps (net s) (lMaps r) ++ [p]) as Hnames.
    { unfold resolveMaps. rewrite omap_app. f_equal; [by apply resolve_frame|]. simpl. by rewrite Em, lookup_insert_eq. }
    rec_pure; [|intros; by eapply ro_unshared0].
    intros rest [= <-]. rewrite Hnames, fmap_app, <-app_assoc. simpl. rewrite Hpn. exact (ro_names0 _ eq_refl).
  - intros j Hj _. rewrite Em. apply lookup_insert_ne. lia.
  - intros j [Hj|Hj%list_elem_of_singleton]%elem_of_app; [by left|right]. lia.
  - by rewrite Ht1, Ht2.
  - rewrite Eb. intros k j [[<- <-]|[Hk Hj]]%lookup_insert_Some; [left; split; [apply elem_of_app; right; left|done]|].
    destruct (decide (j ∈ lMaps r)); [left|by right]. split; [apply elem_of_app; by left|by eapply (beds_owned s b r)].
  - done.
  - rewrite Hpc. naive_solver.
  - intros [_ ?]. done.
Qed.

Lemma pillow_release_effect stage x ev (s' : shared) (r' : record) :
  rPc r = PcRelease stage x → stepRelease s r stage x ev = Some (s', r') → effect b s r s' r'.
Proof using Hn Hr.
  intros Hpc. unfold stepRelease. destruct (lMaps r) as [|id ids] eqn:El.
  { destruct ev; try done. intros [= <- <-]. apply effect_pure; simpl; auto; [|by rewrite Hpc]. rec_pure. }
  assert (id ∈ lMaps r) as Hid by (rewrite El; left).
  destruct (mappings (net s) !! id) as [mp|] eqn:Hmp; [|done].
  pose proof (ro_staged _ _ _ Hr) as Hst. rewrite Hpc, El in Hst. simpl in Hst.
  pose proof (ro_nodup _ _ _ Hr) as Hnd. rewrite El in Hnd. apply NoDup_cons in Hnd as [Hnot Hnd].
  destruct stage as [|[|stage]], ev; try done.
  - destruct (Withdraw _ _ _) as [[ok pm] mp'] eqn:Hw. destruct (Withdraw_same _ _ _ _ _ _ Hw) as (Hb'&_).
    pose proof (maps_insert s b r id mp mp' (setNet s id pm mp') (PcReturn x) Hr Hmp Hid eq_refl Hb' I (λ _ _ _ _ _, I)) as Hmaps.
    destruct ok; intros [= <- <-]; (apply (effect_map _ _ _ id mp'); simpl; auto; [| |try set_solver..]); try (by rewrite Hpc).
    + apply (mr_step (net s)); [done|]. by apply (mp_release_withdraw (net s) id mp closes pm mp').
    + rec_pure. rewrite El. set_solver.
    + apply (mr_step (net s)); [done|]. by eapply mp_withdraw.
    + rec_pure.
  - destruct (releaseAllocation _ _ _) as [[ok pm] mp'] eqn:Hw. destruct (releaseAllocation_same _ _ _ _ _ _ Hw) as (Hb'&_).
    pose proof (maps_insert s b r id mp mp' (setNet s id pm mp') (PcReturn x) Hr Hmp Hid eq_refl Hb' I (λ _ _ _ _ _, I)) as Hmaps.
    pose proof (mp_release_allocation (net s) id mp closes ok pm mp' Hmp Hst Hw) as Hstep.
    destruct ok; intros [= <- <-]; (apply (effect_map _ _ _ id mp'); simpl; auto; [| |try set_solver..]); try (by rewrite Hpc).
    + by apply (mr_step (net s)).
    + rec_pure. rewrite El. set_solver.
    + by apply (mr_step (net s)).
    + rec_pure.
  - intros [= <- <-]. destruct (ro_maps _ _ _ Hr id Hid) as (p&Hp&Hpb&_). rewrite Hmp in Hp. injection Hp as <-.
    split; simpl; auto; try lia.
    + apply (mr_step (net s)); [done|]. by apply mp_release_forget.
    + rec_pure. intros j Hj. apply ro_maps0. rewrite El. by right.
    + intros j Hj. left. rewrite El. by right.
    + intros k j Hk. assert (beds (net s) !! k = Some j ∧ (k ≠ (mapBed mp, mapName mp) ∨ j ≠ id)) as [Hk' Hkj].
      { case_bool_decide as Hreg; [apply lookup_delete_Some in Hk as [? ?]; auto|]. split; [done|].
        destruct (decide (j = id)) as [->|]; [|by right]. left. by intros ->. }
      rewrite El. destruct (decide (j = id)) as [->|Hne].
      * destruct Hkj as [Hkk|]; [|done]. destruct k as [bk nk].
        destruct (mi_names _ (map_reach_inv _ Hn) _ _ _ Hk') as (q&Hq&<-&<-). exfalso. apply Hkk. congruence.
      * destruct (decide (j ∈ ids)) as [Hj|Hj]; [left; split; [done|]|right; split; [done|set_solver]].
        apply (beds_owned s b r k j); auto. rewrite El. by right.
    + done.
    + rewrite Hpc. auto.
    + intros [_ ?]. done.
Qed.

(** Every step of a goroutine. *)
Lemma sup_effect ev (s' : shared) (r' : record) :
  sup_step b bedID s r ev = Some (s', r') → (∀ id, is_Some (procs s !! id) → id < freshProc s) → effect b s r s' r'.
Proof using Hn Hr.
  unfold sup_step. destruct (rPc r) eqn:Hpc; intros Hs Hf; try done;
    try (by eauto using loop_effect, run_effect, network_effect, reserve_effect, launch_effect, pillow_bind_effect, select_effect,
      checked_effect, publish_effect, withdraw_effect, stop_effect, pillow_release_effect, backoff_effect, idle_effect).
  destruct ev; try done. injection Hs as <- <-. by apply return_effect.
Qed.

End steps.

(** ** The manager *)

(** Record [i] of group [gid]. *)
Definition has (m : Manager) (gid : Z) (i : nat) (g : group) (r : record) : Prop :=
  gHeap m !! gid = Some g ∧ gRecords g !! i = Some r.

Record pillow_inv (m : Manager) : Prop := {
  pi_net : map_reach (net (gShared m));
  pi_rec : ∀ gid i g r, has m gid i g r → rec_ok (gShared m) (gBed g) r;
  pi_procs : ∀ id, is_Some (procs (gShared m) !! id) →
    id < freshProc (gShared m) ∧ ∃ gid i g r, has m gid i g r ∧ pcProc (rPc r) = Some id;
  pi_proc_apart : ∀ gid i g r gid' i' g' r' id, has m gid i g r → has m gid' i' g' r' →
    pcProc (rPc r) = Some id → pcProc (rPc r') = Some id → gid = gid' ∧ i = i';
  pi_beds : ∀ k id, beds (net (gShared m)) !! k = Some id → ∃ gid i g r, has m gid i g r ∧ gBed g = k.1 ∧ id ∈ lMaps r;
  pi_maps_apart : ∀ gid i g r gid' i' g' r' id, has m gid i g r → has m gid' i' g' r' →
    id ∈ lMaps r → id ∈ lMaps r' → gid = gid' ∧ i = i';
  pi_fresh : ∀ gid g, gHeap m !! gid = Some g → gid < freshGroup m;
  pi_groups : ∀ b gid, gGroups m !! b = Some gid → ∃ g, gHeap m !! gid = Some g ∧ gBed g = b;
  pi_retired : ∀ gid g, gHeap m !! gid = Some g → gGroups m !! gBed g = Some gid ∨ groupDone g = true;
}.

Lemma rec_frame s s' b r :
  rec_ok s b r → (∀ id, id ∈ lMaps r → mappings (net s') !! id = mappings (net s) !! id) →
  releasing (net s) ⊆ releasing (net s') → forgetting (net s) ⊆ forgetting (net s') →
  (∀ proc, pcProc (rPc r) = Some proc → pExecution <$> procs s' !! proc = pExecution <$> procs s !! proc) →
  rec_ok s' b r.
Proof.
  intros Hr Hm Ht1 Ht2 Hp.
  assert (∀ proc, pcProc (rPc r) = Some proc → execOf s' proc = execOf s proc ∧ is_Some (procs s' !! proc)) as Hx.
  { intros proc Hq. specialize (Hp proc Hq). destruct (ro_proc _ _ _ Hr proc Hq) as [q Hs]. rewrite Hs in Hp. unfold execOf.
    rewrite Hs. destruct (procs s' !! proc) as [q'|]; simplify_eq/=; eauto. }
  assert (∀ id p, want s (rPc r) id p → want s' (rPc r) id p) as Hw.
  { intros id p. destruct (rPc r); simpl; try done; (destruct (Hx proc eq_refl) as [-> _]; done). }
  destruct Hr as [H1 H2 H3 H4 H5 H6 H7 H8 H9 H10 H11]. split; auto.
  - intros id Hid. destruct (H1 id Hid) as (p&?&?&?). exists p. rewrite Hm by done. auto.
  - intros rest Hrest. rewrite (resolve_frame (net s) (net s')); auto.
  - intros proc Hq. by apply Hx.
  - intros proc Hq. destruct (Hx proc) as [-> _]; [|by apply H9]. by destruct (rPc r).
  - unfold staged in *. destruct (rPc r); try done. destruct stage as [|[|]], (lMaps r); set_solver.
Qed.

(** A change of a record that its owner does not make: a token or a cancellation. *)
Definition same_run (r r' : record) : Prop :=
  rSpec r' = rSpec r ∧ rStatus r' = rStatus r ∧ rMaps r' = rMaps r ∧ rPc r' = rPc r ∧ lMaps r' = lMaps r.
Lemma same_run_refl r : same_run r r.
Proof. done. Qed.
Lemma same_run_ok s b r r' : same_run r r' → rec_ok s b r → rec_ok s b r'.
Proof.
  destruct r, r'. unfold same_run. simpl. intros (->&->&->&->&->) [? ? ? ? ? ? ? ? ? ? ?]. by split.
Qed.

(** Replacing the records of a group by records in the same run. *)
Lemma inv_same_run m gid g g' :
  pillow_inv m → gHeap m !! gid = Some g → gBed g' = gBed g → Forall2 same_run (gRecords g) (gRecords g') →
  pillow_inv (setGroup m gid g').
Proof.
  intros [H1 H2 H3 H4 H5 H6 H7 H8 H9] Hg Hb Hrun.
  assert (∀ gi i x r, has (setGroup m gid g') gi i x r → ∃ x0 r0, has m gi i x0 r0 ∧ gBed x = gBed x0 ∧ same_run r0 r) as Hback.
  { intros gi i x r [Hx Hi]. simpl in Hx. apply lookup_insert_Some in Hx as [[<- <-]|[Hne Hx]].
    - destruct (Forall2_lookup_r _ _ _ _ _ Hrun Hi) as (r0&?&?). exists g, r0. by split_and!.
    - exists x, r. split_and!; done. }
  assert (∀ gi i x r, has m gi i x r → ∃ x' r', has (setGroup m gid g') gi i x' r' ∧ gBed x' = gBed x ∧ same_run r r') as Hfwd.
  { intros gi i x r [Hx Hi]. destruct (decide (gi = gid)) as [->|Hne].
    - simplify_eq. destruct (Forall2_lookup_l _ _ _ _ _ Hrun Hi) as (r'&?&?). exists g', r'. unfold has, setGroup. simpl.
      rewrite lookup_insert_eq. by split_and!.
    - exists x, r. unfold has, setGroup. simpl. rewrite lookup_insert_ne by done. by split_and!. }
  split; simpl; auto.
  - intros gi i x r (x0&r0&Hh&->&Hs)%Hback. eapply same_run_ok; [done|eauto].
  - intros id Hid. destruct (H3 id Hid) as (Hlt&gi&i&x&r&Hh&Hp). split; [done|].
    destruct (Hfwd _ _ _ _ Hh) as (x'&r'&?&_&(_&_&_&E&_)). exists gi, i, x', r'. by rewrite E.
  - intros gi i x r gi' i' x' r' id (x0&r0&Hh&_&(_&_&_&E&_))%Hback (x1&r1&Hh'&_&(_&_&_&E'&_))%Hback. rewrite E, E'. eauto.
  - intros k id Hk. destruct (H5 k id Hk) as (gi&i&x&r&Hh&Hbk&Hid).
    destruct (Hfwd _ _ _ _ Hh) as (x'&r'&?&?&(_&_&_&_&E)). exists gi, i, x', r'. rewrite E. split_and!; [done|congruence|done].
  - intros gi i x r gi' i' x' r' id (x0&r0&Hh&_&(_&_&_&_&E))%Hback (x1&r1&Hh'&_&(_&_&_&_&E'))%Hback. rewrite E, E'. eauto.
  - intros gi x [[<- _]|[_ Hx]]%lookup_insert_Some; eauto.
  - intros b gi Hbg. destruct (H8 b gi Hbg) as (x&Hx&Hxb). destruct (decide (gi = gid)) as [->|].
    + exists g'. rewrite lookup_insert_eq. simplify_eq. auto.
    + exists x. by rewrite lookup_insert_ne.
  - intros gi x [[<- <-]|[_ Hx]]%lookup_insert_Some; [|eauto]. rewrite Hb. destruct (H9 gid g Hg) as [?|Hd]; [by left|right].
    unfold groupDone in *. clear -Hd Hrun. induction Hrun as [|r r' l l' (_&_&_&E&_) _ IH]; [done|]. simpl in *.
    apply andb_true_iff in Hd as [Hd1 Hd2]. unfold isDone in *. rewrite E, Hd1. auto.
Qed.

Section supervise.
Variables (m : Manager) (gid : Z) (i : nat) (g : group) (r : record) (s' : shared) (r' : record).
Hypothesis Hm : pillow_inv m.
Hypothesis Hh : has m gid i g r.
Hypothesis He : effect (gBed g) (gShared m) r s' r'.
Hypothesis Hlive : rPc r ≠ PcDone.

Local Definition m' : Manager := setGroup (withGShared m s') gid (withRecords g (<[i := r']> (gRecords g))).

Lemma sup_back gi j x q : has m' gi j x q →
  (gi = gid ∧ j = i ∧ q = r' ∧ gBed x = gBed g) ∨ (~ (gi = gid ∧ j = i) ∧ ∃ x0, has m gi j x0 q ∧ gBed x = gBed x0).
Proof using Hh.
  clear He.
  destruct Hh as [Hg Hi]. intros [Hx Hq]. simpl in Hx. apply lookup_insert_Some in Hx as [[<- <-]|[Hne Hx]].
  - simpl in Hq. destruct (decide (j = i)) as [->|Hj].
    + rewrite list_lookup_insert_eq in Hq by (by eapply lookup_lt_Some). simplify_eq. auto.
    + rewrite list_lookup_insert_ne in Hq by done. right. split; [tauto|]. by exists g.
  - right. split; [naive_solver|]. by exists x.
Qed.

Lemma sup_self : ∃ g', has m' gid i g' r' ∧ gBed g' = gBed g.
Proof using Hh.
  clear He.
  destruct Hh as [Hg Hi]. eexists. unfold has, m'. simpl. rewrite lookup_insert_eq. split; [split; [done|]|done].
  simpl. rewrite list_lookup_insert_eq; [done|]. by eapply lookup_lt_Some.
Qed.

Lemma sup_other gi j x q : has m gi j x q → ~ (gi = gid ∧ j = i) → ∃ x', has m' gi j x' q ∧ gBed x' = gBed x.
Proof using Hh.
  clear He.
  destruct Hh as [Hg Hi]. intros [Hx Hq] Hne. unfold has, m'. simpl. destruct (decide (gi = gid)) as [->|].
  - exists (withRecords g (<[i := r']> (gRecords g))). rewrite lookup_insert_eq. simplify_eq. split; [|done].
    split; [done|]. simpl. rewrite list_lookup_insert_ne by naive_solver. done.
  - exists x. rewrite lookup_insert_ne by done. auto.
Qed.

Lemma sup_old id gi j x q : has m gi j x q → id ∈ lMaps q → id < freshMapping (net (gShared m)).
Proof using Hm.
  intros Hq Hid. destruct (ro_maps _ _ _ (pi_rec _ Hm _ _ _ _ Hq) id Hid) as (p&Hp&_).
  by eapply mi_fresh; [apply map_reach_inv, Hm|].
Qed.

Lemma sup_apart id gi j x q : has m gi j x q → ~ (gi = gid ∧ j = i) → id ∈ lMaps q → id ∉ lMaps r' ∧ id ∉ lMaps r.
Proof using Hm Hh He.
  intros Hq Hne Hid. assert (id ∉ lMaps r) as Hr by (intros Hr; apply Hne; by eapply (pi_maps_apart _ Hm)).
  split; [|done]. intros [?|Hf]%(fx_maps _ _ _ _ _ He); [done|]. pose proof (sup_old id gi j x q Hq Hid). lia.
Qed.

Lemma sup_proc_apart id gi j x q : has m gi j x q → ~ (gi = gid ∧ j = i) → pcProc (rPc q) = Some id →
  id < freshProc (gShared m) ∧ pcProc (rPc r) ≠ Some id ∧ pcProc (rPc r') ≠ Some id.
Proof using Hm Hh He.
  intros Hq Hne Hp. destruct (pi_procs _ Hm id) as [Hlt _]; [by apply (ro_proc _ _ _ (pi_rec _ Hm _ _ _ _ Hq))|].
  assert (pcProc (rPc r) ≠ Some id) as Hr by (intros Hr; apply Hne; by eapply (pi_proc_apart _ Hm)).
  split_and!; [done|done|]. intros [?| ->]%(fx_proc _ _ _ _ _ He); [done|lia].
Qed.

Lemma supervise_inv : pillow_inv m'.
Proof using Hm Hh He Hlive.
  split.
  - apply He.
  - intros gi j x q [(_&_&->&->)|(Hne&x0&Hq&->)]%sup_back; [apply He|]. eapply rec_frame; [by eapply (pi_rec _ Hm)|..].
    + intros id Hid. apply (fx_frame _ _ _ _ _ He); [by eapply sup_old|]. by eapply sup_apart.
    + apply (fx_tokens _ _ _ _ _ He).
    + apply (fx_tokens _ _ _ _ _ He).
    + intros p Hp. destruct (sup_proc_apart _ _ _ _ _ Hq Hne Hp) as (?&?&_). simpl. by rewrite (fx_procs _ _ _ _ _ He).
  - simpl. intros id Hid. split.
    + apply (fx_freshp _ _ _ _ _ He); [|done]. split; [apply (fx_freshm _ _ _ _ _ He)|]. intros id' Hx. by apply (pi_procs _ Hm).
    + destruct (fx_live _ _ _ _ _ He id Hid) as [Hp|[Hs Hp]]; [destruct sup_self as (g'&?&_); by exists gid, i, g', r'|].
      destruct (pi_procs _ Hm id Hs) as (_&gi&j&x&q&Hq&Hpq).
      destruct (sup_other gi j x q Hq) as (x'&?&_); [|by exists gi, j, x', q].
      intros [-> ->]. destruct Hh, Hq. by simplify_eq.
  - intros gi j x q gi' j' x' q' id [(->&->&->&_)|(Hne&x0&Hq&_)]%sup_back [(->&->&->&_)|(Hne'&x0'&Hq'&_)]%sup_back Hp Hp'; auto.
    + by apply (sup_proc_apart _ _ _ _ _ Hq' Hne') in Hp' as (_&_&?).
    + by apply (sup_proc_apart _ _ _ _ _ Hq Hne) in Hp as (_&_&?).
    + by eapply (pi_proc_apart _ Hm).
  - simpl. intros k id Hk. destruct (fx_beds _ _ _ _ _ He k id Hk) as [[Hid ->]|[Hk' Hid]].
    + destruct sup_self as (g'&?&?). by exists gid, i, g', r'.
    + destruct (pi_beds _ Hm k id Hk') as (gi&j&x&q&Hq&Hb&Hin).
      destruct (sup_other gi j x q Hq) as (x'&?&?); [|exists gi, j, x', q; split_and!; [done|congruence|done]].
      intros [-> ->]. destruct Hh, Hq. by simplify_eq.
  - intros gi j x q gi' j' x' q' id [(->&->&->&_)|(Hne&x0&Hq&_)]%sup_back [(->&->&->&_)|(Hne'&x0'&Hq'&_)]%sup_back Hp Hp'; auto.
    + by destruct (sup_apart _ _ _ _ _ Hq' Hne' Hp') as [? _].
    + by destruct (sup_apart _ _ _ _ _ Hq Hne Hp) as [? _].
    + by eapply (pi_maps_apart _ Hm).
  - simpl. intros gi x [[<- _]|[_ Hx]]%lookup_insert_Some; eapply (pi_fresh _ Hm); [apply Hh|done].
  - simpl. intros b gi Hb. destruct (pi_groups _ Hm b gi Hb) as (x&Hx&Hxb). destruct Hh as [Hg _]. destruct (decide (gi = gid)) as [->|].
    + eexists. rewrite lookup_insert_eq. split; [done|]. simpl. congruence.
    + exists x. by rewrite lookup_insert_ne.
  - simpl. intros gi x [[<- <-]|[_ Hx]]%lookup_insert_Some; [|by apply (pi_retired _ Hm)]. destruct Hh as [Hg Hi].
    destruct (pi_retired _ Hm gid g Hg) as [?|Hd]; [by left|]. exfalso. apply Hlive. unfold groupDone in Hd.
    rewrite forallb_forall in Hd. specialize (Hd r). rewrite <-list_elem_of_In in Hd.
    specialize (Hd ltac:(by eapply list_elem_of_lookup_2)). unfold isDone in Hd. by destruct (rPc r).
Qed.
End supervise.

(** A change of the shared state that no record notices. *)
Lemma shared_inv m s' :
  pillow_inv m → map_reach (net s') → mappings (net s') = mappings (net (gShared m)) → beds (net s') = beds (net (gShared m)) →
  releasing (net s') = releasing (net (gShared m)) → forgetting (net s') = forgetting (net (gShared m)) →
  freshProc s' = freshProc (gShared m) →
  (∀ id, pExecution <$> procs s' !! id = pExecution <$> procs (gShared m) !! id) → pillow_inv (withGShared m s').
Proof.
  intros [H1 H2 H3 H4 H5 H6 H7 H8 H9] Hn Em Eb Er Ef Efp Ep. split; simpl; auto.
  - intros gi i g r Hh. eapply rec_frame; [by eapply H2|..]; rewrite ?Em, ?Er, ?Ef; auto.
  - intros id Hid. rewrite Efp. apply H3. specialize (Ep id). destruct Hid as [p Hp]. rewrite Hp in Ep.
    destruct (procs (gShared m) !! id); [eauto|done].
  - intros k id. rewrite Eb. apply H5.
Qed.

Lemma newRecord_ok s b spec : rec_ok s b (newRecord spec).
Proof.
  unfold newRecord. case_bool_decide; split; simpl; try done; try apply NoDup_nil_2; try (by intros ? ?%elem_of_nil); auto.
Qed.
Lemma newRecord_free spec : lMaps (newRecord spec) = [] ∧ pcProc (rPc (newRecord spec)) = None.
Proof. unfold newRecord. by case_bool_decide. Qed.

Lemma pillow_prepare_inv m b bedID specs : pillow_inv m → pillow_inv (PrepareBed m b bedID specs).2.
Proof.
  intros Hm. unfold PrepareBed. destruct (gClosed m); [done|]. case_bool_decide as Hb; [done|].
  destruct Hm as [H1 H2 H3 H4 H5 H6 H7 H8 H9]. simpl. set (g0 := mkGroup b bedID (newRecord <$> specs) false).
  assert (∀ gi i g r, has (mkManager (gShared m) (<[freshGroup m := g0]> (gHeap m)) (<[b := freshGroup m]> (gGroups m))
    (freshGroup m + 1) false) gi i g r → has m gi i g r ∨ ∃ spec, r = newRecord spec) as Hback.
  { intros gi i g r [Hg Hi]. simpl in Hg. apply lookup_insert_Some in Hg as [[<- <-]|[_ Hg]]; [right|by left]. simpl in Hi.
    apply list_lookup_fmap_Some in Hi as (spec&->&_). eauto. }
  assert (∀ gi i g r, has m gi i g r → has (mkManager (gShared m) (<[freshGroup m := g0]> (gHeap m))
    (<[b := freshGroup m]> (gGroups m)) (freshGroup m + 1) false) gi i g r) as Hfwd.
  { intros gi i g r [Hg Hi]. split; [|done]. simpl. rewrite lookup_insert_ne; [done|]. apply H7 in Hg. lia. }
  split; simpl; auto.
  - intros gi i g r [Hh|[spec ->]]%Hback; [eauto|apply newRecord_ok].
  - intros id Hid. destruct (H3 id Hid) as (Hlt&gi&i&g&r&Hh&Hp). split; [done|]. exists gi, i, g, r. auto.
  - intros gi i g r gi' i' g' r' id [Hh|[spec ->]]%Hback [Hh'|[spec' ->]]%Hback; rewrite ?(proj2 (newRecord_free _)); try done.
    by eapply H4.
  - intros k id Hk. destruct (H5 k id Hk) as (gi&i&g&r&Hh&?&?). exists gi, i, g, r. auto.
  - intros gi i g r gi' i' g' r' id [Hh|[spec ->]]%Hback [Hh'|[spec' ->]]%Hback;
      rewrite ?(proj1 (newRecord_free _)); try (by intros ?%elem_of_nil); try (by intros _ ?%elem_of_nil). by eapply H6.
  - intros gi g [[<- _]|[_ Hg]]%lookup_insert_Some; [lia|]. apply H7 in Hg. lia.
  - intros b' gi [[<- <-]|[Hne Hg]]%lookup_insert_Some; [exists g0; by rewrite lookup_insert_eq|].
    destruct (H8 b' gi Hg) as (g&Hgg&?). exists g. rewrite lookup_insert_ne; [done|]. apply H7 in Hgg. lia.
  - intros gi g [[<- <-]|[Hne Hg]]%lookup_insert_Some; [left; apply lookup_insert_eq|].
    destruct (H9 gi g Hg) as [Hr|?]; [left|by right]. rewrite lookup_insert_ne; [done|]. intros E. apply Hb. rewrite E, Hr. eauto.
Qed.

Lemma restartLoop_same name rs rs' : restartLoop name rs = Ok rs' → Forall2 same_run rs rs'.
Proof.
  revert rs'. induction rs as [|r rs IH]; intros rs'; simpl; [done|]. case_bool_decide.
  - case_bool_decide; [done|]. intros [= <-]. constructor; [done|]. clear IH. by induction rs; constructor.
  - destruct (restartLoop name rs) as [l|]; simpl; [|done]. intros [= <-]. constructor; [done|]. by apply IH.
Qed.

Lemma stop_same g : Forall2 same_run (gRecords g) (gRecords (stopGroup g)).
Proof. simpl. induction (gRecords g); simpl; constructor; [|done]. unfold cancelRecord. by case_bool_decide. Qed.

Lemma pillow_step_inv m m' : pillow_inv m → pillow_step m m' → pillow_inv m'.
Proof.
  intros Hm Hs. pose proof (pi_net _ Hm) as Hn.
  destruct Hs as [m gid g i r ev s' r' Hg Hi Hs|m o id|m b bedID specs|m b name|m gid g Hg|m b gid g Hg Hst Hd|m
    |m owner scope address probe n|m owner address bind n|m a closes n Hnh].
  - assert (has m gid i g r) as Hh by done. apply (supervise_inv m gid i g r s' r'); [done|done| |].
    + eapply sup_effect; [done|by eapply pi_rec|exact Hs|]. intros id Hid. by apply (pi_procs _ Hm).
    + intros E. unfold sup_step in Hs. by rewrite E in Hs.
  - apply shared_inv; auto. intros id'. simpl. destruct (decide (id = id')) as [->|].
    + rewrite lookup_alter_eq. by destruct (_ !! id').
    + by rewrite lookup_alter_ne.
  - by apply pillow_prepare_inv.
  - unfold Restart. destruct (gGroups m !! b) as [gid|]; [|done]. destruct (gHeap m !! gid) as [g|] eqn:Hg; [|done].
    destruct (gStopped g); [done|]. destruct (restartLoop _ _) as [rs|] eqn:Hr; [|done]. simpl.
    apply (inv_same_run m gid g); auto. by apply (restartLoop_same name).
  - apply (inv_same_run m gid g); auto. apply stop_same.
  - unfold releaseGroup. case_bool_decide as Hb; [|done]. destruct Hm as [H1 H2 H3 H4 H5 H6 H7 H8 H9].
    split; simpl; auto; [intros b' gi [_ ?]%lookup_delete_Some; eauto|].
    intros gi x Hx. destruct (decide (gi = gid)) as [->|]; [right; by simplify_eq|].
    destruct (H9 gi x Hx) as [Hr|?]; [|by right]. left. rewrite lookup_delete_ne; [done|]. intros E. congruence.
  - by destruct Hm as [H1 H2 H3 H4 H5 H6 H7 H8 H9]; split.
  - apply shared_inv; auto. apply (mr_step (net (gShared m))); [done|]. apply mp_other_reserve.
  - apply shared_inv; auto. apply (mr_step (net (gShared m))); [done|]. apply mp_other_listen.
  - apply shared_inv; auto. apply (mr_step (net (gShared m))); [done|]. by apply mp_other_release.
Qed.

Lemma pillow_reach_inv m : pillow_reach m → pillow_inv m.
Proof.
  induction 1 as [n Hn Hm|m m' _ IH Hs]; [|by eapply pillow_step_inv].
  assert (∀ gid i g r, ~ has (mkManager (mkShared n ∅ 0) ∅ ∅ 0 false) gid i g r) as Hno.
  { intros gid i g r [Hg _]. simpl in Hg. by rewrite lookup_empty in Hg. }
  split; simpl; try done.
  - intros gid i g r Hh. by apply Hno in Hh.
  - intros id [? Hid]. by rewrite lookup_empty in Hid.
  - intros gid i g r gid' i' g' r' id Hh. by apply Hno in Hh.
  - intros [b name] id Hk. destruct (mi_names _ (map_reach_inv _ Hn) _ _ _ Hk) as (p&Hp&_). by rewrite Hm, lookup_empty in Hp.
  - intros gid i g r gid' i' g' r' id Hh. by apply Hno in Hh.
Qed.
