(* ===== verification/PillowTheorems.v ===== *)
(** * PillowTheorems: what supervision guarantees

    A ready pillow serves its ports from its current process; a stopped bed has
    no process and no port left; the restart budget is respected; a cancelled
    supervisor ends; the readiness tracker implements hysteresis. *)

From S2P Require Import Prelude Netip Bed PortAlloc PortMappings Pillow PillowInv.

(** ** Access *)

Lemma accessPorts_all n execution ids :
  (∀ id, id ∈ ids → ∃ p, mappings n !! id = Some p ∧ mapState p = MapListening ∧ mapExecution p = execution) →
  accessPorts n execution ids = Ok (resolveMaps n ids).
Proof.
  induction ids as [|id ids IH]; intros H; [done|]. simpl. destruct (H id) as (p&->&Hs&He); [left|].
  rewrite !bool_decide_true by done. csimpl. rewrite IH; [done|]. intros j Hj. apply H. by right.
Qed.

Lemma accessLoop_found n name rs i r :
  rs !! i = Some r → PillowName (rSpec r) = name → stReady (rStatus r) = true → rMaps r ≠ [] →
  (∀ j q, rs !! j = Some q → PillowName (rSpec q) = name → j = i) →
  accessLoop n false name rs = accessPorts n (stExecution (rStatus r)) (rMaps r).
Proof.
  revert i. induction rs as [|q rs IH]; intros i Hi Hname Hready Hmaps Huniq; [done|]. simpl. destruct i as [|i]; simpl in Hi.
  - injection Hi as ->. rewrite (bool_decide_true _ Hname), Hready, (bool_decide_false (rMaps r = [])) by done. done.
  - case_bool_decide as Hq; simpl; [by specialize (Huniq 0%nat q eq_refl Hq)|]. eapply IH; eauto.
    intros j x Hj Hx. specialize (Huniq (S j) x Hj Hx). lia.
Qed.

(** What readiness means at the goroutine. *)
Lemma ready_record s b r :
  rec_ok s b r → stReady (rStatus r) = true → commandOf (rSpec r) ≠ [] →
  stPhase (rStatus r) = PRunning ∧ rMaps r = lMaps r ∧
  (∃ id q, pcProc (rPc r) = Some id ∧ procs s !! id = Some q ∧ pExecution q = stExecution (rStatus r)) ∧
  (∀ id, id ∈ lMaps r → ∃ p, mappings (net s) !! id = Some p ∧ mapState p = MapListening ∧ mapExecution p = stExecution (rStatus r)) ∧
  mapName <$> resolveMaps (net s) (lMaps r) = PortName <$> Ports (rSpec r).
Proof.
  intros Hr Hready Hc. destruct (ro_ready _ _ _ Hr Hready) as [Hs|[_ ?]]; [|done].
  assert (∃ proc, pcRunning (rPc r) = Some proc ∧ pcProc (rPc r) = Some proc ∧ pcShared (rPc r) = true ∧ pcRest (rPc r) = Some [] ∧
    ∀ id p, want s (rPc r) id p → mapState p = MapListening ∧ mapExecution p = execOf s proc) as (proc&H1&H2&H3&H4&Hw).
  { destruct (rPc r); try done; simpl in Hs; subst; (eexists; split_and!; [done..|]; by intros id p ?). }
  destruct (ro_running _ _ _ Hr _ H1) as [Hph He]. destruct (ro_proc _ _ _ Hr _ H2) as [q Hq].
  split_and!; [done|by apply Hr| | |].
  - exists proc, q. split_and!; [done|done|]. rewrite He. unfold execOf. by rewrite Hq.
  - intros id Hid. destruct (ro_maps _ _ _ Hr id Hid) as (p&?&_&Hp). exists p. apply Hw in Hp as [? ->]. auto.
  - rewrite <-(ro_names _ _ _ Hr [] H4). by rewrite app_nil_r.
Qed.

(** C10: A ready pillow serves.  In every reachable state, for a ready pillow with a main
    process and declared ports, in the registered group of its bed while that group is not
    stopping, and whose name no other pillow of the group has: it is running, its supervisor
    holds the process whose execution the status shows, and [Access] answers with exactly the
    declared ports, all listening and all bound to that execution. *)
Theorem ready_pillow_serves m b gid i g r :
  pillow_reach m → gGroups m !! b = Some gid → gHeap m !! gid = Some g → gStopped g = false → gRecords g !! i = Some r →
  stReady (rStatus r) = true → commandOf (rSpec r) ≠ [] → Ports (rSpec r) ≠ [] →
  (∀ j q, gRecords g !! j = Some q → PillowName (rSpec q) = PillowName (rSpec r) → j = i) →
  stPhase (rStatus r) = PRunning ∧
  (∃ id q, pcProc (rPc r) = Some id ∧ procs (gShared m) !! id = Some q ∧ pExecution q = stExecution (rStatus r)) ∧
  ∃ ps, Access m b (PillowName (rSpec r)) = Ok ps ∧ mapName <$> ps = PortName <$> Ports (rSpec r) ∧
    Forall (λ p, mapState p = MapListening ∧ mapExecution p = stExecution (rStatus r)) ps.
Proof.
  intros Hm%pillow_reach_inv Hb Hg Hst Hi Hready Hc Hports Huniq.
  destruct (ready_record _ _ _ (pi_rec _ Hm gid i g r (conj Hg Hi)) Hready Hc) as (Hph&Hsh&Hproc&Hall&Hnames).
  split_and!; [done|done|]. exists (resolveMaps (net (gShared m)) (rMaps r)). rewrite Hsh.
  split_and!; [|done|].
  - unfold Access, groupOf. rewrite Hb. simpl. rewrite Hg, Hst.
    rewrite (accessLoop_found _ _ _ i r); auto; [rewrite Hsh; by apply accessPorts_all|].
    rewrite Hsh. intros E. rewrite E in Hnames. by destruct (Ports (rSpec r)).
  - apply Forall_forall. intros p Hp. unfold resolveMaps in Hp. apply list_elem_of_omap in Hp as (id&Hid&Hp).
    destruct (Hall id Hid) as (p'&?&?&?). by simplify_eq.
Qed.

(** ** Ownership of processes and ports *)

Lemma done_owns_nothing s b r : rec_ok s b r → isDone r = true → lMaps r = [] ∧ pcProc (rPc r) = None.
Proof.
  intros Hr Hd. unfold isDone in Hd. destruct (rPc r) eqn:Hpc; try done. split; [|done].
  apply (ro_free _ _ _ Hr). by rewrite Hpc.
Qed.

Lemma bed_done m b gid i g r :
  pillow_inv m → (∀ gid g, gGroups m !! b = Some gid → gHeap m !! gid = Some g → groupDone g = true) →
  has m gid i g r → gBed g = b → isDone r = true.
Proof.
  intros Hm Hd [Hg Hi] Hb. assert (groupDone g = true) as Hgd.
  { destruct (pi_retired _ Hm gid g Hg) as [Hr|?]; [|done]. rewrite Hb in Hr. eauto. }
  unfold groupDone in Hgd. rewrite forallb_forall in Hgd. apply Hgd, list_elem_of_In. by eapply list_elem_of_lookup_2.
Qed.

(** C9: Stopping a bed leaves nothing behind.  Every process group that has not been
    reaped is held by exactly one supervisor.  Once the supervisors of a bed's
    group are done, which is what [stopGroup] waits for, no live process is held
    for that bed, even by an older group of it, and its network may be released:
    [CheckReleased] finds no port mapping. *)
Theorem stopped_bed_is_clean m b :
  pillow_reach m → (∀ gid g, gGroups m !! b = Some gid → gHeap m !! gid = Some g → groupDone g = true) →
  CheckReleased (net (gShared m)) b = true ∧
  (∀ id q, procs (gShared m) !! id = Some q →
     ∃ gid i g r, has m gid i g r ∧ pcProc (rPc r) = Some id ∧ gBed g ≠ b ∧
       ∀ gid' i' g' r', has m gid' i' g' r' → pcProc (rPc r') = Some id → gid' = gid ∧ i' = i).
Proof.
  intros Hm%pillow_reach_inv Hd. split.
  - unfold CheckReleased. rewrite forallb_forall. intros [[b' n] id]. rewrite <-list_elem_of_In, elem_of_map_to_list.
    intros Hk. simpl. apply negb_true_iff, Z.eqb_neq. intros ->.
    destruct (pi_beds _ Hm _ _ Hk) as (gid&i&g&r&Hh&Hb&Hid).
    destruct (done_owns_nothing _ _ _ (pi_rec _ Hm _ _ _ _ Hh)) as [El _]; [by eapply bed_done|].
    rewrite El in Hid. by apply elem_of_nil in Hid.
  - intros id q Hq. destruct (pi_procs _ Hm id) as (_&gid&i&g&r&Hh&Hp); [by eexists|]. exists gid, i, g, r.
    split_and!; [done|done| |].
    + intros Hb. destruct (done_owns_nothing _ _ _ (pi_rec _ Hm _ _ _ _ Hh)) as [_ E]; [by eapply bed_done|]. congruence.
    + intros gid' i' g' r' Hh' Hp'. by apply (pi_proc_apart _ Hm gid' i' g' r' gid i g r id).
Qed.

(** ** The restart budget *)

Definition anyDynamic (s : PillowSpec) : bool := existsb Dynamic (Ports s).
Definition attemptsPerRun (s : PillowSpec) : Z := if anyDynamic s then 3 else 1.
Definition budget (s : PillowSpec) : Z := Z.max 0 (MaxRestarts s).

(** Launches the goroutine may have made at a point of round [lRestarts]. *)
Definition allowance (r : record) : Z :=
  let k := attemptsPerRun (rSpec r) in
  match rPc r with
  | PcLoop | PcBackoff _ => k * lRestarts r
  | PcRun | PcNetwork | PcReserve _ _ _ | PcLaunch => k * lRestarts r + lAttempt r
  | _ => k * lRestarts r + lAttempt r + 1
  end.

Record budget_ok (r : record) : Prop := {
  bo_restarts : 0 <= lRestarts r <= budget (rSpec r);
  bo_status : stRestarts (rStatus r) <= budget (rSpec r);
  bo_attempt : 0 <= lAttempt r < attemptsPerRun (rSpec r);
  bo_launches : lLaunches r <= allowance r;
}.

Lemma update_restarts fn s : stRestarts (update fn s) = stRestarts (fn s).
Proof. unfold update. by case_bool_decide. Qed.

Lemma retry_dynamic err spec : retryPortConflict err spec = true → anyDynamic spec = true.
Proof.
  unfold retryPortConflict, anyDynamic. destruct (conflictIn err) as [name|]; [|done].
  destruct (filter _ (Ports spec)) as [|p l] eqn:E; [done|]. intros Hp. apply existsb_exists. exists p. split; [|done].
  apply list_elem_of_In. assert (p ∈ filter (λ q, PortName q = name) (Ports spec)) as [_ ?]%list_elem_of_filter by (rewrite E; left).
  done.
Qed.

(** Split what a step may do, without looking at the shared state. *)
Ltac step_cases H :=
  repeat match type of H with
  | context [match ?x with _ => _ end] => destruct x eqn:?; try discriminate H
  end.

Ltac budget_tac :=
  match goal with Hpc : rPc _ = _, H : budget_ok _ |- _ =>
    destruct H as [? ? ? Hl]; unfold allowance in Hl; rewrite Hpc in Hl; simpl in Hl
  end;
  split; unfold allowance; simpl; rewrite ?update_restarts; simpl; try done; try lia.

Lemma afterRun_budget x r : rPc r = PcReturn x → budget_ok r → budget_ok (afterRun x r).
Proof.
  intros Hpc Hr. unfold afterRun.
  assert (1 <= attemptsPerRun (rSpec r)) by (unfold attemptsPerRun; destruct (anyDynamic _); lia).
  destruct (retryPortConflict _ _ && _) eqn:Ea.
  { apply andb_true_iff in Ea as [Hd%retry_dynamic Ha]. apply Z.ltb_lt in Ha.
    budget_tac; unfold attemptsPerRun in *; rewrite Hd in *; lia. }
  destruct (rCancelled r); [budget_tac|]. destruct (explicit x); [budget_tac; unfold budget in *; lia|].
  destruct (isAutomatic _ _ && _) eqn:Eb; [|budget_tac].
  apply andb_true_iff in Eb as [_ Hlt]. apply Z.ltb_lt in Hlt. budget_tac; unfold budget in *; nia.
Qed.

Lemma sup_budget b bedID s r ev s' r' :
  sup_step b bedID s r ev = Some (s', r') → budget_ok r → budget_ok r'.
Proof.
  intros Hs Hr. assert (1 <= attemptsPerRun (rSpec r)) by (unfold attemptsPerRun; destruct (anyDynamic _); lia).
  unfold sup_step in Hs. destruct (rPc r) eqn:Hpc; try discriminate Hs.
  all: unfold stepLoop, stepRun, stepNetwork, stepReserve, stepLaunch, stepBind, stepSelect, stepChecked, stepPublish,
    stepWithdraw, stepStop, stepRelease, stepBackoff, stepIdle in Hs.
  all: step_cases Hs; simplify_eq.
  all: try (by apply afterRun_budget).
  all: budget_tac; rewrite ?Hpc; unfold budget in *; lia.
Qed.

Lemma newRecord_budget spec : budget_ok (newRecord spec).
Proof.
  assert (1 <= attemptsPerRun spec) by (unfold attemptsPerRun; destruct (anyDynamic _); lia).
  unfold newRecord. case_bool_decide; split; unfold allowance; simpl; unfold budget; lia.
Qed.

(** Steps of others leave the counters alone. *)
Definition same_counters (r r' : record) : Prop :=
  rSpec r' = rSpec r ∧ rStatus r' = rStatus r ∧ rPc r' = rPc r ∧ lRestarts r' = lRestarts r ∧
  lAttempt r' = lAttempt r ∧ lLaunches r' = lLaunches r.
Lemma same_counters_ok r r' : same_counters r r' → budget_ok r → budget_ok r'.
Proof. destruct r, r'. unfold same_counters. simpl. intros (->&->&->&->&->&->) []. by split. Qed.

Lemma restartLoop_counters name rs rs' i r' :
  restartLoop name rs = Ok rs' → rs' !! i = Some r' → ∃ r, rs !! i = Some r ∧ same_counters r r'.
Proof.
  revert rs' i. induction rs as [|r rs IH]; intros rs' i; simpl; [done|]. case_bool_decide.
  - case_bool_decide; [done|]. intros [= <-]. destruct i; simpl; [intros [= <-]; by exists r|intros ?; by exists r'].
  - destruct (restartLoop name rs) as [l|]; simpl; [|done]. intros [= <-]. destruct i; simpl; [intros [= <-]; by exists r|eauto].
Qed.

Lemma pillow_step_budget m m' :
  pillow_step m m' → (∀ gid i g r, has m gid i g r → budget_ok r) → ∀ gid i g r, has m' gid i g r → budget_ok r.
Proof.
  intros Hs Hb gid i g r. destruct Hs as [m gid0 g0 i0 r0 ev s' r' Hg Hi Hs|m o id|m b bedID specs|m b name|m gid0 g0 Hg
    |m b gid0 g0 Hg Hst Hd|m|m owner scope address probe n|m owner address bind n|m a closes n Hnh]; try exact (Hb gid i g r).
  - intros Hh. apply (sup_back m gid0 i0 g0 r0 s' r' (conj Hg Hi)) in Hh as [(_&_&->&_)|(_&x&Hx&_)]; [|by eauto]. eapply sup_budget; [done|]. by eapply Hb.
  - unfold PrepareBed. destruct (gClosed m); [apply Hb|]. case_bool_decide; [apply Hb|]. simpl.
    intros [Hg Hi]. simpl in Hg. apply lookup_insert_Some in Hg as [[<- <-]|[_ Hg]]; [|by eapply Hb]. simpl in Hi.
    apply list_lookup_fmap_Some in Hi as (spec&->&_). apply newRecord_budget.
  - unfold Restart. destruct (gGroups m !! b) as [gid1|]; [|apply Hb]. destruct (gHeap m !! gid1) as [g1|] eqn:Hg1; [|apply Hb].
    destruct (gStopped g1); [apply Hb|]. destruct (restartLoop _ _) as [rs|] eqn:Hr; [|apply Hb]. simpl.
    intros [Hg Hi]. simpl in Hg. apply lookup_insert_Some in Hg as [[<- <-]|[_ Hg]]; [|by eapply Hb]. simpl in Hi.
    destruct (restartLoop_counters _ _ _ _ _ Hr Hi) as (q&Hq&Hsame). eapply same_counters_ok; [done|]. by eapply Hb.
  - intros [Hg' Hi]. simpl in Hg'. apply lookup_insert_Some in Hg' as [[<- <-]|[_ Hg']]; [|by eapply Hb]. simpl in Hi.
    apply list_lookup_fmap_Some in Hi as (q&->&Hq). apply (same_counters_ok q); [|by eapply Hb].
    unfold cancelRecord. by case_bool_decide.
  - unfold releaseGroup. case_bool_decide; apply Hb.
Qed.

(** C12: The restart budget holds.  However a pillow fails, between two explicit
    restarts its supervisor counts at most [MaxRestarts] automatic restarts, never
    reports more, and starts at most one process per round, or three when a port
    is dynamic and the conflict on it is retried. *)
Theorem restart_budget_respected m gid i g r :
  pillow_reach m → has m gid i g r →
  0 <= lRestarts r <= budget (rSpec r) ∧ stRestarts (rStatus r) <= budget (rSpec r) ∧
  lLaunches r <= attemptsPerRun (rSpec r) * (budget (rSpec r) + 1).
Proof.
  intros Hm Hh. assert (budget_ok r) as [H1 H2 H3 H4].
  { revert gid i g r Hh. induction Hm as [n Hn Hm|m m' _ IH Hs]; [|by eapply pillow_step_budget].
    intros gid i g r [Hg _]. simpl in Hg. by rewrite lookup_empty in Hg. }
  split_and!; [lia|lia|lia|]. assert (allowance r <= attemptsPerRun (rSpec r) * (lRestarts r + 1)); [|nia].
  unfold allowance. destruct (rPc r); lia.
Qed.

(** ** Termination after cancellation *)

(** The environment lets cleanup succeed: closing a listener works and the process
    group stops. *)
Definition cooperative (ev : event) : bool :=
  match ev with EvClose closes => closes | EvStopped None => false | _ => true end.

(** Steps the goroutine still takes once it is cancelled. *)
Definition len {A} (l : list A) : Z := Z.of_nat (length l).
Definition exitBound (r : record) : Z :=
  let n := len (lMaps r) in
  match rPc r with
  | PcDone => 0
  | PcReturn x => if retryPortConflict (retErr x) (rSpec r) then 3 else 1
  | PcRun => 2
  | PcLoop => 3
  | PcBackoff _ | PcIdle => 4
  | PcRelease stage _ => match lMaps r with [] => 4 | _ :: ids => 7 + 3 * len ids - Z.of_nat (stage `min` 2) end
  | PcStop _ _ => 5 + 3 * n
  | PcWithdraw _ todo _ => 6 + 3 * n + len todo
  | PcChecked _ _ _ _ => 7 + 4 * n
  | PcSelect _ _ _ => 8 + 4 * n
  | PcPublish _ _ _ todo | PcBind _ todo => 9 + 4 * n + len todo
  | PcLaunch => 10 + 5 * n
  | PcReserve _ _ todo => 11 + 6 * len todo + 5 * n
  | PcNetwork => 12 + 6 * len (Ports (rSpec r)) + 5 * n
  end.

Lemma len_cons {A} (x : A) l : len (x :: l) = len l + 1.
Proof. unfold len. simpl. lia. Qed.
Lemma len_snoc {A} (x : A) l : len (l ++ [x]) = len l + 1.
Proof. unfold len. rewrite length_app. simpl. lia. Qed.
Lemma len_nonneg {A} (l : list A) : 0 <= len l.
Proof. unfold len. lia. Qed.
Lemma len_nil {A} : len (@nil A) = 0.
Proof. done. Qed.

Lemma release_bound stage x r : rPc r = PcRelease stage x →
  exitBound r = match lMaps r with [] => 4 | _ => 4 + 3 * len (lMaps r) - Z.of_nat (stage `min` 2) end.
Proof. intros Hpc. unfold exitBound. rewrite Hpc. destruct (lMaps r); [done|]. rewrite len_cons. lia. Qed.

Lemma ReleasePort_closes pm id : (ReleasePort pm id true).1 = true.
Proof. unfold ReleasePort. destruct (_ !! id); simpl; [|done]. by rewrite andb_false_r. Qed.
Lemma Withdraw_closes pm p : (Withdraw pm p true).1.1 = true.
Proof.
  unfold Withdraw. case_bool_decide; [done|]. destruct (mapForward p) as [f|]; [|done].
  pose proof (ReleasePort_closes pm f). by destruct (ReleasePort pm f true) as [[] ?].
Qed.
Lemma releaseAllocation_closes pm p : (releaseAllocation pm p true).1.1 = true.
Proof.
  unfold releaseAllocation. pose proof (ReleasePort_closes pm (mapAlloc p)). by destruct (ReleasePort pm _ true) as [[] ?].
Qed.

Lemma afterRun_bound x r : rPc r = PcReturn x → rCancelled r = true →
  exitBound (afterRun x r) < exitBound r ∧ rCancelled (afterRun x r) = true.
Proof.
  intros Hpc Hc. unfold afterRun, exitBound. rewrite Hpc, Hc. destruct (retryPortConflict _ _) eqn:E; simpl.
  - destruct (_ <? 3); simpl; split; (done || lia).
  - split; (done || lia).
Qed.

Lemma release_step_bound s r stage x ev s' r' :
  rPc r = PcRelease stage x → rCancelled r = true → cooperative ev = true → stepRelease s r stage x ev = Some (s', r') →
  exitBound r' < exitBound r ∧ rCancelled r' = true.
Proof.
  intros Hpc Hc Hev. rewrite (release_bound _ _ _ Hpc). unfold stepRelease.
  destruct (lMaps r) as [|id ids] eqn:El.
  { destruct ev; try done. intros [= <- <-]. unfold exitBound. simpl. split; [|done]. destruct (retryPortConflict _ _); lia. }
  rewrite len_cons. destruct (mappings (net s) !! id) as [mp|]; [|done]. destruct stage as [|[|stage]], ev; try done.
  - simpl in Hev. subst closes. pose proof (Withdraw_closes (ports (net s)) mp) as Hw. destruct (Withdraw _ _ true) as [[ok pm] mp'].
    simpl in Hw. subst ok. intros [= <- <-]. split; [|done]. erewrite release_bound by done. simpl. rewrite El, len_cons. lia.
  - simpl in Hev. subst closes. pose proof (releaseAllocation_closes (ports (net s)) mp) as Hw.
    destruct (releaseAllocation _ _ true) as [[ok pm] mp']. simpl in Hw. subst ok. intros [= <- <-]. split; [|done].
    erewrite release_bound by done. simpl. rewrite El, len_cons. lia.
  - intros [= <- <-]. split; [|done]. erewrite release_bound by done. simpl. destruct ids; rewrite ?len_cons, ?len_nil; lia.
Qed.

(** A goroutine that is cancelled only moves towards its end. *)
Lemma sup_bound b bedID s r ev s' r' :
  rCancelled r = true → cooperative ev = true → sup_step b bedID s r ev = Some (s', r') →
  exitBound r' < exitBound r ∧ rCancelled r' = true.
Proof.
  intros Hc Hev Hs. pose proof (len_nonneg (lMaps r)). unfold sup_step in Hs. destruct (rPc r) eqn:Hpc; try discriminate Hs.
  12:{ by eapply release_step_bound. }
  12:{ destruct ev; try done. injection Hs as <- <-. by apply afterRun_bound. }
  all: unfold stepLoop, stepRun, stepNetwork, stepReserve, stepLaunch, stepBind, stepSelect, stepChecked, stepPublish,
    stepWithdraw, stepStop, stepBackoff, stepIdle in Hs; rewrite ?Hc in Hs; simpl in Hs.
  all: step_cases Hs; simplify_eq; (split; [|by simpl; rewrite ?Hc]).
  all: unfold exitBound; rewrite Hpc; simpl; rewrite ?len_cons, ?len_snoc, ?len_nil.
  all: repeat case_match; unfold len in *; simpl in *; simplify_eq/=; lia.
Qed.

(** A cancelled goroutine that is not done can always take a step. *)
Lemma sup_enabled b bedID s r :
  rec_ok s b r → rCancelled r = true → rPc r ≠ PcDone →
  ∃ ev s' r', cooperative ev = true ∧ sup_step b bedID s r ev = Some (s', r').
Proof.
  intros Hr Hc Hd. unfold sup_step.
  assert (∀ id, id ∈ lMaps r → is_Some (mappings (net s) !! id)) as Hm.
  { intros id Hid. destruct (ro_maps _ _ _ Hr id Hid) as (p&?&_). eauto. }
  assert (∀ todo id rest, pcTodo (rPc r) = Some todo → todo = id :: rest → is_Some (mappings (net s) !! id)) as Ht.
  { intros todo id rest Htodo ->. apply Hm. destruct (ro_todo _ _ _ Hr _ Htodo) as [past ->]. set_solver. }
  destruct (rPc r) eqn:Hpc; try done.
  - by exists EvGo; eauto.
  - exists EvCancelled. unfold stepRun. rewrite Hc. eauto.
  - unfold stepNetwork. case_bool_decide; [exists EvGo|exists (EvNetwork (Err ""%string))]; eauto.
  - unfold stepReserve. destruct todo as [|p todo]; [by exists EvGo; eauto|].
    exists (EvReserve (mkSpec None [] SyncNoop false 0) (λ _ _, Bound)). destruct (reserveMapping _ _ _ _ _ _ _ _ _) as [[] ?]; eauto.
  - exists (EvStarted (Err ""%string)). simpl. eauto.
  - unfold stepBind. destruct (ro_proc _ _ _ Hr proc) as [q ->]; [by rewrite Hpc|]. exists EvGo. destruct todo as [|id todo]; [eauto|].
    destruct (Ht (id :: todo) id todo) as [p ->]; eauto.
  - exists EvCancelled. simpl. rewrite Hc. eauto.
  - exists EvCancelled. simpl. rewrite Hc. eauto.
  - unfold stepPublish. destruct todo as [|id todo]; [by exists EvGo; eauto|]. exists (EvListen (λ _ _, Bound)).
    destruct (Ht (id :: todo) id todo) as [p ->]; auto. destruct (Publish _ _ _) as [[? ?] ?]; eauto.
  - unfold stepWithdraw. destruct todo as [|id todo]; [by exists EvGo; eauto|]. exists (EvClose true).
    destruct (Ht (id :: todo) id todo) as [p ->]; auto. destruct (Withdraw _ _ _) as [[? ?] ?]; eauto.
  - exists (EvStopped (Some zeroOutcome)). simpl. eauto.
  - unfold stepRelease. destruct (lMaps r) as [|id ids]; [by exists EvGo; eauto|]. destruct (Hm id) as [p ->]; [left|].
    destruct stage as [|[|stage]]; [exists (EvClose true)|exists (EvClose true)|exists EvGo; eauto].
    + destruct (Withdraw _ _ _) as [[[] ?] ?]; by eauto.
    + destruct (releaseAllocation _ _ _) as [[[] ?] ?]; by eauto.
  - by exists EvGo; eauto.
  - exists EvCancelled. simpl. rewrite Hc. eauto.
  - exists EvCancelled. simpl. rewrite Hc. eauto.
Qed.

(** Schedules, with the number of steps of goroutine [i] of group [gid]; every
    other step may be anything that does not move that goroutine. *)
Inductive schedule (gid : Z) (i : nat) : nat → Manager → Manager → Prop :=
| sc_nil m : schedule gid i 0 m m
| sc_own n m g r ev s' r' m' :
    has m gid i g r → cooperative ev = true → sup_step (gBed g) (gBedID g) (gShared m) r ev = Some (s', r') →
    schedule gid i n (setGroup (withGShared m s') gid (withRecords g (<[i := r']> (gRecords g)))) m' →
    schedule gid i (S n) m m'
| sc_other n m m1 m' :
    pillow_step m m1 →
    (∀ g r, has m gid i g r → ∃ g1 r1, has m1 gid i g1 r1 ∧ same_run r r1 ∧ (rCancelled r = true → rCancelled r1 = true)) →
    schedule gid i n m1 m' → schedule gid i n m m'.

Lemma schedule_bound gid i n m m' :
  schedule gid i n m m' → ∀ g r, has m gid i g r → rCancelled r = true → Z.of_nat n <= exitBound r.
Proof.
  induction 1 as [m|n m g0 r0 ev s' r' m' Hh Hev Hs _ IH|n m m1 m' _ Hsame _ IH]; intros g r Hr Hc.
  - unfold exitBound. repeat case_match; rewrite ?len_cons; pose proof (len_nonneg (lMaps r));
      try match goal with |- context [len ?l] => pose proof (len_nonneg l) end; unfold len in *; lia.
  - assert (g = g0 ∧ r = r0) as [-> ->] by (destruct Hr, Hh; by simplify_eq).
    destruct (sup_bound _ _ _ _ _ _ _ Hc Hev Hs) as [Hlt Hc'].
    destruct (sup_self m gid i g0 r0 s' r' Hh) as (g'&Hh'&_). specialize (IH g' r' Hh' Hc'). lia.
  - destruct (Hsame g r Hr) as (g1&r1&Hh1&(E1&_&_&E2&E3)&Hc1). specialize (IH g1 r1 Hh1 (Hc1 Hc)).
    unfold exitBound in *. rewrite E1, E2, E3 in IH. done.
Qed.

(** C11: Cancelling a pillow ends its supervisor.  From any reachable state in which
    the context of a goroutine is cancelled, as [stopGroup] does, and under any
    schedule of everything else, the goroutine takes at most [exitBound] more
    steps if stopping the process and closing listeners succeed; until it is done
    it is never blocked. *)
Theorem cancelled_supervisor_terminates m gid i g r :
  pillow_reach m → has m gid i g r → rCancelled r = true →
  (∀ n m', schedule gid i n m m' → Z.of_nat n <= exitBound r) ∧
  (rPc r ≠ PcDone → ∃ ev s' r', cooperative ev = true ∧ sup_step (gBed g) (gBedID g) (gShared m) r ev = Some (s', r')).
Proof.
  intros Hm%pillow_reach_inv Hh Hc. split.
  - intros n m' Hs. by eapply schedule_bound.
  - intros Hd. eapply sup_enabled; [by eapply pi_rec|done|done].
Qed.

(** ** Readiness thresholds *)

(** The reference: ready after a run of [succ] successes that no run of [fail]
    failures followed. *)
Definition noRun (n : nat) (l : list bool) : Prop := ∀ l1 l2, l ≠ l1 ++ replicate n false ++ l2.
Definition hysteresis (succ fail : nat) (l : list bool) : Prop :=
  ∃ l1 l2, l = l1 ++ replicate succ true ++ l2 ∧ noRun fail l2.

Definition observed (probe : option Probe) (l : list readinessResult) : readinessTracker :=
  foldl (λ t res, (observe t res probe).2) newTracker l.

(** [l] ends in [n] results [b]. *)
Definition ends (b : bool) (n : nat) (l : list bool) : Prop := ∃ l1, l = l1 ++ replicate n b.

Lemma ends_0 b l : ends b 0 l.
Proof. exists l. by rewrite app_nil_r. Qed.
Lemma ends_snoc b c n l : ends b (S n) (l ++ [c]) ↔ c = b ∧ ends b n l.
Proof.
  unfold ends. setoid_rewrite replicate_S_end. setoid_rewrite app_assoc. split.
  - intros [l1 [-> [= ->]]%app_inj_tail]. eauto.
  - intros [-> [l1 ->]]. eauto.
Qed.
Lemma ends_counter b k n l : (∀ j, (j <= n)%nat → ends b j l ↔ (j <= k)%nat) → ∀ c j, (j <= n)%nat →
  ends b j (l ++ [c]) ↔ (j <= if bool_decide (c = b) then (k + 1) `min` n else 0)%nat.
Proof.
  intros H c [|j] Hj; [split; [lia|intros _; apply ends_0]|]. rewrite ends_snoc, H by lia. case_bool_decide; split; [intros [_ ?]; lia|split; [done|lia]|tauto|lia].
Qed.

Lemma noRun_snoc_true n l : (0 < n)%nat → noRun n (l ++ [true]) ↔ noRun n l.
Proof.
  intros Hn. unfold noRun. split; intros H l1 l2 E.
  - apply (H l1 (l2 ++ [true])). by rewrite E, <- !app_assoc.
  - destruct l2 as [|x l2' _] using rev_ind.
    + rewrite app_nil_r in E. destruct n as [|n]; [lia|]. rewrite replicate_S_end, app_assoc in E. by apply app_inj_tail in E as [_ ?].
    + rewrite !app_assoc in E. apply app_inj_tail in E as [-> _]. by apply (H l1 l2'); rewrite <-app_assoc.
Qed.

Lemma noRun_snoc_false n l : (0 < n)%nat → noRun n (l ++ [false]) ↔ noRun n l ∧ ~ ends false n (l ++ [false]).
Proof.
  intros Hn. split.
  - intros H. split; [|intros [l1 E]; apply (H l1 []); by rewrite app_nil_r].
    intros l1 l2 ->. apply (H l1 (l2 ++ [false])). by rewrite <- !app_assoc.
  - intros [H He] l1 l2 E. destruct l2 as [|x l2' _] using rev_ind.
    + rewrite app_nil_r in E. apply He. by exists l1.
    + rewrite !app_assoc in E. apply app_inj_tail in E as [-> _]. by apply (H l1 l2'); rewrite <-app_assoc.
Qed.

(** A run of failures at the end of the history lies behind every success. *)
Lemma ends_after_success succ n l1 l2 : (0 < succ)%nat → (0 < n)%nat →
  ends false n (l1 ++ replicate succ true ++ l2) ↔ ends false n l2.
Proof.
  intros Hs _. split; [|intros [l ->]; exists (l1 ++ replicate succ true ++ l); by rewrite <- !app_assoc].
  revert n. induction l2 as [|x l2 IH] using rev_ind; intros [|n]; try (intros _; apply ends_0).
  - rewrite app_nil_r. destruct succ; [lia|]. rewrite replicate_S_end, app_assoc, ends_snoc. by intros [? _].
  - rewrite !app_assoc, !ends_snoc, <-app_assoc. intros [-> H]. split; [done|]. by apply IH.
Qed.

Lemma hysteresis_nil succ fail : (0 < succ)%nat → ~ hysteresis succ fail [].
Proof. intros Hs (l1&l2&E&_). destruct succ; [lia|]. by destruct l1. Qed.

Lemma hysteresis_success succ fail l : (0 < succ)%nat → (0 < fail)%nat →
  hysteresis succ fail (l ++ [true]) ↔ hysteresis succ fail l ∨ ends true succ (l ++ [true]).
Proof.
  intros Hs Hf. split.
  - intros (l1&l2&E&H). destruct l2 as [|x l2 _] using rev_ind; [right; exists l1; by rewrite E, app_nil_r|left].
    rewrite !app_assoc in E. apply app_inj_tail in E as [-> <-]. exists l1, l2. rewrite <-app_assoc. split; [done|].
    by apply (noRun_snoc_true fail).
  - intros [(l1&l2&->&H)|[l1 E]]; [exists l1, (l2 ++ [true])|exists l1, []].
    + rewrite <- !app_assoc. split; [done|]. by apply noRun_snoc_true.
    + rewrite E, app_nil_r. split; [done|]. intros a c Hac. destruct fail; [lia|]. by destruct a.
Qed.

Lemma hysteresis_failure succ fail l : (0 < succ)%nat → (0 < fail)%nat →
  hysteresis succ fail (l ++ [false]) ↔ hysteresis succ fail l ∧ ~ ends false fail (l ++ [false]).
Proof.
  intros Hs Hf. split.
  - intros (l1&l2&E&H). destruct l2 as [|x l2 _] using rev_ind.
    { rewrite app_nil_r in E. destruct succ; [lia|]. rewrite replicate_S_end, app_assoc in E. by apply app_inj_tail in E as [_ ?]. }
    rewrite !app_assoc in E. apply app_inj_tail in E as [-> <-]. rewrite <- !app_assoc.
    apply noRun_snoc_false in H as [H He]; [|done]. split; [by exists l1, l2|]. by rewrite ends_after_success.
  - intros [(l1&l2&->&H) He]. exists l1, (l2 ++ [false]). rewrite <- !app_assoc in *. split; [done|].
    apply noRun_snoc_false; [done|]. split; [done|]. by rewrite ends_after_success in He.
Qed.

Record track_ok (succ fail : nat) (l : list bool) (t : readinessTracker) : Prop := {
  tk_successes : 0 <= successes t <= Z.of_nat succ;
  tk_failures : 0 <= failures t <= Z.of_nat fail;
  tk_trues : ∀ j, (j <= succ)%nat → ends true j l ↔ (j <= Z.to_nat (successes t))%nat;
  tk_falses : ∀ j, (j <= fail)%nat → ends false j l ↔ (j <= Z.to_nat (failures t))%nat;
  tk_ready : trReady t = true ↔ hysteresis succ fail l;
}.

Lemma ends_nil b j : ends b j [] ↔ (j <= 0)%nat.
Proof.
  split; [|destruct j; [intros _; apply ends_0|lia]]. intros [l E]. symmetry in E. apply app_nil in E as [_ E].
  destruct j; [lia|done].
Qed.

Lemma track_step succ fail l t res probe :
  (0 < succ)%nat → (0 < fail)%nat → thresholds probe = (Z.of_nat succ, Z.of_nat fail) → track_ok succ fail l t →
  track_ok succ fail (l ++ [resReady res]) (observe t res probe).2.
Proof.
  intros Hs Hf Hth [H1 H2 H3 H4 H5]. pose proof (ends_counter true _ _ _ H3 (resReady res)) as Ht.
  pose proof (ends_counter false _ _ _ H4 (resReady res)) as Hfa. unfold observe. rewrite Hth.
  destruct (resReady res); simpl in *; (split; simpl; [lia|lia|..]).
  - intros j Hj. rewrite Ht by done. lia.
  - intros j Hj. rewrite Hfa by done. lia.
  - rewrite hysteresis_success, <-H5, (Ht succ) by done. case_match; reflect_bools; split; try done; intros; [right; lia|by left|].
    destruct H0; [done|lia].
  - intros j Hj. rewrite Ht by done. lia.
  - intros j Hj. rewrite Hfa by done. lia.
  - rewrite hysteresis_failure, <-H5, (Hfa fail) by done. case_match; reflect_bools; split; try done; [intros [_ ?]; lia| |tauto].
    intros ?. split; [done|lia].
Qed.

Lemma track_inv succ fail probe l :
  (0 < succ)%nat → (0 < fail)%nat → thresholds probe = (Z.of_nat succ, Z.of_nat fail) →
  track_ok succ fail (resReady <$> l) (observed probe l).
Proof.
  intros Hs Hf Hth. induction l as [|res l IH] using rev_ind.
  - split; simpl; [lia|lia|..]; try (intros; by rewrite ends_nil). split; [done|]. by intros ?%hysteresis_nil.
  - unfold observed. rewrite foldl_app, fmap_app. simpl. by apply track_step.
Qed.

(** The readiness tracker implements the thresholds.  After any sequence of probe
    results the pillow is reported ready exactly when at some point the last
    [SuccessThreshold] results were successes and no [FailureThreshold] failures
    in a row came after; the saturated counters lose nothing. *)
Lemma readiness_hysteresis probe l res :
  let '(succ, fail) := thresholds probe in 1 <= succ → 1 <= fail →
  resReady (observe (observed probe l) res probe).1 = true ↔
  hysteresis (Z.to_nat succ) (Z.to_nat fail) ((resReady <$> l) ++ [resReady res]).
Proof.
  destruct (thresholds probe) as [succ fail] eqn:Hth. intros Hs Hf.
  assert (thresholds probe = (Z.of_nat (Z.to_nat succ), Z.of_nat (Z.to_nat fail))) as Hth' by (rewrite Hth; f_equal; lia).
  assert (0 < Z.to_nat succ)%nat as H1 by lia. assert (0 < Z.to_nat fail)%nat as H2 by lia.
  rewrite <-(tk_ready _ _ _ _ (track_step _ _ _ _ res probe H1 H2 Hth' (track_inv _ _ _ l H1 H2 Hth'))).
  unfold observe. destruct (thresholds probe). destruct (resReady res) eqn:Er; simpl; case_match; simpl; rewrite ?Er; try done.
  all: case_match; simpl; rewrite ?Er; done.
Qed.

(** ** Losing readiness *)

Lemma readinessCheck_error spec names a evidence e :
  (is_Some (ReadinessProbe spec) → probePortName spec ∈ names) → readinessCheck spec names a = (evidence, Err e) →
  (e = PortConflict (probePortName spec) ∧ ∃ i1 i2, inspect1 a = Ok i1 ∧ lState i1 = ListenerForeign ∧
     inspect2 a = Ok i2 ∧ lState i2 = ListenerForeign) ∨ ∃ st, e = InvalidInspection st.
Proof.
  unfold readinessCheck. destruct (ReadinessProbe spec) as [probe|]; [|done]. intros Hn. rewrite bool_decide_true by eauto. simpl.
  unfold inspection. destruct (inspect1 a) as [i1|] eqn:E1; [|done]. case_bool_decide as Hf.
  - destruct (inspect2 a) as [i2|] eqn:E2; [|done]. destruct (lState i2) eqn:E; try done; intros [= <- <-]; [|eauto].
    left. split; [done|]. by exists i1, i2.
  - destruct (lState i1) eqn:E; try done. intros [= <- <-]. eauto.
Qed.

(** Losing readiness keeps the execution.  A readiness check that fails, whatever
    the probe, the inspection or the thresholds say, leaves the process, the port
    mappings, the execution and the restart count as they are.  Only evidence of a
    foreign listener, seen twice, or an inspection state outside the contract
    ends the run. *)
Lemma readiness_failure_keeps_execution m gid i g r proc t published a s1 r1 :
  pillow_reach m → has m gid i g r → rPc r = PcSelect proc t published →
  (is_Some (ReadinessProbe (rSpec r)) → probePortName (rSpec r) ∈ PortName <$> Ports (rSpec r)) →
  sup_step (gBed g) (gBedID g) (gShared m) r (EvTick a) = Some (s1, r1) →
  s1 = gShared m ∧ lRestarts r1 = lRestarts r ∧ lMaps r1 = lMaps r ∧ pcProc (rPc r1) = Some proc ∧
  ((∃ res, rPc r1 = PcChecked proc t published res ∧ ∀ s2 r2, sup_step (gBed g) (gBedID g) s1 r1 EvGo = Some (s2, r2) →
      s2 = s1 ∧ pcRunning (rPc r2) = Some proc ∧ stExecution (rStatus r2) = stExecution (rStatus r) ∧
      lRestarts r2 = lRestarts r ∧ rMaps r2 = rMaps r)
   ∨ (∃ i1 i2, inspect1 a = Ok i1 ∧ lState i1 = ListenerForeign ∧ inspect2 a = Ok i2 ∧ lState i2 = ListenerForeign)
   ∨ ∃ st x, rPc r1 = PcWithdraw proc (lMaps r) x ∧ retErr x = [InvalidInspection st]).
Proof.
  intros Hm%pillow_reach_inv Hh Hpc Hport. pose proof (pi_rec _ Hm _ _ _ _ Hh) as Hr.
  pose proof (ro_names _ _ _ Hr []) as Hnames. rewrite Hpc, app_nil_r in Hnames. specialize (Hnames eq_refl).
  unfold sup_step at 1. rewrite Hpc. unfold stepSelect. rewrite Hnames.
  destruct (readinessCheck _ _ _) as [evidence res] eqn:Hc. intros [= <- <-].
  set (r' := match evidence with Some _ => _ | None => _ end).
  assert (lRestarts r' = lRestarts r ∧ lMaps r' = lMaps r ∧ stExecution (rStatus r') = stExecution (rStatus r) ∧ rMaps r' = rMaps r)
    as (E1&E2&E3&E4) by (unfold r'; destruct evidence; simpl; unfold update; try case_bool_decide; done). clearbody r'.
  destruct res as [res|e]; (split_and!; [done|done|done|done|]); simpl.
  - left. exists res. split; [done|]. intros s2 r2. unfold sup_step. simpl.
    destruct (_ || _); [done|]. destruct (observe _ _ _) as [res' t']. intros [= <- <-]. split; [done|].
    destruct (_ && _); simpl; unfold update; try case_bool_decide; done.
  - right. apply readinessCheck_error in Hc as [(->&?)|[st ->]]; [by left| |done]. right. rewrite E2. eexists st, _. done.
Qed.

(** ** A run of one pillow *)

Module Demo.
Fixpoint drive (m : Manager) (gid : Z) (i : nat) (evs : list event) : option Manager :=
  match evs with
  | [] => Some m
  | ev :: evs =>
      match gHeap m !! gid with
      | None => None
      | Some g =>
          match gRecords g !! i with
          | None => None
          | Some r =>
              match sup_step (gBed g) (gBedID g) (gShared m) r ev with
              | Some (s', r') => drive (setGroup (withGShared m s') gid (withRecords g (<[i := r']> (gRecords g)))) gid i evs
              | None => None
              end
          end
      end
  end.

Lemma drive_reach m gid i evs m' : pillow_reach m → drive m gid i evs = Some m' → pillow_reach m'.
Proof.
  revert m. induction evs as [|ev evs IH]; intros m Hm; simpl; [by intros [= <-]|].
  destruct (gHeap m !! gid) as [g|] eqn:Hg; [|done]. destruct (gRecords g !! i) as [r|] eqn:Hi; [|done].
  destruct (sup_step _ _ _ r ev) as [[s' r']|] eqn:Hs; [|done]. apply IH. eapply pr_step; [done|]. by eapply ps_supervise.
Qed.

Definition web : PillowSpec :=
  mkPillow [demo_port] (Some (mkProbe None (Some (mkTCP "http")) 0 1 1 1 2)) [] "web" ["--listen"; "${LISTEN_ADDR}"] (Some ["serve"]) "/workspace" ∅ ∅ [] ∅ true "never" 5 5 "".
Definition webBed : Spec := mkSpec None [web] SyncNoop false 0.
Definition start : Manager := (PrepareBed (mkManager (mkShared demo_m0 ∅ 0) ∅ ∅ 0 false) 1 "bed" [web]).2.
Definition launch : list event :=
  [EvGo; EvConfigured (Ok tt); EvNetwork (Ok ("ns", "10.0.0.2")%string); EvReserve webBed (λ _ _, Bound); EvGo;
   EvStarted (Ok ("exec-1", "executor-1")%string); EvGo; EvGo].
Definition failing : check_answers := mkAnswers (Err "proc"%string) (Err "proc"%string) HTTPFailed TCPFailed.
Definition passing : check_answers :=
  let owned := Ok (mkInspection ListenerOwned "proc" "") in mkAnswers owned owned HTTPFailed TCPConnected.
Definition ready : Manager := default start (drive start 0 0 (launch ++ [EvTick passing; EvGo; EvListen (λ _ _, Bound); EvGo])).
Definition stopping : Manager :=
  match gHeap ready !! 0 with Some g => setGroup ready 0 (stopGroup g) | None => ready end.
Definition stopped : Manager := default stopping (drive stopping 0 0
  [EvCancelled; EvClose true; EvGo; EvStopped (Some (mkOutcome ProcessSignaled 0 15 false "" "")); EvClose true; EvClose true; EvGo; EvGo; EvGo]).

Lemma start_reach : pillow_reach start.
Proof.
  eapply pr_step; [|apply ps_prepare]. apply pr_new; [|done]. by apply (mr_new 20000 20010).
Qed.
Lemma ready_reach : pillow_reach ready.
Proof.
  unfold ready. destruct (drive _ _ _ _) eqn:E; simpl; [|apply start_reach]. eapply drive_reach; [apply start_reach|exact E].
Qed.
Lemma stopping_reach : pillow_reach stopping.
Proof.
  unfold stopping. destruct (gHeap ready !! 0) eqn:E; [|apply ready_reach]. eapply pr_step; [apply ready_reach|by apply ps_stop].
Qed.
Lemma stopped_reach : pillow_reach stopped.
Proof.
  unfold stopped. destruct (drive _ _ _ _) eqn:E; simpl; [|apply stopping_reach]. eapply drive_reach; [apply stopping_reach|exact E].
Qed.

Definition groupAt (m : Manager) : group := default (mkGroup 0 "" [] false) (gHeap m !! 0).
Definition recordAt (m : Manager) : record := default (newRecord web) (gRecords (groupAt m) !! 0%nat).
Lemma groupAt_spec m g : gHeap m !! 0 = Some g → g = groupAt m.
Proof. unfold groupAt. by intros ->. Qed.

(** The process was started with its listen address. *)
Example ready_command : pCommand <$> procs (gShared ready) !! 0 = Some ["serve"; "--listen"; "0.0.0.0:8080"]%string.
Proof. vm_compute. reflexivity. Qed.
End Demo.

Lemma ready_pillow_serves_witness :
  stReady (rStatus (Demo.recordAt Demo.ready)) = true ∧
  ∃ ps, Access Demo.ready 1 "web" = Ok ps ∧ mapName <$> ps = ["http"%string] ∧
    Forall (λ p, mapState p = MapListening ∧ mapExecution p = "exec-1"%string) ps.
Proof.
  split; [vm_compute; reflexivity|].
  apply (ready_pillow_serves Demo.ready 1 0 0 (Demo.groupAt Demo.ready) (Demo.recordAt Demo.ready) Demo.ready_reach);
    try (vm_compute; (reflexivity || discriminate)).
  intros [|j] q; [done|]. vm_compute. done.
Defined.

Lemma stopped_bed_is_clean_witness :
  CheckReleased (net (gShared Demo.ready)) 1 = false ∧ groupDone (Demo.groupAt Demo.stopped) = true ∧
  CheckReleased (net (gShared Demo.stopped)) 1 = true.
Proof.
  split; [vm_compute; reflexivity|split; [vm_compute; reflexivity|]].
  apply (stopped_bed_is_clean Demo.stopped 1 Demo.stopped_reach). intros gid g.
  intros Hgid Hg. assert (gid = 0) as ->.
  { change gid with (default 5 (Some gid)). rewrite <-Hgid. vm_compute. reflexivity. }
  rewrite (Demo.groupAt_spec _ _ Hg). vm_compute. reflexivity.
Defined.

Lemma restart_budget_respected_witness :
  lLaunches (Demo.recordAt Demo.ready) = 1 ∧ lLaunches (Demo.recordAt Demo.ready) <= 6.
Proof.
  split; [vm_compute; reflexivity|].
  apply (restart_budget_respected Demo.ready 0 0 (Demo.groupAt Demo.ready) (Demo.recordAt Demo.ready) Demo.ready_reach).
  split; vm_compute; reflexivity.
Defined.

Lemma cancelled_supervisor_terminates_witness :
  rCancelled (Demo.recordAt Demo.stopping) = true ∧
  ∀ n m', schedule 0 0 n Demo.stopping m' → Z.of_nat n <= 12.
Proof.
  split; [vm_compute; reflexivity|].
  apply (cancelled_supervisor_terminates Demo.stopping 0 0 (Demo.groupAt Demo.stopping) (Demo.recordAt Demo.stopping)
    Demo.stopping_reach); [split; vm_compute; reflexivity|vm_compute; reflexivity].
Defined.

