(* ===== verification/PillowSpec.v ===== *)
(** * PillowSpec: validation of pillow declarations

    Models [internal/bed/pillow/spec.go], [internal/bed/pillow/probe_spec.go] and
    the validation of configuration references ([internal/bed/configuration/spec.go]).
    The digest of a declaration (SHA-256 of its JSON text) is a parameter.  Maps
    are validated entry by entry, so the order Go visits them in only decides
    which of several errors is reported; errors carry no detail here. *)

From S2P Require Import Prelude Netip Bed Volumes Pillow.

Inductive spec_err := NoPillows | BadMounts (e : path_err) | BadName | BadWorkdir | NeedsCommand | EmptyCommand
  | CommandNUL | BadRestartPolicy | BadDeadlines | BadConfiguration | BadPort | BadProbe | DefinitionChanged | PortDeclaredTwice
  | PortManagerMissing.

(** ** Names *)

(** [^[a-zA-Z0-9][a-zA-Z0-9_.-]{0,63}$] *)
Definition nameChar (c : ascii) : bool := is_alnum c || bool_decide (c = "_"%char) || bool_decide (c = "."%char) || bool_decide (c = "-"%char).
Definition identifier (s : string) : bool :=
  match to_list s with
  | [] => false
  | c :: l => is_alnum c && forallb nameChar l && bool_decide (length l <= 63)%nat
  end.

(** ** Configuration references *)

Definition letterOr_ (c : ascii) : bool := is_upper c || is_lower c || bool_decide (c = "_"%char).
(** [^[A-Za-z_][A-Za-z0-9_]*$] *)
Definition variable (s : string) : bool :=
  match to_list s with [] => false | c :: l => letterOr_ c && forallb (λ c, letterOr_ c || is_digit c) l end.
Definition ValidName (s : string) : bool :=
  variable s && negb (has_prefix s "HOSTEL_") && negb (has_prefix s "BED_")
  && negb (bool_decide (s = "PLAYWRIGHT_MCP_CDP_ENDPOINT"%string)).
Definition validKey (key : string) : bool :=
  negb (bool_decide (key = ""%string)) && negb (bool_decide (key = "."%string)) && negb (has_prefix key "..")
  && negb (contains_byte 47 key || contains_byte 92 key || contains_byte 0 key).

Definition ValidateEnv (env : gmap string string) : bool :=
  forallb (λ kv : string * string, ValidName kv.1 && negb (contains_byte 0 kv.2)) (map_to_list env).
Definition known {A} (m : gmap string A) (name : string) : bool := bool_decide (is_Some (m !! name)).
Definition Validate (s : PillowSpec) : bool :=
  ValidateEnv (Env s)
  && forallb (λ kv : string * string,
       ValidName kv.1 && IsAbs kv.2 && negb (contains_byte 0 kv.2) && negb (known (Env s) kv.1)) (map_to_list (EnvFiles s))
  && forallb (λ kv : string * ConfigurationKeyRef,
       ValidName kv.1 && negb (bool_decide (RefSource kv.2 = ""%string)) && validKey (RefKey kv.2)
       && negb (known (Env s) kv.1) && negb (known (EnvFiles s) kv.1)) (map_to_list (EnvValueFrom s))
  && forallb (λ source, negb (bool_decide (source = ""%string))) (EnvFrom s).

(** ** Ports and probes *)

Definition allDigits (s : string) : bool := forallb is_digit (to_list s).

Definition normalizePort (p : PillowPort) : result spec_err PillowPort :=
  check! identifier (PortName p) else BadPort;
  check! negb (allDigits (PortName p)) else BadPort;
  let protocol := if bool_decide (PortProtocol p = ""%string) then "TCP"%string else PortProtocol p in
  check! bool_decide (protocol = "TCP"%string) else BadPort;
  check! (if Dynamic p then ContainerPort p =? 0 else negb ((ContainerPort p <? 1) || (65535 <? ContainerPort p))) else BadPort;
  Ok (mkPort (PortName p) (ContainerPort p) protocol (Dynamic p) (PortPublish p)).

(** [url.ParseRequestURI] on a path that starts with one slash: no control byte,
    and every percent sign before the query starts an escape. *)
Definition isHex (c : ascii) : bool := is_digit c || in_range 97 102 c || in_range 65 70 c.
Fixpoint escapesOk (l : list ascii) : bool :=
  match l with
  | [] => true
  | c :: l' =>
      if bool_decide (c = "?"%char) then true
      else if bool_decide (c = "%"%char) then
        match l' with a :: b :: l'' => isHex a && isHex b && escapesOk l'' | _ => false end
      else escapesOk l'
  end.
Definition requestPath (s : string) : bool :=
  has_prefix s "/" && negb (has_prefix s "//")
  && forallb (λ c, negb ((byte c <? 32) || (byte c =? 127))) (to_list s) && escapesOk (to_list s).

Definition withProbe (s : PillowSpec) (ports : list PillowPort) (probe : option Probe) : PillowSpec :=
  mkPillow ports probe (Mounts s) (PillowName s) (Args s) (Command s) (Workdir s) (Env s) (EnvFiles s) (EnvFrom s)
    (EnvValueFrom s) (Required s) (RestartPolicy s) (MaxRestarts s) (StopSeconds s) (SpecDigest s).

Definition orDefault (n d : Z) : Z := if n =? 0 then d else n.

(** The probe part of [normalizePortsAndProbe]; [s] has its ports normalised. *)
Definition normalizeProbe (s : PillowSpec) (probe : Probe) : result spec_err Probe :=
  check! negb (Bool.eqb (bool_decide (HTTPGet probe = None)) (bool_decide (TCPSocket probe = None))) else BadProbe;
  check! negb ((InitialDelaySeconds probe <? 0) || (TimeoutSeconds probe <? 0) || (PeriodSeconds probe <? 0)
               || (SuccessThreshold probe <? 0) || (FailureThreshold probe <? 0)) else BadProbe;
  check! negb ((86400 <? InitialDelaySeconds probe) || (3600 <? TimeoutSeconds probe) || (3600 <? PeriodSeconds probe)
               || (1000 <? SuccessThreshold probe) || (1000 <? FailureThreshold probe)) else BadProbe;
  let http := (λ h, mkHTTPGet (if bool_decide (HTTPPath h = ""%string) then "/"%string else HTTPPath h) (HTTPPort h)) <$> HTTPGet probe in
  check! (match http with Some h => requestPath (HTTPPath h) | None => true end) else BadProbe;
  let probe := mkProbe http (TCPSocket probe) (InitialDelaySeconds probe) (orDefault (TimeoutSeconds probe) 1)
    (orDefault (PeriodSeconds probe) 10) (orDefault (SuccessThreshold probe) 1) (orDefault (FailureThreshold probe) 3) in
  let name := probePortName (withProbe s (Ports s) (Some probe)) in
  check! negb (bool_decide (name = ""%string)) else BadProbe;
  Ok (mkProbe ((λ h, mkHTTPGet (HTTPPath h) name) <$> HTTPGet probe) ((λ _, mkTCP name) <$> TCPSocket probe)
    (InitialDelaySeconds probe) (TimeoutSeconds probe) (PeriodSeconds probe) (SuccessThreshold probe) (FailureThreshold probe)).

Definition normalizePortsAndProbe (s : PillowSpec) : result spec_err PillowSpec :=
  ports <-! res_map normalizePort (Ports s);
  let s := withProbe s ports (ReadinessProbe s) in
  match ReadinessProbe s with
  | None => Ok s
  | Some probe => probe <-! normalizeProbe s probe; Ok (withProbe s ports (Some probe))
  end.

(** ** One declaration *)

Definition withProcess (s : PillowSpec) (policy : string) (restarts stop : Z) : PillowSpec :=
  mkPillow (Ports s) (ReadinessProbe s) (Mounts s) (PillowName s) (Args s) (Command s) (Workdir s) (Env s) (EnvFiles s) (EnvFrom s)
    (EnvValueFrom s) (Required s) policy restarts stop (SpecDigest s).
Definition withPlace (s : PillowSpec) (mounts : list VolumeMount) (workdir digest : string) : PillowSpec :=
  mkPillow (Ports s) (ReadinessProbe s) mounts (PillowName s) (Args s) (Command s) workdir (Env s) (EnvFiles s) (EnvFrom s)
    (EnvValueFrom s) (Required s) (RestartPolicy s) (MaxRestarts s) (StopSeconds s) digest.

(** The settings of the main process. *)
Definition normalizeProcess (s : PillowSpec) : result spec_err PillowSpec :=
  match commandOf s with
  | [] =>
      check! negb (bool_decide (Command s ≠ None) || negb (bool_decide (Args s = [])) || negb (bool_decide (RestartPolicy s = ""%string))
        || Required s || negb (MaxRestarts s =? 0) || negb (StopSeconds s =? 0) || negb (bool_decide (Ports s = []))
        || negb (bool_decide (ReadinessProbe s = None))) else NeedsCommand;
      Ok s
  | c :: cs =>
      check! negb (bool_decide (c = ""%string)) else EmptyCommand;
      check! negb (existsb (contains_byte 0) ((c :: cs) ++ Args s)) else CommandNUL;
      let policy := if bool_decide (RestartPolicy s = ""%string) then "never"%string else RestartPolicy s in
      check! bool_decide (policy ∈ ["never"; "on-failure"; "always"]%string) && negb ((MaxRestarts s <? 0) || (100 <? MaxRestarts s))
        else BadRestartPolicy;
      let restarts := orDefault (MaxRestarts s) 5 in
      let stop := orDefault (StopSeconds s) 5 in
      check! negb ((stop <? 1) || (30 <? stop)) else BadDeadlines;
      Ok (withProcess s policy restarts stop)
  end.

Section normalize.
Variable digestOf : PillowSpec → string.

(** One round of the loop of [Normalize]; [seen] are the names so far. *)
Definition normalizeOne (seen : list string) (s : PillowSpec) : result spec_err PillowSpec :=
  match NormalizeMounts (Mounts s) with
  | Err e => Err (BadMounts e)
  | Ok mounts =>
      let providedDigest := SpecDigest s in
      check! identifier (PillowName s) && negb (bool_decide (PillowName s ∈ seen)) else BadName;
      let workdir := if bool_decide (Workdir s = ""%string) then "/workspace"%string else Workdir s in
      check! IsAbs workdir && negb (contains_byte 0 workdir) else BadWorkdir;
      s <-! normalizeProcess (withPlace s mounts (Clean workdir) "");
      check! Validate s else BadConfiguration;
      s <-! normalizePortsAndProbe s;
      let digest := digestOf s in
      check! bool_decide (providedDigest = ""%string) || bool_decide (providedDigest = digest) else DefinitionChanged;
      Ok (withPlace s (Mounts s) (Workdir s) digest)
  end.

(** [validateBedPorts] *)
Fixpoint validateBedPorts (names : list string) (numbers : list Z) (ports : list PillowPort) : bool :=
  match ports with
  | [] => true
  | p :: ports =>
      negb (bool_decide (PortName p ∈ names))
      && (Dynamic p || negb (bool_decide (ContainerPort p ∈ numbers)))
      && validateBedPorts (PortName p :: names) (if Dynamic p then numbers else ContainerPort p :: numbers) ports
  end.

Definition Normalize (specs : list PillowSpec) : result spec_err (list PillowSpec) :=
  check! negb (bool_decide (specs = [])) else NoPillows;
  out <-! accumulate (λ prev s, normalizeOne (PillowName <$> prev) s) [] specs;
  check! validateBedPorts [] [] (p ← out; Ports p) else PortDeclaredTwice;
  Ok out.

(** [Manager.Resolve]: ports need a port manager. *)
Definition Resolve (available : bool) (specs : list PillowSpec) : result spec_err (list PillowSpec) :=
  out <-! Normalize specs;
  check! bool_decide (NetworkPorts (mkSpec None out SyncNoop false 0) = []) || available else PortManagerMissing;
  Ok out.
End normalize.

(** ** Normalisation is stable *)

(** Take a chain of checks apart. *)
Ltac checks :=
  repeat match goal with
  | |- (if ?c then _ else Err _) = Ok _ → _ => let E := fresh "E" in destruct c eqn:E; [|done]
  | |- res_bind ?r _ = Ok _ → _ => let E := fresh "E" in destruct r eqn:E; [cbn [res_bind]|done]
  end.

Lemma orDefault_idem n d : d ≠ 0 → orDefault (orDefault n d) d = orDefault n d.
Proof. unfold orDefault. intros Hd. destruct (Z.eqb_spec n 0); [by apply Z.eqb_neq in Hd as ->|by destruct (Z.eqb_spec n 0)]. Qed.
Lemma orDefault_range n d lo hi : lo <= d <= hi → (n = 0 ∨ lo <= n <= hi) → lo <= orDefault n d <= hi.
Proof. unfold orDefault. destruct (Z.eqb_spec n 0); lia. Qed.

(** A port is a listener of one kind. *)
Definition port_ok (p : PillowPort) : Prop :=
  identifier (PortName p) = true ∧ allDigits (PortName p) = false ∧ PortProtocol p = "TCP"%string ∧
  (if Dynamic p then ContainerPort p = 0 else 1 <= ContainerPort p <= 65535).

Lemma normalizePort_iff p q : normalizePort p = Ok q → port_ok q ∧ normalizePort q = Ok q.
Proof.
  unfold normalizePort. checks. intros [= <-]. rewrite !(bool_decide_eq_true) in *. unfold port_ok. cbn [PortName PortProtocol Dynamic ContainerPort PortPublish].
  reflect_bools. rewrite E, E0, E1, E2. split_and!; try done.
  destruct (Dynamic p); reflect_bools; lia.
Qed.

(** A name is never a number for [strconv.Atoi]. *)
Lemma Atoi_name name : identifier name = true → allDigits name = false → Atoi (to_list name) = None.
Proof.
  unfold identifier, allDigits, Atoi. destruct (to_list name) as [|c l]; [done|]. intros H Hd. reflect_bools.
  assert (c ≠ minus_char ∧ c ≠ plus_char) as [Hm Hp] by (split; intros ->; done).
  rewrite !bool_decide_false by done. unfold digitsValue. rewrite Hd. by rewrite orb_true_r.
Qed.

Definition pinned (name : string) (probe : Probe) : Probe :=
  mkProbe ((λ h, mkHTTPGet (HTTPPath h) name) <$> HTTPGet probe) ((λ _, mkTCP name) <$> TCPSocket probe)
    (InitialDelaySeconds probe) (TimeoutSeconds probe) (PeriodSeconds probe) (SuccessThreshold probe) (FailureThreshold probe).

(** The port a probe was resolved to keeps being the one it names. *)
Lemma probe_name_pinned s s' probe :
  Forall port_ok (Ports s) → ReadinessProbe s = Some probe → probePortName s ≠ ""%string →
  (HTTPGet probe ≠ None ∨ TCPSocket probe ≠ None) → Ports s' = Ports s → ReadinessProbe s' = Some (pinned (probePortName s) probe) →
  probePortName s ∈ PortName <$> Ports s ∧ probePortName s' = probePortName s.
Proof.
  intros Hok Hpr Hne Hone Hports Hpr'. unfold probePortName in *. rewrite Hpr, Hpr', Hports in *.
  set (f := λ p, _ || _) in *. destruct (List.filter f (Ports s)) as [|p l] eqn:E; [done|].
  assert (p ∈ Ports s) as Hin.
  { apply list_elem_of_In. assert (In p (List.filter f (Ports s))) as [? _]%filter_In by (rewrite E; by left). done. }
  rewrite Forall_forall in Hok. destruct (Hok p Hin) as (Hid&Hnd&_).
  assert (probeReference (pinned (PortName p) probe) = PortName p) as Href.
  { unfold probeReference, pinned. simpl. destruct (TCPSocket probe), (HTTPGet probe); try done. naive_solver. }
  rewrite Href, (Atoi_name _ Hid Hnd). split; [by apply list_elem_of_fmap_2|].
  set (h := λ q : PillowPort, _ || false).
  destruct (List.filter h (Ports s)) as [|q l'] eqn:E'.
  - assert (In p (List.filter h (Ports s))) as Hp by (apply filter_In; split; [by apply list_elem_of_In|]; unfold h; by rewrite bool_decide_true).
    by rewrite E' in Hp.
  - assert (In q (List.filter h (Ports s))) as [_ Hq]%filter_In by (rewrite E'; by left). unfold h in Hq.
    rewrite orb_false_r in Hq. by apply bool_decide_eq_true in Hq.
Qed.

Definition probe_ok (probe : Probe) : Prop :=
  (HTTPGet probe = None ↔ TCPSocket probe ≠ None) ∧ 0 <= InitialDelaySeconds probe <= 86400 ∧
  1 <= TimeoutSeconds probe <= 3600 ∧ 1 <= PeriodSeconds probe <= 3600 ∧
  1 <= SuccessThreshold probe <= 1000 ∧ 1 <= FailureThreshold probe <= 1000 ∧
  (∀ h, HTTPGet probe = Some h → requestPath (HTTPPath h) = true).

Lemma withProbe_twice s ports ports' probe probe' : withProbe (withProbe s ports probe) ports' probe' = withProbe s ports' probe'.
Proof. done. Qed.
Lemma withProbe_same s : withProbe s (Ports s) (ReadinessProbe s) = s.
Proof. by destruct s. Qed.

(** A probe that needs no default is accepted as it is. *)
Lemma normalizeProbe_fixed s probe :
  probe_ok probe → probePortName (withProbe s (Ports s) (Some probe)) ≠ ""%string →
  pinned (probePortName (withProbe s (Ports s) (Some probe))) probe = probe → normalizeProbe s probe = Ok probe.
Proof.
  intros (H1&H2&H3&H4&H5&H6&H7) Hne Hpin. unfold normalizeProbe.
  assert (negb (Bool.eqb (bool_decide (HTTPGet probe = None)) (bool_decide (TCPSocket probe = None))) = true) as ->.
  { destruct (HTTPGet probe), (TCPSocket probe); simpl; try done; exfalso; naive_solver. }
  repeat match goal with |- context [?a <? ?b] => rewrite (proj2 (Z.ltb_ge a b)) by lia end. cbn [orb negb].
  assert ((λ h, mkHTTPGet (if bool_decide (HTTPPath h = ""%string) then "/"%string else HTTPPath h) (HTTPPort h)) <$> HTTPGet probe
    = HTTPGet probe) as ->.
  { destruct (HTTPGet probe) as [[path port]|] eqn:E; [|done]. simpl. specialize (H7 _ eq_refl). simpl in H7.
    case_bool_decide; [|done]. by subst path. }
  assert ((match HTTPGet probe with Some h => requestPath (HTTPPath h) | None => true end) = true) as -> by (destruct (HTTPGet probe); auto).
  unfold orDefault. repeat match goal with |- context [?a =? 0] => rewrite (proj2 (Z.eqb_neq a 0)) by lia end.
  replace (mkProbe (HTTPGet probe) _ _ _ _ _ _) with probe by (by destruct probe).
  rewrite bool_decide_false by done. simpl. f_equal. exact Hpin.
Qed.

Lemma normalizeProbe_ok s probe q :
  Forall port_ok (Ports s) → normalizeProbe s probe = Ok q →
  probe_ok q ∧ probePortName (withProbe s (Ports s) (Some q)) ∈ PortName <$> Ports s ∧ normalizeProbe s q = Ok q.
Proof.
  intros Hp. unfold normalizeProbe at 1. checks.
  set (http := (λ h, mkHTTPGet _ _) <$> HTTPGet probe) in *. set (p1 := mkProbe http _ _ _ _ _ _) in *.
  set (name := probePortName (withProbe s (Ports s) (Some p1))) in *. intros [= Hq].
  change (pinned name p1 = q) in Hq. apply negb_true_iff, bool_decide_eq_false in E3. apply negb_true_iff in E, E0, E1.
  assert (HTTPGet p1 = None ↔ HTTPGet probe = None) as Hh by (simpl; unfold http; destruct (HTTPGet probe); simpl; split; done).
  assert (HTTPGet probe = None ↔ TCPSocket probe ≠ None) as Hone.
  { destruct (HTTPGet probe), (TCPSocket probe); simpl in E; try done; naive_solver. }
  assert (probe_ok q) as Hok.
  { subst q. unfold probe_ok, pinned. cbn [HTTPGet TCPSocket InitialDelaySeconds TimeoutSeconds PeriodSeconds SuccessThreshold FailureThreshold].
    reflect_bools. split.
    - unfold http. simpl. destruct (HTTPGet probe), (TCPSocket probe); simpl; naive_solver.
    - unfold p1. cbn [InitialDelaySeconds TimeoutSeconds PeriodSeconds SuccessThreshold FailureThreshold].
      pose proof (orDefault_range (TimeoutSeconds probe) 1 1 3600). pose proof (orDefault_range (PeriodSeconds probe) 10 1 3600).
      pose proof (orDefault_range (SuccessThreshold probe) 1 1 1000). pose proof (orDefault_range (FailureThreshold probe) 3 1 1000).
      split_and!; try lia.
      intros h. unfold http in *. destruct (HTTPGet probe); simpl; [|done]. intros [= <-]. exact E2. }
  destruct (probe_name_pinned (withProbe s (Ports s) (Some p1)) (withProbe s (Ports s) (Some q)) p1 Hp eq_refl E3) as [Hin Hname].
  - rewrite Hh. destruct (HTTPGet probe), (TCPSocket probe); naive_solver.
  - done.
  - by subst q.
  - fold name in Hin, Hname. split_and!; [done|by rewrite Hname|].
    apply normalizeProbe_fixed; [done|by rewrite Hname|]. rewrite Hname, <-Hq. unfold pinned. simpl. f_equal; [by destruct http|].
    by destruct (TCPSocket probe).
Qed.

Lemma res_map_nil {E A B} (f : A → result E B) l out : res_map f l = Ok out → l = [] ↔ out = [].
Proof.
  destruct l as [|x l]; simpl; [by intros [= <-]|]. destruct (f x); [|done]. simpl. destruct (res_map f l); [|done].
  by intros [= <-].
Qed.

Lemma normalizePortsAndProbe_ok s t :
  normalizePortsAndProbe s = Ok t →
  t = withProbe s (Ports t) (ReadinessProbe t) ∧ (Ports s = [] ↔ Ports t = []) ∧ (ReadinessProbe s = None ↔ ReadinessProbe t = None) ∧
  Forall port_ok (Ports t) ∧
  (∀ probe, ReadinessProbe t = Some probe → probe_ok probe ∧ probePortName t ∈ PortName <$> Ports t) ∧
  ∀ u, Ports u = Ports t → ReadinessProbe u = ReadinessProbe t → normalizePortsAndProbe u = Ok u.
Proof.
  unfold normalizePortsAndProbe. destruct (res_map normalizePort (Ports s)) as [ports|] eqn:Ep; [|done]. cbn [res_bind].
  assert (Forall port_ok ports) as Hports by (eapply res_map_forall; [|exact Ep]; intros x y Hx; by apply (normalizePort_iff x)).
  assert (res_map normalizePort ports = Ok ports) as Hst.
  { eapply res_map_stable; [|exact Ep]. intros x y Hx. by apply (normalizePort_iff x). }
  pose proof (res_map_nil _ _ _ Ep) as Hnil.
  cbn [ReadinessProbe withProbe]. destruct (ReadinessProbe s) as [probe|] eqn:Es; simpl.
  - destruct (normalizeProbe _ probe) as [q|] eqn:Hq; [|done]. apply normalizeProbe_ok in Hq as (Hok&Hin&Hfix); [|done].
    intros [= <-]. cbn [Ports ReadinessProbe withProbe]. do 3 (split; [done|]). split_and!; [done|by intros ? [= <-]|].
    intros u Hu Hr. rewrite Hu, Hst. cbn [res_bind]. rewrite Hr.
    enough (normalizeProbe (withProbe u ports (Some q)) q = Ok q) as -> by (cbn [res_bind]; rewrite <-Hu, <-Hr; by destruct u).
    exact Hfix.
  - intros [= <-]. cbn [Ports ReadinessProbe withProbe]. do 3 (split; [done|]). split_and!; [done|done|]. intros u Hu Hr. rewrite Hu, Hst. cbn [res_bind].
    rewrite Hr. rewrite <-Hu, <-Hr. by destruct u.
Qed.

(** ** The process and the place *)

Definition process_ok (s : PillowSpec) : Prop :=
  match commandOf s with
  | [] => Ports s = [] ∧ ReadinessProbe s = None ∧ Required s = false ∧ RestartPolicy s = ""%string
  | c :: cs => c ≠ ""%string ∧ RestartPolicy s ∈ ["never"; "on-failure"; "always"]%string ∧
      1 <= MaxRestarts s <= 100 ∧ 1 <= StopSeconds s <= 30
  end.

Lemma normalizeProcess_ok s t :
  normalizeProcess s = Ok t →
  t = withProcess s (RestartPolicy t) (MaxRestarts t) (StopSeconds t) ∧ process_ok t ∧
  ∀ u, Command u = Command t → Args u = Args t → Required u = Required t → RestartPolicy u = RestartPolicy t →
    MaxRestarts u = MaxRestarts t → StopSeconds u = StopSeconds t → (Ports u = [] ↔ Ports t = []) →
    (ReadinessProbe u = None ↔ ReadinessProbe t = None) → normalizeProcess u = Ok u.
Proof.
  unfold normalizeProcess, process_ok, commandOf. destruct (default [] (Command s)) as [|c cs] eqn:Ec.
  - checks. intros [= <-]. split; [by destruct s|]. rewrite Ec. pose proof E as E'. revert E. apply negb_true_iff in E'.
    repeat (apply orb_false_iff in E' as [E' ?]). reflect_bools. intros E. split; [done|].
    intros u Hc Ha Hr Hp Hm Hs Hpo Hpr. rewrite Hc, Ec, Ha, Hr, Hp, Hm, Hs.
    rewrite (bool_decide_ext _ _ Hpo), (bool_decide_ext _ _ Hpr), E. done.
  - set (policy := if bool_decide (RestartPolicy s = ""%string) then "never"%string else RestartPolicy s). clearbody policy.
    checks. intros [= <-]. cbn [withProcess Command Args Required Ports ReadinessProbe RestartPolicy MaxRestarts StopSeconds]. rewrite Ec. split; [done|].
    apply andb_true_iff in E1 as [E1 E1']. reflect_bools.
    assert (1 <= orDefault (MaxRestarts s) 5 <= 100) by (apply orDefault_range; lia).
    split; [split_and!; try done; lia|]. intros u Hc Ha Hr Hp Hm Hs Hpo Hpr. rewrite Hc, Ec, Ha.
    rewrite (bool_decide_false _ E), E0. cbn [negb].
    assert ((if bool_decide (RestartPolicy u = "")%string then "never"%string else RestartPolicy u) = RestartPolicy u) as ->.
    { rewrite Hp. case_bool_decide as Hx; [|done]. rewrite Hx in E1. by repeat (apply elem_of_cons in E1 as [?|E1]; [done|]); apply elem_of_nil in E1. }
    rewrite Hp, (bool_decide_true _ E1), Hm, Hs, !orDefault_idem by done.
    repeat match goal with |- context [?a <? ?b] => rewrite (proj2 (Z.ltb_ge a b)) by lia end. simpl. f_equal.
    rewrite <-Hp, <-Hm, <-Hs. by destruct u.
Qed.

(** ** Paths without NUL *)

Definition no_nul (s : string) : Prop := contains_byte 0 s = false.

Lemma no_nul_app a b : no_nul (a +:+ b) ↔ no_nul a ∧ no_nul b.
Proof.
  unfold no_nul, contains_byte. induction a as [|c a IH]; [by simpl; tauto|].
  change (to_list (String c a +:+ b)) with (c :: to_list (a +:+ b)). cbn [to_list existsb]. rewrite !orb_false_iff, IH. tauto.
Qed.
Lemma no_nul_cons c s : no_nul (String c s) ↔ byte c ≠ 0 ∧ no_nul s.
Proof. unfold no_nul, contains_byte. cbn [to_list existsb]. rewrite orb_false_iff, Z.eqb_neq. done. Qed.

Lemma no_nul_split s : no_nul s → Forall no_nul (split s).
Proof.
  induction s as [|c s IH]; simpl; [by constructor|]. intros [Hc Hs%IH]%no_nul_cons. case_decide; [by constructor|].
  destruct (split s) as [|h t]; [|inversion Hs; subst; constructor; [by apply no_nul_cons|done]].
  constructor; [by apply no_nul_cons|constructor].
Qed.
Lemma no_nul_join l : Forall no_nul l → no_nul (join l).
Proof.
  induction 1 as [|x l Hx Hl IH]; [done|]. destruct l as [|y l]; [done|]. change (no_nul (x +:+ "/" +:+ join (y :: l))).
  rewrite !no_nul_app. done.
Qed.
Lemma no_nul_clean p : no_nul p → no_nul (Clean p).
Proof.
  intros Hp. assert (Forall no_nul (cleanComps p)) as Hc.
  { unfold cleanComps. apply Forall_reverse. pose proof (no_nul_split p Hp) as Hs. revert Hs.
    assert (Forall no_nul []) as Hacc by constructor. revert Hacc. generalize (@nil string) as acc. induction (split p) as [|c l IH]; intros acc Ha Hl; [done|].
    inversion Hl; subst. simpl. apply IH; [|done]. unfold clean_step. repeat case_decide; [done| |by constructor].
    destruct acc as [|h t]; [by case_match; repeat constructor|]. case_decide; [by constructor|]. by inversion Ha. }
  unfold Clean. case_match; [|destruct (cleanComps p); [done|by apply no_nul_join]].
  apply no_nul_app. split; [done|by apply no_nul_join].
Qed.

Lemma normalize_mounts_stable mounts out : NormalizeMounts mounts = Ok out → NormalizeMounts out = Ok out.
Proof.
  intros (Hok&Hpair&Hperm&Hsort)%normalize_mounts_ok.
  assert (cleanMount <$> out = out) as Hfix.
  { apply fmap_fixed, Forall_forall. intros x Hx. rewrite Hperm in Hx. apply list_elem_of_fmap in Hx as (y&->&_).
    unfold cleanMount. simpl. by rewrite clean_normal. }
  unfold NormalizeMounts.
  rewrite (proj2 (accumulate_spec normalizeMount cleanMount mount_ok disjoint_mounts normalizeMount_spec out [] out I)).
  - cbn [res_bind]. f_equal. refine (merge_sort_fixed mount_le _ _ _); [|done]. intros x y Hx Hy Hxy Hyx.
    destruct (decide (x = y)) as [?|Hne]; [done|]. exfalso.
    destruct (pairwise_elem _ _ x y disjoint_mounts_sym Hpair Hx Hy Hne) as [_ Ho].
    assert (MountPath x = MountPath y) as E by (by apply (anti_symm str_le)). rewrite E in Ho. unfold PathsOverlap in Ho.
    by rewrite bool_decide_true in Ho.
  - simpl. by rewrite Hfix.
Qed.

(** ** The whole declaration *)

(** What an accepted declaration satisfies. *)
Record declaration_ok (s : PillowSpec) : Prop := {
  dc_name : identifier (PillowName s) = true;
  dc_workdir : IsAbs (Workdir s) = true ∧ Clean (Workdir s) = Workdir s;
  dc_process : process_ok s;
  dc_ports : Forall port_ok (Ports s);
  dc_probe : ∀ probe, ReadinessProbe s = Some probe → probe_ok probe ∧ probePortName s ∈ PortName <$> Ports s;
  dc_config : Validate s = true;
}.

Section stable.
Variable digestOf : PillowSpec → string.

Lemma normalizeOne_ok seen s y :
  normalizeOne digestOf seen s = Ok y →
  PillowName y = PillowName s ∧ PillowName s ∉ seen ∧ declaration_ok y ∧ normalizeOne digestOf seen y = Ok y.
Proof.
  unfold normalizeOne at 1. destruct (NormalizeMounts (Mounts s)) as [mounts|] eqn:Em; [|done]. cbn zeta.
  set (workdir := if bool_decide (Workdir s = ""%string) then "/workspace"%string else Workdir s). checks.
  apply andb_true_iff in E as [Hid Hseen], E0 as [Habs Hnul].
  destruct (normalizeProcess_ok _ _ E1) as (Ea&Hproc&Hproc'). rename a into t1.
  destruct (normalizePortsAndProbe_ok _ _ E3) as (Eb&Hn1&Hn2&Hports&Hprobe&Hpp). rename a0 into t2. intros [= <-].
  set (y := withPlace t2 (Mounts t2) (Workdir t2) (digestOf t2)).
  assert (t2 = withPlace y (Mounts t2) (Workdir t2) ""%string ∧ Mounts t2 = mounts ∧ Workdir t2 = Clean workdir ∧
    PillowName t2 = PillowName s) as (Et&Hmo&Hwd&Hna).
  { unfold y. rewrite Eb, Ea. by split_and!. }
  assert (normalizeProcess t2 = Ok t2) as Hp2 by (apply Hproc'; [by rewrite Eb..|by rewrite Hn1|by rewrite Hn2]).
  assert (IsAbs (Clean workdir) = true ∧ no_nul (Clean workdir)) as [Hca Hcn].
  { rewrite is_abs_clean. split; [done|]. apply no_nul_clean. by apply negb_true_iff. }
  assert (Validate t2 = true) as Hval by (by rewrite Eb).
  split_and!; [done|by apply negb_true_iff, bool_decide_eq_false in Hseen| |].
  - split; simpl; [by rewrite Hna|by rewrite Hwd, clean_normal| |done| |done].
    + destruct (normalizeProcess_ok _ _ Hp2) as (_&?&_). done.
    + intros probe Hpr. destruct (Hprobe probe Hpr) as [? Hin]. split; [done|]. exact Hin.
  - unfold normalizeOne. replace (Mounts y) with mounts by done. rewrite (normalize_mounts_stable _ _ Em). cbn zeta.
    replace (PillowName y) with (PillowName s) by done. rewrite Hid, Hseen. cbn [andb].
    replace (Workdir y) with (Clean workdir) by done.
    rewrite (bool_decide_false (Clean workdir = ""%string)) by (intros E; by rewrite E in Hca).
    unfold no_nul in Hcn. rewrite Hca, Hcn, clean_normal. cbn [andb negb]. rewrite <-Hmo, <-Hwd, <-Et, Hp2. cbn [res_bind].
    rewrite Hval, (Hpp t2 eq_refl eq_refl). cbn [res_bind]. replace (SpecDigest y) with (digestOf t2) by done.
    rewrite (bool_decide_true (digestOf t2 = digestOf t2)) by done. by rewrite orb_true_r.
Qed.
End stable.

Definition zeroPillow_named (name : string) : PillowSpec :=
  mkPillow [] None [] name [] None "" ∅ ∅ [] ∅ false "" 0 0 "".

(** Normalising a bed's pillows is stable.  The pinned declarations, digests
    included, are accepted again exactly as they are, so that a recovered bed
    passes the check against changed definitions whatever the digest function. *)
Lemma normalize_pillows_stable digestOf specs out :
  Normalize digestOf specs = Ok out → Normalize digestOf out = Ok out.
Proof.
  unfold Normalize. checks. intros [= <-]. rename a into out. pose proof (accumulate_length _ _ _ _ E0) as Hlen.
  apply accumulate_stable in E0 as (l'&->&E0); [|intros prev x y Hx; by apply (normalizeOne_ok _ _ x y) in Hx as (_&_&_&?)].
  simpl in *. rewrite E0. cbn [res_bind]. rewrite E1. by destruct specs, l'.
Qed.

(** ** What is accepted *)

Lemma names_distinct digestOf l prev out :
  accumulate (λ prev s, normalizeOne digestOf (PillowName <$> prev) s) prev l = Ok out →
  NoDup (PillowName <$> prev) → NoDup (PillowName <$> out).
Proof.
  revert prev. induction l as [|x l IH]; intros prev; simpl; [by intros [= <-]|].
  destruct (normalizeOne _ _ x) as [y|] eqn:Hy; [|done]. apply normalizeOne_ok in Hy as (Hn&Hs&_). simpl. intros H Hd.
  apply (IH (prev ++ [y]) H). rewrite fmap_app. apply NoDup_app. split_and!; [done| |apply NoDup_singleton].
  simpl. rewrite Hn. intros n Hin ->%list_elem_of_singleton. done.
Qed.

Definition fixedPorts (ports : list PillowPort) : list Z := ContainerPort <$> filter (λ p, Dynamic p = false) ports.

Lemma validateBedPorts_ok names numbers ports :
  validateBedPorts names numbers ports = true →
  NoDup (PortName <$> ports) ∧ NoDup (fixedPorts ports) ∧
  (∀ n, n ∈ PortName <$> ports → n ∉ names) ∧ (∀ n, n ∈ fixedPorts ports → n ∉ numbers).
Proof.
  revert names numbers. induction ports as [|p ports IH]; intros names numbers; simpl.
  { intros _. unfold fixedPorts. split_and!; try apply NoDup_nil_2; intros n ?%elem_of_nil; done. }
  intros H. apply andb_true_iff in H as [H H3]. apply andb_true_iff in H as [H1 H2].
  apply negb_true_iff, bool_decide_eq_false in H1. apply IH in H3 as (A&B&C&D). unfold fixedPorts in *. rewrite filter_cons.
  split_and!.
  - simpl. constructor; [|done]. intros Hin. apply C in Hin. apply Hin. left.
  - destruct (Dynamic p); [by rewrite decide_False|]. rewrite decide_True by done. simpl. constructor; [|done].
    intros Hin. apply D in Hin. apply Hin. left.
  - intros n [->|Hn]%elem_of_cons; [done|]. apply C in Hn. by intros ?; apply Hn; right.
  - destruct (Dynamic p); [by rewrite decide_False|]. rewrite decide_True by done. simpl in *.
    apply negb_true_iff, bool_decide_eq_false in H2. intros n [->|Hn]%elem_of_cons; [done|].
    apply D in Hn. by intros ?; apply Hn; right.
Qed.

(** Accepted pillows are well formed.  The pillows of a bed have valid, distinct
    names; a pillow without a command declares no process setting, one with a
    command has a known restart policy and bounded deadlines; every port is
    either dynamic or one number of 1..65535, port names and fixed numbers are
    distinct across the bed; a probe has one action, positive bounded timings and
    thresholds, and refers to a port of its own pillow. *)
Lemma accepted_pillows_well_formed digestOf specs out :
  Normalize digestOf specs = Ok out →
  Forall declaration_ok out ∧ NoDup (PillowName <$> out) ∧ length out = length specs ∧
  NoDup (PortName <$> (p ← out; Ports p)) ∧ NoDup (fixedPorts (p ← out; Ports p)).
Proof.
  unfold Normalize. checks. intros [= <-]. rename a into out. split_and!.
  - eapply accumulate_forall; [|by constructor|exact E0]. intros prev x y Hx. by apply normalizeOne_ok in Hx as (_&_&?&_).
  - eapply names_distinct; [exact E0|]. constructor.
  - apply accumulate_length in E0. done.
  - by destruct (validateBedPorts_ok _ _ _ E1) as (?&_).
  - by destruct (validateBedPorts_ok _ _ _ E1) as (_&?&_).
Qed.

Definition demo_pillows : list PillowSpec :=
  [mkPillow [mkPort "http" 8080 "" false true] (Some (mkProbe (Some (mkHTTPGet "" "8080")) None 0 0 0 0 0)) [] "web" []
     (Some ["serve"%string]) "/srv/./app" ∅ ∅ [] ∅ true "" 0 0 "";
   zeroPillow_named "tools"].
Definition demo_digest (s : PillowSpec) : string := "sha:" +:+ PillowName s.
Definition demo_normalized : list PillowSpec :=
  match Normalize demo_digest demo_pillows with Ok out => out | Err _ => [] end.

Example demo_normalized_shape :
  (λ s, (Workdir s, MaxRestarts s, probePortName s, SpecDigest s)) <$> demo_normalized =
  [("/srv/app", 5, "http", "sha:web"); ("/workspace", 0, "", "sha:tools")]%string.
Proof. vm_compute. reflexivity. Qed.

