(* ===== verification/Objects.v ===== *)
(** * Objects: what is durable, and the bucket it is stored in

    Models [internal/bed/store/sync/store.go] and [objects.go]: the trees a
    snapshot is taken of, the filter that selects what is durable, the object
    storage operations the layouts are written against, and the contract of a
    snapshot layout ([Store]).  The bucket is one finite map shared by every
    layout; a key is the list of its components below the configured prefix (a
    bed name and every other component is free of slashes).  Every request can
    fail, as told by [faults]; a failed upload may still have been stored and a
    failed batch deletion may have removed some of its keys. *)

From S2P Require Import Prelude Netip Bed Volumes.

(** ** Trees *)

(** [filepath.WalkDir] yields the entries of a directory with their paths
    relative to it.  Modes and times are left out. *)
Inductive EntryKind := Regular (content : string) | Directory | Symlink (target : string) | Special.
Record Entry := mkEntry { entryPath : string; entryKind : EntryKind }.
Notation Tree := (list Entry).

#[export] Instance EntryKind_eq_dec : EqDecision EntryKind.
Proof. solve_decision. Defined.
#[export] Instance Entry_eq_dec : EqDecision Entry.
Proof. solve_decision. Defined.

Definition paths (t : Tree) : list string := entryPath <$> t.

(** The directory that holds [p]; [None] at the top. *)
Definition parentDir (p : string) : option string :=
  match split p with [_] => None | l => Some (join (removelast l)) end.

(** A tree as the walk yields it: relative clean paths, no path twice, every
    directory before its content. *)
Definition walk_entry (prev : Tree) (e : Entry) : Prop :=
  Forall normal (split (entryPath e)) ∧ entryPath e ∉ paths prev ∧
  (∀ d, parentDir (entryPath e) = Some d → mkEntry d Directory ∈ prev).
Fixpoint walkedFrom (prev t : Tree) : Prop :=
  match t with [] => True | e :: t => walk_entry prev e ∧ walkedFrom (prev ++ [e]) t end.
Definition walked (t : Tree) : Prop := walkedFrom [] t.

#[export] Instance normal_dec c : Decision (normal c).
Proof. unfold normal, no_slash. apply _. Defined.
#[export] Instance walk_entry_dec prev e : Decision (walk_entry prev e).
Proof.
  unfold walk_entry. apply and_dec; [apply _|apply and_dec; [apply _|]].
  destruct (parentDir (entryPath e)) as [d|]; [|left; intros d; discriminate].
  destruct (decide (mkEntry d Directory ∈ prev)) as [H|H]; [left; by intros ? [= <-]|right; auto].
Defined.
#[export] Instance walkedFrom_dec prev t : Decision (walkedFrom prev t).
Proof. revert prev. induction t as [|e t IH]; intros prev; simpl; apply _. Defined.
#[export] Instance walked_dec t : Decision (walked t).
Proof. unfold walked. apply _. Defined.

(** ** What a snapshot keeps ([store.go]) *)

Inductive store_err :=
| BadVolumeRoot | DuplicateVolumeRoot | StatFailed | Conflict | ArchiveFailed | PutFailed | NotFound
| RestoreFailed | DeleteFailed | Ambiguous | CountFailed | BadManifest | ToolFailed.
#[export] Instance store_err_eq_dec : EqDecision store_err.
Proof. solve_decision. Defined.

Definition volumeRoot (root : string) : bool :=
  has_prefix root "volumes/" && bool_decide (Clean root = root) &&
  negb (contains_byte 47 (trim_prefix root "volumes/")) && negb (bool_decide (root = "volumes/"%string)).

Definition newRoot (prev : list string) (root : string) : result store_err string :=
  if negb (volumeRoot root) then Err BadVolumeRoot
  else if bool_decide (root ∈ prev) then Err DuplicateVolumeRoot else Ok root.

(** [None] stands for nil roots. *)
Definition newSnapshotFilter (roots : option (list string)) : result store_err (list string) :=
  accumulate newRoot [] (default ["volumes/workspace"%string] roots).

Definition pathWithin (candidate root : string) : bool :=
  bool_decide (candidate = root) || has_prefix candidate (root +:+ "/").

Fixpoint trimLeft (l : list ascii) : list ascii :=
  match l with c :: l' => if bool_decide (c = slash) then trimLeft l' else l | [] => [] end.
Definition trimSlashes (s : string) : string :=
  of_list (reverse (trimLeft (reverse (trimLeft (to_list s))))).

Definition excluded (roots : list string) (rel : string) : bool :=
  let rel := trimSlashes rel in
  if bool_decide (rel = "."%string) || bool_decide (rel = "meta.json"%string) then false
  else negb (existsb (λ root, pathWithin rel root || pathWithin root rel) roots).

(** The entries a snapshot keeps.  Skipping an excluded directory also skips what
    is below it, which is excluded as well ([excluded_below]). *)
Definition kept (roots : list string) (t : Tree) : Tree := filter (λ e, excluded roots (entryPath e) = false) t.

Definition isDirectory (e : Entry) : bool := match entryKind e with Directory => true | _ => false end.

(** ** The bucket ([objects.go]) *)

Notation bytes := (list ascii).
Notation key := (list string).

Record packHead := mkHead { Snapshot : string; Generation : Z; Bytes : Z }.
Record resticHead := mkResticHead { Ref : string; headGeneration : Z; headBytes : Z }.

(** Object bodies.  Formats of the standard library and of desync that are only
    written and read back (a gzipped tar, a chunk index, the head document) are
    kept decoded; everything that is hashed or sliced is bytes. *)
Inductive body :=
| BArchive (entries : Tree)
| BIndex (chunks : list string)
| BHead (head : packHead)
| BRestic (head : resticHead)
| BBytes (data : bytes).

(** [objMeta] is the user metadata under the generation key, absent for objects
    without metadata. *)
Record object := mkObject { objMeta : option string; objBody : body }.
Notation bucket := (gmap (list string) object).

Record faults := mkFaults {
  headFails : bool; getFails : key → bool; put : key → option bool; listFails : bool;
  removed : option (key → bool); archiveFails : bool }.
(** [put k = Some stored]: the upload of [k] reports an error, and the object was
    stored or not.  [removed = Some done]: a batch deletion reports an error after
    removing the keys in [done]. *)

Definition noFaults : faults := mkFaults false (λ _, false) (λ _, None) false None false.

Definition Get (f : faults) (w : bucket) (k : key) : option object := if getFails f k then None else w !! k.

Definition Put (f : faults) (w : bucket) (k : key) (o : object) : bool * bucket :=
  match put f k with
  | None => (true, <[k := o]> w)
  | Some true => (false, <[k := o]> w)
  | Some false => (false, w)
  end.

Definition removeKeys (w : bucket) (p : key → bool) : bucket := filter (λ kv : key * object, p kv.1 = false) w.

(** [Delete] of the listed keys. *)
Definition Remove (f : faults) (w : bucket) (keys : key → bool) : bool * bucket :=
  match removed f with
  | None => (true, removeKeys w keys)
  | Some done => (false, removeKeys w (λ k, keys k && done k))
  end.

(** Keys below a prefix that ends in a slash. *)
Definition below (prefix k : key) : bool := bool_decide (prefix `prefix_of` k ∧ prefix ≠ k).

(** The generation in the metadata of a commit object. *)
Definition generationOf (o : object) : option Z := objMeta o ≫= λ s, Atoi (to_list s).
Definition withGeneration (g : Z) (b : body) : object := mkObject (Some (of_list (Itoa g))) b.

(** The fencing guard before a write: the remote copy is at least as new. *)
Definition fenced (w : bucket) (k : key) (g : Z) : bool :=
  match w !! k ≫= generationOf with Some g0 => g <=? g0 | None => false end.

(** [Stat] of the layouts whose unreadable generations count as 0. *)
Definition statKey (w : bucket) (k : key) (f : faults) : result store_err (option Z) :=
  if headFails f then Err StatFailed else Ok ((λ o, default 0 (generationOf o)) <$> w !! k).

(** ** The contract of a layout ([Store]) *)

Record Layout := mkLayout {
  lStat : bucket → string → faults → result store_err (option Z);
  lPersist : bucket → string → Tree → Z → option (list string) → faults → result store_err unit * bucket;
  lRestore : bucket → string → faults → result store_err Tree;
  lDelete : bucket → string → faults → result store_err unit * bucket;
}.

(** What the router relies on.  [owns b] is the key space of bed [b]; [view] the
    snapshot a reader finds: its generation and its entries; [wf] says that the
    stored snapshot is intact; [accepts] is what the layout asks of the tree it
    is given. *)
Class Lawful (L : Layout) := {
  owns : string → key → Prop;
  view : bucket → string → option (Z * Tree);
  wf : bucket → string → Prop;
  accepts : bucket → string → Tree → Z → option (list string) → Prop;
  law_local : ∀ w w' b, (∀ k, owns b k → w !! k = w' !! k) → view w b = view w' b ∧ (wf w b → wf w' b);
  law_empty : ∀ w b, (∀ k, owns b k → w !! k = None) → wf w b ∧ view w b = None;
  law_stat : ∀ w b f, wf w b → lStat L w b f = if headFails f then Err StatFailed else Ok (fst <$> view w b);
  law_restore : ∀ w b, wf w b →
    lRestore L w b noFaults = match view w b with Some (_, t) => Ok t | None => Err NotFound end;
  law_persist_frame : ∀ w b t g roots f k, ~ owns b k → (lPersist L w b t g roots f).2 !! k = w !! k;
  law_persist : ∀ w b t g roots f r w',
    wf w b → 0 <= g < 2 ^ 63 → walked t → accepts w b t g roots → lPersist L w b t g roots f = (r, w') →
    wf w' b ∧
    let published :=
      (∃ rs, newSnapshotFilter roots = Ok rs ∧ view w' b = Some (g, kept rs t)) ∧
      (∀ g0 t0, view w b = Some (g0, t0) → g0 < g) in
    match r with Ok _ => published | Err e => view w' b = view w b ∨ (e = PutFailed ∧ published) end;
  law_delete_frame : ∀ w b f k, ~ owns b k → (lDelete L w b f).2 !! k = w !! k;
  law_delete : ∀ w b f w', lDelete L w b f = (Ok tt, w') → wf w' b ∧ view w' b = None;
}.
#[global] Arguments owns {L _}.
#[global] Arguments view {L _}.
#[global] Arguments wf {L _}.
#[global] Arguments accepts {L _}.

(** ** Requests change only their keys *)

Lemma generation_written g b : 0 <= g < 2 ^ 63 → generationOf (withGeneration g b) = Some g.
Proof. intros Hg. unfold generationOf. simpl. rewrite to_of_list. by destruct (Itoa_spec g Hg). Qed.

Lemma Put_cases f w k o ok w' :
  Put f w k o = (ok, w') → (w' = <[k := o]> w ∧ (ok = true ↔ put f k = None)) ∨ (ok = false ∧ w' = w).
Proof. unfold Put. destruct (put f k) as [[]|]; intros [= <- <-]; [left|right|left]; by split. Qed.

Lemma Put_other f w k o ok w' k' : Put f w k o = (ok, w') → k' ≠ k → w' !! k' = w !! k'.
Proof. intros [[-> _]|[_ ->]]%Put_cases Hk; [by rewrite lookup_insert_ne|done]. Qed.

Lemma removeKeys_lookup w p k : removeKeys w p !! k = if p k then None else w !! k.
Proof.
  unfold removeKeys. rewrite map_lookup_filter. destruct (p k) eqn:E; destruct (w !! k) as [o|]; simpl; try done.
  - rewrite option_guard_False; [done|]. simpl. congruence.
  - by rewrite option_guard_True.
Qed.

Lemma Remove_other f w p ok w' k : Remove f w p = (ok, w') → p k = false → w' !! k = w !! k.
Proof.
  unfold Remove. intros E Hp. destruct (removed f) as [d|]; injection E as <- <-; rewrite removeKeys_lookup, Hp; done.
Qed.

Lemma Remove_ok f w p w' : Remove f w p = (true, w') → w' = removeKeys w p.
Proof. unfold Remove. destruct (removed f); by intros [= <-]. Qed.

Lemma below_spec prefix k : below prefix k = true ↔ ∃ r, r ≠ [] ∧ k = prefix ++ r.
Proof.
  unfold below. rewrite bool_decide_eq_true. split.
  - intros [[r ->] Hne]. exists r. split; [|done]. intros ->. by rewrite app_nil_r in Hne.
  - intros (r&Hr&->). split; [by exists r|]. intros E. apply Hr. apply (app_inv_head prefix). by rewrite app_nil_r.
Qed.

(** ** The filter on walked trees *)

Lemma within_list a b : pathWithin a b = true ↔ to_list a = to_list b ∨ (to_list b ++ [slash]) `prefix_of` to_list a.
Proof.
  unfold pathWithin. rewrite orb_true_iff, bool_decide_eq_true, has_prefix_spec. split.
  - intros [->|[r ->]]; [by left|right]. rewrite !to_list_app. by exists (to_list r).
  - intros [E|[k E]]; [left; by rewrite <-(of_to_list a), E, of_to_list|right].
    exists (of_list k). rewrite <-(of_to_list a), E, <-(of_to_list (_ +:+ _)), !to_list_app, to_of_list. done.
Qed.

Lemma within_comparable d root rel :
  pathWithin rel d = true → pathWithin rel root || pathWithin root rel = true →
  pathWithin d root || pathWithin root d = true.
Proof.
  rewrite !orb_true_iff, !within_list. set (D := to_list d). set (R := to_list root). set (X := to_list rel).
  assert (∀ l1 l2 : list ascii, (l1 ++ [slash]) `prefix_of` (l2 ++ [slash]) → l1 = l2 ∨ (l1 ++ [slash]) `prefix_of` l2) as Hp.
  { intros l1 l2 [k E]. destruct k as [|c k _] using rev_ind; [rewrite app_nil_r in E; left; by simplify_list_eq|].
    rewrite (assoc_L app) in E. apply app_inj_2 in E as [E _]; [|done]. right. by exists k. }
  intros [->|Hd] Hr; [naive_solver|].
  assert (∀ l, X `prefix_of` l ∨ (X ++ [slash]) `prefix_of` l → (D ++ [slash]) `prefix_of` l) as Hup.
  { intros l [Hl|Hl]; [by etrans|]. etrans; [exact Hd|]. etrans; [|exact Hl]. by exists [slash]. }
  destruct Hr as [[E|Hr]|[E|Hr]].
  - right. right. by rewrite <-E.
  - destruct (prefix_weak_total (D ++ [slash]) (R ++ [slash]) X Hd Hr) as [H|H]; apply Hp in H as [->|H]; auto.
  - right. right. by rewrite E.
  - right. right. apply Hup. by right.
Qed.

(** Everything below an excluded directory is excluded, so skipping the directory
    and filtering its entries keep the same files. *)
Lemma excluded_below roots d rel :
  trimSlashes d = d → trimSlashes rel = rel → rel ≠ "meta.json"%string → rel ≠ "."%string → 
  excluded roots d = true → pathWithin rel d = true → excluded roots rel = true.
Proof.
  unfold excluded. intros -> ->. intros Hm Hdot. rewrite (bool_decide_false (rel = _)), (bool_decide_false (rel = _)) by done.
  destruct (_ || _); [done|]. cbn [orb]. rewrite !negb_true_iff, <- !not_true_iff_false, !existsb_exists.
  intros Hd Hw (root&Hin&Hr). apply Hd. exists root. split; [done|]. by eapply within_comparable.
Qed.

Lemma trimLeft_id l : head l ≠ Some slash → trimLeft l = l.
Proof. destruct l as [|c l]; simpl; [done|]. intros H. rewrite bool_decide_false; [done|]. congruence. Qed.

Lemma trim_normal p : Forall normal (split p) → trimSlashes p = p.
Proof.
  intros Hp. unfold trimSlashes. rewrite (trimLeft_id (to_list p)).
  - rewrite trimLeft_id, reverse_involutive, of_to_list; [done|].
    destruct (reverse (to_list p)) as [|c l] eqn:E; [done|]. intros [= ->].
    assert (p = of_list (reverse l) +:+ "/" +:+ "") as Ep.
    { rewrite <-(of_to_list p), <-(reverse_involutive (to_list p)), E, reverse_cons.
      rewrite <-(of_to_list (_ +:+ _)), !to_list_app, to_of_list. done. }
    rewrite Ep, split_app, Forall_app in Hp. destruct Hp as [_ Hp]. by apply Forall_cons in Hp as [(Hp&_) _].
  - destruct p as [|c p]; [done|]. simpl. intros [= ->]. simpl in Hp.
    by apply Forall_cons in Hp as [(Hp&_) _].
Qed.

Lemma parentDir_spec p d :
  parentDir p = Some d → Forall no_slash (split p) →
  ∃ l x, l ≠ [] ∧ split p = l ++ [x] ∧ d = join l ∧ split d = l ∧ pathWithin p d = true.
Proof.
  unfold parentDir. intros Hd Hn. destruct (exists_last (split_not_nil p)) as (l&x&E).
  assert (l ≠ []) as Hl by (intros ->; by rewrite E in Hd).
  assert (d = join l) as ->.
  { rewrite E in Hd. destruct l as [|a l]; [done|]. pose proof (removelast_last (a :: l) x) as Er.
    simpl app in Hd, Er. destruct (l ++ [x]) as [|b l'] eqn:El; [by destruct l|]. rewrite Er in Hd. by injection Hd. }
  rewrite E, Forall_app in Hn. destruct Hn as [Hn _].
  exists l, x. split_and!; [done|done|done|by apply split_join|].
  unfold pathWithin. apply orb_true_iff. right. apply has_prefix_spec. exists x.
  rewrite <-(join_split p), E, join_app by done. simpl. by rewrite !string_app_assoc.
Qed.

Lemma walked_app prev t1 t2 : walkedFrom prev (t1 ++ t2) ↔ walkedFrom prev t1 ∧ walkedFrom (prev ++ t1) t2.
Proof.
  revert prev. induction t1 as [|e t1 IH]; intros prev; simpl; [rewrite app_nil_r; tauto|].
  rewrite IH, <-(assoc_L app). simpl. tauto.
Qed.

Lemma walked_filter roots prev t :
  walkedFrom prev t → Forall (λ e, Forall normal (split (entryPath e))) prev → 
  walkedFrom (kept roots prev) (kept roots t).
Proof.
  revert prev. induction t as [|e t IH]; intros prev; [done|]. simpl. intros [(Hn&Hf&Hd) Ht] Hp.
  assert (kept roots (prev ++ [e]) = kept roots prev ++ kept roots [e]) as Happ by (unfold kept; by rewrite filter_app).
  specialize (IH _ Ht). rewrite Happ in IH. unfold kept in *. simpl in *. 
  destruct (decide (excluded roots (entryPath e) = false)) as [He|He]; simpl.
  - rewrite filter_cons_True, filter_nil in IH by done. rewrite filter_cons_True by done. split; [|apply IH; rewrite Forall_app; auto]. split_and!; [done| |].
    + intros Hin. apply Hf. unfold paths in *. apply list_elem_of_fmap in Hin as (e'&->&Hin).
      apply list_elem_of_fmap. exists e'. split; [done|]. by apply list_elem_of_filter in Hin as [_ ?].
    + intros d Ed. specialize (Hd d Ed). apply list_elem_of_filter. split; [|done]. simpl.
      destruct (parentDir_spec _ _ Ed (normal_no_slash _ Hn)) as (l&x&Hl&Es&_&Esd&Hw).
      rewrite Es, Forall_app in Hn. destruct Hn as [Hnl Hnx].
      destruct (excluded roots d) eqn:Ex; [|done].
      rewrite (excluded_below roots d (entryPath e)) in He; [done|..|done|done].
      * apply trim_normal. by rewrite Esd.
      * apply trim_normal. rewrite Es. by apply Forall_app.
      * intros E. rewrite E in Es. change (split "meta.json") with ["meta.json"%string] in Es. by destruct l as [|? []].
      * intros E. rewrite E in Es. change (split ".") with ["."%string] in Es. by destruct l as [|? []].
  - rewrite filter_cons_False, filter_nil, app_nil_r in IH by done. rewrite filter_cons_False by done. apply IH. rewrite Forall_app; auto.
Qed.

Lemma kept_walked roots t : walked t → walked (kept roots t).
Proof. intros H. by apply (walked_filter roots []). Qed.
