(* ===== verification/TarStore.v ===== *)
(** * TarStore: one compressed archive per bed

    Models [internal/bed/store/sync/tar.go].  The archive is the list of its
    headers with their content; extraction builds the directory from it.  An
    entry below a symbolic link is refused here, where the root-confined calls
    would follow the link inside the directory; no archive written by
    [writeTarGzip] contains one.  File modes and times, and the encodings, are
    not modelled. *)

From S2P Require Import Prelude Netip Bed Volumes Objects.

Module Tar.

(** ** Paths *)

Definition snapshotKey (b : string) : key := ["tar"; b; "snapshot.tar.gz"]%string.

Definition dirOf (name : string) : string :=
  match split name with [_] => "."%string | l => Clean (join (removelast l) +:+ "/") end.
Definition joinPath (a b : string) : string := Clean (a +:+ "/" +:+ b).

Definition validateTarSymlink (name target : string) : bool :=
  negb (bool_decide (target = ""%string)) && negb (IsAbs target) && negb (contains_byte 92 target) &&
  let resolved := Clean (joinPath (dirOf name) target) in
  negb (bool_decide (resolved = ".."%string)) && negb (has_prefix resolved "../").

(** [utf8.ValidString]. *)
Definition cont (b : Z) : bool := (128 <=? b) && (b <=? 191).
Fixpoint validUTF8 (fuel : nat) (l : list Z) : bool :=
  match fuel with
  | O => false
  | S fuel =>
      match l with
      | [] => true
      | b0 :: l =>
          if b0 <? 128 then validUTF8 fuel l
          else match l with
          | b1 :: l =>
              if (194 <=? b0) && (b0 <=? 223) then cont b1 && validUTF8 fuel l
              else match l with
              | b2 :: l =>
                  if (224 <=? b0) && (b0 <=? 239) then
                    (if b0 =? 224 then (160 <=? b1) && (b1 <=? 191)
                     else if b0 =? 237 then (128 <=? b1) && (b1 <=? 159) else cont b1) &&
                    cont b2 && validUTF8 fuel l
                  else match l with
                  | b3 :: l =>
                      (240 <=? b0) && (b0 <=? 244) &&
                      (if b0 =? 240 then (144 <=? b1) && (b1 <=? 191)
                       else if b0 =? 244 then (128 <=? b1) && (b1 <=? 143) else cont b1) &&
                      cont b2 && cont b3 && validUTF8 fuel l
                  | [] => false
                  end
              | [] => false
              end
          | [] => false
          end
      end
  end.
Definition ValidString (s : string) : bool := validUTF8 (S (String.length s)) (byte <$> to_list s).

Definition validElement (e : string) : bool :=
  negb (bool_decide (e = ""%string)) && negb (bool_decide (e = "."%string)) && negb (bool_decide (e = ".."%string)).
(** [fs.ValidPath]. *)
Definition ValidPath (name : string) : bool :=
  ValidString name && (bool_decide (name = "."%string) || forallb validElement (split name)).

Definition cleanTarPath (name : string) : option string :=
  if contains_byte 92 name then None
  else let clean := Clean name in
       if bool_decide (clean = "."%string) || negb (ValidPath clean) then None else Some clean.

(** ** Writing *)

Definition archivable (e : Entry) : bool :=
  match entryKind e with
  | Special => false
  | Symlink target => validateTarSymlink (entryPath e) target
  | _ => true
  end.

(** [writeTarGzip]: the archive holds the kept entries. *)
Definition writeTarGzip (roots : list string) (t : Tree) : option Tree :=
  if forallb archivable (kept roots t) then Some (kept roots t) else None.

(** ** Reading *)

Definition kindAt (fs : Tree) (p : string) : option EntryKind :=
  entryKind <$> head (filter (λ e, entryPath e = p) fs).

Fixpoint mkdirComps (fs : Tree) (done todo : list string) : option Tree :=
  match todo with
  | [] => Some fs
  | c :: todo =>
      let done := done ++ [c] in
      match kindAt fs (join done) with
      | Some Directory => mkdirComps fs done todo
      | Some _ => None
      | None => mkdirComps (fs ++ [mkEntry (join done) Directory]) done todo
      end
  end.
Definition MkdirAll (fs : Tree) (name : string) : option Tree :=
  if bool_decide (name = "."%string) then Some fs else mkdirComps fs [] (split name).

(** [O_CREATE|O_EXCL], and [Symlink]: the name must be free. *)
Definition createNew (fs : Tree) (e : Entry) : option Tree :=
  match kindAt fs (entryPath e) with Some _ => None | None => Some (fs ++ [e]) end.

(** One header of the archive; [seen] are the names of the headers before it. *)
Definition extractEntry (seen : list string) (fs : Tree) (h : Entry) : option (list string * Tree) :=
  name ← cleanTarPath (entryPath h);
  if bool_decide (name ∈ seen) then None
  else
    fs ← match entryKind h with
         | Directory => MkdirAll fs name
         | Regular _ => fs ← MkdirAll fs (dirOf name); createNew fs (mkEntry name (entryKind h))
         | Symlink target =>
             if validateTarSymlink name target
             then fs ← MkdirAll fs (dirOf name); createNew fs (mkEntry name (entryKind h)) else None
         | Special => None
         end;
    Some (seen ++ [name], fs).

Fixpoint extractAll (seen : list string) (fs : Tree) (hs : Tree) : option Tree :=
  match hs with
  | [] => Some fs
  | h :: hs => st ← extractEntry seen fs h; extractAll st.1 st.2 hs
  end.
Definition readTarGzip (archive : Tree) : option Tree := extractAll [] [] archive.

(** ** The layout *)

Definition Stat (w : bucket) (b : string) (f : faults) : result store_err (option Z) :=
  statKey w (snapshotKey b) f.

Definition Persist (w : bucket) (b : string) (t : Tree) (g : Z) (roots : option (list string)) (f : faults)
  : result store_err unit * bucket :=
  match newSnapshotFilter roots with
  | Err e => (Err e, w)
  | Ok r =>
      if headFails f then (Err StatFailed, w)
      else if fenced w (snapshotKey b) g then (Err Conflict, w)
      else if archiveFails f then (Err ArchiveFailed, w)
      else match writeTarGzip r t with
           | None => (Err ArchiveFailed, w)
           | Some entries =>
               let '(ok, w) := Put f w (snapshotKey b) (withGeneration g (BArchive entries)) in
               (if ok then Ok tt else Err PutFailed, w)
           end
  end.

Definition Restore (w : bucket) (b : string) (f : faults) : result store_err Tree :=
  match Get f w (snapshotKey b) with
  | None => Err NotFound
  | Some o => match objBody o with
      | BArchive entries => match readTarGzip entries with Some t => Ok t | None => Err RestoreFailed end
      | _ => Err RestoreFailed
      end
  end.

Definition Delete (w : bucket) (b : string) (f : faults) : result store_err unit * bucket :=
  let '(ok, w) := Remove f w (λ k, bool_decide (k = snapshotKey b)) in (if ok then Ok tt else Err DeleteFailed, w).

Definition layout : Layout := mkLayout Stat Persist Restore Delete.

(** ** An archive extracts to the tree it was written from *)

(** Names the reader accepts: no backslash, valid UTF-8. *)
Definition portable (e : Entry) : bool := negb (contains_byte 92 (entryPath e)) && ValidString (entryPath e).

Lemma clean_relative p : Forall normal (split p) → Clean p = p.
Proof.
  intros Hp. assert (stack_ok false (reverse (split p))) as Hs.
  { apply Forall_reverse in Hp. generalize dependent (reverse (split p)). intros l Hl. induction Hl; simpl; auto. }
  assert (rootedPath p = false) as Hr.
  { rewrite <-(join_split p). apply rooted_join; [apply split_not_nil|by apply normal_no_slash|].
    intros Hin. rewrite Forall_forall in Hp. by destruct (Hp _ Hin). }
  unfold Clean, cleanComps. rewrite Hr. apply clean_fold_stack in Hs. rewrite reverse_involutive in Hs.
  rewrite Hs, reverse_involutive. pose proof (split_not_nil p). destruct (split p) eqn:E; [done|]. rewrite <-E. apply join_split.
Qed.

Lemma clean_slash p : Forall normal (split p) → Clean (p +:+ "/") = p.
Proof.
  intros Hp. rewrite <-(clean_relative p) at 2 by done. assert (split (p +:+ "/") = split p ++ [""%string]) as Es by apply (split_app p "").
  assert (rootedPath (p +:+ "/") = rootedPath p) as Er.
  { destruct p as [|c p]; [|by unfold rootedPath, has_prefix; simpl; destruct p].
    simpl in Hp. by apply Forall_cons in Hp as [(Hp&_) _]. }
  unfold Clean, cleanComps. by rewrite Er, Es, foldl_app.
Qed.

Lemma cleanTarPath_portable e :
  Forall normal (split (entryPath e)) → portable e = true → cleanTarPath (entryPath e) = Some (entryPath e).
Proof.
  intros Hn Hp. unfold portable in Hp. reflect_bools. unfold cleanTarPath. rewrite H, clean_relative by done.
  rewrite bool_decide_false.
  2:{ intros E. rewrite E in Hn. change (split ".") with ["."%string] in Hn. by apply Forall_cons in Hn as [(_&Hn&_) _]. }
  unfold ValidPath. rewrite H0. replace (forallb _ _) with true; [by rewrite orb_true_r|].
  symmetry. apply forallb_forall. intros c Hc%list_elem_of_In. rewrite Forall_forall in Hn.
  destruct (Hn c Hc) as (?&?&?&_). unfold validElement. by rewrite !bool_decide_false.
Qed.

Lemma kindAt_in fs e : NoDup (paths fs) → e ∈ fs → kindAt fs (entryPath e) = Some (entryKind e).
Proof.
  unfold kindAt. intros Hnd He. induction fs as [|x fs IH]; [by apply elem_of_nil in He|].
  simpl in Hnd. apply NoDup_cons in Hnd as [Hx Hnd]. rewrite filter_cons. case_decide as E.
  - apply elem_of_cons in He as [->|He]; [done|]. exfalso. apply Hx. rewrite E. by apply list_elem_of_fmap_2.
  - apply elem_of_cons in He as [->|He]; [done|]. auto.
Qed.

Lemma kindAt_out fs p : p ∉ paths fs → kindAt fs p = None.
Proof.
  unfold kindAt. intros Hp. destruct (filter _ fs) as [|e l] eqn:E; [done|]. exfalso. apply Hp.
  assert (e ∈ filter (λ e, entryPath e = p) fs) as [<- He]%list_elem_of_filter by (rewrite E; by left).
  by apply list_elem_of_fmap_2.
Qed.

(** In a walked tree every path is there once, below directories that are there. *)
Definition grounded (fs : Tree) : Prop :=
  NoDup (paths fs) ∧ ∀ e l r, e ∈ fs → split (entryPath e) = l ++ r → l ≠ [] → r ≠ [] → mkEntry (join l) Directory ∈ fs.

Lemma walk_ancestors prev e :
  grounded prev → walk_entry prev e →
  ∀ l r, split (entryPath e) = l ++ r → l ≠ [] → r ≠ [] → mkEntry (join l) Directory ∈ prev.
Proof.
  intros [_ Hg] (Hn&_&Hd) l r E Hl Hr.
  destruct (parentDir (entryPath e)) as [d|] eqn:Ed.
  2:{ unfold parentDir in Ed. rewrite E in Ed. destruct l as [|? [|]], r; done. }
  specialize (Hd d eq_refl). destruct (parentDir_spec _ _ Ed (normal_no_slash _ Hn)) as (l0&x&Hl0&Es&->&Esd&_).
  destruct (exists_last Hr) as (r0&y&->). rewrite Es in E. rewrite (assoc_L app) in E. apply app_inj_2 in E as [E _]; [|done].
  destruct (decide (r0 = [])) as [->|Hr0]; [by rewrite E, app_nil_r in Hd|].
  apply (Hg _ l r0 Hd); [|done|done]. simpl. by rewrite Esd.
Qed.

Lemma grounded_snoc prev e : grounded prev → walk_entry prev e → grounded (prev ++ [e]).
Proof.
  intros Hg He. pose proof (walk_ancestors prev e Hg He) as Ha. destruct Hg as [Hnd Hg]. destruct He as (Hn&Hf&Hd). split.
  - unfold paths. rewrite fmap_app. apply NoDup_app. split_and!; [done| |apply NoDup_singleton].
    intros p Hp. simpl. rewrite list_elem_of_singleton. intros ->. by apply Hf.
  - intros e' l r Hin E Hl Hr. apply elem_of_app. left. apply elem_of_app in Hin as [Hin|Hin%list_elem_of_singleton].
    + by eapply Hg.
    + subst e'. by eapply Ha.
Qed.

Lemma mkdirComps_there fs l r :
  NoDup (paths fs) → (∀ m n, n ≠ [] → r = m ++ n → l ++ m ≠ [] → mkEntry (join (l ++ m)) Directory ∈ fs) →
  (l ++ r ≠ [] → mkEntry (join (l ++ r)) Directory ∈ fs) → mkdirComps fs l r = Some fs.
Proof.
  intros Hnd. revert l. induction r as [|c r IH]; intros l Hin Hall; simpl; [done|].
  assert (mkEntry (join (l ++ [c])) Directory ∈ fs) as Hc.
  { destruct (decide (r = [])) as [->|Hr]; [apply Hall; by destruct l|].
    apply (Hin [c] r); [done|done|by destruct l]. }
  pose proof (kindAt_in fs _ Hnd Hc) as Hk. simpl in Hk. rewrite Hk. apply IH.
  - intros m n Hn -> _. rewrite <-(assoc_L app). simpl. apply (Hin (c :: m) n); [done|done|by destruct l].
  - intros _. rewrite <-(assoc_L app). simpl. apply Hall. by destruct l.
Qed.

Lemma mkdirComps_snoc fs l r c :
  mkdirComps fs l r = Some fs → mkdirComps fs l (r ++ [c]) = mkdirComps fs (l ++ r) [c].
Proof.
  revert l. induction r as [|x r IH]; intros l H; [by rewrite app_nil_r|]. simpl in *.
  destruct (kindAt fs (join (l ++ [x]))) as [[]|] eqn:E; try done.
  - rewrite (IH _ H). by rewrite <-(assoc_L app l [x] r).
  - exfalso. clear IH. assert (∀ fs l r fs', mkdirComps fs l r = Some fs' → (length fs <= length fs')%nat) as Hlen.
    { clear. intros fs l r. revert fs l. induction r as [|x r IH]; intros fs l fs'; simpl; [by intros [= <-]|].
      destruct (kindAt fs (join (l ++ [x]))) as [[]|]; try done; [apply IH|].
      intros H%IH. rewrite length_app in H. simpl in H. lia. }
    apply Hlen in H. rewrite length_app in H. simpl in H. lia.
Qed.

(** The directory of a walked entry exists, so nothing is created for it. *)
Lemma mkdir_parent prev e : grounded prev → walk_entry prev e → MkdirAll prev (dirOf (entryPath e)) = Some prev.
Proof.
  intros Hg He. pose proof (walk_ancestors prev e Hg He) as Ha. destruct Hg as [Hnd _]. destruct He as (Hn&_&_).
  unfold MkdirAll, dirOf. destruct (exists_last (split_not_nil (entryPath e))) as (l&x&E).
  destruct l as [|a l]; [by rewrite E|].
  pose proof (removelast_last (a :: l) x) as Er. rewrite E in Hn |- *.
  simpl app in Er |- *. destruct (l ++ [x]) as [|b l'] eqn:El; [by destruct l|]. rewrite Er. clear b l' El Er.
  change (Forall normal ((a :: l) ++ [x])) in Hn. apply Forall_app in Hn as [Hn _].
  assert (split (join (a :: l)) = a :: l) as Es by (apply split_join; [done|by apply normal_no_slash]).
  rewrite (clean_slash (join (a :: l))) by (by rewrite Es).
  rewrite bool_decide_false.
  2:{ intros Ed. rewrite Ed in Es. change (split ".") with ["."%string] in Es. rewrite <-Es in Hn.
      by apply Forall_cons in Hn as [(_&Hn&_) _]. }
  rewrite Es. apply mkdirComps_there; [done|..]; simpl app.
  - intros m n Hne Em Hm. apply (Ha m (n ++ [x])); [|done|by destruct n]. rewrite E, Em, (assoc_L app). done.
  - intros _. by apply (Ha (a :: l) [x]).
Qed.

Lemma mkdir_entry prev p :
  grounded prev → walk_entry prev (mkEntry p Directory) → MkdirAll prev p = Some (prev ++ [mkEntry p Directory]).
Proof.
  intros Hg He. pose proof (walk_ancestors prev _ Hg He) as Ha. destruct Hg as [Hnd _]. destruct He as (Hn&Hf&_). simpl in *.
  unfold MkdirAll. rewrite bool_decide_false.
  2:{ intros ->. change (split ".") with ["."%string] in Hn. by apply Forall_cons in Hn as [(_&Hn&_) _]. }
  destruct (exists_last (split_not_nil p)) as (l&x&E). rewrite E, mkdirComps_snoc.
  - simpl. rewrite <-E, join_split, kindAt_out by done. done.
  - apply mkdirComps_there; [done|..]; simpl.
    + intros m n Hne -> Hm. apply (Ha m (n ++ [x])); [by rewrite E, (assoc_L app)|done|by destruct n].
    + intros Hl. by apply (Ha l [x]).
Qed.

Lemma extract_entry prev e :
  grounded prev → walk_entry prev e → portable e = true → archivable e = true →
  extractEntry (paths prev) prev e = Some (paths (prev ++ [e]), prev ++ [e]).
Proof.
  intros Hg He Hp Ha. unfold extractEntry. rewrite cleanTarPath_portable by (by destruct He). simpl.
  rewrite bool_decide_false by (by destruct He as (_&?&_)). unfold archivable in Ha.
  assert (paths (prev ++ [e]) = paths prev ++ [entryPath e]) as -> by (unfold paths; by rewrite fmap_app).
  assert (createNew prev (mkEntry (entryPath e) (entryKind e)) = Some (prev ++ [e])) as Hc.
  { unfold createNew. simpl. rewrite kindAt_out by (by destruct He as (_&?&_)). by destruct e. }
  destruct e as [p kd]. simpl in *. destruct kd; simpl in *; [..|done].
  - pose proof (mkdir_parent _ _ Hg He) as Hm. simpl in Hm. rewrite Hm. simpl. by rewrite Hc.
  - by rewrite mkdir_entry.
  - rewrite Ha. pose proof (mkdir_parent _ _ Hg He) as Hm. simpl in Hm. rewrite Hm. simpl. by rewrite Hc.
Qed.

Lemma extract_walked prev t :
  grounded prev → walkedFrom prev t → forallb portable t = true → forallb archivable t = true →
  extractAll (paths prev) prev t = Some (prev ++ t).
Proof.
  revert prev. induction t as [|e t IH]; intros prev Hg Hw Hp Ha; simpl; [by rewrite app_nil_r|].
  simpl in *. destruct Hw as [He Hw]. apply andb_true_iff in Hp as [Hp1 Hp2], Ha as [Ha1 Ha2].
  rewrite extract_entry by done. simpl. rewrite IH; [by rewrite <-(assoc_L app)|by apply grounded_snoc|done..].
Qed.

Lemma read_written t :
  walked t → forallb portable t = true → forallb archivable t = true → readTarGzip t = Some t.
Proof. intros Hw Hp Ha. apply (extract_walked []); [|done..]. split; [constructor|]. by intros ? ? ? ?%elem_of_nil. Qed.

(** A file whose name holds a backslash is archived but never extracted again. *)
Lemma backslash_name_is_lost :
  let t := [mkEntry "volumes" Directory; mkEntry "volumes/workspace" Directory;
            mkEntry "volumes/workspace/a\b" (Regular "x")] in
  walked t ∧ Persist ∅ "bed" t 1 None noFaults =
    (Ok tt, {[snapshotKey "bed" := withGeneration 1 (BArchive t)]}) ∧
  Restore (Persist ∅ "bed" t 1 None noFaults).2 "bed" noFaults = Err RestoreFailed.
Proof.
  intros t. split; [|split].
  - apply (bool_decide_eq_true_1 (walked t)). vm_compute. done.
  - vm_compute. reflexivity.
  - vm_compute. reflexivity.
Qed.

(** ** The laws *)

Definition ownsTar (b : string) (k : key) : Prop := k = snapshotKey b.

Definition snapshot (w : bucket) (b : string) : option (Z * Tree) :=
  match w !! snapshotKey b with
  | Some o => match objBody o with
      | BArchive entries => (λ t, (default 0 (generationOf o), t)) <$> readTarGzip entries
      | _ => None end
  | None => None
  end.

(** The archive carries a readable generation and extracts. *)
Definition intact (w : bucket) (b : string) : Prop :=
  ∀ o, w !! snapshotKey b = Some o → is_Some (generationOf o) ∧ is_Some (snapshot w b).

Definition acceptsTar (w : bucket) (b : string) (t : Tree) (g : Z) (roots : option (list string)) : Prop :=
  ∀ rs, newSnapshotFilter roots = Ok rs → forallb portable (kept rs t) = true.

Lemma fenced_false w b g0 t0 g :
  intact w b → fenced w (snapshotKey b) g = false → snapshot w b = Some (g0, t0) → g0 < g.
Proof.
  intros Hi Hf. unfold fenced in Hf. unfold snapshot. destruct (w !! snapshotKey b) as [o|] eqn:E; [|done].
  destruct (Hi o E) as [[g1 Hg1] _]. simpl in Hf. rewrite Hg1 in *. destruct (objBody o); try done.
  destruct (readTarGzip entries); [|done]. intros [= <- _]. by apply Z.leb_gt in Hf.
Qed.

Lemma written_snapshot w b g t :
  0 <= g < 2 ^ 63 → readTarGzip t = Some t →
  let w' := <[snapshotKey b := withGeneration g (BArchive t)]> w in snapshot w' b = Some (g, t) ∧ intact w' b.
Proof.
  intros Hg Hr w'. assert (snapshot w' b = Some (g, t)) as Hs.
  { unfold snapshot, w'. rewrite lookup_insert_eq. cbn [objBody withGeneration]. rewrite Hr. simpl.
    by rewrite generation_written. }
  split; [done|]. intros o. unfold w'. rewrite lookup_insert_eq. intros [= <-]. rewrite generation_written by done.
  fold w'. rewrite Hs. eauto.
Qed.

Lemma tar_persist_law w b t g roots f r w' :
  intact w b → 0 <= g < 2 ^ 63 → walked t → acceptsTar w b t g roots → Persist w b t g roots f = (r, w') →
  intact w' b ∧
  let published := (∃ rs, newSnapshotFilter roots = Ok rs ∧ snapshot w' b = Some (g, kept rs t)) ∧
    (∀ g0 t0, snapshot w b = Some (g0, t0) → g0 < g) in
  match r with Ok _ => published | Err e => snapshot w' b = snapshot w b ∨ (e = PutFailed ∧ published) end.
Proof.
  intros Hi Hg Hw Ha. unfold Persist, writeTarGzip. destruct (newSnapshotFilter roots) as [rs|e] eqn:Er; [|intros [= <- <-]; auto].
  destruct (headFails f); [intros [= <- <-]; auto|].
  destruct (fenced w (snapshotKey b) g) eqn:Ef; [intros [= <- <-]; auto|].
  destruct (archiveFails f); [intros [= <- <-]; auto|].
  destruct (forallb archivable (kept rs t)) eqn:Ear; [|intros [= <- <-]; auto].
  assert (readTarGzip (kept rs t) = Some (kept rs t)) as Hrd by (apply read_written; auto using kept_walked).
  destruct (written_snapshot w b g (kept rs t) Hg Hrd) as [Hs Hi'].
  destruct (Put f w (snapshotKey b) _) as [ok w1] eqn:Ep. intros [= <- <-].
  destruct (Put_cases _ _ _ _ _ _ Ep) as [[-> Hok]|[-> ->]]; [|auto].
  split; [done|]. destruct ok; [|right; split; [done|]]; split; eauto using fenced_false.
Qed.

#[global, refine] Instance lawful : Lawful layout :=
  {| owns := ownsTar; view := snapshot; wf := intact; accepts := acceptsTar |}.
Proof.
  - intros w w' b Hk. assert (w !! snapshotKey b = w' !! snapshotKey b) as E by (by apply Hk).
    assert (snapshot w b = snapshot w' b) as Es by (unfold snapshot; by rewrite E). split; [done|].
    unfold intact. by rewrite E, Es.
  - intros w b Hk. assert (w !! snapshotKey b = None) as E by (by apply Hk).
    split; [intros o; by rewrite E|unfold snapshot; by rewrite E].
  - intros w b f Hi. simpl. unfold Stat, statKey, snapshot. destruct (headFails f); [done|].
    destruct (w !! snapshotKey b) as [o|] eqn:E; [|done]. destruct (Hi o E) as [_ [x Hx]]. unfold snapshot in Hx.
    rewrite E in Hx. destruct (objBody o); try done. by destruct (readTarGzip entries).
  - intros w b Hi. simpl. unfold Restore, Get, snapshot. simpl. destruct (w !! snapshotKey b) as [o|] eqn:E; [|done].
    destruct (Hi o E) as [_ [x Hx]]. unfold snapshot in Hx. rewrite E in Hx. destruct (objBody o); try done.
    by destruct (readTarGzip entries).
  - intros w b t g roots f k Hk. simpl. unfold Persist. destruct (newSnapshotFilter roots); [|done].
    destruct (headFails f); [done|]. destruct (fenced _ _ _); [done|]. destruct (archiveFails f); [done|].
    destruct (writeTarGzip _ _); [|done]. destruct (Put f w _ _) eqn:E. by eapply Put_other.
  - exact tar_persist_law.
  - intros w b f k Hk. simpl. unfold Delete. destruct (Remove f w _) eqn:E. eapply Remove_other; [done|].
    by apply bool_decide_false.
  - intros w b f w'. simpl. unfold Delete. destruct (Remove f w _) as [[] w1] eqn:E; [|done]. intros [= <-].
    apply Remove_ok in E. subst w1. assert (∀ o, removeKeys w (λ k, bool_decide (k = snapshotKey b)) !! snapshotKey b = o → o = None) as Hn.
    { intros o. rewrite removeKeys_lookup, bool_decide_true; [congruence|done]. }
    split; [intros o Ho; by apply Hn in Ho|unfold snapshot; by rewrite (Hn _ eq_refl)].
Defined.

End Tar.
