(* ===== verification/CasStore.v ===== *)
(** * CasStore: content-addressed snapshots

    Models [internal/bed/store/sync/cas.go]: the tree is serialized, cut into
    chunks, and only chunks the previous snapshot does not reference are
    uploaded; the index object is the commit point and unreferenced chunks are
    swept after it.  desync (serialization, chunking, compression), SHA-256 and
    the JSON documents of the pack layout are the operations of [Codec], with
    what the layouts rely on in [CodecLaws].  [ChunkStream]'s workers store the
    chunks in stream order here; their interleaving only decides which chunks
    were uploaded before a failure. *)

From S2P Require Import Prelude Netip Bed Volumes Objects.

Record packChunkRef := mkRef { refID : string; refPack : string; refOffset : Z; refLength : Z }.
Record packManifest := mkManifest { manifestIndex : list string; manifestChunks : list packChunkRef }.

(** ** Code outside the repository *)

Class Codec := {
  catar : Tree → option bytes;                 (* desync.Tar *)
  untar : bytes → option Tree;                 (* desync.UnTar *)
  chunker : bytes → list bytes;                (* desync.NewChunker *)
  chunkID : bytes → string;                    (* Chunk.ID().String() *)
  chunkIDFromString : string → bool;           (* whether the string parses as a chunk id *)
  compress : bytes → bytes;                    (* Chunk.Storage *)
  decompress : bytes → option bytes;
  sha256 : bytes → bytes;
  marshal : packManifest → bytes;              (* json.Marshal *)
  unmarshal : bytes → option packManifest;     (* json.Unmarshal *)
}.

(** [digested] is a family of byte strings without digest collisions, to which
    everything stored belongs; their lengths fit an int. *)
Class CodecLaws `{!Codec} := {
  digested : bytes → Prop;
  untar_catar : ∀ t s, walked t → catar t = Some s → untar s = Some t;
  chunker_concat : ∀ s, mjoin (chunker s) = s;
  chunkID_inj : ∀ x y, digested x → digested y → chunkID x = chunkID y → x = y;
  sha256_inj : ∀ x y, digested x → digested y → sha256 x = sha256 y → x = y;
  digested_length : ∀ x, digested x → Z.of_nat (length x) < 2 ^ 63;
  sha256_length : ∀ x, length (sha256 x) = 32%nat;
  chunkID_parses : ∀ x, chunkIDFromString (chunkID x) = true;
  decompress_compress : ∀ x, decompress (compress x) = Some x;
  compress_nonempty : ∀ x, compress x ≠ [];
  unmarshal_marshal : ∀ m, unmarshal (marshal m) = Some m;
}.

Module Cas.
Section Cas.
Context `{C : Codec}.

Definition indexKey (b : string) : key := [b; "index.caibx"%string].
Definition chunkPrefix (b : string) : key := [b; "chunks"%string].
Definition chunkKey (b id : string) : key := [b; "chunks"%string; id].

(** ** Chunks ([casObjStore]) *)

Definition StoreChunk (f : faults) (b : string) (w : bucket) (known : gset string) (c : bytes)
  : bool * bucket * gset string :=
  if bool_decide (chunkID c ∈ known) then (true, w, known)
  else let '(ok, w) := Put f w (chunkKey b (chunkID c)) (mkObject None (BBytes (compress c))) in
       (ok, w, if ok then {[chunkID c]} ∪ known else known).

Fixpoint ChunkStream (f : faults) (b : string) (w : bucket) (known : gset string) (cs : list bytes) : bool * bucket :=
  match cs with
  | [] => (true, w)
  | c :: cs => let '(ok, w, known) := StoreChunk f b w known c in
               if ok then ChunkStream f b w known cs else (false, w)
  end.

Definition GetChunk (f : faults) (b : string) (w : bucket) (id : string) : option bytes :=
  o ← Get f w (chunkKey b id);
  match objBody o with
  | BBytes data => c ← decompress data; if bool_decide (chunkID c = id) then Some c else None
  | _ => None
  end.

(** ** The layout *)

Definition loadIndex (f : faults) (w : bucket) (b : string) : result store_err (list string) :=
  match Get f w (indexKey b) with
  | None => Err NotFound
  | Some o => match objBody o with BIndex ids => Ok ids | _ => Err RestoreFailed end
  end.

Definition sameChunks (a b : list string) : bool := bool_decide (a = b).

Definition Stat (w : bucket) (b : string) (f : faults) : result store_err (option Z) := statKey w (indexKey b) f.

Definition lastComponent (k : key) : string := default ""%string (last k).

(** The sweep after the commit point. *)
Definition collectGarbage (f : faults) (w : bucket) (b : string) (ids : list string) : bucket :=
  if listFails f then w
  else (Remove f w (λ k, below (chunkPrefix b) k && negb (bool_decide (lastComponent k ∈ ids)))).2.

Definition Persist (w : bucket) (b : string) (t : Tree) (g : Z) (roots : option (list string)) (f : faults)
  : result store_err unit * bucket :=
  match newSnapshotFilter roots with
  | Err e => (Err e, w)
  | Ok r =>
      if headFails f then (Err StatFailed, w)
      else if fenced w (indexKey b) g then (Err Conflict, w)
      else match (if bool_decide (is_Some (w !! indexKey b)) then Some <$> loadIndex f w b else Ok None) with
      | Err e => (Err e, w)
      | Ok prev =>
          match (if archiveFails f then None else catar (kept r t)) with
          | None => (Err ArchiveFailed, w)
          | Some stream =>
              let chunks := chunker stream in
              match ChunkStream f b w (list_to_set (default [] prev)) chunks with
              | (false, w) => (Err PutFailed, w)
              | (true, w) =>
                  let ids := chunkID <$> chunks in
                  let unchanged := match prev with Some p => sameChunks ids p | None => false end in
                  let '(ok, w) := Put f w (indexKey b) (withGeneration g (BIndex ids)) in
                  if negb ok then (Err PutFailed, w)
                  else if unchanged then (Ok tt, w)
                  else (Ok tt, collectGarbage f w b ids)
              end
          end
      end
  end.

Definition UnTarIndex (f : faults) (b : string) (w : bucket) (ids : list string) : option Tree :=
  cs ← mapM (GetChunk f b w) ids; untar (mjoin cs).

Definition Restore (w : bucket) (b : string) (f : faults) : result store_err Tree :=
  ids <-! loadIndex f w b;
  match UnTarIndex f b w ids with Some t => Ok t | None => Err RestoreFailed end.

Definition Delete (w : bucket) (b : string) (f : faults) : result store_err unit * bucket :=
  if listFails f then (Err DeleteFailed, w)
  else
    let '(ok, w) := Remove f w (λ k, below (chunkPrefix b) k || bool_decide (k = indexKey b)) in
    (if ok then Ok tt else Err DeleteFailed, w).

Definition layout : Layout := mkLayout Stat Persist Restore Delete.

(** ** The laws *)

Context `{HC : !CodecLaws}.
Implicit Types (w : bucket) (b : string) (t : Tree) (f : faults) (k : key) (cs : list bytes) (c : bytes) (g : Z).

Definition ownsCas (b : string) (k : key) : Prop := k = indexKey b ∨ below (chunkPrefix b) k = true.

Lemma below_chunk b id : below (chunkPrefix b) (chunkKey b id) = true.
Proof. apply below_spec. by exists [id]. Qed.

Lemma index_not_chunk b : below (chunkPrefix b) (indexKey b) = false.
Proof. apply not_true_iff_false. rewrite below_spec. intros ([|x r]&?&E); [done|]. by destruct r. Qed.

(** The object under a chunk's id holds that chunk. *)
Definition stored (w : bucket) (b : string) (c : bytes) : Prop :=
  ∃ m data, w !! chunkKey b (chunkID c) = Some (mkObject m (BBytes data)) ∧ decompress data = Some c.

(** The snapshot the index describes: its chunks are stored and their
    concatenation is a tree. *)
Definition describes (w : bucket) (b : string) (o : object) (g : Z) (cs : list bytes) (t : Tree) : Prop :=
  generationOf o = Some g ∧ objBody o = BIndex (chunkID <$> cs) ∧ Forall digested cs ∧
  untar (mjoin cs) = Some t ∧ Forall (stored w b) cs.

Definition intact (w : bucket) (b : string) : Prop :=
  ∀ o, w !! indexKey b = Some o → ∃ g cs t, describes w b o g cs t.

Definition snapshot (w : bucket) (b : string) : option (Z * Tree) :=
  match w !! indexKey b with
  | Some o => match Restore w b noFaults with Ok t => Some (default 0 (generationOf o), t) | Err _ => None end
  | None => None
  end.

Definition acceptsCas (w : bucket) (b : string) (t : Tree) (g : Z) (roots : option (list string)) : Prop :=
  ∀ rs s, newSnapshotFilter roots = Ok rs → catar (kept rs t) = Some s → Forall digested (chunker s).

Lemma get_stored w b c : stored w b c → GetChunk noFaults b w (chunkID c) = Some c.
Proof.
  intros (m&data&E&Hd). unfold GetChunk, Get. simpl. rewrite E. simpl. rewrite Hd. simpl. by rewrite bool_decide_true.
Qed.

Lemma read_stored w b cs : Forall (stored w b) cs → mapM (GetChunk noFaults b w) (chunkID <$> cs) = Some cs.
Proof. intros H0. apply mapM_fmap_Forall_Some. eapply Forall_impl; [exact H0|]. apply get_stored. Qed.

Lemma cas_describes_restore w b o g cs t :
  w !! indexKey b = Some o → describes w b o g cs t → Restore w b noFaults = Ok t ∧ snapshot w b = Some (g, t).
Proof.
  intros Eo (Hg&Hb&_&Ht&Hs). assert (Restore w b noFaults = Ok t) as Hr.
  { unfold Restore, loadIndex, Get. simpl. rewrite Eo, Hb. simpl. unfold UnTarIndex. rewrite read_stored by done. simpl. by rewrite Ht. }
  split; [done|]. unfold snapshot. by rewrite Eo, Hr, Hg.
Qed.

Definition chunkObject (c : bytes) : object := mkObject None (BBytes (compress c)).

Lemma stored_put w b c c' :
  digested c → digested c' → stored w b c' → stored (<[chunkKey b (chunkID c) := chunkObject c]> w) b c'.
Proof.
  intros Hc Hc' (m&data&E&Hd). destruct (decide (chunkID c = chunkID c')) as [Eid|Hne].
  - apply chunkID_inj in Eid as ->; [|done..]. exists None, (compress c'). rewrite lookup_insert_eq.
    split; [done|apply decompress_compress].
  - exists m, data. rewrite lookup_insert_ne; [done|]. unfold chunkKey. congruence.
Qed.

Lemma stored_new w b c : stored (<[chunkKey b (chunkID c) := chunkObject c]> w) b c.
Proof. exists None, (compress c). rewrite lookup_insert_eq. split; [done|apply decompress_compress]. Qed.

(** Uploading chunks neither touches the index nor loses a chunk, and at the end
    of a complete stream every chunk of it is stored. *)
Lemma stream_spec f b cs w known ok w' :
  Forall digested cs → (∀ c, digested c → chunkID c ∈ known → stored w b c) →
  ChunkStream f b w known cs = (ok, w') →
  (∀ k, below (chunkPrefix b) k = false → w' !! k = w !! k) ∧
  (∀ c, digested c → stored w b c → stored w' b c) ∧ (ok = true → Forall (stored w' b) cs).
Proof.
  intros Hcs. revert w known. induction Hcs as [|c cs Hc Hcs IH]; intros w known Hk; simpl; [intros [= <- <-]; by split_and!|].
  unfold StoreChunk. destruct (bool_decide (chunkID c ∈ known)) eqn:Ek.
  - apply bool_decide_eq_true in Ek. intros E. destruct (IH w known Hk E) as (H1&H2&H3). split_and!; [done|done|].
    intros Hok. constructor; auto.
  - destruct (Put f w _ _) as [ok1 w1] eqn:Ep.
    assert (∀ k, below (chunkPrefix b) k = false → w1 !! k = w !! k) as Hf1.
    { intros k Hn. eapply Put_other; [exact Ep|]. intros ->. by rewrite below_chunk in Hn. }
    assert (∀ c', digested c' → stored w b c' → stored w1 b c') as Hs1.
    { intros c' Hc' Hst. destruct (Put_cases _ _ _ _ _ _ Ep) as [[-> _]|[_ ->]]; [by apply stored_put|done]. }
    destruct ok1; [|intros [= <- <-]; by split_and!].
    assert (stored w1 b c) as Hnew.
    { destruct (Put_cases _ _ _ _ _ _ Ep) as [[-> _]|[? _]]; [apply stored_new|done]. }
    intros E. destruct (IH w1 ({[chunkID c]} ∪ known)) as (H1&H2&H3); [|done|].
    { intros c' Hc' [Hin%elem_of_singleton|Hin]%elem_of_union; [|auto].
      by apply chunkID_inj in Hin as ->. }
    split_and!; [intros k Hn; by rewrite H1, Hf1|auto|]. intros Hok. constructor; auto.
Qed.

Lemma stored_local w w' b c :
  (∀ k, below (chunkPrefix b) k = true → w !! k = w' !! k) → stored w b c → stored w' b c.
Proof. intros Hk (m&data&E&Hd). exists m, data. by rewrite <-Hk by apply below_chunk. Qed.

(** The sweep keeps the index and every chunk the index references. *)
Lemma garbage_spec f w b cs :
  collectGarbage f w b (chunkID <$> cs) !! indexKey b = w !! indexKey b ∧
  (Forall (stored w b) cs → Forall (stored (collectGarbage f w b (chunkID <$> cs)) b) cs) ∧
  (∀ k, below (chunkPrefix b) k = false → collectGarbage f w b (chunkID <$> cs) !! k = w !! k).
Proof.
  unfold collectGarbage. destruct (listFails f); [done|]. destruct (Remove f w _) as [ok w1] eqn:E. simpl.
  assert (∀ k, below (chunkPrefix b) k = false → w1 !! k = w !! k) as Hk.
  { intros k Hn. eapply Remove_other; [exact E|]; cbv beta. by rewrite Hn. }
  split_and!; [apply Hk, index_not_chunk| |done].
  intros Hs. rewrite Forall_forall in *. intros c Hc. destruct (Hs c Hc) as (m&data&Ec&Hd). exists m, data. split; [|done].
  rewrite <-Ec. eapply Remove_other; [exact E|]; cbv beta. rewrite bool_decide_true; [by rewrite andb_false_r|].
  unfold lastComponent. simpl. by apply list_elem_of_fmap_2.
Qed.

(** The snapshot is unchanged while only chunks were uploaded. *)
Lemma intact_chunks w w' b :
  intact w b → w' !! indexKey b = w !! indexKey b → (∀ c, digested c → stored w b c → stored w' b c) →
  intact w' b ∧ snapshot w' b = snapshot w b.
Proof.
  intros Hi Ei Hs. assert (∀ o g cs t, describes w b o g cs t → describes w' b o g cs t) as Hd.
  { intros o g cs t (?&?&Hdg&?&Hst). split_and!; [done..|]. rewrite Forall_forall in *. auto. }
  split.
  - intros o Eo. rewrite Ei in Eo. destruct (Hi o Eo) as (g&cs&t&H). eauto.
  - destruct (w !! indexKey b) as [o|] eqn:Eo.
    + destruct (Hi o Eo) as (g&cs&t&H). destruct (cas_describes_restore w b o g cs t Eo H) as [_ ->].
      by destruct (cas_describes_restore w' b o g cs t Ei (Hd _ _ _ _ H)) as [_ ->].
    + unfold snapshot. by rewrite Ei, Eo.
Qed.

Lemma cas_fenced_older w b g g0 t0 :
  intact w b → fenced w (indexKey b) g = false → snapshot w b = Some (g0, t0) → g0 < g.
Proof.
  intros Hi Hf. unfold fenced in Hf. destruct (w !! indexKey b) as [o|] eqn:Eo; [|unfold snapshot; by rewrite Eo].
  destruct (Hi o Eo) as (g1&cs&t&H). destruct (cas_describes_restore _ _ _ _ _ _ Eo H) as [_ ->]. destruct H as (Hg&_).
  simpl in Hf. rewrite Hg in Hf. intros [= <- _]. by apply Z.leb_gt in Hf.
Qed.

(** Committing an index over stored chunks publishes it, sweep included. *)
Lemma commit_published b g cs t (w' : bucket) :
  0 <= g < 2 ^ 63 → Forall digested cs → untar (mjoin cs) = Some t →
  w' !! indexKey b = Some (withGeneration g (BIndex (chunkID <$> cs))) → Forall (stored w' b) cs →
  intact w' b ∧ snapshot w' b = Some (g, t).
Proof.
  intros Hg Hd Ht Ei Hs'. assert (describes w' b (withGeneration g (BIndex (chunkID <$> cs))) g cs t) as H.
  { split_and!; [by apply generation_written|done..]. }
  split; [|by apply (cas_describes_restore _ _ _ _ _ _ Ei H)]. intros o Eo. rewrite Ei in Eo. injection Eo as <-. eauto.
Qed.

Lemma stored_commit w b g cs :
  Forall (stored w b) cs → Forall (stored (<[indexKey b := withGeneration g (BIndex (chunkID <$> cs))]> w) b) cs.
Proof.
  intros H. eapply Forall_impl; [exact H|]. intros c. apply stored_local. intros k Hk. rewrite lookup_insert_ne; [done|].
  intros <-. by rewrite index_not_chunk in Hk.
Qed.

Lemma known_stored w b o g cs t c :
  describes w b o g cs t → digested c → chunkID c ∈ (list_to_set (chunkID <$> cs) : gset string) → stored w b c.
Proof.
  intros (_&_&Hd&_&Hs) Hc Hin. apply elem_of_list_to_set, list_elem_of_fmap in Hin as (c'&E&Hin).
  rewrite Forall_forall in Hd, Hs. apply chunkID_inj in E as ->; auto.
Qed.

Lemma cas_persist_law w b t g roots f r w' :
  intact w b → 0 <= g < 2 ^ 63 → walked t → acceptsCas w b t g roots → Persist w b t g roots f = (r, w') →
  intact w' b ∧
  let published := (∃ rs, newSnapshotFilter roots = Ok rs ∧ snapshot w' b = Some (g, kept rs t)) ∧
    (∀ g0 t0, snapshot w b = Some (g0, t0) → g0 < g) in
  match r with Ok _ => published | Err e => snapshot w' b = snapshot w b ∨ (e = PutFailed ∧ published) end.
Proof.
  intros Hi Hg Hw Ha. unfold Persist. destruct (newSnapshotFilter roots) as [rs|e] eqn:Er; [|intros [= <- <-]; auto].
  destruct (headFails f); [intros [= <- <-]; auto|].
  destruct (fenced w (indexKey b) g) eqn:Ef; [intros [= <- <-]; auto|].
  destruct (if bool_decide (is_Some (w !! indexKey b)) then _ else _) as [prev|e] eqn:Epv; [|intros [= <- <-]; auto].
  assert (∀ c, digested c → chunkID c ∈ (list_to_set (default [] prev) : gset string) → stored w b c) as Hkn.
  { intros c Hc Hin. case_bool_decide as Hex; [|injection Epv as <-; by apply elem_of_list_to_set, elem_of_nil in Hin].
    unfold loadIndex, Get in Epv. destruct (getFails f (indexKey b)); [done|].
    destruct Hex as [o Eo]. rewrite Eo in Epv. destruct (Hi o Eo) as (g1&cs1&t1&H1). pose proof H1 as (_&Hb1&_).
    rewrite Hb1 in Epv. injection Epv as <-. by eapply known_stored. }
  destruct (archiveFails f); [intros [= <- <-]; auto|].
  destruct (catar (kept rs t)) as [s|] eqn:Ecat; [|intros [= <- <-]; auto].
  pose proof (Ha rs s Er Ecat) as Hdig.
  destruct (ChunkStream f b w _ (chunker s)) as [ok1 w1] eqn:Es.
  destruct (stream_spec _ _ _ _ _ _ _ Hdig Hkn Es) as (Hf1&Hs1&Hok1).
  assert (w1 !! indexKey b = w !! indexKey b) as Ei1 by apply Hf1, index_not_chunk.
  destruct (intact_chunks w w1 b Hi Ei1 Hs1) as [Hi1 Hv1].
  destruct ok1; [|intros [= <- <-]; auto]. specialize (Hok1 eq_refl).
  destruct (Put f w1 (indexKey b) _) as [ok2 w2] eqn:Ep.
  assert (untar (mjoin (chunker s)) = Some (kept rs t)) as Hun.
  { rewrite chunker_concat. apply untar_catar; [by apply kept_walked|done]. }
  pose proof (stored_commit w1 b g _ Hok1) as Hst2.
  destruct (Put_cases _ _ _ _ _ _ Ep) as [[-> Hok2]|[-> ->]].
  2:{ simpl. intros [= <- <-]. auto. }
  set (w2 := <[indexKey b := _]> w1) in *.
  assert (∀ w3 : bucket, w3 !! indexKey b = w2 !! indexKey b → Forall (stored w3 b) (chunker s) →
    intact w3 b ∧ (∃ rs0, Ok rs = Ok (E:=store_err) rs0 ∧ snapshot w3 b = Some (g, kept rs0 t)) ∧
    (∀ g0 t0, snapshot w b = Some (g0, t0) → g0 < g)) as Hpub.
  { intros w3 E3 Hs3. unfold w2 in E3. rewrite lookup_insert_eq in E3.
    destruct (commit_published b g _ _ w3 Hg Hdig Hun E3 Hs3). split_and!; [done|by exists rs|].
    intros g0 t0. by apply cas_fenced_older. }
  destruct ok2; cbn [negb].
  - destruct (match prev with Some _ => _ | None => _ end); intros [= <- <-].
    + by destruct (Hpub w2 eq_refl Hst2).
    + destruct (garbage_spec f w2 b (chunker s)) as (G1&G2&_). by destruct (Hpub _ G1 (G2 Hst2)).
  - intros [= <- <-]. destruct (Hpub w2 eq_refl Hst2). auto.
Qed.

Lemma cas_persist_frame w b t g roots f k : ~ ownsCas b k → (Persist w b t g roots f).2 !! k = w !! k.
Proof.
  intros Hk. assert (below (chunkPrefix b) k = false ∧ k ≠ indexKey b) as [Hk1 Hk2].
  { split; [apply not_true_iff_false; intros ?; apply Hk; by right|intros ->; apply Hk; by left]. }
  assert (∀ cs w known, (ChunkStream f b w known cs).2 !! k = w !! k) as Hst.
  { induction cs as [|c cs IH]; intros w0 known; simpl; [done|]. unfold StoreChunk. case_bool_decide; [apply IH|].
    destruct (Put f w0 _ _) as [[] w1] eqn:E; simpl; [rewrite IH|]; (eapply Put_other; [exact E|]);
      intros ->; by rewrite below_chunk in Hk1. }
  unfold Persist. destruct (newSnapshotFilter roots) as [rs|]; [|done]. destruct (headFails f); [done|].
  destruct (fenced _ _ _); [done|]. destruct (if bool_decide _ then _ else _) as [prev|]; [|done].
  destruct (if archiveFails f then _ else _) as [s|]; [|done].
  specialize (Hst (chunker s) w (list_to_set (default [] prev))).
  destruct (ChunkStream f b w _ _) as [[] w1]; [|done]. simpl in Hst.
  destruct (Put f w1 _ _) as [ok w2] eqn:E. assert (w2 !! k = w !! k) as E2 by (rewrite <-Hst; by eapply Put_other).
  destruct ok; simpl; [|done]. destruct (match prev with Some _ => _ | None => _ end); simpl; [done|].
  by rewrite (proj2 (proj2 (garbage_spec f w2 b (chunker s)))).
Qed.

Lemma cas_intact_local w w' b :
  (∀ k, ownsCas b k → w !! k = w' !! k) → intact w b → intact w' b.
Proof.
  intros Hk Hi o Eo. rewrite <-(Hk (indexKey b)) in Eo by (by left). destruct (Hi o Eo) as (g&cs&t&?&?&?&?&Hs).
  exists g, cs, t. split_and!; [done..|]. eapply Forall_impl; [exact Hs|]. intros c. apply stored_local.
  intros k Hb. apply Hk. by right.
Qed.

Lemma cas_snapshot_local w w' b : (∀ k, ownsCas b k → w !! k = w' !! k) → snapshot w b = snapshot w' b.
Proof.
  intros Hk. unfold snapshot, Restore, loadIndex, UnTarIndex, Get. simpl. rewrite (Hk (indexKey b)) by (by left).
  destruct (w' !! indexKey b) as [o|]; [|done]. destruct (objBody o); try done. simpl.
  replace (mapM (GetChunk noFaults b w) chunks) with (mapM (GetChunk noFaults b w') chunks); [done|].
  apply mapM_ext. intros id. unfold GetChunk, Get. simpl. rewrite Hk; [done|]. right. apply below_chunk.
Qed.

Lemma delete_spec w b f ok w' :
  Remove f w (λ k, below (chunkPrefix b) k || bool_decide (k = indexKey b)) = (ok, w') →
  (∀ k, ~ ownsCas b k → w' !! k = w !! k) ∧ (ok = true → w' !! indexKey b = None).
Proof.
  intros E. split.
  - intros k Hk. eapply Remove_other; [exact E|]; cbv beta. apply not_true_iff_false. rewrite orb_true_iff, bool_decide_eq_true.
    intros [H|H]; apply Hk; [by right|by left].
  - intros ->. apply Remove_ok in E. subst w'. rewrite removeKeys_lookup, (bool_decide_true (indexKey b = _)) by done.
    by rewrite orb_true_r.
Qed.

#[global, refine] Instance lawful : Lawful layout :=
  {| owns := ownsCas; view := snapshot; wf := intact; accepts := acceptsCas |}.
Proof.
  - intros w w' b Hk. split; [by apply cas_snapshot_local|by apply cas_intact_local].
  - intros w b Hk. assert (w !! indexKey b = None) as E by (apply Hk; by left).
    split; [intros o; by rewrite E|unfold snapshot; by rewrite E].
  - intros w b f Hi. simpl. unfold Stat, statKey. destruct (headFails f); [done|].
    destruct (w !! indexKey b) as [o|] eqn:E; [|unfold snapshot; by rewrite E].
    destruct (Hi o E) as (g&cs&t&H). destruct (cas_describes_restore _ _ _ _ _ _ E H) as [_ ->]. destruct H as (Hg&_).
    simpl. by rewrite Hg.
  - intros w b Hi. simpl. destruct (w !! indexKey b) as [o|] eqn:E.
    + destruct (Hi o E) as (g&cs&t&H). by destruct (cas_describes_restore _ _ _ _ _ _ E H) as [-> ->].
    + unfold snapshot, Restore, loadIndex, Get. simpl. by rewrite E.
  - exact cas_persist_frame.
  - exact cas_persist_law.
  - intros w b f k Hk. simpl. unfold Delete. destruct (listFails f); [done|]. destruct (Remove f w _) eqn:E.
    by apply (delete_spec _ _ _ _ _ E).
  - intros w b f w'. simpl. unfold Delete. destruct (listFails f); [done|]. destruct (Remove f w _) as [[] w1] eqn:E; [|done].
    intros [= <-]. destruct (delete_spec _ _ _ _ _ E) as [_ Hn]. specialize (Hn eq_refl).
    split; [intros o; by rewrite Hn|unfold snapshot; by rewrite Hn].
Defined.
End Cas.
End Cas.
