(* ===== verification/PackStore.v ===== *)
(** * PackStore: chunks grouped into immutable packs

    Models [internal/bed/store/sync/pack.go]: new chunks are appended to pack
    objects named by their digest, a manifest locates every chunk of the
    snapshot, and [head.json] is the only commit point.  The reader keeps the
    packs it fetched in a cache of two, least recently used first out.  The
    operations of [Codec] are those of the content-addressed layout. *)

From S2P Require Import Prelude Netip Bed Volumes Objects CasStore.

Module Pack.
Section Pack.
Context `{C : Codec}.

(** ** Digests as object names *)

Definition hexNibble (n : Z) : ascii := ascii_of_N (Z.to_N (if n <? 10 then 48 + n else 87 + n)).
Definition hexByte (a : ascii) : list ascii := [hexNibble (byte a / 16); hexNibble (byte a mod 16)].
(** [hex.EncodeToString(sha256.Sum256(b))] *)
Definition objectID (b : bytes) : string := of_list (mjoin (hexByte <$> sha256 b)).

Definition isHex (a : ascii) : bool := is_digit a || in_range 97 102 a || in_range 65 70 a.
(** [hex.DecodeString] succeeds with 32 bytes. *)
Definition validObjectID (id : string) : bool :=
  forallb isHex (to_list id) && bool_decide (String.length id = 64%nat).

(** ** Keys *)

Definition bedPrefix (b : string) : key := ["beds"%string; b].
Definition headKey (b : string) : key := ["beds"; b; "head.json"]%string.
Definition snapshotKey (b id : string) : key := ["beds"; b; "snapshots"; id +:+ ".json"]%string.
Definition packKey (b id : string) : key := ["beds"; b; "packs"; String.substring 0 2 id; id +:+ ".pack"]%string.

(** ** Manifests *)

Record packLocation := mkLocation { locPack : string; locOffset : Z; locLength : Z }.
#[export] Instance packLocation_eq_dec : EqDecision packLocation.
Proof. solve_decision. Defined.

Fixpoint buildChunks (ids : list string) (locations : gmap string packLocation) : option (list packChunkRef) :=
  match ids with
  | [] => Some []
  | id :: ids =>
      l ← locations !! id; rest ← buildChunks ids locations;
      Some (mkRef id (locPack l) (locOffset l) (locLength l) :: rest)
  end.
Definition buildPackManifest (ids : list string) (locations : gmap string packLocation) : option packManifest :=
  mkManifest ids <$> buildChunks ids locations.

Definition addLocation (locations : gmap string packLocation) (r : packChunkRef) : option (gmap string packLocation) :=
  if negb (chunkIDFromString (refID r)) then None
  else if negb (validObjectID (refPack r)) || (refOffset r <? 0) || (refLength r <=? 0) then None
  else
    let location := mkLocation (refPack r) (refOffset r) (refLength r) in
    match locations !! refID r with
    | Some old => if bool_decide (old = location) then Some (<[refID r := location]> locations) else None
    | None => Some (<[refID r := location]> locations)
    end.
Fixpoint addLocations (locations : gmap string packLocation) (rs : list packChunkRef) : option (gmap string packLocation) :=
  match rs with [] => Some locations | r :: rs => l ← addLocation locations r; addLocations l rs end.
Definition manifestLocations (m : packManifest) : option (gmap string packLocation) := addLocations ∅ (manifestChunks m).

Definition loadHead (f : faults) (w : bucket) (b : string) : result store_err packHead :=
  match Get f w (headKey b) with
  | None => Err NotFound
  | Some o => match objBody o with
      | BHead h => if validObjectID (Snapshot h) then Ok h else Err BadManifest
      | _ => Err BadManifest end
  end.

Definition loadManifest (f : faults) (w : bucket) (b id : string) : result store_err packManifest :=
  if negb (validObjectID id) then Err BadManifest
  else match Get f w (snapshotKey b id) with
  | None => Err BadManifest
  | Some o => match objBody o with
      | BBytes data => if bool_decide (objectID data = id)
                       then match unmarshal data with Some m => Ok m | None => Err BadManifest end
                       else Err BadManifest
      | _ => Err BadManifest end
  end.

(** ** The writer *)

Record pendingPackChunk := mkPending { pendID : string; pendOffset : Z; pendLength : Z }.
Record packWriter := mkWriter { buf : bytes; pending : list pendingPackChunk; locations : gmap string packLocation }.

Definition locate (packID : string) (l : gmap string packLocation) (p : pendingPackChunk) : gmap string packLocation :=
  <[pendID p := mkLocation packID (pendOffset p) (pendLength p)]> l.

Definition packTargetBytes : Z := 32 * 2 ^ 20.

Definition flushLocked (f : faults) (b : string) (w : bucket) (pw : packWriter) : bool * bucket * packWriter :=
  match buf pw with
  | [] => (true, w, pw)
  | _ =>
      let packID := objectID (buf pw) in
      let '(ok, w) := Put f w (packKey b packID) (mkObject None (BBytes (buf pw))) in
      if ok then (true, w, mkWriter [] [] (foldl (locate packID) (locations pw) (pending pw)))
      else (false, w, pw)
  end.

Definition blen (l : bytes) : Z := Z.of_nat (length l).

Definition StoreChunk (target : Z) (f : faults) (b : string) (w : bucket) (pw : packWriter) (c : bytes)
  : bool * bucket * packWriter :=
  let data := compress c in
  match locations pw !! chunkID c with
  | Some _ => (true, w, pw)
  | None =>
      let '(ok, w, pw) :=
        if (0 <? blen (buf pw)) && (target <? blen (buf pw) + blen data) then flushLocked f b w pw else (true, w, pw) in
      if negb ok then (false, w, pw)
      else
        let pw := mkWriter (buf pw ++ data)
                    (pending pw ++ [mkPending (chunkID c) (blen (buf pw)) (blen data)]) (locations pw) in
        if target <=? blen (buf pw) then flushLocked f b w pw else (true, w, pw)
  end.

Fixpoint ChunkStream (target : Z) (f : faults) (b : string) (w : bucket) (pw : packWriter) (cs : list bytes)
  : bool * bucket * packWriter :=
  match cs with
  | [] => (true, w, pw)
  | c :: cs => let '(ok, w, pw) := StoreChunk target f b w pw c in
               if ok then ChunkStream target f b w pw cs else (false, w, pw)
  end.

(** ** The reader *)

Definition packReadCache : nat := 2.

(** The cached packs, most recently used first. *)
Notation packCache := (list (string * bytes)).

Definition cacheHit (cache : packCache) (id : string) : option bytes :=
  snd <$> head (filter (λ e : string * bytes, e.1 = id) cache).
Definition cacheTouch (cache : packCache) (id : string) (data : bytes) : packCache :=
  (id, data) :: filter (λ e : string * bytes, e.1 ≠ id) cache.

(** [pack[offset:end]], with the bound checks made at 64 bits. *)
Definition slice (pack : bytes) (l : packLocation) : option bytes :=
  let stop := wrap64 (locOffset l + locLength l) in
  if (locOffset l <? 0) || (stop <? locOffset l) || (blen pack <? stop) then None
  else Some (take (Z.to_nat (stop - locOffset l)) (drop (Z.to_nat (locOffset l)) pack)).

Definition fetchPack (f : faults) (w : bucket) (b id : string) : option bytes :=
  o ← Get f w (packKey b id);
  match objBody o with
  | BBytes data => if bool_decide (objectID data = id) then Some data else None
  | _ => None
  end.

Definition chunkStorage (f : faults) (w : bucket) (b : string) (cache : packCache) (l : packLocation)
  : option bytes * packCache :=
  match cacheHit cache (locPack l) with
  | Some data => (slice data l, cacheTouch cache (locPack l) data)
  | None =>
      match fetchPack f w b (locPack l) with
      | None => (None, cache)
      | Some data => (slice data l, take packReadCache (cacheTouch cache (locPack l) data))
      end
  end.

Definition GetChunk (f : faults) (w : bucket) (b : string) (locs : gmap string packLocation) (cache : packCache) (id : string)
  : option bytes * packCache :=
  match locs !! id with
  | None => (None, cache)
  | Some l =>
      let '(data, cache) := chunkStorage f w b cache l in
      (data ≫= λ d, c ← decompress d; if bool_decide (chunkID c = id) then Some c else None, cache)
  end.

Fixpoint readChunks (f : faults) (w : bucket) (b : string) (locs : gmap string packLocation) (cache : packCache)
    (ids : list string) : option (list bytes) :=
  match ids with
  | [] => Some []
  | id :: ids => let '(c, cache) := GetChunk f w b locs cache id in
                 c ← c; cs ← readChunks f w b locs cache ids; Some (c :: cs)
  end.

(** ** The layout *)

Definition Stat (w : bucket) (b : string) (f : faults) : result store_err (option Z) := statKey w (headKey b) f.

(** What the previous snapshot contributes: its id and its chunk locations. *)
Definition loadPrevious (f : faults) (w : bucket) (b : string)
  : result store_err (option string * gmap string packLocation) :=
  match w !! headKey b with
  | None => Ok (None, ∅)
  | Some _ =>
      h <-! loadHead f w b; m <-! loadManifest f w b (Snapshot h);
      match manifestLocations m with
      | Some l => Ok (Some (Snapshot h), l)
      | None => Err BadManifest
      end
  end.

Definition Persist (w : bucket) (b : string) (t : Tree) (g : Z) (roots : option (list string)) (f : faults)
  : result store_err unit * bucket :=
  match newSnapshotFilter roots with
  | Err e => (Err e, w)
  | Ok r =>
      if headFails f then (Err StatFailed, w)
      else if fenced w (headKey b) g then (Err Conflict, w)
      else match loadPrevious f w b with
      | Err e => (Err e, w)
      | Ok (prev, known) =>
          match (if archiveFails f then None else catar (kept r t)) with
          | None => (Err ArchiveFailed, w)
          | Some stream =>
              let ids := chunkID <$> chunker stream in
              match ChunkStream packTargetBytes f b w (mkWriter [] [] known) (chunker stream) with
              | (false, w, _) => (Err PutFailed, w)
              | (true, w, pw) =>
                  match flushLocked f b w pw with
                  | (false, w, _) => (Err PutFailed, w)
                  | (true, w, pw) =>
                      match buildPackManifest ids (locations pw) with
                      | None => (Err BadManifest, w)
                      | Some m =>
                          let data := marshal m in
                          let id := objectID data in
                          let '(ok, w) :=
                            if bool_decide (prev = Some id) then (true, w)
                            else Put f w (snapshotKey b id) (mkObject None (BBytes data)) in
                          if negb ok then (Err PutFailed, w)
                          else
                            let '(ok, w) := Put f w (headKey b)
                              (withGeneration g (BHead (mkHead id g (blen stream)))) in
                            (if ok then Ok tt else Err PutFailed, w)
                      end
                  end
              end
          end
      end
  end.

Definition Restore (w : bucket) (b : string) (f : faults) : result store_err Tree :=
  h <-! loadHead f w b;
  m <-! loadManifest f w b (Snapshot h);
  match manifestLocations m with
  | None => Err BadManifest
  | Some locs =>
      if forallb (λ id, bool_decide (is_Some (locs !! id))) (manifestIndex m) then
        match readChunks f w b locs [] (manifestIndex m) ≫= λ cs, untar (mjoin cs) with
        | Some t => Ok t
        | None => Err RestoreFailed
        end
      else Err BadManifest
  end.

Definition Delete (w : bucket) (b : string) (f : faults) : result store_err unit * bucket :=
  if listFails f then (Err DeleteFailed, w)
  else let '(ok, w) := Remove f w (below (bedPrefix b)) in (if ok then Ok tt else Err DeleteFailed, w).

Definition layout : Layout := mkLayout Stat Persist Restore Delete.

(** ** The cache is transparent *)

(** A cache holds verified packs of the bucket, at most two. *)
Definition cache_ok (f : faults) (w : bucket) (b : string) (cache : packCache) : Prop :=
  (∀ id data, (id, data) ∈ cache → fetchPack f w b id = Some data) ∧ (length cache <= packReadCache)%nat ∧
  NoDup cache.*1.

Definition directStorage (f : faults) (w : bucket) (b : string) (l : packLocation) : option bytes :=
  fetchPack f w b (locPack l) ≫= λ data, slice data l.
Definition directChunk (f : faults) (w : bucket) (b : string) (locs : gmap string packLocation) (id : string) : option bytes :=
  l ← locs !! id; d ← directStorage f w b l; c ← decompress d; if bool_decide (chunkID c = id) then Some c else None.

Lemma touch_elem cache id data id' data' :
  (id', data') ∈ cacheTouch cache id data → (id' = id ∧ data' = data) ∨ (id', data') ∈ cache.
Proof.
  unfold cacheTouch. rewrite elem_of_cons, list_elem_of_filter. intros [[= -> ->]|[_ ?]]; auto.
Qed.

Lemma touch_nodup cache id data : NoDup cache.*1 → NoDup (cacheTouch cache id data).*1.
Proof.
  intros Hnd. simpl. apply NoDup_cons. split.
  - intros ((id'&d)&E&Hin)%list_elem_of_fmap. apply list_elem_of_filter in Hin as [Hne _]. by apply Hne.
  - eapply sublist_NoDup; [exact Hnd|]. apply fmap_sublist, sublist_filter.
Qed.

Lemma touch_length cache id : (length (filter (λ e : string * bytes, e.1 ≠ id) cache) <= length cache)%nat.
Proof. apply sublist_length, sublist_filter. Qed.

Lemma hit_elem cache id data : cacheHit cache id = Some data → (id, data) ∈ cache.
Proof.
  unfold cacheHit. destruct (filter _ cache) as [|[id' d] l] eqn:E; [done|]. intros [= <-].
  assert ((id', d) ∈ filter (λ e : string * bytes, e.1 = id) cache) as [Hid Hin]%list_elem_of_filter by (rewrite E; by left).
  simpl in Hid. by subst id'.
Qed.

Lemma hit_length cache id data :
  cacheHit cache id = Some data → (length (cacheTouch cache id data) <= length cache)%nat.
Proof.
  intros H%hit_elem. unfold cacheTouch. simpl. apply list_elem_of_split in H as (l1&l2&->).
  rewrite filter_app, filter_cons_False by (simpl; tauto). rewrite !length_app. simpl.
  pose proof (touch_length l1 id). pose proof (touch_length l2 id). lia.
Qed.

Lemma chunkStorage_direct f w b cache l :
  cache_ok f w b cache →
  let '(d, cache') := chunkStorage f w b cache l in d = directStorage f w b l ∧ cache_ok f w b cache'.
Proof.
  intros (Hc&Hlen&Hnd). unfold chunkStorage, directStorage. destruct (cacheHit cache (locPack l)) as [data|] eqn:Eh.
  - pose proof (Hc _ _ (hit_elem _ _ _ Eh)) as Hf. rewrite Hf. split; [done|]. split_and!; [|pose proof (hit_length _ _ _ Eh); lia|by apply touch_nodup].
    intros id d [[-> ->]|Hin]%touch_elem; auto.
  - destruct (fetchPack f w b (locPack l)) as [data|] eqn:Ef; [|done]. split; [done|]. split_and!.
    + intros id d Hin. eapply elem_of_sublist in Hin; [|apply sublist_take]. apply touch_elem in Hin as [[-> ->]|Hin]; auto.
    + rewrite length_take. lia.
    + eapply sublist_NoDup; [by apply touch_nodup|]. apply fmap_sublist, sublist_take.
Qed.

Lemma readChunks_direct f w b locs cache ids :
  cache_ok f w b cache → readChunks f w b locs cache ids = mapM (directChunk f w b locs) ids.
Proof.
  revert cache. induction ids as [|id ids IH]; intros cache Hc; [done|].
  change (mapM (directChunk f w b locs) (id :: ids)) with
    (c ← directChunk f w b locs id; cs ← mapM (directChunk f w b locs) ids; Some (c :: cs)).
  cbn [readChunks]. unfold directChunk at 2, GetChunk.
  destruct (locs !! id) as [l|]; [|done]. cbn [mbind option_bind].
  pose proof (chunkStorage_direct f w b cache l Hc) as Hd. destruct (chunkStorage f w b cache l) as [d cache'].
  destruct Hd as [-> Hc']. destruct (directStorage f w b l) as [d|]; [|done]. cbn [mbind option_bind].
  destruct (decompress d) as [c|]; [|done]. cbn [mbind option_bind].
  destruct (bool_decide (chunkID c = id)); [|done]. cbn [mbind option_bind]. by rewrite (IH _ Hc').
Qed.

(** ** Digests *)

Context `{HC : !CodecLaws}.
Implicit Types (w : bucket) (b : string) (t : Tree) (f : faults) (k : key) (cs : list bytes) (c : bytes) (g : Z).

Lemma hexNibble_props n : 0 <= n < 16 → isHex (hexNibble n) = true ∧ ∀ m, 0 <= m < 16 → hexNibble m = hexNibble n → m = n.
Proof.
  assert (∀ i, 0 <= i < 16 → isHex (hexNibble i) = true ∧ byte (hexNibble i) = (if i <? 10 then 48 + i else 87 + i)) as H.
  { intros i Hi. assert (i ∈ seqZ 0 16) as Hin by (apply elem_of_seqZ; lia).
    assert (Forall (λ i, isHex (hexNibble i) = true ∧ byte (hexNibble i) = (if i <? 10 then 48 + i else 87 + i)) (seqZ 0 16)) as HF.
    { apply (bool_decide_eq_true_1 _). vm_compute. reflexivity. }
    rewrite Forall_forall in HF. auto. }
  intros Hn. split; [by apply H|]. intros m Hm E. apply (f_equal byte) in E. rewrite (proj2 (H m Hm)), (proj2 (H n Hn)) in E.
  destruct (Z.ltb_spec m 10), (Z.ltb_spec n 10); lia.
Qed.

Lemma byte_range a : 0 <= byte a < 256.
Proof. unfold byte. pose proof (N_ascii_bounded a). lia. Qed.

Lemma byte_inj a a' : byte a = byte a' → a = a'.
Proof. unfold byte. intros E. rewrite <-(ascii_N_embedding a), <-(ascii_N_embedding a'). f_equal. lia. Qed.

Lemma nibbles a : 0 <= byte a / 16 < 16 ∧ 0 <= byte a mod 16 < 16.
Proof. pose proof (byte_range a). split; [split; [apply Z.div_pos|apply Z.div_lt_upper_bound]; lia|apply Z.mod_pos_bound; lia]. Qed.

Lemma hexByte_inj a a' : hexByte a = hexByte a' → a = a'.
Proof.
  unfold hexByte. intros [= E1 E2]. destruct (nibbles a), (nibbles a'). apply byte_inj.
  apply hexNibble_props in E1, E2; [|done..]. rewrite (Z.div_mod (byte a) 16), (Z.div_mod (byte a') 16) by lia. congruence.
Qed.

Lemma hex_join_inj (l l' : bytes) : mjoin (hexByte <$> l) = mjoin (hexByte <$> l') → l = l'.
Proof.
  revert l'. induction l as [|a l IH]; intros [|a' l']; [done|done|done|]. cbn [fmap list_fmap mjoin list_join].
  intros E. apply app_inj_1 in E as [E1 E2]; [|done]. f_equal; [by apply hexByte_inj|by apply IH].
Qed.

Lemma objectID_inj x y : digested x → digested y → objectID x = objectID y → x = y.
Proof.
  intros Hx Hy E. apply sha256_inj; [done..|]. apply hex_join_inj. unfold objectID in E.
  by rewrite <-(to_of_list (mjoin _)), E, to_of_list.
Qed.

Lemma objectID_valid x : validObjectID (objectID x) = true.
Proof.
  unfold validObjectID, objectID. rewrite to_of_list. apply andb_true_iff. split.
  - apply forallb_forall. intros a (l&Hl&Ha)%list_elem_of_In%list_elem_of_join.
    apply list_elem_of_fmap in Ha as (z&->&_). destruct (nibbles z).
    unfold hexByte in Hl. rewrite !elem_of_cons in Hl. destruct Hl as [->|[->|Hl]]; [by apply hexNibble_props..|by apply elem_of_nil in Hl].
  - apply bool_decide_eq_true. pose proof (sha256_length x) as Hl.
    assert (∀ x : list ascii, String.length (of_list x) = length x) as -> by (intros y; induction y; simpl; auto).
    assert (∀ l : bytes, length (mjoin (hexByte <$> l)) = (2 * length l)%nat) as ->.
    { intros l. induction l as [|a l IH]; [done|]. change (S (S (length (mjoin (hexByte <$> l)))) = 2 * S (length l))%nat.
      rewrite IH. lia. }
    by rewrite Hl.
Qed.

Lemma string_app_inj_r (x y z : string) : x +:+ z = y +:+ z → x = y.
Proof.
  intros E. apply (f_equal to_list) in E. rewrite !to_list_app in E. apply app_inv_tail in E.
  by rewrite <-(of_to_list x), E, of_to_list.
Qed.

Lemma packKey_inj b x y : packKey b x = packKey b y → x = y.
Proof. intros [= _ E]. by apply string_app_inj_r in E. Qed.
Lemma snapshotKey_inj b x y : snapshotKey b x = snapshotKey b y → x = y.
Proof. intros [= E]. by apply string_app_inj_r in E. Qed.

(** ** Located chunks *)

Lemma slice_middle (pre d post : bytes) pack :
  blen (pre ++ d ++ post) < 2 ^ 63 → slice (pre ++ d ++ post) (mkLocation pack (blen pre) (blen d)) = Some d.
Proof.
  unfold slice, blen. rewrite !length_app. intros H. simpl. rewrite wrap64_id by lia.
  destruct (Z.ltb_spec (Z.of_nat (length pre)) 0); [lia|].
  destruct (Z.ltb_spec (Z.of_nat (length pre) + Z.of_nat (length d)) (Z.of_nat (length pre))); [lia|].
  destruct (Z.ltb_spec (Z.of_nat (length pre + (length d + length post))) (Z.of_nat (length pre) + Z.of_nat (length d))); [lia|].
  simpl. replace (Z.to_nat (Z.of_nat (length pre) + Z.of_nat (length d) - Z.of_nat (length pre))) with (length d) by lia.
  by rewrite Nat2Z.id, drop_app_length, take_app_length.
Qed.

(** The bound checks make every slice expression well defined. *)
Lemma slice_in_bounds pack l d :
  slice pack l = Some d → 0 <= locOffset l ∧ locOffset l <= wrap64 (locOffset l + locLength l) <= blen pack ∧
    blen d = wrap64 (locOffset l + locLength l) - locOffset l.
Proof.
  unfold slice. destruct (_ || _) eqn:E; [done|]. reflect_bools. intros [= <-]. split_and!; [lia..|].
  unfold blen in *. rewrite length_take, length_drop. lia.
Qed.

(** A location finds its chunk in a stored pack. *)
Definition holds w b (id : string) (l : packLocation) : Prop :=
  chunkIDFromString id = true ∧ validObjectID (locPack l) = true ∧ 0 <= locOffset l ∧ 0 < locLength l ∧
  ∃ m data d c, w !! packKey b (locPack l) = Some (mkObject m (BBytes data)) ∧ objectID data = locPack l ∧
    digested data ∧ slice data l = Some d ∧ decompress d = Some c ∧ chunkID c = id ∧ digested c.

Lemma holds_direct w b locs id l :
  locs !! id = Some l → holds w b id l → ∃ c, digested c ∧ chunkID c = id ∧ directChunk noFaults w b locs id = Some c.
Proof.
  intros El (_&_&_&_&m&data&d&c&E&Eid&_&Es&Ed&Ec&Hc). exists c. split_and!; [done|done|].
  unfold directChunk, directStorage, fetchPack, Get. rewrite El. simpl. rewrite E. simpl.
  rewrite bool_decide_true by done. simpl. rewrite Es. simpl. rewrite Ed. simpl. by rewrite bool_decide_true.
Qed.

(** Uploading a pack keeps every location. *)
Lemma holds_put w b id l data :
  digested data → holds w b id l → holds (<[packKey b (objectID data) := mkObject None (BBytes data)]> w) b id l.
Proof.
  intros Hd (H1&H2&H3&H4&m&data'&d&c&E&Eid&Hd'&H5). split_and!; [done..|].
  destruct (decide (objectID data = locPack l)) as [Ei|Hne].
  - rewrite <-Eid in Ei. apply objectID_inj in Ei as ->; [|done..]. exists None, data', d, c. rewrite Eid, lookup_insert_eq. done.
  - exists m, data', d, c. rewrite lookup_insert_ne; [done|]. intros E'%packKey_inj. done.
Qed.

Lemma holds_local w w' b id l :
  (∀ k, bedPrefix b `prefix_of` k → k ≠ headKey b → (∀ x, k ≠ snapshotKey b x) → w !! k = w' !! k) → holds w b id l → holds w' b id l.
Proof.
  intros Hk (H1&H2&H3&H4&m&data&d&c&E&H5). split_and!; [done..|]. exists m, data, d, c. split; [|done].
  rewrite <-E. symmetry. apply Hk; [by exists ["packs"; String.substring 0 2 (locPack l); locPack l +:+ ".pack"]%string|done|].
  intros x. unfold packKey, snapshotKey. done.
Qed.

(** ** The writer keeps every chunk findable *)

Lemma locate_lookup id ps m x l :
  foldl (locate id) m ps !! x = Some l →
  m !! x = Some l ∨ ∃ p, p ∈ ps ∧ pendID p = x ∧ l = mkLocation id (pendOffset p) (pendLength p).
Proof.
  revert m. induction ps as [|p ps IH]; intros m; simpl; [by left|]. intros [H|(q&Hq&H)]%IH.
  - unfold locate in H. apply lookup_insert_Some in H as [[<- <-]|[_ ?]]; [right|by left]. exists p. split; [by left|done].
  - right. exists q. split; [by right|done].
Qed.

Lemma locate_covers id ps m x :
  is_Some (m !! x) ∨ x ∈ pendID <$> ps → is_Some (foldl (locate id) m ps !! x).
Proof.
  revert m. induction ps as [|p ps IH]; intros m; simpl; [intros [?|?%elem_of_nil]; done|].
  rewrite elem_of_cons. intros H. apply IH. unfold locate. destruct (decide (pendID p = x)) as [<-|Hne].
  - left. rewrite lookup_insert_eq. eauto.
  - rewrite lookup_insert_ne by done. destruct H as [H|[->|H]]; [by left|done|by right].
Qed.

Definition covers (pw : packWriter) c : Prop :=
  is_Some (locations pw !! chunkID c) ∨ chunkID c ∈ pendID <$> pending pw.

Definition buffered (pw : packWriter) (p : pendingPackChunk) : Prop :=
  ∃ c pre post, buf pw = pre ++ compress c ++ post ∧ p = mkPending (chunkID c) (blen pre) (blen (compress c)) ∧ digested c.

(** [seen] are the chunks offered so far. *)
Record writer_ok w b (seen : list bytes) (pw : packWriter) : Prop := {
  wo_located : ∀ id l, locations pw !! id = Some l → holds w b id l;
  wo_buf : ∃ l, l `sublist_of` seen ∧ buf pw = mjoin (compress <$> l);
  wo_pending : Forall (buffered pw) (pending pw);
  wo_covers : Forall (covers pw) seen;
}.

(** What uploads leave alone: everything but packs of this bed, and what they hold. *)
Definition pack_grows w w' b : Prop :=
  (∀ k, (∀ id, k ≠ packKey b id) → w' !! k = w !! k) ∧ (∀ id l, holds w b id l → holds w' b id l).

Lemma grows_refl w b : pack_grows w w b.
Proof. done. Qed.
Lemma grows_trans w1 w2 w3 b : pack_grows w1 w2 b → pack_grows w2 w3 b → pack_grows w1 w3 b.
Proof. intros [H1 H2] [H3 H4]. split; [intros k Hk; by rewrite H3, H1|auto]. Qed.

Lemma grows_put f w b data ok w' :
  digested data → Put f w (packKey b (objectID data)) (mkObject None (BBytes data)) = (ok, w') → pack_grows w w' b.
Proof.
  intros Hd E. split; [intros k Hk; by eapply Put_other|]. intros id l Hl.
  destruct (Put_cases _ _ _ _ _ _ E) as [[-> _]|[_ ->]]; [by apply holds_put|done].
Qed.

Lemma pending_located w b data p pw :
  digested data → buf pw = data → buffered pw p →
  holds (<[packKey b (objectID data) := mkObject None (BBytes data)]> w) b (pendID p)
    (mkLocation (objectID data) (pendOffset p) (pendLength p)).
Proof.
  intros Hd <- (c&pre&post&Eb&->&Hc). simpl. split_and!; simpl.
  - apply chunkID_parses.
  - apply objectID_valid.
  - unfold blen. lia.
  - unfold blen. pose proof (compress_nonempty c). destruct (compress c); [done|simpl; lia].
  - exists None, (buf pw), (compress c), c. rewrite lookup_insert_eq. split_and!; try done; [|apply decompress_compress].
    rewrite Eb at 1. apply slice_middle. rewrite <-Eb. unfold blen. by apply digested_length.
Qed.

Definition flushed (pw : packWriter) : packWriter :=
  match buf pw with [] => pw | _ => mkWriter [] [] (foldl (locate (objectID (buf pw))) (locations pw) (pending pw)) end.

Lemma flush_ok f b w pw seen ok w' pw' :
  writer_ok w b seen pw → digested (buf pw) → flushLocked f b w pw = (ok, w', pw') →
  pack_grows w w' b ∧
  (ok = true → pw' = flushed pw ∧ writer_ok w' b seen pw' ∧ Forall (λ c, is_Some (locations pw' !! chunkID c)) seen ∧
     buf pw' = []).
Proof.
  intros [Hl Hb Hp Hc] Hd. unfold flushLocked, flushed. destruct (buf pw) as [|a0 l0] eqn:Eb.
  { intros [= <- <- <-]. split; [apply grows_refl|]. intros _. split_and!; [done|by split; rewrite ?Eb| |done].
    assert (pending pw = []) as Ep.
    { destruct (pending pw) as [|p ps]; [done|]. apply Forall_cons in Hp as [(c&pre&post&E&_) _].
      rewrite Eb in E. pose proof (compress_nonempty c). destruct pre, (compress c); done. }
    eapply Forall_impl; [exact Hc|]. intros c [?|H]; [done|]. rewrite Ep in H. by apply elem_of_nil in H. }
  rewrite <-Eb in *. clear a0 l0 Eb. destruct (Put f w _ _) as [ok1 w1] eqn:E. pose proof (grows_put _ _ _ _ _ _ Hd E) as Hg.
  destruct ok1; intros [= <- <- <-]; (split; [done|]); [|done]. intros _.
  assert (w1 = <[packKey b (objectID (buf pw)) := mkObject None (BBytes (buf pw))]> w) as Ew.
  { by destruct (Put_cases _ _ _ _ _ _ E) as [[-> _]|[? _]]. }
  assert (Forall (λ c, is_Some (foldl (locate (objectID (buf pw))) (locations pw) (pending pw) !! chunkID c)) seen) as Hcov.
  { eapply Forall_impl; [exact Hc|]. intros c H. by apply locate_covers. }
  split_and!; [done| |done|done]. split; simpl.
  - intros id l [H|(p&Hin&<-&->)]%locate_lookup; [apply Hg; auto|]. rewrite Ew. rewrite Forall_forall in Hp.
    apply (pending_located w b (buf pw) p pw); auto.
  - exists []. split; [apply sublist_nil_l|done].
  - constructor.
  - eapply Forall_impl; [exact Hcov|]. intros c ?. by left.
Qed.

Definition appended (pw : packWriter) c : packWriter :=
  mkWriter (buf pw ++ compress c) (pending pw ++ [mkPending (chunkID c) (blen (buf pw)) (blen (compress c))]) (locations pw).

(** The writer's state after a successful [StoreChunk], which depends on the
    chunks only. *)
Definition planChunk (target : Z) (pw : packWriter) c : packWriter :=
  match locations pw !! chunkID c with
  | Some _ => pw
  | None =>
      let pw := if (0 <? blen (buf pw)) && (target <? blen (buf pw) + blen (compress c)) then flushed pw else pw in
      let pw := appended pw c in
      if target <=? blen (buf pw) then flushed pw else pw
  end.

Lemma mjoin_snoc cs c : mjoin (compress <$> (cs ++ [c])) = mjoin (compress <$> cs) ++ compress c.
Proof. rewrite fmap_app, list.join_app. simpl. by rewrite app_nil_r. Qed.

Lemma append_ok w b seen pw c : writer_ok w b seen pw → digested c → writer_ok w b (seen ++ [c]) (appended pw c).
Proof.
  intros [Hl (l&Hs&Eb) Hp Hc] Hd. split; simpl.
  - done.
  - exists (l ++ [c]). split; [by apply sublist_app|]. by rewrite mjoin_snoc, Eb.
  - apply Forall_app. split.
    + eapply Forall_impl; [exact Hp|]. intros p (c0&pre&post&E&->&H0). exists c0, pre, (post ++ compress c). simpl.
      split_and!; [by rewrite E, <- !(assoc_L app)|done|done].
    + apply Forall_singleton. exists c, (buf pw), []. simpl. by rewrite app_nil_r.
  - apply Forall_app. split.
    + eapply Forall_impl; [exact Hc|]. intros c0 [?|H]; [by left|right]. simpl. rewrite fmap_app. apply elem_of_app. by left.
    + apply Forall_singleton. right. simpl. rewrite fmap_app. apply elem_of_app. right. by apply list_elem_of_singleton.
Qed.

Definition packs_digested (seen : list bytes) : Prop :=
  ∀ l, l `sublist_of` seen → digested (mjoin (compress <$> l)).

Lemma packs_prefix l1 l2 : packs_digested (l1 ++ l2) → packs_digested l1.
Proof. intros H l Hl. apply H. by apply sublist_inserts_r. Qed.

Lemma buf_digested w b seen pw : writer_ok w b seen pw → packs_digested seen → digested (buf pw).
Proof. intros [_ (l&Hs&->) _ _] H. by apply H. Qed.

Lemma writer_seen w b seen pw c : writer_ok w b seen pw → is_Some (locations pw !! chunkID c) → writer_ok w b (seen ++ [c]) pw.
Proof.
  intros [Hl (l&Hs&Eb) Hp Hc] Hi. split; [done| |done|].
  - exists l. split; [by apply sublist_inserts_r|done].
  - apply Forall_app. split; [done|]. apply Forall_singleton. by left.
Qed.

Lemma store_ok target f b w pw seen c ok w' pw' :
  writer_ok w b seen pw → digested c → packs_digested (seen ++ [c]) → StoreChunk target f b w pw c = (ok, w', pw') →
  pack_grows w w' b ∧ (ok = true → pw' = planChunk target pw c ∧ writer_ok w' b (seen ++ [c]) pw').
Proof.
  intros Hw Hc Hp. unfold StoreChunk, planChunk. destruct (locations pw !! chunkID c) as [l|] eqn:El.
  { intros [= <- <- <-]. split; [apply grows_refl|]. intros _. split; [done|]. apply writer_seen; eauto. }
  destruct (if _ && _ then flushLocked f b w pw else _) as [[ok1 w1] pw1] eqn:E1.
  assert (pack_grows w w1 b ∧ (ok1 = true → writer_ok w1 b seen pw1 ∧
    pw1 = if (0 <? blen (buf pw)) && (target <? blen (buf pw) + blen (compress c)) then flushed pw else pw)) as [Hg1 H1].
  { destruct (_ && _); [|injection E1 as <- <- <-; split; [apply grows_refl|done]].
    destruct (flush_ok _ _ _ _ _ _ _ _ Hw (buf_digested _ _ _ _ Hw (packs_prefix _ _ Hp)) E1) as [? H]. split; [done|].
    intros Hok. by destruct (H Hok) as (?&?&_). }
  destruct ok1; simpl; [|intros [= <- <- <-]; by split]. destruct (H1 eq_refl) as [Hw1 <-].
  pose proof (append_ok _ _ _ _ _ Hw1 Hc) as Hw2. fold (appended pw1 c).
  change (buf pw1 ++ compress c) with (buf (appended pw1 c)).
  destruct (target <=? blen (buf (appended pw1 c))).
  - intros E2. destruct (flush_ok _ _ _ _ _ _ _ _ Hw2 (buf_digested _ _ _ _ Hw2 Hp) E2) as [Hg2 H2].
    split; [by eapply grows_trans|]. intros Hok. by destruct (H2 Hok) as (?&?&_).
  - intros [= <- <- <-]. split; done.
Qed.

Lemma stream_ok target f b cs w pw seen ok w' pw' :
  writer_ok w b seen pw → Forall digested cs → packs_digested (seen ++ cs) → ChunkStream target f b w pw cs = (ok, w', pw') →
  pack_grows w w' b ∧ (ok = true → pw' = foldl (planChunk target) pw cs ∧ writer_ok w' b (seen ++ cs) pw').
Proof.
  intros Hw Hd. revert w pw seen Hw. induction Hd as [|c cs Hc Hd IH]; intros w pw seen Hw Hp; simpl.
  { intros [= <- <- <-]. rewrite app_nil_r. split; [apply grows_refl|done]. }
  rewrite cons_middle, (assoc_L app) in Hp |- *.
  destruct (StoreChunk target f b w pw c) as [[ok1 w1] pw1] eqn:E1.
  destruct (store_ok _ _ _ _ _ _ _ _ _ _ Hw Hc (packs_prefix _ _ Hp) E1) as [Hg1 H1].
  destruct ok1; [|intros [= <- <- <-]; by split]. destruct (H1 eq_refl) as [-> Hw1].
  intros E2. destruct (IH _ _ _ Hw1 Hp E2) as [Hg2 H2]. split; [by eapply grows_trans|done].
Qed.

(** ** Manifests round trip *)

Lemma addLocations_built w b locs ids acc rs :
  (∀ id l, locs !! id = Some l → holds w b id l) → (∀ id l, acc !! id = Some l → locs !! id = Some l) →
  buildChunks ids locs = Some rs →
  ∃ out, addLocations acc rs = Some out ∧ (∀ id l, out !! id = Some l → locs !! id = Some l) ∧
    (∀ id, is_Some (acc !! id) ∨ id ∈ ids → is_Some (out !! id)).
Proof.
  intros Hh. revert acc rs. induction ids as [|id ids IH]; intros acc rs Ha; simpl.
  { intros [= <-]. exists acc. split_and!; [done|done|]. intros id [?|?%elem_of_nil]; done. }
  destruct (locs !! id) as [l|] eqn:El; [|done]. simpl. destruct (buildChunks ids locs) as [rs'|]; [|done].
  intros [= <-]. destruct (Hh id l El) as (H1&H2&H3&H4&_). simpl. unfold addLocation. simpl. rewrite H1, H2. simpl.
  destruct (Z.ltb_spec (locOffset l) 0); [lia|]. destruct (Z.leb_spec (locLength l) 0); [lia|]. simpl.
  assert (mkLocation (locPack l) (locOffset l) (locLength l) = l) as -> by (by destruct l).
  assert (∃ out, addLocations (<[id:=l]> acc) rs' = Some out ∧ (∀ id0 l0, out !! id0 = Some l0 → locs !! id0 = Some l0) ∧
    (∀ id0, is_Some (acc !! id0) ∨ id0 ∈ id :: ids → is_Some (out !! id0))) as Hgo.
  { destruct (IH (<[id:=l]> acc) rs') as (out&E&O1&O2); [|done|].
    { intros id0 l0 [[<- <-]|[_ ?]]%lookup_insert_Some; auto. }
    exists out. split_and!; [done|done|]. intros id0 Hin0. apply O2. destruct (decide (id = id0)) as [<-|Hne].
    - left. rewrite lookup_insert_eq. eauto.
    - rewrite lookup_insert_ne by done. rewrite elem_of_cons in Hin0. destruct Hin0 as [?|[->|?]]; [by left|done|by right]. }
  destruct (acc !! id) as [old|] eqn:Eo; [|exact Hgo]. apply Ha in Eo as Eo'. rewrite El in Eo'. injection Eo' as <-.
  by rewrite bool_decide_true.
Qed.

Lemma buildChunks_some locs ids : Forall (λ id, is_Some (locs !! id)) ids → is_Some (buildChunks ids locs).
Proof.
  induction 1 as [|id ids [l El] _ [rs E]]; simpl; [eauto|]. rewrite El. simpl. rewrite E. simpl. eauto.
Qed.

(** ** The laws *)

Definition ownsPack b k : Prop := below (bedPrefix b) k = true.

(** The manifest object named [id]. *)
Definition manifested w b (id : string) (data : bytes) : Prop :=
  objectID data = id ∧ digested data ∧ ∃ mm, w !! snapshotKey b id = Some (mkObject mm (BBytes data)).

(** The snapshot a head object describes. *)
Definition describes w b (o : object) g cs t : Prop :=
  generationOf o = Some g ∧
  ∃ h data m locs, objBody o = BHead h ∧ manifested w b (Snapshot h) data ∧ unmarshal data = Some m ∧
    manifestLocations m = Some locs ∧ (∀ id l, locs !! id = Some l → holds w b id l) ∧
    manifestIndex m = chunkID <$> cs ∧ Forall digested cs ∧ Forall (λ c, is_Some (locs !! chunkID c)) cs ∧
    untar (mjoin cs) = Some t.

Definition intact w b : Prop := ∀ o, w !! headKey b = Some o → ∃ g cs t, describes w b o g cs t.

Definition snapshot w b : option (Z * Tree) :=
  match w !! headKey b with
  | Some o => match Restore w b noFaults with Ok t => Some (default 0 (generationOf o), t) | Err _ => None end
  | None => None
  end.

Definition acceptsPack w b t g (roots : option (list string)) : Prop :=
  ∀ rs s prev known, newSnapshotFilter roots = Ok rs → catar (kept rs t) = Some s → loadPrevious noFaults w b = Ok (prev, known) →
    Forall digested (chunker s) ∧ packs_digested (chunker s) ∧
    ∀ m, buildPackManifest (chunkID <$> chunker s)
           (locations (flushed (foldl (planChunk packTargetBytes) (mkWriter [] [] known) (chunker s)))) = Some m →
      digested (marshal m).

Lemma direct_located w b locs cs :
  (∀ id l, locs !! id = Some l → holds w b id l) → Forall digested cs → Forall (λ c, is_Some (locs !! chunkID c)) cs →
  mapM (directChunk noFaults w b locs) (chunkID <$> cs) = Some cs.
Proof.
  intros Hh Hd Hl. apply mapM_fmap_Forall_Some. rewrite Forall_forall in *. intros c Hc. destruct (Hl c Hc) as [l El].
  destruct (holds_direct w b locs _ l El (Hh _ _ El)) as (c'&Hc'&E&->). f_equal. by apply chunkID_inj; auto.
Qed.

Lemma load_manifested f w b id data m :
  manifested w b id data → unmarshal data = Some m → getFails f (snapshotKey b id) = false → loadManifest f w b id = Ok m.
Proof.
  intros (<-&_&mm&E) Hu Hf. unfold loadManifest, Get. rewrite objectID_valid, Hf. simpl. rewrite E. simpl.
  by rewrite bool_decide_true, Hu.
Qed.

Lemma load_described f w b o h data :
  w !! headKey b = Some o → objBody o = BHead h → manifested w b (Snapshot h) data → getFails f (headKey b) = false →
  loadHead f w b = Ok h.
Proof.
  intros Eo Hh (Hid&_) Hf. unfold loadHead, Get. rewrite Hf, Eo, Hh. by rewrite <-Hid, objectID_valid.
Qed.

Lemma pack_describes_restore w b o g cs t :
  w !! headKey b = Some o → describes w b o g cs t → Restore w b noFaults = Ok t ∧ snapshot w b = Some (g, t).
Proof.
  intros Eo (Hg&h&data&m&locs&Hb&Hm&Hu&Hl&Hh&Hi&Hd&Hc&Ht). assert (Restore w b noFaults = Ok t) as Hr.
  { unfold Restore. rewrite (load_described _ _ _ o h data) by done. simpl.
    rewrite (load_manifested _ _ _ _ data m) by done. simpl. rewrite Hl, Hi.
    replace (forallb _ _) with true.
    - rewrite readChunks_direct; [rewrite direct_located by done; simpl; by rewrite Ht|].
      split_and!; [by intros ? ? ?%elem_of_nil|simpl; lia|constructor].
    - symmetry. apply forallb_forall. intros id (c&->&Hin)%list_elem_of_In%list_elem_of_fmap.
      rewrite Forall_forall in Hc. by apply bool_decide_eq_true, Hc. }
  split; [done|]. unfold snapshot. by rewrite Eo, Hr, Hg.
Qed.

(** Changes that keep the published snapshot. *)
Definition keeps w w' b : Prop :=
  w' !! headKey b = w !! headKey b ∧ (∀ id l, holds w b id l → holds w' b id l) ∧
  (∀ id data, manifested w b id data → manifested w' b id data).

Lemma keeps_trans w1 w2 w3 b : keeps w1 w2 b → keeps w2 w3 b → keeps w1 w3 b.
Proof. intros (H1&H2&H3) (H4&H5&H6). split_and!; [congruence|auto..]. Qed.

Lemma keeps_grows w w' b : pack_grows w w' b → keeps w w' b.
Proof.
  intros [Hk Hh]. split_and!; [by apply Hk|done|]. intros id data (?&?&mm&E). split_and!; [done..|]. exists mm. by rewrite Hk.
Qed.

Lemma describes_moves w w' b o g cs t :
  (∀ id l, holds w b id l → holds w' b id l) → (∀ id data, manifested w b id data → manifested w' b id data) →
  describes w b o g cs t → describes w' b o g cs t.
Proof. intros Hh Hm (?&h&data&m&locs&?&?&?&?&?&?). split; [done|]. exists h, data, m, locs. split_and!; naive_solver. Qed.

Lemma keeps_intact w w' b : intact w b → keeps w w' b → intact w' b ∧ snapshot w' b = snapshot w b.
Proof.
  intros Hi (Eh&Hh&Hm). split.
  - intros o Eo. rewrite Eh in Eo. destruct (Hi o Eo) as (g&cs&t&H). exists g, cs, t. by eapply describes_moves.
  - destruct (w !! headKey b) as [o|] eqn:Eo; [|unfold snapshot; by rewrite Eh, Eo].
    destruct (Hi o Eo) as (g&cs&t&H). destruct (pack_describes_restore w b o g cs t Eo H) as [_ ->].
    apply (describes_moves w w') in H; [|done..]. by destruct (pack_describes_restore w' b o g cs t Eh H) as [_ ->].
Qed.

Lemma keeps_manifest f w b data ok w' :
  digested data → Put f w (snapshotKey b (objectID data)) (mkObject None (BBytes data)) = (ok, w') →
  keeps w w' b ∧ (ok = true → manifested w' b (objectID data) data).
Proof.
  intros Hd E. split; [split_and!|].
  - by eapply Put_other.
  - intros id l. apply holds_local. intros k Hk Hh Hs. symmetry. eapply Put_other; [exact E|]. apply Hs.
  - intros id data' (Hid&Hd'&mm&E'). split_and!; [done..|].
    destruct (Put_cases _ _ _ _ _ _ E) as [[-> _]|[_ ->]]; [|by exists mm].
    destruct (decide (objectID data = id)) as [Ei|Hne].
    + rewrite <-Hid in Ei. apply objectID_inj in Ei as ->; [|done..]. exists None. by rewrite <-Hid, lookup_insert_eq.
    + exists mm. rewrite lookup_insert_ne; [done|]. intros E0%snapshotKey_inj. done.
  - intros ->. destruct (Put_cases _ _ _ _ _ _ E) as [[-> _]|[? _]]; [|done].
    split_and!; [done..|]. exists None. by rewrite lookup_insert_eq.
Qed.

Lemma pack_fenced_older w b g g0 t0 :
  intact w b → fenced w (headKey b) g = false → snapshot w b = Some (g0, t0) → g0 < g.
Proof.
  intros Hi Hf. unfold fenced in Hf. destruct (w !! headKey b) as [o|] eqn:Eo; [|unfold snapshot; by rewrite Eo].
  destruct (Hi o Eo) as (g1&cs&t&H). destruct (pack_describes_restore _ _ _ _ _ _ Eo H) as [_ ->]. destruct H as (Hg&_).
  simpl in Hf. rewrite Hg in Hf. intros [= <- _]. by apply Z.leb_gt in Hf.
Qed.

Lemma previous_ok f w b prev known :
  intact w b → loadPrevious f w b = Ok (prev, known) →
  loadPrevious noFaults w b = Ok (prev, known) ∧ writer_ok w b [] (mkWriter [] [] known) ∧
  (∀ id, prev = Some id → ∃ data, manifested w b id data).
Proof.
  intros Hi. unfold loadPrevious. destruct (w !! headKey b) as [o|] eqn:Eo.
  - destruct (Hi o Eo) as (g&cs&t&Hg&h&data&m&locs&Hb&Hm&Hu&Hl&Hh&_).
    destruct (getFails f (headKey b)) eqn:F1; [unfold loadHead, Get; by rewrite F1|].
    rewrite (load_described f _ _ o h data) by done. cbn [res_bind].
    destruct (getFails f (snapshotKey b (Snapshot h))) eqn:F2.
    { unfold loadManifest, Get. rewrite F2. by destruct (negb _). }
    rewrite (load_manifested f _ _ _ data m) by done. cbn [res_bind]. rewrite Hl. intros [= <- <-].
    rewrite (load_described noFaults _ _ o h data) by done. cbn [res_bind].
    rewrite (load_manifested noFaults _ _ _ data m) by done. cbn [res_bind]. rewrite Hl.
    split_and!; [done| |intros id [= <-]; eauto]. split; simpl; [done|exists []; split; [apply sublist_nil_l|done]|constructor|constructor].
  - intros [= <- <-]. split_and!; [done| |done]. split; simpl; [done|exists []; split; [apply sublist_nil_l|done]|constructor|constructor].
Qed.

(** Publishing a head over a stored manifest and stored packs. *)
Lemma head_published w b g cs t m (locs : gmap string packLocation) (size : Z) :
  0 <= g < 2 ^ 63 → (∀ id l, locs !! id = Some l → holds w b id l) → Forall (λ c, is_Some (locs !! chunkID c)) cs →
  buildPackManifest (chunkID <$> cs) locs = Some m → manifested w b (objectID (marshal m)) (marshal m) →
  Forall digested cs → untar (mjoin cs) = Some t →
  let w' := <[headKey b := withGeneration g (BHead (mkHead (objectID (marshal m)) g size))]> w in
  intact w' b ∧ snapshot w' b = Some (g, t).
Proof.
  intros Hg Hh Hc Hb Hm Hd Ht w1. unfold buildPackManifest in Hb.
  destruct (buildChunks _ locs) as [rs|] eqn:Er; [|done]. injection Hb as <-.
  destruct (addLocations_built w b locs (chunkID <$> cs) ∅ rs Hh) as (out&Eout&O1&O2); [by intros ? ?; rewrite lookup_empty|done|].
  set (o := withGeneration g _) in w1. assert (w1 !! headKey b = Some o) as Eo by apply lookup_insert_eq.
  assert (describes w1 b o g cs t) as Hdes.
  { split; [by apply generation_written|]. set (m := mkManifest (chunkID <$> cs) rs) in *.
    eexists _, (marshal m), m, out.
    split_and!; [done| |apply unmarshal_marshal|exact Eout| |done|done| |done].
    - destruct Hm as (?&?&mm&E). split_and!; [done..|]. exists mm. unfold w1. by rewrite lookup_insert_ne.
    - intros id l Hl. apply (holds_local w); [|auto]. intros k Hk Hkh _. unfold w1. by rewrite lookup_insert_ne.
    - rewrite Forall_forall in *. intros c Hin. apply O2. right. by apply list_elem_of_fmap_2. }
  split; [|by apply (pack_describes_restore _ _ _ _ _ _ Eo Hdes)]. intros o' Eo'. rewrite Eo in Eo'. injection Eo' as <-. eauto.
Qed.

(** From a stored snapshot of the chunks to the commit: the manifest, then the
    head. *)
Lemma commit_law f w b g cs t (locs : gmap string packLocation) m prev (size : Z) ok1 w1 ok2 w2 :
  intact w b → 0 <= g < 2 ^ 63 → (∀ id l, locs !! id = Some l → holds w b id l) →
  Forall (λ c, is_Some (locs !! chunkID c)) cs → buildPackManifest (chunkID <$> cs) locs = Some m →
  digested (marshal m) → (∀ id, prev = Some id → ∃ data, manifested w b id data) →
  Forall digested cs → untar (mjoin cs) = Some t →
  (if bool_decide (prev = Some (objectID (marshal m))) then (true, w)
   else Put f w (snapshotKey b (objectID (marshal m))) (mkObject None (BBytes (marshal m)))) = (ok1, w1) →
  (if ok1 then Put f w1 (headKey b) (withGeneration g (BHead (mkHead (objectID (marshal m)) g size)))
   else (false, w1)) = (ok2, w2) →
  intact w2 b ∧ (snapshot w2 b = Some (g, t) ∨ (ok2 = false ∧ snapshot w2 b = snapshot w b)).
Proof.
  intros Hi Hg Hh Hc Hb Hdm Hp Hd Ht E1 E2.
  assert (keeps w w1 b ∧ (ok1 = true → manifested w1 b (objectID (marshal m)) (marshal m))) as [Hk1 Hm1].
  { case_bool_decide as Hpv; [|by eapply keeps_manifest]. injection E1 as <- <-. split; [done|]. intros _.
    destruct (Hp _ Hpv) as (data&Hid&Hdd&mm&E). apply objectID_inj in Hid as ->; [|done..]. split_and!; eauto. }
  destruct (keeps_intact w w1 b Hi Hk1) as [Hi1 Hs1]. pose proof Hk1 as (_&Hh1&_).
  destruct ok1; [|injection E2 as <- <-; auto]. specialize (Hm1 eq_refl).
  destruct (Put_cases _ _ _ _ _ _ E2) as [[-> _]|[-> ->]]; [|auto].
  destruct (head_published w1 b g cs t m locs size) as [? ?]; auto.
Qed.

Lemma pack_persist_law w b t g roots f r w' :
  intact w b → 0 <= g < 2 ^ 63 → walked t → acceptsPack w b t g roots → Persist w b t g roots f = (r, w') →
  intact w' b ∧
  let published := (∃ rs, newSnapshotFilter roots = Ok rs ∧ snapshot w' b = Some (g, kept rs t)) ∧
    (∀ g0 t0, snapshot w b = Some (g0, t0) → g0 < g) in
  match r with Ok _ => published | Err e => snapshot w' b = snapshot w b ∨ (e = PutFailed ∧ published) end.
Proof.
  intros Hi Hg Hw Ha. unfold Persist. destruct (newSnapshotFilter roots) as [rs|e] eqn:Er; [|intros [= <- <-]; auto].
  destruct (headFails f); [intros [= <- <-]; auto|].
  destruct (fenced w (headKey b) g) eqn:Ef; [intros [= <- <-]; auto|].
  destruct (loadPrevious f w b) as [[prev known]|e] eqn:Epv; [|intros [= <- <-]; auto].
  destruct (previous_ok _ _ _ _ _ Hi Epv) as (Epv0&Hw0&Hprev).
  destruct (archiveFails f); [intros [= <- <-]; auto|].
  destruct (catar (kept rs t)) as [s|] eqn:Ecat; [|intros [= <- <-]; auto].
  destruct (Ha rs s prev known Er Ecat Epv0) as (Hdig&Hpk&Hman).
  assert (untar (mjoin (chunker s)) = Some (kept rs t)) as Hun.
  { rewrite chunker_concat. apply untar_catar; [by apply kept_walked|done]. }
  destruct (ChunkStream packTargetBytes f b w _ (chunker s)) as [[ok1 w1] pw1] eqn:E1.
  destruct (stream_ok _ _ _ _ _ _ _ _ _ _ Hw0 Hdig Hpk E1) as [Hg1 H1]. simpl in H1.
  destruct (keeps_intact _ _ _ Hi (keeps_grows _ _ _ Hg1)) as [Hi1 Hs1].
  destruct ok1; [|intros [= <- <-]; auto]. destruct (H1 eq_refl) as [Epw1 Hw1].
  destruct (flushLocked f b w1 pw1) as [[ok2 w2] pw2] eqn:E2.
  destruct (flush_ok _ _ _ _ _ _ _ _ Hw1 (buf_digested _ _ _ _ Hw1 Hpk) E2) as [Hg2 H2].
  destruct (keeps_intact _ _ _ Hi1 (keeps_grows _ _ _ Hg2)) as [Hi2 Hs2]. rewrite Hs1 in Hs2.
  destruct ok2; [|intros [= <- <-]; auto]. destruct (H2 eq_refl) as (Epw2&Hw2&Hcov&_).
  destruct (buildPackManifest _ (locations pw2)) as [m|] eqn:Em; [|intros [= <- <-]; auto].
  assert (digested (marshal m)) as Hdm by (apply Hman; rewrite <-Epw1, <-Epw2; exact Em).
  destruct (if bool_decide _ then _ else _) as [ok3 w3] eqn:E3. simpl.
  destruct (if ok3 then Put f w3 (headKey b) (withGeneration g (BHead (mkHead (objectID (marshal m)) g (blen s)))) else (false, w3))
    as [ok4 w4] eqn:E4.
  assert (intact w4 b ∧ (snapshot w4 b = Some (g, kept rs t) ∨ (ok4 = false ∧ snapshot w4 b = snapshot w2 b))) as [Hi4 Hc4].
  { eapply (commit_law f w2 b g (chunker s) (kept rs t) (locations pw2) m prev (blen s) ok3 w3); eauto using wo_located.
    intros id ->. destruct (Hprev id eq_refl) as (data&Hmd). exists data.
    apply (keeps_trans w w1 w2 b); auto using keeps_grows. }
  assert (∀ g0 t0, snapshot w b = Some (g0, t0) → g0 < g) as Hold by (intros ? ?; by apply pack_fenced_older).
  destruct ok3; simpl.
  - rewrite E4. intros [= <- <-]. split; [done|]. destruct Hc4 as [Hc4|[-> Hc4]].
    + destruct ok4; [|right; split; [done|]]; split; eauto.
    + left. by rewrite Hc4.
  - injection E4 as <- <-. intros [= <- <-]. split; [done|]. destruct Hc4 as [Hc4|[_ Hc4]]; [right|left].
    + split; [done|]. split; eauto.
    + by rewrite Hc4.
Qed.

Lemma owns_pack b k : ~ ownsPack b k → (∀ id, k ≠ packKey b id) ∧ (∀ id, k ≠ snapshotKey b id) ∧ k ≠ headKey b.
Proof.
  intros Hk. split_and!; intros; intros ->; apply Hk; apply below_spec; eexists; (split; [|reflexivity]); done.
Qed.

Lemma flush_frame f b w pw k : (∀ id, k ≠ packKey b id) → (flushLocked f b w pw).1.2 !! k = w !! k.
Proof.
  intros Hk. unfold flushLocked. destruct (buf pw); [done|]. destruct (Put f w _ _) as [[] w1] eqn:E; by eapply Put_other.
Qed.

Lemma store_frame target f b w pw c k : (∀ id, k ≠ packKey b id) → (StoreChunk target f b w pw c).1.2 !! k = w !! k.
Proof.
  intros Hk. unfold StoreChunk. destruct (locations pw !! chunkID c); [done|].
  destruct (if _ && _ then flushLocked f b w pw else _) as [[ok1 w1] pw1] eqn:E1.
  assert (w1 !! k = w !! k) as H1.
  { destruct (_ && _); [|by injection E1 as <- <- <-]. pose proof (flush_frame f b w pw k Hk) as H. by rewrite E1 in H. }
  destruct ok1; simpl; [|done]. destruct (target <=? _); [|done]. by rewrite flush_frame.
Qed.

Lemma stream_frame target f b w pw cs k : (∀ id, k ≠ packKey b id) → (ChunkStream target f b w pw cs).1.2 !! k = w !! k.
Proof.
  intros Hk. revert w pw. induction cs as [|c cs IH]; intros w pw; simpl; [done|].
  pose proof (store_frame target f b w pw c k Hk) as H. destruct (StoreChunk target f b w pw c) as [[[] w1] pw1]; simpl in *; [|done].
  by rewrite IH.
Qed.

Lemma pack_persist_frame w b t g roots f k : ~ ownsPack b k → (Persist w b t g roots f).2 !! k = w !! k.
Proof.
  intros (Hp&Hs&Hh)%owns_pack. unfold Persist. destruct (newSnapshotFilter roots) as [rs|]; [|done].
  destruct (headFails f); [done|]. destruct (fenced _ _ _); [done|]. destruct (loadPrevious f w b) as [[prev known]|]; [|done].
  destruct (if archiveFails f then _ else _) as [s|]; [|done].
  pose proof (stream_frame packTargetBytes f b w (mkWriter [] [] known) (chunker s) k Hp) as E1.
  destruct (ChunkStream _ _ _ _ _ _) as [[[] w1] pw1]; simpl in E1; [|done].
  pose proof (flush_frame f b w1 pw1 k Hp) as E2. destruct (flushLocked f b w1 pw1) as [[[] w2] pw2]; simpl in E2; [|by rewrite <-E1].
  rewrite E1 in E2. destruct (buildPackManifest _ _) as [m|]; [|done].
  destruct (if bool_decide _ then _ else _) as [ok3 w3] eqn:E3.
  assert (w3 !! k = w !! k) as H3.
  { case_bool_decide; [by injection E3 as <- <-|]. rewrite <-E2. eapply Put_other; [exact E3|]. apply Hs. }
  destruct ok3; simpl; [|done]. destruct (Put f w3 _ _) as [ok4 w4] eqn:E4. simpl. rewrite <-H3. by eapply Put_other.
Qed.

Lemma owned_keys b id : ownsPack b (headKey b) ∧ ownsPack b (snapshotKey b id) ∧ ownsPack b (packKey b id).
Proof. split_and!; apply below_spec; eexists; (split; [|reflexivity]); done. Qed.

Lemma pack_intact_local w w' b : (∀ k, ownsPack b k → w !! k = w' !! k) → intact w b → intact w' b.
Proof.
  intros Hk Hi o Eo. rewrite <-(Hk (headKey b)) in Eo by apply (owned_keys b ""). destruct (Hi o Eo) as (g&cs&t&H).
  exists g, cs, t. eapply describes_moves; [..|exact H].
  - intros id l (?&?&?&?&m&data&d&c&E&H5). split_and!; [done..|]. exists m, data, d, c. split; [|done].
    rewrite <-Hk; [done|]. apply owned_keys.
  - intros id data (?&?&mm&E). split_and!; [done..|]. exists mm. rewrite <-Hk; [done|]. apply owned_keys.
Qed.

Lemma pack_snapshot_local w w' b : (∀ k, ownsPack b k → w !! k = w' !! k) → snapshot w b = snapshot w' b.
Proof.
  intros Hk. destruct (owned_keys b "") as (Hh&_&_). unfold snapshot. rewrite (Hk _ Hh).
  assert (Restore w b noFaults = Restore w' b noFaults) as ->; [|done].
  unfold Restore, loadHead, Get. simpl. rewrite (Hk _ Hh). destruct (w' !! headKey b) as [o|]; [|done].
  destruct (objBody o); try done. destruct (validObjectID (Snapshot head)); [|done]. simpl.
  unfold loadManifest, Get. simpl. destruct (negb _); [done|].
  rewrite (Hk (snapshotKey b (Snapshot head))) by apply owned_keys. destruct (w' !! snapshotKey _ _) as [o'|]; [|done].
  destruct (objBody o'); try done. destruct (bool_decide _); [|done]. destruct (unmarshal data) as [m|]; [|done]. simpl.
  destruct (manifestLocations m) as [locs|]; [|done]. destruct (forallb _ _); [|done].
  assert (∀ w0, cache_ok noFaults w0 b []) as H0 by (intros w0; split_and!; [by intros ? ? ?%elem_of_nil|simpl; lia|constructor]).
  rewrite !readChunks_direct by auto.
  replace (mapM (directChunk noFaults w b locs) (manifestIndex m)) with (mapM (directChunk noFaults w' b locs) (manifestIndex m)); [done|].
  apply mapM_ext. intros id. unfold directChunk, directStorage, fetchPack, Get. simpl. destruct (locs !! id) as [l|]; [|done].
  simpl. rewrite Hk; [done|]. apply owned_keys.
Qed.

#[global, refine] Instance lawful : Lawful layout :=
  {| owns := ownsPack; view := snapshot; wf := intact; accepts := acceptsPack |}.
Proof.
  - intros w w' b Hk. split; [by apply pack_snapshot_local|by apply pack_intact_local].
  - intros w b Hk. assert (w !! headKey b = None) as E by apply Hk, (owned_keys b "").
    split; [intros o; by rewrite E|unfold snapshot; by rewrite E].
  - intros w b f Hi. simpl. unfold Stat, statKey. destruct (headFails f); [done|].
    destruct (w !! headKey b) as [o|] eqn:E; [|unfold snapshot; by rewrite E].
    destruct (Hi o E) as (g&cs&t&H). destruct (pack_describes_restore _ _ _ _ _ _ E H) as [_ ->]. destruct H as (Hg&_).
    simpl. by rewrite Hg.
  - intros w b Hi. simpl. destruct (w !! headKey b) as [o|] eqn:E.
    + destruct (Hi o E) as (g&cs&t&H). by destruct (pack_describes_restore _ _ _ _ _ _ E H) as [-> ->].
    + unfold snapshot, Restore, loadHead, Get. simpl. by rewrite E.
  - exact pack_persist_frame.
  - exact pack_persist_law.
  - intros w b f k Hk. simpl. unfold Delete. destruct (listFails f); [done|]. destruct (Remove f w _) eqn:E.
    eapply Remove_other; [exact E|]. by apply not_true_iff_false.
  - intros w b f w'. simpl. unfold Delete. destruct (listFails f); [done|]. destruct (Remove f w _) as [[] w1] eqn:E; [|done].
    intros [= <-]. apply Remove_ok in E. subst w1.
    assert (removeKeys w (below (bedPrefix b)) !! headKey b = None) as Hn.
    { rewrite removeKeys_lookup. destruct (owned_keys b "") as (Hh&_). unfold ownsPack in Hh. by rewrite Hh. }
    split; [intros o; by rewrite Hn|unfold snapshot; by rewrite Hn].
Defined.
End Pack.
End Pack.

(** C8: The reader's cache is transparent.  For every bucket, every failing
    request and every sequence of chunks, reading through the cache of two packs
    gives exactly what fetching and verifying the pack for each chunk gives, and
    every slice taken of a pack lies within it. *)
Theorem pack_cache_transparent `{Codec} f w b locs ids :
  Pack.readChunks f w b locs [] ids = mapM (Pack.directChunk f w b locs) ids ∧
  (∀ pack l d, Pack.slice pack l = Some d →
     0 <= Pack.locOffset l <= wrap64 (Pack.locOffset l + Pack.locLength l) ∧
     wrap64 (Pack.locOffset l + Pack.locLength l) <= Z.of_nat (length pack)).
Proof.
  split.
  - apply Pack.readChunks_direct. split_and!; [by intros ? ? ?%elem_of_nil|simpl; lia|constructor].
  - intros pack l d (H1&[H2 H3]&_)%Pack.slice_in_bounds. done.
Qed.
