(* ===== verification/ResticStore.v ===== *)
(** * ResticStore: snapshots in a restic repository per bed

    Models [internal/bed/store/sync/restic.go] and [restic_command.go], the copy of a
    directory tree into a private one ([copyTransferTree] of
    [bedfs/transfer_tree.go]) and [restic_transfer.go].  The program restic itself is not
    part of the repository: it is the class [ResticTool], and [ResticLaws] states what its
    manual promises (a command touches only its repository, a reported snapshot restores to
    what was backed up, later commands keep it).  What a restore leaves in the repository
    (a lock, when it is interrupted) is not modelled, nor are modes and times of files.
    JSON documents are kept decoded. *)

From S2P Require Import Prelude Netip Bed Volumes Objects TarStore.

Module Restic.

(** ** The program *)

Record resticSummary := mkSummary { MessageType : string; SnapshotID : string; Files : Z; summaryBytes : Z }.
Inductive resticCommand :=
| CatConfig | InitRepository | Backup (parent : option string) (dir : Tree) | RestoreTo (ref : string).
(** How a process ends: it could not be executed, or it exited with a code, having printed
    [size] bytes, the documents [stdout] (a document that does not decode is [None]), and
    having left [target] in the directory a restore writes. *)
Inductive processEnd :=
| NotExecuted
| ExitedWith (code : Z) (stdout : list (option resticSummary)) (size : Z) (target : Tree).

Class ResticTool := {
  versionOutput : faults → option string;
  cancelled : faults → resticCommand → bool;
  tool : faults → bucket → key → resticCommand → processEnd * bucket;
}.

Definition resticVersion : string := "0.19.1".
Definition resticOutputLimit : Z := 2 ^ 20.

(** [resticRefPattern]: 64 lower-case hexadecimal digits. *)
Definition refDigit (c : ascii) : bool :=
  let z := byte c in ((48 <=? z) && (z <=? 57)) || ((97 <=? z) && (z <=? 102)).
Definition resticRefPattern (s : string) : bool := bool_decide (length (to_list s) = 64%nat) && forallb refDigit (to_list s).

(** [strings.Fields] of ASCII text. *)
Definition isSpace (c : ascii) : bool := let z := byte c in (z =? 32) || ((9 <=? z) && (z <=? 13)).
Fixpoint fieldsFrom (word : list ascii) (l : list ascii) : list string :=
  let flush := match word with [] => [] | _ => [of_list (reverse word)] end in
  match l with
  | [] => flush
  | c :: l => if isSpace c then flush ++ fieldsFrom [] l else fieldsFrom (c :: word) l
  end.
Definition Fields (s : string) : list string := fieldsFrom [] (to_list s).

(** ** Copying a tree ([transfer_tree.go]) *)

Definition linkTarget (name link : string) : string := Tar.joinPath (Tar.dirOf name) link.
Definition confinedLink (name link : string) : bool :=
  negb (IsAbs link || bool_decide (linkTarget name link = ".."%string) || has_prefix (linkTarget name link) "../").
Definition parentThere (fs : Tree) (p : string) : bool :=
  match parentDir p with None => true | Some d => bool_decide (Tar.kindAt fs d = Some Directory) end.
(** Publication of one entry that was prepared under a temporary name: by link, which
    refuses an existing name, or by rename, which replaces anything but a directory. *)
Definition publishEntry (overwrite : bool) (fs : Tree) (e : Entry) : option Tree :=
  if negb (parentThere fs (entryPath e)) then None
  else match Tar.kindAt fs (entryPath e) with
       | None => Some (fs ++ [e])
       | Some Directory => None
       | Some _ => if overwrite then Some ((λ x, if bool_decide (entryPath x = entryPath e) then e else x) <$> fs) else None
       end.
Definition copyEntry (excluded : string → bool) (overwrite : bool) (fs : Tree) (e : Entry) : option Tree :=
  if excluded (entryPath e) then Some fs
  else match entryKind e with
       | Directory =>
           match Tar.kindAt fs (entryPath e) with
           | None => if parentThere fs (entryPath e) then Some (fs ++ [e]) else None
           | Some Directory => Some fs
           | Some _ => None
           end
       | Regular _ => publishEntry overwrite fs e
       | Symlink link => if confinedLink (entryPath e) link then publishEntry overwrite fs e else None
       | Special => None
       end.
Fixpoint copyTransferTree (excluded : string → bool) (overwrite : bool) (src dst : Tree) : option Tree :=
  match src with
  | [] => Some dst
  | e :: src => dst ← copyEntry excluded overwrite dst e; copyTransferTree excluded overwrite src dst
  end.
(** Into an empty staging directory. *)
Definition ExportTransferTree (excluded : string → bool) (t : Tree) : option Tree := copyTransferTree excluded false t [].
Definition ImportTransferTree (overwrite : bool) (t dst : Tree) : option Tree := copyTransferTree (λ _, false) overwrite t dst.

(** ** Running the program ([restic_command.go]) *)

Section Commands.
Context `{T : ResticTool}.

Inductive runError := Cancelled | CommandFailed (code : Z) | CannotExecute | OutputTruncated.

Definition Available (f : faults) : bool :=
  match versionOutput f with
  | None => false
  | Some output =>
      match Fields output with
      | name :: version :: _ => bool_decide (name = "restic"%string) && bool_decide (version = resticVersion)
      | _ => false
      end
  end.

Definition run (f : faults) (w : bucket) (repo : key) (c : resticCommand) : result runError (list (option resticSummary) * Tree) * bucket :=
  let '(e, w) := tool f w repo c in
  (if cancelled f c then Err Cancelled
   else match e with
        | NotExecuted => Err CannotExecute
        | ExitedWith code stdout size target =>
            if negb (code =? 0) then Err (CommandFailed code)
            else if resticOutputLimit <? size then Err OutputTruncated else Ok (stdout, target)
        end, w).

(** The configuration is read first; only exit code 10, no repository, creates one. *)
Definition ensureRepository (f : faults) (w : bucket) (repo : key) : bool * bucket :=
  let '(r, w) := run f w repo CatConfig in
  match r with
  | Ok _ => (true, w)
  | Err (CommandFailed 10) => let '(r, w) := run f w repo InitRepository in (is_ok r, w)
  | Err _ => (false, w)
  end.

(** The first summary with a well-formed reference. *)
Fixpoint findSummary (docs : list (option resticSummary)) : option resticSummary :=
  match docs with
  | [] | None :: _ => None
  | Some s :: docs =>
      if bool_decide (MessageType s = "summary"%string) && resticRefPattern (SnapshotID s) then Some s else findSummary docs
  end.

Definition upload (f : faults) (w : bucket) (repo : key) (dir : Tree) (parent : option string) : option resticSummary * bucket :=
  let '(ok, w) := ensureRepository f w repo in
  if negb ok then (None, w)
  else let '(r, w) := run f w repo (Backup parent dir) in
       (match r with Ok (stdout, _) => findSummary stdout | Err _ => None end, w).

Definition download (f : faults) (w : bucket) (repo : key) (ref : string) : option Tree :=
  match (run f w repo (RestoreTo ref)).1 with Ok (_, target) => Some target | Err _ => None end.

(** ** The layout ([restic.go]) *)

Definition bedPrefix (b : string) : key := ["restic"; b]%string.
Definition headKey (b : string) : key := ["restic"; b; "head.json"]%string.
Definition repository (b : string) : key := ["restic"; b; "repository"]%string.

Definition Stat (w : bucket) (b : string) (f : faults) : result store_err (option Z) :=
  if headFails f then Err StatFailed
  else match w !! headKey b with
       | None => Ok None
       | Some o => match generationOf o with Some g => Ok (Some g) | None => Err StatFailed end
       end.

Definition readHead (w : bucket) (b : string) (f : faults) : result store_err resticHead :=
  match Get f w (headKey b) with
  | None => Err NotFound
  | Some o => match objBody o with
      | BRestic h => if resticRefPattern (Ref h) then Ok h else Err BadManifest
      | _ => Err BadManifest
      end
  end.

Definition Persist (w : bucket) (b : string) (t : Tree) (g : Z) (roots : option (list string)) (f : faults)
  : result store_err unit * bucket :=
  match newSnapshotFilter roots with
  | Err e => (Err e, w)
  | Ok r =>
      if negb (Available f) then (Err ToolFailed, w)
      else match Stat w b f with
      | Err e => (Err e, w)
      | Ok info =>
          if match info with Some g0 => g <=? g0 | None => false end then (Err Conflict, w)
          else match (match info with Some _ => head <-! readHead w b f; Ok (Ref head) | None => Ok ""%string end) with
          | Err e => (Err e, w)
          | Ok parent =>
              if archiveFails f then (Err ArchiveFailed, w)
              else match ExportTransferTree (excluded r) t with
              | None => (Err ArchiveFailed, w)
              | Some staging =>
                  match upload f w (repository b) staging (if bool_decide (parent = ""%string) then None else Some parent) with
                  | (None, w) => (Err ToolFailed, w)
                  | (Some summary, w) =>
                      let head := mkResticHead (SnapshotID summary) g (summaryBytes summary) in
                      let '(ok, w) := Put f w (headKey b) (withGeneration g (BRestic head)) in
                      (if ok then Ok tt else Err PutFailed, w)
                  end
              end
          end
      end
  end.

Definition Restore (w : bucket) (b : string) (f : faults) : result store_err Tree :=
  if negb (Available f) then Err ToolFailed
  else match readHead w b f with
       | Err e => Err e
       | Ok head => match download f w (repository b) (Ref head) with Some t => Ok t | None => Err RestoreFailed end
       end.

Definition Delete (w : bucket) (b : string) (f : faults) : result store_err unit * bucket :=
  if listFails f then (Err DeleteFailed, w)
  else let '(ok, w) := Remove f w (below (bedPrefix b)) in (if ok then Ok tt else Err DeleteFailed, w).

Definition layout : Layout := mkLayout Stat Persist Restore Delete.

(** ** Explicit transfers ([restic_transfer.go]) *)

Definition transferToStore (f : faults) (w : bucket) (repo : key) (t : Tree) (parent : option string) : option resticSummary * bucket :=
  match ExportTransferTree (λ _, false) t with
  | None => (None, w)
  | Some staging => upload f w repo staging parent
  end.
Definition transferToBed (f : faults) (w : bucket) (repo : key) (ref : string) (overwrite : bool) (dst : Tree) : option Tree :=
  staging ← download f w repo ref; ImportTransferTree overwrite staging dst.

(** ** What restic promises *)

(** [content w repo ref] is the tree a complete snapshot of the repository stands for. *)
Class ResticLaws := {
  content : bucket → key → string → option Tree;
  content_local : ∀ w w' repo ref, (∀ k, below repo k = true → w !! k = w' !! k) → content w repo ref = content w' repo ref;
  tool_frame : ∀ f w repo c k, below repo k = false → (tool f w repo c).2 !! k = w !! k;
  tool_keeps : ∀ f w repo c ref t, content w repo ref = Some t → content (tool f w repo c).2 repo ref = Some t;
  tool_backup : ∀ f w repo parent t docs size target w' s, walked t →
    tool f w repo (Backup parent t) = (ExitedWith 0 docs size target, w') → Some s ∈ docs → MessageType s = "summary"%string →
    content w' repo (SnapshotID s) = Some t;
  tool_restore : ∀ w repo ref t, content w repo ref = Some t →
    ∃ docs size w', tool noFaults w repo (RestoreTo ref) = (ExitedWith 0 docs size t, w') ∧ size <= resticOutputLimit;
  tool_installed : Available noFaults = true;
  tool_uncancelled : ∀ c, cancelled noFaults c = false;
}.
End Commands.

(** ** Copies of walked trees *)

Lemma parent_there prev e : Tar.grounded prev → walk_entry prev e → parentThere prev (entryPath e) = true.
Proof.
  intros [Hnd _] (_&_&Hd). unfold parentThere. destruct (parentDir (entryPath e)) as [d|]; [|done].
  apply bool_decide_eq_true. exact (Tar.kindAt_in prev _ Hnd (Hd d eq_refl)).
Qed.

Lemma copy_entry ex overwrite prev e fs :
  Tar.grounded prev → walk_entry prev e → copyEntry ex overwrite prev e = Some fs →
  fs = if ex (entryPath e) then prev else prev ++ [e].
Proof.
  intros Hg He. unfold copyEntry, publishEntry. rewrite (parent_there prev e Hg He), (Tar.kindAt_out prev) by (by destruct He as (_&?&_)).
  simpl. destruct (ex (entryPath e)); [by intros [= <-]|]. destruct (entryKind e); try (by intros [= <-]).
  destruct (confinedLink _ _); [by intros [= <-]|done].
Qed.

(** What is copied into a fresh directory is what the filter keeps. *)
Lemma copy_walked roots overwrite t dst prev :
  walkedFrom prev t → Forall (λ e, Forall normal (split (entryPath e))) prev → Tar.grounded (kept roots prev) →
  copyTransferTree (excluded roots) overwrite t (kept roots prev) = Some dst → dst = kept roots (prev ++ t).
Proof.
  revert prev. induction t as [|e t IH]; intros prev; simpl; [intros _ _ _ [= <-]; by rewrite app_nil_r|].
  intros [He Ht] Hp Hg. destruct (copyEntry _ _ _ e) as [fs|] eqn:Ec; [|done]. simpl. intros Hc.
  assert (Hsnoc : kept roots (prev ++ [e]) = if excluded roots (entryPath e) then kept roots prev else kept roots prev ++ [e]).
  { unfold kept. rewrite filter_app. destruct (excluded roots (entryPath e)) eqn:E.
    - rewrite (filter_cons_False _ e), filter_nil, app_nil_r; [done|congruence].
    - by rewrite (filter_cons_True _ e), filter_nil. }
  assert (Hone : excluded roots (entryPath e) = false → walk_entry (kept roots prev) e).
  { intros E. pose proof (walked_filter roots prev [e]) as Hw. unfold kept in Hw. rewrite (filter_cons_True _ e) in Hw by done. by apply Hw. }
  assert (Hfs : fs = kept roots (prev ++ [e])).
  { rewrite Hsnoc. destruct (excluded roots (entryPath e)) eqn:E; [unfold copyEntry in Ec; rewrite E in Ec; congruence|].
    pose proof (copy_entry _ _ _ _ _ Hg (Hone eq_refl) Ec) as Hx. by rewrite E in Hx. }
  rewrite Hfs in Hc. apply (IH (prev ++ [e]) Ht) in Hc; [by rewrite <-(assoc_L app) in Hc|..].
  - apply Forall_app. split; [done|]. apply Forall_singleton, He.
  - rewrite Hsnoc. destruct (excluded roots (entryPath e)) eqn:E; [done|]. by apply Tar.grounded_snoc; [|apply Hone].
Qed.
Lemma export_kept roots t staging : walked t → ExportTransferTree (excluded roots) t = Some staging → staging = kept roots t.
Proof. intros Hw Hc. apply (copy_walked roots false t staging []); [done|done| |done]. split; [constructor|]. by intros ? ? ? ?%elem_of_nil. Qed.

(** ** The laws of a layout *)

Section Laws.
Context `{T : ResticTool} `{HT : !ResticLaws}.
Implicit Types (w : bucket) (b : string) (f : faults).

Definition ownsRestic (b : string) (k : key) : Prop := below (bedPrefix b) k = true.
Definition snapshot (w : bucket) (b : string) : option (Z * Tree) :=
  o ← w !! headKey b; g ← generationOf o;
  match objBody o with BRestic h => (λ t, (g, t)) <$> content w (repository b) (Ref h) | _ => None end.
(** The head carries a readable generation and names a complete snapshot. *)
Definition intact (w : bucket) (b : string) : Prop :=
  ∀ o, w !! headKey b = Some o → ∃ g h t,
    generationOf o = Some g ∧ objBody o = BRestic h ∧ resticRefPattern (Ref h) = true ∧ content w (repository b) (Ref h) = Some t.

Lemma head_owned b : ownsRestic b (headKey b).
Proof. apply below_spec. by exists ["head.json"%string]. Qed.
Lemma repository_owned b k : below (repository b) k = true → ownsRestic b k ∧ k ≠ headKey b.
Proof.
  intros (r&Hr&->)%below_spec. split; [apply below_spec; by exists ("repository"%string :: r)|]. done.
Qed.
Lemma head_outside b : below (repository b) (headKey b) = false.
Proof. apply not_true_iff_false. intros H. by apply repository_owned in H as [_ ?]. Qed.

Lemma restic_local w w' b : (∀ k, ownsRestic b k → w !! k = w' !! k) → snapshot w b = snapshot w' b ∧ (intact w b → intact w' b).
Proof.
  intros Hk. assert (∀ ref, content w (repository b) ref = content w' (repository b) ref) as Hc
    by (intros ref; apply content_local; intros k H; apply Hk; by apply repository_owned in H as [? _]).
  pose proof (Hk _ (head_owned b)) as Hh. split; unfold snapshot, intact.
  - rewrite Hh. destruct (w' !! headKey b) as [o|]; [|done]. simpl. destruct (generationOf o); [|done]. simpl. destruct (objBody o); [done..| |done]. by rewrite Hc.
  - rewrite <- Hh. intros H o Ho. destruct (H o Ho) as (g&h&t&?&?&?&?). exists g, h, t. by rewrite <- Hc.
Qed.

(** A command keeps everything outside its repository and every complete snapshot. *)
Definition keeps w w' (repo : key) : Prop :=
  (∀ k, below repo k = false → w' !! k = w !! k) ∧
  ∀ ref t, content w repo ref = Some t → content w' repo ref = Some t.
Lemma repo_keeps_trans w1 w2 w3 repo : keeps w1 w2 repo → keeps w2 w3 repo → keeps w1 w3 repo.
Proof. intros [H1 H2] [H3 H4]. split; [|auto]. intros k Hk. rewrite H3 by done. auto. Qed.
Lemma run_keeps f w repo c r w' : run f w repo c = (r, w') → keeps w w' repo.
Proof.
  unfold run. destruct (tool f w repo c) as [e w1] eqn:E. intros [= _ <-]. split.
  - intros k Hk. pose proof (tool_frame f w repo c k Hk) as H. by rewrite E in H.
  - intros ref t Hc. pose proof (tool_keeps f w repo c ref t Hc) as H. by rewrite E in H.
Qed.
Lemma ensure_keeps f w repo ok w' : ensureRepository f w repo = (ok, w') → keeps w w' repo.
Proof.
  unfold ensureRepository. destruct (run f w repo CatConfig) as [r w1] eqn:E1. pose proof (run_keeps _ _ _ _ _ _ E1) as K1.
  destruct (run f w1 repo InitRepository) as [r2 w2] eqn:E2. pose proof (run_keeps _ _ _ _ _ _ E2) as K2.
  assert (keeps w w2 repo) by (by eapply repo_keeps_trans).
  intros H'. destruct r as [|[]]; try (by injection H' as _ <-).
  repeat match type of H' with context [match ?z with _ => _ end] => is_var z; destruct z end; by injection H' as _ <-.
Qed.
Lemma findSummary_spec docs s : findSummary docs = Some s → Some s ∈ docs ∧ MessageType s = "summary"%string ∧ resticRefPattern (SnapshotID s) = true.
Proof.
  induction docs as [|[d|] docs IH]; simpl; [done| |done]. destruct (_ && _) eqn:E.
  - intros [= ->]. apply andb_true_iff in E as [->%bool_decide_eq_true E]. split; [by left|done].
  - intros H. destruct (IH H) as (?&?&?). split; [by right|done].
Qed.
(** A reported upload is a complete snapshot of the directory. *)
Lemma upload_spec f w repo dir parent o w' : walked dir → upload f w repo dir parent = (o, w') →
  keeps w w' repo ∧ ∀ s, o = Some s → resticRefPattern (SnapshotID s) = true ∧ content w' repo (SnapshotID s) = Some dir.
Proof.
  intros Hd. unfold upload. destruct (ensureRepository f w repo) as [ok w1] eqn:E1. pose proof (ensure_keeps _ _ _ _ _ E1) as K1.
  destruct ok; simpl; [|by intros [= <- <-]]. destruct (run f w1 repo (Backup parent dir)) as [r w2] eqn:E2. pose proof (run_keeps _ _ _ _ _ _ E2) as K2.
  intros [= <- <-]. split; [by eapply repo_keeps_trans|]. intros s Hs. destruct r as [[docs target]|]; [|done].
  apply findSummary_spec in Hs as (Hin&Hm&Hp). split; [done|]. unfold run in E2. destruct (tool f w1 repo _) as [e w3] eqn:E3.
  injection E2 as E2 <-. destruct (cancelled f _); [done|]. destruct e as [|code docs' size target']; [done|].
  destruct (Z.eqb_spec code 0) as [->|]; [|done]. simpl in E2. destruct (_ <? size); [done|]. injection E2 as -> ->. by eapply tool_backup.
Qed.
Lemma repo_keeps_intact w w' b : keeps w w' (repository b) → intact w b → intact w' b ∧ snapshot w' b = snapshot w b.
Proof.
  intros [H1 H2] Hi. pose proof (H1 _ (head_outside b)) as Hh. split.
  - intros o Ho. rewrite Hh in Ho. destruct (Hi o Ho) as (g&h&t&?&?&?&?). exists g, h, t. auto.
  - unfold snapshot. rewrite Hh. destruct (w !! headKey b) as [o|] eqn:Ho; [|done]. destruct (Hi o Ho) as (g&h&t&Hg&Hb&_&Hc).
    simpl. rewrite Hg. simpl. by rewrite Hb, Hc, (H2 _ _ Hc).
Qed.
Lemma head_written w b g h t : 0 <= g < 2 ^ 63 → resticRefPattern (Ref h) = true → content w (repository b) (Ref h) = Some t →
  let w' := <[headKey b := withGeneration g (BRestic h)]> w in intact w' b ∧ snapshot w' b = Some (g, t).
Proof.
  intros Hg Hp Hc w'. assert (content w' (repository b) (Ref h) = Some t) as Hc'.
  { rewrite <- Hc. apply content_local. intros k [_ Hk]%repository_owned. unfold w'. by rewrite lookup_insert_ne. }
  split.
  - intros o. unfold w'. rewrite lookup_insert_eq. intros [= <-]. exists g, h, t. by rewrite generation_written.
  - unfold snapshot, w'. rewrite lookup_insert_eq. simpl. rewrite generation_written by done. simpl. fold w'. by rewrite Hc'.
Qed.
Lemma stat_spec w b f : intact w b → Stat w b f = if headFails f then Err StatFailed else Ok (fst <$> snapshot w b).
Proof.
  intros Hi. unfold Stat, snapshot. destruct (headFails f); [done|]. destruct (w !! headKey b) as [o|] eqn:Ho; [|done].
  destruct (Hi o Ho) as (g&h&t&Hg&Hb&_&Hc). simpl. rewrite Hg. simpl. by rewrite Hb, Hc.
Qed.

Lemma restic_persist_law w b t g roots f r w' :
  intact w b → 0 <= g < 2 ^ 63 → walked t → Persist w b t g roots f = (r, w') →
  intact w' b ∧
  let published := (∃ rs, newSnapshotFilter roots = Ok rs ∧ snapshot w' b = Some (g, kept rs t)) ∧
    (∀ g0 t0, snapshot w b = Some (g0, t0) → g0 < g) in
  match r with Ok _ => published | Err e => snapshot w' b = snapshot w b ∨ (e = PutFailed ∧ published) end.
Proof.
  intros Hi Hg Hw. unfold Persist. destruct (newSnapshotFilter roots) as [rs|e] eqn:Er; [|intros [= <- <-]; auto].
  destruct (Available f); simpl; [|intros [= <- <-]; auto]. rewrite stat_spec by done. destruct (headFails f); [intros [= <- <-]; auto|].
  destruct (match fst <$> snapshot w b with Some _ => _ | None => _ end) eqn:Ef; [intros [= <- <-]; auto|].
  assert (∀ g0 t0, snapshot w b = Some (g0, t0) → g0 < g) as Hold by (intros g0 t0 E; rewrite E in Ef; by apply Z.leb_gt in Ef).
  destruct (match fst <$> snapshot w b with Some _ => _ | None => Ok ""%string end) as [parent|e]; [|intros [= <- <-]; auto].
  destruct (archiveFails f); [intros [= <- <-]; auto|]. destruct (ExportTransferTree (excluded rs) t) as [staging|] eqn:Ee; [|intros [= <- <-]; auto].
  apply export_kept in Ee as ->; [|done]. destruct (upload f w (repository b) (kept rs t) _) as [o w1] eqn:Eu.
  destruct (upload_spec _ _ _ _ _ _ _ (kept_walked rs t Hw) Eu) as [Hk Hs]. destruct (repo_keeps_intact _ _ _ Hk Hi) as [Hi1 Hv1].
  destruct o as [s|]; [|intros [= <- <-]; auto]. destruct (Hs s eq_refl) as [Hp Hc]. set (h := mkResticHead (SnapshotID s) g (summaryBytes s)).
  destruct (head_written w1 b g h (kept rs t) Hg Hp Hc) as [Hi2 Hv2].
  destruct (Put f w1 (headKey b) _) as [ok w2] eqn:Ep. intros [= <- <-].
  destruct (Put_cases _ _ _ _ _ _ Ep) as [[-> Hok]|[-> ->]]; [|auto].
  split; [done|]. destruct ok; [|right; split; [done|]]; split; eauto.
Qed.
Lemma restic_persist_frame w b t g roots f k : ~ ownsRestic b k → (Persist w b t g roots f).2 !! k = w !! k.
Proof.
  intros Hk. unfold Persist. destruct (newSnapshotFilter roots); [|done]. destruct (negb _); [done|]. destruct (Stat w b f); [|done].
  destruct (match a0 with Some _ => _ | None => _ end); [done|]. destruct (match a0 with Some _ => _ | None => Ok ""%string end) as [parent|]; [|done].
  destruct (archiveFails f); [done|]. destruct (ExportTransferTree _ t) as [staging|]; [|done].
  destruct (upload f w (repository b) staging _) as [o w1] eqn:Eu.
  assert (w1 !! k = w !! k) as Hw1.
  { assert (below (repository b) k = false) as Hb by (apply not_true_iff_false; intros H; by apply repository_owned in H as [? _]).
    unfold upload in Eu. destruct (ensureRepository f w (repository b)) as [ok w2] eqn:E1. pose proof (proj1 (ensure_keeps _ _ _ _ _ E1) k Hb) as <-.
    destruct ok; simpl in Eu; [|by injection Eu as _ <-]. destruct (run f w2 (repository b) _) as [r w3] eqn:E2. injection Eu as _ <-. exact (proj1 (run_keeps _ _ _ _ _ _ E2) k Hb). }
  destruct o; [|done]. destruct (Put f w1 _ _) as [ok w2] eqn:Ep. simpl. rewrite <- Hw1. eapply Put_other; [done|]. intros ->. by apply Hk, head_owned.
Qed.

#[global, refine] Instance lawful : Lawful layout :=
  {| owns := ownsRestic; view := snapshot; wf := intact; accepts := λ _ _ _ _ _, True |}.
Proof.
  - exact restic_local.
  - intros w b Hk. assert (w !! headKey b = None) as E by (apply Hk, head_owned). split; [intros o; by rewrite E|unfold snapshot; by rewrite E].
  - intros w b f. apply stat_spec.
  - intros w b Hi. simpl. unfold Restore, readHead, Get, snapshot. rewrite tool_installed. simpl. destruct (w !! headKey b) as [o|] eqn:Ho; [|done].
    destruct (Hi o Ho) as (g&h&t&Hg&Hb&Hp&Hc). simpl. rewrite Hg. simpl. rewrite Hb, Hp, Hc. unfold download, run.
    destruct (tool_restore _ _ _ _ Hc) as (docs&size&w'&->&Hsz). rewrite tool_uncancelled. simpl. by rewrite (proj2 (Z.ltb_ge _ _) Hsz).
  - exact restic_persist_frame.
  - intros w b t g roots f r w' Hi Hg Hw _. by apply restic_persist_law.
  - intros w b f k Hk. simpl. unfold Delete. destruct (listFails f); [done|]. destruct (Remove f w _) eqn:E. eapply Remove_other; [done|]. by apply not_true_iff_false.
  - intros w b f w'. simpl. unfold Delete. destruct (listFails f); [done|]. destruct (Remove f w _) as [ok w1] eqn:E. destruct ok; [|done]. intros [= <-].
    apply Remove_ok in E as ->. assert (removeKeys w (below (bedPrefix b)) !! headKey b = None) as Hn by (rewrite removeKeys_lookup; by rewrite head_owned).
    split; [intros o; by rewrite Hn|unfold snapshot; by rewrite Hn].
Defined.

(** ** Explicit transfers come back *)

Lemma copy_fresh ex overwrite prev t dst : (∀ p, ex p = false) → Tar.grounded prev → walkedFrom prev t →
  copyTransferTree ex false t prev = Some dst → dst = prev ++ t ∧ copyTransferTree ex overwrite t prev = Some dst.
Proof.
  intros Hex. revert prev. induction t as [|e t IH]; intros prev Hg; simpl; [intros _ [= <-]; by rewrite app_nil_r|].
  intros [He Ht]. destruct (copyEntry ex false prev e) as [fs|] eqn:Ec; [|done]. simpl.
  assert (copyEntry ex overwrite prev e = Some fs) as ->.
  { rewrite <- Ec. unfold copyEntry, publishEntry. by rewrite (Tar.kindAt_out prev) by (by destruct He as (_&?&_)). }
  apply copy_entry in Ec; [|done..]. rewrite Hex in Ec. subst fs. simpl.
  intros Hc. apply IH in Hc; [by rewrite <-(assoc_L app) in Hc|by apply Tar.grounded_snoc|done].
Qed.
(** A directory that was transferred to the store is what a transfer of its reference
    into a new directory writes, whatever commands ran on the repository in between. *)
Lemma transfer_comes_back f w repo t parent s w1 w2 overwrite :
  walked t → transferToStore f w repo t parent = (Some s, w1) → keeps w1 w2 repo →
  transferToBed noFaults w2 repo (SnapshotID s) overwrite [] = Some t.
Proof.
  intros Hw. unfold transferToStore, transferToBed. destruct (ExportTransferTree (λ _, false) t) as [staging|] eqn:Ee; [|done].
  apply (copy_fresh _ overwrite) in Ee as [-> Hi]; [|done|split; [constructor|by intros ? ? ? ?%elem_of_nil]|done]. simpl in *.
  intros Hu [_ Hk]. apply upload_spec in Hu as [_ Hs]; [|done]. destruct (Hs s eq_refl) as [_ Hc%Hk].
  unfold download, run. destruct (tool_restore _ _ _ _ Hc) as (docs&size&w'&->&Hsz). rewrite tool_uncancelled. simpl. by rewrite (proj2 (Z.ltb_ge _ _) Hsz).
Qed.
End Laws.
End Restic.
