(* ===== verification/AutoStore.v ===== *)
(** * AutoStore: the router over the snapshot layouts

    Models [internal/bed/store/sync/auto.go]: reading the newest snapshot across
    all layouts, choosing the layout to write, purging all of them.  The router
    is verified against the contract of a layout; [layouts] instantiates it with
    the content-addressed, the pack, the tar and the restic layout of this
    repository; the encodings of desync and the program restic are parameters. *)

From S2P Require Import Prelude Netip Bed Volumes Objects TarStore CasStore PackStore ResticStore.

(** Number of files against the threshold of the CAS layout. *)
Definition exceedsSnapshotFileThreshold (roots : list string) (threshold : Z) (t : Tree) : bool :=
  (0 <? threshold) &&
  (threshold <? Z.of_nat (length (filter (λ e, isDirectory e = false) (kept roots t)))).

(** ** The router ([auto.go]) *)

Inductive storeLayout := layoutCAS | layoutPack | layoutTar | layoutRestic.
#[export] Instance storeLayout_eq_dec : EqDecision storeLayout.
Proof. solve_decision. Defined.

(** One arrived result of the concurrent [Stat] calls. *)
Notation inspected := (storeLayout * result store_err (option Z))%type.

Definition found (x : inspected) : option (storeLayout * Z) :=
  match x.2 with Ok (Some g) => Some (x.1, g) | _ => None end.

Definition pick (selected : option (storeLayout * Z)) (x : inspected) : option (storeLayout * Z) :=
  match found x with
  | None => selected
  | Some (l, g) => match selected with
      | Some (_, g0) => if g0 <? g then Some (l, g) else selected
      | None => Some (l, g) end
  end.

(** [inspect], given the results in their order of arrival. *)
Definition inspect (results : list inspected) : result store_err (option (storeLayout * Z)) :=
  if existsb (λ x, negb (is_ok x.2)) results then Err StatFailed
  else match foldl pick None results with
  | None => Ok None
  | Some (l, g) =>
      if existsb (λ x, match found x with Some (l', g') => negb (bool_decide (l' = l)) && (g' =? g) | None => false end) results
      then Err Ambiguous else Ok (Some (l, g))
  end.

(** The winner holds the greatest generation. *)
Lemma pick_max results sel :
  match foldl pick sel results with
  | None => sel = None ∧ ∀ x, x ∈ results → found x = None
  | Some (l, g) => (sel = Some (l, g) ∨ ∃ x, x ∈ results ∧ found x = Some (l, g)) ∧
      (∀ l0 g0, sel = Some (l0, g0) → g0 <= g) ∧
      (∀ x l' g', x ∈ results → found x = Some (l', g') → g' <= g)
  end.
Proof.
  revert sel. induction results as [|x results IH]; intros sel; simpl.
  - destruct sel as [[l g]|]; split_and!; try done; [by left|by intros ? ? [= _ <-]|by intros ? ? ? ?%elem_of_nil|by intros ? ?%elem_of_nil].
  - specialize (IH (pick sel x)). destruct (foldl pick (pick sel x) results) as [[l g]|].
    + destruct IH as (H1&H2&H3).
      assert (∀ l0 g0, sel = Some (l0, g0) → g0 <= g) as Hsel.
      { intros l0 g0 ->. unfold pick in H2. destruct (found x) as [[l' g']|]; [|by eapply H2].
        destruct (Z.ltb_spec g0 g'); [specialize (H2 _ _ eq_refl); lia|by eapply H2]. }
      assert (∀ l' g', found x = Some (l', g') → g' <= g) as Hx.
      { intros l' g' E. unfold pick in H2. rewrite E in H2. destruct sel as [[l0 g0]|]; [|by eapply H2].
        destruct (Z.ltb_spec g0 g'); [by eapply H2|]. specialize (H2 _ _ eq_refl). lia. }
      split_and!; [|done|].
      * destruct H1 as [H1|(y&Hy&E)]; [|right; exists y; split; [by right|done]].
        unfold pick in H1. destruct (found x) as [[l' g']|] eqn:E; [|by left].
        destruct sel as [[l0 g0]|]; [destruct (g0 <? g')|]; [right|by left|right]; exists x; (split; [left|congruence]).
      * intros y l' g' [->|Hy]%elem_of_cons E; [by eapply Hx|by eapply H3].
    + destruct IH as [H1 H2]. unfold pick in H1. destruct (found x) as [[l' g']|] eqn:E.
      * destruct sel as [[l0 g0]|]; [destruct (g0 <? g')|]; done.
      * split; [done|]. by intros y [->|Hy]%elem_of_cons; [|apply H2].
Qed.

(** The specification of a successful inspection. *)
Definition newest (results : list inspected) (l : storeLayout) (g : Z) : Prop :=
  (∃ x, x ∈ results ∧ found x = Some (l, g)) ∧
  ∀ x l' g', x ∈ results → found x = Some (l', g') → l' = l ∧ g' = g ∨ g' < g.

Definition answered (results : list inspected) : Prop := ∀ x, x ∈ results → is_ok x.2 = true.
Definition seen (results : list inspected) : Prop := ∃ x, x ∈ results ∧ is_Some (found x).

(** What each outcome of an inspection means. *)
Definition means (results : list inspected) (o : result store_err (option (storeLayout * Z))) : Prop :=
  match o with
  | Err StatFailed => ~ answered results
  | Err Ambiguous => answered results ∧ seen results ∧ ~ (∃ l g, newest results l g)
  | Err _ => False
  | Ok None => answered results ∧ ~ seen results
  | Ok (Some (l, g)) => answered results ∧ newest results l g
  end.

Lemma inspect_spec (results : list inspected) : means results (inspect results).
Proof.
  unfold inspect. destruct (existsb _ results) eqn:Ee.
  { apply existsb_exists in Ee as (x&Hx&E). intros Ha. rewrite (Ha x) in E; [done|by apply list_elem_of_In]. }
  assert (answered results) as Hok.
  { intros x Hx. destruct (is_ok x.2) eqn:E; [done|]. exfalso. rewrite <-not_true_iff_false, existsb_exists in Ee.
    apply Ee. exists x. split; [by apply list_elem_of_In|by rewrite E]. }
  clear Ee. pose proof (pick_max results None) as Hm. destruct (foldl pick None results) as [[l g]|].
  2:{ destruct Hm as [_ Hn]. split; [done|]. intros (x&Hx&[? E]). by rewrite (Hn x Hx) in E. }
  destruct Hm as ([?|(y&Hy&Ey)]&_&Hmax); [done|]. destruct (existsb _ results) eqn:Ea.
  - apply existsb_exists in Ea as (x&Hx&E). apply list_elem_of_In in Hx. destruct (found x) as [[l' g']|] eqn:Ex; [|done].
    apply andb_true_iff in E as [E1 E2]. apply negb_true_iff, bool_decide_eq_false in E1. apply Z.eqb_eq in E2 as ->.
    split_and!; [done|exists y; eauto|]. intros (l2&g2&(z&Hz&Ez)&Hall).
    destruct (Hall y l g Hy Ey) as [[-> ->]|?]; [|specialize (Hmax z l2 g2 Hz Ez); lia].
    destruct (Hall x l' g2 Hx Ex) as [[-> _]|?]; [done|lia].
  - split; [done|]. split; [by exists y|]. intros x l' g' Hx Ex. specialize (Hmax x l' g' Hx Ex).
    destruct (decide (g' = g)) as [->|]; [left|right; lia]. split; [|done].
    destruct (decide (l' = l)) as [|Hne]; [done|]. exfalso. rewrite <-not_true_iff_false, existsb_exists in Ea.
    apply Ea. exists x. split; [by apply list_elem_of_In|]. rewrite Ex, bool_decide_false by done. simpl. apply Z.eqb_refl.
Qed.

Lemma newest_unique results l g l' g' : newest results l g → newest results l' g' → l' = l ∧ g' = g.
Proof.
  intros [(x&Hx&Ex) H] [(y&Hy&Ey) H']. destruct (H y l' g' Hy Ey) as [?|Hlt]; [done|].
  destruct (H' x l g Hx Ex) as [[-> ->]|?]; [done|lia].
Qed.

Lemma newest_seen results l g : newest results l g → seen results.
Proof. intros [(x&Hx&E) _]. exists x. eauto. Qed.

Lemma means_unique results o o' : means results o → means results o' → o = o'.
Proof.
  destruct o as [[[l g]|]|[]], o' as [[[l' g']|]|[]]; simpl; try tauto.
  - intros [_ H1] [_ H2]. by destruct (newest_unique _ _ _ _ _ H1 H2) as [-> ->].
  - intros [_ H1%newest_seen] [_ H2]. done.
  - intros [_ H1] (_&_&H2). exfalso. eauto.
  - intros [_ H1] [_ H2%newest_seen]. done.
  - intros (_&_&H2) [_ H1]. exfalso. eauto.
Qed.

(** The order in which the layouts answer does not matter. *)
Lemma inspect_perm results results' : results ≡ₚ results' → inspect results = inspect results'.
Proof.
  intros Hp. apply (means_unique results'); [|apply inspect_spec].
  assert (∀ x, x ∈ results' ↔ x ∈ results) as Hin by (intros x; by rewrite Hp).
  assert (∀ l g, newest results' l g ↔ newest results l g) as Hnew by (intros l g; unfold newest; by setoid_rewrite Hin).
  assert (answered results' ↔ answered results) as Ha by (unfold answered; by setoid_rewrite Hin).
  assert (seen results' ↔ seen results) as Hs by (unfold seen; by setoid_rewrite Hin).
  pose proof (inspect_spec results) as H. unfold means in *.
  destruct (inspect results) as [[[l g]|]|[]]; rewrite ?Ha, ?Hs, ?Hnew; try done. by setoid_rewrite Hnew.
Qed.

Section Auto.
Context (store : storeLayout → Layout) `{HL : ∀ l, Lawful (store l)}.
Implicit Types (w : bucket) (b : string) (t : Tree) (k : key) (order : list storeLayout) (fs : storeLayout → faults) (g : Z).

Definition backends : list storeLayout := [layoutCAS; layoutPack; layoutTar; layoutRestic].

(** The answers to one inspection, in the order [order] in which they arrive. *)
Definition answers w b (fs : storeLayout → faults) (order : list storeLayout)
  : list inspected := (λ l, (l, lStat (store l) w b (fs l))) <$> order.

Definition AutoStat w b fs order : result store_err (option Z) :=
  selected <-! inspect (answers w b fs order); Ok (snd <$> selected).

Definition AutoRestore w b fs order (f : faults) : result store_err Tree :=
  selected <-! inspect (answers w b fs order);
  match selected with
  | None => Err NotFound
  | Some (l, _) => lRestore (store l) w b f
  end.

(** The layout [Persist] writes; [countFails] is an error while counting files. *)
Definition writeTarget (kind : SyncKind) (threshold : Z) (roots : list string) t
    (selected : option (storeLayout * Z)) (countFails : bool) : result store_err storeLayout :=
  let base := match selected with Some (l, _) => l | None => layoutPack end in
  base <-! (if bool_decide (kind = SyncAuto) && bool_decide (fst <$> selected = Some layoutCAS)
            then if countFails && (0 <? threshold) then Err CountFailed
                 else Ok (if exceedsSnapshotFileThreshold roots threshold t then layoutPack else base)
            else Ok base);
  Ok match kind with
     | SyncCAS => layoutCAS | SyncPack => layoutPack | SyncRestic => layoutRestic | SyncTar => layoutTar
     | _ => base
     end.

Definition AutoPersist (kind : SyncKind) (threshold : Z) w b t (g : Z)
    (roots : option (list string)) fs order (countFails : bool) (f : faults) : result store_err unit * bucket :=
  match newSnapshotFilter roots with
  | Err e => (Err e, w)
  | Ok r =>
      match inspect (answers w b fs order) with
      | Err e => (Err e, w)
      | Ok selected =>
          if match selected with Some (_, g0) => g <=? g0 | None => false end then (Err Conflict, w)
          else match writeTarget kind threshold r t selected countFails with
          | Err e => (Err e, w)
          | Ok l => lPersist (store l) w b t g roots f
          end
      end
  end.

Fixpoint deleteAll (ls : list storeLayout) w b (fs : storeLayout → faults) : bool * bucket :=
  match ls with
  | [] => (true, w)
  | l :: ls =>
      let '(r, w) := lDelete (store l) w b (fs l) in
      let '(ok, w) := deleteAll ls w b fs in (is_ok r && ok, w)
  end.
Definition AutoDelete w b fs : result store_err unit * bucket :=
  let '(ok, w) := deleteAll backends w b fs in (if ok then Ok tt else Err DeleteFailed, w).

(** ** Reading *)

Definition none : storeLayout → faults := λ _, noFaults.
Definition healthy w b : Prop := ∀ l, wf (L:=store l) w b.

(** No other bed's snapshot, in whatever layout, shares a key with those of [b],
    and the layouts of [b] share none. *)
Definition separate b : Prop :=
  ∀ l l' b' k, owns (L:=store l) b k → owns (L:=store l') b' k → l = l' ∧ b = b'.

Lemma answers_found w b order x l g :
  healthy w b → order ≡ₚ backends → x ∈ answers w b none order → found x = Some (l, g) →
  ∃ t, view (L:=store l) w b = Some (g, t).
Proof.
  intros Hh Ho (l0&->&_)%list_elem_of_fmap. unfold found. simpl. rewrite law_stat by apply Hh. simpl.
  destruct (view w b) as [[g0 t0]|] eqn:E; [|done]. intros [= <- <-]. eauto.
Qed.

Lemma answers_view w b order l g t fs :
  healthy w b → order ≡ₚ backends → headFails (fs l) = false → view (L:=store l) w b = Some (g, t) →
  ∃ x, x ∈ answers w b fs order ∧ found x = Some (l, g).
Proof.
  intros Hh Ho Hf Hv. exists (l, lStat (store l) w b (fs l)). split.
  - apply list_elem_of_fmap. exists l. split; [done|]. rewrite Ho. destruct l; set_solver.
  - unfold found. simpl. by rewrite law_stat, Hf, Hv by apply Hh.
Qed.

(** A successful inspection saw every layout. *)
Lemma inspect_all w b fs order selected :
  healthy w b → order ≡ₚ backends → inspect (answers w b fs order) = Ok selected →
  ∀ l g t, view (L:=store l) w b = Some (g, t) →
    ∃ l0 g0, selected = Some (l0, g0) ∧ (l = l0 ∧ g = g0 ∨ g < g0).
Proof.
  intros Hh Ho Hi. pose proof (inspect_spec (answers w b fs order)) as Hm. rewrite Hi in Hm.
  assert (answered (answers w b fs order)) as Ha by (destruct selected as [[? ?]|]; apply Hm).
  assert (∀ l, headFails (fs l) = false) as Hf.
  { intros l. destruct (headFails (fs l)) eqn:E; [|done].
    specialize (Ha (l, lStat (store l) w b (fs l))). rewrite law_stat, E in Ha by apply Hh. simpl in Ha. exfalso.
    enough (false = true) by done. apply Ha. apply list_elem_of_fmap. exists l. rewrite law_stat, E by apply Hh. split; [done|].
    rewrite Ho. destruct l; set_solver. }
  intros l g t Hv. destruct (answers_view w b order l g t fs Hh Ho (Hf l) Hv) as (x&Hx&Ex).
  destruct selected as [[l0 g0]|].
  - destruct Hm as [_ [_ Hall]]. exists l0, g0. split; [done|]. destruct (Hall x l g Hx Ex) as [[? ?]|?]; auto.
  - destruct Hm as [_ Hn]. exfalso. apply Hn. exists x. eauto.
Qed.

(** A snapshot newer than every other one is what a reader gets. *)
Lemma newest_wins w b order l g t :
  healthy w b → order ≡ₚ backends → view (L:=store l) w b = Some (g, t) →
  (∀ l' g' t', l' ≠ l → view (L:=store l') w b = Some (g', t') → g' < g) →
  AutoStat w b none order = Ok (Some g) ∧ AutoRestore w b none order noFaults = Ok t.
Proof.
  intros Hh Ho Hv Hlt. assert (inspect (answers w b none order) = Ok (Some (l, g))) as E.
  { apply (means_unique (answers w b none order)); [apply inspect_spec|]. split.
    - intros x (l0&->&_)%list_elem_of_fmap. simpl. by rewrite law_stat by apply Hh.
    - split; [by eapply answers_view|]. intros x l' g' Hx Ex. destruct (answers_found _ _ _ _ _ _ Hh Ho Hx Ex) as [t' Hv'].
      destruct (decide (l' = l)) as [->|Hne]; [left; split; congruence|right; by eapply Hlt]. }
  unfold AutoStat, AutoRestore. rewrite E. simpl. by rewrite law_restore, Hv by apply Hh.
Qed.

(** ** Writing *)

(** A layout's write is invisible to every other layout and bed. *)
Lemma persist_elsewhere l w b t g roots f l' b' :
  separate b → (l', b') ≠ (l, b) →
  let w' := (lPersist (store l) w b t g roots f).2 in
  view (L:=store l') w' b' = view (L:=store l') w b' ∧ (wf (L:=store l') w b' → wf (L:=store l') w' b').
Proof.
  intros Hs Hne w'. assert (∀ k, owns (L:=store l') b' k → w !! k = w' !! k) as Hk.
  { intros k Ho. symmetry. apply law_persist_frame. intros Ho'. destruct (Hs l l' b' k Ho' Ho) as [-> ->]. done. }
  destruct (law_local w w' b' Hk). auto.
Qed.

Lemma delete_elsewhere l w b f l' b' :
  separate b → (l', b') ≠ (l, b) →
  let w' := (lDelete (store l) w b f).2 in
  view (L:=store l') w' b' = view (L:=store l') w b' ∧ (wf (L:=store l') w b' → wf (L:=store l') w' b').
Proof.
  intros Hs Hne w'. assert (∀ k, owns (L:=store l') b' k → w !! k = w' !! k) as Hk.
  { intros k Ho. symmetry. apply law_delete_frame. intros Ho'. destruct (Hs l l' b' k Ho' Ho) as [-> ->]. done. }
  destruct (law_local w w' b' Hk). auto.
Qed.

Lemma deleteAll_spec b fs (Hs : separate b) ls w ok w' :
  deleteAll ls w b fs = (ok, w') → NoDup ls →
  (∀ l b', (b' ≠ b ∨ l ∉ ls) →
     view (L:=store l) w' b' = view (L:=store l) w b' ∧ (wf (L:=store l) w b' → wf (L:=store l) w' b')) ∧
  (ok = true → ∀ l, l ∈ ls → view (L:=store l) w' b = None ∧ wf (L:=store l) w' b).
Proof.
  revert w ok w'. induction ls as [|l ls IH]; intros w ok w'; simpl; [intros [= <- <-] _; split; [done|by intros _ ? ?%elem_of_nil]|].
  destruct (lDelete (store l) w b (fs l)) as [r w2] eqn:Ed. destruct (deleteAll ls w2 b fs) as [ok2 w3] eqn:Er.
  intros [= <- <-] [Hl Hnd]%NoDup_cons. destruct (IH _ _ _ Er Hnd) as [IH1 IH2].
  pose proof (delete_elsewhere l w b (fs l)) as He. rewrite Ed in He. cbn [snd] in He. split.
  - intros l' b' Hor. assert ((l', b') ≠ (l, b)) as Hne.
    { intros [= -> ->]. destruct Hor as [?|Hn]; [done|]. apply Hn. by left. }
    destruct (He l' b' Hs Hne) as [E1 E2].
    destruct (IH1 l' b') as [H1 H2]; [destruct Hor as [?|Hn]; [by left|right; by intros ?; apply Hn; right]|].
    split; [congruence|auto].
  - intros [Hr ->]%andb_true_iff l' [->|Hin]%elem_of_cons; [|by apply IH2].
    destruct r as [[]|]; [|done]. destruct (law_delete _ _ _ _ Ed) as [Hwf Hv].
    destruct (IH1 l b) as [H1 H2]; [by right|]. rewrite H1. auto.
Qed.

(** The layout that [Persist] chooses accepts the tree. *)
Definition targetAccepts (kind : SyncKind) (threshold : Z) w b t g (roots : option (list string)) fs order (countFails : bool) : Prop :=
  ∀ r selected l, newSnapshotFilter roots = Ok r → inspect (answers w b fs order) = Ok selected →
    writeTarget kind threshold r t selected countFails = Ok l → accepts (L:=store l) w b t g roots.

Lemma auto_persist_spec kind threshold w b t g roots fs order order' countFails f res w' :
  (∀ b', healthy w b') → 0 <= g < 2 ^ 63 → walked t → targetAccepts kind threshold w b t g roots fs order countFails → separate b →
  order ≡ₚ backends → order' ≡ₚ backends →
  AutoPersist kind threshold w b t g roots fs order countFails f = (res, w') →
  (∀ b', healthy w' b') ∧ (∀ l b', b' ≠ b → view (L:=store l) w' b' = view (L:=store l) w b') ∧
  let published :=
    (∀ l g0 t0, view (L:=store l) w b = Some (g0, t0) → g0 < g) ∧
    ∃ r, newSnapshotFilter roots = Ok r ∧ AutoStat w' b none order' = Ok (Some g) ∧
      AutoRestore w' b none order' noFaults = Ok (kept r t) in
  match res with
  | Ok _ => published
  | Err e => (∀ l, view (L:=store l) w' b = view (L:=store l) w b) ∨ (e = PutFailed ∧ published)
  end.
Proof.
  intros Hw Hg Ht Hacc Hs Ho Ho'. unfold AutoPersist. destruct (newSnapshotFilter roots) as [r|e] eqn:Er.
  2:{ intros [= <- <-]. split_and!; auto. }
  destruct (inspect (answers w b fs order)) as [selected|e] eqn:Ei.
  2:{ intros [= <- <-]. split_and!; auto. }
  pose proof (inspect_all _ _ _ _ _ (Hw b) Ho Ei) as Hall.
  destruct (match selected with Some _ => _ | None => _ end) eqn:Ec.
  { intros [= <- <-]. split_and!; auto. }
  assert (∀ l g0 t0, view (L:=store l) w b = Some (g0, t0) → g0 < g) as Hold.
  { intros l g0 t0 Hv. destruct (Hall l g0 t0 Hv) as (l1&g1&->&Hc). apply Z.leb_gt in Ec. lia. }
  destruct (writeTarget _ _ _ _ _ _) as [l|e] eqn:El.
  2:{ intros [= <- <-]. split_and!; auto. }
  intros Ep. pose proof (persist_elsewhere l w b t g roots f) as Hel. rewrite Ep in Hel. cbn [snd] in Hel.
  apply law_persist in Ep as [Hwf Hpub]; [|apply Hw|done|done|by eapply Hacc].
  assert (∀ b', healthy w' b') as Hw'.
  { intros b' l'. destruct (decide ((l', b') = (l, b))) as [[= -> ->]|Hne]; [done|]. apply Hel; [done|done|apply Hw]. }
  assert (∀ l' b', b' ≠ b → view (L:=store l') w' b' = view (L:=store l') w b') as Hoth.
  { intros l' b' Hne. apply Hel; [done|congruence]. }
  assert (∀ l', l' ≠ l → view (L:=store l') w' b = view (L:=store l') w b) as Hlay by (intros l' Hne; apply Hel; [done|congruence]).
  split_and!; [done|done|]. assert (∀ rs, view (L:=store l) w' b = Some (g, kept rs t) →
    AutoStat w' b none order' = Ok (Some g) ∧ AutoRestore w' b none order' noFaults = Ok (kept rs t)) as Hread.
  { intros rs Hv. apply (newest_wins _ _ _ l); [apply Hw'|done|done|]. intros l' g' t' Hne. rewrite Hlay by done. apply Hold. }
  destruct res as [[]|e].
  - destruct Hpub as [(rs&Hrs&Hv) _]. split; [done|]. exists rs. rewrite Er in Hrs. injection Hrs as <-. by destruct (Hread _ Hv).
  - destruct Hpub as [Hv|(->&(rs&Hrs&Hv)&_)].
    + left. intros l'. destruct (decide (l' = l)) as [->|]; auto.
    + right. split_and!; [done|done|]. exists rs. rewrite Er in Hrs. injection Hrs as <-. by destruct (Hread _ Hv).
Qed.

(** C4: What was persisted is what is restored, across layouts and format changes.
    Conditions: the stored snapshots of all beds are intact ([healthy]), no other
    bed's snapshot shares a key with those of this bed ([separate]: its name is none
    of beds, tar, restic and chunks, [separate_names]), the generation is a
    non-negative int64, and the chosen layout accepts the tree (for tar: no name
    with a backslash or invalid UTF-8; for the chunked layouts: no digest collision
    with what is stored; restic accepts every tree).  Then a successful [Persist] strictly raises the
    newest generation of the bed over every layout, and from then on [Stat] reports
    that generation and [Restore] yields exactly the entries the filter kept,
    whichever layout was chosen by kind and file count and in whatever order the
    layouts answer.  A failed [Persist] leaves every readable snapshot as it was,
    except that an upload whose error hides success publishes exactly the new
    snapshot; no snapshot of another bed changes.  In particular a layout holding
    an equal or newer generation is never overwritten. *)
Theorem persist_then_restore kind threshold w b t g roots fs order order' countFails f res w' :
  (∀ b', healthy w b') → 0 <= g < 2 ^ 63 → walked t → targetAccepts kind threshold w b t g roots fs order countFails → separate b →
  order ≡ₚ backends → order' ≡ₚ backends →
  AutoPersist kind threshold w b t g roots fs order countFails f = (res, w') →
  (∀ b', healthy w' b') ∧ (∀ l b', b' ≠ b → view (L:=store l) w' b' = view (L:=store l) w b') ∧
  let published :=
    (∀ l g0 t0, view (L:=store l) w b = Some (g0, t0) → g0 < g) ∧
    ∃ r, newSnapshotFilter roots = Ok r ∧ AutoStat w' b none order' = Ok (Some g) ∧
      AutoRestore w' b none order' noFaults = Ok (kept r t) in
  match res with
  | Ok _ => published
  | Err e => (∀ l, view (L:=store l) w' b = view (L:=store l) w b) ∨ (e = PutFailed ∧ published)
  end.
Proof. apply auto_persist_spec. Qed.

(** C6: Purging a bed removes its durable copies from every layout.  When all
    stored snapshots are intact and no other bed's snapshot shares a key with those
    of this bed ([separate]: its name is none of beds, tar, restic and chunks): after a
    successful [Delete] no layout has a snapshot of the bed and a reader finds none;
    a purge, successful or not, leaves the snapshots of every other bed as they
    were.  For the names left out this is false ([purge_erases_other_bed]). *)
Theorem purge_removes_all_copies w b fs res w' order :
  (∀ b', healthy w b') → separate b → order ≡ₚ backends → AutoDelete w b fs = (res, w') →
  (∀ l b', b' ≠ b → view (L:=store l) w' b' = view (L:=store l) w b' ∧ wf (L:=store l) w' b') ∧
  (res = Ok tt → (∀ l, view (L:=store l) w' b = None) ∧ AutoStat w' b none order = Ok None).
Proof.
  intros Hw Hs Ho. unfold AutoDelete. destruct (deleteAll backends w b fs) as [ok w1] eqn:E. intros [= <- <-].
  destruct (deleteAll_spec b fs Hs backends w ok w1 E) as [H1 H2]; [by apply (bool_decide_eq_true_1 (NoDup backends)); vm_compute|]. split.
  - intros l b' Hne. destruct (H1 l b') as [-> H]; [by left|]. split; [done|]. apply H, Hw.
  - destruct ok; [|done]. intros _. assert (∀ l, view (L:=store l) w1 b = None ∧ wf (L:=store l) w1 b) as Hall.
    { intros l. apply H2; [done|]. destruct l; set_solver. }
    split; [intros l; apply Hall|]. unfold AutoStat.
    assert (inspect (answers w1 b none order) = Ok None) as ->; [|done].
    apply (means_unique (answers w1 b none order)); [apply inspect_spec|]. split.
    + intros x (l&->&_)%list_elem_of_fmap. simpl. by rewrite law_stat by apply Hall.
    + intros (x&(l&->&_)%list_elem_of_fmap&[y Hy]). unfold found in Hy. simpl in Hy. rewrite law_stat in Hy by apply Hall.
      simpl in Hy. destruct (Hall l) as [Hn _]. by rewrite Hn in Hy.
Qed.
End Auto.

(** ** The layouts of the daemon *)

Section Layouts.
Context `{C : Codec} `{HC : !CodecLaws}.
Context `{T : Restic.ResticTool} `{HT : !Restic.ResticLaws}.

Definition layouts (l : storeLayout) : Layout :=
  match l with layoutCAS => Cas.layout | layoutPack => Pack.layout | layoutTar => Tar.layout | layoutRestic => Restic.layout end.
#[export] Instance layouts_lawful l : Lawful (layouts l).
Proof. destruct l; apply _. Defined.

(** The first component of the keys of every layout but CAS. *)
Definition space (l : storeLayout) : string :=
  match l with layoutPack => "beds" | layoutTar => "tar" | _ => "restic" end.

Lemma cas_keys b k : Cas.ownsCas b k → ∃ x r, k = b :: x :: r ∧ (x = "chunks"%string ∨ r = []).
Proof. intros [->|H]; [by exists "index.caibx"%string, []; auto|]. apply below_spec in H as (r&_&->). exists "chunks"%string, r. auto. Qed.

Lemma space_keys l b k : l ≠ layoutCAS → owns (L:=layouts l) b k → ∃ r, r ≠ [] ∧ k = space l :: b :: r.
Proof.
  intros Hl Ho. destruct l; [done|..].
  - apply below_spec in Ho as (r&Hr&->). by exists r.
  - unfold owns in Ho. simpl in Ho. rewrite Ho. by exists ["snapshot.tar.gz"%string].
  - apply below_spec in Ho as (r&Hr&->). by exists r.
Qed.

(** A bed of the content-addressed layout named after another layout's key space
    holds the chunks where the bed named [chunks] of that layout lives. *)
Definition collide (l l' : storeLayout) (b b' : string) : Prop :=
  l = layoutCAS ∧ l' ≠ layoutCAS ∧ b = space l' ∧ b' = "chunks"%string.

Lemma keys_meet l l' b b' k :
  owns (L:=layouts l) b k → owns (L:=layouts l') b' k →
  (l = l' ∧ b = b') ∨ collide l l' b b' ∨ collide l' l b' b.
Proof.
  intros H H'. destruct (decide (l = layoutCAS)) as [->|Hl], (decide (l' = layoutCAS)) as [->|Hl'].
  - apply cas_keys in H as (x&r&->&_), H' as (x'&r'&[= -> _ _]&_). by left.
  - apply cas_keys in H as (x&r&->&Hx). apply space_keys in H' as (r'&Hr'&[= -> -> ->]); [|done]. right; left.
    split_and!; [done|done|done|]. by destruct Hx.
  - apply cas_keys in H' as (x&r&->&Hx). apply space_keys in H as (r'&Hr'&[= -> -> ->]); [|done]. right; right.
    split_and!; [done|done|done|]. by destruct Hx.
  - apply space_keys in H as (r&_&->), H' as (r'&_&[= E -> ->]); [|done..]. left. split; [|done]. by destruct l, l'.
Qed.

Lemma separate_names b : b ∉ ["beds"; "tar"; "restic"; "chunks"]%string → separate layouts b.
Proof.
  intros Hb l l' b' k H H'. destruct (keys_meet _ _ _ _ _ H H') as [?|[(_&_&->&_)|(_&_&_&->)]]; [done|..];
    exfalso; apply Hb; [destruct l'; simpl|]; set_solver.
Qed.

(** C7: The key spaces of the layouts are separate, but for one family of names:
    two snapshots (of different layouts or of different beds) share a key only if
    one is the content-addressed snapshot of a bed named [beds], [tar] or
    [restic] and the other the snapshot, in the layout of that name, of the bed
    named [chunks]. *)
Theorem layout_keys_separate l l' b b' k :
  owns (L:=layouts l) b k → owns (L:=layouts l') b' k →
  (l = l' ∧ b = b') ∨ collide l l' b b' ∨ collide l' l b' b.
Proof. apply keys_meet. Qed.
End Layouts.

(** ** A concrete instance *)

Module Demo.

#[export] Instance EntryKind_countable : Countable EntryKind.
Proof.
  refine (inj_countable' (λ e, match e with
      | Regular c => inl (inl c) | Symlink c => inl (inr c) | Directory => inr true | Special => inr false end)
    (λ x, match x with inl (inl c) => Regular c | inl (inr c) => Symlink c | inr true => Directory | inr false => Special end) _).
  by intros [].
Defined.
#[export] Instance Entry_countable : Countable Entry.
Proof. refine (inj_countable' (λ e, (entryPath e, entryKind e)) (λ x, mkEntry x.1 x.2) _). by intros []. Defined.
#[export] Instance ref_eq_dec : EqDecision packChunkRef.
Proof. solve_decision. Defined.
#[export] Instance ref_countable : Countable packChunkRef.
Proof.
  refine (inj_countable' (λ r, (refPack r, (refID r, refOffset r, refLength r))) (λ x, mkRef x.2.1.1 x.1 x.2.1.2 x.2.2) _).
  by intros [].
Defined.
#[export] Instance manifest_eq_dec : EqDecision packManifest.
Proof. solve_decision. Defined.
#[export] Instance manifest_countable : Countable packManifest.
Proof. refine (inj_countable' (λ m, (manifestIndex m, manifestChunks m)) (λ x, mkManifest x.1 x.2) _). by intros []. Defined.

(** A number as its binary digits. *)
Fixpoint digits (p : positive) : bytes :=
  match p with xH => [] | xO p => "0"%char :: digits p | xI p => "1"%char :: digits p end.
Fixpoint number (l : bytes) : positive :=
  match l with [] => xH | c :: l => if bool_decide (c = "0"%char) then xO (number l) else xI (number l) end.
Lemma number_digits p : number (digits p) = p.
Proof. induction p as [p IH|p IH|]; simpl; [by rewrite IH..|done]. Qed.

Definition checksum (l : bytes) : Z := foldl (λ h a, (h * 257 + byte a + 1) mod 1000003) 7 l.
Fixpoint toBytes (n : nat) (z : Z) : bytes :=
  match n with O => [] | S n => ascii_of_N (Z.to_N (z mod 256)) :: toBytes n (z / 256) end.
Lemma toBytes_length n z : length (toBytes n z) = n.
Proof. revert z. induction n; intros z; simpl; auto. Qed.

#[export] Instance codec : Codec := {
  catar t := Some (digits (encode t));
  untar s := decode (number s);
  chunker s := match s with [] => [] | _ => [s] end;
  chunkID s := of_list (Itoa (checksum s mod 1000));
  chunkIDFromString _ := true;
  compress s := "z"%char :: s;
  decompress s := match s with [] => None | _ :: s => Some s end;
  sha256 s := toBytes 32 (checksum s);
  marshal m := digits (encode m);
  unmarshal s := decode (number s) }.

Definition tree : Tree :=
  [mkEntry "meta.json" (Regular "{}"); mkEntry "volumes" Directory; mkEntry "volumes/workspace" Directory;
   mkEntry "volumes/workspace/a" (Regular "hi"); mkEntry "tmp" Directory; mkEntry "tmp/x" (Regular "")].
Definition durable : Tree := kept ["volumes/workspace"%string] tree.

(** The byte strings a first write of [tree] handles: the stream, its pack, and
    the manifest. *)
Definition stream : bytes := digits (encode durable).
Definition manifest : packManifest :=
  mkManifest [chunkID stream] [mkRef (chunkID stream) (Pack.objectID (compress stream)) 0 (1 + Z.of_nat (length stream))].
Definition contents : list bytes := [[]; stream; compress stream; marshal manifest].

Lemma pairs_decided {A} `{EqDecision A} (h : bytes → A) :
  forallb (λ x, forallb (λ y, bool_decide (x = y) || negb (bool_decide (h x = h y))) contents) contents = true →
  ∀ x y, x ∈ contents → y ∈ contents → h x = h y → x = y.
Proof.
  rewrite forallb_forall. intros H x y Hx Hy E. specialize (H x (proj1 (list_elem_of_In _ _) Hx)).
  rewrite forallb_forall in H. specialize (H y (proj1 (list_elem_of_In _ _) Hy)).
  apply orb_true_iff in H as [H|H]; [by apply bool_decide_eq_true in H|]. by rewrite bool_decide_true in H.
Qed.

#[export, refine] Instance laws : CodecLaws := {| digested := λ x, x ∈ contents |}.
Proof.
  - intros t s _ [= <-]. simpl. by rewrite number_digits, decode_encode.
  - intros [|a s]; [done|]. simpl. by rewrite app_nil_r.
  - apply pairs_decided. vm_compute. reflexivity.
  - apply pairs_decided. vm_compute. reflexivity.
  - rewrite <-Forall_forall. apply (bool_decide_eq_true_1 _). vm_compute. reflexivity.
  - intros x. apply toBytes_length.
  - done.
  - done.
  - done.
  - intros m. simpl. by rewrite number_digits, decode_encode.
Defined.

(** A restic that keeps a snapshot as one archive under a digest of the tree. *)
Fixpoint hexDigits (n : nat) (z : Z) : list ascii :=
  match n with
  | O => []
  | S n => let d := z mod 16 in ascii_of_N (Z.to_N (if d <? 10 then 48 + d else 87 + d)) :: hexDigits n (z / 16)
  end.
Definition refOf (t : Tree) : string := of_list (hexDigits 64 (checksum (digits (encode t)))).
Definition archiveAt (w : bucket) (repo : key) (ref : string) : option Tree :=
  o ← w !! (repo ++ ["snapshots"; ref]%string); match objBody o with BArchive t => Some t | _ => None end.
Definition demoTool (f : faults) (w : bucket) (repo : key) (c : Restic.resticCommand) : Restic.processEnd * bucket :=
  match c with
  | Restic.CatConfig =>
      (Restic.ExitedWith (match w !! (repo ++ ["config"%string]) with Some _ => 0 | None => 10 end) [] 0 [], w)
  | Restic.InitRepository => (Restic.ExitedWith 0 [] 0 [], <[repo ++ ["config"%string] := mkObject None (BBytes [])]> w)
  | Restic.Backup _ t =>
      let ended := Restic.ExitedWith 0 [Some (Restic.mkSummary "summary" (refOf t) 0 0)] 200 [] in
      match w !! (repo ++ ["snapshots"; refOf t]%string) with
      | None => (ended, <[repo ++ ["snapshots"; refOf t]%string := mkObject None (BArchive t)]> w)
      | Some _ => (if bool_decide (archiveAt w repo (refOf t) = Some t) then ended else Restic.ExitedWith 1 [] 0 [], w)
      end
  | Restic.RestoreTo ref =>
      (match archiveAt w repo ref with Some t => Restic.ExitedWith 0 [] 0 t | None => Restic.ExitedWith 1 [] 0 [] end, w)
  end.
#[export] Instance resticTool : Restic.ResticTool :=
  {| Restic.versionOutput := λ _, Some "restic 0.19.1 compiled with go"%string; Restic.cancelled := λ _ _, false; Restic.tool := demoTool |}.
Lemma below_repo repo x r : below repo (repo ++ x :: r) = true.
Proof. apply below_spec. by exists (x :: r). Qed.
#[export, refine] Instance resticLaws : Restic.ResticLaws := {| Restic.content := archiveAt |}.
Proof.
  - intros w w' repo ref H. unfold archiveAt. by rewrite (H _ (below_repo _ _ _)).
  - intros f w repo c k Hk. assert (∀ x r, repo ++ x :: r ≠ k) as Hne by (intros x r <-; by rewrite below_repo in Hk).
    destruct c; simpl; [done|by rewrite lookup_insert_ne| |done]. destruct (w !! _); simpl; [done|by rewrite lookup_insert_ne].
  - intros f w repo c ref t Hc. destruct c; simpl; [done| | |done].
    + unfold archiveAt in *. rewrite lookup_insert_ne; [done|]. by intros [= ?]%app_inv_head.
    + destruct (w !! _) as [o|] eqn:E; simpl; [done|]. unfold archiveAt in *. rewrite lookup_insert_ne; [done|].
      intros [= <-]%app_inv_head. by rewrite E in Hc.
  - intros f w repo parent t docs size target w' s _ Ht Hs _. simpl in Ht. destruct (w !! _) as [o|] eqn:E.
    + case_bool_decide as Ea; [|done]. injection Ht as <- <- <- <-. apply list_elem_of_singleton in Hs as [= ->]. exact Ea.
    + injection Ht as <- <- <- <-. apply list_elem_of_singleton in Hs as [= ->]. unfold archiveAt. simpl. by rewrite lookup_insert_eq.
  - intros w repo ref t Hc. exists [], 0, w. simpl. by rewrite Hc.
  - by vm_compute.
  - done.
Defined.

Definition store : storeLayout → Layout := layouts.
#[global] Instance store_lawful l : Lawful (store l) := layouts_lawful l.
Definition persistedAs (kind : SyncKind) (b : string) : result store_err unit * bucket :=
  AutoPersist store kind 10 ∅ b tree 3 None none backends false noFaults.
Definition persisted : string → result store_err unit * bucket := persistedAs SyncAuto.

Lemma empty_healthy b : healthy store ∅ b.
Proof. intros l. apply law_empty. intros k _. apply lookup_empty. Qed.

Lemma tree_walked : walked tree.
Proof. apply (bool_decide_eq_true_1 (walked tree)). vm_compute. reflexivity. Qed.

Lemma filter_default rs : newSnapshotFilter None = Ok rs → rs = ["volumes/workspace"%string].
Proof. intros [= <-]. done. Qed.

Lemma sublist_one {A} (l : list A) x : l `sublist_of` [x] → l = [] ∨ l = [x].
Proof. intros H. inversion H as [|? ? ? H1|? ? ? H1]; subst; (apply sublist_nil_r in H1 as ->); auto. Qed.

Lemma tree_accepted kind b : targetAccepts store kind 10 ∅ b tree 3 None none backends false.
Proof.
  intros r0 selected l _ _ _. destruct l.
  - intros rs s Hr [= <-]. apply filter_default in Hr as ->. fold durable. fold stream.
    apply Forall_singleton. by right; left.
  - intros rs s prev known Hr [= <-] [= <- <-]. apply filter_default in Hr as ->. fold durable. fold stream.
    assert (chunker stream = [stream]) as -> by (by vm_compute). split_and!.
    + apply Forall_singleton. by right; left.
    + intros l [->| ->]%sublist_one; [by left|]. by right; right; left.
    + intros m Hm. assert (Some m = Some manifest) as [= ->]; [|by do 3 right; left].
      rewrite <-Hm. vm_compute. reflexivity.
  - intros rs Hr. apply filter_default in Hr as ->. vm_compute. reflexivity.
  - done.
Qed.

Lemma bed_separate : separate store "bed".
Proof. apply separate_names. rewrite !not_elem_of_cons. split_and!; [done..|apply not_elem_of_nil]. Qed.

Definition persistedWorld : bucket := (persisted "bed").2.

Lemma persisted_ok : persisted "bed" = (Ok tt, persistedWorld).
Proof.
  assert ((persisted "bed").1 = Ok tt) as Hok by (vm_compute; reflexivity).
  unfold persistedWorld. rewrite <-Hok. apply surjective_pairing.
Qed.

Lemma persisted_healthy b : healthy store persistedWorld b.
Proof.
  apply (auto_persist_spec store SyncAuto 10 ∅ "bed" tree 3 None none backends backends false noFaults (Ok tt) persistedWorld);
    [apply empty_healthy|lia|apply tree_walked|apply tree_accepted|apply bed_separate|done|done|apply persisted_ok].
Qed.
End Demo.


(** Persisted in the pack layout, and with restic. *)
Definition readBack (kind : SyncKind) : Prop :=
  let w := (Demo.persistedAs kind "bed").2 in
  AutoStat Demo.store w "bed" none (reverse backends) = Ok (Some 3) ∧
  AutoRestore Demo.store w "bed" none (reverse backends) noFaults = Ok Demo.durable.
Lemma persist_then_restore_witness : readBack SyncAuto ∧ readBack SyncRestic.
Proof.
  enough (∀ kind, kind = SyncAuto ∨ kind = SyncRestic → readBack kind) as H by (split; apply H; auto).
  intros kind Hkind. unfold readBack. set (w := (Demo.persistedAs kind "bed").2). assert ((Demo.persistedAs kind "bed").1 = Ok tt) as Hok by (destruct Hkind as [->| ->]; vm_compute; reflexivity).
  destruct (persist_then_restore Demo.store kind 10 ∅ "bed" Demo.tree 3 None none backends (reverse backends) false
    noFaults (Ok tt) w) as (_&_&_&r&Hr&H).
  - apply Demo.empty_healthy.
  - lia.
  - apply Demo.tree_walked.
  - apply Demo.tree_accepted.
  - apply Demo.bed_separate.
  - done.
  - by rewrite reverse_Permutation.
  - rewrite <- Hok. apply surjective_pairing.
  - apply Demo.filter_default in Hr as ->. exact H.
Defined.

Lemma purge_removes_all_copies_witness :
  let d := AutoDelete Demo.store Demo.persistedWorld "bed" none in
  d.1 = Ok tt ∧ AutoStat Demo.store d.2 "bed" none backends = Ok None.
Proof.
  intros d. assert (d.1 = Ok tt) as Hok by (vm_compute; reflexivity). split; [done|].
  destruct (purge_removes_all_copies Demo.store Demo.persistedWorld "bed" none d.1 d.2 backends) as [_ H].
  - apply Demo.persisted_healthy.
  - apply Demo.bed_separate.
  - done.
  - apply surjective_pairing.
  - by apply H.
Defined.

Lemma layout_keys_separate_witness :
  collide layoutCAS layoutPack "beds" "chunks" ∧ ~ collide layoutPack layoutCAS "chunks" "beds".
Proof.
  split; [|by intros (?&_)].
  destruct (@layout_keys_separate Demo.codec Demo.laws Demo.resticTool Demo.resticLaws layoutCAS layoutPack "beds" "chunks"
    ["beds"; "chunks"; "head.json"]%string) as [[? ?]|[?|(?&_)]]; try done. right. vm_compute. reflexivity.
Defined.

(** Purging the bed named [beds] erases the snapshot of the bed named [chunks]:
    the content-addressed layout, which never held either, lists the chunks of
    [beds] where the pack layout keeps [chunks]. *)
Lemma purge_erases_other_bed :
  let w := (Demo.persisted "chunks").2 in
  AutoStat Demo.store w "chunks" none backends = Ok (Some 3) ∧
  (AutoDelete Demo.store w "beds" none).1 = Ok tt ∧
  AutoStat Demo.store (AutoDelete Demo.store w "beds" none).2 "chunks" none backends = Ok None.
Proof. intros w. split_and!; vm_compute; reflexivity. Qed.
