(* ===== verification/StageIn.v ===== *)
(** * StageIn: choosing and publishing the local copy of a bed

    Models [internal/bed/store/stage.go].  The local disk is a map from directory
    paths to trees; every system call may fail, as told by [disk].  An operation
    returns, with its result, the sequence of disk states it went through, so
    that statements also cover a daemon that dies between two calls. *)

From S2P Require Import Prelude Objects.

Notation fs := (gmap string Tree).

Inductive StageInSource := StageInFresh | StageInLuggage | StageInSnapshot.
Inductive stage_err := InspectSnapshot | CreateFresh | CreateStaging | RestoreSnapshot | ValidateVolumes
  | ReserveReplaced | ReleaseReservation | MoveAside | InspectLocal | PublishStaged.

Record StageInRequest := mkRequest { BedDir : string; LocalPresent : bool; LocalGeneration : Z }.
Record StageInResult := mkStage { Source : StageInSource; Snapshot : option Z; Restored : bool }.

(** Outcomes of the calls: the names chosen by [MkdirTemp], the content the
    restore wrote ([restoreOk] tells whether it was complete), and which calls
    fail. *)
Record disk := mkDisk {
  stagingName : string; reservedName : string;
  restoredTree : Tree; restoreOk : bool; validates : Tree → bool;
  mkdirFails : bool; stagingFails : bool; statFails : bool; reserveFails : bool; removeFails : bool;
  asideFails : bool; publishFails : bool; rollbackFails : bool; discardFails : bool; cleanupFails : bool }.

Definition moveDir (d : fs) (from to : string) : fs :=
  match d !! from with Some t => <[to := t]> (delete from d) | None => d end.

(** [publishStagedBed]: the disk states after each call, last one last. *)
Definition publishStagedBed (k : disk) (d : fs) (bedDir staging : string) : option stage_err * list fs :=
  let publish (d : fs) (old : bool) : option stage_err * list fs :=
    if publishFails k then
      if old && negb (rollbackFails k) then (Some PublishStaged, [moveDir d (reservedName k) bedDir])
      else (Some PublishStaged, [])
    else
      let d := moveDir d staging bedDir in
      (None, d :: (if old && negb (discardFails k) then [delete (reservedName k) d] else [])) in
  if statFails k then (Some InspectLocal, [])
  else match d !! bedDir with
  | Some _ =>
      if reserveFails k then (Some ReserveReplaced, [])
      else
        let d1 := <[reservedName k := []]> d in
        if removeFails k then (Some ReleaseReservation, [d1])
        else
          let d2 := delete (reservedName k) d1 in
          if asideFails k then (Some MoveAside, [d1; d2])
          else
            let d3 := moveDir d2 bedDir (reservedName k) in
            let '(r, tr) := publish d3 true in (r, [d1; d2; d3] ++ tr)
  | None => publish d false
  end.

Definition lastOf (d : fs) (tr : list fs) : fs := default d (last tr).

(** [StageInBedFS]; [stat] is the answer of the store. *)
Definition StageInBedFS (k : disk) (d : fs) (request : StageInRequest) (stat : result store_err (option Z))
  : result stage_err StageInResult * list fs :=
  match stat with
  | Err _ => (Err InspectSnapshot, [])
  | Ok None =>
      if LocalPresent request then (Ok (mkStage StageInLuggage None false), [])
      else if mkdirFails k then (Err CreateFresh, [])
      else (Ok (mkStage StageInFresh None false),
            [match d !! BedDir request with Some _ => d | None => <[BedDir request := []]> d end])
  | Ok (Some g) =>
      if LocalPresent request && (g <=? LocalGeneration request)
      then (Ok (mkStage StageInLuggage (Some g) false), [])
      else if stagingFails k then (Err CreateStaging, [])
      else
        let d1 := <[stagingName k := []]> d in
        let d2 := <[stagingName k := restoredTree k]> d in
        let '(r, tr) :=
          if negb (restoreOk k) then (Err RestoreSnapshot, [])
          else if negb (validates k (restoredTree k)) then (Err ValidateVolumes, [])
          else match publishStagedBed k d2 (BedDir request) (stagingName k) with
               | (None, tr) => (Ok (mkStage StageInSnapshot (Some g) true), tr)
               | (Some e, tr) => (Err e, tr)
               end in
        let tr := [d1; d2] ++ tr in
        (r, tr ++ (if cleanupFails k then [] else [delete (stagingName k) (lastOf d tr)]))
  end.

(** ** Publication is atomic *)

(** The bed directory holds the old tree, the complete new one, or nothing while
    the old one waits under the reserved name. *)
Definition bed_intact (k : disk) (bedDir : string) (old : option Tree) (new : Tree) (d : fs) : Prop :=
  d !! bedDir = old ∨ d !! bedDir = Some new ∨
  (d !! bedDir = None ∧ is_Some old ∧ d !! reservedName k = old).

(** Split a statement about the states of a concrete trace. *)
Ltac each_state := repeat first [apply Forall_nil_2 | apply Forall_cons_2].

Section Publish.
Context (k : disk) (d : fs) (bedDir : string) (new : Tree).
Context (Hnames : bedDir ≠ reservedName k ∧ bedDir ≠ stagingName k ∧ reservedName k ≠ stagingName k).
Context (Hstaged : d !! stagingName k = Some new).

Lemma publish_intact r tr :
  publishStagedBed k d bedDir (stagingName k) = (r, tr) →
  Forall (bed_intact k bedDir (d !! bedDir) new) tr ∧
  (r = None → lastOf d tr !! bedDir = Some new) ∧
  (r ≠ None → rollbackFails k = false → lastOf d tr !! bedDir = d !! bedDir).
Proof using Hnames Hstaged.
  destruct Hnames as (N1&N2&N3). unfold publishStagedBed. destruct (statFails k); [by intros [= <- <-]|].
  destruct (d !! bedDir) as [old|] eqn:Eb.
  - destruct (reserveFails k); [by intros [= <- <-]|].
    set (d1 := <[reservedName k := []]> d). assert (d1 !! bedDir = Some old) as E1 by (unfold d1; by rewrite lookup_insert_ne).
    destruct (removeFails k).
    { intros [= <- <-]. split_and!; [each_state; by left|done|done]. }
    set (d2 := delete (reservedName k) d1). assert (d2 !! bedDir = Some old) as E2 by (unfold d2; by rewrite lookup_delete_ne).
    destruct (asideFails k).
    { intros [= <- <-]. split_and!; [each_state; by left|done|done]. }
    set (d3 := moveDir d2 bedDir (reservedName k)).
    assert (d3 = <[reservedName k := old]> (delete bedDir d2)) as E3 by (unfold d3, moveDir; by rewrite E2).
    assert (d3 !! bedDir = None) as B3 by (rewrite E3, lookup_insert_ne, lookup_delete_eq; done).
    assert (d3 !! reservedName k = Some old) as R3 by (rewrite E3; apply lookup_insert_eq).
    assert (d3 !! stagingName k = Some new) as S3.
    { rewrite E3, lookup_insert_ne, lookup_delete_ne by done. unfold d2, d1.
      by rewrite lookup_delete_ne, lookup_insert_ne. }
    assert (Forall (bed_intact k bedDir (Some old) new) [d1; d2; d3]) as Hpre.
    { each_state; [by left|by left|right; right; split_and!; eauto]. }
    destruct (publishFails k); cbn [andb].
    + destruct (rollbackFails k) eqn:Er; cbn [negb]; intros [= <- <-].
      { split_and!; done. }
      assert (moveDir d3 (reservedName k) bedDir !! bedDir = Some old) as Ho
        by (unfold moveDir; rewrite R3; apply lookup_insert_eq).
      split_and!; [apply (Forall_app_2 _ [d1; d2; d3]); [done|each_state; by left]|done|done].
    + assert (moveDir d3 (stagingName k) bedDir !! bedDir = Some new) as Hn
        by (unfold moveDir; rewrite S3; apply lookup_insert_eq).
      assert (delete (reservedName k) (moveDir d3 (stagingName k) bedDir) !! bedDir = Some new) as Hn'
        by (by rewrite lookup_delete_ne).
      destruct (discardFails k); cbn [negb]; intros [= <- <-];
        (split_and!; [apply (Forall_app_2 _ [d1; d2; d3]); [done|each_state; right; by left]|done|done]).
  - destruct (publishFails k); cbn [andb]; intros [= <- <-]; [by split_and!|].
    assert (moveDir d (stagingName k) bedDir !! bedDir = Some new) as Hn
      by (unfold moveDir; rewrite Hstaged; apply lookup_insert_eq).
    split_and!; [each_state; right; by left|done|done].
Qed.
End Publish.

Lemma last_snoc_of d l x : lastOf d (l ++ [x]) = x.
Proof. unfold lastOf. by rewrite last_snoc. Qed.

Lemma lastOf_app d l1 l2 : lastOf d (l1 ++ l2) = lastOf (lastOf d l1) l2.
Proof. unfold lastOf. rewrite last_app. by destruct (last l2). Qed.

(** C5: Staging in is all or nothing.  The local copy is kept exactly when it is
    present and no snapshot is newer; otherwise the newer snapshot is restored
    aside and published only if the restore was complete and validated.  In every
    state of the disk on the way, whatever fails and wherever the daemon dies, the
    bed directory holds the previous copy, the complete new one, or is absent with
    the previous copy set aside under the reserved name; a failure leaves the
    previous copy in place unless putting it back failed too. *)
Theorem stage_in_atomic k d request stat r tr :
  BedDir request ≠ reservedName k → BedDir request ≠ stagingName k → reservedName k ≠ stagingName k →
  StageInBedFS k d request stat = (r, tr) →
  let old := d !! BedDir request in
  let final := lastOf d tr in
  Forall (λ d', bed_intact k (BedDir request) old (restoredTree k) d' ∨
    (stat = Ok None ∧ old = None ∧ d' !! BedDir request = Some [])) tr ∧
  match r with
  | Ok s => match Source s with
      | StageInLuggage => tr = [] ∧ LocalPresent request = true ∧
          (stat = Ok None ∨ ∃ g, stat = Ok (Some g) ∧ g <= LocalGeneration request)
      | StageInFresh => stat = Ok None ∧ LocalPresent request = false ∧ is_Some (final !! BedDir request)
      | StageInSnapshot => (∃ g, stat = Ok (Some g) ∧ (LocalPresent request = true → LocalGeneration request < g)) ∧
          restoreOk k = true ∧ validates k (restoredTree k) = true ∧
          final !! BedDir request = Some (restoredTree k)
      end
  | Err _ => rollbackFails k = false → final !! BedDir request = old
  end.
Proof.
  intros N1 N2 N3. unfold StageInBedFS. destruct stat as [[g|]|e].
  3:{ intros [= <- <-]. by split. }
  2:{ destruct (LocalPresent request) eqn:Ep; [intros [= <- <-]; split; [done|]; split_and!; auto|].
      destruct (mkdirFails k); [intros [= <- <-]; by split|]. intros [= <- <-].
      destruct (d !! BedDir request) eqn:Eb; (split; [each_state|split_and!; [done|done|]]).
      - left. left. done.
      - unfold lastOf. simpl. rewrite Eb. eauto.
      - right. split_and!; [done|done|apply lookup_insert_eq].
      - unfold lastOf. simpl. rewrite lookup_insert_eq. eauto. }
  destruct (LocalPresent request && (g <=? LocalGeneration request)) eqn:El.
  { apply andb_true_iff in El as [Hp Hg]. apply Z.leb_le in Hg. intros [= <- <-]. split; [done|]. split_and!; eauto. }
  assert (LocalPresent request = true → LocalGeneration request < g) as Hnew.
  { intros Hp. rewrite Hp in El. by apply Z.leb_gt in El. }
  destruct (stagingFails k); [intros [= <- <-]; by split|].
  set (d1 := <[stagingName k := []]> d). set (d2 := <[stagingName k := restoredTree k]> d).
  set (body := if negb (restoreOk k) then _ else _). destruct body as [r0 tr0] eqn:Eb. intros [= <- <-].
  assert (d1 !! BedDir request = d !! BedDir request) as B1 by (unfold d1; by rewrite lookup_insert_ne).
  assert (d2 !! BedDir request = d !! BedDir request) as B2 by (unfold d2; by rewrite lookup_insert_ne).
  set (tr1 := [d1; d2] ++ tr0). set (clean := if cleanupFails k then _ else _).
  assert (lastOf d (tr1 ++ clean) !! BedDir request = lastOf d2 tr0 !! BedDir request) as Hlast.
  { assert (lastOf d tr1 = lastOf d2 tr0) as E by (unfold tr1; by rewrite lastOf_app).
    unfold clean. destruct (cleanupFails k); [by rewrite app_nil_r, E|].
    rewrite last_snoc_of, lookup_delete_ne by done. exact (f_equal (.!! _) E). }
  assert (Forall (bed_intact k (BedDir request) (d !! BedDir request) (restoredTree k)) tr0 ∧
    (r0 = Ok (mkStage StageInSnapshot (Some g) true) ∧ restoreOk k = true ∧ validates k (restoredTree k) = true ∧
       lastOf d2 tr0 !! BedDir request = Some (restoredTree k) ∨
     (∃ e, r0 = Err e) ∧ (rollbackFails k = false → lastOf d2 tr0 !! BedDir request = d !! BedDir request))) as [Hf Hres].
  { unfold body in Eb. destruct (restoreOk k); cbn [negb] in Eb; [|injection Eb as <- <-; eauto].
    destruct (validates k (restoredTree k)); cbn [negb] in Eb; [|injection Eb as <- <-; eauto].
    destruct (publishStagedBed k d2 (BedDir request) (stagingName k)) as [e tr2] eqn:Ep.
    apply (publish_intact k d2 (BedDir request) (restoredTree k)) in Ep as (H1&H2&H3); [|done|apply lookup_insert_eq].
    rewrite B2 in H1, H3. destruct e as [e|]; injection Eb as <- <-; (split; [done|]); [right; split; [eauto|auto]|left; auto]. }
  split.
  - apply (Forall_app_2 _ tr1 clean); [apply (Forall_app_2 _ [d1; d2] tr0); [each_state; left; by left|]|].
    + eapply Forall_impl; [exact Hf|]. by left.
    + unfold clean. destruct (cleanupFails k); [constructor|]. each_state. left.
      assert (bed_intact k (BedDir request) (d !! BedDir request) (restoredTree k) (lastOf d tr1)) as Hi.
      { unfold tr1. rewrite lastOf_app. unfold lastOf at 1. destruct (last tr0) as [x|] eqn:Ex; simpl; [|by left].
        rewrite Forall_forall in Hf. apply Hf. apply last_Some in Ex as [l' ->]. set_solver. }
      destruct Hi as [Hi|[Hi|(Hi&?&?)]]; unfold bed_intact; rewrite !lookup_delete_ne by done; auto.
  - destruct Hres as [(->&?&?&?)|[[e ->] He]].
    + split_and!; [eauto|done|done|]. by etrans; [exact Hlast|].
    + intros Hr. etrans; [exact Hlast|auto].
Qed.

Definition demo_disk : disk :=
  mkDisk "/beds/.stage" "/beds/.old" [mkEntry "meta.json" (Regular "new")] true (λ _, true)
    false false false false false false true false false false.
Definition demo_fs : fs := {["/beds/b"%string := [mkEntry "meta.json" (Regular "old")]]}.
Definition demo_request : StageInRequest := mkRequest "/beds/b" true 3.
Definition demo_trace : list fs := (StageInBedFS demo_disk demo_fs demo_request (Ok (Some 4))).2.

Lemma stage_in_atomic_witness :
  length demo_trace = 7%nat ∧
  (rollbackFails demo_disk = false → lastOf demo_fs demo_trace !! BedDir demo_request = demo_fs !! BedDir demo_request).
Proof.
  split; [by vm_compute|].
  destruct (stage_in_atomic demo_disk demo_fs demo_request (Ok (Some 4)) (Err PublishStaged) demo_trace) as [_ H].
  - by vm_compute.
  - by vm_compute.
  - by vm_compute.
  - vm_compute. reflexivity.
  - exact H.
Defined.
