(* ===== verification/Pool.v ===== *)
(** * Pool: named network allocations

    Models [internal/host/network/pool.go].  Leases ([*attachment]), acquisitions
    and endpoints are pointers, hence identifiers.  An acquisition runs [Acquire]
    from its registration in [pending] to [close(pending.done)]; the point it has
    reached is its [token].  [lsClosing] is the point [attachment.Close] has
    reached while it holds the mutex of the lease.
    What the backend answers is part of the step. *)

From S2P Require Import Prelude.

(** [Closing]: in [endpoint.Close]; [Closed]: the endpoint is gone, the allocation
    not yet removed. *)
Inductive stage := Open | Closing | Closed.
#[export] Instance stage_eq_dec : EqDecision stage.
Proof. solve_decision. Defined.
Record lease := mkLease { lsKey : string; lsEndpoint : Z; lsActive : bool; lsClosing : stage }.

(** [acquisition]: the result, once [done] is closed. *)
Record acquisition := mkAcquisition { acDone : bool; acLease : option Z; acFailed : bool }.

(** Where [Acquire] stands: in [Create], back from it (with the endpoint or an
    error), cleaning up after a closed pool, before the last section. *)
Inductive token :=
| TkCreate (key : string)
| TkCreated (key : string) (ep : option Z)
| TkCleanup (key : string) (ep : Z)
| TkFinish (key : string).
Definition tokenKey (t : token) : string :=
  match t with TkCreate k | TkCreated k _ | TkCleanup k _ | TkFinish k => k end.

(** [live] are the endpoints created and not closed, [lost] those whose cleanup
    after a closed pool failed (only the backend still knows them). *)
Record Pool := mkPool {
  plAvailable : bool; plClosed : bool;
  plAllocations : gmap string Z; plPending : gmap string Z;
  plLeases : gmap Z lease; plAcquisitions : gmap Z acquisition; plTokens : gmap Z token;
  live : gset Z; lost : gset Z; plFresh : Z }.

Definition newPool (available : bool) : Pool := mkPool available false ∅ ∅ ∅ ∅ ∅ ∅ ∅ 0.

Definition setToken (p : Pool) (a : Z) (t : token) : Pool :=
  mkPool (plAvailable p) (plClosed p) (plAllocations p) (plPending p) (plLeases p) (plAcquisitions p)
    (<[a := t]> (plTokens p)) (live p) (lost p) (plFresh p).
Definition setLease (p : Pool) (id : Z) (l : lease) : Pool :=
  mkPool (plAvailable p) (plClosed p) (plAllocations p) (plPending p) (<[id := l]> (plLeases p)) (plAcquisitions p)
    (plTokens p) (live p) (lost p) (plFresh p).
Definition setEndpoints (p : Pool) (lv ls : gset Z) : Pool :=
  mkPool (plAvailable p) (plClosed p) (plAllocations p) (plPending p) (plLeases p) (plAcquisitions p)
    (plTokens p) lv ls (plFresh p).

Inductive pool_err := PoolUnavailable | PoolClosed | CreateFailed.
(** The first section of [Acquire]. *)
Inductive acquire_outcome := Refused (e : pool_err) | Existing (id : Z) | Waits (a : Z) | Began (a : Z).

Definition acquireBegin (p : Pool) (key : string) : acquire_outcome * Pool :=
  if negb (plAvailable p) then (Refused PoolUnavailable, p)
  else if plClosed p then (Refused PoolClosed, p)
  else match plAllocations p !! key with
  | Some id => (Existing id, p)
  | None =>
      match plPending p !! key with
      | Some a => (Waits a, p)
      | None =>
          let a := plFresh p in
          (Began a, mkPool (plAvailable p) (plClosed p) (plAllocations p) (<[key := a]> (plPending p)) (plLeases p)
             (<[a := mkAcquisition false None false]> (plAcquisitions p)) (<[a := TkCreate key]> (plTokens p))
             (live p) (lost p) (a + 1))
      end
  end.

(** [backend.Create] returns. *)
Definition acquireCreated (p : Pool) (a : Z) (ok : bool) : option Pool :=
  match plTokens p !! a with
  | Some (TkCreate key) =>
      Some (if ok then
              let e := plFresh p in
              mkPool (plAvailable p) (plClosed p) (plAllocations p) (plPending p) (plLeases p) (plAcquisitions p)
                (<[a := TkCreated key (Some e)]> (plTokens p)) ({[e]} ∪ live p) (lost p) (e + 1)
            else setToken p a (TkCreated key None))
  | _ => None
  end.

(** The section that registers the endpoint, or refuses it. *)
Definition acquireRegister (p : Pool) (a : Z) : option Pool :=
  match plTokens p !! a with
  | Some (TkCreated key ep) =>
      Some (match ep, plClosed p with
            | Some e, false =>
                let id := plFresh p in
                mkPool (plAvailable p) (plClosed p) (<[key := id]> (plAllocations p)) (plPending p)
                  (<[id := mkLease key e true Open]> (plLeases p)) (<[a := mkAcquisition false (Some id) false]> (plAcquisitions p))
                  (<[a := TkFinish key]> (plTokens p)) (live p) (lost p) (id + 1)
            | Some e, true =>
                mkPool (plAvailable p) (plClosed p) (plAllocations p) (plPending p) (plLeases p)
                  (<[a := mkAcquisition false None true]> (plAcquisitions p)) (<[a := TkCleanup key e]> (plTokens p))
                  (live p) (lost p) (plFresh p)
            | None, _ =>
                mkPool (plAvailable p) (plClosed p) (plAllocations p) (plPending p) (plLeases p)
                  (<[a := mkAcquisition false None true]> (plAcquisitions p)) (<[a := TkFinish key]> (plTokens p))
                  (live p) (lost p) (plFresh p)
            end)
  | _ => None
  end.

(** The endpoint created for a pool that closed meanwhile is closed again. *)
Definition acquireCleanup (p : Pool) (a : Z) (ok : bool) : option Pool :=
  match plTokens p !! a with
  | Some (TkCleanup key e) =>
      let p := setToken p a (TkFinish key) in
      Some (if ok then setEndpoints p (live p ∖ {[e]}) (lost p) else setEndpoints p (live p) ({[e]} ∪ lost p))
  | _ => None
  end.

(** The last section: leave [pending] and wake the waiters. *)
Definition acquireFinish (p : Pool) (a : Z) : option Pool :=
  match plTokens p !! a, plAcquisitions p !! a with
  | Some (TkFinish key), Some ac =>
      Some (mkPool (plAvailable p) (plClosed p) (plAllocations p)
              (if bool_decide (plPending p !! key = Some a) then delete key (plPending p) else plPending p)
              (plLeases p) (<[a := mkAcquisition true (acLease ac) (acFailed ac)]> (plAcquisitions p))
              (delete a (plTokens p)) (live p) (lost p) (plFresh p))
  | _, _ => None
  end.

(** ** Attachments *)

Definition leaseCurrent (p : Pool) (id : Z) : bool :=
  match plLeases p !! id with
  | Some l => negb (plClosed p) && bool_decide (plAllocations p !! lsKey l = Some id)
  | None => false
  end.

(** The endpoint [Enter], [Gateway] and [ResolverPath] use, if any.  They hold the
    mutex of the lease, so they wait while [Close] does. *)
Definition enter (p : Pool) (id : Z) : option Z :=
  match plLeases p !! id with
  | Some l => if bool_decide (lsClosing l = Open) && lsActive l && leaseCurrent p id then Some (lsEndpoint l) else None
  | None => None
  end.

(** [Acquire] finds an allocation: it is returned when it is active and current,
    otherwise closed (below), and the loop starts again. *)
Definition acquireExisting (p : Pool) (id : Z) : bool :=
  match plLeases p !! id with Some l => lsActive l && leaseCurrent p id | None => false end.

Definition withClosing (l : lease) (c : stage) : lease := mkLease (lsKey l) (lsEndpoint l) false c.

(** [attachment.Close] up to [endpoint.Close]: [true] when the endpoint is to be closed. *)
Definition leaseClose (p : Pool) (id : Z) : option (bool * Pool) :=
  match plLeases p !! id with
  | Some l =>
      if negb (bool_decide (lsClosing l = Open)) then None
      else if bool_decide (plAllocations p !! lsKey l = Some id) then Some (true, setLease p id (withClosing l Closing))
      else Some (false, setLease p id (withClosing l Open))
  | None => None
  end.

(** [endpoint.Close] returns. *)
Definition leaseClosed (p : Pool) (id : Z) (ok : bool) : option Pool :=
  match plLeases p !! id with
  | Some l =>
      if negb (bool_decide (lsClosing l = Closing)) then None
      else if ok then Some (setEndpoints (setLease p id (withClosing l Closed)) (live p ∖ {[lsEndpoint l]}) (lost p))
      else Some (setLease p id (withClosing l Open))
  | None => None
  end.

(** The last section removes exactly this allocation. *)
Definition leaseForget (p : Pool) (id : Z) : option Pool :=
  match plLeases p !! id with
  | Some l =>
      if negb (bool_decide (lsClosing l = Closed)) then None
      else
        let p := setLease p id (withClosing l Open) in
        Some (mkPool (plAvailable p) (plClosed p)
                (if bool_decide (plAllocations p !! lsKey l = Some id) then delete (lsKey l) (plAllocations p) else plAllocations p)
                (plPending p) (plLeases p) (plAcquisitions p) (plTokens p) (live p) (lost p) (plFresh p))
  | None => None
  end.

(** The first section of [Pool.Close]. *)
Definition closePool (p : Pool) : Pool :=
  mkPool (plAvailable p) true (plAllocations p) (plPending p) (plLeases p) (plAcquisitions p) (plTokens p) (live p) (lost p) (plFresh p).
(** What [Pool.Close] waits for, and what it finds after closing every lease without an error. *)
Definition drained (p : Pool) : bool := bool_decide (plPending p = ∅).
Definition emptied (p : Pool) : bool := bool_decide (plAllocations p = ∅).

(** ** Interleavings *)

Inductive pool_step : Pool → Pool → Prop :=
| po_begin p key : pool_step p (acquireBegin p key).2
| po_created p a ok p' : acquireCreated p a ok = Some p' → pool_step p p'
| po_register p a p' : acquireRegister p a = Some p' → pool_step p p'
| po_cleanup p a ok p' : acquireCleanup p a ok = Some p' → pool_step p p'
| po_finish p a p' : acquireFinish p a = Some p' → pool_step p p'
| po_close p id b p' : leaseClose p id = Some (b, p') → pool_step p p'
| po_closed p id ok p' : leaseClosed p id ok = Some p' → pool_step p p'
| po_forget p id p' : leaseForget p id = Some p' → pool_step p p'
| po_close_pool p : pool_step p (closePool p).

Inductive pool_reach : Pool → Prop :=
| pl_new available : pool_reach (newPool available)
| pl_step p p' : pool_reach p → pool_step p p' → pool_reach p'.

(** ** Ownership of endpoints *)

Inductive owner := ByLease (id : Z) | ByToken (a : Z) | ByNobody.
Definition owns (p : Pool) (o : owner) (e : Z) : Prop :=
  match o with
  | ByLease id => lsEndpoint <$> plLeases p !! id = Some e
  | ByToken a => ∃ k, plTokens p !! a = Some (TkCreated k (Some e)) ∨ plTokens p !! a = Some (TkCleanup k e)
  | ByNobody => e ∈ lost p
  end.

(** Points at which the key has no allocation yet. *)
Definition early (t : token) : bool := match t with TkFinish _ => false | _ => true end.

Record pool_inv (p : Pool) : Prop := {
  pv_alloc : ∀ key id, plAllocations p !! key = Some id →
    ∃ l, plLeases p !! id = Some l ∧ lsKey l = key ∧ (lsClosing l ≠ Closed ↔ lsEndpoint l ∈ live p);
  pv_lease : ∀ id l, plLeases p !! id = Some l → lsClosing l ≠ Open ∨ lsActive l = true →
    plAllocations p !! lsKey l = Some id ∧ (lsActive l = true → lsClosing l = Open);
  pv_token : ∀ a t, plTokens p !! a = Some t → plPending p !! tokenKey t = Some a ∧ is_Some (plAcquisitions p !! a) ∧
    (early t = true → plAllocations p !! tokenKey t = None);
  pv_pending : ∀ key a, plPending p !! key = Some a → ∃ t, plTokens p !! a = Some t ∧ tokenKey t = key;
  pv_held : ∀ a e, owns p (ByToken a) e → e ∈ live p;
  pv_live : ∀ e, e ∈ live p → ∃ o, owns p o e ∧ ∀ id l, o = ByLease id → plLeases p !! id = Some l →
    plAllocations p !! lsKey l = Some id;
  pv_apart : ∀ o o' e, owns p o e → owns p o' e → o = o';
  pv_fresh : ∀ o e, owns p o e → e < plFresh p;
  pv_ids : (∀ id, is_Some (plLeases p !! id) → id < plFresh p) ∧ (∀ a, is_Some (plTokens p !! a) → a < plFresh p);
}.

Definition tokenEndpoint (t : token) : option Z :=
  match t with TkCreated _ ep => ep | TkCleanup _ e => Some e | _ => None end.

Lemma owns_token p a e : owns p (ByToken a) e ↔ plTokens p !! a ≫= tokenEndpoint = Some e.
Proof.
  simpl. split.
  - intros [k [->| ->]]; done.
  - destruct (plTokens p !! a) as [[k|k ep|k e'|k]|]; simpl; try done; [intros ->|intros [= ->]]; eauto.
Qed.

(** Ownership depends on the leases' endpoints, the tokens' endpoints and the lost
    endpoints only. *)
Lemma owns_same p p' o e :
  (∀ id, lsEndpoint <$> plLeases p' !! id = lsEndpoint <$> plLeases p !! id) →
  (∀ a, plTokens p' !! a ≫= tokenEndpoint = plTokens p !! a ≫= tokenEndpoint) → lost p' = lost p →
  owns p' o e ↔ owns p o e.
Proof.
  intros Hl Ht Hs. destruct o as [id|a|]; [simpl; by rewrite Hl|by rewrite !owns_token, Ht|simpl; by rewrite Hs].
Qed.

Lemma insert_endpoint {A} (f : A → option Z) (m : gmap Z A) a t a' :
  m !! a ≫= f = f t → <[a := t]> m !! a' ≫= f = m !! a' ≫= f.
Proof.
  intros H. destruct (decide (a = a')) as [->|]; [by rewrite lookup_insert_eq|by rewrite lookup_insert_ne].
Qed.

Section preservation.
Variables (p : Pool).
Hypothesis Hp : pool_inv p.

Lemma fresh_token : plTokens p !! plFresh p = None.
Proof using Hp. apply eq_None_not_Some. intros H%(pv_ids _ Hp). lia. Qed.
Lemma fresh_lease : plLeases p !! plFresh p = None.
Proof using Hp. apply eq_None_not_Some. intros H%(pv_ids _ Hp). lia. Qed.

Lemma begin_inv key : pool_inv (acquireBegin p key).2.
Proof using Hp.
  unfold acquireBegin. destruct (negb _); [done|]. destruct (plClosed p); [done|].
  destruct (plAllocations p !! key) eqn:Ha; [done|]. destruct (plPending p !! key) eqn:Hpe; [done|]. simpl.
  pose proof fresh_token as Hft. set (p' := mkPool _ _ _ _ _ _ _ _ _ _).
  assert (∀ o e, owns p' o e ↔ owns p o e) as Ho.
  { intros o e. apply owns_same; [done| |done]. intros a. apply insert_endpoint. by rewrite Hft. }
  destruct Hp as [H1 H2 H3 H4 H5 H6 H7 H8 [H9 H10]]. split; simpl; auto.
  - intros a t [[<- <-]|[Hne Ht]]%lookup_insert_Some.
    + simpl. rewrite !lookup_insert_eq. eauto.
    + destruct (H3 a t Ht) as (B&C&D). rewrite !lookup_insert_ne; [done|done|]. intros E. congruence.
  - intros k a [[<- <-]|[Hne Hk]]%lookup_insert_Some; [rewrite lookup_insert_eq; eauto|].
    destruct (H4 k a Hk) as (t&Ht&E). exists t. rewrite lookup_insert_ne; [done|]. intros <-. congruence.
  - intros a e Hae. apply (H5 a e), (Ho (ByToken a) e), Hae.
  - intros e He. destruct (H6 e He) as (o&Hoe&Hc). exists o. by rewrite Ho.
  - intros o o' e. rewrite !Ho. apply H7.
  - intros o e Hoe%Ho%H8. lia.
  - split; [intros id Hid%H9; lia|]. intros a [t [[<- _]|[_ Ht]]%lookup_insert_Some]; [lia|].
    assert (is_Some (plTokens p !! a)) as Hs%H10 by eauto. lia.
Qed.

(** A token that moves on without touching what it owns or the collections. *)
Lemma token_inv a t t' acqs closed :
  plTokens p !! a = Some t → tokenKey t' = tokenKey t → tokenEndpoint t' = tokenEndpoint t → (early t' = true → early t = true) →
  (∀ a', is_Some (plAcquisitions p !! a') → is_Some (acqs !! a')) →
  pool_inv (mkPool (plAvailable p) closed (plAllocations p) (plPending p) (plLeases p) acqs
    (<[a := t']> (plTokens p)) (live p) (lost p) (plFresh p)).
Proof using Hp.
  intros Ht Hk He Hearly Hacq. set (p' := mkPool _ _ _ _ _ _ _ _ _ _).
  assert (∀ o e, owns p' o e ↔ owns p o e) as Ho.
  { intros o e. apply owns_same; [done| |done]. intros a'. apply insert_endpoint. by rewrite Ht. }
  destruct Hp as [H1 H2 H3 H4 H5 H6 H7 H8 [H9 H10]]. split; simpl; auto.
  - intros a' t1 [[<- <-]|[Hne Ht1]]%lookup_insert_Some.
    + rewrite Hk. destruct (H3 a t Ht) as (B&C&D). auto.
    + destruct (H3 a' t1 Ht1) as (B&C&D). auto.
  - intros k a' Hk'. destruct (H4 k a' Hk') as (t1&Ht1&E). destruct (decide (a = a')) as [<-|].
    + exists t'. rewrite lookup_insert_eq. simplify_eq. auto.
    + exists t1. by rewrite lookup_insert_ne.
  - intros a' e Hae. apply (H5 a' e), (Ho (ByToken a') e), Hae.
  - intros e Hl. destruct (H6 e Hl) as (o&Hoe&Hc). exists o. by rewrite Ho.
  - intros o o' e. rewrite !Ho. apply H7.
  - intros o e Hoe%Ho%H8. done.
  - split; [done|]. intros a' [t1 [[<- _]|[_ Ht1]]%lookup_insert_Some]; apply H10; eauto.
Qed.

Lemma created_inv a ok p' : acquireCreated p a ok = Some p' → pool_inv p'.
Proof using Hp.
  unfold acquireCreated. destruct (plTokens p !! a) as [[key|?|?|?]|] eqn:Ht; try done. intros [= <-]. destruct ok.
  2:{ apply (token_inv a (TkCreate key)); auto. }
  set (p' := mkPool _ _ _ _ _ _ _ _ _ _).
  assert (∀ o e, owns p' o e → owns p o e ∨ (o = ByToken a ∧ e = plFresh p)) as Ho.
  { intros [id|a'|] e; [by left| |by left]. rewrite !owns_token. simpl. destruct (decide (a = a')) as [<-|].
    - rewrite lookup_insert_eq. simpl. intros [= <-]. by right.
    - rewrite lookup_insert_ne by done. by left. }
  assert (∀ o e, owns p o e → owns p' o e) as Ho'.
  { intros [id|a'|] e; [done| |done]. rewrite !owns_token. simpl. destruct (decide (a = a')) as [<-|]; [by rewrite Ht|].
    by rewrite lookup_insert_ne. }
  destruct Hp as [H1 H2 H3 H4 H5 H6 H7 H8 [H9 H10]]. split; simpl.
  - intros k id Hk. destruct (H1 k id Hk) as (l&Hlk&?&Hl). exists l. split_and!; [done|done|]. rewrite Hl.
    assert (owns p (ByLease id) (lsEndpoint l)) as Hlt%H8 by (simpl; by rewrite Hlk). rewrite elem_of_union, elem_of_singleton. split; [auto|].
    intros [E|]; [lia|done].
  - done.
  - intros a' t [[<- <-]|[Hne Ht1]]%lookup_insert_Some; [apply (H3 a _ Ht)|by apply H3].
  - intros k a' Hk. destruct (H4 k a' Hk) as (t&Ht'&E). destruct (decide (a = a')) as [<-|].
    + exists (TkCreated key (Some (plFresh p))). rewrite lookup_insert_eq. simplify_eq. auto.
    + exists t. by rewrite lookup_insert_ne.
  - intros a' e [Hae|[_ ->]]%(Ho (ByToken a') e); [apply elem_of_union_r; by eapply (H5 a')|set_solver].
  - intros e [->%elem_of_singleton|He]%elem_of_union.
    + exists (ByToken a). split; [rewrite owns_token; simpl; by rewrite lookup_insert_eq|done].
    + destruct (H6 e He) as (o&Hoe&Hc). exists o. auto.
  - intros o o' e [Hoe|[-> ->]]%Ho [Hoe'|[-> ?]]%Ho; subst; [by eapply H7| | |done].
    + apply H8 in Hoe. lia.
    + apply H8 in Hoe'. lia.
  - intros o e [Hoe%H8|[_ ->]]%Ho; lia.
  - split; [intros id Hid%H9; lia|]. intros a' [t [[<- _]|[_ Ht1]]%lookup_insert_Some].
    + assert (is_Some (plTokens p !! a)) as Hs%H10 by eauto. lia.
    + assert (is_Some (plTokens p !! a')) as Hs%H10 by eauto. lia.
Qed.

Lemma register_inv a p' : acquireRegister p a = Some p' → pool_inv p'.
Proof using Hp.
  unfold acquireRegister. destruct (plTokens p !! a) as [[?|key ep|?|?]|] eqn:Ht; try done. intros [= <-].
  destruct ep as [e|]; [destruct (plClosed p)|].
  - apply (token_inv a (TkCreated key (Some e))); auto. intros a' Hs. destruct (decide (a = a')) as [<-|]; [rewrite lookup_insert_eq; eauto|].
    by rewrite lookup_insert_ne.
  - pose proof fresh_lease as Hfl. set (p' := mkPool _ _ _ _ _ _ _ _ _ _).
    assert (owns p (ByToken a) e) as Hae by (rewrite owns_token; by rewrite Ht).
    assert (∀ o e', owns p' o e' → ∃ o0, owns p o0 e' ∧ (o = o0 ∧ o ≠ ByToken a ∨ o0 = ByToken a ∧ o = ByLease (plFresh p))) as Ho.
    { intros [id|a'|] e' He.
      - simpl in He. destruct (decide (plFresh p = id)) as [<-|].
        + rewrite lookup_insert_eq in He. simplify_eq/=. exists (ByToken a). auto.
        + rewrite lookup_insert_ne in He by done. exists (ByLease id). auto.
      - rewrite owns_token in He. simpl in He. destruct (decide (a = a')) as [<-|]; [by rewrite lookup_insert_eq in He|].
        rewrite lookup_insert_ne in He by done. exists (ByToken a'). rewrite owns_token. split; [done|]. left. split; [done|]. congruence.
      - by exists ByNobody; auto. }
    destruct Hp as [H1 H2 H3 H4 H5 H6 H7 H8 [H9 H10]]. destruct (H3 a _ Ht) as (B&C&D). simpl in B, D. specialize (D eq_refl).
    split; simpl.
    + intros k id [[<- <-]|[Hne Hk]]%lookup_insert_Some.
      * eexists. rewrite lookup_insert_eq. split_and!; [done|done|]. split; [intros _; by eapply (H5 a)|done].
      * destruct (H1 k id Hk) as (l&Hl&?&?). exists l. rewrite lookup_insert_ne; [done|]. intros <-. congruence.
    + intros id l [[<- <-]|[Hne Hl]]%lookup_insert_Some Hc; [simpl; by rewrite lookup_insert_eq|].
      destruct (H2 id l Hl Hc) as [? ?]. rewrite lookup_insert_ne; [done|]. intros E. congruence.
    + intros a' t [[<- <-]|[Hne Ht1]]%lookup_insert_Some; [rewrite lookup_insert_eq; simpl; by eauto|].
      destruct (H3 a' t Ht1) as (B'&C'&D'). rewrite !lookup_insert_ne; [done| |done]. intros E. congruence.
    + intros k a' Hk. destruct (H4 k a' Hk) as (t&Ht'&E). destruct (decide (a = a')) as [<-|].
      * exists (TkFinish key). rewrite lookup_insert_eq. simplify_eq. auto.
      * exists t. by rewrite lookup_insert_ne.
    + intros a' e' (o0&Ho0&[[<- _]|[_ ?]])%(Ho (ByToken a') e'); [|done]. by eapply (H5 a').
    + intros e' He. destruct (H6 e' He) as (o&Hoe&Hc). destruct (decide (e' = e)) as [->|Hne].
      * exists (ByLease (plFresh p)). simpl. rewrite lookup_insert_eq. split; [done|]. intros id l [= <-].
        rewrite lookup_insert_eq. intros [= <-]. simpl. by rewrite lookup_insert_eq.
      * exists o. destruct o as [id|a'|].
        -- simpl in *. destruct (decide (plFresh p = id)) as [<-|]; [by rewrite Hfl in Hoe|]. rewrite lookup_insert_ne by done.
           split; [done|]. intros id' l [= <-]. rewrite lookup_insert_ne by done. intros Hl. specialize (Hc id l eq_refl Hl).
           rewrite lookup_insert_ne; [done|]. intros E. congruence.
        -- rewrite owns_token in *. simpl. destruct (decide (a = a')) as [<-|]; [rewrite Ht in Hoe; simplify_eq/=|].
           rewrite lookup_insert_ne by done. done.
        -- done.
    + intros o o' e' (o1&Ho1&C1)%Ho (o2&Ho2&C2)%Ho. pose proof (H7 _ _ _ Ho1 Ho2) as <-. naive_solver.
    + intros o e' (o1&Ho1%H8&_)%Ho. lia.
    + split; [intros id [l [[<- _]|[_ Hl]]%lookup_insert_Some]; [lia|]|intros a' [t [[<- _]|[_ Ht1]]%lookup_insert_Some]].
      * assert (is_Some (plLeases p !! id)) as Hs%H9 by eauto. lia.
      * assert (is_Some (plTokens p !! a)) as Hs%H10 by eauto. lia.
      * assert (is_Some (plTokens p !! a')) as Hs%H10 by eauto. lia.
  - apply (token_inv a (TkCreated key None)); auto. intros a' Hs. destruct (decide (a = a')) as [<-|]; [rewrite lookup_insert_eq; eauto|].
    by rewrite lookup_insert_ne.
Qed.

Lemma cleanup_inv a ok p' : acquireCleanup p a ok = Some p' → pool_inv p'.
Proof using Hp.
  unfold acquireCleanup. destruct (plTokens p !! a) as [[?|?|key e|?]|] eqn:Ht; try done. intros [= <-].
  assert (owns p (ByToken a) e) as Hae by (rewrite owns_token; by rewrite Ht).
  set (p' := if ok then _ else _).
  assert (plAllocations p' = plAllocations p ∧ plPending p' = plPending p ∧ plLeases p' = plLeases p ∧
    plAcquisitions p' = plAcquisitions p ∧ plTokens p' = <[a := TkFinish key]> (plTokens p) ∧ plFresh p' = plFresh p ∧
    live p ∖ {[e]} ⊆ live p' ∧ live p' ⊆ live p ∧ lost p ⊆ lost p' ∧ (∀ x, x ∈ lost p' → x ∈ lost p ∨ x = e) ∧
    (e ∈ live p' → e ∈ lost p')) as (E1&E2&E3&E4&E5&E6&E7&E8&E9&E10&E11)
    by (unfold p'; destruct ok; simpl; split_and!; try done; set_solver).
  clearbody p'.
  assert (∀ o e', owns p' o e' → owns p o e' ∧ o ≠ ByToken a ∨ o = ByNobody ∧ e' = e) as Ho.
  { intros [id|a'|] e' He.
    - left. simpl in *. rewrite E3 in He. done.
    - rewrite owns_token, E5 in He. destruct (decide (a = a')) as [<-|]; [by rewrite lookup_insert_eq in He|].
      rewrite lookup_insert_ne in He by done. left. rewrite owns_token. split; [done|congruence].
    - simpl in He. destruct (E10 e' He) as [?|?]; auto. }
  destruct Hp as [H1 H2 H3 H4 H5 H6 H7 H8 [H9 H10]].
  assert (∀ o, owns p o e → o = ByToken a) as Hown by (intros o Hoe; by eapply H7).
  split; rewrite ?E1, ?E2, ?E3, ?E4, ?E5, ?E6.
  - intros k id Hk. destruct (H1 k id Hk) as (l&Hl&?&Hin). exists l. split_and!; [done|done|]. rewrite Hin.
    split; [|apply E8]. intros Hlv. apply E7, elem_of_difference. split; [done|]. intros Heq%elem_of_singleton.
    assert (owns p (ByLease id) e) as Hx%Hown by (simpl; by rewrite Hl, <-Heq). done.
  - done.
  - intros a' t [[<- <-]|[Hne Ht1]]%lookup_insert_Some; [|by apply H3]. destruct (H3 a _ Ht) as (?&?&_). done.
  - intros k a' Hk. destruct (H4 k a' Hk) as (t&Ht'&E). destruct (decide (a = a')) as [<-|].
    + exists (TkFinish key). rewrite lookup_insert_eq. simplify_eq. auto.
    + exists t. by rewrite lookup_insert_ne.
  - intros a' e' [[Hoe Hne]|[? _]]%Ho; [|done]. apply E7, elem_of_difference. split; [by eapply (H5 a')|].
    intros ->%elem_of_singleton. by apply Hown in Hoe.
  - intros e' He. destruct (decide (e' = e)) as [->|Hne]; [exists ByNobody; split; [by apply E11|done]|].
    destruct (H6 e' (E8 _ He)) as (o&Hoe&Hc). exists o. split; [|done]. destruct o as [id|a'|]; simpl in *.
    + by rewrite E3.
    + destruct (decide (a = a')) as [<-|]; [destruct Hoe as [k [Hk|Hk]]; rewrite Ht in Hk; simplify_eq|].
      rewrite E5, lookup_insert_ne by done. done.
    + by apply E9.
  - intros o o' e' [[Ho1 N1]|[-> ->]]%Ho [[Ho2 N2]|[-> ?]]%Ho; subst; [by eapply H7|by apply Hown in Ho1|by apply Hown in Ho2|done].
  - intros o e' [[Ho1 _]|[_ ->]]%Ho; [by eapply H8|by eapply H8].
  - split; [done|]. intros a' [t [[<- _]|[_ Ht1]]%lookup_insert_Some]; apply H10; eauto.
Qed.

Lemma finish_inv a p' : acquireFinish p a = Some p' → pool_inv p'.
Proof using Hp.
  unfold acquireFinish. destruct (plTokens p !! a) as [[?|?|?|key]|] eqn:Ht; try done.
  destruct (plAcquisitions p !! a) as [ac|] eqn:Hac; [|done]. intros [= <-].
  pose proof (pv_token _ Hp a _ Ht) as (Hpe&_&_). simpl in Hpe. rewrite bool_decide_true by done. set (p' := mkPool _ _ _ _ _ _ _ _ _ _).
  assert (∀ o e, owns p' o e ↔ owns p o e) as Ho.
  { intros o e. apply owns_same; [done| |done]. intros a'. simpl. destruct (decide (a = a')) as [<-|].
    - by rewrite lookup_delete_eq, Ht.
    - by rewrite lookup_delete_ne. }
  destruct Hp as [H1 H2 H3 H4 H5 H6 H7 H8 [H9 H10]]. split; simpl; auto.
  - intros a' t [Hne Ht1]%lookup_delete_Some. destruct (H3 a' t Ht1) as (B&C&D).
    rewrite !lookup_insert_ne, lookup_delete_ne; [done| |done]. intros E. congruence.
  - intros k a' [Hne Hk]%lookup_delete_Some. destruct (H4 k a' Hk) as (t&Ht1&E). exists t. rewrite lookup_delete_ne; [done|].
    intros <-. by simplify_eq.
  - intros a' e Hae. apply (H5 a' e), (Ho (ByToken a') e), Hae.
  - intros e He. destruct (H6 e He) as (o&Hoe&Hc). exists o. by rewrite Ho.
  - intros o o' e. rewrite !Ho. apply H7.
  - intros o e Hoe%Ho%H8. done.
  - split; [done|]. intros a' [t [_ Ht1]%lookup_delete_Some]. apply H10. eauto.
Qed.

(** A lease that changes neither key nor endpoint. *)
Lemma lease_owns id l l' p' :
  plLeases p !! id = Some l → lsEndpoint l' = lsEndpoint l → plLeases p' = <[id := l']> (plLeases p) →
  plTokens p' = plTokens p → lost p' = lost p → ∀ o e, owns p' o e ↔ owns p o e.
Proof using Type.
  intros Hl He El Et Es o e. apply owns_same; [|by rewrite Et|done]. intros id'. rewrite El.
  destruct (decide (id = id')) as [<-|]; [rewrite lookup_insert_eq, Hl; simpl; by rewrite He|by rewrite lookup_insert_ne].
Qed.

(** What the lease lemmas share: everything but allocations and live endpoints. *)
Lemma lease_update id l c lv al p' :
  plLeases p !! id = Some l →
  p' = mkPool (plAvailable p) (plClosed p) al (plPending p) (<[id := withClosing l c]> (plLeases p)) (plAcquisitions p)
         (plTokens p) lv (lost p) (plFresh p) →
  (∀ k i, al !! k = Some i → plAllocations p !! k = Some i) →
  (∀ k i, al !! k = Some i → ∃ l', plLeases p' !! i = Some l' ∧ lsKey l' = k ∧ (lsClosing l' ≠ Closed ↔ lsEndpoint l' ∈ lv)) →
  (∀ i l', plLeases p' !! i = Some l' → lsClosing l' ≠ Open ∨ lsActive l' = true →
     al !! lsKey l' = Some i ∧ (lsActive l' = true → lsClosing l' = Open)) →
  (∀ e, e ∈ lv → e ∈ live p ∧ ∀ k, plAllocations p !! k = Some id → lsEndpoint l = e → al !! k = Some id) →
  (∀ e, e ∈ live p → e ≠ lsEndpoint l → e ∈ lv) →
  (∀ k i, plAllocations p !! k = Some i → i ≠ id → al !! k = Some i) →
  pool_inv p'.
Proof using Hp.
  intros Hl Ep' Hsub H1' H2' Hlv Hlv' Hkeep. subst p'. set (p' := mkPool _ _ _ _ _ _ _ _ _ _) in *.
  pose proof (lease_owns id l (withClosing l c) p' Hl eq_refl eq_refl eq_refl eq_refl) as Ho.
  assert (owns p (ByLease id) (lsEndpoint l)) as Hid by (simpl; by rewrite Hl).
  destruct Hp as [H1 H2 H3 H4 H5 H6 H7 H8 [H9 H10]]. split; [exact H1'|exact H2'|..]; simpl.
  - intros a t Ht. destruct (H3 a t Ht) as (B&C&D). split_and!; [done|done|]. intros He%D.
    destruct (al !! tokenKey t) as [i|] eqn:E; [|done]. apply Hsub in E. congruence.
  - done.
  - intros a e Hae. apply (Ho (ByToken a)) in Hae. apply Hlv'; [by eapply (H5 a)|]. intros E. rewrite E in Hae. by pose proof (H7 (ByLease id) (ByToken a) _ Hid Hae).
  - intros e He. destruct (Hlv e He) as [Hin Hk]. destruct (H6 e Hin) as (o&Hoe&Hc). exists o. split; [by apply Ho|].
    intros i l' -> Hl'. simpl in Hoe. destruct (decide (id = i)) as [<-|Hne].
    + rewrite lookup_insert_eq in Hl'. simplify_eq/=. apply Hk; [|done]. by apply (Hc id).
    + rewrite lookup_insert_ne in Hl' by done. apply Hkeep; [by apply (Hc i)|congruence].
  - intros o o' e. rewrite !Ho. apply H7.
  - intros o e Hoe%Ho%H8. done.
  - split; [|done]. intros i [l' [[<- _]|[_ Hl']]%lookup_insert_Some]; apply H9; eauto.
Qed.

Lemma stage_inv id l c :
  plLeases p !! id = Some l → lsClosing l ≠ Closed → c ≠ Closed → (c = Closing → plAllocations p !! lsKey l = Some id) →
  pool_inv (setLease p id (withClosing l c)).
Proof using Hp.
  intros Hl Hlc Hc Hcur. eapply (lease_update id l c); [done|done|..]; simpl; auto.
  - intros k i Hk. destruct (pv_alloc _ Hp k i Hk) as (l'&Hl'&Ek&Hin). destruct (decide (id = i)) as [<-|].
    + exists (withClosing l c). rewrite lookup_insert_eq. simplify_eq. split_and!; [done..|]. rewrite <- Hin. done.
    + exists l'. by rewrite lookup_insert_ne.
  - intros i l' [[<- <-]|[Hne Hl']]%lookup_insert_Some; [|by apply (pv_lease _ Hp)]. simpl. intros [Hx|?]; [|done].
    destruct c; [done| |done]. split; [by apply Hcur|done].
Qed.

Lemma close_inv id cur p' : leaseClose p id = Some (cur, p') → pool_inv p'.
Proof using Hp.
  unfold leaseClose. destruct (plLeases p !! id) as [l|] eqn:Hl; [|done]. case_bool_decide as Hst; [|done]. simpl.
  case_bool_decide as Hc; intros [= <- <-]; (apply stage_inv; [done|by rewrite Hst|done|done]).
Qed.

Lemma closed_inv id ok p' : leaseClosed p id ok = Some p' → pool_inv p'.
Proof using Hp.
  unfold leaseClosed. destruct (plLeases p !! id) as [l|] eqn:Hl; [|done]. case_bool_decide as Hst; [|done]. simpl.
  destruct ok; intros [= <-]; [|apply stage_inv; [done|by rewrite Hst|done|done]].
  destruct (pv_lease _ Hp id l Hl) as [Hcur _]; [left; by rewrite Hst|].
  assert (owns p (ByLease id) (lsEndpoint l)) as Hid by (simpl; by rewrite Hl).
  eapply (lease_update id l Closed); [done|done|..]; simpl; auto.
  - intros k i Hk. destruct (pv_alloc _ Hp k i Hk) as (l'&Hl'&Ek&Hin). destruct (decide (id = i)) as [<-|Hne].
    + exists (withClosing l Closed). rewrite lookup_insert_eq. simplify_eq. split_and!; [done..|]. split; [done|set_solver].
    + exists l'. rewrite lookup_insert_ne by done. split_and!; [done|done|]. rewrite Hin, elem_of_difference. split; [|by intros [? _]].
      intros Hlv. split; [done|]. intros E%elem_of_singleton. assert (owns p (ByLease i) (lsEndpoint l)) as Hx by (simpl; by rewrite Hl', <-E).
      pose proof (pv_apart _ Hp _ _ _ Hid Hx). congruence.
  - intros i l' [[<- <-]|[Hne Hl']]%lookup_insert_Some; [done|by apply (pv_lease _ Hp)].
  - intros e [? ?]%elem_of_difference. auto.
  - intros e He Hne. apply elem_of_difference. split; [done|by intros ?%elem_of_singleton].
Qed.

Lemma forget_inv id p' : leaseForget p id = Some p' → pool_inv p'.
Proof using Hp.
  unfold leaseForget. destruct (plLeases p !! id) as [l|] eqn:Hl; [|done]. case_bool_decide as Hst; [|done]. simpl.
  destruct (pv_lease _ Hp id l Hl) as [Hcur _]; [left; by rewrite Hst|]. rewrite bool_decide_true by done. intros [= <-].
  destruct (pv_alloc _ Hp _ _ Hcur) as (l0&Hl0&_&Hgone). simplify_eq.
  eapply (lease_update id l Open); [done|done|..]; simpl; auto.
  - intros k i [_ ?]%lookup_delete_Some. done.
  - intros k i [Hne Hk]%lookup_delete_Some. destruct (pv_alloc _ Hp k i Hk) as (l'&Hl'&Ek&Hin).
    exists l'. rewrite lookup_insert_ne; [done|]. intros <-. congruence.
  - intros i l' [[<- <-]|[Hne Hl']]%lookup_insert_Some; [intros [?|?]; done|]. intros Hc.
    destruct (pv_lease _ Hp i l' Hl' Hc) as [Ha ?]. split; [|done]. rewrite lookup_delete_ne; [done|]. intros E. congruence.
  - intros e He. split; [done|]. intros k _ <-. apply Hgone in He. done.
  - intros k i Hk Hne. rewrite lookup_delete_ne; [done|]. intros E. congruence.
Qed.

Lemma close_pool_inv : pool_inv (closePool p).
Proof using Hp. destruct Hp as [H1 H2 H3 H4 H5 H6 H7 H8 H9]. by split. Qed.

End preservation.

Lemma pool_step_inv p p' : pool_inv p → pool_step p p' → pool_inv p'.
Proof.
  intros Hp Hs. destruct Hs; eauto using begin_inv, created_inv, register_inv, cleanup_inv, finish_inv, close_inv, closed_inv, forget_inv, close_pool_inv.
Qed.

Lemma pool_reach_inv p : pool_reach p → pool_inv p.
Proof.
  induction 1 as [available|p p' _ IH Hs]; [|by eapply pool_step_inv].
  assert (∀ o e, ¬ owns (newPool available) o e) as Ho.
  { intros [id|a|] e; [|rewrite owns_token|]; simpl; [by rewrite lookup_empty|by rewrite lookup_empty|set_solver]. }
  split; simpl; try (by intros ? ? ?%lookup_empty_Some).
  - intros a e []%(Ho (ByToken a) e).
  - intros e ?%elem_of_empty. done.
  - intros o o' e []%Ho.
  - intros o e []%Ho.
  - split; intros ? [? ?%lookup_empty_Some]; done.
Qed.

(** ** [Pool.Close] without interference

    [ok] answers for each endpoint whether its [Close] succeeds. *)

Definition closeLease (p : Pool) (id : Z) (ok : bool) : option Pool :=
  '(cur, p1) ← leaseClose p id;
  if cur : bool then p2 ← leaseClosed p1 id ok; if ok then leaseForget p2 id else Some p2 else Some p1.
Fixpoint closeLeases (ok : Z → bool) (p : Pool) (ids : list Z) : option Pool :=
  match ids with
  | [] => Some p
  | id :: rest => p' ← closeLease p id (ok id); closeLeases ok p' rest
  end.
(** [None]: acquisitions are pending, [Close] waits for them. *)
Definition poolClose (ok : Z → bool) (p : Pool) : option Pool :=
  let p := closePool p in
  if drained p then closeLeases ok p (map_to_list (plAllocations p)).*2 else None.

Lemma closeLease_steps p id ok p' : closeLease p id ok = Some p' → rtc pool_step p p'.
Proof.
  unfold closeLease. destruct (leaseClose p id) as [[cur p1]|] eqn:H1; [|done]. simpl. intros H.
  apply rtc_l with p1; [by eapply po_close|]. destruct cur; [|by simplify_eq].
  destruct (leaseClosed p1 id ok) as [p2|] eqn:H2; [|done]. simpl in H. apply rtc_l with p2; [by eapply po_closed|].
  destruct ok; [by apply rtc_once, (po_forget _ id)|by simplify_eq].
Qed.

(** Closing the current lease of a key. *)
Lemma closeLease_current p id l ok :
  plLeases p !! id = Some l → lsClosing l = Open → plAllocations p !! lsKey l = Some id →
  closeLease p id ok = Some (mkPool (plAvailable p) (plClosed p)
    (if ok then delete (lsKey l) (plAllocations p) else plAllocations p) (plPending p)
    (<[id := withClosing l Open]> (plLeases p)) (plAcquisitions p) (plTokens p)
    (if ok then live p ∖ {[lsEndpoint l]} else live p) (lost p) (plFresh p)).
Proof.
  intros Hl Ho Ha. unfold closeLease, leaseClose. rewrite Hl, Ho. simpl. rewrite (bool_decide_true _ Ha). simpl.
  unfold leaseClosed. simpl. rewrite lookup_insert_eq. simpl. destruct ok; simpl.
  - unfold leaseForget. simpl. rewrite lookup_insert_eq. simpl. rewrite (bool_decide_true _ Ha).
    unfold setLease. simpl. by rewrite !insert_insert_eq.
  - unfold setLease. simpl. by rewrite !insert_insert_eq.
Qed.

Lemma closeLeases_steps ok ids p p' : closeLeases ok p ids = Some p' → rtc pool_step p p'.
Proof.
  revert p. induction ids as [|id ids IH]; intros p; simpl; [by intros [= <-]|].
  intros (p1&H1%closeLease_steps&H2)%bind_Some. etrans; eauto.
Qed.

(** The leases of distinct keys, all current and not being closed. *)
Definition closable (p : Pool) (kids : list (string * Z)) : Prop :=
  NoDup kids.*1 ∧ ∀ k id, (k, id) ∈ kids → plAllocations p !! k = Some id ∧
    ∃ l, plLeases p !! id = Some l ∧ lsKey l = k ∧ lsClosing l = Open.

Lemma closeLeases_exact ok kids p :
  closable p kids →
  ∃ p', closeLeases ok p kids.*2 = Some p' ∧ plClosed p' = plClosed p ∧ plPending p' = plPending p ∧
    ∀ k id, plAllocations p' !! k = Some id ↔ plAllocations p !! k = Some id ∧ ¬ ((k, id) ∈ kids ∧ ok id = true).
Proof.
  revert p. induction kids as [|[k id] kids IH]; intros p [Hnd Hk].
  { exists p. split_and!; [done..|]. intros k id. split; [|by intros [? _]]. intros Ha. split; [done|]. intros [?%elem_of_nil _]. done. }
  apply NoDup_cons in Hnd as [Hfr Hnd]. destruct (Hk k id) as (Ha&l&Hl&<-&Ho); [left|].
  simpl. rewrite (closeLease_current p id l (ok id)) by done. set (p1 := mkPool _ _ _ _ _ _ _ _ _ _). simpl.
  assert (∀ k' id', (k', id') ∈ kids → k' ≠ lsKey l) as Hne.
  { intros k' id' Hin ->. apply Hfr, list_elem_of_fmap. by exists (lsKey l, id'). }
  destruct (IH p1) as (p'&Hp'&Ecl&Epe&Hal).
  { split; [done|]. intros k' id' Hin. destruct (Hk k' id') as (Ha'&l'&Hl'&Ek&Ho'); [by right|]. specialize (Hne _ _ Hin). split.
    - simpl. destruct (ok id); [by rewrite lookup_delete_ne|done].
    - exists l'. simpl. rewrite lookup_insert_ne; [done|]. intros <-. congruence. }
  exists p'. split_and!; [done..|]. intros k' id'. rewrite Hal. simpl. rewrite elem_of_cons.
  clear Hal Hp' Ecl Epe IH Hk Hl p1 Hfr Hnd. destruct (ok id) eqn:Eok; [rewrite lookup_delete_Some|].
  - split.
    + intros [[Hnk Ha'] Hn]. split; [done|]. intros [[[= -> ->]|Hin] Hok]; [done|by apply Hn].
    + intros [Ha' Hn]. split; [split; [|done]|].
      * intros <-. rewrite Ha in Ha'. simplify_eq. apply Hn. auto.
      * intros [Hin Hok]. apply Hn. auto.
  - split; intros [Ha' Hn]; (split; [done|]); [intros [[[= -> ->]|Hin] Hok]; [congruence|by apply Hn]|intros [Hin Hok]; apply Hn; auto].
Qed.

Lemma pool_reach_rtc p p' : pool_reach p → rtc pool_step p p' → pool_reach p'.
Proof. intros Hp. induction 1; eauto using pl_step. Qed.

(** An endpoint in use has an owner: a current lease, unless the pool lost it. *)
Lemma live_owner p e :
  pool_inv p → plPending p = ∅ → e ∈ live p →
  e ∈ lost p ∨ ∃ key id l, plAllocations p !! key = Some id ∧ plLeases p !! id = Some l ∧ lsEndpoint l = e.
Proof.
  intros Hp Hpe He. destruct (pv_live _ Hp e He) as ([id|a|]&Ho&Hc); [| |by left].
  - simpl in Ho. destruct (plLeases p !! id) as [l|] eqn:Hl; [|done]. simplify_eq/=. right. exists (lsKey l), id, l. eauto.
  - rewrite owns_token in Ho. destruct (plTokens p !! a) as [t|] eqn:Ht; [|done].
    destruct (pv_token _ Hp a t Ht) as (Hx&_). by rewrite Hpe, lookup_empty in Hx.
Qed.

(** A closed pool without acquisitions and allocations. *)
Definition final (p : Pool) : Prop := plClosed p = true ∧ plPending p = ∅ ∧ plAllocations p = ∅.

Lemma final_step p p' : pool_inv p → final p → pool_step p p' → final p'.
Proof.
  intros Hp (Hc&Hpe&Ha) Hs.
  assert (∀ a, plTokens p !! a = None) as Ht.
  { intros a. destruct (plTokens p !! a) as [t|] eqn:E; [|done]. destruct (pv_token _ Hp a t E) as (Hx&_). by rewrite Hpe, lookup_empty in Hx. }
  assert (∀ id l, plLeases p !! id = Some l → lsClosing l = Open) as Hl.
  { intros id l Hl. destruct (lsClosing l) eqn:E; [done|..]; (destruct (pv_lease _ Hp id l Hl) as [Hx _]; [left; by rewrite E|]);
      by rewrite Ha, lookup_empty in Hx. }
  destruct Hs as [p key|p a ok p' H|p a p' H|p a ok p' H|p a p' H|p id b p' H|p id ok p' H|p id p' H|p].
  - unfold acquireBegin. rewrite Hc. by destruct (negb _).
  - unfold acquireCreated in H. by rewrite Ht in H.
  - unfold acquireRegister in H. by rewrite Ht in H.
  - unfold acquireCleanup in H. by rewrite Ht in H.
  - unfold acquireFinish in H. by rewrite Ht in H.
  - unfold leaseClose in H. destruct (plLeases p !! id) as [l|] eqn:E; [|done]. rewrite (Hl id l E), Ha, lookup_empty in H.
    simplify_eq/=. done.
  - unfold leaseClosed in H. destruct (plLeases p !! id) as [l|] eqn:E; [|done]. by rewrite (Hl id l E) in H.
  - unfold leaseForget in H. destruct (plLeases p !! id) as [l|] eqn:E; [|done]. by rewrite (Hl id l E) in H.
  - done.
Qed.

(** ** The pool as callers see it

    Which lease holds the network of a key.  Callers cause three events: a lease is handed
    out, a lease is closed, the pool is closed.  Each event has one outcome, or is not
    allowed; everything else a pool does must not be visible. *)

Record Networks := mkNetworks { attached : gmap string (Z * Z); shut : bool }.
Inductive net_event := Attached (key : string) (id e : Z) | Released (id : Z) | Shutdown.

(** A lease is handed out for a key without a network, on a network nobody uses. *)
Definition netDo (n : Networks) (ev : net_event) : option Networks :=
  match ev with
  | Attached key id e =>
      if shut n || bool_decide (is_Some (attached n !! key)) ||
         bool_decide (map_Exists (λ _ x, x.1 = id ∨ x.2 = e) (attached n)) then None
      else Some (mkNetworks (<[key := (id, e)]> (attached n)) false)
  | Released id => Some (mkNetworks (filter (λ kx, kx.2.1 ≠ id) (attached n)) (shut n))
  | Shutdown => Some (mkNetworks ∅ true)
  end.
Fixpoint netRun (n : Networks) (trace : list net_event) : option Networks :=
  match trace with [] => Some n | ev :: trace => n ← netDo n ev; netRun n trace end.

(** The steps of the pool with the events they are: the registration of the endpoint an
    acquisition created, [attachment.Close] of a lease, and [Pool.Close]. *)
Definition registers (p : Pool) (a : Z) : option net_event :=
  match plTokens p !! a with
  | Some (TkCreated key (Some e)) => if plClosed p then None else Some (Attached key (plFresh p) e)
  | _ => None
  end.
Inductive pool_event : Pool → option net_event → Pool → Prop :=
| pe_begin p key : pool_event p None (acquireBegin p key).2
| pe_created p a ok p' : acquireCreated p a ok = Some p' → pool_event p None p'
| pe_register p a p' : acquireRegister p a = Some p' → pool_event p (registers p a) p'
| pe_cleanup p a ok p' : acquireCleanup p a ok = Some p' → pool_event p None p'
| pe_finish p a p' : acquireFinish p a = Some p' → pool_event p None p'
| pe_close p id b p' : leaseClose p id = Some (b, p') → pool_event p (Some (Released id)) p'
| pe_closed p id ok p' : leaseClosed p id ok = Some p' → pool_event p None p'
| pe_forget p id p' : leaseForget p id = Some p' → pool_event p None p'
| pe_close_pool p : pool_event p (Some Shutdown) (closePool p).
Inductive pool_run : Pool → list net_event → Pool → Prop :=
| pr_nil p : pool_run p [] p
| pr_step p ev q trace p' : pool_event p ev q → pool_run q trace p' → pool_run p (option_list ev ++ trace) p'.
Lemma registers_event p a p' ev : acquireRegister p a = Some p' → registers p a = ev → pool_event p ev p'.
Proof. intros H <-. by apply pe_register. Qed.
Lemma event_step p ev p' : pool_event p ev p' → pool_step p p'.
Proof.
  destruct 1; eauto using po_begin, po_created, po_register, po_cleanup, po_finish, po_close, po_closed, po_forget, po_close_pool.
Qed.

Definition inUse (p : Pool) (id : Z) : option (Z * Z) :=
  l ← plLeases p !! id; if lsActive l && bool_decide (lsClosing l = Open) then Some (id, lsEndpoint l) else None.
Definition usable (p : Pool) : gmap string (Z * Z) := if plClosed p then ∅ else omap (inUse p) (plAllocations p).
Definition absPool (p : Pool) : Networks := mkNetworks (usable p) (plClosed p).

Lemma usable_lookup p k : plClosed p = false → usable p !! k = plAllocations p !! k ≫= inUse p.
Proof. intros E. unfold usable. rewrite E. apply lookup_omap. Qed.
Lemma usable_ext p p' :
  plClosed p' = plClosed p → (∀ k, plAllocations p' !! k ≫= inUse p' = plAllocations p !! k ≫= inUse p) → absPool p' = absPool p.
Proof.
  intros Ec H. unfold absPool, usable. rewrite Ec. destruct (plClosed p); [done|]. f_equal. apply map_eq. intros k.
  rewrite !lookup_omap. apply H.
Qed.

(** The endpoint of an inactive lease is not in use. *)
Lemma inUse_lease p p' id l' :
  plLeases p' = <[id := l']> (plLeases p) → lsActive l' = false →
  ∀ i, inUse p' i = if decide (i = id) then None else inUse p i.
Proof.
  intros El Ea i. unfold inUse. rewrite El. destruct (decide (i = id)) as [->|]; [rewrite lookup_insert_eq; simpl; by rewrite Ea|].
  by rewrite lookup_insert_ne.
Qed.
Lemma inUse_closing p id l : plLeases p !! id = Some l → lsClosing l ≠ Open → inUse p id = None.
Proof. intros Hl Hc. unfold inUse. rewrite Hl. simpl. rewrite bool_decide_false by done. by destruct (lsActive l). Qed.

(** A lease that goes inactive, its allocation kept or removed. *)
Section deactivate.
Variables (p p' : Pool) (id : Z) (l l' : lease).
Hypothesis Hp : pool_inv p.
Hypothesis Hl : plLeases p !! id = Some l.
Hypothesis El : plLeases p' = <[id := l']> (plLeases p).
Hypothesis Ea : lsActive l' = false.
Hypothesis Ec : plClosed p' = plClosed p.
Hypothesis Hal : ∀ k, plAllocations p' !! k = plAllocations p !! k ∨
  k = lsKey l ∧ plAllocations p' !! k = None ∧ plAllocations p !! k = Some id.

Lemma deactivate_unused : inUse p id = None ∨ plAllocations p !! lsKey l ≠ Some id → absPool p' = absPool p.
Proof using Hp Hl El Ea Ec Hal.
  intros Hun. pose proof (inUse_lease p p' id l' El Ea) as Hu. apply usable_ext; [done|]. intros k.
  assert (plAllocations p !! k = Some id → inUse p id = None) as Hid.
  { intros Hk. destruct Hun as [?|Hne]; [done|]. destruct (pv_alloc _ Hp k id Hk) as (l0&Hl0&<-&_). simplify_eq. }
  destruct (Hal k) as [->|(_&->&Hk)]; [|rewrite Hk; simpl; by rewrite Hid].
  destruct (plAllocations p !! k) as [i|]; [|done]. simpl. rewrite Hu. destruct (decide (i = id)) as [->|]; [by rewrite Hid|done].
Qed.

Lemma deactivate_released : (∀ k, plAllocations p' !! k = plAllocations p !! k) →
  absPool p' = mkNetworks (filter (λ kx, kx.2.1 ≠ id) (usable p)) (plClosed p).
Proof using Hp Hl El Ea Ec.
  intros Ek. pose proof (inUse_lease p p' id l' El Ea) as Hu. unfold absPool, usable. rewrite Ec.
  destruct (plClosed p); [by rewrite map_filter_empty|]. f_equal. apply map_eq. intros k. rewrite lookup_omap, Ek.
  rewrite map_lookup_filter, lookup_omap. destruct (plAllocations p !! k) as [i|]; [|done]. simpl. rewrite Hu.
  destruct (decide (i = id)) as [->|Hne].
  - destruct (inUse p id) as [[i e]|] eqn:Ei; [|done]. simpl. rewrite option_guard_False; [done|]. intros H. apply H. simpl.
    unfold inUse in Ei. rewrite Hl in Ei. simpl in Ei. destruct (_ && _); by simplify_eq.
  - destruct (inUse p i) as [[i' e]|] eqn:Ei; [|done]. simpl. rewrite option_guard_True; [done|]. simpl.
    unfold inUse in Ei. destruct (plLeases p !! i) as [l0|]; [|done]. simpl in Ei. destruct (_ && _); by simplify_eq.
Qed.
End deactivate.

Lemma register_attaches p a p' :
  pool_inv p → acquireRegister p a = Some p' → netRun (absPool p) (option_list (registers p a)) = Some (absPool p').
Proof.
  intros Hp. unfold acquireRegister, registers. destruct (plTokens p !! a) as [[?|key ep|?|?]|] eqn:Ht; try done. intros [= <-].
  destruct ep as [e|]; [|done]. destruct (plClosed p) eqn:Ec; [simpl; f_equal; symmetry; by apply usable_ext|].
  pose proof (fresh_lease p Hp) as Hfl. destruct (pv_token _ Hp a _ Ht) as (_&_&Hnone). specialize (Hnone eq_refl). simpl in Hnone.
  set (p' := mkPool _ _ _ _ _ _ _ _ _ _).
  assert (absPool p' = mkNetworks (<[key := (plFresh p, e)]> (usable p)) false) as ->.
  { unfold absPool. f_equal. apply map_eq. intros k. rewrite usable_lookup by done. simpl. destruct (decide (key = k)) as [<-|Hne].
    - rewrite !lookup_insert_eq. simpl. unfold inUse. simpl. by rewrite lookup_insert_eq.
    - rewrite !lookup_insert_ne by done. rewrite usable_lookup by done. destruct (plAllocations p !! k) as [i|] eqn:Hk; [|done]. simpl.
      unfold inUse. simpl. rewrite lookup_insert_ne; [done|]. intros <-. destruct (pv_alloc _ Hp _ _ Hk) as (?&?&_). congruence. }
  simpl. unfold netDo, absPool. simpl. rewrite Ec. simpl. rewrite (bool_decide_false (is_Some _)).
  2:{ rewrite usable_lookup, Hnone by done. by intros [??]. }
  simpl. rewrite bool_decide_false; [done|]. intros (k & [i e'] & Hk & Hor). rewrite usable_lookup in Hk by done.
  destruct (plAllocations p !! k) as [j|] eqn:Ha; [|done]. simpl in Hk. unfold inUse in Hk.
  destruct (plLeases p !! j) as [l|] eqn:Hl; [|done]. simpl in Hk. destruct (_ && _); [|done]. simplify_eq. simpl in Hor.
  destruct Hor as [-> |E]; [congruence|].
  assert (owns p (ByLease i) e) as H1 by (simpl; rewrite Hl; simpl; by rewrite E).
  assert (owns p (ByToken a) e) as H2 by (rewrite owns_token; by rewrite Ht).
  by pose proof (pv_apart _ Hp (ByLease i) (ByToken a) e H1 H2).
Qed.

Lemma event_refines p ev p' : pool_inv p → pool_event p ev p' → netRun (absPool p) (option_list ev) = Some (absPool p').
Proof.
  intros Hp Hs. destruct Hs as [p key|p a ok p' H|p a p' H|p a ok p' H|p a p' H|p id b p' H|p id ok p' H|p id p' H|p]; simpl.
  - f_equal. symmetry. unfold acquireBegin. repeat case_match; try done. by apply usable_ext.
  - f_equal. symmetry. unfold acquireCreated in H. destruct (plTokens p !! a) as [[]|]; try done. destruct ok; by simplify_eq.
  - by apply register_attaches.
  - f_equal. symmetry. unfold acquireCleanup in H. destruct (plTokens p !! a) as [[]|]; try done. destruct ok; by simplify_eq.
  - f_equal. symmetry. unfold acquireFinish in H. destruct (plTokens p !! a) as [[]|]; try done. destruct (plAcquisitions p !! a); by simplify_eq.
  - f_equal. symmetry. unfold leaseClose in H. destruct (plLeases p !! id) as [l|] eqn:Hl; [|done]. destruct (negb _); [done|].
    case_bool_decide as Hc; simplify_eq; [by apply (deactivate_released p _ id l (withClosing l Closing))|by apply (deactivate_released p _ id l (withClosing l Open))].
  - f_equal. symmetry. unfold leaseClosed in H. destruct (plLeases p !! id) as [l|] eqn:Hl; [|done]. case_bool_decide as Hst; [|done]. simpl in H.
    assert (inUse p id = None) as Hu by (apply (inUse_closing _ _ l); [done|by rewrite Hst]).
    destruct ok; simplify_eq; [apply (deactivate_unused p _ id l (withClosing l Closed))|apply (deactivate_unused p _ id l (withClosing l Open))]; eauto.
  - f_equal. symmetry. unfold leaseForget in H. destruct (plLeases p !! id) as [l|] eqn:Hl; [|done]. case_bool_decide as Hst; [|done]. simpl in H.
    assert (inUse p id = None) as Hu by (apply (inUse_closing _ _ l); [done|by rewrite Hst]).
    simplify_eq. apply (deactivate_unused p _ id l (withClosing l Open)); eauto. simpl. intros k. case_bool_decide; [|by left].
    destruct (decide (lsKey l = k)) as [<-|]; [right; by rewrite lookup_delete_eq|left; by rewrite lookup_delete_ne].
  - done.
Qed.
Lemma netRun_app n tr tr' : netRun n (tr ++ tr') = netRun n tr ≫= λ n, netRun n tr'.
Proof. revert n. induction tr as [|ev tr IH]; intros n; [done|]. simpl. destruct (netDo n ev); simpl; [apply IH|done]. Qed.
Lemma run_reach p tr p' : pool_reach p → pool_run p tr p' → pool_reach p'.
Proof. intros Hp Hr. revert Hp. induction Hr as [|p ev q tr p' He _ IH]; intros Hp; [done|]. apply IH. eapply pl_step; [done|]. by eapply event_step. Qed.

(** ** Theorems *)

(** A process enters only a namespace that exists: the endpoint [Enter] wraps a
    command with is live, the pool is open, and no other lease or acquisition uses
    that endpoint. *)
Lemma entered_endpoint_live p id e :
  pool_reach p → enter p id = Some e →
  e ∈ live p ∧ plClosed p = false ∧ ∀ o, owns p o e → o = ByLease id.
Proof.
  intros Hp%pool_reach_inv. unfold enter, leaseCurrent. destruct (plLeases p !! id) as [l|] eqn:Hl; [|done].
  case_bool_decide as Ho; [|done]. destruct (lsActive l) eqn:Hac; [|done]. simpl. destruct (plClosed p); [done|].
  case_bool_decide as Ha; [|done]. simpl. intros [= <-]. destruct (pv_alloc _ Hp _ _ Ha) as (l'&Hl'&_&Hin). simplify_eq.
  split_and!; [apply Hin; by rewrite Ho|done|]. intros o Hoe. eapply (pv_apart _ Hp); [done|]. simpl. by rewrite Hl.
Qed.

(** C16: The pool refines the directory of networks: along every interleaving of
    acquisitions, releases and [Close], the events callers cause are allowed by the
    directory and have exactly its outcomes, and nothing else is visible.  A lease is handed
    out only on an open pool, for a key without a network, under a new handle and
    on a network nobody uses; closing a lease takes away its own network and no other, however
    stale the lease is; after [Pool.Close] no key has a network.  [Enter] of a lease answers
    with the network the directory has for that lease, and [Acquire] returns an existing
    lease only when the directory has it under that key. *)
Theorem pool_refines_networks p trace p' :
  pool_reach p → pool_run p trace p' →
  netRun (absPool p) trace = Some (absPool p') ∧
  (∀ id e, enter p' id = Some e ↔ ∃ key, attached (absPool p') !! key = Some (id, e)) ∧
  (∀ key id q, acquireBegin p' key = (Existing id, q) → acquireExisting p' id = true →
    ∃ e, attached (absPool p') !! key = Some (id, e)).
Proof.
  intros Hp Hr. pose proof (pool_reach_inv _ (run_reach _ _ _ Hp Hr)) as Hp'. split_and!.
  - clear Hp'. induction Hr as [|p ev q tr p' He _ IH]; [done|]. rewrite netRun_app, (event_refines _ _ q); [|by apply pool_reach_inv|done].
    simpl. apply IH. eapply pl_step; [done|]. by eapply event_step.
  - intros id e. unfold enter, leaseCurrent. simpl. unfold usable. destruct (plClosed p') eqn:Ec.
    + setoid_rewrite lookup_empty. destruct (plLeases p' !! id); [|naive_solver]. rewrite andb_false_r. naive_solver.
    + simpl. setoid_rewrite lookup_omap. split.
      * destruct (plLeases p' !! id) as [l|] eqn:Hl; [|done]. case_bool_decide as Ho; [|done]. destruct (lsActive l) eqn:Ea; [|done].
        case_bool_decide as Ha; [|done]. intros [= <-]. exists (lsKey l). rewrite Ha. simpl. unfold inUse. rewrite Hl. simpl.
        by rewrite Ea, bool_decide_true.
      * intros (key & Hk). destruct (plAllocations p' !! key) as [i|] eqn:Ha; [|done]. simpl in Hk. unfold inUse in Hk.
        destruct (plLeases p' !! i) as [l|] eqn:Hl; [|done]. simpl in Hk. destruct (lsActive l) eqn:Ea; [|done].
        case_bool_decide as Ho; [|done]. simplify_eq/=. rewrite Hl, Ea, !bool_decide_true; [done| |done].
        by destruct (pv_alloc _ Hp' _ _ Ha) as (l0&Hl0&<-&_); simplify_eq.
  - intros key id q. unfold acquireBegin, acquireExisting, leaseCurrent. destruct (negb (plAvailable p')); [done|].
    destruct (plClosed p') eqn:Ec; [done|]. destruct (plAllocations p' !! key) as [i|] eqn:Ha; [|by case_match]. intros [= -> _].
    destruct (plLeases p' !! id) as [l|] eqn:Hl; [|done]. destruct (lsActive l) eqn:Ea; [|done]. intros _.
    destruct (pv_lease _ Hp' id l Hl) as [_ Ho]; [by right|]. exists (lsEndpoint l). simpl. rewrite usable_lookup, Ha by done. simpl.
    unfold inUse. rewrite Hl. simpl. by rewrite Ea, bool_decide_true by auto.
Qed.

(** At most one acquisition of a key runs at a time, and none creates an
    endpoint while the key has an allocation: registering it overwrites nothing. *)
Lemma acquire_single_flight p a a' t t' :
  pool_reach p → plTokens p !! a = Some t → plTokens p !! a' = Some t' → tokenKey t = tokenKey t' →
  a = a' ∧ (early t = true → plAllocations p !! tokenKey t = None).
Proof.
  intros Hp%pool_reach_inv Ht Ht' E. destruct (pv_token _ Hp a t Ht) as (H1&_&H2). destruct (pv_token _ Hp a' t' Ht') as (H1'&_).
  split; [congruence|done].
Qed.

(** [Pool.Close] releases every network: without pending acquisitions or running
    [Close] calls it returns, the allocations it leaves are exactly those whose
    endpoint refused to close (so that a second [Close] retries them), and every
    endpoint still live belongs to one of those, or was lost before. *)
Lemma pool_close_exact ok p :
  pool_reach p → plPending p = ∅ → (∀ id l, plLeases p !! id = Some l → lsClosing l = Open) →
  ∃ p', poolClose ok p = Some p' ∧ plClosed p' = true ∧
    (∀ key id, plAllocations p' !! key = Some id ↔ plAllocations p !! key = Some id ∧ ok id = false) ∧
    ∀ e, e ∈ live p' → e ∈ lost p' ∨
      ∃ key id l, plAllocations p !! key = Some id ∧ ok id = false ∧ plLeases p' !! id = Some l ∧ lsEndpoint l = e.
Proof.
  intros Hp Hpe Hopen. unfold poolClose. unfold drained. rewrite bool_decide_true by done.
  pose proof (pool_reach_inv _ Hp) as Hi.
  destruct (closeLeases_exact ok (map_to_list (plAllocations p)) (closePool p)) as (p'&Hc&Ecl&Epe&Hal).
  { split; [apply NoDup_fst_map_to_list|]. intros k id Hin%elem_of_map_to_list. split; [done|].
    destruct (pv_alloc _ Hi k id Hin) as (l&Hl&?&_). exists l. simpl. eauto. }
  exists p'. split_and!; [done..| |].
  - intros key id. rewrite Hal, elem_of_map_to_list. simpl. destruct (ok id); naive_solver.
  - intros e He. assert (pool_reach p') as Hr by eauto using pool_reach_rtc, rtc_l, po_close_pool, closeLeases_steps.
    simpl in Epe. destruct (live_owner p' e) as [?|(key&id&l&Ha&?&?)]; [by apply pool_reach_inv|congruence|done|by left|].
    right. exists key, id, l. apply Hal in Ha as [Ha Hn]. rewrite elem_of_map_to_list in Hn. simpl in *.
    split_and!; try done. destruct (ok id) eqn:E; [by destruct Hn|done].
Qed.

(** Once [Pool.Close] has drained the acquisitions and released every allocation,
    the pool never holds a network again, whatever callers still do: nothing is
    pending or allocated, and a live endpoint is one whose cleanup the backend refused. *)
Lemma closed_pool_owns_nothing p p' :
  pool_reach p → final p → rtc pool_step p p' → final p' ∧ live p' ⊆ lost p'.
Proof.
  intros Hp Hf Hs. assert (pool_reach p' ∧ final p') as [Hp' Hf'].
  { clear -Hp Hf Hs. induction Hs as [|p p1 p' H _ IH]; [done|]. apply IH; [by eapply pl_step|].
    eapply final_step; eauto using pool_reach_inv. }
  split; [done|]. intros e He. destruct Hf' as (_&Hpe&Ha).
  destruct (live_owner p' e) as [?|(key&id&l&Hx&_)]; [by apply pool_reach_inv|done|done|done|]. by rewrite Ha, lookup_empty in Hx.
Qed.

(** ** Witnesses: key "a" attached, key "b" being created *)

(** An acquisition that began as [a] and runs undisturbed. *)
Definition undisturbed (p : Pool) (a : Z) (ok : bool) : Pool :=
  default p (p1 ← acquireCreated p a ok; p2 ← acquireRegister p1 a; acquireFinish p2 a).
Lemma undisturbed_reach p a ok : pool_reach p → pool_reach (undisturbed p a ok).
Proof.
  intros Hp. unfold undisturbed. destruct (acquireCreated p a ok) as [p1|] eqn:H1; [|done]. simpl.
  destruct (acquireRegister p1 a) as [p2|] eqn:H2; [|done]. simpl. destruct (acquireFinish p2 a) as [p3|] eqn:H3; [|done].
  apply (pl_step p2), (po_finish _ a); [|done]. apply (pl_step p1), (po_register _ a); [|done].
  apply (pl_step p), (po_created _ a ok); done.
Qed.

Definition attachedPool : Pool := (acquireBegin (undisturbed (acquireBegin (newPool true) "a").2 0 true) "b").2.
Lemma attached_reach : pool_reach attachedPool.
Proof. eauto using undisturbed_reach, pl_step, pl_new, po_begin. Qed.

(** The backend refuses "b", so that nothing is pending. *)
Definition settledPool : Pool := undisturbed attachedPool 3 false.
Lemma settled_reach : pool_reach settledPool.
Proof. apply undisturbed_reach, attached_reach. Qed.
Lemma settled_open id l : plLeases settledPool !! id = Some l → lsClosing l = Open.
Proof.
  change (plLeases settledPool) with ({[2 := mkLease "a" 1 true Open]} : gmap Z lease). by intros [_ <-]%lookup_singleton_Some.
Qed.

(** An old handle of key "a" is closed after the key got a new network: the new one
    stays; closing the pool detaches it. *)
Lemma pool_refines_networks_witness :
  absPool settledPool = mkNetworks {["a" := (2, 1)]} false ∧
  ∃ p', pool_run settledPool [Released 2; Attached "a" 6 5; Released 2; Shutdown] p' ∧
    netRun (absPool settledPool) [Released 2; Attached "a" 6 5; Released 2; Shutdown] = Some (mkNetworks ∅ true).
Proof.
  split; [vm_compute; reflexivity|].
  assert (∃ p', pool_run settledPool [Released 2; Attached "a" 6 5; Released 2; Shutdown] p' ∧ absPool p' = mkNetworks ∅ true) as (p' & Hr & Hp').
  { eexists. split.
    - eapply (pr_step _ (Some (Released 2))); [eapply pe_close; vm_compute; reflexivity|].
      eapply (pr_step _ None); [eapply (pe_closed _ 2 true); vm_compute; reflexivity|].
      eapply (pr_step _ None); [eapply (pe_forget _ 2); vm_compute; reflexivity|].
      eapply (pr_step _ None); [eapply (pe_begin _ "a")|].
      eapply (pr_step _ None); [eapply (pe_created _ 4 true); vm_compute; reflexivity|].
      eapply (pr_step _ (Some (Attached "a" 6 5))); [eapply (registers_event _ 4); vm_compute; reflexivity|].
      eapply (pr_step _ (Some (Released 2))); [eapply pe_close; vm_compute; reflexivity|].
      eapply (pr_step _ (Some Shutdown)); [apply pe_close_pool|]. constructor.
    - vm_compute. reflexivity. }
  exists p'. split; [done|]. rewrite (proj1 (pool_refines_networks settledPool _ p' settled_reach Hr)), Hp'. reflexivity.
Defined.
