(* ===== verification/Shell.v ===== *)
(** * Shell: stateful shell sessions

    Models [internal/bed/manager/shell.go] and [session_settings.go].  The shell
    process and the view of the bed's files are parameters: [interp] consumes what is
    written to its standard input and answers with the bytes it writes; [unread] are
    the bytes of the pipe the reader goroutine has not yet turned into consumed lines.
    [cancel] says after how many lines the [select] sees [ctx.Done()], if ever;
    [stamp] is [time.Now().UnixNano()] of each run. *)

From S2P Require Import Prelude Lines Netip Bed Volumes PillowSpec.

Definition space : ascii := " "%char.
Definition underscore : ascii := "_"%char.

(** ** The marker *)

Definition markerOf (n : Z) : text := to_list "__hostel_end_" ++ Itoa n ++ to_list "__".
(** What [runLocked] writes: the command, and a [printf] of the marker and of the exit code. *)
Definition frame (command marker : text) : text :=
  command ++ [newline] ++ to_list "printf '%s %d\n' " ++ marker ++ to_list " " ++
  [ascii_of_N 34] ++ to_list "$?" ++ [ascii_of_N 34] ++ [newline].

Definition is_space (c : ascii) : bool := in_range 9 10 c || in_range 12 13 c || bool_decide (c = space).

Fixpoint stripPrefix (p s : text) : option text :=
  match p, s with
  | [], _ => Some s
  | a :: p', b :: s' => if bool_decide (a = b) then stripPrefix p' s' else None
  | _, [] => None
  end.
Fixpoint spanDigits (s : text) : text * text :=
  match s with
  | c :: s' => if is_digit c then let '(d, r) := spanDigits s' in (c :: d, r) else ([], s)
  | [] => ([], [])
  end.

(** [markerRe] at the head of the text: the marker, a space, digits, white space to the end. *)
Definition matchHere (marker s : text) : option text :=
  match stripPrefix marker s with
  | Some (c :: s') =>
      if bool_decide (c = space) then
        let '(d, r) := spanDigits s' in
        if negb (bool_decide (d = [])) && forallb is_space r then Some d else None
      else None
  | _ => None
  end.
(** [FindStringSubmatchIndex]: the leftmost match, as what precedes it and its digits. *)
Fixpoint findMarker (marker s : text) : option (text * text) :=
  match matchHere marker s with
  | Some d => Some ([], d)
  | None =>
      match s with
      | [] => None
      | c :: s' => match findMarker marker s' with Some (p, d) => Some (c :: p, d) | None => None end
      end
  end.
(** [fmt.Sscanf] with ["%d"] into an [int] that is zero before: a number out of range leaves it. *)
Definition scanCode (d : text) : Z :=
  match digitsValue d with Some n => if n <? 2 ^ 63 then n else 0 | None => 0 end.

(** ** The wait for the marker *)

Inductive run_end := RunExited (code : Z) | SessionDied | RunCancelled | RunWaiting.

(** The loop: how it ends, the fragments given to [onLine], the lines left in the channel. *)
Fixpoint awaitMarker (marker : text) (cancel : option nat) (eof : bool) (lines : list text)
  : run_end * list text * list text :=
  match cancel, lines with
  | Some O, _ => (RunCancelled, [], lines)
  | _, [] => (if eof then SessionDied else RunWaiting, [], [])
  | _, l :: rest =>
      match findMarker marker l with
      | Some (prefix, d) => (RunExited (scanCode d), if bool_decide (prefix = []) then [] else [prefix], rest)
      | None => let '(r, out, more) := awaitMarker marker (pred <$> cancel) eof rest in (r, l :: out, more)
      end
  end.

(** ** The match is unique *)

Lemma stripPrefix_spec p s r : stripPrefix p s = Some r ↔ s = p ++ r.
Proof.
  revert s. induction p as [|a p IH]; intros s; simpl; [naive_solver|]. destruct s as [|b s]; [naive_solver|].
  case_bool_decide as E; [subst; rewrite IH; naive_solver|naive_solver].
Qed.

Lemma spanDigits_spec d r : Forall is_digit d → (match r with c :: _ => is_digit c = false | [] => True end) → spanDigits (d ++ r) = (d, r).
Proof.
  intros Hd Hr. induction Hd as [|c d Hc Hd IH]; simpl.
  - destruct r as [|c r]; [done|]. simpl. by rewrite Hr.
  - apply Is_true_true in Hc. by rewrite Hc, IH.
Qed.

Lemma spanDigits_inv s d r : spanDigits s = (d, r) → s = d ++ r ∧ Forall is_digit d.
Proof.
  revert d r. induction s as [|c s IH]; intros d r; simpl; [by intros [= <- <-]|].
  destruct (is_digit c) eqn:E; [|by intros [= <- <-]]. destruct (spanDigits s) as [d' r'] eqn:Es. intros [= <- <-].
  destruct (IH d' r' eq_refl) as [-> Hd]. split; [done|]. constructor; [by rewrite E|done].
Qed.

(** What follows a match has no underscore. *)
Lemma matchHere_inv marker s d :
  matchHere marker s = Some d → ∃ r, s = marker ++ r ∧ underscore ∉ r.
Proof.
  unfold matchHere. destruct (stripPrefix marker s) as [[|c r]|] eqn:E; try done. apply stripPrefix_spec in E as ->.
  case_bool_decide as Hc; [|done]. subst c. destruct (spanDigits r) as [d' w] eqn:Er. apply spanDigits_inv in Er as [-> Hd].
  destruct (negb _ && forallb is_space w) eqn:Ew; [|done]. intros [= ->]. exists (space :: d ++ w). split; [done|].
  apply andb_true_iff in Ew as [_ Hw]. rewrite forallb_forall in Hw.
  rewrite not_elem_of_cons, not_elem_of_app. split_and!; [done| |].
  - intros Hin. rewrite Forall_forall in Hd. by specialize (Hd _ Hin).
  - intros Hin%list_elem_of_In. by specialize (Hw _ Hin).
Qed.

Section marker.
Variable stem : text.
Let marker : text := stem ++ [underscore].

(** The line the [printf] completes. *)
Definition trailer (d : text) : text := marker ++ [space] ++ d ++ [newline].

Lemma matchHere_trailer d : Forall is_digit d → d ≠ [] → matchHere marker (trailer d) = Some d.
Proof.
  intros Hd Hn. unfold matchHere, trailer. rewrite (proj2 (stripPrefix_spec marker _ ([space] ++ d ++ [newline]))) by done.
  simpl. rewrite spanDigits_spec by done. by rewrite bool_decide_false.
Qed.

Lemma findMarker_trailer p d : Forall is_digit d → d ≠ [] → findMarker marker (p ++ trailer d) = Some (p, d).
Proof.
  intros Hd Hn. induction p as [|c p IH].
  - simpl. pose proof (matchHere_trailer d Hd Hn) as H. destruct (trailer d) eqn:E; simpl; by rewrite H.
  - change ((c :: p) ++ trailer d) with (c :: (p ++ trailer d)). cbn [findMarker]. rewrite IH.
    destruct (matchHere marker (c :: p ++ trailer d)) as [d'|] eqn:E; [|done]. exfalso.
    apply matchHere_inv in E as (r&E&Hr). unfold trailer, marker in E. rewrite <- !(assoc_L app) in E.
    assert (underscore ∉ [space] ++ d ++ [newline]) as Ht.
    { rewrite !not_elem_of_app. split_and!; [set_solver| |set_solver]. intros Hin. rewrite Forall_forall in Hd. by specialize (Hd _ Hin). }
    pose proof (cutLast_last underscore stem r Hr) as H1.
    pose proof (cutLast_last underscore (c :: p ++ stem) _ Ht) as H2. simpl in E, H1, H2.
    rewrite <- E in H1. rewrite <- (assoc_L app) in H2. simpl in H2. rewrite H1 in H2.
    injection H2 as H2 _. apply (f_equal length) in H2. simpl in H2. rewrite length_app in H2. lia.
Qed.
End marker.

Lemma markerOf_stem n : markerOf n = (to_list "__hostel_end_" ++ Itoa n ++ [underscore]) ++ [underscore].
Proof. unfold markerOf. by rewrite <- !(assoc_L app). Qed.

(** What the shell writes when the framed command is done: the marker and the exit code. *)
Definition endLine (n : Z) (code : Z) : text := markerOf n ++ [space] ++ Itoa code ++ [newline].
(** No complete line of the output looks like the end of the run. *)
Definition quiet (n : Z) (out : text) : Prop := Forall (λ l, findMarker (markerOf n) l = None) (splitLines out).1.

Lemma markerOf_no_newline n : newline ∉ markerOf n.
Proof.
  unfold markerOf. rewrite !not_elem_of_app. split_and!; [by vm_compute; set_solver| |by vm_compute; set_solver].
  intros [H|H]%Itoa_chars; [by vm_compute in H|done].
Qed.

Lemma Itoa_code code : 0 <= code < 2 ^ 63 → Forall is_digit (Itoa code) ∧ Itoa code ≠ [] ∧ scanCode (Itoa code) = code.
Proof.
  intros Hc. destruct (Itoa_spec code Hc) as (Ha&Hd&_). unfold scanCode. destruct (Itoa code) as [|c l]; [done|].
  split_and!; [eapply Forall_impl; [exact Hd|]; by intros x ->|done|]. apply Forall_cons in Hd as [Hx _].
  destruct (digits_not_sign c Hx) as (?&?&_). unfold Atoi in Ha. rewrite !bool_decide_false in Ha by done.
  destruct (digitsValue (c :: l)) as [n|]; [|done]. destruct (_ && _) eqn:E; [|done]. simplify_eq.
  apply andb_true_iff in E as [_ E]. by rewrite E.
Qed.

Lemma endLine_found p n code :
  0 <= code < 2 ^ 63 → ∃ d, findMarker (markerOf n) (p ++ endLine n code) = Some (p, d) ∧ scanCode d = code.
Proof.
  intros Hc. destruct (Itoa_code code Hc) as (Hd&Hn&Hs). exists (Itoa code). split; [|done].
  unfold endLine. rewrite !markerOf_stem. by apply findMarker_trailer.
Qed.

(** A line completed by the marker is one line. *)
Lemma endLine_split out n code rest :
  0 <= code < 2 ^ 63 →
  splitLines (out ++ endLine n code ++ rest)
  = ((splitLines out).1 ++ ((splitLines out).2 ++ endLine n code) :: (splitLines rest).1, (splitLines rest).2).
Proof.
  intros Hc. destruct (Itoa_code code Hc) as (Hd&_&_). rewrite splitLines_app. set (r := (splitLines out).2).
  assert (newline ∉ r ++ markerOf n ++ [space] ++ Itoa code) as Hnl.
  { rewrite !not_elem_of_app. split_and!; [apply splitLines_rest|apply markerOf_no_newline|by vm_compute; set_solver|].
    intros Hin. rewrite Forall_forall in Hd. by specialize (Hd _ Hin). }
  apply splitLines_one in Hnl. rewrite <- !(assoc_L app) in Hnl.
  rewrite (assoc_L app), splitLines_app. unfold endLine. rewrite Hnl. by simpl.
Qed.

(** The loop on the lines of one framed command. *)
Lemma awaitMarker_exact n eof out code more :
  0 <= code < 2 ^ 63 → quiet n out →
  ∃ frags, awaitMarker (markerOf n) None eof ((splitLines out).1 ++ ((splitLines out).2 ++ endLine n code) :: more)
    = (RunExited code, frags, more) ∧ concat frags = out.
Proof.
  intros Hc. unfold quiet. pose proof (splitLines_concat out) as Hcat. revert Hcat.
  generalize (splitLines out).1 as ls, (splitLines out).2 as r. intros ls r <- Hq.
  induction Hq as [|l ls Hl Hq IH]; simpl.
  - destruct (endLine_found r n code Hc) as (d&->&->). eexists. split; [done|]. case_bool_decide as E; [by subst|]. simpl. by rewrite app_nil_r.
  - rewrite Hl. destruct IH as (frags&->&Hf). exists (l :: frags). split; [done|]. simpl. by rewrite Hf, (assoc_L app).
Qed.

(** ** The directory of a session *)

Definition dollar : ascii := "$"%char.
Definition dquote : ascii := ascii_of_N 34.
Definition nameByte (c : ascii) : bool := is_alnum c || bool_decide (c = underscore).
Fixpoint spanName (s : text) : text * text :=
  match s with
  | c :: s' => if nameByte c then let '(d, r) := spanName s' in (c :: d, r) else ([], s)
  | [] => ([], [])
  end.
(** [sessionVariable] *)
Definition sessionVariable (name : text) : bool :=
  match name with [] => false | c :: l => letterOr_ c && forallb (λ c, letterOr_ c || is_digit c) l end.
(** The expansion of one variable, an error when it is unset or empty. *)
Definition expansion (name : text) : text := [dquote] ++ to_list "${" ++ name ++ to_list ":?}" ++ [dquote].

(** The variable reference after a dollar: its name and the rest. *)
Definition reference (value : text) : option (text * text) :=
  match value with
  | c :: value' => if bool_decide (c = "{"%char) then cut "}"%char value' else Some (spanName value)
  | [] => Some ([], [])
  end.

Fixpoint directoryLoop (quote : text → text) (fuel : nat) (value : text) : option text :=
  match fuel, value with
  | _, [] | O, _ => Some []
  | S fuel, _ =>
      match cut dollar value with
      | None => Some (quote value)
      | Some (lit, after) =>
          match reference after with
          | None => None
          | Some (name, rest) =>
              if sessionVariable name then
                out ← directoryLoop quote fuel rest; Some (quote lit ++ expansion name ++ out)
              else None
          end
      end
  end.
Definition home : text := to_list "HOME".
(** Every round consumes a dollar: the length of the value is enough fuel. *)
Definition directoryExpression (quote : text → text) (value : text) : option text :=
  if existsb (λ c, bool_decide (c = newline) || bool_decide (c = "013"%char) || bool_decide (c = "000"%char)) value then None
  else match value with
       | c :: value' =>
           if bool_decide (c = "~"%char) && match value' with [] => true | d :: _ => bool_decide (d = "/"%char) end then
             out ← directoryLoop quote (length value') value'; Some (expansion home ++ out)
           else directoryLoop quote (length value) value
       | [] => Some []
       end.

(** [path.Join] of two elements, the second not empty. *)
Definition joinDirectory (a b : text) : text :=
  to_list (Clean (of_list (match a with [] => b | _ => a ++ ["/"%char] ++ b end))).
Definition trimNewline (s : text) : text :=
  match reverse s with c :: r => if bool_decide (c = newline) then reverse r else s | [] => s end.
(** The two lines the query prints: the current and the expanded directory. *)
Definition directoryOf (output : text) : option text :=
  match splitLines (trimNewline output) with
  | ([current], directory) =>
      if bool_decide (directory = []) then None
      else Some (if IsAbs (of_list directory) then directory else joinDirectory (trimNewline current) directory)
  | _ => None
  end.

(** ** Sessions *)

Section session.
Context {St : Type}.
(** The shell process: what it does with its input, the bytes it writes, whether it ends. *)
Variable interp : St → text → St * text * bool.
Variable stamp : nat → Z.
(** [shellx.Quote]; [ProcessView.Path] and [ProcessView.ResolveDirectory] of the isolation. *)
Variable quote : text → text.
Variables viewPath resolveDirectory : text → option text.

(** [written] lists what went to the standard input. *)
Record Shell := mkShell { proc : St; unread : text; ended : bool; dead : bool; runs : nat; written : list text }.

Inductive session_end := Ran (code : Z) | NotRun (r : run_end) | SessionDead | WriteFailed | PreparationFailed.

(** The write of a framed command; an ended process has closed the pipe. *)
Definition send (s : Shell) (input : text) : option Shell :=
  if ended s then None
  else let '(st, bytes, eof) := interp (proc s) input in
       Some (mkShell st (unread s ++ bytes) eof (dead s) (S (runs s)) (written s ++ [input])).

(** The bytes the consumed lines leave. *)
Definition consume (s : Shell) (more : list text) : Shell :=
  mkShell (proc s) (concat more ++ (if ended s then [] else (splitLines (unread s)).2)) (ended s) (dead s) (runs s) (written s).

Definition runLocked (s : Shell) (cancel : option nat) (command : text) : session_end * list text * Shell :=
  let marker := markerOf (stamp (runs s)) in
  match send s (frame command marker) with
  | None => (WriteFailed, [], s)
  | Some s1 =>
      let '(r, out, more) := awaitMarker marker cancel (ended s1) (readLines (unread s1) (ended s1)) in
      (match r with RunExited code => Ran code | _ => NotRun r end, out, consume s1 more)
  end.

(** The reader goroutine at the end of the pipe. *)
Definition noticeEnd (s : Shell) : Shell := mkShell (proc s) (unread s) (ended s) (ended s || dead s) (runs s) (written s).

Record SessionSettings := mkSettings { Directory : text; Environment : gmap string string }.

Definition exports (env : gmap string string) : text :=
  concat ((λ kv : string * string, to_list "export " ++ to_list kv.1 ++ to_list "=" ++ quote (to_list kv.2) ++ [newline]) <$> map_to_list env).
Definition directoryQuery (expression : text) : text :=
  to_list "(printf '%s\n' " ++ [dquote] ++ to_list "$PWD" ++ [dquote] ++ to_list "; printf '%s\n' " ++ expression ++ to_list ")".
Definition changeDirectory (path : text) : text := to_list "command cd -- " ++ quote path.

(** [cancels] gives the [cancel] of each run. *)
Definition prepareSessionLocked (s : Shell) (cancels : nat → option nat) (settings : SessionSettings)
  : (session_end + text) * Shell :=
  if negb (ValidateEnv (Environment settings)) then (inl PreparationFailed, s)
  else
    let '(r1, _, s1) := if bool_decide (Environment settings = ∅) then (Ran 0, [], s)
                        else runLocked s (cancels (runs s)) (exports (Environment settings)) in
    match r1 with
    | Ran code =>
        if negb (code =? 0) then (inl PreparationFailed, s1)
        else if bool_decide (Directory settings = []) then (inr [], s1)
        else match directoryExpression quote (Directory settings) with
             | None => (inl PreparationFailed, s1)
             | Some expression =>
                 let '(r2, out, s2) := runLocked s1 (cancels (runs s1)) (directoryQuery expression) in
                 match r2 with
                 | Ran code =>
                     match (if negb (code =? 0) then None else directoryOf (concat out) ≫= resolveDirectory) with
                     | Some directory => (inr directory, s2)
                     | None => (inl PreparationFailed, s2)
                     end
                 | _ => (inl r2, s2)
                 end
             end
    | _ => (inl r1, s1)
    end.

Definition runAt (s : Shell) (cancels : nat → option nat) (cwd command : text) (settings : option SessionSettings)
  : session_end * list text * Shell :=
  if dead s then (SessionDead, [], s)
  else
    let '(pre, s1) := match settings with Some st => prepareSessionLocked s cancels st | None => (inr cwd, s) end in
    match pre with
    | inl e => (e, [], s1)
    | inr [] => runLocked s1 (cancels (runs s1)) command
    | inr cwd =>
        match viewPath cwd with
        | None => (PreparationFailed, [], s1)
        | Some path =>
            let '(r, out, s2) := runLocked s1 (cancels (runs s1)) (changeDirectory path) in
            match r with
            | Ran code =>
                if negb (code =? 0) then (PreparationFailed, out, s2)
                else let '(r', out', s3) := runLocked s2 (cancels (runs s2)) command in (r', out ++ out', s3)
            | _ => (r, out, s2)
            end
        end
    end.
End session.

(** ** Outputs *)

Section outputs.
Context {St : Type}.
Variable interp : St → text → St * text * bool.
Variable stamp : nat → Z.

(** What the shell did with a list of framed commands, from its [k]-th run on: each
    wrote its output, then the [printf] the marker of its own run and its exit code. *)
Inductive behaves : St → nat → list text → list (text * Z) → St → Prop :=
| be_nil st k : behaves st k [] [] st
| be_cons st k c out code st' cs rs st'' :
    interp st (frame c (markerOf (stamp k))) = (st', out ++ endLine (stamp k) code, false) →
    0 <= code < 256 → quiet (stamp k) out →
    behaves st' (S k) cs rs st'' → behaves st k (c :: cs) ((out, code) :: rs) st''.


(** One run, with [pending] bytes an earlier run left behind. *)
Lemma run_exact s c out code st' :
  interp (proc s) (frame c (markerOf (stamp (runs s)))) = (st', out ++ endLine (stamp (runs s)) code, false) →
  0 <= code < 256 → quiet (stamp (runs s)) (unread s ++ out) → ended s = false →
  ∃ frags, runLocked interp stamp s None c
    = (Ran code, frags, mkShell st' [] false (dead s) (S (runs s)) (written s ++ [frame c (markerOf (stamp (runs s)))]))
    ∧ concat frags = unread s ++ out.
Proof.
  intros Hi Hc Hq He. unfold runLocked, send. rewrite He, Hi. simpl.
  pose proof (endLine_split (unread s ++ out) (stamp (runs s)) code [] ltac:(lia)) as Hs. rewrite app_nil_r, <- (assoc_L app) in Hs.
  destruct (awaitMarker_exact (stamp (runs s)) false (unread s ++ out) code [] ltac:(lia) Hq) as (frags&Hf&Hcat).
  exists frags. split; [|done]. unfold readLines. rewrite Hs. simpl. rewrite app_nil_r, Hf. unfold consume. simpl. by rewrite Hs.
Qed.


Lemma cancelled_run s c st' bytes :
  interp (proc s) (frame c (markerOf (stamp (runs s)))) = (st', bytes, false) → ended s = false →
  runLocked interp stamp s (Some O) c = (NotRun RunCancelled, [],
    mkShell st' (unread s ++ bytes) false (dead s) (S (runs s)) (written s ++ [frame c (markerOf (stamp (runs s)))])).
Proof.
  intros Hi He. unfold runLocked, send. rewrite He, Hi. simpl.
  assert (∀ m eof ls, awaitMarker m (Some O) eof ls = (RunCancelled, [], ls)) as -> by (by intros m eof []).
  unfold consume, readLines. simpl. pose proof (splitLines_concat (unread s ++ bytes)) as Hcat.
  destruct (splitLines (unread s ++ bytes)) as [ls r]. simpl in *. by rewrite app_nil_r, Hcat.
Qed.

(** A wait that is cancelled leaves the output where it is: the next run of the same
    shell returns it, the marker of the cancelled run included, before its own. *)
Theorem cancelled_run_leaks s c1 c2 out1 out2 code1 code2 st2 :
  behaves (proc s) (runs s) [c1; c2] [(out1, code1); (out2, code2)] st2 →
  unread s = [] → ended s = false →
  quiet (stamp (S (runs s))) ((out1 ++ endLine (stamp (runs s)) code1) ++ out2) →
  ∃ s1 frags s2, runLocked interp stamp s (Some O) c1 = (NotRun RunCancelled, [], s1) ∧
    runLocked interp stamp s1 None c2 = (Ran code2, frags, s2) ∧
    concat frags = (out1 ++ endLine (stamp (runs s)) code1) ++ out2.
Proof.
  intros Hb Hu He Hq. inversion Hb as [|? ? ? ? ? st' ? ? ? Hi Hc Hq1 Hb']; subst.
  inversion Hb' as [|? ? ? ? ? ? ? ? ? Hi2 Hc2 Hq2 Hb2]; subst. inversion Hb2; subst.
  pose proof (cancelled_run s c1 st' (out1 ++ endLine (stamp (runs s)) code1) Hi He) as Hr. rewrite Hu in Hr.
  destruct (run_exact (mkShell st' (out1 ++ endLine (stamp (runs s)) code1) false (dead s) (S (runs s))
    (written s ++ [frame c1 (markerOf (stamp (runs s)))])) c2 out2 code2 st2) as (frags&Hr2&Hcat); [by eauto..|].
  eexists _, frags, _. split_and!; [exact Hr|exact Hr2|exact Hcat].
Qed.
End outputs.

(** ** The command and its preparation *)

Section fence.
Context {St : Type}.
Variable interp : St → text → St * text * bool.
Variable stamp : nat → Z.
Variable quote : text → text.
Variables viewPath resolveDirectory : text → option text.

Abbreviation run := (runLocked interp stamp).
Abbreviation run_at := (runAt interp stamp quote viewPath resolveDirectory).

(** The inputs of the control steps. *)
Definition isControl (input : text) : Prop :=
  ∃ m, (∃ env, input = frame (exports quote env) m) ∨ (∃ e, input = frame (directoryQuery e) m) ∨
       (∃ p, input = frame (changeDirectory quote p) m).

(** A run writes its framed command once, unless the shell has ended. *)
Lemma run_written s cancel c r out s' :
  run s cancel c = (r, out, s') →
  (r = WriteFailed ∧ s' = s) ∨ (r ≠ PreparationFailed ∧ written s' = written s ++ [frame c (markerOf (stamp (runs s)))]).
Proof.
  unfold runLocked, send. destruct (ended s); [intros [= <- <- <-]; auto|].
  destruct (interp _ _) as [[st b] eof]. simpl. destruct (awaitMarker _ _ _ _) as [[e o] more]. intros [= <- <- <-].
  right. split; [by destruct e|done].
Qed.

(** What preparation leaves: control inputs only. *)
Definition prepared (s s' : Shell (St := St)) : Prop := ∃ ctl, Forall isControl ctl ∧ written s' = written s ++ ctl.

Lemma prepared_refl s : prepared s s.
Proof. exists []. by rewrite app_nil_r. Qed.
Lemma prepared_trans s1 s2 s3 : prepared s1 s2 → prepared s2 s3 → prepared s1 s3.
Proof. intros (c1&?&E1) (c2&?&E2). exists (c1 ++ c2). rewrite Forall_app, E2, E1, (assoc_L app). done. Qed.
Lemma run_prepared s cancel c r out s' :
  run s cancel c = (r, out, s') → (∀ m, isControl (frame c m)) → prepared s s'.
Proof.
  intros [[_ ->]|[_ E]]%run_written Hc; [apply prepared_refl|]. eexists. split; [|exact E]. by constructor.
Qed.

Lemma prepareSession_written s cancels settings pre s' :
  prepareSessionLocked interp stamp quote resolveDirectory s cancels settings = (pre, s') → prepared s s'.
Proof.
  unfold prepareSessionLocked. destruct (negb _); [intros [= _ <-]; apply prepared_refl|].
  destruct (if bool_decide (Environment settings = ∅) then _ else _) as [[r1 o1] s1] eqn:E1.
  assert (prepared s s1) as H1.
  { case_bool_decide; [simplify_eq; apply prepared_refl|]. eapply run_prepared; [exact E1|]. intros m. exists m. eauto. }
  destruct r1 as [code|?| | |]; try (by intros [= _ <-]). destruct (negb (code =? 0)); [by intros [= _ <-]|].
  destruct (bool_decide (Directory settings = [])); [by intros [= _ <-]|]. destruct (directoryExpression _ _) as [e|]; [|by intros [= _ <-]].
  destruct (run s1 _ _) as [[r2 o2] s2] eqn:E2. intros H. assert (s' = s2) as -> by (repeat case_match; congruence).
  eapply prepared_trans; [exact H1|]. eapply run_prepared; [exact E2|]. intros m. exists m. eauto.
Qed.

(** The command is the last input and was not written when its preparation failed. *)
Definition commandFenced (command : text) (s : Shell (St := St)) (r : session_end) (s' : Shell (St := St)) : Prop :=
  ∃ ctl cmd, Forall isControl ctl ∧ written s' = written s ++ ctl ++ cmd ∧
    (cmd = [] ∨ ∃ k, cmd = [frame command (markerOf (stamp k))]) ∧
    (r = PreparationFailed ∨ r = SessionDead → cmd = []).

Lemma fenced_none command s s' r : prepared s s' → commandFenced command s r s'.
Proof. intros (ctl&Hctl&E). exists ctl, []. rewrite app_nil_r. split_and!; auto. Qed.
Lemma fenced_run command s s1 cancel r out s' : prepared s s1 → run s1 cancel command = (r, out, s') → commandFenced command s r s'.
Proof.
  intros Hp Hr. destruct (run_written _ _ _ _ _ _ Hr) as [[-> ->]|[Hn E']]; [by apply fenced_none|].
  destruct Hp as (ctl&Hctl&E). exists ctl, [frame command (markerOf (stamp (runs s1)))]. rewrite E', E, (assoc_L app).
  split_and!; eauto. intros [?| ->]; [done|]. exfalso. unfold runLocked in Hr. destruct (send _ _ _); [|done].
  destruct (awaitMarker _ _ _ _) as [[e o] more]. by destruct e.
Qed.

(** A command never runs in a session whose preparation failed: besides control
    inputs (exported variables, the query of the directory, the change of directory)
    [runAt] writes at most the framed command, as the last input; when it reports a
    failed preparation, or a dead session, the command was not written. *)
Lemma session_command_fenced s cancels cwd command settings r out s' :
  run_at s cancels cwd command settings = (r, out, s') → commandFenced command s r s'.
Proof.
  unfold runAt. destruct (dead s); [intros [= <- <- <-]; apply fenced_none, prepared_refl|].
  destruct (match settings with Some _ => _ | None => _ end) as [pre s1] eqn:Ep.
  assert (prepared s s1) as H1.
  { destruct settings; [by eapply prepareSession_written|simplify_eq; apply prepared_refl]. }
  destruct pre as [e|[|x cwd']]; [intros [= <- <- <-]; by apply fenced_none|intros Hr; by eapply fenced_run|].
  destruct (viewPath _) as [path|]; [|intros [= <- <- <-]; by apply fenced_none].
  destruct (run s1 _ _) as [[r2 o2] s2] eqn:E2.
  assert (prepared s s2) as H2.
  { eapply prepared_trans; [exact H1|]. eapply run_prepared; [exact E2|]. intros m. exists m. eauto. }
  destruct r2 as [code|?| | |]; try (intros [= <- <- <-]; by apply fenced_none).
  destruct (negb (code =? 0)); [intros [= <- <- <-]; by apply fenced_none|].
  destruct (run s2 _ _) as [[r3 o3] s3] eqn:E3. intros [= <- <- <-]. by eapply fenced_run.
Qed.
End fence.

(** ** What a directory expression means

    [evalWord] evaluates one word of shell input that consists of quoted text, escaped
    or safe bytes and ["${NAME:?}"]; it is undefined on everything else a shell would
    interpret: substitutions, operators, globs, unquoted variables. *)

Definition squote : ascii := "'"%char.
Definition backslash : ascii := "\"%char.
Definition safeByte (c : ascii) : bool := is_alnum c || bool_decide (c ∈ to_list "_/.:@%+,-").

Definition nonempty (v : option text) : option text := match v with Some [] => None | _ => v end.
Definition evalQuoted (env : text → option text) (body : text) : option text :=
  match stripPrefix (to_list "${") body with
  | Some b =>
      match cut ":"%char b with
      | Some (name, tail) => if sessionVariable name && bool_decide (tail = to_list "?}") then nonempty (env name) else None
      | None => None
      end
  | None => if existsb (λ c, bool_decide (c ∈ to_list "$`\")) body then None else Some body
  end.

Fixpoint evalFuel (env : text → option text) (fuel : nat) (w : text) : option text :=
  match w, fuel with
  | [], _ => Some []
  | _, O => None
  | c :: w', S fuel =>
      if bool_decide (c = squote) then
        match cut squote w' with Some (lit, rest) => app lit <$> evalFuel env fuel rest | None => None end
      else if bool_decide (c = dquote) then
        match cut dquote w' with
        | Some (body, rest) => v ← evalQuoted env body; app v <$> evalFuel env fuel rest
        | None => None
        end
      else if bool_decide (c = backslash) then
        match w' with d :: rest => if bool_decide (d = newline) then None else cons d <$> evalFuel env fuel rest | [] => None end
      else if safeByte c then cons c <$> evalFuel env fuel w'
      else None
  end.
Definition evalWord (env : text → option text) (w : text) : option text := evalFuel env (length w) w.

(** The intended meaning of a directory: bytes stand for themselves, [$NAME] and
    [${NAME}] for the value of the variable, which must not be empty. *)
Inductive expands (env : text → option text) : text → text → Prop :=
| ex_nil : expands env [] []
| ex_byte c s r : c ≠ dollar → expands env s r → expands env (c :: s) (c :: r)
| ex_brace name s v r :
    sessionVariable name = true → nonempty (env name) = Some v → expands env s r →
    expands env (dollar :: "{"%char :: name ++ "}"%char :: s) (v ++ r)
| ex_bare name s v r :
    sessionVariable name = true → (match s with c :: _ => nameByte c = false | [] => True end) →
    nonempty (env name) = Some v → expands env s r → expands env (dollar :: name ++ s) (v ++ r).

Definition tilde (value : text) : option text :=
  match value with
  | c :: rest => if bool_decide (c = "~"%char) && match rest with [] => true | d :: _ => bool_decide (d = "/"%char) end
                 then Some rest else None
  | [] => None
  end.
Definition means (env : text → option text) (value r : text) : Prop :=
  match tilde value with
  | Some rest => ∃ h r', nonempty (env home) = Some h ∧ expands env rest r' ∧ r = h ++ r'
  | None => expands env value r
  end.

Lemma cut_Some a s x y : cut a s = Some (x, y) → s = x ++ a :: y ∧ a ∉ x.
Proof.
  revert x. induction s as [|c s IH]; intros x; simpl; [done|]. case_bool_decide as E.
  - intros [= <- <-]. subst. split; [done|apply not_elem_of_nil].
  - destruct (cut a s) as [[x' y']|]; [|done]. intros [= <- <-]. destruct (IH x' eq_refl) as [-> Hx]. split; [done|].
    rewrite not_elem_of_cons. auto.
Qed.
Lemma cut_None a s : cut a s = None → a ∉ s.
Proof.
  induction s as [|c s IH]; simpl; [intros; apply not_elem_of_nil|]. case_bool_decide as E; [done|].
  destruct (cut a s) as [[x' y']|]; [done|]. intros _. rewrite not_elem_of_cons. auto.
Qed.

(** Enough fuel is the length. *)
Lemma evalFuel_enough env f w : (length w <= f)%nat → evalFuel env f w = evalWord env w.
Proof.
  unfold evalWord. remember (length w) as n eqn:En. intros Hf.
  assert (∀ n f w, (length w <= n)%nat → (length w <= f)%nat → evalFuel env f w = evalFuel env n w) as H; [|by apply H; lia].
  clear. induction n as [|n IH]; intros f w Hn Hf; [destruct w; simpl in *; [by destruct f|lia]|].
  destruct w as [|c w]; [by destruct f|]. simpl in *. destruct f as [|f]; [lia|]. simpl.
  assert (∀ x a y, cut a w = Some (x, y) → evalFuel env f y = evalFuel env n y) as Hcut.
  { intros x a y [-> _]%cut_Some. rewrite length_app in *. simpl in *. apply IH; lia. }
  case_bool_decide; [destruct (cut squote w) as [[x y]|] eqn:E; [by erewrite Hcut|done]|].
  case_bool_decide; [destruct (cut dquote w) as [[x y]|] eqn:E; [by erewrite Hcut|done]|].
  case_bool_decide; [destruct w as [|d w]; [done|]; simpl in *; rewrite (IH f w); [done|lia|lia]|].
  rewrite (IH f w); [done|lia|lia].
Qed.

Lemma sessionVariable_bytes name : sessionVariable name = true → name ≠ [] ∧ Forall (λ c, nameByte c = true) name.
Proof.
  destruct name as [|c name]; [done|]. simpl. intros [Hc Hn]%andb_true_iff. split; [done|].
  assert (∀ c, letterOr_ c || is_digit c = true → nameByte c = true) as H.
  { intros x. unfold letterOr_, nameByte, is_alnum, underscore. destruct (is_digit x), (is_upper x), (is_lower x); simpl; try done; case_bool_decide; done. }
  constructor; [apply H; by rewrite Hc|]. rewrite forallb_forall in Hn. apply Forall_forall. intros x Hx%list_elem_of_In. auto.
Qed.
Lemma not_in_name c name : sessionVariable name = true → nameByte c = false → c ∉ name.
Proof. intros [_ H]%sessionVariable_bytes Hc Hin. rewrite Forall_forall in H. apply H in Hin. congruence. Qed.

Lemma evalWord_expansion env name t :
  sessionVariable name = true →
  evalWord env (expansion name ++ t) = v ← nonempty (env name); app v <$> evalWord env t.
Proof.
  intros Hn. unfold evalWord at 1, expansion. rewrite <- !(assoc_L app).
  set (body := to_list "${" ++ name ++ to_list ":?}").
  replace ([dquote] ++ to_list "${" ++ name ++ to_list ":?}" ++ [dquote] ++ t) with (dquote :: (body ++ dquote :: t))
    by (unfold body; by rewrite <- !(assoc_L app)).
  cbn [evalFuel length]. rewrite bool_decide_false, bool_decide_true by done.
  rewrite cut_first.
  2:{ unfold body. rewrite !not_elem_of_app. split_and!; [by vm_compute; set_solver|by apply (not_in_name _ _ Hn)|by vm_compute; set_solver]. }
  assert (evalQuoted env body = nonempty (env name)) as ->.
  { unfold evalQuoted, body. rewrite (proj2 (stripPrefix_spec _ _ (name ++ to_list ":?}"))) by done.
    change (to_list ":?}") with (":"%char :: to_list "?}"). rewrite cut_first by (by apply (not_in_name _ _ Hn)).
    by rewrite Hn, bool_decide_true. }
  rewrite evalFuel_enough; [done|]. rewrite length_app. simpl. lia.
Qed.

Lemma expands_literal env lit s r :
  dollar ∉ lit → expands env (lit ++ s) r ↔ ∃ r', r = lit ++ r' ∧ expands env s r'.
Proof.
  revert r. induction lit as [|c lit IH]; intros r Hd; simpl; [naive_solver|].
  rewrite not_elem_of_cons in Hd. destruct Hd as [Hc Hd]. split.
  - intros H. inversion H; subst; try done. destruct (IH r0) as [IH' _]; [done|]. destruct IH' as (r'&->&?); [done|]. eauto.
  - intros (r'&->&H). simpl. constructor; [done|]. apply IH; eauto.
Qed.

Lemma spanName_spec s : ∃ d r, spanName s = (d, r) ∧ s = d ++ r ∧ Forall (λ c, nameByte c = true) d ∧
  match r with c :: _ => nameByte c = false | [] => True end.
Proof.
  induction s as [|c s (d&r&E&->&Hd&Hr)]; simpl; [by exists [], []|]. destruct (nameByte c) eqn:Ec.
  - rewrite E. exists (c :: d), r. auto.
  - exists [], (c :: d ++ r). auto.
Qed.
(** The longest name is determined. *)
Lemma name_unique d d' r r' :
  Forall (λ c, nameByte c = true) d → Forall (λ c, nameByte c = true) d' →
  (match r with c :: _ => nameByte c = false | [] => True end) → (match r' with c :: _ => nameByte c = false | [] => True end) →
  d ++ r = d' ++ r' → d = d' ∧ r = r'.
Proof.
  intros Hd. revert d'. induction Hd as [|c d Hc Hd IH]; intros d' Hd' Hr Hr' E.
  - destruct Hd' as [|c' d' Hc' Hd']; [done|]. simpl in E. subst r. congruence.
  - destruct Hd' as [|c' d' Hc' Hd']; simpl in E; [subst r'; congruence|]. injection E as -> E.
    by destruct (IH d' Hd' Hr Hr' E) as [-> ->].
Qed.

(** A reference is read the way [expands] reads it. *)
Lemma reference_expands env after name rest r :
  reference after = Some (name, rest) → sessionVariable name = true →
  expands env (dollar :: after) r ↔ ∃ v r', nonempty (env name) = Some v ∧ expands env rest r' ∧ r = v ++ r'.
Proof.
  unfold reference. intros Hr Hn. destruct (sessionVariable_bytes _ Hn) as [Hne Hb].
  destruct after as [|c after]; [by simplify_eq|]. case_bool_decide as Hc.
  - subst c. apply cut_Some in Hr as [-> Hnb]. split.
    + intros H. inversion H as [| |name' s v r' Hn' Hv Hs E|name' s v r' Hn' Hs Hv He E]; subst; [done| |].
      * pose proof (cut_first "}"%char name' s ltac:(by apply (not_in_name _ _ Hn'))) as H1. rewrite E in H1.
        rewrite cut_first in H1 by done. simplify_eq. eauto.
      * destruct name' as [|c' name']; [done|]. simpl in E. injection E as -> _. by apply sessionVariable_bytes in Hn' as [_ ?%Forall_inv].
    + intros (v&r'&Hv&He&->). by constructor.
  - destruct (spanName_spec (c :: after)) as (d&r0&Es&Ea&Hd&Hr0). rewrite Es in Hr. simplify_eq. rewrite Ea. split.
    + intros H. inversion H as [| |name' s v r' Hn' Hv Hs E|name' s v r' Hn' Hs Hv He E]; subst; [done| |].
      * exfalso. rewrite <- E in Ea. by injection Ea.
      * apply name_unique in E as [-> ->]; [eauto|by apply sessionVariable_bytes|done..].
    + intros (v&r'&Hv&He&->). by constructor.
Qed.

Lemma reference_complete env after r :
  expands env (dollar :: after) r → ∃ name rest r', reference after = Some (name, rest) ∧ sessionVariable name = true ∧
    (length rest <= length after)%nat ∧ expands env rest r'.
Proof.
  intros H. inversion H as [| |name s v r' Hn Hv Hs E|name s v r' Hn Hs Hv He E]; subst; [done| |].
  - exists name, s, r'. unfold reference. rewrite bool_decide_true by done. rewrite cut_first by (by apply (not_in_name _ _ Hn)).
    split_and!; [done|done| |done]. simpl. rewrite length_app. simpl. lia.
  - exists name, s, r'. destruct (sessionVariable_bytes _ Hn) as [Hne Hb]. destruct (spanName_spec (name ++ s)) as (d&r0&Es&Ea&Hd&Hr0).
    apply name_unique in Ea as [<- <-]; [|done..]. unfold reference. destruct name as [|c name]; [done|].
    apply Forall_cons in Hb as [Hc _]. cbn [app] in *. rewrite bool_decide_false by (by intros ->). rewrite Es.
    split_and!; [done|done| |done]. simpl. rewrite length_app. lia.
Qed.

Section directory.
Variable quote : text → text.
(** [shellx.Quote]: the quoted text is one piece of a word that stands for the text. *)
Hypothesis quote_literal : ∀ env s t, evalWord env (quote s ++ t) = app s <$> evalWord env t.

Lemma directoryLoop_means env fuel value w r :
  (length value <= fuel)%nat → directoryLoop quote fuel value = Some w → evalWord env w = Some r ↔ expands env value r.
Proof using quote_literal.
  revert value w r. induction fuel as [|fuel IH]; intros value w r Hf.
  { destruct value; [|simpl in Hf; lia]. simpl. intros [= <-]. split; [intros [= <-]; constructor|by inversion 1]. }
  destruct value as [|c0 value0]; [simpl; intros [= <-]; split; [intros [= <-]; constructor|by inversion 1]|].
  remember (c0 :: value0) as value eqn:Ev. assert (directoryLoop quote (S fuel) value = match cut dollar value with
      | None => Some (quote value)
      | Some (lit, after) => match reference after with
        | None => None
        | Some (name, rest) => if sessionVariable name then
            out ← directoryLoop quote fuel rest; Some (quote lit ++ expansion name ++ out) else None end end) as -> by (by subst).
  destruct (cut dollar value) as [[lit after]|] eqn:Ec.
  - apply cut_Some in Ec as [E Hl]. destruct (reference after) as [[name rest]|] eqn:Er; [|done].
    destruct (sessionVariable name) eqn:Hn; [|done]. intros (out&Ho&Hw)%bind_Some. apply (inj Some) in Hw. subst w.
    assert (length rest < length value)%nat as Hlen.
    { rewrite E, length_app. simpl. unfold reference in Er. destruct after as [|c after]; [by simplify_eq|]. simpl. case_bool_decide.
      - apply cut_Some in Er as [-> _]. rewrite length_app. simpl. lia.
      - destruct (spanName_spec (c :: after)) as (d&r0&Es&Ea&_). rewrite Es in Er. simplify_eq.
        apply (f_equal length) in Ea. rewrite length_app in Ea. simpl in Ea. lia. }
    rewrite quote_literal, evalWord_expansion by done. rewrite E, expands_literal by done.
    setoid_rewrite (reference_expands env after name rest); [|done|done].
    pose proof (λ r, IH rest out r ltac:(lia) Ho) as Hr. clear -Hr. split.
    + destruct (nonempty (env name)) as [v|]; [|done]. simpl. destruct (evalWord env out) as [x|]; [|done]. simpl. intros [= <-].
      exists (v ++ x). split; [done|]. exists v, x. split_and!; [done|by apply Hr|done].
    + intros (r1&->&v&r2&->&Hx%Hr&->). simpl. by rewrite Hx.
  - intros [= <-]. apply cut_None in Ec. rewrite <- (app_nil_r (quote value)), quote_literal. simpl.
    rewrite <- (app_nil_r value) at 2. rewrite expands_literal by done. split.
    + intros [= <-]. exists []. split; [done|constructor].
    + intros (r'&->&Hx). by inversion Hx.
Qed.

(** Nothing with a meaning is refused. *)
Lemma directoryLoop_complete env fuel value r :
  (length value <= fuel)%nat → expands env value r → directoryLoop quote fuel value ≠ None.
Proof using Type.
  revert value r. induction fuel as [|fuel IH]; intros value r Hf He; [by destruct value|].
  destruct value as [|c0 value0]; [done|]. cbn [directoryLoop].
  destruct (cut dollar (c0 :: value0)) as [[lit after]|] eqn:Ec; [|done]. apply cut_Some in Ec as [E Hl].
  rewrite E in He, Hf. apply expands_literal in He as (r1&->&He); [|done].
  destruct (reference_complete _ _ _ He) as (name&rest&r2&Er&Hn&Hlen&Hx). rewrite Er, Hn.
  rewrite length_app in Hf. simpl in Hf. specialize (IH rest r2 ltac:(lia) Hx). by destruct (directoryLoop quote fuel rest).
Qed.

(** C23: the directory of a session is inert: the expression given to the shell is one
    word of quoted text and variable references, and evaluating it gives exactly the
    directory with its variables and a leading tilde expanded, whatever the values
    contain; only directories with a control character or without a meaning are refused. *)
Theorem directory_expression_inert value :
  match directoryExpression quote value with
  | Some w => ∀ env r, evalWord env w = Some r ↔ means env value r
  | None => (∃ c, c ∈ value ∧ c ∈ [newline; "013"%char; "000"%char]) ∨ ∀ env r, ¬ means env value r
  end.
Proof using quote_literal.
  unfold directoryExpression, means, tilde. destruct (existsb _ value) eqn:Ee.
  { left. apply existsb_exists in Ee as (c&Hin%list_elem_of_In&Hc). exists c. split; [done|].
    apply orb_true_iff in Hc as [[Hc|Hc]%orb_true_iff|Hc]; apply bool_decide_eq_true in Hc; subst; set_solver. }
  destruct value as [|c value]; [intros env r; split; [intros [= <-]; constructor|by inversion 1]|].
  destruct (bool_decide (c = "~"%char) && _) eqn:Et.
  - destruct (directoryLoop quote (length value) value) as [out|] eqn:Eo; cbn [mbind option_bind].
    + intros env r. rewrite evalWord_expansion by done. pose proof (λ r, directoryLoop_means env _ _ _ r (le_n _) Eo) as Hr. split.
      * destruct (nonempty (env home)) as [h|]; [|done]. simpl. destruct (evalWord env out) as [x|]; [|done]. intros [= <-].
        exists h, x. split_and!; [done|by apply Hr|done].
      * intros (h&r'&->&Hx%Hr&->). simpl. by rewrite Hx.
    + right. intros env r (h&r'&_&Hx&_). by apply (directoryLoop_complete env (length value) value r').
  - destruct (directoryLoop quote (length (c :: value)) (c :: value)) as [out|] eqn:Eo.
    + intros env r. by apply (directoryLoop_means env (length (c :: value))).
    + right. intros env r Hx. by apply (directoryLoop_complete env (length (c :: value)) (c :: value) r).
Qed.
End directory.

(** The usual quoting, for the witness: single quotes, a quote as ['\'']. *)
Fixpoint quoteBody (s : text) : text :=
  match s with
  | [] => []
  | c :: s => (if bool_decide (c = squote) then [squote; backslash; squote; squote] else [c]) ++ quoteBody s
  end.
Definition singleQuoted (s : text) : text := [squote] ++ quoteBody s ++ [squote].

Lemma quoteBody_cut s :
  match cut squote s with
  | Some (x, y) => quoteBody s = x ++ [squote; backslash; squote; squote] ++ quoteBody y
  | None => quoteBody s = s
  end.
Proof.
  induction s as [|c s IH]; [done|]. cbn [cut quoteBody]. case_bool_decide as E; [subst; by destruct (cut squote s)|].
  destruct (cut squote s) as [[x y]|]; cbn [app]; by rewrite IH.
Qed.

Lemma evalWord_cons_single env x t : squote ∉ x → evalWord env (squote :: x ++ squote :: t) = app x <$> evalWord env t.
Proof.
  intros Hx. unfold evalWord at 1. cbn [length evalFuel]. rewrite bool_decide_true by done. rewrite cut_first by done.
  rewrite evalFuel_enough; [done|]. rewrite length_app. simpl. lia.
Qed.
Lemma evalWord_escaped env t : evalWord env (backslash :: squote :: t) = cons squote <$> evalWord env t.
Proof.
  change (cons squote <$> evalFuel env (S (length t)) t = cons squote <$> evalWord env t). by rewrite evalFuel_enough by lia.
Qed.

Lemma singleQuoted_literal env s t : evalWord env (singleQuoted s ++ t) = app s <$> evalWord env t.
Proof.
  unfold singleQuoted. remember (length s) as n eqn:En. assert (length s <= n)%nat as Hn by lia. clear En.
  revert s Hn. induction n as [|n IH]; intros s Hn; pose proof (quoteBody_cut s) as Hb; destruct (cut squote s) as [[x y]|] eqn:Ec.
  1: by apply cut_Some in Ec as [-> _]; rewrite length_app in Hn; simpl in Hn; lia.
  2: apply cut_Some in Ec as [-> Hx].
  all: rewrite Hb; rewrite <- !(assoc_L app); cbn [app].
  2: rewrite evalWord_cons_single by done; rewrite evalWord_escaped; change (squote :: quoteBody y ++ squote :: t) with ([squote] ++ quoteBody y ++ [squote] ++ t) in *.
  2: rewrite length_app in Hn; simpl in Hn; specialize (IH y ltac:(lia)); rewrite <- !(assoc_L app) in IH; cbn [app] in *; rewrite IH.
  2: destruct (evalWord env t); [|done]; simpl; by rewrite <- (assoc_L app).
  all: apply cut_None in Ec; by apply evalWord_cons_single.
Qed.

(** ** The shells of a bed *)

Module Registry.

(** [running]: the reader has not yet seen the end of the pipe ([Dead] is false);
    [starting]: started by a call that has not reached its last section;
    [closing]: removed, to be closed by the caller. *)
Record Shells := mkShells {
  shells : gmap string Z; running : gset Z; starting : gset Z; closing : gset Z; freshShell : Z }.

Definition foregroundShellID : string := "session-foreground".
Definition Dead (b : Shells) (sh : Z) : bool := bool_decide (sh ∉ running b).

Definition GetShell (b : Shells) (id : string) : option Z :=
  match shells b !! id with Some sh => if Dead b sh then None else Some sh | None => None end.

(** [startShell] returns a shell. *)
Definition startShell (b : Shells) : Z * Shells :=
  let sh := freshShell b in
  (sh, mkShells (shells b) ({[sh]} ∪ running b) ({[sh]} ∪ starting b) (closing b) (sh + 1)).

(** The last section of [CreatePillowShell], under a random identifier. *)
Definition register (b : Shells) (id : string) (sh : Z) : Shells :=
  mkShells (<[id := sh]> (shells b)) (running b) (starting b ∖ {[sh]}) (closing b) (freshShell b).

(** The first section of [ForegroundShell], and the last: the shell it returns. *)
Definition foregroundBegin (b : Shells) : option Z := GetShell b foregroundShellID.
Definition foregroundFinish (b : Shells) (sh : Z) : Z * Shells :=
  match GetShell b foregroundShellID with
  | Some ex => (ex, mkShells (shells b) (running b ∖ {[sh]}) (starting b ∖ {[sh]}) (closing b) (freshShell b))
  | None => (sh, register b foregroundShellID sh)
  end.

Definition DeleteShell (b : Shells) (id : string) : bool * Shells :=
  match shells b !! id with
  | Some sh => (true, mkShells (delete id (shells b)) (running b) (starting b) ({[sh]} ∪ closing b) (freshShell b))
  | None => (false, b)
  end.
(** [Shell.Close] of a removed shell. *)
Definition closeShell (b : Shells) (sh : Z) : Shells :=
  mkShells (shells b) (running b ∖ {[sh]}) (starting b) (closing b ∖ {[sh]}) (freshShell b).
(** The locked section of [revokeSessions]. *)
Definition revokeShells (b : Shells) : Shells :=
  mkShells ∅ (running b) (starting b) (map_to_set (λ _ sh, sh) (shells b) ∪ closing b) (freshShell b).
(** A shell exits on its own. *)
Definition exits (b : Shells) (sh : Z) : Shells :=
  mkShells (shells b) (running b ∖ {[sh]}) (starting b) (closing b) (freshShell b).

Inductive shells_step : Shells → Shells → Prop :=
| ss_start b : shells_step b (startShell b).2
| ss_create b id sh : sh ∈ starting b → shells b !! id = None → id ≠ foregroundShellID → shells_step b (register b id sh)
| ss_foreground b sh : sh ∈ starting b → shells_step b (foregroundFinish b sh).2
| ss_delete b id : shells_step b (DeleteShell b id).2
| ss_close b sh : sh ∈ closing b → shells_step b (closeShell b sh)
| ss_revoke b : shells_step b (revokeShells b)
| ss_exit b sh : shells_step b (exits b sh).

Inductive shells_reach : Shells → Prop :=
| sr_new : shells_reach (mkShells ∅ ∅ ∅ ∅ 0)
| sr_step b b' : shells_reach b → shells_step b b' → shells_reach b'.

(** Who is responsible for a shell. *)
Definition registered (b : Shells) (sh : Z) : Prop := ∃ id, shells b !! id = Some sh.
Definition held (b : Shells) (sh : Z) : Prop := registered b sh ∨ sh ∈ starting b ∨ sh ∈ closing b.

Record shells_inv (b : Shells) : Prop := {
  si_held : ∀ sh, sh ∈ running b → held b sh;
  si_fresh : ∀ sh, held b sh → sh < freshShell b;
  si_once : ∀ id id' sh, shells b !! id = Some sh → shells b !! id' = Some sh → id = id';
  si_apart : ∀ sh, registered b sh → sh ∉ starting b ∧ sh ∉ closing b;
  si_sets : ∀ sh, sh ∈ starting b → sh ∉ closing b }.

Lemma register_shell_inv b id sh :
  shells_inv b → sh ∈ starting b → (∀ old, shells b !! id = Some old → old ∉ running b) → shells_inv (register b id sh).
Proof.
  intros [H1 H2 H3 H4 H5] Hs Hold.
  assert (∀ x, registered (register b id sh) x → x = sh ∨ registered b x) as Hreg.
  { unfold registered; simpl. intros x [k [[_ <-]|[_ Hk]]%lookup_insert_Some]; [by left|right; by exists k]. }
  assert (∀ k, shells b !! k ≠ Some sh) as Hno by (intros k Hk; by destruct (H4 sh) as [? _]; [exists k|]).
  split; simpl.
  - intros x Hx. destruct (decide (x = sh)) as [->|Hne]; [left; exists id; simpl; by rewrite lookup_insert_eq|].
    destruct (H1 x Hx) as [[k Hk]|[?|?]]; [|right; left; set_solver|by right; right].
    left. exists k. simpl. rewrite lookup_insert_ne; [done|]. intros <-. by destruct (Hold x Hk).
  - intros x [Hx|[Hx|Hx]]; [destruct (Hreg x Hx) as [->|?]|apply elem_of_difference in Hx as [Hx _]|]; apply H2; unfold held; auto.
  - intros k k' x [[<- <-]|[_ Hk]]%lookup_insert_Some [[<- E]|[_ Hk']]%lookup_insert_Some; subst; try done;
      [by destruct (Hno k')|by destruct (Hno k)|by eapply H3].
  - intros x [->|Hx]%Hreg; [split; [set_solver|by apply H5]|]. destruct (H4 x Hx). set_solver.
  - set_solver.
Qed.

Lemma shells_step_inv b b' : shells_inv b → shells_step b b' → shells_inv b'.
Proof.
  intros Hb Hs. destruct Hs as [b|b id sh Hin Hnone Hid|b sh Hin|b id|b sh Hin|b|b sh].
  - destruct Hb as [H1 H2 H3 H4 H5].
    assert (¬ held b (freshShell b)) as Hf by (intros ?%H2; lia). unfold held in Hf.
    split; simpl; [|intros x [Hx|[[->%elem_of_singleton|Hx]%elem_of_union|Hx]]|done|intros x Hx; split; [|by apply H4]|].
    + intros x [->%elem_of_singleton|Hx]%elem_of_union; [right; left; set_solver|]. destruct (H1 x Hx) as [?|[?|?]]; unfold held; set_solver.
    + assert (x < freshShell b) by (apply H2; by left). simpl. lia.
    + simpl. lia.
    + assert (x < freshShell b) by (apply H2; by right; left). simpl. lia.
    + assert (x < freshShell b) by (apply H2; by right; right). simpl. lia.
    + intros [->%elem_of_singleton|Hy]%elem_of_union; [apply Hf; by left|destruct (H4 x Hx) as [Hn _]; by apply Hn].
    + intros x [->%elem_of_singleton|Hx]%elem_of_union; [|by apply H5]. intros ?. apply Hf. auto.
  - apply register_shell_inv; [done|done|]. intros old Hold. by rewrite Hnone in Hold.
  - unfold foregroundFinish, GetShell, Dead. destruct (shells b !! foregroundShellID) as [old|] eqn:E; [case_bool_decide as Hd|].
    + apply register_shell_inv; [done|done|]. intros old' Hold. by simplify_eq.
    + simpl. destruct Hb as [H1 H2 H3 H4 H5]. split; simpl; [| |done| |].
      * intros x [Hx Hne]%elem_of_difference. destruct (H1 x Hx) as [?|[?|?]]; [by left|right; left|by right; right].
        by apply elem_of_difference.
      * intros x [Hx|[[Hx _]%elem_of_difference|Hx]]; apply H2; unfold held; auto.
      * intros x Hx. destruct (H4 x Hx). split; [|done]. by intros [? _]%elem_of_difference.
      * intros x [Hx _]%elem_of_difference. by apply H5.
    + apply register_shell_inv; [done|done|]. intros old' Hold. congruence.
  - unfold DeleteShell. destruct (shells b !! id) as [sh|] eqn:E; [|done]. simpl. destruct Hb as [H1 H2 H3 H4 H5].
    assert (registered b sh) as Hr by (by exists id). split; simpl.
    + intros x Hx. destruct (H1 x Hx) as [[k Hk]|[?|?]]; [|by right; left|right; right; set_solver].
      destruct (decide (k = id)) as [->|]; [simplify_eq; right; right; set_solver|]. left. exists k. simpl. by rewrite lookup_delete_ne.
    + unfold held at 1, registered; simpl. intros x [[k [_ Hk]%lookup_delete_Some]|[Hx|[->%elem_of_singleton|Hx]%elem_of_union]]; apply H2; unfold held, registered; eauto.
    + intros k k' x [_ Hk]%lookup_delete_Some [_ Hk']%lookup_delete_Some. by eapply H3.
    + unfold registered at 1; simpl. intros x [k [Hne Hk]%lookup_delete_Some]. destruct (H4 x) as [? ?]; [by exists k|]. split; [done|].
      intros [->%elem_of_singleton|?]%elem_of_union; [|done]. apply Hne. by eapply H3.
    + intros x Hx [->%elem_of_singleton|Hy]%elem_of_union; [by destruct (H4 sh Hr) as [? _]|by destruct (H5 x Hx)].
  - destruct Hb as [H1 H2 H3 H4 H5]. split; simpl;
      [|intros x [?|[?|[? _]%elem_of_difference]]; apply H2; unfold held; auto|done| |].
    + intros x [Hx Hne]%elem_of_difference. destruct (H1 x Hx) as [?|[?|?]]; [by left|by right; left|right; right].
      by apply elem_of_difference.
    + intros x Hx. destruct (H4 x Hx). split; [done|]. by intros [? _]%elem_of_difference.
    + intros x Hx [Hy _]%elem_of_difference. by destruct (H5 x Hx).
  - destruct Hb as [H1 H2 H3 H4 H5].
    assert (∀ x, x ∈ (map_to_set (λ (_ : string) sh, sh) (shells b) : gset Z) ↔ registered b x) as Hset.
    { intros x. rewrite elem_of_map_to_set. unfold registered. naive_solver. }
    split; unfold held, registered; simpl; [|intros x [[k []%lookup_empty_Some]|[?|[?%Hset|?]%elem_of_union]]; apply H2; unfold held; auto|by intros ? ? ? ?%lookup_empty_Some
      |by intros x [k ?%lookup_empty_Some]|].
    + intros x Hx. destruct (H1 x Hx) as [?%Hset|[?|?]]; [right; right; set_solver|by right; left|right; right; set_solver].
    + intros x Hx [Hy%Hset|Hy]%elem_of_union; [by destruct (H4 x Hy) as [? _]|by destruct (H5 x Hx)].
  - destruct Hb as [H1 H2 H3 H4 H5]. split; simpl; try done. intros x [Hx _]%elem_of_difference. by apply H1.
Qed.

Lemma shells_reach_inv b : shells_reach b → shells_inv b.
Proof.
  induction 1 as [|b b' _ IH Hs]; [|by eapply shells_step_inv].
  split; unfold held, registered; simpl; set_solver.
Qed.

(** C25: no shell process is orphaned: whatever calls to create, delete and revoke shells
    interleave, every running shell is registered under exactly one identifier, or is
    held by the one call that will register or close it; and two calls of
    [ForegroundShell] that race return the same shell as long as it runs. *)
Theorem shell_never_orphaned b sh :
  shells_reach b → sh ∈ running b →
  held b sh ∧ (∀ id id', shells b !! id = Some sh → shells b !! id' = Some sh → id = id') ∧
  (registered b sh → sh ∉ starting b ∧ sh ∉ closing b) ∧
  (sh ∈ starting b → ∀ ex, GetShell b foregroundShellID = Some ex → (foregroundFinish b sh).1 = ex ∧ sh ∉ running (foregroundFinish b sh).2).
Proof.
  intros Hb%shells_reach_inv Hr. split_and!; [by apply (si_held _ Hb)|intros id id'; apply (si_once _ Hb)|apply (si_apart _ Hb)|].
  intros _ ex E. unfold foregroundFinish. rewrite E. simpl. split; [done|set_solver].
Qed.
End Registry.

(** ** Witnesses: a shell that answers its two runs with "a" and "b", without newlines *)

Definition demoOut (k : nat) : text := match k with O => to_list "a" | _ => to_list "b" end.
Definition demoInterp (k : nat) (_ : text) : nat * text * bool := (S k, demoOut k ++ endLine (Z.of_nat k) (Z.of_nat k), false).
Definition demoShell : Shell := mkShell O [] false false O [].
Definition pwd : text := to_list "pwd".

Lemma demo_behaves : behaves demoInterp Z.of_nat O O [pwd; pwd] [(to_list "a", 0); (to_list "b", 1)] 2%nat.
Proof. repeat (eapply be_cons; [reflexivity|lia|constructor|]). constructor. Qed.


(** The marker of a cancelled run shows up in the output of the next one. *)
Example marker_leaks : ∃ s1 frags s2,
  runLocked demoInterp Z.of_nat demoShell (Some O) pwd = (NotRun RunCancelled, [], s1) ∧
  runLocked demoInterp Z.of_nat s1 None pwd = (Ran 1, frags, s2) ∧
  of_list (concat frags) = "a__hostel_end_0__ 0" +:+ String newline "b".
Proof.
  destruct (cancelled_run_leaks demoInterp Z.of_nat demoShell pwd pwd _ _ _ _ 2%nat demo_behaves eq_refl eq_refl) as (s1&frags&s2&H1&H2&H3).
  - repeat constructor.
  - exists s1, frags, s2. split_and!; [exact H1|exact H2|]. rewrite H3. reflexivity.
Qed.

(** [$HOME/a b], expanded with a home that looks like a command. *)
Definition demoEnv (name : text) : option text := if bool_decide (name = home) then Some (to_list "/$(id)") else None.
Lemma directory_expression_inert_witness :
  ∃ w, directoryExpression singleQuoted (to_list "$HOME/a b") = Some w ∧ evalWord demoEnv w = Some (to_list "/$(id)/a b").
Proof.
  eexists. split; [reflexivity|].
  refine (proj2 (directory_expression_inert singleQuoted singleQuoted_literal (to_list "$HOME/a b") demoEnv _) _).
  change (to_list "$HOME/a b") with (dollar :: home ++ to_list "/a b").
  change (to_list "/$(id)/a b") with (to_list "/$(id)" ++ to_list "/a b").
  apply ex_bare; [reflexivity|reflexivity|reflexivity|]. repeat (constructor; [discriminate|]). constructor.
Defined.

Lemma shell_never_orphaned_witness :
  Registry.held (Registry.startShell (Registry.mkShells ∅ ∅ ∅ ∅ 0)).2 0.
Proof.
  refine (proj1 (Registry.shell_never_orphaned _ 0 _ _)); [|vm_compute; reflexivity].
  eapply Registry.sr_step; [apply Registry.sr_new|apply Registry.ss_start].
Defined.
