(* ===== verification/BedFS.v ===== *)
(** * BedFS: one bed's filesystem

    Models [internal/bed/filesystem/bedfs]: [paths.go] (client and carrier paths),
    [mappings.go] (mounts and routing), the operations of [bedfs.go] and
    [permission.go], and the views of [view.go] and [reader.go].

    Relative paths are lists of components; [.] is the empty list.  What an operation
    asks of its [os.Root] is a [call]; an operation is a program of calls, so that a
    theorem about all its calls holds for every answer of the host, and a theorem
    about results holds for every file system that keeps the laws of [RootLaws]. *)

From stdpp Require Import sorting.
From S2P Require Import Prelude Lines Bed Volumes.

(** ** Paths *)

Definition DefaultWorkdir : string := "/workspace".
Definition TemporaryDir : string := "/tmp".

(** [path.Join] and, on the daemon's platform, [filepath.Join]. *)
Definition nonEmpty (l : list string) : list string := filter (λ s, s ≠ ""%string) l.
Definition Join (l : list string) : string :=
  match nonEmpty l with [] => ""%string | l => Clean (join l) end.

Fixpoint stripCommon (b t : list string) : list string * list string :=
  match b, t with
  | x :: b', y :: t' => if decide (x = y) then stripCommon b' t' else (b, t)
  | _, _ => (b, t)
  end.
(** [filepath.Rel]. *)
Definition Rel (base targ : string) : option (list string) :=
  if negb (Bool.eqb (rootedPath base) (rootedPath targ)) then None
  else let '(b, t) := stripCommon (cleanComps base) (cleanComps targ) in
       match b with
       | x :: _ => if decide (x = "..")%string then None else Some (replicate (length b) ".."%string ++ t)
       | [] => Some t
       end.
Definition relString (l : list string) : string := match l with [] => "."%string | _ => join l end.

Definition relativeTo (root candidate : string) : option (list string) :=
  match Rel (Clean root) (Clean candidate) with
  | Some (x :: l) => if decide (x = "..")%string then None else Some (x :: l)
  | r => r
  end.

Inductive fs_err :=
| EmptyPath | HomeRelative | OutsideMapping | Escapes | OutsideHome
| ReadOnlyMapping | MappingRoot | CrossesMapping
| BadMountSource | BadMountTarget | MountsOverlap
| IsDirectory | NotDirectory | IsSymlink | EmptyOld | BadMode | BadOwner | NotExist | HostError.
#[export] Instance fs_err_eq_dec : EqDecision fs_err.
Proof. solve_decision. Defined.

Record paths := mkPaths { pathsWorkdir : string; pathsPrefix : string; pathsHome : string }.
Definition newPaths (home : string) : paths := mkPaths DefaultWorkdir "/" (Clean home).
Definition clientWorkdir (p : paths) : string :=
  if decide (pathsWorkdir p = "")%string then DefaultWorkdir else pathsWorkdir p.

(** The client path under the fake root. *)
Definition clientClean (p : paths) (cp : string) : string :=
  let rel := if IsAbs cp then cp else Join [clientWorkdir p; cp] in
  Clean ("/" +:+ trim_prefix rel "/").
Definition FromClient (p : paths) (cp : string) : result fs_err string :=
  if decide (cp = "")%string then Err EmptyPath
  else if has_prefix cp "~" then Err HomeRelative
  else
    match (if decide (pathsPrefix p = "")%string then Some (clientClean p cp)
           else relString <$> relativeTo (pathsPrefix p) (clientClean p cp)) with
    | None => Err OutsideMapping
    | Some clean =>
        let full := Join [pathsHome p; clean] in
        match relativeTo (pathsHome p) full with Some _ => Ok full | None => Err Escapes end
    end.

Definition ToClient (p : paths) (host : string) : string :=
  match Rel (pathsHome p) host with
  | None | Some [] => if decide (pathsPrefix p = "")%string then "/"%string else pathsPrefix p
  | Some l => Join ["/"%string; pathsPrefix p; join l]
  end.

(** ** Roots and mappings *)

(** One [*FS] without its mappings; a mapped [*FS] has none.  [rootID] names the [os.Root]. *)
Record root := mkRoot { rootID : Z; rootPaths : paths; readOnly : bool; rootUID : Z; rootGID : Z }.
Record Mount := mkMountPoint { Source : string; Target : string; MountReadOnly : bool; Owned : bool }.
Record FS := mkFS { self : root; mappings : list (Mount * root) }.

#[export] Instance paths_eq_dec : EqDecision paths.
Proof. solve_decision. Defined.
#[export] Instance root_eq_dec : EqDecision root.
Proof. solve_decision. Defined.
#[export] Instance Mount_eq_dec : EqDecision Mount.
Proof. solve_decision. Defined.

Definition Rootfs (r : root) : string := pathsHome (rootPaths r).
Definition clientPath (o : FS) (p : string) : string :=
  if IsAbs p then Clean p else Join [clientWorkdir (rootPaths (self o)); p].

Definition within (target p : string) : bool := bool_decide (is_Some (relativeTo target p)).
Definition mapped (o : FS) (p : string) : option root :=
  snd <$> head (filter (λ m : Mount * root, within (Target m.1) (clientPath o p)) (mappings o)).
Definition route (o : FS) (p : string) (write : bool) : result fs_err root :=
  let target := default (self o) (mapped o p) in
  if write && readOnly target then Err ReadOnlyMapping else Ok target.

Definition guardMappingRoot (o : FS) (p : string) : result fs_err unit :=
  let p := clientPath o p in
  if negb (bool_decide (pathsPrefix (rootPaths (self o)) = "")%string) && bool_decide (p = pathsPrefix (rootPaths (self o)))
  then Err MappingRoot
  else if existsb (λ m : Mount * root, within p (Target m.1)) (mappings o) then Err CrossesMapping
  else Ok ().

(** The checks of one round of [SetMounts]: [source] is the resolved source and
    [carrierRoot] the resolved workspace root of the daemon. *)
Definition checkMount (o : FS) (m : Mount) (source : string) (carrierRoot : result fs_err string) : result fs_err unit :=
  if negb (IsAbs source) || bool_decide (source = "/"%string) then Err BadMountSource
  else match NormalizeMounts [mkMount "prepared" (Target m) false] with
  | Err _ => Err BadMountTarget
  | Ok _ =>
      carrierRoot <-! carrierRoot;
      if (negb (Owned m) && PathsOverlap source carrierRoot)
         || existsb (λ prior : Mount * root, PathsOverlap (Target m) (Target prior.1) || PathsOverlap source (Source prior.1)) (mappings o)
      then Err MountsOverlap else Ok ()
  end.
(** The mapping it appends: [id] is the opened directory, [owner] what [RefreshOwner] finds. *)
Definition bindMount (o : FS) (m : Mount) (source : string) (id : Z) (owner : Z * Z) : FS :=
  let '(uid, gid) := if Owned m then owner else (-1, -1) in
  mkFS (self o) (mappings o ++ [(mkMountPoint source (Target m) (MountReadOnly m) (Owned m),
    mkRoot id (mkPaths (pathsWorkdir (rootPaths (self o))) (Target m) (Clean source)) (MountReadOnly m) uid gid)]).

(** [SetWorkdir]: the base of relative paths, the same for every root. *)
Definition withWorkdir (p : string) (r : root) : root :=
  mkRoot (rootID r) (mkPaths p (pathsPrefix (rootPaths r)) (pathsHome (rootPaths r))) (readOnly r) (rootUID r) (rootGID r).
Definition SetWorkdir (o : FS) (p : string) : FS :=
  mkFS (withWorkdir p (self o)) ((λ m : Mount * root, (m.1, withWorkdir p m.2)) <$> mappings o).

Definition relative (r : root) (full : string) : result fs_err (list string) :=
  match relativeTo (Rootfs r) full with Some l => Ok l | None => Err OutsideHome end.
Definition Resolve (o : FS) (p : string) : result fs_err string :=
  match mapped o p with
  | Some r => FromClient (rootPaths r) p
  | None => FromClient (rootPaths (self o)) p
  end.

(** The steps every operation starts with: route, resolve, and the path below the root. *)
Definition locate (o : FS) (p : string) (write : bool) : result fs_err (root * string * list string) :=
  r <-! route o p write;
  full <-! FromClient (rootPaths r) p;
  rel <-! relative r full;
  Ok (r, full, rel).
(** [filepath.Dir] of a located path, below the root again: the root itself has its parent outside. *)
Definition parentOf (rel : list string) : result fs_err (list string) :=
  match rel with [] => Err OutsideHome | _ => Ok (removelast rel) end.

(** ** Calls and programs *)

Inductive kind := KFile | KDir | KLink | KOther.
#[export] Instance kind_eq_dec : EqDecision kind.
Proof. solve_decision. Defined.
(** [os.FileInfo]; [inOwner] is [None] where the platform has no owner. *)
Record info := mkInfo { inKind : kind; inSize : Z; inPerm : Z; inLinks : Z; inOwner : option (Z * Z) }.
Record entry := mkEntry { enName : string; enDir : bool; enInfo : option info }.

(** The methods of [os.Root] and of the files it opens, on the root and the path below it. *)
Inductive call : Type → Type :=
| Lstat (r : Z) (rel : list string) : call (result fs_err info)
| StatAt (r : Z) (rel : list string) : call (result fs_err info)
| ReadFile (r : Z) (rel : list string) : call (result fs_err string)
| WriteFile (r : Z) (rel : list string) (data : string) (mode : Z) : call (result fs_err unit)
| MkdirAll (r : Z) (rel : list string) : call (result fs_err unit)
| Lchown (r : Z) (rel : list string) (uid gid : Z) : call (result fs_err unit)
| RemoveAt (r : Z) (rel : list string) : call (result fs_err unit)
| RemoveAll (r : Z) (rel : list string) : call (result fs_err unit)
| RenameAt (r : Z) (from to : list string) : call (result fs_err unit)
| OpenAt (r : Z) (rel : list string) : call (result fs_err info)
| ChmodAt (r : Z) (rel : list string) (mode : Z) : call (result fs_err unit)
| ReadDir (r : Z) (rel : list string) : call (result fs_err (list entry)).

Inductive prog (A : Type) : Type :=
| Ret (a : A)
| Do {X : Type} (c : call X) (k : X → prog A).
Arguments Ret {A} a.
Arguments Do {A X} c k.

Fixpoint pbind {A B} (m : prog A) (f : A → prog B) : prog B :=
  match m with Ret a => f a | Do c k => Do c (λ x, pbind (k x) f) end.
#[export] Instance prog_bind : MBind prog := λ A B f m, pbind m f.
Definition perform {X} (c : call X) : prog X := Do c Ret.

(** A program that may fail, and the rest of it. *)
Definition attempt {A B} (r : result fs_err A) (k : A → prog (result fs_err B)) : prog (result fs_err B) :=
  match r with Ok a => k a | Err e => Ret (Err e) end.
Notation "x <-? r ; k" := (attempt r (λ x, k)) (at level 100, r at next level, right associativity).
Notation "x <-! r ;; k" := (mbind (λ y, attempt y (λ x, k)) r) (at level 100, r at next level, right associativity).

(** ** Ownership of what the daemon creates *)

Definition chownNew (r : root) (rel : list string) : prog unit :=
  if rootUID r <? 0 then Ret ()
  else
    fi ← perform (Lstat (rootID r) rel);
    match fi with
    | Err _ => Ret ()
    | Ok fi =>
        if bool_decide (inKind fi = KFile) && (1 <? inLinks fi) then Ret ()
        else _ ← perform (Lchown (rootID r) rel (rootUID r) (rootGID r)); Ret ()
    end.

(** The walk from a directory to the root; the components are reversed. *)
Fixpoint handOver (r : root) (up : list string) : prog unit :=
  fi ← perform (Lstat (rootID r) (reverse up));
  match fi with
  | Err _ => Ret ()
  | Ok fi =>
      match inOwner fi with
      | None => Ret ()
      | Some (uid, _) =>
          if uid =? rootUID r then Ret ()
          else _ ← perform (Lchown (rootID r) (reverse up) (rootUID r) (rootGID r));
               match up with [] => Ret () | _ :: up' => handOver r up' end
      end
  end.
Definition mkdirAllOwned (r : root) (rel : list string) : prog (result fs_err unit) :=
  _ <-! perform (MkdirAll (rootID r) rel);;
  if rootUID r <? 0 then Ret (Ok ())
  else _ ← handOver r (reverse rel); Ret (Ok ()).

(** ** Preparation *)

(** The owner kept for a root: none where it is the daemon's own. *)
Definition ownerFor (euid : Z) (owner : option (Z * Z)) : Z * Z :=
  match owner with
  | Some (uid, gid) => if uid =? euid then (-1, -1) else (uid, gid)
  | None => (-1, -1)
  end.

(** [SetMounts]: per mount, what [EvalSymlinks] answers for its source and for the
    workspace root.  The directory [New] opens is a new handle, so it gets a number no
    other root has.  After a failure the file system is not published, so the mappings bound
    before it are of no use. *)
Record resolved := mkResolved { resSource : result fs_err string; resCarrier : result fs_err string }.
Definition openedID (o : FS) : Z := 1 + foldr Z.max (rootID (self o)) ((λ m : Mount * root, rootID m.2) <$> mappings o).
Fixpoint SetMounts (euid : Z) (o : FS) (ms : list (Mount * resolved)) : prog (result fs_err FS) :=
  match ms with
  | [] => Ret (Ok o)
  | (m, h) :: ms =>
      source <-? resSource h;
      _ <-? checkMount o m source (resCarrier h);
      fi <-! perform (StatAt (openedID o) []);;
      let o' := bindMount o m source (openedID o) (ownerFor euid (inOwner fi)) in
      full <-? FromClient (rootPaths (self o)) (Target m);
      rel <-? relative (self o) full;
      _ <-! mkdirAllOwned (self o) rel;;
      SetMounts euid o' ms
  end.

(** [filepath.Dir]. *)
Definition Dir (p : string) : string := Clean (join (removelast (split p) ++ [""%string])).
(** The mounts [prepareVolumes] hands to [SetMounts] for the declared mounts of a pillow:
    [sources] are the directories of the volumes, [allocation] the directory of the managed
    ones. *)
Definition pillowMounts (sources : gmap string string) (allocation : string) (mounts : list VolumeMount) : list Mount :=
  (λ x, let source := default ""%string (sources !! MountVolume x) in
        mkMountPoint source (MountPath x) (ReadOnly x) (negb (bool_decide (allocation = ""%string)) && bool_decide (Dir source = allocation))) <$> mounts.

Definition withOwner (owner : Z * Z) (r : root) : root :=
  mkRoot (rootID r) (rootPaths r) (readOnly r) owner.1 owner.2.
Definition refreshRoot (euid : Z) (r : root) : prog (result fs_err root) :=
  fi <-! perform (StatAt (rootID r) []);; Ret (Ok (withOwner (ownerFor euid (inOwner fi)) r)).
Fixpoint refreshMappings (euid : Z) (ms : list (Mount * root)) : prog (result fs_err (list (Mount * root))) :=
  match ms with
  | [] => Ret (Ok [])
  | (m, r) :: ms =>
      r <-! (if Owned m then refreshRoot euid r else Ret (Ok r));;
      ms <-! refreshMappings euid ms;;
      Ret (Ok ((m, r) :: ms))
  end.
(** [RefreshOwner], once privilege has given the directories their owner. *)
Definition RefreshOwner (euid : Z) (o : FS) : prog (result fs_err FS) :=
  fi <-! perform (StatAt (rootID (self o)) []);;
  ms <-! refreshMappings euid (mappings o);;
  Ret (Ok (mkFS (withOwner (ownerFor euid (inOwner fi)) (self o)) ms)).

(** ** Operations *)

Record FileInfo := mkFileInfo { fiPath : string; fiType : kind; fiSize : Z; fiMode : Z; fiOwner : option (Z * Z) }.
Definition infoOf (r : root) (full : string) (li : info) : FileInfo :=
  mkFileInfo (ToClient (rootPaths r) full) (inKind li) (inSize li) (inPerm li) (inOwner li).

Definition Stat (o : FS) (p : string) : prog (result fs_err FileInfo) :=
  loc <-? locate o p false; let '(r, full, rel) := loc in
  li <-! perform (Lstat (rootID r) rel);; Ret (Ok (infoOf r full li)).

Definition Read (o : FS) (p : string) : prog (result fs_err string) :=
  loc <-? locate o p false; let '(r, _, rel) := loc in perform (ReadFile (rootID r) rel).

Definition fileMode (mode : Z) : Z := if mode =? 0 then 420 else Z.land mode 511.
Definition Write (o : FS) (p data : string) (mode : Z) : prog (result fs_err unit) :=
  loc <-? locate o p true; let '(r, _, rel) := loc in
  dir <-? parentOf rel;
  _ <-! mkdirAllOwned r dir;;
  _ <-! perform (WriteFile (rootID r) rel data (fileMode mode));;
  _ ← chownNew r rel; Ret (Ok ()).

(** One path of [Remove]; a missing file is ignored. *)
Definition removeOne (o : FS) (p : string) : prog (result fs_err unit) :=
  _ <-? guardMappingRoot o p;
  loc <-? locate o p true; let '(r, _, rel) := loc in
  li ← perform (Lstat (rootID r) rel);
  match li with
  | Err NotExist => Ret (Ok ())
  | Err e => Ret (Err e)
  | Ok li => if bool_decide (inKind li = KDir) then Ret (Err IsDirectory) else perform (RemoveAt (rootID r) rel)
  end.
Fixpoint Remove (o : FS) (ps : list string) : prog (result fs_err unit) :=
  match ps with
  | [] => Ret (Ok ())
  | p :: ps => _ <-! removeOne o p;; Remove o ps
  end.

Definition Rename (o : FS) (src dest : string) : prog (result fs_err unit) :=
  _ <-? guardMappingRoot o src;
  _ <-? guardMappingRoot o dest;
  source <-? route o src true;
  destination <-? route o dest true;
  if negb (rootID source =? rootID destination) then Ret (Err CrossesMapping)
  else
    s <-? FromClient (rootPaths source) src;
    d <-? FromClient (rootPaths source) dest;
    dRel <-? relative source d;
    dir <-? parentOf dRel;
    _ <-! mkdirAllOwned source dir;;
    sRel <-? relative source s;
    perform (RenameAt (rootID source) sRel dRel).

Record Permission := mkPermission { permOwner : option Z; permGroup : option Z; permMode : Z }.

(** Owners are numeric: the lookup of a name in the user database is its number. *)
Definition ValidatePermission (o : FS) (p : string) (perm : Permission) : prog (result fs_err unit) :=
  _ <-? route o p true;
  if (permMode perm <? 0) || (511 <? permMode perm) then Ret (Err BadMode)
  else
    owner <-! (if (rootUID (self o) <? 0) || (rootGID (self o) <? 0) then
                 fi <-! perform (StatAt (rootID (self o)) []);;
                 match inOwner fi with
                 | Some og => Ret (Ok (Some og))
                 | None => if bool_decide (permOwner perm = None) && bool_decide (permGroup perm = None) then Ret (Ok None) else Ret (Err BadOwner)
                 end
               else Ret (Ok (Some (rootUID (self o), rootGID (self o)))));;
    match owner with
    | None => Ret (Ok ())
    | Some (uid, gid) =>
        if bool_decide (permOwner perm = None ∨ permOwner perm = Some uid) && bool_decide (permGroup perm = None ∨ permGroup perm = Some gid)
        then Ret (Ok ()) else Ret (Err BadOwner)
    end.
Definition Chmod (o : FS) (p : string) (perm : Permission) : prog (result fs_err unit) :=
  _ <-! ValidatePermission o p perm;;
  loc <-? locate o p true; let '(r, _, rel) := loc in
  fi <-! perform (OpenAt (rootID r) rel);;
  if bool_decide (permOwner perm = None) && bool_decide (permGroup perm = None) then perform (ChmodAt (rootID r) rel (Z.land (permMode perm) 511))
  else match inOwner fi with
       | None => Ret (Err BadOwner)
       | Some (uid, gid) =>
           if bool_decide (permOwner perm = None ∨ permOwner perm = Some uid) && bool_decide (permGroup perm = None ∨ permGroup perm = Some gid)
           then perform (ChmodAt (rootID r) rel (Z.land (permMode perm) 511)) else Ret (Err BadOwner)
       end.

Definition MakeDir (o : FS) (p : string) : prog (result fs_err unit) :=
  loc <-? locate o p true; let '(r, _, rel) := loc in mkdirAllOwned r rel.

Definition RemoveDir (o : FS) (p : string) : prog (result fs_err unit) :=
  _ <-? guardMappingRoot o p;
  loc <-? locate o p true; let '(r, _, rel) := loc in
  li ← perform (Lstat (rootID r) rel);
  match li with
  | Err NotExist => Ret (Ok ())
  | Err e => Ret (Err e)
  | Ok li => if bool_decide (inKind li = KDir) then perform (RemoveAll (rootID r) rel) else Ret (Err NotDirectory)
  end.

(** [EnsureDir] takes a carrier path: the mapping whose source holds it, or the root. *)
Definition ensureIn (r : root) (dir : string) : prog (result fs_err unit) :=
  rel <-? relative r dir;
  if readOnly r then
    fi <-! perform (StatAt (rootID r) rel);;
    Ret (if bool_decide (inKind fi = KDir) then Ok () else Err NotDirectory)
  else mkdirAllOwned r rel.
Definition EnsureDir (o : FS) (dir : string) : prog (result fs_err unit) :=
  match head (filter (λ m : Mount * root, within (Rootfs m.2) dir) (mappings o)) with
  | Some m => ensureIn m.2 dir
  | None => ensureIn (self o) dir
  end.

Definition stickyAll : Z := 2 ^ 20 + 511.
Definition PrepareTempdir (o : FS) : prog (result fs_err unit) :=
  _ <-! EnsureDir o (Join [Rootfs (self o); "tmp"]);;
  perform (ChmodAt (rootID (self o)) ["tmp"%string] stickyAll).

(** [strings.Count] and [strings.ReplaceAll] on a non-empty [old]: how often it is
    replaced, and the text; [skip] bytes belong to the occurrence just found. *)
Definition startsWith (old s : text) : bool := bool_decide (take (length old) s = old).
Fixpoint replaceAll (old new : text) (skip : nat) (s : text) : nat * text :=
  match s with
  | [] => (O, [])
  | c :: s' =>
      match skip with
      | S skip => replaceAll old new skip s'
      | O =>
          if startsWith old s then let '(n, r) := replaceAll old new (length old - 1) s' in (S n, new ++ r)
          else let '(n, r) := replaceAll old new O s' in (n, c :: r)
      end
  end.
Definition Replace (o : FS) (p old new : string) : prog (result fs_err nat) :=
  loc <-? locate o p true; let '(r, _, rel) := loc in
  data <-! perform (ReadFile (rootID r) rel);;
  if decide (old = "")%string then Ret (Err EmptyOld)
  else
    let '(count, out) := replaceAll (to_list old) (to_list new) O (to_list data) in
    if decide (count = O) then Ret (Ok O)
    else
      li ← perform (StatAt (rootID r) rel);
      let mode := match li with Ok li => inPerm li | Err _ => 420 end in
      _ <-! perform (WriteFile (rootID r) rel (of_list out) mode);;
      Ret (Ok count).

(** [ReadLines]: the lines of the file, and the window; [None] is a slice out of range,
    which panics.  The integers are 64 bits wide. *)
Definition sliceLines (lines : list text) (offset limit : Z) : option (list text) :=
  let n := Z.of_nat (length lines) in
  if n <=? offset then Some []
  else
    let sum := wrap64 (offset + limit) in
    let stop := if (0 <? limit) && (sum <? n) then sum else n in
    if (0 <=? offset) && (offset <=? stop) then
      Some (take (Z.to_nat (stop - offset)) (drop (Z.to_nat offset) lines))
    else None.
Definition ReadLines (o : FS) (p : string) (offset limit : Z) : prog (result fs_err (option string)) :=
  data <-! Read o p;;
  Ret (Ok ((λ ls, of_list (concat ls)) <$> sliceLines (readLines (to_list data) true) offset limit)).

(** ** Walks *)

(** The [*FS] that [route] selects for a path, with its mappings. *)
Definition routed (o : FS) (p : string) : FS := match mapped o p with Some r => mkFS r [] | None => o end.

Definition path_le (a b : FileInfo) : Prop := String.le (fiPath a) (fiPath b).
#[export] Instance path_le_dec : RelDecision path_le.
Proof. intros a b. unfold path_le. apply _. Defined.

Section list_walk.
(** What a directory of another mapping lists. *)
Variable onMapped : root → string → nat → prog (result fs_err (list FileInfo)).
Variable o : FS.

Definition listEntry (dir : string) (e : entry) (fi : info) : prog (result fs_err FileInfo) :=
  let ent := infoOf (self o) (Join [dir; enName e]) fi in
  if mapped o (fiPath ent) then Stat o (fiPath ent) else Ret (Ok ent).

Fixpoint listWalk (d : nat) (dir : string) (rel : list string) {struct d} : prog (result fs_err (list FileInfo)) :=
  match d with
  | O => Ret (Ok [])
  | S d' =>
      match mapped o (ToClient (rootPaths (self o)) dir) with
      | Some r => onMapped r (ToClient (rootPaths (self o)) dir) d
      | None =>
          entries <-! perform (ReadDir (rootID (self o)) rel);;
          (fix go (es : list entry) : prog (result fs_err (list FileInfo)) :=
             match es with
             | [] => Ret (Ok [])
             | e :: es =>
                 match enInfo e with
                 | None => go es
                 | Some fi =>
                     ent <-! listEntry dir e fi;;
                     sub <-! (if enDir e && negb (bool_decide (d' = O))
                              then listWalk d' (Join [dir; enName e]) (rel ++ [enName e]) else Ret (Ok []));;
                     others <-! go es;;
                     Ret (Ok (ent :: sub ++ others))
                 end
             end) entries
      end
  end.

Definition listAt (loc : root * string * list string) (depth : nat) : prog (result fs_err (list FileInfo)) :=
  let '(r, full, rel) := loc in
  li <-! perform (Lstat (rootID r) rel);;
  if bool_decide (inKind li = KLink) then Ret (Err IsSymlink)
  else if negb (bool_decide (inKind li = KDir)) then Ret (Err NotDirectory)
  else out <-! listWalk (Nat.max 1 depth) full rel;; Ret (Ok (merge_sort path_le out)).
End list_walk.

(** A mapped root has no mappings of its own. *)
Definition listMapped (r : root) (p : string) (depth : nat) : prog (result fs_err (list FileInfo)) :=
  loc <-? locate (mkFS r []) p false; listAt (λ _ _ _, Ret (Ok [])) (mkFS r []) loc depth.
Definition List (o : FS) (p : string) (depth : nat) : prog (result fs_err (list FileInfo)) :=
  loc <-? locate o p false; listAt listMapped (routed o p) loc depth.

(** The name test of a pattern; [glob] is [path.Match] of the Go library. *)
Definition isMeta (c : ascii) : bool := bool_decide (c ∈ to_list "*?[").
Fixpoint containsText (sub s : text) : bool :=
  startsWith sub s || match s with [] => false | _ :: s => containsText sub s end.
Definition searchMatch (glob : string → string → bool) (pattern name : string) : bool :=
  if decide (pattern = "")%string then true
  else if existsb isMeta (to_list pattern) then glob pattern name
  else containsText (to_list pattern) (to_list name).

Definition searchLimit : nat := 1000.

Section search_walk.
(** [match], and what a directory of another mapping yields. *)
Variable matches : string → bool.
Variable onMapped : root → string → prog (result fs_err (list FileInfo)).
Variable o : FS.

(** [out] is what was found so far; [fuel] bounds the depth of the tree. *)
Fixpoint searchWalk (fuel : nat) (dir : string) (rel : list string) (out : list FileInfo) {struct fuel}
  : prog (result fs_err (list FileInfo)) :=
  match fuel with
  | O => Ret (Err HostError)
  | S fuel =>
      match mapped o (ToClient (rootPaths (self o)) dir) with
      | Some r =>
          entries <-! onMapped r (ToClient (rootPaths (self o)) dir);;
          Ret (Ok (out ++ take (searchLimit - length out) entries))
      | None =>
          entries <-! perform (ReadDir (rootID (self o)) rel);;
          (fix go (es : list entry) (out : list FileInfo) : prog (result fs_err (list FileInfo)) :=
             match es with
             | [] => Ret (Ok out)
             | e :: es =>
                 if bool_decide (searchLimit <= length out)%nat then Ret (Ok out)
                 else if enDir e then out <-! searchWalk fuel (Join [dir; enName e]) (rel ++ [enName e]) out;; go es out
                 else if negb (matches (enName e)) then go es out
                 else match enInfo e with
                      | Some fi => go es (out ++ [infoOf (self o) (Join [dir; enName e]) fi])
                      | None => go es out
                      end
             end) entries out
      end
  end.
End search_walk.

Definition searchMapped (glob : string → string → bool) (fuel : nat) (pattern : string) (r : root) (p : string) : prog (result fs_err (list FileInfo)) :=
  loc <-? locate (mkFS r []) p false;
  let '(_, full, rel) := loc in searchWalk (searchMatch glob pattern) (λ _ _, Ret (Ok [])) (mkFS r []) fuel full rel [].
Definition Search (glob : string → string → bool) (fuel : nat) (o : FS) (p pattern : string) : prog (result fs_err (list FileInfo)) :=
  loc <-? locate o p false;
  let '(_, full, rel) := loc in
  searchWalk (searchMatch glob pattern) (searchMapped glob fuel pattern) (routed o p) fuel full rel [].

(** ** Process views *)

Record MappingSupport := mkSupport { SupReadWrite : bool; SupReadOnly : bool }.
Definition Supports (s : MappingSupport) (ro : bool) : bool := if ro then SupReadOnly s else SupReadWrite s.
Record ProcessView := mkView { viewFS : FS; viewMappings : MappingSupport; homeMount : string; workdirMount : string }.

Definition noSupport : MappingSupport := mkSupport false false.
Definition HostView (fs : FS) : ProcessView := mkView fs noSupport "" "".
Definition RootedView (fs : FS) (s : MappingSupport) : ProcessView := mkView fs s "/" (clientWorkdir (rootPaths (self fs))).
Definition RedirectedView (fs : FS) (s : MappingSupport) : ProcessView := mkView fs s "" (clientWorkdir (rootPaths (self fs))).

Definition joinProcessPath (root : string) (rel : list string) : string :=
  match rel with [] => root | _ => Join [root; join rel] end.

(** The carrier path of the working directory; an unresolvable one is the empty path. *)
Definition workdirHost (o : FS) : string :=
  match Resolve o (clientWorkdir (rootPaths (self o))) with Ok p => p | Err _ => ""%string end.

Definition Path (v : ProcessView) (host : string) : result fs_err string :=
  let o := viewFS v in
  match head (filter (λ m : Mount * root, within (Source m.1) host) (mappings o)) with
  | Some (m, _) =>
      let rel := default [] (relativeTo (Source m) host) in
      if Supports (viewMappings v) (MountReadOnly m) || bool_decide (homeMount v = "/"%string)
      then Ok (joinProcessPath (Target m) rel) else Ok (Clean host)
  | None =>
      match relativeTo (Rootfs (self o)) host with
      | None => Err OutsideHome
      | Some homeRel =>
          if bool_decide (workdirMount v = "")%string then
            Ok (if bool_decide (homeMount v = "")%string then Clean host else joinProcessPath (homeMount v) homeRel)
          else
            match relativeTo (workdirHost o) host with
            | Some rel => Ok (joinProcessPath (workdirMount v) rel)
            | None =>
                match relativeTo (Join [Rootfs (self o); "tmp"]) host with
                | Some rel => Ok (joinProcessPath TemporaryDir rel)
                | None => Ok (if bool_decide (homeMount v = "")%string then Clean host else joinProcessPath (homeMount v) homeRel)
                end
            end
      end
  end.

(** The client path of a process directory, and its check on the confined root. *)
Definition clientOf (v : ProcessView) (p : string) : string :=
  let o := viewFS v in
  if negb (bool_decide (homeMount v = "")%string) then p
  else match head (filter (λ m : Mount * root, within (Source m.1) p) (mappings o)) with
       | Some (m, _) => joinProcessPath (Target m) (default [] (relativeTo (Source m) p))
       | None => match relativeTo (Rootfs (self o)) p with Some rel => joinProcessPath "/" rel | None => p end
       end.
Definition ResolveDirectory (v : ProcessView) (p : string) : prog (result fs_err string) :=
  let client := clientOf v p in
  loc <-? locate (viewFS v) client false; let '(r, _, rel) := loc in
  fi <-! perform (OpenAt (rootID r) rel);;
  Ret (if bool_decide (inKind fi = KDir) then Resolve (viewFS v) client else Err NotDirectory).
