(* ===== verification/BedFSPaths.v ===== *)
(** * BedFSPaths: what the path conversions and the routing of a BedFS do *)

From S2P Require Import Prelude Lines Bed Volumes BedFS.

(** ** Absolute paths as lists of components *)

Lemma stripCommon_spec b t :
  ∃ c, b = c ++ (stripCommon b t).1 ∧ t = c ++ (stripCommon b t).2 ∧
    match (stripCommon b t).1, (stripCommon b t).2 with x :: _, y :: _ => x ≠ y | _, _ => True end.
Proof.
  revert t. induction b as [|x b IH]; intros t; [by exists []|]. destruct t as [|y t]; [by exists []|]. simpl.
  case_decide as E; [subst; destruct (IH t) as (c&H1&H2&H3); exists (y :: c); simpl; by rewrite <- H1, <- H2|by exists []].
Qed.

Lemma fold_normal l acc : Forall normal l → foldl (clean_step true) acc l = reverse l ++ acc.
Proof.
  intros Hl. revert acc. induction Hl as [|c l (H1&H2&H3&_) Hl IH]; intros acc; [done|]. simpl.
  unfold clean_step at 2. rewrite decide_False by tauto. rewrite decide_False by done.
  rewrite IH, reverse_cons, <- (assoc_L app). done.
Qed.

Lemma clean_absPath l : Forall normal l → Clean (absPath l) = absPath l.
Proof. intros Hl. unfold Clean. by rewrite rooted_absPath, cleanComps_absPath. Qed.

(** Below an absolute path there are exactly its extensions. *)
Lemma relativeTo_abs b t l :
  Forall normal b → Forall normal t → relativeTo (absPath b) (absPath t) = Some l ↔ t = b ++ l.
Proof.
  intros Hb Ht. unfold relativeTo, Rel. rewrite !clean_absPath, !rooted_absPath, !cleanComps_absPath by done. simpl.
  destruct (stripCommon_spec b t) as (c&Eb&Et&Hd). destruct (stripCommon b t) as [b' t']. simpl in *. subst b t.
  apply Forall_app in Hb as [Hc Hb']. apply Forall_app in Ht as [_ Ht']. destruct b' as [|x b'].
  - rewrite app_nil_r. split.
    + destruct t' as [|y t']; [by intros [= <-]|]. case_decide as E; [|by intros [= <-]].
      subst. inversion Ht' as [|? ? (_&_&?&_)]; done.
    + intros E%app_inv_head. subst l. destruct t' as [|y t']; [done|]. rewrite decide_False; [done|].
      intros ->. inversion Ht' as [|? ? (_&_&?&_)]; done.
  - inversion Hb' as [|? ? (_&_&Hx&_)]; subst. rewrite decide_False by done. simpl. split; [done|].
    rewrite <- (assoc_L app). intros E%app_inv_head. destruct t' as [|y t']; [done|]. simpl in E. injection E as -> _. by destruct Hd.
Qed.

Lemma relativeTo_none b t : Forall normal b → Forall normal t → relativeTo (absPath b) (absPath t) = None ↔ ¬ b `prefix_of` t.
Proof.
  intros Hb Ht. rewrite eq_None_not_Some. apply not_iff_compat. split.
  - intros [l Hl%relativeTo_abs]; [|done..]. by exists l.
  - intros [l Hl]. exists l. by apply relativeTo_abs.
Qed.
Lemma within_abs b t : Forall normal b → Forall normal t → within (absPath b) (absPath t) = true ↔ b `prefix_of` t.
Proof.
  intros Hb Ht. unfold within. rewrite bool_decide_eq_true. split.
  - intros [l Hl%relativeTo_abs]; [|done..]. by exists l.
  - intros [l Hl]. exists l. by apply relativeTo_abs.
Qed.

Lemma join_nonempty l : Forall normal l → l ≠ [] → join l ≠ ""%string.
Proof.
  intros Hl Hn E. apply (f_equal split) in E. rewrite split_join in E by auto using normal_no_slash.
  subst l. inversion Hl as [|? ? (?&_)]; done.
Qed.

Lemma Clean_below h l :
  Forall normal h → Forall normal l → Clean (absPath h +:+ "/" +:+ relString l) = absPath (h ++ l).
Proof.
  intros Hh Hl. assert (rootedPath (absPath h +:+ "/" +:+ relString l) = true) as Hr.
  { apply has_prefix_spec. unfold absPath. eexists. by rewrite string_app_assoc. }
  unfold Clean. rewrite Hr. unfold absPath at 2. f_equal. f_equal. unfold cleanComps. rewrite Hr, split_app, foldl_app.
  pose proof (cleanComps_absPath h Hh) as Hc. unfold cleanComps in Hc. rewrite rooted_absPath in Hc.
  assert (foldl (clean_step true) [] (split (absPath h)) = reverse h) as -> by (rewrite <- Hc at 2; by rewrite reverse_involutive).
  destruct l as [|x l]; unfold relString.
  - change (reverse (clean_step true (reverse h) ".") = h ++ []). unfold clean_step. rewrite decide_True by auto.
    by rewrite reverse_involutive, app_nil_r.
  - rewrite split_join by auto using normal_no_slash. rewrite fold_normal by done. by rewrite reverse_app, !reverse_involutive.
Qed.

Lemma relString_nonempty l : Forall normal l → relString l ≠ ""%string.
Proof. intros Hl. destruct l; [done|]. by apply join_nonempty. Qed.
Lemma absPath_nonempty l : absPath l ≠ ""%string.
Proof. done. Qed.

Lemma Join_below h l : Forall normal h → Forall normal l → Join [absPath h; relString l] = absPath (h ++ l).
Proof.
  intros Hh Hl. unfold Join, nonEmpty. rewrite filter_cons_True by done.
  rewrite filter_cons_True by (by apply relString_nonempty). simpl. by apply Clean_below.
Qed.

Lemma Clean_slashes x : rootedPath x = true → Clean ("/" +:+ "/" +:+ x) = Clean x.
Proof. intros Hx. unfold Clean, cleanComps. rewrite Hx. change (rootedPath ("/" +:+ "/" +:+ x)) with true. done. Qed.

(** ** The converter of one root *)

(** Where a converter is anchored: the components of its home and of its prefix. *)
Record paths_wf (p : paths) (h pf : list string) : Prop := {
  pw_home : pathsHome p = absPath h; pw_home_normal : Forall normal h;
  pw_prefix : pathsPrefix p = absPath pf; pw_prefix_normal : Forall normal pf;
  pw_workdir : IsAbs (clientWorkdir p) = true }.

(** The client path a name stands for. *)
Definition clientComps (p : paths) (cp : string) : list string := cleanComps (clientClean p cp).

Lemma clientClean_abs p cp : clientClean p cp = absPath (clientComps p cp) ∧ Forall normal (clientComps p cp).
Proof.
  unfold clientComps, clientClean. set (x := "/" +:+ _). assert (rootedPath x = true) as Hx by (apply has_prefix_spec; by eexists).
  destruct (clean_absolute x Hx) as (l&Hl&->&_). by rewrite cleanComps_absPath.
Qed.

Lemma FromClient_spec p h pf cp full :
  paths_wf p h pf →
  FromClient p cp = Ok full ↔
  cp ≠ ""%string ∧ has_prefix cp "~" = false ∧ ∃ l, clientComps p cp = pf ++ l ∧ full = absPath (h ++ l).
Proof.
  intros [Hh Hhn Hp Hpn _]. unfold FromClient. destruct (clientClean_abs p cp) as [Ec Hc].
  case_decide as E1; [naive_solver|]. destruct (has_prefix cp "~") eqn:E2; [naive_solver|].
  rewrite Hp, decide_False by done. rewrite Ec, Hh. destruct (relativeTo (absPath pf) (absPath (clientComps p cp))) as [l|] eqn:Er; simpl.
  - apply relativeTo_abs in Er; [|done..]. assert (Forall normal l) as Hl by (rewrite Er, Forall_app in Hc; by destruct Hc).
    rewrite Join_below by done. assert (relativeTo (absPath h) (absPath (h ++ l)) = Some l) as ->.
    { apply relativeTo_abs; [done|by apply Forall_app|done]. }
    split; [intros [= <-]; eauto 10|]. intros (_&_&l'&El&->). rewrite Er in El. apply app_inv_head in El. by subst.
  - apply relativeTo_none in Er; [|done..]. split; [done|]. intros (_&_&l&El&_). destruct Er. by exists l.
Qed.

Lemma stripCommon_app h l : stripCommon h (h ++ l) = ([], l).
Proof. induction h as [|x h IH]; [by destruct l|]. simpl. by rewrite decide_True. Qed.

Lemma ToClient_below p h pf l : paths_wf p h pf → Forall normal l → ToClient p (absPath (h ++ l)) = absPath (pf ++ l).
Proof.
  intros [Hh Hhn Hp Hpn _] Hl. unfold ToClient, Rel. rewrite Hh, !rooted_absPath. simpl.
  rewrite !cleanComps_absPath by (try apply Forall_app; done). rewrite stripCommon_app, Hp. rewrite decide_False by done.
  destruct l as [|x l]; [by rewrite app_nil_r|].
  unfold Join, nonEmpty. rewrite !filter_cons_True; [|by apply join_nonempty|done|done]. rewrite filter_nil.
  change (join ["/"%string; absPath pf; join (x :: l)]) with ("/" +:+ "/" +:+ (absPath pf +:+ "/" +:+ relString (x :: l))).
  rewrite Clean_slashes by (apply has_prefix_spec; unfold absPath; eexists; by rewrite string_app_assoc). by apply Clean_below.
Qed.

(** ** A prepared file system *)

Record mount_wf (o : FS) (m : Mount * root) (src t : list string) : Prop := {
  mw_paths : paths_wf (rootPaths m.2) src t;
  mw_target : Target m.1 = absPath t; mw_source : Source m.1 = absPath src;
  mw_below : t ≠ []; mw_readonly : readOnly m.2 = MountReadOnly m.1;
  mw_workdir : clientWorkdir (rootPaths m.2) = clientWorkdir (rootPaths (self o)) }.

Record fs_wf (o : FS) : Prop := {
  fw_self : ∃ h, paths_wf (rootPaths (self o)) h [];
  fw_mounts : Forall (λ m, ∃ src t, mount_wf o m src t) (mappings o);
  fw_disjoint : pairwise (λ m m', PathsOverlap (Target m.1) (Target m'.1) = false ∧
                                  PathsOverlap (Source m.1) (Source m'.1) = false) (mappings o);
  fw_ids : NoDup (rootID (self o) :: ((λ m, rootID m.2) <$> mappings o));
  fw_writable : readOnly (self o) = false }.

Lemma bindMount_wf o m source carrierRoot id owner :
  fs_wf o → checkMount o m source carrierRoot = Ok () →
  Clean source = source → Clean (Target m) = Target m → id ∉ rootID (self o) :: ((λ m, rootID m.2) <$> mappings o) →
  fs_wf (bindMount o m source id owner).
Proof.
  intros [Hself Hm Hd Hi Hrw] Ha Hcs Hct Hid. unfold checkMount in Ha.
  destruct (negb (IsAbs source) || _) eqn:E1; [done|]. apply orb_false_iff in E1 as [Habs%negb_false_iff Hroot].
  destruct (NormalizeMounts _) as [out|] eqn:En; [|done]. apply normalize_mounts_ok in En as (Hok&_&Hperm&_).
  destruct carrierRoot as [carrier|]; [|done]. simpl in Ha.
  destruct (_ || existsb _ _) eqn:E2; [done|]. apply orb_false_iff in E2 as [_ Hex].
  assert (host_ok (Target m)) as [Hta Htr].
  { assert (cleanMount (mkMount "prepared" (Target m) false) ∈ out) as Hin by (rewrite Hperm; left).
    rewrite Forall_forall in Hok. destruct (Hok _ Hin) as (_&Hh&_). simpl in Hh. by rewrite Hct in Hh. }
  destruct (clean_absolute source Habs) as (src&Hsrc&Esrc&_). rewrite Hcs in Esrc.
  destruct (clean_absolute (Target m) Hta) as (t&Ht&Et&_). rewrite Hct in Et.
  unfold bindMount. destruct (if Owned m then owner else (-1, -1)) as [uid gid].
  destruct Hself as [h Hs]. split; simpl; [by exists h| | | |done].
  - apply Forall_app. split; [eapply Forall_impl; [exact Hm|]; intros x (s&tt&[]); by exists s, tt|].
    constructor; [|done]. exists src, t. split; simpl; try done.
    + split; simpl; rewrite ?Hcs; try done. apply (pw_workdir _ _ _ Hs).
    + intros ->. by rewrite Et in Htr.
  - apply pairwise_app. split_and!; [done|done|]. apply Forall_forall. intros x Hx. constructor; [|done]. simpl.
    rewrite existsb_false_forall, Forall_forall in Hex. specialize (Hex x Hx). apply orb_false_iff in Hex.
    by rewrite (PathsOverlap_sym (Target x.1)), (PathsOverlap_sym (Source x.1)).
  - rewrite fmap_app. change (NoDup ((rootID (self o) :: ((λ m, rootID m.2) <$> mappings o)) ++ [id])).
    apply NoDup_app. split_and!; [done|set_solver|apply NoDup_singleton].
Qed.

Lemma pairwise_fmap {A B} (R : B → B → Prop) (f : A → B) l : pairwise R (f <$> l) ↔ pairwise (λ x y, R (f x) (f y)) l.
Proof. induction l as [|x l IH]; [done|]. simpl. by rewrite Forall_fmap, IH. Qed.

(** Changing owners keeps a file system well formed. *)
Lemma fs_wf_update o o' :
  fs_wf o → rootPaths (self o') = rootPaths (self o) → rootID (self o') = rootID (self o) → readOnly (self o') = readOnly (self o) →
  Forall2 (λ m' m, m'.1 = m.1 ∧ rootPaths m'.2 = rootPaths m.2 ∧ rootID m'.2 = rootID m.2 ∧ readOnly m'.2 = readOnly m.2) (mappings o') (mappings o) →
  fs_wf o'.
Proof.
  intros [Hself Hm Hd Hi Hrw] E1 E2 E3 Hall. split; rewrite ?E1, ?E2, ?E3; try done.
  - clear Hd Hi. induction Hall as [|m' m l' l (F1&F2&F3&F4) Hall IH]; [done|]. inversion Hm as [|? ? (s&t&[]) Hm']; subst.
    constructor; [|by apply IH]. exists s, t. split; rewrite ?F1, ?F2, ?F4, ?E1; done.
  - assert (fst <$> mappings o' = fst <$> mappings o) as Efst.
    { clear Hd Hm Hi. induction Hall as [|? ? ? ? (F1&_) _ IH]; [done|]. by rewrite !fmap_cons, F1, IH. }
    set (R := λ m m' : Mount, PathsOverlap (Target m) (Target m') = false ∧ PathsOverlap (Source m) (Source m') = false) in *.
    apply (pairwise_fmap R fst). rewrite Efst. by apply (pairwise_fmap R fst).
  - clear Hm Hd. assert ((λ m, rootID m.2) <$> mappings o' = (λ m, rootID m.2) <$> mappings o) as ->; [|done].
    clear Hi. induction Hall as [|? ? ? ? (_&_&F3&_) _ IH]; [done|]. by rewrite !fmap_cons, F3, IH.
Qed.

(** ** Routing *)

(** The client path of a name, whichever root serves it. *)
Definition named (o : FS) (p : string) : list string := clientComps (rootPaths (self o)) p.

Lemma trim_slash r : trim_prefix ("/" +:+ r) "/" = r.
Proof.
  unfold trim_prefix. replace (has_prefix ("/" +:+ r) "/") with true by (symmetry; apply has_prefix_spec; by eexists).
  change ("/" +:+ r) with (String slash r). cbn [String.length]. rewrite Nat.sub_succ, Nat.sub_0_r. simpl.
  induction r as [|c r IH]; [done|]. simpl. by rewrite IH.
Qed.

Lemma clientPath_named o p :
  IsAbs (clientWorkdir (rootPaths (self o))) = true → p ≠ ""%string → clientPath o p = absPath (named o p).
Proof.
  intros Hw Hp. unfold named. rewrite <- (proj1 (clientClean_abs _ p)). unfold clientPath, clientClean. destruct (IsAbs p) eqn:Ha.
  - apply has_prefix_spec in Ha as [r ->]. by rewrite trim_slash.
  - unfold Join, nonEmpty. rewrite filter_cons_True by (by intros E; rewrite E in Hw). rewrite filter_cons_True by done.
    rewrite filter_nil. set (x := join _).
    assert (rootedPath x = true) as Hx.
    { unfold x. simpl. apply has_prefix_spec in Hw as [r ->]. apply has_prefix_spec. exists (r +:+ "/" +:+ p). by rewrite string_app_assoc. }
    destruct (clean_absolute x Hx) as (l&Hl&->&_). unfold absPath at 2. rewrite trim_slash. change ("/" +:+ join l) with (absPath l).
    by rewrite clean_absPath.
Qed.

Section routing.
Variable o : FS.
Hypothesis Ho : fs_wf o.

Lemma named_normal p : Forall normal (named o p).
Proof using Type. apply clientClean_abs. Qed.
Lemma self_workdir : IsAbs (clientWorkdir (rootPaths (self o))) = true.
Proof using Ho. destruct (fw_self _ Ho) as [h Hh]. apply Hh. Qed.

(** Whether a mount holds a client path. *)
Lemma mount_within m p : m ∈ mappings o → p ≠ ""%string →
  ∃ src t, mount_wf o m src t ∧ (within (Target m.1) (clientPath o p) = true ↔ t `prefix_of` named o p).
Proof using Ho.
  intros Hin Hp. pose proof (fw_mounts _ Ho) as Hm. rewrite Forall_forall in Hm. destruct (Hm m Hin) as (src&t&Hw).
  exists src, t. split; [done|]. rewrite (mw_target _ _ _ _ Hw), clientPath_named by auto using self_workdir.
  apply within_abs; [apply Hw|apply named_normal].
Qed.

(** The root that serves a path: the one whose prefix the path extends, a mount rather
    than the bed's own data. *)
Definition serves (r : root) (h pf : list string) (p : string) : Prop :=
  paths_wf (rootPaths r) h pf ∧ pf `prefix_of` named o p ∧
  (r = self o ∧ pf = [] ∧ (∀ m t, m ∈ mappings o → Target m.1 = absPath t → Forall normal t → ¬ t `prefix_of` named o p) ∨
   ∃ m, (m, r) ∈ mappings o ∧ mount_wf o (m, r) h pf).

Lemma head_filter {A} (P : A → Prop) `{!∀ x, Decision (P x)} (l : list A) :
  match head (filter P l) with Some x => x ∈ l ∧ P x | None => Forall (λ x, ¬ P x) l end.
Proof using Type.
  induction l as [|x l IH]; simpl; [done|]. rewrite filter_cons. case_decide as E; simpl; [split; [left|done]|].
  destruct (head (filter P l)); [destruct IH; split; [by right|done]|by constructor].
Qed.

Lemma mapped_serves p : p ≠ ""%string → ∃ h pf, serves (default (self o) (mapped o p)) h pf p.
Proof using Ho.
  intros Hp. unfold mapped. pose proof (head_filter (λ m : Mount * root, within (Target m.1) (clientPath o p)) (mappings o)) as Hh.
  destruct (head (filter _ (mappings o))) as [m|]; simpl.
  - destruct Hh as [Hin Hw%Is_true_true]. destruct (mount_within m p Hin Hp) as (src&t&Hm&Hiff).
    exists src, t. split_and!; [apply Hm|by apply Hiff|]. right. exists m.1. by destruct m.
  - destruct (fw_self _ Ho) as [h Hs]. exists h, []. split_and!; [done|apply prefix_nil|]. left. split_and!; [done|done|].
    intros m t Hin Et Ht Hpre. rewrite Forall_forall in Hh. apply (Hh m Hin), Is_true_true.
    destruct (mount_within m p Hin Hp) as (src&t'&Hm&Hiff). apply Hiff.
    assert (t' = t) as ->; [|done]. apply absPath_inj; [apply Hm|done|]. by rewrite <- Et, (mw_target _ _ _ _ Hm).
Qed.

(** The steps every operation starts with. *)
Lemma locate_spec p w r full rel :
  locate o p w = Ok (r, full, rel) →
  r = default (self o) (mapped o p) ∧ (w = true → readOnly r = false) ∧ p ≠ ""%string ∧
  ∃ h pf, serves r h pf p ∧ named o p = pf ++ rel ∧ full = absPath (h ++ rel) ∧ Forall normal rel.
Proof using Ho.
  unfold locate, route. set (r0 := default (self o) (mapped o p)). destruct (w && readOnly r0) eqn:Ew; [done|]. simpl.
  destruct (FromClient (rootPaths r0) p) as [f|] eqn:Ef; [|done]. simpl.
  destruct (decide (p = "")%string) as [->|Hp]; [by unfold FromClient in Ef|].
  destruct (mapped_serves p Hp) as (h&pf&Hs). fold r0 in Hs. destruct Hs as (Hw&Hpre&Hk).
  apply (FromClient_spec _ _ _ _ _ Hw) in Ef as (_&_&l&El&->).
  assert (clientComps (rootPaths r0) p = named o p) as Enamed.
  { unfold named. destruct Hk as [(->&_)|(m&_&Hm)]; [done|]. unfold clientComps, clientClean. pose proof (mw_workdir _ _ _ _ Hm) as Ewd. simpl in Ewd. by rewrite Ewd. }
  rewrite Enamed in El. pose proof (named_normal p) as Hn. rewrite El, Forall_app in Hn. destruct Hn as [_ Hl].
  unfold relative, Rootfs. rewrite (pw_home _ _ _ Hw).
  assert (relativeTo (absPath h) (absPath (h ++ l)) = Some l) as ->.
  { apply relativeTo_abs; [apply Hw|apply Forall_app; split; [apply Hw|done]|done]. }
  simpl. intros [= <- <- <-]. split_and!; [done|by intros ->; destruct (readOnly r0)|done|].
  exists h, pf. split_and!; [by split_and!|done|done|done].
Qed.
End routing.

(** A client path survives the trip to the carrier and back: what an operation
    reports for a located file is the cleaned client path it was asked for, for the
    bed's own data and for every mount, and two names reach the same carrier path only
    if they are the same client path. *)
Lemma client_path_roundtrip o p p' w w' r r' full rel rel' :
  fs_wf o → locate o p w = Ok (r, full, rel) →
  ToClient (rootPaths r) full = clientPath o p ∧
  (locate o p' w' = Ok (r', full, rel') → r' = r → clientPath o p' = clientPath o p).
Proof.
  intros Ho Hl. destruct (locate_spec o Ho _ _ _ _ _ Hl) as (_&_&Hp&h&pf&Hs&En&->&Hn).
  rewrite clientPath_named by auto using self_workdir. rewrite En. destruct Hs as (Hw&_).
  split; [by apply ToClient_below|]. intros Hl' ->.
  destruct (locate_spec o Ho _ _ _ _ _ Hl') as (_&_&Hp'&h'&pf'&(Hw'&_)&En'&Ef&Hn').
  rewrite clientPath_named, En' by auto using self_workdir.
  assert (h = h' ∧ pf = pf') as [<- <-].
  { split; (apply absPath_inj; [apply Hw|apply Hw'|]); [by rewrite <- (pw_home _ _ _ Hw), (pw_home _ _ _ Hw')|].
    by rewrite <- (pw_prefix _ _ _ Hw), (pw_prefix _ _ _ Hw'). }
  apply absPath_inj in Ef; [|apply Forall_app; split; [apply Hw|done]..]. apply app_inv_head in Ef. by subst.
Qed.

(** ** The process view *)

Lemma joinProcessPath_abs l rel : Forall normal l → Forall normal rel → joinProcessPath (absPath l) rel = absPath (l ++ rel).
Proof.
  intros Hl Hr. unfold joinProcessPath. destruct rel as [|x rel]; [by rewrite app_nil_r|].
  rewrite <- (Join_below l (x :: rel)) by done. done.
Qed.

(** The data a view projects: the working directory is a clean path, and no mount has
    its source in the bed's own data, nor holds it. *)
Record view_wf (o : FS) : Prop := {
  vw_fs : fs_wf o;
  vw_workdir : Clean (clientWorkdir (rootPaths (self o))) = clientWorkdir (rootPaths (self o));
  vw_apart : ∀ m, m ∈ mappings o → PathsOverlap (Source m.1) (Rootfs (self o)) = false }.

Section view.
Variable o : FS.
Hypothesis Hv : view_wf o.
Let Ho : fs_wf o := vw_fs _ Hv.

(** The mount whose source holds a carrier path: the one that serves it, if any. *)
Lemma source_apart m src t h rel :
  m ∈ mappings o → mount_wf o m src t → paths_wf (rootPaths (self o)) h [] → Forall normal rel → ¬ src `prefix_of` h ++ rel.
Proof using Hv.
  intros Hin Hmw Hw Hn Hpre. pose proof (vw_apart _ Hv m Hin) as Ha.
  rewrite (mw_source _ _ _ _ Hmw) in Ha. unfold Rootfs in Ha. rewrite (pw_home _ _ _ Hw) in Ha.
  apply not_true_iff_false in Ha. apply Ha, overlap_components; [apply Hmw|apply Hw|].
  apply (prefix_weak_total src h (h ++ rel)); [done|by apply prefix_app_r].
Qed.
Lemma source_of_self h rel : paths_wf (rootPaths (self o)) h [] → Forall normal rel →
  head (filter (λ m : Mount * root, within (Source m.1) (absPath (h ++ rel))) (mappings o)) = None.
Proof using Hv.
  intros Hw Hn. pose proof (head_filter (λ m : Mount * root, within (Source m.1) (absPath (h ++ rel))) (mappings o)) as Hh.
  destruct (head (filter _ _)) as [m|]; [|done]. exfalso. destruct Hh as [Hin Hwi%Is_true_true].
  pose proof (fw_mounts _ Ho) as Hm. rewrite Forall_forall in Hm. destruct (Hm m Hin) as (src&t&Hmw).
  rewrite (mw_source _ _ _ _ Hmw) in Hwi. apply within_abs in Hwi; [|apply Hmw|apply Forall_app; split; [apply Hw|done]].
  by apply (source_apart m src t h rel).
Qed.

Lemma source_of_mount m r src t rel : (m, r) ∈ mappings o → mount_wf o (m, r) src t → Forall normal rel →
  head (filter (λ m : Mount * root, within (Source m.1) (absPath (src ++ rel))) (mappings o)) = Some (m, r).
Proof using Hv.
  intros Hin Hmw Hn. pose proof (head_filter (λ m : Mount * root, within (Source m.1) (absPath (src ++ rel))) (mappings o)) as Hh.
  assert (Forall normal (src ++ rel)) as Hsr by (apply Forall_app; split; [apply Hmw|done]).
  destruct (head (filter _ _)) as [m'|]; simpl in Hh.
  - destruct Hh as [Hin' Hwi%Is_true_true]. destruct (decide (m' = (m, r))) as [->|Hne]; [done|]. exfalso.
    assert (PathsOverlap (Source m'.1) (Source (m, r).1) = false) as Hd.
    { refine (proj2 (pairwise_elem _ _ m' (m, r) _ (fw_disjoint _ Ho) Hin' Hin Hne)). simpl. intros x y [H1 H2].
      by rewrite (PathsOverlap_sym (Target y.1)), (PathsOverlap_sym (Source y.1)). }
    pose proof (fw_mounts _ Ho) as Hm. rewrite Forall_forall in Hm. destruct (Hm m' Hin') as (src'&t'&Hmw').
    rewrite (mw_source _ _ _ _ Hmw') in *. pose proof (mw_source _ _ _ _ Hmw) as Es. simpl in Es, Hd. rewrite Es in Hd.
    apply within_abs in Hwi; [|apply Hmw'|done]. apply not_true_iff_false in Hd.
    apply Hd, overlap_components; [apply Hmw'|apply Hmw|]. apply (prefix_weak_total src' src (src ++ rel)); [done|by apply prefix_app_r].
  - exfalso. rewrite Forall_forall in Hh. apply (Hh (m, r) Hin), Is_true_true. pose proof (mw_source _ _ _ _ Hmw) as Es. simpl in *.
    rewrite Es. apply within_abs; [apply Hmw|done|by apply prefix_app_r].
Qed.

(** The carrier path of the working directory. *)
Lemma workdirHost_spec :
  ∃ wd, Forall normal wd ∧ clientWorkdir (rootPaths (self o)) = absPath wd ∧
    (has_prefix (absPath wd) "~" = false) ∧
    ((∃ h, paths_wf (rootPaths (self o)) h [] ∧ workdirHost o = absPath (h ++ wd)) ∨
     (∃ m r src t l, (m, r) ∈ mappings o ∧ mount_wf o (m, r) src t ∧ Forall normal l ∧ workdirHost o = absPath (src ++ l))).
Proof using Hv.
  pose proof (self_workdir o Ho) as Ha. destruct (clean_absolute _ Ha) as (wd&Hwd&Ewd&Ecomp). rewrite (vw_workdir _ Hv) in Ewd.
  exists wd. split_and!; [done|done|done|]. set (p := clientWorkdir (rootPaths (self o))) in *.
  assert (p ≠ ""%string) as Hp by (by rewrite Ewd).
  assert (named o p = wd) as En.
  { apply absPath_inj; [apply named_normal|done|]. rewrite <- (clientPath_named o p) by (auto using self_workdir).
    unfold clientPath. rewrite Ha. unfold p. rewrite (vw_workdir _ Hv). done. }
  destruct (mapped_serves o Ho p Hp) as (h&pf&Hw&[l El]&Hk). rewrite En in El.
  assert (Resolve o p = FromClient (rootPaths (default (self o) (mapped o p))) p) as ER by (unfold Resolve; by destruct (mapped o p)).
  assert (clientComps (rootPaths (default (self o) (mapped o p))) p = wd) as Ecc.
  { rewrite <- En. unfold named. destruct Hk as [(->&_)|(m&_&Hm)]; [done|]. unfold clientComps, clientClean.
    pose proof (mw_workdir _ _ _ _ Hm) as Ew. simpl in Ew. by rewrite Ew. }
  assert (Resolve o p = Ok (absPath (h ++ l))) as ER'.
  { rewrite ER. apply (FromClient_spec _ _ _ _ _ Hw). split_and!; [done|by rewrite Ewd|]. exists l. by rewrite Ecc, El. }
  unfold workdirHost. fold p. rewrite ER'. destruct Hk as [(Er&->&_)|(m&Hin&Hm)].
  - left. exists h. rewrite Er in Hw. simpl in El. by subst l.
  - right. exists m, (default (self o) (mapped o p)), h, pf, l. rewrite El, Forall_app in Hwd. by destruct Hwd.
Qed.

(** A carrier path of the bed's own data, projected into a rooted process. *)
Lemma rooted_self support h rel :
  paths_wf (rootPaths (self o)) h [] → Forall normal rel →
  Path (RootedView o support) (absPath (h ++ rel)) = Ok (absPath rel).
Proof using Hv.
  intros Hw Hn. unfold Path. simpl. rewrite (source_of_self h rel Hw Hn).
  assert (Forall normal (h ++ rel)) as Hhr by (apply Forall_app; split; [apply Hw|done]).
  unfold Rootfs. rewrite (pw_home _ _ _ Hw).
  rewrite (proj2 (relativeTo_abs h (h ++ rel) rel (pw_home_normal _ _ _ Hw) Hhr)) by done.
  destruct workdirHost_spec as (wd&Hwd&Ewd&_&Hk). rewrite Ewd, bool_decide_false by done.
  destruct (relativeTo (workdirHost o) (absPath (h ++ rel))) as [rel'|] eqn:Er.
  - destruct Hk as [(h'&Hw'&Eh)|(m&r&src&t&l&Hin&Hm&Hln&Eh)]; rewrite Eh in Er.
    + assert (h' = h) as -> by (apply absPath_inj; [apply Hw'|apply Hw|by rewrite <- (pw_home _ _ _ Hw'), (pw_home _ _ _ Hw)]).
      apply relativeTo_abs in Er; [|apply Forall_app; split; [apply Hw|done]|done]. rewrite <- (assoc_L app) in Er. apply app_inv_head in Er.
      subst rel. apply Forall_app in Hn as [_ Hn]. by rewrite joinProcessPath_abs.
    + exfalso. apply relativeTo_abs in Er; [|apply Forall_app; split; [apply Hm|done]|done]. rewrite <- (assoc_L app) in Er.
      apply (source_apart (m, r) src t h rel Hin Hm Hw Hn). by eexists.
  - change "tmp"%string with (relString ["tmp"%string]).
    assert (Forall normal ["tmp"%string]) as Htmp by (apply Forall_singleton; by vm_compute; split_and!; try done; set_solver).
    rewrite Join_below by (try apply Hw; done). destruct (relativeTo (absPath (h ++ ["tmp"%string])) _) as [rel'|] eqn:Et.
    + apply relativeTo_abs in Et; [|apply Forall_app; split; [apply Hw|done]|done]. rewrite <- (assoc_L app) in Et. apply app_inv_head in Et.
      subst rel. apply Forall_app in Hn as [_ Hn]. change TemporaryDir with (absPath ["tmp"%string]). by rewrite joinProcessPath_abs.
    + change "/"%string with (absPath []). by rewrite joinProcessPath_abs.
Qed.
End view.

(** Commands and file operations name files alike: in a rooted process, the path of
    every file that the file operations locate, in the bed's own data, in its temporary
    or working directory or in a mount, is the cleaned client path itself. *)
Lemma rooted_view_agrees o support p w r full rel :
  view_wf o → locate o p w = Ok (r, full, rel) → Path (RootedView o support) full = Ok (clientPath o p).
Proof.
  intros Hv Hl. pose proof (vw_fs _ Hv) as Ho. destruct (locate_spec o Ho _ _ _ _ _ Hl) as (_&_&Hp&h&pf&(Hw&_&Hk)&En&->&Hn).
  rewrite (clientPath_named o p) by auto using self_workdir. rewrite En. destruct Hk as [(->&->&_)|(m&Hin&Hm)].
  - by apply rooted_self.
  - unfold Path. simpl. rewrite (source_of_mount o Hv m r h pf rel Hin Hm Hn). pose proof (mw_source _ _ _ _ Hm) as Es.
    pose proof (mw_target _ _ _ _ Hm) as Et. simpl in Es, Et. rewrite Es, Et, orb_true_r.
    rewrite (proj2 (relativeTo_abs h (h ++ rel) rel (pw_home_normal _ _ _ Hw) ltac:(apply Forall_app; split; [apply Hw|done]))) by done.
    simpl. rewrite joinProcessPath_abs; [done|apply Hw|done].
Qed.

(** ** A bed with two mounts *)

Module Demo.
Definition bed0 : FS := mkFS (mkRoot 0 (newPaths "/beds/a/data") false 2001 2001) [].
Definition shared : Mount := mkMountPoint "/srv/shared" "/data" true false.
Definition cache : Mount := mkMountPoint "/beds/volumes/cache" "/var/cache" false true.
Definition bed1 : FS := bindMount bed0 shared "/srv/shared" 1 (-1, -1).
Definition bed2 : FS := bindMount bed1 cache "/beds/volumes/cache" 2 (2001, 2001).

Lemma normal_dec c : bool_decide (c ≠ ""%string) && bool_decide (c ≠ "."%string) && bool_decide (c ≠ ".."%string) && bool_decide (slash ∉ to_list c) = true → normal c.
Proof. rewrite !andb_true_iff, !bool_decide_eq_true. unfold normal, no_slash. tauto. Qed.

Lemma bed0_wf : fs_wf bed0.
Proof.
  split; [|constructor|done|apply NoDup_singleton|done]. exists ["beds"; "a"; "data"]%string.
  split; [reflexivity| |reflexivity|constructor|reflexivity]. repeat constructor; by apply normal_dec.
Qed.
Lemma bed2_wf : fs_wf bed2.
Proof.
  apply (bindMount_wf bed1 cache _ (Ok "/beds"%string)); [|vm_compute; reflexivity..|set_solver].
  apply (bindMount_wf bed0 shared _ (Ok "/beds"%string)); [apply bed0_wf|vm_compute; reflexivity..|set_solver].
Qed.
Lemma bed2_view : view_wf bed2.
Proof.
  split; [apply bed2_wf|reflexivity|]. intros m Hm. repeat (apply elem_of_cons in Hm as [->|Hm]; [vm_compute; reflexivity|]).
  by apply elem_of_nil in Hm.
Qed.
End Demo.

