(* ===== verification/BedFSTheorems.v ===== *)
(** * BedFSTheorems: what the operations of a BedFS ask of the host *)

From S2P Require Import Prelude Lines Bed Volumes BedFS BedFSPaths.

(** ** Statements about every call of a program *)

(** What the host documents about its answers: the names in a directory are components. *)
Definition answer_ok {X} (c : call X) : X → Prop :=
  match c in call X return X → Prop with
  | ReadDir _ _ => λ x, match x with Ok es => Forall (λ e, normal (enName e)) es | Err _ => True end
  | _ => λ _, True
  end.
(** Every call the program may make, whatever the host answers. *)
Fixpoint every {A} (P : ∀ X, call X → Prop) (m : prog A) : Prop :=
  match m with
  | Ret _ => True
  | Do c k => P _ c ∧ ∀ x, answer_ok c x → every P (k x)
  end.

(** The root a call addresses, its paths, whether it changes the root, and the paths it removes or replaces. *)
Definition callRoot {X} (c : call X) : Z :=
  match c with
  | Lstat r _ | StatAt r _ | ReadFile r _ | WriteFile r _ _ _ | MkdirAll r _ | Lchown r _ _ _ | RemoveAt r _ | RemoveAll r _
  | RenameAt r _ _ | OpenAt r _ | ChmodAt r _ _ | ReadDir r _ => r
  end.
Definition callPaths {X} (c : call X) : list (list string) :=
  match c with
  | Lstat _ l | StatAt _ l | ReadFile _ l | WriteFile _ l _ _ | MkdirAll _ l | Lchown _ l _ _ | RemoveAt _ l | RemoveAll _ l
  | OpenAt _ l | ChmodAt _ l _ | ReadDir _ l => [l]
  | RenameAt _ a b => [a; b]
  end.
Definition mutates {X} (c : call X) : bool :=
  match c with Lstat _ _ | StatAt _ _ | ReadFile _ _ | OpenAt _ _ | ReadDir _ _ => false | _ => true end.
Definition destroyed {X} (c : call X) : list (list string) :=
  match c with RemoveAt _ l | RemoveAll _ l => [l] | RenameAt _ a b => [a; b] | _ => [] end.

Section every.
Context {A B : Type} (P : ∀ X, call X → Prop).

Lemma every_bind (m : prog A) (f : A → prog B) : every P m → (∀ a, every P (f a)) → every P (m ≫= f).
Proof using Type. intros Hm Hf. induction m as [a|X c k IH]; [apply Hf|]. destruct Hm as [Hc Hk]. split; [done|]. intros x Hx. by apply IH, Hk. Qed.
Lemma every_perform (c : call A) : P _ c → every P (perform c).
Proof using Type. by intros. Qed.
(** A call, and the rest of the program on the answers the host may give. *)
Lemma every_do (c : call A) (f : A → prog B) : P _ c → (∀ x, answer_ok c x → every P (f x)) → every P (perform c ≫= f).
Proof using Type. by split. Qed.
End every.

Lemma every_attempt {A B} P (r : result fs_err A) (k : A → prog (result fs_err B)) :
  (∀ a, r = Ok a → every P (k a)) → every P (attempt r k).
Proof. destruct r; simpl; auto. Qed.
Lemma every_then {A B} P (m : prog (result fs_err A)) (k : A → prog (result fs_err B)) :
  every P m → (∀ a, every P (k a)) → every P (m ≫= λ y, attempt y k).
Proof. intros Hm Hk. apply every_bind; [done|]. intros a. by apply every_attempt. Qed.

Lemma every_impl {A} P Q (m : prog A) : (∀ X (c : call X), P X c → Q X c) → every P m → every Q m.
Proof. intros H. induction m as [|X c k IH]; [done|]. intros [Hc Hk]. split; [auto|]. intros x Hx. auto. Qed.

(** ** Confinement *)

Section confinement.
Variable o : FS.
Hypothesis Ho : fs_wf o.

(** A root of this file system. *)
Definition root_ok (r : root) : Prop :=
  (r = self o ∨ ∃ m, (m, r) ∈ mappings o) ∧ ∃ h pf, paths_wf (rootPaths r) h pf.

(** A path below a root that is neither the bed's root nor a mount or a directory above one. *)
Definition spares (r : root) (l : list string) : Prop :=
  ∀ pf, pathsPrefix (rootPaths r) = absPath pf → Forall normal pf →
    pf ++ l ≠ [] ∧ ∀ m t, m ∈ mappings o → Target m.1 = absPath t → Forall normal t → ¬ (pf ++ l) `prefix_of` t.

(** A call on a root of the file system, below it, changing it only if it is writable,
    and never removing or replacing a mount. *)
Definition confined (X : Type) (c : call X) : Prop :=
  ∃ r, root_ok r ∧ callRoot c = rootID r ∧ Forall (Forall normal) (callPaths c) ∧
    (mutates c = true → readOnly r = false) ∧ Forall (spares r) (destroyed c).

Lemma serves_ok r h pf p : serves o r h pf p → root_ok r.
Proof using Type. intros (Hw&_&[(->&_)|(m&Hin&_)]); (split; [|eauto]); eauto. Qed.

Lemma locate_ok p w r full rel :
  locate o p w = Ok (r, full, rel) → root_ok r ∧ Forall normal rel ∧ (w = true → readOnly r = false).
Proof using Ho. intros (_&Hw&_&h&pf&Hs&_&_&Hn)%(locate_spec o Ho). split_and!; [by eapply serves_ok|done|done]. Qed.

Lemma confined_read {X} (c : call X) r rel :
  root_ok r → Forall normal rel → callRoot c = rootID r → callPaths c = [rel] → destroyed c = [] → mutates c = false → confined X c.
Proof using Type. intros Hr Hn E1 E2 E3 E4. exists r. rewrite E2, E3, E4. split_and!; [done|done|by constructor|done|done]. Qed.
Lemma confined_write {X} (c : call X) r rel :
  root_ok r → Forall normal rel → callRoot c = rootID r → callPaths c = [rel] → destroyed c = [] → readOnly r = false → confined X c.
Proof using Type. intros Hr Hn E1 E2 E3 E4. exists r. rewrite E2, E3. split_and!; [done|done|by constructor|done|done]. Qed.
(** A call on the path [rel] of the root [r]. *)
Ltac call_at r rel := first [apply (confined_read _ r rel); by auto|apply (confined_write _ r rel); by auto].

Lemma handOver_confined r up : root_ok r → readOnly r = false → Forall normal up → every confined (handOver r up).
Proof using Type.
  intros Hr Hw. induction up as [|x up IH]; intros Hn; simpl; apply Forall_reverse in Hn as Hrev.
  all: match goal with |- context [Lstat _ ?u] => split; [call_at r u|]; intros [fi|] _; simpl; [|done];
    destruct (inOwner fi) as [[uid gid]|]; [|done]; destruct (uid =? rootUID r); [done|]; split; [call_at r u|] end.
  - done.
  - intros _ _. simpl. apply IH. by inversion Hn.
Qed.
Lemma mkdirAllOwned_confined r rel : root_ok r → readOnly r = false → Forall normal rel → every confined (mkdirAllOwned r rel).
Proof using Type.
  intros Hr Hw Hn. unfold mkdirAllOwned. apply every_then; [apply every_perform; call_at r rel|]. intros _. destruct (rootUID r <? 0); [done|].
  apply every_bind; [|done]. apply handOver_confined; [done|done|by apply Forall_reverse].
Qed.
Lemma chownNew_confined r rel : root_ok r → readOnly r = false → Forall normal rel → every confined (chownNew r rel).
Proof using Type.
  intros Hr Hw Hn. unfold chownNew. destruct (rootUID r <? 0); [done|]. apply every_do; [call_at r rel|]. intros [fi|] _; [|done].
  destruct (_ && _); [done|]. apply every_do; [call_at r rel|]. done.
Qed.
Lemma parentOf_normal rel dir : Forall normal rel → parentOf rel = Ok dir → Forall normal dir.
Proof using Type.
  destruct rel as [|x rel]; [done|]. intros Hn [= <-]. revert x Hn. induction rel as [|y rel IH]; intros x Hn; [done|].
  inversion Hn; subst. constructor; [done|]. by apply IH.
Qed.

(** What the guard of the destructive operations gives. *)
Lemma guard_spares p r full rel :
  guardMappingRoot o p = Ok () → locate o p true = Ok (r, full, rel) → spares r rel.
Proof using Ho.
  intros Hg Hl. destruct (locate_spec o Ho _ _ _ _ _ Hl) as (_&_&Hp&h&pf&(Hw&_)&En&_&_). intros pf' Epf Hpf'.
  assert (pf' = pf) as -> by (apply absPath_inj; [done|apply Hw|by rewrite <- Epf, (pw_prefix _ _ _ Hw)]). rewrite <- En.
  unfold guardMappingRoot in Hg. rewrite (clientPath_named o p) in Hg by auto using self_workdir.
  destruct (fw_self _ Ho) as [h0 Hs]. rewrite (pw_prefix _ _ _ Hs) in Hg. destruct (_ && _) eqn:E1; [done|].
  destruct (existsb _ _) eqn:E2; [done|]. split.
  - intros E. rewrite E in E1. by vm_compute in E1.
  - intros m t Hin Et Ht Hpre. rewrite existsb_false_forall, Forall_forall in E2. specialize (E2 m Hin). simpl in E2.
    rewrite Et in E2. apply not_true_iff_false in E2. apply E2, within_abs; [apply named_normal|done|done].
Qed.

Ltac opened := apply every_attempt; intros [[r full] rel] Hl; destruct (locate_ok _ _ _ _ _ Hl) as (Hr&Hn&Hw).

Lemma Stat_confined p : every confined (Stat o p).
Proof using Ho. unfold Stat. opened. apply every_then; [apply every_perform; call_at r rel|done]. Qed.
Lemma Read_confined p : every confined (Read o p).
Proof using Ho. unfold Read. opened. apply every_perform. call_at r rel. Qed.
Lemma Write_confined p data mode : every confined (Write o p data mode).
Proof using Ho.
  unfold Write. opened. specialize (Hw eq_refl). apply every_attempt. intros dir Hd. apply parentOf_normal in Hd; [|done].
  apply every_then; [by apply mkdirAllOwned_confined|]. intros _. apply every_then; [apply every_perform; call_at r rel|]. intros _.
  apply every_bind; [by apply chownNew_confined|done].
Qed.
Lemma MakeDir_confined p : every confined (MakeDir o p).
Proof using Ho. unfold MakeDir. opened. by apply mkdirAllOwned_confined; auto. Qed.

Lemma confined_destroy {X} (c : call X) r rel :
  root_ok r → Forall normal rel → callRoot c = rootID r → callPaths c = [rel] → destroyed c = [rel] → readOnly r = false →
  spares r rel → confined X c.
Proof using Type.
  intros Hr Hn E1 E2 E3 E4 Hs. exists r. rewrite E2, E3. split_and!; [done|done|by constructor|done|by constructor].
Qed.

Lemma removeOne_confined p : every confined (removeOne o p).
Proof using Ho.
  unfold removeOne. apply every_attempt. intros [] Hg. opened. specialize (Hw eq_refl). apply every_do; [call_at r rel|].
  intros [li|[]] _; try done. case_bool_decide; [done|]. apply every_perform. apply (confined_destroy _ r rel); eauto using guard_spares.
Qed.
Lemma Remove_confined ps : every confined (Remove o ps).
Proof using Ho. induction ps as [|p ps IH]; [done|]. apply every_then; [apply removeOne_confined|done]. Qed.
Lemma RemoveDir_confined p : every confined (RemoveDir o p).
Proof using Ho.
  unfold RemoveDir. apply every_attempt. intros [] Hg. opened. specialize (Hw eq_refl). apply every_do; [call_at r rel|].
  intros [li|[]] _; try done. case_bool_decide; [|done]. apply every_perform. apply (confined_destroy _ r rel); eauto using guard_spares.
Qed.

Lemma route_locate p r full rel :
  route o p true = Ok r → FromClient (rootPaths r) p = Ok full → relative r full = Ok rel → locate o p true = Ok (r, full, rel).
Proof using Type. intros H1 H2 H3. unfold locate. rewrite H1. simpl. rewrite H2. simpl. by rewrite H3. Qed.

Lemma ids_inj r r' : root_ok r → root_ok r' → rootID r = rootID r' → r = r'.
Proof using Ho.
  intros [Hr _] [Hr' _] E. pose proof (fw_ids _ Ho) as Hnd. apply NoDup_cons in Hnd as [Hni Hnd].
  assert (∀ m x, (m, x) ∈ mappings o → rootID (self o) ≠ rootID x) as Hself.
  { intros m x Hin Ex. apply Hni. rewrite Ex. apply list_elem_of_fmap. by exists (m, x). }
  destruct Hr as [->|[m Hm]], Hr' as [->|[m' Hm']]; [done|by destruct (Hself m' r')|by destruct (Hself m r)|].
  clear Hni Hself. induction (mappings o) as [|y l IH]; [by apply elem_of_nil in Hm|]. apply NoDup_cons in Hnd as [Hni Hnd].
  apply elem_of_cons in Hm as [Hm|Hm], Hm' as [Hm'|Hm'].
  - by simplify_eq.
  - exfalso. apply Hni. subst y. simpl. rewrite E. apply list_elem_of_fmap. by exists (m', r').
  - exfalso. apply Hni. subst y. simpl. rewrite <- E. apply list_elem_of_fmap. by exists (m, r).
  - by apply IH.
Qed.

Lemma Rename_confined src dest : every confined (Rename o src dest).
Proof using Ho.
  unfold Rename. apply every_attempt. intros [] Hgs. apply every_attempt. intros [] Hgd.
  apply every_attempt. intros r Hrs. apply every_attempt. intros r' Hrd. destruct (negb _) eqn:Eid; [done|].
  apply negb_false_iff, Z.eqb_eq in Eid.
  apply every_attempt. intros s Hs. apply every_attempt. intros d Hd. apply every_attempt. intros dRel HdRel.
  apply every_attempt. intros dir Hdir.
  assert (∀ p x f, route o p true = Ok x → FromClient (rootPaths r) p = Ok f → root_ok x) as Hok.
  { intros p x f Hx Hf. unfold route in Hx. destruct (_ && _); [done|]. simplify_eq.
    destruct (mapped_serves o Ho p) as (h&pf&Hsv); [by intros ->|]. by eapply serves_ok. }
  assert (r' = r) as -> by (symmetry; apply ids_inj; eauto). pose proof (route_locate _ _ _ _ Hrd Hd HdRel) as Hld.
  destruct (locate_ok _ _ _ _ _ Hld) as (Hr&Hnd&Hw). specialize (Hw eq_refl).
  apply every_then; [apply mkdirAllOwned_confined; eauto using parentOf_normal|]. intros _.
  apply every_attempt. intros sRel HsRel. pose proof (route_locate _ _ _ _ Hrs Hs HsRel) as Hls.
  destruct (locate_ok _ _ _ _ _ Hls) as (_&Hns&_). apply every_perform. exists r. simpl. split_and!; [done|done|by repeat constructor|done|].
  apply Forall_cons; split; [by apply (guard_spares src _ s)|]. apply Forall_cons; split; [by apply (guard_spares dest _ d)|done].
Qed.

Lemma ValidatePermission_confined p perm : every confined (ValidatePermission o p perm).
Proof using Ho.
  unfold ValidatePermission. apply every_attempt. intros _ _. destruct (_ || _); [done|].
  assert (root_ok (self o)) as Hself by (split; [by left|]; destruct (fw_self _ Ho) as [h Hh]; eauto).
  apply every_then; [|intros [[uid gid]|]; [by case_match|done]]. destruct (_ || _); [|done].
  apply every_then; [apply every_perform; call_at (self o) (@nil string)|]. intros fi. repeat case_match; done.
Qed.
Lemma Chmod_confined p perm : every confined (Chmod o p perm).
Proof using Ho.
  unfold Chmod. apply every_then; [apply ValidatePermission_confined|]. intros _. opened. specialize (Hw eq_refl).
  apply every_then; [apply every_perform; call_at r rel|]. intros fi.
  assert (every confined (perform (ChmodAt (rootID r) rel (Z.land (permMode perm) 511)))) as Hc by (apply every_perform; call_at r rel).
  destruct (_ && _); [done|]. destruct (inOwner fi) as [[uid gid]|]; [|done]. by destruct (_ && _).
Qed.
Lemma Replace_confined p old new : every confined (Replace o p old new).
Proof using Ho.
  unfold Replace. opened. specialize (Hw eq_refl). apply every_then; [apply every_perform; call_at r rel|]. intros data.
  case_decide; [done|]. destruct (replaceAll _ _ _ _) as [count out]. case_decide; [done|].
  apply every_do; [call_at r rel|]. intros li _. apply every_then; [apply every_perform; call_at r rel|done].
Qed.
Lemma ReadLines_confined p offset limit : every confined (ReadLines o p offset limit).
Proof using Ho. unfold ReadLines. apply every_then; [apply Read_confined|done]. Qed.
Lemma relative_normal r dir rel : root_ok r → relative r dir = Ok rel → Forall normal rel.
Proof using Type.
  intros [_ (h&pf&Hw)]. unfold relative, Rootfs. rewrite (pw_home _ _ _ Hw). destruct (relativeTo _ dir) as [x|] eqn:E; [|done].
  intros [= <-]. destruct (IsAbs dir) eqn:Ha.
  - destruct (clean_absolute dir Ha) as (l&Hl&El&_). assert (relativeTo (absPath h) (absPath l) = Some x) as E'.
    { rewrite <- E. unfold relativeTo. by rewrite <- El, clean_normal. }
    apply relativeTo_abs in E'; [|apply Hw|done]. rewrite E', Forall_app in Hl. by destruct Hl.
  - unfold relativeTo, Rel in E. rewrite clean_absPath, rooted_absPath in E by apply Hw.
    pose proof (is_abs_clean dir) as Hc. unfold IsAbs in *. by rewrite Hc, Ha in E.
Qed.
Lemma ensureIn_confined r dir : root_ok r → every confined (ensureIn r dir).
Proof using Type.
  intros Hr. unfold ensureIn. apply every_attempt. intros rel Hn%relative_normal; [|done].
  destruct (readOnly r) eqn:Ero; [|by apply mkdirAllOwned_confined].
  apply every_then; [apply every_perform; call_at r rel|done].
Qed.
Lemma self_ok : root_ok (self o).
Proof using Ho. split; [by left|]. destruct (fw_self _ Ho) as [h Hh]. eauto. Qed.
Lemma mount_ok_root m : m ∈ mappings o → root_ok m.2.
Proof using Ho.
  intros Hin. split; [right; exists m.1; by destruct m|]. pose proof (fw_mounts _ Ho) as Hm. rewrite Forall_forall in Hm.
  destruct (Hm m Hin) as (src&t&Hw). exists src, t. apply Hw.
Qed.
Lemma EnsureDir_confined dir : every confined (EnsureDir o dir).
Proof using Ho.
  unfold EnsureDir. pose proof (head_filter (λ m : Mount * root, within (Rootfs m.2) dir) (mappings o)) as Hh.
  destruct (head _) as [m|]; apply ensureIn_confined; [apply mount_ok_root, Hh|apply self_ok].
Qed.
Lemma PrepareTempdir_confined : every confined (PrepareTempdir o).
Proof using Ho.
  unfold PrepareTempdir. apply every_then; [apply EnsureDir_confined|]. intros _. apply every_perform.
  apply (confined_write _ (self o) ["tmp"%string]); try done; [apply self_ok| |apply Ho].
  apply Forall_singleton. by vm_compute; split_and!; try done; set_solver.
Qed.

(** A root without mappings, as the walks use it. *)
Lemma locate_plain r p r' full rel :
  root_ok r → locate (mkFS r []) p false = Ok (r', full, rel) → r' = r ∧ Forall normal rel.
Proof using Type.
  intros (_&h&pf&Hw). unfold locate, route. simpl. destruct (FromClient (rootPaths r) p) as [f|] eqn:Ef; [|done]. simpl.
  apply (FromClient_spec _ _ _ _ _ Hw) in Ef as (_&_&l&El&->). pose proof (proj2 (clientClean_abs (rootPaths r) p)) as Hn.
  rewrite El, Forall_app in Hn. destruct Hn as [_ Hl]. unfold relative, Rootfs. rewrite (pw_home _ _ _ Hw).
  assert (relativeTo (absPath h) (absPath (h ++ l)) = Some l) as ->; [|by intros [= <- <- <-]].
  apply relativeTo_abs; [apply Hw|apply Forall_app; split; [apply Hw|done]|done].
Qed.
Lemma Stat_plain r p : root_ok r → every confined (Stat (mkFS r []) p).
Proof using Type.
  intros Hr. unfold Stat. apply every_attempt. intros [[r' full] rel] Hl. destruct (locate_plain _ _ _ _ _ Hr Hl) as [-> Hn].
  apply every_then; [apply every_perform; call_at r rel|done].
Qed.

(** A file system a walk runs on: the whole one, or one of its roots. *)
Definition walkable (o1 : FS) : Prop := o1 = o ∨ ∃ r, root_ok r ∧ o1 = mkFS r [].
Lemma walkable_self o1 : walkable o1 → root_ok (self o1).
Proof using Ho. intros [->|(r&Hr&->)]; [|done]. split; [by left|]. destruct (fw_self _ Ho) as [h Hh]. eauto. Qed.
Lemma walkable_Stat o1 p : walkable o1 → every confined (Stat o1 p).
Proof using Ho. intros [->|(r&Hr&->)]; [apply Stat_confined|by apply Stat_plain]. Qed.
Lemma mapped_ok p r : mapped o p = Some r → root_ok r.
Proof using Ho.
  intros E. pose proof (head_filter (λ m : Mount * root, within (Target m.1) (clientPath o p)) (mappings o)) as Hh.
  unfold mapped in E. destruct (head (filter _ (mappings o))) as [m|]; [|done]. simplify_eq/=. by apply mount_ok_root, Hh.
Qed.
Lemma walkable_mapped o1 p r : walkable o1 → mapped o1 p = Some r → root_ok r.
Proof using Ho. intros [->|(r'&_&->)]; [apply mapped_ok|done]. Qed.
Lemma routed_walkable p : walkable (routed o p).
Proof using Ho. unfold routed. destruct (mapped o p) as [r|] eqn:E; [right; exists r; split; [by eapply mapped_ok|done]|by left]. Qed.

Section walks.
Variable o1 : FS.
Hypothesis Hwk : walkable o1.

Lemma listWalk_confined onMapped d dir rel :
  (∀ r p d, root_ok r → every confined (onMapped r p d)) → Forall normal rel → every confined (listWalk onMapped o1 d dir rel).
Proof using Ho Hwk.
  intros Hon. revert dir rel. induction d as [|d IH]; intros dir rel Hn; [done|]. cbn [listWalk].
  destruct (mapped o1 _) as [r|] eqn:Em; [apply Hon; by eapply walkable_mapped|].
  pose proof (walkable_self _ Hwk) as Hr.
  apply every_do; [call_at (self o1) rel|]. intros [es|] Hes; [|done]. simpl in Hes. cbn [attempt].
  induction Hes as [|e es He Hes IHes]; [done|]. destruct (enInfo e) as [fi|]; [|done].
  apply every_then.
  { unfold listEntry. case_match; [by apply walkable_Stat|done]. }
  intros ent. apply every_then; [|intros sub; by apply every_then].
  destruct (enDir e && _); [|done]. apply IH. apply Forall_app. split; [done|by apply Forall_singleton].
Qed.
Lemma listAt_confined onMapped loc depth :
  (∀ r p d, root_ok r → every confined (onMapped r p d)) → root_ok loc.1.1 → Forall normal loc.2 → every confined (listAt onMapped o1 loc depth).
Proof using Ho Hwk.
  destruct loc as [[r full] rel]. intros Hon Hr Hn. unfold listAt. apply every_then; [apply every_perform; call_at r rel|].
  intros li. case_bool_decide; [done|]. destruct (negb _); [done|]. apply every_then; [by apply listWalk_confined|done].
Qed.

Lemma searchWalk_confined matches onMapped fuel dir rel out :
  (∀ r p, root_ok r → every confined (onMapped r p)) → Forall normal rel → every confined (searchWalk matches onMapped o1 fuel dir rel out).
Proof using Ho Hwk.
  intros Hon. revert dir rel out. induction fuel as [|fuel IH]; intros dir rel out Hn; [done|]. cbn [searchWalk].
  destruct (mapped o1 _) as [r|] eqn:Em; [apply every_then; [apply Hon; by eapply walkable_mapped|done]|].
  pose proof (walkable_self _ Hwk) as Hr.
  apply every_do; [call_at (self o1) rel|]. intros [es|] Hes; [|done]. simpl in Hes. cbn [attempt]. revert out.
  induction Hes as [|e es He Hes IHes]; intros out; [done|]. case_bool_decide; [done|].
  destruct (enDir e); [apply every_then; [apply IH; apply Forall_app; split; [done|by apply Forall_singleton]|done]|].
  destruct (negb _); [apply IHes|]. destruct (enInfo e); apply IHes.
Qed.
End walks.

Lemma listMapped_confined r p d : root_ok r → every confined (listMapped r p d).
Proof using Ho.
  intros Hr. unfold listMapped. apply every_attempt. intros [[r' full] rel] Hl. destruct (locate_plain _ _ _ _ _ Hr Hl) as [-> Hn].
  apply listAt_confined; [right; eauto|done|done|done].
Qed.
Lemma List_confined p depth : every confined (List o p depth).
Proof using Ho.
  unfold List. opened. apply listAt_confined; [apply routed_walkable|apply listMapped_confined|done|done].
Qed.
Lemma Search_confined glob fuel p pattern : every confined (Search glob fuel o p pattern).
Proof using Ho.
  unfold Search. opened. apply searchWalk_confined; [apply routed_walkable| |done]. intros r' p' Hr'. unfold searchMapped.
  apply every_attempt. intros [[r2 full2] rel2] Hl2. destruct (locate_plain _ _ _ _ _ Hr' Hl2) as [-> Hn2].
  apply searchWalk_confined; [right; eauto|done|done].
Qed.
End confinement.

(** ** All operations *)

Inductive fs_op :=
| OpStat (p : string) | OpRead (p : string) | OpReadLines (p : string) (offset limit : Z)
| OpWrite (p data : string) (mode : Z) | OpReplace (p old new : string)
| OpRemove (ps : list string) | OpRename (src dest : string) | OpChmod (p : string) (perm : Permission)
| OpMakeDir (p : string) | OpRemoveDir (p : string) | OpEnsureDir (dir : string) | OpPrepareTempdir
| OpList (p : string) (depth : nat) | OpSearch (glob : string → string → bool) (fuel : nat) (p pattern : string).

Definition forget {A} (m : prog A) : prog unit := _ ← m; Ret ().
Definition fsOp (o : FS) (op : fs_op) : prog unit :=
  match op with
  | OpStat p => forget (Stat o p)
  | OpRead p => forget (Read o p)
  | OpReadLines p offset limit => forget (ReadLines o p offset limit)
  | OpWrite p data mode => forget (Write o p data mode)
  | OpReplace p old new => forget (Replace o p old new)
  | OpRemove ps => forget (Remove o ps)
  | OpRename src dest => forget (Rename o src dest)
  | OpChmod p perm => forget (Chmod o p perm)
  | OpMakeDir p => forget (MakeDir o p)
  | OpRemoveDir p => forget (RemoveDir o p)
  | OpEnsureDir dir => forget (EnsureDir o dir)
  | OpPrepareTempdir => forget (PrepareTempdir o)
  | OpList p depth => forget (List o p depth)
  | OpSearch glob fuel p pattern => forget (Search glob fuel o p pattern)
  end.

(** C13: file operations stay in the bed: whatever a client passes and whatever the host
    answers, every call of every operation of [fs_op] (reading, writing, directories,
    permissions, listing and searching; [Open] and the tree transfers are not among them) addresses the bed's own data or one of its
    mounts with a path that only descends, changes a root only if it is writable, and
    never removes or replaces the bed's root, a mount, or a directory above a mount. *)
Theorem bedfs_operations_confined o op : fs_wf o → every (confined o) (fsOp o op).
Proof.
  intros Ho. destruct op; simpl; (apply every_bind; [|done]); eauto using Stat_confined, Read_confined, ReadLines_confined,
    Write_confined, Replace_confined, Remove_confined, Rename_confined, Chmod_confined, MakeDir_confined, RemoveDir_confined,
    EnsureDir_confined, PrepareTempdir_confined, List_confined, Search_confined.
Qed.

(** ** Results *)

(** What a program may return. *)
Fixpoint yields {A} (P : A → Prop) (m : prog A) : Prop :=
  match m with Ret a => P a | Do c k => ∀ x, yields P (k x) end.

Lemma yields_bind {A B} (P : B → Prop) (m : prog A) (f : A → prog B) :
  yields (λ a, yields P (f a)) m → yields P (m ≫= f).
Proof. induction m as [a|X c k IH]; [done|]. intros H x. apply IH, H. Qed.
Lemma yields_impl {A} (P Q : A → Prop) (m : prog A) : (∀ a, P a → Q a) → yields P m → yields Q m.
Proof. intros HPQ. induction m as [a|X c k IH]; simpl; [apply HPQ|]. auto. Qed.
Lemma yields_true {A} (m : prog A) : yields (λ _, True) m.
Proof. induction m; simpl; auto. Qed.

Lemma yields_attempt {A B} (P : result fs_err B → Prop) (r : result fs_err A) (k : A → prog (result fs_err B)) :
  (∀ e, P (Err e)) → (∀ a, r = Ok a → yields P (k a)) → yields P (attempt r k).
Proof. intros He Hk. destruct r; [by apply Hk|apply He]. Qed.
Lemma yields_then {A B} (P : result fs_err B → Prop) (m : prog (result fs_err A)) (k : A → prog (result fs_err B)) :
  (∀ e, P (Err e)) → yields (λ r, ∀ a, r = Ok a → yields P (k a)) m → yields P (m ≫= λ y, attempt y k).
Proof. intros He Hk. apply yields_bind. eapply yields_impl; [|exact Hk]. intros r Hr. by apply yields_attempt. Qed.

(** ** Preparation *)

Lemma max_above (l : list Z) z x : x ∈ z :: l → x <= foldr Z.max z l.
Proof.
  intros [->|Hx]%elem_of_cons; [induction l as [|a l IH]; simpl; lia|]. induction l as [|a l IH]; [by apply elem_of_nil in Hx|].
  simpl. apply elem_of_cons in Hx as [->|Hx]; [lia|specialize (IH Hx); lia].
Qed.
Lemma openedID_new o : openedID o ∉ rootID (self o) :: ((λ m, rootID m.2) <$> mappings o).
Proof. intros H%max_above. unfold openedID in H. lia. Qed.

(** What [EvalSymlinks] documents: its result is clean. *)
Definition evaluated (h : resolved) : Prop := ∀ src, resSource h = Ok src → Clean src = src.

Lemma setMounts_wf euid o ms :
  fs_wf o → Forall (λ m, Clean (Target m.1) = Target m.1 ∧ evaluated m.2) ms →
  yields (λ r, ∀ o', r = Ok o' → fs_wf o' ∧ self o' = self o ∧
    (λ m : Mount * root, (Target m.1, readOnly m.2)) <$> mappings o'
    = ((λ m : Mount * root, (Target m.1, readOnly m.2)) <$> mappings o) ++ ((λ m : Mount * resolved, (Target m.1, MountReadOnly m.1)) <$> ms))
    (SetMounts euid o ms).
Proof.
  intros Ho Hc. revert o Ho. induction ms as [|[m h] ms IH]; intros o Ho; cbn [SetMounts].
  { intros o' [= <-]. by rewrite app_nil_r. }
  apply Forall_cons in Hc as [[Hct Hcs] Hc]. cbn [fst snd] in *.
  apply yields_attempt; [done|]. intros source Hsrc. apply yields_attempt; [done|]. intros [] Hck.
  apply yields_then; [done|]. intros _ fi _. set (o1 := bindMount o m source _ _).
  assert (fs_wf o1) as Ho1 by (apply (bindMount_wf o m source (resCarrier h)); auto using openedID_new).
  assert (self o1 = self o ∧ ∃ x, mappings o1 = mappings o ++ [x] ∧ (Target x.1, readOnly x.2) = (Target m, MountReadOnly m)) as (Es&x&Em&Ex).
  { unfold o1, bindMount. destruct (if Owned m then _ else _) as [u g]. split; [done|]. by eexists. }
  apply yields_attempt; [done|]. intros full _. apply yields_attempt; [done|]. intros rel _.
  apply yields_then; [done|]. eapply yields_impl; [|apply yields_true]. intros _ _ _ _.
  eapply yields_impl; [|apply (IH Hc o1 Ho1)].
  intros r Hr o' Er. destruct (Hr o' Er) as (H1&H2&H3). rewrite Es in H2. split_and!; [done|done|].
  rewrite H3, Em, fmap_app, fmap_cons, Ex. simpl. by rewrite <- (assoc_L app).
Qed.

(** C14: Mounting the declared volumes of a pillow establishes what the file operations rely
    on.  For mounts that passed [NormalizeMounts], as those of every pillow declaration have,
    and sources resolved by [EvalSymlinks], whose results are clean: when [SetMounts]
    succeeds on a well-formed file system, the result is well formed (clean disjoint targets
    and sources, a root of its own per mount), its own root is unchanged, and the added
    mounts are exactly the normalised declared ones, in order, each with its declared
    access.  [SetMounts] alone does not clean a target ([unclean_target_kept]). *)
Theorem set_mounts_well_formed euid o declared mounts sources allocation hs :
  fs_wf o → NormalizeMounts declared = Ok mounts → Forall evaluated hs → length hs = length mounts →
  mounts ≡ₚ cleanMount <$> declared ∧
  yields (λ r, ∀ o', r = Ok o' → fs_wf o' ∧ self o' = self o ∧
    (λ m : Mount * root, (Target m.1, readOnly m.2)) <$> mappings o'
    = ((λ m : Mount * root, (Target m.1, readOnly m.2)) <$> mappings o) ++ ((λ m, (MountPath m, ReadOnly m)) <$> mounts))
    (SetMounts euid o (zip (pillowMounts sources allocation mounts) hs)).
Proof.
  intros Ho Hn Hev Hlen. apply normalize_mounts_ok in Hn as (_&_&Hp&_). split; [done|].
  assert (Hclean : Forall (λ m, Clean (MountPath m) = MountPath m) mounts).
  { apply Forall_forall. intros m Hm. rewrite Hp in Hm. apply list_elem_of_fmap in Hm as (d&->&_). apply clean_normal. }
  eapply yields_impl; [|apply setMounts_wf; [done|]].
  - intros r Hr o' Er. destruct (Hr o' Er) as (H1&H2&H3). split_and!; [done..|]. rewrite H3. f_equal. clear -Hlen.
    revert hs Hlen. induction mounts as [|m mounts IH]; intros [|h hs] Hlen; try done. simpl. f_equal. by apply IH; injection Hlen.
  - clear -Hclean Hev. revert hs Hev. induction Hclean as [|m mounts Hm _ IH]; intros [|h hs] Hev; simpl; constructor; inversion Hev; subst; [done|by apply IH].
Qed.

(** ** Bounds of a search *)

Definition result_le (n : nat) (r : result fs_err (list FileInfo)) : Prop :=
  match r with Ok l => (length l <= n)%nat | Err _ => True end.

Lemma searchWalk_bounded matches onMapped o fuel dir rel out :
  (length out <= searchLimit)%nat → yields (result_le searchLimit) (searchWalk matches onMapped o fuel dir rel out).
Proof.
  revert dir rel out. induction fuel as [|fuel IH]; intros dir rel out Hout; [done|]. cbn [searchWalk].
  destruct (mapped o _) as [r|].
  - apply yields_bind. eapply yields_impl; [|apply yields_true]. intros [es|] _; [|done]. simpl. rewrite length_app, length_take. lia.
  - unfold perform, mbind, prog_bind. cbn [pbind yields]. intros [es|]; [|done]. cbn [attempt]. revert out Hout.
    induction es as [|e es IHes]; intros out Hout; [done|].
    destruct (bool_decide_reflect (searchLimit <= length out)%nat) as [Hfull|Hfull]; [done|]. destruct (enDir e).
    + apply (yields_bind _ (searchWalk _ _ _ _ _ _ _)). eapply yields_impl; [|by apply IH]. intros [out'|] Ho'; [|done]. by apply IHes.
    + destruct (negb _); [by apply IHes|]. destruct (enInfo e); apply IHes; [|done]. rewrite length_app. simpl. lia.
Qed.

(** A search is bounded: however large the tree and whatever the mounts hold,
    [Search] returns at most [searchLimit] entries. *)
Lemma search_bounded glob fuel o p pattern : yields (result_le searchLimit) (Search glob fuel o p pattern).
Proof.
  unfold Search. destruct (locate o p false) as [[[r full] rel]|]; [|done]. simpl. apply searchWalk_bounded. simpl. lia.
Qed.

(** ** Contents *)

Definition handler (S : Type) : Type := ∀ X, call X → S → X * S.
Fixpoint run {S A} (h : handler S) (m : prog A) (s : S) : A * S :=
  match m with Ret a => (a, s) | Do c k => let '(x, s') := h _ c s in run h (k x) s' end.

(** What the operations rely on: a successful write is what the next read returns, and
    looking at a file or changing its owner leaves the contents alone. *)
Class RootLaws {S} (h : handler S) := {
  content : S → Z → list string → option string;
  law_read s r rel data : content s r rel = Some data → (h _ (ReadFile r rel) s).1 = Ok data;
  law_write s r rel data mode s' : h _ (WriteFile r rel data mode) s = (Ok (), s') → content s' r rel = Some data;
  law_lstat s r rel r' rel' : content (h _ (Lstat r rel) s).2 r' rel' = content s r' rel';
  law_lchown s r rel uid gid r' rel' : content (h _ (Lchown r rel uid gid) s).2 r' rel' = content s r' rel' }.

Lemma run_bind {S A B} (h : handler S) (m : prog A) (f : A → prog B) s :
  run h (m ≫= f) s = let '(a, s') := run h m s in run h (f a) s'.
Proof.
  revert s. induction m as [a|X c k IH]; intros s; [done|]. change ((Do c k) ≫= f) with (Do c (λ x, k x ≫= f)). simpl.
  destruct (h X c s) as [x s']. apply IH.
Qed.
(** A step that succeeded, and the state after it. *)
Lemma run_then {S A B} (h : handler S) (m : prog (result fs_err A)) (k : A → prog (result fs_err B)) s b s' :
  run h (m ≫= λ y, attempt y k) s = (Ok b, s') → ∃ a s1, run h m s = (Ok a, s1) ∧ run h (k a) s1 = (Ok b, s').
Proof. rewrite run_bind. destruct (run h m s) as [[a|e] s1]; simpl; [|done]. eauto. Qed.
Lemma run_perform {S X} (h : handler S) (c : call X) s : run h (perform c) s = h _ c s.
Proof. unfold perform. simpl. by destruct (h X c s). Qed.

Lemma locate_read o p loc : locate o p true = Ok loc → locate o p false = Ok loc.
Proof. unfold locate, route. destruct (true && _); [done|]. done. Qed.

Lemma chownNew_content {S} (h : handler S) {Hh : RootLaws h} r rel s r' rel' :
  content (run h (chownNew r rel) s).2 r' rel' = content s r' rel'.
Proof.
  unfold chownNew. destruct (rootUID r <? 0); [done|]. rewrite run_bind, run_perform.
  pose proof (law_lstat s (rootID r) rel r' rel') as Hl. destruct (h _ (Lstat (rootID r) rel) s) as [[fi|] s1]; simpl in *; [|done].
  destruct (_ && _); [done|]. pose proof (law_lchown s1 (rootID r) rel (rootUID r) (rootGID r) r' rel') as Hc. simpl in *.
  destruct (h _ (Lchown (rootID r) rel (rootUID r) (rootGID r)) s1) as [x s2]. simpl in *. congruence.
Qed.

(** C15: what is written is what is read: on every host that keeps [RootLaws], a
    successful [Write] to a client path, through whichever root or mount serves it and
    with whatever handing over of ownership, is returned by the next [Read] of that path. *)
Theorem write_then_read {S} (h : handler S) {Hh : RootLaws h} o p data mode s s' :
  run h (Write o p data mode) s = (Ok (), s') → (run h (Read o p) s').1 = Ok data.
Proof.
  unfold Write. destruct (locate o p true) as [[[r full] rel]|] eqn:Hl; [|done]. cbn [attempt].
  destruct (parentOf rel) as [dir|]; [|done]. cbn [attempt].
  intros ([]&s1&_&([]&s2&Hw&Hr)%run_then)%run_then. rewrite run_perform in Hw. rewrite run_bind in Hr.
  pose proof (chownNew_content h r rel s2 (rootID r) rel) as Hc. destruct (run h (chownNew r rel) s2) as [u s3]. simpl in *. simplify_eq.
  unfold Read. rewrite (locate_read _ _ _ Hl). cbn [attempt]. rewrite run_perform. apply law_read. rewrite Hc. by eapply law_write.
Qed.

(** ** Line windows *)

Lemma readLines_concat s : concat (readLines s true) = s.
Proof.
  unfold readLines. pose proof (splitLines_concat s) as H. destruct (splitLines s) as [ls r]. simpl in *.
  rewrite concat_app. case_bool_decide as E; simpl; [by subst r|]. by rewrite app_nil_r.
Qed.

(** Line windows are exact: for an offset and a limit that fit the integers,
    [ReadLines] returns the lines of the file from the offset on, at most the limit of
    them (no limit is zero), an empty text beyond the end, and never slices out of
    range; without offset and limit it returns the file. *)
Lemma line_window_exact lines offset limit s :
  0 <= offset → 0 <= limit → offset + limit < 2 ^ 63 →
  sliceLines lines offset limit
  = Some (let rest := drop (Z.to_nat offset) lines in if decide (limit = 0) then rest else take (Z.to_nat limit) rest) ∧
  sliceLines (readLines s true) 0 0 = Some (readLines s true) ∧ concat (readLines s true) = s.
Proof.
  intros Ho Hl Hs. split_and!; [| |apply readLines_concat].
  - unfold sliceLines. rewrite wrap64_id by lia. destruct (Z.leb_spec (Z.of_nat (length lines)) offset) as [H|H].
    + rewrite drop_ge by lia. simpl. case_decide; [done|]. by rewrite take_nil.
    + destruct (Z.leb_spec 0 offset); [|lia]. simpl. case_decide as E.
      * subst limit. simpl. destruct (Z.leb_spec offset (Z.of_nat (length lines))); [|lia].
        rewrite take_ge; [done|]. rewrite length_drop. lia.
      * destruct (Z.ltb_spec 0 limit); [|lia]. simpl. destruct (Z.ltb_spec (offset + limit) (Z.of_nat (length lines))) as [H'|H'].
        -- destruct (Z.leb_spec offset (offset + limit)); [|lia]. by replace (offset + limit - offset) with limit by lia.
        -- destruct (Z.leb_spec offset (Z.of_nat (length lines))); [|lia]. rewrite !take_ge; [done| |]; rewrite length_drop; lia.
  - unfold sliceLines. destruct (readLines s true) as [|l ls]; [done|]. destruct (Z.leb_spec (Z.of_nat (length (l :: ls))) 0) as [H|H]; [simpl in H; lia|].
    simpl. f_equal. rewrite take_ge; [done|]. simpl. lia.
Qed.

(** A negative offset slices out of range on every file that is not empty. *)
Lemma negative_offset_panics lines offset limit : lines ≠ [] → offset < 0 → sliceLines lines offset limit = None.
Proof.
  intros Hn Ho. unfold sliceLines. destruct (Z.leb_spec (Z.of_nat (length lines)) offset); [lia|]. by destruct (Z.leb_spec 0 offset); [lia|].
Qed.
(** So does the largest limit after an offset, whose sum wraps. *)
Lemma large_limit_panics lines offset : 0 < offset → offset < Z.of_nat (length lines) → offset < 2 ^ 63 →
  sliceLines lines offset (2 ^ 63 - 1) = None.
Proof.
  intros Ho Hn Hm. unfold sliceLines. destruct (Z.leb_spec (Z.of_nat (length lines)) offset); [lia|].
  assert (wrap64 (offset + (2 ^ 63 - 1)) = offset - 1 - 2 ^ 63) as ->.
  { unfold wrap64. replace (offset + (2 ^ 63 - 1) + 2 ^ 63) with (offset - 1 + 1 * 2 ^ 64) by lia. rewrite Z.mod_add by lia. rewrite Z.mod_small by lia. lia. }
  destruct (Z.ltb_spec (offset - 1 - 2 ^ 63) (Z.of_nat (length lines))); [|lia]. simpl.
  destruct (Z.leb_spec 0 offset); [|lia]. by destruct (Z.leb_spec offset (offset - 1 - 2 ^ 63)); [lia|].
Qed.

(** ** On a concrete bed *)

Lemma bedfs_operations_confined_witness :
  every (confined Demo.bed2) (fsOp Demo.bed2 (OpRename "/var/cache/a" "/var/cache/sub/b")) ∧
  every (confined Demo.bed2) (fsOp Demo.bed2 (OpRemoveDir "/var")).
Proof.
  split; [exact (bedfs_operations_confined Demo.bed2 (OpRename "/var/cache/a" "/var/cache/sub/b") Demo.bed2_wf)|].
  exact (bedfs_operations_confined Demo.bed2 (OpRemoveDir "/var") Demo.bed2_wf).
Defined.

Definition demoDeclared : list VolumeMount := [mkMount "shared" "/opt//shared" true; mkMount "cache" "/var/cache" false].
Definition demoNormal : list VolumeMount := match NormalizeMounts demoDeclared with Ok l => l | Err _ => [] end.
Definition demoSources : gmap string string := {["shared" := "/srv/shared"; "cache" := "/beds/volumes/cache"]}%string.
Definition demoAnswers : list resolved :=
  [mkResolved (Ok "/srv/shared"%string) (Ok "/beds"%string); mkResolved (Ok "/beds/volumes/cache"%string) (Ok "/beds"%string)].
Definition demoMounts : list (Mount * resolved) := zip (pillowMounts demoSources "/beds/volumes" demoNormal) demoAnswers.

(** A host that keeps its files in a map and whose directories need no making. *)
Definition memory : handler (gmap (Z * list string) string) := λ X c,
  match c in call X return gmap (Z * list string) string → X * gmap (Z * list string) string with
  | ReadFile r l => λ s, (match s !! (r, l) with Some d => Ok d | None => Err NotExist end, s)
  | WriteFile r l d _ => λ s, (Ok (), <[(r, l) := d]> s)
  | Lstat _ _ => λ s, (Ok (mkInfo KDir 0 511 1 (Some (0, 0))), s)
  | StatAt _ _ => λ s, (Ok (mkInfo KDir 0 511 1 (Some (0, 0))), s)
  | OpenAt _ _ => λ s, (Err NotExist, s)
  | ReadDir _ _ => λ s, (Ok [], s)
  | MkdirAll _ _ => λ s, (Ok (), s)
  | Lchown _ _ _ _ => λ s, (Ok (), s)
  | RemoveAt r l => λ s, (Ok (), delete (r, l) s)
  | RemoveAll r l => λ s, (Ok (), delete (r, l) s)
  | RenameAt r a b => λ s, (Ok (), match s !! (r, a) with Some d => <[(r, b) := d]> (delete (r, a) s) | None => s end)
  | ChmodAt _ _ _ => λ s, (Ok (), s)
  end.
#[export] Instance memory_laws : RootLaws memory.
Proof.
  refine {| content s r l := s !! (r, l) |}.
  - intros s r rel data E. simpl. by rewrite E.
  - intros s r rel data mode s' [= <-]. by rewrite lookup_insert_eq.
  - done.
  - done.
Defined.

Lemma set_mounts_well_formed_witness :
  (∃ o', (run memory (SetMounts 0 Demo.bed0 demoMounts) ∅).1 = Ok o' ∧ length (mappings o') = 2%nat) ∧
  yields (λ r, ∀ o', r = Ok o' → fs_wf o') (SetMounts 0 Demo.bed0 demoMounts).
Proof.
  split; [eexists; split; vm_compute; reflexivity|].
  eapply yields_impl; [|refine (proj2 (set_mounts_well_formed 0 Demo.bed0 demoDeclared demoNormal demoSources "/beds/volumes" demoAnswers Demo.bed0_wf _ _ _))].
  - intros r Hr o' Eo'. exact (proj1 (Hr o' Eo')).
  - vm_compute. reflexivity.
  - repeat constructor; intros src; simpl; intros [= <-]; reflexivity.
  - vm_compute. reflexivity.
Defined.
(** The check of a target is made on a cleaned copy: given targets that are not clean,
    [SetMounts] binds one directory of the bed twice without seeing the overlap. *)
Lemma unclean_target_kept :
  let bind source target := (mkMountPoint source target false false, mkResolved (Ok source) (Ok "/beds"%string)) in
  ∃ o', (run memory (SetMounts 0 Demo.bed0 [bind "/srv/a" "/data"; bind "/srv/b" "/opt/../data"]%string) ∅).1 = Ok o' ∧
    (λ m, Clean (Target m.1)) <$> mappings o' = ["/data"; "/data"]%string.
Proof. eexists. split_and!; vm_compute; reflexivity. Qed.

Lemma write_then_read_witness :
  let s := (run memory (Write Demo.bed2 "../var/cache/x" "hello" 0) ∅).2 in
  (run memory (Read Demo.bed2 "../var/cache/x") s).1 = Ok "hello"%string.
Proof. apply (write_then_read memory Demo.bed2 "../var/cache/x" "hello" 0 ∅). vm_compute. reflexivity. Defined.
