(* ===== verification/BedFSReader.v ===== *)
(** * BedFSReader: reads through a process view

    Models [internal/bed/filesystem/bedfs/reader.go]: the candidates of a read.  A
    mapping that the process view does not redirect is read from the bed's own data
    first, and then from its source; an absolute path that is missing may be retried
    below a configured fallback root. *)

From S2P Require Import Prelude Lines Bed Volumes BedFS BedFSPaths BedFSTheorems.

(** The fallback root of a reader: what [New] finds there, or its error; [None] is the
    empty path. *)
Record Reader := mkReader { primary : FS; support : MappingSupport; fallbackRoot : option (result fs_err root) }.

(** [New] on the fallback path: its converter is anchored at that directory. *)
Definition fallbackFS (r : root) : FS := mkFS r [].

(** The borrowed view that skips the mapping router. *)
Definition local (o : FS) : FS :=
  mkFS (mkRoot (rootID (self o)) (rootPaths (self o)) false (-1) (-1)) [].

(** [emptyMappingPlaceholder]: its error is ignored by the caller. *)
Definition emptyMappingPlaceholder (o : FS) (prefix p : string) : prog (result fs_err bool) :=
  if negb (bool_decide (clientPath o p = prefix)) then Ret (Ok false)
  else
    host <-? Resolve o p;
    rel <-? relative (self o) host;
    li <-! perform (Lstat (rootID (self o)) rel);;
    if negb (bool_decide (inKind li = KDir)) then Ret (Ok false)
    else entries <-! perform (ReadDir (rootID (self o)) rel);; Ret (Ok (bool_decide (entries = []))).

Definition redirected (r : Reader) (m : root) : bool := Supports (support r) (readOnly m).

Definition readWithFallback {T} (r : Reader) (clientPath : string) (read : FS → prog (result fs_err T)) : prog (result fs_err T) :=
  let served := mapped (primary r) clientPath in
  match served with
  | Some m =>
      if redirected r m then read (primary r)
      else
        placeholder ← emptyMappingPlaceholder (local (primary r)) (pathsPrefix (rootPaths m)) clientPath;
        if match placeholder with Ok b => b | Err _ => false end then read (mkFS m [])
        else
          value ← read (local (primary r));
          match value with Ok v => Ret (Ok v) | Err _ => read (mkFS m []) end
  | None =>
      value ← read (primary r);
      match value, fallbackRoot r with
      | Err NotExist, Some fallback =>
          if IsAbs clientPath then fb <-? fallback; read (fallbackFS fb) else Ret value
      | _, _ => Ret value
      end
  end.

Definition ReaderStat (r : Reader) (p : string) : prog (result fs_err FileInfo) := readWithFallback r p (λ fs, Stat fs p).
Definition ReaderRead (r : Reader) (p : string) : prog (result fs_err string) := readWithFallback r p (λ fs, Read fs p).
Definition ReaderReadLines (r : Reader) (p : string) (offset limit : Z) : prog (result fs_err (option string)) :=
  readWithFallback r p (λ fs, ReadLines fs p offset limit).

(** [FS.Open]: the descriptor is what the caller streams from. *)
Definition Open (o : FS) (p : string) : prog (result fs_err info) :=
  loc <-? locate o p false; let '(r, _, rel) := loc in perform (OpenAt (rootID r) rel).
Definition ReaderOpen (r : Reader) (p : string) : prog (result fs_err info) := readWithFallback r p (λ fs, Open fs p).

(** [walk]: a [visit] takes an entry and what was collected, and may stop the walk
    ([SkipAll], [inl]); [fuel] bounds the depth of the tree, and [depth] of 1 stops below
    this directory. *)
Section reader_walk.
Variable r : Reader.
Context {A : Type} (visit : FileInfo → A → A + A).

Fixpoint readerWalk (fuel : nat) (p : string) (depth : Z) (acc : A) {struct fuel} : prog (result fs_err (A + A)) :=
  match fuel with
  | O => Ret (Err HostError)
  | S fuel =>
      entries <-! readWithFallback r p (λ fs, List fs p 1);;
      (fix go (es : list FileInfo) (acc : A) : prog (result fs_err (A + A)) :=
         match es with
         | [] => Ret (Ok (inr acc))
         | e :: es =>
             entry <-! ReaderStat r (fiPath e);;
             match visit entry acc with
             | inl acc => Ret (Ok (inl acc))
             | inr acc =>
                 if bool_decide (fiType entry = KDir) && negb (depth =? 1) then
                   below <-! readerWalk fuel (fiPath entry) (depth - 1) acc;;
                   match below with inl acc => Ret (Ok (inl acc)) | inr acc => go es acc end
                 else go es acc
             end
         end) entries acc
  end.
End reader_walk.

Definition ReaderList (fuel : nat) (r : Reader) (p : string) (depth : Z) : prog (result fs_err (list FileInfo)) :=
  out <-! readerWalk r (λ e acc, inr (acc ++ [e])) fuel p (Z.max 1 depth) [];;
  match out with inl l | inr l => Ret (Ok (merge_sort path_le l)) end.

(** [path.Base]. *)
Definition baseName (p : string) : string :=
  match last (nonEmpty (split p)) with
  | Some c => c
  | None => if decide (p = "")%string then "."%string else "/"%string
  end.
Definition searchVisit (glob : string → string → bool) (pattern : string) (e : FileInfo) (acc : list FileInfo)
  : list FileInfo + list FileInfo :=
  if bool_decide (fiType e = KDir) then inr acc
  else
    let acc := if searchMatch glob pattern (baseName (fiPath e)) then acc ++ [e] else acc in
    if bool_decide (searchLimit <= length acc)%nat then inl acc else inr acc.
Definition ReaderSearch (glob : string → string → bool) (fuel : nat) (r : Reader) (p pattern : string) : prog (result fs_err (list FileInfo)) :=
  out <-! readerWalk r (searchVisit glob pattern) fuel p 0 [];;
  match out with inl l | inr l => Ret (Ok l) end.

(** ** Every call of a read *)

Definition pure (X : Type) (c : call X) : Prop := mutates c = false.

Lemma every_and {A} P Q (m : prog A) : every P m → every Q m → every (λ X c, P X c ∧ Q X c) m.
Proof. induction m as [|X c k IH]; [done|]. intros [H1 H2] [H3 H4]. split; [done|]. intros x Hx. auto. Qed.

Section pure.
Variable o : FS.

Lemma Stat_pure p : every pure (Stat o p).
Proof using Type. unfold Stat. apply every_attempt. intros [[r full] rel] _. apply every_then; [by apply every_perform|done]. Qed.
Lemma Read_pure p : every pure (Read o p).
Proof using Type. unfold Read. apply every_attempt. intros [[r full] rel] _. by apply every_perform. Qed.
Lemma Open_pure p : every pure (Open o p).
Proof using Type. unfold Open. apply every_attempt. intros [[r full] rel] _. by apply every_perform. Qed.
Lemma ReadLines_pure p offset limit : every pure (ReadLines o p offset limit).
Proof using Type. apply every_then; [apply Read_pure|done]. Qed.
Lemma listWalk_pure onMapped d dir rel : (∀ r p d, every pure (onMapped r p d)) → every pure (listWalk onMapped o d dir rel).
Proof using Type.
  intros Hon. revert dir rel. induction d as [|d IH]; intros dir rel; [done|]. cbn [listWalk]. destruct (mapped o _); [apply Hon|].
  apply every_do; [done|]. intros [es|] _; [|done]. cbn [attempt]. induction es as [|e es IHes]; [done|].
  destruct (enInfo e) as [fi|]; [|done]. apply every_then; [unfold listEntry; case_match; [apply Stat_pure|done]|].
  intros ent. apply every_then; [by case_match|]. intros sub. by apply every_then.
Qed.
Lemma listAt_pure onMapped loc depth : (∀ r p d, every pure (onMapped r p d)) → every pure (listAt onMapped o loc depth).
Proof using Type.
  intros Hon. destruct loc as [[r full] rel]. apply every_then; [by apply every_perform|]. intros li. case_bool_decide; [done|].
  destruct (negb _); [done|]. apply every_then; [by apply listWalk_pure|done].
Qed.
End pure.

Lemma List_pure o p depth : every pure (List o p depth).
Proof.
  apply every_attempt. intros loc _. apply listAt_pure. intros r q d. apply every_attempt. intros loc' _. by apply listAt_pure.
Qed.

(** A read: it changes nothing, and on a file system or on one of its roots alone it
    stays there. *)
Record read_ok {T} (read : FS → prog (result fs_err T)) : Prop := {
  ro_pure o : every pure (read o);
  ro_whole o : fs_wf o → every (confined o) (read o);
  ro_root o r : fs_wf o → root_ok o r → every (confined o) (read (mkFS r [])) }.

Lemma Open_confined o p : fs_wf o → every (confined o) (Open o p).
Proof.
  intros Ho. apply every_attempt. intros [[r full] rel] Hl. destruct (locate_ok o Ho _ _ _ _ _ Hl) as (Hr&Hn&_).
  apply every_perform. by apply (confined_read o _ r rel).
Qed.
(** A read of one file: locate it, and one call on it. *)
Lemma read_one {T} (c : Z → list string → call (result fs_err T)) o r p :
  (∀ i rel, callRoot (c i rel) = i ∧ callPaths (c i rel) = [rel] ∧ destroyed (c i rel) = [] ∧ mutates (c i rel) = false) →
  root_ok o r → every (confined o) (loc <-? locate (mkFS r []) p false; let '(x, _, rel) := loc in perform (c (rootID x) rel)).
Proof.
  intros Hc Hr. apply every_attempt. intros [[r' full] rel] Hl. destruct (locate_plain o _ _ _ _ _ Hr Hl) as [-> Hn].
  apply every_perform. destruct (Hc (rootID r) rel) as (H1&H2&H3&H4). by apply (confined_read o _ r rel).
Qed.

Lemma Stat_read p : read_ok (λ fs, Stat fs p).
Proof. split; [intros; apply Stat_pure|intros; by apply Stat_confined|intros; by apply Stat_plain]. Qed.
Lemma Read_read p : read_ok (λ fs, Read fs p).
Proof. split; [intros; apply Read_pure|intros; by apply Read_confined|intros; by apply (read_one ReadFile)]. Qed.
Lemma Open_read p : read_ok (λ fs, Open fs p).
Proof. split; [intros; apply Open_pure|intros; by apply Open_confined|intros; by apply (read_one OpenAt)]. Qed.
Lemma ReadLines_read p offset limit : read_ok (λ fs, ReadLines fs p offset limit).
Proof.
  split; [intros; apply ReadLines_pure|intros; by apply ReadLines_confined|].
  intros. apply every_then; [by apply (read_one ReadFile)|done].
Qed.
Lemma List_read p depth : read_ok (λ fs, List fs p depth).
Proof.
  split; [intros; apply List_pure|intros; by apply List_confined|]. intros o r Ho Hr. apply every_attempt.
  intros [[r' full] rel] Hl. destruct (locate_plain o _ _ _ _ _ Hr Hl) as [-> Hn].
  apply (listAt_confined o Ho (mkFS r [])); [by right; exists r|intros; by apply listMapped_confined|done|done].
Qed.

Section reader.
Variable r : Reader.
Hypothesis Ho : fs_wf (primary r).
(** [New] anchors the fallback at a clean absolute path, and gives it no mappings. *)
Hypothesis Hf : ∀ fb, fallbackRoot r = Some (Ok fb) → fs_wf (fallbackFS fb).

(** A read of the bed's roots, or of the fallback root where one is configured. *)
Definition readerCall (X : Type) (c : call X) : Prop :=
  mutates c = false ∧ Forall (Forall normal) (callPaths c) ∧
  ((∃ x, root_ok (primary r) x ∧ callRoot c = rootID x) ∨ (∃ fb, fallbackRoot r = Some (Ok fb) ∧ callRoot c = rootID fb)).

Lemma readerCall_confined {A} o (m : prog A) :
  every pure m → every (confined o) m →
  (∀ x, root_ok o x → (∃ y, root_ok (primary r) y ∧ rootID x = rootID y) ∨ ∃ fb, fallbackRoot r = Some (Ok fb) ∧ rootID x = rootID fb) →
  every readerCall m.
Proof using Type.
  intros Hp Hc Hroots. eapply every_impl; [|apply (every_and _ _ _ Hp Hc)]. intros X c [Hm (x&Hx&Ex&Hn&_)].
  split_and!; [done|done|]. destruct (Hroots x Hx) as [(y&Hy&E)|(fb&Hfb&E)]; [left; exists y|right; exists fb]; by rewrite Ex.
Qed.

Lemma local_wf : fs_wf (local (primary r)).
Proof using Ho. destruct Ho as [[h Hh] _ _ _ _]. split; simpl; try done; [by exists h|apply NoDup_singleton]. Qed.
Lemma local_roots x : root_ok (local (primary r)) x → ∃ y, root_ok (primary r) y ∧ rootID x = rootID y.
Proof using Ho.
  intros [[->|[m Hm]] _]; [|by apply elem_of_nil in Hm]. exists (self (primary r)). split; [by apply self_ok|done].
Qed.

Lemma local_every {T} (read : FS → prog (result fs_err T)) : read_ok read → every readerCall (read (local (primary r))).
Proof using Ho.
  intros Hr. apply (readerCall_confined (local (primary r))); [apply Hr|by apply Hr, local_wf|]. intros x Hx. left. by apply local_roots.
Qed.
Lemma bed_every {T} (m : prog T) : every pure m → every (confined (primary r)) m → every readerCall m.
Proof using Type. intros H1 H2. apply (readerCall_confined (primary r)); [done|done|]. intros x Hx. left. eauto. Qed.

Lemma placeholder_every prefix p : every readerCall (emptyMappingPlaceholder (local (primary r)) prefix p).
Proof using Ho.
  pose proof (self_ok _ local_wf) as Hs. set (o := local (primary r)) in *.
  assert (every pure (emptyMappingPlaceholder o prefix p)) as Hp.
  { unfold emptyMappingPlaceholder. destruct (negb _); [done|]. apply every_attempt. intros host _. apply every_attempt. intros rel _.
    apply every_then; [by apply every_perform|]. intros li. destruct (negb _); [done|]. apply every_then; [by apply every_perform|done]. }
  apply (readerCall_confined o); [done| |intros x Hx; left; by apply local_roots].
  unfold emptyMappingPlaceholder. destruct (negb _); [done|]. apply every_attempt. intros host _. apply every_attempt.
  intros rel Hn%(relative_normal o); [|done].
  apply every_then; [apply every_perform; by apply (confined_read o _ (self o) rel)|]. intros li. destruct (negb _); [done|].
  apply every_then; [apply every_perform; by apply (confined_read o _ (self o) rel)|done].
Qed.

Lemma readWithFallback_every {T} p (read : FS → prog (result fs_err T)) : read_ok read → every readerCall (readWithFallback r p read).
Proof using Ho Hf.
  intros Hr. unfold readWithFallback. destruct (mapped (primary r) p) as [m|] eqn:Em.
  - pose proof (mapped_ok _ Ho _ _ Em) as Hm.
    assert (every readerCall (read (primary r))) as H1 by (apply bed_every; [apply Hr|by apply Hr]).
    assert (every readerCall (read (mkFS m []))) as H2 by (apply bed_every; [apply Hr|by apply Hr]).
    destruct (redirected r m); [done|]. apply every_bind; [apply placeholder_every|]. intros pl. destruct (match pl with Ok b => b | Err _ => false end); [done|].
    apply every_bind; [by apply local_every|]. by intros [v|e].
  - apply every_bind; [apply bed_every; [apply Hr|by apply Hr]|]. intros [v|[]]; try done. destruct (fallbackRoot r) as [[fb|]|] eqn:Ef; try done.
    + destruct (IsAbs p); [|done]. simpl. apply (readerCall_confined (fallbackFS fb)); [apply Hr|apply Hr; auto|].
      intros x [[->|[m Hm]] _]; [|by apply elem_of_nil in Hm]. right. by exists fb.
    + by destruct (IsAbs p).
Qed.

Lemma readerWalk_every {A} (visit : FileInfo → A → A + A) fuel p depth acc : every readerCall (readerWalk r visit fuel p depth acc).
Proof using Ho Hf.
  revert p depth acc. induction fuel as [|fuel IH]; intros p depth acc; [done|]. cbn [readerWalk].
  apply every_then; [apply readWithFallback_every, List_read|]. intros es. revert acc. induction es as [|e es IHes]; intros acc; [done|].
  apply every_then; [apply readWithFallback_every, Stat_read|]. intros entry. destruct (visit entry acc) as [acc'|acc']; [done|].
  destruct (_ && _); [|apply IHes]. apply every_then; [apply IH|]. intros [a|a]; [done|apply IHes].
Qed.
End reader.

Inductive reader_op :=
| ReadStat (p : string) | ReadAll (p : string) | ReadRange (p : string) (offset limit : Z) | ReadOpen (p : string)
| ReadList (fuel : nat) (p : string) (depth : Z) | ReadSearch (glob : string → string → bool) (fuel : nat) (p pattern : string).
Definition readerOp (r : Reader) (op : reader_op) : prog unit :=
  match op with
  | ReadStat p => forget (ReaderStat r p)
  | ReadAll p => forget (ReaderRead r p)
  | ReadRange p offset limit => forget (ReaderReadLines r p offset limit)
  | ReadOpen p => forget (ReaderOpen r p)
  | ReadList fuel p depth => forget (ReaderList fuel r p depth)
  | ReadSearch glob fuel p pattern => forget (ReaderSearch glob fuel r p pattern)
  end.

(** Reads through a process view keep to their anchored roots and change nothing:
    whatever the view redirects, every call of every read addresses the bed's own data
    or a declared source, or the fallback root where one is configured, with a path
    that only descends; without a fallback root nothing else is read. *)
Lemma reader_keeps_to_its_roots r op :
  fs_wf (primary r) → (∀ fb, fallbackRoot r = Some (Ok fb) → fs_wf (fallbackFS fb)) → every (readerCall r) (readerOp r op).
Proof.
  intros Ho Hf. destruct op; apply every_bind; try done;
    try (apply (readWithFallback_every r Ho Hf); auto using Stat_read, Read_read, ReadLines_read, Open_read);
    (apply every_then; [by apply readerWalk_every|by intros [l|l]]).
Qed.

