(* ===== verification/BedNetwork.v ===== *)
(** * BedNetwork: the network of a bed, from Prepare to Release

    Models [internal/bed/network/lifecycle.go].  Beds, allocations and attachments are
    pointers, hence identifiers.  An attachment that is open carries the policy control
    of its endpoint ([Policy.policyControl]); the provider reaches it by the name of the
    bed.  [UpdatePolicy] and [Release] look the allocation up, wait for its semaphore
    and hold it across the provider's answer: a call between two of these points is a
    [caller].  [Prepare] is one step, since a bed is handed out only after it. *)

From S2P Require Import Prelude Bed Netip Policy.

Inductive Level := Shared | Private.
#[export] Instance Level_eq_dec : EqDecision Level.
Proof. solve_decision. Defined.
Definition levelRoom (l : Level) : RoomType := match l with Private => Suite | Shared => Dorm end.

Inductive PolicyState := NoPolicy | Unenforced | Enforced.
#[export] Instance PolicyState_eq_dec : EqDecision PolicyState.
Proof. solve_decision. Defined.

(** [NetworkStatus] without the texts; the zero value has no level. *)
Record NetworkStatus := mkNetworkStatus {
  nsRoom : option RoomType; nsLevel : option Level; nsPolicyStatus : PolicyState;
  nsPolicy : option Policy; nsRequested : option Policy }.
Definition noStatus : NetworkStatus := mkNetworkStatus None None NoPolicy None None.

(** [busy] is the semaphore. *)
Record bedAllocation := mkBedAllocation { attachment : option Z; busy : bool; released : bool; requested : option Policy }.
Definition withBusy (al : bedAllocation) (x : bool) : bedAllocation := mkBedAllocation (attachment al) x (released al) (requested al).

(** A call that found the allocation [cAlloc] of [cBed], and whether it holds the semaphore. *)
Inductive duty := Update (mutation : PolicyMutation) | Release.
Record caller := mkCaller { cBed : Z; cAlloc : Z; cDuty : duty; cHolds : bool }.

Record BedNetworks := mkBedNetworks {
  allocations : gmap Z Z; allocs : gmap Z bedAllocation; statuses : gmap Z NetworkStatus;
  controls : gmap Z policyControl; callers : gmap Z caller; fresh : Z }.
Definition noBedNetworks : BedNetworks := mkBedNetworks ∅ ∅ ∅ ∅ ∅ 0.

Definition statusOf (m : BedNetworks) (b : Z) : NetworkStatus := default noStatus (statuses m !! b).
Definition setStatus (m : BedNetworks) (b : Z) (s : NetworkStatus) : BedNetworks :=
  mkBedNetworks (allocations m) (allocs m) (<[b := s]> (statuses m)) (controls m) (callers m) (fresh m).
Definition setAlloc (m : BedNetworks) (aid : Z) (al : bedAllocation) : BedNetworks :=
  mkBedNetworks (allocations m) (<[aid := al]> (allocs m)) (statuses m) (controls m) (callers m) (fresh m).
Definition setControl (m : BedNetworks) (a : Z) (c : policyControl) : BedNetworks :=
  mkBedNetworks (allocations m) (allocs m) (statuses m) (<[a := c]> (controls m)) (callers m) (fresh m).

Definition allowAll : Policy := mkPolicy "allow" [].
(** The control of a new endpoint. *)
Definition newControl : policyControl := mkControl allowAll 0 false ∅.

Inductive net_err := AcquireFailed | NoAttachment | NetUnavailable | BadMutation (e : policy_err) | ApplyError | CloseError.

(** What [UpdatePolicy] returns: how the policy stands, the policy in force and the requested one. *)
Record PolicyReport := mkReport { repState : PolicyState; repPolicy : Policy; repRequested : option Policy }.

(** [UpdatePolicy] on a bed without a network of its own: the request is recorded. *)
Definition updateShared (m : BedNetworks) (b aid : Z) (al : bedAllocation) (mutation : PolicyMutation) : result net_err PolicyReport * BedNetworks :=
  match ApplyMutation (default allowAll (requested al)) mutation with
  | Err e => (Err (BadMutation e), m)
  | Ok desired =>
      let req := if mutates mutation then Some desired else requested al in
      let m := setAlloc m aid (mkBedAllocation (attachment al) (busy al) (released al) req) in
      match req with
      | None => (Ok (mkReport Unenforced allowAll None), m)
      | Some _ =>
          let s := statusOf m b in
          (Ok (mkReport Unenforced allowAll (Some desired)),
           setStatus m b (mkNetworkStatus (nsRoom s) (nsLevel s) Unenforced None (Some desired)))
      end
  end.

(** And on one with an attachment: the provider finds its control by the name of the
    bed; [applied] is the answer of the kernel. *)
Definition updateAttached (m : BedNetworks) (b a : Z) (mutation : PolicyMutation) (applied : bool) : result net_err PolicyReport * BedNetworks :=
  match controls m !! a with
  | None => (Err NetUnavailable, m)
  | Some c =>
      let '(res, c) := update c mutation applied in
      let m := setControl m a c in
      match res with
      | Err Unavailable => (Err NetUnavailable, m)
      | Err (Invalid e) => (Err (BadMutation e), m)
      | Err ApplyFailed => (Err ApplyError, m)
      | Ok (p, _) =>
          let s := statusOf m b in
          (Ok (mkReport Enforced p (Some p)),
           setStatus m b (mkNetworkStatus (nsRoom s) (nsLevel s) Enforced (Some p) (Some p)))
      end
  end.

(** [UpdatePolicy] while it holds the semaphore of [aid]. *)
Definition updateHeld (m : BedNetworks) (b aid : Z) (mutation : PolicyMutation) (applied : bool) : result net_err PolicyReport * BedNetworks :=
  match allocs m !! aid with
  | Some al =>
      if released al then (Err NetUnavailable, m)
      else match attachment al with
           | None => updateShared m b aid al mutation
           | Some a => updateAttached m b a mutation applied
           end
  | None => (Err NetUnavailable, m)
  end.

(** [Prepare]: [acquired] is the answer of [Acquire] (no attachment on a shared
    network), [effective] the level the report shows, [declared] the policy of the spec. *)
Definition Prepare (m : BedNetworks) (b : Z) (acquired : option (option Z)) (effective : Level) (declared : option Policy) (applied : bool)
  : result net_err unit * BedNetworks :=
  match acquired with
  | None => (Err AcquireFailed, m)
  | Some at_ =>
      let aid := fresh m in
      let m := mkBedNetworks (<[b := aid]> (allocations m)) (<[aid := mkBedAllocation at_ false false None]> (allocs m)) (statuses m)
                 (match at_ with Some a => <[a := default newControl (controls m !! a)]> (controls m) | None => controls m end)
                 (callers m) (aid + 1) in
      let level := match at_ with Some _ => Private | None => Shared end in
      if bool_decide (effective = Private) && bool_decide (at_ = None) then (Err NoAttachment, m)
      else
        let m := setStatus m b (mkNetworkStatus None (Some level) NoPolicy None None) in
        let '(res, m) := match declared with
                         | None => (Ok (), m)
                         | Some p =>
                             let '(r, m) := updateHeld m b aid (mkMutation (Some p) None None) applied in
                             (match r with Ok _ => Ok () | Err e => Err e end, m)
                         end in
        match res with
        | Err e => (Err e, m)
        | Ok _ =>
            let s := statusOf m b in
            (Ok (), setStatus m b (mkNetworkStatus (Some (levelRoom level)) (nsLevel s) (nsPolicyStatus s) (nsPolicy s) (nsRequested s)))
        end
  end.

(** The first section of [UpdatePolicy] and [Release]; [released] tells whether the
    ports of the bed are gone ([CheckReleased]). *)
Definition begin (m : BedNetworks) (b : Z) (d : duty) (portsReleased : bool) : option (Z * BedNetworks) :=
  match d with
  | Release => if portsReleased then (λ aid, (aid, m)) <$> allocations m !! b else None
  | Update _ => (λ aid, (aid, m)) <$> allocations m !! b
  end.
Definition enterCall (m : BedNetworks) (t : Z) (c : caller) : BedNetworks :=
  mkBedNetworks (allocations m) (allocs m) (statuses m) (controls m) (<[t := c]> (callers m)) (fresh m).
Definition leaveCall (m : BedNetworks) (t : Z) : BedNetworks :=
  mkBedNetworks (allocations m) (allocs m) (statuses m) (controls m) (delete t (callers m)) (fresh m).

(** [a.mu.Acquire] succeeds. *)
Definition acquireSemaphore (m : BedNetworks) (t : Z) : option BedNetworks :=
  match callers m !! t with
  | Some (mkCaller b aid d false) =>
      match allocs m !! aid with
      | Some al => if busy al then None else Some (enterCall (setAlloc m aid (withBusy al true)) t (mkCaller b aid d true))
      | None => None
      end
  | _ => None
  end.
Definition releaseSemaphore (m : BedNetworks) (aid : Z) : BedNetworks :=
  match allocs m !! aid with Some al => setAlloc m aid (withBusy al false) | None => m end.

(** [Release] while it holds the semaphore; [closes] is the answer of the attachment. *)
Definition releaseHeld (m : BedNetworks) (b aid : Z) (closes : bool) : result net_err unit * BedNetworks :=
  match allocs m !! aid with
  | Some al =>
      if released al then (Ok (), m)
      else if bool_decide (is_Some (attachment al)) && negb closes then (Err CloseError, m)
      else
        (Ok (), mkBedNetworks (delete b (allocations m))
                  (<[aid := mkBedAllocation (attachment al) (busy al) true (requested al)]> (allocs m))
                  (<[b := noStatus]> (statuses m))
                  (match attachment al with Some a => delete a (controls m) | None => controls m end) (callers m) (fresh m))
  | None => (Ok (), m)
  end.

(** The rest of a call that holds the semaphore; [answer] is what the kernel or the
    attachment answers. *)
Definition finishCall (m : BedNetworks) (t : Z) (answer : bool) : option (result net_err (option PolicyReport) * BedNetworks) :=
  match callers m !! t with
  | Some (mkCaller b aid d true) =>
      let '(r, m) := match d with
                     | Update mutation => let '(r, m) := updateHeld m b aid mutation answer in (Some <$> r, m)
                     | Release => let '(r, m) := releaseHeld m b aid answer in ((λ _, None) <$> r, m)
                     end in
      Some (r, leaveCall (releaseSemaphore m aid) t)
  | _ => None
  end.

(** ** Interleavings *)

Definition idle (m : BedNetworks) (b : Z) : Prop := ∀ t c, callers m !! t = Some c → cBed c ≠ b.
(** The attachment of a bed's current allocation. *)
Definition holds (m : BedNetworks) (b a : Z) : Prop :=
  ∃ aid al, allocations m !! b = Some aid ∧ allocs m !! aid = Some al ∧ attachment al = Some a.

Inductive net_step : BedNetworks → BedNetworks → Prop :=
(** [Prepare] runs for a bed nobody was handed: a new one, or one whose last attempt
    failed.  The pool gives it a new attachment, or the one it already holds. *)
| nt_prepare m b acquired effective declared applied :
    idle m b → nsRoom (statusOf m b) = None →
    (∀ a, acquired = Some (Some a) → holds m b a ∨ controls m !! a = None ∧ ∀ b', ¬ holds m b' a) →
    net_step m (Prepare m b acquired effective declared applied).2
| nt_begin m t b d ok aid m' :
    callers m !! t = None → (∀ mu, d = Update mu → is_Some (nsRoom (statusOf m b))) →
    begin m b d ok = Some (aid, m') → net_step m (enterCall m' t (mkCaller b aid d false))
| nt_acquire m t m' : acquireSemaphore m t = Some m' → net_step m m'
(** The context ends while waiting. *)
| nt_abandon m t b aid d : callers m !! t = Some (mkCaller b aid d false) → net_step m (leaveCall m t)
| nt_finish m t answer r m' : finishCall m t answer = Some (r, m') → net_step m m'
(** DNS learning changes a control, but not its policy; a shutdown closes attachments. *)
| nt_learn m a c c' : controls m !! a = Some c → current c' = current c → net_step m (setControl m a c')
| nt_shutdown m a : net_step m (mkBedNetworks (allocations m) (allocs m) (statuses m) (delete a (controls m)) (callers m) (fresh m)).

Definition net_reach (m : BedNetworks) : Prop := rtc net_step noBedNetworks m.

(** ** The invariant *)

Definition levelOf (al : bedAllocation) : Level := match attachment al with Some _ => Private | None => Shared end.

(** What the status of a bed says about the policy of its allocation. *)
Record told (s : NetworkStatus) (al : bedAllocation) (ctl : gmap Z policyControl) : Prop := {
  to_canonical p : requested al = Some p → NormalizePolicy p = Ok p;
  to_shared : attachment al = None →
    nsPolicy s = None ∧ nsRequested s = requested al ∧
    nsPolicyStatus s = match requested al with Some _ => Unenforced | None => NoPolicy end;
  to_attached a : attachment al = Some a →
    nsPolicyStatus s = NoPolicy ∧ nsPolicy s = None ∧ nsRequested s = None ∨
    nsPolicyStatus s = Enforced ∧ ∃ p, nsPolicy s = Some p ∧ nsRequested s = Some p ∧ ∀ c, ctl !! a = Some c → current c = p }.
Record truthful (s : NetworkStatus) (al : bedAllocation) (ctl : gmap Z policyControl) : Prop := {
  tr_room r : nsRoom s = Some r → r = levelRoom (levelOf al) ∧ nsLevel s = Some (levelOf al);
  tr_unprepared : nsRoom s = None → nsPolicyStatus s = NoPolicy ∧ requested al = None;
  tr_told : told s al ctl }.

Definition blank (s : NetworkStatus) : Prop :=
  nsRoom s = None ∧ nsPolicyStatus s = NoPolicy ∧ nsPolicy s = None ∧ nsRequested s = None.

Record net_inv (m : BedNetworks) : Prop := {
  ni_fresh aid al : allocs m !! aid = Some al → aid < fresh m;
  ni_alloc b aid : allocations m !! b = Some aid →
    ∃ al, allocs m !! aid = Some al ∧ released al = false ∧ truthful (statusOf m b) al (controls m);
  ni_own b b' aid : allocations m !! b = Some aid → allocations m !! b' = Some aid → b = b';
  ni_attach b b' a : holds m b a → holds m b' a → b = b';
  ni_blank b : allocations m !! b = None → blank (statusOf m b);
  ni_call t c : callers m !! t = Some c → ∃ al, allocs m !! cAlloc c = Some al ∧ (cHolds c = true → busy al = true) ∧
    (released al = false → allocations m !! cBed c = Some (cAlloc c) ∧
       ∀ mu, cDuty c = Update mu → is_Some (nsRoom (statusOf m (cBed c))));
  ni_excl t t' c c' : callers m !! t = Some c → callers m !! t' = Some c' → cHolds c = true → cHolds c' = true →
    cAlloc c = cAlloc c' → t = t' }.

Lemma net_inv_init : net_inv noBedNetworks.
Proof. split; simpl; intros *; try done. by intros (aid&al&H&_). Qed.

(** A bed with no current allocation whose room is blank reads as blank. *)
Lemma truthful_blank s al ctl : truthful s al ctl → nsRoom s = None → blank s.
Proof.
  intros Ht Hr. destruct (tr_unprepared _ _ _ Ht Hr) as [H1 H2]. split; [done|]. split; [done|].
  destruct (attachment al) as [a|] eqn:Ea.
  - destruct (to_attached _ _ _ (tr_told _ _ _ Ht) a Ea) as [(_&?&?)|(H&_)]; [done|congruence].
  - destruct (to_shared _ _ _ (tr_told _ _ _ Ht) Ea) as (?&E&_). by rewrite E, H2.
Qed.

(** What a call does to the bed whose allocation it found: nothing of another bed changes. *)
Lemma inv_frame m m' b aid al al' :
  net_inv m → allocations m !! b = Some aid → allocs m !! aid = Some al →
  allocations m' = allocations m → allocs m' = <[aid := al']> (allocs m) → callers m' = callers m → fresh m' = fresh m →
  attachment al' = attachment al → released al' = false → busy al' = busy al →
  (∀ a, attachment al ≠ Some a → controls m' !! a = controls m !! a) →
  (∀ b', b' ≠ b → statusOf m' b' = statusOf m b') → nsRoom (statusOf m' b) = nsRoom (statusOf m b) →
  truthful (statusOf m' b) al' (controls m') → net_inv m'.
Proof.
  intros [I1 I2 I3 I4 I5 I6 I7] Hb Hal E1 E2 E3 E4 Ea Er Eb Hctl Hst Hroom Htr.
  assert (∀ b' a, holds m' b' a ↔ holds m b' a) as Hholds.
  { intros b' a. unfold holds. rewrite E1, E2. split; intros (aid'&al0&H1&H2&H3); exists aid'.
    - destruct (decide (aid' = aid)) as [->|Hne]; [|rewrite lookup_insert_ne in H2 by done; eauto].
      rewrite lookup_insert_eq in H2. simplify_eq. exists al. by rewrite <- Ea.
    - destruct (decide (aid' = aid)) as [->|Hne]; [|rewrite lookup_insert_ne by done; eauto].
      rewrite lookup_insert_eq. simplify_eq. exists al'. by rewrite Ea. }
  split; rewrite ?E1, ?E3, ?E4.
  - intros aid' al0. rewrite E2, lookup_insert_Some. intros [[<- _]|[_ H]]; eauto.
  - intros b' aid' H'. rewrite E2. destruct (decide (b' = b)) as [->|Hne].
    + simplify_eq. exists al'. by rewrite lookup_insert_eq.
    + destruct (I2 b' aid' H') as (al0&H1&H2&H3). exists al0. rewrite lookup_insert_ne by (intros ->; apply Hne; eauto).
      split_and!; [done|done|]. rewrite Hst by done. destruct H3 as [F1 F2 [F3 F4 F5]]. split; [done|done|]. split; [done|done|].
      intros a Hatt. rewrite Hctl; [by apply F5|]. intros Hatt'. apply Hne. apply (I4 b' b a); [by exists aid', al0|by exists aid, al].
  - done.
  - intros b' b'' a. rewrite !Hholds. apply I4.
  - intros b' H'. rewrite Hst by (intros ->; congruence). by apply I5.
  - intros t c Hc. destruct (I6 t c Hc) as (al0&H1&H2&H3). rewrite E2. destruct (decide (cAlloc c = aid)) as [Eal|Hne].
    + subst aid. rewrite lookup_insert_eq. exists al'. rewrite Eb. replace al0 with al in * by congruence. split_and!; [done|done|].
      intros _. destruct (I2 _ _ Hb) as (al1&G1&G2&_). replace al1 with al in * by congruence. destruct (H3 G2) as [G3 G4].
      assert (cBed c = b) as Ebed by eauto. split; [congruence|]. rewrite Ebed in *. by rewrite Hroom.
    + rewrite lookup_insert_ne by done. exists al0. split_and!; [done|done|]. intros Hr. destruct (H3 Hr) as [G1 G2]. split; [done|].
      rewrite Hst; [done|]. intros Ebed. rewrite Ebed in G1. congruence.
  - done.
Qed.

Lemma statusOf_set m b x s : statusOf (setStatus m b s) x = if decide (x = b) then s else statusOf m x.
Proof.
  unfold statusOf, setStatus. simpl. case_decide as E; [rewrite E; by rewrite lookup_insert_eq|by rewrite lookup_insert_ne].
Qed.

(** [UpdatePolicy] under the semaphore of an allocation that is not released. *)
Lemma updateHeld_effect m b aid al mutation applied r m' :
  updateHeld m b aid mutation applied = (r, m') → allocs m !! aid = Some al → released al = false →
  told (statusOf m b) al (controls m) →
  allocations m' = allocations m ∧ callers m' = callers m ∧ fresh m' = fresh m ∧
  (∃ al', allocs m' = <[aid := al']> (allocs m) ∧ attachment al' = attachment al ∧ released al' = false ∧ busy al' = busy al ∧
     told (statusOf m' b) al' (controls m') ∧
     (∀ e, r = Err e → requested al' = requested al ∧ statusOf m' b = statusOf m b)) ∧
  (∀ a, attachment al ≠ Some a → controls m' !! a = controls m !! a) ∧
  (∀ b', b' ≠ b → statusOf m' b' = statusOf m b') ∧
  nsRoom (statusOf m' b) = nsRoom (statusOf m b) ∧ nsLevel (statusOf m' b) = nsLevel (statusOf m b).
Proof.
  intros Hu Hal Hrel [T1 T2 T3]. unfold updateHeld in Hu. rewrite Hal, Hrel in Hu.
  assert (allocs m = <[aid := al]> (allocs m)) as Eid by (by rewrite insert_id).
  pose proof (λ m0 x s, statusOf_set m0 b x s) as Hset.
  destruct (attachment al) as [a|] eqn:Ea.
  - unfold updateAttached in Hu. destruct (controls m !! a) as [c|] eqn:Ec.
    + destruct (update c mutation applied) as [res c'] eqn:Eu.
      assert (∀ e, res = Err e → c' = c) as Herr.
      { intros e ->. unfold update in Eu. repeat case_match; by simplify_eq. }
      assert (∀ x, Some a ≠ Some x → <[a := c']> (controls m) !! x = controls m !! x) as Hctl by (intros x Hx; apply lookup_insert_ne; congruence).
      assert (∀ p md, res = Ok (p, md) → current c' = p) as Hok.
      { intros p md ->. unfold update in Eu. repeat case_match; by simplify_eq. }
      destruct res as [[p md]|e].
      * simplify_eq/=. split_and!; [done|done|done| |done|intros b' Hb'; rewrite Hset; by case_decide|by rewrite Hset, decide_True|by rewrite Hset, decide_True].
        exists al. split_and!; [done|done|done|done| |done]. rewrite Hset, decide_True by done. split; [done|by rewrite Ea|].
        intros a' Ha'. rewrite Ea in Ha'. simplify_eq. right. split; [done|]. exists p. split_and!; [done|done|].
        simpl. intros c0. rewrite lookup_insert_eq. intros [= <-]. by eapply Hok.
      * rewrite (Herr e eq_refl) in *.
        assert (m' = setControl m a c) as -> by (by destruct e; simplify_eq).
        split_and!; [done|done|done| |done|done|done|done]. exists al. split_and!; [done|done|done|done| |done].
        split; [done|by rewrite Ea|]. simpl. rewrite insert_id by done. intros a' Ha'. apply T3. congruence.
    + simplify_eq. split_and!; try done. exists al. split_and!; try done. split; [done|by rewrite Ea|]. intros a' Ha'. apply T3. congruence.
  - destruct (T2 eq_refl) as (P1&P2&P3). unfold updateShared in Hu.
    assert (told (statusOf m b) al (controls m)) as Htold by (split; [done|done|by rewrite Ea]).
    destruct (ApplyMutation _ mutation) as [desired|e] eqn:Eap.
    2: { simplify_eq. split_and!; try done. exists al. by split_and!. }
    assert (NormalizePolicy desired = Ok desired) as Hcanon.
    { unfold ApplyMutation in Eap. destruct (match Merge mutation with None => _ | Some _ => _ end) as [nx|]; [|done]. simpl in Eap.
      destruct (match Remove mutation with None => _ | Some _ => _ end) as [ny|]; [|done]. simpl in Eap. by eapply normalize_policy_canonical. }
    set (req := if mutates mutation then Some desired else requested al) in *.
    assert (∀ p, req = Some p → p = desired) as Hreq.
    { intros p Hp. unfold req in Hp. destruct (mutates mutation) eqn:Em; [by simplify_eq|]. rewrite Hp in Eap. simpl in Eap.
      unfold mutates in Em. destruct mutation as [[?|] [?|] [?|]]; try done. unfold ApplyMutation in Eap. simpl in Eap. rewrite T1 in Eap by done. by simplify_eq. }
    assert (req = None → requested al = None) as Hnone by (unfold req; by destruct (mutates mutation)).
    destruct req as [q|].
    + rewrite (Hreq q eq_refl) in *. simplify_eq.
      split_and!; [done|done|done| |done|intros b' Hb'; rewrite Hset; by case_decide|by rewrite Hset, decide_True|by rewrite Hset, decide_True].
      eexists. split_and!; [done|done|done|done| |done]. rewrite Hset, decide_True by done. split; simpl; [by intros p [= <-]|done|by rewrite Ea].
    + simplify_eq. split_and!; try done. eexists. split_and!; [done|done|done|done| |done].
      rewrite (Hnone eq_refl) in *.
      split; simpl; [done| |by rewrite Ea]. intros _. by split_and!.
Qed.

(** A bed gets a new allocation while nobody works on it. *)
Lemma inv_prepared m m' b al :
  net_inv m → idle m b →
  allocations m' = <[b := fresh m]> (allocations m) → allocs m' = <[fresh m := al]> (allocs m) →
  callers m' = callers m → fresh m' = fresh m + 1 → released al = false →
  (∀ a, attachment al = Some a → holds m b a ∨ controls m !! a = None ∧ ∀ b', ¬ holds m b' a) →
  (∀ a, attachment al ≠ Some a → controls m' !! a = controls m !! a) →
  (∀ b', b' ≠ b → statusOf m' b' = statusOf m b') →
  truthful (statusOf m' b) al (controls m') → net_inv m'.
Proof.
  intros [I1 I2 I3 I4 I5 I6 I7] Hidle E1 E2 E3 E4 Er Hatt Hctl Hst Htr.
  assert (∀ aid x, allocs m !! aid = Some x → aid ≠ fresh m) as Hne by (intros aid x H; specialize (I1 _ _ H); lia).
  assert (∀ b' aid, allocations m !! b' = Some aid → aid ≠ fresh m) as Hne'.
  { intros b' aid H. destruct (I2 b' aid H) as (x&Hx&_). eauto. }
  assert (∀ b' a, b' ≠ b → holds m' b' a ↔ holds m b' a) as Hholds.
  { intros b' a Hb'. unfold holds. rewrite E1, E2. split; intros (aid&x&H1&H2&H3); exists aid, x.
    - rewrite lookup_insert_ne in H1 by done. by rewrite lookup_insert_ne in H2 by (by apply not_eq_sym, (Hne' b')).
    - rewrite lookup_insert_ne by done. by rewrite lookup_insert_ne by (by apply not_eq_sym, (Hne' b')). }
  assert (∀ a, holds m' b a → attachment al = Some a) as Hown.
  { intros a (aid&x&H1&H2&H3). rewrite E1, lookup_insert_eq in H1. simplify_eq. rewrite E2, lookup_insert_eq in H2. by simplify_eq. }
  assert (∀ b' a, b' ≠ b → holds m b' a → attachment al ≠ Some a) as Hother.
  { intros b' a Hb' Hh Ha. destruct (Hatt a Ha) as [Hb|[_ Hno]]; [by eapply Hb', I4|by eapply Hno]. }
  split; rewrite ?E1, ?E3, ?E4.
  - intros aid x. rewrite E2, lookup_insert_Some. intros [[<- _]|[_ H]]; [lia|]. specialize (I1 _ _ H). lia.
  - intros b' aid H. rewrite E2. destruct (decide (b' = b)) as [->|Hb'].
    + rewrite lookup_insert_eq in H. simplify_eq. exists al. by rewrite lookup_insert_eq.
    + rewrite lookup_insert_ne in H by done. destruct (I2 b' aid H) as (x&H1&H2&[F1 F2 [F3 F4 F5]]). exists x.
      rewrite lookup_insert_ne by (by apply not_eq_sym, (Hne' b')). split_and!; [done|done|]. rewrite Hst by done.
      split; [done|done|]. split; [done|done|]. intros a Ha. rewrite Hctl; [by apply F5|]. apply (Hother b'); [done|]. by exists aid, x.
  - intros b' b'' aid. rewrite !lookup_insert_Some. intros [[<- <-]|[? H1]] [[<- E]|[? H2]]; try done; [|..].
    + by destruct (Hne' _ _ H2).
    + subst aid. by destruct (Hne' _ _ H1).
    + eauto.
  - intros b' b'' a H1 H2. destruct (decide (b' = b)) as [->|N1], (decide (b'' = b)) as [->|N2]; [done|..].
    + apply Hholds in H2; [|done]. by destruct (Hother b'' a N2 H2 (Hown a H1)).
    + apply Hholds in H1; [|done]. by destruct (Hother b' a N1 H1 (Hown a H2)).
    + apply Hholds in H1, H2; [|done|done]. eauto.
  - intros b' H. destruct (decide (b' = b)) as [->|Hb']; [by rewrite lookup_insert_eq in H|]. rewrite lookup_insert_ne in H by done.
    rewrite Hst by done. by apply I5.
  - intros t c Hc. destruct (I6 t c Hc) as (x&H1&H2&H3). exists x. pose proof (Hidle t c Hc) as Hcb.
    rewrite E2, lookup_insert_ne by (by apply not_eq_sym, (Hne _ _ H1)). split_and!; [done|done|]. intros Hr. destruct (H3 Hr) as [G1 G2].
    by rewrite lookup_insert_ne, Hst.
  - done.
Qed.

Lemma Prepare_inv m b acquired effective declared applied :
  net_inv m → idle m b → nsRoom (statusOf m b) = None →
  (∀ a, acquired = Some (Some a) → holds m b a ∨ controls m !! a = None ∧ ∀ b', ¬ holds m b' a) →
  net_inv (Prepare m b acquired effective declared applied).2.
Proof.
  intros Hi Hidle Hroom Hatt. unfold Prepare. destruct acquired as [at_|]; [|done].
  set (al0 := mkBedAllocation at_ false false None). set (m1 := mkBedNetworks _ _ _ _ _ _).
  assert (∀ a, attachment al0 = Some a → holds m b a ∨ controls m !! a = None ∧ ∀ b', ¬ holds m b' a) as Hatt'.
  { intros a Ha. apply Hatt. simpl in Ha. by rewrite Ha. }
  assert (∀ a, attachment al0 ≠ Some a → controls m1 !! a = controls m !! a) as Hctl1.
  { intros a Ha. simpl in *. destruct at_ as [a0|]; [|done]. rewrite lookup_insert_ne; [done|congruence]. }
  assert (blank (statusOf m b)) as Hbl.
  { destruct (allocations m !! b) as [aid|] eqn:E; [|by apply (ni_blank _ Hi)].
    destruct (ni_alloc _ Hi b aid E) as (x&_&_&Ht). by eapply truthful_blank. }
  destruct (bool_decide (effective = Private) && bool_decide (at_ = None)) eqn:Ebad.
  { apply (inv_prepared m m1 b al0); try done. apply andb_true_iff in Ebad as [_ Ea%bool_decide_eq_true].
    change (statusOf m1 b) with (statusOf m b). destruct Hbl as (B1&B2&B3&B4). split; simpl; [by rewrite B1|done|].
    split; simpl; [done|done|by rewrite Ea]. }
  set (s0 := mkNetworkStatus None _ NoPolicy None None). set (m2 := setStatus m1 b s0).
  pose proof (λ m0 x s, statusOf_set m0 b x s) as Hset.
  assert (told (statusOf m2 b) al0 (controls m2)) as Htold.
  { unfold m2. rewrite Hset, decide_True by done. split; simpl; [done|done|]. by left. }
  assert (allocs m2 !! fresh m = Some al0) as Hal by apply lookup_insert_eq.
  assert (∀ (r : result net_err PolicyReport) m3,
    (r = Ok (mkReport NoPolicy allowAll None) ∧ m3 = m2 ∨ ∃ p, declared = Some p ∧ updateHeld m2 b (fresh m) (mkMutation (Some p) None None) applied = (r, m3)) →
    net_inv (match r with
             | Err e => m3
             | Ok _ => setStatus m3 b (mkNetworkStatus (Some (levelRoom (match at_ with Some _ => Private | None => Shared end)))
                         (nsLevel (statusOf m3 b)) (nsPolicyStatus (statusOf m3 b)) (nsPolicy (statusOf m3 b)) (nsRequested (statusOf m3 b))) end)) as Hfin.
  { intros r m3 Hr.
    assert (allocations m3 = allocations m2 ∧ callers m3 = callers m2 ∧ fresh m3 = fresh m2 ∧
      (∃ al', allocs m3 = <[fresh m := al']> (allocs m2) ∧ attachment al' = attachment al0 ∧ released al' = false ∧
         told (statusOf m3 b) al' (controls m3) ∧ (∀ e, r = Err e → requested al' = requested al0 ∧ statusOf m3 b = statusOf m2 b)) ∧
      (∀ a, attachment al0 ≠ Some a → controls m3 !! a = controls m2 !! a) ∧
      (∀ b', b' ≠ b → statusOf m3 b' = statusOf m2 b') ∧
      nsRoom (statusOf m3 b) = nsRoom (statusOf m2 b) ∧ nsLevel (statusOf m3 b) = nsLevel (statusOf m2 b))
      as (G1&G2&G3&(al'&G4&G5&G6&G7&G8)&G9&G10&G11&G12).
    { destruct Hr as [[-> ->]|(p&_&Hu)].
      - split_and!; try done. exists al0. split_and!; try done. by rewrite insert_id.
      - destruct (updateHeld_effect _ _ _ _ _ _ _ _ Hu Hal eq_refl Htold) as (H1&H2&H3&(al'&H4&H5&H6&H7&H8&H9)&H10&H11&H12&H13).
        split_and!; try done. exists al'. by split_and!. }
    assert (levelOf al' = match at_ with Some _ => Private | None => Shared end) as Hlev by (unfold levelOf; by rewrite G5).
    assert (allocs m3 = <[fresh m := al']> (allocs m)) as Eal by (rewrite G4; unfold m2, m1; simpl; apply insert_insert_eq).
    assert (∀ a, attachment al' ≠ Some a → controls m3 !! a = controls m !! a) as Ectl.
    { intros a Ha. rewrite G5 in Ha. rewrite G9 by done. by apply Hctl1. }
    assert (∀ b', b' ≠ b → statusOf m3 b' = statusOf m b') as Est.
    { intros b' Hb'. rewrite G10 by done. unfold m2. by rewrite Hset, decide_False. }
    unfold m2 in G11, G12. rewrite Hset, decide_True in G11, G12 by done. simpl in G11, G12.
    destruct r as [rep|e].
    - apply (inv_prepared m _ b al'); try done; [by rewrite G5|intros b' Hb'; rewrite Hset, decide_False by done; by apply Est|].
      rewrite Hset, decide_True by done. split; simpl; [|done|].
      + intros r0 [= <-]. by rewrite G12, Hlev.
      + destruct G7 as [F1 F2 F3]. by split.
    - destruct (G8 e eq_refl) as [R1 R2]. apply (inv_prepared m _ b al'); try done; [by rewrite G5|].
      split; [by rewrite G11|intros _; split; [rewrite R2; unfold m2; by rewrite Hset, decide_True|by rewrite R1]|done]. }
  destruct declared as [p|].
  - destruct (updateHeld m2 b (fresh m) _ applied) as [r m3] eqn:Hu. specialize (Hfin r m3 (or_intror (ex_intro _ p (conj eq_refl Hu)))).
    by destruct r.
  - exact (Hfin (Ok (mkReport NoPolicy allowAll None)) m2 (or_introl (conj eq_refl eq_refl))).
Qed.

(** Entering and leaving a call. *)
Lemma inv_callers m cs :
  net_inv m →
  (∀ t c, cs !! t = Some c → ∃ al, allocs m !! cAlloc c = Some al ∧ (cHolds c = true → busy al = true) ∧
    (released al = false → allocations m !! cBed c = Some (cAlloc c) ∧
       ∀ mu, cDuty c = Update mu → is_Some (nsRoom (statusOf m (cBed c))))) →
  (∀ t t' c c', cs !! t = Some c → cs !! t' = Some c' → cHolds c = true → cHolds c' = true → cAlloc c = cAlloc c' → t = t') →
  net_inv (mkBedNetworks (allocations m) (allocs m) (statuses m) (controls m) cs (fresh m)).
Proof. intros [I1 I2 I3 I4 I5 _ _] H1 H2. by split. Qed.
Lemma leave_inv m t : net_inv m → net_inv (leaveCall m t).
Proof.
  intros Hi. apply inv_callers; [done|intros t' c [_ H]%lookup_delete_Some; by apply (ni_call _ Hi) in H|].
  intros t1 t2 c1 c2 [_ H1]%lookup_delete_Some [_ H2]%lookup_delete_Some. by apply (ni_excl _ Hi t1 t2).
Qed.
Lemma enter_inv m t c al :
  net_inv m → callers m !! t = None ∨ (∃ c0, callers m !! t = Some c0 ∧ cHolds c0 = false ∧ cAlloc c0 = cAlloc c ∧ cBed c0 = cBed c ∧ cDuty c0 = cDuty c) →
  allocs m !! cAlloc c = Some al →
  (cHolds c = true → busy al = true ∧ ∀ t' c', t' ≠ t → callers m !! t' = Some c' → cHolds c' = true → cAlloc c' ≠ cAlloc c) →
  (released al = false → allocations m !! cBed c = Some (cAlloc c) ∧ ∀ mu, cDuty c = Update mu → is_Some (nsRoom (statusOf m (cBed c)))) →
  net_inv (enterCall m t c).
Proof.
  intros Hi Ht Hal Hh Hr. apply inv_callers; [done| |].
  - intros t' c'. rewrite lookup_insert_Some. intros [[<- <-]|[_ H]]; [|by apply (ni_call _ Hi) in H]. exists al. split_and!; [done|by intros Hx; apply Hh|done].
  - intros t1 t2 c1 c2. rewrite !lookup_insert_Some. intros [[<- <-]|[N1 H1]] [[<- <-]|[N2 H2]] B1 B2 E; try done.
    + by destruct (proj2 (Hh B1) t2 c2 (not_eq_sym N2) H2 B2).
    + by destruct (proj2 (Hh B2) t1 c1 (not_eq_sym N1) H1 B1).
    + by apply (ni_excl _ Hi t1 t2 c1 c2).
Qed.

(** Taking and giving back the semaphore. *)
Lemma busy_inv m aid al x :
  net_inv m → allocs m !! aid = Some al →
  (x = false → ∀ t c, callers m !! t = Some c → cHolds c = true → cAlloc c ≠ aid) →
  net_inv (setAlloc m aid (withBusy al x)).
Proof.
  intros [I1 I2 I3 I4 I5 I6 I7] Hal Hx.
  assert (∀ i y, allocs (setAlloc m aid (withBusy al x)) !! i = Some y → ∃ z, allocs m !! i = Some z ∧ attachment y = attachment z ∧
    released y = released z ∧ requested y = requested z) as Hback.
  { intros i y. simpl. rewrite lookup_insert_Some. intros [[<- <-]|[_ H]]; eauto. }
  assert (∀ i z, allocs m !! i = Some z → ∃ y, allocs (setAlloc m aid (withBusy al x)) !! i = Some y ∧ attachment y = attachment z ∧
    released y = released z ∧ requested y = requested z ∧ (i ≠ aid → y = z) ∧ (i = aid → busy y = x)) as Hforth.
  { intros i z H. simpl. destruct (decide (i = aid)) as [->|Hne].
    - rewrite lookup_insert_eq. simplify_eq. eexists. by split_and!.
    - rewrite lookup_insert_ne by done. exists z. by split_and!. }
  split; simpl; [|..].
  - intros i y. rewrite lookup_insert_Some. intros [[<- _]|[_ H]]; eauto.
  - intros b i H. destruct (I2 b i H) as (z&H1&H2&[F1 F2 [F3 F4 F5]]). destruct (Hforth i z H1) as (y&G1&G2&G3&G4&_). exists y.
    split_and!; [done|congruence|]. change (statusOf (setAlloc m aid (withBusy al x)) b) with (statusOf m b).
    split; [unfold levelOf; by rewrite G2|by rewrite G4|]. by split; rewrite ?G2, ?G4.
  - done.
  - intros b b' a (i&y&H1&H2&H3) (i'&y'&H1'&H2'&H3').
    destruct (Hback _ _ H2) as (z&Z1&Z2&_), (Hback _ _ H2') as (z'&Z1'&Z2'&_).
    apply (I4 b b' a); [exists i, z|exists i', z']; split_and!; try done; congruence.
  - done.
  - intros t c Hc. destruct (I6 t c Hc) as (z&H1&H2&H3). destruct (Hforth _ z H1) as (y&G1&G2&G3&G4&G5&G6). exists y.
    split_and!; [done| |by rewrite G3]. intros Hh. destruct (decide (cAlloc c = aid)) as [E|E]; [|rewrite G5; auto].
    rewrite G6 by done. destruct x; [done|]. by destruct (Hx eq_refl t c Hc Hh).
  - done.
Qed.

Lemma acquire_inv m t m' : net_inv m → acquireSemaphore m t = Some m' → net_inv m'.
Proof.
  intros Hi. unfold acquireSemaphore. destruct (callers m !! t) as [[b aid d []]|] eqn:Et; [done| |done].
  destruct (allocs m !! aid) as [al|] eqn:Eal; [|done]. destruct (busy al) eqn:Eb; [done|]. intros [= <-].
  destruct (ni_call _ Hi t _ Et) as (al'&H1&_&H3). simpl in *. simplify_eq.
  apply (enter_inv _ t _ (withBusy al true)); simpl.
  - by apply busy_inv.
  - right. rewrite Et. by eexists.
  - by rewrite lookup_insert_eq.
  - intros _. split; [done|]. intros t' c' Hne Hc' Hh' E. destruct (ni_call _ Hi t' c' Hc') as (x&G1&G2&_). rewrite E in G1. simplify_eq. by rewrite G2 in Eb.
  - exact H3.
Qed.

(** The end of a call that held the semaphore. *)
Lemma leave_released m t aid : leaveCall (releaseSemaphore m aid) t = releaseSemaphore (leaveCall m t) aid.
Proof. unfold releaseSemaphore. simpl. by destruct (allocs m !! aid). Qed.
Lemma end_inv m t c :
  net_inv m → callers m !! t = Some c → cHolds c = true → net_inv (leaveCall (releaseSemaphore m (cAlloc c)) t).
Proof.
  intros Hi Ht Hh. rewrite leave_released. pose proof (leave_inv m t Hi) as Hl. unfold releaseSemaphore.
  destruct (allocs (leaveCall m t) !! cAlloc c) as [al|] eqn:E; [|done]. apply busy_inv; [done|done|].
  intros _ t' c' H' Hh' Ea. simpl in H'. apply lookup_delete_Some in H' as [Hne H']. by apply Hne, (ni_excl _ Hi t t' c c').
Qed.

Lemma updateHeld_inv m b aid mutation applied t c :
  net_inv m → callers m !! t = Some c → c = mkCaller b aid (Update mutation) true →
  net_inv (updateHeld m b aid mutation applied).2 ∧ callers (updateHeld m b aid mutation applied).2 = callers m.
Proof.
  intros Hi Ht ->. destruct (ni_call _ Hi t _ Ht) as (al&Hal&_&Hcur). simpl in *.
  destruct (released al) eqn:Er; [unfold updateHeld; by rewrite Hal, Er|]. destruct (Hcur eq_refl) as [Hb Hroom]. specialize (Hroom _ eq_refl).
  destruct (ni_alloc _ Hi b aid Hb) as (al'&Hal'&_&Htr). replace al' with al in * by congruence.
  destruct (updateHeld m b aid mutation applied) as [r m'] eqn:Hu. simpl.
  destruct (updateHeld_effect _ _ _ _ _ _ _ _ Hu Hal Er (tr_told _ _ _ Htr)) as (H1&H2&H3&(al1&H4&H5&H6&H7&H8&_)&H10&H11&H12&H13).
  split; [|done]. apply (inv_frame m m' b aid al al1); try done. destruct Htr as [F1 F2 _]. split; [|by rewrite H12; intros E; rewrite E in Hroom; destruct Hroom|done].
  intros r0. rewrite H12, H13. unfold levelOf. rewrite H5. apply F1.
Qed.

Lemma releaseHeld_inv m b aid closes t c :
  net_inv m → callers m !! t = Some c → c = mkCaller b aid Release true →
  net_inv (releaseHeld m b aid closes).2 ∧ callers (releaseHeld m b aid closes).2 = callers m.
Proof.
  intros Hi Ht ->. destruct (ni_call _ Hi t _ Ht) as (al&Hal&_&Hcur). simpl in *. unfold releaseHeld. rewrite Hal.
  destruct (released al) eqn:Er; [done|]. destruct (_ && _); [done|]. destruct (Hcur eq_refl) as [Hb _]. split; [|done].
  destruct Hi as [I1 I2 I3 I4 I5 I6 I7]. simpl. set (al1 := mkBedAllocation _ _ true _). set (m' := mkBedNetworks _ _ _ _ _ _).
  assert (∀ b', b' ≠ b → statusOf m' b' = statusOf m b') as Hst by (intros b' Hb'; unfold statusOf, m'; simpl; by rewrite lookup_insert_ne).
  assert (∀ b' a, holds m' b' a → b' ≠ b ∧ holds m b' a) as Hh.
  { intros b' a (i&x&H1&H2&H3). unfold m' in H1, H2. simpl in H1, H2. apply lookup_delete_Some in H1 as [N H1]. split; [done|].
    exists i, x. rewrite lookup_insert_ne in H2; [done|]. intros <-. by apply N, (I3 b b' aid). }
  split; simpl.
  - intros i x. rewrite lookup_insert_Some. intros [[<- _]|[_ H]]; eauto.
  - intros b' i [N H]%lookup_delete_Some. destruct (I2 b' i H) as (x&G1&G2&[F1 F2 [F3 F4 F5]]). exists x.
    rewrite lookup_insert_ne by (intros <-; by apply N, (I3 b b' aid)). split_and!; [done|done|]. rewrite Hst by done. split; [done|done|].
    split; [done|done|]. intros a Ha. destruct (F5 a Ha) as [?|(?&p&?&?&Hc)]; [by left|right]. split; [done|]. exists p. split_and!; [done|done|].
    intros c0. destruct (attachment al) as [a0|] eqn:Ea0; [|apply Hc]. rewrite lookup_delete_Some. intros [_ ?]. by apply Hc.
  - intros b1 b2 i [_ H1]%lookup_delete_Some [_ H2]%lookup_delete_Some. eauto.
  - intros b1 b2 a [_ H1]%Hh [_ H2]%Hh. eauto.
  - intros b' H. destruct (decide (b' = b)) as [->|N].
    + unfold statusOf, m'. simpl. by rewrite lookup_insert_eq.
    + rewrite Hst by done. apply I5. by rewrite lookup_delete_ne in H.
  - intros t' c' Hc'. destruct (I6 t' c' Hc') as (x&G1&G2&G3). destruct (decide (cAlloc c' = aid)) as [E|E].
    + rewrite E in *. rewrite lookup_insert_eq. exists al1. split_and!; [done| |done]. intros Hx. simpl. replace al with x by congruence. auto.
    + rewrite lookup_insert_ne by done. exists x. split_and!; [done|done|]. intros Hr. destruct (G3 Hr) as [K1 K2].
      assert (cBed c' ≠ b) as N by (intros Eb; rewrite Eb in K1; congruence). by rewrite lookup_delete_ne, Hst.
  - done.
Qed.

Lemma net_step_inv m m' : net_step m m' → net_inv m → net_inv m'.
Proof.
  intros Hs Hi. destruct Hs as [m b acquired effective declared applied Hid Hr Ha|m t b d ok aid m' Ht Hd Hb|m t m' Ha|m t b aid d Ht|m t answer r m' Hf|m a c c' Hc Ec|m a].
  - by apply Prepare_inv.
  - assert (m' = m ∧ allocations m !! b = Some aid) as [-> Hal].
    { unfold begin in Hb. destruct d, ok; try done; destruct (allocations m !! b) as [x|]; try done; simpl in Hb; by simplify_eq. }
    destruct (ni_alloc _ Hi b aid Hal) as (al&H1&H2&_). apply (enter_inv m t _ al); simpl; try done; by left.
  - by apply (acquire_inv m t).
  - by apply leave_inv.
  - unfold finishCall in Hf. destruct (callers m !! t) as [[b aid d []]|] eqn:Et; [|done..]. destruct d as [mutation|].
    + destruct (updateHeld_inv m b aid mutation answer t _ Hi Et eq_refl) as [H1 H2].
      destruct (updateHeld m b aid mutation answer) as [r' m1]. simpl in *. simplify_eq.
      by apply (end_inv m1 t (mkCaller b aid (Update mutation) true)); rewrite ?H2.
    + destruct (releaseHeld_inv m b aid answer t _ Hi Et eq_refl) as [H1 H2].
      destruct (releaseHeld m b aid answer) as [r' m1]. simpl in *. simplify_eq.
      by apply (end_inv m1 t (mkCaller b aid Release true)); rewrite ?H2.
  - destruct Hi as [I1 I2 I3 I4 I5 I6 I7]. split; try done. intros b aid H. destruct (I2 b aid H) as (al&H1&H2&[F1 F2 [F3 F4 F5]]).
    exists al. split_and!; [done|done|]. split; [done|done|]. split; [done|done|]. intros a' Ha'.
    destruct (F5 a' Ha') as [?|(?&p&?&?&Hp)]; [by left|right]. split; [done|]. exists p. split_and!; [done|done|]. simpl.
    intros c0. rewrite lookup_insert_Some. intros [[<- <-]|[_ ?]]; [|auto]. rewrite Ec. auto.
  - destruct Hi as [I1 I2 I3 I4 I5 I6 I7]. split; try done. intros b aid H. destruct (I2 b aid H) as (al&H1&H2&[F1 F2 [F3 F4 F5]]).
    exists al. split_and!; [done|done|]. split; [done|done|]. split; [done|done|]. intros a' Ha'.
    destruct (F5 a' Ha') as [?|(?&p&?&?&Hp)]; [by left|right]. split; [done|]. exists p. split_and!; [done|done|]. simpl.
    intros c0 [_ ?]%lookup_delete_Some. auto.
Qed.
Lemma net_reach_inv m : net_reach m → net_inv m.
Proof.
  intros Hr. assert (∀ x y, rtc net_step x y → net_inv x → net_inv y) as Hind.
  { induction 1 as [|x y z Hs _ IH]; [done|]. intros Hx. apply IH. by eapply net_step_inv. }
  eapply Hind; [exact Hr|apply net_inv_init].
Qed.

(** ** Properties *)

(** C17: the network status of a bed tells the truth, under every interleaving of
    preparation, policy updates, releases, DNS learning and shutdown: a policy reported
    as enforced is the one in force on the attachment the bed holds, which no other bed
    holds; a policy reported as unenforced is the requested one of a bed without an
    attachment; and the room a bed reports is a suite exactly when it has a network of
    its own. *)
Theorem network_status_truthful m b :
  net_reach m → let s := statusOf m b in
  (nsPolicyStatus s = Enforced → ∃ a p, holds m b a ∧ (∀ b', holds m b' a → b' = b) ∧
     nsPolicy s = Some p ∧ nsRequested s = Some p ∧ ∀ c, controls m !! a = Some c → current c = p) ∧
  (nsPolicyStatus s = Unenforced → nsPolicy s = None ∧ (∀ a, ¬ holds m b a) ∧
     ∃ aid al p, allocations m !! b = Some aid ∧ allocs m !! aid = Some al ∧ requested al = Some p ∧ nsRequested s = Some p) ∧
  (∀ r, nsRoom s = Some r → r = Suite ↔ ∃ a, holds m b a).
Proof.
  intros Hi%net_reach_inv s. unfold s. destruct (allocations m !! b) as [aid|] eqn:Hb.
  2: { destruct (ni_blank _ Hi b Hb) as (B1&B2&B3&B4). rewrite B1, B2. split_and!; done. }
  destruct (ni_alloc _ Hi b aid Hb) as (al&Hal&Hrel&[F1 F2 [F3 F4 F5]]).
  assert (∀ a, holds m b a ↔ attachment al = Some a) as Hh.
  { intros a. split; [intros (?&?&?&?&?); by simplify_eq|intros Ha; by exists aid, al]. }
  destruct (attachment al) as [a|] eqn:Ea.
  - destruct (F5 a eq_refl) as [(E1&E2&E3)|(E1&p&E2&E3&E4)]; rewrite E1; split_and!; try done.
    + intros r Hr. destruct (F1 r Hr) as [-> _]. unfold levelOf. rewrite Ea. split; [intros _; exists a; by apply Hh|done].
    + intros _. exists a, p. split_and!; try done; [by apply Hh|]. intros b' Hb'. apply (ni_attach _ Hi b' b a); [done|by apply Hh].
    + intros r Hr. destruct (F1 r Hr) as [-> _]. unfold levelOf. rewrite Ea. split; [intros _; exists a; by apply Hh|done].
  - destruct (F4 eq_refl) as (E1&E2&E3). rewrite E3. split_and!.
    + by destruct (requested al).
    + intros Hu. split_and!; [done|by intros a Hx%Hh|]. exists aid, al. destruct (requested al) as [p|]; [|done]. by exists p.
    + intros r Hr. destruct (F1 r Hr) as [-> _]. unfold levelOf. rewrite Ea. split; [done|]. by intros [a Hx%Hh].
Qed.

(** A released allocation stays released. *)
Lemma updateHeld_allocs m b aid mutation applied i x :
  allocs m !! i = Some x → ∃ y, allocs (updateHeld m b aid mutation applied).2 !! i = Some y ∧ released y = released x.
Proof.
  intros Hx. unfold updateHeld. destruct (allocs m !! aid) as [al|] eqn:Hal; [|eauto]. destruct (released al) eqn:Er; [eauto|].
  destruct (attachment al) as [a|].
  - unfold updateAttached. destruct (controls m !! a) as [c|]; [|eauto]. destruct (update c mutation applied) as [[[p md]|[]] c']; simpl; eauto.
  - unfold updateShared. destruct (ApplyMutation _ _) as [p|]; [|eauto].
    destruct (decide (i = aid)) as [->|Hne]; [simplify_eq|].
    + destruct (if mutates mutation then _ else _); simpl; rewrite lookup_insert_eq; by eexists.
    + destruct (if mutates mutation then _ else _); simpl; rewrite lookup_insert_ne by done; eauto.
Qed.
Lemma semaphore_allocs m aid i x :
  allocs m !! i = Some x → ∃ y, allocs (releaseSemaphore m aid) !! i = Some y ∧ released y = released x.
Proof.
  intros Hx. unfold releaseSemaphore. destruct (allocs m !! aid) as [al|] eqn:Hal; [|eauto]. simpl.
  destruct (decide (i = aid)) as [->|Hne]; [rewrite lookup_insert_eq|rewrite lookup_insert_ne by done; eauto].
  eexists. split; [done|]. simpl. congruence.
Qed.
Definition gone (m : BedNetworks) (aid : Z) : Prop := ∃ al, allocs m !! aid = Some al ∧ released al = true.
Lemma Prepare_gone m b acquired effective declared applied aid :
  net_inv m → gone m aid → gone (Prepare m b acquired effective declared applied).2 aid.
Proof.
  intros Hi (al&Hal&Hr). unfold Prepare. destruct acquired as [at_|]; [|by exists al]. set (m1 := mkBedNetworks _ _ _ _ _ _).
  assert (allocs m1 !! aid = Some al) as H1.
  { unfold m1. simpl. rewrite lookup_insert_ne; [done|]. specialize (ni_fresh _ Hi _ _ Hal). lia. }
  destruct (_ && _); [by exists al|]. destruct declared as [p|]; [|by exists al]. set (m2 := setStatus m1 _ _).
  destruct (updateHeld_allocs m2 b (fresh m) (mkMutation (Some p) None None) applied aid al H1) as (y&Hy&Ey).
  destruct (updateHeld m2 b (fresh m) _ applied) as [[r|e] m3]; simpl in *; exists y; by rewrite Ey.
Qed.
Lemma gone_step m m' aid : net_step m m' → net_inv m → gone m aid → gone m' aid.
Proof.
  intros Hs Hi (al&Hal&Hr). destruct Hs as [m b acquired effective declared applied _ _ _|m t b d ok aid' m' _ _ Hb|m t m' Ha|m t b aid' d _|m t answer r m' Hf|m a c c' _ _|m a];
    try (by exists al).
  - apply Prepare_gone; [done|by exists al].
  - assert (m' = m) as -> by (unfold begin in Hb; destruct d, ok; try done; destruct (allocations m !! b); try done; by simplify_eq/=).
    by exists al.
  - unfold acquireSemaphore in Ha. destruct (callers m !! t) as [[b i d []]|]; try done. destruct (allocs m !! i) as [x|] eqn:Hx; [|done].
    destruct (busy x); [done|]. simplify_eq. unfold gone. simpl.
    destruct (decide (aid = i)) as [->|Hne]; [rewrite lookup_insert_eq; simplify_eq; by eexists|rewrite lookup_insert_ne by done; by exists al].
  - unfold finishCall in Hf. destruct (callers m !! t) as [[b i d []]|]; try done. destruct d as [mutation|].
    + destruct (updateHeld_allocs m b i mutation answer aid al Hal) as (y&Hy&Ey). destruct (updateHeld m b i mutation answer) as [r1 m1]. simplify_eq/=.
      destruct (semaphore_allocs m1 i aid y Hy) as (z&Hz&Ez). exists z. by rewrite Ez, Ey.
    + assert (gone (releaseHeld m b i answer).2 aid) as (y&Hy&Ey).
      { unfold releaseHeld. destruct (allocs m !! i) as [x|] eqn:Hx; [|by exists al]. destruct (released x) eqn:Ex; [by exists al|].
        destruct (_ && _); [by exists al|]. unfold gone. simpl.
        destruct (decide (aid = i)) as [->|Hne]; [rewrite lookup_insert_eq; by eexists|rewrite lookup_insert_ne by done; by exists al]. }
      destruct (releaseHeld m b i answer) as [r1 m1]. simplify_eq/=.
      destruct (semaphore_allocs m1 i aid y Hy) as (z&Hz&Ez). exists z. by rewrite Ez, Ey.
Qed.

(** A released network is never configured again: when [Release] succeeds the bed
    has no allocation, a blank status and a closed attachment, and every policy update
    that found the allocation before and gets the semaphore later, in whatever state,
    is refused without touching any network. *)
Lemma released_network_untouched m t b aid answer r m1 m2 t' b' mutation answer' r' m3 :
  net_reach m → callers m !! t = Some (mkCaller b aid Release true) → finishCall m t answer = Some (Ok r, m1) →
  (allocations m !! b = Some aid → allocations m1 !! b = None ∧ blank (statusOf m1 b) ∧ ∀ a, holds m b a → controls m1 !! a = None) ∧
  (rtc net_step m1 m2 → callers m2 !! t' = Some (mkCaller b' aid (Update mutation) true) →
   finishCall m2 t' answer' = Some (r', m3) → r' = Err NetUnavailable ∧ controls m3 = controls m2).
Proof.
  intros Hreach Ht Hf. pose proof (net_reach_inv _ Hreach) as Hi. pose proof Hf as Hf0. unfold finishCall in Hf. rewrite Ht in Hf.
  destruct (ni_call _ Hi t _ Ht) as (al&Hal&_&_). simpl in Hal.
  assert (gone m1 aid ∧ (allocations m !! b = Some aid → allocations m1 !! b = None ∧ statusOf m1 b = noStatus ∧ ∀ a, holds m b a → controls m1 !! a = None)) as [Hg H1].
  { unfold releaseHeld in Hf. rewrite Hal in Hf. destruct (released al) eqn:Er.
    - simplify_eq/=. destruct (semaphore_allocs m aid aid al Hal) as (y&Hy&Ey). split; [exists y; by rewrite Ey|].
      intros Hb. destruct (ni_alloc _ Hi b aid Hb) as (al'&?&?&_). congruence.
    - destruct (_ && _) eqn:Ec; simplify_eq/=. unfold releaseSemaphore. simpl. rewrite lookup_insert_eq. unfold gone, leaveCall, setAlloc, statusOf. simpl.
      rewrite !lookup_insert_eq. split; [by eexists|]. intros Hb. rewrite lookup_delete_eq. split_and!; [done|done|].
      intros a (aid'&al'&?&?&Ha). simplify_eq. rewrite Ha. apply lookup_delete_eq. }
  split; [intros Hb; destruct (H1 Hb) as (H2&->&H3); by split_and!|]. intros Hst Ht' Hf'.
  assert (gone m2 aid) as (x&Hx&Ex).
  { assert (net_inv m1) as Hi1 by (eapply net_step_inv; [by eapply nt_finish|done]). clear -Hst Hg Hi1.
    induction Hst as [|x y z Hs _ IH]; [done|]. apply IH; [by eapply gone_step|by eapply net_step_inv]. }
  unfold finishCall in Hf'. rewrite Ht' in Hf'. unfold updateHeld in Hf'. rewrite Hx, Ex in Hf'. simplify_eq/=. split; [done|].
  unfold releaseSemaphore. by rewrite Hx.
Qed.

(** ** On a concrete bed *)

Definition denyAll : Policy := mkPolicy "deny" [mkRule "allow" "example.com"].
Definition demo1 : BedNetworks := (Prepare noBedNetworks 1 (Some (Some 7)) Private (Some denyAll) true).2.
Lemma demo1_reach : net_reach demo1.
Proof.
  apply rtc_once. apply nt_prepare; [by intros t c|done|]. intros a [= <-]. right. split; [done|]. by intros b' (aid&al&H&_).
Qed.

Lemma network_status_truthful_witness :
  nsPolicyStatus (statusOf demo1 1) = Enforced ∧ ∃ a, holds demo1 1 a ∧ ∀ c, controls demo1 !! a = Some c → current c = denyAll.
Proof.
  destruct (network_status_truthful demo1 1 demo1_reach) as (H&_). assert (nsPolicyStatus (statusOf demo1 1) = Enforced) as E by (vm_compute; reflexivity).
  split; [exact E|]. destruct (H E) as (a&p&Ha&_&Hp&_&Hc). exists a. split; [exact Ha|].
  assert (nsPolicy (statusOf demo1 1) = Some denyAll) as Hd by (vm_compute; reflexivity). rewrite Hd in Hp. injection Hp as Hp. rewrite Hp. exact Hc.
Defined.

(** A release and an update race; the update waits. *)
Definition demo2 : BedNetworks := enterCall demo1 1 (mkCaller 1 0 (Update (mkMutation (Some allowAll) None None)) false).
Definition demo3 : BedNetworks := enterCall demo2 2 (mkCaller 1 0 Release false).
Definition demo4 : BedNetworks := default demo3 (acquireSemaphore demo3 2).
Definition demo5 : BedNetworks := default demo4 (snd <$> finishCall demo4 2 true).
Definition demo6 : BedNetworks := default demo5 (acquireSemaphore demo5 1).
Definition demo7 : BedNetworks := default demo6 (snd <$> finishCall demo6 1 true).
Lemma demo4_reach : net_reach demo4.
Proof.
  eapply rtc_r; [eapply rtc_r; [eapply rtc_r; [exact demo1_reach|]|]|].
  - apply (nt_begin demo1 1 1 (Update (mkMutation (Some allowAll) None None)) true 0 demo1); [reflexivity|intros mu _; by eexists|reflexivity].
  - apply (nt_begin demo2 2 1 Release true 0 demo2); [reflexivity|discriminate|reflexivity].
  - apply (nt_acquire demo3 2). reflexivity.
Qed.

