(* ===== verification/Supervisor.v ===== *)
(** * Supervisor: the process that owns a bed's processes

    Models [internal/bed/executor/supervisor]: the frames of [protocol.go] and the
    server of [server_linux.go].  The kernel is the set of unreaped children of the
    supervisor; it never gives a new child the pid of an unreaped one.  What it answers
    to a fork, when children end and which orphans it hands over are steps of the
    system.  Records are never removed, so a process identifier stands for its record. *)

From S2P Require Import Prelude.

(** ** Frames *)

Definition maxMessageSize : Z := 131072.
Definition maxStartSpecSize : Z := 4194304.
Definition maxExtraFiles : Z := 12.

Definition bytesOf32 (n : Z) : list Z := [n / 2 ^ 24 mod 256; n / 2 ^ 16 mod 256; n / 2 ^ 8 mod 256; n mod 256].
Definition value32 (l : list Z) : Z := foldl (λ acc b, acc * 256 + b) 0 l.

Inductive frame_err := TooLarge (size : Z) | Truncated | ShortMessage | LengthMismatch | Undecodable.

Section frames.
Context {A : Type}.
(** [json.Marshal] and [json.Unmarshal] of the message type. *)
Variable encode : A → list Z.
Variable decode : list Z → option A.

Definition writeMsg (v : A) : result frame_err (list Z) :=
  let payload := encode v in
  let n := Z.of_nat (length payload) in
  if maxMessageSize <? n then Err (TooLarge n) else Ok (bytesOf32 n ++ payload).

(** [truncated]: the packet did not fit the buffer of the reader, or its control data
    did not. *)
Definition readMsg (frame : list Z) (truncated : bool) : result frame_err A :=
  let n := Z.of_nat (length frame) in
  if truncated then Err Truncated
  else if n <? 4 then Err ShortMessage
  else if negb (value32 (take 4 frame) =? n - 4) then Err LengthMismatch
  else match decode (drop 4 frame) with Some v => Ok v | None => Err Undecodable end.
(** The buffer of the reader. *)
Definition cutFrame (frame : list Z) : bool := 4 + maxMessageSize <? Z.of_nat (length frame).
End frames.

(** ** The server *)

Inductive operation := OpDescribe | OpStart | OpGet | OpWait | OpSignal | OpShutdown | OpOther.
Record startSpec := mkStartSpec { spArgv : list string; spDir : string; spEnv : list string }.
Record request := mkRequest {
  rqOperation : operation; rqExecutor : string; rqProcess : string; rqSpecHash : string; rqSpecInFD : bool; rqSpec : startSpec;
  rqExtraCount : Z; rqExtraHash : string; rqDrainGroup : bool; rqSignal : Z }.

Inductive ExitStatus := StatusExited (code : Z) | StatusSignaled (signal : Z) (core : bool).
Inductive super_err :=
| NeedsProcessID | BadExtraCount | SpecConflict | BadSpecFD (tooLarge : bool) | FDCount | BadFingerprint | NeedsArgv | BadSpecHash
| ReusedID | Draining | ForkFailed (tooBig : bool) | PIDUnresolved | NotFound | BadSignal | StaleExecutor | UnknownOperation.
#[export] Instance ExitStatus_eq_dec : EqDecision ExitStatus.
Proof. solve_decision. Defined.

(** [reply]: the pid and, once there is one, the terminal status. *)
Record reply := mkReply { rpProcess : string; rpPid : Z; rpExit : option ExitStatus }.

Record processRecord := mkProcess {
  extraFileHash : string; parentPID : Z; drainGroup : bool; cleaning : bool; specHash : string; pid : Z; status : option ExitStatus }.
Record server := mkServer { executorID : string; ready : bool; processes : gmap string processRecord; byPID : gmap Z string }.
Definition newServer (executor : string) : server := mkServer executor true ∅ ∅.

(** The zero pid stands for a supervisor in the daemon's own PID namespace. *)
Definition replyFor (id : string) (p : processRecord) : reply :=
  mkReply id (if parentPID p =? 0 then pid p else parentPID p) (status p).

(** The answer of the kernel to [ForkExec], and the pid as the daemon sees it. *)
Inductive fork_answer := ForkError (tooBig : bool) | Forked (pid : Z) (host : option Z).

Section server.
(** SHA-256 over the JSON encoding of the specification, the fingerprint of extra
    descriptors, and what the specification descriptor holds. *)
Variable hashOf : startSpec → string.
Variable filesHash : list Z → option string.
Variable readStartSpec : Z → result bool startSpec.

(** The checks of [start] before its critical section. *)
Definition checkStart (req : request) (fds : list Z) : result super_err string :=
  if decide (rqProcess req = "")%string then Err NeedsProcessID
  else if (rqExtraCount req <? 0) || (maxExtraFiles <? rqExtraCount req) then Err BadExtraCount
  else
    let childFileCount := 3 + rqExtraCount req in
    let n := Z.of_nat (length fds) in
    spec <-! (if rqSpecInFD req then
                if negb (n =? childFileCount + 1) || negb (bool_decide (spArgv (rqSpec req) = []))
                   || negb (bool_decide (spDir (rqSpec req) = "")%string) || negb (bool_decide (spEnv (rqSpec req) = []))
                then Err SpecConflict
                else match nth_error fds (Z.to_nat childFileCount) with
                     | Some fd => match readStartSpec fd with Ok spec => Ok spec | Err large => Err (BadSpecFD large) end
                     | None => Err SpecConflict
                     end
              else if negb (n =? childFileCount) then Err FDCount else Ok (rqSpec req));
    match filesHash (take (Z.to_nat (rqExtraCount req)) (drop 3 fds)) with
    | Some h =>
        if negb (bool_decide (h = rqExtraHash req)) then Err BadFingerprint
        else if bool_decide (spArgv spec = []) then Err NeedsArgv
        else if negb (bool_decide (rqSpecHash req = hashOf spec)) then Err BadSpecHash
        else Ok h
    | None => Err BadFingerprint
    end.

(** What the server does to the kernel besides answering. *)
Inductive action := Nothing | Fork (pid : Z) | ForkAndKill (pid : Z) | SendSignal (pid sig : Z).

(** [start], from its critical section on. *)
Definition startLocked (s : server) (req : request) (files : string) (answer : fork_answer) : result super_err reply * server * action :=
  match processes s !! rqProcess req with
  | Some p =>
      if negb (bool_decide (specHash p = rqSpecHash req)) || negb (Bool.eqb (drainGroup p) (rqDrainGroup req))
         || negb (bool_decide (extraFileHash p = files))
      then (Err ReusedID, s, Nothing)
      else (Ok (replyFor (rqProcess req) p), s, Nothing)
  | None =>
      if negb (ready s) then (Err Draining, s, Nothing)
      else match answer with
           | ForkError tooBig => (Err (ForkFailed tooBig), s, Nothing)
           | Forked child None => (Err PIDUnresolved, s, ForkAndKill child)
           | Forked child (Some host) =>
               let p := mkProcess files host (rqDrainGroup req) false (rqSpecHash req) child None in
               (Ok (replyFor (rqProcess req) p),
                mkServer (executorID s) (ready s) (<[rqProcess req := p]> (processes s)) (<[child := rqProcess req]> (byPID s)), Fork child)
           end
  end.
Definition start (s : server) (req : request) (fds : list Z) (answer : fork_answer) : result super_err reply * server * action :=
  match checkStart req fds with
  | Err e => (Err e, s, Nothing)
  | Ok files => startLocked s req files answer
  end.

Definition get (s : server) (id : string) : result super_err reply :=
  match processes s !! id with Some p => Ok (replyFor id p) | None => Err NotFound end.
(** [wait] answers when the process has ended; [None] blocks. *)
Definition wait (s : server) (id : string) : option (result super_err reply) :=
  match processes s !! id with
  | Some p => match status p with Some _ => Some (Ok (replyFor id p)) | None => None end
  | None => Some (Err NotFound)
  end.

Definition SIGKILL : Z := 9.
Definition SIGTERM : Z := 15.
Definition signal (s : server) (id : string) (sig : Z) : result super_err reply * action :=
  if negb (sig =? SIGKILL) && negb (sig =? SIGTERM) then (Err BadSignal, Nothing)
  else match processes s !! id with
       | None => (Err NotFound, Nothing)
       | Some p =>
           (Ok (replyFor id p),
            match status p with None => if cleaning p then Nothing else SendSignal (pid p) sig | Some _ => Nothing end)
       end.

Definition requestShutdown (s : server) : server := mkServer (executorID s) false (processes s) (byPID s).

Definition withStatus (p : processRecord) (st : ExitStatus) : processRecord :=
  mkProcess (extraFileHash p) (parentPID p) (drainGroup p) (cleaning p) (specHash p) (pid p) (Some st).
Definition withCleaning (p : processRecord) : processRecord :=
  mkProcess (extraFileHash p) (parentPID p) (drainGroup p) true (specHash p) (pid p) (status p).
Definition publishExitLocked (s : server) (child : Z) (st : ExitStatus) : server :=
  match byPID s !! child with
  | Some id =>
      mkServer (executorID s) (ready s)
        (match processes s !! id with Some p => <[id := withStatus p st]> (processes s) | None => processes s end)
        (delete child (byPID s))
  | None => s
  end.

(** One child of the loop of [reap]: a main process is handed to [drainMain] once it has
    ended, any other is waited for.  [ended] is what the kernel reports without blocking. *)
Inductive reap_outcome := ReapNothing | ReapDrain | ReapPublish (st : ExitStatus).
Definition reapChild (s : server) (child : Z) (ended : option ExitStatus) : reap_outcome * server :=
  match byPID s !! child ≫= λ id, (λ p, (id, p)) <$> processes s !! id with
  | Some (id, p) =>
      if drainGroup p then
        match ended with
        | Some _ => if cleaning p then (ReapNothing, s)
                    else (ReapDrain, mkServer (executorID s) (ready s) (<[id := withCleaning p]> (processes s)) (byPID s))
        | None => (ReapNothing, s)
        end
      else match ended with Some st => (ReapPublish st, publishExitLocked s child st) | None => (ReapNothing, s) end
  | None => match ended with Some st => (ReapPublish st, publishExitLocked s child st) | None => (ReapNothing, s) end
  end.

(** [serve]: no answer yet is a [Wait] for a running process, or a [Shutdown], which
    answers when the children have stopped. *)
Definition plainReply : reply := mkReply "" 0 None.
Definition serve (s : server) (req : request) (fds : list Z) (answer : fork_answer) : option (result super_err reply) * server * action :=
  if negb (bool_decide (rqExecutor req = executorID s)) then (Some (Err StaleExecutor), s, Nothing)
  else match rqOperation req with
       | OpDescribe => (Some (Ok plainReply), s, Nothing)
       | OpStart => let '(r, s, a) := start s req fds answer in (Some r, s, a)
       | OpGet => (Some (get s (rqProcess req)), s, Nothing)
       | OpWait => (wait s (rqProcess req), s, Nothing)
       | OpSignal => let '(r, a) := signal s (rqProcess req) (rqSignal req) in (Some r, s, a)
       | OpShutdown => (None, requestShutdown s, Nothing)
       | OpOther => (Some (Err UnknownOperation), s, Nothing)
       end.

(** ** The server and the kernel *)

(** [kids] are the unreaped children, with the status of those that have ended;
    [drains] the pids a [drainMain] works on.  [truth] is how each process ended. *)
Record system := mkSystem { srv : server; kids : gmap Z (option ExitStatus); drains : gset Z; truth : gmap string ExitStatus }.
Definition newSystem (executor : string) : system := mkSystem (newServer executor) ∅ ∅ ∅.

Definition spawned (a : action) (k : gmap Z (option ExitStatus)) : gmap Z (option ExitStatus) :=
  match a with Fork c | ForkAndKill c => <[c := None]> k | _ => k end.

Inductive sys_step : system → system → Prop :=
| sy_serve y req fds answer rep s' a :
    (∀ c host, answer = Forked c host → kids y !! c = None) →
    serve (srv y) req fds answer = (rep, s', a) →
    sys_step y (mkSystem s' (spawned a (kids y)) (drains y) (truth y))
| sy_end y c st :
    kids y !! c = Some None →
    sys_step y (mkSystem (srv y) (<[c := Some st]> (kids y)) (drains y)
      (match byPID (srv y) !! c with Some id => <[id := st]> (truth y) | None => truth y end))
| sy_adopt y c : kids y !! c = None → sys_step y (mkSystem (srv y) (<[c := None]> (kids y)) (drains y) (truth y))
| sy_reap y c ended o s' :
    kids y !! c = Some ended → reapChild (srv y) c ended = (o, s') →
    sys_step y (mkSystem s' (match o with ReapPublish _ => delete c (kids y) | _ => kids y end)
      (match o with ReapDrain => {[c]} ∪ drains y | _ => drains y end) (truth y))
| sy_drained y c st :
    c ∈ drains y → kids y !! c = Some (Some st) →
    sys_step y (mkSystem (publishExitLocked (srv y) c st) (delete c (kids y)) (drains y ∖ {[c]}) (truth y))
| sy_term y : sys_step y (mkSystem (requestShutdown (srv y)) (kids y) (drains y) (truth y)).

(** The supervisor's own steps: a child handled by [reap], and the end of a [drainMain]. *)
Inductive own_step : system → system → Prop :=
| own_reap y c ended o s' :
    kids y !! c = Some ended → reapChild (srv y) c ended = (o, s') →
    own_step y (mkSystem s' (match o with ReapPublish _ => delete c (kids y) | _ => kids y end)
      (match o with ReapDrain => {[c]} ∪ drains y | _ => drains y end) (truth y))
| own_drained y c st :
    c ∈ drains y → kids y !! c = Some (Some st) →
    own_step y (mkSystem (publishExitLocked (srv y) c st) (delete c (kids y)) (drains y ∖ {[c]}) (truth y)).
Lemma own_is_step y y' : own_step y y' → sys_step y y'.
Proof. intros [y0 c e o s' Hk Hr|y0 c st Hd Hk]; [by apply (sy_reap y0 c e)|by apply sy_drained]. Qed.

Definition sys_reach (executor : string) (y : system) : Prop := rtc sys_step (newSystem executor) y.

Record sys_inv (y : system) : Prop := {
  sy_pid c id : byPID (srv y) !! c = Some id → ∃ p e, processes (srv y) !! id = Some p ∧ pid p = c ∧ status p = None ∧
    kids y !! c = Some e ∧ truth y !! id = e;
  sy_registered id p : processes (srv y) !! id = Some p → status p = None → byPID (srv y) !! pid p = Some id;
  sy_exact id p st : processes (srv y) !! id = Some p → status p = Some st → truth y !! id = Some st;
  sy_known id st : truth y !! id = Some st → is_Some (processes (srv y) !! id);
  sy_drain c : c ∈ drains y ↔ ∃ id p, byPID (srv y) !! c = Some id ∧ processes (srv y) !! id = Some p ∧ cleaning p = true;
  sy_clean id p : processes (srv y) !! id = Some p → cleaning p = true → drainGroup p = true ∧ is_Some (truth y !! id) }.
End server.

Lemma sys_inv_init executor : sys_inv (newSystem executor).
Proof. split; simpl; intros *; try done. split; [set_solver|]. by intros (id&p&H&_). Qed.

(** Publishing the end of an unreaped child. *)
Lemma publishExit_inv y c st d :
  sys_inv y → kids y !! c = Some (Some st) → d = drains y ∖ {[c]} →
  sys_inv (mkSystem (publishExitLocked (srv y) c st) (delete c (kids y)) d (truth y)).
Proof.
  intros Hi Hc ->. unfold publishExitLocked. destruct (byPID (srv y) !! c) as [id|] eqn:Eb.
  - destruct (sy_pid _ Hi c id Eb) as (p&e&Hp&Ep&Es&Hk&Ht). rewrite Hc in Hk. injection Hk as <-. rewrite Hp.
    destruct Hi as [I1 I2 I3 I4 I5 I6]. split; simpl.
    + intros c' id' [Hne H]%lookup_delete_Some. destruct (I1 c' id' H) as (p'&e'&?&?&?&?&?).
      assert (id' ≠ id) by (intros ->; simplify_eq). exists p', e'. rewrite lookup_insert_ne, lookup_delete_ne by done. by split_and!.
    + intros id' p'. rewrite lookup_insert_Some. intros [[<- <-]|[Hne H]] Hs; [done|]. rewrite lookup_delete_ne; [by apply I2|].
      intros E. specialize (I2 id' p' H Hs). rewrite <- E, Eb in I2. by simplify_eq.
    + intros id' p' st'. rewrite lookup_insert_Some. intros [[<- <-]|[Hne H]] Hs; [|by eapply I3]. simpl in Hs. by simplify_eq.
    + intros id' st' H. destruct (decide (id' = id)) as [->|Hne]; [rewrite lookup_insert_eq; eauto|rewrite lookup_insert_ne; eauto].
    + intros c'. rewrite elem_of_difference, I5, elem_of_singleton. split.
      * intros [(id'&p'&H1&H2&H3) Hne]. exists id', p'. rewrite lookup_delete_ne by done. split_and!; [done| |done].
        rewrite lookup_insert_ne; [done|]. intros <-. destruct (I1 _ _ H1) as (q&?&?&?&_). simplify_eq.
      * intros (id'&p'&[Hne H1]%lookup_delete_Some&H2&H3). split; [|done]. destruct (decide (id' = id)) as [->|Hne'].
        -- destruct (I1 _ _ H1) as (q&?&?&?&_). simplify_eq.
        -- rewrite lookup_insert_ne in H2 by done. eauto.
    + intros id' p'. rewrite lookup_insert_Some. intros [[<- <-]|[Hne H]] Hs; [|by eapply I6]. simpl in *. by apply (I6 id p).
  - destruct Hi as [I1 I2 I3 I4 I5 I6]. split; simpl; try done.
    + intros c' id' H. destruct (I1 c' id' H) as (p&e&?&?&?&?&?). exists p, e. rewrite lookup_delete_ne by (intros <-; congruence). by split_and!.
    + intros c'. rewrite elem_of_difference, I5, elem_of_singleton. split; [by intros [? _]|]. intros (id&p&H&?). split; [by exists id, p|].
      intros ->. congruence.
Qed.

Lemma reap_inv y c ended o s' :
  sys_inv y → kids y !! c = Some ended → reapChild (srv y) c ended = (o, s') →
  sys_inv (mkSystem s' (match o with ReapPublish _ => delete c (kids y) | _ => kids y end)
    (match o with ReapDrain => {[c]} ∪ drains y | _ => drains y end) (truth y)).
Proof.
  intros Hi Hc. assert (drains y ∖ {[c]} = drains y ∨ c ∈ drains y) as Hd by (destruct (decide (c ∈ drains y)); [by right|left; set_solver]).
  unfold reapChild. destruct (byPID (srv y) !! c) as [id|] eqn:Eb; simpl.
  - destruct (sy_pid _ Hi c id Eb) as (p&e&Hp&Ep&Es&Hk&Ht). rewrite Hp. simpl. destruct (drainGroup p) eqn:Edg.
    + destruct ended as [st|]; [|intros [= <- <-]; by destruct y]. destruct (cleaning p) eqn:Ecl; [intros [= <- <-]; by destruct y|].
      intros [= <- <-]. destruct Hi as [I1 I2 I3 I4 I5 I6]. split; simpl.
      * intros c' id' H. destruct (I1 c' id' H) as (p'&e'&?&?&?&?&?). destruct (decide (id' = id)) as [->|Hne].
        -- simplify_eq. eexists _, _. rewrite lookup_insert_eq. by split_and!.
        -- exists p', e'. rewrite lookup_insert_ne by done. by split_and!.
      * intros id' p'. rewrite lookup_insert_Some. intros [[<- <-]|[Hne H]] Hs; [simpl; by rewrite Ep|by apply I2].
      * intros id' p' st'. rewrite lookup_insert_Some. intros [[<- <-]|[Hne H]] Hs; [by apply (I3 id p)|by eapply I3].
      * intros id' st' H. destruct (decide (id' = id)) as [->|Hne]; [rewrite lookup_insert_eq; eauto|rewrite lookup_insert_ne; eauto].
      * intros c'. rewrite elem_of_union, elem_of_singleton, I5. split.
        -- intros [->|(id'&p'&H1&H2&H3)]; [exists id; eexists; by rewrite lookup_insert_eq|].
           exists id', p'. rewrite lookup_insert_ne by (intros <-; congruence). by split_and!.
        -- intros (id'&p'&H1&H2&H3). destruct (decide (id' = id)) as [->|Hne].
           ++ left. destruct (I1 _ _ H1) as (q&?&?&?&_). congruence.
           ++ right. rewrite lookup_insert_ne in H2 by done. eauto.
      * intros id' p'. rewrite lookup_insert_Some. intros [[<- <-]|[Hne H]] Hs; [|by eapply I6].
        split; [done|]. rewrite Ht. rewrite Hc in Hk. injection Hk as <-. eauto.
    + destruct ended as [st|]; intros [= <- <-]; [|by destruct y]. apply publishExit_inv; [done|done|].
      destruct Hd as [->|Hin]; [done|]. apply (sy_drain _ Hi) in Hin as (id'&p'&?&?&?). simplify_eq. destruct (sy_clean _ Hi id' p') as [? _]; [done|done|congruence].
  - destruct ended as [st|]; intros [= <- <-]; [|by destruct y]. apply publishExit_inv; [done|done|].
    destruct Hd as [->|Hin]; [done|]. apply (sy_drain _ Hi) in Hin as (id'&p'&?&?&?). congruence.
Qed.

Section system.
Variable hashOf : startSpec → string.
Variable filesHash : list Z → option string.
Variable readStartSpec : Z → result bool startSpec.
Abbreviation step := (sys_step hashOf filesHash readStartSpec).
Abbreviation serve' := (serve hashOf filesHash readStartSpec).

(** A request either changes nothing of the table of processes, or adds one process. *)
Lemma serve_cases s req fds answer rep s' a :
  serve' s req fds answer = (rep, s', a) →
  (processes s' = processes s ∧ byPID s' = byPID s ∧ executorID s' = executorID s ∧ (ready s' = true → ready s = true) ∧
     (∀ c, a ≠ Fork c) ∧ (∀ c, a = ForkAndKill c → ∃ h, answer = Forked c h)) ∨
  (∃ c p, a = Fork c ∧ (∃ h, answer = Forked c h) ∧ ready s = true ∧ processes s !! rqProcess req = None ∧ pid p = c ∧ status p = None ∧ cleaning p = false ∧
     s' = mkServer (executorID s) (ready s) (<[rqProcess req := p]> (processes s)) (<[c := rqProcess req]> (byPID s))).
Proof using Type.
  unfold serve. destruct (negb _); [intros [= <- <- <-]; by left|]. destruct (rqOperation req); try (intros [= <- <- <-]; by left).
  - unfold start. destruct (checkStart _ _ _ req fds) as [files|]; [|intros [= <- <- <-]; by left]. unfold startLocked.
    destruct (processes s !! rqProcess req) as [p|] eqn:Hp; [destruct (_ || _); intros [= <- <- <-]; by left|].
    destruct (ready s) eqn:Hr; simpl; [|intros [= <- <- <-]; left; split_and!; try done; by rewrite Hr].
    destruct answer as [big|c [h|]]; try (intros [= <- <- <-]).
    + by left.
    + right. eexists c, _. split_and!; [done|by eexists|done|done| | | |done]; done.
    + left. split_and!; try done. intros c' [= <-]. by eexists.
  - unfold signal. destruct (_ && _); [intros [= <- <- <-]; by left|]. destruct (processes s !! rqProcess req) as [p|]; [|intros [= <- <- <-]; by left].
    intros [= <- <- <-]. left. split_and!; try done; destruct (status p); try done; by destruct (cleaning p).
Qed.

Lemma serve_inv y req fds answer rep s' a :
  sys_inv y → (∀ c host, answer = Forked c host → kids y !! c = None) → serve' (srv y) req fds answer = (rep, s', a) →
  sys_inv (mkSystem s' (spawned a (kids y)) (drains y) (truth y)).
Proof using Type.
  intros [I1 I2 I3 I4 I5 I6] Hfresh [(E1&E2&_&_&Hn&Hk)|(c&p&->&(h&Ha)&_&Hnew&Ep&Es&Ec&->)]%serve_cases.
  - split; simpl; rewrite ?E1, ?E2; try done. intros c id H. destruct (I1 c id H) as (p&e&?&?&?&Hkid&?). exists p, e. split_and!; try done.
    destruct a as [|c0|c0|c0 g]; simpl; try done; [by destruct (Hn c0)|]. destruct (Hk _ eq_refl) as [h Ha]. specialize (Hfresh _ _ Ha).
    rewrite lookup_insert_ne; [done|]. intros ->. congruence.
  - specialize (Hfresh _ _ Ha). assert (byPID (srv y) !! c = None) as Hb.
    { destruct (byPID (srv y) !! c) as [id|] eqn:E; [|done]. destruct (I1 c id E) as (?&?&?&?&?&?&?). congruence. }
    split; simpl.
    + intros c' id'. rewrite lookup_insert_Some. intros [[<- <-]|[Hne H]].
      * exists p, None. rewrite !lookup_insert_eq. split_and!; try done. destruct (truth y !! rqProcess req) as [st|] eqn:Et; [|done].
        destruct (I4 _ _ Et). congruence.
      * destruct (I1 c' id' H) as (p'&e&?&?&?&?&?). exists p', e. rewrite !lookup_insert_ne by (done || intros <-; congruence). by split_and!.
    + intros id' p'. rewrite lookup_insert_Some. intros [[<- <-]|[Hne H]] Hs; [by rewrite Ep, lookup_insert_eq|].
      specialize (I2 id' p' H Hs). rewrite lookup_insert_ne; [done|]. intros E. rewrite <- E in I2. congruence.
    + intros id' p' st'. rewrite lookup_insert_Some. intros [[<- <-]|[Hne H]]; [by rewrite Es|]. by apply I3.
    + intros id' st' H. destruct (decide (id' = rqProcess req)) as [->|Hne]; [rewrite lookup_insert_eq; eauto|rewrite lookup_insert_ne; eauto].
    + intros c'. rewrite I5. split.
      * intros (id'&p'&H1&H2&H3). exists id', p'. rewrite !lookup_insert_ne by (intros <-; congruence). by split_and!.
      * intros (id'&p'&H1&H2&H3). rewrite lookup_insert_Some in H1. destruct H1 as [[<- <-]|[Hne H1]].
        -- rewrite lookup_insert_eq in H2. simplify_eq. congruence.
        -- rewrite lookup_insert_ne in H2 by (intros <-; destruct (I1 _ _ H1) as (?&?&?&_); congruence). eauto.
    + intros id' p'. rewrite lookup_insert_Some. intros [[<- <-]|[Hne H]]; [by rewrite Ec|]. by apply I6.
Qed.

Lemma sys_step_inv y y' : step y y' → sys_inv y → sys_inv y'.
Proof using Type.
  intros Hs Hi. destruct Hs as [y req fds answer rep s' a Hf Hsv|y c st Hc|y c Hc|y c ended o s' Hc Hr|y c st Hd Hc|y].
  - by eapply serve_inv.
  - destruct Hi as [I1 I2 I3 I4 I5 I6]. destruct (byPID (srv y) !! c) as [id|] eqn:Eb.
    + destruct (I1 c id Eb) as (p&e&Hp&Ep&Es&Hk&Ht). split; simpl; try done.
      * intros c' id' H. destruct (I1 c' id' H) as (p'&e'&?&?&?&?&?). destruct (decide (c' = c)) as [->|Hne].
        -- assert (id' = id) as -> by congruence. exists p, (Some st). rewrite !lookup_insert_eq. by split_and!.
        -- exists p', e'. rewrite !lookup_insert_ne; [by split_and!|intros <-; congruence|done].
      * intros id' p' st' Hp' Hst'. rewrite lookup_insert_ne; [by eapply I3|]. intros <-. congruence.
      * intros id' st'. rewrite lookup_insert_Some. intros [[<- _]|[_ H]]; eauto.
      * intros id' p' Hp' Hcl. destruct (I6 id' p' Hp' Hcl) as [? ?]. split; [done|].
        destruct (decide (id' = id)) as [->|Hne]; [rewrite lookup_insert_eq; eauto|by rewrite lookup_insert_ne].
    + split; simpl; try done. intros c' id' H. destruct (I1 c' id' H) as (p'&e'&?&?&?&?&?). exists p', e'.
      rewrite lookup_insert_ne by (intros <-; congruence). by split_and!.
  - destruct Hi as [I1 I2 I3 I4 I5 I6]. split; simpl; try done. intros c' id' H. destruct (I1 c' id' H) as (p'&e'&?&?&?&?&?). exists p', e'.
    rewrite lookup_insert_ne by (intros <-; congruence). by split_and!.
  - by apply (reap_inv y c ended).
  - by apply publishExit_inv.
  - by destruct Hi.
Qed.
Lemma sys_reach_inv executor y : sys_reach hashOf filesHash readStartSpec executor y → sys_inv y.
Proof using Type.
  intros Hr. assert (∀ x z, rtc step x z → sys_inv x → sys_inv z) as Hind.
  { induction 1 as [|x u z Hs _ IH]; [done|]. intros Hx. apply IH. by eapply sys_step_inv. }
  eapply Hind; [exact Hr|apply sys_inv_init].
Qed.

(** What never changes of a registered process. *)
Definition same_process (p p' : processRecord) : Prop :=
  pid p' = pid p ∧ parentPID p' = parentPID p ∧ specHash p' = specHash p ∧ drainGroup p' = drainGroup p ∧ extraFileHash p' = extraFileHash p ∧
  (∀ st, status p = Some st → p' = p).
Lemma same_refl p : same_process p p.
Proof using Type. by split_and!. Qed.

Lemma publish_keeps y c st id p :
  sys_inv y → processes (srv y) !! id = Some p →
  ∃ p', processes (publishExitLocked (srv y) c st) !! id = Some p' ∧ same_process p p'.
Proof using Type.
  intros Hi Hp. unfold publishExitLocked. destruct (byPID (srv y) !! c) as [id'|] eqn:Eb; [|exists p; auto using same_refl].
  destruct (sy_pid _ Hi c id' Eb) as (q&e&Hq&_&Hs&_). simpl. rewrite Hq. destruct (decide (id = id')) as [->|Hne].
  - simplify_eq. eexists. rewrite lookup_insert_eq. split; [done|]. split_and!; try done. intros st'. congruence.
  - rewrite lookup_insert_ne by done. exists p. auto using same_refl.
Qed.
Lemma step_keeps y y' id p :
  step y y' → sys_inv y → processes (srv y) !! id = Some p →
  (∃ p', processes (srv y') !! id = Some p' ∧ same_process p p') ∧ (is_Some (status p) → truth y' !! id = truth y !! id) ∧
  (ready (srv y') = true → ready (srv y) = true).
Proof using Type.
  intros Hs Hi Hp. destruct Hs as [y req fds answer rep s' a Hf Hsv|y c st Hc|y c Hc|y c ended o s' Hc Hr|y c st Hd Hc|y]; simpl.
  - split_and!; [|done|].
    + destruct (serve_cases _ _ _ _ _ _ _ Hsv) as [(E1&_)|(c&q&_&_&_&Hnew&_&_&_&->)]; [rewrite E1; exists p; auto using same_refl|].
      simpl. rewrite lookup_insert_ne by (intros E; rewrite E in Hnew; congruence). exists p. auto using same_refl.
    + destruct (serve_cases _ _ _ _ _ _ _ Hsv) as [(_&_&_&E&_)|(c&q&_&_&Hrd&_&_&_&_&->)]; [done|by rewrite Hrd].
  - split_and!; [exists p; auto using same_refl| |done]. intros [st' Hst']. destruct (byPID (srv y) !! c) as [id'|] eqn:Eb; [|done].
    destruct (sy_pid _ Hi c id' Eb) as (q&e&Hq&_&Hs&_). rewrite lookup_insert_ne; [done|]. intros ->. congruence.
  - split_and!; [exists p; auto using same_refl|done|done].
  - unfold reapChild in Hr. destruct (byPID (srv y) !! c) as [id'|] eqn:Eb; simpl in Hr.
    + destruct (sy_pid _ Hi c id' Eb) as (q&e&Hq&_&Hs&_). rewrite Hq in Hr. simpl in Hr. destruct (drainGroup q).
      * destruct ended as [st|]; [|simplify_eq; split_and!; [exists p; auto using same_refl|done|done]].
        destruct (cleaning q); simplify_eq; (split_and!; [|done|done]); [exists p; auto using same_refl|]. simpl.
        destruct (decide (id = id')) as [->|Hne]; [rewrite lookup_insert_eq|rewrite lookup_insert_ne by done; exists p; auto using same_refl].
        simplify_eq. eexists. split; [done|]. split_and!; try done. intros st'. congruence.
      * destruct ended as [st|]; simplify_eq; (split_and!; [|done|]); first [done|by apply publish_keeps|by exists p; auto using same_refl|idtac].
        unfold publishExitLocked. by rewrite Eb, Hq.
    + destruct ended as [st|]; simplify_eq; (split_and!; [|done|]); first [done|by apply publish_keeps|by exists p; auto using same_refl|idtac].
      unfold publishExitLocked. by rewrite Eb.
  - split_and!; [by apply publish_keeps|done|]. unfold publishExitLocked. by destruct (byPID (srv y) !! c).
  - split_and!; [exists p; auto using same_refl|done|done].
Qed.
Lemma steps_keep y y' id p :
  rtc step y y' → sys_inv y → processes (srv y) !! id = Some p →
  (∃ p', processes (srv y') !! id = Some p' ∧ same_process p p') ∧ (is_Some (status p) → truth y' !! id = truth y !! id) ∧
  (ready (srv y') = true → ready (srv y) = true).
Proof using Type.
  intros Hst. revert p. induction Hst as [|y y1 y' Hs Hst IH]; intros p Hi Hp; [split_and!; [exists p; auto using same_refl|done|done]|].
  destruct (step_keeps _ _ _ _ Hs Hi Hp) as ((p1&Hp1&S1)&T1&R1).
  destruct (IH p1 (sys_step_inv _ _ Hs Hi) Hp1) as ((p2&Hp2&S2)&T2&R2). split_and!.
  - exists p2. split; [done|]. destruct S1 as (A1&A2&A3&A4&A5&A6), S2 as (B1&B2&B3&B4&B5&B6). split_and!; try congruence.
    intros st Hst'. rewrite (B6 st) by (by rewrite (A6 st Hst')). by apply (A6 st).
  - intros [st Hst']. destruct S1 as (_&_&_&_&_&A6). rewrite T2; [apply T1; eauto|]. rewrite (A6 st Hst'). eauto.
  - auto.
Qed.

(** C18: the supervisor signals only processes it owns: in every reachable state the
    group a [Signal] request is sent to, and the group a [drainMain] kills, is led by an
    unreaped child, so that its pid cannot have been given to another process; a process
    whose end has been seen gets no signal, and only the two documented signals are sent. *)
Theorem signals_reach_own_processes executor y :
  sys_reach hashOf filesHash readStartSpec executor y →
  (∀ req fds answer rep s' c sig, serve' (srv y) req fds answer = (rep, s', SendSignal c sig) →
     (sig = SIGKILL ∨ sig = SIGTERM) ∧ c ∉ drains y ∧
     ∃ p e, processes (srv y) !! rqProcess req = Some p ∧ pid p = c ∧ kids y !! c = Some e) ∧
  (∀ c, c ∈ drains y → ∃ id p st, processes (srv y) !! id = Some p ∧ pid p = c ∧ drainGroup p = true ∧ kids y !! c = Some (Some st)).
Proof using Type.
  intros Hi%sys_reach_inv. split.
  - intros req fds answer rep s' c sig. unfold serve. destruct (negb _); [done|]. destruct (rqOperation req); try done.
    + destruct (start _ _ _ _ req fds answer) as [[r s1] a] eqn:Es. intros [= <- <- ->]. exfalso. unfold start in Es.
      destruct (checkStart _ _ _ req fds); [|done]. unfold startLocked in Es. destruct (processes (srv y) !! rqProcess req); [by case_match|].
      destruct (negb _); [done|]. by repeat case_match.
    + unfold signal. destruct (_ && _) eqn:Esig; [done|]. destruct (processes (srv y) !! rqProcess req) as [p|] eqn:Hp; [|done].
      destruct (status p) eqn:Est; [done|]. destruct (cleaning p) eqn:Ecl; [done|]. intros [= <- <- <- <-].
      pose proof (sy_registered _ Hi _ _ Hp Est) as Hb. destruct (sy_pid _ Hi _ _ Hb) as (q&e&Hq&_&_&Hk&_). simplify_eq. split_and!.
      * apply andb_false_iff in Esig as [E%negb_false_iff|E%negb_false_iff]; apply Z.eqb_eq in E; auto.
      * intros (id&p'&H1&H2&H3)%(sy_drain _ Hi). congruence.
      * eauto 6.
  - intros c (id&p&H1&H2&H3)%(sy_drain _ Hi). destruct (sy_pid _ Hi c id H1) as (q&e&Hq&Eq&_&Hk&Ht). replace q with p in * by congruence.
    destruct (sy_clean _ Hi id p) as [Hdg [st Hst]]; [done|done|]. exists id, p, st. split_and!; try done. by rewrite Hk, <- Ht, Hst.
Qed.


(** [Start] is idempotent: once a process identifier is registered, no later
    request, however often it is retried and whatever it carries, forks a second
    process for it; a retry with the same specification returns the same pid and any
    other one is refused; and after a shutdown was requested nothing is forked. *)
Lemma start_forks_once executor y id p y' req fds answer rep s' a :
  sys_reach hashOf filesHash readStartSpec executor y → processes (srv y) !! id = Some p → rtc step y y' →
  serve' (srv y') req fds answer = (rep, s', a) →
  (rqProcess req = id → (∀ c, a ≠ Fork c ∧ a ≠ ForkAndKill c) ∧
     (rqOperation req = OpStart → ∀ r, rep = Some (Ok r) → rpPid r = rpPid (replyFor id p) ∧ rqSpecHash req = specHash p ∧ rqDrainGroup req = drainGroup p)) ∧
  (ready (srv y) = false → ∀ c, a ≠ Fork c ∧ a ≠ ForkAndKill c).
Proof using Type.
  intros Hi%sys_reach_inv Hp Hst Hsv. destruct (steps_keep _ _ _ _ Hst Hi Hp) as ((p'&Hp'&S1&S2&S3&S4&S5&_)&_&Hrd).
  assert (∀ r s1 a1, start hashOf filesHash readStartSpec (srv y') req fds answer = (r, s1, a1) →
    (rqProcess req = id → (∀ c, a1 ≠ Fork c ∧ a1 ≠ ForkAndKill c) ∧ ∀ r0, r = Ok r0 → rpPid r0 = rpPid (replyFor id p) ∧ rqSpecHash req = specHash p ∧ rqDrainGroup req = drainGroup p) ∧
    (ready (srv y) = false → ∀ c, a1 ≠ Fork c ∧ a1 ≠ ForkAndKill c)) as Hstart.
  { intros r s1 a1 Es. unfold start in Es. destruct (checkStart _ _ _ req fds); [|by simplify_eq]. unfold startLocked in Es. split.
    - intros E. rewrite E, Hp' in Es. destruct (_ || _) eqn:Ec; simplify_eq; [done|]. split; [done|]. intros r0 [= <-].
      simpl. rewrite S1, S2. apply orb_false_iff in Ec as [Ec _]. apply orb_false_iff in Ec as [E1%negb_false_iff E2%negb_false_iff].
      apply bool_decide_eq_true in E1. apply Bool.eqb_prop in E2. split_and!; congruence.
    - intros Hnr. assert (ready (srv y') = false) as Hnr' by (destruct (ready (srv y')) eqn:E; [by rewrite Hrd in Hnr|done]).
      destruct (processes (srv y') !! rqProcess req); [destruct (_ || _)|rewrite Hnr' in Es; simpl in Es]; by simplify_eq. }
  unfold serve in Hsv. destruct (negb _); [by simplify_eq|]. destruct (rqOperation req) eqn:Eop; try (by simplify_eq).
  - destruct (start _ _ _ (srv y') req fds answer) as [[r s1] a1]. simplify_eq. destruct (Hstart _ _ _ eq_refl) as [H1 H2].
    split; [|done]. intros E. destruct (H1 E) as [H3 H4]. split; [done|]. intros _ r0 [= ->]. by apply H4.
  - unfold signal in Hsv. repeat case_match; by simplify_eq.
Qed.
End system.

(** ** Frames round trip *)

Lemma value32_bytesOf32 n : 0 <= n < 2 ^ 32 → value32 (bytesOf32 n) = n.
Proof. intros Hn. unfold value32, bytesOf32. simpl. Z.to_euclidean_division_equations. lia. Qed.

(** A message survives the socket: a frame that [writeMsg] makes fits the buffer of
    the reader and is read back as the message it was made from; a message is refused
    exactly when its encoding is too large; and two frames that reach the reader as one
    packet are refused instead of being taken for the first. *)
Lemma frame_roundtrip {A} (encode : A → list Z) (decode : list Z → option A) v v' :
  (∀ x, decode (encode x) = Some x) →
  match writeMsg encode v with
  | Ok f => cutFrame f = false ∧ readMsg decode f (cutFrame f) = Ok v ∧
      (∀ f', writeMsg encode v' = Ok f' → readMsg decode (f ++ f') false = Err LengthMismatch)
  | Err e => e = TooLarge (Z.of_nat (length (encode v))) ∧ maxMessageSize < Z.of_nat (length (encode v))
  end.
Proof.
  intros Hd. unfold writeMsg at 1. destruct (Z.ltb_spec maxMessageSize (Z.of_nat (length (encode v)))) as [H|H]; [done|].
  unfold maxMessageSize in H. set (n := Z.of_nat (length (encode v))) in *. assert (0 <= n < 2 ^ 32) as Hn by lia.
  assert (length (bytesOf32 n ++ encode v) = (4 + length (encode v))%nat) as Hl by (by rewrite length_app).
  assert (cutFrame (bytesOf32 n ++ encode v) = false) as Hc by (unfold cutFrame, maxMessageSize; rewrite Hl; apply Z.ltb_ge; lia).
  split_and!; [done| |].
  - rewrite Hc. unfold readMsg. rewrite Hl. destruct (Z.ltb_spec (Z.of_nat (4 + length (encode v))) 4); [lia|].
    rewrite (take_app_length' (bytesOf32 n) (encode v) 4), (drop_app_length' (bytesOf32 n) (encode v) 4) by done. rewrite value32_bytesOf32 by done.
    destruct (Z.eqb_spec n (Z.of_nat (4 + length (encode v)) - 4)); [|lia]. simpl. by rewrite Hd.
  - intros f' Hw. assert (4 <= Z.of_nat (length f')) as Hf'.
    { unfold writeMsg in Hw. destruct (_ <? _); [done|]. injection Hw as <-. simpl. lia. }
    unfold readMsg.
    assert (length ((bytesOf32 n ++ encode v) ++ f') = (4 + length (encode v) + length f')%nat) as Hl' by (rewrite length_app, Hl; lia).
    rewrite Hl'. destruct (Z.ltb_spec (Z.of_nat (4 + length (encode v) + length f')) 4); [lia|].
    rewrite <- (assoc_L app), (take_app_length' (bytesOf32 n) (encode v ++ f') 4) by done. rewrite value32_bytesOf32 by done.
    destruct (Z.eqb_spec n (Z.of_nat (4 + length (encode v) + length f') - 4)); [lia|]. done.
Qed.

(** ** A concrete run *)

Definition demoSpec : startSpec := mkStartSpec ["/bin/sh"%string] "/" [].
Definition demoHash (s : startSpec) : string := spDir s.
Definition demoFiles (l : list Z) : option string := Some ""%string.
Definition demoRead (fd : Z) : result bool startSpec := Ok demoSpec.
Definition demoStart : request := mkRequest OpStart "e" "p1" "/" false demoSpec 0 "" true 0.
Definition demoKill : request := mkRequest OpSignal "e" "p1" "" false (mkStartSpec [] "" []) 0 "" false 9.

Definition y0 : system := newSystem "e".
Definition y1 : system := mkSystem (serve demoHash demoFiles demoRead (srv y0) demoStart [0; 1; 2] (Forked 41 (Some 0))).1.2 (spawned (Fork 41) (kids y0)) (drains y0) (truth y0).

Abbreviation demo_step := (sys_step demoHash demoFiles demoRead).
Lemma y1_step : demo_step y0 y1.
Proof.
  refine (sy_serve _ _ _ y0 demoStart [0; 1; 2] (Forked 41 (Some 0)) (serve demoHash demoFiles demoRead (srv y0) demoStart [0; 1; 2] (Forked 41 (Some 0))).1.1 _ (Fork 41) _ _); [|reflexivity].
  by intros c host [= <- _].
Qed.
Lemma y1_reach : sys_reach demoHash demoFiles demoRead "e" y1.
Proof. apply rtc_once, y1_step. Qed.

Lemma signals_reach_own_processes_witness :
  (serve demoHash demoFiles demoRead (srv y1) demoKill [] (ForkError false)).2 = SendSignal 41 9 ∧ ∃ e, kids y1 !! 41 = Some e.
Proof.
  split; [vm_compute; reflexivity|].
  destruct (signals_reach_own_processes demoHash demoFiles demoRead "e" y1 y1_reach) as [H _].
  destruct (H demoKill [] (ForkError false) _ _ 41 9 eq_refl) as (_&_&p&e&_&_&Hk). exists e. exact Hk.
Defined.
