(* ===== verification/Executor.v ===== *)
(** * Executor: the daemon's side of a supervisor

    Models [supervisedExecutor] and [supervisedProcess] of
    [internal/bed/executor/supervisor.go] with the calls of
    [internal/bed/executor/supervisor/client.go].  The critical sections of the executor
    are steps; a retry loop is a function of the answers it gets. *)

From S2P Require Import Prelude Supervisor.

Inductive State := StateStarting | StateReady | StateDraining | StateStopped | StateLost.
#[export] Instance State_eq_dec : EqDecision State.
Proof. solve_decision. Defined.

(** Why an executor ended: a loss forced by the daemon, the error of the supervisor's
    own end, its unexpected end, or a control group that would not close. *)
Inductive exit_err := ForcedLoss | WaitError | ExitedUnexpectedly | GroupError.
Record Exit := mkExit { exitState : State; exitErr : option exit_err }.

(** How far [watch] has come. *)
Inductive watching := Watching | Recorded | Cleaned | Published.
#[export] Instance watching_eq_dec : EqDecision watching.
Proof. solve_decision. Defined.

Record executor := mkExecutor { exState : State; exExit : option Exit; exShutdown : bool; exForced : bool; exWatch : watching }.
Definition newExecutor : executor := mkExecutor StateStarting None false false Watching.
Definition done (e : executor) : bool := bool_decide (exWatch e = Published).

(** [Create]: the supervisor has answered. *)
Definition becomeReady (e : executor) : executor :=
  if decide (exState e = StateStarting) then mkExecutor StateReady (exExit e) (exShutdown e) (exForced e) (exWatch e) else e.
Definition forceLoss (e : executor) : executor :=
  mkExecutor (if decide (exState e = StateStopped) then StateStopped else StateLost) (exExit e) (exShutdown e) true (exWatch e).
(** The section of [Shutdown] that runs once. *)
Definition beginShutdown (e : executor) : executor :=
  mkExecutor (if decide (exState e = StateReady ∨ exState e = StateStarting) then StateDraining else exState e)
    (exExit e) true (exForced e) (exWatch e).
(** The sections of [watch]: the supervisor has ended, [failed] with an error. *)
Definition recordExit (e : executor) (failed : bool) : option executor :=
  if decide (exWatch e = Watching) then
    let x := if exForced e then mkExit StateLost (Some ForcedLoss)
             else if exShutdown e then mkExit StateStopped None
             else mkExit StateLost (Some (if failed then WaitError else ExitedUnexpectedly)) in
    Some (mkExecutor (exitState x) (Some x) (exShutdown e) (exForced e) Recorded)
  else None.
Definition cleanupExecutor (e : executor) (groupClosed : bool) : option executor :=
  if decide (exWatch e = Recorded) then
    Some (if groupClosed then mkExecutor (exState e) (exExit e) (exShutdown e) (exForced e) Cleaned
          else mkExecutor StateLost (Some (mkExit StateLost (Some GroupError))) (exShutdown e) (exForced e) Cleaned)
  else None.
Definition publishDone (e : executor) : option executor :=
  if decide (exWatch e = Cleaned) then Some (mkExecutor (exState e) (exExit e) (exShutdown e) (exForced e) Published) else None.

Inductive exec_step : executor → executor → Prop :=
| ex_ready e : exec_step e (becomeReady e)
| ex_loss e : exec_step e (forceLoss e)
| ex_shutdown e : exec_step e (beginShutdown e)
| ex_record e failed e' : recordExit e failed = Some e' → exec_step e e'
| ex_cleanup e closed e' : cleanupExecutor e closed = Some e' → exec_step e e'
| ex_publish e e' : publishDone e = Some e' → exec_step e e'.
Definition exec_reach (e : executor) : Prop := rtc exec_step newExecutor e.

(** ** Calls *)

(** What a call to the supervisor comes to: an answer, its refusal, a request the client
    could not send, or a failure of the transport. *)
Inductive call_result (A : Type) := Replied (a : A) | Remote (e : super_err) | Unsent | Transport.
Arguments Replied {A} a.
Arguments Remote {A} e.
Arguments Unsent {A}.
Arguments Transport {A}.

(** [Client.Start] and [Client.Wait] of an answer. *)
Definition clientStart (r : result super_err reply) : call_result Z :=
  match r with
  | Err e => Remote e
  | Ok rep => if rpPid rep <=? 0 then Transport else Replied (rpPid rep)
  end.
Definition clientWait (r : result super_err reply) : call_result ExitStatus :=
  match r with
  | Err e => Remote e
  | Ok rep => match rpExit rep with Some st => Replied st | None => Transport end
  end.

(** [start]: at most two attempts; per attempt, what the call came to and whether the
    executor was lost meanwhile.  The last case forces the loss of the executor. *)
Inductive start_result := Started (pid : Z) | StartRefused (e : super_err) | StartUnsent | LostWhileStarting | StartUnreachable.
Fixpoint startAttempts (n : nat) (answers : list (call_result Z * bool)) : start_result :=
  match n, answers with
  | S n, (r, lost) :: answers =>
      match r with
      | Replied p => Started p
      | Remote e => StartRefused e
      | Unsent => StartUnsent
      | Transport => if lost then LostWhileStarting else startAttempts n answers
      end
  | _, _ => StartUnreachable
  end.
Definition startMaxAttempts : nat := 2.
(** The checks before the first attempt. *)
Inductive start_check := NeedsID | NeedsCommand | NeedsEnv | ContextEnded | NotReady (s : State).
Definition checkExecutorStart (e : executor) (processID : string) (args : list string) (env : option (list string)) (ctxEnded : bool) : result start_check unit :=
  if decide (processID = "")%string then Err NeedsID
  else if decide (args = []) then Err NeedsCommand
  else if decide (env = None) then Err NeedsEnv
  else if ctxEnded then Err ContextEnded
  else if decide (exState e = StateReady) then Ok () else Err (NotReady (exState e)).

(** [Wait]: at most three attempts; after a failed one the executor may be done or the
    context ended, at once or while waiting for the next. *)
Inductive meanwhile := Continue | ExecutorDone | ContextDone.
Inductive wait_result := Ended (st : ExitStatus) | LostProcess | WaitContext | WaitUnreachable.
Fixpoint waitAttempts (n : nat) (answers : list (call_result ExitStatus * meanwhile)) : wait_result :=
  match n, answers with
  | S n, (r, m) :: answers =>
      match r with
      | Replied st => Ended st
      | _ => match m with
             | ExecutorDone => LostProcess
             | ContextDone => WaitContext
             | Continue => waitAttempts n answers
             end
      end
  | _, _ => WaitUnreachable
  end.
Definition waitMaxAttempts : nat := 3.
(** [Wait], with what ends the wait after a forced loss. *)
Definition processWait (answers : list (call_result ExitStatus * meanwhile)) (after : meanwhile) : wait_result :=
  match waitAttempts waitMaxAttempts answers with
  | WaitUnreachable => match after with ContextDone => WaitContext | _ => LostProcess end
  | r => r
  end.

(** ** The life of an executor *)

Definition over (s : State) : Prop := s = StateStopped ∨ s = StateLost.
Record exec_inv (e : executor) : Prop := {
  ei_watching : exWatch e = Watching → exExit e = None ∧ exState e ≠ StateStopped ∧ (exForced e = true → exState e = StateLost);
  ei_recorded : exWatch e ≠ Watching → ∃ x, exExit e = Some x ∧ exState e = exitState x ∧ over (exitState x) ∧
    (exitState x = StateStopped → exShutdown e = true ∧ exitErr x = None) }.
Lemma exec_inv_init : exec_inv newExecutor.
Proof. by split. Qed.
Lemma exec_step_inv e e' : exec_step e e' → exec_inv e → exec_inv e'.
Proof.
  intros Hs [I1 I2]. destruct Hs as [e|e|e|e failed e' Hr|e closed e' Hr|e e' Hr].
  - unfold becomeReady. case_decide as E; [|done]. split; simpl.
    + intros Hw. destruct (I1 Hw) as (?&?&Hf). split_and!; [done|done|]. intros Hx. specialize (Hf Hx). congruence.
    + intros Hw. destruct (I2 Hw) as (x&?&Hx&[]&?); congruence.
  - split; simpl.
    + intros Hw. destruct (I1 Hw) as (?&?&?). rewrite decide_False by done. by split_and!.
    + intros Hw. destruct (I2 Hw) as (x&?&Hx&Ho&Hst). exists x. rewrite Hx. split_and!; try done. case_decide; [done|]. by destruct Ho.
  - split; simpl.
    + intros Hw. destruct (I1 Hw) as (?&?&Hf). split_and!; [done|by case_decide|]. intros Hx. specialize (Hf Hx). rewrite Hf. by rewrite decide_False by naive_solver.
    + intros Hw. destruct (I2 Hw) as (x&?&Hx&Ho&Hst). exists x. split_and!; try done; [|by intros ?; split; [|apply Hst]].
      rewrite decide_False; [done|]. rewrite Hx. destruct Ho as [->| ->]; naive_solver.
  - unfold recordExit in Hr. case_decide as Hw; [|done]. injection Hr as <-. destruct (I1 Hw) as (?&?&Hf).
    split; simpl; [done|]. intros _. eexists. split_and!; [done|done| |].
    + destruct (exForced e); [by right|]. destruct (exShutdown e); [by left|by right].
    + by destruct (exForced e), (exShutdown e).
  - unfold cleanupExecutor in Hr. case_decide as Hw; [|done]. injection Hr as <-. destruct (I2 ltac:(congruence)) as (x&?&?&?&?).
    destruct closed; (split; simpl; [done|]); intros _; [by exists x|]. eexists. split_and!; [done|done|by right|done].
  - unfold publishDone in Hr. case_decide as Hw; [|done]. injection Hr as <-. destruct (I2 ltac:(congruence)) as (x&?&?&?&?).
    split; simpl; [done|]. intros _. by exists x.
Qed.

(** What a step can no longer change. *)
Lemma exec_step_final e e' : exec_step e e' → exec_inv e →
  (done e = true → exState e' = exState e ∧ exExit e' = exExit e ∧ done e' = true) ∧
  (exState e ≠ StateStarting → exState e' ≠ StateStarting ∧ (exState e ≠ StateReady → exState e' ≠ StateReady)) ∧
  (exForced e = true → exForced e' = true).
Proof.
  unfold done. intros Hs [I1 I2]. destruct Hs as [e|e|e|e failed e' Hr|e closed e' Hr|e e' Hr].
  - unfold becomeReady. case_decide as E; [|done]. split_and!; try done. intros Hd%bool_decide_eq_true. destruct (I2 ltac:(congruence)) as (x&?&?&[]&?); congruence.
  - split_and!; simpl; try done; [|by case_decide]. intros Hd%bool_decide_eq_true. rewrite bool_decide_true by done. split_and!; try done.
    destruct (I2 ltac:(congruence)) as (x&?&Hx&Ho&?). rewrite Hx. case_decide; [done|]. by destruct Ho.
  - split_and!; simpl; try done; [|by case_decide]. intros Hd%bool_decide_eq_true. rewrite bool_decide_true by done. split_and!; try done.
    destruct (I2 ltac:(congruence)) as (x&?&Hx&Ho&?). rewrite Hx. rewrite decide_False; [done|]. destruct Ho as [->| ->]; naive_solver.
  - unfold recordExit in Hr. case_decide as Hw; [|done]. injection Hr as <-. rewrite Hw. split_and!; simpl; try done.
    intros _. by destruct (exForced e), (exShutdown e).
  - unfold cleanupExecutor in Hr. case_decide as Hw; [|done]. injection Hr as <-. rewrite Hw. by destruct closed.
  - unfold publishDone in Hr. case_decide as Hw; [|done]. injection Hr as <-. by rewrite Hw.
Qed.

(** An executor ends once: under every interleaving of its sections, what [Done]
    announces is a recorded exit that agrees with the state and never changes again, a
    stopped executor was asked to shut down and ended without an error, a loss forced
    before the supervisor's end was recorded makes it a lost one, and an executor that
    is no longer ready never takes work again. *)
Lemma executor_exit_final e e' :
  exec_reach e → rtc exec_step e e' →
  (done e = true → exState e' = exState e ∧ exExit e' = exExit e ∧
     ∃ x, exExit e = Some x ∧ exState e = exitState x ∧ over (exitState x) ∧ (exitState x = StateStopped → exShutdown e = true ∧ exitErr x = None)) ∧
  (exForced e = true → exWatch e = Watching → done e' = true → exState e' = StateLost) ∧
  (exState e ≠ StateStarting → exState e ≠ StateReady → exState e' ≠ StateReady).
Proof.
  intros Hr Hst. assert (∀ x y, rtc exec_step x y → exec_inv x → exec_inv y) as Hind.
  { induction 1 as [|x u z Hs _ IH]; [done|]. intros Hx. apply IH. by eapply exec_step_inv. }
  pose proof (Hind _ _ Hr exec_inv_init) as Hi. clear Hr.
  assert (exForced e = true → exWatch e = Watching → exWatch e' = Watching ∨ exState e' = StateLost) as Hlost.
  { intros Hf Hw. assert (exForced e = true ∧ exState e = StateLost) as Hl by (split; [done|by apply Hi]). clear Hw Hf.
    revert Hi Hl. induction Hst as [e|e e1 e' Hs Hst IH]; intros Hi [Hf Hl]; [by right|]. apply IH; [by eapply exec_step_inv|].
    destruct (exec_step_final _ _ Hs Hi) as (_&_&Hf1). split; [auto|]. destruct Hs as [e|e|e|e failed e1 Hr|e closed e1 Hr|e e1 Hr].
    - unfold becomeReady. by rewrite decide_False by congruence.
    - simpl. by rewrite decide_False by congruence.
    - simpl. by rewrite decide_False by naive_solver congruence.
    - unfold recordExit in Hr. case_decide; [|done]. simplify_eq. simpl. by rewrite Hf.
    - unfold cleanupExecutor in Hr. case_decide; [|done]. by destruct closed; simplify_eq.
    - unfold publishDone in Hr. case_decide; [|done]. by simplify_eq. }
  split_and!; [|intros Hf Hw Hd; destruct (Hlost Hf Hw) as [Hx|?]; [unfold done in Hd; by rewrite Hx in Hd|done]|].
  - intros Hd. split_and!.
    + clear Hlost. induction Hst as [|e e1 e' Hs Hst IH]; [done|]. destruct (exec_step_final _ _ Hs Hi) as (H1&_). destruct (H1 Hd) as (E1&_&E2).
      rewrite <- E1. apply IH; [by eapply exec_step_inv|done].
    + clear Hlost. induction Hst as [|e e1 e' Hs Hst IH]; [done|]. destruct (exec_step_final _ _ Hs Hi) as (H1&_). destruct (H1 Hd) as (_&E1&E2).
      rewrite <- E1. apply IH; [by eapply exec_step_inv|done].
    + apply (ei_recorded _ Hi). unfold done in Hd. apply bool_decide_eq_true in Hd. congruence.
  - clear Hlost. intros H1 H2. induction Hst as [|e e1 e' Hs Hst IH]; [done|]. destruct (exec_step_final _ _ Hs Hi) as (_&H3&_). destruct (H3 H1) as [H4 H5].
    apply IH; [by eapply exec_step_inv|done|by apply H5].
Qed.

(** ** Retried calls against the supervisor *)

(** Every fork, also the one of a child that is killed at once because its pid cannot be
    resolved. *)
Definition isFork (a : action) : bool := match a with Fork _ | ForkAndKill _ => true | _ => false end.

Section retries.
Variable hashOf : startSpec → string.
Variable filesHash : list Z → option string.
Variable readStartSpec : Z → result bool startSpec.
Abbreviation step := (sys_step hashOf filesHash readStartSpec).
Abbreviation serve' := (serve hashOf filesHash readStartSpec).

(** One attempt to deliver a request: the supervisor goes on for a while and serves it,
    and the reply arrives or is lost; or the request never reaches it. *)
Inductive attempt (req : request) (fds : list Z) : system → option (result super_err reply) → list action → system → Prop :=
| at_served y y1 answer rep s' a arrives :
    rtc step y y1 → (∀ c host, answer = Forked c host → kids y1 !! c = None) → serve' (srv y1) req fds answer = (rep, s', a) →
    attempt req fds y (if arrives : bool then rep else None) [a] (mkSystem s' (spawned a (kids y1)) (drains y1) (truth y1))
| at_undelivered y y1 : rtc step y y1 → attempt req fds y None [] y1.

(** The loop of [start] over the attempts it makes: the actions of the supervisor, and
    what the loop returns. *)
Inductive start_run (req : request) (fds : list Z) : nat → system → list action → start_result → system → Prop :=
| sr_end y : start_run req fds 0 y [] StartUnreachable y
| sr_answered n y rep acts y1 :
    attempt req fds y (Some rep) acts y1 → clientStart rep ≠ Transport →
    start_run req fds (S n) y acts (startAttempts 1 [(clientStart rep, false)]) y1
| sr_lost n y rep acts y1 : attempt req fds y rep acts y1 → start_run req fds (S n) y acts LostWhileStarting y1
| sr_retry n y rep acts y1 acts' r y' :
    attempt req fds y rep acts y1 → match rep with Some x => clientStart x = Transport | None => True end →
    start_run req fds n y1 acts' r y' → start_run req fds (S n) y (acts ++ acts') r y'.

Lemma attempt_steps req fds y rep acts y1 : attempt req fds y rep acts y1 → rtc step y y1.
Proof using Type. intros [y0 y2 answer rep0 s' a arrives Hst Hf Hs|y0 y2 Hst]; [|done]. eapply rtc_r; [done|by eapply sy_serve]. Qed.

Lemma steps_inv y y' : rtc step y y' → sys_inv y → sys_inv y'.
Proof using Type. induction 1 as [|x u z Hs _ IH]; [done|]. intros Hi. apply IH. by eapply sys_step_inv. Qed.
Lemma attempt_inv req fds y rep acts y1 : sys_inv y → attempt req fds y rep acts y1 → sys_inv y1.
Proof using Type. intros Hi Ha%attempt_steps. by eapply steps_inv. Qed.

Lemma serve_registered s req fds answer rep s' a p :
  processes s !! rqProcess req = Some p → serve' s req fds answer = (rep, s', a) → isFork a = false.
Proof using Type.
  intros Hp. unfold serve. destruct (negb _); [by intros [= <- <- <-]|]. destruct (rqOperation req); try (by intros [= <- <- <-]).
  - unfold start. destruct (checkStart _ _ _ req fds) as [files|]; [|by intros [= <- <- <-]]. unfold startLocked. rewrite Hp. destruct (_ || _); by intros [= <- <- <-].
  - unfold signal. rewrite Hp. repeat case_match; intros; by simplify_eq.
Qed.
Lemma registered_attempt req fds y rep acts y1 p :
  sys_inv y → processes (srv y) !! rqProcess req = Some p → attempt req fds y rep acts y1 →
  Forall (λ a, isFork a = false) acts ∧ is_Some (processes (srv y1) !! rqProcess req).
Proof using Type.
  intros Hi Hp Ha. split.
  - destruct Ha as [y0 y2 answer rep0 s' a arrives Hst Hf Hs|]; [|done].
    destruct (steps_keep _ _ _ _ _ _ _ Hst Hi Hp) as ((p'&Hp'&_)&_).
    apply Forall_singleton. by eapply serve_registered.
  - destruct (steps_keep _ _ _ _ _ _ _ (attempt_steps _ _ _ _ _ _ Ha) Hi Hp) as ((p'&Hp'&_)&_). eauto.
Qed.
Lemma registered_run req fds n y acts r y' :
  start_run req fds n y acts r y' → sys_inv y → is_Some (processes (srv y) !! rqProcess req) → Forall (λ a, isFork a = false) acts.
Proof using Type.
  induction 1 as [y|n y rep acts y1 Ha _|n y rep acts y1 Ha|n y rep acts y1 acts' r y' Ha _ Hrun IH]; intros Hi [p Hp]; [done| | |].
  - by eapply registered_attempt.
  - by eapply registered_attempt.
  - destruct (registered_attempt _ _ _ _ _ _ _ Hi Hp Ha) as [H1 H2]. apply Forall_app. split; [done|]. apply IH; [|done].
    by eapply attempt_inv.
Qed.

(** A reply with a pid names the registered process. *)
Lemma attempt_pid req fds y rep acts y1 p :
  sys_inv y → rqOperation req = OpStart → attempt req fds y (Some rep) acts y1 → clientStart rep = Replied p →
  ∃ q, processes (srv y1) !! rqProcess req = Some q ∧ rpPid (replyFor (rqProcess req) q) = p.
Proof using Type.
  intros Hi Hop Ha Hp. inversion Ha as [y0 y2 answer rep0 s' a arrives Hst Hf Hs|]; subst.
  destruct arrives; [|done]. simplify_eq. unfold serve in Hs. destruct (negb _); [by simplify_eq|]. rewrite Hop in Hs.
  destruct (start _ _ _ (srv y2) req fds answer) as [[r s1] a1] eqn:Es. simplify_eq. simpl. unfold start in Es.
  destruct (checkStart _ _ _ req fds); [|by simplify_eq]. unfold startLocked in Es.
  assert (∀ x, clientStart (Ok x) = Replied p → rpPid x = p) as Hc by (intros x; simpl; destruct (rpPid x <=? 0); [done|by intros [= ->]]).
  destruct (processes (srv y2) !! rqProcess req) as [q|] eqn:Hq; [destruct (_ || _); simplify_eq; exists q; split; [done|by apply (Hc (replyFor (rqProcess req) q))]|].
  destruct (negb _); [by simplify_eq|]. destruct answer as [big|c [h|]]; simplify_eq. eexists. simpl. rewrite lookup_insert_eq. split; [done|]. by apply (Hc (replyFor (rqProcess req) _)).
Qed.
Lemma run_pid req fds n y acts r y' p :
  start_run req fds n y acts r y' → sys_inv y → rqOperation req = OpStart → r = Started p →
  ∃ q, processes (srv y') !! rqProcess req = Some q ∧ rpPid (replyFor (rqProcess req) q) = p.
Proof using Type.
  induction 1 as [y|n y rep acts y1 Ha Hn|n y rep acts y1 Ha|n y rep acts y1 acts' r y' Ha _ Hrun IH]; intros Hi Hop Er; try done.
  - eapply attempt_pid; [done|done|done|]. destruct (clientStart rep); simpl in Er; by simplify_eq.
  - apply IH; [by eapply attempt_inv|done|done].
Qed.

Lemma run_steps req fds n y acts r y' : start_run req fds n y acts r y' → rtc step y y'.
Proof using Type. induction 1; [done|by eapply attempt_steps|by eapply attempt_steps|]. etrans; [by eapply attempt_steps|done]. Qed.
(** An attempt does one thing at most, and a fork that is kept is registered. *)
Lemma attempt_fork req fds y rep acts y1 : attempt req fds y rep acts y1 →
  acts = [] ∨ ∃ a, acts = [a] ∧ ∀ c, a = Fork c → ∃ q, processes (srv y1) !! rqProcess req = Some q ∧ pid q = c.
Proof using Type.
  intros [x x2 answer rep0 s' a arrives Hst Hf Hs|x x2 Hst]; [right|by left]. exists a. split; [done|]. intros c ->.
  destruct (serve_cases _ _ _ _ _ _ _ _ _ _ Hs) as [(_&_&_&_&Hn&_)|(c'&q&[= <-]&_&_&_&Hq&_&_&->)]; [by destruct (Hn c)|]. exists q. simpl. by rewrite lookup_insert_eq.
Qed.
Lemma kept_pid req fds n y acts r y' q : start_run req fds n y acts r y' → sys_inv y → processes (srv y) !! rqProcess req = Some q →
  ∃ q', processes (srv y') !! rqProcess req = Some q' ∧ pid q' = pid q.
Proof using Type.
  intros Hst%run_steps Hi Hq. destruct (steps_keep _ _ _ _ _ _ _ Hst Hi Hq) as ((q'&Hq'&Hsame)&_). exists q'. split; [done|]. destruct Hsame as (?&?&?&?&?&?). congruence.
Qed.

(** C22: a retried start keeps one process: whatever the retries of [start] meet, replies
    lost after the fork included, at most one fork is kept, it is the last fork, and it is
    the process registered under the identifier; every other fork is a child that
    was killed at once because its pid could not be resolved.  The pid that [start]
    returns is the one of the registered process. *)
Theorem retried_start_runs_once executor req fds n y acts r y' :
  sys_reach hashOf filesHash readStartSpec executor y → rqOperation req = OpStart → start_run req fds n y acts r y' →
  (∀ before c after, acts = before ++ Fork c :: after →
     Forall (λ a, isFork a = true → ∃ c', a = ForkAndKill c') before ∧ Forall (λ a, isFork a = false) after ∧
     ∃ q, processes (srv y') !! rqProcess req = Some q ∧ pid q = c) ∧
  (∀ p, r = Started p → ∃ q, processes (srv y') !! rqProcess req = Some q ∧ rpPid (replyFor (rqProcess req) q) = p).
Proof using Type.
  intros Hi%sys_reach_inv Hop Hrun. split; [|intros p Hr; by eapply run_pid].
  assert (Hone : ∀ acts x rep x1, attempt req fds x rep acts x1 → ∀ before c after, acts = before ++ Fork c :: after →
    before = [] ∧ after = [] ∧ ∃ q, processes (srv x1) !! rqProcess req = Some q ∧ pid q = c).
  { intros l x rep x1 Ha before c after ->. destruct (attempt_fork _ _ _ _ _ _ Ha) as [E|(a&E&Hreg)]; [by destruct before|].
    destruct before as [|? [|]]; simplify_eq/=. split_and!; [done..|by apply Hreg]. }
  induction Hrun as [y|n y rep acts y1 Ha _|n y rep acts y1 Ha|n y rep acts y1 acts' r y' Ha _ Hrun IH].
  - by intros [] ? ?.
  - intros before c after E. destruct (Hone _ _ _ _ Ha _ _ _ E) as (->&->&H). split_and!; [constructor..|done].
  - intros before c after E. destruct (Hone _ _ _ _ Ha _ _ _ E) as (->&->&H). split_and!; [constructor..|done].
  - pose proof (attempt_inv _ _ _ _ _ _ Hi Ha) as Hi1. intros before c after E.
    destruct (attempt_fork _ _ _ _ _ _ Ha) as [->|(a&->&Hreg)]; [by apply IH|]. destruct before as [|b before]; simpl in E.
    + injection E as -> <-. destruct (Hreg c eq_refl) as (q&Hq&<-). split_and!; [constructor|eapply registered_run; eauto|by eapply kept_pid].
    + injection E as -> E. destruct (IH Hi1 _ _ _ E) as (H1&H2&H3). split_and!; [|done|done]. constructor; [|done]. intros Hf. destruct b as [|c'|c'|]; try done; [|eauto].
      exfalso. destruct (Hreg c' eq_refl) as (q&Hq&_). assert (Forall (λ a, isFork a = false) acts') as Hno by (eapply registered_run; eauto).
      rewrite E, Forall_app in Hno. destruct Hno as [_ Hno]. by apply Forall_cons in Hno as [? _].
Qed.

(** [Wait] over the attempts it makes: each answer is the supervisor's at some moment. *)
Inductive wait_run (id : string) : system → list (call_result ExitStatus) → system → Prop :=
| wr_end y : wait_run id y [] y
| wr_answer y y1 rep answers y' :
    rtc step y y1 → wait (srv y1) id = Some rep → wait_run id y1 answers y' → wait_run id y (clientWait rep :: answers) y'
| wr_failed y y1 answers y' : rtc step y y1 → wait_run id y1 answers y' → wait_run id y (Transport :: answers) y'.

(** What [Wait] reports is true: an exit code or signal it returns, on whichever of
    its attempts and whatever failed before, is how the kernel ended that process, and
    it stays true; without one, the process is reported lost or the context ended. *)
Lemma wait_outcome_true executor id y answers y' moments after :
  sys_reach hashOf filesHash readStartSpec executor y → wait_run id y answers y' →
  match processWait (zip answers moments) after with
  | Ended st => truth y' !! id = Some st
  | LostProcess | WaitContext => True
  | WaitUnreachable => False
  end.
Proof using Type.
  intros Hi%sys_reach_inv Hrun.
  assert (∀ n st, waitAttempts n (zip answers moments) = Ended st → truth y' !! id = Some st) as Htrue.
  { intros n st. revert n moments. induction Hrun as [y|y y1 rep answers y' Hst Hw Hrun IH|y y1 answers y' Hst Hrun IH]; intros n moments Hr.
    - by destruct n.
    - destruct n as [|n], moments as [|m moments]; try done. pose proof (steps_inv _ _ Hst Hi) as Hi1. simpl in Hr.
      assert (∀ k, waitAttempts k (zip answers moments) = Ended st → truth y' !! id = Some st) as IH' by (intros k; by apply IH).
      destruct rep as [rep|e]; simpl in Hr; [|destruct m; try done; by eapply IH'].
      unfold wait in Hw. destruct (processes (srv y1) !! id) as [p|] eqn:Hp; [|done]. destruct (status p) as [st'|] eqn:Est; [|done]. simplify_eq/=.
      rewrite Est in Hr. simplify_eq. assert (rtc step y1 y') as Hst'.
      { clear -Hrun. induction Hrun; [done|etrans; eassumption|etrans; eassumption]. }
      destruct (steps_keep _ _ _ _ _ _ _ Hst' Hi1 Hp) as (_&Ht&_). rewrite Ht by eauto. by eapply (sy_exact _ Hi1).
    - destruct n as [|n], moments as [|m moments]; try done. simpl in Hr. destruct m; try done. eapply IH; [by eapply steps_inv|done]. }
  unfold processWait. destruct (waitAttempts waitMaxAttempts (zip answers moments)) as [st| | |] eqn:E; try done; [by eapply Htrue|by destruct after].
Qed.
End retries.

(** ** Concrete runs *)

Definition stopping : executor := beginShutdown (becomeReady newExecutor).
Definition stopped : executor := mkExecutor StateStopped (Some (mkExit StateStopped None)) true false Published.
Lemma stoppedExecutor_reach : exec_reach stopped.
Proof.
  eapply rtc_l; [apply ex_ready|]. eapply rtc_l; [apply ex_shutdown|]. eapply rtc_l; [by apply (ex_record _ true)|].
  eapply rtc_l; [by apply (ex_cleanup _ true)|]. apply rtc_once. by apply ex_publish.
Qed.
Abbreviation demo_run := (start_run demoHash demoFiles demoRead).
(** The first child is killed and the reply lost, the second reply is lost after the fork. *)
Definition yk : system := mkSystem (srv y0) (spawned (ForkAndKill 40) (kids y0)) (drains y0) (truth y0).
Definition yf : system := mkSystem (serve demoHash demoFiles demoRead (srv yk) demoStart [0; 1; 2] (Forked 41 (Some 0))).1.2 (spawned (Fork 41) (kids yk)) (drains yk) (truth yk).
Lemma demo_retry : demo_run demoStart [0; 1; 2] 3 y0 [ForkAndKill 40; Fork 41; Nothing] (Started 41) yf.
Proof.
  assert (attempt demoHash demoFiles demoRead demoStart [0; 1; 2] y0 None [ForkAndKill 40] yk) as H0.
  { refine (at_served demoHash demoFiles demoRead demoStart [0; 1; 2] y0 y0 (Forked 40 None) _ _ (ForkAndKill 40) false (rtc_refl _ _) _ eq_refl).
    by intros c host [= <- _]. }
  assert (attempt demoHash demoFiles demoRead demoStart [0; 1; 2] yk None [Fork 41] yf) as H1.
  { refine (at_served demoHash demoFiles demoRead demoStart [0; 1; 2] yk yk (Forked 41 (Some 0)) _ _ (Fork 41) false (rtc_refl _ _) _ eq_refl).
    by intros c host [= <- _]. }
  assert (attempt demoHash demoFiles demoRead demoStart [0; 1; 2] yf (Some (Ok (mkReply "p1" 41 None))) [Nothing] yf) as H2.
  { refine (at_served demoHash demoFiles demoRead demoStart [0; 1; 2] yf yf (ForkError false) _ _ Nothing true (rtc_refl _ _) _ eq_refl).
    by intros c host. }
  apply (sr_retry _ _ _ _ _ 2 y0 None [ForkAndKill 40] yk [Fork 41; Nothing] (Started 41) yf H0 I).
  apply (sr_retry _ _ _ _ _ 1 yk None [Fork 41] yf [Nothing] (Started 41) yf H1 I).
  apply (sr_answered _ _ _ _ _ 0 yf (Ok (mkReply "p1" 41 None)) [Nothing] yf H2). discriminate.
Qed.
Lemma retried_start_runs_once_witness : ∃ q, processes (srv yf) !! "p1"%string = Some q ∧ pid q = 41.
Proof.
  destruct (retried_start_runs_once demoHash demoFiles demoRead "e" demoStart [0; 1; 2] 3 y0 [ForkAndKill 40; Fork 41; Nothing] (Started 41) yf
    (rtc_refl _ _) eq_refl demo_retry) as [H1 _].
  destruct (H1 [ForkAndKill 40] 41 [Nothing] eq_refl) as (_&_&q&Hq&Hp). exists q. split; [exact Hq|exact Hp].
Defined.
