(* ===== verification/Environment.v ===== *)
(** * Environment: what variables a bed's process gets

    Models the resolution of declared configuration
    ([internal/bed/configuration/manager.go]) and the composition of a process
    environment ([internal/bed/manager/env.go]).  Sources are read through the host:
    what a directory lists and what a regular file holds are parameters.  Go visits maps
    in any order; every variable of a map is resolved on its own. *)

From S2P Require Import Prelude Lines Netip Bed Volumes PillowSpec.

(** ** Declared configuration *)

Definition maxValueBytes : Z := 65536.
Inductive env_err := InvalidSpec | UnknownSource | SourceUnavailable | BadSource | BadValue | NotPrepared | UnknownPillow | NoTempdir.

Section configuration.
(** The registered sources, the names in a directory, the contents of a regular file of
    a directory, and of a file by its absolute path. *)
Variable sources : gmap string string.
Variable listing : string → option (list string).
Variable fileIn : string → string → option string.
Variable fileAt : string → option string.

(** [readRootValue] of the contents. *)
Definition cleanValue (data : string) : option string :=
  if (maxValueBytes <? Z.of_nat (String.length data)) || contains_byte 0 data then None
  else Some (trim_suffix data (String newline "")).
Definition readRootValue (dir key : string) : option string := fileIn dir key ≫= cleanValue.

Definition openSource (name : string) : result env_err string :=
  match sources !! name with
  | None => Err UnknownSource
  | Some dir => if listing dir then Ok dir else Err SourceUnavailable
  end.

(** The loop of [readSource] over the entries. *)
Fixpoint readEntries (dir : string) (names : list string) (env : gmap string string) : result env_err (gmap string string) :=
  match names with
  | [] => Ok env
  | key :: names =>
      if has_prefix key ".." then readEntries dir names env
      else if negb (ValidName key) then Err BadSource
      else match readRootValue dir key with
           | Some v => readEntries dir names (<[key := v]> env)
           | None => Err BadValue
           end
  end.
Definition readSource (name : string) : result env_err (gmap string string) :=
  dir <-! openSource name;
  match listing dir with
  | None => Err SourceUnavailable
  | Some names => if 4096 <? Z.of_nat (length names) then Err BadSource else readEntries dir names ∅
  end.

Fixpoint importSources (names : list string) (env : gmap string string) : result env_err (gmap string string) :=
  match names with
  | [] => Ok env
  | name :: names => values <-! readSource name; importSources names (values ∪ env)
  end.

(** Every entry of a map, resolved. *)
Definition resolveMap {V} (f : V → option string) (m : gmap string V) : result env_err (gmap string string) :=
  if forallb (λ kv : string * V, bool_decide (is_Some (f kv.2))) (map_to_list m) then Ok (omap f m) else Err BadValue.

Definition refValue (ref : ConfigurationKeyRef) : option string :=
  match openSource (RefSource ref) with Ok dir => readRootValue dir (RefKey ref) | Err _ => None end.
Definition fileValue (file : string) : option string := fileAt file ≫= cleanValue.

Definition resolveConfiguration (s : PillowSpec) : result env_err (gmap string string) :=
  if negb (Validate s) then Err InvalidSpec
  else
    env <-! importSources (EnvFrom s) ∅;
    refs <-! resolveMap refValue (EnvValueFrom s);
    files <-! resolveMap fileValue (EnvFiles s);
    Ok (Env s ∪ (files ∪ (refs ∪ env))).

(** [Prepare], [Pillow] and [Release] of the manager: beds are pointers. *)
Fixpoint resolveAll (pillows : list PillowSpec) : result env_err unit :=
  match pillows with
  | [] => Ok ()
  | p :: pillows => _ <-! resolveConfiguration p; resolveAll pillows
  end.
Definition prepareConfiguration (prepared : gset Z) (b : Z) (spec : Spec) : result env_err (gset Z) :=
  _ <-! resolveAll (Pillows spec); Ok ({[b]} ∪ prepared).
Definition pillowConfiguration (prepared : gset Z) (b : Z) (spec : Spec) (name : string) : result env_err (gmap string string) :=
  if negb (bool_decide (b ∈ prepared)) then Err NotPrepared
  else match head (filter (λ p, PillowName p = name) (Pillows spec)) with
       | Some p => resolveConfiguration p
       | None =>
           let p := DefaultPillow spec in
           if decide (PillowName p = name) then resolveConfiguration p else Err UnknownPillow
       end.
Definition mainConfiguration (prepared : gset Z) (b : Z) (spec : Spec) : result env_err (gmap string string) :=
  pillowConfiguration prepared b spec (PillowName (DefaultPillow spec)).
Definition releaseConfiguration (prepared : gset Z) (b : Z) : gset Z := prepared ∖ {[b]}.
End configuration.

(** ** The process environment *)

Definition equals : ascii := "="%char.
(** [strings.Cut] at the first [=]. *)
Fixpoint cutAt (l : list ascii) : option (list ascii * list ascii) :=
  match l with
  | [] => None
  | c :: l => if decide (c = equals) then Some ([], l)
              else match cutAt l with Some (name, value) => Some (c :: name, value) | None => None end
  end.
Definition cutEntry (entry : string) : option (string * string) :=
  match cutAt (to_list entry) with Some (name, value) => Some (of_list name, of_list value) | None => None end.

Definition isReservedCarrierEnv (name : string) : bool :=
  has_prefix name "HOSTEL_" || has_prefix name "BED_" || bool_decide (name = "PLAYWRIGHT_MCP_CDP_ENDPOINT"%string).

(** What a process sees: the last entry of a name. *)
Fixpoint parseEnv (keep : string → bool) (entries : list string) (env : gmap string string) : gmap string string :=
  match entries with
  | [] => env
  | entry :: entries =>
      parseEnv keep entries
        match cutEntry entry with
        | Some (name, value) => if keep name then <[name := value]> env else env
        | None => env
        end
  end.
(** The carrier variables beds inherit, and the names withheld from them. *)
Definition newProcessEnv (hostEnv : list string) : gmap string string * list string :=
  (parseEnv (λ name, negb (isReservedCarrierEnv name)) hostEnv ∅,
   merge_sort String.le (elements (list_to_set (filter (λ name, isReservedCarrierEnv name = true) (fst <$> omap cutEntry hostEnv)) : gset string))).

(** What the bed contributes: its name, its directories as the process sees them (the
    temporary one may be missing), the shell and its browser endpoint. *)
Record bedContext := mkContext { ctxName : string; ctxHome : string; ctxTemp : option string; ctxShell : string; ctxEndpoint : option string }.
Definition bedVariables (c : bedContext) (temporary : string) : gmap string string :=
  let env := <["BED_ID" := ctxName c]> (<["HOME" := ctxHome c]> (<["TMPDIR" := temporary]> (<["USER" := "hostel-bed"]>
               (<["LOGNAME" := "hostel-bed"]> (<["SHELL" := ctxShell c]> (∅ : gmap string string)))))) in
  match ctxEndpoint c with Some e => <["PLAYWRIGHT_MCP_CDP_ENDPOINT"%string := e]> env | None => env end.

Definition name_le (a b : string * string) : Prop := String.le a.1 b.1.
#[export] Instance name_le_dec : RelDecision name_le.
Proof. intros a b. unfold name_le. apply _. Defined.
Definition envEntry (kv : string * string) : string := kv.1 +:+ "=" +:+ kv.2.
Definition renderEnv (env : gmap string string) : list string := envEntry <$> merge_sort name_le (map_to_list env).

Definition copyOverlays (env : gmap string string) (overlays : list (gmap string string)) : gmap string string :=
  foldl (λ env overlay, overlay ∪ env) env overlays.
Definition buildBedEnv (carrier : gmap string string) (c : bedContext) (overlays : list (gmap string string)) : result env_err (list string) :=
  if negb (forallb ValidateEnv overlays) then Err InvalidSpec
  else match ctxTemp c with
       | None => Err NoTempdir
       | Some temporary => Ok (renderEnv (copyOverlays (bedVariables c temporary ∪ carrier) overlays))
       end.
(** [buildExecutionEnv]: the default pillow's configuration, then the request's. *)
Definition buildExecutionEnv (main : result env_err (gmap string string)) (carrier : gmap string string) (c : bedContext)
    (requestEnv : gmap string string) : result env_err (list string) :=
  env <-! main; buildBedEnv carrier c [env; requestEnv].

(** ** What resolution yields *)

Definition legal (env : gmap string string) : Prop := ∀ name v, env !! name = Some v → ValidName name = true ∧ contains_byte 0 v = false.

Lemma validate_env_legal env : ValidateEnv env = true ↔ legal env.
Proof.
  unfold ValidateEnv, legal. rewrite forallb_forall. split.
  - intros H name v Hv. specialize (H (name, v)). simpl in H. rewrite <- list_elem_of_In, elem_of_map_to_list in H.
    specialize (H Hv). apply andb_true_iff in H as [? ?%negb_true_iff]. done.
  - intros H [name v]. rewrite <- list_elem_of_In, elem_of_map_to_list. intros [H1 H2]%H. simpl. by rewrite H1, H2.
Qed.

Lemma legal_empty : legal ∅.
Proof. intros name v. by rewrite lookup_empty. Qed.
Lemma legal_insert name v env : ValidName name = true → contains_byte 0 v = false → legal env → legal (<[name := v]> env).
Proof. intros Hn Hv H name' v'. rewrite lookup_insert_Some. intros [[<- <-]|[_ ?]]; [done|]. by apply H. Qed.
Lemma legal_union a b : legal a → legal b → legal (a ∪ b).
Proof. intros Ha Hb name v. rewrite lookup_union_Some_raw. intros [?|[_ ?]]; [by apply Ha|by apply Hb]. Qed.

Lemma clean_no_nul data v : cleanValue data = Some v → contains_byte 0 v = false.
Proof.
  unfold cleanValue. destruct (_ || _) eqn:H; [done|]. intros [= <-]. apply orb_false_iff in H as [_ H].
  unfold trim_suffix. destruct (has_suffix _ _); [|done].
  unfold contains_byte in *. rewrite to_list_substring, drop_0. rewrite <- not_true_iff_false, existsb_exists in *.
  intros (c & Hc & Hb). apply H. exists c. split; [|done]. rewrite <- list_elem_of_In in *. eapply subseteq_take; exact Hc.
Qed.

Lemma dotted_not_valid key : has_prefix key ".." = true → ValidName key = false.
Proof. intros [r ->]%has_prefix_spec. done. Qed.

Lemma read_entries_spec fileIn dir names env env' : readEntries fileIn dir names env = Ok env' → ∀ name,
  env' !! name = if bool_decide (name ∈ names) && ValidName name then readRootValue fileIn dir name else env !! name.
Proof.
  revert env. induction names as [|key names IH]; intros env; simpl.
  { intros [= <-] name. done. }
  destruct (has_prefix key "..") eqn:Hdot.
  { intros H name. rewrite (IH _ H name). destruct (decide (name = key)) as [->|Hne].
    - rewrite (dotted_not_valid _ Hdot), !andb_false_r. done.
    - rewrite (bool_decide_ext (name ∈ key :: names) (name ∈ names)) by set_solver. done. }
  destruct (ValidName key) eqn:Hv; [simpl|done]. destruct (readRootValue _ _ _) as [v|] eqn:Hr; [|done].
  intros H name. rewrite (IH _ H name). destruct (decide (name = key)) as [->|Hne].
  - rewrite (bool_decide_eq_true_2 (key ∈ key :: names)) by set_solver. rewrite Hv, Hr. simpl.
    destruct (_ && _); [done|]. by rewrite lookup_insert_eq.
  - rewrite lookup_insert_ne by done. rewrite (bool_decide_ext (name ∈ key :: names) (name ∈ names)) by set_solver. done.
Qed.

Section resolution.
Variable sources : gmap string string.
Variable listing : string → option (list string).
Variable fileIn : string → string → option string.
Variable fileAt : string → option string.
Notation readSource := (readSource sources listing fileIn).
Notation importSources := (importSources sources listing fileIn).
Notation refValue := (refValue sources listing fileIn).
Notation fileValue := (fileValue fileAt).
Notation resolveConfiguration := (resolveConfiguration sources listing fileIn fileAt).

(** What a registered directory offers under a name: its file of that name. *)
Definition sourceValue (src name : string) : option string :=
  dir ← sources !! src; names ← listing dir;
  if bool_decide (name ∈ names) && ValidName name then readRootValue fileIn dir name else None.
(** What the listed directories offer: the last one that has the name. *)
Definition importedValue (srcs : list string) (name : string) : option string := last (omap (λ src, sourceValue src name) srcs).

Lemma read_source_spec src env : readSource src = Ok env → ∀ name, env !! name = sourceValue src name.
Proof using.
  unfold Environment.readSource, openSource, sourceValue. destruct (sources !! src) as [dir|]; [simpl|done].
  destruct (listing dir) as [names|] eqn:Hl; [simpl|done]. rewrite Hl. destruct (_ <? _); [done|].
  intros H name. by rewrite (read_entries_spec _ _ _ _ _ H name).
Qed.

Lemma import_sources_spec srcs env env' : importSources srcs env = Ok env' → ∀ name,
  env' !! name = match importedValue srcs name with Some v => Some v | None => env !! name end.
Proof using.
  revert env. induction srcs as [|src srcs IH]; intros env; simpl.
  { by intros [= <-]. }
  destruct (readSource src) as [values|] eqn:Hr; [simpl|done]. intros H name. rewrite (IH _ H name).
  unfold importedValue. simpl. rewrite lookup_union, (read_source_spec _ _ Hr name).
  destruct (sourceValue src name) as [v|] eqn:Hs; [rewrite last_cons|]; destruct (last _); try done.
  - by destruct (env !! name).
  - by destruct (env !! name).
Qed.

Lemma source_value_legal src name v : sourceValue src name = Some v → ValidName name = true ∧ contains_byte 0 v = false.
Proof using.
  unfold sourceValue, readRootValue. destruct (sources !! src) as [dir|]; [simpl|done].
  destruct (listing dir) as [names|]; [simpl|done]. destruct (bool_decide _ && _) eqn:H; [|done].
  apply andb_true_iff in H as [_ ?]. destruct (fileIn dir name); [simpl|done]. intros ?%clean_no_nul. done.
Qed.

Lemma imported_legal srcs name v : importedValue srcs name = Some v → ValidName name = true ∧ contains_byte 0 v = false.
Proof using.
  intros (src & _ & H)%last_Some_elem_of%list_elem_of_omap. by eapply source_value_legal.
Qed.

Lemma resolve_map_spec {V} (f : V → option string) m env : resolveMap f m = Ok env →
  ∀ name, env !! name = m !! name ≫= f ∧ (is_Some (m !! name) → is_Some (env !! name)).
Proof using.
  unfold resolveMap. destruct (forallb _ _) eqn:H; [|done]. intros [= <-] name. rewrite lookup_omap. split; [done|].
  intros [x Hx]. rewrite Hx. simpl. rewrite forallb_forall in H. specialize (H (name, x)).
  rewrite <- list_elem_of_In, elem_of_map_to_list in H. by apply H, bool_decide_eq_true in Hx.
Qed.
End resolution.

Lemma declared_legal s : Validate s = true →
  legal (Env s) ∧ (∀ name file, EnvFiles s !! name = Some file → ValidName name = true) ∧
  (∀ name ref, EnvValueFrom s !! name = Some ref → ValidName name = true).
Proof.
  unfold Validate. intros [[[H1 H2]%andb_true_iff H3]%andb_true_iff _]%andb_true_iff. rewrite forallb_forall in H2, H3.
  split_and!; [by apply validate_env_legal| |].
  - intros name file. rewrite <- elem_of_map_to_list, list_elem_of_In. intros H%H2. simpl in H. by destruct (ValidName name).
  - intros name ref. rewrite <- elem_of_map_to_list, list_elem_of_In. intros H%H3. simpl in H. by destruct (ValidName name).
Qed.

Lemma ref_no_nul sources listing fileIn ref v : refValue sources listing fileIn ref = Some v → contains_byte 0 v = false.
Proof.
  unfold refValue, readRootValue. destruct (openSource _ _ _); [|done]. destruct (fileIn _ _); [simpl|done]. apply clean_no_nul.
Qed.
Lemma file_no_nul fileAt file v : fileValue fileAt file = Some v → contains_byte 0 v = false.
Proof. unfold fileValue. destruct (fileAt _); [simpl|done]. apply clean_no_nul. Qed.

(** A pillow's resolved variables follow the declared precedence: a literal value
    wins over a file, a file over a key of a source, and these over the imported
    directories, of which the last that has the variable decides; every variable that is
    declared explicitly is present, and every resolved name and value is one a process
    may be given.  The host's files are parameters. *)
Lemma configuration_precedence sources listing fileIn fileAt s env :
  resolveConfiguration sources listing fileIn fileAt s = Ok env →
  ValidateEnv env = true ∧
  (∀ name, env !! name =
    match Env s !! name with
    | Some v => Some v
    | None => match EnvFiles s !! name with
              | Some file => fileValue fileAt file
              | None => match EnvValueFrom s !! name with
                        | Some ref => refValue sources listing fileIn ref
                        | None => importedValue sources listing fileIn (EnvFrom s) name
                        end
              end
    end) ∧
  (∀ name, is_Some (Env s !! name) ∨ is_Some (EnvFiles s !! name) ∨ is_Some (EnvValueFrom s !! name) → is_Some (env !! name)).
Proof.
  unfold resolveConfiguration. destruct (Validate s) eqn:Hv; [simpl|done].
  destruct (importSources _ _ _ _ _) as [imported|] eqn:Hi; [simpl|done].
  destruct (resolveMap (refValue _ _ _) _) as [refs|] eqn:Hr; [simpl|done].
  destruct (resolveMap (fileValue _) _) as [files|] eqn:Hf; [simpl|done]. intros [= <-].
  apply declared_legal in Hv as (Henv & Hfiles & Hrefs).
  pose proof (import_sources_spec _ _ _ _ _ _ Hi) as Si. pose proof (resolve_map_spec _ _ _ Hr) as Sr.
  pose proof (resolve_map_spec _ _ _ Hf) as Sf.
  assert (Hlook : ∀ name, (Env s ∪ (files ∪ (refs ∪ imported))) !! name =
    match Env s !! name with Some v => Some v | None =>
    match files !! name with Some v => Some v | None =>
    match refs !! name with Some v => Some v | None => imported !! name end end end).
  { intros name. rewrite !lookup_union. by destruct (Env s !! name), (files !! name), (refs !! name), (imported !! name). }
  split_and!.
  - apply validate_env_legal. repeat apply legal_union; [done| | |].
    + intros name v Hn. rewrite (proj1 (Sf name)) in Hn. apply bind_Some in Hn as (file & Hd & Hn).
      split; [by eapply Hfiles|by eapply file_no_nul].
    + intros name v Hn. rewrite (proj1 (Sr name)) in Hn. apply bind_Some in Hn as (ref & Hd & Hn).
      split; [by eapply Hrefs|by eapply ref_no_nul].
    + intros name v Hn. rewrite Si, lookup_empty in Hn. destruct (importedValue _ _ _ _ _) eqn:Hm; [|done].
      simplify_eq. by eapply imported_legal.
  - intros name. rewrite Hlook. destruct (Env s !! name); [done|]. destruct (Sf name) as [Ef Hf'], (Sr name) as [Er Hr']. rewrite Ef, Er. rewrite Ef in Hf'. rewrite Er in Hr'.
    destruct (EnvFiles s !! name) as [file|]; simpl.
    { destruct (Hf' (ex_intro _ file eq_refl)) as [v Hx]. simpl in Hx. by rewrite Hx. }
    destruct (EnvValueFrom s !! name) as [ref|]; simpl.
    { destruct (Hr' (ex_intro _ ref eq_refl)) as [v Hx]. simpl in Hx. by rewrite Hx. }
    rewrite Si, lookup_empty. by destruct (importedValue _ _ _ _ _).
  - intros name H. rewrite Hlook. destruct (Env s !! name) as [v|]; [by exists v|].
    destruct (Sf name) as [_ Hf'], (Sr name) as [_ Hr']. destruct (files !! name) as [v|]; [by exists v|].
    destruct (refs !! name) as [v|]; [by exists v|]. exfalso.
    destruct H as [[? [=]]|[H|H]]; [by destruct (Hf' H)|by destruct (Hr' H)].
Qed.

(** ** What a process sees *)

Definition plainName (name : string) : Prop := equals ∉ to_list name.
Definition plainNames (env : gmap string string) : Prop := ∀ name, is_Some (env !! name) → plainName name.

Lemma cut_at_plain name value : equals ∉ name → cutAt (name ++ equals :: value) = Some (name, value).
Proof.
  induction name as [|c name IH]; simpl; [done|]. intros [Hc Hn]%not_elem_of_cons.
  rewrite decide_False by done. by rewrite IH.
Qed.
Lemma cut_at_name l name value : cutAt l = Some (name, value) → equals ∉ name.
Proof.
  revert name. induction l as [|c l IH]; intros name; simpl; [done|]. case_decide as Hc.
  { intros [= <- <-]. apply not_elem_of_nil. }
  destruct (cutAt l) as [[n v]|]; [|done]. intros [= <- <-]. apply not_elem_of_cons. split; [done|]. by apply IH.
Qed.
Lemma cut_rendered name value : plainName name → cutEntry (envEntry (name, value)) = Some (name, value).
Proof.
  unfold cutEntry, envEntry, plainName. simpl. intros H. rewrite !to_list_app. simpl. rewrite cut_at_plain by done.
  by rewrite !of_to_list.
Qed.
Lemma cut_name entry name value : cutEntry entry = Some (name, value) → plainName name.
Proof.
  unfold cutEntry, plainName. destruct (cutAt _) as [[n v]|] eqn:H; [|done]. intros [= <- <-]. rewrite to_of_list.
  by eapply cut_at_name.
Qed.
Lemma valid_name_plain name : ValidName name = true → plainName name.
Proof.
  unfold ValidName, variable, plainName. destruct (to_list name) as [|c l]; [done|].
  intros [[[[Hc Hl]%andb_true_iff _]%andb_true_iff _]%andb_true_iff _]%andb_true_iff [<-|Hin]%elem_of_cons; [done|].
  rewrite forallb_forall in Hl. apply list_elem_of_In, Hl in Hin. done.
Qed.

(** What an environment list gives a name: its last entry. *)
Definition inherited (hostEnv : list string) (name : string) : option string :=
  last (omap (λ entry, kv ← cutEntry entry; if decide (kv.1 = name) then Some kv.2 else None) hostEnv).

Lemma parse_env_spec keep entries env name : parseEnv keep entries env !! name =
  match (if keep name then inherited entries name else None) with Some v => Some v | None => env !! name end.
Proof.
  revert env. induction entries as [|entry entries IH]; intros env; simpl; [by destruct (keep name)|].
  rewrite IH. unfold inherited. simpl. destruct (cutEntry entry) as [[n v]|] eqn:Hc; [simpl|done].
  destruct (decide (n = name)) as [->|Hne].
  - destruct (keep name); [|done]. rewrite last_cons. destruct (last _); [done|]. by rewrite lookup_insert_eq.
  - destruct (keep name) eqn:Hk; [destruct (last _); [done|]|]; destruct (keep n); by rewrite ?lookup_insert_ne.
Qed.
Lemma parse_env_plain keep entries env : plainNames env → plainNames (parseEnv keep entries env).
Proof.
  revert env. induction entries as [|entry entries IH]; intros env H; simpl; [done|]. apply IH.
  destruct (cutEntry entry) as [[n v]|] eqn:Hc; [|done]. destruct (keep n); [|done]. intros name.
  rewrite lookup_insert_is_Some. intros [<-|[_ ?]]; [by eapply cut_name|by apply H].
Qed.
Lemma parse_rendered l env : NoDup (l.*1) → Forall plainName (l.*1) →
  parseEnv (λ _, true) (envEntry <$> l) env = list_to_map l ∪ env.
Proof.
  revert env. induction l as [|[k v] l IH]; intros env; csimpl.
  { intros _ _. by rewrite (left_id_L ∅ (∪)). }
  intros [Hk Hnd]%NoDup_cons [Hp Hpl]%Forall_cons. rewrite cut_rendered by done. rewrite IH by done.
  rewrite <- insert_union_l, insert_union_r; [done|]. by apply not_elem_of_list_to_map_1.
Qed.

(** ** Composition *)

Lemma copy_overlays_spec env overlays name : copyOverlays env overlays !! name =
  match last (omap (.!! name) overlays) with Some v => Some v | None => env !! name end.
Proof.
  unfold copyOverlays. revert env. induction overlays as [|o overlays IH]; intros env; simpl; [done|]. rewrite IH.
  rewrite lookup_union. destruct (o !! name) as [v|]; [rewrite last_cons|]; destruct (last _); try done; by destruct (env !! name).
Qed.
Lemma overlay_value_legal overlays name v : forallb ValidateEnv overlays = true →
  last (omap (.!! name) overlays) = Some v → ValidName name = true.
Proof.
  rewrite forallb_forall. intros H (o & Ho & Hv)%last_Some_elem_of%list_elem_of_omap.
  apply list_elem_of_In, H, validate_env_legal in Ho. by apply Ho in Hv as [? _].
Qed.
Lemma overlay_reserved overlays name : forallb ValidateEnv overlays = true → isReservedCarrierEnv name = true →
  last (omap (.!! name) overlays) = None.
Proof.
  intros H Hr. destruct (last _) as [v|] eqn:Hl; [|done]. pose proof (overlay_value_legal _ _ _ H Hl) as Hv.
  unfold isReservedCarrierEnv in Hr. unfold ValidName in Hv. destruct (variable name), (has_prefix name "HOSTEL_"), (has_prefix name "BED_"), (bool_decide _); done.
Qed.

Lemma bed_variable_names c temporary name : is_Some (bedVariables c temporary !! name) →
  name ∈ ["PLAYWRIGHT_MCP_CDP_ENDPOINT"; "BED_ID"; "HOME"; "TMPDIR"; "USER"; "LOGNAME"; "SHELL"]%string.
Proof.
  unfold bedVariables. destruct (ctxEndpoint c); rewrite !lookup_insert_is_Some', lookup_empty;
    intros H; repeat (destruct H as [<-|H]; [set_solver|]); by destruct H.
Qed.
Lemma bed_variable_plain c temporary : plainNames (bedVariables c temporary).
Proof.
  intros name H%bed_variable_names. revert name H. apply Forall_forall.
  repeat constructor; by apply (bool_decide_eq_true_1 (_ ∉ _)).
Qed.
Lemma bed_variable_not_private c temporary name : has_prefix name "HOSTEL_" = true → bedVariables c temporary !! name = None.
Proof.
  intros Hp. apply eq_None_not_Some. intros H%bed_variable_names. revert Hp. apply not_true_iff_false. revert name H.
  apply Forall_forall. by repeat constructor.
Qed.
Lemma copy_overlays_plain env overlays : forallb ValidateEnv overlays = true → plainNames env → plainNames (copyOverlays env overlays).
Proof.
  intros Ho He name [v Hv]. rewrite copy_overlays_spec in Hv. destruct (last _) as [w|] eqn:Hl.
  - by eapply valid_name_plain, overlay_value_legal.
  - apply He. by exists v.
Qed.
Lemma carrier_spec hostEnv name : (newProcessEnv hostEnv).1 !! name = if isReservedCarrierEnv name then None else inherited hostEnv name.
Proof.
  unfold newProcessEnv. simpl. rewrite parse_env_spec, lookup_empty. destruct (isReservedCarrierEnv name); [done|]. simpl.
  by destruct (inherited _ _).
Qed.

Lemma names_sorted (env : gmap string string) : StronglySorted (λ a b, String.le a b ∧ a ≠ b) (merge_sort name_le (map_to_list env)).*1.
Proof.
  assert (Hs : StronglySorted name_le (merge_sort name_le (map_to_list env))).
  { apply Sorted.Sorted_StronglySorted; [intros a b c; unfold name_le; by intros ->|]. apply Sorted_merge_sort.
    intros a b. unfold name_le. apply (total String.le). }
  assert (Hn : NoDup (merge_sort name_le (map_to_list env)).*1).
  { rewrite merge_sort_Permutation. apply NoDup_fst_map_to_list. }
  induction Hs as [|a l Hs IH Ha]; csimpl in *; [constructor|]. apply NoDup_cons in Hn as [Hn1 Hn2].
  constructor; [by apply IH|]. apply Forall_fmap, Forall_forall. intros b Hb. simpl.
  rewrite Forall_forall in Ha. split; [by apply Ha|]. intros He. apply Hn1. rewrite He. by apply list_elem_of_fmap_2.
Qed.

Lemma rendered_seen env : plainNames env → parseEnv (λ _, true) (renderEnv env) ∅ = env.
Proof.
  intros H. unfold renderEnv. set (l := merge_sort name_le (map_to_list env)).
  assert (Hl : l ≡ₚ map_to_list env) by apply merge_sort_Permutation.
  assert (Hn : NoDup l.*1) by (rewrite Hl; apply NoDup_fst_map_to_list).
  rewrite parse_rendered; [|done|].
  - rewrite (right_id_L ∅ (∪)). rewrite (list_to_map_proper l _ Hn Hl). apply list_to_map_to_list.
  - rewrite Hl. apply Forall_fmap, Forall_forall. intros [k v] Hk%elem_of_map_to_list. apply H. by exists v.
Qed.

(** C36: the environment of a bed's process is exact.  The list has one entry per
    variable, in byte order of the names, and a process that reads it sees, for every
    name: what the last overlay that sets it says; else what the bed sets; else what the
    carrier had last, unless the name is reserved.  So the bed's identity and browser
    endpoint are always its own, and no variable of the daemon's private namespace is
    visible, whatever the overlays say. *)
Theorem process_environment_exact hostEnv c overlays out :
  buildBedEnv (newProcessEnv hostEnv).1 c overlays = Ok out →
  ∃ temporary l, ctxTemp c = Some temporary ∧ out = envEntry <$> l ∧ StronglySorted (λ a b, String.le a b ∧ a ≠ b) l.*1 ∧
    let seen := parseEnv (λ _, true) out ∅ in
    list_to_map l = seen ∧
    (∀ name, seen !! name =
      match last (omap (.!! name) overlays) with
      | Some v => Some v
      | None => match bedVariables c temporary !! name with
                | Some v => Some v
                | None => if isReservedCarrierEnv name then None else inherited hostEnv name
                end
      end) ∧
    seen !! "BED_ID"%string = Some (ctxName c) ∧
    seen !! "PLAYWRIGHT_MCP_CDP_ENDPOINT"%string = ctxEndpoint c ∧
    (∀ name, has_prefix name "HOSTEL_" = true → seen !! name = None).
Proof.
  unfold buildBedEnv. destruct (forallb _ _) eqn:Ho; [simpl|done]. destruct (ctxTemp c) as [temporary|]; [|done].
  intros Hout. set (carrier := (newProcessEnv hostEnv).1) in *. set (env := copyOverlays (bedVariables c temporary ∪ carrier) overlays) in *.
  assert (out = renderEnv env) as -> by (by injection Hout). clear Hout.
  assert (Hplain : plainNames env).
  { apply copy_overlays_plain; [done|]. intros name [H|H]%lookup_union_is_Some; [by eapply bed_variable_plain|].
    revert H. apply parse_env_plain. by intros ? [? ?%lookup_empty_Some]. }
  assert (Hlook : ∀ name, env !! name = match last (omap (.!! name) overlays) with Some v => Some v | None =>
      match bedVariables c temporary !! name with Some v => Some v | None =>
      if isReservedCarrierEnv name then None else inherited hostEnv name end end).
  { intros name. unfold env. rewrite copy_overlays_spec, lookup_union. unfold carrier. rewrite carrier_spec.
    destruct (last _); [done|]. by destruct (bedVariables _ _ !! name), (if isReservedCarrierEnv name then None else inherited hostEnv name). }
  exists temporary, (merge_sort name_le (map_to_list env)). do 2 (split; [done|]). split; [apply names_sorted|]. cbv zeta.
  rewrite (rendered_seen _ Hplain). split_and!; [|exact Hlook| | |].
  - rewrite (list_to_map_proper _ (map_to_list env)); [apply list_to_map_to_list| |apply merge_sort_Permutation].
    rewrite merge_sort_Permutation. apply NoDup_fst_map_to_list.
  - rewrite Hlook, overlay_reserved by done. unfold bedVariables. by destruct (ctxEndpoint c); simplify_map_eq.
  - rewrite Hlook, overlay_reserved by done. unfold bedVariables. by destruct (ctxEndpoint c); simplify_map_eq.
  - intros name Hp. assert (Hr : isReservedCarrierEnv name = true) by (unfold isReservedCarrierEnv; by rewrite Hp).
    by rewrite Hlook, overlay_reserved, Hr, bed_variable_not_private by done.
Qed.

(** ** A concrete host *)

Module DemoEnv.
Definition sources : gmap string string := {[ "app"%string := "/etc/app"%string ]}.
Definition listing (dir : string) : option (list string) :=
  if bool_decide (dir = "/etc/app"%string) then Some ["..data"; "TOKEN"; "MODE"]%string else None.
Definition fileIn (dir key : string) : option string :=
  if bool_decide (key = "TOKEN"%string) then Some (String "t" (String newline "")) else
  if bool_decide (key = "MODE"%string) then Some "fast"%string else None.
Definition fileAt (file : string) : option string := None.
Definition pillow : PillowSpec :=
  mkPillow [] None [] "main" [] None "" {[ "MODE"%string := "safe"%string ]} ∅ ["app"%string]
    {[ "KEY"%string := mkKeyRef "app" "TOKEN" ]} false "" 0 0 "".
Definition context : bedContext := mkContext "b1" "/bed" (Some "/bed/tmp"%string) "/bin/sh" None.
Definition hostEnv : list string := ["PATH=/bin"; "HOSTEL_KEY=x"; "BED_ID=other"; "odd"; "PATH=/usr/bin"]%string.
Definition requestVars : gmap string string := {[ "HOME"%string := "/work"%string ]}.
Definition resolvedVars : gmap string string := <["KEY" := "t"]> (<["MODE" := "safe"]> (<["TOKEN" := "t"]> ∅))%string.
End DemoEnv.

Lemma demo_resolves : resolveConfiguration DemoEnv.sources DemoEnv.listing DemoEnv.fileIn DemoEnv.fileAt DemoEnv.pillow = Ok DemoEnv.resolvedVars.
Proof. by vm_compute. Qed.
Lemma demo_environment : buildExecutionEnv (Ok DemoEnv.resolvedVars) (newProcessEnv DemoEnv.hostEnv).1 DemoEnv.context DemoEnv.requestVars =
  Ok ["BED_ID=b1"; "HOME=/work"; "KEY=t"; "LOGNAME=hostel-bed"; "MODE=safe"; "PATH=/usr/bin"; "SHELL=/bin/sh"; "TMPDIR=/bed/tmp";
      "TOKEN=t"; "USER=hostel-bed"]%string.
Proof. by vm_compute. Qed.
(** Witness of [process_environment_exact]. *)
Lemma process_environment_exact_witness : ∃ out l,
  buildBedEnv (newProcessEnv DemoEnv.hostEnv).1 DemoEnv.context [DemoEnv.resolvedVars; DemoEnv.requestVars] = Ok out ∧ out = envEntry <$> l ∧
  parseEnv (λ _, true) out ∅ !! "BED_ID"%string = Some "b1"%string.
Proof.
  destruct (process_environment_exact _ _ _ _ demo_environment) as (_ & l & _ & Hl & _ & _ & _ & Hb & _).
  eexists _, l. split_and!; [exact demo_environment|exact Hl|exact Hb].
Defined.
