(* ===== verification/Realms.v ===== *)
(** * Realms: one executor per bed at a time

    Models [internal/bed/executor/lifecycle.go]: the realm of each prepared bed, its
    replacement by [For], and [Bind], [Stop] and [Release].  The executors themselves are
    the interface [Executor]: what they do on their own are steps of the environment.
    Realms are pointers: a call keeps the one it looked up, also after [Release].

    [For] holds the realm's lock from its checks to its return; it is split where the
    composite owner prepares the new executor, so that executors may end meanwhile. *)

From S2P Require Import Prelude Executor.

(** An executor: its state, whether anything of it still runs, whether [Done] is closed,
    the realm that created it, and whether [Create] failed and could not clean up. *)
Record exec_view := mkView { xState : State; xLive : bool; xDone : bool; xOwner : Z; xLeft : bool }.
(** What a realm holds: nothing, an executor that is being or has been prepared, or one
    whose preparation failed ([unpreparedExecutor]). *)
Inductive holding := Nothing | Held (e : Z) | Unprepared (e : Z).
#[export] Instance holding_eq_dec : EqDecision holding.
Proof. solve_decision. Defined.
(** A goroutine that observes an executor's end. *)
Record observer := mkObserver { oExec : Z; oFinished : bool }.
Record realm := mkRealm {
  rBed : Z; rBound : bool; rExec : holding; rStopped : bool;
  rObservers : list Z;        (* the channels kept, by observer *)
  rPreparing : option Z       (* the lock is held by [For] with this new executor *)
}.
(** [bed.ExecutorStatus]: identity and state. *)
Record exec_status := mkStatus { esID : option Z; esState : State }.
#[export] Instance exec_status_eq_dec : EqDecision exec_status.
Proof. solve_decision. Defined.

Record realms := mkRealms {
  slots : gmap Z Z;                  (* bed to realm *)
  heap : gmap Z realm;
  execs : gmap Z exec_view;
  observers : gmap Z observer;
  statuses : gmap Z exec_status      (* per bed *)
}.
Definition noRealms : realms := mkRealms ∅ ∅ ∅ ∅ ∅.

Definition setRealm (s : realms) (r : Z) (x : realm) : realms := mkRealms (slots s) (<[r := x]> (heap s)) (execs s) (observers s) (statuses s).
Definition setExec (s : realms) (e : Z) (x : exec_view) : realms := mkRealms (slots s) (heap s) (<[e := x]> (execs s)) (observers s) (statuses s).
Definition setExecStatus (s : realms) (b : Z) (st : exec_status) : realms := mkRealms (slots s) (heap s) (execs s) (observers s) (<[b := st]> (statuses s)).
Definition setObserver (s : realms) (o : Z) (x : observer) : realms := mkRealms (slots s) (heap s) (execs s) (<[o := x]> (observers s)) (statuses s).

Definition withHolding (x : realm) (h : holding) (stopped : bool) (obs : list Z) (preparing : option Z) : realm :=
  mkRealm (rBed x) (rBound x) h stopped obs preparing.

(** [Prepare]: a new realm [r] unless the bed has one. *)
Definition PrepareRealm (s : realms) (b r : Z) : option realms :=
  match slots s !! b with
  | Some _ => Some s
  | None => if decide (heap s !! r = None)
            then Some (mkRealms (<[b := r]> (slots s)) (<[r := mkRealm b false Nothing false [] None]> (heap s)) (execs s) (observers s) (statuses s))
            else None
  end.
(** The realm, when its lock is free. *)
Definition acquireRealm (s : realms) (r : Z) : option realm :=
  x ← heap s !! r; if decide (rPreparing x = None) then Some x else None.

Definition BindRealm (s : realms) (r : Z) : option (bool * realms) :=
  x ← acquireRealm s r;
  if decide (rExec x ≠ Nothing ∨ rStopped x = true) then Some (false, s)
  else Some (true, setRealm s r (mkRealm (rBed x) true (rExec x) (rStopped x) (rObservers x) None)).

(** What [State] says of a realm's executor: a failed preparation is lost. *)
Definition holdingExec (h : holding) : option Z := match h with Nothing => None | Held e | Unprepared e => Some e end.
Definition stateOf (s : realms) (h : holding) : option State :=
  match h with
  | Nothing => None
  | Held e => xState <$> execs s !! e
  | Unprepared _ => Some StateLost
  end.
(** [Shutdown] may return nil: the executor is done and nothing of it runs. *)
Definition shutDown (s : realms) (h : holding) : bool :=
  match holdingExec h with
  | None => true
  | Some e => match execs s !! e with Some x => xDone x && negb (xLive x) | None => false end
  end.

(** The outcomes of [For] before it has a new executor. *)
Inductive for_result := NotPreparedBed | StoppedBed | Reused (e : Z) | CleanupPending | Create.
#[export] Instance for_result_eq_dec : EqDecision for_result.
Proof. solve_decision. Defined.
Definition forBegin (s : realms) (r : Z) (shutdownOk : bool) : option for_result :=
  x ← acquireRealm s r;
  if rStopped x then Some StoppedBed
  else match rExec x with
       | Nothing => Some Create
       | h => if decide (stateOf s h = Some StateReady) then Reused <$> holdingExec h
              else if shutdownOk then (if shutDown s h then Some Create else None) else Some CleanupPending
       end.
(** [factory.Create]: executor [e], whose processes run; [Create] fails, and [left] says
    whether its cleanup failed too. *)
Definition created (r : Z) (left : bool) : exec_view := mkView (if left then StateLost else StateReady) true false r left.
Definition forCreate (s : realms) (r e : Z) : option realms :=
  x ← heap s !! r;
  if decide (forBegin s r true = Some Create ∧ execs s !! e = None)
  then Some (setExec (setRealm s r (withHolding x (Held e) false (rObservers x) (Some e))) e (created r false))
  else None.
Definition forCreateFailed (s : realms) (r e : Z) (left : bool) : option realms :=
  x ← heap s !! r;
  if decide (forBegin s r true = Some Create ∧ execs s !! e = None)
  then Some (if left then setExec s e (created r true) else s)
  else None.

(** The observers that have not finished. *)
Definition pendingObservers (s : realms) (obs : list Z) : list Z :=
  filter (λ o, oFinished <$> observers s !! o = Some false) obs.
(** The end of [For]: the bind function, when there is one, has succeeded. *)
Definition forBound (s : realms) (r o : Z) : option realms :=
  x ← heap s !! r; e ← rPreparing x; ex ← execs s !! e;
  if decide (observers s !! o = None)
  then Some (setObserver (setExecStatus (setRealm s r (withHolding x (Held e) (rStopped x) (pendingObservers s (rObservers x) ++ [o]) None))
                            (rBed x) (mkStatus (Some e) (xState ex))) o (mkObserver e false))
  else None.
Definition forBindFailed (s : realms) (r : Z) : option realms :=
  x ← heap s !! r; e ← rPreparing x;
  if rBound x then Some (setRealm s r (withHolding x (Unprepared e) (rStopped x) (rObservers x) None)) else None.

(** The observer's section, once its executor is done. *)
Definition observeExit (s : realms) (r o : Z) : option realms :=
  x ← acquireRealm s r; ob ← observers s !! o; ex ← execs s !! oExec ob;
  if decide (oFinished ob = false ∧ xDone ex = true ∧ xOwner ex = r) then
    let s := setObserver s o (mkObserver (oExec ob) true) in
    Some (if decide (rExec x = Held (oExec ob)) then setExecStatus s (rBed x) (mkStatus (Some (oExec ob)) (xState ex)) else s)
  else None.

(** [Stop]; [shutdownOk] is what [Shutdown] returned. *)
Definition StopRealm (s : realms) (r : Z) (shutdownOk : bool) : option (bool * realms) :=
  x ← acquireRealm s r;
  match rExec x, shutdownOk with
  | Nothing, _ => Some (true, setExecStatus (setRealm s r (withHolding x Nothing true (rObservers x) None)) (rBed x) (mkStatus None StateStopped))
  | h, true => if shutDown s h
               then Some (true, setExecStatus (setRealm s r (withHolding x Nothing true (rObservers x) None)) (rBed x) (mkStatus None StateStopped))
               else None
  | h, false => Some (false, setRealm s r (withHolding x h true (rObservers x) None))
  end.

(** [Release]: what it waits for, and the end, once they have finished. *)
Definition releaseWaits (s : realms) (r : Z) : option (list Z) := rObservers <$> acquireRealm s r.
Definition releaseDone (s : realms) (b : Z) (obs : list Z) : option realms :=
  if decide (pendingObservers s obs = [])
  then Some (mkRealms (delete b (slots s)) (heap s) (execs s) (observers s) (statuses s)) else None.

(** ** Interleavings *)

Inductive realm_step : realms → realms → Prop :=
| rs_prepare s b r s' : PrepareRealm s b r = Some s' → realm_step s s'
| rs_bind s r ok s' : BindRealm s r = Some (ok, s') → realm_step s s'
| rs_create s r e s' : forCreate s r e = Some s' → realm_step s s'
| rs_create_failed s r e left s' : forCreateFailed s r e left = Some s' → realm_step s s'
| rs_bound s r o s' : forBound s r o = Some s' → realm_step s s'
| rs_bind_failed s r s' : forBindFailed s r = Some s' → realm_step s s'
| rs_observe s r o s' : observeExit s r o = Some s' → realm_step s s'
| rs_stop s r ok ok' s' : StopRealm s r ok = Some (ok', s') → realm_step s s'
| rs_release s b obs s' : releaseDone s b obs = Some s' → realm_step s s'
(** An executor that is not done changes its state, but never back to ready; its
    processes end; it is done, with a final state. *)
| rs_state s e x st : execs s !! e = Some x → xDone x = false → st ≠ StateReady →
    realm_step s (setExec s e (mkView st (xLive x) false (xOwner x) (xLeft x)))
| rs_gone s e x : execs s !! e = Some x → realm_step s (setExec s e (mkView (xState x) false (xDone x) (xOwner x) (xLeft x)))
| rs_done s e x st : execs s !! e = Some x → xDone x = false → over st →
    realm_step s (setExec s e (mkView st (xLive x) true (xOwner x) (xLeft x))).
Definition realm_reach (s : realms) : Prop := rtc realm_step noRealms s.

(** ** What always holds *)

(** Something of executor [e] of realm [r] runs; it was left behind by a [Create] that failed and
    could not clean up; it runs and was not left behind; [For] completed its preparation, and
    observes it since. *)
Definition running (s : realms) (r e : Z) : Prop := ∃ x, execs s !! e = Some x ∧ xLive x = true ∧ xOwner x = r.
Definition ownRuns (s : realms) (r e : Z) : Prop := ∃ x, execs s !! e = Some x ∧ xLive x = true ∧ xLeft x = false ∧ xOwner x = r.
Definition watched (s : realms) (obs : list Z) (e : Z) : Prop := ∃ o, o ∈ obs ∧ observers s !! o = Some (mkObserver e false).
Definition onlyRealm (s : realms) (r : Z) (x : realm) : Prop := ∀ r' x', heap s !! r' = Some x' → rBed x' = rBed x → r' = r.

Record realm_inv (s : realms) : Prop := {
  ri_slots : ∀ b r, slots s !! b = Some r → ∃ x, heap s !! r = Some x ∧ rBed x = b;
  ri_live : ∀ r e, ownRuns s r e → ∃ x, heap s !! r = Some x ∧ holdingExec (rExec x) = Some e;
  ri_held : ∀ r x e, heap s !! r = Some x → holdingExec (rExec x) = Some e → ∃ ex, execs s !! e = Some ex ∧ xOwner ex = r ∧ xLeft ex = false;
  ri_preparing : ∀ r x e, heap s !! r = Some x → rPreparing x = Some e → rExec x = Held e ∧ rStopped x = false;
  ri_observers : ∀ o ob, observers s !! o = Some ob → oFinished ob = false →
    ∃ ex x, execs s !! oExec ob = Some ex ∧ heap s !! xOwner ex = Some x ∧ o ∈ rObservers x;
  ri_listed : ∀ r x o, heap s !! r = Some x → o ∈ rObservers x → is_Some (observers s !! o) }.

(** The status of a bed with one realm: that of its executor until it is done and
    observed, and that of a stopped bed. *)
Record status_inv (s : realms) : Prop := {
  si_held : ∀ r x e, heap s !! r = Some x → onlyRealm s r x → rExec x = Held e → rPreparing x = None →
    ∃ st ex, statuses s !! rBed x = Some (mkStatus (Some e) st) ∧ execs s !! e = Some ex ∧
      (watched s (rObservers x) e ∨ xDone ex = true ∧ st = xState ex);
  si_stopped : ∀ r x, heap s !! r = Some x → onlyRealm s r x → rExec x = Nothing → rStopped x = true →
    statuses s !! rBed x = Some (mkStatus None StateStopped) }.

Lemma realm_inv_init : realm_inv noRealms.
Proof.
  split; simpl; [..|]; try (intros *; by rewrite lookup_empty). intros r e (x & H & _). simpl in H. by rewrite lookup_empty in H.
Qed.
Lemma status_inv_init : status_inv noRealms.
Proof. split; simpl; intros *; by rewrite lookup_empty. Qed.

(** What the operations change. *)
Lemma acquire_spec s r x : acquireRealm s r = Some x ↔ heap s !! r = Some x ∧ rPreparing x = None.
Proof.
  unfold acquireRealm. destruct (heap s !! r) as [y|]; simpl; [case_decide|]; naive_solver.
Qed.
Lemma begin_create s r x : heap s !! r = Some x → forBegin s r true = Some Create →
  rPreparing x = None ∧ rStopped x = false ∧ shutDown s (rExec x) = true.
Proof.
  intros Hx. unfold forBegin. destruct (acquireRealm s r) as [y|] eqn:Ha; [simpl|done].
  apply acquire_spec in Ha as [Hy Hp]. simplify_eq. destruct (rStopped x); [done|].
  destruct (rExec x) as [|e|e]; simpl; [done| |]; repeat case_match; naive_solver.
Qed.
Lemma create_spec s r e s' : forCreate s r e = Some s' → ∃ x, heap s !! r = Some x ∧ rPreparing x = None ∧ rStopped x = false ∧
  shutDown s (rExec x) = true ∧ execs s !! e = None ∧
  s' = setExec (setRealm s r (withHolding x (Held e) false (rObservers x) (Some e))) e (created r false).
Proof.
  unfold forCreate. destruct (heap s !! r) as [x|] eqn:Hx; [simpl|done]. case_decide as H; [|done]. intros [= <-].
  destruct H as [(? & ? & ?)%(begin_create _ _ _ Hx) ?]. by exists x.
Qed.
Lemma create_failed_spec s r e left s' : forCreateFailed s r e left = Some s' → s' = s ∨ execs s !! e = None ∧ s' = setExec s e (created r true).
Proof.
  unfold forCreateFailed. destruct (heap s !! r) as [x|] eqn:Hx; [simpl|done]. case_decide as H; [|done]. intros [= <-].
  destruct left; naive_solver.
Qed.
Lemma bound_spec s r o s' : forBound s r o = Some s' → ∃ x e ex, heap s !! r = Some x ∧ rPreparing x = Some e ∧ execs s !! e = Some ex ∧
  observers s !! o = None ∧
  s' = setObserver (setExecStatus (setRealm s r (withHolding x (Held e) (rStopped x) (pendingObservers s (rObservers x) ++ [o]) None))
         (rBed x) (mkStatus (Some e) (xState ex))) o (mkObserver e false).
Proof.
  unfold forBound. destruct (heap s !! r) as [x|] eqn:Hx; [simpl|done]. destruct (rPreparing x) as [e|] eqn:He; [simpl|done].
  destruct (execs s !! e) as [ex|] eqn:Hex; [simpl|done]. case_decide; [|done]. intros [= <-]. by exists x, e, ex.
Qed.
Lemma bind_failed_spec s r s' : forBindFailed s r = Some s' → ∃ x e, heap s !! r = Some x ∧ rPreparing x = Some e ∧
  s' = setRealm s r (withHolding x (Unprepared e) (rStopped x) (rObservers x) None).
Proof.
  unfold forBindFailed. destruct (heap s !! r) as [x|]; [simpl|done]. destruct (rPreparing x) as [e|] eqn:He; [simpl|done].
  destruct (rBound x); [|done]. intros [= <-]. by exists x, e.
Qed.
Lemma observe_spec s r o s' : observeExit s r o = Some s' → ∃ x ob ex, heap s !! r = Some x ∧ rPreparing x = None ∧ observers s !! o = Some ob ∧
  execs s !! oExec ob = Some ex ∧ xDone ex = true ∧ xOwner ex = r ∧
  let t := setObserver s o (mkObserver (oExec ob) true) in
  s' = if decide (rExec x = Held (oExec ob)) then setExecStatus t (rBed x) (mkStatus (Some (oExec ob)) (xState ex)) else t.
Proof.
  unfold observeExit. destruct (acquireRealm s r) as [x|] eqn:Ha; [simpl|done]. apply acquire_spec in Ha as [Hx Hp].
  destruct (observers s !! o) as [ob|] eqn:Ho; [simpl|done]. destruct (execs s !! oExec ob) as [ex|] eqn:Hex; [simpl|done].
  destruct (decide (oFinished ob = false ∧ _)) as [(? & ? & ?)|]; [|done]. intros [= <-]. by exists x, ob, ex.
Qed.
Lemma stop_spec s r ok ok' s' : StopRealm s r ok = Some (ok', s') → ∃ x, heap s !! r = Some x ∧ rPreparing x = None ∧
  (ok' = false ∧ rExec x ≠ Nothing ∧ s' = setRealm s r (withHolding x (rExec x) true (rObservers x) None) ∨
   ok' = true ∧ shutDown s (rExec x) = true ∧
   s' = setExecStatus (setRealm s r (withHolding x Nothing true (rObservers x) None)) (rBed x) (mkStatus None StateStopped)).
Proof.
  unfold StopRealm. destruct (acquireRealm s r) as [x|] eqn:Ha; [simpl|done]. apply acquire_spec in Ha as [Hx Hp].
  intros H. exists x. do 2 (split; [done|]). destruct (rExec x) as [|e|e] eqn:Hh; [naive_solver| |];
    (destruct ok; [destruct (shutDown s _) eqn:Hs; [|done]|]); naive_solver.
Qed.
Lemma bind_spec s r ok s' : BindRealm s r = Some (ok, s') → s' = s ∨ ∃ x, heap s !! r = Some x ∧ rPreparing x = None ∧ rExec x = Nothing ∧ rStopped x = false ∧
  s' = setRealm s r (mkRealm (rBed x) true (rExec x) (rStopped x) (rObservers x) None).
Proof.
  unfold BindRealm. destruct (acquireRealm s r) as [x|] eqn:Ha; [simpl|done]. apply acquire_spec in Ha as [Hx Hp].
  case_decide as H; [naive_solver|]. intros [= _ <-]. right. exists x. destruct (rExec x), (rStopped x); naive_solver.
Qed.

(** An executor changes by itself. *)
Lemma inv_exec_moves s e x x' : realm_inv s → execs s !! e = Some x → xOwner x' = xOwner x → xLeft x' = xLeft x →
  (xLive x' = true → xLive x = true) → realm_inv (setExec s e x').
Proof.
  intros I Hx Ho Hl Hv. split; simpl; [apply I|..].
  - intros r e' (y & Hy & Hlive & Hleft & Hown). simpl in Hy. apply (ri_live s I). unfold ownRuns.
    apply lookup_insert_Some in Hy as [[<- <-]|[_ Hy]]; [exists x; naive_solver|exists y; naive_solver].
  - intros r y e' Hy He. destruct (ri_held s I _ _ _ Hy He) as (ex & Hex & Ha & Hb).
    destruct (decide (e = e')) as [<-|]; [exists x'; rewrite lookup_insert_eq; naive_solver|exists ex; by rewrite lookup_insert_ne].
  - apply I.
  - intros o ob Hob Hf. destruct (ri_observers s I _ _ Hob Hf) as (ex & y & Hex & Hy & Hin).
    destruct (decide (e = oExec ob)) as [->|]; [|exists ex, y; by rewrite lookup_insert_ne].
    exists x', y. rewrite lookup_insert_eq, Ho. naive_solver.
  - apply I.
Qed.
(** [Create] leaves something behind. *)
Lemma inv_left_behind s r e : realm_inv s → execs s !! e = None → realm_inv (setExec s e (created r true)).
Proof.
  intros I He. split; simpl; [apply I|..].
  - intros r' e' (y & Hy & Hlive & Hleft & Hown). simpl in Hy. apply (ri_live s I).
    apply lookup_insert_Some in Hy as [[<- <-]|[_ Hy]]; [done|by exists y].
  - intros r' y e' Hy Hh. destruct (ri_held s I _ _ _ Hy Hh) as (ex & Hex & Ha & Hb). exists ex.
    rewrite lookup_insert_ne; naive_solver.
  - apply I.
  - intros o ob Hob Hf. destruct (ri_observers s I _ _ Hob Hf) as (ex & y & Hex & Hy & Hin). exists ex, y.
    rewrite lookup_insert_ne; naive_solver.
  - apply I.
Qed.
(** A realm changes and keeps its executor and observers. *)
Lemma inv_realm_moves s r x x' : realm_inv s → heap s !! r = Some x → rBed x' = rBed x → holdingExec (rExec x') = holdingExec (rExec x) →
  rObservers x' = rObservers x → rPreparing x' = None → realm_inv (setRealm s r x').
Proof.
  intros I Hx Hb Hh Ho Hp.
  assert (Hheap : ∀ r' y', <[r := x']> (heap s) !! r' = Some y' → ∃ y, heap s !! r' = Some y ∧ rBed y' = rBed y ∧
    holdingExec (rExec y') = holdingExec (rExec y) ∧ rObservers y' = rObservers y).
  { intros r' y' [[<- <-]|[_ ?]]%lookup_insert_Some; [by exists x|by exists y']. }
  assert (Hback : ∀ r' y, heap s !! r' = Some y → ∃ y', <[r := x']> (heap s) !! r' = Some y' ∧ rBed y' = rBed y ∧
    holdingExec (rExec y') = holdingExec (rExec y) ∧ rObservers y' = rObservers y).
  { intros r' y Hy. destruct (decide (r = r')) as [<-|]; [exists x'; rewrite lookup_insert_eq; naive_solver|exists y; by rewrite lookup_insert_ne]. }
  split; simpl.
  - intros b r' Hs. destruct (ri_slots s I _ _ Hs) as (y & Hy & <-). destruct (Hback _ _ Hy) as (y' & ? & ? & _). by exists y'.
  - intros r' e Hrun. destruct (ri_live s I r' e Hrun) as (y & Hy & He). destruct (Hback _ _ Hy) as (y' & ? & _ & ? & _). exists y'. by split; [|congruence].
  - intros r' y' e Hy He. destruct (Hheap _ _ Hy) as (y & Hy' & _ & Heq & _). apply (ri_held s I _ _ _ Hy'). congruence.
  - intros r' y' e [[<- <-]|[_ Hy]]%lookup_insert_Some; [congruence|by apply (ri_preparing s I r')].
  - intros o ob Hob Hf. destruct (ri_observers s I _ _ Hob Hf) as (ex & y & Hex & Hy & Hin). destruct (Hback _ _ Hy) as (y' & ? & _ & _ & ?).
    exists ex, y'. split_and!; congruence.
  - intros r' y' o Hy Hin. destruct (Hheap _ _ Hy) as (y & Hy' & _ & _ & Heq). apply (ri_listed s I _ _ _ Hy'). by rewrite <- Heq.
Qed.
Lemma inv_set_status s b st : realm_inv s → realm_inv (setExecStatus s b st).
Proof. intros [? ? ? ? ? ?]. by split. Qed.

(** Nothing of a realm runs when its executor has been shut down. *)
Lemma shut_down_quiet s r x e : realm_inv s → heap s !! r = Some x → shutDown s (rExec x) = true → ¬ ownRuns s r e.
Proof.
  intros I Hx Hs Hrun. destruct (ri_live s I r e Hrun) as (y & Hy & He). simplify_eq. unfold shutDown in Hs. rewrite He in Hs.
  destruct Hrun as (ex & Hex & Hl & _). rewrite Hex in Hs. apply andb_true_iff in Hs as [_ Hs]. by rewrite Hl in Hs.
Qed.

Lemma inv_create s r e s' : realm_inv s → forCreate s r e = Some s' → realm_inv s'.
Proof.
  intros I (x & Hx & Hp & Hst & Hs & He & ->)%create_spec. split; simpl.
  - intros b r' Hb. destruct (ri_slots s I _ _ Hb) as (y & Hy & <-). destruct (decide (r = r')) as [<-|]; simplify_eq; [eexists; by rewrite lookup_insert_eq|exists y; by rewrite lookup_insert_ne].
  - intros r' e' (y & Hy & Hl & Hleft & Hown). simpl in Hy. apply lookup_insert_Some in Hy as [[<- <-]|[Hne Hy]].
    { simpl in Hown. subst r'. eexists. by rewrite lookup_insert_eq. }
    assert (Hrun : ownRuns s r' e') by (by exists y). destruct (ri_live s I _ _ Hrun) as (z & Hz & Hh).
    destruct (decide (r = r')) as [<-|]; [by destruct (shut_down_quiet _ _ _ _ I Hx Hs Hrun)|exists z; by rewrite lookup_insert_ne].
  - intros r' y e' [[<- <-]|[Hne Hy]]%lookup_insert_Some Hh; simpl in Hh.
    { simplify_eq. eexists. by rewrite lookup_insert_eq. }
    destruct (ri_held s I _ _ _ Hy Hh) as (ex & Hex & ? & ?). exists ex. rewrite lookup_insert_ne; naive_solver.
  - intros r' y e' [[<- <-]|[Hne Hy]]%lookup_insert_Some; simpl; [by intros [= <-]|by apply (ri_preparing s I r')].
  - intros o ob Hob Hf. destruct (ri_observers s I _ _ Hob Hf) as (ex & y & Hex & Hy & Hin).
    assert (e ≠ oExec ob) by congruence. destruct (decide (r = xOwner ex)) as [->|].
    + simplify_eq. exists ex. eexists. rewrite lookup_insert_ne by done. rewrite lookup_insert_eq. naive_solver.
    + exists ex, y. by rewrite !lookup_insert_ne.
  - intros r' y o [[<- <-]|[Hne Hy]]%lookup_insert_Some; simpl; [by apply (ri_listed s I r)|by apply (ri_listed s I r')].
Qed.

Lemma pending_elem s obs o : o ∈ pendingObservers s obs ↔ (∃ ob, observers s !! o = Some ob ∧ oFinished ob = false) ∧ o ∈ obs.
Proof.
  unfold pendingObservers. rewrite list_elem_of_filter, fmap_Some. split; intros [(ob & ? & ?) ?]; split; eauto.
Qed.

Lemma inv_bound s r o s' : realm_inv s → forBound s r o = Some s' → realm_inv s'.
Proof.
  intros I (x & e & ex & Hx & Hp & Hex & Ho & ->)%bound_spec. destruct (ri_preparing s I _ _ _ Hx Hp) as [Hh Hst].
  assert (He : holdingExec (rExec x) = Some e) by (by rewrite Hh).
  destruct (ri_held s I _ _ _ Hx He) as (ex' & Hex' & Hown & Hleft). simplify_eq. split; simpl.
  - intros b r' Hb. destruct (ri_slots s I _ _ Hb) as (y & Hy & <-). destruct (decide (xOwner ex = r')) as [<-|]; simplify_eq;
      [eexists; by rewrite lookup_insert_eq|exists y; by rewrite lookup_insert_ne].
  - intros r' e' Hrun. destruct (ri_live s I r' e' Hrun) as (y & Hy & Hye). destruct (decide (xOwner ex = r')) as [<-|];
      simplify_eq; [eexists; by rewrite lookup_insert_eq|exists y; by rewrite lookup_insert_ne].
  - intros r' y e' [[<- <-]|[_ Hy]]%lookup_insert_Some Hye; simpl in Hye; [simplify_eq; by exists ex|by apply (ri_held s I _ y)].
  - intros r' y e' [[<- <-]|[_ Hy]]%lookup_insert_Some; [done|by apply (ri_preparing s I r')].
  - intros o' ob [[<- <-]|[Hne Hob]]%lookup_insert_Some Hf; simpl.
    { exists ex. eexists. rewrite lookup_insert_eq. split_and!; [done..|]. simpl. set_solver. }
    destruct (ri_observers s I _ _ Hob Hf) as (ex' & y & Hex' & Hy & Hin). exists ex'.
    destruct (decide (xOwner ex = xOwner ex')) as [Heq|]; [|exists y; by rewrite lookup_insert_ne].
    rewrite <- Heq in *. eexists. rewrite lookup_insert_eq. split_and!; [done..|]. simplify_eq. simpl.
    apply elem_of_app. left. apply pending_elem. eauto.
  - intros r' y o' [[<- <-]|[_ Hy]]%lookup_insert_Some Hin; simpl in *; apply lookup_insert_is_Some'.
    + apply elem_of_app in Hin as [[(ob & ? & _) _]%pending_elem|?]; [right; by exists ob|left; set_solver].
    + right. by apply (ri_listed s I r' y).
Qed.
Lemma inv_finish_observer s o ob : realm_inv s → observers s !! o = Some ob → realm_inv (setObserver s o (mkObserver (oExec ob) true)).
Proof.
  intros I Ho. split; simpl; [apply I..| |].
  - intros o' ob' [[<- <-]|[_ Hob]]%lookup_insert_Some; [done|]. by apply (ri_observers s I).
  - intros r x o' Hx Hin. apply lookup_insert_is_Some'. right. by apply (ri_listed s I r x).
Qed.
Lemma inv_stopped s r x : realm_inv s → heap s !! r = Some x → shutDown s (rExec x) = true →
  realm_inv (setRealm s r (withHolding x Nothing true (rObservers x) None)).
Proof.
  intros I Hx Hs. split; simpl.
  - intros b r' Hb. destruct (ri_slots s I _ _ Hb) as (y & Hy & <-). destruct (decide (r = r')) as [<-|]; simplify_eq;
      [eexists; by rewrite lookup_insert_eq|exists y; by rewrite lookup_insert_ne].
  - intros r' e Hrun. destruct (decide (r = r')) as [<-|]; [by destruct (shut_down_quiet _ _ _ _ I Hx Hs Hrun)|].
    destruct (ri_live s I r' e Hrun) as (y & Hy & He). exists y. by rewrite lookup_insert_ne.
  - intros r' y e [[<- <-]|[_ Hy]]%lookup_insert_Some; [done|by eapply (ri_held s I)].
  - intros r' y e [[<- <-]|[_ Hy]]%lookup_insert_Some; [done|by apply (ri_preparing s I r')].
  - intros o ob Hob Hf. destruct (ri_observers s I _ _ Hob Hf) as (ex & y & Hex & Hy & Hin). exists ex.
    destruct (decide (r = xOwner ex)) as [->|]; [|exists y; by rewrite lookup_insert_ne].
    simplify_eq. eexists. rewrite lookup_insert_eq. by split_and!.
  - intros r' y o [[<- <-]|[_ Hy]]%lookup_insert_Some; simpl; [by apply (ri_listed s I r)|by apply (ri_listed s I r')].
Qed.
Lemma inv_prepare s b r s' : realm_inv s → PrepareRealm s b r = Some s' → realm_inv s'.
Proof.
  unfold PrepareRealm. intros I. destruct (slots s !! b) eqn:Hb; [by intros [= <-]|]. case_decide as Hr; [|done]. intros [= <-]. split; simpl.
  - intros b' r' [[<- <-]|[_ Hs]]%lookup_insert_Some; [eexists; by rewrite lookup_insert_eq|].
    destruct (ri_slots s I _ _ Hs) as (y & Hy & ?). exists y. rewrite lookup_insert_ne; naive_solver.
  - intros r' e Hrun. destruct (ri_live s I r' e Hrun) as (y & Hy & ?). exists y. rewrite lookup_insert_ne; naive_solver.
  - intros r' y e [[<- <-]|[_ Hy]]%lookup_insert_Some; [done|by eapply (ri_held s I)].
  - intros r' y e [[<- <-]|[_ Hy]]%lookup_insert_Some; [done|by apply (ri_preparing s I r')].
  - intros o ob Hob Hf. destruct (ri_observers s I _ _ Hob Hf) as (ex & y & Hex & Hy & Hin). exists ex, y. rewrite lookup_insert_ne; naive_solver.
  - intros r' y o [[<- <-]|[_ Hy]]%lookup_insert_Some; [by intros ?%elem_of_nil|by eapply (ri_listed s I r')].
Qed.
Lemma inv_release s b obs s' : realm_inv s → releaseDone s b obs = Some s' → realm_inv s'.
Proof.
  unfold releaseDone. intros I. case_decide; [|done]. intros [= <-]. destruct I as [Hs ? ? ? ? ?]. split; simpl; try done.
  intros b' r [_ ?]%lookup_delete_Some. by apply Hs.
Qed.

Lemma realm_inv_step s s' : realm_step s s' → realm_inv s → realm_inv s'.
Proof.
  intros Hst I. destruct Hst.
  - by eapply inv_prepare.
  - destruct (bind_spec _ _ _ _ H) as [->|(x & Hx & Hp & Hn & Hs & ->)]; [done|]. by eapply inv_realm_moves.
  - by eapply inv_create.
  - destruct (create_failed_spec _ _ _ _ _ H) as [->|[? ->]]; [done|by apply inv_left_behind].
  - by eapply inv_bound.
  - destruct (bind_failed_spec _ _ _ H) as (x & e & Hx & Hp & ->). eapply inv_realm_moves; [done..| |done|done].
    simpl. by destruct (ri_preparing s I _ _ _ Hx Hp) as [-> _].
  - destruct (observe_spec _ _ _ _ H) as (x & ob & ex & Hx & Hp & Ho & Hex & Hd & Hown & ->).
    pose proof (inv_finish_observer _ _ _ I Ho). case_decide; [by apply inv_set_status|done].
  - destruct (stop_spec _ _ _ _ _ H) as (x & Hx & Hp & [(_ & _ & ->)|(_ & Hs & ->)]); [by eapply inv_realm_moves|].
    by apply inv_set_status, inv_stopped.
  - by eapply inv_release.
  - by eapply inv_exec_moves.
  - by eapply inv_exec_moves.
  - by eapply inv_exec_moves.
Qed.
Lemma realm_inv_reach s : realm_reach s → realm_inv s.
Proof.
  intros H. assert (∀ s t, rtc realm_step s t → realm_inv s → realm_inv t) as Hgen.
  { induction 1; [done|]. intros ?. eauto using realm_inv_step. }
  eapply Hgen; [exact H|apply realm_inv_init].
Qed.

(** ** The published status *)

Lemma only_back s s' r x x' : heap s !! r = Some x → heap s' = <[r := x']> (heap s) → rBed x' = rBed x → onlyRealm s' r x' → onlyRealm s r x.
Proof.
  intros Hx Hheap Hb Hu r'' z Hz Hbz. destruct (decide (r'' = r)) as [|Hne]; [done|].
  apply (Hu r'' z); [by rewrite Hheap, lookup_insert_ne|congruence].
Qed.
(** One realm changes; its own clauses remain to be shown. *)
Lemma status_changes s s' r x' : status_inv s → heap s' = <[r := x']> (heap s) → (∀ x, heap s !! r = Some x → rBed x = rBed x') →
  (∀ b, b ≠ rBed x' → statuses s' !! b = statuses s !! b) → (∀ e ex, execs s !! e = Some ex → execs s' !! e = Some ex) →
  (∀ o ob, observers s !! o = Some ob → observers s' !! o = Some ob) →
  (∀ e, onlyRealm s' r x' → rExec x' = Held e → rPreparing x' = None → ∃ st ex, statuses s' !! rBed x' = Some (mkStatus (Some e) st) ∧ execs s' !! e = Some ex ∧
      (watched s' (rObservers x') e ∨ xDone ex = true ∧ st = xState ex)) →
  (rExec x' = Nothing → rStopped x' = true → statuses s' !! rBed x' = Some (mkStatus None StateStopped)) → status_inv s'.
Proof.
  intros I Hheap Hbed Hst Hex Hobs Hheld Hstop.
  assert (Hold : ∀ r' y, r' ≠ r → heap s' !! r' = Some y → onlyRealm s' r' y →
    heap s !! r' = Some y ∧ onlyRealm s r' y ∧ statuses s' !! rBed y = statuses s !! rBed y).
  { intros r' y Hne Hy Hu. rewrite Hheap, lookup_insert_ne in Hy by done. split_and!; [done| |].
    - intros r'' z Hz Hb. destruct (decide (r'' = r)) as [->|].
      + apply (Hu r x'); [by rewrite Hheap, lookup_insert_eq|]. by rewrite <- (Hbed _ Hz).
      + apply (Hu r'' z); [|done]. by rewrite Hheap, lookup_insert_ne.
    - apply Hst. intros Heq. apply Hne. symmetry. apply (Hu r x'); [by rewrite Hheap, lookup_insert_eq|done]. }
  split.
  - intros r' y e Hy Hu He Hp. destruct (decide (r' = r)) as [->|Hne].
    { rewrite Hheap, lookup_insert_eq in Hy. simplify_eq. by apply Hheld. }
    destruct (Hold _ _ Hne Hy Hu) as (Hy' & Hu' & ->). destruct (si_held s I _ _ _ Hy' Hu' He Hp) as (st & ex & H1 & H2 & H3).
    exists st, ex. split_and!; [done|by apply Hex|]. destruct H3 as [(o & Hin & Ho)|?]; [left; exists o; auto|by right].
  - intros r' y Hy Hu He Hp. destruct (decide (r' = r)) as [->|Hne].
    { rewrite Hheap, lookup_insert_eq in Hy. simplify_eq. by apply Hstop. }
    destruct (Hold _ _ Hne Hy Hu) as (Hy' & Hu' & ->). by eapply (si_stopped s I).
Qed.
Lemma status_exec_moves s e x x' : status_inv s → execs s !! e = Some x → (xDone x = true → xDone x' = true ∧ xState x' = xState x) →
  status_inv (setExec s e x').
Proof.
  intros I Hx Hd. split; [|apply I]. intros r y e' Hy Hu He Hp. destruct (si_held s I _ _ _ Hy Hu He Hp) as (st & ex & H1 & H2 & H3).
  destruct (decide (e = e')) as [<-|]; [|exists st, ex; simpl; by rewrite lookup_insert_ne].
  exists st, x'. simpl. rewrite lookup_insert_eq. simplify_eq. split_and!; [done..|]. destruct H3 as [?|[? ->]]; [by left|right]. naive_solver.
Qed.
Lemma status_observe s r o s' : realm_inv s → status_inv s → observeExit s r o = Some s' → status_inv s'.
Proof.
  intros R I (x & ob & ex & Hx & Hp & Ho & Hex & Hd & Hown & ->)%observe_spec. cbv zeta.
  set (t := setObserver s o _).
  assert (Hw : ∀ l e, e ≠ oExec ob → watched s l e → watched t l e).
  { intros l e Hne (o' & Hin & Ho'). exists o'. split; [done|]. simpl. rewrite lookup_insert_ne; [done|]. intros ->. naive_solver. }
  assert (Hself : ∀ r' y e, heap s !! r' = Some y → rExec y = Held e → e = oExec ob → r' = r).
  { intros r' y e Hy He ->. destruct (ri_held s R r' y (oExec ob)) as (ex' & ? & ? & _); [done|by rewrite He|]. congruence. }
  split.
  - intros r' y e Hy Hu He Hp'. assert (Hy' : heap s !! r' = Some y) by (by case_decide).
    assert (Hu' : onlyRealm s r' y) by (intros ? ? ?; apply Hu; by case_decide).
    destruct (si_held s I _ _ _ Hy' Hu' He Hp') as (st & ex' & H1 & H2 & H3).
    destruct (decide (e = oExec ob)) as [->|Hne].
    + assert (r' = r) as -> by (by eapply Hself). simplify_eq. rewrite decide_True by done. simpl. eexists _, _.
      rewrite lookup_insert_eq. split_and!; [done|done|]. by right.
    + exists st, ex'. split_and!; [|by case_decide|].
      * case_decide as Hd'; [|done]. simpl. rewrite lookup_insert_ne; [done|]. intros Hb. apply Hne.
        assert (r = r') as <- by (by apply (Hu' r x)). assert (x = y) as -> by congruence. congruence.
      * destruct H3 as [H3|?]; [|by right]. left. apply (Hw _ _ Hne) in H3. by case_decide.
  - intros r' y Hy Hu He Hst. assert (Hy' : heap s !! r' = Some y) by (by case_decide).
    assert (Hu' : onlyRealm s r' y) by (intros ? ? ?; apply Hu; by case_decide).
    pose proof (si_stopped s I _ _ Hy' Hu' He Hst). case_decide as Hd'; [|done]. simpl. rewrite lookup_insert_ne; [done|].
    intros Hb. assert (r = r') as <- by (by apply (Hu' r x)). assert (x = y) as -> by congruence. congruence.
Qed.

Lemma status_inv_step s s' : realm_step s s' → realm_inv s → status_inv s → status_inv s'.
Proof.
  intros Hst R I. destruct Hst.
  - unfold PrepareRealm in H. destruct (slots s !! b) eqn:Hb; [by simplify_eq|]. case_decide as Hr; simplify_eq.
    eapply status_changes; [exact I|simpl; done|..]; simpl; try done. by rewrite Hr.
  - destruct (bind_spec _ _ _ _ H) as [->|(x & Hx & Hp & Hn & Hs & ->)]; [done|].
    eapply status_changes; [exact I|simpl; done|..]; simpl; try done; [by intros ? ?; simplify_eq|congruence..].
  - destruct (create_spec _ _ _ _ H) as (x & Hx & Hp & Hs & _ & He & ->).
    eapply status_changes; [exact I|simpl; done|..]; simpl; try done; [by intros ? ?; simplify_eq|].
    intros e' ex Hex. rewrite lookup_insert_ne; [done|congruence].
  - destruct (create_failed_spec _ _ _ _ _ H) as [->|[He ->]]; [done|]. split; [|apply I].
    intros r' y e' Hy Hu Hh Hp. destruct (si_held s I _ _ _ Hy Hu Hh Hp) as (st & ex & H1 & H2 & H3). exists st, ex.
    split_and!; [done|simpl; rewrite lookup_insert_ne; [done|congruence]|done].
  - destruct (bound_spec _ _ _ _ H) as (x & e & ex & Hx & Hp & Hex & Ho & ->). destruct (ri_preparing s R _ _ _ Hx Hp) as [Hh Hst].
    eapply status_changes; [exact I|simpl; done|..]; simpl; try done; [by intros ? ?; simplify_eq| | |].
    + intros b Hb. by rewrite lookup_insert_ne.
    + intros o' ob Hob. rewrite lookup_insert_ne; [done|congruence].
    + intros e' _ [= <-] _. exists (xState ex), ex. rewrite lookup_insert_eq. split_and!; [done..|]. left. exists o. simpl.
      rewrite lookup_insert_eq. split; [set_solver|done].
  - destruct (bind_failed_spec _ _ _ H) as (x & e & Hx & Hp & ->).
    eapply status_changes; [exact I|simpl; done|..]; simpl; try done. by intros ? ?; simplify_eq.
  - by eapply status_observe.
  - destruct (stop_spec _ _ _ _ _ H) as (x & Hx & Hp & [(_ & Hn & ->)|(_ & Hs & ->)]).
    + eapply status_changes; [exact I|simpl; done|..]; simpl; try done; [by intros ? ?; simplify_eq|].
      intros e Hu Hh _. apply (si_held s I r x e Hx); [|done..]. eapply only_back; [exact Hx|..|exact Hu]; done.
    + eapply status_changes; [exact I|simpl; done|..]; simpl; try done; [by intros ? ?; simplify_eq| |].
      * intros b Hb. by rewrite lookup_insert_ne.
      * intros _ _. by rewrite lookup_insert_eq.
  - unfold releaseDone in H. case_decide; simplify_eq. destruct I as [I1 I2]. split; [exact I1|exact I2].
  - eapply status_exec_moves; [done..|]. congruence.
  - by eapply status_exec_moves.
  - eapply status_exec_moves; [done..|]. congruence.
Qed.

Lemma status_inv_reach s : realm_reach s → status_inv s.
Proof.
  intros H. assert (∀ s t, rtc realm_step s t → realm_inv s → status_inv s → status_inv t) as Hgen.
  { induction 1; [done|]. intros ? ?. eauto using realm_inv_step, status_inv_step. }
  eapply Hgen; [exact H|apply realm_inv_init|apply status_inv_init].
Qed.

(** ** A stopped realm *)

Definition stoppedWith (s : realms) (r : Z) (obs : list Z) (empty : bool) : Prop :=
  ∃ x, heap s !! r = Some x ∧ rStopped x = true ∧ rPreparing x = None ∧ rObservers x = obs ∧ (empty = true → rExec x = Nothing).
Lemma stopped_step s s' r obs empty : realm_step s s' → stoppedWith s r obs empty → stoppedWith s' r obs empty.
Proof.
  intros Hst (x & Hx & Hs & Hp & Ho & He).
  assert (Hset : ∀ t r' y, heap t = heap s → (r' = r → rStopped y = true ∧ rPreparing y = None ∧ rObservers y = obs ∧ (empty = true → rExec y = Nothing)) →
    stoppedWith (setRealm t r' y) r obs empty).
  { intros t r' y Ht Hy. unfold stoppedWith. simpl. rewrite Ht. destruct (decide (r' = r)) as [->|Hne].
    - exists y. rewrite lookup_insert_eq. naive_solver.
    - exists x. by rewrite lookup_insert_ne. }
  destruct Hst; try (by exists x).
  - unfold PrepareRealm in H. destruct (slots s !! b) eqn:Hb; [simplify_eq; by exists x|]. case_decide as Hr; simplify_eq.
    exists x. simpl. rewrite lookup_insert_ne; [done|congruence].
  - destruct (bind_spec _ _ _ _ H) as [->|(y & Hy & _ & _ & Hf & ->)]; [by exists x|]. apply Hset; [done|]. intros ->. congruence.
  - destruct (create_spec _ _ _ _ H) as (y & Hy & _ & Hf & _ & _ & ->). apply (Hset s); [done|]. intros ->. congruence.
  - destruct (create_failed_spec _ _ _ _ _ H) as [->|[_ ->]]; by exists x.
  - destruct (bound_spec _ _ _ _ H) as (y & e & ex & Hy & Hpy & _ & _ & ->). apply (Hset s); [done|]. intros ->. congruence.
  - destruct (bind_failed_spec _ _ _ H) as (y & e & Hy & Hpy & ->). apply (Hset s); [done|]. intros ->. congruence.
  - destruct (observe_spec _ _ _ _ H) as (y & ob & ex & _ & _ & _ & _ & _ & _ & ->). case_decide; by exists x.
  - destruct (stop_spec _ _ _ _ _ H) as (y & Hy & _ & [(_ & _ & ->)|(_ & _ & ->)]); apply (Hset s); try done; intros ->; simplify_eq; simpl; auto.
  - unfold releaseDone in H. case_decide; simplify_eq. by exists x.
Qed.
Lemma stopped_steps s s' r obs empty : rtc realm_step s s' → stoppedWith s r obs empty → stoppedWith s' r obs empty.
Proof. induction 1; eauto using stopped_step. Qed.

(** [Release] leaves no observer behind: once the realm is stopped, when everything the
    call waits for has finished, no observer of the realm is still to run. *)
Lemma release_leaves_no_observer s s' r obs : realm_reach s → stoppedWith s r obs false → rtc realm_step s s' → pendingObservers s' obs = [] →
  ∀ o ob ex, observers s' !! o = Some ob → execs s' !! oExec ob = Some ex → xOwner ex = r → oFinished ob = true.
Proof.
  intros Hr Hs Hst Hp o ob ex Ho Hex Hown. destruct (oFinished ob) eqn:Hf; [done|exfalso].
  assert (I : realm_inv s') by (apply realm_inv_reach; exact (transitivity (R := rtc realm_step) Hr Hst)). destruct (stopped_steps _ _ _ _ _ Hst Hs) as (x & Hx & _ & _ & Hobs & _).
  destruct (ri_observers s' I o ob Ho Hf) as (ex' & y & Hex' & Hy & Hin). assert (y = x) as -> by congruence. rewrite Hobs in Hin.
  assert (Hin' : o ∈ pendingObservers s' obs) by (apply pending_elem; eauto). rewrite Hp in Hin'. by apply elem_of_nil in Hin'.
Qed.

(** ** Prepared executors *)






(** The published status is that of the executor the realm holds.  For a bed with
    one realm whose lock is free: while it holds a prepared executor the status names
    that executor, and shows its final state unless an observer that will publish it is
    still to run; a stopped, empty realm shows that it is stopped.  An observer of a
    replaced executor never overwrites it. *)
Lemma executor_status_truthful s r x : realm_reach s → heap s !! r = Some x → onlyRealm s r x → rPreparing x = None →
  (∀ e, rExec x = Held e → ∃ st ex, statuses s !! rBed x = Some (mkStatus (Some e) st) ∧ execs s !! e = Some ex ∧ xOwner ex = r ∧
    (watched s (rObservers x) e ∨ xDone ex = true ∧ st = xState ex)) ∧
  (rExec x = Nothing → rStopped x = true → statuses s !! rBed x = Some (mkStatus None StateStopped)).
Proof.
  intros Hr Hx Hu Hp. pose proof (status_inv_reach _ Hr) as I. pose proof (realm_inv_reach _ Hr) as R. split.
  - intros e He. destruct (si_held s I _ _ _ Hx Hu He Hp) as (st & ex & H1 & H2 & H3).
    destruct (ri_held s R r x e Hx) as (ex' & H4 & H5 & _); [by rewrite He|]. assert (ex' = ex) as -> by congruence. by exists st, ex.
  - by apply (si_stopped s I r).
Qed.

(** ** Concrete runs *)

Module DemoRealm.
Definition at_ (s : option realms) : realms := default noRealms s.
Definition s1 := at_ (PrepareRealm noRealms 7 1).
Definition s2 := default noRealms (snd <$> BindRealm s1 1).
Definition s3 := at_ (forCreate s2 1 10).
Definition s4 := at_ (forBound s3 1 100).
(** The executor is lost, its processes end, and it is done. *)
Definition s5 := setExec s4 10 (mkView StateLost true false 1 false).
Definition s6 := setExec s5 10 (mkView StateLost false false 1 false).
Definition s7 := setExec s6 10 (mkView StateLost false true 1 false).
(** It is replaced, and the preparation of the new one fails. *)
Definition s8 := at_ (forCreate s7 1 11).
Definition s9 := at_ (forBindFailed s8 1).
Definition s10 := at_ (observeExit s9 1 100).
End DemoRealm.
Import DemoRealm.

Lemma demo_bound_reach : realm_reach s4.
Proof.
  unfold realm_reach.
  eapply rtc_l; [exact (rs_prepare noRealms 7 1 s1 eq_refl)|]. eapply rtc_l; [exact (rs_bind s1 1 true s2 eq_refl)|].
  eapply rtc_l; [exact (rs_create s2 1 10 s3 eq_refl)|]. eapply rtc_l; [exact (rs_bound s3 1 100 s4 eq_refl)|]. apply rtc_refl.
Qed.
Lemma demo_failed_reach : rtc realm_step s4 s10.
Proof.
  eapply rtc_l; [exact (rs_state s4 10 (created 1 false) StateLost eq_refl eq_refl ltac:(discriminate))|].
  eapply rtc_l; [exact (rs_gone s5 10 (mkView StateLost true false 1 false) eq_refl)|].
  eapply rtc_l; [exact (rs_done s6 10 (mkView StateLost false false 1 false) StateLost eq_refl eq_refl (or_intror eq_refl))|].
  eapply rtc_l; [exact (rs_create s7 1 11 s8 eq_refl)|]. eapply rtc_l; [exact (rs_bind_failed s8 1 s9 eq_refl)|].
  eapply rtc_l; [exact (rs_observe s9 1 100 s10 eq_refl)|]. apply rtc_refl.
Qed.
(** The published status may outlive its executor: when the preparation of a replacement
    fails, the observer of the old executor finds another one in the realm and leaves the
    status as it was, so the bed shows as ready an executor that is done. *)
Lemma failed_preparation_leaves_stale_status : realm_reach s10 ∧ statuses s10 !! 7 = Some (mkStatus (Some 10) StateReady) ∧
  (xDone <$> execs s10 !! 10) = Some true ∧ (oFinished <$> observers s10 !! 100) = Some true.
Proof.
  split; [|by vm_compute]. exact (transitivity (R := rtc realm_step) demo_bound_reach demo_failed_reach).
Qed.

(** A [Create] that fails without cleaning up leaves an executor nobody holds, and the next
    [For] creates another one beside it. *)
Definition l3 := at_ (forCreateFailed s2 1 10 true).
Definition l4 := at_ (forCreate l3 1 11).
Lemma failed_create_overlaps : realm_reach l4 ∧ running l4 1 10 ∧ running l4 1 11.
Proof.
  split; [|split; [by exists (created 1 true)|by exists (created 1 false)]]. unfold realm_reach.
  eapply rtc_l; [exact (rs_prepare noRealms 7 1 s1 eq_refl)|]. eapply rtc_l; [exact (rs_bind s1 1 true s2 eq_refl)|].
  eapply rtc_l; [exact (rs_create_failed s2 1 10 true l3 eq_refl)|]. eapply rtc_l; [exact (rs_create l3 1 11 l4 eq_refl)|]. apply rtc_refl.
Qed.

