(* ===== verification/LocalExecutor.v ===== *)
(** * LocalExecutor: processes that are direct children, and the choice of a backend

    Models [internal/bed/executor/local.go] with [process_wait_linux.go], and
    [selection.go].  The kernel's table of process identifiers is explicit: an identifier
    whose leader has been reaped may belong to anything else afterwards.  The critical
    sections and the stages of a process's [reap] goroutine are steps. *)

From S2P Require Import Prelude Executor.

(** How a process ended, and the outcome that is published. *)
Inductive wait_status := WExited (code : Z) | WSignaled (sig : Z) (core : bool).
Inductive localOutcome := Exited (code : Z) | Signaled (sig : Z) (core : bool) | Lost.
(** The outcome of [reap]; [clean] says that the barrier and [cmd.Wait] gave no other
    error than the exit of the process. *)
Definition reapOutcome (clean : bool) (st : wait_status) : localOutcome :=
  if negb clean then Lost
  else match st with WExited c => Exited c | WSignaled s core => Signaled s core end.

(** Who has a process identifier: the leader of one of our processes, whether it has
    ended, was killed, and has others in its group; or someone else. *)
Inductive occupant := Leader (p : Z) (ended : option wait_status) (killed members : bool) | Foreign.

(** How far [reap] is: waiting for the exit barrier, marked, drained, given up because
    neither the barrier nor the kill worked, or reaped ([left]: others of the group were
    still there). *)
Inductive reapStage := Waiting | Marked (barrier : bool) | Drained (barrier : bool) | Abandoned | Reaped (left : bool).
#[export] Instance reapStage_eq_dec : EqDecision reapStage.
Proof. solve_decision. Defined.
Record localProcess := mkLocal { lpID : string; lpHash : string; lpDrain : bool; lpPid : Z; lpExited : bool; lpStage : reapStage;
  lpOutcome : option localOutcome; lpDone : bool }.
Record localExecutor := mkLocalExec {
  leState : State;
  leStopping : bool;                      (* stopOnce has run *)
  leIndex : gmap string Z;                (* processes, by their identifier *)
  leProcs : gmap Z localProcess;
  leExit : option Exit;
  leDone : bool;
  kern : gmap Z occupant }.
Definition newLocal (kern : gmap Z occupant) : localExecutor := mkLocalExec StateReady false ∅ ∅ None false kern.

Definition withProc (e : localExecutor) (k : Z) (p : localProcess) : localExecutor :=
  mkLocalExec (leState e) (leStopping e) (leIndex e) (<[k := p]> (leProcs e)) (leExit e) (leDone e) (kern e).
Definition withKern (e : localExecutor) (t : gmap Z occupant) : localExecutor :=
  mkLocalExec (leState e) (leStopping e) (leIndex e) (leProcs e) (leExit e) (leDone e) t.
Definition atStage (p : localProcess) (exited : bool) (st : reapStage) : localProcess :=
  mkLocal (lpID p) (lpHash p) (lpDrain p) (lpPid p) exited st (lpOutcome p) (lpDone p).

Inductive local_err := NeedsID | NeedsCommand | NeedsEnv | ContextEnded | NotReadyState (s : State) | Reused | ForkFailed.
#[export] Instance local_err_eq_dec : EqDecision local_err.
Proof. solve_decision. Defined.

(** [start]: [fork] is what the fork gave, a new process [k] with its identifier. *)
Definition startLocal (e : localExecutor) (processID : string) (args : list string) (env : option (list string)) (ctxEnded : bool)
    (hash : string) (drain : bool) (fork : option (Z * Z)) : result local_err Z * localExecutor :=
  if decide (processID = "")%string then (Err NeedsID, e)
  else if decide (args = []) then (Err NeedsCommand, e)
  else if decide (env = None) then (Err NeedsEnv, e)
  else if ctxEnded then (Err ContextEnded, e)
  else if decide (leState e ≠ StateReady) then (Err (NotReadyState (leState e)), e)
  else match leIndex e !! processID with
       | Some k =>
           match leProcs e !! k with
           | Some p => if decide (lpHash p = hash ∧ lpDrain p = drain) then (Ok k, e) else (Err Reused, e)
           | None => (Err Reused, e)
           end
       | None =>
           match fork with
           | None => (Err ForkFailed, e)
           | Some (k, pid) =>
               (Ok k, mkLocalExec (leState e) (leStopping e) (<[processID := k]> (leIndex e))
                        (<[k := mkLocal processID hash drain pid false Waiting None false]> (leProcs e)) (leExit e) (leDone e)
                        (<[pid := Leader k None false false]> (kern e)))
           end
       end.

(** [Signal]: the group it signals, if any. *)
Definition signalLocal (p : localProcess) : option Z := if lpExited p then None else Some (lpPid p).

(** [markExitedBeforeReap] up to the drain: [barrier] is whether the exit barrier held, and
    [killed] whether the kill after a failed one worked; the group it kills comes first. *)
Definition markExited (p : localProcess) (barrier killed : bool) : option Z * localProcess :=
  if barrier then (None, atStage p true (Marked true))
  else if killed then (Some (lpPid p), atStage p true (Marked false))
  else (Some (lpPid p), atStage p (lpExited p) Abandoned).

(** ** What the kernel does *)

Definition killGroup (t : gmap Z occupant) (pid : Z) : gmap Z occupant :=
  match t !! pid with Some (Leader k ended _ members) => <[pid := Leader k ended true members]> t | _ => t end.

(** The stages of [reap] after the mark. *)
Definition drainLocal (e : localExecutor) (k : Z) : option localExecutor :=
  p ← leProcs e !! k;
  match lpStage p, kern e !! lpPid p with
  | Marked b, Some (Leader _ _ _ members) =>
      if decide (lpDrain p = true ∧ members = true) then None else Some (withProc e k (atStage p (lpExited p) (Drained b)))
  | _, _ => None
  end.
Definition reaped (e : localExecutor) (k : Z) (waitErr : bool) : option localExecutor :=
  p ← leProcs e !! k;
  match lpStage p, kern e !! lpPid p with
  | Drained b, Some (Leader _ (Some st) _ members) =>
      Some (withKern (withProc e k (mkLocal (lpID p) (lpHash p) (lpDrain p) (lpPid p) (lpExited p) (Reaped members)
              (Some (reapOutcome (b && negb waitErr) st)) false)) (delete (lpPid p) (kern e)))
  | _, _ => None
  end.
Definition givenUp (p : localProcess) : localProcess :=
  mkLocal (lpID p) (lpHash p) (lpDrain p) (lpPid p) (lpExited p) (lpStage p) (Some Lost) (lpDone p).
Definition publish (p : localProcess) : localProcess :=
  mkLocal (lpID p) (lpHash p) (lpDrain p) (lpPid p) (lpExited p) (lpStage p) (lpOutcome p) true.

(** [Shutdown]: the section that runs once, and the end, when every process is done and
    the control group closed; [finish]. *)
Definition shutdownOnce (e : localExecutor) : localExecutor :=
  if leStopping e then e else mkLocalExec StateDraining true (leIndex e) (leProcs e) (leExit e) (leDone e) (kern e).
Definition allDone (e : localExecutor) : bool := forallb (λ kp : Z * localProcess, lpDone kp.2) (map_to_list (leProcs e)).
Definition finish (e : localExecutor) (st : State) : localExecutor :=
  if decide (leState e = StateStopped ∨ leState e = StateLost) then e
  else mkLocalExec st (leStopping e) (leIndex e) (leProcs e) (Some (mkExit st None)) true (kern e).
Definition shutdownLocal (e : localExecutor) (ctxEnded groupClosed : bool) : option (bool * localExecutor) :=
  if negb (leStopping e) then None
  else if allDone e then Some (if groupClosed then (true, finish e StateStopped) else (false, e))
  else if ctxEnded then Some (false, e) else None.

Inductive local_step : localExecutor → localExecutor → Prop :=
| ls_start e id args env ctx hash drain fork r e' :
    (∀ k pid, fork = Some (k, pid) → leProcs e !! k = None ∧ kern e !! pid = None) →
    startLocal e id args env ctx hash drain fork = (r, e') → local_step e e'
| ls_signal e k p pid kills : leProcs e !! k = Some p → signalLocal p = Some pid →
    local_step e (if kills : bool then withKern e (killGroup (kern e) pid) else e)
| ls_mark e k p barrier killed target p' : leProcs e !! k = Some p → lpStage p = Waiting →
    (barrier = true → ∃ st kl m, kern e !! lpPid p = Some (Leader k (Some st) kl m)) →
    markExited p barrier killed = (target, p') →
    local_step e (withKern (withProc e k p') match target with Some pid => if killed then killGroup (kern e) pid else kern e | None => kern e end)
| ls_drained e k e' : drainLocal e k = Some e' → local_step e e'
| ls_reaped e k err e' : reaped e k err = Some e' → local_step e e'
| ls_lost e k p : leProcs e !! k = Some p → lpStage p = Abandoned → local_step e (withProc e k (givenUp p))
| ls_publish e k p : leProcs e !! k = Some p → is_Some (lpOutcome p) → local_step e (withProc e k (publish p))
| ls_shutdown e : local_step e (shutdownOnce e)
| ls_shut e ctx group ok e' : shutdownLocal e ctx group = Some (ok, e') → local_step e e'
(** The kernel: a leader ends; a group that runs gains members, and loses them; free
    identifiers are taken and given up by others. *)
| ls_ends e k pid st kl m : kern e !! pid = Some (Leader k None kl m) → local_step e (withKern e (<[pid := Leader k (Some st) kl m]> (kern e)))
| ls_forks e k pid en kl m : kern e !! pid = Some (Leader k en kl m) → m = true ∨ en = None ∧ kl = false →
    local_step e (withKern e (<[pid := Leader k en kl true]> (kern e)))
| ls_members_end e k pid en kl m : kern e !! pid = Some (Leader k en kl m) → local_step e (withKern e (<[pid := Leader k en kl false]> (kern e)))
| ls_foreign e pid : kern e !! pid = None → local_step e (withKern e (<[pid := Foreign]> (kern e)))
| ls_foreign_ends e pid : kern e !! pid = Some Foreign → local_step e (withKern e (delete pid (kern e))).
Definition local_reach (e : localExecutor) : Prop := ∃ t, (∀ pid o, t !! pid = Some o → o = Foreign) ∧ rtc local_step (newLocal t) e.

(** ** What always holds *)

Definition unreaped (st : reapStage) : Prop := match st with Reaped _ => False | _ => True end.
Definition marked (st : reapStage) : bool := match st with Waiting | Abandoned => false | _ => true end.
(** A leader that no longer runs user code. *)
Definition quiet (ended : option wait_status) (killed : bool) : Prop := is_Some ended ∨ killed = true.

(** A process against the entry of its identifier. *)
Record proc_ok (k : Z) (p : localProcess) (t : gmap Z occupant) : Prop := {
  po_leader : unreaped (lpStage p) → ∃ en kl m, t !! lpPid p = Some (Leader k en kl m) ∧
    (marked (lpStage p) = true → quiet en kl) ∧ ((∃ b, lpStage p = Drained b) → lpDrain p = true → m = false);
  po_exited : lpExited p = marked (lpStage p);
  po_left : lpStage p = Reaped true → lpDrain p = false;
  po_outcome : is_Some (lpOutcome p) → lpStage p = Abandoned ∧ lpOutcome p = Some Lost ∨ ∃ left, lpStage p = Reaped left;
  po_done : lpDone p = true → is_Some (lpOutcome p) }.
Record local_inv (e : localExecutor) : Prop := {
  li_procs : ∀ k p, leProcs e !! k = Some p → proc_ok k p (kern e);
  li_kern : ∀ pid k en kl m, kern e !! pid = Some (Leader k en kl m) → ∃ p, leProcs e !! k = Some p ∧ lpPid p = pid ∧ unreaped (lpStage p);
  li_state : (leState e = StateReady ↔ leStopping e = false) ∧ (leState e = StateStopped → ∀ k p, leProcs e !! k = Some p → lpDone p = true);
  li_index : ∀ id k, leIndex e !! id = Some k → is_Some (leProcs e !! k) }.

Lemma local_inv_init t : (∀ pid o, t !! pid = Some o → o = Foreign) → local_inv (newLocal t).
Proof.
  intros Ht. split; simpl.
  - intros k p. by rewrite lookup_empty.
  - by intros pid k en kl m ?%Ht.
  - by split.
  - intros id k. by rewrite lookup_empty.
Qed.

(** The entry of a leader changes: it stays quiet, and a quiet one gains no members. *)
Lemma inv_kern_leader e k pid en kl m en' kl' m' : local_inv e → kern e !! pid = Some (Leader k en kl m) →
  (quiet en kl → quiet en' kl') → (quiet en kl → m = false → m' = false) → local_inv (withKern e (<[pid := Leader k en' kl' m']> (kern e))).
Proof.
  intros I Hk Hq Hm. split; simpl; [| |apply I|apply I].
  - intros k' p Hp. destruct (li_procs e I k' p Hp) as [Hl ? ? ? ?]. split; [|done..]. intros Hu. destruct (Hl Hu) as (en0 & kl0 & m0 & Hk0 & Hq0 & Hd0).
    destruct (decide (lpPid p = pid)) as [<-|Hne]; [|exists en0, kl0, m0; by rewrite lookup_insert_ne].
    simplify_eq. exists en', kl', m'. rewrite lookup_insert_eq. split_and!; [done|auto|]. intros [b Hb] Hdr. apply Hm; [|eauto].
    apply Hq0. by rewrite Hb.
  - intros pid' k' en0 kl0 m0. rewrite lookup_insert_Some. intros [[<- [= <- <- <- <-]]|[_ Hk']]; [by eapply (li_kern e I)|by eapply (li_kern e I)].
Qed.
(** Others take or leave an identifier that is not ours. *)
Lemma inv_kern_other e pid o : local_inv e → (kern e !! pid = None ∨ kern e !! pid = Some Foreign) → (o = None ∨ o = Some Foreign) →
  local_inv (withKern e (partial_alter (λ _, o) pid (kern e))).
Proof.
  intros I Hk Ho. split; simpl; [| |apply I|apply I].
  - intros k' p Hp. destruct (li_procs e I k' p Hp) as [Hl ? ? ? ?]. split; [|done..]. intros Hu. destruct (Hl Hu) as (en0 & kl0 & m0 & Hk0 & ?).
    exists en0, kl0, m0. rewrite lookup_partial_alter_ne; [done|]. intros ->. destruct Hk; congruence.
  - intros pid' k' en0 kl0 m0. destruct (decide (pid' = pid)) as [->|Hne].
    + rewrite lookup_partial_alter_eq. destruct Ho; congruence.
    + rewrite lookup_partial_alter_ne by done. apply I.
Qed.
(** A process moves on; [t] is the table afterwards. *)
Lemma inv_proc_moves e k p p' : local_inv e → leProcs e !! k = Some p → lpPid p' = lpPid p → (unreaped (lpStage p) → unreaped (lpStage p')) →
  (lpDone p = true → lpDone p' = true) → proc_ok k p' (kern e) → local_inv (withProc e k p').
Proof.
  intros I Hp Hpid Hu Hd Hok. destruct (li_state e I) as [Hs1 Hs2]. split; simpl.
  - intros k' q. rewrite lookup_insert_Some. intros [[<- <-]|[_ Hq]]; [done|by apply (li_procs e I)].
  - intros pid k' en kl m Hk. destruct (li_kern e I _ _ _ _ _ Hk) as (q & Hq & ? & ?). destruct (decide (k = k')) as [<-|].
    + exists p'. rewrite lookup_insert_eq. simplify_eq. auto.
    + exists q. by rewrite lookup_insert_ne.
  - split; [done|]. intros Hst k' q. rewrite lookup_insert_Some. intros [[<- <-]|[_ Hq]]; [apply Hd; by eapply Hs2|by eapply Hs2].
  - intros id k' Hi. apply lookup_insert_is_Some'. right. by eapply (li_index e I).
Qed.
Lemma with_kern_same e : withKern e (kern e) = e.
Proof. by destruct e. Qed.
Lemma inv_kill e pid : local_inv e → local_inv (withKern e (killGroup (kern e) pid)).
Proof.
  intros I. unfold killGroup. destruct (kern e !! pid) as [[k en kl m|]|] eqn:Hk; rewrite ?with_kern_same; [|done..].
  eapply inv_kern_leader; [done|done| |done]. intros _. by right.
Qed.

Lemma inv_start e id args env ctx hash drain fork r e' : local_inv e →
  (∀ k pid, fork = Some (k, pid) → leProcs e !! k = None ∧ kern e !! pid = None) →
  startLocal e id args env ctx hash drain fork = (r, e') → local_inv e'.
Proof.
  intros I Hf. unfold startLocal. repeat (case_decide; [by intros [= _ <-]|]). destruct ctx; [by intros [= _ <-]|].
  case_decide as Hst; [by intros [= _ <-]|].
  destruct (leIndex e !! id) as [k|]; [destruct (leProcs e !! k); [case_decide|]; by intros [= _ <-]|].
  destruct fork as [[k pid]|]; [|by intros [= _ <-]]. destruct (Hf k pid eq_refl) as [Hk Hpid]. intros [= _ <-].
  destruct (li_state e I) as [Hs1 Hs2]. split; simpl.
  - intros k' p. rewrite lookup_insert_Some. intros [[<- <-]|[Hne Hp]].
    + split; simpl; try done. intros _. exists None, false, false. rewrite lookup_insert_eq. split_and!; [done..|]. by intros [? ?].
    + destruct (li_procs e I k' p Hp) as [Hl ? ? ? ?]. split; [|done..]. intros Hu. destruct (Hl Hu) as (en0 & kl0 & m0 & Hk0 & ?).
      exists en0, kl0, m0. rewrite lookup_insert_ne; [done|]. intros ->. congruence.
  - intros pid' k' en kl m. rewrite lookup_insert_Some. intros [[<- [= <- _ _ _]]|[_ Hk']].
    + eexists. by rewrite lookup_insert_eq.
    + destruct (li_kern e I _ _ _ _ _ Hk') as (q & Hq & ?). exists q. rewrite lookup_insert_ne; [done|congruence].
  - split; [done|]. intros Hstop. congruence.
  - intros id' k'. rewrite lookup_insert_Some. intros [[<- <-]|[_ Hi]]; apply lookup_insert_is_Some'; [by left|right; by eapply (li_index e I)].
Qed.
Lemma inv_mark e k p barrier killed target p' : local_inv e → leProcs e !! k = Some p → lpStage p = Waiting →
  (barrier = true → ∃ st kl m, kern e !! lpPid p = Some (Leader k (Some st) kl m)) → markExited p barrier killed = (target, p') →
  local_inv (withKern (withProc e k p') match target with Some pid => if killed then killGroup (kern e) pid else kern e | None => kern e end).
Proof.
  intros I Hp Hst Hb Hm. pose proof (li_procs e I k p Hp) as [Hl Hx Hleft Ho Hd]. rewrite Hst in *.
  destruct (Hl Logic.I) as (en & kl & m & Hk & _ & _).
  assert (Hno : lpOutcome p = None).
  { destruct (lpOutcome p); [|done]. by destruct Ho as [[??]|[??]]. }
  assert (Hnd : lpDone p = false).
  { destruct (lpDone p); [|done]. rewrite Hno in Hd. by destruct Hd. }
  assert (Hmove : ∀ t p'', local_inv (withKern e t) → proc_ok k p'' t → lpPid p'' = lpPid p → unreaped (lpStage p'') → local_inv (withKern (withProc e k p'') t)).
  { intros t p'' It Hok Hpid Hu. apply (inv_proc_moves (withKern e t) k p p''); auto. by rewrite Hnd. }
  unfold markExited in Hm. destruct barrier; [|destruct killed]; simplify_eq; simpl.
  - destruct Hb as (st & kl' & m' & Hk'); [done|]. apply Hmove; [by rewrite with_kern_same| |done|done].
    split; simpl; rewrite ?Hno, ?Hnd; try done; try (by intros [? ?]). intros _. exists (Some st), kl', m'. split_and!; [done| |by intros [? ?]].
    intros _. left. by eexists.
  - apply Hmove; [by apply inv_kill| |done|done].
    split; simpl; rewrite ?Hno, ?Hnd; try done; try (by intros [? ?]). intros _. exists en, true, m. unfold killGroup. rewrite Hk, lookup_insert_eq.
    split_and!; [done| |by intros [? ?]]. intros _. by right.
  - apply Hmove; [by rewrite with_kern_same| |done|done].
    split; simpl; rewrite ?Hno, ?Hnd; try done; try (by intros [? ?]). intros _. exists en, kl, m. split_and!; [done..|by intros [? ?]].
Qed.
Lemma inv_drained e k e' : local_inv e → drainLocal e k = Some e' → local_inv e'.
Proof.
  unfold drainLocal. intros I. destruct (leProcs e !! k) as [p|] eqn:Hp; [simpl|done]. pose proof (li_procs e I k p Hp) as [Hl Hx Hleft Ho Hd].
  destruct (lpStage p) as [|b|b| |l] eqn:Hst; try done. destruct (Hl Logic.I) as (en & kl & m & Hk & Hq & _). rewrite Hk.
  case_decide as Hdec; [done|]. intros [= <-]. apply (inv_proc_moves e k p); try done; split; simpl; try done.
  - intros _. exists en, kl, m. split_and!; [done|auto|]. intros _ Hdr. destruct m; tauto.
  - intros [[? ?]|[? ?]]%Ho; done.
Qed.
Lemma inv_reaped e k err e' : local_inv e → reaped e k err = Some e' → local_inv e'.
Proof.
  unfold reaped. intros I. destruct (leProcs e !! k) as [p|] eqn:Hp; [simpl|done]. pose proof (li_procs e I k p Hp) as [Hl Hx Hleft Ho Hd].
  destruct (lpStage p) as [|b|b| |l] eqn:Hst; try done. destruct (Hl Logic.I) as (en & kl & m & Hk & Hq & Hm). rewrite Hk.
  destruct en as [st|]; [|done]. intros [= <-].
  assert (Hnd : lpDone p = false).
  { destruct (lpDone p); [|done]. by destruct (Ho (Hd eq_refl)) as [[? ?]|[? ?]]. }
  destruct (li_state e I) as [Hs1 Hs2]. split; simpl.
  - intros k' q. rewrite lookup_insert_Some. intros [[<- <-]|[Hne Hq']].
    + split; simpl; try done; [|eauto]. intros [= ->]. destruct (lpDrain p) eqn:Hdr; [|done]. discriminate (Hm (ex_intro _ b eq_refl) eq_refl).
    + destruct (li_procs e I k' q Hq') as [Hl' ? ? ? ?]. split; [|done..]. intros Hu. destruct (Hl' Hu) as (en0 & kl0 & m0 & Hk0 & ?).
      exists en0, kl0, m0. rewrite lookup_delete_ne; [done|]. intros Heq. rewrite Heq in Hk. congruence.
  - intros pid k' en' kl' m'. rewrite lookup_delete_Some. intros [Hne Hk']. destruct (li_kern e I _ _ _ _ _ Hk') as (q & Hq' & ? & ?).
    exists q. rewrite lookup_insert_ne; [done|]. intros <-. congruence.
  - split; [done|]. intros Hstop. pose proof (Hs2 Hstop k p Hp). congruence.
  - intros id k' Hi. apply lookup_insert_is_Some'. right. by eapply (li_index e I).
Qed.
Lemma inv_shut e ctx group ok e' : local_inv e → shutdownLocal e ctx group = Some (ok, e') → local_inv e'.
Proof.
  unfold shutdownLocal. intros I. destruct (leStopping e) eqn:Hs; [simpl|done]. destruct (allDone e) eqn:Hd; [|by destruct ctx; [intros [= _ <-]|]].
  destruct group; [|by intros [= _ <-]]. intros [= _ <-]. unfold finish. case_decide; [done|]. destruct (li_state e I) as [Hs1 Hs2].
  split; simpl; [apply I|apply I| |apply I]. split; [split; [done|congruence]|]. intros _ k p Hp. unfold allDone in Hd. rewrite forallb_forall in Hd.
  apply (Hd (k, p)). apply list_elem_of_In. by apply elem_of_map_to_list.
Qed.

Lemma local_inv_step e e' : local_step e e' → local_inv e → local_inv e'.
Proof.
  intros Hst I. destruct Hst.
  - by eapply inv_start.
  - destruct kills; [by apply inv_kill|done].
  - by eapply inv_mark.
  - by eapply inv_drained.
  - by eapply inv_reaped.
  - pose proof (li_procs e I k p H) as [Hl Hx Hleft Ho Hd]. apply (inv_proc_moves e k p); try done; by split; simpl; eauto.
  - pose proof (li_procs e I k p H) as [Hl Hx Hleft Ho Hd]. apply (inv_proc_moves e k p); try done; by split.
  - unfold shutdownOnce. destruct (leStopping e) eqn:Hs; [done|]. split; simpl; [apply I|apply I| |apply I]. by split.
  - by eapply inv_shut.
  - eapply inv_kern_leader; [done|exact H| |done]. intros _. left. by eexists.
  - eapply inv_kern_leader; [done|exact H|done|]. intros Hq ->. destruct H0 as [?|[-> ->]]; [done|]. by destruct Hq as [[? ?]|?].
  - by eapply inv_kern_leader.
  - apply (inv_kern_other e pid (Some Foreign)); auto.
  - apply (inv_kern_other e pid None); auto.
Qed.
Lemma local_inv_reach e : local_reach e → local_inv e.
Proof.
  intros (t & Ht & Hr). apply local_inv_init in Ht. revert Ht. generalize (newLocal t) Hr. clear. induction 1; eauto using local_inv_step.
Qed.

(** ** Selection of the backend *)

Inductive toolPolicy := Auto | Off | Required.
#[export] Instance toolPolicy_eq_dec : EqDecision toolPolicy.
Proof. solve_decision. Defined.
(** [Policy.Effective] and [Policy.Validate] of a configured string. *)
Definition effectivePolicy (p : string) : option toolPolicy :=
  if bool_decide (p = "" ∨ p = "auto")%string then Some Auto
  else if bool_decide (p = "off")%string then Some Off
  else if bool_decide (p = "required")%string then Some Required else None.
(** What a probe of the supervisor came to: fine, failed, or failed and still holding
    resources ([ProbeCleanupError]). *)
Inductive probe := ProbeOk | ProbeFailed | ProbeUnclean.
Inductive select_err := BadPolicy | BadBackend | NeedsSupervisor | NoSupervisor | Unclean | CloseFailed | RequiredSupervisor.
(** The factory chosen, with whether its executors get a process namespace of their own,
    and what its status says of that tool. *)
Record factory := mkFactory { fSupervisor : bool; fPrivate : bool; fSelected : bool; fProbed : bool }.

(** [ResolveFactory]: [made] is whether the supervisor factory could be made, [probe1] and
    [probe2] what its probes come to, [closed] whether it could be closed. *)
Definition ResolveFactory (pidns backend : string) (made : bool) (probe1 probe2 : probe) (closed : bool) : result select_err factory :=
  match effectivePolicy pidns with
  | None => Err BadPolicy
  | Some policy =>
      if negb (bool_decide (backend ∈ [""; "auto"; "supervisor"; "local"]%string)) then Err BadBackend
      else
        let private := negb (bool_decide (policy = Off)) in
        if bool_decide (backend = "local"%string) then
          if bool_decide (policy = Required) then Err NeedsSupervisor else Ok (mkFactory false false false false)
        else if negb made then Err NoSupervisor
        else
          let selected := private && match probe1 with ProbeOk => true | _ => false end in
          let settled (r : probe) (private' : bool) : result select_err factory :=
            match r with
            | ProbeOk => Ok (mkFactory true private' selected private)
            | ProbeUnclean => Err Unclean
            | ProbeFailed =>
                if negb closed then Err CloseFailed
                else if bool_decide (backend = "supervisor"%string) || bool_decide (policy = Required) then Err RequiredSupervisor
                else Ok (mkFactory false false selected private)
            end in
          match probe1 with
          | ProbeUnclean => Err Unclean
          | ProbeFailed => if private && bool_decide (policy = Auto) then settled probe2 false else settled ProbeFailed private
          | ProbeOk => settled ProbeOk private
          end
  end.

(** The choice keeps the declared policy: a required namespace or supervisor is given or
    the start fails; a namespace that is switched off is never used; what is reported as
    selected is what executors get; nothing weaker is chosen beside an unclean probe. *)
Lemma factory_keeps_policy pidns backend made p1 p2 closed f : ResolveFactory pidns backend made p1 p2 closed = Ok f →
  (pidns = "required"%string → fSupervisor f = true ∧ fPrivate f = true) ∧ (backend = "supervisor"%string → fSupervisor f = true) ∧
  (backend = "local"%string → fSupervisor f = false) ∧ (pidns = "off"%string → fPrivate f = false) ∧ fSelected f = fPrivate f ∧
  (p1 = ProbeUnclean → backend = "local"%string).
Proof.
  unfold ResolveFactory, effectivePolicy.
  destruct (bool_decide (pidns = "" ∨ pidns = "auto")%string) eqn:E1; [apply bool_decide_eq_true in E1|apply bool_decide_eq_false in E1;
    destruct (bool_decide (pidns = "off")%string) eqn:E2; [apply bool_decide_eq_true in E2|apply bool_decide_eq_false in E2;
    destruct (bool_decide (pidns = "required")%string) eqn:E3; [apply bool_decide_eq_true in E3|done]]];
  (destruct (bool_decide (backend ∈ _)); [simpl|done]);
  (destruct (bool_decide (backend = "local"%string)) eqn:Eb; [apply bool_decide_eq_true in Eb|apply bool_decide_eq_false in Eb]);
  (destruct (bool_decide (backend = "supervisor"%string)) eqn:Es; [apply bool_decide_eq_true in Es|apply bool_decide_eq_false in Es]);
  destruct made, p1, p2, closed; simpl; try done; intros [= <-]; simpl; split_and!; try done; intros; subst; try done; destruct_or?; congruence.
Qed.

(** C21: a local executor signals only its own processes, and ends with all of them.
    Whatever identifiers the kernel reuses, in every reachable state the group that
    [Signal] (hence [Kill] and [Shutdown]) signals, and the one that is killed or drained
    while a process is being waited for, is led by that very process, not yet reaped.
    Once [Shutdown] has succeeded every process has a published outcome and has been
    reaped, unless neither waiting for it nor killing it worked, when it is published as
    lost; a main process that was reaped has left nobody in its group; and nothing is
    started any more. *)
Theorem local_executor_safe e : local_reach e →
  (∀ k p, leProcs e !! k = Some p → ∀ pid,
    signalLocal p = Some pid ∨ lpStage p = Waiting ∧ (markExited p false true).1 = Some pid ∨ (∃ b, lpStage p = Marked b) ∧ pid = lpPid p →
    ∃ en kl m, kern e !! pid = Some (Leader k en kl m)) ∧
  (∀ ctx group e', shutdownLocal e ctx group = Some (true, e') →
    (∀ k p, leProcs e' !! k = Some p → lpDone p = true ∧ is_Some (lpOutcome p) ∧
      (lpStage p = Abandoned ∧ lpOutcome p = Some Lost ∨ ∃ left, lpStage p = Reaped left ∧ (lpDrain p = true → left = false) ∧
        ∀ pid en kl m, kern e' !! pid ≠ Some (Leader k en kl m))) ∧
    ∀ id args env c hash drain fork, (∃ err, startLocal e' id args env c hash drain fork = (Err err, e'))).
Proof.
  intros Hr. pose proof (local_inv_reach _ Hr) as I. split.
  - intros k p Hp pid Hsig. destruct (li_procs e I k p Hp) as [Hl Hx _ _ _].
    assert (unreaped (lpStage p) ∧ pid = lpPid p) as [Hu ->].
    { unfold signalLocal in Hsig. rewrite Hx in Hsig. destruct Hsig as [H|[[-> [= <-]]|[[b ->] ->]]]; [|done..].
      destruct (lpStage p); simpl in *; try done; by simplify_eq. }
    destruct (Hl Hu) as (en & kl & m & Hk & _). by exists en, kl, m.
  - intros ctx group e' Hs. pose proof (inv_shut _ _ _ _ _ I Hs) as I'.
    assert (allDone e' = true ∧ leState e' ≠ StateReady) as [Hd Hst].
    { destruct (li_state e' I') as [Hready _]. unfold shutdownLocal in Hs. destruct (leStopping e) eqn:Hstop; [simpl in Hs|done].
      destruct (allDone e) eqn:Hall; [|by destruct ctx]. destruct group; [|done]. simplify_eq. rewrite Hready. unfold finish.
      case_decide; simpl; by rewrite Hstop. }
    split.
    + intros k p Hp. destruct (li_procs e' I' k p Hp) as [_ _ Hleft Ho Hdo].
      assert (Hpd : lpDone p = true).
      { unfold allDone in Hd. rewrite forallb_forall in Hd. apply (Hd (k, p)). by apply list_elem_of_In, elem_of_map_to_list. }
      split_and!; [done|auto|]. destruct (Ho (Hdo Hpd)) as [?|[lf Hl]]; [by left|right]. exists lf. split_and!; [done| |].
      * intros Hdr. destruct lf; [|done]. by rewrite (Hleft Hl) in Hdr.
      * intros pid en kl m Hk. destruct (li_kern e' I' _ _ _ _ _ Hk) as (q & Hq & _ & Hu). simplify_eq. by rewrite Hl in Hu.
    + intros id args env c hash drain fork. unfold startLocal. repeat (case_decide; [by eexists|]). destruct c; [by eexists|].
      case_decide; [by eexists|congruence].
Qed.

(** ** A concrete run *)

Module DemoLocal.
Definition table : gmap Z occupant := {[ 1 := Foreign ]}.
Definition e0 := newLocal table.
Definition e1 := (startLocal e0 "p" ["/bin/true"%string] (Some []) false "h" true (Some (5, 40))).2.
Definition e2 := withKern e1 (<[40 := Leader 5 (Some (WExited 0)) false false]> (kern e1)).
Definition p5 := mkLocal "p" "h" true 40 false Waiting None false.
Definition e3 := withKern (withProc e2 5 (atStage p5 true (Marked true))) (kern e2).
Definition e4 := default e3 (drainLocal e3 5).
Definition e5 := default e4 (reaped e4 5 false).
Definition e6 := withProc e5 5 (publish (mkLocal "p" "h" true 40 true (Reaped false) (Some (Exited 0)) false)).
Definition e7 := shutdownOnce e6.
End DemoLocal.

Lemma demo_local_reach : local_reach DemoLocal.e7.
Proof.
  exists DemoLocal.table. split.
  { intros pid o. unfold DemoLocal.table. rewrite lookup_singleton_Some. by intros [_ <-]. }
  eapply rtc_l; [eapply (ls_start DemoLocal.e0 "p" ["/bin/true"%string] (Some []) false "h" true (Some (5, 40))); [by intros ? ? [= <- <-]|reflexivity]|].
  eapply rtc_l; [eapply (ls_ends DemoLocal.e1 5 40 (WExited 0) false false); reflexivity|].
  eapply rtc_l; [eapply (ls_mark DemoLocal.e2 5 DemoLocal.p5 true false None); [reflexivity|reflexivity|by intros _; eexists _, _, _|reflexivity]|].
  eapply rtc_l; [exact (ls_drained DemoLocal.e3 5 DemoLocal.e4 eq_refl)|]. eapply rtc_l; [exact (ls_reaped DemoLocal.e4 5 false DemoLocal.e5 eq_refl)|].
  eapply rtc_l; [eapply (ls_publish DemoLocal.e5 5); [reflexivity|by eexists]|]. eapply rtc_l; [exact (ls_shutdown DemoLocal.e6)|]. apply rtc_refl.
Qed.
(** Witness of [local_executor_safe]. *)
Lemma local_executor_safe_witness : ∃ e', shutdownLocal DemoLocal.e7 false true = Some (true, e') ∧
  ∀ k p, leProcs e' !! k = Some p → lpDone p = true.
Proof.
  eexists. split; [reflexivity|]. intros k p Hp.
  exact (proj1 (proj1 (proj2 (local_executor_safe _ demo_local_reach) false true _ eq_refl) k p Hp)).
Defined.
