(* ===== verification/Admission.v ===== *)
(** * Admission: carrier pressure and new work

    Models [internal/bed/resource/admission.go] and [cpu_window.go].  Floating point is
    IEEE binary64 with rounding to nearest even, by the executable specification of the
    standard library; conversions from integers round the same way.  Times and processor
    times are nanoseconds; what the carrier's control group reports is the input.  The
    texts of reasons are kept as the cases they distinguish. *)

From Stdlib Require Import SpecFloat.
From S2P Require Import Prelude.

(** ** Go's float64 *)

Definition fdiv : spec_float → spec_float → spec_float := SFdiv 53 1024.
Definition fmul : spec_float → spec_float → spec_float := SFmul 53 1024.
Definition fadd : spec_float → spec_float → spec_float := SFadd 53 1024.
Definition fsub : spec_float → spec_float → spec_float := SFsub 53 1024.
Definition float64 (n : Z) : spec_float := binary_normalize 53 1024 n 0 false.
Definition fge (a b : spec_float) : bool := SFleb b a.

(** ** The processor window *)

Definition cpuUsageWindowDuration : Z := 10000000000.
Record cpuUsageSample := mkSample { sampleAt : Z; sampleUsage : Z }.
Record cpuUsageWindow := mkWindow { samples : list cpuUsageSample; windowLimit : spec_float }.
Definition emptyWindow : cpuUsageWindow := mkWindow [] (S754_zero false).

(** The loop that drops samples before the boundary interval. *)
Fixpoint dropOld (cutoff : Z) (l : list cpuUsageSample) : list cpuUsageSample :=
  match l with
  | first :: ((next :: _) as rest) => if sampleAt next <=? cutoff then dropOld cutoff rest else l
  | _ => l
  end.
(** Whether a sample starts a new history after the last one. *)
Definition incomparable (w : cpuUsageWindow) (last : cpuUsageSample) (now usage : Z) (limit : spec_float) : bool :=
  (usage <? sampleUsage last) || (now <=? sampleAt last) || negb (SFeqb limit (windowLimit w)).

Definition windowUsage (l : list cpuUsageSample) (cutoff now usage : Z) (limit : spec_float) : option spec_float :=
  match l with
  | first :: next :: _ =>
      let '(start, baseline) :=
        if sampleAt first <? cutoff then
          (cutoff, fadd (float64 (sampleUsage first))
                     (fdiv (fmul (float64 (sampleUsage next - sampleUsage first)) (float64 (cutoff - sampleAt first)))
                           (float64 (sampleAt next - sampleAt first))))
        else (sampleAt first, float64 (sampleUsage first)) in
      Some (fmul (fdiv (fdiv (fsub (float64 usage) baseline) (float64 (now - start))) limit) (float64 100))
  | _ => None
  end.
Definition addSample (w : cpuUsageWindow) (now usage : Z) (limit : spec_float) : option spec_float * cpuUsageWindow :=
  if SFleb limit (S754_zero false) then (None, emptyWindow)
  else
    let history := match last (samples w) with
                   | Some s => if incomparable w s now usage limit then [] else samples w
                   | None => samples w
                   end in
    let cutoff := now - cpuUsageWindowDuration in
    let l := dropOld cutoff (history ++ [mkSample now usage]) in
    (windowUsage l cutoff now usage limit, mkWindow l limit).

(** ** Configuration *)

Record AdmissionConfig := mkAdmissionConfig { cpuPressureT : Z; memoryPressureT : Z; cpuT : Z; memoryT : Z }.
Definition validThreshold (t : Z) : bool := negb ((t <? 0) || (100 <? t)).
Definition pressureBeforeAdmission (pressure admission : Z) : bool := negb ((0 <? pressure) && (0 <? admission) && (admission <=? pressure)).
Definition ValidateAdmission (c : AdmissionConfig) : bool :=
  validThreshold (cpuPressureT c) && validThreshold (memoryPressureT c) && validThreshold (cpuT c) && validThreshold (memoryT c)
  && pressureBeforeAdmission (cpuPressureT c) (cpuT c) && pressureBeforeAdmission (memoryPressureT c) (memoryT c).
Definition admissionEnabled (c : AdmissionConfig) : bool := (0 <? cpuPressureT c) || (0 <? memoryPressureT c) || (0 <? cpuT c) || (0 <? memoryT c).

(** ** Samples and verdicts *)

Record CarrierSnapshot := mkSnapshot { cpuUsage : Z; cpuLimitCores : spec_float; memoryCurrent : Z; memoryLimitBytes : Z }.
Inductive dimension := CPU | Memory.
(** Why: nothing to say, the dimensions that reached their threshold, and the cases of
    [unavailableReason], of a failed snapshot and of disabled admission. *)
Inductive admissionReason := NoReason | Reached (ds : list dimension) | WaitingWindow | NoFiniteLimits | SnapshotFailed | AdmissionDisabled | NoopReason (s : string).
Record AdmissionReport := mkReport {
  repEnabled : bool; repAvailable : bool; repAccepting : bool; repReason : admissionReason; repCPUPressure : bool; repMemoryPressure : bool;
  repCPU : option spec_float;         (* usage in percent, when available *)
  repMemory : option spec_float; repSampledAt : option Z }.
(** The state of [pressureAdmission]; the decision is whether work is admitted, and why not. *)
Record pressureAdmission := mkAdmission { paConfig : AdmissionConfig; paWindow : cpuUsageWindow; paDecision : bool * admissionReason; paReport : AdmissionReport }.

Definition newPressureAdmission (c : AdmissionConfig) : pressureAdmission :=
  mkAdmission c emptyWindow (true, NoReason)
    (mkReport (admissionEnabled c) false true (if admissionEnabled c then NoReason else AdmissionDisabled) false false None None None).
Definition NoopAdmission (why : string) : pressureAdmission :=
  mkAdmission (mkAdmissionConfig 0 0 0 0) emptyWindow (true, NoReason) (mkReport false false true (NoopReason why) false false None None None).

Definition unavailableReason (c : AdmissionConfig) (s : CarrierSnapshot) : admissionReason :=
  if ((0 <? memoryPressureT c) || (0 <? memoryT c)) && (0 <? memoryLimitBytes s) then NoReason
  else if ((0 <? cpuPressureT c) || (0 <? cpuT c)) && SFltb (S754_zero false) (cpuLimitCores s) then WaitingWindow
  else NoFiniteLimits.
Definition reached (usage : option spec_float) (threshold : Z) : bool :=
  match usage with Some u => (0 <? threshold) && fge u (float64 threshold) | None => false end.

Definition sample (a : pressureAdmission) (now : Z) (snapshot : option CarrierSnapshot) : pressureAdmission :=
  let c := paConfig a in
  match snapshot with
  | None => mkAdmission c emptyWindow (true, NoReason) (mkReport true false true SnapshotFailed false false None None (Some now))
  | Some s =>
      let memory := if ((0 <? memoryPressureT c) || (0 <? memoryT c)) && (0 <? memoryLimitBytes s)
                    then Some (fmul (fdiv (float64 (memoryCurrent s)) (float64 (memoryLimitBytes s))) (float64 100)) else None in
      let '(usage, window) := addSample (paWindow a) now (cpuUsage s) (cpuLimitCores s) in
      let cpu := if (0 <? cpuPressureT c) || (0 <? cpuT c) then usage else None in
      let rejected := (if reached memory (memoryT c) then [Memory] else []) ++ (if reached cpu (cpuT c) then [CPU] else []) in
      let available := bool_decide (is_Some cpu) || bool_decide (is_Some memory) in
      let why := match rejected with [] => if available then NoReason else unavailableReason c s | _ => Reached rejected end in
      let accepting := match rejected with [] => true | _ => false end in
      mkAdmission c window (accepting, if accepting then NoReason else why)
        (mkReport true available accepting why (reached cpu (cpuPressureT c)) (reached memory (memoryPressureT c)) cpu memory (Some now))
  end.

(** [NewAdmission], and the samples of [Run] after it. *)
Definition NewAdmission (c : AdmissionConfig) (now : Z) (snapshot : option CarrierSnapshot) : option pressureAdmission :=
  if negb (ValidateAdmission c) then None
  else let a := newPressureAdmission c in Some (if repEnabled (paReport a) then sample a now snapshot else a).
Definition RunAdmission (a : pressureAdmission) (ticks : list (Z * option CarrierSnapshot)) : pressureAdmission :=
  if repEnabled (paReport a) then foldl (λ a t, sample a t.1 t.2) a ticks else a.
Definition CheckAdmission (a : pressureAdmission) : bool := (paDecision a).1.

(** ** The window against the whole history *)

(** The same usage from every comparable sample so far. *)
Definition addFull (w : cpuUsageWindow) (now usage : Z) (limit : spec_float) : option spec_float * cpuUsageWindow :=
  if SFleb limit (S754_zero false) then (None, emptyWindow)
  else
    let history := match last (samples w) with
                   | Some s => if incomparable w s now usage limit then [] else samples w
                   | None => samples w
                   end ++ [mkSample now usage] in
    let cutoff := now - cpuUsageWindowDuration in
    (windowUsage (dropOld cutoff history) cutoff now usage limit, mkWindow history limit).

Lemma drop_old_cons c a b l : dropOld c (a :: b :: l) = if sampleAt b <=? c then dropOld c (b :: l) else a :: b :: l.
Proof. done. Qed.
Lemma drop_old_last c l : last (dropOld c l) = last l.
Proof.
  induction l as [|a [|b l] IH]; [done..|]. rewrite drop_old_cons. destruct (_ <=? _); [|done]. by rewrite IH, last_cons_cons.
Qed.
(** Dropping before a sample is added changes nothing when the boundary only advances. *)
Lemma drop_old_app c c' l s : c <= c' → dropOld c' (dropOld c l ++ [s]) = dropOld c' (l ++ [s]).
Proof.
  intros Hc. induction l as [|a [|b l] IH]; [done..|]. rewrite drop_old_cons. destruct (Z.leb_spec (sampleAt b) c) as [Hb|]; [|done].
  rewrite IH. cbn [app]. rewrite drop_old_cons. by rewrite (proj2 (Z.leb_le (sampleAt b) c')) by lia.
Qed.
Lemma drop_old_nil c l : dropOld c l = [] → l = [].
Proof. destruct l as [|a [|b l]]; [done..|]. intros H. pose proof (drop_old_last c (a :: b :: l)) as Hl. rewrite H, last_cons_cons, last_cons in Hl. by destruct (last l). Qed.

(** The window is the history without what lies before some boundary that is no later
    than ten seconds before its last sample. *)
Definition windows (w full : cpuUsageWindow) : Prop :=
  windowLimit w = windowLimit full ∧ ∃ c, samples w = dropOld c (samples full) ∧ ∀ s, last (samples full) = Some s → c <= sampleAt s - cpuUsageWindowDuration.

Lemma windows_add w full now usage limit : windows w full →
  (addSample w now usage limit).1 = (addFull full now usage limit).1 ∧ windows (addSample w now usage limit).2 (addFull full now usage limit).2.
Proof.
  intros (Hl & c & Hs & Hc). unfold addSample, addFull. destruct (SFleb limit _); [by split; [|split; [|exists 0]]|]. cbn zeta.
  rewrite Hs, drop_old_last. destruct (last (samples full)) as [s|] eqn:Hlast.
  - unfold incomparable. rewrite Hl. destruct (_ || _) eqn:Hi; simpl.
    + split; [done|]. split; [done|]. eexists. split; [reflexivity|]. simpl. by intros ? [= <-].
    + apply orb_false_iff in Hi as [[_ Hi]%orb_false_iff _]. apply Z.leb_gt in Hi. specialize (Hc s eq_refl).
      rewrite drop_old_app by lia. split; [done|]. split; [done|]. eexists. split; [reflexivity|]. simpl.
      rewrite last_snoc. by intros ? [= <-].
  - apply last_None in Hlast. rewrite Hlast in *. simpl. split; [done|]. split; [done|]. eexists. split; [reflexivity|]. simpl. by intros ? [= <-].
Qed.

(** ** Thresholds *)

(** Only positive finite numbers are used as thresholds. *)
Lemma threshold_pairs : forallb (λ p, forallb (λ a, implb ((0 <? p) && (p <? a))
    match float64 p, float64 a with
    | S754_finite false m e, S754_finite false m' e' => (e <? e') || ((e =? e') && (Zpos m <=? Zpos m'))
    | _, _ => false
    end) (seqZ 0 101)) (seqZ 0 101) = true.
Proof. by vm_compute. Qed.
Lemma reached_earlier u p a : 0 < p < a → a <= 100 → fge u (float64 a) = true → fge u (float64 p) = true.
Proof.
  intros Hp Ha. pose proof threshold_pairs as H. rewrite forallb_forall in H. specialize (H p). rewrite <- list_elem_of_In, elem_of_seqZ in H.
  specialize (H ltac:(lia)). rewrite forallb_forall in H. specialize (H a). rewrite <- list_elem_of_In, elem_of_seqZ in H.
  specialize (H ltac:(lia)). rewrite (proj2 (Z.ltb_lt 0 p)), (proj2 (Z.ltb_lt p a)) in H by lia. simpl in H.
  destruct (float64 p) as [| | |[|] m e]; try done. destruct (float64 a) as [| | |[|] m' e']; try done.
  unfold fge, SFleb, SFcompare. destruct u as [[]|[]| |[|] mu eu]; try done.
  apply orb_true_iff in H as [H%Z.ltb_lt|[H1%Z.eqb_eq H2%Z.leb_le]%andb_true_iff].
  - destruct (Z.compare_spec e' eu); destruct (Z.compare_spec e eu); try done; lia.
  - subst e'. destruct (Z.compare_spec e eu); try done. change (Pos.compare_cont Eq m' mu) with (m' ?= mu)%positive. change (Pos.compare_cont Eq m mu) with (m ?= mu)%positive.
    destruct (Pos.compare_spec m' mu); destruct (Pos.compare_spec m mu); try done; lia.
Qed.

(** ** The verdict *)

(** What the whole history of samples gives: the comparable samples, and the usage at the
    last tick. *)
Definition fullTick (st : cpuUsageWindow * option spec_float) (t : Z * option CarrierSnapshot) : cpuUsageWindow * option spec_float :=
  match t.2 with
  | None => (emptyWindow, None)
  | Some s => let '(u, w) := addFull st.1 t.1 (cpuUsage s) (cpuLimitCores s) in (w, u)
  end.
Definition fullHistory (ticks : list (Z * option CarrierSnapshot)) : cpuUsageWindow * option spec_float := foldl fullTick (emptyWindow, None) ticks.
Definition memoryUsage (c : AdmissionConfig) (t : Z * option CarrierSnapshot) : option spec_float :=
  s ← t.2; if ((0 <? memoryPressureT c) || (0 <? memoryT c)) && (0 <? memoryLimitBytes s)
           then Some (fmul (fdiv (float64 (memoryCurrent s)) (float64 (memoryLimitBytes s))) (float64 100)) else None.

(** What a sample leaves, for the tick [t] and the usage [u] of the whole history. *)
Record verdict_ok (c : AdmissionConfig) (full : cpuUsageWindow) (u : option spec_float) (t : Z * option CarrierSnapshot) (a : pressureAdmission) : Prop := {
  vo_config : paConfig a = c;
  vo_window : windows (paWindow a) full;
  vo_enabled : repEnabled (paReport a) = true;
  vo_check : CheckAdmission a = repAccepting (paReport a);
  vo_cpu : repCPU (paReport a) = if (0 <? cpuPressureT c) || (0 <? cpuT c) then u else None;
  vo_memory : repMemory (paReport a) = memoryUsage c t;
  vo_pressure : repCPUPressure (paReport a) = reached (repCPU (paReport a)) (cpuPressureT c) ∧
    repMemoryPressure (paReport a) = reached (repMemory (paReport a)) (memoryPressureT c);
  vo_accepting : repAccepting (paReport a) = negb (reached (repMemory (paReport a)) (memoryT c) || reached (repCPU (paReport a)) (cpuT c)) }.

Lemma sample_verdict a full u t : windows (paWindow a) full →
  verdict_ok (paConfig a) (fullTick (full, u) t).1 (fullTick (full, u) t).2 t (sample a t.1 t.2).
Proof.
  intros Hw. destruct t as [now [s|]]; unfold sample, fullTick; cbn [fst snd].
  - destruct (windows_add _ _ now (cpuUsage s) (cpuLimitCores s) Hw) as [Hu Hw'].
    destruct (addSample (paWindow a) now _ _) as [usage window] eqn:Ea. destruct (addFull full now _ _) as [usage' window'] eqn:Ef.
    simpl in Hu, Hw'. subst usage'. cbn zeta.
    split; simpl; try done. by destruct (reached _ (memoryT (paConfig a))), (reached _ (cpuT (paConfig a))).
  - split; simpl; try done; [by split; [|exists 0]|by repeat case_match].
Qed.

Lemma run_verdict c full u t a ticks : verdict_ok c full u t a →
  verdict_ok c (foldl fullTick (full, u) ticks).1 (foldl fullTick (full, u) ticks).2 (default t (last ticks)) (RunAdmission a ticks).
Proof.
  unfold RunAdmission. intros H. rewrite (vo_enabled _ _ _ _ _ H). revert full u t a H. induction ticks as [|t' ticks IH]; intros full u t a H; [done|].
  cbn [foldl]. rewrite last_cons. pose proof (sample_verdict a full u t' (vo_window _ _ _ _ _ H)) as H'. rewrite (vo_config _ _ _ _ _ H) in H'.
  destruct (fullTick (full, u) t') as [full' u'] eqn:Ef. specialize (IH full' u' t' _ H'). by destruct (last ticks).
Qed.

Lemma full_last_failed st first ticks : (default first (last ticks)).2 = None → (foldl fullTick st (first :: ticks)).2 = None.
Proof.
  destruct ticks as [|t ticks _] using rev_ind.
  - simpl. unfold fullTick. by intros ->.
  - rewrite last_snoc, app_comm_cons, foldl_snoc. simpl. unfold fullTick at 1. by intros ->.
Qed.

(** C26: the admission verdict is the one the samples call for.  After any sequence of
    samples the processor usage reported equals the usage over the last ten seconds of the
    whole comparable history, although the window forgets older samples; work is refused
    exactly when a gated dimension has a usage that reached its threshold; a refusal is
    announced by the pressure signal of that dimension wherever one is configured; a
    sample that failed, and disabled admission, refuse nothing. *)
Theorem admission_verdict_exact c first ticks a :
  NewAdmission c first.1 first.2 = Some a →
  let r := paReport (RunAdmission a ticks) in
  let u := (fullHistory (first :: ticks)).2 in
  let t := default first (last ticks) in
  CheckAdmission (RunAdmission a ticks) = repAccepting r ∧
  (admissionEnabled c = true →
    repCPU r = (if (0 <? cpuPressureT c) || (0 <? cpuT c) then u else None) ∧ repMemory r = memoryUsage c t) ∧
  (CheckAdmission (RunAdmission a ticks) = false ↔ reached (repMemory r) (memoryT c) = true ∨ reached (repCPU r) (cpuT c) = true) ∧
  (reached (repCPU r) (cpuT c) = true → 0 < cpuPressureT c → repCPUPressure r = true) ∧
  (reached (repMemory r) (memoryT c) = true → 0 < memoryPressureT c → repMemoryPressure r = true) ∧
  (t.2 = None ∨ admissionEnabled c = false → CheckAdmission (RunAdmission a ticks) = true).
Proof.
  unfold NewAdmission. destruct (ValidateAdmission c) eqn:Hv; [simpl|done]. destruct (admissionEnabled c) eqn:He; intros [= <-].
  2:{ unfold RunAdmission. simpl. rewrite He. simpl. by split_and!; [|intros ?|split; [|intros [?|?]]|..]. }
  cbv zeta. assert (Hw : windows emptyWindow emptyWindow) by (by split; [|exists 0]).
  pose proof (sample_verdict (newPressureAdmission c) emptyWindow None first Hw) as H0.
  pose proof (run_verdict _ _ _ _ _ ticks H0) as [_ _ _ Hc Hcpu Hmem [Hp1 Hp2] Hacc]. clear H0.
  rewrite <- surjective_pairing in Hcpu.
  unfold ValidateAdmission, validThreshold, pressureBeforeAdmission in Hv.
  assert (Hearly : ∀ o p q, 0 < p → reached o q = true → negb ((0 <? p) && (0 <? q) && (q <=? p)) = true → negb ((q <? 0) || (100 <? q)) = true → reached o p = true).
  { intros o p q Hp Hr Hlt Hq. destruct o as [x|]; [simpl in *|done]. apply andb_true_iff in Hr as [Hq0%Z.ltb_lt Hr].
    rewrite (proj2 (Z.ltb_lt 0 p)) in * by lia. rewrite (proj2 (Z.ltb_lt 0 q)) in Hlt by lia. simpl in *.
    apply negb_true_iff, Z.leb_gt in Hlt. apply negb_true_iff, orb_false_iff in Hq as [_ Hq%Z.ltb_ge]. by eapply reached_earlier. }
  rewrite !andb_true_iff in Hv. destruct Hv as [[[[[_ _] Hv1] Hv2] Hv3] Hv4].
  split_and!; [done|intros _|..].
  - split; [|done]. rewrite Hcpu. done.
  - rewrite Hc, Hacc, negb_false_iff, orb_true_iff. done.
  - intros Hr Hp. rewrite Hp1. by eapply Hearly.
  - intros Hr Hp. rewrite Hp2. by eapply Hearly.
  - intros [Ht|?]; [|done]. rewrite Hc, Hacc, Hmem, Hcpu. unfold memoryUsage. rewrite Ht. simpl.
    change (foldl fullTick _ ticks) with (foldl fullTick (emptyWindow, None) (first :: ticks)). rewrite (full_last_failed _ _ _ Ht). by destruct (0 <? cpuPressureT c), (0 <? cpuT c).
Qed.

(** ** A concrete run *)

Module DemoAdmission.
Definition config := mkAdmissionConfig 60 70 80 90.
Definition snap (usage memory : Z) := mkSnapshot usage (float64 2) memory 1000.
Definition first : Z * option CarrierSnapshot := (1000000000, Some (snap 1000000000 100)).
Definition ticks : list (Z * option CarrierSnapshot) := [(6000000000, Some (snap 11000000000 500)); (12000000000, Some (snap 22000000000 950))].
Definition admission := default (NoopAdmission "") (NewAdmission config first.1 first.2).
End DemoAdmission.
(** Witness of [admission_verdict_exact]: both dimensions are at 95 percent. *)
Lemma admission_verdict_exact_witness :
  CheckAdmission (RunAdmission DemoAdmission.admission DemoAdmission.ticks) = false ∧
  repCPUPressure (paReport (RunAdmission DemoAdmission.admission DemoAdmission.ticks)) = true ∧
  reached (repCPU (paReport (RunAdmission DemoAdmission.admission DemoAdmission.ticks))) 95 = true.
Proof.
  destruct (admission_verdict_exact DemoAdmission.config DemoAdmission.first DemoAdmission.ticks DemoAdmission.admission) as (_ & _ & Hr & Hp & _).
  { by vm_compute. }
  split; [apply Hr; left; by vm_compute|]. split; [apply Hp; by vm_compute|by vm_compute].
Defined.
