(* ===== verification/LocalIdentity.v ===== *)
(** * LocalIdentity: what a bed leaves on the local disk, and its removal

    Models [internal/bed/manager/local_identity.go] with [removeLuggage] of [luggage.go].
    Every operation concerns one name, so the state is that of one name: its directory,
    the directory [.gc-NAME] that removal works on, its record file, its user, and what
    the daemon keeps in memory.  The daemon may stop at any point and recovers from what
    is on disk.  Retries of cleanups run one at a time, and start an attempt only while
    the fence they saw is there. *)

From S2P Require Import Prelude.

(** A tree on disk: whether nothing of it has been removed, and whether it belongs to
    the bed's user. *)
Record localTree := mkTree { whole : bool; owned : bool }.
(** Who is responsible for the name: nobody, a bed that is initializing or resident, or a
    purge, retirement or failed initialization whose runtime has been stopped. *)
Inductive use := Free | Working | Ending.
#[export] Instance use_eq_dec : EqDecision use.
Proof. solve_decision. Defined.
(** Where [removeIdentityTrees] is. *)
Inductive removal := RemoveOld | Claim | RemoveClaimed | LookDir | LookGarbage | ForgetUser | RemoveRecord | DropIdentity.
#[export] Instance removal_eq_dec : EqDecision removal.
Proof. solve_decision. Defined.
Record localCleanup := mkCleanup { removeRoot : bool; running : option removal; cleanupFailed : bool }.
Record localIdentity := mkIdentity { identityID : Z; identityCleanup : option localCleanup }.
Record places := mkPlaces {
  onDisk : option localTree; garbage : option localTree; record : option Z;
  booted : bool; local : option localIdentity; user : option Z; usedBy : use }.

Definition setLocal (s : places) (l : option localIdentity) : places :=
  mkPlaces (onDisk s) (garbage s) (record s) (booted s) l (user s) (usedBy s).
Definition withUse (s : places) (u : use) : places :=
  mkPlaces (onDisk s) (garbage s) (record s) (booted s) (local s) (user s) u.
Definition withTrees (s : places) (d g : option localTree) : places :=
  mkPlaces d g (record s) (booted s) (local s) (user s) (usedBy s).

(** The daemon stops. *)
Definition crash (s : places) : places := mkPlaces (onDisk s) (garbage s) (record s) false None None Free.
(** [recoverLocalIdentities]; [fresh] is a new identity for a directory without record.
    [privileges.Recover] reserves the user that owns what is there. *)
Definition recoverLocal (s : places) (fresh : Z) : places :=
  match onDisk s, garbage s with
  | None, None => mkPlaces None None None true None None Free
  | d, g =>
      let id := default fresh (record s) in
      let isOwned (t : option localTree) := match t with Some t => owned t | None => false end in
      mkPlaces d g (Some id) true
        (Some (mkIdentity id (match g with Some _ => Some (mkCleanup false None false) | None => None end)))
        (if isOwned d || isOwned g then Some id else None) Free
  end.

(** [localIdentityLocked]. *)
Definition identityOr (s : places) (fresh : Z) : localIdentity := default (mkIdentity fresh None) (local s).
(** The part of [beginInitialization] that takes the name. *)
Definition beginInit (s : places) (fresh : Z) : option places :=
  if decide (booted s = true ∧ usedBy s = Free ∧ (l ← local s; identityCleanup l) = None)
  then Some (withUse (setLocal s (Some (identityOr s fresh))) Working) else None.
(** [saveLocalIdentity]. *)
Definition saveRecord (s : places) : option places :=
  l ← local s;
  if decide (usedBy s = Working)
  then Some (mkPlaces (onDisk s) (garbage s) (Some (identityID l)) (booted s) (local s) (user s) (usedBy s)) else None.
(** [privileges.Prepare]. *)
Definition prepareUser (s : places) : option places :=
  l ← local s;
  if decide (usedBy s = Working)
  then Some (mkPlaces (onDisk s) (garbage s) (record s) (booted s) (local s) (Some (identityID l)) (usedBy s)) else None.
(** A bed in use creates, replaces and owns its directory, once its record is saved. *)
Definition writeDir (s : places) (d : option localTree) : option places :=
  l ← local s;
  let fits := match d with Some t => whole t && (negb (owned t) || bool_decide (user s = Some (identityID l))) | None => true end in
  if decide (usedBy s = Working ∧ record s = Some (identityID l) ∧ fits = true)
  then Some (withTrees s d (garbage s)) else None.
Definition takeForPurge (s : places) (fresh : Z) : option places :=
  if decide (booted s = true ∧ usedBy s = Free) then Some (withUse (setLocal s (Some (identityOr s fresh))) Ending) else None.

(** [removeLuggage] up to the attempt. *)
Definition claimLuggage (s : places) (fresh : Z) : option places :=
  if decide (booted s = true ∧ usedBy s = Free ∧ (l ← local s; identityCleanup l) = None)
  then Some (setLocal s (Some (mkIdentity (identityID (identityOr s fresh)) (Some (mkCleanup true None false))))) else None.
(** [cleanLocalIdentity] up to the removal.  Where no cleanup is pending the attempt is made
    under the fence of the caller, a purge, a retirement or a failed initialization, which
    the function itself does not test: [usedBy] is [Ending]. *)
Definition startAttempt (s : places) (root : bool) : option places :=
  l ← local s;
  match identityCleanup l with
  | Some c => match running c with
              | Some _ => None
              | None => Some (setLocal s (Some (mkIdentity (identityID l) (Some (mkCleanup (root || removeRoot c) (Some RemoveOld) false)))))
              end
  | None => if decide (usedBy s = Ending)
            then Some (setLocal s (Some (mkIdentity (identityID l) (Some (mkCleanup root (Some RemoveOld) false))))) else None
  end.
(** Its end. *)
Definition finishAttempt (s : places) (l : localIdentity) (c : localCleanup) (ok : bool) : places :=
  setLocal s (Some (mkIdentity (identityID l) (if ok then None else Some (mkCleanup (removeRoot c) None true)))).

(** One call of [removeIdentityTrees]: it fails, removes a part, or is done. *)
Inductive io := Fails | Partly | Done.
Definition damage (t : option localTree) (stillOwned : bool) : option localTree := (λ t, mkTree false (owned t && stillOwned)) <$> t.
Definition removeStep (s : places) (r : io) (stillOwned : bool) : option places :=
  l ← local s; c ← identityCleanup l; phase ← running c;
  let goto (s : places) (p : removal) := setLocal s (Some (mkIdentity (identityID l) (Some (mkCleanup (removeRoot c) (Some p) false)))) in
  match r with
  | Fails => Some (finishAttempt s l c false)
  | Partly => match phase with
              | RemoveOld | RemoveClaimed => Some (withTrees s (onDisk s) (damage (garbage s) stillOwned))
              | _ => None
              end
  | Done => match phase with
            | RemoveOld => Some (goto (withTrees s (onDisk s) None) (if removeRoot c then Claim else LookDir))
            | Claim => Some (goto match onDisk s with Some t => withTrees s None (Some t) | None => s end RemoveClaimed)
            | RemoveClaimed => Some (goto (withTrees s (onDisk s) None) LookDir)
            | LookDir => Some (match onDisk s with Some _ => finishAttempt s l c true | None => goto s LookGarbage end)
            | LookGarbage => Some (match garbage s with Some _ => finishAttempt s l c true | None => goto s ForgetUser end)
            | ForgetUser => Some (goto (mkPlaces (onDisk s) (garbage s) (record s) (booted s) (local s)
                                          (if decide (user s = Some (identityID l)) then None else user s) (usedBy s)) RemoveRecord)
            | RemoveRecord => Some (goto (mkPlaces (onDisk s) (garbage s) None (booted s) (local s) (user s) (usedBy s)) DropIdentity)
            | DropIdentity => Some (setLocal s None)
            end
  end.

Inductive place_step : places → places → Prop :=
| ps_crash s : place_step s (crash s)
| ps_recover s fresh : booted s = false → place_step s (recoverLocal s fresh)
| ps_init s fresh s' : beginInit s fresh = Some s' → place_step s s'
| ps_record s s' : saveRecord s = Some s' → place_step s s'
| ps_user s s' : prepareUser s = Some s' → place_step s s'
| ps_dir s d s' : writeDir s d = Some s' → place_step s s'
| ps_ends s : usedBy s = Working → place_step s (withUse s Ending)
| ps_leaves s : usedBy s = Ending → place_step s (withUse s Free)
| ps_purge s fresh s' : takeForPurge s fresh = Some s' → place_step s s'
| ps_luggage s fresh s' : claimLuggage s fresh = Some s' → place_step s s'
| ps_attempt s root s' : startAttempt s root = Some s' → place_step s s'
| ps_remove s r o s' : removeStep s r o = Some s' → place_step s s'.
(** The daemon first starts on a disk whose directory is whole. *)
Definition place_reach (s : places) : Prop :=
  ∃ d r, (∀ t, d = Some t → whole t = true) ∧ rtc place_step (mkPlaces d None r false None None Free) s.

(** ** What always holds *)

Definition hasTree (s : places) : Prop := is_Some (onDisk s) ∨ is_Some (garbage s).
Definition ownedTree (s : places) : Prop := ∃ t, (onDisk s = Some t ∨ garbage s = Some t) ∧ owned t = true.
Definition isWhole (s : places) : Prop := ∀ t, onDisk s = Some t → whole t = true.

(** What a running removal has established. *)
Definition passed (s : places) (p : removal) : Prop :=
  match p with
  | RemoveOld | RemoveClaimed => True
  | Claim | LookDir => garbage s = None
  | LookGarbage => onDisk s = None ∧ garbage s = None
  | ForgetUser => onDisk s = None ∧ garbage s = None
  | RemoveRecord => onDisk s = None ∧ garbage s = None ∧ user s = None
  | DropIdentity => onDisk s = None ∧ garbage s = None ∧ user s = None ∧ record s = None
  end.

Record place_inv (s : places) : Prop := {
  pi_whole : isWhole s;
  pi_booted : booted s = true → hasTree s → ∃ l, local s = Some l ∧ record s = Some (identityID l);
  pi_owned : booted s = true → ownedTree s → is_Some (user s);
  pi_user : ∀ u, user s = Some u → ∃ l, local s = Some l ∧ identityID l = u;
  pi_fence : booted s = true → is_Some (garbage s) → ∃ l, local s = Some l ∧ is_Some (identityCleanup l);
  pi_working : usedBy s = Working → ∃ l, local s = Some l ∧ identityCleanup l = None;
  pi_running : ∀ l c p, local s = Some l → identityCleanup l = Some c → running c = Some p → passed s p;
  pi_local : is_Some (local s) → booted s = true }.

Ltac place_simpl := unfold hasTree, ownedTree, isWhole, setLocal, withUse, withTrees in *; simpl in *.

Lemma inv_crash s : place_inv s → place_inv (crash s).
Proof. intros I. split; simpl; try done; try (by intros [? ?]). apply I. Qed.
Lemma inv_recover s fresh : place_inv s → booted s = false → place_inv (recoverLocal s fresh).
Proof.
  intros I Hb. pose proof (pi_whole s I) as Hw. unfold recoverLocal. unfold isWhole in Hw.
  destruct (onDisk s) as [d|] eqn:Hd, (garbage s) as [g|] eqn:Hg; split; place_simpl; try done; try (by intros; destruct_or?); eauto.
  all: try (intros _ (t & [Ht|Ht] & Ho); simplify_eq; rewrite ?Ho, ?orb_true_r; by eexists).
  all: try (intros u Hu; repeat case_match; simplify_eq; by eexists).
  all: try (intros l c p [= <-] [= <-]; done).
  all: try (intros _ [? ?]; done).
  all: try (intros _ [[? ?]|[? ?]]; done).
  all: try (intros _ (t & [?|?] & _); done).
Qed.

(** Only the identity and its user change hands. *)
Lemma inv_take s fresh u : place_inv s → booted s = true → usedBy s = Free → (u = Working → (l ← local s; identityCleanup l) = None) →
  place_inv (withUse (setLocal s (Some (identityOr s fresh))) u).
Proof.
  intros I Hb Hu Hw. assert (Hsame : ∀ l, local s = Some l → identityOr s fresh = l) by (intros l Hl; unfold identityOr; by rewrite Hl).
  split; place_simpl; try apply I; try done.
  - intros _ Ht. destruct (pi_booted s I Hb Ht) as (l & Hl & ?). exists l. by rewrite (Hsame l Hl).
  - intros v (l & Hl & ?)%(pi_user s I). exists l. by rewrite (Hsame l Hl).
  - intros _ Hg. destruct (pi_fence s I Hb Hg) as (l & Hl & ?). exists l. by rewrite (Hsame l Hl).
  - intros ->. eexists. split; [done|]. specialize (Hw eq_refl). unfold identityOr. by destruct (local s).
  - intros l c p [= <-] Hc Hr. unfold identityOr in Hc. destruct (local s) as [l|] eqn:Hl; [|done]. by eapply (pi_running s I).
Qed.
(** Only the cleanup of the identity changes. *)
Lemma inv_cleanup s l c : place_inv s → local s = Some l → (usedBy s ≠ Working) → (is_Some (garbage s) → is_Some c) →
  (∀ c' p, c = Some c' → running c' = Some p → passed s p) → place_inv (setLocal s (Some (mkIdentity (identityID l) c))).
Proof.
  intros I Hl Hu Hg Hp. split; place_simpl; try apply I; try done.
  - intros Hb Ht. destruct (pi_booted s I Hb Ht) as (l' & Hl' & ?). simplify_eq. by eexists.
  - intros v (l' & Hl' & ?)%(pi_user s I). simplify_eq. by eexists.
  - intros Hb Hgb. eexists. split; [done|]. by apply Hg.
  - intros l' c' p [= <-] [= ->] Hr. by eapply Hp.
  - intros _. apply (pi_local s I). by eexists.
Qed.
Lemma not_working s l c : place_inv s → local s = Some l → identityCleanup l = Some c → usedBy s ≠ Working.
Proof. intros I Hl Hc Hw. destruct (pi_working s I Hw) as (l' & ? & ?). congruence. Qed.
(** Removal works on the garbage. *)
Lemma inv_garbage s l c p g : place_inv s → local s = Some l → identityCleanup l = Some c → running c = Some p →
  p = RemoveOld ∨ p = RemoveClaimed → (∀ t, g = Some t → owned t = true → ∃ t', garbage s = Some t' ∧ owned t' = true) →
  (is_Some g → is_Some (garbage s)) → place_inv (withTrees s (onDisk s) g).
Proof.
  intros I Hl Hc Hr Hp Ho Hs. split; place_simpl; try apply I.
  - intros Hb [Ht|Ht]; apply (pi_booted s I Hb); [by left|right; auto].
  - intros Hb (t & [Ht|Ht] & Hot); apply (pi_owned s I Hb); [by exists t; auto|].
    destruct (Ho t Ht Hot) as (t' & ? & ?). exists t'. auto.
  - intros Hb Hg. apply (pi_fence s I Hb). auto.
  - intros l' c' p' Hl' Hc' Hr'. simplify_eq. by destruct Hp as [->| ->].
Qed.

(** The next phase, for a state that still has the identity. *)
Lemma inv_goto s l c p : place_inv s → local s = Some l → is_Some (identityCleanup l) → passed s p →
  place_inv (setLocal s (Some (mkIdentity (identityID l) (Some (mkCleanup (removeRoot c) (Some p) false))))).
Proof.
  intros I Hl [c0 Hc] Hp. apply inv_cleanup; [done|done|by eapply not_working|done|]. by intros c' p' [= <-] [= <-].
Qed.
(** The directory becomes the garbage. *)
Lemma inv_claim s l c t : place_inv s → local s = Some l → identityCleanup l = Some c → running c = Some RemoveClaimed →
  onDisk s = Some t → place_inv (withTrees s None (Some t)).
Proof.
  intros I Hl Hc Hr Hd. split; place_simpl; try apply I; try done.
  - intros Hb _. apply (pi_booted s I Hb). left. by eexists.
  - intros Hb (t' & [Ht|[= <-]] & Ho); [done|]. apply (pi_owned s I Hb). exists t. auto.
  - intros _ _. exists l. split; [done|]. by eexists.
  - intros l' c' p' Hl' Hc' Hr'. by simplify_eq.
Qed.
Lemma damage_inv g o : (∀ t, damage g o = Some t → owned t = true → ∃ t', g = Some t' ∧ owned t' = true) ∧ (is_Some (damage g o) → is_Some g).
Proof.
  unfold damage. destruct g as [g|]; simpl; [|by split]. split; [|by eauto]. intros t [= <-]. simpl. intros [? _]%andb_true_iff. eauto.
Qed.
(** The last phases: nothing is left on disk. *)
Lemma inv_gone s l : place_inv s → local s = Some l → onDisk s = None → garbage s = None → usedBy s ≠ Working → ∀ l' u r,
  (l' = None → u = None) → (u = None ∨ u = user s) → (∀ x, l' = Some x → identityID x = identityID l ∧
    ∀ c p, identityCleanup x = Some c → running c = Some p → passed (mkPlaces None None r (booted s) l' u (usedBy s)) p) →
  place_inv (mkPlaces (onDisk s) (garbage s) r (booted s) l' u (usedBy s)).
Proof.
  intros I Hl Hd Hg Hw l' u r Hn Hu Hx. rewrite Hd, Hg. split; simpl; try done.
  - by intros _ [[? ?]|[? ?]].
  - by intros _ (t & [?|?] & _).
  - intros v ->. destruct l' as [x|]; [|by discriminate Hn]. exists x. split; [done|]. destruct Hu as [?|Hu]; [done|].
    destruct (pi_user s I v) as (l0 & Hl0 & <-); [congruence|]. simplify_eq. by apply Hx.
  - intros x c p Hx' Hc Hr. destruct (Hx x Hx') as [_ H]. by eapply H.
  - intros _. apply (pi_local s I). by eexists.
Qed.
Lemma inv_remove s r o s' : place_inv s → removeStep s r o = Some s' → place_inv s'.
Proof.
  intros I. unfold removeStep. destruct (local s) as [l|] eqn:Hl; [simpl|done]. destruct (identityCleanup l) as [c|] eqn:Hc; [simpl|done].
  destruct (running c) as [p|] eqn:Hr; [simpl|done]. pose proof (pi_running s I l c p Hl Hc Hr) as Hp. pose proof (not_working s l c I Hl Hc) as Hnw.
  assert (His : is_Some (identityCleanup l)) by (by eexists).
  assert (Hfin : ∀ ok, (ok = true → garbage s = None) → place_inv (finishAttempt s l c ok)).
  { intros ok Hok. apply inv_cleanup; [done..| |].
    - intros [g Hg]. destruct ok; [rewrite Hok in Hg by done; done|by eexists].
    - intros c' p' Hc' Hr'. destruct ok; simplify_eq; done. }
  assert (Htree : ∀ g, p = RemoveOld ∨ p = RemoveClaimed → (∀ t, g = Some t → owned t = true → ∃ t', garbage s = Some t' ∧ owned t' = true) →
    (is_Some g → is_Some (garbage s)) → place_inv (withTrees s (onDisk s) g)).
  { intros g Hp' ? ?. by eapply inv_garbage. }
  assert (Hclear : p = RemoveOld ∨ p = RemoveClaimed → place_inv (withTrees s (onDisk s) None)).
  { intros Hp'. apply Htree; [done|done|by intros [? ?]]. }
  destruct r; [intros Hs; injection Hs as <-; by apply Hfin| |].
  { destruct (damage_inv (garbage s) o). destruct p; try done; intros Hs; injection Hs as <-; apply Htree; auto. }
  destruct p; simpl in Hp; intros Hs; injection Hs as <-.
  - apply (inv_goto (withTrees s (onDisk s) None)); [by apply Hclear; left|done|done|]. by destruct (removeRoot c).
  - pose proof (inv_goto s l c RemoveClaimed I Hl His Logic.I) as Ig. destruct (onDisk s) as [t|] eqn:Hd; [|done].
    exact (inv_claim _ _ _ t Ig eq_refl eq_refl eq_refl Hd).
  - apply (inv_goto (withTrees s (onDisk s) None)); [by apply Hclear; right|done..].
  - destruct (onDisk s) eqn:Hd; [by apply Hfin|by apply inv_goto].
  - rewrite (proj2 Hp). by apply inv_goto.
  - destruct Hp as [Hd Hg]. apply (inv_gone s l I Hl Hd Hg Hnw); [done| |].
    + case_decide; auto.
    + intros x [= <-]. split; [done|]. simpl. intros c' p' [= <-] [= <-]. simpl. split_and!; [done..|]. case_decide as Hu; [done|].
      destruct (user s) as [v|] eqn:Huv; [|done]. destruct (pi_user s I v Huv) as (l0 & ? & <-). simplify_eq.
  - destruct Hp as (Hd & Hg & Hu). apply (inv_gone s l I Hl Hd Hg Hnw); [done|by right|]. intros x [= <-]. split; [done|]. simpl. by intros c' p' [= <-] [= <-].
  - destruct Hp as (Hd & Hg & Hu & Hrec). apply (inv_gone s l I Hl Hd Hg Hnw); [done|by right|done].
Qed.

(** A bed in use changes its directory, record and user. *)
Lemma inv_working s l d r u : place_inv s → usedBy s = Working → local s = Some l → (∀ t, d = Some t → whole t = true ∧ (owned t = true → is_Some u)) →
  (is_Some d → r = Some (identityID l)) → (u = user s ∨ u = Some (identityID l)) → place_inv (mkPlaces d (garbage s) r (booted s) (local s) u (usedBy s)).
Proof.
  intros I Hw Hl Hd Hr Hu. destruct (pi_working s I Hw) as (l' & Hl' & Hc). assert (l' = l) as -> by congruence.
  assert (Hg : garbage s = None).
  { destruct (garbage s) eqn:Hg; [|done]. destruct (pi_fence s I) as (l' & ? & [? ?]); [apply (pi_local s I); by eexists|by eexists|]. congruence. }
  rewrite Hg, Hl, Hw. split; place_simpl.
  - intros t Ht. by apply Hd.
  - intros _ [Ht|[? ?]]; [eauto|done].
  - intros _ (t & [Ht|?] & Ho); [by apply (Hd t Ht)|done].
  - intros v ->. destruct Hu as [Hu|[= ->]]; [|eauto]. destruct (pi_user s I v) as (l' & ? & <-); [done|]. simplify_eq. eauto.
  - by intros _ [? ?].
  - intros _. eauto.
  - intros l' c p [= <-] Hc'. congruence.
  - intros _. apply (pi_local s I). by eexists.
Qed.
Lemma place_inv_step s s' : place_step s s' → place_inv s → place_inv s'.
Proof.
  intros Hst I. destruct Hst.
  - by apply inv_crash.
  - by apply inv_recover.
  - unfold beginInit in H. case_decide as Hd; simplify_eq. destruct Hd as (? & ? & ?). by apply inv_take.
  - unfold saveRecord in H. destruct (local s) as [l|] eqn:Hl; [simpl in H|done]. case_decide as Hw; simplify_eq. rewrite <- Hl.
    apply (inv_working s l); [done..| |done|by left]. intros t Ht. split; [by apply (pi_whole s I)|].
    intros Ho. apply (pi_owned s I); [apply (pi_local s I); by eexists|]. exists t. auto.
  - unfold prepareUser in H. destruct (local s) as [l|] eqn:Hl; [simpl in H|done]. case_decide as Hw; simplify_eq. rewrite <- Hl.
    apply (inv_working s l); [done..| | |by right]; [intros t Ht; split; [by apply (pi_whole s I)|by eexists]|].
    intros Ht. destruct (pi_booted s I) as (l' & ? & ?); [apply (pi_local s I); by eexists|by left|]. congruence.
  - unfold writeDir in H. destruct (local s) as [l|] eqn:Hl; [simpl in H|done]. case_decide as Hdec; simplify_eq. destruct Hdec as (Hw & Hrec & Hfits).
    apply (inv_working s l); [done..| |done|by left]. intros t ->. apply andb_true_iff in Hfits as [? Hu]. split; [done|]. intros Ho.
    rewrite Ho in Hu. simpl in Hu. apply bool_decide_eq_true in Hu. by eexists.
  - destruct (pi_working s I H) as (l & Hl & Hc). split; place_simpl; try apply I; done.
  - split; place_simpl; try apply I; done.
  - unfold takeForPurge in H. case_decide as Hd; simplify_eq. destruct Hd as (? & ?). by apply inv_take.
  - unfold claimLuggage in H. case_decide as Hd; simplify_eq. destruct Hd as (Hb & Hu & Hc).
    pose proof (inv_take s fresh Free I Hb Hu ltac:(done)) as It.
    assert (Heq : setLocal s (Some (mkIdentity (identityID (identityOr s fresh)) (Some (mkCleanup true None false)))) =
      setLocal (withUse (setLocal s (Some (identityOr s fresh))) Free) (Some (mkIdentity (identityID (identityOr s fresh)) (Some (mkCleanup true None false))))).
    { unfold withUse, setLocal. simpl. by rewrite Hu. }
    rewrite Heq. apply inv_cleanup; [done..|by eexists|]. by intros c' p [= <-].
  - unfold startAttempt in H. destruct (local s) as [l|] eqn:Hl; [simpl in H|done]. destruct (identityCleanup l) as [c|] eqn:Hc.
    + destruct (running c); simplify_eq. apply (inv_goto s l (mkCleanup (root || removeRoot c) None false) RemoveOld I Hl); [by eexists|done].
    + case_decide as Hu; simplify_eq. apply inv_cleanup; [done|done|by rewrite Hu|by eexists|]. by intros c' p [= <-] [= <-].
  - by eapply inv_remove.
Qed.
Lemma place_inv_reach s : place_reach s → place_inv s.
Proof.
  intros (d & r & Hd & Hr). assert (I : place_inv (mkPlaces d None r false None None Free)).
  { split; simpl; try done. }
  revert I. generalize (mkPlaces d None r false None None Free) Hr. clear. induction 1; eauto using place_inv_step.
Qed.

(** An attempt that meets no failure and takes the directory removes everything. *)
Fixpoint removeRun (n : nat) (s : places) : places :=
  match n with O => s | S n => match removeStep s Done false with Some s' => removeRun n s' | None => s end end.
Lemma undisturbed_removal_completes s : place_reach s → ∀ root s', startAttempt s root = Some s' →
  (root = true ∨ ∃ l c, local s = Some l ∧ identityCleanup l = Some c ∧ removeRoot c = true) →
  let e := removeRun 8 s' in onDisk e = None ∧ garbage e = None ∧ record e = None ∧ local e = None ∧ user e = None.
Proof.
  intros Hr root s' Hst Hroot. pose proof (place_inv_reach s Hr) as I. unfold startAttempt in Hst.
  destruct (local s) as [l|] eqn:Hl; [simpl in Hst|done].
  assert (Hs' : s' = setLocal s (Some (mkIdentity (identityID l) (Some (mkCleanup true (Some RemoveOld) false))))).
  { destruct (identityCleanup l) as [c|] eqn:Hc.
    - destruct (running c); simplify_eq. do 5 f_equal. destruct Hroot as [->|(l' & c' & ? & ? & Hrr)]; [done|]. simplify_eq. by rewrite Hrr, orb_true_r.
    - case_decide; simplify_eq. destruct Hroot as [->|(l' & c' & ? & ? & ?)]; [done|congruence]. }
  subst s'. assert (Hu : user s = None ∨ user s = Some (identityID l)).
  { destruct (user s) as [u|] eqn:Hu; [|by left]. destruct (pi_user s I u Hu) as (l' & ? & <-). simplify_eq. by right. }
  cbn -[decide]. destruct (onDisk s); cbn -[decide]; (destruct Hu as [-> | ->]; cbn -[decide]; [rewrite decide_False by done|rewrite decide_True by done]; done).
Qed.

(** C27: removal of local data is safe against failures and crashes at every point.
    Whatever the daemon was doing when it stopped, the directory under a bed's name is
    whole or absent, never half removed.  While the daemon runs: as long as anything of
    the bed is on disk its identity is known, recorded, and keeps the user that owns the
    data; garbage keeps the name fenced, so no bed takes it; a restart finds the same
    identity again, with the fence; a bed in use is never being removed; and an identity is
    dropped only when its trees, its record and its user are gone. *)
Theorem local_identity_crash_safe s : place_reach s →
  (∀ t, onDisk s = Some t → whole t = true) ∧
  (booted s = true → hasTree s → ∃ l, local s = Some l ∧ record s = Some (identityID l) ∧
     (ownedTree s → user s = Some (identityID l)) ∧
     (is_Some (garbage s) → ∀ fresh, beginInit s fresh = None) ∧
     (∀ fresh, ∃ l', local (recoverLocal (crash s) fresh) = Some l' ∧ identityID l' = identityID l ∧
        (is_Some (garbage s) → is_Some (identityCleanup l')))) ∧
  (usedBy s = Working → ∀ root r o, startAttempt s root = None ∧ removeStep s r o = None) ∧
  (∀ r o s', is_Some (local s) → removeStep s r o = Some s' → local s' = None →
     onDisk s' = None ∧ garbage s' = None ∧ record s' = None ∧ user s' = None).
Proof.
  intros Hr. pose proof (place_inv_reach s Hr) as I. split_and!.
  - apply I.
  - intros Hb Ht. destruct (pi_booted s I Hb Ht) as (l & Hl & Hrec). exists l. split_and!; [done..| | |].
    + intros Ho. destruct (pi_owned s I Hb Ho) as [u Hu]. destruct (pi_user s I u Hu) as (l' & ? & <-). congruence.
    + intros Hg fresh. destruct (pi_fence s I Hb Hg) as (l' & Hl' & [c Hc]). simplify_eq. unfold beginInit. rewrite Hl. simpl.
      case_decide as Hd; [|done]. destruct Hd as (_ & _ & Hd). congruence.
    + intros fresh. unfold recoverLocal. unfold hasTree in Ht. simpl. rewrite Hrec. simpl.
      destruct (onDisk s), (garbage s); simpl; try (eexists; split_and!; [done..|]; by intros [? ?]); try (by eexists; split_and!; [done..|eauto]).
      by destruct Ht as [[? ?]|[? ?]].
  - intros Hw root r o. destruct (pi_working s I Hw) as (l & Hl & Hc). unfold startAttempt, removeStep. rewrite Hl. simpl. rewrite Hc. simpl.
    split; [|done]. case_decide; [congruence|done].
  - intros r o s' [l Hl] Hs Hn. unfold removeStep in Hs. rewrite Hl in Hs. simpl in Hs. destruct (identityCleanup l) as [c|] eqn:Hc; [simpl in Hs|done].
    destruct (running c) as [p|] eqn:Hrun; [simpl in Hs|done]. pose proof (pi_running s I l c p Hl Hc Hrun) as Hp.
    destruct r; [by simplify_eq|by destruct p; simplify_eq; simpl in Hn; congruence|].
    destruct p; injection Hs as <-; simpl in *; try done; try (by repeat case_match). naive_solver.
Qed.

(** ** A concrete run *)

Module DemoIdentity.
Definition at_ (s : option places) : places := default (mkPlaces None None None false None None Free) s.
Definition s0 := mkPlaces None None None false None None Free.
Definition s1 := recoverLocal s0 1.
Definition s2 := at_ (beginInit s1 7).
Definition s3 := at_ (saveRecord s2).
Definition s4 := at_ (prepareUser s3).
Definition s5 := at_ (writeDir s4 (Some (mkTree true true))).
Definition s6 := withUse s5 Ending.
Definition s7 := at_ (startAttempt s6 true).
Definition s8 := at_ (removeStep s7 Done true).
Definition s9 := at_ (removeStep s8 Done true).
Definition s10 := at_ (removeStep s9 Partly true).
End DemoIdentity.
Import DemoIdentity.

(** The data has been claimed and partly removed. *)
Lemma demo_partly_removed : place_reach s10.
Proof.
  exists None, None. split; [done|].
  eapply rtc_l; [by apply (ps_recover s0 1)|]. eapply rtc_l; [by apply (ps_init s1 7 s2)|]. eapply rtc_l; [by apply (ps_record s2 s3)|].
  eapply rtc_l; [by apply (ps_user s3 s4)|]. eapply rtc_l; [by apply (ps_dir s4 (Some (mkTree true true)) s5)|].
  eapply rtc_l; [by apply (ps_ends s5)|]. eapply rtc_l; [by apply (ps_attempt s6 true s7)|]. eapply rtc_l; [by apply (ps_remove s7 Done true s8)|].
  eapply rtc_l; [by apply (ps_remove s8 Done true s9)|]. eapply rtc_l; [by apply (ps_remove s9 Partly true s10)|]. apply rtc_refl.
Qed.
(** Witness of [local_identity_crash_safe]: a restart now finds the identity, fenced. *)
Lemma local_identity_crash_safe_witness : garbage s10 = Some (mkTree false true) ∧
  ∃ l', local (recoverLocal (crash s10) 99) = Some l' ∧ identityID l' = 7 ∧ is_Some (identityCleanup l').
Proof.
  split; [reflexivity|].
  destruct (proj1 (proj2 (local_identity_crash_safe s10 demo_partly_removed)) eq_refl) as (l & Hl & _ & _ & _ & Hrec).
  { right. by eexists. }
  destruct (Hrec 99) as (l' & H1 & H2 & H3). exists l'. split; [exact H1|]. split; [|apply H3; by eexists].
  rewrite H2. by injection Hl as <-.
Defined.
