(* ===== verification/Transfers.v ===== *)
(** * Transfers: copies between a bed and object storage

    Models the registry of transfers ([internal/bed/store/transfer.go]) and the validation
    of requests ([internal/bed/store/sync/transfer.go]).  What the copy itself does is the
    worker's business; here it reports completed files, gives the bed's file system back,
    and ends.  A worker is known by the serial number of its run. *)

From S2P Require Import Prelude Netip Bed Volumes PillowSpec.

(** ** Requests *)

Record TransferEndpoint := mkEndpoint { epRef : string; epType : string; epPath : string; epKey : string }.
Record TransferRequest := mkRequest {
  tqParentRef : string; tqSync : string; tqID : string; tqInstanceID : string;
  tqSource : TransferEndpoint; tqDestination : TransferEndpoint; tqOverwrite : bool; tqTimeout : Z }.
#[export] Instance TransferEndpoint_eq_dec : EqDecision TransferEndpoint.
Proof. solve_decision. Defined.
#[export] Instance TransferRequest_eq_dec : EqDecision TransferRequest.
Proof. solve_decision. Defined.

Definition transferLimit : Z := 4.
Definition transferHistoryLimit : Z := 1024.
Definition transferRetention : Z := 86400000000000.
Definition DefaultTransferTimeout : Z := 300000000000.
Definition MaxTransferTimeout : Z := 7200000000000.

(** [^[0-9a-f]{64}$] and [^[A-Za-z0-9][A-Za-z0-9._-]{0,127}$] *)
Definition resticRef (s : string) : bool :=
  bool_decide (length (to_list s) = 64)%nat && forallb (λ c, is_digit c || in_range 97 102 c) (to_list s).
Definition transferID (s : string) : bool :=
  match to_list s with [] => false | c :: l => is_alnum c && forallb nameChar l && bool_decide (length l <= 127)%nat end.
Definition validTransferKey (key : string) : bool :=
  negb (bool_decide (key = ""%string)) && negb (contains_byte 92 key || contains_byte 0 key)
  && forallb (λ part, negb (bool_decide (part = "" ∨ part = "." ∨ part = "..")%string)) (split (trim_suffix key "/")).

Inductive transfer_err := TransferInvalid | TransferUnavailable | TransferConflict | TransferNotFound | TransferCapacity
  | RemoteFailed | ResticMissing | AcquireFailed.
Definition validEndpoint (e : TransferEndpoint) : bool :=
  if bool_decide (epType e = "bed"%string) then
    negb (bool_decide (epPath e = ""%string)) && bool_decide (epKey e = ""%string) && bool_decide (epRef e = ""%string)
  else if bool_decide (epType e = "s3"%string) then bool_decide (epPath e = ""%string) && validTransferKey (epKey e)
  else false.
Definition withSync (q : TransferRequest) (kind : string) : TransferRequest :=
  mkRequest (tqParentRef q) kind (tqID q) (tqInstanceID q) (tqSource q) (tqDestination q) (tqOverwrite q) (tqTimeout q).
(** [ValidateTransfer] of the sync package. *)
Definition ValidateTransfer (q : TransferRequest) : result transfer_err TransferRequest :=
  let q := if bool_decide (tqSync q = ""%string) then withSync q "copy" else q in
  check! bool_decide (tqSync q = "copy" ∨ tqSync q = "restic")%string else TransferInvalid;
  check! negb (bool_decide (epType (tqSource q) = epType (tqDestination q))) else TransferInvalid;
  check! validEndpoint (tqSource q) && validEndpoint (tqDestination q) else TransferInvalid;
  check! (if bool_decide (tqSync q = "copy"%string)
          then bool_decide (epRef (tqSource q) = ""%string) && bool_decide (epRef (tqDestination q) = ""%string) && bool_decide (tqParentRef q = ""%string)
          else bool_decide (epRef (tqDestination q) = ""%string)
               && (if bool_decide (epType (tqSource q) = "s3"%string)
                   then resticRef (epRef (tqSource q)) && bool_decide (tqParentRef q = ""%string)
                   else bool_decide (tqParentRef q = ""%string) || resticRef (tqParentRef q))) else TransferInvalid;
  Ok q.
Definition withTimeout (q : TransferRequest) (t : Z) : TransferRequest :=
  mkRequest (tqParentRef q) (tqSync q) (tqID q) (tqInstanceID q) (tqSource q) (tqDestination q) (tqOverwrite q) t.
Definition withInstance (q : TransferRequest) (i : string) : TransferRequest :=
  mkRequest (tqParentRef q) (tqSync q) (tqID q) i (tqSource q) (tqDestination q) (tqOverwrite q) (tqTimeout q).
Definition validateTransfer (q : TransferRequest) : result transfer_err TransferRequest :=
  q <-! ValidateTransfer q;
  check! transferID (tqID q) else TransferInvalid;
  let q := if tqTimeout q =? 0 then withTimeout q DefaultTransferTimeout else q in
  check! negb ((tqTimeout q <? 1000000) || (MaxTransferTimeout <? tqTimeout q)) else TransferInvalid;
  Ok q.

(** ** The registry *)

Inductive TransferState := TransferRunning | TransferSucceeded | TransferFailed | TransferCanceled.
#[export] Instance TransferState_eq_dec : EqDecision TransferState.
Proof. solve_decision. Defined.
Record Transfer := mkTransfer {
  trRef : string; trSync : string; trID : string; trBed : string; trState : TransferState; trFiles : Z; trBytes : Z;
  trError : bool; trStartedAt : Z; trFinishedAt : option Z }.
(** A run: its request, status, serial number, and whether it was asked to stop. *)
Record transferRun := mkRun { tuRequest : TransferRequest; tuStatus : Transfer; tuSerial : Z; tuCanceled : bool }.
(** A worker: the key of its run, and whether it is before the call of [release].  [pinned] are the
    transfers whose bed files were acquired and not given back. *)
Record transferWorker := mkWorker { wkKey : string; wkHolds : bool }.
Record transferRegistry := mkRegistry {
  instanceID : string; runs : gmap string transferRun; trClosed : bool; workers : gmap Z transferWorker; serials : Z;
  pinned : gset Z }.
Definition newTransferRegistry (id : string) : transferRegistry := mkRegistry id ∅ false ∅ 0 ∅.

Definition runKey (bed id : string) : string := bed +:+ String Ascii.zero id.
Definition isRunning (u : transferRun) : bool := bool_decide (trState (tuStatus u) = TransferRunning).
Definition withRuns (r : transferRegistry) (m : gmap string transferRun) : transferRegistry :=
  mkRegistry (instanceID r) m (trClosed r) (workers r) (serials r) (pinned r).

Definition expiredRun (now : Z) (u : transferRun) : bool :=
  match trFinishedAt (tuStatus u) with Some t => transferRetention <=? now - t | None => false end.
Definition pruneLocked (now : Z) (m : gmap string transferRun) : gmap string transferRun := filter (λ ku, expiredRun now ku.2 = false) m.

(** The oldest finished run, among equals the first met. *)
Definition older (best : option (string * Z)) (ku : string * transferRun) : option (string * Z) :=
  match trFinishedAt (tuStatus ku.2), best with
  | Some t, Some (_, t') => if t <? t' then Some (ku.1, t) else best
  | Some t, None => Some (ku.1, t)
  | None, _ => best
  end.
Definition oldestFinished (m : gmap string transferRun) : option (string * Z) := foldl older None (map_to_list m).
Fixpoint makeRoom (fuel : nat) (m : gmap string transferRun) : gmap string transferRun :=
  match fuel with
  | O => m
  | S fuel => if Z.of_nat (size m) <? transferHistoryLimit then m
              else match oldestFinished m with Some (key, _) => makeRoom fuel (delete key m) | None => m end
  end.
Definition makeRoomLocked (m : gmap string transferRun) : gmap string transferRun := makeRoom (size m) m.

(** [StartTransfer]: what storage, restic and [acquire] answer are arguments. *)
Definition StartTransfer (r : transferRegistry) (now : Z) (bed : string) (q : TransferRequest) (remote restic acquired : bool)
  : result transfer_err Transfer * transferRegistry :=
  match validateTransfer q with
  | Err e => (Err e, r)
  | Ok q =>
      if trClosed r then (Err TransferUnavailable, r)
      else if negb (bool_decide (tqInstanceID q = ""%string)) && negb (bool_decide (tqInstanceID q = instanceID r)) then (Err TransferConflict, r)
      else
        let q := withInstance q (instanceID r) in
        let key := runKey bed (tqID q) in
        let m := pruneLocked now (runs r) in
        let r := withRuns r m in
        match m !! key with
        | Some u => if decide (tuRequest u = q) then (Ok (tuStatus u), r) else (Err TransferConflict, r)
        | None =>
            if transferLimit <=? map_count isRunning m then (Err TransferCapacity, r)
            else if negb remote then (Err RemoteFailed, r)
            else if bool_decide (tqSync q = "restic"%string) && negb restic then (Err ResticMissing, r)
            else if negb acquired then (Err AcquireFailed, r)
            else
              let status := mkTransfer "" (tqSync q) (tqID q) bed TransferRunning 0 0 false now None in
              (Ok status, mkRegistry (instanceID r) (<[key := mkRun q status (serials r) false]> (makeRoomLocked m)) false
                            (<[serials r := mkWorker key true]> (workers r)) (serials r + 1) ({[serials r]} ∪ pinned r))
        end
  end.

(** What the worker of a run does: a file is complete, the bed's files are given back,
    and the end is published. *)
Definition updateRun (r : transferRegistry) (serial : Z) (f : transferRun → transferRun) : option transferRegistry :=
  w ← workers r !! serial; u ← runs r !! wkKey w;
  if decide (tuSerial u = serial) then Some (withRuns r (<[wkKey w := f u]> (runs r))) else None.
Definition withProgress (u : transferRun) (files bytes : Z) : transferRun :=
  let s := tuStatus u in
  mkRun (tuRequest u) (mkTransfer (trRef s) (trSync s) (trID s) (trBed s) (trState s) files bytes (trError s) (trStartedAt s) (trFinishedAt s))
    (tuSerial u) (tuCanceled u).
Definition completed (r : transferRegistry) (serial bytes : Z) : option transferRegistry :=
  updateRun r serial (λ u, withProgress u (wrap64 (trFiles (tuStatus u) + 1)) (wrap64 (trBytes (tuStatus u) + bytes))).
Definition releaseFiles (r : transferRegistry) (serial : Z) : option transferRegistry :=
  w ← workers r !! serial;
  if wkHolds w then Some (mkRegistry (instanceID r) (runs r) (trClosed r) (<[serial := mkWorker (wkKey w) false]> (workers r)) (serials r) (pinned r ∖ {[serial]})) else None.
(** How a copy ended; a reference may come with it. *)
Inductive copy_end := CopyOk | CopyError | CopyCanceled.
Definition finished (u : transferRun) (now : Z) (ref : string) (e : copy_end) : transferRun :=
  let s := tuStatus u in
  let state := match e with CopyOk => TransferSucceeded | CopyError => TransferFailed | CopyCanceled => TransferCanceled end in
  mkRun (tuRequest u) (mkTransfer ref (trSync s) (trID s) (trBed s) state (trFiles s) (trBytes s)
    (negb (bool_decide (state = TransferSucceeded))) (trStartedAt s) (Some now)) (tuSerial u) (tuCanceled u).
Definition finishTransfer (r : transferRegistry) (serial now : Z) (ref : string) (e : copy_end) : option transferRegistry :=
  w ← workers r !! serial;
  if wkHolds w then None
  else r ← updateRun r serial (λ u, finished u now ref e);
       Some (mkRegistry (instanceID r) (runs r) (trClosed r) (delete serial (workers r)) (serials r) (pinned r)).

Definition TransferStatus (r : transferRegistry) (now : Z) (bed id : string) : result transfer_err Transfer * transferRegistry :=
  let r := withRuns r (pruneLocked now (runs r)) in
  match runs r !! runKey bed id with Some u => (Ok (tuStatus u), r) | None => (Err TransferNotFound, r) end.
Definition cancelRun (u : transferRun) : transferRun := if isRunning u then mkRun (tuRequest u) (tuStatus u) (tuSerial u) true else u.
Definition CancelTransfer (r : transferRegistry) (now : Z) (bed id instance : string) : result transfer_err Transfer * transferRegistry :=
  if negb (bool_decide (instance = ""%string)) && negb (bool_decide (instance = instanceID r)) then (Err TransferConflict, r)
  else
    let m := pruneLocked now (runs r) in
    match m !! runKey bed id with
    | Some u => (Ok (tuStatus u), withRuns r (<[runKey bed id := cancelRun u]> m))
    | None => (Err TransferNotFound, withRuns r m)
    end.

(** [StopTransfers]: the runs of the bed, or of all, are cancelled; their serials are what
    it waits for. *)
Definition concerns (bed : string) (u : transferRun) : bool :=
  isRunning u && (bool_decide (bed = ""%string) || bool_decide (trBed (tuStatus u) = bed)).
Definition StopTransfers (r : transferRegistry) (bed : string) : list Z * transferRegistry :=
  ((λ ku, tuSerial ku.2) <$> filter (λ ku, concerns bed ku.2 = true) (map_to_list (runs r)),
   mkRegistry (instanceID r) ((λ u, if concerns bed u then cancelRun u else u) <$> runs r)
     (trClosed r || bool_decide (bed = ""%string)) (workers r) (serials r) (pinned r)).

Inductive transfer_step : transferRegistry → transferRegistry → Prop :=
| ts_start r now bed q remote restic acquired res r' : StartTransfer r now bed q remote restic acquired = (res, r') → transfer_step r r'
| ts_completed r serial bytes r' : completed r serial bytes = Some r' → transfer_step r r'
| ts_progress r serial files bytes r' : updateRun r serial (λ u, withProgress u files bytes) = Some r' → transfer_step r r'
| ts_release r serial r' : releaseFiles r serial = Some r' → transfer_step r r'
| ts_finish r serial now ref e r' : finishTransfer r serial now ref e = Some r' → transfer_step r r'
| ts_status r now bed id res r' : TransferStatus r now bed id = (res, r') → transfer_step r r'
| ts_cancel r now bed id instance res r' : CancelTransfer r now bed id instance = (res, r') → transfer_step r r'
| ts_stop r bed : transfer_step r (StopTransfers r bed).2.
Definition transfer_reach (r : transferRegistry) : Prop := ∃ id, rtc transfer_step (newTransferRegistry id) r.

(** ** What always holds *)

(** Fewer runs, and all that are running. *)
Definition keepsRunning (m m' : gmap string transferRun) : Prop :=
  (∀ k u, m' !! k = Some u → m !! k = Some u) ∧ (∀ k u, m !! k = Some u → isRunning u = true → m' !! k = Some u).
Lemma keeps_refl m : keepsRunning m m.
Proof. by split. Qed.
Lemma keeps_running_trans m1 m2 m3 : keepsRunning m1 m2 → keepsRunning m2 m3 → keepsRunning m1 m3.
Proof. intros [H1 H2] [H3 H4]. split; auto. Qed.
Lemma keeps_count m m' : keepsRunning m m' → map_count isRunning m' = map_count isRunning m.
Proof.
  intros [H1 H2]. unfold map_count. do 2 f_equal. apply map_eq. intros k. apply option_eq. intros u.
  rewrite !map_lookup_filter_Some. simpl. naive_solver.
Qed.
Lemma keeps_size m m' : keepsRunning m m' → (size m' <= size m)%nat.
Proof. intros [H1 _]. apply map_subseteq_size, map_subseteq_spec, H1. Qed.

Definition finishedOk (u : transferRun) : Prop := isRunning u = false ↔ is_Some (trFinishedAt (tuStatus u)).
Lemma transfer_prune_keeps now m : map_Forall (λ _, finishedOk) m → keepsRunning m (pruneLocked now m).
Proof.
  intros Hf. unfold pruneLocked. split; intros k u.
  - by intros [? _]%map_lookup_filter_Some.
  - intros Hk Hr. apply map_lookup_filter_Some. split; [done|]. simpl. unfold expiredRun. destruct (trFinishedAt _) eqn:Ht; [|done].
    specialize (Hf k u Hk). unfold finishedOk in Hf. rewrite Ht, Hr in Hf. by destruct Hf as [_ Hf]; discriminate Hf.
Qed.
Lemma older_spec l best k t : foldl older best l = Some (k, t) →
  (∃ u, (k, u) ∈ l ∧ trFinishedAt (tuStatus u) = Some t) ∨ best = Some (k, t).
Proof.
  revert best. induction l as [|[k' u'] l IH]; intros best; simpl; [by right|]. intros H.
  destruct (IH _ H) as [(u & Hu & Ht)|Hb]; [left; exists u; split; [by right|done]|].
  unfold older in Hb. simpl in Hb. destruct (trFinishedAt (tuStatus u')) as [t'|] eqn:Ht; [|by right].
  destruct best as [[kb tb]|]; [destruct (t' <? tb)|]; simplify_eq; [left|by right|left]; exists u'; (split; [by left|done]).
Qed.
Lemma older_none l best : foldl older best l = None → best = None ∧ ∀ k u, (k, u) ∈ l → trFinishedAt (tuStatus u) = None.
Proof.
  revert best. induction l as [|[k' u'] l IH]; intros best; simpl; [intros ->; split; [done|by intros ? ? ?%elem_of_nil]|].
  intros [Hb Hl]%IH. unfold older in Hb. simpl in Hb. destruct (trFinishedAt (tuStatus u')) as [t'|] eqn:Ht.
  { destruct best as [[kb tb]|]; [destruct (t' <? tb)|]; done. }
  split; [done|]. intros k u [[= -> ->]|?]%elem_of_cons; [done|by eapply Hl].
Qed.
Lemma make_room_keeps fuel m : map_Forall (λ _, finishedOk) m → keepsRunning m (makeRoom fuel m).
Proof.
  revert m. induction fuel as [|fuel IH]; intros m Hf; simpl; [apply keeps_refl|]. destruct (_ <? _); [apply keeps_refl|].
  destruct (oldestFinished m) as [[k t]|] eqn:Ho; [|apply keeps_refl]. eapply keeps_running_trans; [|by apply IH, map_Forall_delete].
  unfold oldestFinished in Ho. apply older_spec in Ho as [(u & Hu%elem_of_map_to_list & Ht)|?]; [|done]. split; intros k' u'.
  - by intros [_ ?]%lookup_delete_Some.
  - intros Hk' Hr. apply lookup_delete_Some. split; [|done]. intros <-. rewrite Hu in Hk'; injection Hk' as <-; specialize (Hf k u Hu). unfold finishedOk in Hf. rewrite Ht, Hr in Hf.
    by destruct Hf as [_ Hf]; discriminate Hf.
Qed.
Lemma make_room_size fuel m : map_Forall (λ _, finishedOk) m → (size m <= fuel)%nat → map_count isRunning m < transferLimit →
  Z.of_nat (size (makeRoom fuel m)) < transferHistoryLimit.
Proof.
  revert m. induction fuel as [|fuel IH]; intros m Hf Hs Hc; simpl; [unfold transferHistoryLimit; lia|].
  destruct (Z.ltb_spec (Z.of_nat (size m)) transferHistoryLimit) as [|Hge]; [done|].
  destruct (oldestFinished m) as [[k t]|] eqn:Ho; unfold oldestFinished in Ho.
  - apply older_spec in Ho as [(u & Hu%elem_of_map_to_list & Ht)|?]; [|done]. apply IH.
    + by apply map_Forall_delete.
    + rewrite map_size_delete_Some by (by eexists). lia.
    + rewrite (map_count_delete _ _ _ _ Hu). unfold b2z. destruct (isRunning u); lia.
  - apply older_none in Ho as [_ Ho]. exfalso. assert (Hall : map_count isRunning m = Z.of_nat (size m)).
    { rewrite <- map_count_true. apply map_count_ext. intros k u Hk. specialize (Hf k u Hk). unfold finishedOk in Hf.
      rewrite (Ho k u) in Hf by (by apply elem_of_map_to_list). destruct (isRunning u); [done|]. destruct Hf as [Hf _]. by destruct (Hf eq_refl). }
    unfold transferHistoryLimit, transferLimit in *. lia.
Qed.

Definition keyed (k : string) (u : transferRun) : Prop :=
  k = runKey (trBed (tuStatus u)) (trID (tuStatus u)) ∧ tqID (tuRequest u) = trID (tuStatus u) ∧ transferID (trID (tuStatus u)) = true.
Record transfer_inv (r : transferRegistry) : Prop := {
  ti_workers : ∀ s w, workers r !! s = Some w → s < serials r ∧ ∃ u, runs r !! wkKey w = Some u ∧ tuSerial u = s ∧ isRunning u = true;
  ti_runs : ∀ k u, runs r !! k = Some u → isRunning u = true → ∃ w, workers r !! tuSerial u = Some w ∧ wkKey w = k;
  ti_finished : map_Forall (λ _, finishedOk) (runs r);
  ti_keyed : map_Forall keyed (runs r);
  ti_count : map_count isRunning (runs r) <= transferLimit;
  ti_size : Z.of_nat (size (runs r)) <= transferHistoryLimit }.

Lemma transfer_inv_init id : transfer_inv (newTransferRegistry id).
Proof.
  split; simpl; try (intros *; by rewrite lookup_empty); [apply map_Forall_empty..| |].
  - rewrite map_count_empty. unfold transferLimit. lia.
  - rewrite map_size_empty. unfold transferHistoryLimit. lia.
Qed.
Lemma inv_keeps r m : transfer_inv r → keepsRunning (runs r) m → transfer_inv (withRuns r m).
Proof.
  intros I Hk. pose proof Hk as [H1 H2]. split; simpl.
  - intros s w Hw. destruct (ti_workers r I s w Hw) as (? & u & ? & ? & ?). split; [done|]. exists u. auto.
  - intros k u Hu. apply (ti_runs r I). auto.
  - intros k u Hu. by apply (ti_finished r I k), H1.
  - intros k u Hu. by apply (ti_keyed r I k), H1.
  - rewrite (keeps_count _ _ Hk). apply I.
  - pose proof (keeps_size _ _ Hk). pose proof (ti_size r I). lia.
Qed.
(** A run changes and stays what it is: running or finished, of its request. *)
Lemma transfer_same_run r k u u' : transfer_inv r → runs r !! k = Some u → tuSerial u' = tuSerial u → isRunning u' = isRunning u → finishedOk u' → keyed k u' →
  transfer_inv (withRuns r (<[k := u']> (runs r))).
Proof.
  intros I Hk Hs Hr Hf Hq. split; simpl.
  - intros s w Hw. destruct (ti_workers r I s w Hw) as (? & v & Hv & ? & ?). split; [done|]. destruct (decide (k = wkKey w)) as [->|].
    + exists u'. rewrite lookup_insert_eq. simplify_eq. split_and!; congruence.
    + exists v. by rewrite lookup_insert_ne.
  - intros k' v. rewrite lookup_insert_Some. intros [[<- <-]|[_ Hv]] Hrun; [rewrite Hs; apply (ti_runs r I _ _ Hk); congruence|by apply (ti_runs r I)].
  - by apply map_Forall_insert_2; [|apply I].
  - by apply map_Forall_insert_2; [|apply I].
  - rewrite map_count_insert. rewrite (map_count_delete _ _ _ _ Hk), Hr. pose proof (ti_count r I). lia.
  - rewrite map_size_insert_Some by (by eexists). apply I.
Qed.
Lemma update_run_spec r serial f r' : updateRun r serial f = Some r' → ∃ w u, workers r !! serial = Some w ∧ runs r !! wkKey w = Some u ∧ tuSerial u = serial ∧
  r' = withRuns r (<[wkKey w := f u]> (runs r)).
Proof.
  unfold updateRun. destruct (workers r !! serial) as [w|]; [simpl|done]. destruct (runs r !! wkKey w) as [u|] eqn:Hu; [simpl|done].
  case_decide; [|done]. intros [= <-]. by exists w, u.
Qed.
Lemma validate_id q q' : validateTransfer q = Ok q' → transferID (tqID q') = true.
Proof.
  unfold validateTransfer. destruct (ValidateTransfer q) as [p|]; [simpl|done]. destruct (transferID (tqID p)) eqn:Hid; [simpl|done].
  destruct (tqTimeout p =? 0); (destruct (negb _); [|done]); intros [= <-]; done.
Qed.

Lemma transfer_start_inv r now bed q remote restic acquired res r' : transfer_inv r → StartTransfer r now bed q remote restic acquired = (res, r') → transfer_inv r'.
Proof.
  intros I. unfold StartTransfer. destruct (validateTransfer q) as [q'|] eqn:Hq; [|by intros [= _ <-]]. apply validate_id in Hq.
  destruct (trClosed r); [by intros [= _ <-]|]. destruct (_ && _); [by intros [= _ <-]|]. cbn zeta.
  pose proof (transfer_prune_keeps now _ (ti_finished r I)) as Hk. pose proof (inv_keeps r _ I Hk) as Ip. set (m := pruneLocked now (runs r)) in *.
  set (q1 := withInstance q' (instanceID r)). set (key := runKey bed (tqID q1)).
  destruct (m !! key) as [u|] eqn:Hu; [case_decide; by intros [= _ <-]|].
  destruct (Z.leb_spec transferLimit (map_count isRunning m)) as [|Hlt]; [by intros [= _ <-]|]. destruct remote; [simpl|by intros [= _ <-]].
  destruct (_ && negb restic); [by intros [= _ <-]|]. destruct acquired; [simpl|by intros [= _ <-]]. intros [= _ <-].
  pose proof (make_room_keeps (size m) m (ti_finished _ Ip)) as Hk2. pose proof (make_room_size (size m) m (ti_finished _ Ip) ltac:(lia) Hlt) as Hs2.
  pose proof (inv_keeps _ _ Ip Hk2) as I2. fold (makeRoomLocked m) in *. set (m2 := makeRoomLocked m) in *.
  assert (Hnew : m2 !! key = None).
  { destruct (m2 !! key) eqn:E; [|done]. apply (proj1 Hk2) in E. simpl in E. congruence. }
  assert (Hfresh : workers r !! serials r = None).
  { destruct (workers r !! serials r) eqn:E; [|done]. apply (ti_workers r I) in E as [? _]. lia. }
  split; simpl.
  - intros s w. rewrite lookup_insert_Some. intros [[<- <-]|[Hne Hw]].
    + split; [lia|]. eexists. rewrite lookup_insert_eq. by split_and!.
    + destruct (ti_workers _ I2 s w Hw) as (? & u & Hu2 & ? & ?). simpl in *. split; [lia|]. exists u. rewrite lookup_insert_ne; [done|]. intros Heq. rewrite <- Heq in Hu2. congruence.
  - intros k u. rewrite lookup_insert_Some. intros [[<- <-]|[Hne Hu2]] Hr; simpl.
    + eexists. by rewrite lookup_insert_eq.
    + destruct (ti_runs _ I2 k u Hu2 Hr) as (w & Hw & ?). exists w. simpl in Hw. rewrite lookup_insert_ne; [done|]. congruence.
  - apply map_Forall_insert_2; [|apply I2]. split; [done|by intros [? ?]].
  - apply map_Forall_insert_2; [|apply I2]. by split_and!.
  - rewrite map_count_insert_new by done. rewrite (keeps_count _ _ Hk2). unfold b2z. simpl. unfold transferLimit in *. lia.
  - rewrite map_size_insert_None by done. lia.
Qed.

Lemma inv_progress r serial f r' : transfer_inv r → updateRun r serial f = Some r' →
  (∀ u, isRunning u = true → tuSerial (f u) = tuSerial u ∧ isRunning (f u) = true ∧ trFinishedAt (tuStatus (f u)) = trFinishedAt (tuStatus u) ∧
     tuRequest (f u) = tuRequest u ∧ trID (tuStatus (f u)) = trID (tuStatus u) ∧ trBed (tuStatus (f u)) = trBed (tuStatus u)) → transfer_inv r'.
Proof.
  intros I (w & u & Hw & Hu & Hs & ->)%update_run_spec Hf. destruct (ti_workers r I _ _ Hw) as (_ & u' & Hu' & _ & Hr). simplify_eq.
  destruct (Hf u Hr) as (H1 & H2 & H3 & H4 & H5 & H6). pose proof (ti_finished r I _ _ Hu) as Hfo. pose proof (ti_keyed r I _ _ Hu) as (K1 & K2 & K3).
  eapply transfer_same_run; [done|exact Hu|done|congruence| |].
  - unfold finishedOk in *. by rewrite H2, H3, <- Hr.
  - unfold keyed. rewrite H4, H5, H6. by split_and!.
Qed.
Lemma inv_finish r serial now ref e r' : transfer_inv r → finishTransfer r serial now ref e = Some r' → transfer_inv r'.
Proof.
  unfold finishTransfer. intros I. destruct (workers r !! serial) as [w|] eqn:Hw; [simpl|done]. destruct (wkHolds w); [done|].
  destruct (updateRun r serial _) as [r1|] eqn:Hu; [simpl|done]. intros [= <-].
  apply update_run_spec in Hu as (w' & u & Hw' & Hu & Hs & ->). assert (w' = w) as -> by congruence.
  destruct (ti_workers r I _ _ Hw) as (_ & u' & Hu' & _ & Hr). assert (u' = u) as -> by congruence.
  pose proof (ti_keyed r I _ _ Hu) as Hk.
  assert (Hnr : isRunning (finished u now ref e) = false) by (by destruct e). split; simpl.
  - intros s v Hv. apply lookup_delete_Some in Hv as [Hne Hv]. destruct (ti_workers r I _ _ Hv) as (? & u2 & Hu2 & ? & ?). split; [done|].
    exists u2. rewrite lookup_insert_ne; [done|]. intros Heq. rewrite <- Heq in Hu2. congruence.
  - intros k v. rewrite lookup_insert_Some. intros [[<- <-]|[Hne Hv]] Hrun; [congruence|]. destruct (ti_runs r I _ _ Hv Hrun) as (w2 & Hw2 & Hk2).
    exists w2. rewrite lookup_delete_ne; [done|]. intros Heq. rewrite <- Heq in Hw2. congruence.
  - apply map_Forall_insert_2; [|apply I]. split; [by eexists|done].
  - by apply map_Forall_insert_2; [|apply I].
  - rewrite map_count_insert, (map_count_delete _ _ _ _ Hu), Hnr, Hr. pose proof (ti_count r I). unfold b2z. lia.
  - rewrite map_size_insert_Some by (by eexists). apply I.
Qed.
Lemma cancel_same u : tuSerial (cancelRun u) = tuSerial u ∧ isRunning (cancelRun u) = isRunning u ∧ tuStatus (cancelRun u) = tuStatus u ∧ tuRequest (cancelRun u) = tuRequest u.
Proof. unfold cancelRun. destruct (isRunning u) eqn:H; by rewrite ?H. Qed.
Lemma inv_stop r bed : transfer_inv r → transfer_inv (StopTransfers r bed).2.
Proof.
  intros I. set (f := λ u, if concerns bed u then cancelRun u else u).
  assert (Hf : ∀ u, tuSerial (f u) = tuSerial u ∧ isRunning (f u) = isRunning u ∧ tuStatus (f u) = tuStatus u ∧ tuRequest (f u) = tuRequest u).
  { intros u. unfold f. destruct (concerns bed u); [apply cancel_same|done]. }
  split; simpl; fold f.
  - intros s w Hw. destruct (ti_workers r I s w Hw) as (? & u & Hu & ? & ?). split; [done|]. exists (f u). rewrite lookup_fmap, Hu.
    destruct (Hf u) as (? & ? & ?). split_and!; [done|congruence..].
  - intros k v. rewrite lookup_fmap_Some. intros (u & <- & Hu) Hr. destruct (Hf u) as (-> & Hr' & _). rewrite Hr' in Hr. by apply (ti_runs r I).
  - intros k v. rewrite lookup_fmap_Some. intros (u & <- & Hu). destruct (Hf u) as (_ & H1 & H2 & _). unfold finishedOk. rewrite H1, H2. by apply (ti_finished r I k).
  - intros k v. rewrite lookup_fmap_Some. intros (u & <- & Hu). destruct (Hf u) as (_ & _ & H2 & H3). unfold keyed. rewrite H2, H3. by apply (ti_keyed r I k).
  - replace (map_count isRunning (f <$> runs r)) with (map_count isRunning (runs r)); [apply I|].
    unfold map_count. f_equal. rewrite map_filter_fmap, map_size_fmap. f_equal. apply map_filter_ext. intros k u _. simpl. by destruct (Hf u) as (_ & -> & _).
  - rewrite map_size_fmap. apply I.
Qed.
Lemma transfer_inv_step r r' : transfer_step r r' → transfer_inv r → transfer_inv r'.
Proof.
  intros Hst I. destruct Hst.
  - by eapply transfer_start_inv.
  - eapply inv_progress; [done|exact H|]. by intros u Hr.
  - eapply inv_progress; [done|exact H|]. by intros u Hr.
  - unfold releaseFiles in H. destruct (workers r !! serial) as [w|] eqn:Hw; [simpl in H|done]. destruct (wkHolds w); simplify_eq.
    destruct I as [H1 H2 ? ? ? ?]. split; simpl; try done.
    + intros s v. rewrite lookup_insert_Some. intros [[<- <-]|[_ Hv]]; [by apply (H1 serial w)|by apply H1].
    + intros k u Hu Hr. destruct (H2 k u Hu Hr) as (v & Hv & ?). destruct (decide (serial = tuSerial u)) as [->|].
      * rewrite lookup_insert_eq. simplify_eq. by eexists.
      * exists v. by rewrite lookup_insert_ne.
  - by eapply inv_finish.
  - unfold TransferStatus in H. simpl in H. pose proof (inv_keeps _ _ I (transfer_prune_keeps now _ (ti_finished r I))). by case_match; simplify_eq.
  - unfold CancelTransfer in H. destruct (_ && _); [by simplify_eq|]. pose proof (inv_keeps _ _ I (transfer_prune_keeps now _ (ti_finished r I))) as Ip.
    destruct (pruneLocked now (runs r) !! runKey bed id) as [u|] eqn:Hu; simplify_eq; [|done].
    destruct (cancel_same u) as (H1 & H2 & H3 & H4).
    apply (transfer_same_run (withRuns r (pruneLocked now (runs r))) _ u); [done..| |].
    + unfold finishedOk. rewrite H2, H3. by apply (ti_finished _ Ip (runKey bed id)).
    + unfold keyed. rewrite H3, H4. by apply (ti_keyed _ Ip (runKey bed id)).
  - by apply inv_stop.
Qed.
Lemma transfer_inv_reach r : transfer_reach r → transfer_inv r.
Proof.
  intros [id Hr]. pose proof (transfer_inv_init id) as I. revert I. generalize (newTransferRegistry id) Hr. clear. induction 1; eauto using transfer_inv_step.
Qed.

(** ** Keys *)

Lemma split_at_mark {A} (x : A) l1 l2 k1 k2 : x ∉ l1 → x ∉ l2 → l1 ++ x :: k1 = l2 ++ x :: k2 → l1 = l2 ∧ k1 = k2.
Proof.
  revert l2. induction l1 as [|a l1 IH]; intros [|b l2] H1 H2; simpl; intros H; inversion H; subst; [done|set_solver|set_solver|].
  destruct (IH l2) as [-> ->]; [set_solver|set_solver|done|done].
Qed.
Lemma transfer_id_plain s : transferID s = true → Ascii.zero ∉ to_list s.
Proof.
  unfold transferID. destruct (to_list s) as [|c l]; [done|]. intros [[Hc Hl]%andb_true_iff _]%andb_true_iff [<-|Hin]%elem_of_cons; [done|].
  rewrite forallb_forall in Hl. apply list_elem_of_In, Hl in Hin. done.
Qed.
Lemma run_key_inj b1 i1 b2 i2 : transferID i1 = true → transferID i2 = true → runKey b1 i1 = runKey b2 i2 → b1 = b2 ∧ i1 = i2.
Proof.
  intros H1%transfer_id_plain H2%transfer_id_plain H. apply (f_equal to_list) in H. unfold runKey in H. rewrite !to_list_app in H. simpl in H.
  apply (f_equal reverse) in H. rewrite !reverse_app, !reverse_cons, <- !app_assoc in H. simpl in H.
  apply split_at_mark in H as [Hi Hb]; [|by rewrite elem_of_reverse..]. apply (inj reverse) in Hi, Hb.
  split; [rewrite <- (of_to_list b1), <- (of_to_list b2)|rewrite <- (of_to_list i1), <- (of_to_list i2)]; congruence.
Qed.

(** ** How the registry evolves *)

(** Workers keep their keys, and new ones have new serials; a closed registry gets none. *)
Record grows (r r' : transferRegistry) : Prop := {
  gr_serials : serials r <= serials r';
  gr_workers : ∀ s w, workers r' !! s = Some w → s < serials r → ∃ w0, workers r !! s = Some w0 ∧ wkKey w0 = wkKey w;
  gr_closed : trClosed r = true → trClosed r' = true ∧ ∀ s, is_Some (workers r' !! s) → is_Some (workers r !! s) }.
Lemma grows_same r r' : serials r' = serials r → workers r' = workers r → trClosed r' = trClosed r → grows r r'.
Proof. intros H1 H2 H3. split; [lia|rewrite H2; eauto|rewrite H2, H3; auto]. Qed.
Lemma update_same r serial f r' : updateRun r serial f = Some r' → serials r' = serials r ∧ workers r' = workers r ∧ trClosed r' = trClosed r.
Proof. by intros (w & u & _ & _ & _ & ->)%update_run_spec. Qed.
Lemma grows_step r r' : transfer_step r r' → transfer_inv r → grows r r'.
Proof.
  intros Hst I. destruct Hst.
  - unfold StartTransfer in H. destruct (validateTransfer q) as [q'|]; [|by simplify_eq; apply grows_same].
    destruct (trClosed r) eqn:Hc; [by simplify_eq; apply grows_same|]. destruct (_ && _); [by simplify_eq; apply grows_same|]. cbn zeta in H.
    destruct (pruneLocked now (runs r) !! _); [case_decide; simplify_eq; by apply grows_same|].
    repeat (match goal with H : (if ?b then _ else _) = _ |- _ => destruct b; [by simplify_eq; apply grows_same|] end). simplify_eq.
    split; simpl; [lia| |congruence]. intros s w. rewrite lookup_insert_Some. intros [[<- _]|[_ Hw]] Hs; [lia|eauto].
  - destruct (update_same _ _ _ _ H) as (? & ? & ?). by apply grows_same.
  - destruct (update_same _ _ _ _ H) as (? & ? & ?). by apply grows_same.
  - unfold releaseFiles in H. destruct (workers r !! serial) as [w|] eqn:Hw; [simpl in H|done]. destruct (wkHolds w); simplify_eq.
    split; simpl; [lia| |].
    + intros s v. rewrite lookup_insert_Some. intros [[<- <-]|[_ Hv]] _; [by exists w|eauto].
    + intros ->. split; [done|]. intros s. rewrite lookup_insert_is_Some. intros [<-|[_ ?]]; [by eexists|done].
  - unfold finishTransfer in H. destruct (workers r !! serial) as [w|] eqn:Hw; [simpl in H|done]. destruct (wkHolds w); [done|].
    destruct (updateRun r serial _) as [r1|] eqn:Hu; [simpl in H|done]. simplify_eq. destruct (update_same _ _ _ _ Hu) as (E1 & E2 & E3).
    split; simpl; rewrite ?E1, ?E2, ?E3; [lia| |].
    + intros s v [_ Hv]%lookup_delete_Some _. eauto.
    + intros ->. split; [done|]. intros s [v [_ Hv]%lookup_delete_Some]. by eexists.
  - unfold TransferStatus in H. simpl in H. case_match; simplify_eq; by apply grows_same.
  - unfold CancelTransfer in H. destruct (_ && _); [by simplify_eq; apply grows_same|]. case_match; simplify_eq; by apply grows_same.
  - split; simpl; [lia|eauto|]. intros ->. auto.
Qed.
Lemma registry_grows_trans r1 r2 r3 : grows r1 r2 → grows r2 r3 → grows r1 r3.
Proof.
  intros [A1 A2 A3] [B1 B2 B3]. split; [lia| |].
  - intros s w Hw Hs. destruct (B2 s w Hw ltac:(lia)) as (w0 & Hw0 & <-). by apply A2.
  - intros [H1 H2]%A3. destruct (B3 H1) as [H3 H4]. auto.
Qed.
Lemma grows_steps r r' : rtc transfer_step r r' → transfer_inv r → grows r r' ∧ transfer_inv r'.
Proof.
  induction 1 as [r|r1 r2 r3 Hst _ IH]; intros I; [by split; [apply grows_same|]|].
  pose proof (grows_step _ _ Hst I). destruct (IH (transfer_inv_step _ _ Hst I)) as [? ?]. split; [by eapply registry_grows_trans|done].
Qed.

(** The result of a finished run is final: the key keepsRunning it, loses it, or is taken by a
    new run. *)
Lemma finished_run_final r r' k u : transfer_step r r' → transfer_inv r → runs r !! k = Some u → isRunning u = false →
  ∀ u', runs r' !! k = Some u' → u' = u ∨ tuSerial u' = serials r.
Proof.
  intros Hst I Hk Hr u'. assert (Hsub : ∀ m, keepsRunning (runs r) m → m !! k = Some u' → u' = u) by (intros m [Hm _] ?%Hm; congruence).
  pose proof (transfer_prune_keeps) as Hp.
  assert (Hupd : ∀ serial f r1, updateRun r serial f = Some r1 → runs r1 !! k = Some u' → u' = u).
  { intros serial f r1 (w & v & Hw & Hv & Hs & ->)%update_run_spec. simpl. rewrite lookup_insert_Some. intros [[<- _]|[_ ?]]; [|congruence].
    destruct (ti_workers r I _ _ Hw) as (_ & v' & ? & _ & ?). congruence. }
  destruct Hst.
  - unfold StartTransfer in H. destruct (validateTransfer q) as [q'|]; [|simplify_eq; left; congruence].
    destruct (trClosed r) eqn:Hc; [simplify_eq; left; congruence|]. destruct (_ && _); [simplify_eq; left; congruence|]. cbn zeta in H.
    specialize (Hp now _ (ti_finished r I)). set (m := pruneLocked now (runs r)) in *.
    assert (Hleft : ∀ x, x = withRuns r m → runs x !! k = Some u' → u' = u ∨ tuSerial u' = serials r) by (intros x -> Hx; left; by eapply Hsub).
    destruct (m !! _); [case_decide; simplify_eq; by apply Hleft|].
    repeat (match goal with H : (if ?b then _ else _) = _ |- _ => destruct b; [simplify_eq; by apply Hleft|] end). simplify_eq. simpl.
    rewrite lookup_insert_Some. intros [[_ <-]|[_ Hu']]; [by right|left]. eapply Hsub; [|exact Hu'].
    eapply keeps_running_trans; [exact Hp|]. apply make_room_keeps. intros k' v Hv. apply (ti_finished r I k'). by apply Hp.
  - intros ?. left. by eapply Hupd.
  - intros ?. left. by eapply Hupd.
  - unfold releaseFiles in H. destruct (workers r !! serial) as [w|]; [simpl in H|done]. destruct (wkHolds w); simplify_eq. simpl. left. congruence.
  - unfold finishTransfer in H. destruct (workers r !! serial) as [w|] eqn:Hw; [simpl in H|done]. destruct (wkHolds w); [done|].
    destruct (updateRun r serial _) as [r1|] eqn:Hu; [simpl in H|done]. simplify_eq. simpl. intros ?. left. by eapply Hupd.
  - unfold TransferStatus in H. simpl in H. specialize (Hp now _ (ti_finished r I)). intros Hu'. left. case_match; simplify_eq; by eapply Hsub.
  - unfold CancelTransfer in H. specialize (Hp now _ (ti_finished r I)). destruct (_ && _); [simplify_eq; left; congruence|].
    destruct (pruneLocked now (runs r) !! runKey bed id) as [v|] eqn:Hv; simplify_eq; simpl; intros Hu'; left; [|by eapply Hsub].
    apply lookup_insert_Some in Hu' as [[<- <-]|[_ ?]]; [|by eapply Hsub]. apply (proj1 Hp) in Hv. simplify_eq. unfold cancelRun. by rewrite Hr.
  - simpl. rewrite lookup_fmap, Hk. simpl. unfold concerns. rewrite Hr. simpl. intros [= <-]. by left.
Qed.

(** ** The files of the bed *)

(** Exactly the workers before their release hold files, and serials tell runs apart. *)
Record pin_inv (r : transferRegistry) : Prop := {
  pv_pins : ∀ s, s ∈ pinned r ↔ ∃ w, workers r !! s = Some w ∧ wkHolds w = true;
  pv_fresh : ∀ k u, runs r !! k = Some u → tuSerial u < serials r;
  pv_inj : ∀ k k' u u', runs r !! k = Some u → runs r !! k' = Some u' → tuSerial u = tuSerial u' → k = k' }.
Lemma pin_runs r m c : pin_inv r → (∀ k u, m !! k = Some u → ∃ u0, runs r !! k = Some u0 ∧ tuSerial u0 = tuSerial u) →
  pin_inv (mkRegistry (instanceID r) m c (workers r) (serials r) (pinned r)).
Proof.
  intros [P1 P2 P3] Hm. split; simpl; [done|..].
  - intros k u (u0 & Hu0 & <-)%Hm. by eapply P2.
  - intros k k' u u' (u0 & Hu0 & <-)%Hm (u1 & Hu1 & <-)%Hm. by eapply P3.
Qed.
Lemma pin_sub r m : pin_inv r → (∀ k u, m !! k = Some u → runs r !! k = Some u) → pin_inv (withRuns r m).
Proof. intros P Hm. apply pin_runs; [done|]. intros k u Hu. exists u. auto. Qed.
Lemma pin_update r serial f r' : pin_inv r → (∀ u, tuSerial (f u) = tuSerial u) → updateRun r serial f = Some r' → pin_inv r'.
Proof.
  intros P Hf (w & u & Hw & Hu & Hs & ->)%update_run_spec. apply pin_runs; [done|]. intros k v [[<- <-]|[_ Hv]]%lookup_insert_Some; [by exists u; rewrite Hf|by exists v].
Qed.
Lemma prune_sub now (m : gmap string transferRun) k u : pruneLocked now m !! k = Some u → m !! k = Some u.
Proof. by intros [? _]%map_lookup_filter_Some. Qed.
Lemma pin_start r now bed q remote restic acquired res r' : transfer_inv r → pin_inv r → StartTransfer r now bed q remote restic acquired = (res, r') → pin_inv r'.
Proof.
  intros I P. unfold StartTransfer. destruct (validateTransfer q) as [q'|]; [|by intros [= _ <-]].
  destruct (trClosed r); [by intros [= _ <-]|]. destruct (_ && _); [by intros [= _ <-]|]. cbn zeta.
  pose proof (transfer_prune_keeps now _ (ti_finished r I)) as Hk. pose proof (inv_keeps r _ I Hk) as Ip. set (m := pruneLocked now (runs r)) in *.
  assert (pin_inv (withRuns r m)) as Pm by (apply pin_sub; [done|]; intros k u; apply prune_sub).
  destruct (m !! _) as [u|] eqn:Hu; [case_decide; by intros [= _ <-]|]. destruct (_ <=? _); [by intros [= _ <-]|]. destruct remote; [simpl|by intros [= _ <-]].
  destruct (_ && negb restic); [by intros [= _ <-]|]. destruct acquired; [simpl|by intros [= _ <-]]. intros [= _ <-].
  destruct (make_room_keeps (size m) m (ti_finished _ Ip)) as [Hsub _]. destruct P as [P1 P2 P3]. destruct Pm as [_ Q2 Q3].
  assert (Hold : ∀ k u, makeRoomLocked m !! k = Some u → tuSerial u < serials r) by (intros k u H; by apply (Q2 k), Hsub).
  split; simpl.
  - intros s. rewrite elem_of_union, elem_of_singleton, P1. split.
    + intros [->|(w & Hw & Hh)]; [eexists; by rewrite lookup_insert_eq|]. exists w. rewrite lookup_insert_ne; [done|]. intros <-. apply (ti_workers r I) in Hw as [? _]. lia.
    + intros (w & [[<- <-]|[_ Hw]]%lookup_insert_Some & Hh); [by left|right; eauto].
  - intros k u' [[_ <-]|[_ H]]%lookup_insert_Some; [simpl; lia|specialize (Hold _ _ H); lia].
  - intros k k' u1 u2 [[<- <-]|[_ H1]]%lookup_insert_Some [[<- <-]|[_ H2]]%lookup_insert_Some E; simpl in E; [done|specialize (Hold _ _ H2); lia|specialize (Hold _ _ H1); lia|].
    by eapply (Q3 k k' u1 u2); [apply Hsub|apply Hsub|].
Qed.
Lemma pin_step r r' : transfer_step r r' → transfer_inv r → pin_inv r → pin_inv r'.
Proof.
  intros Hst I P. destruct Hst.
  - by eapply pin_start.
  - eapply pin_update; [done| |exact H]; done.
  - eapply pin_update; [done| |exact H]; done.
  - unfold releaseFiles in H. destruct (workers r !! serial) as [w|] eqn:Hw; [simpl in H|done]. destruct (wkHolds w) eqn:Hh; simplify_eq. destruct P as [P1 P2 P3].
    split; simpl; [|done|done]. intros s. rewrite elem_of_difference, elem_of_singleton, P1. split.
    + intros [(v & Hv & ?) Hne]. exists v. by rewrite lookup_insert_ne.
    + intros (v & [[<- <-]|[Hne Hv]]%lookup_insert_Some & ?); [done|]. split; [eauto|done].
  - unfold finishTransfer in H. destruct (workers r !! serial) as [w|] eqn:Hw; [simpl in H|done]. destruct (wkHolds w) eqn:Hh; [done|].
    destruct (updateRun r serial _) as [r1|] eqn:Hu; [simpl in H|done]. simplify_eq. assert (pin_inv r1) as [Q1 Q2 Q3] by (eapply pin_update; [done| |exact Hu]; done).
    apply update_run_spec in Hu as (w' & u & _ & _ & _ & ->). simpl in *. split; simpl; [|done|done]. intros s. rewrite Q1. split.
    + intros (v & Hv & Hv'). exists v. rewrite lookup_delete_ne; [done|]. intros <-. congruence.
    + intros (v & [_ Hv]%lookup_delete_Some & ?). eauto.
  - unfold TransferStatus in H. simpl in H. assert (pin_inv (withRuns r (pruneLocked now (runs r)))) by (apply pin_sub; [done|]; intros k u; apply prune_sub). by case_match; simplify_eq.
  - unfold CancelTransfer in H. destruct (_ && _); [by simplify_eq|]. assert (pin_inv (withRuns r (pruneLocked now (runs r)))) as Pm by (apply pin_sub; [done|]; intros k u; apply prune_sub).
    destruct (pruneLocked now (runs r) !! runKey bed id) as [u|] eqn:Hu; simplify_eq; [|done]. apply (pin_runs (withRuns r (pruneLocked now (runs r)))); [done|]. simpl.
    intros k v [[<- <-]|[_ Hv]]%lookup_insert_Some; [exists u; split; [done|]; by destruct (cancel_same u) as [-> _]|by exists v].
  - apply (pin_runs r); [done|]. intros k v. rewrite lookup_fmap_Some. intros (u & <- & Hu). exists u. split; [done|]. destruct (concerns bed u); [by destruct (cancel_same u) as [-> _]|done].
Qed.
Lemma pin_steps r r' : rtc transfer_step r r' → transfer_inv r → pin_inv r → pin_inv r'.
Proof. induction 1; [done|]. intros. eauto using transfer_inv_step, pin_step. Qed.
Lemma pin_reach r : transfer_reach r → pin_inv r.
Proof.
  intros [id Hr]. eapply pin_steps; [exact Hr|apply transfer_inv_init|]. split; simpl; [|by intros k u ?|by intros k k' u u' ?]. intros s. split; [set_solver|by intros (w & ? & _)].
Qed.

(** C28: transfers are admitted once, bounded, and over when they say so.  Under every
    interleaving: at most four transfers run and at most 1024 are kept; a transfer is
    running exactly while its worker is there; the files of a bed are held only by running
    transfers, so a terminal state is shown only after the files were given back; the result
    of a finished transfer never changes; asking again for a known transfer starts no
    second copy and returns its status, or a conflict when the request differs; and when
    everything [StopTransfers] waits for has ended, no transfer it concerned is running, and
    when it closed the registry none at all, for ever, and no files are held. *)
Theorem transfer_registry_safe r : transfer_reach r →
  map_count isRunning (runs r) <= transferLimit ∧ Z.of_nat (size (runs r)) <= transferHistoryLimit ∧
  (∀ k u, runs r !! k = Some u → isRunning u = true ↔ ∃ w, workers r !! tuSerial u = Some w ∧ wkKey w = k) ∧
  (∀ s, s ∈ pinned r → ∃ k u, runs r !! k = Some u ∧ tuSerial u = s ∧ isRunning u = true) ∧
  (∀ k u, runs r !! k = Some u → isRunning u = false → tuSerial u ∉ pinned r) ∧
  (∀ r' k u u', transfer_step r r' → runs r !! k = Some u → isRunning u = false → runs r' !! k = Some u' → u' = u ∨ tuSerial u' = serials r) ∧
  (∀ now bed q q' remote restic acquired u, validateTransfer q = Ok q' → pruneLocked now (runs r) !! runKey bed (tqID q') = Some u →
     ∃ res r', StartTransfer r now bed q remote restic acquired = (res, r') ∧ workers r' = workers r ∧
       (res = Ok (tuStatus u) ∧ tuRequest u = withInstance q' (instanceID r) ∨ ∃ e, res = Err e)) ∧
  (∀ bed r2, rtc transfer_step (StopTransfers r bed).2 r2 → (∀ s, s ∈ (StopTransfers r bed).1 → workers r2 !! s = None) →
     (∀ k u, runs r2 !! k = Some u → tuSerial u < serials r → concerns bed u = false) ∧ (bed = ""%string → workers r2 = ∅ ∧ pinned r2 = ∅)).
Proof.
  intros Hr. pose proof (transfer_inv_reach r Hr) as I. pose proof (pin_reach r Hr) as P.
  assert (Hpin : ∀ s, s ∈ pinned r → ∃ k u, runs r !! k = Some u ∧ tuSerial u = s ∧ isRunning u = true).
  { intros s (w & Hw & _)%(pv_pins r P). destruct (ti_workers r I _ _ Hw) as (_ & u & Hu & Hs & Hrun). by exists (wkKey w), u. }
  split_and!; [apply I|apply I| |done| | | |].
  - intros k u Hu. split; [by apply (ti_runs r I)|]. intros (w & Hw & Hk). destruct (ti_workers r I _ _ Hw) as (_ & u' & Hu' & _ & ?). congruence.
  - intros k u Hu Hn (k' & u' & Hu' & Hs & Hrun)%Hpin. assert (k' = k) as -> by (by eapply (pv_inj r P)). congruence.
  - intros r' k u u' Hst Hu Hn Hu'. by eapply finished_run_final.
  - intros now bed q q' remote restic acquired u Hv Hu. unfold StartTransfer. rewrite Hv. destruct (trClosed r); [by eexists _, _; eauto|].
    destruct (_ && _); [by eexists _, _; eauto|]. cbn zeta. simpl. rewrite Hu. case_decide; eexists _, _; (split; [done|]); eauto.
  - intros bed r2 Hst Hend. destruct (grows_steps _ _ Hst (inv_stop r bed I)) as [G I2].
    assert (Hgone : ∀ s w, workers r2 !! s = Some w → s < serials r → ∀ k u, runs r2 !! k = Some u → tuSerial u = s → concerns bed u = false).
    { intros s w Hw Hs k u Hu <-. destruct (concerns bed u) eqn:Hc; [exfalso|done]. unfold concerns in Hc. apply andb_true_iff in Hc as [Hrun Hbed].
      destruct (ti_runs r2 I2 k u Hu Hrun) as (w' & Hw' & Hk). assert (w' = w) as -> by congruence. subst k. destruct (gr_workers _ _ G _ _ Hw Hs) as (w0 & Hw0 & Hk0).
      destruct (ti_workers r I _ _ Hw0) as (_ & u0 & Hu0 & Hs0 & Hr0). rewrite Hk0 in Hu0.
      destruct (ti_keyed r I _ _ Hu0) as (K1 & _ & K3), (ti_keyed r2 I2 _ _ Hu) as (K1' & _ & K3'). rewrite K1 in K1'.
      apply run_key_inj in K1' as [Hb _]; [|done..]. rewrite <- Hb in Hbed. rewrite (Hend (tuSerial u)) in Hw; [done|]. simpl.
      apply list_elem_of_fmap. exists (wkKey w, u0). split; [done|]. apply list_elem_of_filter. split; [|by apply elem_of_map_to_list].
      simpl. unfold concerns. by rewrite Hr0, Hbed. }
    split.
    + intros k u Hu Hs. destruct (concerns bed u) eqn:Hc; [|done]. unfold concerns in Hc. apply andb_true_iff in Hc as [Hrun Hbed].
      destruct (ti_runs r2 I2 k u Hu Hrun) as (w & Hw & _). pose proof (Hgone _ w Hw Hs k u Hu eq_refl) as Hx. unfold concerns in Hx. by rewrite Hrun, Hbed in Hx.
    + intros ->. assert (workers r2 = ∅) as Hnone; [|split; [done|]; apply set_eq; intros s; split; [|set_solver];
        intros (w & Hw & _)%(pv_pins r2 (pin_steps _ _ Hst (inv_stop r ""%string I) (pin_step _ _ (ts_stop r ""%string) I P))); by rewrite Hnone in Hw].
      apply map_eq. intros s. rewrite lookup_empty. destruct (workers r2 !! s) as [w|] eqn:Hw; [exfalso|done].
      destruct (gr_closed _ _ G) as [_ Hold]; [simpl; by rewrite orb_true_r|]. destruct (Hold s) as [w0 Hw0]; [by eexists|]. simpl in Hw0.
      destruct (ti_workers r I _ _ Hw0) as (Hs & _). destruct (ti_workers r2 I2 _ _ Hw) as (_ & u & Hu & Hsu & Hrun).
      pose proof (Hgone s w Hw Hs _ u Hu Hsu) as Hx. unfold concerns in Hx. by rewrite Hrun in Hx.
Qed.

(** ** A concrete run *)

Module DemoTransfers.
Definition demoRequest : TransferRequest :=
  mkRequest "" "" "t1" "" (mkEndpoint "" "bed" "/work/out" "") (mkEndpoint "" "s3" "" "results/run-1/") false 0.
Definition r0 := newTransferRegistry "i1".
Definition r1 := (StartTransfer r0 100 "b1" demoRequest true false true).2.
Definition r2 := default r1 (completed r1 0 4096).
Definition r3 := default r2 (releaseFiles r2 0).
Definition r4 := default r3 (finishTransfer r3 0 200 "" CopyOk).
End DemoTransfers.

Lemma demo_transfer_reach : transfer_reach DemoTransfers.r4.
Proof.
  exists "i1"%string. eapply rtc_l; [eapply (ts_start DemoTransfers.r0 100 "b1" DemoTransfers.demoRequest true false true); by vm_compute|].
  eapply rtc_l; [by apply (ts_completed DemoTransfers.r1 0 4096 DemoTransfers.r2); vm_compute|].
  eapply rtc_l; [by apply (ts_release DemoTransfers.r2 0 DemoTransfers.r3); vm_compute|].
  eapply rtc_l; [by apply (ts_finish DemoTransfers.r3 0 200 "" CopyOk DemoTransfers.r4); vm_compute|]. apply rtc_refl.
Qed.
(** Witness of [transfer_registry_safe]: asked again, the finished transfer is returned. *)
Lemma transfer_registry_safe_witness : ∃ res r', StartTransfer DemoTransfers.r4 300 "b1" DemoTransfers.demoRequest true true true = (res, r') ∧
  workers r' = ∅ ∧ (is_ok res = true ∧ map_count isRunning (runs DemoTransfers.r4) <= 4).
Proof.
  destruct (transfer_registry_safe DemoTransfers.r4 demo_transfer_reach) as (Hc & _ & _ & _ & _ & _ & Hs & _).
  destruct (Hs 300 "b1"%string DemoTransfers.demoRequest (withTimeout (withSync DemoTransfers.demoRequest "copy") DefaultTransferTimeout) true true true
              (mkRun (withInstance (withTimeout (withSync DemoTransfers.demoRequest "copy") DefaultTransferTimeout) "i1")
                 (mkTransfer "" "copy" "t1" "b1" TransferSucceeded 1 4096 false 100 (Some 200)) 0 false)) as (res & r' & H1 & H2 & _);
    [by vm_compute|by vm_compute|].
  exists res, r'. split; [exact H1|]. split; [rewrite H2; by vm_compute|]. split; [|exact Hc].
  assert (H : is_ok (StartTransfer DemoTransfers.r4 300 "b1" DemoTransfers.demoRequest true true true).1 = true) by (by vm_compute). by rewrite H1 in H.
Defined.
