(* ===== verification/Copies.v ===== *)
(** * Copies: which object and which file a transfer touches

    Models [Copy] of [internal/bed/store/sync/copy.go]: the keys and paths it computes and
    the order in which it works.  The files a walk of the bed finds, the keys a listing of
    the bucket gives, and what each single copy comes to are arguments. *)

From S2P Require Import Prelude Netip Volumes BedFS BedFSPaths Transfers TarStore.

(** What went wrong, as far as [errors.Is] distinguishes it, and the stage and relative
    path an [OperationError] carries. *)
Inductive copyCause := CauseInvalid | CauseConflict | CauseFileType | CauseExist | CauseOther (code : nat).
Record OperationError := mkOperationError { opStage : string; opRelative : string; opCause : copyCause }.
(** An error on its way out: bare, or already located. *)
Inductive copy_error := Bare (c : copyCause) | Located (e : OperationError).
Definition transferErrorAt (e : copy_error) (stage relative : string) : OperationError :=
  match e with Located e => e | Bare c => mkOperationError stage relative c end.

(** What the walk of an upload returns: a file of a kind that cannot be copied becomes an
    invalid request, anything else keeps its location or gets the one of the walk. *)
Definition scanError (e : copy_error) (relative : string) : OperationError :=
  match e with
  | Bare CauseFileType | Located (mkOperationError _ _ CauseFileType) => transferErrorAt (Bare CauseInvalid) "scan" relative
  | e => transferErrorAt e "scan" relative
  end.

(** [path.Join] of the configured prefix and the key of a request. *)
Definition objectRoot (prefix key : string) : string := Join [prefix; key].
Definition uploadKey (prefix key relative : string) : string :=
  let root := objectRoot prefix key in
  if bool_decide (relative = "."%string) then root else Join [root; relative].

(** The upload.  [files] are the files the walk hands to the callback, with their sizes,
    and [ending] is the error that ends the walk after them, with the path of the entry it
    concerns; [upload] answers a conditional write.  The result: the objects written, in
    order, each of them reported as completed, and the error. *)
Fixpoint uploadFiles (prefix key : string) (upload : string → option copyCause) (files : list (string * Z)) (ending : option (string * copyCause))
  : list (string * Z) * option OperationError :=
  match files with
  | [] =>
      ([], match ending with None => None | Some (relative, c) => Some (scanError (Bare c) relative) end)
  | (relative, size) :: files =>
      let k := uploadKey prefix key relative in
      match upload k with
      | Some c => ([], Some (scanError (Located (transferErrorAt (Bare c) "upload" relative)) relative))
      | None => let '(completed, e) := uploadFiles prefix key upload files ending in ((k, size) :: completed, e)
      end
  end.
Definition CopyUpload (prefix key : string) (stat : result copyCause bool) (upload : string → option copyCause)
    (files : list (string * Z)) (ending : option (string * copyCause)) : list (string * Z) * option OperationError :=
  match stat with
  | Err c => ([], Some (transferErrorAt (Bare c) "scan" "."))
  | Ok directory =>
      if negb directory && has_suffix key "/" then ([], Some (transferErrorAt (Bare CauseInvalid) "scan" "."))
      else uploadFiles prefix key upload files ending
  end.

(** [copyFile]: [fetched] is what getting the object and writing the file come to. *)
Definition copyFile (fetched : string → string → result copyCause Z) (key destination relative : string) : result copy_error Z :=
  match fetched key destination with
  | Ok n => Ok n
  | Err c =>
      let c := match c with CauseExist => CauseConflict | c => c end in
      Err (Located (transferErrorAt (Bare c) "download" relative))
  end.
(** One key of the listing: nothing to do, or the relative name of a file. *)
Definition visitKey (source key : string) : result copyCause (option string) :=
  if negb (has_prefix key source) then Err CauseInvalid
  else
    let relative := trim_prefix key source in
    if bool_decide (relative = ""%string) then Ok None
    else if negb (validTransferKey relative) then Err CauseInvalid
    else if has_suffix relative "/" then Ok None
    else Ok (Some relative).
(** The listing visited in order, [ending] being the error of the listing itself. *)
Fixpoint downloadKeys (source destination : string) (fetched : string → string → result copyCause Z) (keys : list string) (ending : option copyCause)
  : list (string * string * Z) * option OperationError :=
  match keys with
  | [] => ([], option_map (λ c, transferErrorAt (Bare c) "list" ".") ending)
  | key :: keys =>
      match visitKey source key with
      | Err c => ([], Some (transferErrorAt (Bare c) "list" "."))
      | Ok None => downloadKeys source destination fetched keys ending
      | Ok (Some relative) =>
          let path := Join [destination; relative] in
          match copyFile fetched key path relative with
          | Ok n => let '(completed, e) := downloadKeys source destination fetched keys ending in ((key, path, n) :: completed, e)
          | Err e => ([], Some (transferErrorAt e "list" "."))
          end
      end
  end.
Definition CopyDownload (prefix key destination : string) (fetched : string → string → result copyCause Z) (keys : list string) (ending : option copyCause)
  : list (string * string * Z) * option OperationError :=
  let source := objectRoot prefix key in
  if negb (has_suffix key "/") then
    match copyFile fetched source destination "." with
    | Ok n => ([(source, destination, n)], None)
    | Err e => ([], Some (transferErrorAt e "download" "."))
    end
  else downloadKeys (source +:+ "/") destination fetched keys ending.

(** ** Paths below a path *)

Definition plainPath (r : string) : Prop := Forall normal (split r).
Definition pathText (rooted : bool) (l : list string) : string := if rooted then absPath l else join l.

Lemma fold_normal_any rooted l acc : Forall normal l → foldl (clean_step rooted) acc l = reverse l ++ acc.
Proof.
  intros Hl. revert acc. induction Hl as [|c l (H1&H2&H3&_) Hl IH]; intros acc; [done|]. simpl.
  unfold clean_step at 2. rewrite decide_False by tauto. rewrite decide_False by done.
  rewrite IH, reverse_cons, <- (assoc_L app). done.
Qed.
Lemma rooted_app p r : p ≠ ""%string → rootedPath (p +:+ "/" +:+ r) = rootedPath p.
Proof. destruct p as [|c p]; [done|]. intros _. unfold rootedPath, has_prefix. simpl. by destruct p. Qed.
Lemma comps_below p r : p ≠ ""%string → plainPath r → cleanComps (p +:+ "/" +:+ r) = cleanComps p ++ split r.
Proof.
  intros Hp Hr. unfold cleanComps. rewrite rooted_app, split_app, foldl_app, (fold_normal_any _ (split r)) by done.
  by rewrite reverse_app, reverse_involutive.
Qed.
Lemma comps_trailing p : p ≠ ""%string → cleanComps (p +:+ "/") = cleanComps p.
Proof.
  intros Hp. change (p +:+ "/") with (p +:+ "/" +:+ ""). unfold cleanComps. rewrite rooted_app, split_app, foldl_app by done. done.
Qed.
Lemma plain_nonempty r : plainPath r → r ≠ ""%string.
Proof. intros Hr ->. apply Forall_cons in Hr as [(?&_) _]. done. Qed.
Lemma join2 p r : p ≠ ""%string → r ≠ ""%string → Join [p; r] = Clean (p +:+ "/" +:+ r).
Proof. intros Hp Hr. unfold Join, nonEmpty. rewrite !filter_cons_True by done. done. Qed.
Lemma clean_text p : cleanComps p ≠ [] → Clean p = pathText (rootedPath p) (cleanComps p).
Proof. unfold Clean, pathText, absPath. destruct (rootedPath p); [done|]. by destruct (cleanComps p). Qed.
Lemma clean_comps_clean p : cleanComps (Clean p) = cleanComps p.
Proof.
  destruct (rootedPath p) eqn:Hr.
  - destruct (clean_absolute p Hr) as (l & Hl & -> & ->). by apply cleanComps_absPath.
  - pose proof (cleanComps_ok p) as Hok. rewrite Hr in Hok. destruct (cleanComps_no_slash p) as [H1 H2].
    unfold Clean. rewrite Hr. destruct (cleanComps p) as [|c l] eqn:Hc; [done|].
    unfold cleanComps. rewrite rooted_join, split_join by done.
    rewrite <- (reverse_involutive (c :: l)) at 1. by rewrite clean_fold_stack, reverse_involutive.
Qed.
Lemma rooted_clean p : rootedPath (Clean p) = rootedPath p.
Proof. apply is_abs_clean. Qed.
Lemma clean_nonempty p : Clean p ≠ ""%string.
Proof.
  intros H. pose proof (rooted_clean p) as Hr. pose proof (clean_comps_clean p) as Hc. rewrite H in Hr, Hc.
  unfold Clean in H. rewrite <- Hr, <- Hc in H. done.
Qed.
(** A plain path joined below another path. *)
Lemma join_below p r : p ≠ ""%string → plainPath r →
  cleanComps (Join [p; r]) = cleanComps p ++ split r ∧ rootedPath (Join [p; r]) = rootedPath p ∧
  Join [p; r] = pathText (rootedPath p) (cleanComps p ++ split r).
Proof.
  intros Hp Hr. pose proof (plain_nonempty _ Hr) as Hne. rewrite join2 by done. pose proof (comps_below p r Hp Hr) as Hc.
  rewrite clean_comps_clean, rooted_clean, rooted_app by done. split_and!; [done..|]. rewrite clean_text; [by rewrite Hc, rooted_app|].
  rewrite Hc. intros [_ ?]%app_nil. by destruct (split_not_nil r).
Qed.

(** ** Prefixes and suffixes *)

Lemma string_eq s t : to_list s = to_list t → s = t.
Proof. intros H. by rewrite <- (of_to_list s), <- (of_to_list t), H. Qed.
Lemma length_to_list s : String.length s = length (to_list s).
Proof. induction s; simpl; congruence. Qed.
Lemma trim_prefix_app a r : trim_prefix (a +:+ r) a = r.
Proof.
  unfold trim_prefix. assert (has_prefix (a +:+ r) a = true) as -> by (apply has_prefix_spec; by exists r).
  apply string_eq. rewrite to_list_substring, !length_to_list, to_list_app, length_app.
  rewrite drop_app_length. apply take_ge. lia.
Qed.
Lemma has_suffix_spec s suf : has_suffix s suf = true ↔ ∃ r, s = r +:+ suf.
Proof.
  unfold has_suffix, str_rev. rewrite has_prefix_spec. split.
  - intros [t Ht]. exists (of_list (reverse (to_list t))). apply string_eq. rewrite to_list_app, to_of_list.
    apply (f_equal to_list) in Ht. rewrite to_list_app, !to_of_list in Ht. apply (inj reverse). by rewrite reverse_app, reverse_involutive.
  - intros [r ->]. exists (of_list (reverse (to_list r))). apply string_eq.
    rewrite !to_of_list, !to_list_app, !to_of_list. apply reverse_app.
Qed.
Lemma trim_suffix_app r suf : trim_suffix (r +:+ suf) suf = r.
Proof.
  unfold trim_suffix. assert (has_suffix (r +:+ suf) suf = true) as -> by (apply has_suffix_spec; by exists r).
  apply string_eq. rewrite to_list_substring, !length_to_list, to_list_app, length_app, drop_0.
  by rewrite take_app_length' by lia.
Qed.
(** A key with or without its final slash. *)
Lemma trimmed_key key : let k := trim_suffix key "/" in key = k ∧ has_suffix key "/" = false ∨ key = k +:+ "/" ∧ has_suffix key "/" = true.
Proof.
  cbv zeta. destruct (has_suffix key "/") eqn:H; [right|left].
  - apply has_suffix_spec in H as [r ->]. by rewrite trim_suffix_app.
  - unfold trim_suffix. by rewrite H.
Qed.

Lemma plain_decide r : forallb (λ part, negb (bool_decide (part = "" ∨ part = "." ∨ part = "..")%string)) (split r) = true ↔ plainPath r.
Proof.
  unfold plainPath. pose proof (split_forall r) as Hs. rewrite forallb_forall, Forall_forall. rewrite Forall_forall in Hs.
  split; intros H c Hc.
  - pose proof (Hs c Hc). apply list_elem_of_In, H, negb_true_iff, bool_decide_eq_false in Hc. unfold normal. tauto.
  - apply list_elem_of_In in Hc. apply negb_true_iff, bool_decide_eq_false. destruct (H c Hc) as (?&?&?&_). tauto.
Qed.
Lemma valid_key_plain key : validTransferKey key = true → plainPath (trim_suffix key "/").
Proof. unfold validTransferKey. intros [_ H]%andb_true_iff. by apply plain_decide. Qed.
Lemma plain_no_slash r : plainPath r → has_suffix r "/" = false.
Proof.
  intros Hr. apply not_true_iff_false. intros [t ->]%has_suffix_spec. unfold plainPath in Hr.
  change (t +:+ "/") with (t +:+ "/" +:+ "") in Hr. rewrite split_app in Hr. apply Forall_app in Hr as [_ Hr]. by apply Forall_cons in Hr as [(?&_) _].
Qed.
Lemma plain_valid r : plainPath r → contains_byte 92 r = false → contains_byte 0 r = false → validTransferKey r = true.
Proof.
  intros Hr H1 H2. unfold validTransferKey. rewrite H1, H2. pose proof (plain_nonempty _ Hr).
  rewrite bool_decide_eq_false_2 by done. simpl. apply plain_decide. unfold trim_suffix. by rewrite (plain_no_slash _ Hr).
Qed.

(** The root of a valid key: its components end with those of the key. *)
Lemma object_root_comps prefix key : validTransferKey key = true →
  ∃ l, cleanComps (objectRoot prefix key) = l ++ split (trim_suffix key "/") ∧ objectRoot prefix key ≠ ""%string ∧
    l = (if bool_decide (prefix = ""%string) then [] else cleanComps prefix) ∧
    objectRoot prefix key = pathText (rootedPath (objectRoot prefix key)) (cleanComps (objectRoot prefix key)).
Proof.
  intros Hv. pose proof (valid_key_plain _ Hv) as Hk. set (k := trim_suffix key "/") in *. pose proof (plain_nonempty _ Hk) as Hne.
  assert (Hkey : key ≠ ""%string) by (intros ->; done).
  assert (Hcomps : ∀ p, p ≠ ""%string → cleanComps (p +:+ "/" +:+ key) = cleanComps p ++ split k).
  { intros p Hp. destruct (trimmed_key key) as [[-> _]|[-> _]]; fold k; [by apply comps_below|].
    rewrite <- !string_app_assoc, (string_app_assoc p "/"). rewrite comps_trailing; [by apply comps_below|]. by destruct p. }
  assert (Hself : cleanComps key = split k).
  { assert (cleanComps k = split k) as Hck.
    { unfold cleanComps. rewrite fold_normal_any by done. by rewrite app_nil_r, reverse_involutive. }
    destruct (trimmed_key key) as [[-> _]|[-> _]]; fold k; [done|]. by rewrite comps_trailing. }
  assert (Hroot : ∃ p, objectRoot prefix key = Clean p ∧ cleanComps p = (if bool_decide (prefix = ""%string) then [] else cleanComps prefix) ++ split k).
  { unfold objectRoot. case_bool_decide as Hp.
    - subst prefix. exists key. split; [|done]. unfold Join, nonEmpty. rewrite filter_cons_False, filter_cons_True by naive_solver. done.
    - exists (prefix +:+ "/" +:+ key). split; [by apply join2|by apply Hcomps]. }
  destruct Hroot as (p & Hr & Hc). eexists. split_and!; [by rewrite Hr, clean_comps_clean|rewrite Hr; apply clean_nonempty|done|].
  rewrite Hr, clean_comps_clean, rooted_clean. apply clean_text. rewrite Hc. intros [_ ?]%app_nil. by destruct (split_not_nil k).
Qed.

(** ** Keys of files *)

Lemma pathText_app b l k : l ≠ [] → k ≠ [] → pathText b (l ++ k) = pathText b l +:+ "/" +:+ join k.
Proof. intros Hl Hk. unfold pathText, absPath. rewrite join_app by done. destruct b; [|done]. by rewrite !string_app_assoc. Qed.
Lemma upload_key_below prefix key r : validTransferKey key = true → plainPath r →
  uploadKey prefix key r = objectRoot prefix key +:+ "/" +:+ r.
Proof.
  intros Hv Hr. unfold uploadKey. rewrite bool_decide_eq_false_2; [|intros ->; by apply Forall_cons in Hr as [(_&?&_) _]].
  destruct (object_root_comps prefix key Hv) as (l & Hc & Hne & _ & Ht).
  destruct (join_below (objectRoot prefix key) r Hne Hr) as (_ & _ & ->). rewrite pathText_app, join_split, <- Ht; [done| |apply split_not_nil].
  rewrite Hc. intros [_ ?]%app_nil. by destruct (split_not_nil (trim_suffix key "/")).
Qed.
Lemma visit_below source r : plainPath r → contains_byte 92 r = false → contains_byte 0 r = false →
  visitKey (source +:+ "/") (source +:+ "/" +:+ r) = Ok (Some r).
Proof.
  intros Hr H1 H2. unfold visitKey. rewrite <- (string_app_assoc source "/" r), trim_prefix_app.
  assert (has_prefix ((source +:+ "/") +:+ r) (source +:+ "/") = true) as -> by (apply has_prefix_spec; by exists r).
  pose proof (plain_nonempty _ Hr). rewrite bool_decide_eq_false_2 by done. by rewrite (plain_valid r), plain_no_slash.
Qed.
(** What a visited key is. *)
Lemma visit_spec source key o : visitKey (source +:+ "/") key = Ok o →
  match o with
  | Some r => key = source +:+ "/" +:+ r ∧ plainPath r
  | None => has_suffix key "/" = true
  end.
Proof.
  unfold visitKey. destruct (has_prefix key (source +:+ "/")) eqn:Hp; [|done]. apply has_prefix_spec in Hp as [r ->].
  rewrite trim_prefix_app, string_app_assoc. simpl. case_bool_decide as He.
  { intros [= <-]. subst r. apply has_suffix_spec. by exists source. }
  destruct (validTransferKey r) eqn:Hv; [|done]. destruct (has_suffix r "/") eqn:Hs; intros [= <-].
  - apply has_suffix_spec in Hs as [t ->]. apply has_suffix_spec. exists (source +:+ "/" +:+ t). by rewrite !string_app_assoc.
  - split; [done|]. apply valid_key_plain in Hv. unfold trim_suffix in Hv. by rewrite Hs in Hv.
Qed.
Lemma download_completed source dest fetched keys ending k p n :
  (k, p, n) ∈ (downloadKeys source dest fetched keys ending).1 →
  k ∈ keys ∧ ∃ r, visitKey source k = Ok (Some r) ∧ p = Join [dest; r] ∧ fetched k p = Ok n.
Proof.
  induction keys as [|key keys IH]; [by intros ?%elem_of_nil|]. simpl.
  destruct (visitKey source key) as [[r|]|] eqn:Hv; [| |by intros ?%elem_of_nil].
  - unfold copyFile. destruct (fetched key _) as [m|] eqn:Hf; [|by intros ?%elem_of_nil].
    destruct (downloadKeys source dest fetched keys ending) as [l e]. intros [[= -> -> ->]|H]%elem_of_cons; [set_solver|].
    destruct (IH H) as [? ?]. set_solver.
  - intros H. destruct (IH H) as [? ?]. set_solver.
Qed.
Lemma download_succeeded source dest fetched keys ending : (downloadKeys source dest fetched keys ending).2 = None →
  ∀ k, k ∈ keys → visitKey source k = Ok None ∨ ∃ p n, (k, p, n) ∈ (downloadKeys source dest fetched keys ending).1.
Proof.
  induction keys as [|key keys IH]; [by intros _ ? ?%elem_of_nil|]. simpl.
  destruct (visitKey source key) as [[r|]|] eqn:Hv; [| |done].
  - unfold copyFile. destruct (fetched key _) as [m|] eqn:Hf; [|done].
    destruct (downloadKeys source dest fetched keys ending) as [l e]. intros He k [->|Hk]%elem_of_cons; [right; set_solver|].
    destruct (IH He k Hk) as [?|(p & n & ?)]; [by left|right; set_solver].
  - intros He k [->|Hk]%elem_of_cons; [by left|auto].
Qed.
Lemma upload_succeeded prefix key upload files stored : uploadFiles prefix key upload files None = (stored, None) →
  stored = (λ '(r, s), (uploadKey prefix key r, s)) <$> files.
Proof.
  revert stored. induction files as [|[r s] files IH]; intros stored; simpl; [by intros [= <-]|].
  destruct (upload _); [done|]. destruct (uploadFiles prefix key upload files None) as [l e].
  intros [= <- ->]. by rewrite (IH l).
Qed.
(** The download of the listing of some files, all of them fetched. *)
Lemma download_files source dest fetched files :
  Forall (λ '(r, s), visitKey (source +:+ "/") (source +:+ "/" +:+ r) = Ok (Some r)
                     ∧ fetched (source +:+ "/" +:+ r) (Join [dest; r]) = Ok s) files →
  downloadKeys (source +:+ "/") dest fetched ((λ '(r, _), source +:+ "/" +:+ r) <$> files) None =
  ((λ '(r, s), (source +:+ "/" +:+ r, Join [dest; r], s)) <$> files, None).
Proof.
  induction 1 as [|[r s] files [Hv Hf] _ IH]; [done|]. rewrite !fmap_cons. cbn [downloadKeys]. rewrite Hv. unfold copyFile. rewrite Hf.
  by rewrite IH.
Qed.
(** A listing, in any order, of what an upload stored. *)
Lemma mirror_listing prefix key dest fetched keys files stored : validTransferKey key = true →
  Forall (λ '(r, _), plainPath r ∧ contains_byte 92 r = false ∧ contains_byte 0 r = false) files →
  stored = (λ '(r, s), (uploadKey prefix key r, s)) <$> files → keys ≡ₚ stored.*1 →
  (∀ k (s : Z) p, (k, s) ∈ stored → fetched k p = Ok s) →
  let out := downloadKeys (objectRoot prefix key +:+ "/") dest fetched keys None in
  out.2 = None ∧ out.1 ≡ₚ (λ '(r, s), (objectRoot prefix key +:+ "/" +:+ r, Join [dest; r], s)) <$> files.
Proof.
  intros Hv Hf -> Hp Hg out. set (at_ := λ f : string * Z, objectRoot prefix key +:+ "/" +:+ f.1).
  assert (Hk : ∀ r s, (r, s) ∈ files → uploadKey prefix key r = objectRoot prefix key +:+ "/" +:+ r).
  { intros r s Hin. rewrite Forall_forall in Hf. destruct (Hf _ Hin) as [Hr _]. by apply upload_key_below. }
  assert (Hm : ((λ '(r, s), (uploadKey prefix key r, s)) <$> files).*1 = at_ <$> files).
  { rewrite <- list_fmap_compose. apply list_fmap_ext. intros i [r s] Hi. simpl. eapply Hk, list_elem_of_lookup_2, Hi. }
  rewrite Hm in Hp. apply Permutation_map_inv in Hp as (files' & -> & Hp').
  assert (Ho : out = ((λ '(r, s), (objectRoot prefix key +:+ "/" +:+ r, Join [dest; r], s)) <$> files', None)).
  { unfold out. rewrite <- (download_files _ _ fetched).
    - f_equal. apply list_fmap_ext. by intros i [r s] _.
    - apply Forall_forall. intros [r s] Hin. rewrite <- Hp' in Hin. rewrite Forall_forall in Hf. destruct (Hf _ Hin) as (Hr & H1 & H2).
      split; [by apply visit_below|]. apply Hg, list_elem_of_fmap. exists (r, s). split; [|done]. by rewrite (Hk r s Hin). }
  rewrite Ho. split; [done|]. simpl. by rewrite Hp'.
Qed.

(** C29: The download of a directory writes each object below the destination, at the
    components that follow the source in its key and never outside, two objects never to
    the same path, and without an error it writes every key that is not a marker; what a
    successful upload of a directory stored comes back, in any order of the listing, under
    the same relative names with the same sizes, provided no name has a backslash. *)
Theorem copies_mirror_directory prefix key dest fetched keys ending :
  validTransferKey key = true → has_suffix key "/" = true → dest ≠ ""%string →
  let source := objectRoot prefix key in
  let out := CopyDownload prefix key dest fetched keys ending in
  (∀ k p n, (k, p, n) ∈ out.1 → k ∈ keys ∧ ∃ r, plainPath r ∧ k = source +:+ "/" +:+ r ∧
     cleanComps p = cleanComps dest ++ split r ∧ rootedPath p = rootedPath dest) ∧
  (∀ k k' p n n', (k, p, n) ∈ out.1 → (k', p, n') ∈ out.1 → k = k') ∧
  (out.2 = None → ∀ k, k ∈ keys → has_suffix k "/" = true ∨ ∃ p n, (k, p, n) ∈ out.1) ∧
  (∀ upload files stored, Forall (λ '(r, _), plainPath r ∧ contains_byte 92 r = false ∧ contains_byte 0 r = false) files →
     CopyUpload prefix key (Ok true) upload files None = (stored, None) →
     keys ≡ₚ stored.*1 → ending = None → (∀ k s p, (k, s) ∈ stored → fetched k p = Ok s) →
     out.2 = None ∧ out.1 ≡ₚ (λ '(r, s), (source +:+ "/" +:+ r, Join [dest; r], s)) <$> files).
Proof.
  intros Hv Hs Hd source out.
  assert (Hout : out = downloadKeys (source +:+ "/") dest fetched keys ending) by (unfold out, CopyDownload; by rewrite Hs).
  clearbody out. subst out.
  assert (Hin : ∀ k p n, (k, p, n) ∈ (downloadKeys (source +:+ "/") dest fetched keys ending).1 → k ∈ keys ∧ ∃ r, plainPath r ∧
     k = source +:+ "/" +:+ r ∧ cleanComps p = cleanComps dest ++ split r ∧ rootedPath p = rootedPath dest).
  { intros k p n (Hk & r & [-> Hr]%visit_spec & -> & _)%download_completed. destruct (join_below dest r Hd Hr) as (H1 & H2 & _). eauto 10. }
  split_and!; [done| | |].
  - intros k k' p n n' (_ & r & _ & -> & H1 & _)%Hin (_ & r' & _ & -> & H2 & _)%Hin.
    rewrite H1 in H2. apply app_inv_head in H2. by rewrite <- (join_split r), <- (join_split r'), H2.
  - intros He k Hk. destruct (download_succeeded _ _ _ _ _ He k Hk) as [?%visit_spec|?]; auto.
  - intros upload files stored Hf Hu Hp -> Hg. simpl in Hu. apply upload_succeeded in Hu.
    by apply (mirror_listing prefix key dest fetched keys files stored).
Qed.
Definition treeFiles : list (string * Z) := [("a.txt"%string, 5); ("src/main.go"%string, 7)].
Definition treeKeys : list string := ["hostel/out/src/main.go"; "hostel/out/a.txt"; "hostel/out/"]%string.
Definition treeFetch (k p : string) : result copyCause Z := if bool_decide (k = "hostel/out/a.txt"%string) then Ok 5 else Ok 7.
Lemma copies_mirror_directory_witness :
  CopyUpload "hostel" "out/" (Ok true) (λ _, None) treeFiles None =
    ([("hostel/out/a.txt"%string, 5); ("hostel/out/src/main.go"%string, 7)], None) ∧
  CopyDownload "hostel" "out/" "/workspace" treeFetch treeKeys None =
    ([("hostel/out/src/main.go", "/workspace/src/main.go", 7); ("hostel/out/a.txt", "/workspace/a.txt", 5)]%string, None) ∧
  (∀ k, k ∈ treeKeys → has_suffix k "/" = true ∨
     ∃ p n, (k, p, n) ∈ (CopyDownload "hostel" "out/" "/workspace" treeFetch treeKeys None).1).
Proof.
  split_and!; [by vm_compute..|].
  apply (copies_mirror_directory "hostel" "out/" "/workspace" treeFetch treeKeys None); [by vm_compute|by vm_compute|done|by vm_compute].
Defined.

(** A name with a backslash is uploaded, and no download of the directory gets past it. *)
Lemma backslash_name_never_downloads :
  let name := String "a" (String (ascii_of_nat 92) "b") in
  ∃ k, CopyUpload "hostel" "out/" (Ok true) (λ _, None) [(name, 1)] None = ([(k, 1)], None) ∧
    ∀ fetched rest ending, CopyDownload "hostel" "out/" "/workspace" fetched (k :: rest) ending =
      ([], Some (mkOperationError "list" "." CauseInvalid)).
Proof. eexists. split; [by vm_compute|]. intros fetched rest ending. reflexivity. Qed.
