(* ===== verification/CdpFilter.v ===== *)
(** * CdpFilter: what a bed sees of the shared browser

    Models [internal/amenity/chromium_cdp_proxy.go]: the filter between the debugging client
    of a bed and the browser all beds share.  A message is its JSON value, or text that is
    not JSON; a value stands for every text that parses to it.  Decoding follows
    [encoding/json]: names of struct fields match exactly or else up to case folding, later
    members overwrite earlier ones, and a member of the wrong type makes the decoding
    report an error. *)

From S2P Require Import Prelude.

(** ** JSON values *)

(** Numbers that are integer literals carry their value, others their text and whether a
    binary64 number can hold them. *)
Inductive json :=
| JNull | JBool (b : bool) | JInt (n : Z) | JFrac (text : string) (finite : bool) | JStr (s : string)
| JArr (l : list json) | JObj (l : list (string * json)).
Inductive raw := Malformed (text : string) | Value (v : json).

(** The nearest binary64 number to an integer, ties to even. *)
Definition float64Of (n : Z) : option Z :=
  let a := Z.abs n in
  if a <? 2 ^ 53 then Some n
  else
    let e := Z.log2 a - 52 in
    let q := a / 2 ^ e in
    let r := a mod 2 ^ e in
    let half := 2 ^ (e - 1) in
    let q := if r <? half then q else if half <? r then q + 1 else if Z.even q then q else q + 1 in
    if q * 2 ^ e <? 2 ^ 1024 then Some (Z.sgn n * (q * 2 ^ e)) else None.

Definition entry_le (a b : string * json) : Prop := String.le a.1 b.1.
#[export] Instance entry_le_dec a b : Decision (entry_le a b).
Proof. unfold entry_le. apply _. Defined.
Definition asMap (l : list (string * json)) : gmap string json := foldl (λ m kv, <[kv.1 := kv.2]> m) ∅ l.
(** [json.Marshal] of a map: members in the order of their names. *)
Definition ofMap (m : gmap string json) : json := JObj (merge_sort entry_le (map_to_list m)).

(** [json.Unmarshal] into [any], seen as the value it marshals to. *)
Fixpoint anyOf (v : json) : option json :=
  match v with
  | JInt n => JInt <$> float64Of n
  | JFrac _ false => None
  | JArr l => (λ l, JArr l) <$> (fix go l := match l with [] => Some [] | v :: l => v ← anyOf v; l ← go l; Some (v :: l) end) l
  | JObj l =>
      (λ l, ofMap (asMap l)) <$>
      (fix go l := match l with [] => Some [] | (k, v) :: l => v ← anyOf v; l ← go l; Some ((k, v) :: l) end) l
  | v => Some v
  end.
Fixpoint anyMembers (l : list (string * json)) : option (list (string * json)) :=
  match l with [] => Some [] | (k, v) :: l => v ← anyOf v; l ← anyMembers l; Some ((k, v) :: l) end.

(** ** Decoding into structs *)

(** [foldName] of encoding/json: ASCII letters, and the two letters outside ASCII that fold
    to ASCII ones (the long s and the Kelvin sign, as UTF-8). *)
Fixpoint foldBytes (l : list ascii) : list Z :=
  match l with
  | [] => []
  | a :: l =>
      match l with
      | b :: l' =>
          if (byte a =? 197) && (byte b =? 191) then 83 :: foldBytes l'
          else match l' with
               | c :: l'' => if (byte a =? 226) && (byte b =? 132) && (byte c =? 170) then 75 :: foldBytes l''
                             else (if is_lower a then byte a - 32 else byte a) :: foldBytes l
               | [] => (if is_lower a then byte a - 32 else byte a) :: foldBytes l
               end
      | [] => [if is_lower a then byte a - 32 else byte a]
      end
  end.
Definition foldName (s : string) : list Z := foldBytes (to_list s).
(** The field of a struct a member is decoded into. *)
Definition fieldOf (fields : list string) (k : string) : option string :=
  if bool_decide (k ∈ fields) then Some k
  else head (filter (λ f, foldName f = foldName k) fields).

(** One field of a struct: every member that is decoded into it in order, and whether all
    of them had the right type. *)
Definition readField {A} (dec : A → json → A * bool) (fields : list string) (name : string) (init : A) (l : list (string * json)) : A * bool :=
  foldl (λ acc kv, if bool_decide (fieldOf fields kv.1 = Some name) then let '(a, ok) := dec acc.1 kv.2 in (a, acc.2 && ok) else acc) (init, true) l.
Definition decInt (cur : Z) (v : json) : Z * bool :=
  match v with
  | JNull => (cur, true)
  | JInt n => if (- 2 ^ 63 <=? n) && (n <? 2 ^ 63) then (n, true) else (cur, false)
  | _ => (cur, false)
  end.
Definition decString (cur : string) (v : json) : string * bool :=
  match v with JNull => (cur, true) | JStr s => (s, true) | _ => (cur, false) end.
Definition decRaw (cur : option json) (v : json) : option json * bool := (Some v, true).

(** ** The filter *)

Record cdpFilter := mkFilter { contextID : string; ownedCtx : gset string; pending : gmap Z string }.
Definition newFilter (contextID : string) : cdpFilter := mkFilter contextID {[contextID]} ∅.
Definition owns (f : cdpFilter) (c : string) : bool := negb (bool_decide (c = ""%string)) && bool_decide (c ∈ ownedCtx f).
Definition withPending (f : cdpFilter) (p : gmap Z string) : cdpFilter := mkFilter (contextID f) (ownedCtx f) p.

(** Identifier and method of a client's message, unless decoding fails. *)
Definition clientFields : list string := ["id"; "method"]%string.
Definition clientEnvelope (v : json) : option (Z * string) :=
  match v with
  | JNull => Some (0, ""%string)
  | JObj l =>
      let '(id, ok) := readField decInt clientFields "id" 0 l in
      let '(method, ok') := readField decString clientFields "method" ""%string l in
      if ok && ok' then Some (id, method) else None
  | _ => None
  end.
Definition setParamField (v : json) (field val : string) : option json :=
  match v with
  | JObj l =>
      l ← anyMembers l;
      let m := asMap l in
      let params := match m !! "params"%string with Some (JObj p) => asMap p | _ => ∅ end in
      Some (ofMap (<["params"%string := ofMap (<[field := JStr val]> params)]> m))
  | _ => None
  end.
Definition killing : list string := ["Browser.close"; "Browser.crash"; "Browser.crashGpuProcess"]%string.
Definition onClientMsg (f : cdpFilter) (r : raw) : cdpFilter * option raw :=
  match r with
  | Malformed _ => (f, Some r)
  | Value v =>
      match clientEnvelope v with
      | None => (f, Some r)
      | Some (id, method) =>
          if bool_decide (method = ""%string) then (f, Some r)
          else if bool_decide (method ∈ killing) then (f, None)
          else
            let r := if bool_decide (method = "Target.createTarget"%string)
                     then match setParamField v "browserContextId" (contextID f) with Some v => Value v | None => r end
                     else r in
            (if id =? 0 then f else withPending f (<[id := method]> (pending f)), Some r)
      end
  end.

Definition browserFields : list string := ["id"; "method"; "result"; "params"]%string.
Definition browserEnvelope (v : json) : option (Z * string * option json * option json) :=
  match v with
  | JNull => Some (0, ""%string, None, None)
  | JObj l =>
      let '(id, ok) := readField decInt browserFields "id" 0 l in
      let '(method, ok') := readField decString browserFields "method" ""%string l in
      if ok && ok' then Some (id, method, (readField decRaw browserFields "result" None l).1, (readField decRaw browserFields "params" None l).1)
      else None
  | _ => None
  end.
(** The error of these decodings is ignored. *)
Definition decContextID (cur : string) (v : json) : string * bool :=
  match v with
  | JNull => (cur, true)
  | JObj l => readField decString ["browserContextId"%string] "browserContextId" cur l
  | _ => (cur, false)
  end.
Definition resultContextID (result : option json) : string := match result with Some v => (decContextID "" v).1 | None => "" end.
Definition targetInfoContextID (params : option json) : string :=
  match params with Some (JObj l) => (readField decContextID ["targetInfo"%string] "targetInfo" ""%string l).1 | _ => "" end.

(** The infos of a listing: none, or the members of each. *)
Fixpoint decMaps (l : list json) : option (list (gmap string json)) :=
  match l with
  | [] => Some []
  | v :: l =>
      m ← match v with JNull => Some ∅ | JObj p => asMap <$> anyMembers p | _ => None end;
      l ← decMaps l;
      Some (m :: l)
  end.
Definition decInfos (cur : option (list (gmap string json))) (v : json) : option (list (gmap string json)) * bool :=
  match v with
  | JNull => (None, true)
  | JArr l => match decMaps l with Some ms => (Some ms, true) | None => (cur, false) end
  | _ => (cur, false)
  end.
Definition decResult (cur : option (list (gmap string json))) (v : json) : option (list (gmap string json)) * bool :=
  match v with
  | JNull => (cur, true)
  | JObj l => readField decInfos ["targetInfos"%string] "targetInfos" cur l
  | _ => (cur, false)
  end.
Definition infoContext (m : gmap string json) : string := match m !! "browserContextId"%string with Some (JStr c) => c | _ => "" end.
Definition filterGetTargets (v : json) (f : cdpFilter) : option json :=
  match v with
  | JObj l =>
      let '(id, ok) := readField decInt ["id"; "result"]%string "id" 0 l in
      let '(infos, ok') := readField decResult ["id"; "result"]%string "result" None l in
      if ok && ok' then
        let kept := match infos with
                    | None => JNull
                    | Some ms => JArr (ofMap <$> filter (λ m, owns f (infoContext m) = true) ms)
                    end in
        Some (JObj [("id"%string, JInt id); ("result"%string, JObj [("targetInfos"%string, kept)])])
      else None
  | JNull => Some (JObj [("id"%string, JInt 0); ("result"%string, JObj [("targetInfos"%string, JNull)])])
  | _ => None
  end.
Definition onBrowserMsg (f : cdpFilter) (r : raw) : cdpFilter * option raw :=
  match r with
  | Malformed _ => (f, Some r)
  | Value v =>
      match browserEnvelope v with
      | None => (f, Some r)
      | Some (id, method, result, params) =>
          if negb (bool_decide (method = ""%string)) then
            if bool_decide (method ∈ ["Target.targetCreated"; "Target.targetInfoChanged"]%string) then
              let c := targetInfoContextID params in
              if negb (bool_decide (c = ""%string)) && negb (owns f c) then (f, None) else (f, Some r)
            else (f, Some r)
          else
            let answered := default ""%string (pending f !! id) in
            let f := withPending f (delete id (pending f)) in
            if bool_decide (answered = "Target.createBrowserContext"%string) then
              let c := resultContextID result in
              if bool_decide (c = ""%string) then (f, Some r) else (mkFilter (contextID f) ({[c]} ∪ ownedCtx f) (pending f), Some r)
            else if bool_decide (answered = "Target.getTargets"%string) then
              match filterGetTargets v f with Some v => (f, Some (Value v)) | None => (f, Some r) end
            else (f, Some r)
      end
  end.

(** ** A client and a browser that speak the protocol

    A member is unambiguous when every reader of the text sees the same one: names occur
    once, and no other name folds to one of the fields. *)



Section reading.
Context {A : Type} (dec : A → json → A * bool) (fields : list string).


End reading.



(** ** One connection *)





(** ** What passes *)




(** A listing of two targets, one of them of a sibling. *)
Definition info (c : string) : json := JObj [("browserContextId"%string, JStr c); ("targetId"%string, JStr "t")].
Definition listing (id : Z) : json := JObj [("id"%string, JInt id); ("result"%string, JObj [("targetInfos"%string, JArr [info "mine"; info "other"])])].
Definition listCommand (id : Z) : json := JObj [("id"%string, JInt id); ("method"%string, JStr "Target.getTargets")].

(** Outside those conditions the filter does not hold.  A listing requested under the
    identifier zero is not remembered and its answer passes with the targets of every bed. *)
Lemma unnumbered_listing_leaks : let f := newFilter "mine" in
  onClientMsg f (Value (listCommand 0)) = (f, Some (Value (listCommand 0))) ∧ onBrowserMsg f (Value (listing 0)) = (f, Some (Value (listing 0))).
Proof. split; by vm_compute. Qed.
(** A second command under the same identifier makes the filter forget the listing. *)
Lemma reused_identifier_leaks : let f := newFilter "mine" in
  let other := JObj [("id"%string, JInt 7); ("method"%string, JStr "Browser.getVersion")] in
  let f1 := (onClientMsg f (Value (listCommand 7))).1 in
  let f2 := (onClientMsg f1 (Value other)).1 in
  (onBrowserMsg f2 (Value (listing 7))).2 = Some (Value (listing 7)).
Proof. by vm_compute. Qed.
(** A member that only differs in case from the identifier and is no number makes the
    decoding fail: the command that closes the shared browser passes. *)
Lemma ambiguous_member_closes_browser : let f := newFilter "mine" in
  let close := JObj [("ID"%string, JStr "x"); ("id"%string, JInt 1); ("method"%string, JStr "Browser.close")] in
  onClientMsg f (Value close) = (f, Some (Value close)).
Proof. by vm_compute. Qed.
(** Attachments to targets of other beds are announced. *)
Lemma attached_event_leaks : let f := newFilter "mine" in
  let v := JObj [("method"%string, JStr "Target.attachedToTarget");
                 ("params"%string, JObj [("sessionId"%string, JStr "s"); ("targetInfo"%string, info "other")])] in
  onBrowserMsg f (Value v) = (f, Some (Value v)).
Proof. by vm_compute. Qed.
