(* ===== verification/Browser.v ===== *)
(** * Browser: the browser all beds share

    Models [internal/amenity/chromium.go], [chromium_runtime.go] and [chromium_tenant.go]:
    tenants with their gates, the runtime gate, lazy start, crash supervision with backoff,
    idle stop and shutdown.  A thread is a goroutine between two of its critical sections;
    a step is one section, with the answer of the browser, the clock or the caller's
    context as argument.  Fields that are only written under the exclusive gate are read
    in the section that uses them.

    The browser is launched by the facility, or in attach mode it is an external one to
    which the facility only connects: it and its contexts outlive the connection. *)

From S2P Require Import Prelude Volumes.

(** ** State *)

Definition runtimeWeight : Z := 2 ^ 30.
Definition second : Z := 1000000000.
Inductive facility_state := StateUnavailable | StateIdle | StateRunning | StateClosed.
#[export] Instance facility_state_eq_dec : EqDecision facility_state.
Proof. solve_decision. Defined.
Record ChromiumConfig := mkChromiumConfig { attach : bool; IdleStop : Z; DebugPort : Z; managedPorts : bool }.
(** The gate of a tenant is free or taken. *)
Record browserTenant := mkTenant { tOperation : bool; tClosing : bool; tClosed : bool }.
(** The browser's name of the context, and whether its tab is attached. *)
Record browserContext := mkContext { bcRemote : Z; bcTab : bool }.
#[export] Instance browserContext_eq_dec : EqDecision browserContext.
Proof. solve_decision. Defined.
Record crashes := mkCrashes { crashCount : Z; lastCrash : Z; notBefore : Z }.

(** Where a goroutine is: on the way to a context of a tenant ([acquireTenant]), closing a
    tenant or its context, watching a browser, an idle timer, or shutting down or starting
    the facility. *)
Inductive pc :=
| AWaitTenant (t : Z) | AWaitShared (t : Z) | AShared (t : Z) | AWaitExclusive (t : Z) | AStart (t : Z) | ALaunch (t : Z)
| AEntered (t : Z) | APrepare (t : Z) | ARelease (t : Z) | ACreate (t : Z) | AAttach (t r : Z) | AReady (t r : Z)
| CWaitTenant (t : Z) | CWaitShared (t : Z) | CRelease (t : Z) | CMark (t : Z)
| KWaitTenant (t : Z) | KWaitShared (t : Z) | KCheck (t : Z) | KRelease (t : Z)
| WWait (m : Z) | WCheck (m : Z) | WStop
| TArmed | TWait | TCheck | TStop
| FWait | FDispose (ids : list Z) (failed : bool) | FStop | FMark | FJoin
| SWait | SCheck | SProbe.

Record chromium := mkChromium { closed : bool; state : facility_state; tenants : gmap Z browserTenant; handles : gset Z; master : option Z; contexts : gmap Z browserContext; cdpSecrets : gmap Z Z; idleTimer : option Z; crash : crashes; held : Z; workers : Z; portHeld : bool }.
Definition setClosed (c : chromium) (x : bool) : chromium := mkChromium x (state c) (tenants c) (handles c) (master c) (contexts c) (cdpSecrets c) (idleTimer c) (crash c) (held c) (workers c) (portHeld c).
Definition setState (c : chromium) (x : facility_state) : chromium := mkChromium (closed c) x (tenants c) (handles c) (master c) (contexts c) (cdpSecrets c) (idleTimer c) (crash c) (held c) (workers c) (portHeld c).
Definition setTenants (c : chromium) (x : gmap Z browserTenant) : chromium := mkChromium (closed c) (state c) x (handles c) (master c) (contexts c) (cdpSecrets c) (idleTimer c) (crash c) (held c) (workers c) (portHeld c).
Definition setHandles (c : chromium) (x : gset Z) : chromium := mkChromium (closed c) (state c) (tenants c) x (master c) (contexts c) (cdpSecrets c) (idleTimer c) (crash c) (held c) (workers c) (portHeld c).
Definition setMaster (c : chromium) (x : option Z) : chromium := mkChromium (closed c) (state c) (tenants c) (handles c) x (contexts c) (cdpSecrets c) (idleTimer c) (crash c) (held c) (workers c) (portHeld c).
Definition setContexts (c : chromium) (x : gmap Z browserContext) : chromium := mkChromium (closed c) (state c) (tenants c) (handles c) (master c) x (cdpSecrets c) (idleTimer c) (crash c) (held c) (workers c) (portHeld c).
Definition setSecrets (c : chromium) (x : gmap Z Z) : chromium := mkChromium (closed c) (state c) (tenants c) (handles c) (master c) (contexts c) x (idleTimer c) (crash c) (held c) (workers c) (portHeld c).
Definition setIdleTimer (c : chromium) (x : option Z) : chromium := mkChromium (closed c) (state c) (tenants c) (handles c) (master c) (contexts c) (cdpSecrets c) x (crash c) (held c) (workers c) (portHeld c).
Definition setCrash (c : chromium) (x : crashes) : chromium := mkChromium (closed c) (state c) (tenants c) (handles c) (master c) (contexts c) (cdpSecrets c) (idleTimer c) x (held c) (workers c) (portHeld c).
Definition setHeld (c : chromium) (x : Z) : chromium := mkChromium (closed c) (state c) (tenants c) (handles c) (master c) (contexts c) (cdpSecrets c) (idleTimer c) (crash c) x (workers c) (portHeld c).
Definition setWorkers (c : chromium) (x : Z) : chromium := mkChromium (closed c) (state c) (tenants c) (handles c) (master c) (contexts c) (cdpSecrets c) (idleTimer c) (crash c) (held c) x (portHeld c).
Definition setPortHeld (c : chromium) (x : bool) : chromium := mkChromium (closed c) (state c) (tenants c) (handles c) (master c) (contexts c) (cdpSecrets c) (idleTimer c) (crash c) (held c) (workers c) x.
Definition NewChromium : chromium := mkChromium false StateUnavailable ∅ ∅ None ∅ ∅ None (mkCrashes 0 0 0) 0 0 false.

(** Contexts that were made for tenants and that the facility has no record of: [lost] when
    the context was created but the answer was not received, [forgotten] when the record
    was dropped with the connection to an external browser.  [outside] are the contexts
    of the external browser while there is no connection to it. *)
Record leftovers := mkLeft { lost : gset Z; forgotten : gset Z; outside : gset Z }.
(** The facility among its goroutines, with the browsers that run, or the connections to the
    external one, and the contexts created in them for tenants. *)
Record world := mkWorld { chr : chromium; threads : gmap Z pc; browsers : gmap Z (gset Z); orphans : leftovers; nextID : Z; shutdownDone : bool }.
Definition setChr (w : world) (x : chromium) : world := mkWorld x (threads w) (browsers w) (orphans w) (nextID w) (shutdownDone w).
Definition setThreads (w : world) (x : gmap Z pc) : world := mkWorld (chr w) x (browsers w) (orphans w) (nextID w) (shutdownDone w).
Definition setBrowsers (w : world) (x : gmap Z (gset Z)) : world := mkWorld (chr w) (threads w) x (orphans w) (nextID w) (shutdownDone w).
Definition setOrphans (w : world) (x : leftovers) : world := mkWorld (chr w) (threads w) (browsers w) x (nextID w) (shutdownDone w).
Definition setNext (w : world) : world := mkWorld (chr w) (threads w) (browsers w) (orphans w) (nextID w + 1) (shutdownDone w).
Definition setDone (w : world) : world := mkWorld (chr w) (threads w) (browsers w) (orphans w) (nextID w) true.
Definition initial : world := mkWorld NewChromium ∅ ∅ (mkLeft ∅ ∅ ∅) 1 false.
Definition setLost (w : world) (x : gset Z) : world := setOrphans w (mkLeft x (forgotten (orphans w)) (outside (orphans w))).
(** The connection [m] ends, and the external browser keeps its contexts. *)
Definition disconnect (w : world) (m : Z) : world :=
  let o := orphans w in
  setOrphans (setBrowsers w (delete m (browsers w))) (mkLeft (lost o) (forgotten o) (default ∅ (browsers w !! m) ∪ outside o)).

Definition goto (w : world) (th : Z) (p : pc) : world := setThreads w (<[th := p]> (threads w)).
Definition threadEnd (w : world) (th : Z) : world := setThreads w (delete th (threads w)).
(** A new goroutine under a fresh number. *)
Definition spawn (w : world) (p : pc) : world := setNext (goto w (nextID w) p).
Definition upd (w : world) (f : chromium → chromium) : world := setChr w (f (chr w)).

(** ** The runtime gate and the gates of tenants *)

Definition acquireRuntime (w : world) (n : Z) : option world :=
  if held (chr w) + n <=? runtimeWeight then Some (upd w (λ c, setHeld c (held c + n))) else None.
Definition releaseRuntime (n : Z) (w : world) : world := upd w (λ c, setHeld c (held c - n)).
Definition tenantOf (c : chromium) (t : Z) : browserTenant := default (mkTenant false true true) (tenants c !! t).
Definition withTenant (c : chromium) (t : Z) (f : browserTenant → browserTenant) : chromium :=
  setTenants c (alter f t (tenants c)).
Definition acquireOperation (w : world) (t : Z) : option world :=
  if tOperation (tenantOf (chr w) t) then None
  else Some (upd w (λ c, withTenant c t (λ x, mkTenant true (tClosing x) (tClosed x)))).
Definition releaseOperation (t : Z) (w : world) : world := upd w (λ c, withTenant c t (λ x, mkTenant false (tClosing x) (tClosed x))).
(** The deferred releases of a tenant operation that ends. *)
Definition leave (w : world) (th t : Z) : world := threadEnd (releaseOperation t (releaseRuntime 1 w)) th.

(** ** Idle timer, stop and contexts *)

Definition stopIdleTimerLocked (w : world) : world :=
  match idleTimer (chr w) with
  | None => w
  | Some k =>
      let w' := match threads w !! k with
                | Some TArmed => upd (threadEnd w k) (λ c, setWorkers c (workers c - 1))
                | _ => w
                end in
      upd w' (λ c, setIdleTimer c None)
  end.
Definition scheduleIdleLocked (cfg : ChromiumConfig) (w : world) : world :=
  let c := chr w in
  if negb (bool_decide (contexts c = ∅)) || attach cfg || closed c || (IdleStop cfg <=? 0) || negb (bool_decide (state c = StateRunning)) then w
  else
    let w := stopIdleTimerLocked w in
    let k := nextID w in
    upd (spawn w TArmed) (λ c, setIdleTimer (setWorkers c (workers c + 1)) (Some k)).
Definition recorded (c : chromium) : gset Z := map_to_set (λ _ b, bcRemote b) (contexts c).
(** [stopBrowser]: the process ends with its contexts; of an external browser only the
    connection ends, and the contexts still recorded are forgotten. *)
Definition stopBrowser (cfg : ChromiumConfig) (w : world) : world :=
  let w' := match master (chr w) with
            | Some m => if attach cfg then disconnect w m else setBrowsers w (delete m (browsers w))
            | None => w
            end in
  let o := orphans w' in
  let w' := if attach cfg then setOrphans w' (mkLeft (lost o) (recorded (chr w) ∪ forgotten o) (outside o)) else w' in
  upd w' (λ c, setState (setMaster (setContexts c ∅) None) StateIdle).

(** What a request to the browser comes to: it was done, it was not, or it was done and
    the answer was lost. *)
Inductive remote := Succeed | Fail | Lost.
Definition dispose (w : world) (r : Z) : world :=
  match master (chr w) with Some m => setBrowsers w (alter (λ rs, rs ∖ {[r]}) m (browsers w)) | None => w end.
(** The published browser, or the connection to it, is there. *)
Definition connected (w : world) : bool :=
  match master (chr w) with Some m => bool_decide (is_Some (browsers w !! m)) | None => false end.
(** [releaseContext]: the world after it, and whether it succeeded.  Without a browser no
    request succeeds. *)
Definition releaseContext (cfg : ChromiumConfig) (w : world) (t : Z) (a : remote) : world * bool :=
  match contexts (chr w) !! t with
  | None => (w, true)
  | Some x =>
      let dropped w := scheduleIdleLocked cfg (upd w (λ c, setContexts c (delete t (contexts c)))) in
      if bool_decide (state (chr w) = StateRunning) then
        match a, connected w with
        | Succeed, true => (dropped (dispose w (bcRemote x)), true)
        | Lost, true => (dispose w (bcRemote x), false)
        | _, _ => (w, false)
        end
      else (dropped w, true)
  end.

(** ** Crash supervision *)

Definition crashWindow : Z := 300 * second.
Definition backoff (count : Z) : Z := 2 ^ Z.min (count - 1) 6 * second.
Definition crashed (k : crashes) (now : Z) : crashes :=
  let count := (if crashWindow <? now - lastCrash k then 0 else crashCount k) + 1 in
  mkCrashes count now (now + backoff count).

(** ** Calls that are one section *)

(** The path of a screenshot below the workspace, unless it is refused. *)
Definition screenshotPath (relPath : string) : option string :=
  let rel := Clean relPath in
  if has_prefix rel "../" || has_prefix rel "/" then None else Some rel.

Definition NewTenant (w : world) : option (Z * world) :=
  let c := chr w in
  if closed c || bool_decide (state c = StateUnavailable) then None
  else
    let t := nextID w in
    Some (t, setNext (upd w (λ c, setHandles (setTenants c (<[t := mkTenant false false false]> (tenants c))) ({[t]} ∪ handles c)))).
Definition proxyable (cfg : ChromiumConfig) : bool := attach cfg || (0 <? DebugPort cfg).
Definition CDPToken (cfg : ChromiumConfig) (w : world) (t : Z) : option (Z * world) :=
  let c := chr w in
  if negb (proxyable cfg) then None
  else if closed c || negb (bool_decide (t ∈ handles c)) || tClosing (tenantOf c t) then None
  else match cdpSecrets c !! t with
       | Some s => Some (s, w)
       | None => Some (nextID w, setNext (upd w (λ c, setSecrets c (<[t := nextID w]> (cdpSecrets c)))))
       end.
(** The check of [ServeCDP]. *)
Definition authorized (w : world) (t token : Z) : bool := bool_decide (cdpSecrets (chr w) !! t = Some token).
Record BrowserTenantStatus := mkTenantStatus { BrowserReady : bool; CleanupPending : bool; StatusClosed : bool }.
Definition tenantStatus (w : world) (t : Z) : BrowserTenantStatus :=
  let x := tenantOf (chr w) t in
  if tClosed x then mkTenantStatus false false true
  else if tClosing x then mkTenantStatus false true false
  else match contexts (chr w) !! t with
       | Some b => mkTenantStatus (bcTab b) (negb (bcTab b)) false
       | None => mkTenantStatus false false false
       end.

(** The first sections of the calls that wait. *)
Definition acquireTenant (w : world) (t : Z) : option world := if bool_decide (t ∈ handles (chr w)) then Some (spawn w (AWaitTenant t)) else None.
Definition closeTenant (w : world) (t : Z) : option world :=
  if tClosed (tenantOf (chr w) t) then None
  else Some (spawn (upd w (λ c, withTenant (setSecrets c (delete t (cdpSecrets c))) t (λ x, mkTenant (tOperation x) true (tClosed x)))) (CWaitTenant t)).
Definition CloseContext (w : world) (t : Z) : world := spawn w (KWaitTenant t).
Definition closeFacility (w : world) : world :=
  spawn (stopIdleTimerLocked (upd w (λ c, setSecrets (setClosed c true) ∅))) FWait.
Definition startFacility (w : world) : world := spawn w SWait.

(** ** The sections of waiting calls *)

Inductive answer := Go | Cancelled | Clock (now : Z) | Reply (r : remote) | Probed (found : bool) (port : bool).

(** [startBrowser] up to the launch: an error, a browser that runs, or a launch. *)
Inductive launch_check := Refused | AlreadyRunning | Launching.
Definition startCheck (c : chromium) (now : Z) : launch_check :=
  if closed c || bool_decide (state c = StateUnavailable) then Refused
  else if bool_decide (state c = StateRunning) then AlreadyRunning
  else if now <? notBefore (crash c) then Refused
  else Launching.
(** The browser was launched or attached: publish it with its watcher, unless the facility
    closed.  An external browser has the contexts it kept. *)
Definition publishBrowser (cfg : ChromiumConfig) (w : world) : option world :=
  if closed (chr w) then None
  else
    let m := nextID w in
    let o := orphans w in
    let w := setBrowsers w (<[m := if attach cfg then outside o else ∅]> (browsers w)) in
    let w := setNext (if attach cfg then setOrphans w (mkLeft (lost o) (forgotten o) ∅) else w) in
    Some (upd (spawn w (WWait m)) (λ c, setState (setMaster (setWorkers c (workers c + 1)) (Some m)) StateRunning)).

(** [enterRuntime] with the gate of the tenant held. *)
Definition enterStep (cfg : ChromiumConfig) (w : world) (th : Z) (p : pc) (a : answer) : option world :=
  match p, a with
  | AWaitShared t, Cancelled => Some (threadEnd (releaseOperation t w) th)
  | AWaitShared t, Go => w ← acquireRuntime w 1; Some (goto w th (AShared t))
  | AShared t, Go =>
      if bool_decide (state (chr w) = StateRunning) && negb (closed (chr w)) then Some (goto w th (AEntered t))
      else Some (goto (releaseRuntime 1 w) th (AWaitExclusive t))
  | AWaitExclusive t, Cancelled => Some (threadEnd (releaseOperation t w) th)
  | AWaitExclusive t, Go => w ← acquireRuntime w runtimeWeight; Some (goto w th (AStart t))
  | AStart t, Clock now =>
      match startCheck (chr w) now with
      | Refused => Some (threadEnd (releaseOperation t (releaseRuntime runtimeWeight w)) th)
      | AlreadyRunning => Some (goto (releaseRuntime (runtimeWeight - 1) w) th (AEntered t))
      | Launching => Some (goto w th (ALaunch t))
      end
  | ALaunch t, Reply Succeed =>
      match publishBrowser cfg w with
      | Some w => Some (goto (releaseRuntime (runtimeWeight - 1) w) th (AEntered t))
      | None => Some (threadEnd (releaseOperation t (releaseRuntime runtimeWeight w)) th)
      end
  | ALaunch t, Reply _ => Some (threadEnd (releaseOperation t (releaseRuntime runtimeWeight w)) th)
  | _, _ => None
  end.
(** The rest of [acquireTenant], and [prepareContext]. *)
Definition acquireStep (cfg : ChromiumConfig) (w : world) (th : Z) (p : pc) (a : answer) : option world :=
  match p, a with
  | AWaitTenant _, Cancelled => Some (threadEnd w th)
  | AWaitTenant t, Go => w ← acquireOperation w t; Some (goto w th (AWaitShared t))
  | (AWaitShared _ | AShared _ | AWaitExclusive _ | AStart _ | ALaunch _), _ => enterStep cfg w th p a
  | AEntered t, Go => let x := tenantOf (chr w) t in if tClosing x || tClosed x then Some (leave w th t) else Some (goto w th (APrepare t))
  | APrepare t, Go =>
      let old := contexts (chr w) !! t in
      let w := stopIdleTimerLocked w in
      Some (goto w th (match old with Some b => if bcTab b then AReady t (bcRemote b) else ARelease t | None => ACreate t end))
  | ARelease t, Reply r => let '(w, ok) := releaseContext cfg w t r in if ok then Some (goto w th (ACreate t)) else Some (leave w th t)
  | ACreate t, Reply r =>
      let create m w := setNext (setBrowsers w (alter (λ rs, {[nextID w]} ∪ rs) m (browsers w))) in
      match r, master (chr w) with
      | Succeed, Some m =>
          if bool_decide (is_Some (browsers w !! m)) then
            let n := nextID w in
            Some (goto (upd (create m w) (λ c, setContexts c (<[t := mkContext n false]> (contexts c)))) th (AAttach t n))
          else None
      | Lost, Some m =>
          if bool_decide (is_Some (browsers w !! m)) then Some (leave (setLost (create m w) ({[nextID w]} ∪ lost (orphans w))) th t) else None
      | _, _ => Some (leave w th t)
      end
  | AAttach t n, Reply r =>
      match r with
      | Succeed => Some (goto (upd w (λ c, setContexts c (<[t := mkContext n true]> (contexts c)))) th (AReady t n))
      | _ => Some (leave w th t)
      end
  | AReady t _, Go => Some (leave w th t)
  | _, _ => None
  end.
Definition tenantStep (cfg : ChromiumConfig) (w : world) (th : Z) (p : pc) (a : answer) : option world :=
  match p, a with
  | CWaitTenant _, Cancelled | KWaitTenant _, Cancelled => Some (threadEnd w th)
  | CWaitTenant t, Go => w ← acquireOperation w t; Some (goto w th (CWaitShared t))
  | KWaitTenant t, Go => w ← acquireOperation w t; Some (goto w th (KWaitShared t))
  | CWaitShared t, Cancelled | KWaitShared t, Cancelled => Some (threadEnd (releaseOperation t w) th)
  | CWaitShared t, Go => w ← acquireRuntime w 1; Some (goto w th (CRelease t))
  | KWaitShared t, Go => w ← acquireRuntime w 1; Some (goto w th (KCheck t))
  | CRelease t, Reply r => let '(w, ok) := releaseContext cfg w t r in if ok then Some (goto w th (CMark t)) else Some (leave w th t)
  | CMark t, Go =>
      Some (leave (upd w (λ c, setHandles (withTenant c t (λ x, mkTenant (tOperation x) (tClosing x) true)) (handles c ∖ {[t]}))) th t)
  | KCheck t, Go =>
      let x := tenantOf (chr w) t in
      if tClosed x || tClosing x || closed (chr w) then Some (leave w th t) else Some (goto w th (KRelease t))
  | KRelease t, Reply r => Some (leave (releaseContext cfg w t r).1 th t)
  | _, _ => None
  end.
(** A goroutine that holds the whole gate and is counted among the workers ends. *)
Definition workerDone (w : world) (th : Z) : world :=
  upd (threadEnd (releaseRuntime runtimeWeight w) th) (λ c, setWorkers c (workers c - 1)).
Definition workerStep (cfg : ChromiumConfig) (w : world) (th : Z) (p : pc) (a : answer) : option world :=
  match p, a with
  | WWait m, Go =>
      if bool_decide (is_Some (browsers w !! m)) then None
      else w ← acquireRuntime w runtimeWeight; Some (goto w th (WCheck m))
  | WCheck m, Clock now =>
      if negb (bool_decide (master (chr w) = Some m)) || negb (bool_decide (state (chr w) = StateRunning)) then Some (workerDone w th)
      else Some (goto (upd w (λ c, setCrash c (crashed (crash c) now))) th WStop)
  | WStop, Go => Some (workerDone (stopBrowser cfg w) th)
  | TArmed, Go => Some (goto w th TWait)
  | TWait, Go => w ← acquireRuntime w runtimeWeight; Some (goto w th TCheck)
  | TCheck, Go =>
      if bool_decide (contexts (chr w) = ∅) && bool_decide (state (chr w) = StateRunning) && negb (closed (chr w))
      then Some (goto w th TStop) else Some (workerDone w th)
  | TStop, Go => Some (workerDone (stopBrowser cfg w) th)
  | _, _ => None
  end.
(** [Start] of the facility, with what its probes found and whether a port was reserved. *)
Definition startStep (cfg : ChromiumConfig) (w : world) (th : Z) (p : pc) (a : answer) : option world :=
  match p, a with
  | SWait, Cancelled => Some (threadEnd w th)
  | SWait, Go => w ← acquireRuntime w runtimeWeight; Some (goto w th SCheck)
  | SCheck, Go =>
      if closed (chr w) || negb (bool_decide (state (chr w) = StateUnavailable)) then Some (threadEnd (releaseRuntime runtimeWeight w) th)
      else Some (goto w th SProbe)
  | SProbe, Cancelled => Some (threadEnd (releaseRuntime runtimeWeight w) th)
  | SProbe, Probed found port =>
      let needed := found && negb (attach cfg) && managedPorts cfg && negb (portHeld (chr w)) in
      if needed && negb port then Some (threadEnd (releaseRuntime runtimeWeight w) th)
      else
        let w := if needed then upd w (λ c, setPortHeld c true) else w in
        let w := if found && negb (closed (chr w)) then upd w (λ c, setState c StateIdle) else w in
        Some (threadEnd (releaseRuntime runtimeWeight w) th)
  | _, _ => None
  end.
Definition facilityStep (cfg : ChromiumConfig) (w : world) (th : Z) (p : pc) (a : answer) : option world :=
  match p, a with
  | FWait, Cancelled | FJoin, Cancelled => Some (threadEnd w th)
  | FWait, Go => w ← acquireRuntime w runtimeWeight; Some (goto w th (FDispose (map_to_list (contexts (chr w))).*1 false))
  | FDispose (t :: ids) failed, Reply r => let '(w, ok) := releaseContext cfg w t r in Some (goto w th (FDispose ids (failed || negb ok)))
  | FDispose [] true, Go => Some (threadEnd (releaseRuntime runtimeWeight w) th)
  | FDispose [] false, Go => Some (goto w th FStop)
  | FStop, Go => Some (goto (stopBrowser cfg w) th FMark)
  | FMark, Go =>
      let mark c := setState (setHandles (setTenants c (map_imap (λ t x, Some (if bool_decide (t ∈ handles c) then mkTenant (tOperation x) (tClosing x) true else x)) (tenants c))) ∅) StateClosed in
      Some (goto (releaseRuntime runtimeWeight (upd w mark)) th FJoin)
  | FJoin, Go => if workers (chr w) =? 0 then Some (setDone (threadEnd (upd w (λ c, setPortHeld c false)) th)) else None
  | (SWait | SCheck | SProbe), _ => startStep cfg w th p a
  | _, _ => None
  end.
Definition proceed (cfg : ChromiumConfig) (w : world) (th : Z) (a : answer) : option world :=
  match threads w !! th with
  | None => None
  | Some p =>
      match p with
      | AWaitTenant _ | AWaitShared _ | AShared _ | AWaitExclusive _ | AStart _ | ALaunch _ | AEntered _ | APrepare _
      | ARelease _ | ACreate _ | AAttach _ _ | AReady _ _ => acquireStep cfg w th p a
      | CWaitTenant _ | CWaitShared _ | CRelease _ | CMark _ | KWaitTenant _ | KWaitShared _ | KCheck _ | KRelease _ => tenantStep cfg w th p a
      | WWait _ | WCheck _ | WStop | TArmed | TWait | TCheck | TStop => workerStep cfg w th p a
      | FWait | FDispose _ _ | FStop | FMark | FJoin | SWait | SCheck | SProbe => facilityStep cfg w th p a
      end
  end.

(** ** Runs *)

Inductive call := CNewTenant | CToken (t : Z) | CAcquire (t : Z) | CCloseTenant (t : Z) | CCloseContext (t : Z) | CCloseFacility | CStartFacility
  | CAdvance (th : Z) (a : answer) | CDies (m : Z) | CVanish (m r : Z) | CDetach (m : Z) | CVanishOutside (r : Z).
(** [CDies] is the end of a browser by itself, [CVanish] that of one of its contexts,
    [CDetach] that of the connection to an external browser, and [CVanishOutside] the end
    of one of its contexts meanwhile. *)
Definition perform (cfg : ChromiumConfig) (w : world) (x : call) : option world :=
  match x with
  | CNewTenant => snd <$> NewTenant w
  | CToken t => snd <$> CDPToken cfg w t
  | CAcquire t => acquireTenant w t
  | CCloseTenant t => closeTenant w t
  | CCloseContext t => if bool_decide (is_Some (tenants (chr w) !! t)) then Some (CloseContext w t) else None
  | CCloseFacility => Some (closeFacility w)
  | CStartFacility => Some (startFacility w)
  | CAdvance th a => proceed cfg w th a
  | CDies m => if bool_decide (is_Some (browsers w !! m)) then Some (setBrowsers w (delete m (browsers w))) else None
  | CVanish m r => Some (setBrowsers w (alter (λ rs, rs ∖ {[r]}) m (browsers w)))
  | CDetach m => if attach cfg && bool_decide (is_Some (browsers w !! m)) then Some (disconnect w m) else None
  | CVanishOutside r => let o := orphans w in Some (setOrphans w (mkLeft (lost o) (forgotten o) (outside o ∖ {[r]})))
  end.
Inductive reachable (cfg : ChromiumConfig) : world → Prop :=
| reach_init : reachable cfg initial
| reach_step w x w' : reachable cfg w → perform cfg w x = Some w' → reachable cfg w'.
Fixpoint performAll (cfg : ChromiumConfig) (w : world) (l : list call) : option world :=
  match l with [] => Some w | x :: l => w ← perform cfg w x; performAll cfg w l end.
