(* ===== verification/BrowserSafety.v ===== *)
(** * BrowserSafety: the shared browser under every interleaving

    The invariant of the world of [Browser]: what the runtime gate and the gates of tenants
    protect, and what each goroutine relies on where it is.  From it: isolation of tenants,
    finality of closing, and the backoff of restarts. *)

From S2P Require Import Prelude Volumes Browser.

(** ** What goroutines hold *)

Definition isShared (p : pc) : bool :=
  match p with
  | AShared _ | AEntered _ | APrepare _ | ARelease _ | ACreate _ | AAttach _ _ | AReady _ _ | CRelease _ | CMark _ | KCheck _ | KRelease _ => true
  | _ => false
  end.
Definition isExclusive (p : pc) : bool :=
  match p with
  | AStart _ | ALaunch _ | WCheck _ | WStop | TCheck | TStop | FDispose _ _ | FStop | FMark | SCheck | SProbe => true
  | _ => false
  end.
Definition permits (p : pc) : Z := b2z (isShared p) + runtimeWeight * b2z (isExclusive p).
Definition isWorker (p : pc) : bool := match p with WWait _ | WCheck _ | WStop | TArmed | TWait | TCheck | TStop => true | _ => false end.
(** The tenant whose gate is held, and the tenant a goroutine is about. *)
Definition opOf (p : pc) : option Z :=
  match p with
  | AWaitShared t | AShared t | AWaitExclusive t | AStart t | ALaunch t | AEntered t | APrepare t | ARelease t | ACreate t | AAttach t _ | AReady t _
  | CWaitShared t | CRelease t | CMark t | KWaitShared t | KCheck t | KRelease t => Some t
  | _ => None
  end.
Definition about (p : pc) : option Z := match p with AWaitTenant t | CWaitTenant t | KWaitTenant t => Some t | p => opOf p end.
Definition entered (p : pc) : bool :=
  match p with AEntered _ | APrepare _ | ARelease _ | ACreate _ | AAttach _ _ | AReady _ _ => true | _ => false end.
Definition admitted (p : pc) : bool :=
  match p with APrepare _ | ARelease _ | ACreate _ | AAttach _ _ | AReady _ _ => true | _ => false end.
Definition closesTenant (p : pc) : bool := match p with CWaitTenant _ | CWaitShared _ | CRelease _ | CMark _ => true | _ => false end.
Definition ofFacility (p : pc) : bool := match p with FWait | FDispose _ _ | FStop | FMark | FJoin => true | _ => false end.
Definition closedDown (c : chromium) : Prop := closed c = true ∧ contexts c = ∅ ∧ handles c = ∅ ∧ master c = None.

(** What a goroutine relies on where it is. *)
Record relies (c : chromium) (p : pc) : Prop := {
  re_known : ∀ t, about p = Some t → is_Some (tenants c !! t);
  re_closed : ofFacility p = true → closed c = true;
  re_running : entered p = true → state c = StateRunning;
  re_admitted : admitted p = true → ∀ t, opOf p = Some t → tClosed (tenantOf c t) = false;
  re_closing : closesTenant p = true → ∀ t, about p = Some t → tClosing (tenantOf c t) = true;
  re_here : match p with
            | ALaunch _ | SProbe => state c ≠ StateRunning
            | ACreate t | CMark t => contexts c !! t = None
            | AAttach t r => contexts c !! t = Some (mkContext r false)
            | AReady t r => contexts c !! t = Some (mkContext r true)
            | FDispose ids false => ∀ t, is_Some (contexts c !! t) → t ∈ ids
            | TStop | FStop => contexts c = ∅
            | FMark => contexts c = ∅ ∧ master c = None
            | FJoin => closedDown c
            | _ => True
            end }.
(** The state itself. *)
Definition gone (o : leftovers) : gset Z := lost o ∪ forgotten o.
Record shared_ok (c : chromium) (bs : gmap Z (gset Z)) (o : leftovers) (next : Z) : Prop := {
  so_running : state c = StateRunning ↔ is_Some (master c);
  so_contexts : contexts c ≠ ∅ → state c = StateRunning;
  so_browsers : ∀ m rs, bs !! m = Some rs → master c = Some m;
  so_open : ∀ t b, contexts c !! t = Some b → tClosed (tenantOf c t) = false ∧ bcRemote b < next;
  so_distinct : ∀ t t' b b', contexts c !! t = Some b → contexts c !! t' = Some b' → bcRemote b = bcRemote b' → t = t';
  so_remote : ∀ m rs r, bs !! m = Some rs → r ∈ rs → r < next ∧ (r ∈ gone o ∨ ∃ t b, contexts c !! t = Some b ∧ bcRemote b = r);
  so_handles : ∀ t, t ∈ handles c ↔ ∃ x, tenants c !! t = Some x ∧ tClosed x = false;
  so_secrets : ∀ t s, cdpSecrets c !! t = Some s → t ∈ handles c ∧ tClosing (tenantOf c t) = false ∧ closed c = false;
  so_tenants : ∀ t x, tenants c !! t = Some x → t < next;
  so_master : ∀ m, master c = Some m → m < next;
  so_outside : ∀ r, r ∈ outside o → r < next ∧ (r ∈ gone o ∨ ∃ t b, contexts c !! t = Some b ∧ bcRemote b = r);
  so_apart : ∀ m rs, bs !! m = Some rs → outside o = ∅ }.
Record inv (w : world) : Prop := {
  in_shared : shared_ok (chr w) (browsers w) (orphans w) (nextID w);
  in_threads : ∀ th p, threads w !! th = Some p → relies (chr w) p ∧ th < nextID w;
  in_held : held (chr w) = map_count isShared (threads w) + runtimeWeight * map_count isExclusive (threads w);
  in_gate : held (chr w) <= runtimeWeight;
  in_workers : workers (chr w) = map_count isWorker (threads w);
  in_op : ∀ th p t, threads w !! th = Some p → opOf p = Some t → tOperation (tenantOf (chr w) t) = true;
  in_one : ∀ th th' p p' t, threads w !! th = Some p → threads w !! th' = Some p' → opOf p = Some t → opOf p' = Some t → th = th';
  in_done : shutdownDone w = true → closedDown (chr w) }.

(** What one goroutine does to the state, seen by the others: [excl] when it holds the whole
    gate, [ot] the tenant whose gate it holds. *)
Record guarantees (c c' : chromium) (excl : bool) (ot : option Z) : Prop := {
  gu_known : ∀ t, is_Some (tenants c !! t) → is_Some (tenants c' !! t);
  gu_closed : closed c = true → closed c' = true;
  gu_closing : ∀ t, is_Some (tenants c !! t) → tClosing (tenantOf c t) = true → tClosing (tenantOf c' t) = true;
  gu_down : closedDown c → closedDown c';
  gu_state : excl = false → state c' = state c ∧ master c' = master c;
  gu_contexts : excl = false → ∀ t, ot ≠ Some t → contexts c' !! t = contexts c !! t;
  gu_tenants : excl = false → ∀ t, ot ≠ Some t → is_Some (tenants c !! t) → tClosed (tenantOf c' t) = tClosed (tenantOf c t) }.

Lemma count_pos (f : pc → bool) (T : gmap Z pc) th p : T !! th = Some p → f p = true → 1 <= map_count f T.
Proof.
  intros H Hf. pose proof (map_count_delete f T th p H) as Hc. rewrite Hf in Hc. pose proof (map_count_nonneg f (delete th T)). simpl in Hc. lia.
Qed.
Lemma count_two (f : pc → bool) (T : gmap Z pc) th th' p p' : th ≠ th' → T !! th = Some p → T !! th' = Some p' → f p = true → f p' = true → 2 <= map_count f T.
Proof.
  intros Hne H H' Hf Hf'. pose proof (map_count_delete f T th p H) as Hc. rewrite Hf in Hc. simpl in Hc.
  pose proof (count_pos f (delete th T) th' p'). rewrite lookup_delete_ne in H0 by done. specialize (H0 H' Hf'). lia.
Qed.
(** Whoever holds the whole gate is alone inside. *)
Lemma exclusive_alone w th th' p p' : inv w → threads w !! th = Some p → isExclusive p = true → threads w !! th' = Some p' → th' ≠ th →
  isShared p' = false ∧ isExclusive p' = false.
Proof.
  intros Hi H He H' Hne. pose proof (in_held _ Hi) as Hh. pose proof (in_gate _ Hi) as Hg.
  pose proof (map_count_nonneg isShared (threads w)). pose proof (map_count_nonneg isExclusive (threads w)).
  pose proof (count_pos isExclusive _ _ _ H He). unfold runtimeWeight in *. split.
  - destruct (isShared p') eqn:E; [|done]. pose proof (count_pos isShared _ _ _ H' E). lia.
  - destruct (isExclusive p') eqn:E; [|done]. pose proof (count_two isExclusive _ _ _ _ _ Hne H' H E He). lia.
Qed.
Lemma relies_stable c c' q excl ot : relies c q → guarantees c c' excl ot →
  (excl = true → isShared q = false ∧ isExclusive q = false) → (isExclusive q = true → contexts c' = contexts c) →
  (∀ t, ot = Some t → opOf q ≠ Some t) → relies c' q.
Proof.
  intros [Hk Hc Hr Ha Hcl Hh] [Gk Gc Gcl Gd Gs Gx Gt] Hex Hq Hot.
  assert (Hin : isShared q = true ∨ isExclusive q = true → excl = false) by (destruct excl; [naive_solver|done]).
  assert (Hx : isShared q = true → ∀ t, opOf q = Some t → contexts c' !! t = contexts c !! t ∧ tClosed (tenantOf c' t) = tClosed (tenantOf c t)).
  { intros Hs t Ht. assert (ot ≠ Some t) by (intros E; by apply (Hot t)). specialize (Hin (or_introl Hs)). split; [by apply Gx|].
    apply Gt; [done..|]. apply Hk. destruct q; done. }
  split.
  - intros t Ht. apply Gk, Hk, Ht.
  - auto.
  - intros He. assert (isShared q = true) by by destruct q. destruct Gs as [-> _]; auto.
  - intros He t Ht. assert (isShared q = true) by by destruct q. destruct (Hx H t Ht) as [_ ->]. auto.
  - intros He t Ht. apply Gcl; auto.
  - destruct q; try done; simpl in *; try (destruct (Hx eq_refl t eq_refl) as [-> _]; done); try (destruct Gs as [-> _]; auto; done).
    + by rewrite Hq.
    + destruct failed; [done|]. intros t. rewrite Hq by done. apply Hh.
    + by rewrite Hq.
    + rewrite Hq by done. destruct (Gs (Hin (or_intror eq_refl))) as [_ ->]. done.
    + auto.
Qed.

(** ** Preservation, one lemma per kind of step *)

Lemma count_move (f : pc → bool) (T : gmap Z pc) th p p' : T !! th = Some p → map_count f (<[th := p']> T) = map_count f T - b2z (f p) + b2z (f p').
Proof. intros H. rewrite map_count_insert, (map_count_delete f T th p H). done. Qed.
Definition threads_after (T : gmap Z pc) (th : Z) (o : option pc) : gmap Z pc := match o with Some p => <[th := p]> T | None => delete th T end.
Definition weight (f : pc → bool) (o : option pc) : Z := match o with Some p => b2z (f p) | None => 0 end.
Lemma count_after (f : pc → bool) (T : gmap Z pc) th p o : T !! th = Some p → map_count f (threads_after T th o) = map_count f T - b2z (f p) + weight f o.
Proof. intros H. destruct o; simpl; [by apply count_move|]. rewrite (map_count_delete f T th p H). lia. Qed.
Lemma threads_after_lookup T th o th' q : threads_after T th o !! th' = Some q → (th' = th ∧ o = Some q) ∨ (th' ≠ th ∧ T !! th' = Some q).
Proof. destruct o; simpl; [rewrite lookup_insert_Some|rewrite lookup_delete_Some]; naive_solver. Qed.

Lemma inv_move w th p o w' : inv w → threads w !! th = Some p → threads w' = threads_after (threads w) th o →
  nextID w <= nextID w' → shared_ok (chr w') (browsers w') (orphans w') (nextID w') →
  guarantees (chr w) (chr w') (isExclusive p) (opOf p) →
  (isShared p = false → isExclusive p = false → contexts (chr w') = contexts (chr w)) →
  (∀ p', o = Some p' → relies (chr w') p') →
  held (chr w') = held (chr w) - permits p + (weight isShared o + runtimeWeight * weight isExclusive o) → held (chr w') <= runtimeWeight →
  workers (chr w') = workers (chr w) - b2z (isWorker p) + weight isWorker o →
  (∀ t, opOf p ≠ Some t → tOperation (tenantOf (chr w) t) = true → tOperation (tenantOf (chr w') t) = true) →
  (∀ p' t, o = Some p' → opOf p' = Some t → tOperation (tenantOf (chr w') t) = true ∧ (opOf p = Some t ∨ tOperation (tenantOf (chr w) t) = false)) →
  (shutdownDone w' = true → closedDown (chr w')) → inv w'.
Proof.
  intros Hi Hth HT Hn Hs Hg Hc Hr Hh Hle Hw Ho1 Ho2 Hd.
  assert (Hother : ∀ th' q t, th' ≠ th → threads w !! th' = Some q → opOf q = Some t → opOf p ≠ Some t).
  { intros th' q t Hne H' Hq Hp. by apply Hne, (in_one _ Hi th' th q p t). }
  split; rewrite ?HT; try done.
  - intros th' q [[-> Hq]|[Hne Hq]]%threads_after_lookup.
    + split; [auto|]. destruct (in_threads _ Hi _ _ Hth). lia.
    + destruct (in_threads _ Hi _ _ Hq) as [Hrq Hlt]. split; [|lia]. eapply relies_stable; [exact Hrq|exact Hg| | |].
      * intros He. exact (exclusive_alone w th th' p q Hi Hth He Hq Hne).
      * intros He. destruct (exclusive_alone w th' th q p Hi Hq He Hth) as [? ?]; auto.
      * intros t Ht Hop. by apply (Hother th' q t).
  - rewrite Hh, !(count_after _ _ _ _ _ Hth), (in_held _ Hi). unfold permits. lia.
  - rewrite Hw, (count_after _ _ _ _ _ Hth), (in_workers _ Hi). lia.
  - intros th' q t [[-> Hq]|[Hne Hq]]%threads_after_lookup Hop; [by apply (Ho2 q t)|].
    apply Ho1; [by apply (Hother th' q t)|]. by apply (in_op _ Hi th' q t).
  - intros th1 th2 q1 q2 t [[-> Hq1]|[Hne1 Hq1]]%threads_after_lookup [[-> Hq2]|[Hne2 Hq2]]%threads_after_lookup Ht1 Ht2; [done| | |].
    + destruct (Ho2 q1 t Hq1 Ht1) as [_ [Hp|Hf]]; [by destruct (Hother th2 q2 t)|]. rewrite (in_op _ Hi th2 q2 t) in Hf by done. done.
    + destruct (Ho2 q2 t Hq2 Ht2) as [_ [Hp|Hf]]; [by destruct (Hother th1 q1 t)|]. rewrite (in_op _ Hi th1 q1 t) in Hf by done. done.
    + by apply (in_one _ Hi th1 th2 q1 q2 t).
Qed.
(** A change no goroutine of the facility makes. *)
Lemma inv_env w w' : inv w → threads w' = threads w → nextID w <= nextID w' → shared_ok (chr w') (browsers w') (orphans w') (nextID w') →
  guarantees (chr w) (chr w') false None → contexts (chr w') = contexts (chr w) →
  held (chr w') = held (chr w) → workers (chr w') = workers (chr w) →
  (∀ t, tOperation (tenantOf (chr w) t) = true → is_Some (tenants (chr w) !! t) → tOperation (tenantOf (chr w') t) = true) →
  (shutdownDone w' = true → closedDown (chr w')) → inv w'.
Proof.
  intros Hi HT Hn Hs Hg Hc Hh Hw Ho Hd. split; rewrite ?HT; try done.
  - intros th q Hq. destruct (in_threads _ Hi _ _ Hq) as [Hrq Hlt]. split; [|lia]. by eapply relies_stable.
  - by rewrite Hh, (in_held _ Hi).
  - rewrite Hh. apply (in_gate _ Hi).
  - by rewrite Hw, (in_workers _ Hi).
  - intros th q t Hq Hop. apply Ho; [by eapply in_op|]. destruct (in_threads _ Hi _ _ Hq) as [Hrq _]. apply (re_known _ _ Hrq). by destruct q.
  - apply (in_one _ Hi).
Qed.
(** A goroutine that holds nothing is started. *)
Lemma inv_spawn w p c' : inv w → isShared p = false → isExclusive p = false → opOf p = None → relies c' p →
  shared_ok c' (browsers w) (orphans w) (nextID w + 1) → guarantees (chr w) c' false None → contexts c' = contexts (chr w) →
  held c' = held (chr w) → workers c' = workers (chr w) + b2z (isWorker p) → tenants c' = tenants (chr w) →
  inv (setChr (spawn w p) c').
Proof.
  intros Hi H1 H2 H3 Hr Hs Hg Hc Hh Hw Ht.
  assert (Hnew : threads w !! nextID w = None).
  { destruct (threads w !! nextID w) eqn:E; [|done]. apply (in_threads _ Hi) in E as [_ ?]. lia. }
  split; simpl; try done.
  - intros th q. rewrite lookup_insert_Some. intros [[<- <-]|[Hne Hq]]; [split; [done|lia]|].
    destruct (in_threads _ Hi _ _ Hq) as [Hrq Hlt]. split; [|lia]. by eapply relies_stable.
  - rewrite Hh, !map_count_insert_new, (in_held _ Hi), H1, H2 by done. simpl. lia.
  - rewrite Hh. apply (in_gate _ Hi).
  - rewrite Hw, map_count_insert_new, (in_workers _ Hi) by done. lia.
  - intros th q t. rewrite lookup_insert_Some. intros [[<- <-]|[Hne Hq]] Hop; [congruence|]. unfold tenantOf. rewrite Ht. by eapply (in_op _ Hi).
  - intros th th' q q' t. rewrite !lookup_insert_Some. intros [[<- <-]|[Hne Hq]] [[<- <-]|[Hne' Hq']] Ho Ho'; try congruence. by eapply (in_one _ Hi).
  - intros Hd. by apply (gu_down _ _ _ _ Hg), (in_done _ Hi).
Qed.

(** ** Steps that only move permits *)

Record quiet (c c' : chromium) : Prop := {
  qu_closed : closed c' = closed c; qu_state : state c' = state c; qu_handles : handles c' = handles c; qu_master : master c' = master c;
  qu_contexts : contexts c' = contexts c; qu_secrets : cdpSecrets c' = cdpSecrets c;
  qu_tenants : ∀ t, (λ x, (tClosing x, tClosed x)) <$> tenants c' !! t = (λ x, (tClosing x, tClosed x)) <$> tenants c !! t }.
Lemma quiet_trans c1 c2 c3 : quiet c1 c2 → quiet c2 c3 → quiet c1 c3.
Proof. intros [] []. split; congruence. Qed.
Lemma quiet_sym c c' : quiet c c' → quiet c' c.
Proof. intros []. split; congruence. Qed.
Lemma quiet_tenant c c' t : quiet c c' → tClosing (tenantOf c' t) = tClosing (tenantOf c t) ∧ tClosed (tenantOf c' t) = tClosed (tenantOf c t)
  ∧ (is_Some (tenants c !! t) → is_Some (tenants c' !! t)).
Proof.
  intros H. pose proof (qu_tenants _ _ H t) as Ht. unfold tenantOf. destruct (tenants c !! t), (tenants c' !! t); simpl in *; try done. by injection Ht as -> ->.
Qed.
Lemma quiet_shared c c' bs ls n n' : quiet c c' → n <= n' → shared_ok c bs ls n → shared_ok c' bs ls n'.
Proof.
  intros Hq Hn [S1 S2 S3 S4 S5 S6 S7 S8 S9 S10 S11 S12]. pose proof (λ t, quiet_tenant c c' t Hq) as Ht. pose proof Hq as [Q1 Q2 Q3 Q4 Q5 Q6 Q7].
  split; rewrite ?Q1, ?Q2, ?Q3, ?Q4, ?Q5, ?Q6; try done.
  - intros t b Hb. destruct (S4 t b Hb). destruct (Ht t) as (_ & -> & _). split; [done|lia].
  - intros m rs r Hm Hr. destruct (S6 m rs r Hm Hr). split; [lia|done].
  - intros t. rewrite S7. specialize (Q7 t). destruct (tenants c !! t), (tenants c' !! t); naive_solver.
  - intros t s Hs. destruct (Ht t) as (-> & _). eauto.
  - intros t x Hx. specialize (Q7 t). rewrite Hx in Q7. destruct (tenants c !! t) eqn:E; [|done]. specialize (S9 _ _ E). lia.
  - intros m Hm. specialize (S10 _ Hm). lia.
  - intros r Hr. destruct (S11 r Hr). split; [lia|done].
Qed.
Lemma quiet_guarantees c c' e o : quiet c c' → guarantees c c' e o.
Proof.
  intros Hq. pose proof (λ t, quiet_tenant c c' t Hq) as Ht. pose proof Hq as [Q1 Q2 Q3 Q4 Q5 Q6 Q7].
  split; unfold closedDown; rewrite ?Q1, ?Q2, ?Q3, ?Q4, ?Q5; try done; intros; try (destruct (Ht t) as (E & E' & ?); rewrite ?E, ?E'); auto.
Qed.
Lemma quiet_relies c c' p : quiet c c' → relies c p → relies c' p.
Proof.
  intros Hq [R1 R2 R3 R4 Rc R5]. pose proof (λ t, quiet_tenant c c' t Hq) as Ht. pose proof Hq as [Q1 Q2 Q3 Q4 Q5 Q6 Q7].
  split; rewrite ?Q1, ?Q2; try done.
  - intros t Hp. by apply Ht, R1.
  - intros Ha t Hp. destruct (Ht t) as (_ & -> & _). auto.
  - intros Ha t Hp. destruct (Ht t) as (-> & _). auto.
  - destruct p; rewrite ?Q2; unfold closedDown; rewrite ?Q1, ?Q3, ?Q4, ?Q5; done.
Qed.
Lemma inv_quiet w th p o w' : inv w → threads w !! th = Some p → threads w' = threads_after (threads w) th o →
  nextID w' = nextID w → browsers w' = browsers w → orphans w' = orphans w → shutdownDone w' = shutdownDone w → quiet (chr w) (chr w') →
  (∀ p', o = Some p' → relies (chr w) p') →
  held (chr w') = held (chr w) - permits p + (weight isShared o + runtimeWeight * weight isExclusive o) → held (chr w') <= runtimeWeight →
  workers (chr w') = workers (chr w) - b2z (isWorker p) + weight isWorker o →
  (∀ t, opOf p ≠ Some t → tOperation (tenantOf (chr w) t) = true → tOperation (tenantOf (chr w') t) = true) →
  (∀ p' t, o = Some p' → opOf p' = Some t → tOperation (tenantOf (chr w') t) = true ∧ (opOf p = Some t ∨ tOperation (tenantOf (chr w) t) = false)) →
  inv w'.
Proof.
  intros Hi Hth HT Hn Hb Hl Hd Hq Hr Hh Hle Hw Ho1 Ho2. eapply inv_move; try done.
  - lia.
  - rewrite Hb, Hl, Hn. eapply quiet_shared; [done|done|apply (in_shared _ Hi)].
  - by apply quiet_guarantees.
  - intros _ _. apply Hq.
  - intros p' Hp'. eapply quiet_relies; eauto.
  - rewrite Hd. intros H. apply (gu_down _ _ _ _ (quiet_guarantees _ _ false None Hq)), (in_done _ Hi H).
Qed.

Lemma with_operation c t b : quiet c (withTenant c t (λ x, mkTenant b (tClosing x) (tClosed x))).
Proof.
  split; try done. intros t'. simpl. destruct (decide (t = t')) as [<-|]; [rewrite lookup_alter_eq|by rewrite lookup_alter_ne]. by destruct (tenants c !! t).
Qed.
Lemma operation_of c t t' b : tOperation (tenantOf (withTenant c t (λ x, mkTenant b (tClosing x) (tClosed x))) t') =
  if decide (t = t' ∧ is_Some (tenants c !! t)) then b else tOperation (tenantOf c t').
Proof.
  unfold tenantOf. simpl. destruct (decide (t = t')) as [<-|].
  - rewrite lookup_alter_eq. destruct (tenants c !! t) eqn:E; simpl; [rewrite decide_True by eauto|rewrite decide_False by (intros [_ [? ?]]; congruence)]; done.
  - rewrite lookup_alter_ne by done. rewrite decide_False by tauto. done.
Qed.
(** A step that leaves the state as it is and keeps what the goroutine holds. *)
Lemma inv_goes w th p p' : inv w → threads w !! th = Some p → isShared p' = isShared p → isExclusive p' = isExclusive p → isWorker p' = isWorker p →
  opOf p' = opOf p → relies (chr w) p' → inv (goto w th p').
Proof.
  intros Hi Hth H1 H2 H3 H4 Hr. eapply (inv_quiet w th p (Some p')); try done; simpl; rewrite ?H1, ?H2, ?H3; unfold permits.
  - by intros ? [= <-].
  - lia.
  - apply (in_gate _ Hi).
  - lia.
  - intros q t [= <-]. rewrite H4. intros Ht. split; [by eapply in_op|auto].
Qed.
Lemma inv_ends w th p : inv w → threads w !! th = Some p → isShared p = false → isExclusive p = false → isWorker p = false → inv (threadEnd w th).
Proof.
  intros Hi Hth H1 H2 H3. eapply (inv_quiet w th p None); try done; simpl; unfold permits; rewrite ?H1, ?H2, ?H3; simpl; [lia| |lia].
  apply (in_gate _ Hi).
Qed.
(** Taking the gate of a tenant. *)
Lemma inv_takes w th p p' t w1 : inv w → threads w !! th = Some p → opOf p = None → is_Some (tenants (chr w) !! t) → acquireOperation w t = Some w1 →
  permits p' = permits p → isShared p' = isShared p → isExclusive p' = isExclusive p → isWorker p' = isWorker p → opOf p' = Some t → relies (chr w) p' →
  inv (goto w1 th p').
Proof.
  intros Hi Hth Hp Ht Ha Hper H1 H2 H3 H4 Hr. unfold acquireOperation in Ha. destruct (tOperation _) eqn:Hop; [done|]. injection Ha as <-.
  eapply (inv_quiet w th p (Some p')); try done; simpl; rewrite ?H1, ?H2, ?H3; unfold permits.
  - apply with_operation.
  - by intros ? [= <-].
  - lia.
  - apply (in_gate _ Hi).
  - lia.
  - intros t' _ Ht'. rewrite operation_of. by case_decide.
  - intros q t' [= <-]. rewrite H4. intros [= <-]. rewrite operation_of, decide_True by done. auto.
Qed.
(** Taking permits of the runtime. *)
Lemma inv_enter w th p p' n w1 : inv w → threads w !! th = Some p → acquireRuntime w n = Some w1 → permits p = 0 → permits p' = n →
  isWorker p' = isWorker p → opOf p' = opOf p → relies (chr w) p' → inv (goto w1 th p').
Proof.
  intros Hi Hth Ha Hp Hp' H3 H4 Hr. unfold acquireRuntime in Ha. destruct (_ <=? _) eqn:Hle; [|done]. apply Z.leb_le in Hle. injection Ha as <-.
  eapply (inv_quiet w th p (Some p')); try done; simpl; rewrite ?H3.
  - by intros ? [= <-].
  - rewrite Hp, <- Hp'. unfold permits. lia.
  - lia.
  - intros q t [= <-]. rewrite H4. intros Ht. split; [by eapply in_op|auto].
Qed.
(** Giving back permits, the gate of the tenant, or both, and going on or ending. *)
Lemma inv_releases w th p o n : inv w → threads w !! th = Some p → permits p = n + (weight isShared o + runtimeWeight * weight isExclusive o) →
  0 <= n → weight isWorker o = b2z (isWorker p) → (∀ p', o = Some p' → opOf p' = opOf p ∧ relies (chr w) p') →
  inv (setThreads (releaseRuntime n w) (threads_after (threads w) th o)).
Proof.
  intros Hi Hth Hp Hn Hw Ho. eapply (inv_quiet w th p o); try done; simpl.
  - intros p' Hp'. by apply Ho.
  - lia.
  - pose proof (in_gate _ Hi). lia.
  - lia.
  - intros p' t Hp' Ht. destruct (Ho p' Hp') as [E _]. rewrite E in Ht. split; [by eapply in_op|auto].
Qed.
Lemma inv_leave_all w th p n t : inv w → threads w !! th = Some p → permits p = n → isWorker p = false → opOf p = Some t →
  inv (threadEnd (releaseOperation t (releaseRuntime n w)) th).
Proof.
  intros Hi Hth Hp Hw Ht. assert (0 <= n) by (rewrite <- Hp; by destruct p).
  eapply (inv_quiet w th p None); try done; simpl.
  - eapply quiet_trans; [|apply with_operation]. by split.
  - lia.
  - pose proof (in_gate _ Hi). lia.
  - rewrite Hw. simpl. lia.
  - intros t' Hne Hop. change (tenantOf (setHeld _ _) t') with (tenantOf (chr w) t'). rewrite operation_of. rewrite decide_False; [done|]. intros [-> _]. congruence.
Qed.
Lemma inv_leave_gate w th p t : inv w → threads w !! th = Some p → permits p = 0 → isWorker p = false → opOf p = Some t →
  inv (threadEnd (releaseOperation t w) th).
Proof.
  intros Hi Hth Hp Hw Ht. assert (releaseRuntime 0 w = w) as E.
  { destruct w as [[] ? ? ? ? ?]. unfold releaseRuntime, upd, setChr, setHeld. simpl. by rewrite Z.sub_0_r. }
  rewrite <- E. by eapply inv_leave_all.
Qed.

(** ** The idle timer *)

(** What the timer leaves alone. *)
Record calm (w w' : world) : Prop := {
  ca_quiet : quiet (chr w) (chr w'); ca_browsers : browsers w' = browsers w; ca_orphans : orphans w' = orphans w; ca_next : nextID w <= nextID w';
  ca_tenants : tenants (chr w') = tenants (chr w); ca_done : shutdownDone w' = shutdownDone w; ca_held : held (chr w') = held (chr w);
  ca_threads : ∀ th p, threads w !! th = Some p → p ≠ TArmed → threads w' !! th = Some p }.
Lemma inv_stop_idle w : inv w → inv (stopIdleTimerLocked w) ∧ calm w (stopIdleTimerLocked w).
Proof.
  intros Hi. unfold stopIdleTimerLocked. destruct (idleTimer (chr w)) as [k|]; [|split; [done|by split]].
  set (w1 := match threads w !! k with Some TArmed => _ | _ => _ end).
  assert (Hw1 : inv w1 ∧ calm w w1).
  { unfold w1. destruct (threads w !! k) as [[]|] eqn:Hk; try (split; [done|by split]). split.
    - eapply (inv_quiet w k TArmed None); try done; simpl; try apply (in_gate _ Hi); unfold permits; simpl; lia.
    - split; try done. simpl. intros th p Hp Hne. rewrite lookup_delete_ne; [done|congruence]. }
  destruct Hw1 as [H1 [C1 C2 C3 C4 C5 C6 C7 C8]]. clearbody w1.
  split; [|split; try done; by eapply quiet_trans].
  eapply (inv_env w1); try done.
  - eapply (quiet_shared (chr w1)); [by split|apply Z.le_refl|apply (in_shared _ H1)].
  - apply (in_done _ H1).
Qed.
Lemma inv_schedule cfg w : inv w → inv (scheduleIdleLocked cfg w) ∧ calm w (scheduleIdleLocked cfg w).
Proof.
  intros Hi. unfold scheduleIdleLocked. destruct (_ || _); [split; [done|by split]|].
  destruct (inv_stop_idle w Hi) as [H1 [C1 C2 C3 C4 C5 C6 C7 C8]]. set (w1 := stopIdleTimerLocked w) in *. clearbody w1.
  assert (Hnew : threads w1 !! nextID w1 = None).
  { destruct (threads w1 !! nextID w1) eqn:E; [|done]. apply (in_threads _ H1) in E as [_ ?]. lia. }
  split.
  - refine (inv_spawn w1 TArmed (setIdleTimer (setWorkers (chr w1) (workers (chr w1) + 1)) (Some (nextID w1))) H1 _ _ _ _ _ _ _ _ _ _); try done.
    + eapply (quiet_shared (chr w1)); [by split|apply Z.le_succ_diag_r|apply (in_shared _ H1)].
  - split; try done; simpl; [by eapply quiet_trans|lia|]. intros th p Hp Hne. specialize (C8 th p Hp Hne). rewrite lookup_insert_ne; [done|congruence].
Qed.

(** ** Contexts *)

(** The goroutines that release a context: they hold the gate of its tenant inside the
    runtime, or the whole runtime. *)
Definition releasing (p : pc) (t : Z) : Prop :=
  match p with ARelease t' | CRelease t' | KRelease t' => t' = t | FDispose _ _ => True | _ => False end.
Lemma shared_drop c bs ls n t x m : shared_ok c bs ls n → contexts c !! t = Some x → master c = Some m → is_Some (bs !! m) →
  shared_ok (setContexts c (delete t (contexts c))) (alter (λ rs, rs ∖ {[bcRemote x]}) m bs) ls n.
Proof.
  intros [S1 S2 S3 S4 S5 S6 S7 S8 S9 S10 S11 S12] Hx Hm [rs1 Hrs1]. specialize (S12 _ _ Hrs1).
  rewrite Hm in *. split; simpl; rewrite ?Hm; try done.
  - intros _. apply S2. intros E. by rewrite E in Hx.
  - intros m' rs Hrs. destruct (decide (m = m')) as [<-|]; [done|]. rewrite lookup_alter_ne in Hrs by done. by eapply S3.
  - intros t' b [_ Hb]%lookup_delete_Some. by apply S4.
  - intros t1 t2 b1 b2 [_ H1]%lookup_delete_Some [_ H2]%lookup_delete_Some. by apply S5.
  - intros m' rs r Hrs Hr. assert (∃ rs0, bs !! m' = Some rs0 ∧ r ∈ rs0 ∧ (m = m' → r ≠ bcRemote x)) as (rs0 & H0 & Hr0 & Hne).
    { destruct (decide (m = m')) as [<-|]; [|rewrite lookup_alter_ne in Hrs by done; exists rs; split_and!; [done|done|congruence]].
      rewrite lookup_alter_eq in Hrs. destruct (bs !! m) as [rs0|]; [|done]. simpl in Hrs. injection Hrs as <-. exists rs0. set_solver. }
    pose proof (S3 m' rs0 H0) as E. injection E as <-.
    destruct (S6 _ _ _ H0 Hr0) as [? [?|(t' & b & Hb & Hbr)]]; [auto|]. split; [done|]. right. exists t', b. split; [|done].
    rewrite lookup_delete_ne; [done|]. intros <-. rewrite Hx in Hb. injection Hb as <-. by apply Hne.
  - rewrite S12. set_solver.
Qed.
Lemma shared_shrink c bs bs' ls n : shared_ok c bs ls n → (∀ m rs', bs' !! m = Some rs' → ∃ rs, bs !! m = Some rs ∧ rs' ⊆ rs) → shared_ok c bs' ls n.
Proof.
  intros [S1 S2 S3 S4 S5 S6 S7 S8 S9 S10 S11 S12] H. split; try done.
  - intros m rs' (rs & Hrs & _)%H. by eapply S3.
  - intros m rs' r (rs & Hrs & Hsub)%H Hr. apply (S6 m rs); [done|set_solver].
  - intros m rs' (rs & Hrs & _)%H. by eapply S12.
Qed.
Lemma alter_shrinks (bs : gmap Z (gset Z)) m r m' rs' : alter (λ rs, rs ∖ {[r]}) m bs !! m' = Some rs' → ∃ rs, bs !! m' = Some rs ∧ rs' ⊆ rs.
Proof.
  destruct (decide (m = m')) as [<-|]; [|rewrite lookup_alter_ne by done; eauto]. rewrite lookup_alter_eq.
  destruct (bs !! m) as [rs|]; [|done]. simpl. intros [= <-]. exists rs. set_solver.
Qed.
Lemma shared_dispose c bs ls n m r : shared_ok c bs ls n → shared_ok c (alter (λ rs, rs ∖ {[r]}) m bs) ls n.
Proof. intros Hs. apply (shared_shrink _ bs); [done|]. intros m' rs'. apply alter_shrinks. Qed.
Lemma releasing_relies c p t : releasing p t → relies c p → relies (setContexts c (delete t (contexts c))) p.
Proof.
  intros Hp [R1 R2 R3 R4 Rc R5]. split; try done. destruct p; try done. simpl. destruct failed; [done|].
  intros t' [b [_ Hb]%lookup_delete_Some]. apply R5. eauto.
Qed.
Lemma connected_master w : connected w = true → ∃ m, master (chr w) = Some m ∧ is_Some (browsers w !! m).
Proof. unfold connected. destruct (master (chr w)) as [m|]; [|done]. case_bool_decide; [eauto|done]. Qed.
Lemma inv_release_context cfg w th p t a w' ok : inv w → threads w !! th = Some p → releasing p t → releaseContext cfg w t a = (w', ok) →
  inv w' ∧ threads w' !! th = Some p ∧ (ok = true → contexts (chr w') !! t = None) ∧
  (∀ t', is_Some (contexts (chr w') !! t') → is_Some (contexts (chr w) !! t')) ∧
  state (chr w') = state (chr w) ∧ tenants (chr w') = tenants (chr w) ∧ closed (chr w') = closed (chr w).
Proof.
  intros Hi Hth Hp Hr. unfold releaseContext in Hr. destruct (contexts (chr w) !! t) as [x|] eqn:Hx; [|injection Hr as <- <-; done].
  assert (Hrun : state (chr w) = StateRunning) by (apply (so_contexts _ _ _ _ (in_shared _ Hi)); intros E; by rewrite E in Hx).
  assert (Hne : p ≠ TArmed) by (by intros ->).
  rewrite bool_decide_eq_true_2 in Hr by done. pose proof (in_shared _ Hi) as Hs. destruct (in_threads _ Hi _ _ Hth) as [Hrp _].
  assert (Hkind : isShared p = true ∧ opOf p = Some t ∨ isExclusive p = true) by (destruct p; simpl in *; try done; subst; auto).
  assert (Hd : dispose w (bcRemote x) = setBrowsers w (match master (chr w) with Some m => alter (λ rs, rs ∖ {[bcRemote x]}) m (browsers w) | None => browsers w end)).
  { unfold dispose. destruct (master (chr w)); [done|]. by destruct w. }
  destruct (connected w) eqn:Hcon; [|destruct a; injection Hr as <- <-; by rewrite Hx].
  apply connected_master in Hcon as (m & Hm & Hl). rewrite Hm in Hd. destruct a; injection Hr as <- <-.
  - set (w1 := upd (dispose w (bcRemote x)) _).
    assert (H1 : inv w1).
    { eapply (inv_move w th p (Some p)); try done; unfold w1; rewrite Hd; simpl.
      - by rewrite insert_id.
      - lia.
      - by apply shared_drop.
      - split; simpl; try done; [intros [? [E ?]]; by rewrite E in Hx|].
        intros He t' Hne'. destruct Hkind as [[_ Hk]|]; [|congruence]. rewrite lookup_delete_ne by congruence. done.
      - intros. destruct Hkind as [[]|]; congruence.
      - intros p' [= <-]. by apply releasing_relies.
      - unfold permits. lia.
      - apply (in_gate _ Hi).
      - lia.
      - done.
      - intros p' t' [= <-] Ht'. split; [by eapply (in_op _ Hi)|auto].
      - intros Hdone. destruct (in_done _ Hi Hdone) as (_ & E & _). by rewrite E in Hx. }
    assert (Hctx : contexts (chr w1) = delete t (contexts (chr w))) by (unfold w1; by rewrite Hd).
    assert (Hrest : state (chr w1) = state (chr w) ∧ tenants (chr w1) = tenants (chr w) ∧ closed (chr w1) = closed (chr w) ∧ threads w1 = threads w) by (unfold w1; by rewrite Hd).
    destruct Hrest as (E1 & E2 & E3 & E4). clearbody w1.
    destruct (inv_schedule cfg w1 H1) as [H2 [C1 C2 C3 C4 C5 C6 C7 C8]]. pose proof C1 as [Q1 Q2 Q3 Q4 Q5 Q6 Q7].
    split; [done|]. rewrite Q5, Hctx, Q2, C5, Q1, E1, E2, E3. split_and!; try done.
    + apply C8; [by rewrite E4|done].
    + intros _. apply lookup_delete_eq.
    + intros t' [b [_ Hb]%lookup_delete_Some]. eauto.
  - rewrite Hx. done.
  - rewrite Hd. simpl. split_and!; try done. eapply (inv_move w th p (Some p)); try done; simpl.
    + by rewrite insert_id.
    + by apply shared_dispose.
    + by intros p' [= <-].
    + unfold permits. lia.
    + apply (in_gate _ Hi).
    + lia.
    + intros p' t' [= <-] Ht'. split; [by eapply (in_op _ Hi)|auto].
    + apply (in_done _ Hi).
Qed.

(** ** Browsers *)

(** A goroutine changes the state and stays where it is. *)
Lemma inv_stay w th p c' bs ls n : inv w → threads w !! th = Some p → nextID w <= n → shared_ok c' bs ls n →
  guarantees (chr w) c' (isExclusive p) (opOf p) → (isShared p = false → isExclusive p = false → contexts c' = contexts (chr w)) → relies c' p →
  held c' = held (chr w) → workers c' = workers (chr w) →
  (∀ t, tOperation (tenantOf (chr w) t) = true → tOperation (tenantOf c' t) = true) → inv (mkWorld c' (threads w) bs ls n (shutdownDone w)).
Proof.
  intros Hi Hth Hn Hs Hg Hc Hr Hh Hw Ho. eapply (inv_move w th p (Some p)); try done; simpl.
  - by rewrite insert_id.
  - by intros ? [= <-].
  - unfold permits. lia.
  - rewrite Hh. apply (in_gate _ Hi).
  - lia.
  - intros t _. apply Ho.
  - intros p' t [= <-] Ht. split; [|auto]. by eapply Ho, in_op.
  - intros Hd. by apply (gu_down _ _ _ _ Hg), (in_done _ Hi).
Qed.
(** In launch mode there is no other browser. *)
Definition launched (cfg : ChromiumConfig) (w : world) : Prop := attach cfg = false → outside (orphans w) = ∅ ∧ forgotten (orphans w) = ∅.
Definition browsersLeft (w : world) : gmap Z (gset Z) := match master (chr w) with Some m => delete m (browsers w) | None => browsers w end.
Definition orphansLeft (cfg : ChromiumConfig) (w : world) : leftovers :=
  let o := orphans w in
  if attach cfg then mkLeft (lost o) (recorded (chr w) ∪ forgotten o) (default ∅ (m ← master (chr w); browsers w !! m) ∪ outside o) else o.
Lemma stopBrowser_eq cfg w : stopBrowser cfg w =
  mkWorld (setState (setMaster (setContexts (chr w) ∅) None) StateIdle) (threads w) (browsersLeft w) (orphansLeft cfg w) (nextID w) (shutdownDone w).
Proof. unfold stopBrowser, browsersLeft, orphansLeft. destruct (master (chr w)), (attach cfg); simpl; rewrite ?(left_id_L ∅ (∪)); done. Qed.
Lemma elem_of_recorded c r : r ∈ recorded c ↔ ∃ t b, contexts c !! t = Some b ∧ bcRemote b = r.
Proof. unfold recorded. rewrite elem_of_map_to_set. done. Qed.
Lemma browsers_left w m rs : inv w → browsersLeft w !! m = Some rs → False.
Proof.
  intros Hi. pose proof (so_browsers _ _ _ _ (in_shared _ Hi)) as S3. unfold browsersLeft. destruct (master (chr w)) as [m0|] eqn:Hm.
  - intros [Hne H]%lookup_delete_Some. apply S3 in H. congruence.
  - intros H. by apply S3 in H.
Qed.
Lemma orphans_left cfg w r : inv w → launched cfg w → r ∈ outside (orphansLeft cfg w) → r < nextID w ∧ r ∈ gone (orphansLeft cfg w).
Proof.
  intros Hi Hl. destruct (in_shared _ Hi) as [S1 S2 S3 S4 S5 S6 S7 S8 S9 S10 S11 S12]. unfold orphansLeft, gone.
  destruct (attach cfg) eqn:Ha; [|destruct (Hl Ha) as [-> _]; set_solver]. simpl.
  assert (Hx : r < nextID w ∧ (r ∈ gone (orphans w) ∨ ∃ t b, contexts (chr w) !! t = Some b ∧ bcRemote b = r) → r < nextID w ∧ r ∈ lost (orphans w) ∪ (recorded (chr w) ∪ forgotten (orphans w))).
  { unfold gone. rewrite <- elem_of_recorded. set_solver. }
  rewrite elem_of_union. intros [Hr|Hr]; apply Hx; [|by apply S11].
  destruct (master (chr w)) as [m|]; simpl in Hr; [|set_solver]. destruct (browsers w !! m) as [rs|] eqn:Hm; simpl in Hr; [by apply (S6 m rs)|set_solver].
Qed.
Lemma inv_stop_browser cfg w th p : inv w → launched cfg w → threads w !! th = Some p → p = WStop ∨ p = TStop ∨ p = FStop →
  inv (stopBrowser cfg w) ∧ threads (stopBrowser cfg w) = threads w ∧ contexts (chr (stopBrowser cfg w)) = ∅ ∧ master (chr (stopBrowser cfg w)) = None.
Proof.
  intros Hi Hl Hth Hp. rewrite stopBrowser_eq. split_and!; try done. destruct (in_shared _ Hi) as [S1 S2 S3 S4 S5 S6 S7 S8 S9 S10 S11 S12].
  destruct (in_threads _ Hi _ _ Hth) as [[R1 R2 R3 R4 R5 R6] _]. apply (inv_stay w th p); try done.
  - split; simpl; try done.
    + intros m rs H. by destruct (browsers_left w m rs).
    + intros m rs r H. by destruct (browsers_left w m rs).
    + intros r Hr. destruct (orphans_left cfg w r Hi Hl Hr). auto.
    + intros m rs H. by destruct (browsers_left w m rs).
  - split; simpl; try done; try (destruct Hp as [->|[->| ->]]; done). by intros (? & ? & ? & ?).
  - destruct Hp as [->|[->| ->]]; done.
  - split; simpl; try done; destruct Hp as [->|[->| ->]]; done.
Qed.
Lemma inv_worker_done w th p : inv w → threads w !! th = Some p → isExclusive p = true → isWorker p = true → inv (workerDone w th).
Proof.
  intros Hi Hth He Hwk. assert (isShared p = false) as Hsh by by destruct p.
  eapply (inv_quiet w th p None); try done; simpl; unfold permits; rewrite ?He, ?Hwk, ?Hsh; simpl;
    pose proof (in_gate _ Hi); unfold runtimeWeight in *; lia.
Qed.
Lemma inv_publish cfg w th t w' : inv w → launched cfg w → threads w !! th = Some (ALaunch t) → publishBrowser cfg w = Some w' →
  inv (goto (releaseRuntime (runtimeWeight - 1) w') th (AEntered t)).
Proof.
  intros Hi Hl Hth Hp. unfold publishBrowser in Hp. destruct (closed (chr w)) eqn:Hcl; [done|]. injection Hp as <-. set (m := nextID w).
  destruct (in_threads _ Hi _ _ Hth) as [[R1 R2 R3 R4 R5 R6] Hlt]. simpl in R6. destruct (in_shared _ Hi) as [S1 S2 S3 S4 S5 S6 S7 S8 S9 S10 S11 S12].
  assert (Hm : master (chr w) = None) by (destruct (master (chr w)) eqn:E; [|done]; destruct R6; apply S1; eauto).
  assert (Hctx : contexts (chr w) = ∅) by (destruct (decide (contexts (chr w) = ∅)) as [|Hn]; [done|by destruct R6; apply S2]).
  set (ca := setHeld (setState (setMaster (chr w) (Some m)) StateRunning) (held (chr w) - (runtimeWeight - 1))).
  set (o := orphans w). set (rs0 := if attach cfg then outside o else ∅). set (o' := if attach cfg then mkLeft (lost o) (forgotten o) ∅ else o).
  assert (Ho : gone o' = gone o ∧ outside o' = ∅ ∧ ∀ r, r ∈ rs0 → r ∈ outside o).
  { unfold o', rs0. destruct (attach cfg) eqn:E; [done|]. destruct (Hl E). by split_and!. }
  destruct Ho as (Hgone & Hout & Hrs0).
  set (wa := mkWorld ca (<[th := AEntered t]> (threads w)) (<[m := rs0]> (browsers w)) o' (m + 1) (shutdownDone w)).
  assert (Ha : inv wa).
  { eapply (inv_move w th (ALaunch t) (Some (AEntered t))); try done; unfold permits, runtimeWeight; simpl.
    - unfold m. lia.
    - split; simpl; try done.
      + intros m' rs. rewrite lookup_insert_Some. intros [[-> _]|[_ H]]; [done|]. apply S3 in H. congruence.
      + by rewrite Hctx.
      + rewrite Hgone. intros m' rs r. rewrite lookup_insert_Some. intros [[_ <-]|[_ H]]; [|apply S3 in H; congruence].
        intros Hr%Hrs0%S11. unfold m. split; [lia|apply Hr].
      + intros t' x Hx. specialize (S9 _ _ Hx). unfold m. lia.
      + intros m' [= <-]. lia.
      + rewrite Hout. set_solver.
    - split; simpl; try done. intros (H & _). congruence.
    - intros p' [= <-]. by split.
    - unfold runtimeWeight. lia.
    - pose proof (in_gate _ Hi). unfold runtimeWeight in *. lia.
    - lia.
    - intros p' t' [= <-] [= <-]. split; [by eapply (in_op _ Hi)|auto].
    - intros Hd. destruct (in_done _ Hi Hd). congruence. }
  assert (Hb : inv (setChr (spawn wa (WWait m)) (setWorkers ca (workers ca + 1)))).
  { apply (inv_spawn wa (WWait m)); try done. eapply (quiet_shared ca); [by split|apply Z.le_succ_diag_r|apply (in_shared _ Ha)]. }
  unfold wa, ca, rs0, o', o, spawn, goto, setThreads, setNext, setChr in Hb. simpl in Hb. rewrite insert_insert_ne in Hb by (unfold m in *; lia).
  clear -Hb. by destruct (attach cfg).
Qed.

(** ** Making a context *)

Section creating.
Context (w : world) (th t m : Z) (Hi : inv w) (Hth : threads w !! th = Some (ACreate t)) (Hm : master (chr w) = Some m).
Local Definition created_browsers : gmap Z (gset Z) := alter (λ rs, {[nextID w]} ∪ rs) m (browsers w).
Lemma created_lookup m' rs' : created_browsers !! m' = Some rs' → m' = m ∧ ∃ rs, browsers w !! m = Some rs ∧ rs' = {[nextID w]} ∪ rs.
Proof.
  unfold created_browsers. destruct (decide (m = m')) as [<-|Hne].
  - rewrite lookup_alter_eq. destruct (browsers w !! m) as [rs|]; [|done]. simpl. intros [= <-]. eauto.
  - rewrite lookup_alter_ne by done. intros H. apply (so_browsers _ _ _ _ (in_shared _ Hi)) in H. congruence.
Qed.
Lemma not_down c : state c = StateRunning → master c = Some m → closedDown c → False.
Proof. intros _ Hc (_ & _ & _ & H). congruence. Qed.
Lemma inv_created : inv (mkWorld (setContexts (chr w) (<[t := mkContext (nextID w) false]> (contexts (chr w)))) (<[th := AAttach t (nextID w)]> (threads w))
  created_browsers (orphans w) (nextID w + 1) (shutdownDone w)).
Proof.
  destruct (in_threads _ Hi _ _ Hth) as [[R1 R2 R3 R4 R5 R6] _]. simpl in R6. destruct (in_shared _ Hi) as [S1 S2 S3 S4 S5 S6 S7 S8 S9 S10 S11 S12].
  specialize (R3 eq_refl). specialize (R4 eq_refl t eq_refl).
  eapply (inv_move w th (ACreate t) (Some (AAttach t (nextID w)))); try done; simpl.
  - lia.
  - split; simpl; try done.
    + intros m' rs' [-> _]%created_lookup. done.
    + intros t' b. rewrite lookup_insert_Some. intros [[<- <-]|[Hne Hb]]; simpl; [split; [done|lia]|]. destruct (S4 _ _ Hb). split; [done|lia].
    + intros t1 t2 b1 b2. rewrite !lookup_insert_Some. intros [[<- <-]|[Hne1 H1]] [[<- <-]|[Hne2 H2]]; simpl; try done.
      * intros E. destruct (S4 _ _ H2). lia.
      * intros E. destruct (S4 _ _ H1). lia.
      * by apply S5.
    + intros m' rs' r [-> (rs & Hrs & ->)]%created_lookup Hr. destruct (decide (r = nextID w)) as [->|Hne].
      * split; [lia|]. right. exists t, (mkContext (nextID w) false). by rewrite lookup_insert_eq.
      * destruct (S6 m rs r Hrs) as [Hlt [?|(t' & b & Hb & Hbr)]]; [set_solver|split; [lia|auto]|]. split; [lia|]. right. exists t', b.
        rewrite lookup_insert_ne; [done|]. intros <-. congruence.
    + intros t' x Hx. specialize (S9 _ _ Hx). lia.
    + intros m' Hm'. specialize (S10 _ Hm'). lia.
    + intros r Hr. destruct (S11 r Hr) as [Hlt [?|(t' & b & Hb & Hbr)]]; [split; [lia|auto]|]. split; [lia|]. right. exists t', b.
      rewrite lookup_insert_ne; [done|]. intros <-. congruence.
    + intros m' rs' [-> (rs & Hrs & _)]%created_lookup. by eapply S12.
  - split; simpl; try done; [intros H; by destruct (not_down (chr w))|]. intros _ t' Hne. rewrite lookup_insert_ne; [done|congruence].
  - intros p' [= <-]. split; simpl; try done; try (by intros _ ? [= <-]). apply lookup_insert_eq.
  - unfold permits. simpl. lia.
  - apply (in_gate _ Hi).
  - lia.
  - intros p' t' [= <-] [= <-]. split; [by eapply (in_op _ Hi)|auto].
  - intros Hd. destruct (not_down (chr w) R3 Hm). by apply (in_done _ Hi).
Qed.
Lemma inv_lost : inv (mkWorld (chr w) (threads w) created_browsers (orphans (setLost w ({[nextID w]} ∪ lost (orphans w)))) (nextID w + 1) (shutdownDone w)).
Proof.
  destruct (in_threads _ Hi _ _ Hth) as [Hr _]. destruct (in_shared _ Hi) as [S1 S2 S3 S4 S5 S6 S7 S8 S9 S10 S11 S12].
  apply (inv_stay w th (ACreate t)); try done; [lia|]. split; try done.
  - intros m' rs' [-> _]%created_lookup. done.
  - intros t' b Hb. destruct (S4 _ _ Hb). split; [done|lia].
  - intros m' rs' r [-> (rs & Hrs & ->)]%created_lookup Hr'. destruct (decide (r = nextID w)) as [->|Hne]; [split; [lia|unfold gone; set_solver]|].
    destruct (S6 m rs r Hrs) as [Hlt [?|?]]; [set_solver|split; [lia|unfold gone in *; set_solver]|split; [lia|auto]].
  - intros t' x Hx. specialize (S9 _ _ Hx). lia.
  - intros m' Hm'. specialize (S10 _ Hm'). lia.
  - intros r Hr'. destruct (S11 r Hr') as [Hlt [?|?]]; split; [lia|unfold gone in *; set_solver|lia|auto].
  - intros m' rs' [-> (rs & Hrs & _)]%created_lookup. by eapply S12.
Qed.
End creating.
Lemma inv_attached w th t n : inv w → threads w !! th = Some (AAttach t n) →
  inv (goto (upd w (λ c, setContexts c (<[t := mkContext n true]> (contexts c)))) th (AReady t n)).
Proof.
  intros Hi Hth. destruct (in_threads _ Hi _ _ Hth) as [[R1 R2 R3 R4 R5 R6] _]. simpl in R6. destruct (in_shared _ Hi) as [S1 S2 S3 S4 S5 S6 S7 S8 S9 S10 S11 S12].
  specialize (R3 eq_refl). specialize (R4 eq_refl t eq_refl).
  assert (Hsame : ∀ t' b, <[t := mkContext n true]> (contexts (chr w)) !! t' = Some b → ∃ b0, contexts (chr w) !! t' = Some b0 ∧ bcRemote b0 = bcRemote b).
  { intros t' b. rewrite lookup_insert_Some. intros [[<- <-]|[_ Hb]]; eauto. }
  assert (Hrec : ∀ r, (∃ t b, contexts (chr w) !! t = Some b ∧ bcRemote b = r) → ∃ t' b, <[t := mkContext n true]> (contexts (chr w)) !! t' = Some b ∧ bcRemote b = r).
  { intros r (t' & b & Hb & Hbr). destruct (decide (t = t')) as [<-|]; [|exists t', b; by rewrite lookup_insert_ne].
    exists t, (mkContext n true). rewrite lookup_insert_eq. split; [done|]. rewrite R6 in Hb. by injection Hb as <-. }
  eapply (inv_move w th (AAttach t n) (Some (AReady t n))); try done; simpl.
  - split; simpl; try done.
    + intros t' b (b0 & Hb & <-)%Hsame. by apply S4.
    + intros t1 t2 b1 b2 (c1 & H1 & <-)%Hsame (c2 & H2 & <-)%Hsame. by apply S5.
    + intros m rs r Hrs Hr. destruct (S6 m rs r Hrs Hr) as [? [?|?]]; auto.
    + intros r Hr. destruct (S11 r Hr) as [? [?|?]]; auto.
  - split; simpl; try done; [intros (_ & E & _); by rewrite E in R6|]. intros _ t' Hne. rewrite lookup_insert_ne; [done|congruence].
  - intros p' [= <-]. split; simpl; try done; try (by intros _ ? [= <-]). apply lookup_insert_eq.
  - unfold permits. simpl. lia.
  - apply (in_gate _ Hi).
  - lia.
  - intros p' t' [= <-] [= <-]. split; [by eapply (in_op _ Hi)|auto].
  - intros Hd. destruct (in_done _ Hi Hd) as (_ & E & _). by rewrite E in R6.
Qed.

(** ** Closing *)

Lemma tenant_alter c t t' f : tenantOf (withTenant c t f) t' = if decide (t = t' ∧ is_Some (tenants c !! t)) then f (tenantOf c t) else tenantOf c t'.
Proof.
  unfold tenantOf. simpl. destruct (decide (t = t')) as [<-|].
  - rewrite lookup_alter_eq. destruct (tenants c !! t) eqn:E; simpl; [rewrite decide_True by eauto|rewrite decide_False by (intros [_ [? ?]]; congruence)]; done.
  - rewrite lookup_alter_ne by done. rewrite decide_False by tauto. done.
Qed.
Lemma known_alter c t t' f : is_Some (tenants (withTenant c t f) !! t') ↔ is_Some (tenants c !! t').
Proof. simpl. apply lookup_alter_is_Some. Qed.

Lemma inv_marked w th t : inv w → threads w !! th = Some (CMark t) →
  inv (upd w (λ c, setHandles (withTenant c t (λ x, mkTenant (tOperation x) (tClosing x) true)) (handles c ∖ {[t]}))).
Proof.
  intros Hi Hth. destruct (in_threads _ Hi _ _ Hth) as [[R1 R2 R3 R4 R5 R6] _]. simpl in R6.
  specialize (R1 t eq_refl). specialize (R5 eq_refl t eq_refl). destruct (in_shared _ Hi) as [S1 S2 S3 S4 S5 S6 S7 S8 S9 S10 S11 S12].
  set (f := λ x : browserTenant, mkTenant (tOperation x) (tClosing x) true).
  assert (Hten : ∀ t', tenantOf (setHandles (withTenant (chr w) t f) (handles (chr w) ∖ {[t]})) t' = if decide (t = t') then f (tenantOf (chr w) t) else tenantOf (chr w) t').
  { intros t'. change (tenantOf (withTenant (chr w) t f) t' = if decide (t = t') then f (tenantOf (chr w) t) else tenantOf (chr w) t').
    rewrite tenant_alter. destruct (decide (t = t')); [rewrite decide_True by auto|rewrite decide_False by tauto]; done. }
  apply (inv_stay w th (CMark t)); try done.
  - split; try done.
    + intros t' b Hb. rewrite Hten. case_decide as Hd; [subst t'; simpl in Hb; congruence|]. by apply S4.
    + intros t'. simpl. rewrite elem_of_difference, elem_of_singleton, S7. destruct (decide (t = t')) as [<-|Hne].
      * rewrite lookup_alter_eq. split; [by intros [_ []]|]. intros (x & Hx & Hc). destruct (tenants (chr w) !! t); simplify_eq/=.
      * rewrite lookup_alter_ne by done. naive_solver.
    + intros t' s Hs. destruct (S8 t' s Hs) as (H1 & H2 & H3). assert (t ≠ t') by (intros ->; congruence).
      rewrite Hten, decide_False by done. split_and!; try done. simpl. set_solver.
    + intros t' x Hx. simpl in Hx. destruct (decide (t = t')) as [<-|]; [|rewrite lookup_alter_ne in Hx by done; by eapply S9].
      destruct R1 as [y Hy]. by eapply S9.
  - split; try done.
    + intros t' ?. by apply known_alter.
    + intros t' _ Hc. rewrite Hten. case_decide; [by subst|done].
    + unfold closedDown. simpl. intros (? & ? & -> & ?). set_solver.
    + intros _ t' Hne _. rewrite Hten, decide_False; [done|]. intros <-. by destruct Hne.
  - split; try done.
    + intros t' [= <-]. by apply known_alter.
    + intros _ t' [= <-]. rewrite Hten, decide_True by done. done.
  - intros t' Ht'. rewrite Hten. case_decide; [by subst|done].
Qed.
Definition shutTenants (c : chromium) : chromium :=
  setState (setHandles (setTenants c (map_imap (λ t x, Some (if bool_decide (t ∈ handles c) then mkTenant (tOperation x) (tClosing x) true else x)) (tenants c))) ∅) StateClosed.
Lemma marked_lookup c t : tenants (shutTenants c) !! t = (λ x, if bool_decide (t ∈ handles c) then mkTenant (tOperation x) (tClosing x) true else x) <$> tenants c !! t.
Proof. simpl. rewrite map_lookup_imap. by destruct (tenants c !! t). Qed.
Lemma marked_tenant c t : tOperation (tenantOf (shutTenants c) t) = tOperation (tenantOf c t) ∧ tClosing (tenantOf (shutTenants c) t) = tClosing (tenantOf c t).
Proof. unfold tenantOf. rewrite marked_lookup. destruct (tenants c !! t); [|done]. simpl. by case_bool_decide. Qed.
Lemma inv_shut_down w th : inv w → threads w !! th = Some FMark → inv (goto (releaseRuntime runtimeWeight (upd w shutTenants)) th FJoin).
Proof.
  intros Hi Hth. destruct (in_threads _ Hi _ _ Hth) as [[R1 R2 R3 R4 R5 R6] _]. destruct R6 as [Hctx Hm]. specialize (R2 eq_refl).
  destruct (in_shared _ Hi) as [S1 S2 S3 S4 S5 S6 S7 S8 S9 S10 S11 S12].
  assert (Hdown : closedDown (shutTenants (chr w))) by (by split_and!).
  eapply (inv_move w th FMark (Some FJoin)); try done.
  - split; try done.
    + simpl. rewrite Hm. split; [done|by intros [? ?]].
    + simpl. by rewrite Hctx.
    + intros t. change (tenants (chr _)) with (tenants (shutTenants (chr w))). rewrite marked_lookup. simpl. split; [set_solver|].
      intros (x & Hx & Hc). exfalso. destruct (tenants (chr w) !! t) as [y|] eqn:E; [|done]. simpl in Hx. case_bool_decide as Hin; simplify_eq/=.
      apply Hin, S7. eauto.
    + intros t s Hs. exfalso. destruct (S8 t s Hs) as (_ & _ & ?). congruence.
    + intros t x Hx. change (tenants (chr _)) with (tenants (shutTenants (chr w))) in Hx. rewrite marked_lookup in Hx. destruct (tenants (chr w) !! t) eqn:E; [|done].
      by eapply S9.
  - split; try done.
    + intros t [x Hx]. change (tenants (chr _)) with (tenants (shutTenants (chr w))). rewrite marked_lookup, Hx. eauto.
    + intros t _ Hc. change (tenantOf (chr _) t) with (tenantOf (shutTenants (chr w)) t). by rewrite (proj2 (marked_tenant (chr w) t)).
  - intros p' [= <-]. by split.
  - unfold permits. simpl. lia.
  - simpl. pose proof (in_gate _ Hi). unfold runtimeWeight in *. lia.
  - simpl. lia.
  - intros t _ Ht. change (tenantOf (chr _) t) with (tenantOf (shutTenants (chr w)) t). by rewrite (proj1 (marked_tenant (chr w) t)).
  - by intros p' t [= <-].
Qed.
(** The end of a start: the gate is given back, the state may have become idle. *)
Lemma inv_probed w th b i : inv w → threads w !! th = Some SProbe →
  inv (threadEnd (releaseRuntime runtimeWeight (upd w (λ c, setState (setPortHeld c b) (if i : bool then StateIdle else state c)))) th).
Proof.
  intros Hi Hth. destruct (in_threads _ Hi _ _ Hth) as [[R1 R2 R3 R4 R5 R6] _]. simpl in R6. destruct (in_shared _ Hi) as [S1 S2 S3 S4 S5 S6 S7 S8 S9 S10 S11 S12].
  assert (Hm : master (chr w) = None) by (destruct (master (chr w)) eqn:E; [|done]; destruct R6; apply S1; eauto).
  assert (Hctx : contexts (chr w) = ∅) by (destruct (decide (contexts (chr w) = ∅)) as [|Hn]; [done|by destruct R6; apply S2]).
  eapply (inv_move w th SProbe None); try done; simpl.
  - split; simpl; try done; rewrite ?Hm, ?Hctx; try done. destruct i; [by split; [|intros [? ?]]|]. by rewrite S1, Hm.
  - unfold permits. simpl. lia.
  - pose proof (in_gate _ Hi). unfold runtimeWeight in *. lia.
  - lia.
  - apply (in_done _ Hi).
Qed.

(** ** Calls from outside *)

Lemma inv_new_tenant w t w' : inv w → NewTenant w = Some (t, w') → inv w'.
Proof.
  intros Hi. unfold NewTenant. destruct (closed (chr w)) eqn:Hc; [done|]. destruct (bool_decide _); [done|]. simpl. intros [= <- <-].
  destruct (in_shared _ Hi) as [S1 S2 S3 S4 S5 S6 S7 S8 S9 S10 S11 S12].
  assert (Hnew : tenants (chr w) !! nextID w = None) by (destruct (tenants (chr w) !! nextID w) eqn:E; [apply S9 in E; lia|done]).
  set (c' := setHandles (setTenants (chr w) (<[nextID w := mkTenant false false false]> (tenants (chr w)))) ({[nextID w]} ∪ handles (chr w))).
  assert (Hten : ∀ t, nextID w ≠ t → tenantOf c' t = tenantOf (chr w) t) by (intros t Hne; unfold tenantOf; simpl; by rewrite lookup_insert_ne).
  assert (Hold : ∀ t, is_Some (tenants (chr w) !! t) → nextID w ≠ t) by (intros t [x Hx] <-; congruence).
  eapply (inv_env w); try done; simpl; fold c'.
  - lia.
  - split; simpl; try done.
    + intros t b Hb. destruct (S4 _ _ Hb) as [H1 H2]. split; [|lia]. rewrite Hten; [done|]. intros <-. unfold tenantOf in H1. by rewrite Hnew in H1.
    + intros m rs r Hrs Hr. destruct (S6 _ _ _ Hrs Hr). split; [lia|done].
    + intros t. rewrite elem_of_union, elem_of_singleton, S7. destruct (decide (nextID w = t)) as [<-|Hne].
      * rewrite lookup_insert_eq. naive_solver.
      * rewrite lookup_insert_ne by done. naive_solver.
    + intros t s Hs. destruct (S8 t s Hs) as (H1 & H2 & H3). split_and!; [set_solver| |done]. rewrite Hten; [done|]. apply S7 in H1 as (? & ? & ?). apply Hold. eauto.
    + intros t x. rewrite lookup_insert_Some. intros [[<- _]|[_ Hx]]; [lia|]. specialize (S9 _ _ Hx). lia.
    + intros m Hm. specialize (S10 _ Hm). lia.
    + intros r Hr. destruct (S11 _ Hr). split; [lia|done].
  - split; simpl; try done.
    + intros t Ht. rewrite lookup_insert_ne by auto. done.
    + intros t Ht. rewrite Hten by auto. done.
    + intros (? & _). congruence.
    + intros _ t _ Ht. by rewrite Hten by auto.
  - intros t Ht Hk. by rewrite Hten by auto.
  - intros Hd. destruct (in_done _ Hi Hd). congruence.
Qed.
Lemma inv_token cfg w t s w' : inv w → CDPToken cfg w t = Some (s, w') → inv w'.
Proof.
  intros Hi. unfold CDPToken. destruct (negb _); [done|]. destruct (closed (chr w)) eqn:Hc; [done|]. simpl. case_bool_decide as Hin; [|done]. simpl.
  destruct (tClosing _) eqn:Hcl; [done|]. destruct (cdpSecrets (chr w) !! t) eqn:Hs; intros [= <- <-]; [done|].
  destruct (in_shared _ Hi) as [S1 S2 S3 S4 S5 S6 S7 S8 S9 S10 S11 S12]. eapply (inv_env w); try done; simpl; [lia| |apply (in_done _ Hi)].
  split; simpl; try done.
  - intros t' b Hb. destruct (S4 _ _ Hb). split; [done|lia].
  - intros m rs r Hrs Hr. destruct (S6 _ _ _ Hrs Hr). split; [lia|done].
  - intros t' s'. rewrite lookup_insert_Some. intros [[<- _]|[_ H]]; [done|by eapply S8].
  - intros t' x Hx. specialize (S9 _ _ Hx). lia.
  - intros m Hm. specialize (S10 _ Hm). lia.
  - intros r Hr. destruct (S11 _ Hr). split; [lia|done].
Qed.
Lemma inv_spawn_plain w p : inv w → isShared p = false → isExclusive p = false → isWorker p = false → opOf p = None → relies (chr w) p → inv (spawn w p).
Proof.
  intros Hi H1 H2 H3 H4 Hr. refine (inv_spawn w p (chr w) Hi H1 H2 H4 Hr _ _ _ _ _ _); try done.
  - eapply (quiet_shared (chr w)); [done|apply Z.le_succ_diag_r|apply (in_shared _ Hi)].
  - rewrite H3. simpl. lia.
Qed.
Lemma inv_close_tenant w t w' : inv w → closeTenant w t = Some w' → inv w'.
Proof.
  intros Hi. unfold closeTenant. destruct (tClosed _) eqn:Hcl; [done|]. intros [= <-].
  destruct (in_shared _ Hi) as [S1 S2 S3 S4 S5 S6 S7 S8 S9 S10 S11 S12].
  assert (Hk : is_Some (tenants (chr w) !! t)) by (unfold tenantOf in Hcl; destruct (tenants (chr w) !! t); [eauto|done]).
  set (f := λ x : browserTenant, mkTenant (tOperation x) true (tClosed x)). set (c' := withTenant (setSecrets (chr w) (delete t (cdpSecrets (chr w)))) t f).
  assert (Hten : ∀ t', tenantOf c' t' = if decide (t = t') then f (tenantOf (chr w) t) else tenantOf (chr w) t').
  { intros t'. unfold c'. rewrite tenant_alter. destruct (decide (t = t')); [rewrite decide_True by auto|rewrite decide_False by tauto]; done. }
  assert (Hi' : inv (setChr w c')).
  { eapply (inv_env w); try done; simpl.
    - split; try done.
      + intros t' b Hb. rewrite Hten. destruct (S4 _ _ Hb). case_decide; [by subst|done].
      + intros t'. simpl. rewrite S7. destruct (decide (t = t')) as [<-|]; [|by rewrite lookup_alter_ne]. rewrite lookup_alter_eq.
        destruct (tenants (chr w) !! t); naive_solver.
      + intros t' s. simpl. intros [Hne Hs]%lookup_delete_Some. rewrite Hten, decide_False by done. by eapply S8.
      + intros t' x. simpl. destruct (decide (t = t')) as [<-|]; [|rewrite lookup_alter_ne by done; apply S9]. intros _. destruct Hk as [y Hy]. by eapply S9.
    - split; try done.
      + intros t' ?. by apply known_alter.
      + intros t' _ Hc. rewrite Hten. by case_decide.
      + intros _ t' _ _. rewrite Hten. by case_decide; [subst|].
    - intros t' Ht' _. rewrite Hten. by case_decide; [subst|].
    - apply (in_done _ Hi). }
  apply (inv_spawn_plain (setChr w c')); try done. split; try done.
  - intros t' [= <-]. by apply known_alter.
  - intros _ t' [= <-]. simpl. by rewrite Hten, decide_True.
Qed.
Lemma inv_close_facility w : inv w → inv (closeFacility w).
Proof.
  intros Hi. unfold closeFacility. set (w1 := upd w _). destruct (in_shared _ Hi) as [S1 S2 S3 S4 S5 S6 S7 S8 S9 S10 S11 S12].
  assert (H1 : inv w1).
  { eapply (inv_env w); try done; simpl; [split; try done; by intros (_ & ?)|]. intros Hd. destruct (in_done _ Hi Hd) as (_ & ?). by split. }
  assert (closed (chr w1) = true) as Hc by done. clearbody w1. destruct (inv_stop_idle w1 H1) as [H2 [C1 _ _ _ _ _ _ _]].
  apply inv_spawn_plain; try done. split; try done. intros _. by rewrite (qu_closed _ _ C1).
Qed.

(** ** Every step *)

Lemma relies_same c p p' : relies c p → about p' = about p → (ofFacility p' = true → ofFacility p = true) → entered p' = false → (closesTenant p' = true → closesTenant p = true) →
  match p' with ACreate _ | CMark _ | AAttach _ _ | AReady _ _ | TStop | FDispose _ _ | FStop | FMark | FJoin | ALaunch _ | SProbe => False | _ => True end → relies c p'.
Proof.
  intros [R1 R2 R3 R4 R5 R6] Ha Hf He Hc Hh. split.
  - intros t. rewrite Ha. apply R1.
  - auto.
  - congruence.
  - intros Had. by destruct p'.
  - intros H t. rewrite Ha. auto.
  - by destruct p'.
Qed.
Lemma relies_entered c p p' t : relies c p → about p = Some t → about p' = Some t → state c = StateRunning → (admitted p' = true → tClosed (tenantOf c t) = false) →
  match p' with AEntered _ | APrepare _ | ARelease _ => True | ACreate _ => contexts c !! t = None | AReady _ r => contexts c !! t = Some (mkContext r true) | _ => False end →
  relies c p'.
Proof.
  intros [R1 R2 R3 R4 R5 R6] Hp Hp' Hs Ha Hh. split; try (by destruct p').
  - intros t'. rewrite Hp'. intros [= <-]. by apply R1.
  - intros H t' Ht'. destruct p'; try done; simpl in *; simplify_eq; by apply Ha.
  - destruct p'; try done; simpl in *; by simplify_eq.
Qed.

Ltac bind_step H := match type of H with context [?x ≫= _] => let E := fresh "Ha" in destruct x eqn:E; simpl in H; [|done] end.

Lemma inv_acquire_step cfg w th p a w' : inv w → launched cfg w → threads w !! th = Some p → acquireStep cfg w th p a = Some w' → inv w'.
Proof.
  intros Hi Hl Hth Hs. destruct (in_threads _ Hi _ _ Hth) as [Hr _]. destruct p; try done; destruct a; simpl in Hs; try done.
  - bind_step Hs. injection Hs as <-. eapply inv_takes; try done; [by apply (re_known _ _ Hr)|by eapply relies_same].
  - injection Hs as <-. by eapply inv_ends.
  - bind_step Hs. injection Hs as <-. eapply inv_enter; try done; by eapply relies_same.
  - injection Hs as <-. by eapply inv_leave_gate.
  - destruct (bool_decide _ && _) eqn:Hb; injection Hs as <-.
    + apply andb_true_iff in Hb as [Hb%bool_decide_eq_true _]. eapply inv_goes; try done. by eapply relies_entered.
    + refine (inv_releases w th _ (Some (AWaitExclusive t)) 1 Hi Hth _ _ _ _); try done. intros p' [= <-]. split; [done|]. by eapply relies_same.
  - bind_step Hs. injection Hs as <-. eapply inv_enter; try done; by eapply relies_same.
  - injection Hs as <-. by eapply inv_leave_gate.
  - unfold startCheck in Hs. destruct (closed (chr w) || _); [injection Hs as <-; by eapply inv_leave_all|]. case_bool_decide as Hrun.
    + injection Hs as <-. refine (inv_releases w th _ (Some (AEntered t)) (runtimeWeight - 1) Hi Hth _ _ _ _); try done.
      intros p' [= <-]. split; [done|]. by eapply relies_entered.
    + destruct (_ <? _); injection Hs as <-; [by eapply inv_leave_all|]. eapply inv_goes; try done.
      destruct Hr as [R1 R2 R3 R4 R5 R6]. by split.
  - destruct r; [|injection Hs as <-; by eapply inv_leave_all..]. destruct (publishBrowser cfg w) eqn:Hp; injection Hs as <-; [by eapply inv_publish|by eapply inv_leave_all].
  - destruct (tClosing _ || tClosed _) eqn:Hc; injection Hs as <-; [by eapply inv_leave_all|]. apply orb_false_iff in Hc as [_ Hc].
    eapply inv_goes; try done. eapply relies_entered; try done. by apply (re_running _ _ Hr).
  - injection Hs as <-. destruct (inv_stop_idle w Hi) as [H1 [C1 _ _ _ _ _ _ C8]]. specialize (C8 _ _ Hth ltac:(done)).
    set (w1 := stopIdleTimerLocked w) in *. destruct (in_threads _ H1 _ _ C8) as [Hr1 _]. rewrite <- (qu_contexts _ _ C1).
    pose proof (re_running _ _ Hr1 eq_refl) as Hrun. pose proof (re_admitted _ _ Hr1 eq_refl t eq_refl) as Hcl.
    destruct (contexts (chr w1) !! t) as [[r b]|] eqn:Hx; [destruct b|]; simpl; eapply inv_goes; try done; by eapply relies_entered.
  - destruct (releaseContext cfg w t r) as [w1 ok] eqn:Hrel. destruct (inv_release_context cfg w th _ t r w1 ok Hi Hth eq_refl Hrel) as (H1 & H2 & H3 & H4 & H5 & H6 & H7).
    destruct (in_threads _ H1 _ _ H2) as [Hr1 _]. destruct ok; injection Hs as <-; [|by eapply inv_leave_all].
    eapply inv_goes; try done. eapply relies_entered; try done; [by apply (re_running _ _ Hr1)|intros _; by apply (re_admitted _ _ Hr1)|by apply H3].
  - destruct r.
    + destruct (master (chr w)) as [m|] eqn:Hm; [|injection Hs as <-; by eapply inv_leave_all]. case_bool_decide; [|done]. injection Hs as <-.
      exact (inv_created w th t m Hi Hth Hm).
    + injection Hs as <-. by eapply inv_leave_all.
    + destruct (master (chr w)) as [m|] eqn:Hm; [|injection Hs as <-; by eapply inv_leave_all]. case_bool_decide; [|done]. injection Hs as <-.
      pose proof (inv_lost w th t m Hi Hth Hm) as H1. exact (inv_leave_all _ th _ 1 t H1 Hth eq_refl eq_refl eq_refl).
  - destruct r0; injection Hs as <-; [by apply inv_attached|by eapply inv_leave_all..].
  - injection Hs as <-. by eapply inv_leave_all.
Qed.
Lemma inv_tenant_step cfg w th p a w' : inv w → threads w !! th = Some p → tenantStep cfg w th p a = Some w' → inv w'.
Proof.
  intros Hi Hth Hs. destruct (in_threads _ Hi _ _ Hth) as [Hr _]. destruct p; try done; destruct a; simpl in Hs; try done.
  - bind_step Hs. injection Hs as <-. eapply inv_takes; try done; [by apply (re_known _ _ Hr)|by eapply relies_same].
  - injection Hs as <-. by eapply inv_ends.
  - bind_step Hs. injection Hs as <-. eapply inv_enter; try done; by eapply relies_same.
  - injection Hs as <-. by eapply inv_leave_gate.
  - destruct (releaseContext cfg w t r) as [w1 ok] eqn:Hrel. destruct (inv_release_context cfg w th _ t r w1 ok Hi Hth eq_refl Hrel) as (H1 & H2 & H3 & H4 & H5 & H6 & H7).
    destruct (in_threads _ H1 _ _ H2) as [[R1 R2 R3 R4 R5 R6] _]. destruct ok; injection Hs as <-; [|by eapply inv_leave_all].
    eapply inv_goes; try done. split; try done. by apply H3.
  - injection Hs as <-. pose proof (inv_marked w th t Hi Hth) as H1. exact (inv_leave_all _ th _ 1 t H1 Hth eq_refl eq_refl eq_refl).
  - bind_step Hs. injection Hs as <-. eapply inv_takes; try done; [by apply (re_known _ _ Hr)|by eapply relies_same].
  - injection Hs as <-. by eapply inv_ends.
  - bind_step Hs. injection Hs as <-. eapply inv_enter; try done; by eapply relies_same.
  - injection Hs as <-. by eapply inv_leave_gate.
  - destruct (_ || _); injection Hs as <-; [by eapply inv_leave_all|]. eapply inv_goes; try done; by eapply relies_same.
  - injection Hs as <-. destruct (releaseContext cfg w t r) as [w1 ok] eqn:Hrel.
    destruct (inv_release_context cfg w th _ t r w1 ok Hi Hth eq_refl Hrel) as (H1 & H2 & _). by eapply inv_leave_all.
Qed.
Lemma inv_worker_step cfg w th p a w' : inv w → launched cfg w → threads w !! th = Some p → workerStep cfg w th p a = Some w' → inv w'.
Proof.
  intros Hi Hl Hth Hs. destruct (in_threads _ Hi _ _ Hth) as [Hr _]. destruct p; try done; destruct a; simpl in Hs; try done.
  - case_bool_decide; [done|]. bind_step Hs. injection Hs as <-. eapply inv_enter; try done; by eapply relies_same.
  - destruct (_ || _); injection Hs as <-; [by eapply inv_worker_done|]. assert (H1 : inv (upd w (λ c, setCrash c (crashed (crash c) now)))).
    { eapply (inv_env w); try done; simpl. - eapply (quiet_shared (chr w)); [by split|apply Z.le_refl|apply (in_shared _ Hi)]. - apply (in_done _ Hi). }
    eapply inv_goes; try done; by split.
  - injection Hs as <-. destruct (inv_stop_browser cfg w th _ Hi Hl Hth) as (H1 & H2 & _); [auto|]. eapply inv_worker_done; [done|by rewrite H2|done..].
  - injection Hs as <-. eapply inv_goes; try done; by eapply relies_same.
  - bind_step Hs. injection Hs as <-. eapply inv_enter; try done; by eapply relies_same.
  - case_bool_decide as Hc; simpl in Hs; [|injection Hs as <-; by eapply inv_worker_done].
    destruct (_ && _); injection Hs as <-; [|by eapply inv_worker_done]. by eapply inv_goes.
  - injection Hs as <-. destruct (inv_stop_browser cfg w th _ Hi Hl Hth) as (H1 & H2 & _); [auto|]. eapply inv_worker_done; [done|by rewrite H2|done..].
Qed.
Lemma inv_facility_step cfg w th p a w' : inv w → launched cfg w → threads w !! th = Some p → facilityStep cfg w th p a = Some w' → inv w'.
Proof.
  intros Hi Hl Hth Hs. destruct (in_threads _ Hi _ _ Hth) as [Hr _]. pose proof Hr as [R1 R2 R3 R4 R5 R6].
  assert (Hend : ∀ q, threads w !! th = Some q → isExclusive q = true → isWorker q = false → inv (threadEnd (releaseRuntime runtimeWeight w) th)).
  { intros q Hq He Hw. refine (inv_releases w th q None runtimeWeight Hi Hq _ _ _ _); [by destruct q|done|by rewrite Hw|done]. }
  destruct p; try done; destruct a; simpl in Hs; try done; try (destruct ids; [destruct failed|]; try done).
  - bind_step Hs. injection Hs as <-. eapply inv_enter; try done. split; try done. simpl. intros t [b Hb].
    apply list_elem_of_fmap. exists (t, b). split; [done|]. apply elem_of_map_to_list. unfold acquireRuntime in Ha. destruct (_ <=? _); [|done]. by injection Ha as <-.
  - injection Hs as <-. by eapply inv_ends.
  - injection Hs as <-. by eapply Hend.
  - injection Hs as <-. eapply inv_goes; try done. split; try done. simpl. apply map_empty. intros t. destruct (contexts (chr w) !! t) eqn:E; [|done].
    exfalso. apply (not_elem_of_nil t), R6. eauto.
  - destruct (releaseContext cfg w z r) as [w1 ok] eqn:Hrel. injection Hs as <-.
    destruct (inv_release_context cfg w th _ z r w1 ok Hi Hth I Hrel) as (H1 & H2 & H3 & H4 & H5 & H6 & H7).
    eapply inv_goes; try done. split; try done; [intros _; rewrite H7; by apply R2|]. destruct failed; [done|]. destruct ok; [|done]. simpl.
    intros t Ht. pose proof (R6 t (H4 t Ht)) as Hin. apply elem_of_cons in Hin as [->|]; [|done]. rewrite H3 in Ht by done. by destruct Ht.
  - injection Hs as <-. destruct (inv_stop_browser cfg w th _ Hi Hl Hth) as (H1 & H2 & H3 & H4); [auto|]. eapply inv_goes; [done|by rewrite H2|done..|].
    destruct (in_threads _ H1 th FStop) as [[] _]; [by rewrite H2|]. by split.
  - injection Hs as <-. by apply (inv_shut_down w th).
  - destruct (workers (chr w) =? 0) eqn:Hz; [|done]. injection Hs as <-.
    eapply (inv_move w th FJoin None); try done; simpl; try apply (in_gate _ Hi); try (unfold permits; simpl; lia).
    eapply (quiet_shared (chr w)); [by split|apply Z.le_refl|apply (in_shared _ Hi)].
  - injection Hs as <-. by eapply inv_ends.
  - bind_step Hs. injection Hs as <-. eapply inv_enter; try done; by eapply relies_same.
  - injection Hs as <-. by eapply inv_ends.
  - destruct (closed (chr w)); [injection Hs as <-; by eapply Hend|]. simpl in Hs. case_bool_decide as Hst; injection Hs as <-; [|by eapply Hend].
    eapply inv_goes; try done. split; try done. simpl. congruence.
  - injection Hs as <-. by eapply Hend.
  - set (needed := found && _ && _ && _) in Hs. destruct (needed && negb port); [injection Hs as <-; by eapply Hend|]. injection Hs as <-.
    pose proof (inv_probed w th (if needed then true else portHeld (chr w)) (found && negb (closed (chr w))) Hi Hth) as H1.
    destruct needed; simpl in *; destruct (found && negb (closed (chr w))); simpl in H1; exact H1.
Qed.
Lemma inv_initial : inv initial.
Proof.
  split; simpl; try done.
  split; simpl; try done. intros t. split; [set_solver|by intros (x & ? & _)].
Qed.
Lemma inv_disconnect w m rs : inv w → browsers w !! m = Some rs → inv (disconnect w m).
Proof.
  intros Hi Hm. destruct (in_shared _ Hi) as [S1 S2 S3 S4 S5 S6 S7 S8 S9 S10 S11 S12].
  assert (Hnone : ∀ m' rs', delete m (browsers w) !! m' = Some rs' → False).
  { intros m' rs' [Hne H]%lookup_delete_Some. apply S3 in H, Hm. congruence. }
  eapply (inv_env w); try done; simpl; [|apply (in_done _ Hi)]. rewrite Hm. split; simpl; try done.
  - intros m' rs' H. by destruct (Hnone m' rs').
  - intros m' rs' r H. by destruct (Hnone m' rs').
  - intros r. rewrite elem_of_union. intros [H|H]; [by apply (S6 m rs)|by apply S11].
  - intros m' rs' H. by destruct (Hnone m' rs').
Qed.
Lemma inv_step cfg w x w' : inv w → launched cfg w → perform cfg w x = Some w' → inv w'.
Proof.
  intros Hi Hl Hx. destruct x; simpl in Hx.
  - destruct (NewTenant w) as [[t w1]|] eqn:E; [|done]. injection Hx as <-. by eapply inv_new_tenant.
  - destruct (CDPToken cfg w t) as [[s w1]|] eqn:E; [|done]. injection Hx as <-. by eapply inv_token.
  - unfold acquireTenant in Hx. case_bool_decide as Hin; [|done]. injection Hx as <-. apply inv_spawn_plain; try done. split; try done.
    intros t' [= <-]. apply (so_handles _ _ _ _ (in_shared _ Hi)) in Hin as (? & ? & _). eauto.
  - by eapply inv_close_tenant.
  - case_bool_decide; [|done]. injection Hx as <-. apply inv_spawn_plain; try done. split; try done. by intros t' [= <-].
  - injection Hx as <-. by apply inv_close_facility.
  - injection Hx as <-. by apply inv_spawn_plain.
  - unfold proceed in Hx. destruct (threads w !! th) as [p|] eqn:Hth; [|done].
    destruct p; first [by eapply inv_acquire_step|by eapply inv_tenant_step|by eapply inv_worker_step|by eapply inv_facility_step].
  - case_bool_decide; [|done]. injection Hx as <-. eapply (inv_env w); try done; simpl; [|apply (in_done _ Hi)].
    apply (shared_shrink _ (browsers w)); [apply (in_shared _ Hi)|]. intros m' rs' [_ Hrs]%lookup_delete_Some. eauto.
  - injection Hx as <-. eapply (inv_env w); try done; simpl; [|apply (in_done _ Hi)].
    apply (shared_shrink _ (browsers w)); [apply (in_shared _ Hi)|]. apply alter_shrinks.
  - destruct (attach cfg); [|done]. simpl in Hx. case_bool_decide as Hm; [|done]. injection Hx as <-. destruct Hm as [rs Hm]. by eapply inv_disconnect.
  - injection Hx as <-. eapply (inv_env w); try done; simpl; [|apply (in_done _ Hi)].
    destruct (in_shared _ Hi) as [S1 S2 S3 S4 S5 S6 S7 S8 S9 S10 S11 S12]. split; simpl; try done.
    + intros r' Hr. apply S11. set_solver.
    + intros m rs Hm. rewrite (S12 m rs Hm). set_solver.
Qed.

(** ** The external browser *)

(** A context that exists in the browser that runs, or in the external one. *)
Definition living (w : world) (r : Z) : Prop := r ∈ outside (orphans w) ∨ ∃ m rs, browsers w !! m = Some rs ∧ r ∈ rs.
(** What the browser and the contexts do by themselves. *)
Definition ofBrowser (x : call) : bool := match x with CDies _ | CVanish _ _ | CDetach _ | CVanishOutside _ => true | _ => false end.
(** The section of the goroutine that makes the step. *)
Definition actor (w : world) (x : call) : option pc := match x with CAdvance th _ => threads w !! th | _ => None end.
(** What the facility does to the external browser: it ends only contexts that are recorded,
    and forgets a recorded one only when the watcher of the connection finds it gone. *)
Record external (cfg : ChromiumConfig) (o : option pc) (w w' : world) : Prop := {
  ex_launch : launched cfg w → launched cfg w';
  ex_living : attach cfg = true → ∀ r, living w r → living w' r ∨ r ∈ recorded (chr w);
  ex_forgotten : ∀ r, r ∈ forgotten (orphans w') → r ∈ forgotten (orphans w) ∨ o = Some WStop ∧ r ∈ recorded (chr w) }.
Definition apart (w w' : world) : Prop :=
  browsers w' = browsers w ∧ forgotten (orphans w') = forgotten (orphans w) ∧ outside (orphans w') = outside (orphans w).
Lemma external_apart cfg o w w1 w' : external cfg o w w1 → apart w1 w' → external cfg o w w'.
Proof. intros [E1 E2 E3] (A1 & A2 & A3). split; unfold launched, living in *; rewrite ?A1, ?A2, ?A3; done. Qed.
Lemma external_refl cfg o w : external cfg o w w.
Proof. split; auto. Qed.
Lemma apart_external cfg o w w' : apart w w' → external cfg o w w'.
Proof. apply external_apart, external_refl. Qed.
Lemma apart_stop w : apart w (stopIdleTimerLocked w).
Proof. unfold stopIdleTimerLocked. destruct (idleTimer (chr w)); [|done]. by destruct (threads w !! z) as [[]|]. Qed.
Lemma apart_schedule cfg w : apart w (scheduleIdleLocked cfg w).
Proof. unfold scheduleIdleLocked. destruct (_ || _); [done|]. destruct (apart_stop w) as (H1 & H2 & H3). by repeat split. Qed.
Lemma external_dispose cfg o w r : r ∈ recorded (chr w) → external cfg o w (dispose w r).
Proof.
  intros Hr. unfold dispose. destruct (master (chr w)) as [m|]; [|apply external_refl]. split; [done| |auto]. intros _ r' [H|(m' & rs & Hm & Hin)]; [left; by left|].
  destruct (decide (r' = r)) as [->|Hne]; [auto|]. left. right. simpl. exists m'. destruct (decide (m = m')) as [<-|]; [|rewrite lookup_alter_ne by done; eauto].
  rewrite lookup_alter_eq, Hm. exists (rs ∖ {[r]}). split; [done|set_solver].
Qed.
Lemma external_release cfg o w t a : external cfg o w (releaseContext cfg w t a).1.
Proof.
  unfold releaseContext. destruct (contexts (chr w) !! t) as [x|] eqn:Hx; [|apply external_refl].
  assert (Hr : bcRemote x ∈ recorded (chr w)) by (apply elem_of_recorded; eauto).
  assert (Hd : ∀ w1, external cfg o w w1 → external cfg o w (scheduleIdleLocked cfg (upd w1 (λ c, setContexts c (delete t (contexts c)))))).
  { intros w1 H. eapply external_apart; [|apply apart_schedule]. by eapply external_apart. }
  case_bool_decide; [destruct a, (connected w)|]; simpl; auto using external_refl, external_dispose.
Qed.
Lemma external_stop cfg o w : inv w → o = Some WStop ∨ contexts (chr w) = ∅ → external cfg o w (stopBrowser cfg w).
Proof.
  intros Hi Ho. rewrite stopBrowser_eq. unfold orphansLeft. split; unfold launched, living; simpl.
  - intros H E. rewrite E. auto.
  - intros -> r [H|(m & rs & Hm & Hr)]; left; left; simpl; [set_solver|].
    rewrite (so_browsers _ _ _ _ (in_shared _ Hi) m rs Hm). simpl. rewrite Hm. set_solver.
  - intros r. destruct (attach cfg); [|auto]. simpl. rewrite elem_of_union. intros [H|H]; [|auto]. destruct Ho as [|E]; [auto|].
    apply elem_of_recorded in H as (t & b & H & _). by rewrite E in H.
Qed.
Lemma external_publish cfg o w w' : master (chr w) = None → inv w → publishBrowser cfg w = Some w' → external cfg o w w'.
Proof.
  intros Hm Hi. unfold publishBrowser. destruct (closed (chr w)); [done|]. intros [= <-].
  destruct (attach cfg) eqn:Ha; split; unfold launched, living; rewrite ?Ha; simpl; auto; try done.
  intros _ r [H|(m & rs & H & _)]; [|apply (so_browsers _ _ _ _ (in_shared _ Hi)) in H; congruence].
  left. right. exists (nextID w), (outside (orphans w)). by rewrite lookup_insert_eq.
Qed.
Lemma external_create cfg o w m x :
  external cfg o w (setLost (setNext (setBrowsers w (alter (λ rs, {[nextID w]} ∪ rs) m (browsers w)))) x).
Proof.
  split; [done| |auto]. intros _ r [H|(m' & rs & Hm & Hin)]; left; [by left|right]. simpl. exists m'.
  destruct (decide (m = m')) as [<-|]; [|rewrite lookup_alter_ne by done; eauto]. rewrite lookup_alter_eq, Hm. eexists. split; [done|set_solver].
Qed.
Ltac solve_apart := by apply apart_external.
Lemma acquire_external cfg w th p a w' : inv w → threads w !! th = Some p → acquireStep cfg w th p a = Some w' → external cfg (Some p) w w'.
Proof.
  intros Hi Hth Hs. destruct p; try done; destruct a; simpl in Hs; try done; unfold acquireOperation, acquireRuntime in Hs;
    try (destruct (tOperation _); simpl in Hs); try (destruct (_ <=? _); simpl in Hs); try done; try (destruct (_ || _)); try (destruct (_ && _));
    try (destruct (startCheck (chr w) now)); try (injection Hs as <-; solve_apart).
  - destruct r; [|injection Hs as <-; solve_apart..]. destruct (publishBrowser cfg w) as [w1|] eqn:Hp; injection Hs as <-; [|solve_apart].
    eapply (external_apart cfg _ w w1); [|done]. eapply external_publish; [|done..].
    destruct (in_threads _ Hi _ _ Hth) as [R _]. apply re_here in R. destruct (master (chr w)) eqn:E; [|done].
    destruct R. apply (so_running _ _ _ _ (in_shared _ Hi)). eauto.
  - injection Hs as <-. apply apart_external. destruct (apart_stop w) as (H1 & H2 & H3). by repeat split.
  - pose proof (external_release cfg (Some (ARelease t)) w t r) as Hr. destruct (releaseContext cfg w t r) as [w1 ok].
    destruct ok; injection Hs as <-; by eapply external_apart.
  - destruct r, (master (chr w)) as [m|]; try (injection Hs as <-; solve_apart); case_bool_decide; try done; injection Hs as <-;
      by eapply external_apart; [apply (external_create _ _ _ m (lost (orphans w)))|].
  - destruct r0; injection Hs as <-; solve_apart.
Qed.
Lemma tenant_external cfg w th p a w' : tenantStep cfg w th p a = Some w' → external cfg (Some p) w w'.
Proof.
  intros Hs. destruct p; try done; destruct a; simpl in Hs; try done; unfold acquireOperation, acquireRuntime in Hs;
    try (destruct (tOperation _); simpl in Hs); try (destruct (_ <=? _); simpl in Hs); try done; try (destruct (_ || _)); try (injection Hs as <-; solve_apart).
  - pose proof (external_release cfg (Some (CRelease t)) w t r) as Hr. destruct (releaseContext cfg w t r) as [w1 ok].
    destruct ok; injection Hs as <-; by eapply external_apart.
  - injection Hs as <-. by eapply external_apart; [apply external_release|].
Qed.
Lemma worker_external cfg w th p a w' : inv w → threads w !! th = Some p → workerStep cfg w th p a = Some w' → external cfg (Some p) w w'.
Proof.
  intros Hi Hth Hs. destruct (in_threads _ Hi _ _ Hth) as [R _]. apply re_here in R. destruct p; try done; destruct a; simpl in Hs; try done;
    try (case_bool_decide; [done|]); unfold acquireRuntime in Hs; try (destruct (_ <=? _); simpl in Hs); try done;
    try (destruct (_ || _)); try (destruct (_ && _)); try (injection Hs as <-; solve_apart);
    injection Hs as <-; by eapply external_apart; [apply external_stop; auto|].
Qed.
Lemma facility_external cfg w th p a w' : inv w → threads w !! th = Some p → facilityStep cfg w th p a = Some w' → external cfg (Some p) w w'.
Proof.
  intros Hi Hth Hs. destruct (in_threads _ Hi _ _ Hth) as [R _]. apply re_here in R. destruct p; try done; destruct a; simpl in Hs; try done;
    try (destruct ids; [destruct failed|]; try done); unfold acquireRuntime in Hs; try (destruct (_ <=? _); simpl in Hs); try done;
    try (destruct (_ =? _); [|done]); try (destruct (_ || _)); try (injection Hs as <-; solve_apart).
  - pose proof (external_release cfg (Some (FDispose (z :: ids) failed)) w z r) as Hr. destruct (releaseContext cfg w z r) as [w1 ok]. injection Hs as <-.
    by eapply external_apart.
  - injection Hs as <-. by eapply external_apart; [apply external_stop; auto|].
  - destruct (_ && negb port); injection Hs as <-; [solve_apart|]. apply apart_external. destruct (found && _ && _ && _), (found && _); by repeat split.
Qed.
Lemma perform_external cfg w x w' : inv w → perform cfg w x = Some w' → ofBrowser x = false → external cfg (actor w x) w w'.
Proof.
  intros Hi Hx Hb. destruct x; try done; simpl in Hx |- *.
  - unfold NewTenant in Hx. destruct (_ || _); [done|]. injection Hx as <-. solve_apart.
  - unfold CDPToken in Hx. destruct (negb _); [done|]. destruct (_ || _); [done|]. destruct (cdpSecrets (chr w) !! t); injection Hx as <-; solve_apart.
  - unfold acquireTenant in Hx. case_bool_decide; [|done]. injection Hx as <-. solve_apart.
  - unfold closeTenant in Hx. destruct (tClosed _); [done|]. injection Hx as <-. solve_apart.
  - case_bool_decide; [|done]. injection Hx as <-. solve_apart.
  - injection Hx as <-. apply apart_external. unfold closeFacility. set (w1 := upd w _). destruct (apart_stop w1) as (H1 & H2 & H3). by repeat split.
  - injection Hx as <-. solve_apart.
  - unfold proceed in Hx. destruct (threads w !! th) as [p|] eqn:Hth; [|done].
    destruct p; first [by eapply acquire_external|by eapply tenant_external|by eapply worker_external|by eapply facility_external].
Qed.
Lemma launched_step cfg w x w' : inv w → launched cfg w → perform cfg w x = Some w' → launched cfg w'.
Proof.
  intros Hi Hl Hx. destruct (ofBrowser x) eqn:Hb; [|by eapply ex_launch; [eapply perform_external|]].
  destruct x; try done; simpl in Hx.
  - case_bool_decide; [|done]. by injection Hx as <-.
  - by injection Hx as <-.
  - destruct (attach cfg) eqn:Ha; [|done]. intros ?. congruence.
  - injection Hx as <-. intros Ha. destruct (Hl Ha) as [H1 H2]. simpl. rewrite H1. split; [set_solver|done].
Qed.
Lemma reachable_ok cfg w : reachable cfg w → inv w ∧ launched cfg w.
Proof.
  induction 1 as [|w x w' _ [Hi Hl] Hx]; [split; [apply inv_initial|done]|]. split; [by eapply inv_step|by eapply launched_step].
Qed.
Lemma inv_reachable cfg w : reachable cfg w → inv w.
Proof. apply reachable_ok. Qed.

(** ** What is never undone *)

Record preserved (w w' : world) : Prop := {
  ke_done : shutdownDone w = true → shutdownDone w' = true;
  ke_crash : crash (chr w') = crash (chr w) ∨ ∃ now, crash (chr w') = crashed (crash (chr w)) now;
  ke_tenants : ∀ t x, tenants (chr w) !! t = Some x → ∃ x', tenants (chr w') !! t = Some x' ∧ (tClosed x = true → tClosed x' = true) }.
(** Steps that leave all of it alone, up to the gates of tenants. *)
Definition still (w w' : world) : Prop := shutdownDone w' = shutdownDone w ∧ crash (chr w') = crash (chr w) ∧ tenants (chr w') = tenants (chr w).
Lemma still_stop w : still w (stopIdleTimerLocked w).
Proof. unfold stopIdleTimerLocked. destruct (idleTimer (chr w)); [|done]. by destruct (threads w !! z) as [[]|]. Qed.
Lemma still_schedule cfg w : still w (scheduleIdleLocked cfg w).
Proof. unfold scheduleIdleLocked. destruct (_ || _); [done|]. destruct (still_stop w) as (H1 & H2 & H3). by repeat split. Qed.
Lemma still_release cfg w t a : still w (releaseContext cfg w t a).1.
Proof.
  unfold releaseContext. destruct (contexts (chr w) !! t) as [x|]; [|done].
  assert (Hd : still w (dispose w (bcRemote x))) by (unfold dispose; by destruct (master (chr w))).
  case_bool_decide; [destruct a, (connected w)|]; simpl; try done.
  - destruct (still_schedule cfg (upd (dispose w (bcRemote x)) (λ c, setContexts c (delete t (contexts c))))) as (H1 & H2 & H3).
    destruct Hd as (D1 & D2 & D3). unfold still. rewrite H1, H2, H3. simpl. by rewrite D2, D3.
  - destruct (still_schedule cfg (upd w (λ c, setContexts c (delete t (contexts c))))) as (H1 & H2 & H3). unfold still. by rewrite H1, H2, H3.
Qed.
Lemma still_kept w w' : still w w' → preserved w w'.
Proof. intros (H1 & H2 & H3). split; [congruence|auto|]. intros t x Hx. exists x. by rewrite H3. Qed.
Lemma altered_kept w w1 w' t f : still w w1 → shutdownDone w' = shutdownDone w1 → crash (chr w') = crash (chr w1) → tenants (chr w') = alter f t (tenants (chr w1)) →
  (∀ x, tClosed x = true → tClosed (f x) = true) → preserved w w'.
Proof.
  intros (E1 & E2 & E3) H1 H2 H3 Hf. split; [congruence|left; congruence|]. intros t' x Hx. rewrite H3, E3. destruct (decide (t = t')) as [<-|].
  - rewrite lookup_alter_eq, Hx. simpl. eauto.
  - rewrite lookup_alter_ne by done. eauto.
Qed.
Ltac solve_still := by repeat split.
Ltac solve_altered w1 := by eapply (altered_kept _ w1); [solve_still|done..].
Lemma acquire_kept cfg w th p a w' : acquireStep cfg w th p a = Some w' → preserved w w'.
Proof.
  intros Hs. destruct p; try done; destruct a; simpl in Hs; try done.
  - unfold acquireOperation in Hs. destruct (tOperation _); [done|]. injection Hs as <-. solve_altered w.
  - injection Hs as <-. by apply still_kept.
  - unfold acquireRuntime in Hs. destruct (_ <=? _); [|done]. injection Hs as <-. by apply still_kept.
  - injection Hs as <-. solve_altered w.
  - destruct (_ && _); injection Hs as <-; by apply still_kept.
  - unfold acquireRuntime in Hs. destruct (_ <=? _); [|done]. injection Hs as <-. by apply still_kept.
  - injection Hs as <-. solve_altered w.
  - destruct (startCheck (chr w) now); injection Hs as <-; [solve_altered w|by apply still_kept..].
  - destruct r; [|injection Hs as <-; solve_altered w..]. unfold publishBrowser in Hs.
    destruct (closed (chr w)), (attach cfg); injection Hs as <-; first [by apply still_kept|solve_altered w].
  - destruct (_ || _); injection Hs as <-; [solve_altered w|by apply still_kept].
  - injection Hs as <-. apply still_kept. destruct (still_stop w) as (H1 & H2 & H3). by repeat split.
  - pose proof (still_release cfg w t r) as Hr. destruct (releaseContext cfg w t r) as [w1 ok]. destruct ok; injection Hs as <-; [by apply still_kept|].
    by eapply (altered_kept w w1).
  - destruct r, (master (chr w)) as [m|]; try (injection Hs as <-; solve_altered w); case_bool_decide; try done; injection Hs as <-; [by apply still_kept|solve_altered w].
  - destruct r0; injection Hs as <-; [by apply still_kept|solve_altered w..].
  - injection Hs as <-. solve_altered w.
Qed.
Lemma tenant_kept cfg w th p a w' : tenantStep cfg w th p a = Some w' → preserved w w'.
Proof.
  intros Hs. destruct p; try done; destruct a; simpl in Hs; try done.
  - unfold acquireOperation in Hs. destruct (tOperation _); [done|]. injection Hs as <-. solve_altered w.
  - injection Hs as <-. by apply still_kept.
  - unfold acquireRuntime in Hs. destruct (_ <=? _); [|done]. injection Hs as <-. by apply still_kept.
  - injection Hs as <-. solve_altered w.
  - pose proof (still_release cfg w t r) as Hr. destruct (releaseContext cfg w t r) as [w1 ok]. destruct ok; injection Hs as <-; [by apply still_kept|].
    by eapply (altered_kept w w1).
  - injection Hs as <-. eapply (altered_kept w w _ t (λ x, mkTenant false (tClosing x) true)); try done. simpl. apply map_eq. intros t'.
    destruct (decide (t = t')) as [<-|]; [rewrite !lookup_alter_eq|by rewrite !lookup_alter_ne]. by destruct (tenants (chr w) !! t).
  - unfold acquireOperation in Hs. destruct (tOperation _); [done|]. injection Hs as <-. solve_altered w.
  - injection Hs as <-. by apply still_kept.
  - unfold acquireRuntime in Hs. destruct (_ <=? _); [|done]. injection Hs as <-. by apply still_kept.
  - injection Hs as <-. solve_altered w.
  - destruct (_ || _); injection Hs as <-; [solve_altered w|by apply still_kept].
  - injection Hs as <-. pose proof (still_release cfg w t r) as Hr. by eapply (altered_kept w (releaseContext cfg w t r).1).
Qed.
Lemma still_stopped cfg w : still w (stopBrowser cfg w).
Proof. by rewrite stopBrowser_eq. Qed.
Lemma worker_kept cfg w th p a w' : workerStep cfg w th p a = Some w' → preserved w w'.
Proof.
  intros Hs. destruct (still_stopped cfg w) as (S1 & S2 & S3). destruct p; try done; destruct a; simpl in Hs; try done.
  - case_bool_decide; [done|]. unfold acquireRuntime in Hs. destruct (_ <=? _); [|done]. injection Hs as <-. by apply still_kept.
  - destruct (_ || _); injection Hs as <-; [by apply still_kept|]. split; [done|right; eauto|eauto].
  - injection Hs as <-. by apply still_kept.
  - injection Hs as <-. by apply still_kept.
  - unfold acquireRuntime in Hs. destruct (_ <=? _); [|done]. injection Hs as <-. by apply still_kept.
  - destruct (_ && _); injection Hs as <-; by apply still_kept.
  - injection Hs as <-. by apply still_kept.
Qed.
Lemma facility_kept cfg w th p a w' : facilityStep cfg w th p a = Some w' → preserved w w'.
Proof.
  intros Hs. destruct (still_stopped cfg w) as (S1 & S2 & S3). destruct p; try done; destruct a; simpl in Hs; try done; try (destruct ids; [destruct failed|]; try done).
  - unfold acquireRuntime in Hs. destruct (_ <=? _); [|done]. injection Hs as <-. by apply still_kept.
  - injection Hs as <-. by apply still_kept.
  - injection Hs as <-. by apply still_kept.
  - injection Hs as <-. by apply still_kept.
  - pose proof (still_release cfg w z r) as Hr. destruct (releaseContext cfg w z r) as [w1 ok]. injection Hs as <-. by apply still_kept.
  - injection Hs as <-. by apply still_kept.
  - injection Hs as <-. split; [done|by left|]. intros t x Hx. change (tenants (chr _)) with (tenants (shutTenants (chr w))). rewrite marked_lookup, Hx. simpl.
    eexists. split; [done|]. by case_bool_decide.
  - destruct (_ =? _); [|done]. injection Hs as <-. split; [done|by left|eauto].
  - injection Hs as <-. by apply still_kept.
  - unfold acquireRuntime in Hs. destruct (_ <=? _); [|done]. injection Hs as <-. by apply still_kept.
  - injection Hs as <-. by apply still_kept.
  - destruct (_ || _); injection Hs as <-; by apply still_kept.
  - injection Hs as <-. by apply still_kept.
  - destruct (_ && negb port); [injection Hs as <-; by apply still_kept|]. injection Hs as <-. apply still_kept.
    destruct (found && _ && _ && _), (found && _); by repeat split.
Qed.
Lemma perform_kept cfg w x w' : inv w → perform cfg w x = Some w' → preserved w w'.
Proof.
  intros Hi Hx. destruct x; simpl in Hx.
  - unfold NewTenant in Hx. destruct (_ || _); [done|]. injection Hx as <-. split; [done|by left|]. intros t x Hx. exists x. simpl.
    rewrite lookup_insert_ne; [done|]. apply (so_tenants _ _ _ _ (in_shared _ Hi)) in Hx. lia.
  - unfold CDPToken in Hx. destruct (negb _); [done|]. destruct (_ || _); [done|]. destruct (cdpSecrets (chr w) !! t); injection Hx as <-; by apply still_kept.
  - unfold acquireTenant in Hx. case_bool_decide; [|done]. injection Hx as <-. by apply still_kept.
  - unfold closeTenant in Hx. destruct (tClosed _); [done|]. injection Hx as <-. solve_altered w.
  - case_bool_decide; [|done]. injection Hx as <-. by apply still_kept.
  - injection Hx as <-. apply still_kept. unfold closeFacility. set (w1 := upd w _). destruct (still_stop w1) as (H1 & H2 & H3). unfold still. simpl. by rewrite H1, H2, H3.
  - injection Hx as <-. by apply still_kept.
  - unfold proceed in Hx. destruct (threads w !! th) as [p|]; [|done].
    destruct p; first [by eapply acquire_kept|by eapply tenant_kept|by eapply worker_kept|by eapply facility_kept].
  - case_bool_decide; [|done]. injection Hx as <-. by apply still_kept.
  - injection Hx as <-. by apply still_kept.
  - destruct (_ && _); [|done]. injection Hx as <-. by apply still_kept.
  - injection Hx as <-. by apply still_kept.
Qed.

(** ** Isolation *)

Definition demoConfig : ChromiumConfig := mkChromiumConfig false 60000000000 9222 false.
(** Start the facility, make two tenants and open a context for the first. *)
Definition demoOpen : list call :=
  [CStartFacility; CAdvance 1 Go; CAdvance 1 Go; CAdvance 1 (Probed true true); CNewTenant; CNewTenant; CAcquire 2;
   CAdvance 4 Go; CAdvance 4 Go; CAdvance 4 Go; CAdvance 4 Go; CAdvance 4 (Clock 0); CAdvance 4 (Reply Succeed); CAdvance 4 Go; CAdvance 4 Go;
   CAdvance 4 (Reply Succeed); CAdvance 4 (Reply Succeed)].
Definition demoWorld : world := default initial (performAll demoConfig initial demoOpen).

(** ** Finality *)

(** The same in attach mode, where the connection is lost after the first context was made:
    the watcher forgets it, and once the backoff is over the next request of the tenant
    reconnects and makes another, which closing disposes of. *)
Definition attachConfig : ChromiumConfig := mkChromiumConfig true 0 0 false.
Definition demoLose : list call :=
  [CAdvance 4 Go; CDetach 5; CAdvance 6 Go; CAdvance 6 (Clock 0); CAdvance 6 Go;
   CAcquire 2; CAdvance 8 Go; CAdvance 8 Go; CAdvance 8 Go; CAdvance 8 Go; CAdvance 8 (Clock (2 * second)); CAdvance 8 (Reply Succeed);
   CAdvance 8 Go; CAdvance 8 Go; CAdvance 8 (Reply Succeed); CAdvance 8 (Reply Succeed); CAdvance 8 Go].
Definition demoDetach : list call :=
  [CCloseFacility; CAdvance 12 Go; CAdvance 12 (Reply Succeed); CAdvance 12 Go; CAdvance 12 Go; CAdvance 12 Go;
   CAdvance 10 Go; CAdvance 10 (Clock 5); CAdvance 12 Go].
Definition attachWorld : world := default initial (performAll attachConfig initial (demoOpen ++ demoLose)).
Definition attachClosed : world := default initial (performAll attachConfig attachWorld demoDetach).
(** The first context is still in the external browser and recorded for nobody, so closing
    leaves it there. *)
Lemma attach_reconnect_orphans :
  browsers attachWorld = {[9 := {[7; 11]}]} ∧ forgotten (orphans attachWorld) = {[7]} ∧ recorded (chr attachWorld) = {[11]} ∧
  shutdownDone attachClosed = true ∧ outside (orphans attachClosed) = {[7]}.
Proof. split_and!; by vm_compute. Qed.

(** ** Restarts *)

Lemma backoff_bounds n : 1 <= n → second <= backoff n <= 64 * second.
Proof.
  intros Hn. unfold backoff, second. assert (0 <= Z.min (n - 1) 6 <= 6) as H by lia.
  pose proof (Z.pow_le_mono_r 2 0 _ ltac:(lia) (proj1 H)). pose proof (Z.pow_le_mono_r 2 _ 6 ltac:(lia) (proj2 H)). lia.
Qed.
Definition crash_ok (k : crashes) : Prop :=
  k = mkCrashes 0 0 0 ∨ 1 <= crashCount k ∧ notBefore k = lastCrash k + backoff (crashCount k).
Lemma crash_ok_reachable cfg w : reachable cfg w → crash_ok (crash (chr w)).
Proof.
  induction 1 as [|w x w' Hw IH Hx]; [by left|]. destruct (ke_crash _ _ (perform_kept cfg w x w' (inv_reachable _ _ Hw) Hx)) as [->|[now ->]]; [done|].
  right. unfold crashed. simpl. split; [|done]. destruct (_ <? _); [lia|]. destruct IH as [->|[? _]]; simpl; lia.
Qed.
(** A browser is launched only in an open facility without one, and not before the backoff
    of its last crash is over: between one and sixty-four seconds, doubled with each crash
    that follows the previous one within five minutes. *)
Lemma restart_gated cfg w th t now w' : reachable cfg w → threads w !! th = Some (AStart t) → proceed cfg w th (Clock now) = Some w' →
  threads w' !! th = Some (ALaunch t) →
  closed (chr w) = false ∧ browsers w = ∅ ∧
  (crash (chr w) = mkCrashes 0 0 0 ∨ lastCrash (crash (chr w)) + backoff (crashCount (crash (chr w))) <= now) ∧
  ∀ k later, 1 <= crashCount k → later - lastCrash k <= crashWindow →
    backoff (crashCount (crashed k later)) = Z.min (2 * backoff (crashCount k)) (64 * second).
Proof.
  intros Hw Hth Ha Hl. pose proof (inv_reachable _ _ Hw) as Hi. unfold proceed in Ha. rewrite Hth in Ha. simpl in Ha. unfold startCheck in Ha.
  destruct (closed (chr w)) eqn:Hc; [injection Ha as <-; simpl in Hl; by rewrite lookup_delete_eq in Hl|]. simpl in Ha.
  case_bool_decide; [injection Ha as <-; simpl in Hl; by rewrite lookup_delete_eq in Hl|].
  case_bool_decide as Hrun; [injection Ha as <-; simpl in Hl; by rewrite lookup_insert_eq in Hl|].
  destruct (now <? notBefore (crash (chr w))) eqn:Hn; [injection Ha as <-; simpl in Hl; by rewrite lookup_delete_eq in Hl|]. apply Z.ltb_ge in Hn.
  split_and!; [done|..].
  - apply map_empty. intros m. destruct (browsers w !! m) eqn:E; [|done]. apply (so_browsers _ _ _ _ (in_shared _ Hi)) in E.
    destruct Hrun. apply (so_running _ _ _ _ (in_shared _ Hi)). eauto.
  - destruct (crash_ok_reachable _ _ Hw) as [?|[_ E]]; [by left|right; lia].
  - intros k later Hk Hwin. unfold crashed. simpl. rewrite (proj2 (Z.ltb_ge _ _)) by lia. unfold backoff.
    replace (crashCount k + 1 - 1) with (crashCount k - 1 + 1) by lia. destruct (decide (crashCount k - 1 < 6)) as [Hlt|Hge].
    + assert (2 ^ (crashCount k - 1) <= 2 ^ 5) by (apply Z.pow_le_mono_r; lia).
      rewrite !(Z.min_l _ 6) by lia. rewrite Z.pow_add_r, Z.pow_1_r, Z.min_l by (unfold second; lia). unfold second. lia.
    + rewrite !(Z.min_r _ 6) by lia. unfold second. lia.
Qed.

(** ** An idle stop that is lost *)

(** A context that cannot be made cancels the idle stop that was due and schedules none: the
    browser without any context runs on, and only its watcher is left. *)
Definition demoIdle : list call :=
  [CAdvance 4 Go; CCloseContext 2; CAdvance 8 Go; CAdvance 8 Go; CAdvance 8 Go; CAdvance 8 (Reply Succeed);
   CAcquire 2; CAdvance 10 Go; CAdvance 10 Go; CAdvance 10 Go; CAdvance 10 Go; CAdvance 10 Go; CAdvance 10 (Reply Fail)].
Lemma failed_creation_cancels_idle_stop : ∃ w, performAll demoConfig demoWorld demoIdle = Some w ∧
  state (chr w) = StateRunning ∧ contexts (chr w) = ∅ ∧ closed (chr w) = false ∧ 0 < IdleStop demoConfig ∧ map_to_list (threads w) = [(6, WWait 5)].
Proof. eexists. split; [vm_compute; reflexivity|]. by vm_compute. Qed.

(** ** Screenshots *)

Lemma stack_bottom acc : stack_ok false acc → Forall normal acc ∨ last acc = Some ".."%string.
Proof.
  induction acc as [|h t IH]; [by left|]. intros [Ht [Hn|(-> & _ & Hall)]].
  - destruct (IH Ht) as [?|Hl]; [left; by constructor|right]. rewrite last_cons, Hl. done.
  - right. rewrite last_cons. destruct (last t) as [c|] eqn:E; [|done]. f_equal. rewrite Forall_forall in Hall. apply Hall. by apply last_Some_elem_of.
Qed.
(** An accepted path has only components that stay below the workspace, or is the parent of
    the workspace itself. *)
Lemma screenshot_confined p rel : screenshotPath p = Some rel → rel = ".."%string ∨ rel = Clean p ∧ Forall normal (cleanComps p).
Proof.
  unfold screenshotPath. destruct (_ || _) eqn:E; [done|]. intros [= <-]. apply orb_false_iff in E as [E1 E2].
  pose proof (cleanComps_ok p) as Hok. unfold Clean in *. destruct (rootedPath p).
  { rewrite (proj2 (has_prefix_spec _ _)) in E2; [done|]. by eexists. }
  destruct (stack_bottom _ Hok) as [Hn|Hl]; [right; split; [done|]; by rewrite Forall_reverse in Hn|left].
  rewrite last_reverse in Hl. destruct (cleanComps p) as [|c l]; [done|]. injection Hl as ->. destruct l as [|d l]; [done|].
  exfalso. rewrite (proj2 (has_prefix_spec _ _)) in E1; [done|]. exists (join (d :: l)). done.
Qed.
Lemma screenshot_parent_accepted : screenshotPath ".." = Some ".."%string.
Proof. done. Qed.
