(* ===== verification/Amenities.v ===== *)
(** * Amenities: facilities and the tenants of beds

    Models [internal/amenity/manager.go]: registration, the binding of a bed to one tenant of
    each facility, and the release of all of them.  A binding is known by a number, a
    tenant too; a call is where a goroutine is between two sections.  Whether a facility
    makes or closes a tenant is an argument. *)

From S2P Require Import Prelude.

Record bedBinding := mkBinding { bOperation : bool; bClosing : bool; bTenants : gmap string Z }.
Record facility := mkFacility { facilityName : string; tenantFactory : bool }.
(** Where a call is: waiting for the gate of a binding, or holding it.  [AcHeld] carries what
    [Acquire] read under the lock, [AcMade] the tenant that was made and is not bound yet, [RelHeld] the tenants still to close and whether one
    could not be closed. *)
Inductive amenity_call :=
| AcWait (b : Z) (name : string) | AcHeld (b : Z) (name : string) (closing : bool) (tenant : option Z)
| AcMade (b : Z) (name : string) (tenant : Z)
| RelWait (id b : Z) | RelHeld (id b : Z) (todo : list (string * Z)) (failed : bool).
Record amenities := mkAmenities {
  registered : list facility; beds : gmap Z Z; bindings : gmap Z bedBinding; started : bool; closed : bool;
  calls : gmap Z amenity_call; live : gset Z; released : gset Z; next : Z }.
Definition newAmenities : amenities := mkAmenities [] ∅ ∅ false false ∅ ∅ ∅ 1.
Definition setBindings (m : amenities) (x : gmap Z bedBinding) : amenities :=
  mkAmenities (registered m) (beds m) x (started m) (closed m) (calls m) (live m) (released m) (next m).
Definition setCalls (m : amenities) (x : gmap Z amenity_call) : amenities :=
  mkAmenities (registered m) (beds m) (bindings m) (started m) (closed m) x (live m) (released m) (next m).
Definition setLive (m : amenities) (x : gset Z) : amenities :=
  mkAmenities (registered m) (beds m) (bindings m) (started m) (closed m) (calls m) x (released m) (next m).
Definition setNextRef (m : amenities) : amenities :=
  mkAmenities (registered m) (beds m) (bindings m) (started m) (closed m) (calls m) (live m) (released m) (next m + 1).
Definition setBeds (m : amenities) (x : gmap Z Z) : amenities :=
  mkAmenities (registered m) x (bindings m) (started m) (closed m) (calls m) (live m) (released m) (next m).

(** ** Registration and admission *)

Definition Register (m : amenities) (a : facility) : option amenities :=
  if started m || closed m then None
  else if existsb (λ e, bool_decide (facilityName e = facilityName a)) (registered m) then None
  else Some (mkAmenities (registered m ++ [a]) (beds m) (bindings m) (started m) (closed m) (calls m) (live m) (released m) (next m)).
Definition Find (m : amenities) (name : string) : option facility := head (filter (λ a, facilityName a = name) (registered m)).
Definition AdmitBed (m : amenities) (id : Z) : option amenities :=
  if closed m then None
  else match beds m !! id with
       | Some _ => Some m
       | None => Some (setNextRef (setBindings (setBeds m (<[id := next m]> (beds m))) (<[next m := mkBinding false false ∅]> (bindings m))))
       end.

(** ** Acquire and ReleaseBed *)

Definition withBinding (m : amenities) (b : Z) (f : bedBinding → bedBinding) : amenities := setBindings m (alter f b (bindings m)).
Definition gate (x : bool) (b : bedBinding) : bedBinding := mkBinding x (bClosing b) (bTenants b).
Definition at_call (m : amenities) (k : Z) (c : amenity_call) : amenities := setCalls m (<[k := c]> (calls m)).
Definition ended (m : amenities) (k : Z) : amenities := setCalls m (delete k (calls m)).
Definition tenantAcquire (m : amenities) (id : Z) (name : string) : option amenities :=
  b ← beds m !! id; Some (setNextRef (at_call m (next m) (AcWait b name))).
(** The checks of [Acquire] up to the answer of the factory: a new tenant is live before it is bound. *)
Definition tenantAcquired (m : amenities) (k b : Z) (name : string) (closing : bool) (tenant : option Z) (cancelled created : bool) : amenities :=
  let leave m := ended (withBinding m b (gate false)) k in
  if closing || cancelled then leave m
  else match tenant with
       | Some _ => leave m
       | None =>
           if match Find m name with Some a => tenantFactory a | None => false end && created then
             setLive (setNextRef (at_call m k (AcMade b name (next m)))) ({[next m]} ∪ live m)
           else leave m
       end.
Definition tenantBound (m : amenities) (k b : Z) (name : string) (t : Z) : amenities :=
  ended (withBinding (withBinding m b (λ x, mkBinding (bOperation x) (bClosing x) (<[name := t]> (bTenants x)))) b (gate false)) k.
Definition releaseBegin (m : amenities) (id : Z) : option amenities :=
  match beds m !! id with
  | None => Some m
  | Some b => Some (setNextRef (at_call (withBinding m b (λ x, mkBinding (bOperation x) true (bTenants x))) (next m) (RelWait id b)))
  end.
Definition releaseFinish (m : amenities) (k id b : Z) (failed : bool) : amenities :=
  let m := if failed then m
           else mkAmenities (registered m) (if bool_decide (beds m !! id = Some b) then delete id (beds m) else beds m) (bindings m)
                  (started m) (closed m) (calls m) (live m) ({[b]} ∪ released m) (next m) in
  ended (withBinding m b (gate false)) k.

(** ** Start and Close of the manager *)

Definition markStarted (m : amenities) : option amenities :=
  if closed m then None
  else Some (mkAmenities (registered m) (beds m) (bindings m) true (closed m) (calls m) (live m) (released m) (next m)).
(** The facilities [Start] closes again when the one at position [i] fails, and the order in
    which [Close] closes them. *)
Definition startCleanup (m : amenities) (i : nat) : list facility := reverse (take (S i) (registered m)).
Definition closeOrder (m : amenities) : list facility := reverse (registered m).
Definition amenitiesClosed (m : amenities) : amenities * list Z :=
  (mkAmenities (registered m) (beds m) (bindings m) (started m) true (calls m) (live m) (released m) (next m), (map_to_list (beds m)).*1).

(** ** Steps *)

Inductive amenity_event :=
| EvRegister (a : facility) | EvAdmit (id : Z) | EvAcquire (id : Z) (name : string) | EvRelease (id : Z) | EvStart | EvClose
| EvEnter (k : Z) | EvCancel (k : Z) | EvFinish (k : Z) (cancelled created : bool) | EvCloseTenant (k : Z) (ok : bool).
Definition react (m : amenities) (e : amenity_event) : option amenities :=
  match e with
  | EvRegister a => Register m a
  | EvAdmit id => AdmitBed m id
  | EvAcquire id name => tenantAcquire m id name
  | EvRelease id => releaseBegin m id
  | EvStart => markStarted m
  | EvClose => Some (amenitiesClosed m).1
  | EvEnter k =>
      match calls m !! k with
      | Some (AcWait b name) =>
          x ← bindings m !! b;
          if bOperation x then None else Some (at_call (withBinding m b (gate true)) k (AcHeld b name (bClosing x) (bTenants x !! name)))
      | Some (RelWait id b) =>
          x ← bindings m !! b;
          if bOperation x then None else Some (at_call (withBinding m b (gate true)) k (RelHeld id b (map_to_list (bTenants x)) false))
      | _ => None
      end
  | EvCancel k => match calls m !! k with Some (AcWait _ _) | Some (RelWait _ _) => Some (ended m k) | _ => None end
  | EvFinish k cancelled created =>
      match calls m !! k with
      | Some (AcHeld b name closing tenant) => Some (tenantAcquired m k b name closing tenant cancelled created)
      | Some (AcMade b name t) => Some (tenantBound m k b name t)
      | Some (RelHeld id b [] failed) => Some (releaseFinish m k id b failed)
      | _ => None
      end
  | EvCloseTenant k ok =>
      match calls m !! k with
      | Some (RelHeld id b ((name, t) :: todo) failed) =>
          if ok then
            Some (at_call (setLive (withBinding m b (λ x, mkBinding (bOperation x) (bClosing x) (delete name (bTenants x)))) (live m ∖ {[t]})) k (RelHeld id b todo failed))
          else Some (at_call m k (RelHeld id b todo true))
      | _ => None
      end
  end.
Inductive amenity_reach : amenities → Prop :=
| am_init : amenity_reach newAmenities
| am_step m e m' : amenity_reach m → react m e = Some m' → amenity_reach m'.

(** ** The invariant *)

Definition callBinding (c : amenity_call) : Z := match c with AcWait b _ | AcHeld b _ _ _ | AcMade b _ _ | RelWait _ b | RelHeld _ b _ _ => b end.
Definition holds (c : amenity_call) : option Z := match c with AcHeld b _ _ _ | AcMade b _ _ | RelHeld _ b _ _ => Some b | _ => None end.
Definition call_ok (bs : gmap Z bedBinding) (rel : gset Z) (c : amenity_call) : Prop :=
  ∃ x, bs !! callBinding c = Some x ∧
  match c with
  | AcWait _ _ => True
  | AcHeld b name closing tenant => bOperation x = true ∧ bTenants x !! name = tenant ∧ (closing = false → b ∉ rel)
  | AcMade b name _ => bOperation x = true ∧ bTenants x !! name = None ∧ b ∉ rel
  | RelWait _ _ => bClosing x = true
  | RelHeld _ _ todo failed =>
      bOperation x = true ∧ bClosing x = true ∧ NoDup todo.*1 ∧ (∀ name t, (name, t) ∈ todo → bTenants x !! name = Some t) ∧
      (failed = false → ∀ name t, bTenants x !! name = Some t → (name, t) ∈ todo)
  end.
Record am_inv (m : amenities) : Prop := {
  ai_calls : ∀ k c, calls m !! k = Some c → call_ok (bindings m) (released m) c ∧ k < next m;
  ai_one : ∀ k k' c c' b, calls m !! k = Some c → calls m !! k' = Some c' → holds c = Some b → holds c' = Some b → k = k';
  ai_live : ∀ t, t ∈ live m ↔ ∃ b x name, bindings m !! b = Some x ∧ bTenants x !! name = Some t;
  ai_inj : ∀ b b' x x' n n' t, bindings m !! b = Some x → bindings m !! b' = Some x' → bTenants x !! n = Some t → bTenants x' !! n' = Some t → b = b' ∧ n = n';
  ai_fresh : (∀ b x, bindings m !! b = Some x → b < next m) ∧ (∀ t, t ∈ live m → t < next m);
  ai_released : ∀ b, b ∈ released m → ∃ x, bindings m !! b = Some x ∧ bClosing x = true ∧ bTenants x = ∅;
  ai_beds : ∀ id b, beds m !! id = Some b → is_Some (bindings m !! b) }.

Lemma call_mono bs bs' rel rel' c : call_ok bs rel c →
  (∀ x, bs !! callBinding c = Some x → ∃ x', bs' !! callBinding c = Some x' ∧ (bClosing x = true → bClosing x' = true) ∧
     (is_Some (holds c) → bOperation x' = bOperation x ∧ bTenants x' = bTenants x)) →
  (∀ b, b ∈ rel' → b ∈ rel ∨ holds c ≠ Some b) → call_ok bs' rel' c.
Proof.
  intros (x & Hx & H) Hb Hr. destruct (Hb x Hx) as (x' & Hx' & Hc & Hh). exists x'. split; [done|]. destruct c; simpl in *; try done; auto.
  - destruct Hh as [-> ->]; [eauto|]. destruct H as (H1 & H2 & H3). split_and!; [done..|]. intros E Hin. destruct (Hr b Hin); [by apply H3|done].
  - destruct Hh as [-> ->]; [eauto|]. destruct H as (H1 & H2 & H3). split_and!; [done..|]. intros Hin. destruct (Hr b Hin); [by apply H3|done].
  - destruct Hh as [-> ->]; [eauto|]. destruct H as (H1 & H2 & H3). auto.
Qed.
(** Calls change, bindings do not: one call moves or ends without gaining a gate. *)
Lemma am_calls m k o : am_inv m → (∀ c, o = Some c → call_ok (bindings m) (released m) c ∧ k < next m ∧ holds c = None) →
  am_inv (setCalls m (match o with Some c => <[k := c]> (calls m) | None => delete k (calls m) end)).
Proof.
  intros [I1 I2 I3 I4 I5 I6 I7] Ho.
  assert (Hl : ∀ k' c', match o with Some c => <[k := c]> (calls m) | None => delete k (calls m) end !! k' = Some c' →
    (k' = k ∧ o = Some c') ∨ calls m !! k' = Some c').
  { intros k' c'. destruct o; [rewrite lookup_insert_Some|rewrite lookup_delete_Some]; naive_solver. }
  split; simpl; try done.
  - intros k' c' [[-> E]|?]%Hl; [destruct (Ho _ E) as (? & ? & _); auto|auto].
  - intros k1 k2 c1 c2 b [[-> E1]|?]%Hl [[-> E2]|?]%Hl Hb1 Hb2; [done| | |by eapply I2].
    + destruct (Ho _ E1) as (_ & _ & ?). congruence.
    + destruct (Ho _ E2) as (_ & _ & ?). congruence.
Qed.
(** The call that holds the gate of a binding, or takes it, changes the binding. *)
Lemma am_binding m k b x x' o lv rel n : am_inv m → bindings m !! b = Some x → next m <= n → k < n →
  (bClosing x = true → bClosing x' = true) →
  (∀ k' c', calls m !! k' = Some c' → holds c' = Some b → k' = k) →
  (∀ c, o = Some c → call_ok (<[b := x']> (bindings m)) rel c ∧ (holds c = None ∨ holds c = Some b)) →
  (∀ b', b' ∈ rel → b' ∈ released m ∨ b' = b ∧ bClosing x' = true ∧ bTenants x' = ∅) →
  (∀ b', b' ∈ released m → b' = b → bTenants x' = ∅) →
  (∀ t, t ∈ lv ↔ (∃ b0 x0 name, b0 ≠ b ∧ bindings m !! b0 = Some x0 ∧ bTenants x0 !! name = Some t) ∨ ∃ name, bTenants x' !! name = Some t) →
  (∀ name t, bTenants x' !! name = Some t → bTenants x !! name = Some t ∨ t ∉ live m ∧ t < n ∧ ∀ name', bTenants x' !! name' = Some t → name' = name) →
  ∀ bd, (∀ id b', bd !! id = Some b' → beds m !! id = Some b') →
  am_inv (mkAmenities (registered m) bd (<[b := x']> (bindings m)) (started m) (closed m)
    (match o with Some c => <[k := c]> (calls m) | None => delete k (calls m) end) lv rel n).
Proof.
  intros [I1 I2 I3 I4 I5 I6 I7] Hx Hn Hk Hcl Hone Ho Hrel Hkeep Hlv Hten bd Hbd.
  assert (Hl : ∀ k' c', match o with Some c => <[k := c]> (calls m) | None => delete k (calls m) end !! k' = Some c' →
    (k' = k ∧ o = Some c') ∨ (k' ≠ k ∧ calls m !! k' = Some c')).
  { intros k' c'. destruct o; [rewrite lookup_insert_Some|rewrite lookup_delete_Some]; naive_solver. }
  assert (Hold : ∀ b0 x0 name t, bindings m !! b0 = Some x0 → bTenants x0 !! name = Some t → t ∈ live m) by (intros; apply I3; eauto).
  split; simpl.
  - intros k' c' [[-> E]|[Hne E]]%Hl; [destruct (Ho _ E); split; [done|lia]|]. destruct (I1 _ _ E) as [Hc Hlt]. split; [|lia].
    apply (call_mono _ _ _ _ _ Hc).
    + intros y Hy. destruct (decide (b = callBinding c')) as [Hb|Hb]; [|rewrite lookup_insert_ne by done; eauto].
      rewrite <- Hb in *. rewrite lookup_insert_eq. rewrite Hx in Hy. injection Hy as <-. exists x'. split_and!; [done..|]. intros [b0 Hh]. destruct Hne. apply (Hone k' c'); [done|].
      destruct c'; simpl in *; congruence.
    + intros b' [?|(-> & _ & _)]%Hrel; [auto|]. right. intros Hh. destruct Hne. by apply (Hone k' c').
  - intros k1 k2 c1 c2 b0 [[-> E1]|[Hn1 E1]]%Hl [[-> E2]|[Hn2 E2]]%Hl H1 H2; [done| | |by eapply I2].
    + destruct (Ho _ E1) as [_ [?|?]]; [congruence|]. destruct Hn2. apply (Hone k2 c2); congruence.
    + destruct (Ho _ E2) as [_ [?|?]]; [congruence|]. destruct Hn1. apply (Hone k1 c1); congruence.
  - intros t. rewrite Hlv. split.
    + intros [(b0 & x0 & name & Hne & H0 & Ht)|[name Ht]]; [exists b0, x0, name; by rewrite lookup_insert_ne|exists b, x', name; by rewrite lookup_insert_eq].
    + intros (b0 & x0 & name & H0 & Ht). apply lookup_insert_Some in H0 as [[<- <-]|[Hne H0]]; [eauto|left; eauto 10].
  - intros b1 b2 x1 x2 n1 n2 t. rewrite !lookup_insert_Some. intros [[<- <-]|[Hn1 H1]] [[<- <-]|[Hn2 H2]] T1 T2.
    + split; [done|]. destruct (Hten _ _ T1) as [O1|(F1 & _ & U1)]; [|symmetry; by apply U1]. destruct (Hten _ _ T2) as [O2|(F2 & _ & U2)]; [|by apply U2].
      by destruct (I4 b b x x n1 n2 t).
    + exfalso. destruct (Hten _ _ T1) as [O1|(F1 & _)]; [destruct (I4 b b2 x x2 n1 n2 t); congruence|]. apply F1. by eapply Hold.
    + exfalso. destruct (Hten _ _ T2) as [O2|(F2 & _)]; [destruct (I4 b1 b x1 x n1 n2 t); congruence|]. apply F2. by eapply Hold.
    + by eapply I4.
  - destruct I5 as [F1 F2]. split.
    + intros b0 x0 [[<- _]|[_ H0]]%lookup_insert_Some; [specialize (F1 _ _ Hx)|specialize (F1 _ _ H0)]; lia.
    + intros t. rewrite Hlv. intros [(b0 & x0 & name & _ & H0 & Ht)|[name Ht]]; [specialize (F2 t (Hold _ _ _ _ H0 Ht)); lia|].
      destruct (Hten _ _ Ht) as [Ho'|(_ & ? & _)]; [specialize (F2 t (Hold _ _ _ _ Hx Ho')); lia|done].
  - intros b0 Hb0. destruct (decide (b = b0)) as [<-|Hne].
    + exists x'. rewrite lookup_insert_eq. split; [done|]. destruct (Hrel b Hb0) as [Hin|(_ & ? & ?)]; [|done].
      destruct (I6 b Hin) as (y & Hy & Hc & _). rewrite Hx in Hy. injection Hy as <-. split; [auto|by eapply Hkeep].
    + rewrite lookup_insert_ne by done. destruct (Hrel b0 Hb0) as [Hin|(-> & _)]; [by apply I6|done].
  - intros id b0 Hb0%Hbd. apply I7 in Hb0. destruct (decide (b = b0)) as [<-|]; [rewrite lookup_insert_eq; eauto|by rewrite lookup_insert_ne].
Qed.
Lemma alter_as_insert (bs : gmap Z bedBinding) b x f : bs !! b = Some x → alter f b bs = <[b := f x]> bs.
Proof.
  intros Hx. apply map_eq. intros b'. destruct (decide (b = b')) as [<-|]; [by rewrite lookup_alter_eq, lookup_insert_eq, Hx|by rewrite lookup_alter_ne, lookup_insert_ne].
Qed.
(** A change that keeps the tenants keeps what is live. *)
Lemma live_kept m b x x' : am_inv m → bindings m !! b = Some x → bTenants x' = bTenants x →
  (∀ t, t ∈ live m ↔ (∃ b0 x0 name, b0 ≠ b ∧ bindings m !! b0 = Some x0 ∧ bTenants x0 !! name = Some t) ∨ ∃ name, bTenants x' !! name = Some t).
Proof.
  intros Hi Hx -> t. rewrite (ai_live _ Hi). split.
  - intros (b0 & x0 & name & H0 & Ht). destruct (decide (b0 = b)) as [->|]; [rewrite Hx in H0; injection H0 as <-; eauto|left; eauto 10].
  - intros [(b0 & x0 & name & _ & H0 & Ht)|[name Ht]]; eauto.
Qed.
Section holder.
Context (m : amenities) (k : Z) (c : amenity_call) (b : Z) (Hi : am_inv m) (Hc : calls m !! k = Some c) (Hb : holds c = Some b).
Lemma holder_only k' c' : calls m !! k' = Some c' → holds c' = Some b → k' = k.
Proof. intros H H'. by eapply (ai_one _ Hi). Qed.
(** The call that holds the gate gives it back. *)
Lemma am_leave x : bindings m !! b = Some x → am_inv (ended (withBinding m b (gate false)) k).
Proof.
  intros Hx. unfold ended, withBinding. simpl. rewrite (alter_as_insert _ _ x) by done.
  refine (am_binding m k b x (gate false x) None (live m) (released m) (next m) Hi Hx _ _ _ holder_only _ _ _ _ _ (beds m) _); try done.
  - by destruct (ai_calls _ Hi _ _ Hc).
  - auto.
  - intros b' Hb' ->. destruct (ai_released _ Hi b Hb') as (y & Hy & _ & Ht). rewrite Hx in Hy. by injection Hy as <-.
  - by apply (live_kept m b x).
  - auto.
Qed.
End holder.

Lemma am_enter m k c b x c' : am_inv m → calls m !! k = Some c → bindings m !! b = Some x → bOperation x = false →
  call_ok (<[b := gate true x]> (bindings m)) (released m) c' → holds c' = Some b → am_inv (at_call (withBinding m b (gate true)) k c').
Proof.
  intros Hi Hc Hx Hop Hok Hb. unfold at_call, withBinding. simpl. rewrite (alter_as_insert _ _ x) by done.
  refine (am_binding m k b x (gate true x) (Some c') (live m) (released m) (next m) Hi Hx _ _ _ _ _ _ _ _ _ (beds m) _); try done.
  - by destruct (ai_calls _ Hi _ _ Hc).
  - intros k' c0 H0 Hh. exfalso. destruct (ai_calls _ Hi _ _ H0) as [(y & Hy & H) _]. destruct c0; try done; simpl in *; injection Hh as ->;
      rewrite Hx in Hy; injection Hy as <-; destruct H; congruence.
  - intros c0 [= <-]. auto.
  - auto.
  - intros b' Hb' ->. destruct (ai_released _ Hi b Hb') as (y & Hy & _ & Ht). rewrite Hx in Hy. by injection Hy as <-.
  - by apply (live_kept m b x).
  - auto.
Qed.
Lemma am_leaves m k b name closing tenant : am_inv m → calls m !! k = Some (AcHeld b name closing tenant) → am_inv (ended (withBinding m b (gate false)) k).
Proof. intros Hi Hc. destruct (ai_calls _ Hi _ _ Hc) as [(x & Hx & _) _]. by eapply am_leave. Qed.
Lemma am_made m k b name : am_inv m → calls m !! k = Some (AcHeld b name false None) → am_inv (setNextRef (at_call m k (AcMade b name (next m)))).
Proof.
  intros Hi Hc. destruct (ai_calls _ Hi _ _ Hc) as [(x & Hx & Hop & Ht & Hcl) Hk]. simpl in Hx. specialize (Hcl eq_refl).
  assert (Hw : bindings m = <[b := x]> (bindings m)) by (by rewrite insert_id).
  replace (setNextRef _) with (mkAmenities (registered m) (beds m) (<[b := x]> (bindings m)) (started m) (closed m) (<[k := AcMade b name (next m)]> (calls m)) (live m) (released m) (next m + 1))
    by (unfold setNextRef, at_call, setCalls; simpl; by rewrite <- Hw).
  refine (am_binding m k b x x (Some (AcMade b name (next m))) (live m) (released m) (next m + 1) Hi Hx _ _ _ (holder_only m k _ b Hi Hc eq_refl) _ _ _ _ _ (beds m) _); try done; [lia|lia|..].
  - intros c [= <-]. split; [|auto]. exists x. simpl. by rewrite lookup_insert_eq.
  - auto.
  - intros b' Hb' ->. destruct (ai_released _ Hi b Hb') as (y & Hy & _ & E). rewrite Hx in Hy. by injection Hy as <-.
  - by apply (live_kept m b x).
  - auto.
Qed.
Lemma am_bound m k b name t : am_inv m → calls m !! k = Some (AcMade b name t) → t ∉ live m → t < next m → am_inv (setLive (tenantBound m k b name t) ({[t]} ∪ live m)).
Proof.
  intros Hi Hc Hnew Hlt. destruct (ai_calls _ Hi _ _ Hc) as [(x & Hx & Hop & Ht & Hcl) Hk]. simpl in Hx.
  set (x' := mkBinding false (bClosing x) (<[name := t]> (bTenants x))).
  assert (Hfree : ∀ name', bTenants x !! name' ≠ Some t) by (intros n' E; apply Hnew, (ai_live _ Hi); eauto).
  assert (Hw : alter (gate false) b (alter (λ y, mkBinding (bOperation y) (bClosing y) (<[name := t]> (bTenants y))) b (bindings m)) = <[b := x']> (bindings m)).
  { rewrite (alter_as_insert (bindings m) b x) by done. rewrite (alter_as_insert _ b (mkBinding (bOperation x) (bClosing x) (<[name := t]> (bTenants x)))) by apply lookup_insert_eq.
    by rewrite insert_insert_eq. }
  unfold tenantBound, ended, withBinding, setCalls, setBindings, setLive. simpl. rewrite Hw.
  refine (am_binding m k b x x' None ({[t]} ∪ live m) (released m) (next m) Hi Hx _ _ _ (holder_only m k _ b Hi Hc eq_refl) _ _ _ _ _ (beds m) _); try done; [auto|naive_solver|..].
  - intros t'. rewrite elem_of_union, elem_of_singleton, (live_kept m b x x Hi Hx eq_refl). split.
    + intros [->|[?|[n' Hn']]]; [right; exists name; apply lookup_insert_eq|by left|]. right. exists n'. simpl. rewrite lookup_insert_ne; [done|]. intros <-. congruence.
    + intros [?|[n' Hn']]; [by right; left|]. simpl in Hn'. apply lookup_insert_Some in Hn' as [[_ <-]|[_ ?]]; [by left|right; right; eauto].
  - intros n' t'. simpl. rewrite lookup_insert_Some. intros [[<- <-]|[_ ?]]; [|by left]. right. split_and!; [done|done|].
    intros n' [[-> _]|[_ E]]%lookup_insert_Some; [done|]. by destruct (Hfree n').
Qed.
Lemma am_closed_one m k id b name t todo failed : am_inv m → calls m !! k = Some (RelHeld id b ((name, t) :: todo) failed) →
  am_inv (at_call (setLive (withBinding m b (λ x, mkBinding (bOperation x) (bClosing x) (delete name (bTenants x)))) (live m ∖ {[t]})) k (RelHeld id b todo failed)).
Proof.
  intros Hi Hc. destruct (ai_calls _ Hi _ _ Hc) as [(x & Hx & Hop & Hcl & Hnd & Hin & Hall) Hk]. simpl in Hx, Hnd. apply NoDup_cons in Hnd as [Hnot Hnd].
  assert (Ht : bTenants x !! name = Some t) by (apply Hin; set_solver).
  set (x' := mkBinding (bOperation x) (bClosing x) (delete name (bTenants x))). unfold at_call, withBinding. simpl. rewrite (alter_as_insert _ _ x) by done.
  refine (am_binding m k b x x' (Some (RelHeld id b todo failed)) (live m ∖ {[t]}) (released m) (next m) Hi Hx _ _ _ (holder_only m k _ b Hi Hc eq_refl) _ _ _ _ _ (beds m) _); try done.
  - intros c [= <-]. split; [|auto]. exists x'. simpl. rewrite lookup_insert_eq. split_and!; try done.
    + intros n' t' H'. assert (n' ≠ name) by (intros ->; apply Hnot, list_elem_of_fmap; by exists (name, t')). rewrite lookup_delete_ne by done. apply Hin. set_solver.
    + intros Hf n' t' [Hne H']%lookup_delete_Some. specialize (Hall Hf _ _ H'). apply elem_of_cons in Hall as [E|?]; [|done]. congruence.
  - auto.
  - intros b' Hb' ->. destruct (ai_released _ Hi b Hb') as (y & Hy & _ & E). rewrite Hx in Hy. injection Hy as <-. simpl. by rewrite E, delete_empty.
  - intros t'. rewrite elem_of_difference, elem_of_singleton, (live_kept m b x x Hi Hx eq_refl). split.
    + intros [[?|[n' Hn']] Hne]; [by left|]. right. exists n'. simpl. rewrite lookup_delete_ne; [done|]. intros <-. congruence.
    + intros [(b0 & x0 & n0 & Hne & H0 & H1)|[n' Hn']].
      * split; [left; eauto 10|]. intros ->. by destruct (ai_inj _ Hi b0 b x0 x n0 name t).
      * simpl in Hn'. apply lookup_delete_Some in Hn' as [Hne H']. split; [right; eauto|]. intros ->. by destruct (ai_inj _ Hi b b x x n' name t).
  - intros n' t' H'. simpl in H'. apply lookup_delete_Some in H' as [_ ?]. by left.
Qed.
Lemma am_released_done m k id b failed : am_inv m → calls m !! k = Some (RelHeld id b [] failed) → am_inv (releaseFinish m k id b failed).
Proof.
  intros Hi Hc. destruct (ai_calls _ Hi _ _ Hc) as [(x & Hx & Hop & Hcl & _ & _ & Hall) Hk]. simpl in Hx. unfold releaseFinish. destruct failed; [by eapply am_leave|].
  assert (Hemp : bTenants x = ∅) by (apply map_empty; intros n'; destruct (bTenants x !! n') eqn:E; [|done]; by apply (Hall eq_refl), elem_of_nil in E).
  unfold ended, withBinding. simpl. rewrite (alter_as_insert _ _ x) by done.
  refine (am_binding m k b x (gate false x) None (live m) ({[b]} ∪ released m) (next m) Hi Hx _ _ _ (holder_only m k _ b Hi Hc eq_refl) _ _ _ _ _ _ _); try done.
  - intros b' [->%elem_of_singleton|?]%elem_of_union; auto.
  - by apply (live_kept m b x).
  - auto.
  - intros id' b'. case_bool_decide; [|done]. intros H'. simpl in H'. by apply lookup_delete_Some in H' as [_ ?].
Qed.
Lemma am_close_failed m k id b name t todo failed : am_inv m → calls m !! k = Some (RelHeld id b ((name, t) :: todo) failed) → am_inv (at_call m k (RelHeld id b todo true)).
Proof.
  intros Hi Hk. destruct (ai_calls _ Hi _ _ Hk) as [(x & Hx & Hop & Hcl & Hnd & Hin & Hall) Hlt]. simpl in Hx, Hnd. apply NoDup_cons in Hnd as [Hnot Hnd].
  assert (Hw : bindings m = <[b := x]> (bindings m)) by (by rewrite insert_id). unfold at_call.
  replace (setCalls m _) with (mkAmenities (registered m) (beds m) (<[b := x]> (bindings m)) (started m) (closed m) (<[k := RelHeld id b todo true]> (calls m)) (live m) (released m) (next m)) by (by rewrite <- Hw).
  refine (am_binding m k b x x (Some (RelHeld id b todo true)) (live m) (released m) (next m) Hi Hx _ _ _ (holder_only m k _ b Hi Hk eq_refl) _ _ _ _ _ (beds m) _); try done.
  - intros c [= <-]. split; [|auto]. exists x. simpl. rewrite lookup_insert_eq. split_and!; try done. intros n' t' ?. apply Hin. set_solver.
  - auto.
  - intros b' Hb' ->. destruct (ai_released _ Hi b Hb') as (y & Hy & _ & E). rewrite Hx in Hy. by injection Hy as <-.
  - by apply (live_kept m b x).
  - auto.
Qed.
(** The steps that make, bind or close no tenant. *)
Definition quiet (e : amenity_event) : bool := match e with EvFinish _ _ _ | EvCloseTenant _ _ => false | _ => true end.
Lemma am_inv_quiet m e m' : am_inv m → quiet e = true → react m e = Some m' → am_inv m'.
Proof.
  intros Hi Hq He. pose proof Hi as [I1 I2 I3 I4 I5 I6 I7]. destruct e; try discriminate Hq; clear Hq; simpl in He.
  - unfold Register in He. destruct (_ || _); [done|]. destruct (existsb _ _); [done|]. injection He as <-. by split.
  - unfold AdmitBed in He. destruct (closed m); [done|]. destruct (beds m !! id) eqn:Hid; injection He as <-; [done|].
    destruct I5 as [F1 F2]. assert (Hnew : bindings m !! next m = None) by (destruct (bindings m !! next m) eqn:E; [specialize (F1 _ _ E); lia|done]).
    assert (Hkeep : ∀ b x, bindings m !! b = Some x → <[next m := mkBinding false false ∅]> (bindings m) !! b = Some x) by (intros b x Hb; rewrite lookup_insert_ne; [done|congruence]).
    split; simpl; try done.
    + intros k c Hk. destruct (I1 k c Hk) as [Hok ?]. split; [|lia]. apply (call_mono _ _ _ _ _ Hok); [|auto]. intros x Hx. exists x. auto.
    + intros t. rewrite I3. split; [intros (b & x & n & Hb & Hn); eauto 10|]. intros (b & x & n & [[<- <-]|[_ Hb]]%lookup_insert_Some & Hn); [done|eauto 10].
    + intros b b' x x' n n' t [[<- <-]|[_ Hb]]%lookup_insert_Some [[<- <-]|[_ Hb']]%lookup_insert_Some; try done. by eapply I4.
    + split; [intros b x [[<- _]|[_ Hb]]%lookup_insert_Some; [lia|specialize (F1 _ _ Hb); lia]|]. intros t Ht. specialize (F2 t Ht). lia.
    + intros b Hb. destruct (I6 b Hb) as (x & Hx & ?). eauto.
    + intros id' b' [[<- <-]|[_ Hb]]%lookup_insert_Some; [rewrite lookup_insert_eq; eauto|]. destruct (I7 _ _ Hb) as [x Hx]. eauto.
  - unfold tenantAcquire in He. destruct (beds m !! id) as [b|] eqn:Hid; [|done]. injection He as <-. destruct (I7 _ _ Hid) as [x Hx].
    assert (H1 : am_inv (setNextRef m)).
    { split; try done; [intros k c Hk; destruct (I1 k c Hk); split; [done|simpl; lia]|]. destruct I5 as [F1 F2]. split; [intros b' y Hy; specialize (F1 _ _ Hy); simpl; lia|intros t Ht; specialize (F2 _ Ht); simpl; lia]. }
    refine (am_calls (setNextRef m) (next m) (Some (AcWait b name)) H1 _). intros c [= <-]. split_and!; [by exists x|simpl; lia|done].
  - unfold releaseBegin in He. destruct (beds m !! id) as [b|] eqn:Hid; injection He as <-; [|done]. destruct (I7 _ _ Hid) as [x Hx].
    set (x' := mkBinding (bOperation x) true (bTenants x)). unfold at_call, withBinding. simpl. rewrite (alter_as_insert _ _ x) by done.
    assert (Hget : ∀ b0 x0, <[b := x']> (bindings m) !! b0 = Some x0 → ∃ y, bindings m !! b0 = Some y ∧ bTenants x0 = bTenants y).
    { intros b0 x0 [[<- <-]|[_ ?]]%lookup_insert_Some; eauto. }
    destruct I5 as [F1 F2]. split; simpl; try done.
    + intros k c [[<- <-]|[Hne Hk]]%lookup_insert_Some; [split; [exists x'; by rewrite lookup_insert_eq|lia]|]. destruct (I1 k c Hk) as [Hok ?]. split; [|lia].
      apply (call_mono _ _ _ _ _ Hok); [|auto]. intros y Hy. destruct (decide (b = callBinding c)) as [E|]; [|rewrite lookup_insert_ne by done; eauto].
      rewrite <- E in *. rewrite lookup_insert_eq. rewrite Hx in Hy. injection Hy as <-. eauto.
    + intros k1 k2 c1 c2 b0 [[<- <-]|[N1 E1]]%lookup_insert_Some [[<- <-]|[N2 E2]]%lookup_insert_Some; try done. by eapply I2.
    + intros t. rewrite I3. split.
      * intros (b0 & x0 & n & Hb & Hn). destruct (decide (b = b0)) as [<-|]; [|exists b0, x0, n; by rewrite lookup_insert_ne].
        exists b, x', n. rewrite lookup_insert_eq. rewrite Hx in Hb. by injection Hb as <-.
      * intros (b0 & x0 & n & (y & Hy & E)%Hget & Hn). rewrite E in Hn. eauto.
    + intros b1 b2 x1 x2 n1 n2 t (y1 & H1 & ->)%Hget (y2 & H2 & ->)%Hget. by eapply I4.
    + split; [intros b0 x0 (y & Hy & _)%Hget; specialize (F1 _ _ Hy); lia|intros t Ht; specialize (F2 _ Ht); lia].
    + intros b0 Hb0. destruct (I6 b0 Hb0) as (y & Hy & Hc & Ht). destruct (decide (b = b0)) as [<-|]; [|rewrite lookup_insert_ne by done; eauto].
      exists x'. rewrite lookup_insert_eq. rewrite Hx in Hy. by injection Hy as <-.
    + intros id' b0 Hb0. destruct (I7 _ _ Hb0) as [y Hy]. destruct (decide (b = b0)) as [<-|]; [rewrite lookup_insert_eq; eauto|rewrite lookup_insert_ne by done; eauto].
  - unfold markStarted in He. destruct (closed m); [done|]. injection He as <-. by split.
  - injection He as <-. by split.
  - destruct (calls m !! k) as [[b name|b name c t|b name t|id b|id b todo f]|] eqn:Hk; try done.
    + destruct (bindings m !! b) as [x|] eqn:Hx; [|done]. simpl in He. destruct (bOperation x) eqn:Hop; [done|]. injection He as <-.
      eapply am_enter; try done. exists (gate true x). simpl. rewrite lookup_insert_eq. split_and!; try done. intros Hcl Hin.
      destruct (I6 b Hin) as (y & Hy & ? & _). congruence.
    + destruct (bindings m !! b) as [x|] eqn:Hx; [|done]. simpl in He. destruct (bOperation x) eqn:Hop; [done|]. injection He as <-.
      destruct (I1 _ _ Hk) as [(y & Hy & Hcl) _]. simpl in Hy. rewrite Hx in Hy. injection Hy as <-.
      eapply am_enter; try done. exists (gate true x). simpl. rewrite lookup_insert_eq. split_and!; try done.
      * apply NoDup_fst_map_to_list.
      * intros n t. by rewrite elem_of_map_to_list.
      * intros _ n t. by rewrite elem_of_map_to_list.
  - destruct (calls m !! k) as [[]|] eqn:Hk; try done; injection He as <-; by apply (am_calls m k None).
Qed.

(** ** Ownership *)

Definition carries (m : amenities) (k t : Z) : Prop := ∃ b name, calls m !! k = Some (AcMade b name t).
(** With [bd] the tenants that are bound: every other live one is carried by the call that made it. *)
Record owned (m : amenities) (bd : gset Z) : Prop := {
  ow_inv : am_inv (setLive m bd);
  ow_live : ∀ t, t ∈ live m ↔ t ∈ bd ∨ ∃ k, carries m k t;
  ow_made : ∀ k t, carries m k t → t ∉ bd ∧ t < next m;
  ow_once : ∀ k k' t, carries m k t → carries m k' t → k = k' }.
(** Beds and bindings: a binding that was not released belongs to exactly one bed. *)
Record bedded (m : amenities) : Prop := {
  be_inj : ∀ id id' b, beds m !! id = Some b → beds m !! id' = Some b → id = id';
  be_all : ∀ b, is_Some (bindings m !! b) → b ∈ released m ∨ ∃ id, beds m !! id = Some b;
  be_gone : ∀ id b, beds m !! id = Some b → b ∉ released m;
  be_release : ∀ k id b, (calls m !! k = Some (RelWait id b) ∨ ∃ todo f, calls m !! k = Some (RelHeld id b todo f)) → ∀ id', beds m !! id' = Some b → id' = id }.
Lemma setLive_react m e m' bd : quiet e = true → react m e = Some m' → react (setLive m bd) e = Some (setLive m' bd) ∧ live m' = live m ∧ next m <= next m' ∧
  ∀ k t, carries m' k t → carries m k t.
Proof.
  assert (Hins : ∀ m0 k c k' t, calls m0 = <[k := c]> (calls m) → match c with AcMade _ _ _ => False | _ => True end → carries m0 k' t → carries m k' t).
  { intros m0 k c k' t E Hc (b & n & H). rewrite E in H. apply lookup_insert_Some in H as [[_ ->]|[_ ?]]; [done|by exists b, n]. }
  intros Hq He. destruct e; try discriminate Hq; clear Hq; simpl in *.
  - unfold Register in *. simpl. destruct (_ || _); [done|]. destruct (existsb _ _); [done|]. injection He as <-. split_and!; try done; simpl; lia.
  - unfold AdmitBed in *. simpl. destruct (closed m); [done|]. destruct (beds m !! id); injection He as <-; split_and!; try done; simpl; lia.
  - unfold tenantAcquire in *. simpl. destruct (beds m !! id); [|done]. injection He as <-. split_and!; try done; [simpl; lia|]. intros k' t. by eapply Hins.
  - unfold releaseBegin in *. simpl. destruct (beds m !! id); injection He as <-; split_and!; try done; try (simpl; lia). intros k' t. by eapply Hins.
  - unfold markStarted in *. simpl. destruct (closed m); [done|]. injection He as <-. split_and!; try done; simpl; lia.
  - injection He as <-. split_and!; try done; simpl; lia.
  - destruct (calls m !! k) as [[]|]; try done; (destruct (bindings m !! b) as [x|]; [|done]); simpl in *; (destruct (bOperation x); [done|]); injection He as <-;
      (split_and!; [done|done|simpl; lia|]); intros k' t'; by eapply Hins.
  - destruct (calls m !! k) as [[]|]; try done; injection He as <-; (split_and!; [done|done|simpl; lia|]);
      intros k' t' (b' & n' & H); exists b', n'; simpl in H; by apply lookup_delete_Some in H as [_ ?].
Qed.
Lemma carries_kept m e m' k t : quiet e = true → react m e = Some m' → (∀ k c, calls m !! k = Some c → k < next m) → carries m k t → carries m' k t.
Proof.
  intros Hq He Hlt (b & n & Hk). exists b, n. pose proof (Hlt _ _ Hk) as Hkn.
  destruct e; try discriminate Hq; clear Hq; simpl in He.
  - unfold Register in He. destruct (_ || _); [done|]. destruct (existsb _ _); [done|]. by injection He as <-.
  - unfold AdmitBed in He. destruct (closed m); [done|]. destruct (beds m !! id); by injection He as <-.
  - unfold tenantAcquire in He. destruct (beds m !! id); [|done]. injection He as <-. simpl. rewrite lookup_insert_ne; [done|lia].
  - unfold releaseBegin in He. destruct (beds m !! id); injection He as <-; [|done]. simpl. rewrite lookup_insert_ne; [done|lia].
  - unfold markStarted in He. destruct (closed m); [done|]. by injection He as <-.
  - by injection He as <-.
  - destruct (decide (k0 = k)) as [->|Hne]; [by rewrite Hk in He|].
    destruct (calls m !! k0) as [[]|]; try done; (destruct (bindings m !! b0) as [x|]; [|done]); simpl in He; (destruct (bOperation x); [done|]); injection He as <-; simpl; by rewrite lookup_insert_ne.
  - destruct (decide (k0 = k)) as [->|Hne]; [by rewrite Hk in He|].
    destruct (calls m !! k0) as [[]|]; try done; injection He as <-; simpl; by rewrite lookup_delete_ne.
Qed.
Lemma owned_quiet m bd e m' : owned m bd → quiet e = true → react m e = Some m' → owned m' bd.
Proof.
  intros [I L M O] Hq He. destruct (setLive_react m e m' bd Hq He) as (He' & Hl & Hn & Hc).
  assert (Hk : ∀ k t, carries m k t → carries m' k t) by (intros k t; apply (carries_kept m e m'); [done..|]; intros k' c Hk'; by destruct (ai_calls _ I _ _ Hk')).
  split.
  - by eapply am_inv_quiet.
  - intros t. rewrite Hl, L. split; (intros [?|[k ?]]; [by left|right; exists k; auto]).
  - intros k t Ht. destruct (M k t (Hc _ _ Ht)). split; [done|lia].
  - intros k k' t ? ?. eapply O; eauto.
Qed.
(** A call that holds a gate moves on or ends without making a tenant. *)
Lemma owned_moves m bd bd' m' k c : owned m bd → calls m !! k = Some c → match c with AcMade _ _ _ => False | _ => True end →
  (calls m' = delete k (calls m) ∨ ∃ c', calls m' = <[k := c']> (calls m) ∧ match c' with AcMade _ _ _ => False | _ => True end) → next m' = next m →
  bd' ⊆ bd → (∀ t, t ∈ live m' ↔ t ∈ live m ∧ (t ∈ bd → t ∈ bd')) → am_inv (setLive m' bd') → owned m' bd'.
Proof.
  intros [I L M O] Hk Hc Hm Hn Hsub Hl Hi.
  assert (H : ∀ k' t, carries m' k' t ↔ carries m k' t).
  { intros k' t. unfold carries. destruct (decide (k = k')) as [<-|Hne].
    - split; intros (b & n & H); exfalso; [|rewrite Hk in H; injection H as ->; done].
      destruct Hm as [E|(c' & E & Hc')]; rewrite E in H; [by rewrite lookup_delete_eq in H|]. rewrite lookup_insert_eq in H. injection H as ->. done.
    - destruct Hm as [E|(c' & E & Hc')]; rewrite E; [by rewrite lookup_delete_ne|by rewrite lookup_insert_ne]. }
  split; [done|..].
  - intros t. rewrite Hl, L. split.
    + intros [[?|[k' ?]] ?]; [left; auto|right; exists k'; by apply H].
    + intros [?|[k' Ht]]; [split; [left; set_solver|done]|]. apply H in Ht. split; [by right; exists k'|]. intros Hb. by destruct (M _ _ Ht).
  - intros k' t Ht%H. destruct (M _ _ Ht). rewrite Hn. set_solver.
  - intros k1 k2 t ?%H ?%H. by eapply O.
Qed.
Lemma owned_made m bd k b name : owned m bd → calls m !! k = Some (AcHeld b name false None) →
  owned (setLive (setNextRef (at_call m k (AcMade b name (next m)))) ({[next m]} ∪ live m)) bd.
Proof.
  intros [I L M O] Hk.
  assert (Hbd : next m ∉ bd) by (intros H; apply (ai_fresh _ I) in H; simpl in H; lia).
  assert (Hc : ∀ k' t, carries (setLive (setNextRef (at_call m k (AcMade b name (next m)))) ({[next m]} ∪ live m)) k' t → k' = k ∧ t = next m ∨ k' ≠ k ∧ carries m k' t).
  { intros k' t (b' & n' & H). simpl in H. apply lookup_insert_Some in H as [[-> E]|[? H]]; [left; split; [done|congruence]|right; split; [done|by exists b', n']]. }
  assert (Hlt : ∀ k' t, carries m k' t → t ≠ next m) by (intros k' t Ht; destruct (M _ _ Ht); lia).
  split.
  - exact (am_made (setLive m bd) k b name I Hk).
  - intros t. cbn [live setLive]. rewrite elem_of_union, elem_of_singleton, L. split.
    + intros [->|[?|(k' & b' & n' & Ht)]]; [right; exists k, b, name; apply lookup_insert_eq|by left|].
      right. exists k', b', n'. simpl. rewrite lookup_insert_ne; [done|]. intros <-. rewrite Hk in Ht. discriminate.
    + intros [?|(k' & [[_ ->]|[_ ?]]%Hc)]; [auto|by left|]. right. right. by exists k'.
  - intros k' t [[-> ->]|[_ Ht]]%Hc; simpl; [split; [done|lia]|]. destruct (M _ _ Ht). split; [done|lia].
  - intros k1 k2 t [[-> ->]|[N1 T1]]%Hc [[-> E]|[N2 T2]]%Hc; [done|by destruct (Hlt _ _ T2)|by destruct (Hlt _ _ T1)|by eapply O].
Qed.
Lemma owned_bound m bd k b name t : owned m bd → calls m !! k = Some (AcMade b name t) → owned (tenantBound m k b name t) ({[t]} ∪ bd).
Proof.
  intros [I L M O] Hk. assert (Ht : carries m k t) by (by exists b, name). destruct (M _ _ Ht) as [Hbd Hlt].
  assert (Hc : ∀ k' t', carries (tenantBound m k b name t) k' t' ↔ k' ≠ k ∧ carries m k' t').
  { intros k' t'. unfold carries, tenantBound. simpl. split.
    - intros (b' & n' & [? ?]%lookup_delete_Some). split; [done|by exists b', n'].
    - intros [? (b' & n' & ?)]. exists b', n'. by rewrite lookup_delete_ne. }
  split.
  - exact (am_bound (setLive m bd) k b name t I Hk Hbd Hlt).
  - intros t'. change (live (tenantBound m k b name t)) with (live m). rewrite L, elem_of_union, elem_of_singleton. split.
    + intros [?|[k' Ht']]; [by left; right|]. destruct (decide (k' = k)) as [->|]; [|right; exists k'; by apply Hc].
      left. left. destruct Ht' as (b' & n' & H). rewrite Hk in H. by injection H.
    + intros [[->|?]|[k' [_ ?]%Hc]]; [by right; exists k|by left|by right; exists k'].
  - intros k' t' [Hne Ht']%Hc. destruct (M _ _ Ht') as [? ?]. split; [|done]. intros [->%elem_of_singleton|?]%elem_of_union; [|done]. destruct Hne. by eapply O.
  - intros k1 k2 t' [_ ?]%Hc [_ ?]%Hc. by eapply O.
Qed.
Lemma owned_step m bd e m' : owned m bd → react m e = Some m' → ∃ bd', owned m' bd'.
Proof.
  intros Ho He. destruct (quiet e) eqn:Hq; [exists bd; by eapply owned_quiet|]. pose proof Ho as [I L M O]. destruct e as [| | | | | | | |k cancelled created|k ok]; try discriminate Hq; clear Hq; simpl in He.
  - destruct (calls m !! k) as [[b name|b name cl t|b name t|id b|id b todo f]|] eqn:Hk; try done.
    + injection He as <-. exists bd.
      assert (Hleave : owned (ended (withBinding m b (gate false)) k) bd).
      { eapply (owned_moves m bd bd); [done|exact Hk|done|by left|done|done|simpl; naive_solver|]. by eapply (am_leaves (setLive m bd)). }
      unfold tenantAcquired. destruct (cl || cancelled) eqn:Hcc; [done|]. apply orb_false_iff in Hcc as [-> _]. destruct t as [t|]; [done|].
      destruct (_ && created); [by apply owned_made|done].
    + injection He as <-. eexists. by apply owned_bound.
    + destruct todo; [|done]. injection He as <-. exists bd.
      eapply (owned_moves m bd bd); [done|exact Hk|done|left; by destruct f|by destruct f|done|destruct f; simpl; naive_solver|].
      pose proof (am_released_done (setLive m bd) k id b f I Hk) as Hd. by destruct f.
  - destruct (calls m !! k) as [[b name|b name cl t|b name t|id b|id b todo f]|] eqn:Hk; try done. destruct todo as [|[name t] todo]; [done|]. destruct ok; injection He as <-.
    + destruct (ai_calls _ I _ _ Hk) as [(x & Hx & _ & _ & _ & Hin & _) _]. assert (Hbt : t ∈ bd) by (apply (ai_live _ I t); exists b, x, name; split; [done|apply Hin; set_solver]).
      exists (bd ∖ {[t]}). eapply (owned_moves m bd); [done|exact Hk|done|right; eexists; split; [done|done]|done|set_solver| |exact (am_closed_one (setLive m bd) k id b name t todo f I Hk)].
      intros t'. cbn [live setLive at_call setCalls]. rewrite elem_of_difference, elem_of_singleton. set_solver.
    + exists bd. eapply (owned_moves m bd); [done|exact Hk|done|right; eexists; split; [done|done]|done|done|simpl; naive_solver|exact (am_close_failed (setLive m bd) k id b name t todo f I Hk)].
Qed.
Definition releases (c : amenity_call) : option (Z * Z) := match c with RelWait id b | RelHeld id b _ _ => Some (id, b) | _ => None end.
Lemma releases_inv (cs : gmap Z amenity_call) k id b : (cs !! k = Some (RelWait id b) ∨ ∃ todo f, cs !! k = Some (RelHeld id b todo f)) ↔ ∃ c, cs !! k = Some c ∧ releases c = Some (id, b).
Proof. split; [naive_solver|]. intros ([] & Hc & [=]); subst; eauto. Qed.
(** Beds stay, and a call releases what it released before or the binding its bed has. *)
Lemma bedded_keeps m m' k : bedded m → beds m' = beds m → released m' = released m → (∀ b, is_Some (bindings m' !! b) → is_Some (bindings m !! b)) →
  (calls m' = calls m ∨ calls m' = delete k (calls m) ∨ ∃ c', calls m' = <[k := c']> (calls m) ∧
     (releases c' = None ∨ (∃ c, calls m !! k = Some c ∧ releases c' = releases c) ∨ ∃ id b, releases c' = Some (id, b) ∧ beds m !! id = Some b)) → bedded m'.
Proof.
  intros [B1 B2 B3 B4] Eb Er Hbs Hcs. split; rewrite ?Eb, ?Er; [done|by intros b H%Hbs; apply B2|done|]. intros k' id b H id' Hid'.
  apply releases_inv in H as (c & Hc & Hr).
  destruct Hcs as [E|[E|(c' & E & Hc')]]; rewrite E in Hc.
  - eapply B4; [|done]. apply releases_inv. eauto.
  - eapply B4; [|done]. apply releases_inv. apply lookup_delete_Some in Hc as [_ ?]. eauto.
  - apply lookup_insert_Some in Hc as [[<- ->]|[_ Hc]]; [|eapply B4; [|done]; apply releases_inv; eauto].
    destruct Hc' as [?|[(c0 & Hk & E0)|(id0 & b0 & E0 & Hb0)]]; [congruence| |by rewrite E0 in Hr; injection Hr as -> ->; eapply B1].
    eapply B4; [|done]. apply releases_inv. exists c0. split; [done|congruence].
Qed.
Lemma alter_present (bs : gmap Z bedBinding) f b b' : is_Some (alter f b bs !! b') → is_Some (bs !! b').
Proof. destruct (decide (b = b')) as [<-|]; [rewrite lookup_alter_eq; by destruct (bs !! b)|by rewrite lookup_alter_ne]. Qed.
Lemma bedded_admit m bd id m' : owned m bd → bedded m → AdmitBed m id = Some m' → bedded m'.
Proof.
  intros [I _ _ _] [B1 B2 B3 B4] He. unfold AdmitBed in He. destruct (closed m); [done|]. destruct (beds m !! id) eqn:Hid; injection He as <-; [done|].
  assert (Hfr : ∀ id b, beds m !! id = Some b → b ≠ next m) by (intros id' b Hb ->; destruct (ai_beds _ I _ _ Hb) as [x Hx]; pose proof (proj1 (ai_fresh _ I) _ _ Hx); simpl in *; lia).
  split; simpl.
  - intros i1 i2 b [[<- <-]|[_ H1]]%lookup_insert_Some [[<- E]|[_ H2]]%lookup_insert_Some; [done|by destruct (Hfr _ _ H2)|by subst; destruct (Hfr _ _ H1)|by eapply B1].
  - intros b Hb. destruct (decide (next m = b)) as [<-|Hne]; [right; exists id; by rewrite lookup_insert_eq|]. rewrite lookup_insert_ne in Hb by done.
    destruct (B2 b Hb) as [?|[id' Hid']]; [by left|]. right. exists id'. rewrite lookup_insert_ne; [done|congruence].
  - intros id' b [[_ <-]|[_ Hb]]%lookup_insert_Some; [|by eapply B3]. intros (x & Hx & _)%(ai_released _ I). pose proof (proj1 (ai_fresh _ I) _ _ Hx). simpl in *. lia.
  - intros k id1 b H id2 [[<- <-]|[_ Hb]]%lookup_insert_Some; [|by eapply B4]. apply releases_inv in H as (c & Hc & Hr). exfalso.
    destruct (ai_calls _ I _ _ Hc) as [(x & Hx & _) _]. pose proof (proj1 (ai_fresh _ I) _ _ Hx). destruct c; simpl in *; simplify_eq; lia.
Qed.
Lemma bedded_finish m k id b failed todo : bedded m → calls m !! k = Some (RelHeld id b todo failed) → bedded (releaseFinish m k id b failed).
Proof.
  intros Hb Hk. unfold releaseFinish. destruct failed; [apply (bedded_keeps m _ k); try done; [intros b'; apply alter_present|auto]|].
  destruct Hb as [B1 B2 B3 B4]. assert (Hid : ∀ id', beds m !! id' = Some b → id' = id) by (intros id' H'; eapply (B4 k); eauto).
  assert (Hd : ∀ id' b', (if bool_decide (beds m !! id = Some b) then delete id (beds m) else beds m) !! id' = Some b' ↔ beds m !! id' = Some b' ∧ b' ≠ b).
  { intros id' b'. case_bool_decide as E.
    - rewrite lookup_delete_Some. split; [intros [Hne H']; split; [done|]; intros ->; by destruct Hne; rewrite (Hid _ H')|]. intros [H' Hne]. split; [intros <-; congruence|done].
    - split; [intros H'; split; [done|]; intros ->; pose proof (Hid _ H'); by subst|by intros [? _]]. }
  split; simpl.
  - intros i1 i2 b' [H1 _]%Hd [H2 _]%Hd. by eapply B1.
  - intros b' H'%alter_present. destruct (decide (b' = b)) as [->|Hne]; [left; set_solver|]. destruct (B2 b' H') as [?|[id' ?]]; [left; set_solver|right; exists id'; by apply Hd].
  - intros id' b' [H' Hne]%Hd. specialize (B3 _ _ H'). set_solver.
  - intros k' id1 b1 H id2 [H2 _]%Hd. eapply B4; [|done]. apply releases_inv in H as (c & [_ Hc]%lookup_delete_Some & Hr). apply releases_inv. eauto.
Qed.
Lemma bedded_step m bd e m' : owned m bd → bedded m → react m e = Some m' → bedded m'.
Proof.
  intros Ho Hb He. destruct e as [| | | | | |k|k|k cancelled created|k ok]; simpl in He.
  - unfold Register in He. destruct (_ || _); [done|]. destruct (existsb _ _); [done|]. injection He as <-. apply (bedded_keeps m _ 0); auto.
  - by eapply bedded_admit.
  - unfold tenantAcquire in He. destruct (beds m !! id); [|done]. injection He as <-. apply (bedded_keeps m _ (next m)); try done. right; right. eexists. by split; [done|left].
  - unfold releaseBegin in He. destruct (beds m !! id) eqn:Hid; injection He as <-; [|done]. apply (bedded_keeps m _ (next m)); try done; [intros b'; apply alter_present|]. right; right. eexists. split; [done|]. eauto 10.
  - unfold markStarted in He. destruct (closed m); [done|]. injection He as <-. apply (bedded_keeps m _ 0); auto.
  - injection He as <-. apply (bedded_keeps m _ 0); auto.
  - destruct (calls m !! k) as [[]|] eqn:Hk; try done; (destruct (bindings m !! b) as [x|]; [|done]); simpl in He; (destruct (bOperation x); [done|]); injection He as <-;
      (apply (bedded_keeps m _ k); [done..|intros b'; apply alter_present|]); right; right; eexists; (split; [done|]); eauto.
  - destruct (calls m !! k) as [[]|] eqn:Hk; try done; injection He as <-; apply (bedded_keeps m _ k); auto.
  - destruct (calls m !! k) as [[b name|b name cl t|b name t|id b|id b todo f]|] eqn:Hk; try done.
    + injection He as <-. unfold tenantAcquired. assert (Hl : bedded (ended (withBinding m b (gate false)) k)) by (apply (bedded_keeps m _ k); try done; [intros b'; apply alter_present|auto]).
      destruct (cl || cancelled); [done|]. destruct t; [done|]. destruct (_ && created); [|done]. apply (bedded_keeps m _ k); try done. right; right. eexists. by split; [done|left].
    + injection He as <-. apply (bedded_keeps m _ k); try done; [intros b' H'; by do 2 apply alter_present in H'|auto].
    + destruct todo; [|done]. injection He as <-. by eapply bedded_finish.
  - destruct (calls m !! k) as [[b name|b name cl t|b name t|id b|id b todo f]|] eqn:Hk; try done. destruct todo as [|[name t] todo]; [done|]. destruct ok; injection He as <-;
      (apply (bedded_keeps m _ k); [done..|first [intros b'; apply alter_present|done]|]); right; right; eexists; (split; [done|]); eauto.
Qed.
Lemma am_reach_inv m : amenity_reach m → (∃ bd, owned m bd) ∧ bedded m.
Proof.
  induction 1 as [|m e m' _ [[bd Ho] Hb] He]; [|split; [by eapply owned_step|by eapply bedded_step]]. split; [exists ∅|].
  - split; simpl; [| |intros k t (b & n & H); discriminate H|intros k k' t (b & n & H); discriminate H].
    + split; simpl; try done; [|set_solver..]. intros t. split; [set_solver|]. by intros (b & x & n & ? & _).
    + intros t. split; [set_solver|]. intros [?|(k & b & n & H)]; [set_solver|discriminate H].
  - split; simpl; [done|by intros b [? ?]|done|]. by intros k id b [?|(? & ? & ?)].
Qed.

Fixpoint reactAll (m : amenities) (l : list amenity_event) : option amenities :=
  match l with [] => Some m | e :: l => m ← react m e; reactAll m l end.
Lemma released_stays m e m' : react m e = Some m' → released m ⊆ released m'.
Proof.
  intros He. destruct e; simpl in He.
  - unfold Register in He. destruct (_ || _); [done|]. destruct (existsb _ _); [done|]. by injection He as <-.
  - unfold AdmitBed in He. destruct (closed m); [done|]. destruct (beds m !! id); by injection He as <-.
  - unfold tenantAcquire in He. destruct (beds m !! id); [|done]. by injection He as <-.
  - unfold releaseBegin in He. destruct (beds m !! id); by injection He as <-.
  - unfold markStarted in He. destruct (closed m); [done|]. by injection He as <-.
  - by injection He as <-.
  - destruct (calls m !! k) as [[]|]; try done; destruct (bindings m !! b) as [x|]; try done; simpl in He; destruct (bOperation x); try done; by injection He as <-.
  - destruct (calls m !! k) as [[]|]; try done; by injection He as <-.
  - destruct (calls m !! k) as [[b name|b name c t|b name t|id b|id b todo f]|]; try done.
    + injection He as <-. unfold tenantAcquired. destruct (c || cancelled); [done|]. destruct t; [done|]. by destruct (_ && created).
    + by injection He as <-.
    + destruct todo; [|done]. injection He as <-. unfold releaseFinish. destruct f; [done|]. simpl. set_solver.
  - destruct (calls m !! k) as [[b name|b name c t|b name t|id b|id b todo f]|]; try done. destruct todo as [|[]]; [done|]. destruct ok; by injection He as <-.
Qed.
(** C34: A tenant that was made and not closed is bound, under one name, in the binding of
    exactly one bed that the manager still knows, so that a release of that bed finds it
    again, after failed releases too; or it has just been made and is carried by the one
    Acquire, holding the gate of such a binding, that will bind it.  A tenant Acquire finds
    is live and no other call holds its binding.  Once the release of a bed succeeded, its
    binding belongs to no bed, has no tenant and never gets one again. *)
Theorem amenity_tenants_owned m l m' : amenity_reach m → reactAll m l = Some m' →
  (∀ t, t ∈ live m' →
     (∃ id b x name, beds m' !! id = Some b ∧ bindings m' !! b = Some x ∧ bTenants x !! name = Some t ∧
        (∀ id', beds m' !! id' = Some b → id' = id) ∧
        (∀ b' x' name', bindings m' !! b' = Some x' → bTenants x' !! name' = Some t → b' = b ∧ name' = name) ∧
        ∃ m'', react m' (EvRelease id) = Some m'' ∧ calls m'' !! next m' = Some (RelWait id b)) ∨
     (∃ k id b name, calls m' !! k = Some (AcMade b name t) ∧ beds m' !! id = Some b ∧
        (∀ b' x' name', bindings m' !! b' = Some x' → bTenants x' !! name' ≠ Some t) ∧
        (∀ k' c, calls m' !! k' = Some c → holds c = Some b → k' = k) ∧
        (∀ k' b' name', calls m' !! k' = Some (AcMade b' name' t) → k' = k))) ∧
  (∀ k b name closing t, calls m' !! k = Some (AcHeld b name closing (Some t)) → t ∈ live m' ∧
     ∀ k' c, calls m' !! k' = Some c → holds c = Some b → k' = k) ∧
  (∀ b, b ∈ released m → (∀ id, beds m' !! id ≠ Some b) ∧ ∃ x, bindings m' !! b = Some x ∧ bTenants x = ∅ ∧
     ∀ k name tenant, calls m' !! k ≠ Some (AcHeld b name false tenant) ∧ ∀ t, calls m' !! k ≠ Some (AcMade b name t)).
Proof.
  intros Hm Hl. assert (Hend : amenity_reach m' ∧ released m ⊆ released m').
  { revert m Hm Hl. induction l as [|e l IH]; intros m Hm; simpl; [intros [= <-]; done|]. destruct (react m e) as [m1|] eqn:E; [|done]. simpl.
    intros Hl. destruct (IH m1 (am_step _ _ _ Hm E) Hl) as [? ?]. split; [done|]. pose proof (released_stays _ _ _ E). set_solver. }
  destruct Hend as [Hr Hsub]. destruct (am_reach_inv _ Hr) as [[bd [[I1 I2 I3 I4 I5 I6 I7] L M O]] [B1 B2 B3 B4]]. simpl in *. split_and!.
  - intros t [Ht|[k Ht]]%L.
    + left. apply I3 in Ht as (b & x & name & Hb & Ht). assert (Hn : b ∉ released m') by (intros (y & Hy & _ & E)%I6; rewrite Hb in Hy; injection Hy as <-; by rewrite E in Ht).
      destruct (B2 b) as [?|[id Hid]]; [eauto|done|]. exists id, b, x, name. split_and!; try done; [intros; by eapply B1|intros b' x' n' Hb' Ht'; by eapply I4|].
      unfold releaseBegin. rewrite Hid. eexists. split; [done|]. simpl. apply lookup_insert_eq.
    + right. destruct (M _ _ Ht) as [Hbd _]. pose proof Ht as (b & name & Hk). destruct (I1 _ _ Hk) as [(x & Hx & _ & _ & Hn) _]. simpl in Hx.
      destruct (B2 b) as [?|[id Hid]]; [eauto|done|]. exists k, id, b, name. split_and!; try done.
      * intros b' x' n' Hb' Ht'. apply Hbd, I3. eauto.
      * intros k' c Hc Hh. by eapply I2.
      * intros k' b' n' Hk'. eapply O; [by exists b', n'|done].
  - intros k b name closing t Hk. destruct (I1 _ _ Hk) as [(x & Hx & _ & Ht & _) _]. split; [apply L; left; apply I3; eauto|]. intros k' c Hc Hh. by eapply I2.
  - intros b Hb. destruct (I6 b) as (x & Hx & Hc & Ht); [set_solver|]. split; [intros id Hid; by apply (B3 _ _ Hid), Hsub|]. exists x. split_and!; [done..|]. intros k name tenant. split.
    + intros Hk. destruct (I1 _ _ Hk) as [(y & _ & _ & _ & Hn) _]. apply Hn; [done|set_solver].
    + intros t Hk. destruct (I1 _ _ Hk) as [(y & _ & _ & _ & Hn) _]. apply Hn. set_solver.
Qed.
(** A bed gets a tenant while its release waits; the release closes it. *)
Definition demoEvents : list amenity_event :=
  [EvRegister (mkFacility "chromium" true); EvStart; EvAdmit 7; EvAcquire 7 "chromium"; EvEnter 2; EvRelease 7; EvFinish 2 false true; EvFinish 2 false true; EvEnter 3; EvCloseTenant 3 true; EvFinish 3 false false].
Definition demoAmenities : amenities := default newAmenities (reactAll newAmenities demoEvents).
Lemma react_reach m l m' : amenity_reach m → reactAll m l = Some m' → amenity_reach m'.
Proof.
  revert m. induction l as [|e l IH]; intros m Hm; simpl; [by intros [= <-]|]. destruct (react m e) eqn:E; [|done]. simpl. apply IH. by eapply am_step.
Qed.
Lemma react_none m : reactAll m [] = Some m.
Proof. done. Qed.
(** The close fails: the bed keeps its binding and the tenant stays bound. *)
Definition demoFailed : amenities := default newAmenities (reactAll newAmenities
  (take 9 demoEvents ++ [EvCloseTenant 3 false; EvFinish 3 false false])).
Lemma amenity_tenants_owned_witness : released demoAmenities = {[1]} ∧ live demoAmenities = ∅ ∧ (∃ x, bindings demoAmenities !! 1 = Some x ∧ bTenants x = ∅) ∧
  4 ∈ live demoFailed ∧ ∃ id b x name, beds demoFailed !! id = Some b ∧ bindings demoFailed !! b = Some x ∧ bTenants x !! name = Some 4.
Proof.
  split; [by vm_compute|]. split; [by vm_compute|].
  assert (Hr : amenity_reach demoAmenities) by (apply (react_reach newAmenities demoEvents); [constructor|by vm_compute]).
  assert (Hf : amenity_reach demoFailed) by (apply (react_reach newAmenities (take 9 demoEvents ++ [EvCloseTenant 3 false; EvFinish 3 false false])); [constructor|by vm_compute]).
  split; [|split; [by vm_compute|]].
  - destruct (proj2 (proj2 (amenity_tenants_owned demoAmenities [] demoAmenities Hr (react_none _))) 1) as (_ & x & Hx & Ht & _); [by vm_compute|].
    exists x. split; [exact Hx|exact Ht].
  - destruct (proj1 (amenity_tenants_owned demoFailed [] demoFailed Hf (react_none _)) 4) as [(id & b & x & name & H1 & H2 & H3 & _)|(k & id & b & name & Hk & _)]; [by vm_compute|..].
    + exists id, b, x, name. split; [exact H1|split; [exact H2|exact H3]].
    + exfalso. vm_compute in Hk. destruct k; discriminate Hk.
Defined.
