(* ===== verification/Failures.v ===== *)
(** * Failures: errors with a cause, and what the HTTP API answers

    Models [internal/error.go] and [error_cause.go], the use of [errors.Is] and [errors.As] on
    wrapped and joined errors, and the handlers that turn errors into responses
    ([internal/api/apiv1/handler]: handler.go, errors.go, beds.go, bed_renew.go,
    transfers.go, network_policy.go, mcp.go).  A request is what the handler reads of it;
    what the manager does is [Manager]. *)

From S2P Require Import Prelude Policy Bed Manager.

(** ** Errors *)

Inductive ErrorKind := KindInvalidArgument | KindNotFound | KindConflict | KindUnavailable | KindPreparationFailed | KindLimitExceeded.
Inductive ErrorCause := CauseEmpty | CauseUnknown | CauseCarrier | CauseBed | CauseRequest | CauseResource.
#[export] Instance ErrorKind_eq_dec : EqDecision ErrorKind.
Proof. solve_decision. Defined.
#[export] Instance ErrorCause_eq_dec : EqDecision ErrorCause.
Proof. solve_decision. Defined.

(** An error value: one made by [errors.New] or of another package, a bare category, an
    [Error] with its identity as a pointer, one wrapped by [%w] or by a type with [Unwrap],
    or several joined. *)
Inductive goerr :=
| Plain (name : string)
| Category (k : ErrorKind)
| Detail (ptr : Z) (k : ErrorKind) (op : string) (c : ErrorCause) (inner : option goerr)
| Wrap (inner : goerr)
| Joined (l : list goerr).
Inductive target := TPlain (name : string) | TCategory (k : ErrorKind) | TPointer (ptr : Z).
#[export] Instance target_eq_dec : EqDecision target.
Proof. solve_decision. Defined.

Definition evident (c : ErrorCause) : bool := negb (bool_decide (c = CauseEmpty) || bool_decide (c = CauseUnknown)).
(** The cause of a list of joined errors: none so far, or the common one. *)
Fixpoint joinCauses (acc : option ErrorCause) (l : list ErrorCause) : ErrorCause :=
  match l with
  | [] => default CauseUnknown acc
  | n :: l => match acc with
              | Some c => if bool_decide (c = n) then joinCauses (Some n) l else CauseUnknown
              | None => joinCauses (Some n) l
              end
  end.
Fixpoint CauseOf (e : goerr) : ErrorCause :=
  match e with
  | Plain _ | Category _ => CauseUnknown
  | Detail _ _ _ c inner => if evident c then c else match inner with Some e => CauseOf e | None => CauseUnknown end
  | Wrap e => CauseOf e
  | Joined l => joinCauses None (CauseOf <$> l)
  end.
Definition WrapError (ptr : Z) (k : ErrorKind) (op : string) (c : ErrorCause) (err : option goerr) : goerr :=
  Detail ptr k op (if evident c then c else match err with Some e => CauseOf e | None => CauseUnknown end) err.
Fixpoint isError (e : goerr) (t : target) : bool :=
  match e with
  | Plain name => bool_decide (t = TPlain name)
  | Category k => bool_decide (t = TCategory k)
  | Detail p k _ _ inner => bool_decide (t = TPointer p) || bool_decide (t = TCategory k) || match inner with Some e => isError e t | None => false end
  | Wrap e => isError e t
  | Joined l => existsb (λ e, isError e t) l
  end.
(** [errors.As] for an [Error]: the first on the way, its category and operation. *)
Fixpoint asDetail (e : goerr) : option (ErrorKind * string) :=
  match e with
  | Plain _ | Category _ => None
  | Detail _ k op _ _ => Some (k, op)
  | Wrap e => asDetail e
  | Joined l => (fix first l := match l with [] => None | e :: l => match asDetail e with Some d => Some d | None => first l end end) l
  end.

(** ** Responses *)

Inductive message := Text (s : string) | ErrorText (e : goerr) | DetailText (k : ErrorKind) (op : string).
Record response := mkResponse { rStatus : Z; rCode : string; rCause : ErrorCause; rMessage : option message }.
Definition respondFailure (status : Z) (code : string) (msg : message) (err : option goerr) : response :=
  mkResponse status code (match err with Some e => CauseOf e | None => CauseUnknown end) (Some msg).
Definition respondError (status : Z) (code : string) (msg : message) : response := respondFailure status code msg None.
Definition badRequest (msg : message) : response :=
  respondFailure 400 "INVALID_REQUEST_BODY" msg (Some (WrapError 0 KindInvalidArgument "request" CauseRequest None)).
Definition runtimeError (msg : message) : response := respondError 500 "RUNTIME_ERROR" msg.
Definition runtimeFailure (e : goerr) : response := respondFailure 500 "RUNTIME_ERROR" (ErrorText e) (Some e).
Definition success (status : Z) : response := mkResponse status "" CauseUnknown None.

(** The errors of the manager.  The two capacity errors are [Error] values compared by
    identity, the others are plain. *)
Definition bedLimitPtr : Z := 1.
Definition resourcePressurePtr : Z := 2.
Definition bedUnavailable : string := "bed: no longer resident".
Definition bedPurging : string := "bed: identity is being purged".
Definition pathsConflict : string := "bed: volume declaration cannot change".
Definition pillowsConflict : string := "bed: cannot change declared pillows".
Definition managerError (e : merr) : goerr :=
  match e with
  | ErrBedUnavailable => Plain bedUnavailable
  | ErrResourcePressure => WrapError resourcePressurePtr KindLimitExceeded "carrier resource admission" CauseResource (Some (Plain "bed: carrier resource admission threshold reached"))
  | ErrBedLimit => WrapError bedLimitPtr KindLimitExceeded "bed capacity" CauseResource (Some (Plain "bed: max bed count reached"))
  | ErrBedPurging => Plain bedPurging
  | ErrInvalidExpiration => Plain "bed: expiresAt must be a future timestamp"
  | ErrPillowsConflict => Plain pillowsConflict
  | ErrSyncInvalid => Plain "bed: unsupported sync kind"
  | ErrCanceled => Plain "context canceled"
  | ErrBecameResident => Plain "bed: became resident"
  | ErrNotFound => WrapError 3 KindNotFound "bed" CauseRequest None
  | ErrSaveMeta => Plain "bed: save metadata"
  end.

Definition respondBedError (e : goerr) : response :=
  if isError e (TCategory KindUnavailable) then respondFailure 503 "SERVICE_UNAVAILABLE" (Text "required Bed capability is unavailable") (Some e)
  else if isError e (TCategory KindNotFound) then respondError 404 "BED_INVALID" (Text "bed not found")
  else match (if isError e (TCategory KindInvalidArgument) then asDetail e else None) with
  | Some (k, op) => badRequest (DetailText k op)
  | None =>
      if isError e (TPlain pathsConflict) || isError e (TPlain pillowsConflict) then respondFailure 409 "BED_INVALID" (ErrorText e) (Some e)
      else if isError e (TPointer resourcePressurePtr) then respondFailure 429 "RESOURCE_PRESSURE" (ErrorText e) (Some e)
      else if isError e (TPointer bedLimitPtr) then respondFailure 429 "BED_LIMIT_EXCEEDED" (ErrorText e) (Some e)
      else if isError e (TPlain bedUnavailable) then respondFailure 409 "BED_BUSY" (ErrorText e) (Some e)
      else if isError e (TPlain bedPurging) then respondFailure 409 "BED_BUSY" (ErrorText e) (Some e)
      else respondFailure 400 "BED_INVALID" (ErrorText e) (Some e)
  end.

(** Errors of transfers, network policies and the MCP proxy. *)
Definition transferInvalid : string := "invalid transfer".
Definition transferConflict : string := "transfer conflict".
Definition transferNotFound : string := "transfer unknown or expired".
Definition transferCapacity : string := "transfer capacity exceeded".
Definition transferUnavailable : string := "S3 transfer unavailable".
Definition transferError (e : goerr) : response :=
  if isError e (TPlain transferInvalid) then badRequest (ErrorText e)
  else if isError e (TPlain transferConflict) then respondFailure 409 "TRANSFER_CONFLICT" (ErrorText e) (Some e)
  else if isError e (TPlain transferNotFound) then respondFailure 404 "TRANSFER_UNKNOWN" (ErrorText e) (Some e)
  else if isError e (TPlain transferCapacity) then respondFailure 429 "TRANSFER_CAPACITY" (ErrorText e) (Some e)
  else if isError e (TPlain transferUnavailable) then respondError 503 "SERVICE_UNAVAILABLE" (Text "S3 transfer unavailable")
  else respondBedError e.
Definition networkUnavailable : string := "network policy is unavailable".
Definition invalidPolicyPtr : Z := 4.
Definition networkPolicyError (e : goerr) : response :=
  if isError e (TPlain networkUnavailable) then respondFailure 503 "SERVICE_UNAVAILABLE" (Text "bed network policy is unavailable") (Some e)
  else if isError e (TPointer invalidPolicyPtr) then respondFailure 400 "INVALID_REQUEST_BODY" (ErrorText e) (Some e)
  else respondFailure 500 "RUNTIME_ERROR" (Text "network policy update failed") (Some e).
Definition respondMCPError (e : goerr) : response :=
  if isError e (TPlain "invalid MCP configuration or request") then respondFailure 400 "INVALID_REQUEST_BODY" (ErrorText e) (Some e)
  else if isError e (TPlain "MCP server is not configured") then respondFailure 404 "MCP_SERVER_NOT_FOUND" (ErrorText e) (Some e)
  else if isError e (TPlain "MCP connection capacity reached") then respondFailure 429 "MCP_CAPACITY_EXCEEDED" (ErrorText e) (Some e)
  else if isError e (TPlain "MCP proxy is closed") then respondFailure 503 "SERVICE_UNAVAILABLE" (ErrorText e) (Some e)
  else if isError e (TPlain "context deadline exceeded") then respondError 504 "MCP_TIMEOUT" (Text "MCP request timed out")
  else if isError e (TPlain "context canceled") then respondError 408 "MCP_TIMEOUT" (Text "MCP request cancelled")
  else respondError 502 "MCP_UPSTREAM_ERROR" (Text "remote MCP request failed").

(** ** Handlers

    [valid] is [validBedID], a test of the name against Unicode classes.  The manager may
    change between two of its critical sections, so a handler takes the manager it finds
    in each of them; [waited] is what the wait for a declared Bed ends with. *)
Section Handlers.
Context (valid : string → bool).
Definition invalidBedID : goerr := Plain "bed: invalid id".

Record bedRequest := mkRequest { reqResolved : option bref; reqHeader : string; reqQuery : string }.
Definition requestedName (r : bedRequest) : string :=
  if bool_decide (reqHeader r = "") then reqQuery r else reqHeader r.
Definition awaitBed (m : Manager) (id : string) (waited : iref → result goerr bref) : result goerr bref :=
  if negb (valid id) then Err invalidBedID
  else match Ensure m id with
  | Err e => Err (managerError e)
  | Ok (EnsureResident p) => Ok p
  | Ok (EnsureWait i) => waited i
  end.
Definition bedOf (r : bedRequest) (m : Manager) (waited : iref → result goerr bref) : result response bref :=
  match reqResolved r with
  | Some p => Ok p
  | None =>
      if bool_decide (requestedName r = "")
      then Err (badRequest (Text "Bed is required: set X-Hostel-Bed or the bed query parameter"))
      else match awaitBed m (requestedName r) waited with
      | Err e => Err (respondBedError e)
      | Ok p => Ok p
      end
  end.
(** Up to the call of [next]; its deferred [finish] is [finishOperation] of the same kind. *)
Definition withOp (kind : OperationKind) (r : bedRequest) (m0 : Manager) (waited : iref → result goerr bref)
    (m1 : Manager) (now : Z) (allowed : bool) : result response (bref * Manager) :=
  match bedOf r m0 waited with
  | Err answer => Err answer
  | Ok p => match BeginOperation m1 p kind 0 now allowed with
            | Err e => Err (respondBedError (managerError e))
            | Ok m => Ok (p, m)
            end
  end.
Definition opsOf (r : bedRequest) (m0 : Manager) (waited : iref → result goerr bref) (m1 : Manager)
    (now : Z) (allowed : bool) : result response (bref * Manager) :=
  withOp OpFile r m0 waited m1 now allowed.

(** [POST /v1/beds]: [initialized] is the result of [InitializeBed], whether the Bed is
    ready, and [m] the manager when the Bed is read back. *)
Definition bedCreate (decoded : bool) (initialized : result goerr bool) (m : Manager) (id : string) : response :=
  if negb decoded then badRequest (Text "invalid create bed request")
  else match initialized with
  | Err e =>
      if isError e (TPlain networkUnavailable) then respondFailure 503 "SERVICE_UNAVAILABLE" (Text "bed network policy is unavailable") (Some e)
      else if isError e (TPointer invalidPolicyPtr) then badRequest (ErrorText e)
      else respondBedError e
  | Ok true => match beds m !! id with
               | None => runtimeError (Text "initialized bed is not resident")
               | Some _ => success 200
               end
  | Ok false => success 202
  end.

(** [GET /v1/beds/:bedId]. *)
Definition bedGet (m : Manager) (id : string) (now : Z) : response * Manager :=
  match ObserveBed m id now with
  | (m, None) => (respondError 404 "BED_INVALID" (Text "bed not found"), m)
  | (m, Some _) => (success 200, m)
  end.

(** [DELETE /v1/beds/:bedId] with the results of [Purge] and [Evict]. *)
Definition bedDelete (purge store : string) (purged : result goerr unit) (evicted : result goerr bool)
    (m : Manager) (id : string) : response :=
  if bool_decide (purge = "true") then
    if negb (bool_decide (store = "")) then badRequest (Text "use sync to select the Bed synchronization policy")
    else match purged with
    | Err e => if isError e (TPlain "bed: unsupported sync kind") then respondBedError e else runtimeFailure e
    | Ok _ => success 200
    end
  else match evicted with
  | Err e => runtimeFailure e
  | Ok false => match beds m !! id with
                | Some _ => respondError 409 "BED_BUSY" (Text "bed saw activity during eviction; retry after traffic stops")
                | None => success 200
                end
  | Ok true => success 200
  end.

(** [Checkpoint] of the manager: [persisted] is the result of [persistBed] and the manager
    it leaves. *)
Definition Checkpoint (m0 : Manager) (id : string) (m1 : Manager) (now : Z) (allowed : bool)
    (persisted : Manager → result goerr unit * Manager) (later : Z) : result goerr unit * Manager :=
  match beds m0 !! id with
  | None => (Err (Plain "bed: unknown bed"), m1)
  | Some p => match BeginOperation m1 p OpCheckpoint 0 now allowed with
              | Err e => (Err (managerError e), m1)
              | Ok m => let '(r, m) := persisted m in (r, finishOperation m p OpCheckpoint later)
              end
  end.
Definition bedCheckpoint (checkpointed : result goerr unit) (m : Manager) (id : string) : response :=
  match checkpointed with
  | Err e => if isError e (TPointer resourcePressurePtr) then respondBedError e else runtimeFailure e
  | Ok _ => match beds m !! id with
            | None => runtimeError (Text "checkpointed bed is no longer resident")
            | Some _ => success 200
            end
  end.

(** [POST /v1/beds/:bedId/renew-expiration]: [body] is absent when it does not decode. *)
Definition bedRenewExpiration (body : option (option (Z * Z))) (m0 : Manager) (id : string) (m1 : Manager) (now : Z)
  : response * Manager :=
  match body with
  | None => (badRequest (Text "expiresAt must be a future RFC3339 timestamp"), m1)
  | Some expiresAt =>
      match beds m0 !! id with
      | None => (respondError 404 "BED_INVALID" (Text "resident bed not found"), m1)
      | Some p => match RenewExpiration m1 (Some p) expiresAt now with
                  | Err ErrInvalidExpiration => (badRequest (ErrorText (managerError ErrInvalidExpiration)), m1)
                  | Err _ => (respondError 409 "BED_BUSY" (Text "bed is no longer resident or is being reclaimed"), m1)
                  | Ok (_, m) => (success 200, m)
                  end
      end
  end.
End Handlers.

(** [/v1/beds/:bedId/network/policy]: the body as read within its limit, decoded by
    [encoding/json] over the value it is decoded into. *)
Inductive method := GET | POST | PUT | PATCH | DELETE.
Inductive rawBody := BodyTooLarge | BodyUnreadable | BodyRaw (s : string).
Section NetworkPolicy.
Context (blank : string → bool) (decodePolicy : Policy.Policy → string → option Policy.Policy)
        (decodeRules : string → option (list Rule)) (decodeTargets : string → option (list string)).
Definition invalidPolicyBody (status : Z) : response := respondError status "INVALID_REQUEST_BODY" (Text "invalid network policy body").
Definition policyMutation (q : method) (body : rawBody) : result response PolicyMutation :=
  match q, body with
  | GET, _ => Ok (mkMutation None None None)
  | _, BodyTooLarge => Err (invalidPolicyBody 413)
  | _, BodyUnreadable => Err (invalidPolicyBody 400)
  | (POST | PUT), BodyRaw s =>
      let denyAll := mkPolicy "deny" [] in
      if blank s then Ok (mkMutation (Some denyAll) None None)
      else match decodePolicy denyAll s with
      | Some policy => Ok (mkMutation (Some policy) None None)
      | None => Err (invalidPolicyBody 400)
      end
  | PATCH, BodyRaw s =>
      match decodeRules s with
      | Some (rule :: rules) => Ok (mkMutation None (Some (rule :: rules)) None)
      | Some [] | None => Err (invalidPolicyBody 400)
      end
  | DELETE, BodyRaw s =>
      match decodeTargets s with
      | Some (target :: targets) => Ok (mkMutation None None (Some (target :: targets)))
      | Some [] | None => Err (invalidPolicyBody 400)
      end
  end.
(** [updated] is the update of the policy ([BedNetwork]) and the manager it leaves; the
    deferred [finish] runs on every way out. *)
Definition networkPolicy (q : method) (body : rawBody) (m0 : Manager) (id : string) (m1 : Manager) (now : Z) (allowed : bool)
    (updated : PolicyMutation → Manager → result goerr unit * Manager) (later : Z) : response * Manager :=
  match beds m0 !! id with
  | None => (respondError 404 "BED_INVALID" (Text "bed not found"), m1)
  | Some p =>
      match BeginOperation m1 p OpControl DefaultOperationTimeout now allowed with
      | Err e => (respondBedError (managerError e), m1)
      | Ok m =>
          match policyMutation q body with
          | Err answer => (answer, finishOperation m p OpControl later)
          | Ok mutation =>
              let '(r, m) := updated mutation m in
              (match r with Err e => networkPolicyError e | Ok _ => success 200 end, finishOperation m p OpControl later)
          end
      end
  end.

(** A request asks for one kind of change at a time, and only a GET asks for none. *)
Lemma policy_request_single q body mu : policyMutation q body = Ok mu →
  match Replace mu, Merge mu, Remove mu with
  | None, None, None => q = GET
  | Some _, None, None => q = POST ∨ q = PUT
  | None, Some rules, None => q = PATCH ∧ rules ≠ []
  | None, None, Some targets => q = DELETE ∧ targets ≠ []
  | _, _, _ => False
  end.
Proof. unfold policyMutation. intros H. repeat case_match; simplify_eq/=; auto. Qed.
(** Without a body a policy is replaced by one that denies everything. *)
Lemma empty_policy_denies q s : blank s = true → q = POST ∨ q = PUT →
  policyMutation q (BodyRaw s) = Ok (mkMutation (Some (mkPolicy "deny" [])) None None).
Proof. intros Hs [-> | ->]; simpl; by rewrite Hs. Qed.
End NetworkPolicy.

(** ** What the answers say *)

Fixpoint wrapped (n : nat) (e : goerr) : goerr := match n with O => e | S n => Wrap (wrapped n e) end.
Lemma is_wrapped n e t : isError (wrapped n e) t = isError e t.
Proof. induction n; done. Qed.
Lemma cause_wrapped n e : CauseOf (wrapped n e) = CauseOf e.
Proof. induction n; done. Qed.
Lemma detail_wrapped n e : asDetail (wrapped n e) = asDetail e.
Proof. induction n; done. Qed.

(** Status, code and cause of the answer to an error of the manager. *)
Definition bedAnswer (e : merr) : Z * string * ErrorCause :=
  match e with
  | ErrNotFound => (404, "BED_INVALID", CauseUnknown)
  | ErrPillowsConflict => (409, "BED_INVALID", CauseUnknown)
  | ErrResourcePressure => (429, "RESOURCE_PRESSURE", CauseResource)
  | ErrBedLimit => (429, "BED_LIMIT_EXCEEDED", CauseResource)
  | ErrBedUnavailable | ErrBedPurging => (409, "BED_BUSY", CauseUnknown)
  | _ => (400, "BED_INVALID", CauseUnknown)
  end.
Definition kindOf (r : response) : Z * string * ErrorCause := (rStatus r, rCode r, rCause r).

(** An answer depends on an error only through its identities, its cause and its category. *)
Lemma respond_same e e' : (∀ t, isError e t = isError e' t) → CauseOf e = CauseOf e' → asDetail e = asDetail e' →
  kindOf (respondBedError e) = kindOf (respondBedError e').
Proof.
  intros Hi Hc Hd. unfold respondBedError. rewrite Hd, !Hi.
  repeat case_match; simplify_eq; unfold kindOf, respondFailure, respondError, badRequest; simpl; by rewrite ?Hc.
Qed.
Lemma respond_manager n e : kindOf (respondBedError (wrapped n (managerError e))) = bedAnswer e.
Proof.
  rewrite (respond_same _ (managerError e)); [by destruct e|..].
  - intros t. apply is_wrapped.
  - apply cause_wrapped.
  - apply detail_wrapped.
Qed.

Lemma respond_plain e : kindOf (respondBedError (managerError e)) = bedAnswer e.
Proof. apply (respond_manager 0). Qed.

(** Causes: a wrapper without evidence keeps the cause, evidence at a boundary stays, and
    joined errors have a cause only when all agree. *)
Lemma wrap_keeps_cause p k op e : CauseOf (WrapError p k op CauseUnknown (Some e)) = CauseOf e.
Proof. simpl. by destruct (evident (CauseOf e)). Qed.
Lemma join_all l c : l ≠ [] → (∀ x, x ∈ l → x = c) → ∀ acc, (acc = None ∨ acc = Some c) → joinCauses acc l = c.
Proof.
  induction l as [|x l IH]; intros Hl Hall acc Hacc; [done|].
  assert (x = c) as -> by (apply Hall; left).
  assert (joinCauses (Some c) l = c) as Hr.
  { destruct l; [done|]. apply IH; [done| |by right]. intros y Hy. apply Hall. by right. }
  simpl. destruct Hacc as [-> | ->]; [done|]. rewrite bool_decide_true by done. done.
Qed.
Lemma join_differ l : ∀ c x, x ∈ l → x ≠ c → joinCauses (Some c) l = CauseUnknown.
Proof.
  induction l as [|y l IH]; intros c x Hx Hne; [by apply elem_of_nil in Hx|].
  simpl. case_bool_decide as Hc; [|done]. subst.
  apply elem_of_cons in Hx as [-> |Hx]; [done|]. by apply (IH _ x).
Qed.
Lemma joined_cause l e e' : e ∈ l → e' ∈ l → CauseOf e ≠ CauseOf e' → CauseOf (Joined l) = CauseUnknown.
Proof.
  intros He He' Hne. simpl. destruct l as [|x l]; [by apply elem_of_nil in He|]. simpl.
  destruct (decide (CauseOf e = CauseOf x)) as [Heq|Hx].
  - apply (join_differ _ _ (CauseOf e')); [|congruence]. apply elem_of_cons in He' as [-> |He']; [congruence|].
    by apply list_elem_of_fmap_2.
  - apply (join_differ _ _ (CauseOf e)); [|done]. apply elem_of_cons in He as [-> |He]; [done|]. by apply list_elem_of_fmap_2.
Qed.

(** ** Access to a Bed

    Why a data request is refused, with the answer it gets. *)
Section Access.
Context (valid : string → bool) (kind : OperationKind) (r : bedRequest) (m0 : Manager)
        (waited : iref → result goerr bref) (m1 : Manager) (allowed : bool).
Notation name := (requestedName r).

(** The request names a Bed the manager lets it look for. *)
Definition looksUp : Prop := name ≠ "" ∧ valid name = true ∧ closed m0 = false ∧ purges m0 !! name = None.
(** The Bed the request works on. *)
Definition finds (p : bref) : Prop :=
  looksUp ∧ (beds m0 !! name = Some p ∨
    beds m0 !! name = None ∧ retirements m0 !! name = None ∧ ∃ i, initializations m0 !! name = Some i ∧ waited i = Ok p).
Definition servesNow (p : bref) : Prop :=
  closed m1 = false ∧ beds m1 !! nameOf p = Some p ∧ phaseOf m1 p.1 = PhaseResident ∧
  (HasMainProcesses (specOf m1 p.1) = true → Ready (lifeOf m1 p.1) = true ∨ kind = OpControl).

Inductive refusal : Z * string * ErrorCause → Prop :=
| RefuseUnnamed : name = "" → refusal (400, "INVALID_REQUEST_BODY", CauseRequest)
| RefuseInvalid : name ≠ "" → valid name = false → refusal (400, "BED_INVALID", CauseUnknown)
| RefuseClosed : name ≠ "" → valid name = true → closed m0 = true → refusal (409, "BED_BUSY", CauseUnknown)
| RefusePurging : name ≠ "" → valid name = true → closed m0 = false → is_Some (purges m0 !! name) →
    refusal (409, "BED_BUSY", CauseUnknown)
| RefuseRetiring : looksUp → beds m0 !! name = None → is_Some (retirements m0 !! name) →
    refusal (409, "BED_BUSY", CauseUnknown)
| RefuseUnknown : looksUp → beds m0 !! name = None → retirements m0 !! name = None → initializations m0 !! name = None →
    refusal (404, "BED_INVALID", CauseUnknown)
| RefuseFailed i e : looksUp → beds m0 !! name = None → retirements m0 !! name = None →
    initializations m0 !! name = Some i → waited i = Err e → refusal (kindOf (respondBedError e))
| RefuseBusy p : finds p → ¬ servesNow p → refusal (409, "BED_BUSY", CauseUnknown)
| RefusePressure p : finds p → servesNow p → pinnedLocked m1 p = false → allowed = false →
    refusal (429, "RESOURCE_PRESSURE", CauseResource).

Lemma begin_decides p now :
  match BeginOperation m1 p kind 0 now allowed with
  | Err ErrBedUnavailable => ¬ servesNow p
  | Err ErrResourcePressure => servesNow p ∧ pinnedLocked m1 p = false ∧ allowed = false
  | Err _ => False
  | Ok _ => servesNow p ∧ (pinnedLocked m1 p = true ∨ allowed = true)
  end.
Proof.
  unfold BeginOperation, servesNow, isCurrent, resourceAdmissionErrorLocked.
  destruct (closed m1); [rewrite orb_true_r; naive_solver|]. rewrite orb_false_r.
  case_bool_decide; simpl; [|naive_solver]. case_bool_decide; simpl; [|naive_solver].
  destruct (HasMainProcesses _), (Ready _); simpl; try (case_bool_decide; simpl);
    destruct (pinnedLocked m1 p), allowed; simpl; naive_solver.
Qed.
Lemma finds_decides :
  match bedOf valid (mkRequest None (reqHeader r) (reqQuery r)) m0 waited with
  | Ok p => finds p
  | Err a => refusal (kindOf a) ∧ ∀ p, ¬ finds p
  end.
Proof.
  unfold bedOf. simpl. change (requestedName _) with name. case_bool_decide as Hn.
  { split; [by constructor|]. intros p [[? _] _]. done. }
  unfold awaitBed, Ensure, looksUp. destruct (valid name) eqn:Hv; simpl.
  2: { split; [by constructor|]. intros p [(_ & ? & _) _]. congruence. }
  destruct (closed m0) eqn:Hc.
  { rewrite respond_plain. split; [by constructor|]. intros p [(_ & _ & ? & _) _]. congruence. }
  case_bool_decide as Hp.
  { rewrite respond_plain. split; [by constructor|]. intros p [(_ & _ & _ & Hnone) _]. rewrite Hnone in Hp. by destruct Hp. }
  apply eq_None_not_Some in Hp. assert looksUp as Hl by done.
  destruct (beds m0 !! name) as [p|] eqn:Hb; [by split; [|left]|].
  case_bool_decide as Hr.
  { rewrite respond_plain. split; [by constructor|]. intros p [_ [?|(_ & Hnone & _)]]; [congruence|].
    rewrite Hnone in Hr. by destruct Hr. }
  apply eq_None_not_Some in Hr. destruct (initializations m0 !! name) as [i|] eqn:Hi.
  2: { rewrite respond_plain. split; [by constructor|]. intros p [_ [?|(_ & _ & i & ? & _)]]; congruence. }
  destruct (waited i) as [p|e] eqn:Hw; [|split; [by econstructor|]].
  - split; [done|]. right. eauto.
  - intros p [_ [?|(_ & _ & j & ? & ?)]]; congruence.
Qed.
Lemma finds_one p p' : finds p → finds p' → p = p'.
Proof. intros [_ [?|(? & ? & i & ? & ?)]] [_ [?|(? & ? & j & ? & ?)]]; congruence. Qed.
Lemma finds_answer p : finds p → bedOf valid (mkRequest None (reqHeader r) (reqQuery r)) m0 waited = Ok p.
Proof.
  intros Hf. pose proof finds_decides as H. destruct (bedOf _ _ _ _) as [p'|a].
  - f_equal. by eapply finds_one.
  - destruct H as [_ H]. by destruct (H p).
Qed.
Lemma begin_busy p now : ¬ servesNow p → BeginOperation m1 p kind 0 now allowed = Err ErrBedUnavailable.
Proof. intros Hn. pose proof (begin_decides p now) as H. destruct (BeginOperation _ _ _ _ _ _) as [?|[]]; naive_solver. Qed.
Lemma begin_pressed p now : servesNow p → pinnedLocked m1 p = false → allowed = false →
  BeginOperation m1 p kind 0 now allowed = Err ErrResourcePressure.
Proof. intros Ha Hp Hno. pose proof (begin_decides p now) as H. destruct (BeginOperation _ _ _ _ _ _) as [?|[]]; try done.
  destruct H as [_ [H|H]]; congruence.
Qed.

Lemma refusal_sound now b :
  withOp valid kind (mkRequest None (reqHeader r) (reqQuery r)) m0 waited m1 now allowed = Err b → refusal (kindOf b).
Proof.
  unfold withOp. pose proof finds_decides as Hf. destruct (bedOf _ _ _ _) as [p|a]; [|intros [= <-]; by destruct Hf].
  pose proof (begin_decides p now) as Hb. destruct (BeginOperation _ _ _ _ _ _) as [?|e]; [done|]. intros [= <-].
  rewrite respond_plain. destruct e; try done; [by eapply RefuseBusy|]. destruct Hb as (? & ? & ?). by eapply RefusePressure.
Qed.
Lemma refusal_complete now a : refusal a → ∃ b,
  withOp valid kind (mkRequest None (reqHeader r) (reqQuery r)) m0 waited m1 now allowed = Err b ∧ kindOf b = a.
Proof.
  unfold withOp. destruct 1 as [Hn|Hn Hv|Hn Hv Hc|Hn Hv Hc Hp|(Hn & Hv & Hc & Hp) Hb Hr|(Hn & Hv & Hc & Hp) Hb Hr Hi
    |i e (Hn & Hv & Hc & Hp) Hb Hr Hi Hw|p Hf Hn|p Hf Ha Hpin Hno].
  8: { rewrite (finds_answer p), begin_busy by done. eexists. split; [done|]. apply respond_plain. }
  8: { rewrite (finds_answer p), begin_pressed by done. eexists. split; [done|]. apply respond_plain. }
  all: unfold bedOf, awaitBed, Ensure; simpl; change (requestedName _) with name.
  1: { rewrite bool_decide_true by done. by eexists. }
  all: rewrite (bool_decide_false (name = "")) by done; rewrite Hv; simpl; try rewrite Hc.
  1: by eexists.
  1: { eexists. split; [done|]. apply respond_plain. }
  1: { rewrite bool_decide_true by done. eexists. split; [done|]. apply respond_plain. }
  all: rewrite (bool_decide_false (is_Some _)) by (rewrite Hp; by intros [??]); rewrite Hb.
  1: { rewrite bool_decide_true by done. eexists. split; [done|]. apply respond_plain. }
  all: rewrite (bool_decide_false (is_Some _)) by (rewrite Hr; by intros [??]); rewrite Hi.
  - eexists. split; [done|]. apply respond_plain.
  - rewrite Hw. by eexists.
Qed.
End Access.

Definition emptyManager : Manager := NewManager 2 minute.
Example unknown_bed_answer : (kindOf <$> match withOp (λ _, true) OpFile (mkRequest None "" "alpha") emptyManager (λ _, Err (Plain "x")) emptyManager 0 true with Err b => Some b | Ok _ => None end)
  = Some (404, "BED_INVALID", CauseUnknown).
Proof. vm_compute. reflexivity. Qed.

(** The cause attached to an unknown Bed does not reach the client. *)
Lemma unknown_bed_drops_cause : CauseOf (managerError ErrNotFound) = CauseRequest ∧
  kindOf (respondBedError (managerError ErrNotFound)) = (404, "BED_INVALID", CauseUnknown).
Proof. by vm_compute. Qed.
(** A wrapper with a category of its own changes the answer. *)
Lemma category_changes_answer :
  kindOf (respondBedError (WrapError 9 KindNotFound "bed" CauseUnknown (Some (managerError ErrBedUnavailable)))) = (404, "BED_INVALID", CauseUnknown) ∧
  bedAnswer ErrBedUnavailable = (409, "BED_BUSY", CauseUnknown).
Proof. by vm_compute. Qed.

(** C35: A data request that names a Bed by header or query is refused exactly for one of the
    recorded reasons, each with its own status, code and cause, and whatever happens
    between the lookup and the admission: 400 when no name or no valid name is given, 404
    only when nothing of that name is resident, retiring, purging or declared, 409 while
    the identity is purged or retired, the daemon closes, or the Bed is not (yet) serving,
    429 only when the carrier is under pressure and the request would pin an unpinned Bed,
    and the error of a failed initialization otherwise; an admitted request
    works on the Bed of that name and has begun its operation.  An error of the
    manager gets the same answer under any number of context wrappers ([%w]; a wrapper with a
    category of its own, [WrapError], may change it), and the answer carries the cause of the error
    except for an unknown Bed, where the cause request that [Ensure] attached is dropped and
    unknown is answered.  A wrapper without evidence keeps the cause, and joined errors of
    different causes have none. *)
Theorem refusals_exact (valid : string → bool) kind header query m0 waited m1 now allowed :
  let r := mkRequest None header query in
  let answer := withOp valid kind r m0 waited m1 now allowed in
  (∀ a, (∃ b, answer = Err b ∧ kindOf b = a) ↔ refusal valid kind r m0 waited m1 allowed a) ∧
  (∀ p m, answer = Ok (p, m) →
    finds valid r m0 waited p ∧ servesNow kind m1 p ∧ BeginOperation m1 p kind 0 now allowed = Ok m) ∧
  (∀ n e, kindOf (respondBedError (wrapped n (managerError e))) = bedAnswer e) ∧
  (∀ e, rCause (respondBedError (managerError e)) =
     if decide (CauseOf (managerError e) = CauseRequest) then CauseUnknown else CauseOf (managerError e)) ∧
  (∀ p k op e, CauseOf (WrapError p k op CauseUnknown (Some e)) = CauseOf e) ∧
  (∀ l e e', e ∈ l → e' ∈ l → CauseOf e ≠ CauseOf e' → CauseOf (Joined l) = CauseUnknown).
Proof.
  intros r answer. split_and!.
  - intros a. split; [intros (b & Hb & <-); by eapply (refusal_sound valid kind r)|]. apply (refusal_complete valid kind r).
  - intros p m. subst answer. unfold withOp. pose proof (finds_decides valid kind r m0 waited m1 allowed) as Hf.
    change (mkRequest None (reqHeader r) (reqQuery r)) with r in Hf. destruct (bedOf _ _ _ _) as [p'|]; [|done].
    pose proof (begin_decides kind waited m1 allowed p' now) as Hb.
    destruct (BeginOperation m1 p' kind 0 now allowed) eqn:HB; [|done]. intros [= <- <-]. by destruct Hb.
  - apply respond_manager.
  - intros []; reflexivity.
  - intros. apply wrap_keeps_cause.
  - apply joined_cause.
Qed.
