(* ===== verification/McpProxy.v ===== *)
(** * McpProxy: the proxy to remote MCP servers of one Bed

    Models [pkg/mcpproxy]: the preparation of configurations ([config.go]: [prepare], with
    [os.Expand] and the canonical form of headers), the pool of connections ([proxy.go]:
    [run], [acquire], [release], [closeConnection], [reap], [Configure], [Close]) and its
    status.  What runs under a mutex is one step; what the gate of a connection protects is
    touched by its holder only.  Parameters are [url.Parse], the digest of a configuration,
    and whatever the remote side and the deadlines of calls decide. *)

From S2P Require Import Prelude Policy.

(** ** Configurations ([config.go]) *)

Record Server := mkServer { URL : string; Transport : string; Headers : gmap string string; TimeoutMS : Z }.
#[export] Instance Server_eq_dec : EqDecision Server.
Proof. solve_decision. Defined.
#[export] Instance Server_countable : Countable Server.
Proof.
  apply (inj_countable' (λ s, (URL s, Transport s, Headers s, TimeoutMS s))
    (λ '(u, t, h, n), mkServer u t h n)). by intros [].
Defined.
Record Bundle := mkBundle { Revision : string; Servers : gmap string Server; Secrets : gmap string string }.
Record preparedBundle := mkPrepared { revision : string; digestOf : string; servers : gmap string Server }.
Record parsedURL := mkURL { uScheme : string; uHost : string; uUser : bool; uFragment : string }.
Inductive mcp_err := ErrInvalid | ErrNotFoundServer | ErrCapacity | ErrClosed | ErrUpstream | ErrContext.
#[export] Instance mcp_err_eq_dec : EqDecision mcp_err.
Proof. solve_decision. Defined.

(** [os.Expand]. *)
Definition isShellSpecialVar (c : ascii) : bool := existsb (Ascii.eqb c) (to_list "*#$@!?-0123456789").
Definition isAlphaNum (c : ascii) : bool := Ascii.eqb c "_" || is_alnum c.
Fixpoint takeAlphaNum (s : list ascii) : list ascii :=
  match s with c :: s => if isAlphaNum c then c :: takeAlphaNum s else [] | [] => [] end.
Fixpoint toBrace (s : list ascii) : option (list ascii) :=
  match s with
  | [] => None
  | c :: s => if Ascii.eqb c "}" then Some [] else cons c <$> toBrace s
  end.
(** The name after a dollar and how many bytes it takes. *)
Definition getShellName (s : list ascii) : list ascii * nat :=
  match s with
  | [] => ([], 0%nat)
  | c :: r =>
      if Ascii.eqb c "{" then
        match r with
        | v :: b :: _ => if isShellSpecialVar v && Ascii.eqb b "}" then ([v], 3%nat)
                         else match toBrace r with
                         | Some [] => ([], 2%nat)
                         | Some name => (name, (length name + 2)%nat)
                         | None => ([], 1%nat)
                         end
        | _ => match toBrace r with
               | Some [] => ([], 2%nat)
               | Some name => (name, (length name + 2)%nat)
               | None => ([], 1%nat)
               end
        end
      else if isShellSpecialVar c then ([c], 1%nat)
      else let name := takeAlphaNum s in (name, length name)
  end.
(** The expansion and the names it asked for; each round consumes a byte, so the length
    of the text is enough fuel. *)
Fixpoint expandLoop (fuel : nat) (mapping : string → string) (s : list ascii) : list ascii * list string :=
  match fuel, s with
  | S fuel, c :: r =>
      if Ascii.eqb c "$" && negb (bool_decide (r = [])) then
        let '(name, w) := getShellName r in
        let '(out, names) := expandLoop fuel mapping (drop w r) in
        match name, w with
        | [], O => (c :: out, names)
        | [], S _ => (out, names)
        | _, _ => (to_list (mapping (of_list name)) ++ out, of_list name :: names)
        end
      else let '(out, names) := expandLoop fuel mapping r in (c :: out, names)
  | _, _ => ([], [])
  end.
Definition Expand (mapping : string → string) (s : string) : string * list string :=
  let '(out, names) := expandLoop (String.length s) mapping (to_list s) in (of_list out, names).

(** [http.CanonicalHeaderKey]. *)
Definition tokenByte (c : ascii) : bool := is_alnum c || existsb (Ascii.eqb c) (to_list "!#$%&'*+-.^_`|~").
Definition upperByte (c : ascii) : ascii := if is_lower c then ascii_of_N (Z.to_N (byte c - 32)) else c.
Fixpoint canonicalLoop (upper : bool) (s : list ascii) : list ascii :=
  match s with
  | [] => []
  | c :: s => (if upper then upperByte c else lowerByte c) :: canonicalLoop (Ascii.eqb c "-") s
  end.
Definition CanonicalHeaderKey (s : string) : string :=
  if forallb tokenByte (to_list s) then of_list (canonicalLoop true (to_list s)) else s.

Definition isBlank (s : string) : bool := bool_decide (TrimSpace (to_list s) = []).
Definition containsAny (s : string) (codes : list Z) : bool := existsb (λ b, contains_byte b s) codes.
(** One header of a server: the value is expanded from the secrets of the bundle. *)
Definition prepareHeader (secrets : gmap string string) (acc : gmap string string * bool) (kv : string * string)
  : result mcp_err (gmap string string * bool) :=
  let '(headers, missing) := acc in
  let '(expanded, names) := Expand (λ name, default "" (secrets !! name)) kv.2 in
  let missing := missing || existsb (λ name, bool_decide (secrets !! name = None)) names in
  if containsAny expanded [13; 10] || bool_decide (kv.1 = "") || containsAny kv.1 [13; 10; 58] then Err ErrInvalid
  else if bool_decide (is_Some (headers !! CanonicalHeaderKey kv.1)) then Err ErrInvalid
  else Ok (<[CanonicalHeaderKey kv.1 := expanded]> headers, missing).
Fixpoint prepareHeaders (secrets : gmap string string) (acc : gmap string string * bool) (l : list (string * string))
  : result mcp_err (gmap string string) :=
  match l with
  | [] => if acc.2 then Err ErrInvalid else Ok acc.1
  | kv :: l => match prepareHeader secrets acc kv with Err e => Err e | Ok acc => prepareHeaders secrets acc l end
  end.
Section Prepare.
Context (parseURL : string → option parsedURL) (digest : gmap string Server → string).
Definition prepareServer (secrets : gmap string string) (ns : string * Server) : result mcp_err (string * Server) :=
  let '(name, server) := ns in
  match parseURL (URL server) with
  | None => Err ErrInvalid
  | Some u =>
      if isBlank name || bool_decide (uHost u = "") ||
         negb (bool_decide (uScheme u = "http") || bool_decide (uScheme u = "https")) || uUser u || negb (bool_decide (uFragment u = ""))
      then Err ErrInvalid
      else
        let transport := if bool_decide (Transport server = "") then "streamable_http" else Transport server in
        if negb (bool_decide (transport = "sse") || bool_decide (transport = "streamable_http")) then Err ErrInvalid
        else if TimeoutMS server <? 0 then Err ErrInvalid
        else headers <-! prepareHeaders secrets (∅, false) (map_to_list (Headers server));
             Ok (name, mkServer (URL server) transport headers (TimeoutMS server))
  end.
Definition prepare (bundle : Bundle) (max : Z) : result mcp_err preparedBundle :=
  if isBlank (Revision bundle) || (max <? Z.of_nat (size (Servers bundle))) then Err ErrInvalid
  else l <-! res_map (prepareServer (Secrets bundle)) (map_to_list (Servers bundle));
       let ss : gmap string Server := list_to_map l in
       Ok (mkPrepared (Revision bundle) (digest ss) ss).
End Prepare.

(** ** The pool ([proxy.go]) *)

Record connectionKey := mkKey { kRevision : string; kDigest : string; kServer : string }.
#[export] Instance connectionKey_eq_dec : EqDecision connectionKey.
Proof. solve_decision. Defined.
#[export] Instance connectionKey_countable : Countable connectionKey.
Proof. apply (inj_countable' (λ k, (kRevision k, kDigest k, kServer k)) (λ '(r, d, s), mkKey r d s)). by intros []. Defined.

(** A connection: whether its gate is taken, its client, how many calls hold it and when it
    was used last.  [cnKey] is the key it is made for, which the source does not keep. *)
Record connection := mkConnection { cnKey : connectionKey; gateHeld : bool; client : option Z; refs : Z; used : Z }.
Record Options := mkOptions { OptTimeout : Z; IdleTimeout : Z; MaxConnections : Z }.
Definition withDefaults (o : Options) : Options :=
  mkOptions (if OptTimeout o <=? 0 then 30 * second else OptTimeout o)
            (if IdleTimeout o <=? 0 then 300 * second else IdleTimeout o)
            (if MaxConnections o <=? 0 then 32 else MaxConnections o).
(** [connections] maps keys to pointers into [heap]; [ctxDone] is [p.ctx.Err() != nil]. *)
Record Proxy := mkProxy { opts : Options; current : preparedBundle; connections : gmap connectionKey Z; ctxDone : bool; heap : gmap Z connection }.
Definition NewProxy (o : Options) : Proxy := mkProxy (withDefaults o) (mkPrepared "" "" ∅) ∅ false ∅.

Definition withCurrent (p : Proxy) x : Proxy := mkProxy (opts p) x (connections p) (ctxDone p) (heap p).
Definition withConnections (p : Proxy) x : Proxy := mkProxy (opts p) (current p) x (ctxDone p) (heap p).
Definition withHeap (p : Proxy) x : Proxy := mkProxy (opts p) (current p) (connections p) (ctxDone p) x.
Definition withEntry (p : Proxy) (e : Z) (f : connection → connection) : Proxy :=
  withHeap p (alter f e (heap p)).
Definition withGate (b : bool) (c : connection) : connection := mkConnection (cnKey c) b (client c) (refs c) (used c).
Definition withClient (x : option Z) (c : connection) : connection := mkConnection (cnKey c) (gateHeld c) x (refs c) (used c).
Definition withRefs (n : Z) (c : connection) : connection := mkConnection (cnKey c) (gateHeld c) (client c) n (used c).
Definition withUsed (t : Z) (c : connection) : connection := mkConnection (cnKey c) (gateHeld c) (client c) (refs c) t.

Section Pool.
Context (parseURL : string → option parsedURL) (digest : gmap string Server → string).

Definition Configure (p : Proxy) (b : Bundle) : result mcp_err (bool * Proxy) :=
  prepared <-! prepare parseURL digest b (MaxConnections (opts p));
  if ctxDone p then Err ErrClosed
  else Ok (negb (bool_decide (revision (current p) = revision prepared)) || negb (bool_decide (digestOf (current p) = digestOf prepared)),
           withCurrent p prepared).
(** The selection of [run]: the configuration of the call or the default, the server, the
    time the call may take and the key of its connection. *)
Definition callTimeout (p : Proxy) (s : Server) : Z :=
  if (0 <? TimeoutMS s) && (TimeoutMS s <? OptTimeout (opts p) `quot` 10 ^ 6) then TimeoutMS s * 10 ^ 6 else OptTimeout (opts p).
Definition runSelect (p : Proxy) (name : string) (bundle : option Bundle) : result mcp_err (connectionKey * Server * Z) :=
  if ctxDone p then Err ErrClosed
  else selected <-! match bundle with Some b => prepare parseURL digest b (MaxConnections (opts p)) | None => Ok (current p) end;
       match servers selected !! name with
       | None => Err ErrNotFoundServer
       | Some s => Ok (mkKey (revision selected) (digestOf selected) name, s, callTimeout p s)
       end.

Definition connectionOf (p : Proxy) (e : Z) : connection := default (mkConnection (mkKey "" "" "") false None 0 0) (heap p !! e).
(** The idle connection used least recently, in the order the map is walked. *)
Fixpoint oldestIdle (p : Proxy) (best : option (connectionKey * Z)) (order : list (connectionKey * Z)) : option (connectionKey * Z) :=
  match order with
  | [] => best
  | (k, e) :: order =>
      let better := match best with None => true | Some (_, b) => used (connectionOf p e) <? used (connectionOf p b) end in
      oldestIdle p (if (refs (connectionOf p e) =? 0) && better then Some (k, e) else best) order
  end.
(** [acquire]: the connection, a connection to close, and the pool; [fresh] is where a new
    connection is allocated. *)
Definition acquire (p : Proxy) (key : connectionKey) (order : list (connectionKey * Z)) (fresh now : Z)
  : result mcp_err (Z * option Z * Proxy) :=
  if ctxDone p then Err ErrClosed
  else match connections p !! key with
  | Some e => Ok (e, None, withEntry p e (λ c, withRefs (refs c + 1) c))
  | None =>
      let add p := withConnections (withHeap p (<[fresh := mkConnection key false None 1 now]> (heap p))) (<[key := fresh]> (connections p)) in
      if MaxConnections (opts p) <=? Z.of_nat (size (connections p)) then
        match oldestIdle p None order with
        | None => Err ErrCapacity
        | Some (k, e) => Ok (fresh, Some e, add (withConnections p (delete k (connections p))))
        end
      else Ok (fresh, None, add p)
  end.
(** [release]: whether the connection is to be closed, too. *)
Definition release (p : Proxy) (e : Z) (now : Z) : Proxy * bool :=
  (withEntry p e (λ c, withUsed now (withRefs (refs c - 1) c)), ctxDone p).
(** The idle connections a tick of [reap] takes out. *)
Definition isStale (p : Proxy) (now : Z) (e : Z) : bool :=
  (refs (connectionOf p e) =? 0) && (IdleTimeout (opts p) <=? now - used (connectionOf p e)).
Definition reapTick (p : Proxy) (now : Z) : Proxy * list Z :=
  (withConnections p (filter (λ ke, isStale p now ke.2 = false) (connections p)),
   (map_to_list (filter (λ ke, isStale p now ke.2 = true) (connections p))).*2).
(** [Close] once the reaper has ended. *)
Definition takeAll (p : Proxy) : Proxy * list Z :=
  (withCurrent (withConnections p ∅) (mkPrepared "" "" ∅), (map_to_list (connections p)).*2).
Record ProxyStatus := mkProxyStatus { psClosed : bool; psConfigured : Z; psEntries : Z; psActive : Z }.
Definition StatusOf (p : Proxy) : ProxyStatus :=
  mkProxyStatus (ctxDone p) (Z.of_nat (size (servers (current p)))) (Z.of_nat (size (connections p)))
    (foldr (λ ke n, refs (connectionOf p ke.2) + n) 0 (map_to_list (connections p))).

(** ** Calls, the reaper and [Close]

    A call of [run] holds its connection from [acquire] to [release], and its gate while it
    connects and uses the client.  [MEvicting] is the end of [acquire], which closes the
    connection it displaced; [MClosing] is the end of [release] on a closed proxy. *)
Inductive mcp_pc :=
| MSelected (k : connectionKey) (s : Server)
| MEvicting (e : Z) (s : Server) (x : Z)
| MWaiting (e : Z) (s : Server)
| MHolding (e : Z) (s : Server)
| MUsing (e : Z) (s : Server) (c : Z)
| MUnlocking (e : Z)
| MReleasing (e : Z)
| MClosing (e : Z).
Inductive reap_pc := RIdle | RClosing (l : list Z) | RExited.
Inductive close_pc := CNone | CWait | CClosing (l : list Z) | CDone.
(** [clients] are those ever connected, the server they talk to and whether they are open. *)
Record mcpWorld := mkMcp {
  proxy : Proxy; clients : gmap Z (Server * bool); calls : gmap Z mcp_pc; reaper : reap_pc; closer : close_pc; mcpNext : Z }.
Definition newMcp (o : Options) : mcpWorld := mkMcp (NewProxy o) ∅ ∅ RIdle CNone 0.
Definition setProxy (w : mcpWorld) x : mcpWorld := mkMcp x (clients w) (calls w) (reaper w) (closer w) (mcpNext w).
Definition setClients (w : mcpWorld) x : mcpWorld := mkMcp (proxy w) x (calls w) (reaper w) (closer w) (mcpNext w).
Definition setCalls (w : mcpWorld) x : mcpWorld := mkMcp (proxy w) (clients w) x (reaper w) (closer w) (mcpNext w).
Definition setReaper (w : mcpWorld) x : mcpWorld := mkMcp (proxy w) (clients w) (calls w) x (closer w) (mcpNext w).
Definition setCloser (w : mcpWorld) x : mcpWorld := mkMcp (proxy w) (clients w) (calls w) (reaper w) x (mcpNext w).
Definition bumpNext (w : mcpWorld) : mcpWorld := mkMcp (proxy w) (clients w) (calls w) (reaper w) (closer w) (mcpNext w + 1).
Definition goto (w : mcpWorld) (th : Z) (p : mcp_pc) : mcpWorld := setCalls w (<[th := p]> (calls w)).
Definition return_ (w : mcpWorld) (th : Z) : mcpWorld := setCalls w (delete th (calls w)).
Definition updateEntry (w : mcpWorld) (e : Z) (f : connection → connection) : mcpWorld := setProxy w (withEntry (proxy w) e f).
Definition entryOf (w : mcpWorld) (e : Z) : connection := connectionOf (proxy w) e.

Definition shutClient (w : mcpWorld) (c : option Z) : mcpWorld :=
  setClients w (match c with Some c => alter (λ so, (so.1, false)) c (clients w) | None => clients w end).
(** The body of [closeConnection] under the gate, and what [run] does after a failed call. *)
Definition shut (w : mcpWorld) (e : Z) : mcpWorld :=
  updateEntry (shutClient w (client (entryOf w e))) e (withClient None).
(** [closeConnection]: it waits for the gate. *)
Definition closeConnection (w : mcpWorld) (e : Z) : option mcpWorld :=
  if gateHeld (entryOf w e) then None else Some (shut w e).
(** [connect] succeeds: a client of that server. *)
Definition connect (w : mcpWorld) (e : Z) (s : Server) : mcpWorld :=
  bumpNext (updateEntry (setClients w (<[mcpNext w := (s, true)]> (clients w))) e (withClient (Some (mcpNext w)))).

Inductive mcp_step : mcpWorld → mcpWorld → Prop :=
| m_configure w b changed p : Configure (proxy w) b = Ok (changed, p) → mcp_step w (setProxy w p)
| m_call w name bundle k s t : runSelect (proxy w) name bundle = Ok (k, s, t) →
    mcp_step w (bumpNext (goto w (mcpNext w) (MSelected k s)))
| m_acquire w th k s order now e x p : calls w !! th = Some (MSelected k s) → order ≡ₚ map_to_list (connections (proxy w)) →
    acquire (proxy w) k order (mcpNext w) now = Ok (e, x, p) →
    mcp_step w (bumpNext (goto (setProxy w p) th (match x with Some x => MEvicting e s x | None => MWaiting e s end)))
| m_refused w th k s order now err : calls w !! th = Some (MSelected k s) → order ≡ₚ map_to_list (connections (proxy w)) →
    acquire (proxy w) k order (mcpNext w) now = Err err → mcp_step w (return_ w th)
| m_evict w th e s x w' : calls w !! th = Some (MEvicting e s x) → closeConnection w x = Some w' → mcp_step w (goto w' th (MWaiting e s))
| m_enter w th e s : calls w !! th = Some (MWaiting e s) → gateHeld (entryOf w e) = false →
    mcp_step w (goto (updateEntry w e (withGate true)) th (MHolding e s))
| m_late w th e s : calls w !! th = Some (MWaiting e s) → mcp_step w (goto w th (MReleasing e))
| m_abandon w th e s : calls w !! th = Some (MHolding e s) → mcp_step w (goto w th (MUnlocking e))
| m_connect w th e s : calls w !! th = Some (MHolding e s) → client (entryOf w e) = None →
    mcp_step w (goto (connect w e s) th (MUsing e s (mcpNext w)))
| m_reuse w th e s c : calls w !! th = Some (MHolding e s) → client (entryOf w e) = Some c → mcp_step w (goto w th (MUsing e s c))
| m_done w th e s c : calls w !! th = Some (MUsing e s c) → mcp_step w (goto w th (MUnlocking e))
| m_failed w th e s c : calls w !! th = Some (MUsing e s c) → mcp_step w (goto (shut w e) th (MUnlocking e))
| m_unlock w th e : calls w !! th = Some (MUnlocking e) → mcp_step w (goto (updateEntry w e (withGate false)) th (MReleasing e))
| m_release w th e now p : calls w !! th = Some (MReleasing e) → release (proxy w) e now = (p, false) →
    mcp_step w (return_ (setProxy w p) th)
| m_release_closed w th e now p : calls w !! th = Some (MReleasing e) → release (proxy w) e now = (p, true) →
    mcp_step w (goto (setProxy w p) th (MClosing e))
| m_closing w th e w' : calls w !! th = Some (MClosing e) → closeConnection w e = Some w' → mcp_step w (return_ w' th)
| m_tick w now p l : reaper w = RIdle → reapTick (proxy w) now = (p, l) → mcp_step w (setReaper (setProxy w p) (RClosing l))
| m_reap w x l w' : reaper w = RClosing (x :: l) → closeConnection w x = Some w' → mcp_step w (setReaper w' (RClosing l))
| m_reaped w : reaper w = RClosing [] → mcp_step w (setReaper w RIdle)
| m_reaper_ends w : reaper w = RIdle → ctxDone (proxy w) = true → mcp_step w (setReaper w RExited)
| m_cancel w : closer w = CNone →
    mcp_step w (setCloser (setProxy w (mkProxy (opts (proxy w)) (current (proxy w)) (connections (proxy w)) true (heap (proxy w)))) CWait)
| m_take w p l : closer w = CWait → reaper w = RExited → takeAll (proxy w) = (p, l) → mcp_step w (setCloser (setProxy w p) (CClosing l))
| m_shut w x l w' : closer w = CClosing (x :: l) → closeConnection w x = Some w' → mcp_step w (setCloser w' (CClosing l))
| m_closed w : closer w = CClosing [] → mcp_step w (setCloser w CDone).
Inductive mcp_reach (o : Options) : mcpWorld → Prop :=
| mr_new : mcp_reach o (newMcp o)
| mr_step w w' : mcp_reach o w → mcp_step w w' → mcp_reach o w'.
End Pool.
