(* ===== verification/McpSafety.v ===== *)
(** * McpSafety: the MCP proxy under every interleaving

    The invariant of the world of [McpProxy] and what follows: the pool is bounded, a call
    talks to the server it selected through a client no other call uses, and a closed proxy
    leaves no client open. *)

From stdpp Require Import pretty.
From S2P Require Import Prelude Policy McpProxy.

Section Safety.
Context (parseURL : string → option parsedURL) (digest : gmap string Server → string).
Implicit Types (w : mcpWorld) (p : Proxy) (c : connection).
Local Notation step := (mcp_step parseURL digest).

(** The connection a call holds, the one whose gate it holds, and the server it is for. *)
Definition holdsOf (q : mcp_pc) : option Z :=
  match q with
  | MEvicting e _ _ | MWaiting e _ | MHolding e _ | MUsing e _ _ | MUnlocking e | MReleasing e => Some e
  | MSelected _ _ | MClosing _ => None
  end.
Definition gateOf (q : mcp_pc) : option Z :=
  match q with MHolding e _ | MUsing e _ _ | MUnlocking e => Some e | _ => None end.
Definition servesOf (q : mcp_pc) : option (Z * Server) :=
  match q with MEvicting e s _ | MWaiting e s | MHolding e s | MUsing e s _ => Some (e, s) | _ => None end.
(** A key stands for a server of a configuration with its digest. *)
Definition keyed (k : connectionKey) (s : Server) : Prop := ∃ ss, digest ss = kDigest k ∧ ss !! kServer k = Some s.
Definition holders w (e : Z) : Z := map_count (λ q, bool_decide (holdsOf q = Some e)) (calls w).
(** Who will still close the client of a connection. *)
Definition owned w (e : Z) : Prop :=
  (∃ k, connections (proxy w) !! k = Some e) ∨
  (∃ th f s, calls w !! th = Some (MEvicting f s e)) ∨
  (∃ th, calls w !! th = Some (MClosing e)) ∨
  (∃ l, reaper w = RClosing l ∧ e ∈ l) ∨ (∃ l, closer w = CClosing l ∧ e ∈ l) ∨
  (ctxDone (proxy w) = true ∧ ∃ th q, calls w !! th = Some q ∧ holdsOf q = Some e).

(** [pend] are connections a step has taken out and not yet handed to their closer. *)
Record mcp_inv (pend : list Z) w : Prop := {
  mi_ids : (∀ e c, heap (proxy w) !! e = Some c → e < mcpNext w) ∧ (∀ x s, clients w !! x = Some s → x < mcpNext w) ∧
           (∀ th q, calls w !! th = Some q → th < mcpNext w);
  mi_size : Z.of_nat (size (connections (proxy w))) <= MaxConnections (opts (proxy w));
  mi_conn : ∀ k e, connections (proxy w) !! k = Some e → ∃ c, heap (proxy w) !! e = Some c ∧ cnKey c = k;
  mi_held : ∀ th q e, calls w !! th = Some q → holdsOf q = Some e → ∃ c, heap (proxy w) !! e = Some c ∧
            (connections (proxy w) !! cnKey c = Some e ∨ ctxDone (proxy w) = true);
  mi_refs : ∀ e c, heap (proxy w) !! e = Some c → refs c = holders w e;
  mi_gate : ∀ th q e, calls w !! th = Some q → gateOf q = Some e → gateHeld (entryOf w e) = true;
  mi_one : ∀ th th' q q' e, calls w !! th = Some q → calls w !! th' = Some q' → gateOf q = Some e → gateOf q' = Some e → th = th';
  mi_serves : ∀ th q e s, calls w !! th = Some q → servesOf q = Some (e, s) → keyed (cnKey (entryOf w e)) s;
  mi_selected : ∀ th k s, calls w !! th = Some (MSelected k s) → keyed k s;
  mi_current : ∀ n s, servers (current (proxy w)) !! n = Some s → digestOf (current (proxy w)) = digest (servers (current (proxy w)));
  mi_client : ∀ e c x, heap (proxy w) !! e = Some c → client c = Some x → ∃ s, clients w !! x = Some (s, true) ∧ keyed (cnKey c) s;
  mi_distinct : ∀ e e' c c' x, heap (proxy w) !! e = Some c → heap (proxy w) !! e' = Some c' →
            client c = Some x → client c' = Some x → e = e';
  mi_open : ∀ x s, clients w !! x = Some (s, true) → ∃ e c, heap (proxy w) !! e = Some c ∧ client c = Some x;
  mi_using : ∀ th e s x, calls w !! th = Some (MUsing e s x) → client (entryOf w e) = Some x;
  mi_owned : ∀ e c x, heap (proxy w) !! e = Some c → client c = Some x → e ∈ pend ∨ owned w e;
  mi_closer : (closer w ≠ CNone → ctxDone (proxy w) = true) ∧ (reaper w = RExited → ctxDone (proxy w) = true) ∧
            (match closer w with CClosing _ | CDone => connections (proxy w) = ∅ ∧ reaper w = RExited | _ => True end) }.

Lemma entry_some w e c : heap (proxy w) !! e = Some c → entryOf w e = c.
Proof. intros H. unfold entryOf, connectionOf. by rewrite H. Qed.
Lemma holders_goto w th q q' e : calls w !! th = Some q →
  holders (goto w th q') e = holders w e - b2z (bool_decide (holdsOf q = Some e)) + b2z (bool_decide (holdsOf q' = Some e)).
Proof. intros H. unfold holders, goto. simpl. rewrite map_count_insert, (map_count_delete _ _ _ q) by done. done. Qed.
Lemma holders_return w th q e : calls w !! th = Some q →
  holders (return_ w th) e = holders w e - b2z (bool_decide (holdsOf q = Some e)).
Proof. intros H. unfold holders, return_. simpl. by rewrite (map_count_delete _ _ _ q). Qed.
Lemma held_counted w th q e : calls w !! th = Some q → holdsOf q = Some e → 0 < holders w e.
Proof.
  intros H Hq. unfold holders. rewrite <-(insert_delete_id _ _ _ H), map_count_insert, delete_delete_eq.
  rewrite bool_decide_true by done. simpl. pose proof (map_count_nonneg (λ q, bool_decide (holdsOf q = Some e)) (delete th (calls w))). lia.
Qed.

(** [oldestIdle] takes an idle connection of the pool. *)
Lemma oldest_idle p order : ∀ best r, oldestIdle p best order = Some r →
  (best = Some r) ∨ (r ∈ order ∧ refs (connectionOf p r.2) = 0).
Proof.
  induction order as [|[k e] order IH]; intros best r Hr; simpl in Hr; [by left|].
  apply IH in Hr as [Hr|[Hr ?]]; [|right; split; [by right|done]].
  case_match eqn:Hc; [|by left]. reflect_bools. simplify_eq. right. split; [by left|done].
Qed.
Definition addEntry p (conns : gmap connectionKey Z) (key : connectionKey) (fresh now : Z) : Proxy :=
  withConnections (withHeap p (<[fresh := mkConnection key false None 1 now]> (heap p))) (<[key := fresh]> conns).
(** The three ways [acquire] succeeds. *)
Lemma acquire_cases p k order fresh now e x p' : order ≡ₚ map_to_list (connections p) →
  acquire p k order fresh now = Ok (e, x, p') → ctxDone p = false ∧
  ((connections p !! k = Some e ∧ x = None ∧ p' = withEntry p e (λ c, withRefs (refs c + 1) c)) ∨
   (connections p !! k = None ∧ e = fresh ∧ x = None ∧ Z.of_nat (size (connections p)) < MaxConnections (opts p) ∧
    p' = addEntry p (connections p) k fresh now) ∨
   (∃ k' x', connections p !! k = None ∧ e = fresh ∧ x = Some x' ∧ connections p !! k' = Some x' ∧ refs (connectionOf p x') = 0 ∧
    p' = addEntry p (delete k' (connections p)) k fresh now)).
Proof.
  intros Ho. unfold acquire. destruct (ctxDone p); [done|]. intros H. split; [done|].
  destruct (connections p !! k) as [f|] eqn:Hk; [simplify_eq; by left|]. right.
  case_match eqn:Hm; reflect_bools.
  - destruct (oldestIdle p None order) as [[k' x']|] eqn:Hold; [|done]. simplify_eq. right.
    apply oldest_idle in Hold as [|[Hin Hr]]; [done|]. rewrite Ho in Hin. apply elem_of_map_to_list in Hin. eauto 10.
  - simplify_eq. left. eauto 10.
Qed.
Lemma close_connection w e w' : closeConnection w e = Some w' → gateHeld (entryOf w e) = false ∧ w' = shut w e.
Proof. unfold closeConnection. case_match; naive_solver. Qed.

(** ** Preservation

    [role_ok] is what the invariant asks of one call. *)
Record role_ok w (th : Z) (q : mcp_pc) : Prop := {
  ro_id : th < mcpNext w;
  ro_held : ∀ e, holdsOf q = Some e → ∃ c, heap (proxy w) !! e = Some c ∧
            (connections (proxy w) !! cnKey c = Some e ∨ ctxDone (proxy w) = true);
  ro_gate : ∀ e, gateOf q = Some e → gateHeld (entryOf w e) = true ∧
            ∀ th' q', th' ≠ th → calls w !! th' = Some q' → gateOf q' ≠ Some e;
  ro_serves : ∀ e s, servesOf q = Some (e, s) → keyed (cnKey (entryOf w e)) s;
  ro_selected : ∀ k s, q = MSelected k s → keyed k s;
  ro_using : ∀ e s x, q = MUsing e s x → client (entryOf w e) = Some x }.
Lemma role_of pend w th q : mcp_inv pend w → calls w !! th = Some q → role_ok w th q.
Proof.
  intros I H. split; [exact (proj2 (proj2 (mi_ids _ _ I)) _ _ H)|intros e; by apply (mi_held _ _ I th)| |intros e s; by apply (mi_serves _ _ I th)
    |intros k s ->; by eapply (mi_selected _ _ I)|intros e s x ->; by eapply (mi_using _ _ I)].
  intros e He. split; [by eapply (mi_gate _ _ I)|]. intros th' q' Hne H' He'. apply Hne. by eapply (mi_one _ _ I).
Qed.

(** One call moves, the counts of references follow, and nothing else of the pool changes. *)
Lemma mcpi_frame pend pend' w w' th (g : Z → connection → connection) :
  mcp_inv pend w →
  (∀ e c, cnKey (g e c) = cnKey c ∧ gateHeld (g e c) = gateHeld c ∧ client (g e c) = client c) →
  proxy w' = withHeap (proxy w) (map_imap (λ e c, Some (g e c)) (heap (proxy w))) →
  clients w' = clients w → mcpNext w <= mcpNext w' →
  (∀ th' q, th' ≠ th → calls w' !! th' = Some q → calls w !! th' = Some q) →
  (∀ q, calls w' !! th = Some q → role_ok (setCalls (setProxy w' (proxy w)) (calls w)) th q) →
  (∀ e c, heap (proxy w) !! e = Some c → refs (g e c) - refs c = holders w' e - holders w e) →
  (∀ e c x, heap (proxy w) !! e = Some c → client c = Some x → e ∈ pend ∨ owned w e → e ∈ pend' ∨ owned w' e) →
  (closer w' ≠ CNone → ctxDone (proxy w') = true) ∧ (reaper w' = RExited → ctxDone (proxy w') = true) ∧
  (match closer w' with CClosing _ | CDone => connections (proxy w') = ∅ ∧ reaper w' = RExited | _ => True end) →
  mcp_inv pend' w'.
Proof.
  intros I Hg Hp Hcl Hn Hrest Hth Hrefs Hown Hclose.
  assert (∀ e, heap (proxy w') !! e = g e <$> heap (proxy w) !! e) as Hh.
  { intros e. rewrite Hp. simpl. rewrite map_lookup_imap. by destruct (heap (proxy w) !! e). }
  assert (∀ e, cnKey (entryOf w' e) = cnKey (entryOf w e) ∧ gateHeld (entryOf w' e) = gateHeld (entryOf w e) ∧
    client (entryOf w' e) = client (entryOf w e)) as He.
  { intros e. unfold entryOf, connectionOf. rewrite Hh. destruct (heap (proxy w) !! e); simpl; [apply Hg|done]. }
  assert (∀ th' q, calls w' !! th' = Some q → role_ok (setCalls (setProxy w' (proxy w)) (calls w)) th' q) as Hrole.
  { intros th' q H. destruct (decide (th' = th)) as [-> |Hne]; [by apply Hth|].
    destruct (role_of _ _ _ _ I (Hrest _ _ Hne H)) as [Hid H1 H2 H3 H4 H5]. split; try done. simpl. lia. }
  split.
  - split_and!.
    + intros e c. rewrite Hh. intros (c0 & Hc & _)%fmap_Some. pose proof (proj1 (mi_ids _ _ I) _ _ Hc). lia.
    + intros x s. rewrite Hcl. intros Hx. pose proof (proj1 (proj2 (mi_ids _ _ I)) _ _ Hx). lia.
    + intros th' q H. apply (ro_id _ _ _ (Hrole _ _ H)).
  - rewrite Hp. apply (mi_size _ _ I).
  - intros k e. rewrite Hh. rewrite Hp. simpl. intros (c & Hc & Hk)%(mi_conn _ _ I). rewrite Hc. exists (g e c). split; [done|].
    by rewrite (proj1 (Hg e c)).
  - intros th' q e H Hq. destruct (ro_held _ _ _ (Hrole _ _ H) _ Hq) as (c & Hc & Hor). simpl in *. exists (g e c).
    rewrite Hh, Hc. split; [done|]. rewrite (proj1 (Hg e c)), Hp. done.
  - intros e c. rewrite Hh. intros (c0 & Hc & ->)%fmap_Some. pose proof (Hrefs _ _ Hc). pose proof (mi_refs _ _ I _ _ Hc). lia.
  - intros th' q e H Hq. rewrite (proj1 (proj2 (He e))). apply (ro_gate _ _ _ (Hrole _ _ H) _ Hq).
  - intros t1 t2 q1 q2 e H1 H2 E1 E2. destruct (decide (t1 = t2)) as [|Hne]; [done|exfalso].
    destruct (decide (t2 = th)) as [-> |Hn2].
    + apply (proj2 (ro_gate _ _ _ (Hrole _ _ H2) _ E2) t1 q1); [done| |done]. simpl. apply Hrest; [done|done].
    + apply (proj2 (ro_gate _ _ _ (Hrole _ _ H1) _ E1) t2 q2); [done| |done]. simpl. apply Hrest; [done|done].
  - intros th' q e s H Hq. rewrite (proj1 (He e)). apply (ro_serves _ _ _ (Hrole _ _ H) _ _ Hq).
  - intros th' k s H. by apply (ro_selected _ _ _ (Hrole _ _ H)).
  - rewrite Hp. apply (mi_current _ _ I).
  - intros e c x. rewrite Hh, Hcl. intros (c0 & Hc & ->)%fmap_Some. destruct (Hg e c0) as (-> & _ & ->). by eapply (mi_client _ _ I).
  - intros e e' c c' x. rewrite !Hh. intros (c0 & Hc & ->)%fmap_Some (c1 & Hc' & ->)%fmap_Some.
    destruct (Hg e c0) as (_ & _ & ->). destruct (Hg e' c1) as (_ & _ & ->). by eapply (mi_distinct _ _ I).
  - intros x s. rewrite Hcl. intros (e & c & Hc & Hx)%(mi_open _ _ I). exists e, (g e c). rewrite Hh, Hc. split; [done|].
    by destruct (Hg e c) as (_ & _ & ->).
  - intros th' e s x H. rewrite (proj2 (proj2 (He e))). by apply (ro_using _ _ _ (Hrole _ _ H) e s).
  - intros e c x. rewrite Hh. intros (c0 & Hc & ->)%fmap_Some. destruct (Hg e c0) as (_ & _ & ->). intros Hx.
    eapply Hown; [done..|]. by eapply (mi_owned _ _ I).
  - done.
Qed.
(** A held connection has somebody who closes its client. *)
Lemma held_owned pend w th q e : mcp_inv pend w → calls w !! th = Some q → holdsOf q = Some e → owned w e.
Proof.
  intros I H Hq. destruct (mi_held _ _ I _ _ _ H Hq) as (c & Hc & [Hk|Hd]); [left; eauto|]. do 5 right. eauto.
Qed.

(** The clients of a heap: those in connections are open, keyed, distinct, and all open. *)
Record clients_ok (h : gmap Z connection) (cls : gmap Z (Server * bool)) : Prop := {
  co_client : ∀ e c x, h !! e = Some c → client c = Some x → ∃ s, cls !! x = Some (s, true) ∧ keyed (cnKey c) s;
  co_distinct : ∀ e e' c c' x, h !! e = Some c → h !! e' = Some c' → client c = Some x → client c' = Some x → e = e';
  co_open : ∀ x s, cls !! x = Some (s, true) → ∃ e c, h !! e = Some c ∧ client c = Some x }.
Lemma clients_of pend w : mcp_inv pend w → clients_ok (heap (proxy w)) (clients w).
Proof. intros I. split; [apply (mi_client _ _ I)|apply (mi_distinct _ _ I)|apply (mi_open _ _ I)]. Qed.

(** Connections change while no call moves. *)
Lemma mcpi_heap pend w w' (g : Z → connection → connection) :
  mcp_inv pend w →
  proxy w' = withHeap (proxy w) (map_imap (λ e c, Some (g e c)) (heap (proxy w))) →
  calls w' = calls w → reaper w' = reaper w → closer w' = closer w → mcpNext w <= mcpNext w' →
  (∀ e c, cnKey (g e c) = cnKey c ∧ refs (g e c) = refs c) →
  (∀ th q e c, calls w !! th = Some q → gateOf q = Some e → heap (proxy w) !! e = Some c → gateHeld (g e c) = true) →
  (∀ th e s x c, calls w !! th = Some (MUsing e s x) → heap (proxy w) !! e = Some c → client (g e c) = Some x) →
  clients_ok (heap (proxy w')) (clients w') → (∀ x s, clients w' !! x = Some s → x < mcpNext w') →
  (∀ e c x, heap (proxy w) !! e = Some c → client (g e c) = Some x →
    is_Some (client c) ∨ ∃ th q, calls w !! th = Some q ∧ holdsOf q = Some e) →
  mcp_inv pend w'.
Proof.
  intros I Hp Hca Hre Hcl Hn Hg Hgate Husing [Hc1 Hc2 Hc3] Hids Hown.
  assert (∀ e, heap (proxy w') !! e = g e <$> heap (proxy w) !! e) as Hh.
  { intros e. rewrite Hp. simpl. rewrite map_lookup_imap. by destruct (heap (proxy w) !! e). }
  assert (∀ e, owned w e → owned w' e) as Ho by (intros e; unfold owned; by rewrite Hp, Hca, Hre, Hcl).
  assert (∀ e, cnKey (entryOf w' e) = cnKey (entryOf w e)) as He.
  { intros e. unfold entryOf, connectionOf. rewrite Hh. destruct (heap (proxy w) !! e); simpl; [apply Hg|done]. }
  split; try done.
  - split_and!.
    + intros e c. rewrite Hh. intros (c0 & Hc & _)%fmap_Some. pose proof (proj1 (mi_ids _ _ I) _ _ Hc). lia.
    + done.
    + intros th q. rewrite Hca. intros Hx. pose proof (proj2 (proj2 (mi_ids _ _ I)) _ _ Hx). lia.
  - rewrite Hp. apply (mi_size _ _ I).
  - intros k e. rewrite Hh, Hp. simpl. intros (c & Hc & Hk)%(mi_conn _ _ I). rewrite Hc. exists (g e c). split; [done|].
    by rewrite (proj1 (Hg e c)).
  - intros th q e. rewrite Hca. intros H Hq. destruct (mi_held _ _ I _ _ _ H Hq) as (c & Hc & Hor). exists (g e c).
    rewrite Hh, Hc, (proj1 (Hg e c)), Hp. done.
  - intros e c. rewrite Hh. intros (c0 & Hc & ->)%fmap_Some. rewrite (proj2 (Hg e c0)), (mi_refs _ _ I _ _ Hc).
    unfold holders. by rewrite Hca.
  - intros th q e. rewrite Hca. intros H Hq. assert (∃ c, heap (proxy w) !! e = Some c) as (c & Hc).
    { destruct (mi_held _ _ I th q e H) as (c & Hc & _); [by destruct q|eauto]. }
    unfold entryOf, connectionOf. rewrite Hh, Hc. by apply (Hgate th q).
  - intros t1 t2 q1 q2 e. rewrite Hca. apply (mi_one _ _ I).
  - intros th q e s0. rewrite Hca, He. apply (mi_serves _ _ I).
  - intros th k s0. rewrite Hca. apply (mi_selected _ _ I).
  - rewrite Hp. apply (mi_current _ _ I).
  - intros th e s0 x. rewrite Hca. intros H. assert (∃ c, heap (proxy w) !! e = Some c) as (c & Hc).
    { destruct (mi_held _ _ I th _ e H) as (c & Hc & _); [done|eauto]. }
    unfold entryOf, connectionOf. rewrite Hh, Hc. by apply (Husing th e s0).
  - intros e c x. rewrite Hh. intros (c0 & Hc & ->)%fmap_Some Hx. destruct (Hown e c0 x Hc Hx) as [[y Hy]|(th & q & H & Hq)].
    + destruct (mi_owned _ _ I e c0 y Hc Hy); auto.
    + right. apply Ho. by eapply held_owned.
  - rewrite Hcl, Hre, Hp. apply (mi_closer _ _ I).
Qed.
Definition at_entry (e : Z) (f : connection → connection) (e' : Z) (c : connection) : connection := if decide (e' = e) then f c else c.
Lemma alter_imap (h : gmap Z connection) e f : alter f e h = map_imap (λ e' c, Some (at_entry e f e' c)) h.
Proof.
  apply map_eq. intros i. rewrite map_lookup_imap. unfold at_entry. destruct (decide (i = e)) as [-> |Hne].
  - rewrite lookup_alter_eq. by destruct (h !! e).
  - rewrite lookup_alter_ne by done. by destruct (h !! i).
Qed.
Lemma mcpi_gate pend w e b : mcp_inv pend w → (b = false → ∀ th q, calls w !! th = Some q → gateOf q ≠ Some e) →
  mcp_inv pend (updateEntry w e (withGate b)).
Proof.
  intros I Hb. assert (∀ e' c, client (at_entry e (withGate b) e' c) = client c ∧ cnKey (at_entry e (withGate b) e' c) = cnKey c ∧
    refs (at_entry e (withGate b) e' c) = refs c) as Hg by (intros; unfold at_entry; by case_decide).
  apply (mcpi_heap _ w _ (at_entry e (withGate b))); try done.
  - unfold updateEntry, withEntry. simpl. by rewrite alter_imap.
  - intros e' c. destruct (Hg e' c) as (? & ? & ?). done.
  - intros th q e' c H Hq Hc. pose proof (mi_gate _ _ I _ _ _ H Hq) as Hgh. rewrite (entry_some _ _ _ Hc) in Hgh.
    unfold at_entry. case_decide as Hd; [|done]. subst. destruct b; [done|]. by destruct (Hb eq_refl _ _ H).
  - intros th e' s0 x c H Hc. rewrite (proj1 (Hg e' c)). pose proof (mi_using _ _ I _ _ _ _ H) as Hu. by rewrite (entry_some _ _ _ Hc) in Hu.
  - destruct (clients_of _ _ I) as [C1 C2 C3]. simpl. rewrite alter_imap. split.
    + intros e' c x. rewrite map_lookup_imap. intros (c0 & Hc & [= <-])%bind_Some. destruct (Hg e' c0) as (-> & -> & _). by eapply C1.
    + intros e1 e2 c1 c2 x. rewrite !map_lookup_imap. intros (d1 & Hd1 & [= <-])%bind_Some (d2 & Hd2 & [= <-])%bind_Some.
      rewrite (proj1 (Hg e1 d1)), (proj1 (Hg e2 d2)). by eapply C2.
    + intros x s0 (e' & c & Hc & Hx)%C3. exists e', (at_entry e (withGate b) e' c). rewrite map_lookup_imap, Hc. split; [done|].
      by rewrite (proj1 (Hg e' c)).
  - apply (mi_ids _ _ I).
  - intros e' c x Hc. rewrite (proj1 (Hg e' c)). left. eauto.
Qed.

Lemma at_other e f e' c : e' ≠ e → at_entry e f e' c = c.
Proof. intros H. unfold at_entry. by rewrite decide_False. Qed.
Lemma at_same e f c : at_entry e f e c = f c.
Proof. unfold at_entry. by rewrite decide_True. Qed.
(** Closing the client of a connection nobody uses. *)
Lemma shut_clients h cls e c : clients_ok h cls → h !! e = Some c →
  clients_ok (alter (withClient None) e h)
    (match client c with Some x => alter (λ so, (so.1, false)) x cls | None => cls end).
Proof.
  intros [C1 C2 C3] He.
  assert (∀ e' c' x, alter (withClient None) e h !! e' = Some c' → client c' = Some x → e' ≠ e ∧ h !! e' = Some c') as Hl.
  { intros e' c' x Hc' Hx. destruct (decide (e' = e)) as [-> |Hne]; [|by rewrite lookup_alter_ne in Hc'].
    rewrite lookup_alter_eq, He in Hc'. by simplify_eq/=. }
  split.
  - intros e' c' x Hc' Hx. destruct (Hl _ _ _ Hc' Hx) as [Hne Hh]. destruct (C1 _ _ _ Hh Hx) as (s0 & Hs & Hk). exists s0. split; [|done].
    destruct (client c) as [y|] eqn:Hy; [|done]. rewrite lookup_alter_ne; [done|]. intros ->. apply Hne. by eapply C2.
  - intros e1 e2 c1 c2 x H1 H2 X1 X2. destruct (Hl _ _ _ H1 X1), (Hl _ _ _ H2 X2). by eapply C2.
  - intros x s0 Hx. assert (cls !! x = Some (s0, true) ∧ client c ≠ Some x) as [Hx0 Hne].
    { destruct (client c) as [y|]; [|done]. destruct (decide (x = y)) as [-> |]; [|rewrite lookup_alter_ne in Hx by done; naive_solver].
      rewrite lookup_alter_eq in Hx. by destruct (cls !! y). }
    destruct (C3 _ _ Hx0) as (e' & c' & Hc' & Hx'). exists e', c'. split; [|done]. rewrite lookup_alter_ne; [done|]. intros ->. congruence.
Qed.
Lemma mcpi_shut pend w e c : mcp_inv pend w → heap (proxy w) !! e = Some c →
  (∀ th s x, calls w !! th ≠ Some (MUsing e s x)) → mcp_inv pend (shut w e).
Proof.
  intros I He Hno. apply (mcpi_heap _ w _ (at_entry e (withClient None))); try done.
  - unfold shut, updateEntry, withEntry. simpl. by rewrite alter_imap.
  - intros e' c'. unfold at_entry. by case_decide.
  - intros th q e' c' H Hq Hc. pose proof (mi_gate _ _ I _ _ _ H Hq) as Hgh. rewrite (entry_some _ _ _ Hc) in Hgh.
    unfold at_entry. by case_decide.
  - intros th e' s0 x c' H Hc. destruct (decide (e' = e)) as [-> |Hne]; [by destruct (Hno th s0 x)|]. rewrite at_other by done.
    pose proof (mi_using _ _ I _ _ _ _ H) as Hu. by rewrite (entry_some _ _ _ Hc) in Hu.
  - simpl. rewrite (entry_some _ _ _ He). apply shut_clients; [by eapply clients_of|done].
  - intros x s0. simpl. assert (∀ y, alter (λ so : Server * bool, (so.1, false)) y (clients w) !! x = Some s0 → x < mcpNext w) as Ha.
    { intros y Hx. destruct (decide (x = y)) as [-> |].
      - rewrite lookup_alter_eq in Hx. apply fmap_Some in Hx as (so & Hso & _). by eapply (proj1 (proj2 (mi_ids _ _ I))).
      - rewrite lookup_alter_ne in Hx by done. by eapply (proj1 (proj2 (mi_ids _ _ I))). }
    destruct (client (entryOf w e)); [apply Ha|apply (proj1 (proj2 (mi_ids _ _ I)))].
  - intros e' c' x Hc. unfold at_entry. case_decide; [done|]. intros Hx. left. eauto.
Qed.
(** A fresh client of the server the connection stands for. *)
Lemma mcpi_connect pend w e c s th q : mcp_inv pend w → heap (proxy w) !! e = Some c → client c = None → keyed (cnKey c) s →
  calls w !! th = Some q → holdsOf q = Some e → mcp_inv pend (connect w e s).
Proof.
  intros I He Hnone Hk Hth Hq. pose proof (mi_ids _ _ I) as (Ih & Ic & It).
  assert (clients w !! mcpNext w = None) as Hfresh.
  { destruct (clients w !! mcpNext w) as [so|] eqn:Hx; [|done]. apply Ic in Hx. lia. }
  assert (∀ e' c' x, heap (proxy w) !! e' = Some c' → client c' = Some x → x ≠ mcpNext w) as Hold.
  { intros e' c' x Hc Hx ->. destruct (mi_client _ _ I _ _ _ Hc Hx) as (s0 & Hs & _). congruence. }
  apply (mcpi_heap _ w _ (at_entry e (withClient (Some (mcpNext w))))); try done.
  - unfold connect, updateEntry, withEntry. simpl. by rewrite alter_imap.
  - simpl. lia.
  - intros e' c'. unfold at_entry. by case_decide.
  - intros t r e' c' H Hr Hc. pose proof (mi_gate _ _ I _ _ _ H Hr) as Hgh. rewrite (entry_some _ _ _ Hc) in Hgh.
    unfold at_entry. by case_decide.
  - intros t e' s0 x c' H Hc. pose proof (mi_using _ _ I _ _ _ _ H) as Hu. rewrite (entry_some _ _ _ Hc) in Hu.
    rewrite at_other; [done|]. intros ->. congruence.
  - simpl. destruct (clients_of _ _ I) as [C1 C2 C3].
    assert (∀ e' c' x, alter (withClient (Some (mcpNext w))) e (heap (proxy w)) !! e' = Some c' → client c' = Some x →
      (e' = e ∧ x = mcpNext w ∧ cnKey c' = cnKey c) ∨ (e' ≠ e ∧ heap (proxy w) !! e' = Some c' ∧ x ≠ mcpNext w)) as Hl.
    { intros e' c' x Hc' Hx. destruct (decide (e' = e)) as [-> |Hne].
      - rewrite lookup_alter_eq, He in Hc'. simplify_eq/=. by left.
      - rewrite lookup_alter_ne in Hc' by done. right. eauto. }
    split.
    + intros e' c' x Hc' Hx. destruct (Hl _ _ _ Hc' Hx) as [(-> & -> & ->)|(Hne & Hh & Hxn)].
      * exists s. by rewrite lookup_insert_eq.
      * destruct (C1 _ _ _ Hh Hx) as (s0 & Hs & Hk0). exists s0. by rewrite lookup_insert_ne.
    + intros e1 e2 c1 c2 x H1 H2 X1 X2. destruct (Hl _ _ _ H1 X1) as [(-> & ? & _)|(? & ? & ?)], (Hl _ _ _ H2 X2) as [(-> & ? & _)|(? & ? & ?)];
        try done; by eapply C2.
    + intros x s0 Hx. apply lookup_insert_Some in Hx as [[<- [= <-]]|[Hne Hx]].
      * exists e, (withClient (Some (mcpNext w)) c). by rewrite lookup_alter_eq, He.
      * destruct (C3 _ _ Hx) as (e' & c' & Hc' & Hx'). exists e', c'. rewrite lookup_alter_ne; [done|]. intros ->. congruence.
  - intros x s0 Hx. simpl in *. apply lookup_insert_Some in Hx as [[<- _]|[_ Hx]]; [lia|]. apply Ic in Hx. lia.
  - intros e' c' x Hc Hx. destruct (decide (e' = e)) as [-> |Hne]; [right; eauto|]. rewrite at_other in Hx by done. left. eauto.
Qed.

Lemma subseteq_empty {A} (m : gmap connectionKey A) : m ⊆ ∅ → m = ∅.
Proof.
  intros H. apply map_empty. intros i. apply eq_None_not_Some. intros [x Hx]. eapply lookup_weaken in Hx; [|exact H].
  by rewrite lookup_empty in Hx.
Qed.
Lemma count_none {A} (f : A → bool) (m : gmap Z A) : (∀ k x, m !! k = Some x → f x = false) → map_count f m = 0.
Proof.
  intros H. unfold map_count. replace (filter _ m) with (∅ : gmap Z A); [done|]. symmetry. apply map_empty. intros i.
  apply map_lookup_filter_None. right. intros x Hx. simpl. rewrite (H _ _ Hx). done.
Qed.
(** Connections leave the pool: idle ones, or all of them once the proxy is closed. *)
Lemma mcpi_shrink pend pend' w conns' : mcp_inv pend w → conns' ⊆ connections (proxy w) → pend ⊆ pend' →
  (∀ k e, connections (proxy w) !! k = Some e → conns' !! k = Some e ∨
    e ∈ pend' ∧ (refs (entryOf w e) = 0 ∨ ctxDone (proxy w) = true)) →
  mcp_inv pend' (setProxy w (withConnections (proxy w) conns')).
Proof.
  intros I Hsub Hpend Hout. destruct I. split; try done; simpl.
  - apply map_subseteq_size in Hsub. lia.
  - intros k e Hk. apply mi_conn0. by eapply lookup_weaken.
  - intros th q e H Hq. destruct (mi_held0 _ _ _ H Hq) as (c & Hc & [Hk|Hd]); [|eauto]. exists c. split; [done|].
    destruct (Hout _ _ Hk) as [?|[_ [Hr|?]]]; [by left| |by right]. exfalso.
    rewrite (entry_some _ _ _ Hc), (mi_refs0 _ _ Hc) in Hr. pose proof (held_counted _ _ _ _ H Hq). lia.
  - intros e c x Hc Hx. destruct (mi_owned0 _ _ _ Hc Hx) as [Hp|[[k Hk]|Ho]]; [left; by apply Hpend| |right; by right].
    destruct (Hout _ _ Hk) as [?|[? _]]; [right; left; eauto|by left].
  - destruct mi_closer0 as (? & ? & Hm). split_and!; try done. destruct (closer w); try done; destruct Hm as [Hm ?]; split; try done;
      rewrite Hm in Hsub; by apply subseteq_empty.
Qed.
Lemma mcpi_current pend w b : mcp_inv pend w → (∀ n s, servers b !! n = Some s → digestOf b = digest (servers b)) →
  mcp_inv pend (setProxy w (withCurrent (proxy w) b)).
Proof. intros I Hb. destruct I. by split. Qed.
Lemma owned_more w w' e : connections (proxy w') = connections (proxy w) → calls w' = calls w → reaper w' = reaper w →
  (∀ l, closer w = CClosing l → closer w' = CClosing l) → (ctxDone (proxy w) = true → ctxDone (proxy w') = true) → owned w e → owned w' e.
Proof. intros Hc Ht Hr Hl Hd. unfold owned. rewrite Hc, Ht, Hr. naive_solver. Qed.
Lemma mcpi_cancel pend w : mcp_inv pend w → closer w = CNone →
  mcp_inv pend (setCloser (setProxy w (mkProxy (opts (proxy w)) (current (proxy w)) (connections (proxy w)) true (heap (proxy w)))) CWait).
Proof.
  intros I Hc. destruct I. split; try done; simpl.
  - intros th q e H Hq. destruct (mi_held0 _ _ _ H Hq) as (c & Hh & _). eauto.
  - intros e c x He Hx. destruct (mi_owned0 _ _ _ He Hx) as [|Ho]; [by left|right]. revert Ho. apply owned_more; simpl; try done. by rewrite Hc.
Qed.
(** A new connection, not yet held. *)
Lemma mcpi_add pend w k now : mcp_inv pend w → connections (proxy w) !! k = None → ctxDone (proxy w) = false →
  Z.of_nat (size (connections (proxy w))) < MaxConnections (opts (proxy w)) →
  mcp_inv pend (bumpNext (setProxy w (withConnections (withHeap (proxy w) (<[mcpNext w := mkConnection k false None 0 now]> (heap (proxy w))))
    (<[k := mcpNext w]> (connections (proxy w)))))).
Proof.
  intros I Hk Hd Hsize. destruct (mi_ids _ _ I) as (Ih & Ic & It).
  assert (heap (proxy w) !! mcpNext w = None) as Hf.
  { destruct (heap (proxy w) !! mcpNext w) as [c|] eqn:Hx; [|done]. apply Ih in Hx. lia. }
  assert (∀ e c, heap (proxy w) !! e = Some c → <[mcpNext w := mkConnection k false None 0 now]> (heap (proxy w)) !! e = Some c) as Hkeep.
  { intros e c Hc. rewrite lookup_insert_ne; [done|]. intros <-. congruence. }
  assert (∀ e x c, <[mcpNext w := mkConnection k false None 0 now]> (heap (proxy w)) !! e = Some c → client c = Some x → heap (proxy w) !! e = Some c) as Hcl.
  { intros e x c [[<- <-]|[_ ?]]%lookup_insert_Some Hx; [done|done]. }
  assert (∀ th q e, calls w !! th = Some q → holdsOf q = Some e → ∃ c, heap (proxy w) !! e = Some c ∧ connections (proxy w) !! cnKey c = Some e) as Hheld.
  { intros th q e H Hq. destruct (mi_held _ _ I _ _ _ H Hq) as (c & Hc & [?|?]); [eauto|congruence]. }
  assert (∀ e c, heap (proxy w) !! e = Some c → entryOf (bumpNext (setProxy w (withConnections (withHeap (proxy w)
    (<[mcpNext w := mkConnection k false None 0 now]> (heap (proxy w)))) (<[k := mcpNext w]> (connections (proxy w)))))) e = entryOf w e) as Hent.
  { intros e c Hc. rewrite (entry_some w e c Hc). by apply entry_some, Hkeep. }
  split; simpl.
  - split_and!.
    + intros e c [[<- _]|[_ Hc]]%lookup_insert_Some; [lia|]. apply Ih in Hc. lia.
    + intros x s0 Hx. apply Ic in Hx. lia.
    + intros th q Hx. apply It in Hx. lia.
  - rewrite map_size_insert_None by done. lia.
  - intros k' e [[<- <-]|[Hne He]]%lookup_insert_Some; [rewrite lookup_insert_eq; eauto|].
    destruct (mi_conn _ _ I _ _ He) as (c & Hc & <-). eauto.
  - intros th q e H Hq. destruct (Hheld _ _ _ H Hq) as (c & Hc & Hx). exists c. split; [by apply Hkeep|]. left.
    rewrite lookup_insert_ne; [done|]. intros Heq. congruence.
  - intros e c [[<- <-]|[Hne Hc]]%lookup_insert_Some; [|by apply (mi_refs _ _ I)]. simpl.
    symmetry. apply count_none. intros th q H. apply bool_decide_eq_false. intros Hq. destruct (Hheld _ _ _ H Hq) as (c & Hc & _). congruence.
  - intros th q e H Hq. destruct (Hheld th q e H) as (c & Hc & _); [by destruct q|]. rewrite (Hent _ _ Hc). by apply (mi_gate _ _ I th q).
  - apply (mi_one _ _ I).
  - intros th q e s0 H Hq. destruct (Hheld th q e H) as (c & Hc & _); [by destruct q; simplify_eq/=|]. rewrite (Hent _ _ Hc). by apply (mi_serves _ _ I th q).
  - apply (mi_selected _ _ I).
  - apply (mi_current _ _ I).
  - intros e c x Hc Hx. eapply (mi_client _ _ I); [by eapply Hcl|done].
  - intros e e' c c' x Hc Hc' Hx Hx'. eapply (mi_distinct _ _ I); eauto.
  - intros x s0 (e & c & Hc & Hx)%(mi_open _ _ I). eauto.
  - intros th e s0 x H. destruct (Hheld th _ e H eq_refl) as (c & Hc & _). rewrite (Hent _ _ Hc). by apply (mi_using _ _ I th e s0).
  - intros e c x Hc Hx. destruct (mi_owned _ _ I e c x) as [|[[k' Hk']|Ho]]; [by eapply Hcl|done|by left| |right; by right].
    right. left. exists k'. simpl. rewrite lookup_insert_ne; [done|]. intros <-. congruence.
  - destruct (mi_closer _ _ I) as (H1 & H2 & H3). split_and!; try done. destruct (closer w); try done; rewrite H1 in Hd; done.
Qed.

(** ** The steps *)

Definition closesOf (q : mcp_pc) : option Z := match q with MEvicting _ _ x | MClosing x => Some x | _ => None end.
Lemma owned_calls w w' th q e : connections (proxy w') = connections (proxy w) → ctxDone (proxy w') = ctxDone (proxy w) →
  reaper w' = reaper w → closer w' = closer w → calls w !! th = Some q →
  (∀ th' r, th' ≠ th → calls w !! th' = Some r → calls w' !! th' = Some r) →
  (closesOf q = Some e ∨ holdsOf q = Some e → owned w' e) → owned w e → owned w' e.
Proof.
  intros Hc Hd Hr Hl Hq Hrest Hown Ho. unfold owned in Ho.
  destruct Ho as [Ho|[(t & f & s & H)|[(t & H)|[Ho|[Ho|(Hx & t & r & H & Hh)]]]]].
  - left. by rewrite Hc.
  - destruct (decide (t = th)) as [-> |Hne]; [apply Hown; left; simplify_eq; done|]. right; left. eauto.
  - destruct (decide (t = th)) as [-> |Hne]; [apply Hown; left; simplify_eq; done|]. do 2 right; left. eauto.
  - do 3 right; left. by rewrite Hr.
  - do 4 right; left. by rewrite Hl.
  - destruct (decide (t = th)) as [-> |Hne]; [apply Hown; right; simplify_eq; done|]. do 5 right. rewrite Hd. eauto 6.
Qed.
Lemma imap_id (h : gmap Z connection) : map_imap (λ _ c, Some c) h = h.
Proof. apply map_eq. intros i. rewrite map_lookup_imap. by destruct (h !! i). Qed.
Lemma mcpi_goto w th q q' : mcp_inv [] w → calls w !! th = Some q → holdsOf q' = holdsOf q → role_ok w th q' →
  (∀ e c x, heap (proxy w) !! e = Some c → client c = Some x → closesOf q = Some e → owned (goto w th q') e) →
  mcp_inv [] (goto w th q').
Proof.
  intros I H Hh Hr Ho. apply (mcpi_frame [] _ w _ th (λ _ c, c)); try done.
  - rewrite imap_id. by destruct w as [[] ? ? ? ? ?].
  - intros th' r Hne. simpl. by rewrite lookup_insert_ne.
  - simpl. rewrite lookup_insert_eq. intros r [= <-]. destruct Hr. by split.
  - intros e c Hc. rewrite (holders_goto _ _ q) by done. rewrite Hh. lia.
  - intros e c x Hc Hx [?|Hown]; [by left|right]. revert Hown. apply (owned_calls _ _ th q); try done.
    + intros th' r Hne Hr'. simpl. by rewrite lookup_insert_ne.
    + intros [Hcl|Hhold]; [by eapply Ho|]. destruct (mi_held _ _ I _ _ _ H Hhold) as (c' & Hc' & [Hk|Hd]); [left; eauto|].
      do 5 right. split; [done|]. exists th, q'. simpl. rewrite lookup_insert_eq. split; [done|congruence].
  - apply (mi_closer _ _ I).
Qed.
(** A call that keeps its connection and at most gives up the gate. *)
Lemma mcpi_keep w th q q' : mcp_inv [] w → calls w !! th = Some q → closesOf q = None → holdsOf q' = holdsOf q →
  (gateOf q' = None ∨ gateOf q' = gateOf q) → (servesOf q' = None ∨ servesOf q' = servesOf q) →
  (∀ k s, q' ≠ MSelected k s) → (∀ e s x, q' = MUsing e s x → client (entryOf w e) = Some x) → mcp_inv [] (goto w th q').
Proof.
  intros I H Hcl Hh Hg Hs Hsel Hu. apply (mcpi_goto _ _ q); try done.
  - destruct (role_of _ _ _ _ I H) as [R1 R2 R3 R4 R5 R6]. split; try done.
    + by rewrite Hh.
    + intros e. destruct Hg as [-> | ->]; [done|apply R3].
    + intros e s. destruct Hs as [-> | ->]; [done|apply R4].
    + intros k s Hq. by destruct (Hsel k s).
  - intros e c x _ _. by rewrite Hcl.
Qed.
Lemma shut_entry w e c : heap (proxy w) !! e = Some c → heap (proxy (shut w e)) !! e = Some (withClient None c).
Proof. intros H. simpl. by rewrite lookup_alter_eq, H. Qed.
Lemma mcpi_enter w th e s : mcp_inv [] w → calls w !! th = Some (MWaiting e s) → gateHeld (entryOf w e) = false →
  mcp_inv [] (goto (updateEntry w e (withGate true)) th (MHolding e s)).
Proof.
  intros I H Hg. destruct (mi_held _ _ I _ _ e H eq_refl) as (c & Hc & Hor).
  assert (mcp_inv [] (updateEntry w e (withGate true))) as I' by by apply mcpi_gate.
  apply (mcpi_goto _ _ (MWaiting e s)); try done. destruct (role_of _ _ _ _ I' H) as [R1 R2 R3 R4 R5 R6]. split; try done.
  intros e' [= <-]. split.
  - unfold entryOf, connectionOf. simpl. by rewrite lookup_alter_eq, Hc.
  - intros th' q' Hne H' Hq'. pose proof (mi_gate _ _ I _ _ _ H' Hq'). congruence.
Qed.
Lemma mcpi_unlock w th e : mcp_inv [] w → calls w !! th = Some (MUnlocking e) →
  mcp_inv [] (goto (updateEntry w e (withGate false)) th (MReleasing e)).
Proof.
  intros I H. apply (mcpi_gate [] (goto w th (MReleasing e))).
  - apply (mcpi_keep _ _ (MUnlocking e)); auto; done.
  - intros _ th' q' H' Hq'. simpl in H'. apply lookup_insert_Some in H' as [[<- <-]|[Hne H']]; [done|].
    apply Hne. eapply (mi_one _ _ I); done.
Qed.
Lemma mcpi_failed w th e s x : mcp_inv [] w → calls w !! th = Some (MUsing e s x) → mcp_inv [] (goto (shut w e) th (MUnlocking e)).
Proof.
  intros I H. destruct (mi_held _ _ I _ _ e H eq_refl) as (c & Hc & _).
  apply (mcpi_shut [] (goto w th (MUnlocking e)) e c); [|done|].
  - apply (mcpi_keep _ _ (MUsing e s x)); auto; done.
  - intros th' s' x' H'. simpl in H'. apply lookup_insert_Some in H' as [[<- ?]|[Hne H']]; [done|].
    apply Hne. by eapply (mi_one _ _ I).
Qed.
Lemma mcpi_connected w th e s : mcp_inv [] w → calls w !! th = Some (MHolding e s) → client (entryOf w e) = None →
  mcp_inv [] (goto (connect w e s) th (MUsing e s (mcpNext w))).
Proof.
  intros I H Hn. destruct (mi_held _ _ I _ _ e H eq_refl) as (c & Hc & _). rewrite (entry_some _ _ _ Hc) in Hn.
  pose proof (mi_serves _ _ I _ _ _ _ H eq_refl) as Hk. rewrite (entry_some _ _ _ Hc) in Hk.
  apply (mcpi_keep (connect w e s) th (MHolding e s)); try done; auto; [by eapply mcpi_connect|].
  intros e' s' x' [= <- <- <-]. unfold entryOf, connectionOf. simpl. by rewrite lookup_alter_eq, Hc.
Qed.

Lemma prepare_digest b max r : prepare parseURL digest b max = Ok r → digestOf r = digest (servers r).
Proof. unfold prepare, res_bind. intros H. repeat case_match; by simplify_eq/=. Qed.
Lemma select_keyed pend w name bundle k s t : mcp_inv pend w → runSelect parseURL digest (proxy w) name bundle = Ok (k, s, t) → keyed k s.
Proof.
  intros I. unfold runSelect, res_bind. destruct (ctxDone (proxy w)); [done|]. destruct bundle as [b|].
  - destruct (prepare _ _ _ _) as [r|] eqn:Hr; [|done]. case_match eqn:Hs; [|done]. intros [= <- <- _]. exists (servers r). simpl.
    split; [by erewrite prepare_digest|done].
  - case_match eqn:Hs; [|done]. intros [= <- <- _]. eexists. simpl. split; [symmetry; by eapply (mi_current _ _ I)|done].
Qed.
Lemma mcpi_configure w b changed p : mcp_inv [] w → Configure parseURL digest (proxy w) b = Ok (changed, p) → mcp_inv [] (setProxy w p).
Proof.
  intros I. unfold Configure, res_bind. destruct (prepare _ _ _ _) as [r|] eqn:Hr; [|done]. case_match; [done|].
  intros [= _ <-]. apply mcpi_current; [done|]. intros _ _ _. by eapply prepare_digest.
Qed.
Lemma mcpi_bump pend w : mcp_inv pend w → mcp_inv pend (bumpNext w).
Proof.
  intros I. destruct I. split; try done. destruct mi_ids0 as (H1 & H2 & H3). simpl.
  split_and!; [intros e c H; apply H1 in H|intros x so H; apply H2 in H|intros th q H; apply H3 in H]; lia.
Qed.
Lemma mcpi_call w k s : mcp_inv [] w → keyed k s → mcp_inv [] (bumpNext (goto w (mcpNext w) (MSelected k s))).
Proof.
  intros I Hk. assert (calls w !! mcpNext w = None) as Hf.
  { destruct (calls w !! mcpNext w) as [q|] eqn:H; [|done]. apply (proj2 (proj2 (mi_ids _ _ I))) in H. lia. }
  apply (mcpi_frame [] _ w _ (mcpNext w) (λ _ c, c)); try done.
  - rewrite imap_id. by destruct w as [[] ? ? ? ? ?].
  - simpl. lia.
  - intros th' r Hne. simpl. by rewrite lookup_insert_ne.
  - simpl. rewrite lookup_insert_eq. intros r [= <-]. split; try done; simpl; [lia|]. naive_solver.
  - intros e c Hc. unfold holders. simpl. rewrite map_count_insert_new by done. simpl. lia.
  - intros e c x Hc Hx [?|Hown]; [by left|right]. unfold owned in *. simpl.
    assert (∀ th q, calls w !! th = Some q → <[mcpNext w := MSelected k s]> (calls w) !! th = Some q) as Hl.
    { intros th q H. rewrite lookup_insert_ne; [done|]. intros <-. congruence. }
    naive_solver.
  - apply (mi_closer _ _ I).
Qed.
Lemma mcpi_return w th q : mcp_inv [] w → calls w !! th = Some q → holdsOf q = None →
  (∀ e c x, heap (proxy w) !! e = Some c → client c = Some x → closesOf q = Some e → owned (return_ w th) e) →
  mcp_inv [] (return_ w th).
Proof.
  intros I H Hh Ho. apply (mcpi_frame [] _ w _ th (λ _ c, c)); try done.
  - rewrite imap_id. by destruct w as [[] ? ? ? ? ?].
  - intros th' r Hne. simpl. by rewrite lookup_delete_ne.
  - simpl. by rewrite lookup_delete_eq.
  - intros e c Hc. rewrite (holders_return _ _ q) by done. rewrite Hh. simpl. lia.
  - intros e c x Hc Hx [?|Hown]; [by left|right]. revert Hown. apply (owned_calls _ _ th q); try done.
    + intros th' r Hne Hr'. simpl. by rewrite lookup_delete_ne.
    + intros [Hcl|Hhold]; [by eapply Ho|congruence].
  - apply (mi_closer _ _ I).
Qed.
(** The call takes the connection of its key. *)
Lemma mcpi_acquired pend w th k s e q : mcp_inv pend w → calls w !! th = Some (MSelected k s) → connections (proxy w) !! k = Some e →
  holdsOf q = Some e → gateOf q = None → servesOf q = Some (e, s) → (∀ x, x ∈ pend → closesOf q = Some x) →
  mcp_inv [] (goto (updateEntry w e (λ c, withRefs (refs c + 1) c)) th q).
Proof.
  intros I H Hk Hh Hg Hs Hp. destruct (mi_conn _ _ I _ _ Hk) as (c & Hc & Hck).
  apply (mcpi_frame pend _ w _ th (at_entry e (λ c, withRefs (refs c + 1) c))); try done.
  - intros e' c'. unfold at_entry. by case_decide.
  - unfold updateEntry, withEntry. simpl. by rewrite alter_imap.
  - intros th' r Hne. simpl. by rewrite lookup_insert_ne.
  - simpl. rewrite lookup_insert_eq. intros r [= <-]. split; simpl.
    + by eapply (mi_ids _ _ I).
    + rewrite Hh. intros e' [= <-]. exists c. rewrite Hck. auto.
    + by rewrite Hg.
    + rewrite Hs. intros e' s' [= <- <-]. unfold entryOf, connectionOf. simpl. rewrite Hc. simpl. rewrite Hck. by eapply (mi_selected _ _ I).
    + intros k' s' ->. done.
    + intros e' s' x ->. done.
  - intros e' c' Hc'. rewrite (holders_goto (updateEntry w e _) _ (MSelected k s)) by done.
    change (holders (updateEntry w e _) e') with (holders w e'). rewrite Hh. unfold at_entry. simpl.
    case_decide as Hd; [subst; rewrite bool_decide_true by done|rewrite bool_decide_false by congruence]; simpl; lia.
  - intros e' c' x Hc' Hx Hown. right. destruct Hown as [Hin|Hown].
    + apply Hp in Hin. destruct q; simplify_eq/=. right; left. exists th. simpl. rewrite lookup_insert_eq. eauto.
    + revert Hown. apply (owned_calls _ _ th (MSelected k s)); try done.
      * intros th' r Hne Hr'. simpl. by rewrite lookup_insert_ne.
      * intros [|]; done.
  - apply (mi_closer _ _ I).
Qed.

Lemma mcpi_added pend w th k s q now : mcp_inv pend w → calls w !! th = Some (MSelected k s) →
  connections (proxy w) !! k = None → ctxDone (proxy w) = false → Z.of_nat (size (connections (proxy w))) < MaxConnections (opts (proxy w)) →
  holdsOf q = Some (mcpNext w) → gateOf q = None → servesOf q = Some (mcpNext w, s) → (∀ x, x ∈ pend → closesOf q = Some x) →
  mcp_inv [] (bumpNext (goto (setProxy w (addEntry (proxy w) (connections (proxy w)) k (mcpNext w) now)) th q)).
Proof.
  intros I H Hk Hd Hsize Hh Hg Hs Hp. pose proof (mcpi_add pend w k now I Hk Hd Hsize) as I'.
  eapply (mcpi_acquired _ _ th k s (mcpNext w) q) in I'; try done; [|simpl; by rewrite lookup_insert_eq].
  unfold updateEntry, withEntry, withHeap, goto, setCalls, bumpNext, setProxy, withConnections in I'. simpl in I'.
  rewrite alter_insert_eq in I'. exact I'.
Qed.
Lemma mcpi_acquire w th k s order now e x p : mcp_inv [] w → calls w !! th = Some (MSelected k s) →
  order ≡ₚ map_to_list (connections (proxy w)) → acquire (proxy w) k order (mcpNext w) now = Ok (e, x, p) →
  mcp_inv [] (bumpNext (goto (setProxy w p) th (match x with Some x => MEvicting e s x | None => MWaiting e s end))).
Proof.
  intros I H Ho Ha. destruct (acquire_cases _ _ _ _ _ _ _ _ Ho Ha) as (Hd & [(Hk & -> & ->)|[(Hk & -> & -> & Hs & ->)|(k' & x' & Hk & -> & -> & Hx & Hr & ->)]]).
  - apply mcpi_bump. eapply (mcpi_acquired [] w th k s e (MWaiting e s)); try done. by intros x ?%elem_of_nil.
  - eapply (mcpi_added [] w th k s); try done. by intros x ?%elem_of_nil.
  - assert (mcp_inv [x'] (setProxy w (withConnections (proxy w) (delete k' (connections (proxy w)))))) as I'.
    { apply (mcpi_shrink []); [done|apply delete_subseteq|set_solver|]. intros k2 e2 H2. destruct (decide (k2 = k')) as [-> |Hne].
      - right. rewrite Hx in H2. simplify_eq. split; [set_solver|by left].
      - left. by rewrite lookup_delete_ne. }
    eapply (mcpi_added [x'] _ th k s (MEvicting (mcpNext w) s x') now) in I'; [exact I'|done| |done| |done..|].
    + simpl. rewrite lookup_delete_ne; [done|]. intros ->. congruence.
    + simpl. pose proof (mi_size _ _ I). pose proof (map_size_delete_Some k' (connections (proxy w))) as Hsz.
      rewrite Hsz by (rewrite Hx; eauto). assert (size (connections (proxy w)) ≠ 0%nat); [|lia].
      intros Hz%map_size_empty_inv. by rewrite Hz, lookup_empty in Hx.
    + intros y ->%list_elem_of_singleton. done.
Qed.
Lemma mcpi_close w x : mcp_inv [] w → gateHeld (entryOf w x) = false →
  mcp_inv [] (shut w x) ∧ ∀ c y, heap (proxy (shut w x)) !! x = Some c → client c ≠ Some y.
Proof.
  intros I Hg. destruct (heap (proxy w) !! x) as [c|] eqn:Hx.
  - split; [|intros c' y; rewrite (shut_entry _ _ _ Hx); by intros [= <-]]. apply (mcpi_shut _ _ _ c); [done|done|].
    intros th s0 y H. pose proof (mi_gate _ _ I _ _ x H eq_refl). congruence.
  - assert (shut w x = w) as ->.
    { unfold shut, updateEntry, withEntry, shutClient, entryOf, connectionOf. rewrite Hx. simpl.
      rewrite alter_id by (intros y Hy; congruence). by destruct w as [[] ? ? ? ? ?]. }
    split; [done|]. intros c y Hc. congruence.
Qed.
Lemma mcpi_evict w th e s x : mcp_inv [] w → calls w !! th = Some (MEvicting e s x) → gateHeld (entryOf w x) = false →
  mcp_inv [] (goto (shut w x) th (MWaiting e s)).
Proof.
  intros I H Hg. destruct (mcpi_close w x I Hg) as [I' Hno]. apply (mcpi_goto _ _ (MEvicting e s x)); try done.
  - destruct (role_of _ _ _ _ I' H) as [R1 R2 R3 R4 R5 R6]. split; try done.
  - intros e' c y Hc Hy [= <-]. by destruct (Hno c y).
Qed.
Lemma mcpi_closing w th e : mcp_inv [] w → calls w !! th = Some (MClosing e) → gateHeld (entryOf w e) = false →
  mcp_inv [] (return_ (shut w e) th).
Proof.
  intros I H Hg. destruct (mcpi_close w e I Hg) as [I' Hno]. apply (mcpi_return _ _ (MClosing e)); try done.
  intros e' c y Hc Hy [= <-]. by destruct (Hno c y).
Qed.
(** [release]: the call either leaves an open proxy or goes on to close the connection. *)
Lemma mcpi_release w th e now w' : mcp_inv [] w → calls w !! th = Some (MReleasing e) →
  (ctxDone (proxy w) = false ∧ w' = return_ (setProxy w (fst (release (proxy w) e now))) th ∨
   w' = goto (setProxy w (fst (release (proxy w) e now))) th (MClosing e)) → mcp_inv [] w'.
Proof.
  intros I H Hw. destruct (mi_held _ _ I _ _ e H eq_refl) as (c & Hc & Hor).
  assert (∀ th', th' ≠ th → calls w' !! th' = calls w !! th') as Hrest.
  { intros th' Hne. destruct Hw as [[_ ->]| ->]; simpl; by rewrite ?lookup_delete_ne, ?lookup_insert_ne. }
  assert (∀ q, calls w' !! th = Some q → q = MClosing e) as Hth.
  { intros q. destruct Hw as [[_ ->]| ->]; simpl; rewrite ?lookup_delete_eq, ?lookup_insert_eq; naive_solver. }
  set (g := at_entry e (λ c, withUsed now (withRefs (refs c - 1) c))).
  assert (proxy w' = withHeap (proxy w) (map_imap (λ e c, Some (g e c)) (heap (proxy w)))) as Hp.
  { destruct Hw as [[_ ->]| ->]; unfold g; simpl; unfold withEntry; by rewrite alter_imap. }
  assert (∀ e', holders w' e' = holders w e' - b2z (bool_decide (Some e = Some e'))) as Hho.
  { intros e'. destruct Hw as [[_ ->]| ->].
    - by rewrite (holders_return (setProxy w _) _ (MReleasing e)).
    - rewrite (holders_goto (setProxy w _) _ (MReleasing e)) by done. simpl. change (holders (setProxy w _) e') with (holders w e'). lia. }
  apply (mcpi_frame [] _ w _ th g); try done.
  - intros e' c'. unfold g, at_entry. by case_decide.
  - by destruct Hw as [[_ ->]| ->].
  - by destruct Hw as [[_ ->]| ->].
  - intros th' q Hne. by rewrite Hrest.
  - intros q Hq. apply Hth in Hq as ->. pose proof (proj2 (proj2 (mi_ids _ _ I)) _ _ H). split; try done. by destruct Hw as [[_ ->]| ->].
  - intros e' c' Hc'. rewrite Hho. unfold g, at_entry. case_decide as Hd; [subst; rewrite bool_decide_true by done|rewrite bool_decide_false by congruence]; simpl; lia.
  - intros e' c' x Hc' Hx [?|Hown]; [by left|right]. revert Hown. apply (owned_calls _ _ th (MReleasing e)); try done.
    1,2: by rewrite Hp. 1,2: by destruct Hw as [[_ ->]| ->].
    + intros th' r Hne Hr'. by rewrite Hrest.
    + intros [|[= <-]]; [done|]. destruct Hw as [[Hd ->]| ->].
      * destruct Hor as [Hk|]; [|congruence]. left. simpl. eauto.
      * do 2 right; left. exists th. simpl. by rewrite lookup_insert_eq.
  - rewrite Hp. destruct Hw as [[_ ->]| ->]; apply (mi_closer _ _ I).
Qed.

Lemma owned_workers w w' e : proxy w' = proxy w → calls w' = calls w →
  (∀ l, reaper w = RClosing l → e ∈ l → owned w' e) → (∀ l, closer w = CClosing l → e ∈ l → owned w' e) → owned w e → owned w' e.
Proof.
  intros Hp Ht Hr Hc Ho. unfold owned in Ho. destruct Ho as [?|[?|[?|[(l & ? & ?)|[(l & ? & ?)|?]]]]]; [..|by eapply Hr|by eapply Hc|];
    unfold owned; rewrite Hp, Ht; auto 6.
Qed.
(** The reaper and [Close] move. *)
Lemma mcpi_workers pend w w' : mcp_inv pend w → proxy w' = proxy w → clients w' = clients w → calls w' = calls w → mcpNext w' = mcpNext w →
  (∀ e c x, heap (proxy w) !! e = Some c → client c = Some x → e ∈ pend ∨ owned w e → owned w' e) →
  (closer w' ≠ CNone → ctxDone (proxy w') = true) ∧ (reaper w' = RExited → ctxDone (proxy w') = true) ∧
  (match closer w' with CClosing _ | CDone => connections (proxy w') = ∅ ∧ reaper w' = RExited | _ => True end) → mcp_inv [] w'.
Proof.
  intros I Hp Hc Ht Hn Ho Hcl. apply (mcpi_frame pend _ w _ 0 (λ _ c, c)); try done.
  - rewrite imap_id, Hp. by destruct (proxy w).
  - lia.
  - intros th q _. by rewrite Ht.
  - intros q. rewrite Ht. intros Hq. destruct (role_of _ _ _ _ I Hq) as [R1 R2 R3 R4 R5 R6]. split; try done. simpl. by rewrite Hn.
  - intros e c _. unfold holders. rewrite Ht. lia.
  - intros e c x Hc' Hx Hown. right. by eapply Ho.
Qed.
Lemma mcpi_reap w x l : mcp_inv [] w → reaper w = RClosing (x :: l) → gateHeld (entryOf w x) = false → mcp_inv [] (setReaper (shut w x) (RClosing l)).
Proof.
  intros I Hr Hg. destruct (mcpi_close w x I Hg) as [I' Hno]. apply (mcpi_workers [] (shut w x)); try done.
  - intros e c y Hc Hy [?%elem_of_nil|Hown]; [done|].
    assert (e ≠ x) as Hne by (intros ->; by destruct (Hno c y)). revert Hown. apply owned_workers; try done; simpl.
    + rewrite Hr. intros ? [= <-] [?|Hin]%elem_of_cons; [done|]. do 3 right; left. eauto.
    + intros l' Hl' Hin. do 4 right; left. eauto.
  - destruct (mi_closer _ _ I') as (H1 & H2 & H3). simpl in *. rewrite Hr in *. split_and!; try done. by destruct (closer w); try done; destruct H3.
Qed.
Lemma mcpi_shut_taken w x l : mcp_inv [] w → closer w = CClosing (x :: l) → gateHeld (entryOf w x) = false → mcp_inv [] (setCloser (shut w x) (CClosing l)).
Proof.
  intros I Hr Hg. destruct (mcpi_close w x I Hg) as [I' Hno]. apply (mcpi_workers [] (shut w x)); try done.
  - intros e c y Hc Hy [?%elem_of_nil|Hown]; [done|].
    assert (e ≠ x) as Hne by (intros ->; by destruct (Hno c y)). revert Hown. apply owned_workers; try done; simpl.
    + intros l' Hl' Hin. do 3 right; left. eauto.
    + rewrite Hr. intros ? [= <-] [?|Hin]%elem_of_cons; [done|]. do 4 right; left. eauto.
  - destruct (mi_closer _ _ I') as (H1 & H2 & H3). simpl in *. rewrite Hr in *. destruct H3. split_and!; try done; intros _; by apply H1.
Qed.
Lemma mcpi_tick w now p l : mcp_inv [] w → reaper w = RIdle → reapTick (proxy w) now = (p, l) →
  mcp_inv [] (setReaper (setProxy w p) (RClosing l)).
Proof.
  intros I Hr. unfold reapTick. intros [= <- <-].
  set (l := (map_to_list (filter (λ ke, isStale (proxy w) now ke.2 = true) (connections (proxy w)))).*2).
  assert (mcp_inv l (setProxy w (withConnections (proxy w) (filter (λ ke, isStale (proxy w) now ke.2 = false) (connections (proxy w)))))) as I'.
  { apply (mcpi_shrink []); [done|apply map_filter_subseteq|set_solver|]. intros k e Hk.
    destruct (isStale (proxy w) now e) eqn:Hs; [right|left; by apply map_lookup_filter_Some]. split.
    - unfold l. apply list_elem_of_fmap. exists (k, e). split; [done|]. by apply elem_of_map_to_list, map_lookup_filter_Some.
    - left. unfold isStale in Hs. reflect_bools. done. }
  eapply mcpi_workers; [exact I'|done..| |].
  - intros e c x Hc Hx [Hin|Hown]; [do 3 right; left; eauto|]. revert Hown.
    apply owned_workers; try done; simpl; [by rewrite Hr|]. intros l' Hl' Hin. do 4 right; left. eauto.
  - destruct (mi_closer _ _ I') as (H1 & H2 & H3). simpl in *. split_and!; try done. rewrite Hr in H3. by destruct (closer w); try done; destruct H3.
Qed.
Lemma mcpi_take w p l : mcp_inv [] w → closer w = CWait → reaper w = RExited → takeAll (proxy w) = (p, l) →
  mcp_inv [] (setCloser (setProxy w p) (CClosing l)).
Proof.
  intros I Hc Hr. unfold takeAll. intros [= <- <-]. set (l := (map_to_list (connections (proxy w))).*2).
  assert (ctxDone (proxy w) = true) as Hd by by apply (mi_closer _ _ I).
  assert (mcp_inv l (setProxy w (withConnections (proxy w) ∅))) as I'.
  { apply (mcpi_shrink []); [done|apply map_empty_subseteq|set_solver|]. intros k e Hk. right. split; [|by right].
    unfold l. apply list_elem_of_fmap. exists (k, e). split; [done|]. by apply elem_of_map_to_list. }
  eapply mcpi_workers; [apply (mcpi_current _ _ (mkPrepared "" "" ∅) I'); by intros ???|done..| |].
  - intros e c x Hc' Hx [Hin|Hown]; [do 4 right; left; eauto|]. revert Hown.
    apply owned_workers; try done; simpl; [by rewrite Hr|by rewrite Hc].
  - simpl. done.
Qed.

(** Nothing waits in the lists of an idle reaper or of a finished [Close]. *)
Lemma owned_idle w w' e : proxy w' = proxy w → calls w' = calls w →
  reaper w' = reaper w ∧ closer w = CClosing [] ∨ closer w' = closer w ∧ (reaper w = RIdle ∨ reaper w = RClosing []) →
  owned w e → owned w' e.
Proof.
  intros Hp Ht Hor. apply owned_workers; [done..| |].
  - intros l Hl Hin. destruct Hor as [[Hr _]|[_ [Hr|Hr]]]; [do 3 right; left; exists l; by rewrite Hr|congruence|].
    rewrite Hr in Hl. simplify_eq. by apply elem_of_nil in Hin.
  - intros l Hl Hin. destruct Hor as [[_ Hc]|[Hc _]]; [|do 4 right; left; exists l; by rewrite Hc].
    rewrite Hc in Hl. simplify_eq. by apply elem_of_nil in Hin.
Qed.
Lemma mcpi_step w w' : mcp_inv [] w → step w w' → mcp_inv [] w'.
Proof.
  intros I Hs. destruct Hs;
    try match goal with H : closeConnection _ _ = Some _ |- _ => apply close_connection in H as [? ->] end.
  - by eapply mcpi_configure.
  - apply mcpi_call; [done|]. by eapply select_keyed.
  - by eapply mcpi_acquire.
  - by apply (mcpi_return _ _ (MSelected k s)).
  - by apply mcpi_evict.
  - by apply mcpi_enter.
  - by apply (mcpi_keep _ _ (MWaiting e s)); auto.
  - by apply (mcpi_keep _ _ (MHolding e s)); auto.
  - by apply mcpi_connected.
  - apply (mcpi_keep _ _ (MHolding e s)); try done; auto. by intros e' s' x [= <- <- <-].
  - by apply (mcpi_keep _ _ (MUsing e s c)); auto.
  - by eapply mcpi_failed.
  - by apply mcpi_unlock.
  - apply (mcpi_release w th e now); [done..|]. left. unfold release in *. simplify_eq. done.
  - apply (mcpi_release w th e now); [done..|]. right. unfold release in *. by simplify_eq.
  - by apply mcpi_closing.
  - by eapply mcpi_tick.
  - by apply mcpi_reap.
  - apply (mcpi_workers [] w); try done; [|destruct (mi_closer _ _ I) as (?&?&H3); split_and!; try done].
    + intros e c x _ _ [?%elem_of_nil|Hown]; [done|]. revert Hown. apply owned_idle; auto.
    + simpl. rewrite H in H3. by destruct (closer w); try done; destruct H3.
  - apply (mcpi_workers [] w); try done; [|destruct (mi_closer _ _ I) as (?&?&H3); split_and!; try done].
    + intros e c x _ _ [?%elem_of_nil|Hown]; [done|]. revert Hown. apply owned_idle; auto.
    + simpl. rewrite H in H3. by destruct (closer w); try done; destruct H3.
  - by apply mcpi_cancel.
  - by eapply mcpi_take.
  - by apply mcpi_shut_taken.
  - apply (mcpi_workers [] w); try done; [|destruct (mi_closer _ _ I) as (H1&?&H3); rewrite H in H1, H3; split_and!; try done].
    + intros e c x _ _ [?%elem_of_nil|Hown]; [done|]. revert Hown. apply owned_idle; auto.
    + intros _. by apply H1.
Qed.
Lemma mcpi_new o : 0 <= MaxConnections (withDefaults o) → mcp_inv [] (newMcp o).
Proof. intros H. split; simpl; try (intros *; by rewrite lookup_empty); try done. Qed.
Lemma defaults_positive o : 0 < MaxConnections (withDefaults o).
Proof. simpl. case_match; reflect_bools; lia. Qed.
Lemma mcpi_reach o w : mcp_reach parseURL digest o w → mcp_inv [] w.
Proof.
  induction 1; [|by eapply mcpi_step]. apply mcpi_new. pose proof (defaults_positive o). lia.
Qed.

(** ** What follows *)

Lemma keyed_one (digest_inj : Inj (=) (=) digest) k s s' : keyed k s → keyed k s' → s = s'.
Proof. intros (ss & Hd & Hs) (ss' & Hd' & Hs'). assert (ss = ss') as -> by (apply digest_inj; congruence). congruence. Qed.
Lemma using_client w th e s x : mcp_inv [] w → calls w !! th = Some (MUsing e s x) → ∃ c, heap (proxy w) !! e = Some c ∧ client c = Some x.
Proof.
  intros I H. destruct (mi_held _ _ I _ _ e H eq_refl) as (c & Hc & _). exists c. split; [done|].
  pose proof (mi_using _ _ I _ _ _ _ H) as Hu. by rewrite (entry_some _ _ _ Hc) in Hu.
Qed.
(** What [prepare] accepts: known transports, and header values that hold no line break. *)
Lemma headers_safe secrets l : ∀ acc hs, prepareHeaders secrets acc l = Ok hs →
  (∀ k v, acc.1 !! k = Some v → containsAny v [13; 10] = false) → ∀ k v, hs !! k = Some v → containsAny v [13; 10] = false.
Proof.
  induction l as [|kv l IH]; intros [headers missing] hs H Hacc k v Hk; simpl in H; [case_match; simplify_eq; by eapply Hacc|].
  destruct (Expand _ kv.2) as [expanded names].
  change (contains_byte 13 expanded || _) with (containsAny expanded [13; 10]) in H.
  destruct (containsAny expanded [13; 10]) eqn:He; simpl in H; [done|]. repeat (case_match; try done); simplify_eq.
  eapply IH; [done| |done]. intros k' v'. simpl. intros [[_ <-]|[_ ?]]%lookup_insert_Some; [done|by eapply Hacc].
Qed.
Definition safeServer (s : Server) : Prop := (Transport s = "sse" ∨ Transport s = "streamable_http") ∧ 0 <= TimeoutMS s ∧
  ∀ k v, Headers s !! k = Some v → containsAny v [13; 10] = false.
Lemma server_safe secrets ns ns' : prepareServer parseURL secrets ns = Ok ns' → safeServer ns'.2.
Proof.
  destruct ns as [name server]. unfold prepareServer, res_bind. destruct (parseURL _); [|done]. case_match; [done|].
  set (transport := if bool_decide (Transport server = "") then _ else _).
  destruct (negb (bool_decide (transport = "sse") || bool_decide (transport = "streamable_http"))) eqn:Ht; [done|].
  destruct (TimeoutMS server <? 0) eqn:Hn; [done|]. destruct (prepareHeaders _ _ _) as [hs|] eqn:Hh; [|done].
  intros [= <-]. split_and!; simpl.
  - reflect_bools. destruct Ht; reflect_bools; auto.
  - by apply Z.ltb_ge.
  - eapply headers_safe; [done|]. intros k v. simpl. by rewrite lookup_empty.
Qed.
Lemma prepare_safe b max r n s : prepare parseURL digest b max = Ok r → servers r !! n = Some s → safeServer s.
Proof.
  unfold prepare, res_bind. case_match; [done|]. destruct (res_map _ _) as [l|] eqn:Hl; [|done]. intros [= <-]. simpl. intros Hs.
  apply elem_of_list_to_map_2 in Hs. eapply (res_map_forall _ (λ ns, safeServer ns.2)) in Hl; [|intros x y; apply (server_safe (Secrets b))].
  rewrite Forall_forall in Hl. by apply Hl in Hs.
Qed.
(** A configuration reported as unchanged is the one in force. *)
Lemma configure_unchanged (digest_inj : Inj (=) (=) digest) p b p' :
  digestOf (current p) = digest (servers (current p)) → Configure parseURL digest p b = Ok (false, p') →
  current p' = current p.
Proof.
  intros Hc. unfold Configure, res_bind. destruct (prepare _ _ _ _) as [r|] eqn:Hr; [|done]. case_match; [done|]. intros [= Hf <-].
  apply prepare_digest in Hr. reflect_bools. simpl. destruct (current p) as [rv d ss], r as [rv' d' ss']. simpl in *. subst.
  assert (ss = ss') as -> by by apply digest_inj. done.
Qed.
(** A full pool refuses a new key only when every connection is in use. *)
Lemma none_idle p order best : oldestIdle p best order = None → best = None ∧ ∀ k e, (k, e) ∈ order → refs (connectionOf p e) ≠ 0.
Proof.
  revert best. induction order as [|[k e] order IH]; intros best H; simpl in H; [split; [done|]; by intros ?? ?%elem_of_nil|].
  apply IH in H as [Hb Hin]. destruct (refs (connectionOf p e) =? 0) eqn:Hr.
  - destruct best as [[]|]; simpl in Hb; [by case_match|done].
  - simpl in Hb. split; [done|]. intros k' e' [[= -> ->]|?]%elem_of_cons; [by apply Z.eqb_neq|by eapply Hin].
Qed.
Lemma capacity_refused p k order fresh now : order ≡ₚ map_to_list (connections p) → acquire p k order fresh now = Err ErrCapacity →
  connections p !! k = None ∧ MaxConnections (opts p) <= Z.of_nat (size (connections p)) ∧
  ∀ k' e, connections p !! k' = Some e → refs (connectionOf p e) ≠ 0.
Proof.
  intros Ho. unfold acquire. destruct (ctxDone p); [done|]. destruct (connections p !! k); [done|]. case_match eqn:Hm; [|done].
  destruct (oldestIdle p None order) as [[]|] eqn:Hold; [done|]. intros _. reflect_bools. split_and!; [done|done|].
  intros k' e He. apply none_idle in Hold as [_ Hn]. apply (Hn k'). rewrite Ho. by apply elem_of_map_to_list.
Qed.

(** C33: Under every interleaving of calls, configuration, the reaper and Close, and
    as long as the digest of configurations has no collisions, the pool of a Bed's MCP proxy
    holds at most [MaxConnections] connections; a call that has reached its client talks to
    exactly the server (address, transport and credentials) it selected, through an
    open client no other call is using; each connection counts the calls that hold it; every
    open client sits in a connection somebody will still close; and once Close has returned,
    a client is open only while a call that is still ending holds or closes its connection. *)
Theorem mcp_calls_isolated (digest_inj : Inj (=) (=) digest) o w : mcp_reach parseURL digest o w →
  Z.of_nat (size (connections (proxy w))) <= MaxConnections (opts (proxy w)) ∧
  (∀ th e s x, calls w !! th = Some (MUsing e s x) → clients w !! x = Some (s, true) ∧
    ∀ th' e' s', calls w !! th' = Some (MUsing e' s' x) → th' = th) ∧
  (∀ e c, heap (proxy w) !! e = Some c → refs c = holders w e) ∧
  (∀ x s, clients w !! x = Some (s, true) → ∃ e, client (entryOf w e) = Some x ∧ owned w e) ∧
  (closer w = CDone → ∀ x s, clients w !! x = Some (s, true) → ∃ th q e, calls w !! th = Some q ∧
    client (entryOf w e) = Some x ∧ (holdsOf q = Some e ∨ closesOf q = Some e)).
Proof.
  intros I%mcpi_reach. assert (∀ x s, clients w !! x = Some (s, true) → ∃ e, client (entryOf w e) = Some x ∧ owned w e) as Hopen.
  { intros x s Hx. destruct (mi_open _ _ I _ _ Hx) as (e & c & Hc & Hcx). exists e. rewrite (entry_some _ _ _ Hc). split; [done|].
    by destruct (mi_owned _ _ I _ _ _ Hc Hcx) as [?%elem_of_nil|]. }
  split_and!; [apply (mi_size _ _ I)| |apply (mi_refs _ _ I)|done|].
  - intros th e s x H. destruct (using_client _ _ _ _ _ I H) as (c & Hc & Hx). split.
    + destruct (mi_client _ _ I _ _ _ Hc Hx) as (s' & Hs & Hk). rewrite Hs. do 2 f_equal.
      pose proof (mi_serves _ _ I _ _ _ _ H eq_refl) as Hk'. rewrite (entry_some _ _ _ Hc) in Hk'. by eapply keyed_one.
    + intros th' e' s' H'. destruct (using_client _ _ _ _ _ I H') as (c' & Hc' & Hx').
      assert (e' = e) as -> by by eapply (mi_distinct _ _ I). by eapply (mi_one _ _ I).
  - intros Hd x s Hx. destruct (Hopen _ _ Hx) as (e & He & Ho). pose proof (mi_closer _ _ I) as (_ & _ & Hm). rewrite Hd in Hm. destruct Hm as [Hc Hr].
    destruct Ho as [[k Hk]|[(th & f & s' & H)|[(th & H)|[(l & ? & _)|[(l & ? & _)|(_ & th & q & H & Hq)]]]]]; [|eauto 10|eauto 10|congruence|congruence|eauto 10].
    by rewrite Hc, lookup_empty in Hk.
Qed.
End Safety.

(** ** A run: a call connects to the server of its own configuration *)

Definition demoURL (_ : string) : option parsedURL := Some (mkURL "https" "tools.example" false "").
Definition demoServer : Server := mkServer "https://tools.example/mcp" "" {["authorization" := "Bearer ${TOKEN}"]} 0.
Definition demoBundle : Bundle := mkBundle "r1" {["tools" := demoServer]} {["TOKEN" := "secret"]}.
Definition demoPrepared : Server := mkServer "https://tools.example/mcp" "streamable_http" {["Authorization" := "Bearer secret"]} 0.
Definition demoOptions : Options := mkOptions 0 0 1.
Example demo_prepare digest : prepare demoURL digest demoBundle 1 =
  Ok (mkPrepared "r1" (digest {["tools" := demoPrepared]}) {["tools" := demoPrepared]}).
Proof. vm_compute. reflexivity. Qed.
Definition demoKey (digest : gmap string Server → string) : connectionKey := mkKey "r1" (digest {["tools" := demoPrepared]}) "tools".
Lemma demo_select digest : runSelect demoURL digest (proxy (newMcp demoOptions)) "tools" (Some demoBundle) = Ok (demoKey digest, demoPrepared, 30 * second).
Proof. vm_compute. reflexivity. Qed.
Lemma demo_acquire p k now : opts p = withDefaults demoOptions → connections p = ∅ → ctxDone p = false →
  acquire p k [] 1 now = Ok (1, None, addEntry p ∅ k 1 now).
Proof. intros Ho Hc Hd. unfold acquire, addEntry. rewrite Ho, Hc, Hd. done. Qed.
Lemma demo_using digest : ∃ w, mcp_reach demoURL digest demoOptions w ∧ calls w !! 0 = Some (MUsing 1 demoPrepared 2).
Proof.
  set (k := demoKey digest). set (w0 := newMcp demoOptions).
  set (w1 := bumpNext (goto w0 0 (MSelected k demoPrepared))).
  set (w2 := bumpNext (goto (setProxy w1 (addEntry (proxy w1) ∅ k 1 5)) 0 (MWaiting 1 demoPrepared))).
  set (w3 := goto (updateEntry w2 1 (withGate true)) 0 (MHolding 1 demoPrepared)).
  exists (goto (connect w3 1 demoPrepared) 0 (MUsing 1 demoPrepared 2)). split; [|done].
  apply mr_step with w3; [|by apply (m_connect _ _ w3)]. apply mr_step with w2; [|by apply (m_enter _ _ w2)].
  apply mr_step with w1; [|by apply (m_acquire _ _ w1 0 k demoPrepared [] 5 1 None); [..|apply demo_acquire]].
  apply mr_step with w0; [constructor|]. apply (m_call _ _ w0 "tools" (Some demoBundle) _ _ (30 * second)). apply demo_select.
Qed.
Definition demoDigest (ss : gmap string Server) : string := pretty (Npos (encode ss)).
Lemma demo_digest_inj : Inj (=) (=) demoDigest.
Proof. intros a b H. unfold demoDigest in H. apply (inj pretty) in H. by simplify_eq. Qed.

Lemma mcp_calls_isolated_witness : ∃ w, mcp_reach demoURL demoDigest demoOptions w ∧
  calls w !! 0 = Some (MUsing 1 demoPrepared 2) ∧ clients w !! 2 = Some (demoPrepared, true).
Proof.
  destruct (demo_using demoDigest) as (w & Hr & Hu). exists w. split; [done|split; [done|]].
  destruct (mcp_calls_isolated demoURL demoDigest demo_digest_inj demoOptions w Hr) as (_ & Hx & _).
  apply (Hx _ _ _ _ Hu).
Defined.
