(* ===== verification/Luggage.v ===== *)
(** * Luggage: cold local copies and the inventory

    Models [internal/bed/manager/luggage.go]: the scan for directories no identity uses
    ([ListLuggage]), their collection by watermarks ([CollectLuggage]) and the inventory for
    the scheduler ([captureInventory], with [initializationStatusesLocked] of
    [initialization.go]).  The claim and removal of one copy is [LocalIdentity].  The sizes
    of directories do not come near the range of a 64-bit sum. *)

From stdpp Require Import sorting.
From S2P Require Import Prelude Bed Manager ManagerSteps ManagerInv.

(** What [meta.json] says of a copy; 0 is the zero time. *)
Record bedMeta := mkMeta {
  metaSync : option SyncKind; metaGeneration : Z; metaSnapshotGeneration : Z; metaSnapshotBytes : Z;
  metaLastActiveAt : Z; metaLastPersistedAt : Z }.
(** An entry of the workspace root, with its metadata when it can be read. *)
Record dirEntry := mkDirEntry { entryName : string; entryIsDir : bool; entryMeta : option bedMeta; entryBytes : Z; entryModTime : option Z }.
Record LuggageEntry := mkLuggage {
  leSync : SyncKind; leBedID : string; leBytes : Z; leGeneration : Z; leSnapshotGeneration : Z; leSnapshotBytes : Z; leLastActiveAt : Z }.

Section Luggage.
Context (valid : string → bool) (defaultSync : SyncKind).

(** [cleaning] are the identities whose removal is pending. *)
Definition activeName (m : Manager) (cleaning : gset string) (id : string) : bool :=
  bool_decide (is_Some (beds m !! id)) || bool_decide (is_Some (initializations m !! id)) ||
  bool_decide (is_Some (retirements m !! id)) || bool_decide (id ∈ cleaning) || bool_decide (is_Some (purges m !! id)).
Definition luggageOf (e : dirEntry) : LuggageEntry :=
  let meta := default (mkMeta None 0 0 0 0 0) (entryMeta e) in
  let stamp := if metaLastActiveAt meta =? 0 then metaLastPersistedAt meta else metaLastActiveAt meta in
  mkLuggage (default defaultSync (metaSync meta)) (entryName e) (entryBytes e) (metaGeneration meta)
    (metaSnapshotGeneration meta) (metaSnapshotBytes meta)
    (if stamp =? 0 then default 0 (entryModTime e) else stamp).
Definition ListLuggage (entries : option (list dirEntry)) (m : Manager) (cleaning : gset string) : list LuggageEntry :=
  luggageOf <$> filter (λ e, entryIsDir e && negb (activeName m cleaning (entryName e)) && valid (entryName e) = true) (default [] entries).

(** [CollectLuggage].  [stat] is the generation of a durable snapshot, [removed] the result
    of [removeLuggage], and [order] the copies as sorted. *)
Definition staleCopy (stat : LuggageEntry → option Z) (l : LuggageEntry) : bool :=
  match stat l with Some g => leGeneration l <? g | None => false end.
Definition luggageLess (stat : LuggageEntry → option Z) (a b : LuggageEntry) : bool :=
  if negb (Bool.eqb (staleCopy stat a) (staleCopy stat b)) then staleCopy stat a else leLastActiveAt a <? leLastActiveAt b.
Definition totalBytes (l : list LuggageEntry) : Z := foldr (λ x n, leBytes x + n) 0 l.
Fixpoint collectLoop (low total : Z) (removed : LuggageEntry → bool) (order : list LuggageEntry) : list LuggageEntry :=
  match order with
  | [] => []
  | l :: order =>
      if total <=? low then []
      else if removed l then l :: collectLoop low (total - leBytes l) removed order
      else collectLoop low total removed order
  end.
Definition CollectLuggage (high low : Z) (removed : LuggageEntry → bool) (luggage order : list LuggageEntry) : list LuggageEntry :=
  if high <=? 0 then []
  else if totalBytes luggage <=? high then []
  else collectLoop low (totalBytes luggage) removed order.

(** One row of the inventory; the other fields are copied from the same sources. *)
Record InventoryBed := mkInventory { invName : string; invPhase : LifecyclePhase; invGeneration : Z; invDataSynced : bool; invPinned : bool }.
Definition residentRow (m : Manager) (kp : string * bref) : InventoryBed :=
  let p := kp.2 in mkInventory (nameOf p) (phaseOf m p.1) (generation (getBed m p)) (dataSyncedLocked m p) (pinnedLocked m p).
Definition transitionRow (m : Manager) (q : mref) : InventoryBed := mkInventory q.1 (phaseOf m q) 0 false false.
Definition initializationStatusesLocked (m : Manager) (now : Z) : Manager * list InventoryBed :=
  let m := pruneFailedInitializationsLocked m now in
  (m, ((λ ki : string * iref, transitionRow m ki.2.1) <$>
        filter (λ ki, purges m !! ki.1 = None ∧ retirements m !! ki.1 = None) (map_to_list (initializations m))) ++
      ((λ kp : string * bref, transitionRow m kp.2.1) <$> filter (λ kp, purges m !! kp.1 = None) (map_to_list (retirements m))) ++
      ((λ kt : string * N, mkInventory kt.1 PhasePurging 0 false false) <$> map_to_list (purges m))).
Definition luggageRow (l : LuggageEntry) : InventoryBed := mkInventory (leBedID l) PhaseDormant (leGeneration l) true false.
Definition byName (a b : InventoryBed) : Prop := String.leb (invName a) (invName b) = true.
#[export] Instance byName_dec a b : Decision (byName a b).
Proof. unfold byName. apply _. Defined.
Definition captureInventory (luggage : list LuggageEntry) (m : Manager) (cleaning : gset string) (now : Z) : Manager * list InventoryBed :=
  let resident := residentRow m <$> filter (λ kp, purges m !! nameOf kp.2 = None) (map_to_list (beds m)) in
  let '(m, statuses) := initializationStatusesLocked m now in
  (m, merge_sort byName (resident ++ statuses ++ (luggageRow <$> filter (λ l, activeName m cleaning (leBedID l) = false) luggage))).
End Luggage.

(** ** Collection *)

Lemma collect_sub low removed order : ∀ total x, x ∈ collectLoop low total removed order → x ∈ order ∧ removed x = true.
Proof.
  induction order as [|l order IH]; intros total x Hx; simpl in Hx; [by apply elem_of_nil in Hx|].
  case_match; [by apply elem_of_nil in Hx|]. destruct (removed l) eqn:Hr.
  - apply elem_of_cons in Hx as [-> |Hx]; [split; [by left|done]|]. apply IH in Hx as [??]. split; [by right|done].
  - apply IH in Hx as [??]. split; [by right|done].
Qed.
(** The loop stops at the low watermark, or has tried every copy. *)
Lemma collect_reaches low removed order : ∀ total, 
  total - totalBytes (collectLoop low total removed order) <= low ∨
  ∀ x, x ∈ order → removed x = true → x ∈ collectLoop low total removed order.
Proof.
  induction order as [|l order IH]; intros total; simpl; [right; by intros x ?%elem_of_nil|].
  destruct (total <=? low) eqn:Ht; [left; reflect_bools; simpl; lia|]. destruct (removed l) eqn:Hr.
  - destruct (IH (total - leBytes l)) as [?|Hall]; [left; simpl; lia|right]. intros x [-> |Hx]%elem_of_cons Hrx; [by left|right; auto].
  - destruct (IH total) as [?|Hall]; [by left|right]. intros x [-> |Hx]%elem_of_cons Hrx; [congruence|auto].
Qed.
(** What is removed comes first in the order of removable copies. *)
Lemma collect_prefix (R : LuggageEntry → LuggageEntry → Prop) low removed order : StronglySorted R order → NoDup order → ∀ total x y,
  x ∈ collectLoop low total removed order → y ∈ order → removed y = true → y ∉ collectLoop low total removed order → R x y.
Proof.
  induction 1 as [|l order Hs IH Hl]; intros Hnd total x y Hx Hy Hr Hn; [by apply elem_of_nil in Hy|].
  apply NoDup_cons in Hnd as [Hnl Hnd]. simpl in *. case_match; [by apply elem_of_nil in Hx|]. destruct (removed l) eqn:Hrl.
  - apply not_elem_of_cons in Hn as [Hne Hn]. apply elem_of_cons in Hy as [|Hy]; [done|].
    apply elem_of_cons in Hx as [-> |Hx]; [rewrite Forall_forall in Hl; auto|by eapply IH].
  - apply elem_of_cons in Hy as [-> |Hy]; [congruence|by eapply IH].
Qed.
(** No copy is removed beyond need: before the last one, too much was left. *)
Lemma collect_needed low removed order : ∀ total pre x, collectLoop low total removed order = pre ++ [x] → low < total - totalBytes pre.
Proof.
  induction order as [|l order IH]; intros total pre x H; simpl in H; [by destruct pre|].
  destruct (total <=? low) eqn:Ht; [by destruct pre|]. reflect_bools. destruct (removed l).
  - destruct pre as [|y pre]; simpl in *; [lia|]. injection H as -> Hrest. apply IH in Hrest. lia.
  - by eapply IH.
Qed.

(** Collection starts only above the high watermark; it removes removable copies, outdated
    ones first and then those longest unused, until the rest is within the low watermark or
    nothing removable is left, and no more than that. *)
Lemma luggage_collected stat high low removed luggage order : order ≡ₚ luggage → NoDup luggage →
  StronglySorted (λ a b, luggageLess stat b a = false) order →
  let reaped := CollectLuggage high low removed luggage order in
  (high <= 0 ∨ totalBytes luggage <= high → reaped = []) ∧
  (∀ x, x ∈ reaped → x ∈ luggage ∧ removed x = true) ∧
  (0 < high < totalBytes luggage → totalBytes luggage - totalBytes reaped <= low ∨ ∀ x, x ∈ luggage → removed x = true → x ∈ reaped) ∧
  (∀ x y, x ∈ reaped → y ∈ luggage → removed y = true → y ∉ reaped → luggageLess stat y x = false) ∧
  (∀ pre x, reaped = pre ++ [x] → low < totalBytes luggage - totalBytes pre).
Proof.
  intros Ho Hnd Hs. assert (NoDup order) as Hno by by rewrite Ho. unfold CollectLuggage.
  assert (∀ x, x ∈ luggage ↔ x ∈ order) as He by (intros x; by rewrite Ho).
  destruct (high <=? 0) eqn:H1; [reflect_bools; simpl; split_and!; [done|by intros ? ?%elem_of_nil|lia|by intros ?? ?%elem_of_nil|by intros []]|].
  destruct (totalBytes luggage <=? high) eqn:H2; [reflect_bools; simpl; split_and!; [done|by intros ? ?%elem_of_nil|lia|by intros ?? ?%elem_of_nil|by intros []]|].
  reflect_bools. split_and!.
  - intros []; lia.
  - intros x. rewrite He. apply collect_sub.
  - intros _. destruct (collect_reaches low removed order (totalBytes luggage)) as [?|Hall]; [by left|right]. intros x. rewrite He. auto.
  - intros x y Hx Hy. rewrite He in Hy. eapply (collect_prefix (λ a b, luggageLess stat b a = false)); done.
  - intros pre x. apply collect_needed.
Qed.

(** ** The inventory *)

Lemma fmap_names {A} (f : A → InventoryBed) (g : A → string) (l : list A) :
  (∀ x, x ∈ l → invName (f x) = g x) → invName <$> (f <$> l) = g <$> l.
Proof. intros H. rewrite <-list_fmap_compose. apply list_fmap_ext. intros i x Hx. apply H. by eapply list_elem_of_lookup_2. Qed.
Lemma keys_nodup {A} (m : gmap string A) (P : string * A → Prop) `{!∀ x, Decision (P x)} : NoDup (fst <$> filter P (map_to_list m)).
Proof.
  apply NoDup_fmap_2_strong; [|apply NoDup_filter, NoDup_map_to_list].
  intros [k a] [k' a'] [_ Ha%elem_of_map_to_list]%list_elem_of_filter [_ Ha'%elem_of_map_to_list]%list_elem_of_filter. simpl in *. intros ->. congruence.
Qed.
Lemma keys_in {A} (m : gmap string A) (P : string * A → Prop) `{!∀ x, Decision (P x)} k :
  k ∈ fst <$> filter P (map_to_list m) ↔ ∃ a, m !! k = Some a ∧ P (k, a).
Proof.
  rewrite list_elem_of_fmap. split.
  - intros ([k' a] & -> & [HP Hm%elem_of_map_to_list]%list_elem_of_filter). eauto.
  - intros (a & Hm & HP). exists (k, a). split; [done|]. apply list_elem_of_filter. by rewrite elem_of_map_to_list.
Qed.

Lemma filter_same {A} (P Q : A → Prop) `{!∀ x, Decision (P x), !∀ x, Decision (Q x)} (l : list A) : (∀ x, x ∈ l → P x ↔ Q x) → filter P l = filter Q l.
Proof.
  induction l as [|x l IH]; intros Hl; [done|]. rewrite !filter_cons.
  assert (P x ↔ Q x) by (apply Hl; by left). rewrite IH by (intros y Hy; apply Hl; by right). repeat case_decide; naive_solver.
Qed.
Lemma filter_nodup {A} (f : A → string) (P : A → Prop) `{!∀ x, Decision (P x)} (l : list A) : NoDup (f <$> l) → NoDup (f <$> filter P l).
Proof.
  induction l as [|x l IH]; intros Hl; [done|]. rewrite fmap_cons in Hl. apply NoDup_cons in Hl as [Hx Hl]. rewrite filter_cons.
  case_decide; [|auto]. rewrite fmap_cons. apply NoDup_cons. split; [|auto]. contradict Hx.
  apply list_elem_of_fmap in Hx as (y & Hy & [_ ?]%list_elem_of_filter). rewrite Hy. by apply list_elem_of_fmap_2.
Qed.
(** The names of the rows, by where they come from. *)
Lemma inventory_names w luggage cleaning now m rows : struct_inv w → captureInventory luggage (mg w) cleaning now = (m, rows) →
  m = pruneFailedInitializationsLocked (mg w) now ∧
  invName <$> rows ≡ₚ (fst <$> filter (λ kp : string * bref, purges m !! kp.1 = None) (map_to_list (beds m))) ++
    (fst <$> filter (λ ki : string * iref, purges m !! ki.1 = None ∧ retirements m !! ki.1 = None) (map_to_list (initializations m))) ++
    (fst <$> filter (λ kp : string * bref, purges m !! kp.1 = None) (map_to_list (retirements m))) ++
    (fst <$> map_to_list (purges m)) ++ (leBedID <$> filter (λ l, activeName m cleaning (leBedID l) = false) luggage).
Proof.
  intros I. unfold captureInventory, initializationStatusesLocked. set (m' := pruneFailedInitializationsLocked (mg w) now).
  assert (∀ k i, initializations m' !! k = Some i → initializations (mg w) !! k = Some i) as Hpr.
  { intros k i Hi. by apply map_lookup_filter_Some in Hi as [? _]. }
  intros [= <- <-]. split; [done|]. rewrite merge_sort_Permutation. rewrite !fmap_app, <- !app_assoc.
  change (beds m') with (beds (mg w)). change (retirements m') with (retirements (mg w)). change (purges m') with (purges (mg w)).
  f_equiv; [|f_equiv; [|f_equiv; [|f_equiv]]].
  - rewrite (fmap_names _ fst).
    + rewrite (filter_same _ (λ kp : string * bref, purges (mg w) !! kp.1 = None)); [done|].
      intros [k p] H%elem_of_map_to_list. simpl. by destruct (sv_bed _ I _ _ H) as [-> _].
    + intros [k p] [_ H%elem_of_map_to_list]%list_elem_of_filter. simpl. apply (sv_bed _ I _ _ H).
  - rewrite (fmap_names _ fst); [done|]. intros [k i] [_ H%elem_of_map_to_list]%list_elem_of_filter. simpl. apply (sv_init _ I _ _ (Hpr _ _ H)).
  - rewrite (fmap_names _ fst); [done|]. intros [k p] [_ H%elem_of_map_to_list]%list_elem_of_filter. simpl. apply (sv_ret _ I _ _ H).
  - rewrite (fmap_names _ fst); [done|]. by intros [k t].
  - rewrite (fmap_names _ leBedID); [done|]. by intros l.
Qed.

(** In every reachable state each name has one row, and the names are those that are
    resident, initializing, retiring or purging, and the cold copies not being removed. *)
Lemma inventory_exact w luggage cleaning now m rows : reachable w → NoDup (leBedID <$> luggage) →
  captureInventory luggage (mg w) cleaning now = (m, rows) →
  NoDup (invName <$> rows) ∧
  ∀ n, n ∈ invName <$> rows ↔ is_Some (beds m !! n) ∨ is_Some (initializations m !! n) ∨ is_Some (retirements m !! n) ∨
    is_Some (purges m !! n) ∨ (n ∈ leBedID <$> luggage ∧ n ∉ cleaning).
Proof.
  intros I%struct_reachable Hnd H. destruct (inventory_names _ _ _ _ _ _ I H) as [-> Hrows]. set (m := pruneFailedInitializationsLocked (mg w) now) in *.
  assert (∀ k i, initializations m !! k = Some i → beds m !! k = None) as Hib.
  { intros k i Hi. apply map_lookup_filter_Some in Hi as [Hi _]. apply (sv_init _ I _ _ Hi). }
  assert (∀ k p, beds m !! k = Some p → retirements m !! k = None) as Hbr by (intros k p Hp; apply (sv_bed _ I _ _ Hp)).
  assert (∀ n, n ∈ fst <$> map_to_list (purges m) ↔ is_Some (purges m !! n)) as Hpu.
  { intros n. rewrite list_elem_of_fmap. split; [intros ([k t] & -> & Ht%elem_of_map_to_list); eauto|].
    intros [t Ht]. exists (n, t). by rewrite elem_of_map_to_list. }
  assert (∀ n, n ∈ leBedID <$> filter (λ l, activeName m cleaning (leBedID l) = false) luggage ↔
    n ∈ leBedID <$> luggage ∧ activeName m cleaning n = false) as Hlu.
  { intros n. rewrite !list_elem_of_fmap. split.
    - intros (l & -> & [? ?]%list_elem_of_filter). eauto.
    - intros [(l & -> & ?) ?]. exists l. by rewrite list_elem_of_filter. }
  assert (∀ n, activeName m cleaning n = false ↔ beds m !! n = None ∧ initializations m !! n = None ∧ retirements m !! n = None ∧
    n ∉ cleaning ∧ purges m !! n = None) as Hac.
  { intros n. unfold activeName. rewrite !orb_false_iff, !bool_decide_eq_false, <- !eq_None_not_Some. tauto. }
  clearbody m. clear H. split.
  - rewrite Hrows. apply NoDup_app; split; [apply keys_nodup|split]; [|apply NoDup_app; split; [apply keys_nodup|split]];
      [| |apply NoDup_app; split; [apply keys_nodup|split]]; [| | |apply NoDup_app; split_and!].
    1-3: intros n Hn; rewrite keys_in in Hn; rewrite ?elem_of_app, ?keys_in, ?Hpu, ?Hlu, ?Hac; simpl in *.
    + destruct Hn as (p & Hp & Hn). intros [(i & Hi & _)|[(q & Hq & _)|[[t Ht]|(_ & ? & _)]]]; [|by rewrite (Hbr _ _ Hp) in Hq|congruence|congruence].
      by rewrite (Hib _ _ Hi) in Hp.
    + destruct Hn as (i & Hi & Hn & Hr). intros [(q & Hq & _)|[[t Ht]|(_ & _ & ? & _)]]; congruence.
    + destruct Hn as (q & Hq & Hn). intros [[t Ht]|(_ & _ & _ & ? & _)]; congruence.
    + apply NoDup_fst_map_to_list.
    + intros n. rewrite Hpu, Hlu, Hac. intros [t Ht] (_ & _ & _ & _ & _ & ?). congruence.
    + by apply filter_nodup.
  - intros n. rewrite Hrows, !elem_of_app, !keys_in, Hpu, Hlu, Hac. simpl.
    destruct (purges m !! n) as [t|] eqn:Ht; [split; eauto 10|].
    destruct (beds m !! n) as [p|] eqn:Hb; [split; eauto 10|]. destruct (retirements m !! n) as [q|] eqn:Hr; [split; eauto 10|].
    destruct (initializations m !! n) as [i|] eqn:Hi; [split; eauto 10|]. split.
    + intros [(? & [=] & _)|[(? & [=] & _)|[(? & [=] & _)|[[? [=]]|(Hin & _ & _ & _ & Hn & _)]]]]. do 4 right. done.
    + intros [[? [=]]|[[? [=]]|[[? [=]]|[[? [=]]|[Hin Hn]]]]]. do 4 right. by split_and!.
Qed.
